(* ===== verification/_CoqProject ===== *)
-Q . S2P
Prelude.v
Words.v
NetAddr.v
Disco.v
RelayProto.v
FrameReader.v
Mpsc.v
Hub.v
CryptoError.v
ReplayWindow.v
Crypto.v
NoisePacket.v
Session.v
Instant.v
Handshake.v
Noise.v
Cryptor.v
NetText.v
Prefix.v
RouteTable.v
Ipam.v
Domain.v
ControlStore.v
ControlInv.v
ControlProps.v
CryptorSafe.v
IndexTable.v
Probes.v
Gso.v
Peer.v
Worker.v
WorkerInv.v
WorkerPath.v
WorkerProps.v
Takeover.v
Apply.v
NodeConfig.v
NodeView.v
Reconciler.v
ReconcileInv.v
ReconcileProps.v
SqlDb.v
SqlControl.v
SqlInv.v
SqlMigrate.v
SqlEpoch.v
SqlConfig.v
SqlProps.v
Pop.v
AdminAuth.v
ControlApi.v
SqlFrame.v
ApiInv.v
ApiState.v
WatchFeed.v
ApiProps.v
HostRun.v
HostSim.v
Rib.v
HostRoutes.v
ExitSpec.v
Bypass.v
BypassSpec.v
HostEffects.v
HostAccount.v
OverlaySpec.v
TunnelSpec.v
NodeSpec.v
RibSim.v
NodeRun.v
Forwarding.v
DnsFile.v
DnsSpec.v
DnsInv.v
DnsSim.v
DnsRun.v
DnsUci.v
DnsBackends.v
