(* ===== verification/Prelude.v ===== *)
(** * Fluxpeer: a verification development

    Fluxpeer is a mesh VPN in Rust.  A control plane keeps networks, devices, routes and
    administrators and serves every device its configuration; a node on each device runs the
    WireGuard-style data plane, finds direct paths to its peers and falls back to relays; a
    relay forwards sealed datagrams between nodes that cannot reach each other.  This library
    models these programs as Rocq functions and proves what makes them correct.  Paths below
    are relative to the repository.

    ** Conventions

    A fallible Rust function returns [res E A]: [Ok], [Err], or [Panic] for an index out of
    range, an [unwrap] or an overflow check; code that changes state is a computation in
    [st S E A] (this file).  Machine integers are [Z] kept at their width by [wrap] (Words);
    bytes are [Byte.byte]; text is [string], or a list of characters while it is parsed
    (NetText).  Hash maps are [gmap], ordered or repeated data are lists.  What is not in the
    repository (cryptography, the database, the operating system, channels, clocks,
    randomness, serde) is a type class whose laws state documented behaviour; each class has
    a concrete instance, which the witnesses of the theorems use.

    ** Codecs and text

    Disco (engine/net/fp-disco) and RelayProto (relay-server/proto.rs) are the two wire
    formats: decoding what was encoded gives the message back, no input panics, and the
    decoders take no more than a frame.  FrameReader (relay-server/server.rs) cuts a byte
    stream into frames whatever its chunks.  NetAddr, NetText and Prefix are addresses, their
    text and CIDR prefixes.

    ** Relay

    Hub over Mpsc (relay-server/hub.rs, server.rs): registration, admission, routing by public
    key and the pump of a connection, as a step relation over any number of sessions.  A
    client cannot send in the name of another, and a datagram goes to the current session of
    its addressee or nowhere.

    ** Tunnel cryptography

    ReplayWindow, Crypto, NoisePacket, Session, Instant, Handshake, Noise, Cryptor and
    CryptorSafe (engine/crypto).  The bitmap window refines the set of all counters received;
    no counter is accepted twice and no nonce used twice; the handshake of two honest ends
    gives both the same keys, and packets sent through the resulting tunnel arrive; no bytes
    panic a cryptor (but for counters within 2048 of 2^64, which a peer would have to send).

    ** Data plane

    RouteTable, IndexTable, Probes, Gso, Peer and Worker (node/src: worker.rs, peer.rs,
    disco.rs, gso.rs, util.rs), with WorkerInv, WorkerPath and WorkerProps.  A worker handles
    one message at a time; clocks, randomness, the route table and the kernel's answers come
    from an arbitrary sequence of readings, and theorems that name a reading say which ones a
    message took.  Whatever arrives, a worker keeps its invariant and does not panic; a packet
    reaches the TUN only from an authenticated peer that owns its source address; a peer's UDP
    address moves only on authenticated evidence; routing picks the most specific owner.
    Takeover shows the limit of the last but one: an initiation that was accepted once is
    accepted again.  Every call of the cryptor gets a zeroed buffer (the code reuses two), and
    durations are unbounded.  In Gso a plain send is taken to reach the wire and a refused
    segmented send to have sent nothing.
    NodeConfig, NodeView, Apply and Reconciler (node/src: control.rs, lib.rs, apply.rs), with
    ReconcileInv and ReconcileProps, are the configuration a node reads and the loop that
    brings its tables and workers in line with it: it converges, and fails closed.

    ** Host

    HostRun is the host as the node sees it: commands and files, any of which may fail, also
    after taking effect.  A triple over views of the host specifies an effect on success and
    on error; HostSim is a host with planned faults that satisfies the laws.  Forwarding
    (node/src/firewall/forwarding.rs): leases of several nodes on the kernel's forwarding
    settings.  Rib is the routing table, with its whole history; HostRoutes and ExitSpec
    (route.rs) the split default and IPv6 guard of a full tunnel; Bypass and BypassSpec
    (bypass.rs) the routes of the carriers; HostEffects (lib.rs, apply.rs) a pass over all
    effects and the shutdown.  HostAccount, OverlaySpec, TunnelSpec and NodeSpec account for
    the one table the three share, and NodeRun draws the conclusions for any sequence of
    steps: foreign routes stay, the records name the node's routes, a successful pass has
    applied its configuration, and a shutdown removes carriers only once nothing is redirected
    and restores the table for good.  These theorems are about a host whose own table has none
    of the prefixes the node installs ([Setting]: [ip route replace] would overwrite them) and
    about carriers outside the overlay ([acceptable]).  A route command that fails is taken to
    have changed nothing, also one that is killed at its deadline.  An IPv6 overlay route that
    the host has no IPv6 for is skipped, or left behind off record when its removal fails for
    that reason.  The settings of Forwarding are 0 or 1 and change only by the nodes' commands.
    RibSim is the simulated host of the witnesses.

    ** Name servers

    DnsFile (node/src/dns/managed.rs) is the resolver file that several nodes share: a journal
    under a lock holds the content found first, the owners in order and the last two contents
    written.  DnsSpec states what links, lock and clock do and has the triples for methods
    that hold the journal; DnsInv is the invariant that ties the journal to the file; DnsRun
    draws the conclusions, on the host of DnsSim: as long as calls succeed the last owner to
    leave puts the first content back, and with one node also when one of its calls failed
    anywhere.  DnsUci (dns.rs) is the backend for dnsmasq on OpenWrt with the same kind of
    theorem, any command failing, for one fixed server that dnsmasq did not have ([Site]).  DnsBackends shows that both keep to the interface through
    which HostEffects calls them.  A file is taken to be written whole or not at all.

    ** Control plane

    Ipam, Domain and ControlStore with ControlInv and ControlProps are the in-memory store
    (control-server/src: ipam.rs, domain.rs, state.rs).  SqlDb, SqlControl and SqlMigrate are
    the persistent one (persistence.rs, integrity.rs, contention.rs, sql_store.rs,
    device_routes.rs), statement by statement over a database that may fail any statement or
    lose its answer; SqlInv, SqlFrame, SqlEpoch, SqlConfig and SqlProps show that the tables
    stay intact through any failure and any migration, that a change of configuration raises
    the epoch, and what enrolment, revocation and configurations are.  The invariant is about
    keys and IPv4 addresses: the code checks IPv6 addresses nowhere, and migration takes over
    invites unchecked.  The reads of one configuration are one step.  Pop, AdminAuth,
    ControlApi and WatchFeed are the HTTP interface over it (pop.rs, auth.rs, lib.rs); ApiInv,
    ApiState and ApiProps show who may do what, that devices change only what is theirs, and
    that the configuration feed stops when its credential does.

    ** Bounds and fuel

    Loops over machine words run with fuel where Rocq needs it: [clear_fuel] of ReplayWindow
    covers the whole window, the readers of NetText and FrameReader the length of their
    input, and a store operation is retried at most as often as the code retries it
    (theorem [retry_terminates]).  Resolving a path follows 40 links as in the code, and
    the wait for the lock of the journal has 1001 rounds of 10 ms, enough for its 10 s by
    [lock_loop_ends].  Running out is a [Panic], which the theorems exclude.

    ** Theorems that show a defect

    Where the code departs from its comments or its purpose, a theorem says so.  Three hold of
    every state they can happen in: [init_replay_takes_over] (a recorded initiation takes a
    peer over), [sql_epoch_gap] (a failed approval changes configurations under their epoch)
    and [last_admin_race] (two administrators delete each other).  Others are concrete runs:
    [carrier_lost_while_redirecting], [replay_wraparound], [path_ladders_disagree],
    [failed_updates_strand], [interrupted_restore_strands], [openwrt_change_leaks],
    [openwrt_clear_stuck] and more.  Each is stated next to its component.

    ** Not modelled

    Sockets, TLS, HTTP and JSON text, process management, the terminal, foreign function
    interfaces, the TUN drivers, the rules of the firewall backends, Windows variants of host
    commands, and the earlier client and server engines under engine/sys, which the node no
    longer uses.  The token bucket of the relay counts in floating point.  Scheduling by tokio
    appears as arbitrary interleaving of steps, and lock acquisition as atomicity of the
    section it guards. *)

From stdpp Require Export base tactics list gmap strings numbers.
From Stdlib Require Export Strings.Byte.

#[global] Open Scope Z_scope.

(** ** Results of fallible Rust code

    [Ok]/[Err] are the constructors of [Result]; [Panic] is a Rust panic (an
    index or slice out of bounds).  Keeping the panic apart from [Err] lets a
    theorem say that a parser never panics. *)

Inductive res (E A : Type) : Type :=
| Ok (a : A)
| Err (e : E)
| Panic.
Arguments Ok {E A} a.
Arguments Err {E A} e.
Arguments Panic {E A}.

#[global] Instance res_ret E : MRet (res E) := fun A a => Ok a.
#[global] Instance res_bind E : MBind (res E) := fun A B f m =>
  match m with Ok a => f a | Err e => Err e | Panic => Panic end.
#[global] Instance res_fmap E : FMap (res E) := fun A B f m =>
  match m with Ok a => Ok (f a) | Err e => Err e | Panic => Panic end.

(** [Option::ok_or]. *)
Definition ok_or {E A} (o : option A) (e : E) : res E A :=
  match o with Some a => Ok a | None => Err e end.

(** [Result::map_err]. *)
Definition map_err {E E' A} (f : E → E') (m : res E A) : res E' A :=
  match m with Ok a => Ok a | Err e => Err (f e) | Panic => Panic end.

(** [Result::ok]; a panic stays a panic, so it is not an [option]. *)
Definition is_ok {E A} (m : res E A) : bool :=
  match m with Ok _ => true | _ => false end.

(** [Result::unwrap_or]. *)
Definition unwrap_or {E A} (m : res E A) (d : A) : A :=
  match m with Ok a => a | _ => d end.

(** The computation ends in a value or an error, never in a panic. *)
Definition no_panic {E A} (m : res E A) : Prop := m ≠ Panic.

#[global] Instance res_eq_dec E A `{EqDecision E, EqDecision A} : EqDecision (res E A).
Proof. solve_decision. Defined.

(** Injectivity as lemmas: applying them does not simplify the terms. *)
Lemma Ok_inj {E A} (a b : A) : Ok (E:=E) a = Ok b → a = b.
Proof. by intros [=]. Qed.

Lemma Err_inj {E A} (a b : E) : Err (A:=A) a = Err b → a = b.
Proof. by intros [=]. Qed.

Lemma bind_Ok {E A B} (a : A) (f : A → res E B) : (Ok a ≫= f) = f a.
Proof. reflexivity. Qed.

Lemma bind_Ok_inv {E A B} (m : res E A) (f : A → res E B) b :
  m ≫= f = Ok b → ∃ a, m = Ok a ∧ f a = Ok b.
Proof. destruct m; naive_solver. Qed.

Lemma no_panic_bind {E A B} (m : res E A) (f : A → res E B) :
  no_panic m → (∀ a, m = Ok a → no_panic (f a)) → no_panic (m ≫= f).
Proof. destruct m; unfold no_panic; naive_solver. Qed.

Lemma no_panic_Ok {E A} (a : A) : no_panic (E:=E) (Ok a).
Proof. done. Qed.

Lemma no_panic_Err {E A} (e : E) : no_panic (A:=A) (Err e).
Proof. done. Qed.

Lemma no_panic_ok_or {E A} (o : option A) (e : E) : no_panic (ok_or o e).
Proof. by destruct o. Qed.

Lemma no_panic_map_err {E E' A} (f : E → E') (m : res E A) :
  no_panic m → no_panic (map_err f m).
Proof. by destruct m. Qed.

Create HintDb res_db.
#[export] Hint Resolve no_panic_Ok no_panic_Err no_panic_ok_or no_panic_map_err : res_db.

(** Take a successful run of a monadic program apart, one [bind] at a time. *)
Ltac res_inv :=
  repeat match goal with
  | H : Ok _ = Ok _ |- _ => apply Ok_inj in H; subst
  | H : Err _ = Err _ |- _ => apply Err_inj in H; subst
  | H : (_, _) = (_, _) |- _ => apply pair_equal_spec in H as [? ?]; subst
  | H : Ok _ = Err _ |- _ => discriminate H
  | H : Err _ = Ok _ |- _ => discriminate H
  | H : Panic = _ |- _ => discriminate H
  | H : _ = Panic |- _ => discriminate H
  | H : (_ ≫= _) = Ok _ |- _ => apply bind_Ok_inv in H as (? & ? & ?)
  | H : mret _ = _ |- _ => unfold mret, res_ret in H
  end.

(** Split on the scrutinee of an [if] in the goal or in a hypothesis and turn
    the boolean test into the proposition it decides. *)
Ltac case_if :=
  match goal with
  | |- context [if ?b then _ else _] => destruct b eqn:?
  | H : context [if ?b then _ else _] |- _ => destruct b eqn:?
  end.

(** Boolean comparisons in the context as propositions on [Z] and [nat]. *)
Ltac bool_prop :=
  repeat match goal with
  | H : (_ && _)%bool = true |- _ => apply andb_true_iff in H as [? ?]
  | H : (_ || _)%bool = false |- _ => apply orb_false_iff in H as [? ?]
  | H : negb _ = true |- _ => apply negb_true_iff in H
  | H : negb _ = false |- _ => apply negb_false_iff in H
  | H : Z.eqb _ _ = true |- _ => apply Z.eqb_eq in H
  | H : Z.eqb _ _ = false |- _ => apply Z.eqb_neq in H
  | H : Z.leb _ _ = true |- _ => apply Z.leb_le in H
  | H : Z.leb _ _ = false |- _ => apply Z.leb_gt in H
  | H : Z.ltb _ _ = true |- _ => apply Z.ltb_lt in H
  | H : Z.ltb _ _ = false |- _ => apply Z.ltb_ge in H
  | H : bool_decide _ = true |- _ => apply bool_decide_eq_true in H
  | H : bool_decide _ = false |- _ => apply bool_decide_eq_false in H
  end.

(** ** Lists measured in [Z]

    A Rust length is a [usize]; wire lengths are compared as [Z], so that a
    length field of 2^32-1 never becomes a unary number. *)

Definition len {A} (l : list A) : Z := Z.of_nat (length l).

Lemma len_nil {A} : len (@nil A) = 0.
Proof. reflexivity. Qed.

Lemma len_cons {A} (x : A) l : len (x :: l) = 1 + len l.
Proof. unfold len; cbn [length]; lia. Qed.

Lemma len_app {A} (l k : list A) : len (l ++ k) = len l + len k.
Proof. unfold len; rewrite length_app; lia. Qed.

Lemma len_nonneg {A} (l : list A) : 0 ≤ len l.
Proof. unfold len; lia. Qed.

Lemma to_nat_len {A} (l : list A) : Z.to_nat (len l) = length l.
Proof. unfold len; lia. Qed.

Lemma len_replicate {A} n (x : A) : len (replicate n x) = Z.of_nat n.
Proof. unfold len; by rewrite length_replicate. Qed.

Lemma len_map {A B} (f : A → B) l : len (map f l) = len l.
Proof. unfold len; by rewrite length_map. Qed.

(** [&l\[a..b\]]: panics unless [a <= b <= l.len()]. *)
Definition slice {E A} (a b : Z) (l : list A) : res E (list A) :=
  if (0 <=? a) && (a <=? b) && (b <=? len l)
  then Ok (take (Z.to_nat (b - a)) (drop (Z.to_nat a) l)) else Panic.

(** [&l\[a..\]]. *)
Definition slice_from {E A} (a : Z) (l : list A) : res E (list A) := slice a (len l) l.

(** [l\[i\]]. *)
Definition index {E A} (l : list A) (i : Z) : res E A :=
  if 0 <=? i then match l !! Z.to_nat i with Some x => Ok x | None => Panic end else Panic.

(** [l.get(..n)]. *)
Definition get_prefix {A} (n : Z) (l : list A) : option (list A) :=
  if (0 <=? n) && (n <=? len l) then Some (take (Z.to_nat n) l) else None.

Lemma slice_Ok {E A} a b (l : list A) :
  0 ≤ a → a ≤ b → b ≤ len l →
  slice (E:=E) a b l = Ok (take (Z.to_nat (b - a)) (drop (Z.to_nat a) l)).
Proof.
  intros. unfold slice.
  by rewrite !(proj2 (Z.leb_le _ _)) by lia.
Qed.

Lemma slice_inv {E A} a b (l s : list A) :
  slice (E:=E) a b l = Ok s →
  0 ≤ a ≤ b ∧ b ≤ len l ∧ s = take (Z.to_nat (b - a)) (drop (Z.to_nat a) l).
Proof. unfold slice. case_if; intros; res_inv; bool_prop; split_and!; done || lia. Qed.

Lemma len_slice {E A} a b (l s : list A) : slice (E:=E) a b l = Ok s → len s = b - a.
Proof.
  intros (? & ? & ->)%slice_inv. unfold len in *.
  rewrite length_take, length_drop. lia.
Qed.

Lemma slice_split {E A} a b (l s : list A) :
  slice (E:=E) a b l = Ok s → l = take (Z.to_nat a) l ++ s ++ drop (Z.to_nat b) l.
Proof.
  intros (? & ? & ->)%slice_inv.
  rewrite <-(take_drop (Z.to_nat a) l) at 1. f_equal.
  rewrite <-(take_drop (Z.to_nat (b - a)) (drop (Z.to_nat a) l)) at 1.
  rewrite drop_drop. do 2 f_equal. lia.
Qed.

Lemma slice_app_mid {E A} (l1 l2 l3 : list A) a b :
  a = len l1 → b = len l1 + len l2 → slice (E:=E) a b (l1 ++ l2 ++ l3) = Ok l2.
Proof.
  intros -> ->. pose proof (len_nonneg l1). pose proof (len_nonneg l2).
  pose proof (len_nonneg l3).
  rewrite slice_Ok by (rewrite ?len_app; lia).
  replace (len l1 + len l2 - len l1) with (len l2) by lia.
  unfold len. rewrite !Nat2Z.id, drop_app_length, take_app_length. done.
Qed.

Lemma slice_app_pre {E A} (l2 l3 : list A) b :
  b = len l2 → slice (E:=E) 0 b (l2 ++ l3) = Ok l2.
Proof. intros ->. apply (slice_app_mid [] l2 l3); [done | rewrite len_nil; lia]. Qed.

Lemma slice_from_app {E A} (l1 l2 : list A) a :
  a = len l1 → slice_from (E:=E) a (l1 ++ l2) = Ok l2.
Proof.
  intros ->. unfold slice_from.
  rewrite <-(app_nil_r l2) at 2. apply slice_app_mid; [done | by rewrite len_app].
Qed.

Lemma slice_full {E A} (l : list A) b : b = len l → slice (E:=E) 0 b l = Ok l.
Proof. intros ->. rewrite <-(app_nil_r l) at 2. by apply slice_app_pre. Qed.

Lemma no_panic_slice {E A} a b (l : list A) :
  0 ≤ a → a ≤ b → b ≤ len l → no_panic (slice (E:=E) a b l).
Proof. intros. by rewrite slice_Ok. Qed.

Lemma no_panic_slice_from {E A} a (l : list A) :
  0 ≤ a → a ≤ len l → no_panic (slice_from (E:=E) a l).
Proof. intros. by apply no_panic_slice. Qed.

Lemma index_inv {E A} (l : list A) i x :
  index (E:=E) l i = Ok x → 0 ≤ i ∧ l !! Z.to_nat i = Some x.
Proof.
  unfold index. case_if; [|done]. destruct (l !! _); naive_solver (bool_prop; done || lia).
Qed.

Lemma index_lookup {E A} (l : list A) i x :
  0 ≤ i → l !! Z.to_nat i = Some x → index (E:=E) l i = Ok x.
Proof. intros ? Hx. unfold index. rewrite (proj2 (Z.leb_le _ _)) by lia. by rewrite Hx. Qed.

Lemma no_panic_index {E A} (l : list A) i :
  0 ≤ i → i < len l → no_panic (index (E:=E) l i).
Proof.
  intros. destruct (lookup_lt_is_Some_2 l (Z.to_nat i)) as [x Hx].
  { unfold len in *; lia. }
  by rewrite (index_lookup _ _ x).
Qed.

Lemma get_prefix_app {A} n (l k : list A) : n = len l → get_prefix n (l ++ k) = Some l.
Proof.
  intros ->. unfold get_prefix. pose proof (len_nonneg l). pose proof (len_nonneg k).
  rewrite len_app, !(proj2 (Z.leb_le _ _)) by lia. cbn [andb].
  unfold len. by rewrite Nat2Z.id, take_app_length.
Qed.

Lemma get_prefix_inv {A} n (l s : list A) :
  get_prefix n l = Some s → 0 ≤ n ≤ len l ∧ len s = n ∧ l = s ++ drop (Z.to_nat n) l.
Proof.
  unfold get_prefix. case_if; [|done]. bool_prop. intros [= <-]. unfold len in *.
  rewrite length_take, take_drop. split_and!; lia || done.
Qed.

#[export] Hint Resolve no_panic_slice no_panic_slice_from no_panic_index len_nonneg : res_db.
Create Rewrite HintDb len_db.
#[export] Hint Rewrite @len_nil @len_cons @len_app @len_replicate @len_map : len_db.

(** Normalise every length in sight and close the arithmetic. *)
Ltac len_lia := autorewrite with len_db in *; unfold len in *; lia.

(** A monadic program never panics: follow the binds and the tests, and leave
    the bounds of each access to the context. *)
Ltac no_panic_step :=
  first
    [ solve [eauto with res_db]
    | apply no_panic_bind; [|intros ? ?]
    | match goal with |- context [match ?x with _ => _ end] => destruct x eqn:? end ].

(** ** Loops

    A [while] loop with fuel; [None] when the fuel runs out. *)

Fixpoint while_ {S : Type} (fuel : nat) (cond : S → bool) (body : S → S) (s : S) : option S :=
  match fuel with
  | O => None
  | Datatypes.S fuel => if cond s then while_ fuel cond body (body s) else Some s
  end.

(** The loop rule: an invariant, and a measure that the body decreases, give a
    final state satisfying the invariant and the negated condition. *)
Lemma while_rule {S : Type} (I : S → Prop) (m : S → Z) fuel cond body (s : S) :
  (∀ s, I s → cond s = true → I (body s) ∧ m (body s) < m s ∧ 0 < m s) →
  I s → m s < Z.of_nat fuel → (0 < fuel)%nat →
  ∃ s', while_ fuel cond body s = Some s' ∧ I s' ∧ cond s' = false.
Proof.
  intros Hstep. revert s. induction fuel as [|fuel IH]; intros s Hs Hm Hf; [lia|]. cbn.
  destruct (cond s) eqn:E; [|eauto]. destruct (Hstep s Hs E) as (? & ? & ?).
  destruct fuel as [|fuel]; [lia|]. apply IH; [done|lia|lia].
Qed.

(** ** State and errors

    [st S E A] is Rust code that mutates a state [S] through [&mut self] and may
    return early with [?]: the changes made before an error stay. *)

Definition st (S E A : Type) : Type := S → res E A * S.

Section St.
Context {S E : Type}.

#[global] Instance st_ret : MRet (st S E) := fun A a s => (Ok a, s).
#[global] Instance st_bind : MBind (st S E) := fun A B f m s =>
  match m s with
  | (Ok a, s) => f a s
  | (Err e, s) => (Err e, s)
  | (Panic, s) => (Panic, s)
  end.

Definition get : st S E S := fun s => (Ok s, s).
Definition modify (f : S → S) : st S E unit := fun s => (Ok tt, f s).

(** Early return of a computation that does not touch the state. *)
Definition lift {A} (m : res E A) : st S E A := fun s => (m, s).

Lemma st_bind_Ok {A B} (m : st S E A) (f : A → st S E B) s a s' :
  m s = (Ok a, s') → (m ≫= f) s = f a s'.
Proof. unfold mbind, st_bind. by intros ->. Qed.

Lemma st_bind_Ok_inv {A B} (m : st S E A) (f : A → st S E B) s b s' :
  (m ≫= f) s = (Ok b, s') → ∃ a s1, m s = (Ok a, s1) ∧ f a s1 = (Ok b, s').
Proof. unfold mbind, st_bind. destruct (m s) as [[] ?]; naive_solver. Qed.

Lemma lift_bind_Ok {A B} (m : res E A) (f : A → st S E B) s a :
  m = Ok a → (lift m ≫= f) s = f a s.
Proof. by intros ->. Qed.

(** The computation leaves [P] of the state as it was, whatever its outcome. *)
Definition preserves {T A} (P : S → T) (m : st S E A) : Prop :=
  ∀ s r s', m s = (r, s') → P s' = P s.

Lemma preserves_bind {T A B} (P : S → T) (m : st S E A) (f : A → st S E B) :
  preserves P m → (∀ a, preserves P (f a)) → preserves P (m ≫= f).
Proof.
  intros Hm Hf s r s'. unfold mbind, st_bind. destruct (m s) as [[a|e|] s1] eqn:Em; intros H.
  - apply Hf in H. apply Hm in Em. congruence.
  - injection H as _ <-. by eapply Hm.
  - injection H as _ <-. by eapply Hm.
Qed.

Lemma preserves_lift {T A} (P : S → T) (m : res E A) : preserves P (lift m).
Proof. by intros s r s' [= _ <-]. Qed.

Lemma preserves_get {T} (P : S → T) : preserves P get.
Proof. by intros s r s' [= _ <-]. Qed.

Lemma preserves_ret {T A} (P : S → T) (a : A) : preserves P (mret a).
Proof. by intros s r s' [= _ <-]. Qed.

Lemma preserves_modify {T} (P : S → T) f : (∀ s, P (f s) = P s) → preserves P (modify f).
Proof. intros Hf s r s' [= _ <-]. apply Hf. Qed.
End St.

(** [returns m Q]: a value the computation returns satisfies [Q], whatever the state.  The
    computations that do not matter for [Q] are stepped over. *)
Section Returns.
Context {S E : Type}.

Definition returns {A} (m : st S E A) (Q : A → Prop) : Prop := ∀ s a s', m s = (Ok a, s') → Q a.

Lemma returns_bind {A B} (m : st S E A) (f : A → st S E B) P Q :
  returns m P → (∀ a, P a → returns (f a) Q) → returns (m ≫= f) Q.
Proof. intros Hm Hf s b s' (a & s1 & Ha & Hb)%st_bind_Ok_inv. by eapply Hf; [eapply Hm|]. Qed.

Lemma returns_skip {A B} (m : st S E A) (f : A → st S E B) Q :
  (∀ a, returns (f a) Q) → returns (m ≫= f) Q.
Proof. intros Hf. by apply (returns_bind _ _ (fun _ => True)). Qed.

Lemma returns_ret {A} (a : A) (Q : A → Prop) : Q a → returns (mret a) Q.
Proof. intros Ha s b s' [= <- <-]. done. Qed.

Lemma returns_panic {A} (Q : A → Prop) : returns (lift Panic) Q.
Proof. by intros s b s' [=]. Qed.

Lemma returns_impl {A} (m : st S E A) (P Q : A → Prop) :
  returns m P → (∀ a, P a → Q a) → returns m Q.
Proof. intros Hm HPQ s a s' Hr. by eapply HPQ, Hm. Qed.
End Returns.

Create HintDb st_db.
#[export] Hint Resolve preserves_lift preserves_get preserves_ret preserves_modify : st_db.

(** Follow the binds, tests and matches of a computation that preserves [P]. *)
Ltac preserves :=
  repeat first
    [ solve [eauto with st_db]
    | apply preserves_bind; [|intros ?]
    | case_if
    | match goal with |- preserves _ (match ?x with _ => _ end) => destruct x end ].

(** ** Triples

    [triple I m Q]: from a state satisfying [I] the computation ends (with a value or
    an error, never a panic) in a state satisfying [I], and a value it returns
    satisfies [Q]. *)

Section Triple.
Context {S E : Type} (I : S → Prop).

Definition outcome {A} (Q : A → Prop) (r : res E A) : Prop :=
  match r with Ok a => Q a | Err _ => True | Panic => False end.

Definition triple {A} (m : st S E A) (Q : A → Prop) : Prop :=
  ∀ s r s', I s → m s = (r, s') → I s' ∧ outcome Q r.

Lemma triple_bind {A B} (m : st S E A) (f : A → st S E B) P Q :
  triple m P → (∀ a, P a → triple (f a) Q) → triple (m ≫= f) Q.
Proof.
  intros Hm Hf s r s' Hs. unfold mbind, st_bind. destruct (m s) as [ra s1] eqn:Em.
  destruct (Hm s ra s1 Hs Em) as [H1 HP]. destruct ra as [a|e|]; [|intros [= <- <-]; done..].
  intros Hr. by apply (Hf a HP s1).
Qed.

Lemma triple_lift {A} (m : res E A) (Q : A → Prop) : outcome Q m → triple (lift m) Q.
Proof. intros Hm s r s' Hs [= <- <-]. done. Qed.

Lemma triple_ret {A} (a : A) (Q : A → Prop) : Q a → triple (mret a) Q.
Proof. intros Ha s r s' Hs [= <- <-]. done. Qed.

Lemma triple_get (Q : S → Prop) : (∀ s, I s → Q s) → triple get Q.
Proof. intros HQ s r s' Hs [= <- <-]. cbn. auto. Qed.

Lemma triple_modify f : (∀ s, I s → I (f s)) → triple (modify f) (fun _ => True).
Proof. intros Hf s r s' Hs [= <- <-]. cbn. auto. Qed.

Lemma triple_weaken {A} (m : st S E A) (P Q : A → Prop) :
  triple m P → (∀ a, P a → Q a) → triple m Q.
Proof.
  intros Hm HPQ s r s' Hs Hr. destruct (Hm s r s' Hs Hr) as [? Ho]. split; [done|].
  destruct r; cbn in *; auto.
Qed.
End Triple.

Lemma outcome_no_panic {E A} (m : res E A) : no_panic m → outcome (fun _ => True) m.
Proof. by destruct m. Qed.
#[export] Hint Resolve outcome_no_panic : res_db.

(** One step through a computation under [triple], when its first part is
    independent of the state and cannot panic. *)
Ltac triple_step :=
  apply (triple_bind _ _ _ (fun _ => True));
    [solve [apply triple_get; done | apply triple_lift; solve [done | eauto with res_db]]|intros ? _];
  cbv zeta.

Lemma outcome_slice {E A} a b (l : list A) :
  0 ≤ a → a ≤ b → b ≤ len l → outcome (E:=E) (fun s => len s = b - a) (slice a b l).
Proof. intros. destruct (slice a b l) eqn:Hs; cbn; [by eapply len_slice|done|by eapply no_panic_slice]. Qed.
