(* ===== verification/Words.v ===== *)
(** * Bytes and machine words

    A [u8] is a [Byte.byte]; a wider unsigned integer is a [Z] in its range.
    [be_bytes]/[le_bytes] are [to_be_bytes]/[to_le_bytes], [be_val]/[le_val]
    the matching [from_*_bytes].  [wrap w] is the truncation every [as uN]
    cast and every release-mode arithmetic operation performs. *)

From S2P Require Import Prelude.

#[global] Instance byte_eq_dec : EqDecision byte := Byte.byte_eq_dec.
#[global] Instance byte_countable : Countable byte :=
  inj_countable Byte.to_N Byte.of_N Byte.of_to_N.

(** ** Truncation to a width *)

Definition wrap (w z : Z) : Z := z mod 2 ^ w.

Definition fits (w z : Z) : Prop := 0 ≤ z < 2 ^ w.

#[global] Instance fits_dec w z : Decision (fits w z).
Proof. unfold fits. apply _. Defined.

Lemma wrap_fits w z : 0 ≤ w → fits w (wrap w z).
Proof. intros. apply Z.mod_pos_bound. lia. Qed.

Lemma wrap_id w z : fits w z → wrap w z = z.
Proof. apply Z.mod_small. Qed.

Lemma wrap_wrap w z : wrap w (wrap w z) = wrap w z.
Proof. unfold wrap. apply Zmod_mod. Qed.

#[export] Hint Resolve wrap_fits wrap_id : res_db.

(** ** Bytes *)

Definition b2z (b : byte) : Z := Z.of_N (Byte.to_N b).

Definition z2b (z : Z) : byte :=
  match Byte.of_N (Z.to_N (z mod 256)) with Some b => b | None => x00 end.

Lemma b2z_range b : 0 ≤ b2z b < 256.
Proof. unfold b2z. pose proof (Byte.to_N_bounded b). lia. Qed.

Lemma z2b_b2z b : z2b (b2z b) = b.
Proof.
  unfold z2b. rewrite Z.mod_small by apply b2z_range.
  unfold b2z. by rewrite N2Z.id, Byte.of_to_N.
Qed.

Lemma b2z_z2b z : b2z (z2b z) = z mod 256.
Proof.
  unfold z2b, b2z. pose proof (Z.mod_pos_bound z 256 ltac:(lia)) as Hr.
  destruct (Byte.of_N _) as [b|] eqn:Hb.
  - apply Byte.to_of_N in Hb. lia.
  - apply Byte.of_N_None_iff in Hb. lia.
Qed.

Lemma b2z_inj b c : b2z b = b2z c → b = c.
Proof. intros H. by rewrite <-(z2b_b2z b), H, z2b_b2z. Qed.

Lemma z2b_mod z : z2b (z mod 256) = z2b z.
Proof. unfold z2b. by rewrite Z.mod_mod. Qed.

(** ** Big-endian words *)

Fixpoint be_bytes (n : nat) (z : Z) : list byte :=
  match n with
  | O => []
  | S n => z2b (z / 256 ^ Z.of_nat n) :: be_bytes n z
  end.

Fixpoint be_val (l : list byte) : Z :=
  match l with
  | [] => 0
  | b :: l => b2z b * 256 ^ Z.of_nat (length l) + be_val l
  end.

Lemma length_be_bytes n z : length (be_bytes n z) = n.
Proof. induction n; cbn; congruence. Qed.

Lemma len_be_bytes n z : len (be_bytes n z) = Z.of_nat n.
Proof. unfold len. by rewrite length_be_bytes. Qed.

Lemma be_val_range l : 0 ≤ be_val l < 256 ^ len l.
Proof.
  induction l as [|b l IH]; cbn [be_val]; [change (0 ≤ 0 < 1); lia|].
  rewrite len_cons, Z.pow_add_r by len_lia. pose proof (b2z_range b).
  unfold len in *. nia.
Qed.

Lemma be_val_be_bytes n z : be_val (be_bytes n z) = z mod 256 ^ Z.of_nat n.
Proof.
  induction n as [|n IH]; cbn [be_val be_bytes]; [by rewrite Z.mod_1_r|].
  rewrite length_be_bytes, IH, b2z_z2b.
  rewrite Nat2Z.inj_succ, Z.pow_succ_r, (Z.mul_comm 256) by lia.
  rewrite Z.rem_mul_r by lia. lia.
Qed.

Lemma be_bytes_mod n z : be_bytes n (z mod 256 ^ Z.of_nat n) = be_bytes n z.
Proof.
  revert z; induction n as [|n IH]; intros z; cbn [be_bytes]; [done|]. f_equal.
  - rewrite <-(z2b_mod (_ / _)), <-(z2b_mod (z / _)).
    rewrite Nat2Z.inj_succ, Z.pow_succ_r, (Z.mul_comm 256) by lia.
    rewrite Z.rem_mul_r by lia.
    rewrite (Z.mul_comm (256 ^ _)), Z.div_add by lia.
    rewrite (Z.div_small (z mod _)) by (apply Z.mod_pos_bound; lia).
    by rewrite Z.add_0_l, Z.mod_mod.
  - rewrite <-(IH z), <-IH. f_equal.
    rewrite Nat2Z.inj_succ, Z.pow_succ_r, (Z.mul_comm 256) by lia.
    rewrite Z.rem_mul_r by lia.
    rewrite (Z.mul_comm (256 ^ _)), Z.mod_add, !Z.mod_mod by lia. done.
Qed.

Lemma be_bytes_be_val l : be_bytes (length l) (be_val l) = l.
Proof.
  induction l as [|b l IH]; cbn [be_val be_bytes length]; [done|].
  pose proof (be_val_range l) as Hr. unfold len in Hr. f_equal.
  - rewrite Z.add_comm, Z.div_add, Z.div_small by lia. apply z2b_b2z.
  - rewrite <-be_bytes_mod, Z.add_comm, Z.mod_add, Z.mod_small by lia. done.
Qed.

(** ** Little-endian words *)

Definition le_bytes (n : nat) (z : Z) : list byte := reverse (be_bytes n z).
Definition le_val (l : list byte) : Z := be_val (reverse l).

Lemma length_le_bytes n z : length (le_bytes n z) = n.
Proof. unfold le_bytes. by rewrite length_reverse, length_be_bytes. Qed.

Lemma len_le_bytes n z : len (le_bytes n z) = Z.of_nat n.
Proof. unfold len. by rewrite length_le_bytes. Qed.

Lemma le_val_le_bytes n z : le_val (le_bytes n z) = z mod 256 ^ Z.of_nat n.
Proof. unfold le_val, le_bytes. by rewrite reverse_involutive, be_val_be_bytes. Qed.

Lemma le_bytes_le_val l : le_bytes (length l) (le_val l) = l.
Proof.
  unfold le_val, le_bytes.
  rewrite <-(length_reverse l), be_bytes_be_val. apply reverse_involutive.
Qed.

Lemma le_val_range l : 0 ≤ le_val l < 256 ^ len l.
Proof.
  unfold le_val. pose proof (be_val_range (reverse l)) as H.
  unfold len in *. by rewrite length_reverse in H.
Qed.

#[export] Hint Rewrite @len_be_bytes @len_le_bytes : len_db.

(** The round trips at the widths the wire formats use. *)
Lemma be_val_u16 z : fits 16 z → be_val (be_bytes 2 z) = z.
Proof. intros. rewrite be_val_be_bytes. by apply (wrap_id 16). Qed.
Lemma be_val_u32 z : fits 32 z → be_val (be_bytes 4 z) = z.
Proof. intros. rewrite be_val_be_bytes. by apply (wrap_id 32). Qed.
Lemma be_val_u64 z : fits 64 z → be_val (be_bytes 8 z) = z.
Proof. intros. rewrite be_val_be_bytes. by apply (wrap_id 64). Qed.
Lemma be_val_u128 z : fits 128 z → be_val (be_bytes 16 z) = z.
Proof. intros. rewrite be_val_be_bytes. by apply (wrap_id 128). Qed.
Lemma le_val_u32 z : fits 32 z → le_val (le_bytes 4 z) = z.
Proof. intros. rewrite le_val_le_bytes. by apply (wrap_id 32). Qed.
Lemma le_val_u64 z : fits 64 z → le_val (le_bytes 8 z) = z.
Proof. intros. rewrite le_val_le_bytes. by apply (wrap_id 64). Qed.

(** ** Length-prefixed headers

    [u32::from_be_bytes(\[l\[i\], l\[i+1\], l\[i+2\], l\[i+3\]\])]: the way both wire
    protocols read the length field that follows the type byte. *)

Definition read_u32_be {E} (l : list byte) (i : Z) : res E Z :=
  b0 ← index l i; b1 ← index l (i + 1); b2 ← index l (i + 2); b3 ← index l (i + 3);
  Ok (be_val [b0; b1; b2; b3]).

Lemma no_panic_read_u32_be {E} l i :
  0 ≤ i → i + 3 < len l → no_panic (read_u32_be (E:=E) l i).
Proof.
  intros. unfold read_u32_be.
  repeat (apply no_panic_bind; [apply no_panic_index; lia|intros ? _]); done.
Qed.

Lemma read_u32_be_range {E} l i z : read_u32_be (E:=E) l i = Ok z → fits 32 z.
Proof.
  unfold read_u32_be. intros H.
  do 4 apply bind_Ok_inv in H as (? & _ & H). apply Ok_inj in H as <-.
  apply be_val_range.
Qed.

(** A buffer of at least five bytes starts with a type byte and a length. *)
Lemma header_view buf :
  5 ≤ len buf → ∃ ty L rest, fits 32 L ∧ buf = ty :: be_bytes 4 L ++ rest.
Proof.
  intros H. destruct buf as [|ty buf]; [len_lia|].
  exists ty, (be_val (take 4 buf)), (drop 4 buf).
  assert (length (take 4 buf) = 4%nat) as Hl by (rewrite length_take; len_lia).
  pose proof (be_val_range (take 4 buf)) as Hr. unfold len in Hr. rewrite Hl in Hr.
  split; [done|]. rewrite <-Hl at 1. by rewrite be_bytes_be_val, take_drop.
Qed.

Lemma read_header {E} ty L rest :
  fits 32 L →
  index (E:=E) (ty :: be_bytes 4 L ++ rest) 0 = Ok ty ∧
  read_u32_be (E:=E) (ty :: be_bytes 4 L ++ rest) 1 = Ok L.
Proof.
  intros HL. split; [done|].
  transitivity (Ok (E:=E) (be_val (be_bytes 4 L))); [done|by rewrite be_val_u32].
Qed.

Lemma slice_header {E} ty L bd rest :
  L = len bd →
  slice (E:=E) 5 (5 + L) (ty :: be_bytes 4 L ++ bd ++ rest) = Ok bd.
Proof.
  intros ->. apply (slice_app_mid (ty :: be_bytes 4 (len bd)) bd rest); len_lia.
Qed.
#[export] Hint Resolve no_panic_read_u32_be : res_db.

Lemma header_inj ty ty' L L' r r' :
  fits 32 L → fits 32 L' →
  ty :: be_bytes 4 L ++ r = ty' :: be_bytes 4 L' ++ r' → ty = ty' ∧ L = L' ∧ r = r'.
Proof.
  intros HL HL' H. pose proof (f_equal tail H) as Ht. cbn [tail] in Ht.
  apply app_inj_1 in Ht as [Hb Hr]; [|done]. apply (f_equal be_val) in Hb.
  rewrite !be_val_u32 in Hb by done. split_and!; try done. by apply (f_equal head) in H as [= ->].
Qed.

(** ** Masks *)

(** [x & !mask] for a mask of the low [k] bits clears them. *)
Lemma land_clear_low w k x :
  0 ≤ k ≤ w → fits w x → Z.land x (wrap w (Z.lnot (Z.ones k))) = x - x mod 2 ^ k.
Proof.
  unfold fits, wrap. intros Hk Hx.
  transitivity (Z.ldiff x (Z.ones k)); [|by rewrite Z.ldiff_ones_r, Z.shiftl_mul_pow2, Z.shiftr_div_pow2 by lia;
    rewrite (Z.div_mod x (2 ^ k)) at 2 by (apply Z.pow_nonzero; lia); lia].
  apply Z.bits_inj'. intros n Hn. rewrite Z.land_spec, Z.ldiff_spec.
  destruct (decide (n < w)) as [Hl|Hl].
  - rewrite Z.mod_pow2_bits_low, Z.lnot_spec by lia. done.
  - rewrite Z.mod_pow2_bits_high by lia.
    rewrite <-(Z.mod_small x (2 ^ w)), (Z.mod_pow2_bits_high x) by lia. done.
Qed.

(** [a | b] is [a + b] when [b] fits below the low bits [a] leaves clear. *)
Lemma lor_disjoint k a b : 0 ≤ k → a mod 2 ^ k = 0 → 0 ≤ b < 2 ^ k → Z.lor a b = a + b.
Proof.
  intros Hk Ha Hb. rewrite <-Z.lxor_lor, <-Z.add_nocarry_lxor; try done.
  all: apply Z.bits_inj'; intros n Hn; rewrite Z.land_spec, Z.bits_0.
  all: destruct (decide (n < k)) as [Hl|Hl];
    [rewrite <-(Z.mod_pow2_bits_low a k), Ha, Z.bits_0 by lia; done|].
  all: rewrite <-(Z.mod_small b (2 ^ k)), (Z.mod_pow2_bits_high b) by lia; apply andb_false_r.
Qed.
