(* ===== verification/NetAddr.v ===== *)
(** * [std::net] addresses

    [Ipv4Addr] is its [u32] and [Ipv6Addr] its [u128] (both as [Z]); the
    octets are the big-endian bytes, as [octets()] returns them.  A
    [SocketAddr] is a [SocketAddrV4] or a [SocketAddrV6], the latter with the
    flow label and scope id that [SocketAddr::new] sets to 0. *)

From S2P Require Import Prelude.
From S2P Require Import Words.

Inductive IpAddr :=
| V4 (ip : Z)
| V6 (ip : Z).

Inductive SocketAddr :=
| SockV4 (ip port : Z)
| SockV6 (ip port flowinfo scope_id : Z).

#[global] Instance IpAddr_eq_dec : EqDecision IpAddr.
Proof. solve_decision. Defined.
#[global] Instance SocketAddr_eq_dec : EqDecision SocketAddr.
Proof. solve_decision. Defined.

#[global] Instance SocketAddr_countable : Countable SocketAddr.
Proof.
  refine (inj_countable'
    (fun a => match a with
              | SockV4 ip p => inl (ip, p)
              | SockV6 ip p f s => inr (ip, p, f, s) end)
    (fun x => match x with
              | inl (ip, p) => SockV4 ip p
              | inr (ip, p, f, s) => SockV6 ip p f s end) _); by intros [].
Defined.

(** [SocketAddr::new], [ip()] and [port()]. *)
Definition sock_new (ip : IpAddr) (port : Z) : SocketAddr :=
  match ip with V4 a => SockV4 a port | V6 a => SockV6 a port 0 0 end.
Definition sock_ip (a : SocketAddr) : IpAddr :=
  match a with SockV4 ip _ => V4 ip | SockV6 ip _ _ _ => V6 ip end.
Definition sock_port (a : SocketAddr) : Z :=
  match a with SockV4 _ p => p | SockV6 _ p _ _ => p end.

Definition ip_ok (a : IpAddr) : Prop :=
  match a with V4 ip => fits 32 ip | V6 ip => fits 128 ip end.

(** The addresses a Rust program can hold. *)
Definition sock_ok (a : SocketAddr) : Prop :=
  match a with
  | SockV4 ip p => fits 32 ip ∧ fits 16 p
  | SockV6 ip p f s => fits 128 ip ∧ fits 16 p ∧ fits 32 f ∧ fits 32 s
  end.

(** No flow label and no scope: the address is determined by its ip and port. *)
Definition plain (a : SocketAddr) : Prop :=
  match a with SockV4 _ _ => True | SockV6 _ _ f s => f = 0 ∧ s = 0 end.

#[global] Instance ip_ok_dec a : Decision (ip_ok a).
Proof. destruct a; apply _. Defined.
#[global] Instance sock_ok_dec a : Decision (sock_ok a).
Proof. destruct a; apply _. Defined.
#[global] Instance plain_dec a : Decision (plain a).
Proof. destruct a; apply _. Defined.

Lemma plain_new a : plain a → sock_new (sock_ip a) (sock_port a) = a.
Proof. destruct a; [done|]. by intros [-> ->]. Qed.
