(* ===== verification/Disco.v ===== *)
(** * NAT-traversal control messages (engine/net/fp-disco/src/lib.rs)

    The pure codec of the disco messages: [encode] frames a message as
    [type:u8, len:u32 BE, body], [decode] reads one message off the front of a
    buffer and reports how many bytes it took.  Every index and slice of the
    source is an access that can panic here. *)

From S2P Require Import Prelude.
From S2P Require Import Words.
From S2P Require Import NetAddr.

Definition T_PING : byte := x01.
Definition T_PONG : byte := x02.
Definition T_CALL_ME_MAYBE : byte := x03.

Definition KEY_LEN : Z := 32.
Definition TXID_LEN : Z := 12.
Definition HEADER_LEN : Z := 1 + 4.
Definition AF_V4 : byte := x04.
Definition AF_V6 : byte := x06.
Definition MAX_CANDIDATES : Z := 64.

Inductive Disco :=
| Ping (tx_id sender : list byte)
| Pong (tx_id : list byte) (observed : SocketAddr)
| CallMeMaybe (candidates : list SocketAddr).

Inductive Error :=
| ShortBuffer (need have : Z)
| UnknownType (ty : byte)
| Malformed
| TooManyCandidates (n : Z).

#[global] Instance Disco_eq_dec : EqDecision Disco.
Proof. solve_decision. Defined.
#[global] Instance Error_eq_dec : EqDecision Error.
Proof. solve_decision. Defined.

(** [put_addr(out, a)]. *)
Definition put_addr (out : list byte) (a : SocketAddr) : list byte :=
  let out := match sock_ip a with
             | V4 ip => (out ++ [AF_V4]) ++ be_bytes 4 ip
             | V6 ip => (out ++ [AF_V6]) ++ be_bytes 16 ip
             end in
  out ++ be_bytes 2 (sock_port a).

(** [get_addr(b)]: the address and the number of bytes it took. *)
Definition get_addr (b : list byte) : res Error (SocketAddr * Z) :=
  af ← ok_or (head b) Malformed;
  if decide (af = AF_V4) then
    let need := 1 + 4 + 2 in
    s ← ok_or (get_prefix need b) Malformed;
    s1 ← index s 1; s2 ← index s 2; s3 ← index s 3; s4 ← index s 4;
    s5 ← index s 5; s6 ← index s 6;
    Ok (sock_new (V4 (be_val [s1; s2; s3; s4])) (be_val [s5; s6]), need)
  else if decide (af = AF_V6) then
    let need := 1 + 16 + 2 in
    s ← ok_or (get_prefix need b) Malformed;
    o ← slice 1 17 s;
    s17 ← index s 17; s18 ← index s 18;
    Ok (sock_new (V6 (be_val o)) (be_val [s17; s18]), need)
  else Err Malformed.

Definition type_byte (m : Disco) : byte :=
  match m with
  | Ping _ _ => T_PING
  | Pong _ _ => T_PONG
  | CallMeMaybe _ => T_CALL_ME_MAYBE
  end.

Definition body (m : Disco) : list byte :=
  match m with
  | Ping tx_id sender => tx_id ++ sender
  | Pong tx_id observed => put_addr tx_id observed
  | CallMeMaybe candidates =>
      foldl put_addr (be_bytes 2 (wrap 16 (len candidates))) candidates
  end.

Definition encode (m : Disco) : list byte :=
  let body := body m in
  type_byte m :: be_bytes 4 (wrap 32 (len body)) ++ body.

(** The [for _ in 0..count] loop of the CallMeMaybe arm: the candidates read
    from [off] on and the offset reached. *)
Fixpoint get_candidates (count : nat) (body : list byte) (off : Z) : res Error (list SocketAddr * Z) :=
  match count with
  | O => Ok ([], off)
  | S count =>
      b ← slice_from off body;
      '(a, n) ← get_addr b;
      '(cs, off') ← get_candidates count body (off + n);
      Ok (a :: cs, off')
  end.

Definition decode_ping (body : list byte) : res Error Disco :=
  if negb (len body =? TXID_LEN + KEY_LEN) then Err Malformed else
  tx_id ← slice 0 TXID_LEN body;
  sender ← slice_from TXID_LEN body;
  Ok (Ping tx_id sender).

Definition decode_pong (body : list byte) : res Error Disco :=
  if len body <? TXID_LEN then Err Malformed else
  tx_id ← slice 0 TXID_LEN body;
  b ← slice_from TXID_LEN body;
  '(observed, n) ← get_addr b;
  if negb (TXID_LEN + n =? len body) then Err Malformed else
  Ok (Pong tx_id observed).

Definition decode_call_me_maybe (body : list byte) : res Error Disco :=
  c0 ← ok_or (head body) Malformed;
  c1 ← ok_or (body !! 1%nat) Malformed;
  let count := be_val [c0; c1] in
  if MAX_CANDIDATES <? count then Err (TooManyCandidates count) else
  '(candidates, off) ← get_candidates (Z.to_nat count) body 2;
  if negb (off =? len body) then Err Malformed else
  Ok (CallMeMaybe candidates).

(** The [match ty] of [decode]. *)
Definition decode_msg (ty : byte) (body : list byte) : res Error Disco :=
  if decide (ty = T_PING) then decode_ping body
  else if decide (ty = T_PONG) then decode_pong body
  else if decide (ty = T_CALL_ME_MAYBE) then decode_call_me_maybe body
  else Err (UnknownType ty).

Definition decode (buf : list byte) : res Error (Disco * Z) :=
  if len buf <? HEADER_LEN then Err (ShortBuffer HEADER_LEN (len buf)) else
  ty ← index buf 0;
  length ← read_u32_be buf 1;
  let total := HEADER_LEN + length in
  if len buf <? total then Err (ShortBuffer total (len buf)) else
  body ← slice HEADER_LEN total buf;
  msg ← decode_msg ty body;
  Ok (msg, total).

(** The messages the type of the source can hold, with addresses that carry no
    flow label or scope (the wire format has no room for them) and at most
    [MAX_CANDIDATES] candidates. *)
Definition msg_ok (m : Disco) : Prop :=
  match m with
  | Ping tx_id sender => len tx_id = TXID_LEN ∧ len sender = KEY_LEN
  | Pong tx_id observed => len tx_id = TXID_LEN ∧ sock_ok observed ∧ plain observed
  | CallMeMaybe cs => len cs ≤ MAX_CANDIDATES ∧ Forall (fun a => sock_ok a ∧ plain a) cs
  end.

#[global] Instance msg_ok_dec m : Decision (msg_ok m).
Proof. destruct m; apply _. Defined.

(** ** Addresses *)

Lemma put_addr_app out a : put_addr out a = out ++ put_addr [] a.
Proof. unfold put_addr. destruct (sock_ip a); by rewrite <-!(assoc_L (++)). Qed.

Lemma foldl_put_addr out cs : foldl put_addr out cs = out ++ foldl put_addr [] cs.
Proof.
  revert out. induction cs as [|a cs IH]; intros out; cbn [foldl]; [by rewrite app_nil_r|].
  rewrite IH, (IH (put_addr [] a)), (put_addr_app out). by rewrite (assoc_L (++)).
Qed.

Lemma len_put_addr a : len (put_addr [] a) = match sock_ip a with V4 _ => 7 | V6 _ => 19 end.
Proof. by destruct a. Qed.

Lemma get_addr_v4 ip p rest :
  fits 32 ip → fits 16 p →
  get_addr ((AF_V4 :: be_bytes 4 ip ++ be_bytes 2 p) ++ rest) = Ok (SockV4 ip p, 7).
Proof.
  intros Hip Hp. unfold get_addr. change (1 + 4 + 2) with 7.
  rewrite get_prefix_app by len_lia.
  transitivity (Ok (E:=Error) (sock_new (V4 (be_val (be_bytes 4 ip))) (be_val (be_bytes 2 p)), 7)).
  - done.
  - by rewrite be_val_u32, be_val_u16.
Qed.

Lemma get_addr_v6 ip p rest :
  fits 128 ip → fits 16 p →
  get_addr ((AF_V6 :: be_bytes 16 ip ++ be_bytes 2 p) ++ rest) = Ok (SockV6 ip p 0 0, 19).
Proof.
  intros Hip Hp. unfold get_addr. change (1 + 16 + 2) with 19.
  rewrite (get_prefix_app 19) by len_lia. cbn [ok_or mbind res_bind].
  rewrite (slice_app_mid [AF_V6] (be_bytes 16 ip) (be_bytes 2 p)) by len_lia.
  transitivity (Ok (E:=Error) (sock_new (V6 (be_val (be_bytes 16 ip))) (be_val (be_bytes 2 p)), 19)).
  - done.
  - by rewrite be_val_u128, be_val_u16.
Qed.

Lemma get_put_addr a rest :
  sock_ok a → plain a → get_addr (put_addr [] a ++ rest) = Ok (a, len (put_addr [] a)).
Proof.
  rewrite len_put_addr. destruct a as [ip p|ip p f s]; intros Hok Hplain.
  - by apply get_addr_v4; apply Hok.
  - destruct Hplain as [-> ->]. by apply get_addr_v6; apply Hok.
Qed.

(** A list of [1 + n + m] bytes is a head byte and two big-endian words. *)
Lemma split_words s n m :
  len s = 1 + Z.of_nat n + Z.of_nat m →
  ∃ b x y, s = b :: be_bytes n x ++ be_bytes m y ∧
    0 ≤ x < 256 ^ Z.of_nat n ∧ 0 ≤ y < 256 ^ Z.of_nat m.
Proof.
  destruct s as [|b s]; [len_lia|]. rewrite len_cons. intros Hlen.
  exists b, (be_val (take n s)), (be_val (drop n s)).
  assert (length (take n s) = n) as Hn by (rewrite length_take; len_lia).
  assert (length (drop n s) = m) as Hm by (rewrite length_drop; len_lia).
  pose proof (be_val_range (take n s)) as R1. pose proof (be_val_range (drop n s)) as R2.
  unfold len in R1, R2. rewrite Hn in R1. rewrite Hm in R2.
  split_and!; try lia.
  rewrite <-Hn at 1. rewrite <-Hm. rewrite !be_bytes_be_val. by rewrite take_drop.
Qed.

Lemma get_addr_inv b a n :
  get_addr b = Ok (a, n) →
  sock_ok a ∧ plain a ∧ n = len (put_addr [] a) ∧ ∃ rest, b = put_addr [] a ++ rest.
Proof.
  intros H. pose proof H as H'. unfold get_addr in H'.
  destruct (head b) as [af|] eqn:Haf; [|done].
  cbn [ok_or mbind res_bind] in H'. rewrite len_put_addr.
  case_decide; [subst af|case_decide; [subst af|done]];
    (destruct (get_prefix _ b) as [s|] eqn:Hs; [|done]); clear H';
    apply get_prefix_inv in Hs as (_ & Hlen & Hb).
  - destruct (split_words s 4 2) as (c & x & y & -> & Hx & Hy); [len_lia|].
    rewrite Hb in H, Haf. injection Haf as ->.
    rewrite get_addr_v4 in H by done. injection H as <- <-.
    split_and!; try done. eexists. exact Hb.
  - destruct (split_words s 16 2) as (c & x & y & -> & Hx & Hy); [len_lia|].
    rewrite Hb in H, Haf. injection Haf as ->.
    rewrite get_addr_v6 in H by done. injection H as <- <-.
    split_and!; try done. eexists. exact Hb.
Qed.

Lemma no_panic_get_addr b : no_panic (get_addr b).
Proof.
  unfold get_addr. destruct (head b) as [af|]; [|done].
  cbn [ok_or mbind res_bind]. repeat case_decide; [| |done].
  all: destruct (get_prefix _ b) as [s|] eqn:Hs; [|done];
    apply get_prefix_inv in Hs as (_ & Hlen & _); cbn [ok_or mbind res_bind].
  all: repeat (apply no_panic_bind; [eauto with res_db lia|intros ? _]); done.
Qed.
#[export] Hint Resolve no_panic_get_addr : res_db.

(** ** The candidate list *)

Lemma get_candidates_enc cs pre rest :
  Forall (fun a => sock_ok a ∧ plain a) cs →
  get_candidates (length cs) (pre ++ foldl put_addr [] cs ++ rest) (len pre)
  = Ok (cs, len pre + len (foldl put_addr [] cs)).
Proof.
  intros Hcs. revert pre. induction Hcs as [|a cs [Hok Hpl] _ IH]; intros pre.
  { cbn [length get_candidates foldl]. by rewrite len_nil, Z.add_0_r. }
  cbn [length get_candidates foldl]. rewrite foldl_put_addr, <-(assoc_L (++) (put_addr [] a)).
  rewrite slice_from_app by done. cbn [mbind res_bind].
  rewrite get_put_addr by done. cbn [mbind res_bind].
  rewrite (assoc_L (++) pre), <-len_app, IH. cbn [mbind res_bind].
  do 2 f_equal. len_lia.
Qed.

Lemma get_candidates_inv n body off cs off' :
  0 ≤ off ≤ len body →
  get_candidates n body off = Ok (cs, off') →
  Forall (fun a => sock_ok a ∧ plain a) cs ∧ length cs = n ∧
  off' = off + len (foldl put_addr [] cs) ∧ off' ≤ len body ∧
  ∃ rest, drop (Z.to_nat off) body = foldl put_addr [] cs ++ rest.
Proof.
  revert off cs. induction n as [|n IH]; intros off cs Hoff H; cbn [get_candidates] in H.
  { injection H as <- <-. split_and!; [done|done|cbn [foldl]; len_lia|lia|by eexists]. }
  apply bind_Ok_inv in H as (b & Hb & H). apply bind_Ok_inv in H as ([a k] & Ha & H).
  apply bind_Ok_inv in H as ([cs' o'] & Hrec & H). injection H as <- <-.
  apply get_addr_inv in Ha as (Hok & Hpl & -> & rest & Hrest).
  pose proof (len_slice _ _ _ _ Hb) as Hlb.
  apply slice_inv in Hb as (_ & _ & Hb). rewrite Hrest in Hlb.
  rewrite take_ge in Hb by (rewrite length_drop; len_lia).
  apply IH in Hrec as (Hcs & Hn & -> & Hle & rest' & Hrest');
    [|rewrite len_app in Hlb; pose proof (len_nonneg rest); pose proof (len_nonneg (put_addr [] a)); lia].
  cbn [foldl]. rewrite (foldl_put_addr (put_addr [] a)).
  split_and!; [by constructor|cbn; lia|rewrite len_app; lia|lia|].
  exists rest'. rewrite <-Hb, Hrest, <-(assoc_L (++)). f_equal. rewrite <-Hrest'.
  rewrite Z2Nat.inj_add by (try apply len_nonneg; lia). rewrite <-drop_drop, <-Hb, Hrest.
  unfold len. by rewrite Nat2Z.id, drop_app_length.
Qed.

Lemma no_panic_get_candidates n body off :
  0 ≤ off ≤ len body → no_panic (get_candidates n body off).
Proof.
  revert off. induction n as [|n IH]; intros off Hoff; cbn [get_candidates]; [done|].
  apply no_panic_bind; [apply no_panic_slice_from; lia|intros b Hb].
  apply no_panic_bind; [apply no_panic_get_addr|intros [a k] Ha].
  apply no_panic_bind; [apply IH|by intros [] ?].
  apply get_addr_inv in Ha as (_ & _ & -> & rest & ->).
  apply len_slice in Hb. rewrite len_app in Hb.
  pose proof (len_nonneg rest). pose proof (len_nonneg (put_addr [] a)). lia.
Qed.

(** ** Whole messages *)

Lemma decode_frame ty body rest :
  len body < 2 ^ 32 →
  decode (ty :: be_bytes 4 (len body) ++ body ++ rest)
  = (msg ← decode_msg ty body; Ok (msg, HEADER_LEN + len body)).
Proof.
  intros Hb. pose proof (len_nonneg body). pose proof (len_nonneg rest). unfold decode.
  destruct (read_header (E:=Error) ty (len body) (body ++ rest)) as [E1 E2]; [done|].
  unfold HEADER_LEN. rewrite E1, E2. cbn [mbind res_bind].
  rewrite !(proj2 (Z.ltb_ge _ _)) by len_lia. by rewrite slice_header.
Qed.

Lemma decode_frame_inv buf m n :
  decode buf = Ok (m, n) →
  ∃ ty body rest, len body < 2 ^ 32 ∧ buf = ty :: be_bytes 4 (len body) ++ body ++ rest ∧
    decode_msg ty body = Ok m ∧ n = HEADER_LEN + len body.
Proof.
  unfold decode, HEADER_LEN. case_if; [done|]. bool_prop.
  destruct (header_view buf) as (ty & L & rest & HL & ->); [lia|].
  destruct (read_header (E:=Error) ty L rest HL) as [-> ->]. cbn [mbind res_bind].
  case_if; [done|]. bool_prop. intros H. res_inv. rename x into bd.
  pose proof (len_slice _ _ _ _ H). apply slice_split in H.
  exists ty, bd, (drop (Z.to_nat (1 + 4 + L)) (ty :: be_bytes 4 L ++ rest)).
  replace (len bd) with L by lia. split_and!; [apply HL|exact H|done|lia].
Qed.

Lemma len_body_small m : msg_ok m → 0 ≤ len (body m) < 2 ^ 32.
Proof.
  intros Hok. split; [apply len_nonneg|].
  destruct m as [tx sender|tx a|cs]; cbn [body]; unfold msg_ok, TXID_LEN, KEY_LEN, MAX_CANDIDATES in Hok.
  - rewrite len_app. lia.
  - rewrite put_addr_app, len_app, len_put_addr. destruct (sock_ip a); lia.
  - destruct Hok as [Hn _].
    assert (len (foldl put_addr [] cs) ≤ 19 * len cs) as Hle.
    { clear. induction cs as [|a cs IH]; cbn [foldl]; [done|].
      rewrite foldl_put_addr, len_app, len_put_addr, len_cons. destruct (sock_ip a); lia. }
    rewrite foldl_put_addr, len_app, len_be_bytes. lia.
Qed.

Lemma decode_msg_body m : msg_ok m → decode_msg (type_byte m) (body m) = Ok m.
Proof.
  destruct m as [tx sender|tx a|cs]; cbn [msg_ok type_byte body].
  - intros [Htx Hs]. cbn [decode_msg]. unfold decode_msg. rewrite decide_True by done.
    unfold decode_ping. rewrite len_app, Htx, Hs, Z.eqb_refl. cbn [negb].
    by rewrite slice_app_pre, slice_from_app.
  - intros (Htx & Hok & Hpl). unfold decode_msg. rewrite decide_False, decide_True by done.
    unfold decode_pong. rewrite put_addr_app.
    rewrite (proj2 (Z.ltb_ge _ _)) by (rewrite len_app; pose proof (len_nonneg (put_addr [] a)); lia).
    rewrite slice_app_pre, slice_from_app by done. cbn [mbind res_bind].
    rewrite <-(app_nil_r (put_addr [] a)), get_put_addr by done. cbn [mbind res_bind].
    by rewrite app_nil_r, len_app, Htx, Z.eqb_refl.
  - intros [Hn Hcs]. unfold decode_msg. rewrite !decide_False, decide_True by done.
    unfold decode_call_me_maybe. rewrite foldl_put_addr. unfold MAX_CANDIDATES in *.
    pose proof (len_nonneg cs) as Hnn.
    rewrite (wrap_id 16) by (unfold fits; lia).
    change (head (be_bytes 2 (len cs) ++ ?l)) with (Some (z2b (len cs / 256))).
    change ((be_bytes 2 (len cs) ++ ?l) !! 1%nat) with (Some (z2b (len cs / 1))).
    cbn [ok_or mbind res_bind].
    change (be_val [_; _]) with (be_val (be_bytes 2 (len cs))).
    rewrite be_val_u16 by (unfold fits; lia).
    rewrite (proj2 (Z.ltb_ge _ _)) by lia. rewrite to_nat_len.
    pose proof (get_candidates_enc cs (be_bytes 2 (len cs)) [] Hcs) as E.
    rewrite len_be_bytes, app_nil_r in E. change (Z.of_nat 2) with 2 in E. rewrite E.
    cbn [mbind res_bind]. by rewrite len_app, len_be_bytes, Z.eqb_refl.
Qed.

Lemma decode_msg_inv ty b m :
  decode_msg ty b = Ok m → msg_ok m ∧ ty = type_byte m ∧ b = body m.
Proof.
  unfold decode_msg.
  destruct (decide _) as [->|_]; [|destruct (decide _) as [->|_]; [|destruct (decide _) as [->|_]; [|done]]].
  - unfold decode_ping, msg_ok. case_if; [done|]. bool_prop. intros H. res_inv.
    pose proof (len_slice _ _ _ _ H). pose proof (len_slice _ _ _ _ H0).
    apply slice_split in H. apply slice_inv in H0 as (_ & _ & ->).
    rewrite take_ge in * by (rewrite length_drop; len_lia).
    unfold TXID_LEN, KEY_LEN in *. split_and!; [lia|lia|done|exact H].
  - unfold decode_pong. case_if; [done|]. bool_prop. intros H. res_inv. destruct x1 as [a n].
    pose proof (len_slice _ _ _ _ H) as Ltx. apply slice_split in H.
    apply slice_inv in H0 as (_ & _ & ->).
    apply get_addr_inv in H1 as (Hok & Hpl & -> & rest & Hr).
    rewrite take_ge in Hr by (rewrite length_drop; len_lia).
    case_if; [done|]. bool_prop. res_inv. cbn [msg_ok type_byte body].
    unfold TXID_LEN in *. split_and!; [lia|done|done|done|].
    change (drop (Z.to_nat 12) b = put_addr [] a ++ rest) in Hr. change (b = x ++ drop (Z.to_nat 12) b) in H.
    rewrite put_addr_app. rewrite Hr in H. rewrite H in Heqb1 |- *.
    destruct rest; [by rewrite app_nil_r|len_lia].
  - unfold decode_call_me_maybe. intros H. destruct b as [|c0 [|c1 b]]; try done.
    cbn [head lookup list_lookup ok_or mbind res_bind] in H.
    set (w := [c0; c1]) in H.
    pose proof (be_val_range w) as Hw. change (256 ^ len w) with (2 ^ 16) in Hw.
    pose proof (be_bytes_be_val w : be_bytes 2 (be_val w) = w) as Hbe.
    remember (be_val w) as L eqn:HL; clear HL.
    case_if; [done|]. bool_prop. res_inv. destruct x as [cs off].
    case_if; [done|]. bool_prop. res_inv.
    apply get_candidates_inv in H as (Hcs & Hn & Hoff & Hle & rest & Hr); [|len_lia].
    cbn [msg_ok type_byte body]. rewrite foldl_put_addr.
    assert (len cs = L) as -> by len_lia. rewrite (wrap_id 16) by done.
    rewrite Hbe. cbn [Z.to_nat Pos.to_nat Pos.iter_op Nat.add drop] in Hr.
    change (b = foldl put_addr [] cs ++ rest) in Hr. subst b.
    split_and!; [lia|done|done|].
    change ([c0; c1] ++ foldl put_addr [] cs ++ rest = w ++ foldl put_addr [] cs).
    destruct rest; [by rewrite app_nil_r|len_lia].
Qed.

Lemma no_panic_decode_msg ty b : no_panic (decode_msg ty b).
Proof.
  unfold decode_msg. repeat case_decide; [| | |done].
  - unfold decode_ping. case_if; [done|]. bool_prop. unfold TXID_LEN, KEY_LEN in *.
    repeat (apply no_panic_bind; [eauto with res_db lia|intros ? _]); done.
  - unfold decode_pong. case_if; [done|]. bool_prop. unfold TXID_LEN in *.
    do 2 (apply no_panic_bind; [eauto with res_db lia|intros ? _]).
    apply no_panic_bind; [eauto with res_db|intros [? ?] _]. by case_if.
  - unfold decode_call_me_maybe. destruct b as [|c0 [|c1 b]]; [done..|].
    cbn [head lookup list_lookup ok_or mbind res_bind]. case_if; [done|].
    apply no_panic_bind; [apply no_panic_get_candidates; len_lia|intros [? ?] _]. by case_if.
Qed.

(** Decoding never panics: whatever bytes arrive, [decode] returns a message or one of
    its errors. *)
Lemma decode_never_panics buf : no_panic (decode buf).
Proof.
  unfold decode. case_if; [done|]. bool_prop. unfold HEADER_LEN in *.
  apply no_panic_bind; [eauto with res_db lia|intros ty _].
  apply no_panic_bind; [eauto with res_db lia|intros L HL%read_u32_be_range].
  case_if; [done|]. bool_prop. destruct HL.
  apply no_panic_bind; [eauto with res_db lia|intros ? _].
  apply no_panic_bind; [apply no_panic_decode_msg|done].
Qed.

(** An encoded message in front of anything is read back with its own length. *)
Lemma disco_read_back m rest :
  msg_ok m → decode (encode m ++ rest) = Ok (m, len (encode m)).
Proof.
  intros Hok. pose proof (len_body_small m Hok) as Hb. unfold encode. cbv zeta.
  rewrite (wrap_id 32) by done. rewrite <-app_comm_cons, <-(assoc_L (++)).
  rewrite decode_frame by lia. rewrite decode_msg_body by done. cbn [mbind res_bind].
  do 2 f_equal. unfold HEADER_LEN. len_lia.
Qed.

(** Round trip: a well-formed message decodes to itself, consuming exactly its own
    bytes whatever follows it in the buffer, so that any sequence of messages written
    back to back is read back one by one. *)
Lemma decode_encode m rest m' rest' :
  msg_ok m → msg_ok m' →
  decode (encode m ++ encode m' ++ rest) = Ok (m, len (encode m)) ∧
  decode (drop (length (encode m)) (encode m ++ encode m' ++ rest)) = Ok (m', len (encode m')) ∧
  (encode m ++ rest = encode m' ++ rest' → m = m' ∧ rest = rest').
Proof.
  intros Hm Hm'. rewrite drop_app_length, !disco_read_back by done. split_and!; [done..|].
  intros Heq. pose proof (disco_read_back m rest Hm) as Hd. rewrite Heq in Hd.
  rewrite disco_read_back in Hd by done. injection Hd as -> _. by apply app_inv_head in Heq.
Qed.

Definition sample_cmm : Disco := CallMeMaybe [SockV4 1681915905 1; SockV6 2 65535 0 0].

(** The wire form is canonical: what [decode] accepts is a well-formed
    message, and the bytes it consumed are exactly the encoding of that message. *)
Lemma decode_canonical buf m n :
  decode buf = Ok (m, n) → msg_ok m ∧ n = len (encode m) ∧ ∃ rest, buf = encode m ++ rest.
Proof.
  intros (ty & b & rest & Hb & -> & Hm & ->)%decode_frame_inv.
  apply decode_msg_inv in Hm as (Hok & -> & ->). unfold encode. cbv zeta.
  pose proof (len_nonneg (body m)).
  rewrite (wrap_id 32) by done. unfold HEADER_LEN.
  split_and!; [done|len_lia|]. exists rest. by rewrite <-app_comm_cons, <-(assoc_L (++)).
Qed.

