(* ===== verification/RelayProto.v ===== *)
(** * The relay wire protocol (relay-server/src/proto.rs)

    Frames addressed by Curve25519 public key, framed like the disco messages
    as [type:u8, len:u32 BE, body].  The decoder also bounds the length field
    before it looks at the body. *)

From S2P Require Import Prelude.
From S2P Require Import Words.

Definition MAX_PACKET_SIZE : Z := 64 * 1024.

Definition T_CLIENT_INFO : byte := x01.
Definition T_SERVER_INFO : byte := x02.
Definition T_SEND_PACKET : byte := x03.
Definition T_RECV_PACKET : byte := x04.
Definition T_PING : byte := x05.
Definition T_PONG : byte := x06.
Definition T_PEER_GONE : byte := x07.
Definition T_HEALTH : byte := x08.
Definition T_RESTARTING : byte := x09.

Definition KEY_LEN : Z := 32.
Definition HEADER_LEN : Z := 1 + 4.

(** A [PublicKey] is a [\[u8; 32\]]. *)
Abbreviation PublicKey := (list byte).

Inductive Frame :=
| ClientInfo (pubkey : PublicKey) (protocol_version : Z)
| ServerInfo (protocol_version : Z)
| SendPacket (dst : PublicKey) (payload : list byte)
| RecvPacket (src : PublicKey) (payload : list byte)
| Ping (data : list byte)
| Pong (data : list byte)
| PeerGone (pubkey : PublicKey)
| Health
| Restarting.

Inductive Error :=
| ShortBuffer (need have : Z)
| UnknownType (ty : byte)
| BadLength (n : Z)
| TooLarge (n : Z).

#[global] Instance Frame_eq_dec : EqDecision Frame.
Proof. solve_decision. Defined.
#[global] Instance Error_eq_dec : EqDecision Error.
Proof. solve_decision. Defined.

Definition type_byte (f : Frame) : byte :=
  match f with
  | ClientInfo _ _ => T_CLIENT_INFO
  | ServerInfo _ => T_SERVER_INFO
  | SendPacket _ _ => T_SEND_PACKET
  | RecvPacket _ _ => T_RECV_PACKET
  | Ping _ => T_PING
  | Pong _ => T_PONG
  | PeerGone _ => T_PEER_GONE
  | Health => T_HEALTH
  | Restarting => T_RESTARTING
  end.

Definition body (f : Frame) : list byte :=
  match f with
  | ClientInfo pubkey v => pubkey ++ be_bytes 4 v
  | ServerInfo v => be_bytes 4 v
  | SendPacket dst payload => dst ++ payload
  | RecvPacket src payload => src ++ payload
  | Ping data | Pong data => data
  | PeerGone pubkey => pubkey
  | Health | Restarting => []
  end.

Definition encode (f : Frame) : list byte :=
  let body := body f in
  type_byte f :: be_bytes 4 (wrap 32 (len body)) ++ body.

(** [key(b)] and [be_u32(b)]. *)
Definition key (b : list byte) : res Error PublicKey :=
  ok_or (get_prefix KEY_LEN b) (BadLength (len b)).

Definition be_u32 (b : list byte) : res Error Z :=
  s ← ok_or (get_prefix 4 b) (BadLength (len b));
  read_u32_be s 0.

(** The arms of the [match ty] of [decode]. *)
Definition decode_client_info (body : list byte) : res Error Frame :=
  if negb (len body =? KEY_LEN + 4) then Err (BadLength (len body)) else
  pubkey ← key body;
  v ← slice_from KEY_LEN body;
  protocol_version ← be_u32 v;
  Ok (ClientInfo pubkey protocol_version).

Definition decode_server_info (body : list byte) : res Error Frame :=
  if negb (len body =? 4) then Err (BadLength (len body)) else
  protocol_version ← be_u32 body;
  Ok (ServerInfo protocol_version).

Definition decode_packet (ty : byte) (body : list byte) : res Error Frame :=
  if len body <? KEY_LEN then Err (BadLength (len body)) else
  payload ← slice_from KEY_LEN body;
  if MAX_PACKET_SIZE <? len payload then Err (TooLarge (len payload)) else
  k ← key body;
  Ok (if Byte.eqb ty T_SEND_PACKET then SendPacket k payload else RecvPacket k payload).

Definition decode_ping_pong (ty : byte) (body : list byte) : res Error Frame :=
  if negb (len body =? 8) then Err (BadLength (len body)) else
  Ok (if Byte.eqb ty T_PING then Ping body else Pong body).

Definition decode_peer_gone (body : list byte) : res Error Frame :=
  if negb (len body =? KEY_LEN) then Err (BadLength (len body)) else
  pubkey ← key body;
  Ok (PeerGone pubkey).

Definition decode_body (ty : byte) (body : list byte) : res Error Frame :=
  match ty with
  | x01 => decode_client_info body
  | x02 => decode_server_info body
  | x03 | x04 => decode_packet ty body
  | x05 | x06 => decode_ping_pong ty body
  | x07 => decode_peer_gone body
  | x08 => Ok Health
  | x09 => Ok Restarting
  | _ => Err (UnknownType ty)
  end.

Definition decode (buf : list byte) : res Error (Frame * Z) :=
  if len buf <? HEADER_LEN then Err (ShortBuffer HEADER_LEN (len buf)) else
  ty ← index buf 0;
  length ← read_u32_be buf 1;
  if MAX_PACKET_SIZE + KEY_LEN <? length then Err (TooLarge length) else
  let total := HEADER_LEN + length in
  if len buf <? total then Err (ShortBuffer total (len buf)) else
  body ← slice HEADER_LEN total buf;
  frame ← decode_body ty body;
  Ok (frame, total).

(** The frames the Rust type can hold whose payload is within the limit. *)
Definition frame_ok (f : Frame) : Prop :=
  match f with
  | ClientInfo k v => len k = KEY_LEN ∧ fits 32 v
  | ServerInfo v => fits 32 v
  | SendPacket k p | RecvPacket k p => len k = KEY_LEN ∧ len p ≤ MAX_PACKET_SIZE
  | Ping d | Pong d => len d = 8
  | PeerGone k => len k = KEY_LEN
  | Health | Restarting => True
  end.

#[global] Instance frame_ok_dec f : Decision (frame_ok f).
Proof. destruct f; apply _. Defined.

(** Health and Restarting frames: the decoder does not look at their body. *)
Definition bodiless (f : Frame) : Prop := f = Health ∨ f = Restarting.

(** ** Bodies *)

Lemma key_app k b : len k = KEY_LEN → key (k ++ b) = Ok k.
Proof. intros. unfold key. by rewrite get_prefix_app. Qed.

Lemma key_inv b k : key b = Ok k → len k = KEY_LEN ∧ b = k ++ drop (Z.to_nat KEY_LEN) b.
Proof.
  unfold key. destruct (get_prefix _ b) eqn:E; [|done]. intros [= <-].
  apply get_prefix_inv in E. tauto.
Qed.

Lemma be_u32_bytes v : fits 32 v → be_u32 (be_bytes 4 v) = Ok v.
Proof.
  intros. unfold be_u32. rewrite <-(app_nil_r (be_bytes 4 v)), get_prefix_app by done.
  transitivity (Ok (E:=Error) (be_val (be_bytes 4 v))); [done|by rewrite be_val_u32].
Qed.

Lemma be_u32_inv b v : len b = 4 → be_u32 b = Ok v → fits 32 v ∧ b = be_bytes 4 v.
Proof.
  intros Hl H. assert (length b = 4%nat) as Hn by len_lia.
  pose proof (be_val_range b) as Hr. rewrite Hl in Hr.
  rewrite <-(be_bytes_be_val b), Hn, be_u32_bytes in H by done. apply Ok_inj in H as <-.
  split; [done|]. by rewrite <-Hn, be_bytes_be_val.
Qed.

Lemma no_panic_be_u32 b : no_panic (be_u32 b).
Proof.
  unfold be_u32. destruct (get_prefix 4 b) as [s|] eqn:E; [|done]. cbn [ok_or mbind res_bind].
  apply get_prefix_inv in E as (_ & ? & _). apply no_panic_read_u32_be; lia.
Qed.
#[export] Hint Resolve no_panic_be_u32 : res_db.

Lemma key_full k : len k = KEY_LEN → key k = Ok k.
Proof. intros. rewrite <-(app_nil_r k) at 1. by apply key_app. Qed.

Lemma no_panic_decode_body ty b : no_panic (decode_body ty b).
Proof.
  pose proof (len_nonneg b). unfold decode_body, decode_client_info, decode_server_info,
    decode_packet, decode_ping_pong, decode_peer_gone, key, KEY_LEN.
  destruct ty; try done;
    repeat first [done | apply no_panic_be_u32 | case_if | apply no_panic_bind; [|intros ? _]];
    bool_prop; eauto with res_db lia.
Qed.

Lemma decode_packet_app ty k p :
  len k = KEY_LEN → len p ≤ MAX_PACKET_SIZE →
  decode_packet ty (k ++ p) =
  Ok (if Byte.eqb ty T_SEND_PACKET then SendPacket k p else RecvPacket k p).
Proof.
  intros Hk Hp. pose proof (len_nonneg p). unfold decode_packet.
  rewrite (proj2 (Z.ltb_ge _ _)) by len_lia. rewrite slice_from_app by done. cbn [mbind res_bind].
  rewrite (proj2 (Z.ltb_ge _ _)) by lia. by rewrite key_app.
Qed.

Lemma decode_packet_inv ty b f :
  decode_packet ty b = Ok f →
  ∃ k p, len k = KEY_LEN ∧ len p ≤ MAX_PACKET_SIZE ∧ b = k ++ p ∧
    f = (if Byte.eqb ty T_SEND_PACKET then SendPacket k p else RecvPacket k p).
Proof.
  unfold decode_packet. destruct (_ <? KEY_LEN); [done|].
  intros (p & Hs & H)%bind_Ok_inv. destruct (_ <? len p) eqn:Hp; [done|]. bool_prop.
  apply bind_Ok_inv in H as (k & [Hk Hb]%key_inv & <-%Ok_inj). exists k, p. split_and!; try done.
  rewrite Hb, slice_from_app in Hs by done. apply Ok_inj in Hs. by rewrite <-Hs.
Qed.

Lemma decode_body_body f : frame_ok f → decode_body (type_byte f) (body f) = Ok f.
Proof.
  intros Hok. destruct f; cbn in Hok; destruct_and?; cbn [type_byte body];
    cbn [decode_body T_CLIENT_INFO T_SERVER_INFO T_SEND_PACKET T_RECV_PACKET T_PING
      T_PONG T_PEER_GONE T_HEALTH T_RESTARTING]; rewrite ?decode_packet_app by done; try done.
  - unfold decode_client_info. rewrite (proj2 (Z.eqb_eq _ _)) by len_lia. cbn [negb].
    rewrite key_app by done. cbn [mbind res_bind].
    rewrite slice_from_app by done. cbn [mbind res_bind]. by rewrite be_u32_bytes.
  - unfold decode_server_info. cbn [negb]. by rewrite be_u32_bytes.
  - unfold decode_ping_pong. by rewrite Hok.
  - unfold decode_ping_pong. by rewrite Hok.
  - unfold decode_peer_gone. rewrite Hok. cbn [negb]. by rewrite key_full.
Qed.

Lemma decode_client_info_inv b f :
  decode_client_info b = Ok f →
  ∃ k v, len k = KEY_LEN ∧ fits 32 v ∧ b = k ++ be_bytes 4 v ∧ f = ClientInfo k v.
Proof.
  unfold decode_client_info. case_if; [done|]. bool_prop.
  intros (k & [Hk Hb]%key_inv & (w & Hs & (v & Hv & <-%Ok_inj)%bind_Ok_inv)%bind_Ok_inv)%bind_Ok_inv.
  assert (len w = 4) as Hw by (apply len_slice in Hs; unfold KEY_LEN in *; lia).
  rewrite Hb, slice_from_app in Hs by done. apply Ok_inj in Hs. rewrite Hs in Hb.
  apply be_u32_inv in Hv as [? ->]; [|done]. eauto 10.
Qed.

Lemma decode_body_inv ty b f :
  decode_body ty b = Ok f → frame_ok f ∧ type_byte f = ty ∧ (body f = b ∨ bodiless f).
Proof.
  unfold bodiless. destruct ty; cbn [decode_body]; try done; intros H.
  - apply decode_client_info_inv in H as (k & v & ? & ? & -> & ->). cbn; eauto 10.
  - unfold decode_server_info in H. case_if; [done|]. bool_prop.
    apply bind_Ok_inv in H as (v & Hv & <-%Ok_inj). apply be_u32_inv in Hv as [? ->]; eauto.
  - apply decode_packet_inv in H as (k & p & ? & ? & -> & ->). cbn; eauto 10.
  - apply decode_packet_inv in H as (k & p & ? & ? & -> & ->). cbn; eauto 10.
  - unfold decode_ping_pong in H. case_if; [done|]. bool_prop. res_inv. cbn; eauto 10.
  - unfold decode_ping_pong in H. case_if; [done|]. bool_prop. res_inv. cbn; eauto 10.
  - unfold decode_peer_gone in H. case_if; [done|]. bool_prop.
    apply bind_Ok_inv in H as (k & Hk & <-%Ok_inj). rewrite key_full in Hk by done.
    apply Ok_inj in Hk as ->. cbn; eauto 10.
  - res_inv. cbn; eauto 10.
  - res_inv. cbn; eauto 10.
Qed.

(** ** Frames *)

Lemma len_body_bound f : frame_ok f → len (body f) ≤ MAX_PACKET_SIZE + KEY_LEN.
Proof.
  unfold MAX_PACKET_SIZE, KEY_LEN. destruct f; cbn; intros; destruct_and?;
    autorewrite with len_db; unfold KEY_LEN, MAX_PACKET_SIZE in *; lia.
Qed.

Lemma encode_eq f rest :
  frame_ok f →
  fits 32 (len (body f)) ∧
  encode f ++ rest = type_byte f :: be_bytes 4 (len (body f)) ++ body f ++ rest.
Proof.
  intros Hok. pose proof (len_body_bound f Hok) as Hb. pose proof (len_nonneg (body f)).
  assert (fits 32 (len (body f))) by (unfold fits, MAX_PACKET_SIZE, KEY_LEN in *; lia).
  split; [done|]. unfold encode. cbv zeta. rewrite wrap_id by done.
  by rewrite <-app_comm_cons, <-(assoc_L (++)).
Qed.

Lemma len_encode f : frame_ok f → len (encode f) = HEADER_LEN + len (body f).
Proof.
  intros Hok. rewrite <-(app_nil_r (encode f)). destruct (encode_eq f [] Hok) as [_ ->].
  autorewrite with len_db. unfold HEADER_LEN. lia.
Qed.

(** [decode] on a buffer whose header is [ty, L]. *)
Lemma decode_header ty L rest :
  fits 32 L →
  decode (ty :: be_bytes 4 L ++ rest) =
  if MAX_PACKET_SIZE + KEY_LEN <? L then Err (TooLarge L) else
  if len rest <? L then Err (ShortBuffer (HEADER_LEN + L) (HEADER_LEN + len rest)) else
  frame ← decode_body ty (take (Z.to_nat L) rest);
  Ok (frame, HEADER_LEN + L).
Proof.
  intros HL. destruct (read_header (E:=Error) ty L rest HL) as [Hi Hr].
  assert (len (ty :: be_bytes 4 L ++ rest) = HEADER_LEN + len rest) as Hlen
    by (autorewrite with len_db; unfold HEADER_LEN; lia).
  pose proof (len_nonneg rest). unfold decode. rewrite Hlen, Hi, Hr. cbn [mbind res_bind].
  rewrite (proj2 (Z.ltb_ge _ _)) by (unfold HEADER_LEN; lia).
  destruct (_ <? L); [done|]. destruct (len rest <? L) eqn:Hs; bool_prop.
  - by rewrite (proj2 (Z.ltb_lt _ _)) by lia.
  - rewrite (proj2 (Z.ltb_ge _ _)) by lia. destruct HL.
    rewrite slice_Ok by (rewrite ?Hlen; unfold HEADER_LEN in *; lia). cbn [mbind res_bind].
    replace (HEADER_LEN + L - HEADER_LEN) with L by lia. done.
Qed.

Lemma decode_encode_app f rest :
  frame_ok f → decode (encode f ++ rest) = Ok (f, len (encode f)).
Proof.
  intros Hok. destruct (encode_eq f rest Hok) as [Hf ->]. pose proof (len_body_bound f Hok).
  pose proof (len_nonneg rest). rewrite decode_header by done.
  rewrite !(proj2 (Z.ltb_ge _ _)) by (rewrite ?len_app; lia).
  rewrite to_nat_len, take_app_length, decode_body_body by done. by rewrite len_encode.
Qed.

(** A proper prefix of a frame asks for more bytes; it is never an error. *)
Lemma decode_prefix f p q :
  frame_ok f → encode f = p ++ q → q ≠ [] → ∃ need have, decode p = Err (ShortBuffer need have).
Proof.
  intros Hok He Hq. pose proof (len_body_bound f Hok) as Hb.
  destruct (encode_eq f [] Hok) as [Hf He']. rewrite !app_nil_r in He'.
  assert (0 < len q) by (destruct q; [done|len_lia]).
  destruct (decide (len p < HEADER_LEN)) as [Hp|Hp].
  - unfold decode. rewrite (proj2 (Z.ltb_lt _ _)) by lia. eauto.
  - destruct (header_view p) as (ty & L & r & HL & ->); [unfold HEADER_LEN in *; lia|].
    rewrite He in He'. rewrite <-app_comm_cons, <-(assoc_L (++)) in He'.
    apply header_inj in He' as (-> & -> & Hr); [|done..].
    rewrite decode_header by done. rewrite (proj2 (Z.ltb_ge _ _)) by lia.
    rewrite (proj2 (Z.ltb_lt _ _)); [eauto|]. rewrite <-Hr. len_lia.
Qed.

(** What [decode] accepts, it consumed from the front of the buffer. *)
Lemma decode_inv buf f n :
  decode buf = Ok (f, n) →
  frame_ok f ∧ HEADER_LEN ≤ n ≤ len buf ∧
  (bodiless f ∨ n = len (encode f) ∧ ∃ rest, buf = encode f ++ rest).
Proof.
  intros H. destruct (decide (len buf < HEADER_LEN)) as [Hs|Hs].
  { unfold decode in H. by rewrite (proj2 (Z.ltb_lt _ _)) in H by lia. }
  destruct (header_view buf) as (ty & L & r & HL & ->); [unfold HEADER_LEN in *; lia|].
  rewrite decode_header in H by done. case_if; [done|]. case_if; [done|]. bool_prop.
  apply bind_Ok_inv in H as (f' & Hb & [= -> <-]%Ok_inj).
  apply decode_body_inv in Hb as (Hok & <- & Hb). destruct HL.
  split_and!; [done|unfold HEADER_LEN; lia|unfold HEADER_LEN in *; len_lia|].
  destruct Hb as [Hb|Hb]; [right|by left].
  assert (len (body f) = L) as HbL
    by (rewrite Hb; unfold len in *; rewrite length_take; lia).
  rewrite len_encode, HbL by done. split; [done|].
  exists (drop (Z.to_nat L) r). destruct (encode_eq f (drop (Z.to_nat L) r) Hok) as [_ ->].
  by rewrite HbL, Hb, take_drop.
Qed.

(** Decoding a relay frame never panics, whatever bytes a client sends. *)
Lemma relay_decode_no_panic buf : no_panic (decode buf).
Proof.
  destruct (decide (len buf < HEADER_LEN)) as [Hs|Hs].
  { unfold decode. by rewrite (proj2 (Z.ltb_lt _ _)) by lia. }
  destruct (header_view buf) as (ty & L & r & HL & ->); [unfold HEADER_LEN in *; lia|].
  rewrite decode_header by done. repeat (case_if; [done|]).
  apply no_panic_bind; [apply no_panic_decode_body|done].
Qed.

(** Relay frames round-trip, consuming exactly their own bytes, and every
    proper prefix of an encoded frame makes the decoder ask for more bytes: the
    code is prefix-free, so a stream of frames is read back unambiguously. *)
Lemma relay_decode_encode f rest :
  frame_ok f →
  decode (encode f ++ rest) = Ok (f, len (encode f)) ∧
  ∀ p q, encode f = p ++ q → q ≠ [] → ∃ need have, decode p = Err (ShortBuffer need have).
Proof. intros Hok. split; [by apply decode_encode_app|]. intros p q. by apply decode_prefix. Qed.

