(* ===== verification/FrameReader.v ===== *)
(** * Reading relay frames from a byte stream (relay-server/src/server.rs)

    [FrameReader::next_frame] buffers partial reads until [Frame::decode] succeeds.
    The reader's input is the sequence of results of [inner.read]: a chunk of bytes
    (empty at end of file) or an I/O failure; the end of the list is end of file. *)

From S2P Require Import Prelude.
From S2P Require Import Words.
From S2P Require Import RelayProto.

Inductive IoError :=
| InvalidData (e : Error)
| UnexpectedEof
| ReadFailed.

Inductive ReadResult :=
| Chunk (bytes : list byte)
| ReadErr.

Record FrameReader := mkReader { inner : list ReadResult; buf : list byte }.

Definition new (inner : list ReadResult) : FrameReader := mkReader inner [].

(** The loop of [next_frame], by recursion on the reads still to come. *)
Fixpoint next_frame_loop (inner : list ReadResult) (buf : list byte)
    : res IoError (option Frame) * FrameReader :=
  match decode buf with
  | Ok (frame, n) => (Ok (Some frame), mkReader inner (drop (Z.to_nat n) buf))
  | Err (ShortBuffer _ _) =>
      match inner with
      | [] | Chunk [] :: _ =>
          (match buf with [] => Ok None | _ => Err UnexpectedEof end, mkReader inner buf)
      | ReadErr :: inner => (Err ReadFailed, mkReader inner buf)
      | Chunk tmp :: inner => next_frame_loop inner (buf ++ tmp)
      end
  | Err e => (Err (InvalidData e), mkReader inner buf)
  | Panic => (Panic, mkReader inner buf)
  end.

Definition next_frame (r : FrameReader) : res IoError (option Frame) * FrameReader :=
  next_frame_loop (inner r) (buf r).

(** The inbound side of the pump of [serve_conn]: read until the client closes or a
    protocol error.  [fuel] bounds the number of frames. *)
Fixpoint read_frames (fuel : nat) (r : FrameReader) : list Frame * res IoError unit :=
  match fuel with
  | O => ([], Panic)
  | S fuel =>
      match next_frame r with
      | (Ok (Some frame), r) => let '(fs, e) := read_frames fuel r in (frame :: fs, e)
      | (Ok None, _) => ([], Ok tt)
      | (Err e, _) => ([], Err e)
      | (Panic, _) => ([], Panic)
      end
  end.

(** The bytes a reader has still to deliver, when no read fails. *)
Definition chunks (cs : list (list byte)) : list ReadResult := Chunk <$> cs.

Definition stream (r : FrameReader) (cs : list (list byte)) : Prop :=
  inner r = chunks cs ∧ Forall (.≠ []) cs.

(** What a reader with the whole stream in hand would answer. *)
Definition next_whole (whole : list byte) : res IoError (option Frame) * list byte :=
  match decode whole with
  | Ok (frame, n) => (Ok (Some frame), drop (Z.to_nat n) whole)
  | Err (ShortBuffer _ _) =>
      (match whole with [] => Ok None | _ => Err UnexpectedEof end, whole)
  | Err e => (Err (InvalidData e), whole)
  | Panic => (Panic, whole)
  end.

(** ** More bytes never change what the decoder has already decided *)

Lemma decode_extend p q :
  (∀ need have, decode p ≠ Err (ShortBuffer need have)) → decode (p ++ q) = decode p.
Proof.
  destruct (decide (len p < HEADER_LEN)) as [Hs|Hs].
  { unfold decode. rewrite (proj2 (Z.ltb_lt _ _)) by lia. naive_solver. }
  destruct (header_view p) as (ty & L & r & HL & ->); [unfold HEADER_LEN in *; lia|].
  rewrite <-app_comm_cons, <-(assoc_L (++)). rewrite !decode_header by done.
  case_if; [done|]. destruct (len r <? L) eqn:Hr; [naive_solver|intros _]. bool_prop.
  pose proof (len_nonneg q). rewrite (proj2 (Z.ltb_ge _ _)) by len_lia.
  rewrite take_app_le by (unfold len in *; lia). done.
Qed.

Lemma decode_consumed p f n :
  decode p = Ok (f, n) → ∀ q, drop (Z.to_nat n) (p ++ q) = drop (Z.to_nat n) p ++ q.
Proof.
  intros (_ & [? ?] & _)%decode_inv q. apply drop_app_le. unfold len in *; lia.
Qed.

(** Splitting the stream into chunks makes no difference to [next_frame_loop]. *)
Lemma next_frame_loop_whole cs b :
  Forall (.≠ []) cs →
  let '(x, r) := next_frame_loop (chunks cs) b in
  ∃ cs', stream r cs' ∧ next_whole (b ++ concat cs) = (x, buf r ++ concat cs').
Proof.
  revert b. induction cs as [|c cs IH]; intros b Hcs.
  - cbn [concat]. rewrite !app_nil_r. unfold next_whole, stream. cbn.
    destruct (decode b) as [[? ?]|[]|]; exists []; cbn; rewrite ?app_nil_r; by destruct b.
  - pose proof Hcs as [Hc Hcs']%Forall_cons_1. cbn [chunks fmap list_fmap next_frame_loop].
    destruct (decode b) as [[f n]|[need have|ty|n|n]|] eqn:Hd.
    2: { destruct c as [|x c]; [done|]. cbn [concat]. rewrite (assoc_L (++)). by apply IH. }
    all: exists (c :: cs); split; [done|]; unfold next_whole;
      rewrite decode_extend, Hd by (intros ??; rewrite ?Hd; done); try done.
    by rewrite (decode_consumed _ _ _ Hd).
Qed.

Lemma next_whole_encode f rest : frame_ok f → next_whole (encode f ++ rest) = (Ok (Some f), rest).
Proof.
  intros Hok. unfold next_whole. rewrite decode_encode_app by done.
  by rewrite to_nat_len, drop_app_length.
Qed.

Lemma read_frames_encoded fs : ∀ r cs fuel,
  Forall frame_ok fs → stream r cs → buf r ++ concat cs = concat (encode <$> fs) →
  (length fs < fuel)%nat → read_frames fuel r = (fs, Ok tt).
Proof.
  induction fs as [|f fs IH]; intros [inn b] cs [|fuel] Hok [Hin Hcs] Hb Hf;
    cbn [length inner buf fmap list_fmap concat read_frames] in *; try lia; subst inn; unfold next_frame; cbn [inner buf]; pose proof (next_frame_loop_whole cs b Hcs) as Hw;
    destruct (next_frame_loop (chunks cs) b) as [x r]; destruct Hw as (cs' & Hr & Hw); rewrite Hb in Hw.
  - by injection Hw as <- _.
  - apply Forall_cons_1 in Hok as [Hok ?]. rewrite next_whole_encode in Hw by done.
    injection Hw as <- Hw. by rewrite (IH r cs' fuel) by (done || lia).
Qed.

(** However the network splits the stream into chunks, [next_frame] answers
    what decoding the whole remaining stream at once would answer (a frame, end of
    file, a truncated frame or a protocol error), and leaves the same bytes to read. *)
Lemma next_frame_chunking cs b :
  Forall (.≠ []) cs →
  let '(x, r) := next_frame (mkReader (chunks cs) b) in
  ∃ cs', stream r cs' ∧ next_whole (b ++ concat cs) = (x, buf r ++ concat cs').
Proof. apply next_frame_loop_whole. Qed.

(** C31.  Stream round trip: any sequence of well-formed frames, encoded back to back
    and delivered in arbitrary non-empty chunks, is read back as exactly that
    sequence, after which the reader reports a clean end of file. *)
Theorem read_frames_roundtrip fs cs fuel :
  Forall frame_ok fs → Forall (.≠ []) cs → concat cs = concat (encode <$> fs) →
  (length fs < fuel)%nat →
  read_frames fuel (new (chunks cs)) = (fs, Ok tt).
Proof. intros Hok Hcs Hb Hf. by apply (read_frames_encoded fs _ cs). Qed.

Lemma read_frames_roundtrip_witness :
  let fs := [Ping (replicate 8 x2a); Health; ServerInfo 2] in
  let cs := [[x05]; [x00; x00; x00; x08]; replicate 8 x2a ++ [x08; x00]; [x00; x00; x00; x02];
             [x00; x00; x00; x04; x00; x00; x00; x02]] in
  read_frames 4 (new (chunks cs)) = (fs, Ok tt).
Proof.
  intros fs cs. apply (read_frames_roundtrip fs cs 4);
    [repeat constructor; done | repeat constructor; done | vm_compute; reflexivity | cbn; lia].
Defined.
