(* ===== verification/Mpsc.v ===== *)
(** * Bounded multi-producer channels

    The relay uses tokio's bounded mpsc channels, a library outside the
    repository.  [Mpsc] is the interface the relay relies on and [MpscLaws] the
    documented behaviour: a channel is FIFO, holds at most [cap] messages,
    [try_send] never waits and reports a full queue or a dropped receiver.
    A sender handle is identified by its channel, which is what
    [Sender::same_channel] compares. *)

From S2P Require Import Prelude.

Record ChanView (F : Type) := mkChan { queue : list F; cap : Z; rx_open : bool }.
Arguments mkChan {F} _ _ _.
Arguments queue {F} _.
Arguments cap {F} _.
Arguments rx_open {F} _.

Inductive SendResult := Sent | Full | Closed.

#[global] Instance SendResult_eq_dec : EqDecision SendResult.
Proof. solve_decision. Defined.

Class Mpsc (F heap : Type) := {
  channel : Z → heap → nat * heap;
  try_send : nat → F → heap → SendResult * heap;
  recv : nat → heap → option F * heap;
  drop_rx : nat → heap → heap;
  view : heap → gmap nat (ChanView F)
}.

Class MpscLaws (F heap : Type) `{Mpsc F heap} := {
  channel_spec n h :
    view h !! (channel n h).1 = None ∧
    view (channel n h).2 = <[(channel n h).1 := mkChan [] n true]> (view h);
  try_send_spec c (f : F) h q :
    view h !! c = Some q →
    (rx_open q = false ∧ (try_send c f h).1 = Closed ∧ view (try_send c f h).2 = view h) ∨
    (rx_open q = true ∧ cap q ≤ len (queue q) ∧ (try_send c f h).1 = Full ∧
     view (try_send c f h).2 = view h) ∨
    (rx_open q = true ∧ len (queue q) < cap q ∧ (try_send c f h).1 = Sent ∧
     view (try_send c f h).2 = <[c := mkChan (queue q ++ [f]) (cap q) true]> (view h));
  recv_spec c h q :
    view h !! c = Some q →
    (queue q = [] ∧ (recv c h).1 = None ∧ view (recv c h).2 = view h) ∨
    (∃ f fs, queue q = f :: fs ∧ (recv c h).1 = Some f ∧
      view (recv c h).2 = <[c := mkChan fs (cap q) (rx_open q)]> (view h));
  drop_rx_spec c h q :
    view h !! c = Some q → view (drop_rx c h) = <[c := mkChan [] (cap q) false]> (view h)
}.

(** A concrete implementation: the interface can be met. *)
Section Queues.
Context {F : Type}.

Abbreviation queues := (gmap nat (ChanView F)).

#[export] Instance queue_mpsc : Mpsc F queues := {
  channel n h := let c := fresh (dom h) in (c, <[c := mkChan [] n true]> h);
  try_send c f h :=
    match h !! c with
    | Some q =>
        if rx_open q then
          if len (queue q) <? cap q
          then (Sent, <[c := mkChan (queue q ++ [f]) (cap q) true]> h) else (Full, h)
        else (Closed, h)
    | None => (Closed, h)
    end;
  recv c h :=
    match h !! c with
    | Some (mkChan (f :: fs) n o) => (Some f, <[c := mkChan fs n o]> h)
    | _ => (None, h)
    end;
  drop_rx c h :=
    match h !! c with Some q => <[c := mkChan [] (cap q) false]> h | None => h end;
  view h := h
}.

#[export] Instance queue_mpsc_laws : MpscLaws F queues.
Proof.
  split.
  - intros n h. cbn. split; [|done]. apply not_elem_of_dom, is_fresh.
  - intros c f h q Hq. cbn in *. rewrite Hq. destruct (rx_open q); [right|by left].
    destruct (_ <? _) eqn:E; bool_prop; [right|left]; done.
  - intros c h [[|f fs] n o] Hq; cbn in *; rewrite Hq; [by left|right]. by exists f, fs.
  - intros c h q Hq. cbn in *. by rewrite Hq.
Qed.
End Queues.
