(* ===== verification/Hub.v ===== *)
(** * The relay's routing hub and its sessions (relay-server/src/hub.rs, server.rs)

    The registry of connected peers, the routing of datagrams by public key, the
    session handshake and the pump that serves one client.  Channels are those of
    [Mpsc]; link sessions ([Arc<dyn LinkSession>]) are shared objects named by a
    number, and [active] is the set of those not yet invalidated.  The step
    relation at the end interleaves any number of client sessions. *)

From S2P Require Import Prelude.
From S2P Require Import Words.
From S2P Require Import RelayProto.
From S2P Require Import Mpsc.

Definition DEFAULT_QUEUE_CAP : Z := 512.
Definition RELAY_PROTOCOL_VERSION : Z := 2.

Inductive Routed :=
| Delivered
| Dropped (dst : PublicKey)
| RoutedPeerGone (dst : PublicKey)
| Ignored.

#[global] Instance Routed_eq_dec : EqDecision Routed.
Proof. solve_decision. Defined.

Record Connection := mkConn { tx : nat; auth : option nat }.

(** The hub and the objects it shares with the session tasks: the channels and
    the link sessions. *)
Record Hub (heap : Type) := mkHub {
  peers : gmap PublicKey Connection;
  queue_cap : Z;
  chans : heap;
  active : gset nat
}.
Arguments mkHub {heap} _ _ _ _.
Arguments peers {heap} _.
Arguments queue_cap {heap} _.
Arguments chans {heap} _.
Arguments active {heap} _.

Section Hub.
Context {heap : Type} `{Mpsc Frame heap}.

Definition with_capacity (cap : Z) (h : heap) : Hub heap := mkHub ∅ (Z.max cap 1) h ∅.

(** [Drop for Connection]: dropping a registered connection invalidates its link
    session. *)
Definition drop_connection (conn : option Connection) (active : gset nat) : gset nat :=
  match conn with
  | Some (mkConn _ (Some auth)) => active ∖ {[auth]}
  | _ => active
  end.

Definition connect_authenticated (pubkey : PublicKey) (auth : option nat) (hub : Hub heap)
    : nat * Hub heap :=
  let '(tx, chans) := channel (queue_cap hub) (chans hub) in
  (tx, mkHub (<[pubkey := mkConn tx auth]> (peers hub)) (queue_cap hub) chans
         (drop_connection (peers hub !! pubkey) (active hub))).

Definition connect (pubkey : PublicKey) (hub : Hub heap) : nat * Hub heap :=
  connect_authenticated pubkey None hub.

Definition disconnect (pubkey : PublicKey) (hub : Hub heap) : Hub heap :=
  mkHub (delete pubkey (peers hub)) (queue_cap hub) (chans hub)
    (drop_connection (peers hub !! pubkey) (active hub)).

Definition disconnect_session (pubkey : PublicKey) (self_tx : nat) (hub : Hub heap) : Hub heap :=
  match peers hub !! pubkey with
  | Some cur => if decide (tx cur = self_tx) then disconnect pubkey hub else hub
  | None => hub
  end.

Definition connected (pubkey : PublicKey) (hub : Hub heap) : bool :=
  bool_decide (is_Some (peers hub !! pubkey)).

Definition peer_count (hub : Hub heap) : nat := size (peers hub).

Definition with_chans (hub : Hub heap) (h : heap) : Hub heap :=
  mkHub (peers hub) (queue_cap hub) h (active hub).

(** [session.is_some_and(|tx| guard.get(&src).is_none_or(|c| !c.tx.same_channel(tx)))]. *)
Definition stale (src : PublicKey) (session : option nat) (hub : Hub heap) : bool :=
  match session with
  | Some self_tx =>
      match peers hub !! src with
      | None => true
      | Some c => bool_decide (tx c ≠ self_tx)
      end
  | None => false
  end.

Definition route_session (src : PublicKey) (session : option nat) (frame : Frame)
    (hub : Hub heap) : Routed * Hub heap :=
  match frame with
  | SendPacket dst payload =>
      if stale src session hub then (Ignored, hub) else
      match peers hub !! dst with
      | Some conn =>
          let '(r, h) := try_send (tx conn) (RecvPacket src payload) (chans hub) in
          (match r with
           | Sent => Delivered
           | Full => Dropped dst
           | Closed => RoutedPeerGone dst
           end, with_chans hub h)
      | None => (RoutedPeerGone dst, hub)
      end
  | _ => (Ignored, hub)
  end.

Definition route (src : PublicKey) (frame : Frame) (hub : Hub heap) : Routed * Hub heap :=
  route_session src None frame hub.

(** [let _ = self_tx.try_send(frame)]. *)
Definition reply (self_tx : nat) (frame : Frame) (hub : Hub heap) : Hub heap :=
  with_chans hub (try_send self_tx frame (chans hub)).2.

(** [RelayServer::handle_inbound]; [allowed] is the verdict of the client's token
    bucket on this frame. *)
Definition handle_inbound (from : PublicKey) (frame : Frame) (self_tx : nat) (allowed : bool)
    (hub : Hub heap) : Hub heap :=
  match frame with
  | SendPacket _ _ =>
      if negb allowed then hub else
      match route_session from (Some self_tx) frame hub with
      | (RoutedPeerGone dst, hub) => reply self_tx (PeerGone dst) hub
      | (_, hub) => hub
      end
  | Ping data => reply self_tx (Pong data) hub
  | _ => hub
  end.
End Hub.

(** ** Admission: the handshake of [serve_conn] and [serve_bonded_conn] *)

Inductive Admission :=
| Registered (pubkey : PublicKey)
| Rejected
| HandshakeError.

#[global] Instance Admission_eq_dec : EqDecision Admission.
Proof. solve_decision. Defined.

Section Admission.
(** [Auth::authorize], the deployment's policy. *)
Context (authorize : PublicKey → Z → bool).

Definition admission (peer : PublicKey) (first : option Frame) : Admission :=
  match first with
  | Some (ClientInfo pubkey protocol_version) =>
      if negb (protocol_version =? RELAY_PROTOCOL_VERSION) || bool_decide (peer ≠ pubkey)
         || negb (authorize pubkey protocol_version)
      then Rejected else Registered pubkey
  | _ => HandshakeError
  end.

(** The bonded variant decodes the first packet itself and needs a live link session. *)
Definition admission_bonded (peer : PublicKey) (live : bool) (packet : list byte) : Admission :=
  if negb live then HandshakeError else
  match decode packet with
  | Ok (f, _) => admission peer (Some f)
  | _ => HandshakeError
  end.
End Admission.

(** [AllowAll], the default policy. *)
Definition allow_all (min_version : Z) (_ : PublicKey) (protocol_version : Z) : bool :=
  min_version <=? protocol_version.

(** ** The server: interleaved sessions

    A task is the session of one client after its handshake, named by the channel
    [connect_authenticated] gave it.  Tasks stay in the map once they have ended. *)

Record Task := mkTask { t_key : PublicKey; t_sess : nat; t_alive : bool }.

Record Server (heap : Type) := mkServer { hub : Hub heap; tasks : gmap nat Task }.
Arguments mkServer {heap} _ _.
Arguments hub {heap} _.
Arguments tasks {heap} _.

(** [EvAccept c peer]: link authentication proved the key [peer] and the session was
    registered on channel [c].  [EvIn]: a frame arrives from the client, [EvOut]: a
    frame is written to it, [EvClose]: its pump ends, for whatever reason. *)
Inductive Event :=
| EvAccept (c : nat) (peer : PublicKey)
| EvIn (c : nat) (frame : Frame) (allowed : bool)
| EvOut (c : nat) (frame : Frame)
| EvClose (c : nat).

Section Server.
Context {heap : Type} `{MpscLaws Frame heap} (authorize : PublicKey → Z → bool).

(** Steps 3 to 5 of [serve_conn]. *)
Definition register (k : PublicKey) (s : nat) (srv : Server heap) : nat * Server heap :=
  let h := hub srv in
  let '(c, h) := connect_authenticated k (Some s)
                   (mkHub (peers h) (queue_cap h) (chans h) (active h ∪ {[s]})) in
  (c, mkServer h (<[c := mkTask k s true]> (tasks srv))).

Definition inbound (c : nat) (t : Task) (f : Frame) (allowed : bool) (srv : Server heap) : Server heap :=
  mkServer (handle_inbound (t_key t) f c allowed (hub srv)) (tasks srv).

(** Cleanup, then the task's locals go: the receiver and the [Lease] on its link session. *)
Definition close (c : nat) (t : Task) (srv : Server heap) : Server heap :=
  let h := disconnect_session (t_key t) c (hub srv) in
  mkServer (mkHub (peers h) (queue_cap h) (drop_rx c (chans h)) (active h ∖ {[t_sess t]}))
    (<[c := mkTask (t_key t) (t_sess t) false]> (tasks srv)).

Inductive step (srv : Server heap) : Event → Server heap → Prop :=
| step_accept peer first k s c srv' :
    admission authorize peer (Some first) = Registered k →
    s ∉ active (hub srv) → (∀ c t, tasks srv !! c = Some t → t_sess t ≠ s) →
    register k s srv = (c, srv') →
    step srv (EvAccept c peer) srv'
| step_in c t f allowed :
    tasks srv !! c = Some t → t_alive t = true →
    step srv (EvIn c f allowed) (inbound c t f allowed srv)
| step_out c t f h :
    tasks srv !! c = Some t → t_alive t = true →
    recv c (chans (hub srv)) = (Some f, h) →
    step srv (EvOut c f) (mkServer (with_chans (hub srv) h) (tasks srv))
| step_close c t :
    tasks srv !! c = Some t → t_alive t = true →
    step srv (EvClose c) (close c t srv).

(** Runs from an empty hub, latest event first. *)
Inductive reachable (n : Z) : list Event → Server heap → Prop :=
| reach_init h : view h = ∅ → reachable n [] (mkServer (with_capacity n h) ∅)
| reach_step tr srv e srv' : reachable n tr srv → step srv e srv' → reachable n (e :: tr) srv'.

(** Every registered peer is served by a live task of that key, whose link session
    is the one the registry holds and is still active; conversely only registered
    tasks have an active session. *)
Definition registry_ok (srv : Server heap) : Prop :=
  (∀ k conn, peers (hub srv) !! k = Some conn →
     ∃ s, auth conn = Some s ∧ s ∈ active (hub srv) ∧
          tasks srv !! tx conn = Some (mkTask k s true)) ∧
  (∀ c t, tasks srv !! c = Some t → t_sess t ∈ active (hub srv) →
     peers (hub srv) !! t_key t = Some (mkConn c (Some (t_sess t)))).

(** Distinct tasks have distinct link sessions. *)
Definition sessions_ok (srv : Server heap) : Prop :=
  ∀ c c' t t', tasks srv !! c = Some t → tasks srv !! c' = Some t' → t_sess t = t_sess t' → c = c'.

(** A packet waiting in a queue was sent by the session it names to the owner of
    the queue. *)
Definition provenance (tr : list Event) (c : nat) (f : Frame) : Prop :=
  match f with
  | RecvPacket src p =>
      ∃ k c', EvAccept c k ∈ tr ∧ EvAccept c' src ∈ tr ∧ EvIn c' (SendPacket k p) true ∈ tr
  | _ => True
  end.

Definition queue_ok (tr : list Event) (srv : Server heap) (c : nat) (q : ChanView Frame) : Prop :=
  cap q = queue_cap (hub srv) ∧ len (queue q) ≤ cap q ∧ Forall (provenance tr c) (queue q) ∧
  ∃ t, tasks srv !! c = Some t ∧ rx_open q = t_alive t.

Record inv (tr : list Event) (srv : Server heap) : Prop := {
  inv_cap : 1 ≤ queue_cap (hub srv);
  inv_dom c : is_Some (tasks srv !! c) ↔ is_Some (view (chans (hub srv)) !! c);
  inv_queue c q : view (chans (hub srv)) !! c = Some q → queue_ok tr srv c q;
  inv_accepted c t : tasks srv !! c = Some t → EvAccept c (t_key t) ∈ tr;
  inv_registry : registry_ok srv;
  inv_sessions : sessions_ok srv
}.

(** What sending on a channel with a live receiver does: append, or drop when full. *)
Definition push (c : nat) (f : Frame) (v : gmap nat (ChanView Frame)) : gmap nat (ChanView Frame) :=
  match v !! c with
  | Some q =>
      if len (queue q) <? cap q
      then <[c := mkChan (queue q ++ [f]) (cap q) (rx_open q)]> v else v
  | None => v
  end.

(** ** Proofs *)

Lemma admission_inv peer f k :
  admission authorize peer (Some f) = Registered k →
  peer = k ∧ authorize k RELAY_PROTOCOL_VERSION = true ∧ f = ClientInfo k RELAY_PROTOCOL_VERSION.
Proof.
  unfold admission. destruct f; try done. case_if; [done|]. intros [= <-].
  bool_prop. subst. split_and!; [by apply dec_stable|done|done].
Qed.

Lemma provenance_mono tr e c f : provenance tr c f → provenance (e :: tr) c f.
Proof.
  destruct f; cbn; try done. intros (k & c' & ? & ? & ?). exists k, c'.
  by split_and!; apply elem_of_cons; right.
Qed.

Lemma inv_event tr e srv : inv tr srv → inv (e :: tr) srv.
Proof.
  intros [Hc Hd Hq Ha Hr Hs]. split; try done.
  - intros c q (? & ? & Hp & ?)%Hq. split_and!; try done.
    eapply Forall_impl; [|exact Hp]. intros f. apply provenance_mono.
  - intros c t ?%Ha. by apply elem_of_cons; right.
Qed.

(** A change of one channel's contents. *)
Lemma inv_chans tr srv h :
  inv tr srv →
  (view h = view (chans (hub srv)) ∨
   ∃ c q, is_Some (view (chans (hub srv)) !! c) ∧ queue_ok tr srv c q ∧
     view h = <[c := q]> (view (chans (hub srv)))) →
  inv tr (mkServer (with_chans (hub srv) h) (tasks srv)).
Proof.
  intros [Hc Hd Hq Ha Hr Hs] Hv. split; try done.
  - intros c. cbn. rewrite Hd. destruct Hv as [->|(c' & q & Hc' & _ & ->)]; [done|].
    rewrite lookup_insert. destruct (decide (c' = c)) as [->|_]; [by split; eauto|done].
  - intros c q. cbn. destruct Hv as [->|(c' & q' & _ & Hq' & ->)]; [apply Hq|].
    rewrite lookup_insert. case_decide; [|apply Hq]. intros [= <-]. by subst.
Qed.

Lemma inv_try_send tr srv c f :
  inv tr srv → is_Some (tasks srv !! c) → provenance tr c f →
  inv tr (mkServer (with_chans (hub srv) (try_send c f (chans (hub srv))).2) (tasks srv)).
Proof.
  intros Hi Ht Hp. apply inv_chans; [done|]. apply (inv_dom _ _ Hi) in Ht as [q Hq].
  destruct (inv_queue _ _ Hi _ _ Hq) as (Hc & Hl & Hf & Ho).
  destruct (try_send_spec c f _ _ Hq) as [(_ & _ & ->)|[(_ & _ & _ & ->)|(<- & ? & _ & ->)]];
    [by left..|right]. exists c, (mkChan (queue q ++ [f]) (cap q) (rx_open q)).
  split_and!; [done|split_and!; cbn|done]; [done|rewrite len_app; cbn [len length]; len_lia| |done].
  apply Forall_app. by rewrite Forall_singleton.
Qed.

Lemma inv_recv tr srv c f h :
  inv tr srv → is_Some (tasks srv !! c) → recv c (chans (hub srv)) = (Some f, h) →
  provenance tr c f ∧ inv tr (mkServer (with_chans (hub srv) h) (tasks srv)).
Proof.
  intros Hi Ht Hr. apply (inv_dom _ _ Hi) in Ht as [q Hq].
  destruct (inv_queue _ _ Hi _ _ Hq) as (Hc & Hl & Hf & Ho).
  destruct (recv_spec c _ _ Hq) as [(_ & Hn & _)|(f' & fs & Hfs & Hf' & Hv)];
    rewrite Hr in *; [done|]. cbn in Hf', Hv. injection Hf' as <-. rewrite Hfs in Hf, Hl.
  apply Forall_cons_1 in Hf as [? ?]. split; [done|]. apply inv_chans; [done|right].
  exists c, (mkChan fs (cap q) (rx_open q)). split_and!; [done|split_and!; cbn|done]; try done.
  rewrite len_cons in Hl. lia.
Qed.

(** The destination of a registered connection is a known task. *)
Lemma inv_peer_task tr srv k conn :
  inv tr srv → peers (hub srv) !! k = Some conn →
  is_Some (tasks srv !! tx conn) ∧ EvAccept (tx conn) k ∈ tr.
Proof.
  intros Hi (s & _ & _ & Ht)%(proj1 (inv_registry _ _ Hi)). split; [eauto|].
  by apply (inv_accepted _ _ Hi) in Ht.
Qed.

Lemma inv_inbound tr srv c t f allowed :
  inv tr srv → tasks srv !! c = Some t →
  inv (EvIn c f allowed :: tr) (inbound c t f allowed srv).
Proof.
  intros Hi Ht. pose proof (inv_accepted _ _ Hi _ _ Ht) as Hacc.
  apply (inv_event _ (EvIn c f allowed)) in Hi. unfold inbound, handle_inbound.
  destruct f; try (by destruct srv); [|by apply inv_try_send; eauto].
  destruct allowed; [|by destruct srv]. cbn [negb]. unfold route_session.
  destruct (stale _ _ _); [by destruct srv|].
  destruct (peers (hub srv) !! dst) as [conn|] eqn:Hd; [|by apply inv_try_send; eauto].
  destruct (try_send (tx conn) _ _) as [r h] eqn:Hs.
  destruct (inv_peer_task _ _ _ _ Hi Hd) as [Ht' Hacc'].
  pose proof (inv_try_send _ _ (tx conn) (RecvPacket (t_key t) payload) Hi Ht') as Hi'.
  rewrite Hs in Hi'. specialize (Hi' ltac:(exists dst, c; split_and!; [done|by right|by left])).
  destruct r; [done..|].
  by apply (inv_try_send _ (mkServer (with_chans (hub srv) h) (tasks srv))); eauto.
Qed.
Lemma elem_of_drop_connection x o (A : gset nat) :
  x ∈ drop_connection o A ↔ x ∈ A ∧ ∀ conn, o = Some conn → auth conn ≠ Some x.
Proof.
  destruct o as [[c [s|]]|]; cbn; [rewrite elem_of_difference, elem_of_singleton| |].
  - split; intros [? Hs]; (split; [done|]); [by intros ? [= <-] [= ->]|].
    intros ->. by apply (Hs _ eq_refl).
  - split; [|by intros [? _]]. intros ?. split; [done|]. by intros ? [= <-].
  - split; [|by intros [? _]]. done.
Qed.

(** The session of a registered connection belongs to its task alone. *)
Lemma registry_session srv k k' conn conn' s :
  registry_ok srv → sessions_ok srv →
  peers (hub srv) !! k = Some conn → peers (hub srv) !! k' = Some conn' →
  auth conn = Some s → auth conn' = Some s → k = k'.
Proof.
  intros [Hp _] Hs (s1 & Ha1 & _ & Ht1)%Hp (s2 & Ha2 & _ & Ht2)%Hp ? ?.
  assert (tx conn = tx conn') as Hc by (eapply (Hs _ _ _ _ Ht1 Ht2); cbn; congruence).
  rewrite Hc in Ht1. by simplify_eq.
Qed.

Lemma registry_register srv k s c h :
  registry_ok srv → sessions_ok srv → tasks srv !! c = None →
  s ∉ active (hub srv) → (∀ c t, tasks srv !! c = Some t → t_sess t ≠ s) →
  registry_ok (mkServer (mkHub (<[k := mkConn c (Some s)]> (peers (hub srv))) (queue_cap (hub srv)) h
      (drop_connection (peers (hub srv) !! k) (active (hub srv) ∪ {[s]})))
    (<[c := mkTask k s true]> (tasks srv))).
Proof.
  intros Hr Hs Hc Hsa Hst. split; cbn.
  - intros k' conn. rewrite lookup_insert. destruct (decide (k = k')) as [<-|Hk].
    + intros [= <-]. exists s. rewrite lookup_insert_eq, elem_of_drop_connection. split_and!; try done.
      * set_solver.
      * intros conn (s' & -> & ? & _)%(proj1 Hr). naive_solver.
    + intros Hconn. destruct (proj1 Hr _ _ Hconn) as (s' & Ha & ? & Ht). exists s'.
      rewrite elem_of_drop_connection, lookup_insert_ne by congruence. split_and!; try done.
      * set_solver.
      * intros conn' Hconn' Ha'. by eapply Hk, (registry_session srv).
  - intros c0 t. rewrite lookup_insert. destruct (decide (c = c0)) as [<-|Hne].
    + intros [= <-] _. cbn. by rewrite lookup_insert_eq.
    + rewrite elem_of_drop_connection. intros Ht [[Hact|?%elem_of_singleton]%elem_of_union Hd];
        [|by apply Hst in Ht].
      pose proof (proj2 Hr _ _ Ht Hact) as Hp. rewrite lookup_insert_ne; [done|].
      intros ->. by apply (Hd _ Hp).
Qed.

Lemma inv_register tr srv k s c srv' :
  inv tr srv → s ∉ active (hub srv) → (∀ c t, tasks srv !! c = Some t → t_sess t ≠ s) →
  register k s srv = (c, srv') → inv (EvAccept c k :: tr) srv'.
Proof.
  intros Hi Hsa Hst Hreg. apply (inv_event _ (EvAccept c k)) in Hi.
  unfold register, connect_authenticated in Hreg. cbn [chans queue_cap] in Hreg.
  destruct (channel_spec (queue_cap (hub srv)) (chans (hub srv))) as [Hf Hv].
  destruct (channel _ _) as [c' h]. cbn in Hf, Hv. injection Hreg as -> <-.
  assert (tasks srv !! c = None) as Hc.
  { apply eq_None_not_Some. rewrite (inv_dom _ _ Hi), Hf. by intros [? ?]. }
  destruct Hi as [Hcap Hd Hq Ha Hr Hs]. split; cbn; [done|..].
  - intros c0. rewrite Hv, !lookup_insert. case_decide; [by split; eauto|apply Hd].
  - intros c0 q. rewrite Hv, lookup_insert. case_decide.
    + intros [= <-]. split_and!; cbn; [done|rewrite len_nil; lia|constructor|].
      subst. rewrite lookup_insert_eq. eauto.
    + intros (? & ? & ? & ?)%Hq. split_and!; try done. cbn. by rewrite lookup_insert_ne.
  - intros c0 t. rewrite lookup_insert. destruct (decide (c = c0)) as [<-|_]; [|apply Ha].
    intros [= <-]. by left.
  - by apply registry_register.
  - intros c1 c2 t1 t2. cbn. rewrite !lookup_insert.
    intros ? ? ?. repeat case_decide; simplify_eq; cbn in *; eauto;
      exfalso; (eapply Hst; [eassumption|congruence]).
Qed.
(** What the registry looks like after the cleanup of task [c]. *)
Lemma disconnect_session_spec k c (h : Hub heap) :
  queue_cap (disconnect_session k c h) = queue_cap h ∧
  chans (disconnect_session k c h) = chans h ∧
  ((∃ a, peers h !! k = Some (mkConn c a)) ∧
   peers (disconnect_session k c h) = delete k (peers h) ∧
   active (disconnect_session k c h) = drop_connection (peers h !! k) (active h) ∨
   (∀ a, peers h !! k ≠ Some (mkConn c a)) ∧ disconnect_session k c h = h).
Proof.
  unfold disconnect_session. destruct (peers h !! k) as [[c' a]|] eqn:E; cbn;
    [destruct (decide (c' = c)) as [->|?]|]; cbn; split_and!; try done; [left|right|right].
  - rewrite E. eauto.
  - split; [|done]. congruence.
  - done.
Qed.

Lemma registry_close srv c t :
  registry_ok srv → sessions_ok srv → tasks srv !! c = Some t → registry_ok (close c t srv).
Proof.
  intros Hr Hs Ht. unfold close.
  destruct (disconnect_session_spec (t_key t) c (hub srv)) as (_ & _ & Hcase).
  assert (∀ k conn s, peers (hub srv) !! k = Some conn → auth conn = Some s → tx conn ≠ c →
    s ≠ t_sess t) as Hne.
  { intros k conn s Hp Ha Hne ->. destruct (proj1 Hr _ _ Hp) as (s' & ? & _ & Ht').
    apply Hne, (Hs _ _ _ _ Ht' Ht). cbn. congruence. }
  assert (∀ k conn, peers (hub srv) !! k = Some conn → tx conn = c → k = t_key t) as Hkey.
  { intros k conn (s & _ & _ & Ht')%(proj1 Hr) <-. rewrite Ht in Ht'. by simplify_eq. }
  split; cbn.
  - intros k conn Hp. assert (tx conn ≠ c ∧ peers (hub srv) !! k = Some conn) as [Hc Hp'].
    { destruct Hcase as [(_ & Hpe & _)|(Hno & Heq)].
      - rewrite Hpe in Hp. apply lookup_delete_Some in Hp as [? ?]. split; [|done].
        intros ?. exfalso. eauto using eq_sym.
      - rewrite Heq in Hp. split; [|done]. intros Hc. rewrite (Hkey _ _ Hp Hc) in Hp.
        destruct conn; cbn in Hc; subst. by apply Hno in Hp. }
    destruct (proj1 Hr _ _ Hp') as (s & Ha & ? & Ht'). exists s.
    rewrite lookup_insert_ne, elem_of_difference, elem_of_singleton by done.
    split_and!; [done| |by eapply Hne|done].
    destruct Hcase as [([a Hk] & _ & ->)|(_ & ->)]; [|done]. rewrite elem_of_drop_connection.
    split; [done|]. intros conn' Hk' Ha'. rewrite Hk in Hk'. injection Hk' as <-.
    apply Hc. rewrite (registry_session srv _ _ _ _ _ Hr Hs Hp' Hk Ha Ha') in Hp'. by simplify_eq.
  - intros c0 t0. rewrite lookup_insert, elem_of_difference, elem_of_singleton.
    destruct (decide (c = c0)) as [->|Hc0]; [by intros [= <-] [_ ?]|]. intros Ht0 [Hact _].
    destruct Hcase as [([a Hk] & -> & Ha)|(_ & Heq)]; [|rewrite Heq in *; by apply Hr].
    rewrite Ha in Hact. apply elem_of_drop_connection in Hact as [Hact _].
    pose proof (proj2 Hr _ _ Ht0 Hact) as Hp. apply lookup_delete_Some. split; [|done].
    intros Hkk. rewrite Hkk, Hp in Hk. congruence.
Qed.

Lemma inv_close tr srv c t :
  inv tr srv → tasks srv !! c = Some t → inv (EvClose c :: tr) (close c t srv).
Proof.
  intros Hi Ht. apply (inv_event _ (EvClose c)) in Hi.
  destruct Hi as [Hcap Hd Hq Ha Hr Hs].
  destruct (disconnect_session_spec (t_key t) c (hub srv)) as (Hqc & Hch & _).
  destruct (proj1 (Hd c)) as [q Hqv]; [eauto|]. pose proof (drop_rx_spec _ _ _ Hqv) as Hv.
  split; [..|by apply registry_close|]; unfold close; cbn; rewrite ?Hqc, ?Hch, ?Hv.
  - done.
  - intros c0. rewrite !lookup_insert. case_decide; [by split; eauto|apply Hd].
  - intros c0 q0. rewrite lookup_insert. case_decide as Hc; intros Hq0; unfold queue_ok; cbn; rewrite ?Hqc.
    + injection Hq0 as <-. cbn. destruct (Hq _ _ Hqv) as (-> & ? & _). rewrite len_nil.
      split_and!; [done|lia|constructor|]. subst. rewrite lookup_insert_eq. eauto.
    + destruct (Hq _ _ Hq0) as (? & ? & ? & ?). rewrite lookup_insert_ne by done. eauto.
  - intros c0 t0. rewrite lookup_insert. destruct (decide (c = c0)) as [<-|_]; [|apply Ha].
    intros [= <-]. by apply (Ha _ _ Ht).
  - intros c1 c2 t1 t2. cbn. rewrite !lookup_insert. intros ? ? ?.
    repeat case_decide; simplify_eq; cbn in *; eauto.
Qed.

Lemma reachable_inv n tr srv : reachable n tr srv → inv tr srv.
Proof.
  induction 1 as [h Hh|tr srv e srv' _ IH Hst].
  - split; cbn; rewrite ?Hh; try done; [lia|]. intros c. rewrite !lookup_empty. done.
  - destruct Hst as [peer f k s c srv' Hadm ? ? Hreg| |c t f h Ht ? Hrecv|].
    + apply admission_inv in Hadm as (-> & _). by eapply inv_register.
    + by apply inv_inbound.
    + eapply inv_recv in IH as [_ ?]; [by apply inv_event|by eauto|done].
    + by apply inv_close.
Qed.
Lemma reachable_suffix n tr2 e tr1 srv :
  reachable n (tr2 ++ e :: tr1) srv → ∃ s s', reachable n tr1 s ∧ step s e s'.
Proof.
  revert srv. induction tr2 as [|e' tr2 IH]; intros srv Hr; inversion Hr; subst; eauto.
Qed.

Lemma try_send_alive n tr srv k conn f :
  reachable n tr srv → peers (hub srv) !! k = Some conn →
  view (try_send (tx conn) f (chans (hub srv))).2 = push (tx conn) f (view (chans (hub srv))) ∧
  (try_send (tx conn) f (chans (hub srv))).1 ≠ Closed.
Proof.
  intros Hi%reachable_inv Hp. destruct (proj1 (inv_registry _ _ Hi) _ _ Hp) as (s & _ & _ & Ht).
  destruct (proj1 (inv_dom _ _ Hi (tx conn))) as [q Hq]; [eauto|].
  destruct (inv_queue _ _ Hi _ _ Hq) as (_ & _ & _ & t & Ht' & Ho).
  rewrite Ht in Ht'. injection Ht' as <-. cbn in Ho. unfold push. rewrite Hq.
  destruct (try_send_spec (tx conn) f _ _ Hq) as [(? & _)|[(_ & Hc & -> & ->)|(_ & Hc & -> & ->)]];
    [congruence|by rewrite (proj2 (Z.ltb_ge _ _)) by lia|].
  by rewrite (proj2 (Z.ltb_lt _ _)), Ho by lia.
Qed.

(** C29.  No spoofing and no misdelivery: if the relay writes a packet naming the
    source [src] to a session, then that session was opened by a client that proved a
    key [k], and the packet was sent earlier, addressed to [k], by a session whose
    client proved possession of [src].  This holds for every interleaving of
    connections, reconnections, frames and disconnections. *)
Theorem relay_no_spoofing n tr2 c src p tr1 srv :
  reachable n (tr2 ++ EvOut c (RecvPacket src p) :: tr1) srv →
  ∃ k c', EvAccept c k ∈ tr1 ∧ EvAccept c' src ∈ tr1 ∧ EvIn c' (SendPacket k p) true ∈ tr1.
Proof.
  intros (s & s' & Hr%reachable_inv & Hs)%reachable_suffix. inversion Hs; subst.
  change (provenance tr1 c (RecvPacket src p)). by eapply (inv_recv tr1 s c); eauto.
Qed.

(** In every reachable state each registered key is served by exactly the live
    task the registry names, whose link session is active, no other task of that key
    holds an active session, and every client's queue is within the configured
    bound, so a stalled client cannot make the relay buffer without limit. *)
Lemma relay_registry_bounded n tr srv :
  reachable n tr srv →
  registry_ok srv ∧
  ∀ c q, view (chans (hub srv)) !! c = Some q → len (queue q) ≤ cap q ∧ cap q = queue_cap (hub srv).
Proof.
  intros Hi%reachable_inv. split; [apply (inv_registry _ _ Hi)|].
  by intros c q (? & ? & _)%(inv_queue _ _ Hi).
Qed.

(** C30.  What a permitted [SendPacket] of a registered client does: the packet is
    appended to the destination's queue naming the sender's key, or dropped when that
    queue is full; when the destination is not connected the sender is told so; the
    registry and the link sessions do not change. *)
Theorem relay_forwarding n tr srv src conn dst p allowed :
  reachable n tr srv → peers (hub srv) !! src = Some conn →
  let v := view (chans (hub srv)) in
  let hub' := handle_inbound src (SendPacket dst p) (tx conn) allowed (hub srv) in
  peers hub' = peers (hub srv) ∧ active hub' = active (hub srv) ∧
  view (chans hub') =
    if allowed then
      match peers (hub srv) !! dst with
      | Some d => push (tx d) (RecvPacket src p) v
      | None => push (tx conn) (PeerGone dst) v
      end
    else v.
Proof.
  intros Hr Hp v hub'. unfold hub', handle_inbound, route_session, stale. rewrite Hp.
  rewrite bool_decide_eq_false_2 by naive_solver. destruct allowed; [|done]. cbn [negb].
  destruct (peers (hub srv) !! dst) as [d|] eqn:Hd; cbn.
  - pose proof (try_send_alive _ _ _ _ _ (RecvPacket src p) Hr Hd) as [Hv Hn].
    destruct (try_send (tx d) _ _) as [[] h]; done.
  - split_and!; [done..|]. by eapply try_send_alive.
Qed.
End Server.

(** Taking over: when a client reconnects, its previous session (any other
    channel) can no longer route packets under that key, its cleanup does not remove
    the new registration, and the link session registered before is revoked. *)
Lemma relay_takeover {heap} `{MpscLaws Frame heap} k s c c' (h h' : Hub heap) :
  connect_authenticated k (Some s) h = (c', h') → c ≠ c' →
  (∀ f, route_session k (Some c) f h' = (Ignored, h')) ∧
  disconnect_session k c h' = h' ∧
  (∀ old a, peers h !! k = Some old → auth old = Some a → a ∉ active h').
Proof.
  unfold connect_authenticated. destruct (channel _ _) as [c0 ch]. intros [= -> <-] Hne.
  unfold route_session, stale, disconnect_session. cbn [peers]. rewrite lookup_insert_eq.
  cbn [tx]. split_and!.
  - intros []; try done. by rewrite bool_decide_eq_true_2 by congruence.
  - by destruct (decide (c' = c)); [congruence|].
  - intros [? ?] a Hold Ha. cbn in *. subst. rewrite Hold. cbn.
    rewrite elem_of_difference, elem_of_singleton. tauto.
Qed.

(** ** A concrete run, for the witnesses *)

Section Example.
Abbreviation key_a := (replicate 32 x0a).
Abbreviation key_b := (replicate 32 x0b).

Definition srv0 : Server (gmap nat (ChanView Frame)) := mkServer (with_capacity 2 ∅) ∅.
Definition srv1 := (register key_a 7 srv0).2.
Definition srv2 := (register key_b 8 srv1).2.
Definition srv3 := inbound 0 (mkTask key_a 7 true) (SendPacket key_b [x2a]) true srv2.

Lemma reach3 :
  reachable (allow_all 2) 2
    [EvIn 0 (SendPacket key_b [x2a]) true; EvAccept 1 key_b; EvAccept 0 key_a] srv3.
Proof.
  eapply reach_step; [eapply reach_step; [eapply reach_step; [by apply reach_init|]|]|].
  - by apply (step_accept _ _ key_a (ClientInfo key_a 2) key_a 7).
  - apply (step_accept _ _ key_b (ClientInfo key_b 2) key_b 8); try (vm_compute; reflexivity).
    + by apply (bool_decide_unpack _).
    + intros c t. unfold srv1. cbn. rewrite lookup_insert. by case_decide; intros [= <-].
  - by apply step_in.
Qed.

Definition srv4 : Server (gmap nat (ChanView Frame)) :=
  mkServer (with_chans (hub srv3) (recv 1%nat (chans (hub srv3))).2) (tasks srv3).

Abbreviation trace3 := [EvIn 0 (SendPacket key_b [x2a]) true; EvAccept 1 key_b; EvAccept 0 key_a].

Lemma reach4 : reachable (allow_all 2) 2 (EvOut 1 (RecvPacket key_a [x2a]) :: trace3) srv4.
Proof.
  eapply reach_step; [exact reach3|]. apply (step_out _ _ 1 (mkTask key_b 8 true)); [done..|].
  vm_compute. reflexivity.
Qed.

Lemma relay_no_spoofing_witness :
  reachable (allow_all 2) 2 ([] ++ EvOut 1 (RecvPacket key_a [x2a]) :: trace3) srv4 ∧
  ∃ k c', EvAccept 1 k ∈ trace3 ∧ EvAccept c' key_a ∈ trace3 ∧
          EvIn c' (SendPacket k [x2a]) true ∈ trace3.
Proof.
  split; [exact reach4|].
  exact (relay_no_spoofing (allow_all 2) 2 [] 1 key_a [x2a] trace3 srv4 reach4).
Defined.

Lemma relay_forwarding_witness :
  let hub' := handle_inbound key_b (SendPacket key_a [x01]) 1 true (hub srv4) in
  peers (hub srv4) !! key_b = Some (mkConn 1 (Some 8%nat)) ∧
  peers hub' = peers (hub srv4) ∧ active hub' = active (hub srv4) ∧
  view (chans hub') = push 0 (RecvPacket key_b [x01]) (view (chans (hub srv4))).
Proof.
  assert (peers (hub srv4) !! key_b = Some (mkConn 1 (Some 8%nat))) as Hp by (vm_compute; reflexivity).
  split; [exact Hp|].
  exact (relay_forwarding (allow_all 2) 2 _ srv4 key_b _ key_a [x01] true reach4 Hp).
Defined.

End Example.
