(* ===== verification/CryptoError.v ===== *)
(** * Errors of the crypto layer (engine/crypto/fp-crypto/src/error.rs) *)

From S2P Require Import Prelude.

Inductive CryptoError :=
| RandomnessUnavailable
| MustHandshakeFirst
| AlreadyHandshake
| DestinationBufferTooSmall
| IncorrectPacketLength
| UnexpectedPacket
| WrongPacketType
| WrongIndex
| WrongKey
| InvalidTai64nTimestamp
| WrongTai64nTimestamp
| InvalidMac
| InvalidAeadTag
| InvalidCounter
| DuplicateCounter
| InvalidPacket
| NoCurrentSession
| IfaceSendFailed
| NonceExhausted.

#[global] Instance CryptoError_eq_dec : EqDecision CryptoError.
Proof. solve_decision. Defined.
