(* ===== verification/ReplayWindow.v ===== *)
(** * The anti-replay window (engine/crypto/fp-crypto-noise/src/session.rs)

    [ReceivingKeyCounterValidator] keeps a 1024-bit bitmap of the counters received
    among the last 1024 below [next].  The specification is the set of all counters
    ever received: [window_rel] relates the two and the theorems show that marking a
    counter refines adding it to the set.

    [u64] arithmetic is kept at its width ([wrap 64]).  The three clearing loops run
    with fuel; a loop that does not stop within its fuel is [Panic], and the
    refinement theorem rules it out for every counter below [2^64 - 2 N_BITS]
    (senders stop at 2^48). *)

From S2P Require Import Prelude.
From S2P Require Import Words.
From S2P Require Import CryptoError.

Definition WORD_SIZE : Z := 64.
Definition N_WORDS : Z := 16.
Definition N_BITS : Z := WORD_SIZE * N_WORDS.

Record Validator := mkValidator { next : Z; receive_cnt : Z; bitmap : list Z }.

(** [Default::default()]. *)
Definition validator_default : Validator := mkValidator 0 0 (replicate (Z.to_nat N_WORDS) 0).

Definition word_of (idx : Z) : nat := Z.to_nat (idx mod N_BITS / WORD_SIZE).
Definition bit_of (idx : Z) : Z := (idx mod N_BITS) mod WORD_SIZE.

Definition set_bit (idx : Z) (bm : list Z) : list Z :=
  <[word_of idx := Z.lor (bm !!! word_of idx) (Z.shiftl 1 (bit_of idx))]> bm.

Definition clear_bit (idx : Z) (bm : list Z) : list Z :=
  <[word_of idx := Z.land (bm !!! word_of idx) (wrap 64 (Z.lnot (Z.shiftl 1 (bit_of idx))))]> bm.

Definition clear_word (idx : Z) (bm : list Z) : list Z := <[word_of idx := 0]> bm.

Definition check_bit (idx : Z) (bm : list Z) : bool :=
  Z.land (Z.shiftr (bm !!! word_of idx) (bit_of idx)) 1 =? 1.

Definition will_accept (counter : Z) (v : Validator) : res CryptoError unit :=
  if next v <=? counter then Ok tt else
  if wrap 64 (counter + N_BITS) <? next v then Err InvalidCounter else
  if negb (check_bit counter (bitmap v)) then Ok tt else Err DuplicateCounter.

(** The three loops that clear the bits of the skipped counters [next .. counter). *)
Definition clear_fuel : nat := Z.to_nat (N_BITS + 1).

Definition align_loop (counter : Z) : list Z * Z → option (list Z * Z) :=
  while_ clear_fuel (fun '(_, i) => negb (i mod WORD_SIZE =? 0) && (i <? counter))
    (fun '(bm, i) => (clear_bit i bm, wrap 64 (i + 1))).

Definition words_loop (counter : Z) : list Z * Z → option (list Z * Z) :=
  while_ clear_fuel (fun '(_, i) => wrap 64 (i + WORD_SIZE) <? counter)
    (fun '(bm, i) => (clear_word i bm, Z.land (wrap 64 (i + WORD_SIZE)) (wrap 64 (0 - WORD_SIZE)))).

Definition rest_loop (counter : Z) : list Z * Z → option (list Z * Z) :=
  while_ clear_fuel (fun '(_, i) => i <? counter)
    (fun '(bm, i) => (clear_bit i bm, wrap 64 (i + 1))).

Definition clear_skipped (next counter : Z) (bm : list Z) : option (list Z) :=
  if N_BITS <=? counter - next then Some (replicate (Z.to_nat N_WORDS) 0) else
  s ← align_loop counter (bm, next);
  s ← words_loop counter s;
  s ← rest_loop counter s;
  Some s.1.

Definition mark_did_receive (counter : Z) (v : Validator) : res CryptoError unit * Validator :=
  if wrap 64 (counter + N_BITS) <? next v then (Err InvalidCounter, v) else
  if counter =? next v then
    (Ok tt, mkValidator (wrap 64 (next v + 1)) (receive_cnt v) (set_bit counter (bitmap v)))
  else if counter <? next v then
    if check_bit counter (bitmap v) then (Err InvalidCounter, v)
    else (Ok tt, mkValidator (next v) (receive_cnt v) (set_bit counter (bitmap v)))
  else
    match clear_skipped (next v) counter (bitmap v) with
    | Some bm => (Ok tt, mkValidator (wrap 64 (counter + 1)) (receive_cnt v) (set_bit counter bm))
    | None => (Panic, v)
    end.

(** [Session::receiving_counter_mark]. *)
Definition receiving_counter_mark (counter : Z) (v : Validator) : res CryptoError unit * Validator :=
  match mark_did_receive counter v with
  | (Ok _, v) => (Ok tt, mkValidator (next v) (wrap 64 (receive_cnt v + 1)) (bitmap v))
  | r => r
  end.

(** Marking a sequence of counters, and those that were accepted, in order. *)
Fixpoint mark_all (cs : list Z) (v : Validator) : list Z * Validator :=
  match cs with
  | [] => ([], v)
  | c :: cs =>
      let '(r, v) := receiving_counter_mark c v in
      let '(acc, v) := mark_all cs v in
      (if is_ok r then c :: acc else acc, v)
  end.

(** ** Specification: the set of received counters *)

Definition bit_at (bm : list Z) (idx : Z) : bool := Z.testbit (bm !!! word_of idx) (bit_of idx).

(** A counter is fresh when it is not too old and has not been received. *)
Definition fresh_counter (counter : Z) (nxt : Z) (seen : gset Z) : Prop :=
  nxt ≤ counter + N_BITS ∧ counter ∉ seen.

#[global] Instance fresh_counter_dec c n s : Decision (fresh_counter c n s).
Proof. unfold fresh_counter. apply _. Defined.

Record window_rel (v : Validator) (seen : gset Z) : Prop := {
  wr_len : length (bitmap v) = Z.to_nat N_WORDS;
  wr_next : 0 ≤ next v < 2 ^ 64 - N_BITS;
  wr_seen c : c ∈ seen → 0 ≤ c < next v;
  wr_bits c : 0 ≤ c → next v - N_BITS ≤ c < next v → bit_at (bitmap v) c = bool_decide (c ∈ seen)
}.

(** The counters the window is used with; a sender never goes past 2^48. *)
Definition counter_ok (c : Z) : Prop := 0 ≤ c < 2 ^ 64 - 2 * N_BITS.

#[global] Instance counter_ok_dec c : Decision (counter_ok c).
Proof. unfold counter_ok. apply _. Defined.

(** ** Bits *)

(** The position of a counter in the bitmap. *)
Definition pos (c : Z) : Z := c mod N_BITS.

Lemma pos_eq c d : pos c = pos d ↔ word_of c = word_of d ∧ bit_of c = bit_of d.
Proof.
  unfold pos, word_of, bit_of, N_BITS, WORD_SIZE, N_WORDS. split; [by intros ->|]. intros [Hw Hb].
  apply Z2Nat.inj in Hw; [|Z.to_euclidean_division_equations; lia..].
  Z.to_euclidean_division_equations; lia.
Qed.

Lemma word_of_lt c : (word_of c < Z.to_nat N_WORDS)%nat.
Proof.
  unfold word_of, N_BITS, WORD_SIZE, N_WORDS. apply Z2Nat.inj_lt;
    Z.to_euclidean_division_equations; lia.
Qed.

Lemma bit_of_range c : 0 ≤ bit_of c < 64.
Proof. unfold bit_of, WORD_SIZE. apply Z.mod_pos_bound. lia. Qed.

(** Counters less than a window apart have different positions. *)
Lemma pos_window c d : c ≠ d → - N_BITS < c - d < N_BITS → pos c ≠ pos d.
Proof. unfold pos, N_BITS, WORD_SIZE, N_WORDS. intros. Z.to_euclidean_division_equations; lia. Qed.

Lemma check_bit_at c bm : check_bit c bm = bit_at bm c.
Proof.
  unfold check_bit, bit_at. pose proof (bit_of_range c).
  rewrite <-(Z.add_0_l (bit_of c)) at 2. rewrite <-Z.shiftr_spec by lia.
  change 1 with (Z.ones 1). rewrite Z.land_ones by lia. change (2 ^ 1) with 2.
  rewrite <-Z.bit0_mod. by destruct (Z.testbit _ 0).
Qed.

Lemma lookup_total_update (bm : list Z) w x j :
  (w < length bm)%nat → <[w := x]> bm !!! j = if decide (w = j) then x else bm !!! j.
Proof.
  intros Hw. rewrite !list_lookup_total_alt, list_lookup_insert.
  repeat case_decide; try done; lia.
Qed.

Lemma bit_at_set c d bm :
  length bm = Z.to_nat N_WORDS →
  bit_at (set_bit c bm) d = if decide (pos c = pos d) then true else bit_at bm d.
Proof.
  intros Hl. pose proof (word_of_lt c). pose proof (bit_of_range c).
  unfold bit_at, set_bit. rewrite lookup_total_update by lia.
  destruct (decide (word_of c = word_of d)) as [Hw|Hw].
  - rewrite Z.lor_spec, Z.shiftl_1_l, Z.pow2_bits_eqb, Hw by lia.
    destruct (decide (pos c = pos d)) as [Hp|Hp]; rewrite pos_eq in Hp.
    + rewrite (proj2 (Z.eqb_eq _ _)) by tauto. apply orb_true_r.
    + rewrite (proj2 (Z.eqb_neq _ _)) by tauto. apply orb_false_r.
  - rewrite decide_False; [done|]. rewrite pos_eq. tauto.
Qed.

Lemma bit_at_clear c d bm :
  length bm = Z.to_nat N_WORDS →
  bit_at (clear_bit c bm) d = if decide (pos c = pos d) then false else bit_at bm d.
Proof.
  intros Hl. pose proof (word_of_lt c). pose proof (bit_of_range c). pose proof (bit_of_range d).
  unfold bit_at, clear_bit, wrap. rewrite lookup_total_update by lia.
  destruct (decide (word_of c = word_of d)) as [Hw|Hw].
  - rewrite Z.land_spec, Z.mod_pow2_bits_low, Z.lnot_spec, Z.shiftl_1_l, Z.pow2_bits_eqb, Hw by lia.
    destruct (decide (pos c = pos d)) as [Hp|Hp]; rewrite pos_eq in Hp.
    + rewrite (proj2 (Z.eqb_eq _ _)) by tauto. apply andb_false_r.
    + rewrite (proj2 (Z.eqb_neq _ _)) by tauto. apply andb_true_r.
  - rewrite decide_False; [done|]. rewrite pos_eq. tauto.
Qed.

Lemma bit_at_clear_word c d bm :
  length bm = Z.to_nat N_WORDS →
  bit_at (clear_word c bm) d = if decide (word_of c = word_of d) then false else bit_at bm d.
Proof.
  intros Hl. pose proof (word_of_lt c). unfold bit_at, clear_word.
  rewrite lookup_total_update by lia. case_decide; [apply Z.bits_0|done].
Qed.

Lemma bit_at_zeros d : bit_at (replicate (Z.to_nat N_WORDS) 0) d = false.
Proof.
  unfold bit_at. rewrite lookup_total_replicate_2; [apply Z.bits_0|apply word_of_lt].
Qed.

(** An aligned word holds the positions of the 64 counters from its start. *)
Lemma word_aligned i d :
  i mod WORD_SIZE = 0 → word_of i = word_of d → pos d = pos (i + d mod WORD_SIZE).
Proof.
  unfold word_of, pos, N_BITS, WORD_SIZE, N_WORDS. intros Hi Hw.
  apply Z2Nat.inj in Hw; [|Z.to_euclidean_division_equations; lia..].
  Z.to_euclidean_division_equations; lia.
Qed.

Lemma word_of_aligned i d :
  i mod WORD_SIZE = 0 → i ≤ d < i + WORD_SIZE → word_of i = word_of d.
Proof.
  unfold word_of, N_BITS, WORD_SIZE, N_WORDS. intros Hi Hd. f_equal.
  Z.to_euclidean_division_equations; lia.
Qed.

Lemma land_align x :
  fits 64 x → x mod WORD_SIZE = 0 → Z.land x (wrap 64 (0 - WORD_SIZE)) = x.
Proof.
  intros Hx Hm. change (0 - WORD_SIZE) with (Z.lnot (Z.ones 6)).
  rewrite land_clear_low by (done || lia). change (2 ^ 6) with WORD_SIZE. lia.
Qed.

(** ** The clearing loops *)

(** The state of the loops, [i] being the next counter to clear: the counters from
    [nxt] to [i] are cleared and the older ones that stay in the window untouched. *)
Definition clearing (bm : list Z) (nxt counter : Z) '((bm', i) : list Z * Z) : Prop :=
  length bm' = Z.to_nat N_WORDS ∧ nxt ≤ i ≤ counter ∧
  (∀ d, nxt ≤ d < i → bit_at bm' d = false) ∧
  (∀ d, counter - N_BITS < d < nxt → bit_at bm' d = bit_at bm d).

Section Clearing.
Context (bm : list Z) (nxt counter : Z).
Context (Hnxt : 0 ≤ nxt) (Hgap : nxt < counter) (Hnear : counter - nxt < N_BITS).
Context (Hctr : counter_ok counter).

Lemma clearing_bit bm' i :
  clearing bm nxt counter (bm', i) → i < counter →
  clearing bm nxt counter (clear_bit i bm', wrap 64 (i + 1)).
Proof.
  intros (Hl & Hi & Hz & Hk) Hlt. unfold counter_ok, N_BITS in *.
  rewrite wrap_id by (unfold fits, WORD_SIZE, N_WORDS in *; lia).
  split_and!; [by unfold clear_bit; rewrite length_insert|lia..| |].
  - intros d Hd. rewrite bit_at_clear by done. case_decide as Hp; [done|]. apply Hz.
    assert (d ≠ i) by congruence. lia.
  - intros d Hd. rewrite bit_at_clear by done. rewrite decide_False; [by apply Hk|].
    apply pos_window; unfold N_BITS in *; lia.
Qed.

Lemma clearing_word bm' i :
  clearing bm nxt counter (bm', i) → i mod WORD_SIZE = 0 → i + WORD_SIZE < counter →
  clearing bm nxt counter (clear_word i bm', i + WORD_SIZE).
Proof.
  intros (Hl & Hi & Hz & Hk) Ha Hlt. unfold WORD_SIZE in *.
  split_and!; [by unfold clear_word; rewrite length_insert|lia..| |].
  - intros d Hd. rewrite bit_at_clear_word by done. case_decide as Hw; [done|]. apply Hz.
    destruct (decide (d < i)); [lia|]. exfalso. apply Hw, word_of_aligned; unfold WORD_SIZE; lia.
  - intros d Hd. rewrite bit_at_clear_word by done. rewrite decide_False; [by apply Hk|].
    intros Hw. apply (word_aligned i d Ha) in Hw. revert Hw. unfold WORD_SIZE.
    pose proof (Z.mod_pos_bound d 64). apply pos_window; unfold N_BITS in *; lia.
Qed.

Lemma align_loop_spec :
  length bm = Z.to_nat N_WORDS →
  ∃ bm' i, align_loop counter (bm, nxt) = Some (bm', i) ∧ clearing bm nxt counter (bm', i) ∧
    (i mod WORD_SIZE = 0 ∨ i = counter).
Proof.
  intros Hl. unfold align_loop.
  destruct (while_rule (clearing bm nxt counter) (fun '(_, i) => counter - i) clear_fuel
    (fun '(_, i) => negb (i mod WORD_SIZE =? 0) && (i <? counter))
    (fun '(bm, i) => (clear_bit i bm, wrap 64 (i + 1))) (bm, nxt)) as ([bm' i] & -> & Hc & Hf).
  - intros [bm' i] Hc Hf. bool_prop. split; [by apply clearing_bit|].
    destruct Hc as (_ & ? & _). unfold counter_ok, N_BITS, WORD_SIZE, N_WORDS in *.
    rewrite wrap_id by (unfold fits; lia). lia.
  - split_and!; [done|lia..|intros; lia|done].
  - unfold clear_fuel. rewrite Z2Nat.id; unfold N_BITS, WORD_SIZE, N_WORDS in *; lia.
  - unfold clear_fuel, N_BITS, WORD_SIZE, N_WORDS. lia.
  - exists bm', i. split_and!; [done..|]. destruct Hc as (_ & ? & _).
    apply andb_false_iff in Hf as [Hf|Hf]; bool_prop; [by left|right; lia].
Qed.

Lemma words_loop_spec bm0 i0 :
  clearing bm nxt counter (bm0, i0) → i0 mod WORD_SIZE = 0 ∨ i0 = counter →
  ∃ s, words_loop counter (bm0, i0) = Some s ∧ clearing bm nxt counter s.
Proof.
  intros Hc0 Ha0. unfold words_loop.
  assert (∀ i, nxt ≤ i ≤ counter → wrap 64 (i + WORD_SIZE) = i + WORD_SIZE) as Hw.
  { intros. apply wrap_id. unfold fits, counter_ok, N_BITS, WORD_SIZE, N_WORDS in *. lia. }
  destruct (while_rule
    (fun s => clearing bm nxt counter s ∧ (s.2 mod WORD_SIZE = 0 ∨ s.2 = counter))
    (fun s => counter - s.2) clear_fuel
    (fun '(_, i) => wrap 64 (i + WORD_SIZE) <? counter)
    (fun '(bm, i) => (clear_word i bm, Z.land (wrap 64 (i + WORD_SIZE)) (wrap 64 (0 - WORD_SIZE))))
    (bm0, i0)) as (s & -> & [Hc _] & _); [..|eauto].
  - intros [bm' i] [Hc Ha] Hf. pose proof Hc as (_ & Hi & _). cbn [snd] in *.
    rewrite (Hw i Hi) in *. bool_prop.
    destruct Ha as [Ha|Ha]; [|unfold WORD_SIZE in *; lia].
    assert ((i + WORD_SIZE) mod WORD_SIZE = 0) as Ha'.
    { rewrite <-(Z.mul_1_l WORD_SIZE) at 1. by rewrite Z_mod_plus_full. }
    rewrite land_align; [|unfold fits, counter_ok, N_BITS, WORD_SIZE, N_WORDS in *; lia|done].
    split; [split; [by apply clearing_word|by left]|]. unfold WORD_SIZE in *. lia.
  - done.
  - destruct Hc0 as (_ & ? & _). unfold clear_fuel. cbn [snd].
    rewrite Z2Nat.id; unfold N_BITS, WORD_SIZE, N_WORDS in *; lia.
  - unfold clear_fuel, N_BITS, WORD_SIZE, N_WORDS. lia.
Qed.

Lemma rest_loop_spec s :
  clearing bm nxt counter s →
  ∃ bm', rest_loop counter s = Some (bm', counter) ∧ clearing bm nxt counter (bm', counter).
Proof.
  intros Hc0. unfold rest_loop.
  destruct (while_rule (clearing bm nxt counter) (fun '(_, i) => counter - i) clear_fuel
    (fun '(_, i) => i <? counter) (fun '(bm, i) => (clear_bit i bm, wrap 64 (i + 1))) s)
    as ([bm' i] & -> & Hc & Hf).
  - intros [bm' i] Hc Hf. bool_prop. split; [by apply clearing_bit|].
    destruct Hc as (_ & ? & _). unfold counter_ok, N_BITS, WORD_SIZE, N_WORDS in *.
    rewrite wrap_id by (unfold fits; lia). lia.
  - done.
  - destruct s as [? i]. destruct Hc0 as (_ & ? & _). unfold clear_fuel.
    rewrite Z2Nat.id; unfold N_BITS, WORD_SIZE, N_WORDS in *; lia.
  - unfold clear_fuel, N_BITS, WORD_SIZE, N_WORDS. lia.
  - bool_prop. assert (i = counter) as -> by (destruct Hc as (_ & ? & _); lia). eauto.
Qed.
End Clearing.

(** Whatever the gap, clearing leaves the skipped counters unset and the older ones
    that stay in the window as they were. *)
Lemma clear_skipped_spec bm nxt counter :
  length bm = Z.to_nat N_WORDS → 0 ≤ nxt < counter → counter_ok counter →
  ∃ bm', clear_skipped nxt counter bm = Some bm' ∧ clearing bm nxt counter (bm', counter).
Proof.
  intros Hl [Hn Hgap] Hctr. unfold clear_skipped. case_if; bool_prop.
  - eexists. split; [done|]. split_and!; [done|lia..| |]; intros d Hd; [apply bit_at_zeros|lia].
  - destruct (align_loop_spec bm nxt counter) as (bm1 & i1 & -> & Hc1 & Ha); [done..|].
    destruct (words_loop_spec bm nxt counter) with bm1 i1 as (s & Hs & Hc2); [done..|].
    destruct (rest_loop_spec bm nxt counter) with s as (bm' & Hr & Hc3); [done..|].
    cbn [mbind option_bind]. rewrite Hs. cbn [mbind option_bind]. rewrite Hr. cbn. eauto.
Qed.

(** ** Refinement *)

Lemma window_rel_default : window_rel validator_default ∅.
Proof.
  split; cbn; [done|unfold N_BITS, WORD_SIZE, N_WORDS; lia|by intros c ?%not_elem_of_empty|].
  intros c ? ?. lia.
Qed.

Lemma window_bit v seen c :
  window_rel v seen → 0 ≤ c → next v - N_BITS ≤ c < next v →
  check_bit c (bitmap v) = bool_decide (c ∈ seen).
Proof. intros Hr ? ?. rewrite check_bit_at. by apply (wr_bits _ _ Hr). Qed.

Lemma will_accept_spec v seen c :
  window_rel v seen → counter_ok c →
  is_ok (will_accept c v) = bool_decide (fresh_counter c (next v) seen).
Proof.
  intros Hr Hc. pose proof (wr_seen _ _ Hr c) as Hs. unfold will_accept, fresh_counter.
  rewrite wrap_id by (unfold fits, counter_ok, N_BITS, WORD_SIZE, N_WORDS in *; lia).
  destruct Hc as [Hc _]. destruct (next v <=? c) eqn:E1; bool_prop.
  { symmetry. apply bool_decide_eq_true_2. unfold N_BITS, WORD_SIZE, N_WORDS. split; [lia|].
    intros ?%Hs. lia. }
  case_if; bool_prop; [symmetry; apply bool_decide_eq_false_2; lia|].
  rewrite (window_bit v seen) by (done || lia).
  destruct (decide (c ∈ seen)) as [H|H]; [rewrite (bool_decide_eq_true_2 (c ∈ seen)) by done
    |rewrite (bool_decide_eq_false_2 (c ∈ seen)) by done]; cbn; symmetry.
  - apply bool_decide_eq_false_2. tauto.
  - apply bool_decide_eq_true_2. split; [lia|done].
Qed.

Lemma window_rel_add n r bm seen c :
  length bm = Z.to_nat N_WORDS → 0 ≤ c → c < n < 2 ^ 64 - N_BITS → n - N_BITS ≤ c →
  (∀ d, d ∈ seen → 0 ≤ d < n) →
  (∀ d, 0 ≤ d → n - N_BITS ≤ d < n → d ≠ c → bit_at bm d = bool_decide (d ∈ seen)) →
  window_rel (mkValidator n r (set_bit c bm)) ({[c]} ∪ seen).
Proof.
  intros Hl Hc Hn Hw Hs Hb. split; cbn.
  - unfold set_bit. by rewrite length_insert.
  - lia.
  - intros d [->%elem_of_singleton|?%Hs]%elem_of_union; lia.
  - intros d Hd Hdn. rewrite bit_at_set by done. destruct (decide (d = c)) as [->|Hne].
    + rewrite decide_True by done. symmetry. apply bool_decide_eq_true_2, elem_of_union_l.
      by apply elem_of_singleton.
    + rewrite decide_False by (apply pos_window; lia). rewrite Hb by done.
      apply bool_decide_ext. rewrite elem_of_union, elem_of_singleton. tauto.
Qed.

Lemma window_rel_cnt n r r' bm seen :
  window_rel (mkValidator n r bm) seen → window_rel (mkValidator n r' bm) seen.
Proof. by intros [? ? ? ?]; split. Qed.

Lemma mark_spec v seen c :
  window_rel v seen → counter_ok c →
  if decide (fresh_counter c (next v) seen) then
    ∃ v', mark_did_receive c v = (Ok tt, v') ∧ window_rel v' ({[c]} ∪ seen) ∧
          next v' = Z.max (next v) (c + 1)
  else mark_did_receive c v = (Err InvalidCounter, v).
Proof.
  intros Hr Hc. pose proof (wr_seen _ _ Hr) as Hs. pose proof (wr_next _ _ Hr) as Hn.
  pose proof Hc as Hc'. unfold counter_ok, N_BITS, WORD_SIZE, N_WORDS in Hc', Hn.
  unfold mark_did_receive, fresh_counter. rewrite !wrap_id
    by (unfold fits, N_BITS, WORD_SIZE, N_WORDS; lia).
  destruct (c + N_BITS <? next v) eqn:E1; bool_prop; [by rewrite decide_False by lia|].
  destruct (c =? next v) eqn:E2; bool_prop; [|destruct (c <? next v) eqn:E3; bool_prop].
  - rewrite decide_True by (split; [lia|intros ?%Hs; lia]). eexists. split_and!; [done| |cbn; lia].
    apply window_rel_add; unfold N_BITS, WORD_SIZE, N_WORDS in *; try lia; [apply (wr_len _ _ Hr)|..].
    + intros d ?%Hs. lia.
    + intros d ? ? ?. apply (wr_bits _ _ Hr); unfold N_BITS, WORD_SIZE, N_WORDS; lia.
  - rewrite (window_bit v seen) by (done || lia). destruct (decide (c ∈ seen)) as [H|H].
    + rewrite bool_decide_eq_true_2, decide_False by (done || tauto). done.
    + rewrite bool_decide_eq_false_2, decide_True by (done || (split; [lia|done])).
      eexists. split_and!; [done| |cbn; lia]. apply window_rel_add; try lia.
      * apply (wr_len _ _ Hr).
      * unfold N_BITS, WORD_SIZE, N_WORDS. lia.
      * done.
      * intros d ? ? _. by apply (wr_bits _ _ Hr).
  - rewrite decide_True by (split; [lia|intros ?%Hs; lia]).
    destruct (clear_skipped_spec (bitmap v) (next v) c (wr_len _ _ Hr)) as (bm & -> & Hcl);
      [lia|done|]. destruct Hcl as (Hl & _ & Hz & Hk). eexists. split_and!; [done| |cbn; lia].
    apply window_rel_add; [done|lia|unfold N_BITS, WORD_SIZE, N_WORDS; lia..|intros d ?%Hs; lia|].
    intros d ? ? ?. destruct (decide (next v ≤ d)) as [Hd|Hd].
    + rewrite Hz by lia. symmetry. apply bool_decide_eq_false_2. intros ?%Hs. lia.
    + rewrite Hk by lia. apply (wr_bits _ _ Hr); unfold N_BITS, WORD_SIZE, N_WORDS in *; lia.
Qed.

Lemma receiving_mark_spec v seen c :
  window_rel v seen → counter_ok c →
  if decide (fresh_counter c (next v) seen) then
    ∃ v', receiving_counter_mark c v = (Ok tt, v') ∧ window_rel v' ({[c]} ∪ seen) ∧
          next v' = Z.max (next v) (c + 1)
  else receiving_counter_mark c v = (Err InvalidCounter, v).
Proof.
  intros Hr Hc. pose proof (mark_spec v seen c Hr Hc) as Hm. unfold receiving_counter_mark.
  case_decide; [|by rewrite Hm]. destruct Hm as ([n r bm] & -> & Hw & Hn).
  eexists. split_and!; [done| |done]. by eapply window_rel_cnt.
Qed.

(** Running a sequence of counters keeps the relation; the accepted ones were not
    seen before and are pairwise different. *)
Lemma mark_all_sound cs : ∀ v seen,
  window_rel v seen → Forall counter_ok cs →
  NoDup (mark_all cs v).1 ∧ (∀ c, c ∈ (mark_all cs v).1 → c ∈ cs ∧ c ∉ seen).
Proof.
  induction cs as [|c cs IH]; intros v seen Hr Hcs; cbn [mark_all].
  { cbn. split; [constructor|]. by intros c ?%elem_of_nil. }
  apply Forall_cons_1 in Hcs as [Hc Hcs]. pose proof (receiving_mark_spec v seen c Hr Hc) as Hm.
  destruct (decide (fresh_counter c (next v) seen)) as [[_ Hf]|_].
  - destruct Hm as (v' & -> & Hr' & _). destruct (IH v' _ Hr' Hcs) as [Hd Ha].
    destruct (mark_all cs v') as [acc v'']. cbn in *. split.
    + constructor; [|done]. intros [_ Hn]%Ha. apply Hn, elem_of_union_l, elem_of_singleton. done.
    + intros d [->|[? Hn]%Ha]%elem_of_cons; [split; [by left|done]|].
      rewrite elem_of_union in Hn. split; [by right|tauto].
  - rewrite Hm. destruct (IH v seen Hr Hcs) as [Hd Ha]. destruct (mark_all cs v) as [acc v''].
    cbn in *. split; [done|]. intros d [? ?]%Ha. split; [by right|done].
Qed.

(** The largest value the window's upper end reaches along a sequence. *)
Definition in_window (n : Z) (cs : list Z) : Prop :=
  ∀ i c, cs !! i = Some c → ∀ d, d = n ∨ d - 1 ∈ take i cs → d ≤ c + N_BITS.

Lemma mark_all_complete cs : ∀ v seen,
  window_rel v seen → Forall counter_ok cs → NoDup cs → (∀ c, c ∈ cs → c ∉ seen) →
  in_window (next v) cs → (mark_all cs v).1 = cs.
Proof.
  induction cs as [|c cs IH]; intros v seen Hr Hcs Hd Hs Hw; cbn [mark_all]; [done|].
  apply Forall_cons_1 in Hcs as [Hc Hcs]. inversion_clear Hd as [|? ? Hcn Hd']; rename Hd' into Hd.
  pose proof (receiving_mark_spec v seen c Hr Hc) as Hm.
  rewrite decide_True in Hm; [|split; [apply (Hw 0%nat c); auto|apply Hs; by left]].
  destruct Hm as (v' & -> & Hr' & Hn'). specialize (IH v' _ Hr' Hcs Hd).
  destruct (mark_all cs v') as [acc v'']. cbn in *. f_equal. apply IH.
  - intros d Hdc. rewrite not_elem_of_union, not_elem_of_singleton.
    split; [congruence|apply Hs; by right].
  - intros i e He d Hde. apply (Hw (S i) e He d). rewrite Hn' in Hde.
    destruct Hde as [->|?]; [|right; by right].
    destruct (Z.max_spec (next v) (c + 1)) as [[_ ->]|[_ ->]]; [right|by left].
    replace (c + 1 - 1) with c by lia. by left.
Qed.

(** C20.  Refinement: the bitmap implements the set of all received counters.  In a state
    that represents the set [seen], marking a counter below 2^64 - 2048 accepts it exactly
    when it is not more than 1024 behind and not in [seen], and then represents [seen]
    with the counter added; otherwise it reports an error and nothing changes.  The
    check made before decryption gives the same verdict, and the loops terminate.  (At the
    end of the counter space the code wraps around and forgets the window; a sender stops
    at 2^48.) *)
Theorem replay_window_refines v seen c :
  window_rel v seen → counter_ok c →
  let '(r, v') := receiving_counter_mark c v in
  is_ok (will_accept c v) = is_ok r ∧
  if decide (fresh_counter c (next v) seen)
  then r = Ok tt ∧ window_rel v' ({[c]} ∪ seen)
  else r = Err InvalidCounter ∧ v' = v.
Proof.
  intros Hr Hc. rewrite (will_accept_spec v seen) by done.
  pose proof (receiving_mark_spec v seen c Hr Hc) as Hm.
  destruct (decide (fresh_counter c (next v) seen)) as [H|H].
  - destruct Hm as (v' & -> & Hr' & _). by rewrite bool_decide_eq_true_2.
  - rewrite Hm. by rewrite bool_decide_eq_false_2.
Qed.

Lemma replay_window_refines_witness :
  let v := (receiving_counter_mark 70 validator_default).2 in
  window_rel v {[70]} ∧
  let '(r, v') := receiving_counter_mark 3 v in
  is_ok (will_accept 3 v) = is_ok r ∧
  if decide (fresh_counter 3 (next v) {[70]})
  then r = Ok tt ∧ window_rel v' ({[3]} ∪ {[70]}) else r = Err InvalidCounter ∧ v' = v.
Proof.
  assert (counter_ok 70) as H70 by (apply (bool_decide_unpack _); vm_compute; exact I).
  assert (counter_ok 3) as H3 by (apply (bool_decide_unpack _); vm_compute; exact I).
  pose proof (replay_window_refines validator_default ∅ 70 window_rel_default H70) as [_ [_ Hw]].
  rewrite (union_empty_r_L {[70]}) in Hw. split; [exact Hw|].
  exact (replay_window_refines _ _ 3 Hw H3).
Defined.

(** No replay, no loss: of any sequence of received counters, no counter is
    accepted twice; and a sequence without repetitions in which no counter is more
    than 1024 behind an earlier one is accepted entirely. *)
Lemma replay_sequence cs :
  Forall counter_ok cs →
  NoDup (mark_all cs validator_default).1 ∧
  (NoDup cs → in_window 0 cs → (mark_all cs validator_default).1 = cs).
Proof.
  intros Hcs. split; [apply (mark_all_sound cs _ ∅ window_rel_default Hcs)|].
  intros Hd Hw. apply (mark_all_complete cs _ ∅ window_rel_default Hcs Hd); [|done].
  intros c _. apply not_elem_of_empty.
Qed.

(** The edge of the counter space: a received counter of 2^64-1 makes [next]
    wrap around to 0 and empties the bitmap, after which a counter that had been
    received before is accepted again. *)
Lemma replay_wraparound :
  (mark_all [5; 5; 2 ^ 64 - 1; 5] validator_default).1 = [5; 2 ^ 64 - 1; 5] ∧
  next (mark_all [5; 2 ^ 64 - 1] validator_default).2 = 0.
Proof. vm_compute. auto. Qed.
