(* ===== verification/Crypto.v ===== *)
(** * Cryptographic primitives

    The tunnel uses BLAKE2s, HMAC-BLAKE2s, keyed BLAKE2s, ChaCha20-Poly1305 (ring)
    and X25519 (dalek), all libraries outside the repository.  [Crypto] is the
    interface used by the handshake and [CryptoLaws] the documented facts the
    theorems rely on: output sizes, decryption inverts encryption, and the two ends
    of a Diffie-Hellman exchange agree.  Nothing is assumed about security. *)

From S2P Require Import Prelude.
From S2P Require Import Words.
From S2P Require Import CryptoError.

Class Crypto := {
  blake2s : list byte → list byte;
  hmac_blake2s : list byte → list byte → list byte;      (* 64-byte key block, data *)
  blake2s_mac : list byte → list byte → list byte;       (* key, data *)
  (* key, nonce, aad, plaintext to ciphertext and tag *)
  aead_seal : list byte → list byte → list byte → list byte → option (list byte * list byte);
  (* key, nonce, aad, ciphertext with tag to plaintext *)
  aead_open : list byte → list byte → list byte → list byte → option (list byte);
  dh_public : list byte → list byte;
  dh : list byte → list byte → list byte
}.

(** ring seals any message of at most [AEAD_MAX] bytes (the real bound is larger). *)
Definition AEAD_MAX : Z := 2 ^ 32.

Class CryptoLaws `{Crypto} := {
  len_blake2s d : len (blake2s d) = 32;
  len_hmac k d : len (hmac_blake2s k d) = 32;
  len_mac k d : len (blake2s_mac k d) = 16;
  len_public s : len (dh_public s) = 32;
  len_dh a b : len (dh a b) = 32;
  dh_comm a b : dh a (dh_public b) = dh b (dh_public a);
  seal_total k n ad p : len k = 32 → len p ≤ AEAD_MAX → is_Some (aead_seal k n ad p);
  open_seal k n ad p c t :
    aead_seal k n ad p = Some (c, t) →
    len c = len p ∧ len t = 16 ∧ aead_open k n ad (c ++ t) = Some p
}.

(** ** Wrappers (handshake.rs) *)

Section Wrappers.
Context `{Crypto}.

Definition b2s_hash (data1 data2 : list byte) : list byte := blake2s (data1 ++ data2).

Definition hmac_block (key : list byte) : list byte := key ++ replicate 32 x00.

Definition b2s_hmac (key data1 : list byte) : list byte := hmac_blake2s (hmac_block key) data1.

Definition b2s_hmac2 (key data1 data2 : list byte) : list byte :=
  hmac_blake2s (hmac_block key) (data1 ++ data2).

Definition b2s_keyed_mac_16 (key data1 : list byte) : list byte := blake2s_mac key data1.

(** [UnboundKey::new]: only the length of the key is checked. *)
Definition unbound_key (key : list byte) : res CryptoError (list byte) :=
  if len key =? 32 then Ok key else Err WrongKey.

Definition aead_nonce (counter : Z) : list byte := replicate 4 x00 ++ le_bytes 8 counter.

(** The sealed bytes written to [ciphertext], whose length the caller fixes. *)
Definition aead_chacha20_seal (size : Z) (key : list byte) (counter : Z) (data aad : list byte)
    : res CryptoError (list byte) :=
  key ← unbound_key key;
  if negb (len data + 16 =? size) then Err DestinationBufferTooSmall else
  '(body, tag) ← ok_or (aead_seal key (aead_nonce counter) aad data) InvalidAeadTag;
  Ok (body ++ tag).

(** The plaintext copied to [buffer], whose length the caller fixes. *)
Definition aead_chacha20_open (size : Z) (key : list byte) (counter : Z) (data aad : list byte)
    : res CryptoError (list byte) :=
  if negb (len key =? 32) then Err InvalidAeadTag else
  plaintext ← ok_or (aead_open key (aead_nonce counter) aad data) InvalidAeadTag;
  if negb (size =? len plaintext) then Err InvalidAeadTag else Ok plaintext.

(** [disco_mac] (lib.rs): the tag of a disco datagram, keyed by the static secret. *)
Definition DISCO_MAC_LABEL : list byte :=
  [x66; x6c; x75; x78; x70; x65; x65; x72; x2d; x64; x69; x73; x63; x6f; x2d; x6d; x61; x63; x2d; x76; x31].

Definition disco_mac (static_shared data : list byte) : list byte :=
  let subkey := b2s_hmac static_shared DISCO_MAC_LABEL in
  b2s_keyed_mac_16 subkey data.

Context `{!CryptoLaws}.

Lemma len_b2s_hash a b : len (b2s_hash a b) = 32.
Proof. apply len_blake2s. Qed.
Lemma len_b2s_hmac k d : len (b2s_hmac k d) = 32.
Proof. apply len_hmac. Qed.
Lemma len_b2s_hmac2 k a b : len (b2s_hmac2 k a b) = 32.
Proof. apply len_hmac. Qed.
Lemma len_keyed_mac k d : len (b2s_keyed_mac_16 k d) = 16.
Proof. apply len_mac. Qed.

(** Sealing succeeds, and opening with the same parameters gives the message back. *)
Lemma seal_open size key counter data aad :
  len key = 32 → size = len data + 16 → len data ≤ AEAD_MAX →
  ∃ ct, aead_chacha20_seal size key counter data aad = Ok ct ∧ len ct = size ∧
        aead_chacha20_open (len data) key counter ct aad = Ok data.
Proof.
  intros Hk -> Hd. unfold aead_chacha20_seal, aead_chacha20_open, unbound_key.
  rewrite Hk, !Z.eqb_refl. cbn [negb mbind res_bind].
  destruct (seal_total key (aead_nonce counter) aad data Hk Hd) as [[c t] Hs]. rewrite Hs.
  destruct (open_seal _ _ _ _ _ _ Hs) as (Hc & Ht & Ho). cbn [ok_or mbind res_bind].
  exists (c ++ t). split_and!; [done|rewrite len_app; lia|]. rewrite Ho. cbn [ok_or mbind res_bind].
  by rewrite Z.eqb_refl.
Qed.
End Wrappers.

#[export] Hint Rewrite @len_b2s_hash @len_b2s_hmac @len_b2s_hmac2 @len_keyed_mac using typeclasses eauto : len_db.

(** ** A toy instance, to show that the laws can hold

    Hashing truncates, sealing appends a tag made of the key, and the shared secret
    is the sum of the first bytes of the two public keys. *)
Section Toy.
Definition fit (n : nat) (l : list byte) : list byte := take n (l ++ replicate n x00).

Definition toy_tag (k : list byte) : list byte := fit 16 k.

Definition first (l : list byte) : Z := b2z (default x00 (head l)).

#[export] Instance toy_crypto : Crypto := {
  blake2s d := fit 32 d;
  hmac_blake2s k d := fit 32 (d ++ k);
  blake2s_mac k d := fit 16 (d ++ k);
  aead_seal k n ad p := Some (p, toy_tag k);
  aead_open k n ad c :=
    let p := take (length c - 16) c in
    if decide (c = p ++ toy_tag k) then Some p else None;
  dh_public s := fit 32 s;
  dh a b := fit 32 [z2b (first (fit 32 a) + first b)]
}.

Lemma len_fit n l : len (fit n l) = Z.of_nat n.
Proof. unfold fit, len. rewrite length_take, length_app, length_replicate. lia. Qed.

#[export] Instance toy_laws : CryptoLaws.
Proof.
  split.
  1-5: intros; apply len_fit.
  - intros a b. unfold dh, dh_public, toy_crypto. do 3 f_equal. lia.
  - intros. cbn. eauto.
  - intros k n ad p c t [= <- <-]. unfold toy_tag. split_and!; [done|apply len_fit|].
    pose proof (len_fit 16 k) as Hl. unfold len in Hl.
    unfold aead_open, toy_crypto, toy_tag. cbv zeta. rewrite length_app.
    replace (length (fit 16 k)) with 16%nat by lia.
    rewrite Nat.add_sub, take_app_length. by rewrite decide_True.
Qed.
End Toy.
