(* ===== verification/NoisePacket.v ===== *)
(** * Tunnel packets (engine/crypto/fp-crypto-noise/src/lib.rs and noise.rs)

    The three message types of the tunnel and the parser that classifies an incoming
    datagram by its type word and length. *)

From S2P Require Import Prelude.
From S2P Require Import Words.
From S2P Require Import CryptoError.

Definition N_SESSIONS : Z := 8.
Definition HANDSHAKE_INIT : Z := 1.
Definition HANDSHAKE_RESP : Z := 2.
Definition DATA : Z := 4.
Definition HANDSHAKE_INIT_SZ : Z := 148.
Definition HANDSHAKE_RESP_SZ : Z := 92.
Definition DATA_OVERHEAD_SZ : Z := 48.
Definition DATA_MIN_SZ : Z := 33.

Record HandshakeInit := mkInit {
  hi_sender_idx : Z;
  hi_ephemeral : list byte;
  hi_static : list byte;
  hi_timestamp : list byte
}.

Record HandshakeResponse := mkResp {
  hr_sender_idx : Z;
  hr_receiver_idx : Z;
  hr_ephemeral : list byte;
  hr_nothing : list byte
}.

Record PacketData := mkData {
  pd_receiver_idx : Z;
  pd_counter : Z;
  pd_ciphertext : list byte
}.

Inductive Packet :=
| PInit (p : HandshakeInit)
| PResp (p : HandshakeResponse)
| PData (p : PacketData).

#[global] Instance HandshakeInit_eq_dec : EqDecision HandshakeInit.
Proof. solve_decision. Defined.
#[global] Instance HandshakeResponse_eq_dec : EqDecision HandshakeResponse.
Proof. solve_decision. Defined.
#[global] Instance PacketData_eq_dec : EqDecision PacketData.
Proof. solve_decision. Defined.
#[global] Instance Packet_eq_dec : EqDecision Packet.
Proof. solve_decision. Defined.

(** [u32::from_le_bytes(src\[a..b\].try_into()..)]: the slice may panic, the conversion
    of a slice of constant size succeeds. *)
Definition le_field (a b : Z) (src : list byte) : res CryptoError Z := le_val <$> slice a b src.

Definition parse_init (src : list byte) : res CryptoError Packet :=
  sender_idx ← le_field 4 8 src;
  ephemeral ← slice 8 40 src;
  encrypted_static ← slice 40 88 src;
  encrypted_timestamp ← slice 88 116 src;
  Ok (PInit (mkInit sender_idx ephemeral encrypted_static encrypted_timestamp)).

Definition parse_resp (src : list byte) : res CryptoError Packet :=
  sender_idx ← le_field 4 8 src;
  receiver_idx ← le_field 8 12 src;
  ephemeral ← slice 12 44 src;
  encrypted_nothing ← slice 44 60 src;
  Ok (PResp (mkResp sender_idx receiver_idx ephemeral encrypted_nothing)).

Definition parse_data (src : list byte) : res CryptoError Packet :=
  receiver_idx ← le_field 4 8 src;
  counter ← le_field 8 16 src;
  ciphertext ← slice_from 16 src;
  Ok (PData (mkData receiver_idx counter ciphertext)).

Definition parse_incoming_packet (src : list byte) : res CryptoError Packet :=
  if len src <? 4 then Err InvalidPacket else
  packet_type ← le_field 0 4 src;
  if (packet_type =? HANDSHAKE_INIT) && (len src =? HANDSHAKE_INIT_SZ) then parse_init src
  else if (packet_type =? HANDSHAKE_RESP) && (len src =? HANDSHAKE_RESP_SZ) then parse_resp src
  else if (packet_type =? DATA) && (DATA_MIN_SZ <=? len src) then parse_data src
  else Err InvalidPacket.

(** ** Lemmas *)

Lemma no_panic_fmap {E A B} (f : A → B) (m : res E A) : no_panic m → no_panic (f <$> m).
Proof. by destruct m. Qed.
#[export] Hint Resolve no_panic_fmap : res_db.

Lemma no_panic_parse src : no_panic (parse_incoming_packet src).
Proof.
  unfold parse_incoming_packet, parse_init, parse_resp, parse_data, le_field,
    HANDSHAKE_INIT_SZ, HANDSHAKE_RESP_SZ, DATA_MIN_SZ.
  repeat first [done | case_if | apply no_panic_bind; [|intros ? _]];
    bool_prop; eauto with res_db lia.
Qed.

(** Fields of a message laid out as consecutive byte strings. *)
Lemma slice_at {E} (pre x post : list byte) a b :
  a = len pre → b = len pre + len x → slice (E:=E) a b (pre ++ x ++ post) = Ok x.
Proof. apply slice_app_mid. Qed.

(** The layout of a data packet. *)
Definition data_packet (receiver_idx counter : Z) (ct : list byte) : list byte :=
  le_bytes 4 DATA ++ le_bytes 4 receiver_idx ++ le_bytes 8 counter ++ ct.

Lemma parse_data_packet i c ct :
  fits 32 i → fits 64 c → 17 ≤ len ct →
  parse_incoming_packet (data_packet i c ct) = Ok (PData (mkData i c ct)).
Proof.
  intros Hi Hc Hct. unfold parse_incoming_packet.
  assert (len (data_packet i c ct) = 16 + len ct) as Hl
    by (unfold data_packet; autorewrite with len_db; lia).
  rewrite Hl, (proj2 (Z.ltb_ge _ _)) by lia.
  assert (le_field 0 4 (data_packet i c ct) = Ok DATA) as ->
    by (unfold le_field, data_packet; by rewrite slice_app_pre).
  cbn [mbind res_bind]. rewrite (proj2 (Z.leb_le _ _)) by (unfold DATA_MIN_SZ; lia). cbn [andb].
  change (DATA =? HANDSHAKE_INIT) with false. change (DATA =? HANDSHAKE_RESP) with false.
  cbn [andb]. rewrite Z.eqb_refl. cbn [andb]. unfold parse_data, le_field, data_packet.
  rewrite (slice_at (le_bytes 4 DATA) _ _ 4 8) by done. cbn [fmap res_fmap mbind res_bind].
  rewrite le_val_u32 by done. rewrite (assoc_L (++) (le_bytes 4 DATA)).
  rewrite (slice_at (le_bytes 4 DATA ++ _) _ _ 8 16) by done.
  cbn [fmap res_fmap mbind res_bind]. rewrite le_val_u64 by done. rewrite (assoc_L (++) (_ ++ _)).
  by rewrite slice_from_app.
Qed.

(** The layouts of the handshake messages; [macs] are the two trailing MAC fields. *)
Definition init_packet (idx : Z) (e cs ct macs : list byte) : list byte :=
  le_bytes 4 HANDSHAKE_INIT ++ le_bytes 4 idx ++ e ++ cs ++ ct ++ macs.

Definition resp_packet (idx peer : Z) (e n macs : list byte) : list byte :=
  le_bytes 4 HANDSHAKE_RESP ++ le_bytes 4 idx ++ le_bytes 4 peer ++ e ++ n ++ macs.

(** Read the field that starts at the front of [rest], where [pre] has been read. *)
Lemma slice_field {E} (pre x post : list byte) a b l :
  l = pre ++ x ++ post → a = len pre → b = a + len x → slice (E:=E) a b l = Ok x.
Proof. intros -> -> ->. by apply slice_app_mid. Qed.

Lemma parse_init_packet idx e cs ct macs :
  fits 32 idx → len e = 32 → len cs = 48 → len ct = 28 → len macs = 32 →
  parse_incoming_packet (init_packet idx e cs ct macs) = Ok (PInit (mkInit idx e cs ct)).
Proof.
  intros Hi He Hs Ht Hm. unfold parse_incoming_packet.
  assert (len (init_packet idx e cs ct macs) = 148) as Hl
    by (unfold init_packet; autorewrite with len_db; lia).
  rewrite Hl. cbn [Z.ltb Z.compare Pos.compare Pos.compare_cont].
  assert (le_field 0 4 (init_packet idx e cs ct macs) = Ok HANDSHAKE_INIT) as ->
    by (unfold le_field, init_packet; by rewrite slice_app_pre).
  cbn [mbind res_bind]. change ((HANDSHAKE_INIT =? HANDSHAKE_INIT) && (148 =? HANDSHAKE_INIT_SZ)) with true.
  unfold parse_init, le_field, init_packet.
  rewrite (slice_field (le_bytes 4 HANDSHAKE_INIT) (le_bytes 4 idx) (e ++ cs ++ ct ++ macs) 4 8) by done.
  cbn [fmap res_fmap mbind res_bind]. rewrite le_val_u32 by done.
  rewrite (slice_field (le_bytes 4 HANDSHAKE_INIT ++ le_bytes 4 idx) e (cs ++ ct ++ macs) 8 40)
    by (rewrite <-?(assoc_L (++)); done || (autorewrite with len_db; lia)). cbn [mbind res_bind].
  rewrite (slice_field (le_bytes 4 HANDSHAKE_INIT ++ le_bytes 4 idx ++ e) cs (ct ++ macs) 40 88)
    by (rewrite <-?(assoc_L (++)); done || (autorewrite with len_db; lia)). cbn [mbind res_bind].
  rewrite (slice_field (le_bytes 4 HANDSHAKE_INIT ++ le_bytes 4 idx ++ e ++ cs) ct macs 88 116)
    by (rewrite <-?(assoc_L (++)); done || (autorewrite with len_db; lia)). done.
Qed.

Lemma parse_resp_packet idx peer e n macs :
  fits 32 idx → fits 32 peer → len e = 32 → len n = 16 → len macs = 32 →
  parse_incoming_packet (resp_packet idx peer e n macs) = Ok (PResp (mkResp idx peer e n)).
Proof.
  intros Hi Hp He Hn Hm. unfold parse_incoming_packet.
  assert (len (resp_packet idx peer e n macs) = 92) as Hl
    by (unfold resp_packet; autorewrite with len_db; lia).
  rewrite Hl. cbn [Z.ltb Z.compare Pos.compare Pos.compare_cont].
  assert (le_field 0 4 (resp_packet idx peer e n macs) = Ok HANDSHAKE_RESP) as ->
    by (unfold le_field, resp_packet; by rewrite slice_app_pre).
  cbn [mbind res_bind].
  change ((HANDSHAKE_RESP =? HANDSHAKE_INIT) && (92 =? HANDSHAKE_INIT_SZ)) with false.
  change ((HANDSHAKE_RESP =? HANDSHAKE_RESP) && (92 =? HANDSHAKE_RESP_SZ)) with true.
  unfold parse_resp, le_field, resp_packet.
  rewrite (slice_field (le_bytes 4 HANDSHAKE_RESP) (le_bytes 4 idx) (le_bytes 4 peer ++ e ++ n ++ macs) 4 8)
    by done. cbn [fmap res_fmap mbind res_bind]. rewrite le_val_u32 by done.
  rewrite (slice_field (le_bytes 4 HANDSHAKE_RESP ++ le_bytes 4 idx) (le_bytes 4 peer) (e ++ n ++ macs) 8 12)
    by (rewrite <-?(assoc_L (++)); done). cbn [fmap res_fmap mbind res_bind]. rewrite le_val_u32 by done.
  rewrite (slice_field (le_bytes 4 HANDSHAKE_RESP ++ le_bytes 4 idx ++ le_bytes 4 peer) e (n ++ macs) 12 44)
    by (rewrite <-?(assoc_L (++)); done || (autorewrite with len_db; lia)). cbn [mbind res_bind].
  rewrite (slice_field (le_bytes 4 HANDSHAKE_RESP ++ le_bytes 4 idx ++ le_bytes 4 peer ++ e) n macs 44 60)
    by (rewrite <-?(assoc_L (++)); done || (autorewrite with len_db; lia)). done.
Qed.

(** Indices and counters of a parsed packet are within their widths. *)
Definition packet_ok (p : Packet) : Prop :=
  match p with
  | PInit p => fits 32 (hi_sender_idx p)
  | PResp p => fits 32 (hr_sender_idx p) ∧ fits 32 (hr_receiver_idx p)
  | PData p => fits 32 (pd_receiver_idx p) ∧ fits 64 (pd_counter p)
  end.

Lemma le_field_fits a b src z w :
  le_field a b src = Ok z → 8 * (b - a) = w → fits w z.
Proof.
  unfold le_field. intros Hf Hw. destruct (slice a b src) as [l|?|] eqn:Hs; try done.
  cbn in Hf. apply Ok_inj in Hf as <-. pose proof (len_slice (E:=CryptoError) _ _ _ _ Hs) as Hl.
  pose proof (le_val_range l) as Hr. pose proof (len_nonneg l). rewrite Hl in *.
  unfold fits. rewrite <-Hw, Z.pow_mul_r by lia. done.
Qed.

Lemma parse_packet_ok src p : parse_incoming_packet src = Ok p → packet_ok p.
Proof.
  unfold parse_incoming_packet. case_if; [done|]. intros (ty & _ & Hp)%bind_Ok_inv.
  repeat case_if; [..|done]; unfold parse_init, parse_resp, parse_data in Hp; res_inv; cbn.
  - by eapply le_field_fits.
  - split; by eapply le_field_fits.
  - split; by eapply le_field_fits.
Qed.
