(* ===== verification/Session.v ===== *)
(** * Transport sessions (engine/crypto/fp-crypto-noise/src/session.rs)

    Encryption and decryption of data packets with counters, random padding and the
    replay window.  [dst_len] is the size of the caller's output buffer; the returned
    list is the slice of it that the Rust code returns.  The sending counter is an
    atomic with [fetch_add], so a session is a state threaded through the calls in
    the order of the counters they obtain. *)

From S2P Require Import Prelude.
From S2P Require Import Words.
From S2P Require Import CryptoError.
From S2P Require Import Crypto.
From S2P Require Import NoisePacket.
From S2P Require Import ReplayWindow.

Definition MAX_NONCE : Z := 2 ^ 48.
Definition MAX_PADDING : Z := 15.
Definition DATA_OFFSET : Z := 16.
Definition AEAD_SIZE : Z := 16.

Record Session := mkSession {
  receiving_index : Z;
  sending_index : Z;
  receiver : list byte;
  sender : list byte;
  sending_key_counter : Z;
  receiving_key_counter : Validator
}.

(** [OsRng]: the bytes the n-th request of a call obtains, or [None] when the
    generator is unavailable. *)
Definition Rng : Type := nat → Z → option (list byte).

Definition rng_ok (rng : Rng) : Prop := ∀ i n, 0 ≤ n → ∃ l, rng i n = Some l ∧ len l = n.

Section Session.
Context `{Crypto}.

Definition session_new (local_index peer_index : Z) (receiving_key sending_key : list byte)
    : res CryptoError Session :=
  receiver ← unbound_key receiving_key;
  sender ← unbound_key sending_key;
  Ok (mkSession local_index peer_index receiver sender 0 validator_default).

Definition local_index (s : Session) : Z := receiving_index s.

Definition set_validator (v : Validator) (s : Session) : Session :=
  mkSession (receiving_index s) (sending_index s) (receiver s) (sender s) (sending_key_counter s) v.

Definition receiving_counter_quick_check (counter : Z) (s : Session) : res CryptoError unit :=
  will_accept counter (receiving_key_counter s).

Definition session_mark (counter : Z) : st Session CryptoError unit := fun s =>
  let '(r, v) := receiving_counter_mark counter (receiving_key_counter s) in
  (r, set_validator v s).

(** [self.sending_key_counter.fetch_add(1, ..)]. *)
Definition fetch_add_counter : st Session CryptoError Z := fun s =>
  (Ok (sending_key_counter s),
   mkSession (receiving_index s) (sending_index s) (receiver s) (sender s)
     (wrap 64 (sending_key_counter s + 1)) (receiving_key_counter s)).

(** The plaintext: padding length, padding, payload. *)
Definition pad (padding src : list byte) : list byte := z2b (len padding) :: padding ++ src.

Definition format_packet_data (src : list byte) (dst_len : Z) (rng : Rng)
    : st Session CryptoError (list byte) :=
  if dst_len <? len src + DATA_OVERHEAD_SZ then lift (Err DestinationBufferTooSmall) else
  counter ← fetch_add_counter;
  if MAX_NONCE <=? counter then lift (Err NonceExhausted) else
  random ← lift (ok_or (rng 0%nat 4) RandomnessUnavailable);
  let padding_len := le_val random mod (MAX_PADDING + 1) in
  padding ← lift (if 0 <? padding_len
                  then ok_or (rng 1%nat padding_len) RandomnessUnavailable else Ok []);
  s ← get;
  '(ct, tag) ← lift (ok_or (aead_seal (sender s) (aead_nonce counter) [] (pad padding src))
                       InvalidAeadTag);
  mret (data_packet (sending_index s) counter (ct ++ tag)).

(** Strip the padding of a decrypted packet. *)
Definition unpad (decrypted : list byte) : res CryptoError (list byte) :=
  if len decrypted =? 0 then Err InvalidPacket else
  padding_len ← index decrypted 0;
  let header_len := 1 + b2z padding_len in
  if len decrypted <? header_len then Err InvalidPacket else
  slice_from header_len decrypted.

Definition receive_packet_data (packet : PacketData) (dst_len : Z)
    : st Session CryptoError (list byte) :=
  if dst_len <? len (pd_ciphertext packet) then lift (Err DestinationBufferTooSmall) else
  s ← get;
  if negb (pd_receiver_idx packet =? receiving_index s) then lift (Err WrongIndex) else
  _ ← lift (receiving_counter_quick_check (pd_counter packet) s);
  decrypted ← lift (ok_or (aead_open (receiver s) (aead_nonce (pd_counter packet)) []
                             (pd_ciphertext packet)) InvalidAeadTag);
  _ ← session_mark (pd_counter packet);
  lift (unpad decrypted).

(** Everything one session sends, and everything it accepts from a list of packets. *)
Fixpoint send_all (msgs : list (list byte)) (dst_len : Z) (rng : Rng) (s : Session)
    : list (res CryptoError (list byte)) * Session :=
  match msgs with
  | [] => ([], s)
  | m :: msgs =>
      let '(r, s) := format_packet_data m dst_len rng s in
      let '(rs, s) := send_all msgs dst_len rng s in (r :: rs, s)
  end.

Fixpoint receive_all (ps : list PacketData) (dst_len : Z) (s : Session)
    : list (Z * list byte) * Session :=
  match ps with
  | [] => ([], s)
  | p :: ps =>
      let '(r, s) := receive_packet_data p dst_len s in
      let '(acc, s) := receive_all ps dst_len s in
      (match r with Ok m => (pd_counter p, m) :: acc | _ => acc end, s)
  end.
End Session.

(** ** Well-formed and linked sessions *)

Definition session_ok (s : Session) : Prop :=
  fits 32 (receiving_index s) ∧ fits 32 (sending_index s) ∧
  len (receiver s) = 32 ∧ len (sender s) = 32 ∧ fits 64 (sending_key_counter s).

(** What [a] sends, [b] can read. *)
Definition linked (a b : Session) : Prop :=
  sender a = receiver b ∧ sending_index a = receiving_index b.

(** The counters [b] has accepted or tried, as a set. *)
Definition received (b : Session) (seen : gset Z) : Prop := window_rel (receiving_key_counter b) seen.

(** ** Lemmas *)

Section Lemmas.
Context `{CryptoLaws}.

Lemma unpad_pad padding src : len padding ≤ 255 → unpad (pad padding src) = Ok src.
Proof.
  intros Hp. pose proof (len_nonneg padding). pose proof (len_nonneg src). unfold unpad, pad.
  rewrite len_cons, len_app, (proj2 (Z.eqb_neq _ _)) by lia.
  change (index (z2b (len padding) :: padding ++ src) 0) with (Ok (E:=CryptoError) (z2b (len padding))).
  cbn [mbind res_bind]. rewrite b2z_z2b, Z.mod_small by lia.
  rewrite (proj2 (Z.ltb_ge _ _)) by lia.
  rewrite app_comm_cons. apply slice_from_app. rewrite len_cons. done.
Qed.

Lemma no_panic_unpad d : no_panic (unpad d).
Proof.
  pose proof (len_nonneg d). unfold unpad. case_if; [done|]. bool_prop.
  apply no_panic_bind; [eauto with res_db lia|]. intros b _. pose proof (b2z_range b).
  case_if; [done|]. bool_prop. eauto with res_db lia.
Qed.

Definition bump (s : Session) : Session :=
  mkSession (receiving_index s) (sending_index s) (receiver s) (sender s)
    (wrap 64 (sending_key_counter s + 1)) (receiving_key_counter s).

(** A successful send: the packet carries the counter just taken, and whoever has
    the key opens it to the padded payload. *)
Lemma format_spec src dst_len rng s pkt s' :
  format_packet_data src dst_len rng s = (Ok pkt, s') →
  s' = bump s ∧ sending_key_counter s < MAX_NONCE ∧ len src + DATA_OVERHEAD_SZ ≤ dst_len ∧
  ∃ ct padding, pkt = data_packet (sending_index s) (sending_key_counter s) ct ∧
    (rng_ok rng → len padding ≤ MAX_PADDING) ∧ len ct = 1 + len padding + len src + AEAD_SIZE ∧
    aead_open (sender s) (aead_nonce (sending_key_counter s)) [] ct = Some (pad padding src).
Proof.
  unfold format_packet_data. case_if; [done|]. bool_prop.
  intros (c & s1 & [= <- <-] & Hf)%st_bind_Ok_inv. case_if; [done|]. bool_prop.
  apply st_bind_Ok_inv in Hf as (rnd & s2 & [= Hr <-] & Hf).
  apply st_bind_Ok_inv in Hf as (padding & s3 & [= Hp <-] & Hf).
  apply st_bind_Ok_inv in Hf as (s4 & s5 & [= <- <-] & Hf).
  apply st_bind_Ok_inv in Hf as ([ct tag] & s6 & [= Hs <-] & Hf). injection Hf as <- <-.
  cbn [sending_index sender] in *. destruct (aead_seal _ _ _ _) as [[ct' tag']|] eqn:E; [|done].
  cbn in Hs. injection Hs as -> ->. apply open_seal in E as (Hc & Ht & Ho).
  split_and!; [done|lia|lia|]. exists (ct ++ tag), padding. split_and!; [done| |..].
  - intros Hrng. pose proof (Z.mod_pos_bound (le_val rnd) (MAX_PADDING + 1)) as Hm.
    destruct (0 <? _) eqn:E0 in Hp; bool_prop.
    + destruct (Hrng 1%nat (le_val rnd mod (MAX_PADDING + 1))) as (l & Hl & Hll); [lia|].
      rewrite Hl in Hp. cbn in Hp. injection Hp as <-. unfold MAX_PADDING in *. lia.
    + injection Hp as <-. rewrite len_nil. unfold MAX_PADDING. lia.
  - rewrite len_app, Hc, Ht. unfold pad, AEAD_SIZE. rewrite len_cons, len_app. lia.
  - done.
Qed.

Lemma format_total src dst_len rng s :
  session_ok s → rng_ok rng → len src + DATA_OVERHEAD_SZ ≤ dst_len → len src ≤ AEAD_MAX - 16 →
  sending_key_counter s < MAX_NONCE → ∃ pkt, format_packet_data src dst_len rng s = (Ok pkt, bump s).
Proof.
  intros (_ & _ & _ & Hk & _) Hrng Hd Hs Hc. unfold format_packet_data.
  rewrite (proj2 (Z.ltb_ge _ _)) by lia. erewrite st_bind_Ok by done.
  rewrite (proj2 (Z.leb_gt _ _)) by lia.
  destruct (Hrng 0%nat 4) as (rnd & Hr & _); [lia|]. erewrite lift_bind_Ok by (by rewrite Hr).
  pose proof (Z.mod_pos_bound (le_val rnd) (MAX_PADDING + 1)) as Hm.
  assert (∃ padding, (if 0 <? le_val rnd mod (MAX_PADDING + 1)
     then ok_or (rng 1%nat (le_val rnd mod (MAX_PADDING + 1))) RandomnessUnavailable else Ok [])
     = Ok padding ∧ len padding ≤ MAX_PADDING) as (padding & Hp & Hpl).
  { unfold MAX_PADDING in *. case_if; bool_prop; [|exists []; split; [done|rewrite len_nil; lia]].
    destruct (Hrng 1%nat (le_val rnd mod (15 + 1))) as (l & -> & Hl); [lia|].
    exists l. split; [done|lia]. }
  erewrite lift_bind_Ok by exact Hp. erewrite st_bind_Ok by done. cbn [sender].
  destruct (seal_total (sender s) (aead_nonce (sending_key_counter s)) [] (pad padding src) Hk)
    as [[ct tag] Hct].
  { unfold pad, MAX_PADDING in *. rewrite len_cons, len_app. lia. }
  erewrite lift_bind_Ok by (by rewrite Hct). eexists. reflexivity.
Qed.

(** Accepting a packet marks its counter, which was fresh. *)
Lemma receive_spec p dst_len s m s' seen :
  received s seen → counter_ok (pd_counter p) →
  receive_packet_data p dst_len s = (Ok m, s') →
  fresh_counter (pd_counter p) (next (receiving_key_counter s)) seen ∧
  received s' ({[pd_counter p]} ∪ seen).
Proof.
  intros Hr Hc. unfold receive_packet_data. case_if; [done|].
  intros (s1 & s2 & [= <- <-] & Hf)%st_bind_Ok_inv. case_if; [done|].
  apply st_bind_Ok_inv in Hf as (_ & s3 & [= _ <-] & Hf).
  apply st_bind_Ok_inv in Hf as (d & s4 & [= _ <-] & Hf).
  apply st_bind_Ok_inv in Hf as ([] & s5 & Hm & [= _ <-]). unfold session_mark in Hm.
  pose proof (receiving_mark_spec _ _ _ Hr Hc) as Hs.
  destruct (decide (fresh_counter _ _ seen)) as [Hfr|_]; [|by rewrite Hs in Hm].
  destruct Hs as (v & Hv & Hw & _). rewrite Hv in Hm. injection Hm as <-. done.
Qed.

(** A rejected packet leaves the window as it was, or marks its counter (when the
    decrypted content turns out to be malformed). *)
Lemma receive_window p dst_len s r s' seen :
  received s seen → counter_ok (pd_counter p) →
  receive_packet_data p dst_len s = (r, s') → ∃ sn, received s' sn ∧ seen ⊆ sn.
Proof.
  assert (∀ s' : Session, s = s' → received s seen → ∃ sn, received s' sn ∧ seen ⊆ sn) as Hsame
    by (intros ? <- ?; exists seen; done).
  intros Hr Hc. unfold receive_packet_data. case_if; [intros [= _ ?]; eauto|].
  unfold mbind, st_bind, get, lift. case_if; [intros [= _ ?]; eauto|].
  destruct (receiving_counter_quick_check _ _); [|intros [= _ ?]; eauto..].
  destruct (ok_or _ _); [|intros [= _ ?]; eauto..]. unfold session_mark.
  pose proof (receiving_mark_spec _ _ _ Hr Hc) as Hs.
  destruct (decide (fresh_counter _ _ seen)) as [Hfr|_].
  - destruct Hs as (v & -> & Hw & _). intros [= _ <-].
    exists ({[pd_counter p]} ∪ seen). split; [done|apply union_subseteq_r].
  - rewrite Hs. intros [= _ <-]. by exists seen.
Qed.

Lemma receive_fields p dst_len s r s' :
  receive_packet_data p dst_len s = (r, s') → ∃ v, s' = set_validator v s.
Proof.
  assert (s = set_validator (receiving_key_counter s) s) as Hs by (by destruct s).
  unfold receive_packet_data. case_if; [intros [= _ <-]; eauto|].
  unfold mbind, st_bind, get, lift. case_if; [intros [= _ <-]; eauto|].
  destruct (receiving_counter_quick_check _ _); [|intros [= _ <-]; eauto..].
  destruct (ok_or _ _); [|intros [= _ <-]; eauto..]. unfold session_mark.
  destruct (receiving_counter_mark _ _) as [[] v]; intros [= _ <-]; eauto.
Qed.

(** The packet was sealed under the key the session receives with. *)
Definition opens (s : Session) (p : PacketData) : Prop :=
  is_Some (aead_open (receiver s) (aead_nonce (pd_counter p)) [] (pd_ciphertext p)).

Lemma receive_sealed p dst_len s r s' :
  receive_packet_data p dst_len s = (r, s') → opens s p ∨ s' = s ∧ ∀ m, r ≠ Ok m.
Proof.
  unfold receive_packet_data, opens. case_if; [intros [= <- <-]; by right|].
  unfold mbind, st_bind, get, lift. case_if; [intros [= <- <-]; by right|].
  destruct (receiving_counter_quick_check _ _); [|intros [= <- <-]; by right..].
  destruct (aead_open _ _ _ _); [eauto|]. intros [= <- <-]. by right.
Qed.

(** Counters of the accepted packets of a run are new and pairwise different. *)
Lemma receive_all_counters ps dst_len : ∀ s seen,
  received s seen → Forall (fun p => opens s p → counter_ok (pd_counter p)) ps →
  NoDup (receive_all ps dst_len s).1.*1 ∧
  (∀ c, c ∈ (receive_all ps dst_len s).1.*1 → c ∉ seen).
Proof.
  induction ps as [|p ps IH]; intros s seen Hr Hps; cbn [receive_all].
  { cbn. split; [constructor|]. by intros c ?%elem_of_nil. }
  apply Forall_cons_1 in Hps as [Hp Hps].
  destruct (receive_packet_data p dst_len s) as [r s'] eqn:E.
  destruct (receive_sealed p dst_len s r s' E) as [Ho|[-> Hno]].
  2: { specialize (IH s seen Hr Hps). destruct (receive_all ps dst_len s) as [acc s'']. by destruct r as [m| |]; [destruct (Hno m)|..]. }
  specialize (Hp Ho). assert (Forall (fun p => opens s' p → counter_ok (pd_counter p)) ps) as Hps'.
  { by apply receive_fields in E as [v ->]. }
  destruct (receive_window p dst_len s r s' seen Hr Hp E) as (sn & Hsn & Hsub).
  destruct (IH s' sn Hsn Hps') as [Hd Hn]. destruct r as [m|e|];
    [|destruct (receive_all ps dst_len s'); cbn in *; split; [done|]; intros c Hc Hin;
      by apply (Hn c Hc), Hsub..].
  destruct (receive_spec p dst_len s m s' seen Hr Hp E) as [[_ Hf] Hr'].
  destruct (IH s' _ Hr' Hps') as [_ Hn']. destruct (receive_all ps dst_len s') as [acc s''].
  cbn in *. split.
  - constructor; [|done]. intros Hc. apply (Hn' _ Hc), elem_of_union_l. by apply elem_of_singleton.
  - intros c [->|Hc]%elem_of_cons; [done|]. intros ?. by apply (Hn' _ Hc), elem_of_union_r.
Qed.

Lemma format_state src dst_len rng s r s' :
  format_packet_data src dst_len rng s = (r, s') → s' = s ∨ s' = bump s.
Proof.
  unfold format_packet_data. case_if; [intros [= _ <-]; by left|].
  unfold mbind, st_bind, fetch_add_counter. case_if; [intros [= _ <-]; by right|].
  unfold lift, get. intros Hf. right.
  repeat match type of Hf with
  | context [match ?x with Ok _ => _ | Err _ => _ | Panic => _ end] => destruct x as [?|?|]
  | context [let (_, _) := ?x in _] => destruct x
  end; by injection Hf as _ <-.
Qed.

(** The counters of the packets of a run increase. *)
Lemma send_all_counters msgs dst_len rng : ∀ s,
  0 ≤ sending_key_counter s → sending_key_counter s + len msgs < 2 ^ 64 →
  ∀ i pkt, (send_all msgs dst_len rng s).1 !! i = Some (Ok pkt) →
  ∃ c ct, pkt = data_packet (sending_index s) c ct ∧
    sending_key_counter s ≤ c < MAX_NONCE ∧
    ∀ j pkt', (send_all msgs dst_len rng s).1 !! j = Some (Ok pkt') → (i < j)%nat →
      ∃ c' ct', pkt' = data_packet (sending_index s) c' ct' ∧ c < c' < MAX_NONCE.
Proof.
  induction msgs as [|m msgs IH]; intros s H0s Hs i pkt Hi; cbn [send_all] in *; [done|].
  rewrite len_cons in Hs. pose proof (len_nonneg msgs).
  destruct (format_packet_data m dst_len rng s) as [r s'] eqn:E.
  assert (sending_index s' = sending_index s ∧
    sending_key_counter s ≤ sending_key_counter s' ≤ sending_key_counter s + 1) as [Hi' Hc'].
  { apply format_state in E as [-> | ->]; [split; [done|lia]|]. cbn. split; [done|].
    rewrite wrap_id by (unfold fits; lia). lia. }
  specialize (IH s' ltac:(lia) ltac:(lia)). rewrite Hi' in IH.
  destruct (send_all msgs dst_len rng s') as [rs s'']. cbn in *. destruct i as [|i]; cbn in Hi.
  - injection Hi as ->. apply format_spec in E as (-> & Hc & _ & ct & padding & -> & _).
    exists (sending_key_counter s), ct. split_and!; [done|lia..|]. cbn in IH.
    rewrite wrap_id in IH by (unfold fits; lia).
    intros [|j] pkt' Hj Hlt; [lia|]. cbn in Hj.
    destruct (IH j pkt' Hj) as (c' & ct' & -> & Hcc & _). exists c', ct'. split; [done|lia].
  - destruct (IH i pkt Hi) as (c & ct & -> & Hcc & Hnext); exists c, ct. split_and!; [done|lia..|].
    intros [|j] pkt' Hj Hlt; [lia|]. apply (Hnext j pkt' Hj). lia.
Qed.
(** Neither direction panics or touches the indices and keys. *)
Lemma no_panic_format src dst_len rng s : no_panic (format_packet_data src dst_len rng s).1.
Proof.
  unfold format_packet_data. case_if; [done|]. unfold mbind, st_bind, fetch_add_counter.
  case_if; [done|]. unfold lift, get.
  repeat match goal with
  | |- context [match ok_or ?x ?y with _ => _ end] => destruct (ok_or x y) as [?|?|] eqn:?; try done
  | |- context [let (_, _) := ?x in _] => destruct x
  | |- context [if ?b then _ else _] => destruct b
  end; cbn; try done.
  all: match goal with H : ok_or _ _ = Panic |- _ => by apply no_panic_ok_or in H end.
Qed.

Lemma no_panic_receive p dst_len s seen :
  received s seen → counter_ok (pd_counter p) → no_panic (receive_packet_data p dst_len s).1.
Proof.
  intros Hr Hc. unfold receive_packet_data. case_if; [done|].
  unfold mbind, st_bind, get, lift. case_if; [done|].
  destruct (receiving_counter_quick_check _ _) as [|?|] eqn:Hq; [|done|].
  2: { unfold receiving_counter_quick_check, will_accept in Hq. repeat case_if; done. }
  destruct (ok_or _ _) eqn:Ho; [|done|by apply no_panic_ok_or in Ho]. unfold session_mark.
  pose proof (receiving_mark_spec _ _ _ Hr Hc) as Hs.
  destruct (decide (fresh_counter _ _ seen)).
  - destruct Hs as (v & -> & _). apply no_panic_unpad.
  - by rewrite Hs.
Qed.

(** A packet sent on one session and received on a linked one. *)
Lemma session_transfer a b seen src dst_len dst_len' rng :
  session_ok a → linked a b → received b seen → rng_ok rng →
  fresh_counter (sending_key_counter a) (next (receiving_key_counter b)) seen →
  sending_key_counter a < MAX_NONCE →
  len src + DATA_OVERHEAD_SZ ≤ dst_len → len src + 32 ≤ dst_len' → len src ≤ AEAD_MAX - 16 →
  ∃ pkt p b',
    format_packet_data src dst_len rng a = (Ok pkt, bump a) ∧
    parse_incoming_packet pkt = Ok (PData p) ∧
    receive_packet_data p dst_len' b = (Ok src, b') ∧
    received b' ({[sending_key_counter a]} ∪ seen).
Proof.
  intros Ha [Hk Hi] Hb Hrng Hf Hc Hd Hd' Hs.
  destruct (format_total src dst_len rng a) as (pkt & Hfmt); [done..|].
  pose proof Hfmt as (_ & _ & _ & ct & padding & -> & Hp & Hct & Ho)%format_spec.
  specialize (Hp Hrng). destruct Ha as (_ & Hidx & _ & _ & H64 & ?).
  pose proof (len_nonneg padding). pose proof (len_nonneg src). unfold MAX_PADDING, AEAD_SIZE in *.
  assert (counter_ok (sending_key_counter a)) as Hck
    by (unfold counter_ok, MAX_NONCE, N_BITS, WORD_SIZE, N_WORDS in *; lia).
  set (p := mkData (sending_index a) (sending_key_counter a) ct).
  pose proof (receiving_mark_spec _ _ _ Hb Hck) as Hm. rewrite decide_True in Hm by done.
  destruct Hm as (v & Hm & Hw & _).
  assert (receive_packet_data p dst_len' b = (Ok src, set_validator v b)) as Hrec.
  { unfold receive_packet_data, p. cbn [pd_ciphertext pd_receiver_idx pd_counter].
    rewrite (proj2 (Z.ltb_ge _ _)) by lia. erewrite st_bind_Ok by done.
    rewrite Hi, Z.eqb_refl. cbn [negb].
    pose proof (will_accept_spec _ _ _ Hb Hck) as Hq. rewrite bool_decide_eq_true_2 in Hq by done.
    erewrite (lift_bind_Ok (receiving_counter_quick_check _ b)) by
      (unfold receiving_counter_quick_check; destruct (will_accept _ _) as [[]|?|]; done).
    rewrite <-Hk, Ho. erewrite lift_bind_Ok by done.
    erewrite st_bind_Ok by (unfold session_mark; by rewrite Hm).
    unfold lift. by rewrite unpad_pad by lia. }
  exists (data_packet (sending_index a) (sending_key_counter a) ct), p, (set_validator v b).
  split_and!; [done| |done|done]. apply parse_data_packet; [done|done|lia].
Qed.

(** Transport round trip: whatever a session sends while its counter is below
    2^48, the session at the other end parses, decrypts and strips to exactly the
    original payload, provided the counter is fresh there; its window then contains
    the counter.  Sending succeeds whenever the buffer has room for the overhead. *)
Lemma session_roundtrip a b seen src dst_len dst_len' rng :
  session_ok a → linked a b → received b seen → rng_ok rng →
  fresh_counter (sending_key_counter a) (next (receiving_key_counter b)) seen →
  sending_key_counter a < MAX_NONCE →
  len src + DATA_OVERHEAD_SZ ≤ dst_len → len src + 32 ≤ dst_len' → len src ≤ AEAD_MAX - 16 →
  ∃ pkt p b',
    format_packet_data src dst_len rng a = (Ok pkt, bump a) ∧
    parse_incoming_packet pkt = Ok (PData p) ∧
    receive_packet_data p dst_len' b = (Ok src, b') ∧
    received b' ({[sending_key_counter a]} ∪ seen).
Proof. apply session_transfer. Qed.

(** C21.  No replay on a session: of any sequence of data packets, forged, reordered or
    repeated at will by the network, no two accepted ones have the same counter, and
    none has a counter accepted before, provided the packets that were sealed under the
    session's key have counters below 2^64 - 2048.  (A sender stops at 2^48; a counter of
    2^64 - 1 under the key would wrap the window around and make it forget.) *)
Theorem session_no_replay ps dst_len s seen :
  received s seen → Forall (fun p => opens s p → counter_ok (pd_counter p)) ps →
  NoDup (receive_all ps dst_len s).1.*1 ∧
  (∀ c, c ∈ (receive_all ps dst_len s).1.*1 → c ∉ seen).
Proof. apply receive_all_counters. Qed.

(** C22.  A session never uses a nonce twice: in any run of sends, a later packet
    carries a strictly larger counter than an earlier one, and no packet is produced
    with a counter of 2^48 or more. *)
Theorem session_nonce_unique msgs dst_len rng s :
  0 ≤ sending_key_counter s → sending_key_counter s + len msgs < 2 ^ 64 →
  ∀ i pkt, (send_all msgs dst_len rng s).1 !! i = Some (Ok pkt) →
  ∃ c ct, pkt = data_packet (sending_index s) c ct ∧
    sending_key_counter s ≤ c < MAX_NONCE ∧
    ∀ j pkt', (send_all msgs dst_len rng s).1 !! j = Some (Ok pkt') → (i < j)%nat →
      ∃ c' ct', pkt' = data_packet (sending_index s) c' ct' ∧ c < c' < MAX_NONCE.
Proof. apply send_all_counters. Qed.
End Lemmas.

(** ** Witnesses: two linked sessions over the toy primitives *)

Definition toy_rng : Rng := fun i n => Some (replicate (Z.to_nat n) (z2b (3 + Z.of_nat i))).

Lemma toy_rng_ok : rng_ok toy_rng.
Proof. intros i n Hn. eexists. split; [done|]. rewrite len_replicate. lia. Qed.

Definition key1 : list byte := replicate 32 x11.
Definition key2 : list byte := replicate 32 x22.
Definition alice : Session := mkSession 257 513 key2 key1 7 validator_default.
Definition bob : Session := mkSession 513 257 key1 key2 0 validator_default.

Lemma session_no_replay_witness :
  let p c := mkData 513 c ([x01; x00; x2a] ++ toy_tag key1) in
  (receive_all [p 3; p 1; p 3; p 1; p 2] 100 bob).1 = [(3, [x2a]); (1, [x2a]); (2, [x2a])] ∧
  NoDup (receive_all [p 3; p 1; p 3; p 1; p 2] 100 bob).1.*1.
Proof.
  intros p. split; [vm_compute; reflexivity|].
  apply (session_no_replay [p 3; p 1; p 3; p 1; p 2] 100 bob ∅); [exact window_rel_default|].
  repeat (apply Forall_cons_2; [intros _; apply (bool_decide_unpack _); vm_compute; exact I|]). apply Forall_nil_2.
Defined.

Lemma session_nonce_unique_witness :
  ∃ c ct, (send_all [[x01]; [x02]] 100 toy_rng alice).1 !! 0%nat = Some (Ok (data_packet 513 c ct)) ∧
    7 ≤ c < MAX_NONCE.
Proof.
  destruct (session_nonce_unique [[x01]; [x02]] 100 toy_rng alice) with 0%nat
    (data_packet 513 7 (pad (replicate 3 x04) [x01] ++ toy_tag key1))
    as (c & ct & Hp & Hc & _); [vm_compute; discriminate|vm_compute; reflexivity|vm_compute; reflexivity|].
  exists c, ct. split; [|exact Hc]. transitivity (Some (Ok (E:=CryptoError)
    (data_packet 513 7 (pad (replicate 3 x04) [x01] ++ toy_tag key1))));
    [vm_compute; reflexivity|]. f_equal. f_equal. exact Hp.
Defined.
