(* ===== verification/Instant.v ===== *)
(** * Clocks (engine/crypto/fp-crypto-noise/src/sleepyinstant/unix.rs)

    A reading of the boot-time clock with a monotonic fallback.  Durations are in
    nanoseconds; a [TimeSpec] is a pair of seconds and nanoseconds. *)

From S2P Require Import Prelude.

Definition NANOSECOND : Z := 1000000000.

Record Instant := mkInstant { inst_t : option (Z * Z); inst_fallback : Z }.

(** [std::time::Instant::checked_duration_since]. *)
Definition std_checked_since (now earlier : Z) : option Z :=
  if earlier <=? now then Some (now - earlier) else None.

Definition checked_duration_since (self earlier : Instant) : option Z :=
  match inst_t self, inst_t earlier with
  | Some (cs, cn), Some (ps, pn) =>
      let '(tv_sec, tv_nsec) :=
        if cn <? pn then (cs - ps - 1, cn - pn + NANOSECOND) else (cs - ps, cn - pn) in
      if tv_sec <? 0 then None else Some (tv_sec * NANOSECOND + tv_nsec)
  | _, _ => std_checked_since (inst_fallback self) (inst_fallback earlier)
  end.

Definition duration_since (self earlier : Instant) : Z :=
  default 0 (checked_duration_since self earlier).

(** A reading the kernel can return: the nanoseconds are below one second. *)
Definition instant_ok (i : Instant) : Prop :=
  match inst_t i with Some (_, n) => 0 ≤ n < NANOSECOND | None => True end.

(** Time of a reading in nanoseconds, in the domain both readings share. *)
Definition nanos (i j : Instant) : Z * Z :=
  match inst_t i, inst_t j with
  | Some (cs, cn), Some (ps, pn) => (cs * NANOSECOND + cn, ps * NANOSECOND + pn)
  | _, _ => (inst_fallback i, inst_fallback j)
  end.

(** The borrow between seconds and nanoseconds is right: the duration is the
    difference of the two readings, or zero when the earlier one is later. *)
Lemma duration_since_spec i j :
  instant_ok i → instant_ok j →
  duration_since i j = Z.max 0 ((nanos i j).1 - (nanos i j).2).
Proof.
  unfold instant_ok, duration_since, checked_duration_since, nanos, std_checked_since, NANOSECOND.
  destruct i as [[[cs cn]|] fi], j as [[[ps pn]|] fj]; cbn; intros Hi Hj;
    repeat case_if; bool_prop; cbn; lia.
Qed.
