(* ===== verification/Handshake.v ===== *)
(** * The Noise handshake (engine/crypto/fp-crypto-noise/src/handshake.rs)

    The IK handshake of the tunnel: both message formats, both receivers, the
    TAI64N timestamps and the session indices.  Each function that takes [&mut self]
    is a computation in [st Handshake CryptoError]; [rng] and [clock] give the n-th
    random string and the n-th clock reading of the call. *)

From S2P Require Import Prelude.
From S2P Require Import Words.
From S2P Require Import CryptoError.
From S2P Require Import Crypto.
From S2P Require Import NoisePacket.
From S2P Require Import ReplayWindow.
From S2P Require Import Session.
From S2P Require Import Instant.

Definition LABEL_MAC1 : list byte := [x6d; x61; x63; x31; x2d; x2d; x2d; x2d].
Definition KEY_LEN : Z := 32.
Definition TIMESTAMP_LEN : Z := 12.

Definition INITIAL_CHAIN_KEY : list byte := z2b <$>
  [96; 226; 109; 174; 243; 39; 239; 192; 46; 195; 53; 226; 160; 37; 210; 208; 22; 235; 66; 6; 248; 114; 119;
   245; 45; 56; 209; 152; 139; 120; 205; 54].

Definition INITIAL_CHAIN_HASH : list byte := z2b <$>
  [34; 17; 179; 97; 8; 26; 197; 102; 105; 18; 67; 219; 69; 138; 213; 50; 45; 156; 108; 102; 34; 147; 232; 183;
   14; 225; 156; 101; 186; 7; 158; 243].

(** ** Timestamps *)

Record Tai64N := mkTai { secs : Z; nano : Z }.

#[global] Instance Tai64N_eq_dec : EqDecision Tai64N.
Proof. solve_decision. Defined.

Definition tai_zero : Tai64N := mkTai 0 0.

(** [buf] is a [\[u8; 12\]]. *)
Definition tai_parse (buf : list byte) : res CryptoError Tai64N :=
  if len buf <? 12 then Err InvalidTai64nTimestamp else
  sec_bytes ← slice 0 8 buf;
  nano_bytes ← slice_from 8 buf;
  Ok (mkTai (be_val sec_bytes) (be_val nano_bytes)).

Definition after (self other : Tai64N) : bool :=
  (secs other <? secs self) || ((secs self =? secs other) && (nano other <? nano self)).

Definition TAI64_BASE : Z := 2 ^ 62 + 37.

Record TimeStamper := mkStamper { duration_at_start : option Z; instant_at_start : Instant }.

(** [Duration::checked_add]: seconds are a [u64]. *)
Definition duration_checked_add (a b : Z) : option Z :=
  if (a + b) / NANOSECOND <? 2 ^ 64 then Some (a + b) else None.

Definition stamp (s : TimeStamper) (now : Instant) : res CryptoError (list byte) :=
  start ← ok_or (duration_at_start s) InvalidTai64nTimestamp;
  t ← ok_or (duration_checked_add (duration_since now (instant_at_start s)) start)
        InvalidTai64nTimestamp;
  if 2 ^ 64 <=? t / NANOSECOND + TAI64_BASE then Err InvalidTai64nTimestamp else
  Ok (be_bytes 8 (t / NANOSECOND + TAI64_BASE) ++ be_bytes 4 (t mod NANOSECOND)).

(** ** State *)

Record NoiseParams := mkParams {
  static_public : list byte;
  static_private : list byte;
  peer_static_public : list byte;
  static_shared : list byte;
  sending_mac1_key : list byte;
  preshared_key : option (list byte)
}.

Record InitSentState := mkInitSent {
  is_local_index : Z;
  is_hash : list byte;
  is_chaining_key : list byte;
  is_ephemeral_private : list byte;
  is_time_sent : Instant
}.

Inductive HandshakeState :=
| HsNone
| InitSent (s : InitSentState)
| InitReceived (hash chaining_key peer_ephemeral_public : list byte) (peer_index : Z).

Record Handshake := mkHandshake {
  params : NoiseParams;
  next_index : Z;
  previous : HandshakeState;
  state : HandshakeState;
  last_handshake_timestamp : Tai64N;
  stamper : TimeStamper;
  last_rtt : option Z
}.

Definition set_next_index (n : Z) (h : Handshake) : Handshake :=
  mkHandshake (params h) n (previous h) (state h) (last_handshake_timestamp h) (stamper h) (last_rtt h).
Definition set_states (prev cur : HandshakeState) (h : Handshake) : Handshake :=
  mkHandshake (params h) (next_index h) prev cur (last_handshake_timestamp h) (stamper h) (last_rtt h).
Definition set_timestamp (t : Tai64N) (h : Handshake) : Handshake :=
  mkHandshake (params h) (next_index h) (previous h) (state h) t (stamper h) (last_rtt h).
Definition set_rtt (r : Z) (h : Handshake) : Handshake :=
  mkHandshake (params h) (next_index h) (previous h) (state h) (last_handshake_timestamp h)
    (stamper h) (Some r).

Definition Clock : Type := nat → Instant.

Section Handshake.
Context `{Crypto}.

(** [chaining_key = HMAC(HMAC(ck, data), 0x1)] and the key derived next to it. *)
Definition kdf1 (ck data : list byte) : list byte := b2s_hmac (b2s_hmac ck data) [x01].
Definition kdf2 (ck data : list byte) : list byte * list byte :=
  let temp := b2s_hmac ck data in
  let chaining_key := b2s_hmac temp [x01] in
  (chaining_key, b2s_hmac2 temp chaining_key [x02]).

Definition params_new (private public peer : list byte) (psk : option (list byte)) : NoiseParams :=
  mkParams public private peer (dh private peer) (b2s_hash LABEL_MAC1 peer) psk.

Definition handshake_new (private public peer : list byte) (global_idx : Z)
    (psk : option (list byte)) (st : TimeStamper) : Handshake :=
  mkHandshake (params_new private public peer psk) global_idx HsNone HsNone tai_zero st None.

Definition inc_index : st Handshake CryptoError Z := fun h =>
  let index := next_index h in
  let idx8 := wrap 8 index in
  let n := Z.lor (Z.land index (wrap 32 (Z.lnot 255))) (wrap 8 (idx8 + 1)) in
  (Ok n, set_next_index n h).

(** The initiator's static key, recovered without any state. *)
Definition parse_handshake_anon (private public : list byte) (packet : HandshakeInit)
    : res CryptoError (list byte) :=
  let hash := b2s_hash INITIAL_CHAIN_HASH public in
  let peer_ephemeral_public := hi_ephemeral packet in
  let hash := b2s_hash hash peer_ephemeral_public in
  let chaining_key := kdf1 INITIAL_CHAIN_KEY peer_ephemeral_public in
  let '(chaining_key, key) := kdf2 chaining_key (dh private peer_ephemeral_public) in
  aead_chacha20_open KEY_LEN key 0 (hi_static packet) hash.

(** [append_mac1]: the MAC of everything before it goes into bytes [len-32, len-16). *)
Definition append_mac1 (dst : list byte) : st Handshake CryptoError (list byte) :=
  h ← get;
  let mac1_off := len dst - 32 in
  let mac2_off := len dst - 16 in
  msg ← lift (slice 0 mac1_off dst);
  mac2 ← lift (slice_from mac2_off dst);
  mret (msg ++ b2s_keyed_mac_16 (sending_mac1_key (params h)) msg ++ mac2).

Definition format_handshake_initiation (dst : list byte) (rng : Rng) (clock : Clock)
    : st Handshake CryptoError (list byte) :=
  if len dst <? HANDSHAKE_INIT_SZ then lift (Err DestinationBufferTooSmall) else
  local_index ← inc_index;
  h ← get;
  let p := params h in
  let hash := b2s_hash INITIAL_CHAIN_HASH (peer_static_public p) in
  ephemeral_private ← lift (ok_or (rng 0%nat 32) RandomnessUnavailable);
  let unencrypted_ephemeral := dh_public ephemeral_private in
  let hash := b2s_hash hash unencrypted_ephemeral in
  let chaining_key := kdf1 INITIAL_CHAIN_KEY unencrypted_ephemeral in
  let '(chaining_key, key) := kdf2 chaining_key (dh ephemeral_private (peer_static_public p)) in
  encrypted_static ← lift (aead_chacha20_seal (32 + 16) key 0 (static_public p) hash);
  let hash := b2s_hash hash encrypted_static in
  let '(chaining_key, key) := kdf2 chaining_key (static_shared p) in
  timestamp ← lift (stamp (stamper h) (clock 0%nat));
  encrypted_timestamp ← lift (aead_chacha20_seal (12 + 16) key 0 timestamp hash);
  let hash := b2s_hash hash encrypted_timestamp in
  _ ← modify (fun h => set_states (state h)
        (InitSent (mkInitSent local_index hash chaining_key ephemeral_private (clock 1%nat))) h);
  macs ← lift (slice 116 HANDSHAKE_INIT_SZ dst);
  append_mac1 (le_bytes 4 HANDSHAKE_INIT ++ le_bytes 4 local_index ++ unencrypted_ephemeral ++
               encrypted_static ++ encrypted_timestamp ++ macs).

(** Take the [InitReceived] state, leaving [None] in its place. *)
Definition take_init_received : st Handshake CryptoError (list byte * list byte * list byte * Z) :=
  h ← get;
  _ ← modify (set_states (previous h) HsNone);
  match state h with
  | InitReceived hash chaining_key peer_ephemeral_public peer_index =>
      mret (chaining_key, hash, peer_ephemeral_public, peer_index)
  | _ => lift (Err UnexpectedPacket)
  end.

Definition format_handshake_response (dst : list byte) (rng : Rng)
    : st Handshake CryptoError (list byte * Session) :=
  if len dst <? HANDSHAKE_RESP_SZ then lift (Err DestinationBufferTooSmall) else
  '(chaining_key, hash, peer_ephemeral_public, peer_index) ← take_init_received;
  ephemeral_private ← lift (ok_or (rng 0%nat 32) RandomnessUnavailable);
  local_index ← inc_index;
  h ← get;
  let p := params h in
  let unencrypted_ephemeral := dh_public ephemeral_private in
  let hash := b2s_hash hash unencrypted_ephemeral in
  let chaining_key := kdf1 chaining_key unencrypted_ephemeral in
  let chaining_key := kdf1 chaining_key (dh ephemeral_private peer_ephemeral_public) in
  let chaining_key := kdf1 chaining_key (dh ephemeral_private (peer_static_public p)) in
  let temp := b2s_hmac chaining_key (default (replicate 32 x00) (preshared_key p)) in
  let chaining_key := b2s_hmac temp [x01] in
  let temp2 := b2s_hmac2 temp chaining_key [x02] in
  let key := b2s_hmac2 temp temp2 [x03] in
  let hash := b2s_hash hash temp2 in
  encrypted_nothing ← lift (aead_chacha20_seal 16 key 0 [] hash);
  let temp1 := b2s_hmac chaining_key [] in
  let temp2 := b2s_hmac temp1 [x01] in
  let temp3 := b2s_hmac2 temp1 temp2 [x02] in
  macs ← lift (slice 60 HANDSHAKE_RESP_SZ dst);
  dst ← append_mac1 (le_bytes 4 HANDSHAKE_RESP ++ le_bytes 4 local_index ++ le_bytes 4 peer_index ++
                     unencrypted_ephemeral ++ encrypted_nothing ++ macs);
  session ← lift (session_new local_index peer_index temp2 temp3);
  mret (dst, session).

Definition receive_handshake_initialization (packet : HandshakeInit) (dst : list byte) (rng : Rng)
    : st Handshake CryptoError (list byte * Session) :=
  h ← get;
  let p := params h in
  let hash := b2s_hash INITIAL_CHAIN_HASH (static_public p) in
  let peer_index := hi_sender_idx packet in
  let peer_ephemeral_public := hi_ephemeral packet in
  let hash := b2s_hash hash peer_ephemeral_public in
  let chaining_key := kdf1 INITIAL_CHAIN_KEY peer_ephemeral_public in
  let '(chaining_key, key) := kdf2 chaining_key (dh (static_private p) peer_ephemeral_public) in
  peer_static_public_decrypted ← lift (aead_chacha20_open KEY_LEN key 0 (hi_static packet) hash);
  if bool_decide (peer_static_public p ≠ peer_static_public_decrypted) then lift (Err WrongKey) else
  let hash := b2s_hash hash (hi_static packet) in
  let '(chaining_key, key) := kdf2 chaining_key (static_shared p) in
  timestamp ← lift (aead_chacha20_open TIMESTAMP_LEN key 0 (hi_timestamp packet) hash);
  timestamp ← lift (tai_parse timestamp);
  if negb (after timestamp (last_handshake_timestamp h)) then lift (Err WrongTai64nTimestamp) else
  _ ← modify (set_timestamp timestamp);
  let hash := b2s_hash hash (hi_timestamp packet) in
  _ ← modify (fun h => set_states (state h)
        (InitReceived hash chaining_key peer_ephemeral_public peer_index) h);
  format_handshake_response dst rng.

(** The handshake a response belongs to, and whether it is the previous one. *)
Definition awaiting (receiver_idx : Z) (h : Handshake) : option (InitSentState * bool) :=
  match state h with
  | InitSent s => if is_local_index s =? receiver_idx then Some (s, false) else
      match previous h with
      | InitSent s => if is_local_index s =? receiver_idx then Some (s, true) else None
      | _ => None
      end
  | _ =>
      match previous h with
      | InitSent s => if is_local_index s =? receiver_idx then Some (s, true) else None
      | _ => None
      end
  end.

Definition receive_handshake_response (packet : HandshakeResponse) (clock : Clock)
    : st Handshake CryptoError Session :=
  h ← get;
  '(s, is_previous) ← lift (ok_or (awaiting (hr_receiver_idx packet) h) UnexpectedPacket);
  let p := params h in
  let peer_index := hr_sender_idx packet in
  let local_index := is_local_index s in
  let unencrypted_ephemeral := hr_ephemeral packet in
  let hash := b2s_hash (is_hash s) unencrypted_ephemeral in
  let chaining_key := kdf1 (is_chaining_key s) unencrypted_ephemeral in
  let chaining_key := kdf1 chaining_key (dh (is_ephemeral_private s) unencrypted_ephemeral) in
  let chaining_key := kdf1 chaining_key (dh (static_private p) unencrypted_ephemeral) in
  let temp := b2s_hmac chaining_key (default (replicate 32 x00) (preshared_key p)) in
  let chaining_key := b2s_hmac temp [x01] in
  let temp2 := b2s_hmac2 temp chaining_key [x02] in
  let key := b2s_hmac2 temp temp2 [x03] in
  let hash := b2s_hash hash temp2 in
  _ ← lift (aead_chacha20_open 0 key 0 (hr_nothing packet) hash);
  let temp1 := b2s_hmac chaining_key [] in
  let temp2 := b2s_hmac temp1 [x01] in
  let temp3 := b2s_hmac2 temp1 temp2 [x02] in
  _ ← modify (set_rtt (wrap 32 (duration_since (clock 0%nat) (is_time_sent s) / 1000000)));
  _ ← modify (fun h => if is_previous : bool then set_states HsNone (state h) h
                       else set_states (previous h) HsNone h);
  lift (session_new local_index peer_index temp3 temp2).
End Handshake.

(** ** The transcript both sides compute *)

Section Transcript.
Context `{Crypto}.

(** After the ephemeral key: hash, then chaining key and the key of the static field. *)
Definition t_hash1 (responder e : list byte) : list byte :=
  b2s_hash (b2s_hash INITIAL_CHAIN_HASH responder) e.
Definition t_key1 (e es : list byte) : list byte * list byte := kdf2 (kdf1 INITIAL_CHAIN_KEY e) es.

(** After both static keys: the key of the timestamp field. *)
Definition t_key2 (e es ss : list byte) : list byte * list byte := kdf2 (t_key1 e es).1 ss.
Definition t_hash3 (responder e cs ct : list byte) : list byte :=
  b2s_hash (b2s_hash (t_hash1 responder e) cs) ct.

(** The response: chaining key before the preshared key, then what it yields. *)
Definition r_chain (ck e' ee se : list byte) : list byte := kdf1 (kdf1 (kdf1 ck e') ee) se.
Definition r_temp (ck e' ee se : list byte) (psk : option (list byte)) : list byte :=
  b2s_hmac (r_chain ck e' ee se) (default (replicate 32 x00) psk).
Definition r_ck (temp : list byte) : list byte := b2s_hmac temp [x01].
Definition r_temp2 (temp : list byte) : list byte := b2s_hmac2 temp (r_ck temp) [x02].
Definition r_key (temp : list byte) : list byte := b2s_hmac2 temp (r_temp2 temp) [x03].
Definition r_hash (h e' temp : list byte) : list byte := b2s_hash (b2s_hash h e') (r_temp2 temp).
Definition send_key (temp : list byte) : list byte := b2s_hmac (b2s_hmac (r_ck temp) []) [x01].
Definition recv_key (temp : list byte) : list byte :=
  b2s_hmac2 (b2s_hmac (r_ck temp) []) (send_key temp) [x02].

(** A message whose next-to-last 16 bytes are the MAC of what precedes them. *)
Definition maced (mac_key msg mac2 : list byte) : list byte :=
  msg ++ b2s_keyed_mac_16 mac_key msg ++ mac2.
End Transcript.

Ltac st_step :=
  first
    [ erewrite st_bind_Ok by reflexivity
    | erewrite lift_bind_Ok by eassumption
    | erewrite st_bind_Ok by eassumption ]; cbv zeta.

Definition indexed (h : Handshake) : Z := 
  Z.lor (Z.land (next_index h) (wrap 32 (Z.lnot 255))) (wrap 8 (wrap 8 (next_index h) + 1)).

Section Proofs.
Context `{CryptoLaws}.

Lemma append_mac1_spec msg macs h :
  len macs = 32 →
  append_mac1 (msg ++ macs) h =
  (Ok (maced (sending_mac1_key (params h)) msg (drop 16 macs)), h).
Proof.
  intros Hm. unfold append_mac1. st_step. pose proof (len_nonneg msg).
  assert (slice (E:=CryptoError) 0 (len (msg ++ macs) - 32) (msg ++ macs) = Ok msg) as Hs.
  { rewrite len_app. apply slice_app_pre. lia. }
  assert (slice_from (E:=CryptoError) (len (msg ++ macs) - 16) (msg ++ macs) = Ok (drop 16 macs)) as Hf.
  { rewrite len_app. rewrite <-(take_drop 16 macs) at 2. rewrite (assoc_L (++)).
    apply slice_from_app. unfold len in *. rewrite length_app, length_take. lia. }
  by do 2 st_step.
Qed.

Lemma len_kdf2 ck d : len (kdf2 ck d).1 = 32 ∧ len (kdf2 ck d).2 = 32.
Proof. cbn. by rewrite len_b2s_hmac, len_b2s_hmac2. Qed.

(** The initiation message and the state it leaves. *)
Lemma format_initiation_spec dst rng clock h ea ts :
  HANDSHAKE_INIT_SZ ≤ len dst → rng 0%nat 32 = Some ea → len (static_public (params h)) = 32 →
  stamp (stamper h) (clock 0%nat) = Ok ts → len ts = 12 →
  let p := params h in
  let e := dh_public ea in
  let es := dh ea (peer_static_public p) in
  ∃ cs ct mac2,
    len cs = 48 ∧ len ct = 28 ∧ len mac2 = 16 ∧
    aead_chacha20_open KEY_LEN (t_key1 e es).2 0 cs (t_hash1 (peer_static_public p) e) =
      Ok (static_public p) ∧
    aead_chacha20_open TIMESTAMP_LEN (t_key2 e es (static_shared p)).2 0 ct
      (b2s_hash (t_hash1 (peer_static_public p) e) cs) = Ok ts ∧
    format_handshake_initiation dst rng clock h =
    (Ok (maced (sending_mac1_key p)
           (le_bytes 4 HANDSHAKE_INIT ++ le_bytes 4 (indexed h) ++ e ++ cs ++ ct) mac2),
     set_states (state h)
       (InitSent (mkInitSent (indexed h) (t_hash3 (peer_static_public p) e cs ct)
          (t_key2 e es (static_shared p)).1 ea (clock 1%nat)))
       (set_next_index (indexed h) h)).
Proof.
  intros Hd Hr Hpk Hts Htl p e es. change (len (static_public p) = 32) in Hpk.
  unfold HANDSHAKE_INIT_SZ in *.
  destruct (len_kdf2 (kdf1 INITIAL_CHAIN_KEY e) es) as [_ Hk1].
  destruct (len_kdf2 (t_key1 e es).1 (static_shared p)) as [_ Hk2].
  destruct (seal_open (32 + 16) _ 0 (static_public p) (t_hash1 (peer_static_public p) e) Hk1)
    as (cs & Hcs & Hcsl & Hcso); [lia|unfold AEAD_MAX; lia|].
  destruct (seal_open (12 + 16) _ 0 ts (b2s_hash (t_hash1 (peer_static_public p) e) cs) Hk2)
    as (ct & Hct & Hctl & Hcto); [lia|unfold AEAD_MAX; lia|].
  rewrite Hpk in Hcso. rewrite Htl in Hcto.
  assert (∃ macs, slice (E:=CryptoError) 116 HANDSHAKE_INIT_SZ dst = Ok macs ∧ len macs = 32)
    as (macs & Hmacs & Hml).
  { eexists. split; [by apply slice_Ok; unfold HANDSHAKE_INIT_SZ; lia|].
    unfold len in *. rewrite length_take, length_drop. unfold HANDSHAKE_INIT_SZ. lia. }
  exists cs, ct, (drop 16 macs). split_and!; try done.
  { unfold len in *. rewrite length_drop. lia. }
  unfold format_handshake_initiation. rewrite (proj2 (Z.ltb_ge _ _)) by (unfold HANDSHAKE_INIT_SZ; lia).
  do 2 st_step. erewrite lift_bind_Ok by (by rewrite Hr). cbv zeta.
  cbn [kdf2 params set_next_index stamper]. do 5 st_step.
  pose proof (append_mac1_spec (le_bytes 4 HANDSHAKE_INIT ++ le_bytes 4 (indexed h) ++ e ++ cs ++ ct)
    macs) as HM. rewrite <-!(assoc_L (++)) in HM. by apply HM.
Qed.

Lemma session_new_ok l r k1 k2 :
  len k1 = 32 → len k2 = 32 →
  session_new l r k1 k2 = Ok (mkSession l r k1 k2 0 validator_default).
Proof. intros H1 H2. unfold session_new, unbound_key. by rewrite H1, H2. Qed.

(** The response message, in the state an accepted initiation leaves. *)
Lemma format_response_spec dst rng h hash ck pe peer eb :
  HANDSHAKE_RESP_SZ ≤ len dst → rng 0%nat 32 = Some eb →
  state h = InitReceived hash ck pe peer →
  let p := params h in
  let e' := dh_public eb in
  let temp := r_temp ck e' (dh eb pe) (dh eb (peer_static_public p)) (preshared_key p) in
  ∃ n mac2, len n = 16 ∧ len mac2 = 16 ∧
    aead_chacha20_open 0 (r_key temp) 0 n (r_hash hash e' temp) = Ok [] ∧
    format_handshake_response dst rng h =
    (Ok (maced (sending_mac1_key p)
           (le_bytes 4 HANDSHAKE_RESP ++ le_bytes 4 (indexed h) ++ le_bytes 4 peer ++ e' ++ n) mac2,
         mkSession (indexed h) peer (send_key temp) (recv_key temp) 0 validator_default),
     set_next_index (indexed h) (set_states (previous h) HsNone h)).
Proof.
  intros Hd Hr Hst p e' temp. unfold HANDSHAKE_RESP_SZ in *.
  assert (len (r_key temp) = 32) as Hk by apply len_b2s_hmac2.
  destruct (seal_open 16 _ 0 [] (r_hash hash e' temp) Hk) as (n & Hn & Hnl & Hno);
    [done|unfold AEAD_MAX; rewrite len_nil; lia|].
  assert (∃ macs, slice (E:=CryptoError) 60 HANDSHAKE_RESP_SZ dst = Ok macs ∧ len macs = 32)
    as (macs & Hmacs & Hml).
  { eexists. split; [by apply slice_Ok; unfold HANDSHAKE_RESP_SZ; lia|].
    unfold len in *. rewrite length_take, length_drop. unfold HANDSHAKE_RESP_SZ. lia. }
  exists n, (drop 16 macs). split_and!; try done.
  { unfold len in *. rewrite length_drop. lia. }
  unfold format_handshake_response. rewrite (proj2 (Z.ltb_ge _ _)) by (unfold HANDSHAKE_RESP_SZ; lia).
  erewrite (st_bind_Ok take_init_received)
    by (unfold take_init_received; do 2 st_step; rewrite Hst; reflexivity). cbv beta iota zeta.
  erewrite lift_bind_Ok by (by rewrite Hr). cbv zeta.
  do 4 st_step.
  pose proof (append_mac1_spec (le_bytes 4 HANDSHAKE_RESP ++ le_bytes 4 (indexed h) ++
    le_bytes 4 peer ++ e' ++ n) macs) as HM. rewrite <-!(assoc_L (++)) in HM.
  erewrite st_bind_Ok by (by apply HM).
  erewrite lift_bind_Ok by (by apply session_new_ok; [apply len_b2s_hmac|apply len_b2s_hmac2]).
  reflexivity.
Qed.

(** A good initiation is answered in the state that records it. *)
Lemma receive_initialization_spec pkt dst rng h ts t :
  let p := params h in
  let e := hi_ephemeral pkt in
  let es := dh (static_private p) e in
  let h1 := t_hash1 (static_public p) e in
  aead_chacha20_open KEY_LEN (t_key1 e es).2 0 (hi_static pkt) h1 = Ok (peer_static_public p) →
  aead_chacha20_open TIMESTAMP_LEN (t_key2 e es (static_shared p)).2 0 (hi_timestamp pkt)
    (b2s_hash h1 (hi_static pkt)) = Ok ts →
  tai_parse ts = Ok t → after t (last_handshake_timestamp h) = true →
  receive_handshake_initialization pkt dst rng h =
  format_handshake_response dst rng
    (set_states (state h)
       (InitReceived (t_hash3 (static_public p) e (hi_static pkt) (hi_timestamp pkt))
          (t_key2 e es (static_shared p)).1 e (hi_sender_idx pkt))
       (set_timestamp t h)).
Proof.
  intros p e es h1 Ho1 Ho2 Ht Ha. unfold receive_handshake_initialization. st_step.
  cbn [kdf2]. st_step. rewrite bool_decide_eq_false_2 by naive_solver.
  do 2 st_step. rewrite Ha. cbn [negb]. by do 2 st_step.
Qed.

Lemma receive_response_spec ri li e' n clock h hash ck ea t0 prev :
  awaiting li h = Some (mkInitSent li hash ck ea t0, prev) →
  let p := params h in
  let temp := r_temp ck e' (dh ea e') (dh (static_private p) e') (preshared_key p) in
  aead_chacha20_open 0 (r_key temp) 0 n (r_hash hash e' temp) = Ok [] →
  ∃ h', receive_handshake_response (mkResp ri li e' n) clock h =
    (Ok (mkSession li ri (recv_key temp) (send_key temp) 0 validator_default), h').
Proof.
  intros Hw p temp Ho. unfold receive_handshake_response. st_step.
  erewrite lift_bind_Ok by (cbn [hr_receiver_idx]; by rewrite Hw). cbv beta iota zeta. do 3 st_step.
  unfold lift. rewrite session_new_ok by (apply len_b2s_hmac || apply len_b2s_hmac2).
  eexists. reflexivity.
Qed.

Lemma len_stamp s now ts : stamp s now = Ok ts → len ts = 12.
Proof.
  unfold stamp. intros (start & _ & H')%bind_Ok_inv. apply bind_Ok_inv in H' as (t & _ & H').
  case_if; [done|]. apply Ok_inj in H' as <-. by rewrite len_app, !len_be_bytes.
Qed.

Lemma tai_parse_total ts : len ts = 12 → ∃ t, tai_parse ts = Ok t.
Proof.
  intros Hl. unfold tai_parse. rewrite Hl. cbn [Z.ltb Z.compare Pos.compare Pos.compare_cont].
  unfold slice_from. rewrite !slice_Ok by lia. cbn [mbind res_bind]. eauto.
Qed.

Lemma indexed_spec h :
  fits 32 (next_index h) →
  indexed h = next_index h - next_index h mod 256 + (next_index h + 1) mod 256.
Proof.
  intros Hf. unfold indexed. change 255 with (Z.ones 8). rewrite land_clear_low by (done || lia).
  unfold wrap. change (2 ^ 8) with 256. rewrite Zplus_mod_idemp_l.
  apply (lor_disjoint 8); [lia| |apply Z.mod_pos_bound; lia].
  change (2 ^ 8) with 256. rewrite Zminus_mod_idemp_r, Z.sub_diag. done.
Qed.

Lemma indexed_fits h : fits 32 (next_index h) → fits 32 (indexed h).
Proof.
  intros Hf. rewrite indexed_spec by done. unfold fits in *. change (2 ^ 32) with 4294967296 in *.
  Z.to_euclidean_division_equations. lia.
Qed.

(** Parsing a message that carries its MACs. *)
Lemma parse_maced_init k idx e cs ct mac2 :
  fits 32 idx → len e = 32 → len cs = 48 → len ct = 28 → len mac2 = 16 →
  parse_incoming_packet
    (maced k (le_bytes 4 HANDSHAKE_INIT ++ le_bytes 4 idx ++ e ++ cs ++ ct) mac2) =
  Ok (PInit (mkInit idx e cs ct)).
Proof.
  intros. set (msg := le_bytes 4 HANDSHAKE_INIT ++ le_bytes 4 idx ++ e ++ cs ++ ct).
  pose proof (parse_init_packet idx e cs ct (b2s_keyed_mac_16 k msg ++ mac2)) as Hp.
  unfold init_packet in Hp. unfold maced, msg at 1. rewrite <-!(assoc_L (++)).
  apply Hp; try done. rewrite len_app, len_keyed_mac. lia.
Qed.

Lemma parse_maced_resp k idx peer e n mac2 :
  fits 32 idx → fits 32 peer → len e = 32 → len n = 16 → len mac2 = 16 →
  parse_incoming_packet
    (maced k (le_bytes 4 HANDSHAKE_RESP ++ le_bytes 4 idx ++ le_bytes 4 peer ++ e ++ n) mac2) =
  Ok (PResp (mkResp idx peer e n)).
Proof.
  intros. set (msg := le_bytes 4 HANDSHAKE_RESP ++ le_bytes 4 idx ++ le_bytes 4 peer ++ e ++ n).
  pose proof (parse_resp_packet idx peer e n (b2s_keyed_mac_16 k msg ++ mac2)) as Hp.
  unfold resp_packet in Hp. unfold maced, msg at 1. rewrite <-!(assoc_L (++)).
  apply Hp; try done. rewrite len_app, len_keyed_mac. lia.
Qed.

(** Both runs of a handshake, with the shape of the two messages. *)
Lemma handshake_run sa sb psk hi hr dst dst' rngi rngr clock clock' ts t :
  params hi = params_new sa (dh_public sa) (dh_public sb) psk →
  params hr = params_new sb (dh_public sb) (dh_public sa) psk →
  fits 32 (next_index hi) → fits 32 (next_index hr) → rng_ok rngi → rng_ok rngr →
  HANDSHAKE_INIT_SZ ≤ len dst → HANDSHAKE_RESP_SZ ≤ len dst' →
  stamp (stamper hi) (clock 0%nat) = Ok ts → tai_parse ts = Ok t →
  after t (last_handshake_timestamp hr) = true →
  ∃ msg mac2 p hi1 msg' mac2' sr hr1 q si hi2,
    let init := maced (b2s_hash LABEL_MAC1 (dh_public sb)) msg mac2 in
    let resp := maced (b2s_hash LABEL_MAC1 (dh_public sa)) msg' mac2' in
    len mac2 = 16 ∧ len mac2' = 16 ∧
    format_handshake_initiation dst rngi clock hi = (Ok init, hi1) ∧
    parse_incoming_packet init = Ok (PInit p) ∧
    parse_handshake_anon sb (dh_public sb) p = Ok (dh_public sa) ∧
    receive_handshake_initialization p dst' rngr hr = (Ok (resp, sr), hr1) ∧
    parse_incoming_packet resp = Ok (PResp q) ∧
    receive_handshake_response q clock' hi1 = (Ok si, hi2) ∧
    linked si sr ∧ linked sr si ∧ session_ok si ∧ session_ok sr ∧
    sending_key_counter si = 0 ∧ sending_key_counter sr = 0 ∧ receiving_key_counter si = validator_default ∧
    receiving_key_counter sr = validator_default ∧
    receiving_index si = indexed hi ∧ receiving_index sr = indexed hr.
Proof.
  intros Hpi Hpr Hni Hnr Hri Hrr Hd Hd' Hts Ht Ha.
  destruct (Hri 0%nat 32) as (ea & Hea & _); [lia|]. destruct (Hrr 0%nat 32) as (eb & Heb & _); [lia|].
  pose proof (len_stamp _ _ _ Hts) as Htl.
  destruct (format_initiation_spec dst rngi clock hi ea ts) as
    (cs & ct & mac2 & Hcs & Hct & Hm2 & Ho1 & Ho2 & Hinit); try done.
  { rewrite Hpi. apply len_public. }
  rewrite Hpi in Ho1, Ho2, Hinit. cbn [params_new peer_static_public static_public static_shared] in Ho1, Ho2, Hinit.
  rewrite (dh_comm ea sb) in Ho1, Ho2, Hinit. rewrite (dh_comm sa sb) in Ho2, Hinit.
  set (pkt := mkInit (indexed hi) (dh_public ea) cs ct).
  pose proof (receive_initialization_spec pkt dst' rngr hr ts t) as Hrecv. cbv zeta in Hrecv.
  rewrite Hpr in Hrecv. specialize (Hrecv Ho1 Ho2 Ht Ha).
  match type of Hrecv with _ = format_handshake_response _ _ ?h => set (hr' := h) in Hrecv end.
  assert (params hr' = params_new sb (dh_public sb) (dh_public sa) psk) as Hpr' by exact Hpr.
  destruct (format_response_spec dst' rngr hr' _ _ _ _ eb Hd' Heb eq_refl) as
    (n & mac2' & Hn & Hm2' & Ho3 & Hresp). rewrite Hpr' in Ho3, Hresp.
  unfold pkt in Ho3, Hresp.
  cbn [params_new peer_static_public preshared_key sending_mac1_key hi_sender_idx hi_ephemeral hi_static
    hi_timestamp static_private static_public static_shared] in Ho3, Hresp.
  rewrite (dh_comm eb ea), (dh_comm eb sa) in Ho3, Hresp.
  change (indexed hr') with (indexed hr) in Hresp. rewrite Hresp in Hrecv.
  match type of Hinit with _ = (_, ?h) => set (hi1 := h) in Hinit end.
  pose proof (indexed_fits hi Hni) as Hfi. pose proof (indexed_fits hr Hnr) as Hfr.
  pose proof (receive_response_spec (indexed hr) (indexed hi) (dh_public eb) n clock' hi1
    (t_hash3 (dh_public sb) (dh_public ea) cs ct)
    (t_key2 (dh_public ea) (dh sb (dh_public ea)) (dh sb (dh_public sa))).1 ea (clock 1%nat) false) as Hsi.
  change (params hi1) with (params hi) in Hsi. rewrite Hpi in Hsi.
  cbn [params_new preshared_key static_private] in Hsi. destruct Hsi as (hi2 & Hsi); [|exact Ho3|].
  { unfold awaiting, hi1. cbn [state set_states is_local_index]. by rewrite Z.eqb_refl. }
  eexists _, mac2, pkt, hi1, _, mac2', _, _, _, _, hi2. cbv zeta.
  split_and!; [exact Hm2|exact Hm2'|exact Hinit| |exact Ho1|exact Hrecv| |exact Hsi|..].
  1: by apply parse_maced_init; [..|apply len_public|done|done|done].
  1: by apply parse_maced_resp; [..|apply len_public|done|done].
  1, 2: by split.
  1, 2: split_and!; first [done|apply len_b2s_hmac|apply len_b2s_hmac2].
  all: reflexivity.
Qed.

(** The handshake completes and both ends agree: between an initiator and a
    responder that hold each other's public key and the same preshared key, with a
    timestamp newer than the last one seen, the initiation parses and is accepted, the
    response parses and is accepted, and the two sessions are linked both ways: each
    sends under the key and to the index the other receives with, counters at zero
    and empty replay windows. *)
Lemma handshake_completes sa sb psk hi hr dst dst' rngi rngr clock clock' ts t :
  params hi = params_new sa (dh_public sa) (dh_public sb) psk →
  params hr = params_new sb (dh_public sb) (dh_public sa) psk →
  fits 32 (next_index hi) → fits 32 (next_index hr) → rng_ok rngi → rng_ok rngr →
  HANDSHAKE_INIT_SZ ≤ len dst → HANDSHAKE_RESP_SZ ≤ len dst' →
  stamp (stamper hi) (clock 0%nat) = Ok ts → tai_parse ts = Ok t →
  after t (last_handshake_timestamp hr) = true →
  ∃ init p hi1 resp sr hr1 q si hi2,
    format_handshake_initiation dst rngi clock hi = (Ok init, hi1) ∧
    parse_incoming_packet init = Ok (PInit p) ∧
    receive_handshake_initialization p dst' rngr hr = (Ok (resp, sr), hr1) ∧
    parse_incoming_packet resp = Ok (PResp q) ∧
    receive_handshake_response q clock' hi1 = (Ok si, hi2) ∧
    linked si sr ∧ linked sr si ∧ session_ok si ∧ session_ok sr ∧
    sending_key_counter si = 0 ∧ sending_key_counter sr = 0 ∧ receiving_key_counter si = validator_default ∧
    receiving_key_counter sr = validator_default.
Proof.
  intros Hpi Hpr Hni Hnr Hri Hrr Hd Hd' Hts Ht Ha.
  destruct (handshake_run sa sb psk hi hr dst dst' rngi rngr clock clock' ts t) as
    (msg & mac2 & p & hi1 & msg' & mac2' & sr & hr1 & q & si & hi2 & Hrun); [done..|].
  destruct Hrun as (_ & _ & ? & ? & _ & ? & ? & ? & ? & ? & ? & ? & ? & ? & ? & ? & _). eauto 25.
Qed.

Lemma preserves_inc_index {T} (P : Handshake → T) :
  (∀ n h, P (set_next_index n h) = P h) → preserves P inc_index.
Proof. intros HP s r s' [= _ <-]. apply HP. Qed.

Lemma preserves_response {T} (P : Handshake → T) dst rng :
  (∀ n h, P (set_next_index n h) = P h) → (∀ a b h, P (set_states a b h) = P h) →
  preserves P (format_handshake_response dst rng).
Proof.
  intros Hn Hs. pose proof (preserves_inc_index P Hn).
  unfold format_handshake_response, take_init_received, append_mac1. preserves.
Qed.

(** What an accepted initiation shows, and how it changes the state. *)
Lemma receive_initialization_inv pkt dst rng h r h' :
  receive_handshake_initialization pkt dst rng h = (Ok r, h') →
  let p := params h in
  let e := hi_ephemeral pkt in
  let es := dh (static_private p) e in
  let h1 := t_hash1 (static_public p) e in
  ∃ ts t,
    aead_chacha20_open KEY_LEN (t_key1 e es).2 0 (hi_static pkt) h1 = Ok (peer_static_public p) ∧
    aead_chacha20_open TIMESTAMP_LEN (t_key2 e es (static_shared p)).2 0 (hi_timestamp pkt)
      (b2s_hash h1 (hi_static pkt)) = Ok ts ∧
    tai_parse ts = Ok t ∧ after t (last_handshake_timestamp h) = true ∧
    params h' = params h ∧ last_handshake_timestamp h' = t.
Proof.
  unfold receive_handshake_initialization.
  intros (h0 & ? & [= <- <-] & Hr)%st_bind_Ok_inv. cbn [kdf2] in Hr.
  apply st_bind_Ok_inv in Hr as (pk & ? & [= Hk <-] & Hr).
  destruct (bool_decide _) eqn:Hpk; [done|]. apply bool_decide_eq_false, dec_stable in Hpk. subst pk.
  apply st_bind_Ok_inv in Hr as (ts & ? & [= Hts <-] & Hr).
  apply st_bind_Ok_inv in Hr as (t & ? & [= Ht <-] & Hr).
  destruct (after t _) eqn:Ha; [|done]. cbn [negb] in Hr.
  apply st_bind_Ok_inv in Hr as ([] & ? & [= <-] & Hr).
  apply st_bind_Ok_inv in Hr as ([] & ? & [= <-] & Hr). exists ts, t.
  pose proof (preserves_response params dst rng) as Hp1.
  pose proof (preserves_response last_handshake_timestamp dst rng) as Hp2.
  split_and!; try done; [by eapply Hp1 in Hr|by eapply Hp2 in Hr].
Qed.

(** Initiations cannot be replayed: once an initiation has been accepted, the
    same message is refused with [WrongTai64nTimestamp] and changes nothing, in every
    state of that peer whose last timestamp is not older than the one just accepted;
    and accepting an initiation only ever moves that timestamp forward. *)
Lemma handshake_init_no_replay pkt dst rng h r h' :
  receive_handshake_initialization pkt dst rng h = (Ok r, h') →
  after (last_handshake_timestamp h') (last_handshake_timestamp h) = true ∧
  ∀ dst' rng' h'', params h'' = params h' →
    after (last_handshake_timestamp h') (last_handshake_timestamp h'') = false →
    receive_handshake_initialization pkt dst' rng' h'' = (Err WrongTai64nTimestamp, h'').
Proof.
  intros (ts & t & Ho1 & Ho2 & Ht & Ha & Hp & Hl)%receive_initialization_inv.
  rewrite Hl. split; [done|]. intros dst' rng' h'' Hp'' Ha''. rewrite <-Hp, <-Hp'' in Ho1, Ho2.
  unfold receive_handshake_initialization. st_step. cbn [kdf2]. st_step.
  rewrite bool_decide_eq_false_2 by naive_solver. do 2 st_step. by rewrite Ha''.
Qed.
End Proofs.

(** ** Witnesses: a handshake over the toy primitives *)

Section Example.
Definition secret_a : list byte := replicate 32 x0a.
Definition secret_b : list byte := replicate 32 x0b.
Definition toy_clock : Clock := fun _ => mkInstant (Some (1010, 5)) 0.
Definition toy_stamper : TimeStamper := mkStamper (Some 0) (mkInstant (Some (10, 0)) 0).
Definition toy_stamp : list byte := be_bytes 8 (1000 + TAI64_BASE) ++ be_bytes 4 5.
Definition hs_a : Handshake :=
  handshake_new secret_a (dh_public secret_a) (dh_public secret_b) 65536 None toy_stamper.
Definition hs_b : Handshake :=
  handshake_new secret_b (dh_public secret_b) (dh_public secret_a) 131072 None toy_stamper.
Definition toy_dst : list byte := replicate 148 x00.

(** The initiation [hs_a] sends, and [hs_b]'s run on it. *)
Definition toy_init : HandshakeInit :=
  match parse_incoming_packet
    (unwrap_or (format_handshake_initiation toy_dst toy_rng toy_clock hs_a).1 []) with
  | Ok (PInit p) => p
  | _ => mkInit 0 [] [] []
  end.

Definition toy_receive := receive_handshake_initialization toy_init toy_dst toy_rng hs_b.

Definition toy_response : list byte * Session := unwrap_or toy_receive.1 ([], bob).

Definition toy_after : Handshake := toy_receive.2.

Lemma toy_receive_ok :
  receive_handshake_initialization toy_init toy_dst toy_rng hs_b = (Ok toy_response, toy_after).
Proof. vm_compute. reflexivity. Qed.

Lemma toy_after_same :
  after (last_handshake_timestamp toy_after) (last_handshake_timestamp toy_after) = false.
Proof. vm_compute. reflexivity. Qed.

End Example.

(** ** Invariant: indices stay 32-bit, nothing panics *)

Definition state_ok (s : HandshakeState) : Prop :=
  match s with
  | HsNone => True
  | InitSent s => fits 32 (is_local_index s)
  | InitReceived _ _ _ peer_index => fits 32 peer_index
  end.

Definition hs_ok (h : Handshake) : Prop :=
  fits 32 (next_index h) ∧ state_ok (state h) ∧ state_ok (previous h).

Section Invariant.
Context `{CryptoLaws}.

(** A new session between valid indices. *)
Definition fresh_session (s : Session) : Prop := session_ok s ∧ received s ∅.

Lemma no_panic_seal size k c d ad : no_panic (aead_chacha20_seal size k c d ad).
Proof.
  unfold aead_chacha20_seal. apply no_panic_bind; [unfold unbound_key; by case_if|intros ? _].
  case_if; [done|]. apply no_panic_bind; [eauto with res_db|by intros [] _].
Qed.

Lemma no_panic_open size k c d ad : no_panic (aead_chacha20_open size k c d ad).
Proof.
  unfold aead_chacha20_open. case_if; [done|].
  apply no_panic_bind; [eauto with res_db|intros ? _]. by case_if.
Qed.

Lemma no_panic_stamp s now : no_panic (stamp s now).
Proof.
  unfold stamp. apply no_panic_bind; [eauto with res_db|intros ? _].
  apply no_panic_bind; [eauto with res_db|intros ? _]. by case_if.
Qed.

Lemma no_panic_tai buf : no_panic (tai_parse buf).
Proof.
  unfold tai_parse. case_if; [done|]. bool_prop.
  repeat (apply no_panic_bind; [eauto with res_db lia|intros ? _]). done.
Qed.
#[local] Hint Resolve no_panic_seal no_panic_open no_panic_stamp no_panic_tai : res_db.

Lemma triple_inc_index : triple hs_ok inc_index (fits 32).
Proof.
  intros h r h' (Hn & Hs & Hp) [= <- <-].
  pose proof (indexed_fits h Hn : fits 32 (Z.lor _ _)) as Hi. done.
Qed.

Lemma triple_append_mac1 dst : 32 ≤ len dst → triple hs_ok (append_mac1 dst) (fun _ => True).
Proof.
  intros Hd. unfold append_mac1. triple_step.
  apply (triple_bind _ _ _ (fun _ => True)); [apply triple_lift; eauto with res_db lia|intros ? _].
  apply (triple_bind _ _ _ (fun _ => True)); [apply triple_lift; eauto with res_db lia|intros ? _].
  by apply triple_ret.
Qed.

Lemma triple_initiation dst rng clock :
  triple hs_ok (format_handshake_initiation dst rng clock) (fun _ => True).
Proof.
  unfold format_handshake_initiation. case_if; [by apply triple_lift|]. bool_prop.
  unfold HANDSHAKE_INIT_SZ in *.
  apply (triple_bind _ _ _ (fits 32)); [apply triple_inc_index|intros li Hli].
  cbn [kdf2]. do 5 triple_step.
  apply (triple_bind _ _ _ (fun _ => True)).
  { apply triple_modify. intros h (? & ? & ?). done. }
  intros _ _. apply (triple_bind _ _ _ (fun m => len m = 148 - 116)).
  { apply triple_lift, outcome_slice; lia. }
  intros macs Hm. apply triple_append_mac1. rewrite !len_app.
  repeat match goal with |- context [len ?l] => pose proof (len_nonneg l); generalize dependent (len l); intros end.
  lia.
Qed.

Lemma triple_take_init :
  triple hs_ok take_init_received (fun '(_, _, _, peer_index) => fits 32 peer_index).
Proof.
  intros h r h' (Hn & Hs & Hp) Hr. unfold take_init_received, get, modify, mbind, st_bind, lift in Hr.
  destruct (state h) as [|s|hash ck pe pi] eqn:E; injection Hr as <- <-; done.
Qed.

Lemma outcome_session_new l r k1 k2 :
  fits 32 l → fits 32 r → len k1 = 32 → len k2 = 32 →
  outcome fresh_session (session_new l r k1 k2).
Proof.
  intros. rewrite session_new_ok by done. cbn. split; [|exact window_rel_default].
  by split_and!.
Qed.

Lemma triple_response dst rng :
  triple hs_ok (format_handshake_response dst rng) (fun '(_, s) => fresh_session s).
Proof.
  unfold format_handshake_response. case_if; [by apply triple_lift|]. bool_prop.
  unfold HANDSHAKE_RESP_SZ in *.
  apply (triple_bind _ _ _ _ _ triple_take_init). intros [[[ck hash] pe] pi] Hpi.
  triple_step. apply (triple_bind _ _ _ (fits 32)); [apply triple_inc_index|intros li Hli].
  do 2 triple_step. apply (triple_bind _ _ _ (fun m => len m = 92 - 60)).
  { apply triple_lift, outcome_slice; lia. }
  intros macs Hm. apply (triple_bind _ _ _ (fun _ => True)).
  { apply triple_append_mac1. rewrite !len_app.
    repeat match goal with |- context [len ?l] => pose proof (len_nonneg l); generalize dependent (len l); intros end.
    lia. }
  intros pkt _. eapply triple_bind; [apply triple_lift, outcome_session_new|by intros s Hs; apply triple_ret].
  all: first [done|apply len_b2s_hmac|apply len_b2s_hmac2].
Qed.

Lemma triple_receive_init p dst rng :
  fits 32 (hi_sender_idx p) →
  triple hs_ok (receive_handshake_initialization p dst rng) (fun '(_, s) => fresh_session s).
Proof.
  intros Hp. unfold receive_handshake_initialization. triple_step. cbn [kdf2]. triple_step.
  case_if; [by apply triple_lift|]. do 2 triple_step. case_if; [by apply triple_lift|].
  apply (triple_bind _ _ _ (fun _ => True)).
  { apply triple_modify. intros h (? & ? & ?). done. }
  intros _ _. apply (triple_bind _ _ _ (fun _ => True)).
  { apply triple_modify. intros h (? & ? & ?). done. }
  intros _ _. apply triple_response.
Qed.

Lemma triple_receive_response p clock :
  fits 32 (hr_sender_idx p) → triple hs_ok (receive_handshake_response p clock) fresh_session.
Proof.
  intros Hp. unfold receive_handshake_response.
  apply (triple_bind _ _ _ hs_ok); [by apply triple_get|intros h (Hn & Hs & Hpv)].
  apply (triple_bind _ _ _ (fun '(s, _) => fits 32 (is_local_index s))).
  { apply triple_lift. unfold awaiting. destruct (state h), (previous h); cbn in *;
      repeat case_if; done. }
  intros [s prev] Hl. triple_step.
  apply (triple_bind _ _ _ (fun _ => True)).
  { apply triple_modify. intros h' (? & ? & ?). done. }
  intros _ _. apply (triple_bind _ _ _ (fun _ => True)).
  { apply triple_modify. intros h' (? & ? & ?). by destruct prev. }
  intros _ _. apply triple_lift, outcome_session_new; first [done|apply len_b2s_hmac|apply len_b2s_hmac2].
Qed.
End Invariant.
