(* ===== verification/Noise.v ===== *)
(** * The tunnel state machine (engine/crypto/fp-crypto-noise/src/noise.rs, verifier.rs)

    [Noise] owns one handshake and a ring of eight sessions, decides which session
    sends, and dispatches verified packets.  Output buffers are given by their bytes
    ([dst]); a returned packet is the slice of the buffer the Rust code returns. *)

From S2P Require Import Prelude.
From S2P Require Import Words.
From S2P Require Import NetAddr.
From S2P Require Import CryptoError.
From S2P Require Import Crypto.
From S2P Require Import NoisePacket.
From S2P Require Import ReplayWindow.
From S2P Require Import Session.
From S2P Require Import Instant.
From S2P Require Import Handshake.

Definition IPV4_MIN_HEADER_SIZE : Z := 20.
Definition IPV4_LEN_OFF : Z := 2.
Definition IPV4_SRC_IP_OFF : Z := 12.
Definition IPV4_IP_SZ : Z := 4.
Definition IPV6_MIN_HEADER_SIZE : Z := 40.
Definition IPV6_LEN_OFF : Z := 4.
Definition IPV6_SRC_IP_OFF : Z := 8.
Definition IPV6_IP_SZ : Z := 16.
Definition IP_LEN_SZ : Z := 2.
Definition MAX_QUEUE_DEPTH : Z := 256.

Inductive NoiseResult :=
| Done
| WriteToNetwork (packet : list byte)
| WriteToTunnel (packet : list byte) (src : IpAddr).

Record Noise := mkNoise {
  handshake : Handshake;
  sessions : list (option Session);
  current : Z;
  next_session : option Z;
  packet_queue : list (list byte);
  mac1_key : list byte
}.

Definition set_handshake (h : Handshake) (n : Noise) : Noise :=
  mkNoise h (sessions n) (current n) (next_session n) (packet_queue n) (mac1_key n).
Definition set_slot (i : Z) (s : Session) (n : Noise) : Noise :=
  mkNoise (handshake n) (<[Z.to_nat (i mod N_SESSIONS) := Some s]> (sessions n)) (current n)
    (next_session n) (packet_queue n) (mac1_key n).
Definition set_current (c : Z) (nx : option Z) (n : Noise) : Noise :=
  mkNoise (handshake n) (sessions n) c nx (packet_queue n) (mac1_key n).
Definition set_queue (q : list (list byte)) (n : Noise) : Noise :=
  mkNoise (handshake n) (sessions n) (current n) (next_session n) q (mac1_key n).

(** [self.sessions\[i % N_SESSIONS\]]. *)
Definition slot (i : Z) (n : Noise) : option Session :=
  default None (sessions n !! Z.to_nat (i mod N_SESSIONS)).

(** A computation on the handshake, run inside the tunnel. *)
Definition on_handshake {A} (m : st Handshake CryptoError A) : st Noise CryptoError A := fun n =>
  let '(r, h) := m (handshake n) in (r, set_handshake h n).

(** A computation on the session in slot [i]; [None] there is [NoCurrentSession]. *)
Definition on_session {A} (i : Z) (m : st Session CryptoError A) : st Noise CryptoError A := fun n =>
  match slot i n with
  | Some s => let '(r, s) := m s in (r, set_slot i s n)
  | None => (Err NoCurrentSession, n)
  end.

Section Noise.
Context `{Crypto}.

(** ** Verifier *)

Definition verifier_new (public_key : list byte) : list byte := b2s_hash LABEL_MAC1 public_key.

Definition verify_mac1 (key src : list byte) : res CryptoError unit :=
  msg ← slice 0 (len src - 32) src;
  macs ← slice_from (len src - 32) src;
  mac1 ← slice 0 16 macs;
  if bool_decide (b2s_keyed_mac_16 key msg ≠ mac1) then Err InvalidMac else Ok tt.

Definition verify_packet (key src : list byte) : res CryptoError Packet :=
  packet ← parse_incoming_packet src;
  match packet with
  | PInit _ | PResp _ => _ ← verify_mac1 key src; Ok packet
  | PData _ => Ok packet
  end.

(** ** Noise *)

Definition noise_new (private peer : list byte) (psk : option (list byte)) (index : Z)
    (verifier : option (list byte)) (stp : TimeStamper) : Noise :=
  let public := dh_public private in
  mkNoise (handshake_new private public peer (wrap 32 (Z.shiftl index 8)) psk stp)
    (replicate (Z.to_nat N_SESSIONS) None) 0 None [] (default (verifier_new public) verifier).

Definition queue_packet (packet : list byte) : st Noise CryptoError unit :=
  modify (fun n => if len (packet_queue n) <? MAX_QUEUE_DEPTH
                   then set_queue (packet_queue n ++ [packet]) n else n).

Definition noise_format_initiation (dst : list byte) (rng : Rng) (clock : Clock)
    : st Noise CryptoError NoiseResult :=
  packet ← on_handshake (format_handshake_initiation dst rng clock);
  mret (WriteToNetwork packet).

Definition encapsulate (src dst : list byte) (rng : Rng) (clock : Clock)
    : st Noise CryptoError NoiseResult :=
  n ← get;
  match slot (current n) n with
  | Some _ =>
      packet ← on_session (current n) (format_packet_data src (len dst) rng);
      mret (WriteToNetwork packet)
  | None =>
      _ ← queue_packet src;
      noise_format_initiation dst rng clock
  end.

(** The length field and source address of the decrypted IP packet. *)
Definition ip_header (packet : list byte) : res CryptoError (Z * IpAddr) :=
  b0 ← index packet 0;
  if (Z.shiftr (b2z b0) 4 =? 4) && (IPV4_MIN_HEADER_SIZE <=? len packet) then
    len_bytes ← slice IPV4_LEN_OFF (IPV4_LEN_OFF + IP_LEN_SZ) packet;
    addr_bytes ← slice IPV4_SRC_IP_OFF (IPV4_SRC_IP_OFF + IPV4_IP_SZ) packet;
    Ok (be_val len_bytes, V4 (be_val addr_bytes))
  else if (Z.shiftr (b2z b0) 4 =? 6) && (IPV6_MIN_HEADER_SIZE <=? len packet) then
    len_bytes ← slice IPV6_LEN_OFF (IPV6_LEN_OFF + IP_LEN_SZ) packet;
    addr_bytes ← slice IPV6_SRC_IP_OFF (IPV6_SRC_IP_OFF + IPV6_IP_SZ) packet;
    Ok (be_val len_bytes + IPV6_MIN_HEADER_SIZE, V6 (be_val addr_bytes))
  else Err InvalidPacket.

Definition validate_decapsulated_packet (packet : list byte) : res CryptoError NoiseResult :=
  if len packet =? 0 then Ok Done else
  '(computed_len, src) ← ip_header packet;
  if len packet <? computed_len then Err InvalidPacket else
  truncated ← slice 0 computed_len packet;
  Ok (WriteToTunnel truncated src).

Definition handle_data (packet : PacketData) (dst : list byte) : st Noise CryptoError NoiseResult :=
  let r_idx := pd_receiver_idx packet in
  decapsulated ← on_session r_idx (receive_packet_data packet (len dst));
  _ ← modify (fun n => if bool_decide (next_session n = Some r_idx) then set_current r_idx None n else n);
  lift (validate_decapsulated_packet decapsulated).

Definition handle_handshake_init (p : HandshakeInit) (dst : list byte) (rng : Rng)
    : st Noise CryptoError NoiseResult :=
  '(packet, session) ← on_handshake (receive_handshake_initialization p dst rng);
  let index := local_index session in
  _ ← modify (set_slot index session);
  _ ← modify (fun n => set_current (current n) (Some index) n);
  mret (WriteToNetwork packet).

(** Whether the session the tunnel sends with is still in its slot. *)
Definition current_live (n : Noise) : bool :=
  match slot (current n) n with Some s => local_index s =? current n | None => false end.

Definition handle_handshake_response (p : HandshakeResponse) (clock : Clock)
    : st Noise CryptoError NoiseResult :=
  session ← on_handshake (receive_handshake_response p clock);
  let l_idx := local_index session in
  _ ← modify (set_slot l_idx session);
  _ ← modify (fun n =>
        let distance := wrap 8 (wrap 8 l_idx - wrap 8 (current n)) in
        if negb (current_live n) || (negb (distance =? 0) && (distance <? 128))
        then set_current l_idx None n else n);
  mret Done.

Definition handle_verified_packet (packet : Packet) (dst : list byte) (rng : Rng) (clock : Clock)
    : st Noise CryptoError NoiseResult :=
  match packet with
  | PInit p => handle_handshake_init p dst rng
  | PResp p => handle_handshake_response p clock
  | PData p => handle_data p dst
  end.

Definition decapsulate (datagram dst : list byte) (rng : Rng) (clock : Clock)
    : st Noise CryptoError NoiseResult :=
  n ← get;
  packet ← lift (verify_packet (mac1_key n) datagram);
  handle_verified_packet packet dst rng clock.

(** ** Invariant *)

(** Eight slots, each holding a session whose index belongs there, whose keys have
    the right size and whose replay window is in order. *)
Definition slot_ok (i : nat) (s : Session) : Prop :=
  session_ok s ∧ (Z.to_nat (receiving_index s mod N_SESSIONS) = i) ∧ ∃ seen, received s seen.

Definition noise_ok (n : Noise) : Prop :=
  length (sessions n) = Z.to_nat N_SESSIONS ∧ hs_ok (handshake n) ∧
  len (packet_queue n) ≤ MAX_QUEUE_DEPTH ∧
  ∀ i s, sessions n !! i = Some (Some s) → slot_ok i s.

Context `{!CryptoLaws}.

Lemma triple_on_handshake {A} (m : st Handshake CryptoError A) Q :
  triple hs_ok m Q → triple noise_ok (on_handshake m) Q.
Proof.
  intros Hm n r n' (Hl & Hh & Hq & Hs). unfold on_handshake.
  destruct (m (handshake n)) as [ra h] eqn:E. intros [= <- <-].
  destruct (Hm _ _ _ Hh E) as [? ?]. done.
Qed.

Lemma slot_lookup n i s :
  slot i n = Some s → sessions n !! Z.to_nat (i mod N_SESSIONS) = Some (Some s).
Proof. unfold slot. destruct (_ !! _) as [[]|]; cbn; congruence. Qed.

Lemma noise_ok_set_slot n i s :
  noise_ok n → slot_ok (Z.to_nat (i mod N_SESSIONS)) s → noise_ok (set_slot i s n).
Proof.
  intros (Hl & Hh & Hq & Hs) Hok. split_and!; try done.
  - cbn. by rewrite length_insert.
  - intros j s'. cbn. rewrite list_lookup_insert. case_decide as Hj; [|apply Hs].
    intros [= <-]. destruct Hj as [<- _]. done.
Qed.

Lemma slot_upper i : (Z.to_nat (i mod N_SESSIONS) < Z.to_nat N_SESSIONS)%nat.
Proof. pose proof (Z.mod_pos_bound i N_SESSIONS). unfold N_SESSIONS in *. lia. Qed.

Lemma triple_on_session {A} i (m : st Session CryptoError A) Q :
  triple (slot_ok (Z.to_nat (i mod N_SESSIONS))) m Q → triple noise_ok (on_session i m) Q.
Proof.
  intros Hm n r n' Hn. unfold on_session. destruct (slot i n) as [s|] eqn:E;
    [|by intros [= <- <-]]. apply slot_lookup in E. pose proof Hn as (_ & _ & _ & Hs).
  destruct (m s) as [ra s'] eqn:Em. intros [= <- <-].
  destruct (Hm _ _ _ (Hs _ _ E) Em) as [? ?]. split; [by apply noise_ok_set_slot|done].
Qed.

Lemma triple_format i src dst_len rng :
  triple (slot_ok i) (format_packet_data src dst_len rng) (fun _ => True).
Proof.
  intros s r s' (Hok & Hi & seen & Hr) Hf. pose proof (no_panic_format src dst_len rng s) as Hp.
  rewrite Hf in Hp. split; [|by destruct r].
  apply format_state in Hf as [-> | ->]; [by split_and!; eauto|].
  destruct Hok as (? & ? & ? & ? & ?). split; [split_and!; try done; apply wrap_fits; lia|].
  split; [done|]. by exists seen.
Qed.

Lemma triple_receive i p dst_len :
  counter_ok (pd_counter p) →
  triple (slot_ok i) (receive_packet_data p dst_len) (fun _ => True).
Proof.
  intros Hc s r s' (Hok & Hi & seen & Hr) Hf. pose proof (no_panic_receive p dst_len s seen Hr Hc) as Hp.
  rewrite Hf in Hp. split; [|by destruct r].
  pose proof Hf as (sn & Hsn & _)%(receive_window _ _ _ _ _ seen Hr Hc).
  apply receive_fields in Hf as [v ->]. split_and!; [done|done|by exists sn].
Qed.

Lemma no_panic_validate p : no_panic (validate_decapsulated_packet p).
Proof.
  unfold validate_decapsulated_packet, ip_header, IPV4_MIN_HEADER_SIZE, IPV4_LEN_OFF, IPV4_SRC_IP_OFF,
    IPV4_IP_SZ, IPV6_MIN_HEADER_SIZE, IPV6_LEN_OFF, IPV6_SRC_IP_OFF, IPV6_IP_SZ, IP_LEN_SZ.
  pose proof (len_nonneg p). case_if; [done|]. bool_prop.
  apply (no_panic_bind _ _).
  - apply no_panic_bind; [eauto with res_db lia|intros b _].
    repeat case_if; bool_prop; [..|done];
      repeat (apply no_panic_bind; [eauto with res_db lia|intros ? _]); done.
  - intros [l ip] Hh. case_if; [done|]. bool_prop.
    assert (0 ≤ l).
    { apply bind_Ok_inv in Hh as (b & _ & Hh). repeat case_if; [..|done]; res_inv;
        match goal with |- context [be_val ?x] => pose proof (be_val_range x) end; lia. }
    apply no_panic_bind; [eauto with res_db lia|done].
Qed.

Lemma noise_ok_set_current n c nx : noise_ok n → noise_ok (set_current c nx n).
Proof. by intros (? & ? & ? & ?). Qed.

Lemma fresh_slot_ok s : fresh_session s → slot_ok (Z.to_nat (local_index s mod N_SESSIONS)) s.
Proof. intros [? ?]. split_and!; [done|done|by exists ∅]. Qed.

Lemma triple_store s :
  fresh_session s → triple (E:=CryptoError) noise_ok (modify (set_slot (local_index s) s)) (fun _ => True).
Proof. intros Hs. apply triple_modify. intros n Hn. by apply noise_ok_set_slot, fresh_slot_ok. Qed.

Lemma triple_current (f : Noise → bool) c nx :
  triple (E:=CryptoError) noise_ok (modify (fun n => if f n then set_current c nx n else n)) (fun _ => True).
Proof. apply triple_modify. intros n Hn. case_if; [by apply noise_ok_set_current|done]. Qed.

Lemma triple_handle_verified p dst rng clock :
  packet_ok p → (∀ d, p = PData d → counter_ok (pd_counter d)) →
  triple noise_ok (handle_verified_packet p dst rng clock) (fun _ => True).
Proof.
  intros Hp Hc. destruct p as [i|q|d]; cbn in *.
  - apply (triple_bind _ _ _ (fun '(_, s) => fresh_session s)).
    { by apply triple_on_handshake, triple_receive_init. }
    intros [pkt s] Hs. apply (triple_bind _ _ _ (fun _ => True)); [by apply triple_store|intros _ _].
    apply (triple_bind _ _ _ (fun _ => True)); [|intros _ _; by apply triple_ret].
    apply triple_modify. intros n. apply noise_ok_set_current.
  - apply (triple_bind _ _ _ fresh_session).
    { apply triple_on_handshake, triple_receive_response, Hp. }
    intros s Hs. apply (triple_bind _ _ _ (fun _ => True)); [by apply triple_store|intros _ _].
    apply (triple_bind _ _ _ (fun _ => True)); [|intros _ _; by apply triple_ret].
    apply triple_current.
  - apply (triple_bind _ _ _ (fun _ => True)).
    { apply triple_on_session, triple_receive. by apply Hc. }
    intros m _. apply (triple_bind _ _ _ (fun _ => True)); [apply triple_current|intros _ _].
    apply triple_lift, outcome_no_panic, no_panic_validate.
Qed.

Lemma no_panic_verify key src : no_panic (verify_packet key src).
Proof.
  unfold verify_packet. apply no_panic_bind; [apply no_panic_parse|]. intros p Hp.
  assert (packet_ok p) as _ by (by eapply parse_packet_ok).
  assert (∀ i q, p = PInit i ∨ p = PResp q → 32 ≤ len src) as Hl.
  { intros i q Hpq. unfold parse_incoming_packet in Hp. case_if; [done|].
    apply bind_Ok_inv in Hp as (ty & _ & Hp). unfold HANDSHAKE_INIT_SZ, HANDSHAKE_RESP_SZ, DATA_MIN_SZ in Hp.
    repeat case_if; bool_prop; try lia; try done. }
  assert (32 ≤ len src → no_panic (verify_mac1 key src)) as Hm.
  { intros Hs. unfold verify_mac1. apply no_panic_bind; [eauto with res_db lia|intros ? _].
    apply no_panic_bind; [eauto with res_db lia|intros macs Hmacs]. apply len_slice in Hmacs.
    apply no_panic_bind; [eauto with res_db lia|intros ? _]. by case_if. }
  destruct p as [i|q|d]; [..|done]; (apply no_panic_bind; [apply Hm|done]).
  - by apply (Hl i (mkResp 0 0 [] [])); left.
  - by apply (Hl (mkInit 0 [] [] []) q); right.
Qed.

(** The tunnel withstands any datagram: from a well-formed state, processing an
    arbitrary byte string never panics and leaves a well-formed state (sessions in
    their slots, keys of the right size, replay windows in order, queue bounded), as
    long as the counter of a data packet is not within 2048 of 2^64. *)
Lemma noise_decapsulate_safe datagram dst rng clock n r n' :
  noise_ok n →
  (∀ d, parse_incoming_packet datagram = Ok (PData d) → counter_ok (pd_counter d)) →
  decapsulate datagram dst rng clock n = (r, n') → noise_ok n' ∧ no_panic r.
Proof.
  intros Hn Hc Hd. assert (triple noise_ok (decapsulate datagram dst rng clock) (fun _ => True)) as Ht.
  { unfold decapsulate. apply (triple_bind _ _ _ (fun _ => True)); [by apply triple_get|intros m _].
    apply (triple_bind _ _ _ (fun p => parse_incoming_packet datagram = Ok p)).
    - apply triple_lift. destruct (verify_packet _ _) as [p|e|] eqn:Hv; [|done|by apply no_panic_verify in Hv].
      apply bind_Ok_inv in Hv as (p' & Hp & Hv). cbn.
      destruct p'; [apply bind_Ok_inv in Hv as (? & _ & Hv)..|]; by apply Ok_inj in Hv as <-.
    - intros p Hp. apply triple_handle_verified; [by eapply parse_packet_ok|].
      intros d ->. by apply Hc. }
  destruct (Ht _ _ _ Hn Hd) as [? Ho]. split; [done|]. by destruct r.
Qed.

Lemma triple_encapsulate src dst rng clock :
  triple noise_ok (encapsulate src dst rng clock) (fun _ => True).
Proof.
  unfold encapsulate. apply (triple_bind _ _ _ (fun _ => True)); [by apply triple_get|intros m _].
  destruct (slot _ _).
  - apply (triple_bind _ _ _ (fun _ => True)); [apply triple_on_session, triple_format|].
    intros pkt _. by apply triple_ret.
  - apply (triple_bind _ _ _ (fun _ => True)).
    { apply triple_modify. intros n0 Hn0. case_if; [|done]. bool_prop.
      destruct Hn0 as (? & ? & Hq & ?). split_and!; try done. cbn. rewrite len_app.
      change (len [src]) with 1. lia. }
    intros _ _. apply (triple_bind _ _ _ (fun _ => True)).
    { apply triple_on_handshake, triple_initiation. }
    intros pkt _. by apply triple_ret.
Qed.

(** Sending is safe too: from a well-formed state, [encapsulate] never panics and
    leaves a well-formed state, whatever the packet and the buffer, and without an
    established session it queues at most 256 packets. *)
Lemma noise_encapsulate_safe src dst rng clock n r n' :
  noise_ok n → encapsulate src dst rng clock n = (r, n') → noise_ok n' ∧ no_panic r.
Proof. intros Hn He. destruct (triple_encapsulate _ _ _ _ _ _ _ Hn He) as [? Ho]. split; [done|]. by destruct r. Qed.

Lemma noise_ok_new private peer psk index v stp : noise_ok (noise_new private peer psk index v stp).
Proof.
  split_and!; cbn; [done|by split_and!; [apply wrap_fits; lia|..]|rewrite len_nil; unfold MAX_QUEUE_DEPTH; lia|].
  intros i s. rewrite lookup_replicate. by intros [? _].
Qed.

Lemma slot_set_same n i s :
  length (sessions n) = Z.to_nat N_SESSIONS → slot i (set_slot i s n) = Some s.
Proof.
  intros Hl. pose proof (slot_upper i). unfold slot, set_slot. cbn [sessions].
  by rewrite list_lookup_insert_eq by lia.
Qed.

Lemma slot_set_other n i j s : i mod N_SESSIONS ≠ j mod N_SESSIONS → slot j (set_slot i s n) = slot j n.
Proof.
  intros Hij. unfold slot, set_slot. cbn [sessions]. rewrite list_lookup_insert_ne; [done|].
  pose proof (Z.mod_pos_bound i N_SESSIONS). pose proof (Z.mod_pos_bound j N_SESSIONS).
  unfold N_SESSIONS in *. intros ?%Z2Nat.inj; lia.
Qed.

(** Sending and receiving through the slots. *)
Lemma encapsulate_session src dst rng clock n s pkt s' :
  slot (current n) n = Some s → format_packet_data src (len dst) rng s = (Ok pkt, s') →
  encapsulate src dst rng clock n = (Ok (WriteToNetwork pkt), set_slot (current n) s' n).
Proof.
  intros Hs Hf. unfold encapsulate. erewrite st_bind_Ok by done. rewrite Hs.
  erewrite st_bind_Ok by (unfold on_session; by rewrite Hs, Hf). done.
Qed.

Lemma handle_data_session p dst n s m s' :
  slot (pd_receiver_idx p) n = Some s → receive_packet_data p (len dst) s = (Ok m, s') →
  handle_data p dst n =
  let n1 := set_slot (pd_receiver_idx p) s' n in
  (validate_decapsulated_packet m,
   if bool_decide (next_session n = Some (pd_receiver_idx p))
   then set_current (pd_receiver_idx p) None n1 else n1).
Proof.
  intros Hs Hf. unfold handle_data. erewrite st_bind_Ok by (unfold on_session; by rewrite Hs, Hf). done.
Qed.

(** Only fresh confirmation moves the sending session: a data packet changes which
    session the tunnel sends with only when it decrypts on the session that was
    waiting for confirmation; a packet that fails, or arrives on any other slot,
    leaves the choice alone. *)
Lemma noise_no_rollback p dst n r n' :
  handle_data p dst n = (r, n') →
  (current n' = current n ∧ next_session n' = next_session n) ∨
  (next_session n = Some (pd_receiver_idx p) ∧ current n' = pd_receiver_idx p ∧
   next_session n' = None ∧
   ∃ s m s', slot (pd_receiver_idx p) n = Some s ∧
     receive_packet_data p (len dst) s = (Ok m, s')).
Proof.
  intros Hd. destruct (slot (pd_receiver_idx p) n) as [s|] eqn:Hs.
  - destruct (receive_packet_data p (len dst) s) as [[m|e|] s'] eqn:Hf.
    + rewrite (handle_data_session _ _ _ _ _ _ Hs Hf) in Hd. cbv zeta in Hd.
      case_bool_decide as Hnx; injection Hd as _ <-; [right|by left].
      split_and!; [done..|]. by exists s, m, s'.
    + unfold handle_data, on_session, mbind, st_bind in Hd. rewrite Hs, Hf in Hd.
      injection Hd as _ <-. by left.
    + unfold handle_data, on_session, mbind, st_bind in Hd. rewrite Hs, Hf in Hd.
      injection Hd as _ <-. by left.
  - unfold handle_data, on_session, mbind, st_bind in Hd. rewrite Hs in Hd.
    injection Hd as _ <-. by left.
Qed.
End Noise.

(** ** Witnesses *)

Definition toy_noise : Noise :=
  noise_new secret_a (dh_public secret_b) None 5 None toy_stamper.

