(* ===== verification/Cryptor.v ===== *)
(** * The cryptor interface and its Noise implementation
      (engine/crypto/fp-crypto/src/crypto.rs, raw_crypto.rs,
       engine/crypto/fp-crypto-noise/src/crypto.rs)

    [Cryptor] is the trait, [RawCryptor] the type-erased wrapper that enforces the
    order of calls, [noise_cryptor] the implementation over [Noise].  What the code
    takes from its environment (randomness, clocks, the process-wide peer counter) is
    an [Env] passed to each call. *)

From S2P Require Import Prelude.
From S2P Require Import Words.
From S2P Require Import NetAddr.
From S2P Require Import CryptoError.
From S2P Require Import Crypto.
From S2P Require Import NoisePacket.
From S2P Require Import ReplayWindow.
From S2P Require Import Session.
From S2P Require Import Instant.
From S2P Require Import Handshake.
From S2P Require Import Noise.

Record Env := mkEnv {
  e_rng : Rng;
  e_clock : Clock;
  e_stamper : TimeStamper;
  e_peer_index : Z              (* what [PEER_INDEX.fetch_add(1)] returns *)
}.

Class Cryptor (C : Type) := {
  init_handshake : Env → list byte → list byte → res CryptoError (C * list byte);
  handle_handshake : Env → list byte → list byte → list byte →
    res CryptoError (C * option (list byte));
  handle_response : Env → list byte → st C CryptoError unit;
  on_send : Env → list byte → list byte → st C CryptoError (list byte);
  on_recv : Env → list byte → list byte → st C CryptoError (list byte);
  get_peer_public : C → res CryptoError (list byte);
  rekey_init : Env → list byte → st C CryptoError (list byte);
  rekey_respond : Env → list byte → list byte → st C CryptoError (option (list byte))
}.

(** ** The type-erased wrapper *)

Section Raw.
Context {C : Type} `{Cryptor C}.

(** [data: Option<NonNull<()>>]: the boxed cryptor, if a handshake has started. *)
Definition RawCryptor : Type := option C.

Definition raw_new : RawCryptor := None.

(** [Clone] gives a cryptor that has not started. *)
Definition raw_clone (_ : RawCryptor) : RawCryptor := None.

Definition raw_init_handshake (env : Env) (own_prikey node_pubkey : list byte)
    : st RawCryptor CryptoError (list byte) := fun raw =>
  match raw with
  | Some _ => (Err AlreadyHandshake, raw)
  | None =>
      match init_handshake env own_prikey node_pubkey with
      | Ok (this, hs) => (Ok hs, Some this)
      | Err e => (Err e, raw)
      | Panic => (Panic, raw)
      end
  end.

Definition raw_handle_handshake (env : Env) (own_prikey own_pubkey packet : list byte)
    : st RawCryptor CryptoError (option (list byte)) := fun raw =>
  match raw with
  | Some _ => (Err AlreadyHandshake, raw)
  | None =>
      match handle_handshake env own_prikey own_pubkey packet with
      | Ok (this, hs) => (Ok hs, Some this)
      | Err e => (Err e, raw)
      | Panic => (Panic, raw)
      end
  end.

(** [let this = self.data.ok_or(MustHandshakeFirst)?] and the call through the vtable. *)
Definition with_data {A} (m : st C CryptoError A) : st RawCryptor CryptoError A := fun raw =>
  match raw with
  | Some this => let '(r, this) := m this in (r, Some this)
  | None => (Err MustHandshakeFirst, raw)
  end.

Definition raw_handle_response (env : Env) (packet : list byte) := with_data (handle_response env packet).
Definition raw_on_send (env : Env) (packet dst : list byte) := with_data (on_send env packet dst).
Definition raw_on_recv (env : Env) (packet dst : list byte) := with_data (on_recv env packet dst).
Definition raw_rekey_init (env : Env) (dst : list byte) := with_data (rekey_init env dst).
Definition raw_rekey_respond (env : Env) (packet dst : list byte) :=
  with_data (rekey_respond env packet dst).
Definition raw_get_peer_public : st RawCryptor CryptoError (list byte) :=
  with_data (fun c => (get_peer_public c, c)).

(** The calls a client makes, in any order; [true] when the call succeeds. *)
Inductive RawOp :=
| OpInit (env : Env) (own_prikey node_pubkey : list byte)
| OpHandle (env : Env) (own_prikey own_pubkey packet : list byte)
| OpResponse (env : Env) (packet : list byte)
| OpSend (env : Env) (packet dst : list byte)
| OpRecv (env : Env) (packet dst : list byte)
| OpPeer
| OpRekeyInit (env : Env) (dst : list byte)
| OpRekeyRespond (env : Env) (packet dst : list byte).

Definition starts (op : RawOp) : bool :=
  match op with OpInit _ _ _ | OpHandle _ _ _ _ => true | _ => false end.

Definition raw_step (op : RawOp) (raw : RawCryptor) : bool * RawCryptor :=
  match op with
  | OpInit env a b => let '(r, raw) := raw_init_handshake env a b raw in (is_ok r, raw)
  | OpHandle env a b p => let '(r, raw) := raw_handle_handshake env a b p raw in (is_ok r, raw)
  | OpResponse env p => let '(r, raw) := raw_handle_response env p raw in (is_ok r, raw)
  | OpSend env p dst => let '(r, raw) := raw_on_send env p dst raw in (is_ok r, raw)
  | OpRecv env p dst => let '(r, raw) := raw_on_recv env p dst raw in (is_ok r, raw)
  | OpPeer => let '(r, raw) := raw_get_peer_public raw in (is_ok r, raw)
  | OpRekeyInit env dst => let '(r, raw) := raw_rekey_init env dst raw in (is_ok r, raw)
  | OpRekeyRespond env p dst => let '(r, raw) := raw_rekey_respond env p dst raw in (is_ok r, raw)
  end.

Fixpoint raw_run (ops : list RawOp) (raw : RawCryptor) : list bool :=
  match ops with
  | [] => []
  | op :: ops => let '(ok, raw) := raw_step op raw in ok :: raw_run ops raw
  end.
End Raw.
Arguments RawCryptor C : clear implicits.

(** ** The Noise implementation *)

Section NoiseCryptor.
Context `{Crypto}.

(** [next_session_base()]; [n] is the counter before the increment. *)
Definition next_session_base (n : Z) : Z := wrap 32 (Z.shiftl (Z.land n 16777215) 8).

Definition noise_init_handshake (env : Env) (own_prikey node_pubkey : list byte)
    : res CryptoError (Noise * list byte) :=
  let public_key := dh_public own_prikey in
  let noise := noise_new own_prikey node_pubkey None (next_session_base (e_peer_index env))
                 (Some (verifier_new public_key)) (e_stamper env) in
  let '(r, noise) := on_handshake (format_handshake_initiation
    (replicate (Z.to_nat HANDSHAKE_INIT_SZ) x00) (e_rng env) (e_clock env)) noise in
  packet ← r;
  Ok (noise, packet).

Definition noise_handle_handshake (env : Env) (own_prikey own_pubkey packet : list byte)
    : res CryptoError (Noise * option (list byte)) :=
  let verifier := verifier_new own_pubkey in
  packet ← map_err (fun _ => InvalidMac) (verify_packet verifier packet);
  pkey ← match packet with
         | PInit p => parse_handshake_anon own_prikey own_pubkey p
         | _ => Err InvalidPacket
         end;
  let noise := noise_new own_prikey pkey None (next_session_base (e_peer_index env))
                 (Some verifier) (e_stamper env) in
  let '(r, noise) := handle_verified_packet packet (replicate (Z.to_nat HANDSHAKE_INIT_SZ) x00)
                       (e_rng env) (e_clock env) noise in
  result ← r;
  Ok (noise, match result with WriteToNetwork packet => Some packet | _ => None end).

Definition noise_handle_response (env : Env) (packet : list byte) : st Noise CryptoError unit :=
  p ← lift (parse_incoming_packet packet);
  match p with
  | PResp p => _ ← handle_handshake_response p (e_clock env); mret tt
  | _ => lift (Err UnexpectedPacket)
  end.

Definition noise_on_send (env : Env) (packet dst : list byte) : st Noise CryptoError (list byte) :=
  r ← encapsulate packet dst (e_rng env) (e_clock env);
  match r with WriteToNetwork pkt => mret pkt | _ => lift (Err UnexpectedPacket) end.

(** [self.noise.verifier.verify_packet(packet).map_err(|_| UnexpectedPacket)?] *)
Definition noise_verify (packet : list byte) : st Noise CryptoError Packet :=
  n ← get;
  lift (map_err (fun _ => UnexpectedPacket) (verify_packet (mac1_key n) packet)).

Definition noise_on_recv (env : Env) (packet dst : list byte) : st Noise CryptoError (list byte) :=
  parsed_packet ← noise_verify packet;
  r ← handle_verified_packet parsed_packet dst (e_rng env) (e_clock env);
  match r with
  | WriteToTunnel packet _ => mret packet
  | Done => mret []
  | WriteToNetwork _ => lift (Err UnexpectedPacket)
  end.

Definition noise_get_peer_public (n : Noise) : res CryptoError (list byte) :=
  Ok (peer_static_public (params (handshake n))).

Definition noise_rekey_init (env : Env) (dst : list byte) : st Noise CryptoError (list byte) :=
  on_handshake (format_handshake_initiation dst (e_rng env) (e_clock env)).

Definition noise_rekey_respond (env : Env) (packet dst : list byte)
    : st Noise CryptoError (option (list byte)) :=
  parsed ← noise_verify packet;
  r ← handle_verified_packet parsed dst (e_rng env) (e_clock env);
  mret (match r with WriteToNetwork resp => Some resp | _ => None end).

(** [peek_init_pubkey]: whose initiation is this? *)
Definition peek_init_pubkey (own_priv own_pub packet : list byte) : option (list byte) :=
  match verify_packet (verifier_new own_pub) packet with
  | Ok (PInit p) =>
      match parse_handshake_anon own_priv own_pub p with Ok k => Some k | _ => None end
  | _ => None
  end.

#[export] Instance noise_cryptor : Cryptor Noise := {
  init_handshake := noise_init_handshake;
  handle_handshake := noise_handle_handshake;
  handle_response := noise_handle_response;
  on_send := noise_on_send;
  on_recv := noise_on_recv;
  get_peer_public := noise_get_peer_public;
  rekey_init := noise_rekey_init;
  rekey_respond := noise_rekey_respond
}.
End NoiseCryptor.

(** ** Proofs *)

(** An environment that works: random bytes available, clock readings the kernel can
    give, and a date that fits a TAI64N timestamp. *)
Definition env_ok (env : Env) : Prop :=
  rng_ok (e_rng env) ∧ 0 ≤ e_peer_index env ∧
  instant_ok (e_clock env 0%nat) ∧ instant_ok (instant_at_start (e_stamper env)) ∧
  ∃ d, duration_at_start (e_stamper env) = Some d ∧ 0 ≤ d ∧
    (duration_since (e_clock env 0%nat) (instant_at_start (e_stamper env)) + d) / NANOSECOND + TAI64_BASE
      < 2 ^ 64.

Section RawProofs.
Context {C : Type} `{Cryptor C}.

(** What a call does to the presence of the cryptor. *)
Definition step_spec (starting ok : bool) (raw raw' : RawCryptor C) : Prop :=
  (is_Some raw → is_Some raw') ∧
  (ok = true → is_Some raw' ∧ if starting then raw = None else is_Some raw) ∧
  (raw = None → is_Some raw' → ok = true ∧ starting = true).

Lemma with_data_spec {A} (m : st C CryptoError A) raw :
  step_spec false (is_ok (with_data m raw).1) raw (with_data m raw).2.
Proof.
  unfold step_spec, with_data. destruct raw as [c|]; cbn; [|by split_and!; try done; intros _ [? ?]].
  destruct (m c) as [r c']. cbn. split_and!; eauto; done.
Qed.

(** A call that starts a handshake succeeds only from nothing and leaves something;
    any other call succeeds only when something is there, and keeps it. *)
Lemma raw_step_spec op (raw : RawCryptor C) :
  step_spec (starts op) (raw_step op raw).1 raw (raw_step op raw).2.
Proof.
  assert (∀ (A : Type) (x : res CryptoError A * RawCryptor C) b,
    step_spec b (is_ok x.1) raw x.2 →
    step_spec b (let '(r, raw) := x in (is_ok r, raw)).1 raw (let '(r, raw) := x in (is_ok r, raw)).2)
    as Hlet by (by intros A [r raw'] b).
  destruct op; cbn [raw_step starts]; apply Hlet; try apply with_data_spec.
  - unfold raw_init_handshake. destruct raw; [|destruct (init_handshake _ _ _) as [[? ?]|?|]];
      split_and!; cbn; eauto; try done; by intros _ [? ?].
  - unfold raw_handle_handshake. destruct raw; [|destruct (handle_handshake _ _ _ _) as [[? ?]|?|]];
      split_and!; cbn; eauto; try done; by intros _ [? ?].
Qed.

Lemma raw_run_started ops (raw : RawCryptor C) i op :
  is_Some raw → ops !! i = Some op → starts op = true → raw_run ops raw !! i = Some false.
Proof.
  revert raw i. induction ops as [|o ops IH]; intros raw i Hr Hop Hst; [done|]. cbn.
  pose proof (raw_step_spec o raw) as Hs. destruct (raw_step o raw) as [ok raw'].
  destruct Hs as (Hk & Ho & _). destruct i as [|i]; cbn in *; [|by apply IH; [apply Hk|..]].
  injection Hop as ->. destruct ok; [|done]. destruct Ho as [_ Ho]; [done|].
  rewrite Hst in Ho. subst. by destruct Hr.
Qed.

(** Successes of a run: handshake starts only from nothing, the rest only after one. *)
Lemma raw_run_order ops : ∀ (raw : RawCryptor C) i op,
  raw_run ops raw !! i = Some true → ops !! i = Some op →
  if starts op then
    ∀ j op', (i < j)%nat → ops !! j = Some op' → starts op' = true → raw_run ops raw !! j = Some false
  else is_Some raw ∨ ∃ j op', (j < i)%nat ∧ ops !! j = Some op' ∧ starts op' = true ∧
      raw_run ops raw !! j = Some true.
Proof.
  induction ops as [|o ops IH]; intros raw i op Hi Hop; [done|]. cbn [raw_run] in *.
  pose proof (raw_step_spec o raw) as Hs. destruct (raw_step o raw) as [ok raw'].
  destruct Hs as (Hk & Ho & Hn). cbn in Hk, Ho, Hn. destruct i as [|i]; cbn in Hi, Hop.
  - injection Hi as ->. injection Hop as ->. destruct Ho as [Hr' Ho]; [done|].
    destruct (starts op); [|by left]. intros [|j] op' Hj Hop' Hst; [lia|]. cbn.
    by apply (raw_run_started ops raw' j op').
  - specialize (IH raw' i op Hi Hop). destruct (starts op).
    + intros [|j] op' Hj Hop' Hst; [lia|]. cbn. apply (IH j op'); [lia|done..].
    + destruct IH as [Hr'|(j & op' & Hj & Hop' & Hst & Hrun)].
      * destruct raw as [c|]; [by left; eauto|]. right. exists 0%nat, o.
        destruct (Hn eq_refl Hr') as [-> Hst]. split_and!; [lia|done..].
      * right. exists (S j), op'. split_and!; [lia|done..].
Qed.

(** The wrapper enforces the protocol order, for every cryptor and every sequence
    of calls on a new [RawCryptor]: once a call that starts a handshake has succeeded
    every later one is refused, and any other call succeeds only after such a call. *)
Lemma raw_protocol_order ops i op :
  raw_run (C:=C) ops raw_new !! i = Some true → ops !! i = Some op →
  if starts op then
    ∀ j op', (i < j)%nat → ops !! j = Some op' → starts op' = true →
      raw_run (C:=C) ops raw_new !! j = Some false
  else ∃ j op', (j < i)%nat ∧ ops !! j = Some op' ∧ starts op' = true ∧
      raw_run (C:=C) ops raw_new !! j = Some true.
Proof.
  intros Hi Hop. pose proof (raw_run_order ops raw_new i op Hi Hop) as Hr.
  destruct (starts op); [done|]. by destruct Hr as [[? ?]|?].
Qed.
End RawProofs.

Section Proofs.
Context `{CryptoLaws}.

Lemma session_base_spec n :
  0 ≤ n → wrap 32 (Z.shiftl (next_session_base n) 8) = (n mod 2 ^ 16) * 2 ^ 16.
Proof.
  intros Hn. unfold next_session_base, wrap. change 16777215 with (Z.ones 24).
  rewrite Z.land_ones by lia. rewrite !Z.shiftl_mul_pow2 by lia.
  change (2 ^ 8) with 256. change (2 ^ 16) with 65536. change (2 ^ 24) with 16777216.
  change (2 ^ 32) with 4294967296. Z.to_euclidean_division_equations. lia.
Qed.

(** The first session of a peer lives in slot 1, never in slot 0. *)
Lemma first_index h n :
  next_index h = (n mod 2 ^ 16) * 2 ^ 16 → indexed h mod N_SESSIONS = 1.
Proof.
  intros Hn. pose proof (Z.mod_pos_bound n (2 ^ 16)) as Hb.
  rewrite indexed_spec by (unfold fits; rewrite Hn; lia). rewrite Hn. unfold N_SESSIONS.
  change (2 ^ 16) with 65536 in *. Z.to_euclidean_division_equations. lia.
Qed.

Lemma stamp_ok env :
  env_ok env →
  ∃ ts t, stamp (e_stamper env) (e_clock env 0%nat) = Ok ts ∧ tai_parse ts = Ok t ∧
    after t tai_zero = true.
Proof.
  intros (_ & _ & Hi & Hi' & d & Hd & Hd0 & Hmax).
  pose proof (duration_since_spec _ _ Hi Hi') as Hs. unfold stamp. rewrite Hd. cbn [ok_or mbind res_bind].
  set (t := duration_since (e_clock env 0%nat) (instant_at_start (e_stamper env)) + d) in *.
  assert (0 ≤ t) as Ht by lia. assert (0 ≤ t / NANOSECOND) by (apply Z.div_pos; [lia|done]).
  unfold TAI64_BASE in *. unfold duration_checked_add. fold t.
  rewrite (proj2 (Z.ltb_lt _ _)) by lia. cbn [ok_or mbind res_bind].
  rewrite (proj2 (Z.leb_gt _ _)) by lia. eexists _, _. split; [done|]. unfold tai_parse.
  rewrite len_app, !len_be_bytes. cbn [Z.ltb Z.compare Z.of_nat Z.add Pos.of_succ_nat].
  change (Z.of_nat 8 + Z.of_nat 4 <? 12) with false. cbv iota.
  rewrite slice_app_pre by done. cbn [mbind res_bind]. rewrite slice_from_app by done.
  cbn [mbind res_bind]. split; [done|]. unfold after, tai_zero. cbn [secs nano].
  rewrite be_val_u64 by (unfold fits; lia). by rewrite (proj2 (Z.ltb_lt _ _)) by lia.
Qed.

(** A message with a right MAC passes the verifier. *)
Lemma verify_maced key msg mac2 p :
  len mac2 = 16 → parse_incoming_packet (maced key msg mac2) = Ok p →
  verify_packet key (maced key msg mac2) = Ok p.
Proof.
  intros Hm Hp. assert (verify_mac1 key (maced key msg mac2) = Ok tt) as Hv.
  { unfold verify_mac1, maced. rewrite !len_app, len_keyed_mac, Hm.
    rewrite slice_app_pre by lia. cbn [mbind res_bind]. rewrite slice_from_app by lia.
    cbn [mbind res_bind]. rewrite slice_app_pre by (by rewrite len_keyed_mac). cbn [mbind res_bind].
    by rewrite bool_decide_eq_false_2 by naive_solver. }
  unfold verify_packet. rewrite Hp. cbn [mbind res_bind]. destruct p; rewrite ?Hv; done.
Qed.

(** The two ends after the handshake: an established session in slot 1 at each, in use
    at the initiator and waiting for confirmation at the responder. *)
Record joined (na nb : Noise) (sa sb : Session) : Prop := {
  j_len_a : length (sessions na) = Z.to_nat N_SESSIONS;
  j_len_b : length (sessions nb) = Z.to_nat N_SESSIONS;
  j_slot_a : slot (receiving_index sa) na = Some sa;
  j_slot_b : slot (receiving_index sb) nb = Some sb;
  j_cur : current na = receiving_index sa;
  j_next : next_session nb = Some (receiving_index sb);
  j_linked : linked sa sb;
  j_linked' : linked sb sa;
  j_ok_a : session_ok sa;
  j_ok_b : session_ok sb;
  j_zero_a : sending_key_counter sa = 0;
  j_zero_b : sending_key_counter sb = 0;
  j_recv_a : receiving_key_counter sa = validator_default;
  j_recv_b : receiving_key_counter sb = validator_default
}.

Lemma noise_handshake env_a env_b sa sb :
  env_ok env_a → env_ok env_b →
  ∃ init na resp nb na',
    noise_init_handshake env_a sa (dh_public sb) = Ok (na, init) ∧
    noise_handle_handshake env_b sb (dh_public sb) init = Ok (nb, Some resp) ∧
    noise_handle_response env_a resp na = (Ok tt, na') ∧
    ∃ ssa ssb, joined na' nb ssa ssb.
Proof.
  intros Ha Hb. destruct (stamp_ok env_a Ha) as (ts & t & Hts & Ht & Hat).
  pose proof Ha as (Hra & Hia & _). pose proof Hb as (Hrb & Hib & _).
  set (n0a := noise_new sa (dh_public sb) None (next_session_base (e_peer_index env_a))
    (Some (verifier_new (dh_public sa))) (e_stamper env_a)).
  set (n0b := noise_new sb (dh_public sa) None (next_session_base (e_peer_index env_b))
    (Some (verifier_new (dh_public sb))) (e_stamper env_b)).
  set (buf := replicate (Z.to_nat HANDSHAKE_INIT_SZ) x00).
  destruct (handshake_run sa sb None (handshake n0a) (handshake n0b) buf buf (e_rng env_a) (e_rng env_b)
    (e_clock env_a) (e_clock env_a) ts t) as
    (msg & mac2 & p & hi1 & msg' & mac2' & ssb & hr1 & q & ssa & hi2 & Hrun);
    try done; try (apply wrap_fits; lia).
  destruct Hrun as (Hm & Hm' & Hinit & Hpi & Hanon & Hresp & Hpr & Hsi & Hl & Hl' & Hoa & Hob & Hza & Hzb
    & Hwa & Hwb & Hxa & Hxb).
  assert (indexed (handshake n0a) mod N_SESSIONS = 1) as Hsa
    by (apply (first_index _ (e_peer_index env_a)); by apply session_base_spec).
  exists (maced (b2s_hash LABEL_MAC1 (dh_public sb)) msg mac2), (set_handshake hi1 n0a),
    (maced (b2s_hash LABEL_MAC1 (dh_public sa)) msg' mac2'),
    (set_current 0 (Some (local_index ssb)) (set_slot (local_index ssb) ssb (set_handshake hr1 n0b))),
    (set_current (local_index ssa) None (set_slot (local_index ssa) ssa (set_handshake hi2 n0a))).
  split_and!.
  - unfold noise_init_handshake. cbv zeta. fold n0a buf. unfold on_handshake. by rewrite Hinit.
  - unfold noise_handle_handshake. cbv zeta.
    pose proof (verify_maced _ _ _ _ Hm Hpi) as Hv. fold (verifier_new (dh_public sb)) in Hv |- *. rewrite Hv.
    cbn [map_err mbind res_bind]. rewrite Hanon. cbn [mbind res_bind]. fold n0b buf.
    cbn [handle_verified_packet]. unfold handle_handshake_init.
    erewrite st_bind_Ok by (unfold on_handshake; by rewrite Hresp). done.
  - unfold noise_handle_response. erewrite lift_bind_Ok by done. cbv iota.
    unfold handle_handshake_response.
    erewrite st_bind_Ok.
    2: { erewrite st_bind_Ok by (unfold on_handshake; cbn [handshake set_handshake]; by rewrite Hsi).
      cbv zeta. erewrite st_bind_Ok by done. erewrite st_bind_Ok by done. done. }
    cbv beta. unfold current_live. rewrite slot_set_other; [done|].
    unfold local_index. rewrite Hxa, Hsa. done.
  - exists ssa, ssb. unfold local_index. split; try done; cbn; try (by rewrite length_insert).
    + by apply (slot_set_same (set_handshake hi2 n0a)).
    + by apply (slot_set_same (set_handshake hr1 n0b)).
Qed.

(** Two sends in opposite directions over joined ends. *)
Lemma fresh_zero s seen :
  receiving_key_counter s = validator_default → 0 ∉ seen →
  received s ∅ ∧ fresh_counter 0 (next (receiving_key_counter s)) seen.
Proof.
  intros Hs Hz. unfold received. rewrite Hs. split; [exact window_rel_default|].
  split; [cbn; unfold N_BITS, WORD_SIZE, N_WORDS; lia|done].
Qed.

(** An IP packet in a message: what the receiver writes to the tunnel. *)
Definition carries (src out : list byte) (ip : IpAddr) : Prop :=
  validate_decapsulated_packet src = Ok (WriteToTunnel out ip).

Lemma noise_transfer env env' na nb a b src dst dst' out ip :
  slot (current na) na = Some a → slot (receiving_index b) nb = Some b →
  length (sessions na) = Z.to_nat N_SESSIONS →
  session_ok a → linked a b → rng_ok (e_rng env) →
  sending_key_counter a = 0 → receiving_key_counter b = validator_default →
  len src + DATA_OVERHEAD_SZ ≤ len dst → len src + 32 ≤ len dst' → len src ≤ AEAD_MAX - 16 →
  carries src out ip →
  ∃ pkt b',
    noise_on_send env src dst na = (Ok pkt, set_slot (current na) (bump a) na) ∧
    noise_on_recv env' pkt dst' nb =
      (Ok out, let n1 := set_slot (receiving_index b) b' nb in
       if bool_decide (next_session nb = Some (receiving_index b))
       then set_current (receiving_index b) None n1 else n1) ∧
    ∃ v, b' = set_validator v b.
Proof.
  intros Hsa Hsb Hla Hoa Hl Hr Hz Hv Hd Hd' Hmax Hc.
  destruct (fresh_zero b ∅ Hv) as [Hrc Hfr]; [apply not_elem_of_empty|].
  destruct (session_transfer a b ∅ src (len dst) (len dst') (e_rng env)) as (pkt & p & b' & Hf & Hp & Hrec & _);
    try done; [rewrite Hz; exact Hfr|rewrite Hz; by unfold MAX_NONCE|].
  assert (pd_receiver_idx p = receiving_index b) as Hi.
  { pose proof Hf as (_ & _ & _ & ct & pad & -> & _ & Hct & _)%format_spec.
    destruct Hoa as (_ & Hs32 & _ & _ & Hs64). pose proof (len_nonneg src). pose proof (len_nonneg pad).
    rewrite parse_data_packet in Hp by (done || (unfold AEAD_SIZE in *; lia)).
    apply Ok_inj in Hp as [= <-]. by apply Hl. }
  exists pkt, b'. split_and!.
  - unfold noise_on_send. erewrite st_bind_Ok by (by eapply encapsulate_session). done.
  - unfold noise_on_recv, noise_verify. erewrite st_bind_Ok.
    2: { erewrite st_bind_Ok by done. unfold lift, verify_packet. rewrite Hp. done. }
    cbn [handle_verified_packet].
    erewrite st_bind_Ok by (rewrite (handle_data_session p dst' nb b src b') by (by rewrite ?Hi);
      unfold carries in Hc; rewrite Hc; done). by rewrite Hi.
  - by eapply receive_fields.
Qed.

(** C1.  The tunnel works end to end: through the type-erased interface, with any two
    key pairs and working environments, the initiator's handshake is accepted, its
    response completes it, an IP packet sent by the initiator comes out at the
    responder cut to the length in its header, and then an IP packet sent back comes
    out at the initiator. *)
Theorem tunnel_end_to_end env_a env_b sa sb src out ip src' out' ip' dst :
  env_ok env_a → env_ok env_b → carries src out ip → carries src' out' ip' →
  len src + DATA_OVERHEAD_SZ ≤ len dst → len src' + DATA_OVERHEAD_SZ ≤ len dst →
  len src ≤ AEAD_MAX - 16 → len src' ≤ AEAD_MAX - 16 →
  ∃ init resp pkt pkt' ra rb ra1 ra2 rb1 rb2 ra3,
    raw_init_handshake env_a sa (dh_public sb) raw_new = (Ok init, ra) ∧
    raw_handle_handshake env_b sb (dh_public sb) init raw_new = (Ok (Some resp), rb) ∧
    raw_handle_response env_a resp ra = (Ok tt, ra1) ∧
    raw_on_send env_a src dst ra1 = (Ok pkt, ra2) ∧
    raw_on_recv env_b pkt dst rb = (Ok out, rb1) ∧
    raw_on_send env_b src' dst rb1 = (Ok pkt', rb2) ∧
    raw_on_recv env_a pkt' dst ra2 = (Ok out', ra3).
Proof.
  intros Ha Hb Hc Hc' Hd Hd' Hm Hm'. unfold DATA_OVERHEAD_SZ in *.
  destruct (noise_handshake env_a env_b sa sb Ha Hb) as
    (init & na & resp & nb & na1 & H1 & H2 & H3 & ssa & ssb & J).
  pose proof Ha as (Hra & _). pose proof Hb as (Hrb & _).
  destruct (noise_transfer env_a env_b na1 nb ssa ssb src dst dst out ip) as
    (pkt & b' & H4 & H5 & v & ->); try apply J; try done; try (unfold DATA_OVERHEAD_SZ; lia).
  { rewrite (j_cur _ _ _ _ J). apply J. }
  rewrite bool_decide_eq_true_2 in H5 by apply J. cbv zeta in H5.
  match type of H5 with _ = (_, ?n) => set (nb1 := n) in H5 end.
  set (na2 := set_slot (current na1) (bump ssa) na1) in H4.
  destruct (noise_transfer env_b env_a nb1 na2 (set_validator v ssb) (bump ssa) src' dst dst out' ip')
    as (pkt' & a' & H6 & H7 & _); try done; try apply J; try (unfold DATA_OVERHEAD_SZ; lia).
  { apply slot_set_same, J. }
  { unfold na2. rewrite (j_cur _ _ _ _ J). apply slot_set_same, J. }
  { unfold nb1. cbn. rewrite length_insert. apply J. }
  unfold raw_init_handshake, raw_handle_handshake, raw_handle_response, raw_on_send, raw_on_recv, with_data.
  cbn [raw_new init_handshake handle_handshake handle_response on_send on_recv noise_cryptor].
  eexists init, resp, pkt, pkt', (Some na), (Some nb), (Some na1), (Some na2), (Some nb1), _, _.
  by rewrite H1, H2, H3, H4, H5, H6, H7.
Qed.

(** Which peers can be told apart by session index: the 24 high bits of a session
    index, which every session of a peer shares, are determined by the low 16 bits of
    the peer's number.  Peers whose numbers differ modulo 2^16 never share them; peers
    65536 apart always do, because the index is shifted by 8 in [next_session_base] and
    again in [Noise::new]. *)
Lemma session_index_blocks k1 p1 k2 p2 psk1 psk2 v1 v2 st1 st2 n m :
  0 ≤ n → 0 ≤ m →
  let block h := indexed h / 256 in
  let h1 := handshake (noise_new k1 p1 psk1 (next_session_base n) v1 st1) in
  let h2 := handshake (noise_new k2 p2 psk2 (next_session_base m) v2 st2) in
  (block h1 = block h2 ↔ n mod 2 ^ 16 = m mod 2 ^ 16) ∧
  (∀ h, fits 32 (next_index h) → block h = next_index h / 256).
Proof.
  intros Hn Hm block h1 h2.
  assert (∀ h, fits 32 (next_index h) → block h = next_index h / 256) as Hblock.
  { intros h Hf. unfold block. rewrite indexed_spec by done. unfold fits in Hf.
    Z.to_euclidean_division_equations. lia. }
  split; [|done]. rewrite !Hblock by (apply wrap_fits; lia). unfold h1, h2. cbn [handshake noise_new handshake_new next_index].
  rewrite !session_base_spec by done. change (2 ^ 16) with 65536.
  Z.to_euclidean_division_equations. lia.
Qed.
End Proofs.

(** ** Witnesses *)

Definition toy_env : Env := mkEnv toy_rng toy_clock toy_stamper 1.

Lemma toy_env_ok : env_ok toy_env.
Proof.
  split_and!; [exact toy_rng_ok|done..|]. exists 0. split_and!; [done..|vm_compute; reflexivity].
Qed.

(** A 20-byte IPv4 header with total length 20. *)
Definition toy_ip : list byte := [x45; x00; x00; x14] ++ replicate 8 x00 ++ [x0a; x00; x00; x01] ++ replicate 4 x00.
Definition toy_buf : list byte := replicate 148 x00.

Lemma tunnel_end_to_end_witness :
  ∃ init resp pkt pkt' ra rb ra1 ra2 rb1 rb2 ra3,
    raw_init_handshake toy_env secret_a (dh_public secret_b) raw_new = (Ok init, ra) ∧
    raw_handle_handshake toy_env secret_b (dh_public secret_b) init raw_new = (Ok (Some resp), rb) ∧
    raw_handle_response toy_env resp ra = (Ok tt, ra1) ∧
    raw_on_send toy_env toy_ip toy_buf ra1 = (Ok pkt, ra2) ∧
    raw_on_recv toy_env pkt toy_buf rb = (Ok toy_ip, rb1) ∧
    raw_on_send toy_env (toy_ip ++ [x01]) toy_buf rb1 = (Ok pkt', rb2) ∧
    raw_on_recv toy_env pkt' toy_buf ra2 = (Ok toy_ip, ra3).
Proof.
  apply (tunnel_end_to_end toy_env toy_env secret_a secret_b toy_ip toy_ip (V4 167772161)
    (toy_ip ++ [x01]) toy_ip (V4 167772161) toy_buf);
    [exact toy_env_ok|exact toy_env_ok|vm_compute; reflexivity|vm_compute; reflexivity
    |vm_compute; discriminate..].
Defined.

