(* ===== verification/NetText.v ===== *)
(** * The text form of numbers and IP addresses

    What the control plane and the node configuration use of Rust's [std]:
    [char::to_digit], the integer formatting of [{}] and [{:x}],
    [str::parse::<u8>], [str::split_once], and the [FromStr] and [Display]
    implementations of [Ipv4Addr], [Ipv6Addr] and [IpAddr] (the [Parser] of
    [std::net]: up to four decimal octets without leading zeros, eight
    hexadecimal groups, one [::], an embedded IPv4 tail; printing compresses the
    first longest run of at least two zero groups and writes IPv4-mapped
    addresses with a dotted tail).

    A [&str] is a list of [ascii] characters here; [strings] at the interface are
    converted by [chars] and [text].  A parser returns what it read and the rest
    of the input; one that fails leaves the input to its caller, as
    [read_atomically] does. *)

From Stdlib Require Import Strings.Ascii Strings.String.
From S2P Require Import Prelude.
From S2P Require Import Words.
From S2P Require Import NetAddr.

Abbreviation chars := list_ascii_of_string.
Abbreviation text := string_of_list_ascii.

Definition parser (A : Type) : Type := list ascii → option (A * list ascii).

(** ** Octets and segments *)

(** [Ipv4Addr::new] and [Ipv4Addr::octets]. *)
Definition ipv4_new (a b c d : Z) : Z := a * 2 ^ 24 + b * 2 ^ 16 + c * 2 ^ 8 + d.
Definition octets (ip : Z) : list Z :=
  [ip / 2 ^ 24 mod 2 ^ 8; ip / 2 ^ 16 mod 2 ^ 8; ip / 2 ^ 8 mod 2 ^ 8; ip mod 2 ^ 8].

(** [Ipv6Addr::from(\[u16; 8\])] and [Ipv6Addr::segments]. *)
Definition of_segments (l : list Z) : Z := fold_left (fun acc g => acc * 2 ^ 16 + g) l 0.
Fixpoint segs (n : nat) (ip : Z) : list Z :=
  match n with O => [] | S n => segs n (ip / 2 ^ 16) ++ [ip mod 2 ^ 16] end.
Definition segments (ip : Z) : list Z := segs 8 ip.

(** ** Digits *)

(** [char::to_digit(radix)]. *)
Definition to_digit (radix : Z) (c : ascii) : option Z :=
  let n := Z.of_N (N_of_ascii c) in
  let d := if (48 <=? n) && (n <=? 57) then n - 48
           else if (97 <=? n) && (n <=? 122) then n - 87
           else if (65 <=? n) && (n <=? 90) then n - 55
           else radix in
  if d <? radix then Some d else None.

(** The character of a digit, as [{}] and [{:x}] print it. *)
Definition digit_char (d : Z) : ascii :=
  ascii_of_N (Z.to_N (if d <? 10 then 48 + d else 87 + d)).

(** The shortest numeral of [z]; [fuel] bounds the number of its digits. *)
Fixpoint numeral (fuel : nat) (radix z : Z) : list Z :=
  match fuel with
  | O => []
  | S fuel => if z <? radix then [z] else numeral fuel radix (z / radix) ++ [z mod radix]
  end.

Definition fmt_radix (fuel : nat) (radix z : Z) : list ascii := map digit_char (numeral fuel radix z).

(** [{}] of a [u64] (and of every narrower type): at most 20 digits. *)
Definition fmt_dec (z : Z) : list ascii := fmt_radix 20 10 z.
(** [{:x}] of a [u16]. *)
Definition fmt_hex16 (z : Z) : list ascii := fmt_radix 4 16 z.
(** [{:04x}] of a [u16]: padded with zeros to four digits. *)
Definition fmt_hex16_padded (z : Z) : list ascii :=
  let l := fmt_hex16 z in replicate (4 - length l) "0"%char ++ l.

Definition digits_val (radix : Z) (ds : list Z) : Z := fold_left (fun acc d => acc * radix + d) ds 0.

(** ** Printing addresses *)

(** [impl Display for Ipv4Addr]. *)
Definition fmt_v4 (ip : Z) : list ascii :=
  match octets ip with
  | [a; b; c; d] =>
      fmt_dec a ++ "."%char :: fmt_dec b ++ "."%char :: fmt_dec c ++ "."%char :: fmt_dec d
  | _ => []
  end.

(** [fmt_subslice]: the groups separated by colons. *)
Fixpoint fmt_groups (l : list Z) : list ascii :=
  match l with
  | [] => []
  | [g] => fmt_hex16 g
  | g :: l => fmt_hex16 g ++ ":"%char :: fmt_groups l
  end.

(** The loop over the segments that finds the first longest run of zeros: the
    run that ends here and the longest one seen, each as (start, length). *)
Fixpoint zero_run (l : list Z) (i : nat) (current longest : nat * nat) : nat * nat :=
  match l with
  | [] => longest
  | g :: l =>
      if g =? 0 then
        let current := (if (current.2 =? 0)%nat then i else current.1, S current.2) in
        zero_run l (S i) current (if (longest.2 <? current.2)%nat then current else longest)
      else zero_run l (S i) (0, 0)%nat longest
  end.

(** [Ipv6Addr::to_ipv4_mapped]. *)
Definition ipv4_mapped (l : list Z) : option Z :=
  match l with
  | [a; b; c; d; e; f; g; h] =>
      if forallb (fun x => x =? 0) [a; b; c; d; e] && (f =? 65535)
      then Some (g * 2 ^ 16 + h) else None
  | _ => None
  end.

(** [impl Display for Ipv6Addr]. *)
Definition fmt_v6 (ip : Z) : list ascii :=
  let l := segments ip in
  match ipv4_mapped l with
  | Some v4 => chars "::ffff:" ++ fmt_v4 v4
  | None =>
      let '(start, n) := zero_run l 0 (0, 0)%nat (0, 0)%nat in
      if (1 <? n)%nat
      then fmt_groups (take start l) ++ ":"%char :: ":"%char :: fmt_groups (drop (start + n) l)
      else fmt_groups l
  end.

(** [impl Display for IpAddr]. *)
Definition fmt_ip (a : IpAddr) : list ascii :=
  match a with V4 ip => fmt_v4 ip | V6 ip => fmt_v6 ip end.

(** ** Parsing addresses *)

Definition read_given_char (c : ascii) : parser unit := fun l =>
  match l with x :: l => if Ascii.eqb x c then Some (tt, l) else None | [] => None end.

(** The longest run of digits at the front. *)
Fixpoint span_digits (radix : Z) (l : list ascii) : list Z * list ascii :=
  match l with
  | c :: k =>
      match to_digit radix c with
      | Some d => let '(ds, rest) := span_digits radix k in (d :: ds, rest)
      | None => ([], l)
      end
  | [] => ([], [])
  end.

(** [Parser::read_number] with a bound on the digits, for a type of values up to
    [bound]. *)
Definition read_number (radix : Z) (max_digits : nat) (allow_zero_prefix : bool) (bound : Z)
    : parser Z := fun l =>
  let '(ds, rest) := span_digits radix l in
  if (max_digits <? length ds)%nat then None
  else match ds with
       | [] => None
       | d :: ds' =>
           if negb allow_zero_prefix && (d =? 0) && negb (bool_decide (ds' = [])) then None
           else let v := digits_val radix ds in
                if v <=? bound then Some (v, rest) else None
       end.

(** [Parser::read_separator]: the separator comes before every item but the first. *)
Definition read_separator {A} (sep : ascii) (i : nat) (p : parser A) : parser A := fun l =>
  match i with
  | O => p l
  | S _ => match read_given_char sep l with Some (_, l) => p l | None => None end
  end.

(** [Parser::read_ipv4_addr]. *)
Definition read_ipv4_addr : parser Z := fun l =>
  let octet i := read_separator "."%char i (read_number 10 3 false 255) in
  '(a, l) ← octet 0%nat l;
  '(b, l) ← octet 1%nat l;
  '(c, l) ← octet 2%nat l;
  '(d, l) ← octet 3%nat l;
  Some (ipv4_new a b c d, l).

(** [read_groups]: up to [n] more groups, the next one being number [i]; whether
    the last two came from a dotted IPv4 tail. *)
Fixpoint read_groups (n i : nat) (l : list ascii) : list Z * bool * list ascii :=
  match n with
  | O => ([], false, l)
  | S n' =>
      match (if (2 <=? n)%nat then read_separator ":"%char i read_ipv4_addr l else None) with
      | Some (v4, rest) => ([v4 / 2 ^ 16; v4 mod 2 ^ 16], true, rest)
      | None =>
          match read_separator ":"%char i (read_number 16 4 true 65535) l with
          | Some (g, rest) =>
              let '(gs, dotted, rest) := read_groups n' (S i) rest in (g :: gs, dotted, rest)
          | None => ([], false, l)
          end
      end
  end.

(** [Parser::read_ipv6_addr]. *)
Definition read_ipv6_addr : parser Z := fun l =>
  let '(head, head_ipv4, l) := read_groups 8 0 l in
  if (length head =? 8)%nat then Some (of_segments head, l)
  else if head_ipv4 : bool then None
  else
    '(_, l) ← read_given_char ":"%char l;
    '(_, l) ← read_given_char ":"%char l;
    let '(tail, _, l) := read_groups (8 - (length head + 1)) 0 l in
    Some (of_segments (head ++ replicate (8 - length head - length tail) 0 ++ tail), l).

(** [Parser::parse_with]: the whole input is read. *)
Definition parse_with {A} (p : parser A) (l : list ascii) : option A :=
  match p l with Some (a, []) => Some a | _ => None end.

(** [str::parse::<Ipv4Addr>]: longer strings than 255.255.255.255 are refused. *)
Definition parse_v4 (l : list ascii) : option Z :=
  if (15 <? length l)%nat then None else parse_with read_ipv4_addr l.

(** [str::parse::<IpAddr>]. *)
Definition parse_ip (l : list ascii) : option IpAddr :=
  parse_with (fun l =>
    match read_ipv4_addr l with
    | Some (ip, l) => Some (V4 ip, l)
    | None => match read_ipv6_addr l with Some (ip, l) => Some (V6 ip, l) | None => None end
    end) l.

(** [Parser::read_port] and [Parser::read_scope_id]; the number has no bound on its
    digits. *)
Definition read_port : parser Z := fun l =>
  '(_, l) ← read_given_char ":"%char l; read_number 10 (length l) true 65535 l.
Definition read_scope_id : parser Z := fun l =>
  '(_, l) ← read_given_char "%"%char l; read_number 10 (length l) true (2 ^ 32 - 1) l.

(** [Parser::read_socket_addr_v4] and [Parser::read_socket_addr_v6]. *)
Definition read_socket_addr_v4 : parser SocketAddr := fun l =>
  '(ip, l) ← read_ipv4_addr l;
  '(port, l) ← read_port l;
  Some (SockV4 ip port, l).
Definition read_socket_addr_v6 : parser SocketAddr := fun l =>
  '(_, l) ← read_given_char "["%char l;
  '(ip, l) ← read_ipv6_addr l;
  let '(scope_id, l) := default (0, l) (read_scope_id l) in
  '(_, l) ← read_given_char "]"%char l;
  '(port, l) ← read_port l;
  Some (SockV6 ip port 0 scope_id, l).

(** [str::parse::<SocketAddr>]. *)
Definition parse_socket_addr (l : list ascii) : option SocketAddr :=
  parse_with (fun l => match read_socket_addr_v4 l with Some x => Some x | None => read_socket_addr_v6 l end) l.

(** [str::trim], of ASCII text. *)
Definition is_space (c : ascii) : bool :=
  let n := nat_of_ascii c in ((9 <=? n) && (n <=? 13) || (n =? 32))%nat.
Fixpoint trim_start (l : list ascii) : list ascii :=
  match l with c :: k => if is_space c then trim_start k else l | [] => [] end.
Definition trim (l : list ascii) : list ascii := rev (trim_start (rev (trim_start l))).

(** [str::parse::<u8>]: an optional plus sign, then decimal digits only. *)
Definition parse_u8 (l : list ascii) : option Z :=
  let digits := match l with c :: k => if Ascii.eqb c "+"%char then k else l | [] => l end in
  match digits, span_digits 10 digits with
  | [], _ => None
  | _, (ds, []) => let v := digits_val 10 ds in if v <=? 255 then Some v else None
  | _, _ => None
  end.

(** [str::split_once(c)]. *)
Fixpoint split_once (c : ascii) (l : list ascii) : option (list ascii * list ascii) :=
  match l with
  | [] => None
  | x :: l =>
      if Ascii.eqb x c then Some ([], l)
      else match split_once c l with Some (a, b) => Some (x :: a, b) | None => None end
  end.

(** ** Numerals *)

(** The rest of the input does not extend a numeral. *)
Definition stops (radix : Z) (l : list ascii) : Prop :=
  match l with [] => True | c :: _ => to_digit radix c = None end.

Lemma to_digit_char radix d :
  2 ≤ radix ≤ 16 → 0 ≤ d < radix → to_digit radix (digit_char d) = Some d.
Proof.
  intros Hr Hd. unfold to_digit, digit_char.
  rewrite N_ascii_embedding by (case_if; lia). rewrite Z2N.id by (case_if; lia).
  repeat case_if; bool_prop; f_equal; try lia.
Qed.

Lemma span_digits_app radix ds rest :
  2 ≤ radix ≤ 16 → Forall (fun d => 0 ≤ d < radix) ds → stops radix rest →
  span_digits radix (map digit_char ds ++ rest) = (ds, rest).
Proof.
  intros Hr Hds Hrest. induction Hds as [|d ds Hd _ IH]; cbn.
  - destruct rest as [|c k]; cbn in *; [done|]. by rewrite Hrest.
  - by rewrite to_digit_char, IH.
Qed.

(** Numerals do not depend on the fuel once it covers the digits. *)
Lemma numeral_fuel n fuel radix z :
  2 ≤ radix → 0 ≤ z < radix ^ Z.of_nat n → (0 < n ≤ fuel)%nat →
  numeral fuel radix z = numeral n radix z.
Proof.
  intros Hr. revert fuel z. induction n as [|n IH]; intros fuel z Hz Hn; [lia|].
  destruct fuel as [|fuel]; [lia|]. cbn [numeral]. case_if; [done|]. bool_prop. f_equal.
  destruct n as [|n].
  { rewrite Z.pow_1_r in Hz. lia. }
  apply IH; [|lia]. rewrite Nat2Z.inj_succ, Z.pow_succ_r in Hz by lia.
  split; [apply Z.div_pos; lia|]. apply Z.div_lt_upper_bound; lia.
Qed.

Lemma digits_val_app radix ds d : digits_val radix (ds ++ [d]) = digits_val radix ds * radix + d.
Proof. unfold digits_val. by rewrite fold_left_app. Qed.

Lemma numeral_val n radix z :
  2 ≤ radix → 0 ≤ z < radix ^ Z.of_nat n → (0 < n)%nat → digits_val radix (numeral n radix z) = z.
Proof.
  intros Hr. revert z. induction n as [|n IH]; intros z Hz Hn; [lia|]. cbn [numeral].
  case_if; [unfold digits_val; cbn; lia|]. bool_prop. rewrite digits_val_app.
  destruct n as [|n]; [rewrite Z.pow_1_r in Hz; lia|].
  rewrite IH; [|rewrite Nat2Z.inj_succ, Z.pow_succ_r in Hz by lia|lia].
  - pose proof (Z.div_mod z radix). lia.
  - split; [apply Z.div_pos; lia|]. apply Z.div_lt_upper_bound; lia.
Qed.

Lemma numeral_digits n radix z :
  2 ≤ radix → 0 ≤ z → Forall (fun d => 0 ≤ d < radix) (numeral n radix z).
Proof.
  intros Hr. revert z. induction n as [|n IH]; intros z Hz; cbn [numeral]; [done|].
  case_if; bool_prop; [by apply Forall_singleton|]. apply Forall_app; split.
  - apply IH. apply Z.div_pos; lia.
  - apply Forall_singleton. apply Z.mod_pos_bound. lia.
Qed.

(** No leading zero, except in the numeral of zero. *)
Lemma numeral_head n radix z :
  2 ≤ radix → 0 ≤ z → (0 < n)%nat → z < radix ^ Z.of_nat n →
  ∃ d ds, numeral n radix z = d :: ds ∧ (length ds < n)%nat ∧ (d = 0 → z = 0 ∧ ds = []).
Proof.
  intros Hr. revert z. induction n as [|n IH]; intros z Hz Hn Hlt; [lia|]. cbn [numeral].
  case_if; bool_prop; [exists z, []; split_and!; [done|cbn; lia|done]|].
  destruct n as [|n]; [rewrite Z.pow_1_r in Hlt; lia|].
  destruct (IH (z / radix)) as (d & ds & -> & Hlen & H0);
    [apply Z.div_pos; lia|lia| |].
  - rewrite Nat2Z.inj_succ, Z.pow_succ_r in Hlt by lia. apply Z.div_lt_upper_bound; lia.
  - exists d, (ds ++ [z mod radix]). rewrite length_app. cbn. split_and!; [done|lia|].
    intros [Hq _]%H0. pose proof (Z.div_str_pos z radix). lia.
Qed.

(** Reading a printed number back. *)
Lemma read_number_fmt radix n fuel max allow bound z rest :
  2 ≤ radix ≤ 16 → 0 ≤ z ≤ bound → z < radix ^ Z.of_nat n → (0 < n ≤ fuel)%nat → (n ≤ max)%nat →
  stops radix rest →
  read_number radix max allow bound (fmt_radix fuel radix z ++ rest) = Some (z, rest).
Proof.
  intros Hr Hz Hlt Hn Hmax Hrest. unfold read_number, fmt_radix.
  rewrite (numeral_fuel n) by lia.
  rewrite span_digits_app by (done || apply numeral_digits; lia).
  pose proof (numeral_val n radix z ltac:(lia) ltac:(lia) ltac:(lia)) as Hv.
  destruct (numeral_head n radix z) as (d & ds & Hd & Hlen & H0); [lia..|]. rewrite Hd in *.
  rewrite (proj2 (Nat.ltb_ge _ _)) by (cbn; lia). rewrite Hv.
  rewrite (proj2 (Z.leb_le _ _)) by lia.
  destruct (d =? 0) eqn:E; bool_prop; [|by rewrite andb_false_r].
  destruct (H0 E) as [-> ->]. by rewrite !andb_false_r.
Qed.

Lemma read_u8_fmt z rest :
  fits 8 z → stops 10 rest → read_number 10 3 false 255 (fmt_dec z ++ rest) = Some (z, rest).
Proof. unfold fits. intros. by apply (read_number_fmt 10 3); lia || done. Qed.

Lemma read_u16_fmt z rest :
  fits 16 z → stops 16 rest → read_number 16 4 true 65535 (fmt_hex16 z ++ rest) = Some (z, rest).
Proof. unfold fits. intros. by apply (read_number_fmt 16 4); lia || done. Qed.

Lemma parse_u8_fmt z : fits 8 z → parse_u8 (fmt_dec z) = Some z.
Proof.
  intros Hz. unfold fits in Hz. unfold parse_u8, fmt_dec, fmt_radix.
  rewrite (numeral_fuel 3) by lia.
  pose proof (numeral_val 3 10 z ltac:(lia) ltac:(lia) ltac:(lia)) as Hv.
  pose proof (numeral_digits 3 10 z ltac:(lia) ltac:(lia)) as Hds.
  destruct (numeral_head 3 10 z) as (d & ds & Hd & _ & _); [lia..|]. rewrite Hd in *.
  cbn [map]. destruct (Ascii.eqb_spec (digit_char d) "+"%char) as [E|_].
  { exfalso. apply (f_equal (to_digit 10)) in E. inversion Hds; subst.
    rewrite to_digit_char in E by lia. discriminate E. }
  rewrite <-(app_nil_r (map digit_char ds)), app_comm_cons.
  change (digit_char d :: map digit_char ds) with (map digit_char (d :: ds)).
  rewrite span_digits_app by (done || lia). rewrite Hv. cbn [map app].
  by rewrite (proj2 (Z.leb_le _ _)) by lia.
Qed.

(** ** IPv4 *)

Lemma octets_new ip : fits 32 ip →
  ∃ a b c d, octets ip = [a; b; c; d] ∧ ipv4_new a b c d = ip
    ∧ fits 8 a ∧ fits 8 b ∧ fits 8 c ∧ fits 8 d.
Proof.
  unfold octets, ipv4_new, fits. intros H. do 4 eexists. split; [done|].
  Z.to_euclidean_division_equations. lia.
Qed.

Lemma octets_ipv4_new a b c d :
  fits 8 a → fits 8 b → fits 8 c → fits 8 d → octets (ipv4_new a b c d) = [a; b; c; d].
Proof.
  unfold octets, ipv4_new, fits. intros.
  repeat f_equal; Z.to_euclidean_division_equations; lia.
Qed.

Lemma read_ipv4_fmt ip rest :
  fits 32 ip → stops 10 rest → read_ipv4_addr (fmt_v4 ip ++ rest) = Some (ip, rest).
Proof.
  intros Hip Hrest. unfold fmt_v4, read_ipv4_addr.
  destruct (octets_new ip Hip) as (a & b & c & d & -> & Heq & Ha & Hb & Hc & Hd).
  rewrite <-!app_assoc; cbn [app]. rewrite <-!app_assoc; cbn [app]. rewrite <-!app_assoc; cbn [app].
  unfold read_separator, read_given_char.
  do 4 (rewrite read_u8_fmt by done; cbn [mbind option_bind]; rewrite ?Ascii.eqb_refl).
  by rewrite Heq.
Qed.

Lemma length_fmt_u8 z : fits 8 z → (length (fmt_dec z) ≤ 3)%nat.
Proof.
  unfold fits. intros Hz. unfold fmt_dec, fmt_radix. rewrite length_map, (numeral_fuel 3) by lia.
  destruct (numeral_head 3 10 z) as (d & ds & -> & Hlen & _); [lia..|]. cbn. lia.
Qed.

Lemma parse_v4_fmt ip : fits 32 ip → parse_v4 (fmt_v4 ip) = Some ip.
Proof.
  intros Hip. unfold parse_v4. rewrite (proj2 (Nat.ltb_ge _ _)).
  - unfold parse_with. rewrite <-(app_nil_r (fmt_v4 ip)). by rewrite read_ipv4_fmt.
  - unfold fmt_v4. destruct (octets_new ip Hip) as (a & b & c & d & -> & _ & Ha & Hb & Hc & Hd).
    repeat (rewrite length_app; cbn [length]).
    apply length_fmt_u8 in Ha, Hb, Hc, Hd. lia.
Qed.

(** ** IPv6 *)

Lemma read_number_rest radix max allow bound l v k :
  read_number radix max allow bound l = Some (v, k) → (span_digits radix l).2 = k.
Proof.
  unfold read_number. destruct (span_digits radix l) as [[|d ds] rest]; repeat case_if; naive_solver.
Qed.

(** A group of hexadecimal digits is never the first octet of a dotted quad. *)
Lemma read_ipv4_not_dotted ds rest :
  Forall (fun d => 0 ≤ d < 16) ds →
  match rest with [] => True | c :: _ => to_digit 10 c = None ∧ c ≠ "."%char end →
  read_ipv4_addr (map digit_char ds ++ rest) = None.
Proof.
  intros Hds Hrest.
  assert (∀ c, head (span_digits 10 (map digit_char ds ++ rest)).2 = Some c → c ≠ "."%char) as Hc.
  { induction Hds as [|d ds Hd _ IH]; cbn.
    - destruct rest as [|c k]; cbn in *; [done|]. destruct Hrest as [-> ?]. cbn. naive_solver.
    - destruct (to_digit 10 (digit_char d)) eqn:E.
      + by destruct (span_digits 10 _) in *.
      + cbn. intros c [= <-] Hdot. apply (f_equal (to_digit 16)) in Hdot.
        rewrite to_digit_char in Hdot by lia. discriminate Hdot. }
  unfold read_ipv4_addr, read_separator.
  destruct (read_number 10 3 false 255 (map digit_char ds ++ rest)) as [[v k]|] eqn:E; [|done].
  apply read_number_rest in E as <-. cbn [mbind option_bind].
  destruct (span_digits 10 _).2 as [|c k]; [done|]. cbn [read_given_char].
  destruct (Ascii.eqb_spec c "."%char); [by destruct (Hc c)|done].
Qed.

(** Where a sequence of groups ends: at the end of the text or before [::]. *)
Definition group_end (l : list ascii) : Prop := l = [] ∨ ∃ k, l = ":"%char :: ":"%char :: k.

Lemma group_end_stop l :
  group_end l → match l with [] => True | c :: _ => to_digit 16 c = None ∧ to_digit 10 c = None ∧ c ≠ "."%char end.
Proof. by intros [-> | [k ->]]. Qed.

Lemma read_groups_end n i l : group_end l → read_groups n i l = ([], false, l).
Proof.
  intros Hl. destruct n as [|n]; [done|].
  destruct Hl as [-> | [k ->]]; destruct i, n as [|n]; reflexivity.
Qed.

(** The groups from number [i] on: a separator before every group but number 0. *)
Definition groups_from (i : nat) (gs : list Z) : list ascii :=
  match gs, i with [], _ => [] | _, O => fmt_groups gs | _, S _ => ":"%char :: fmt_groups gs end.

Lemma fmt_groups_cons g gs : fmt_groups (g :: gs) = fmt_hex16 g ++ groups_from 1 gs.
Proof. destruct gs; [by rewrite app_nil_r|done]. Qed.

Lemma groups_from_stop i gs rest :
  group_end rest →
  match groups_from (S i) gs ++ rest with
  | [] => True | c :: _ => to_digit 16 c = None ∧ to_digit 10 c = None ∧ c ≠ "."%char end.
Proof. intros H. destruct gs; cbn; [by apply group_end_stop|done]. Qed.

Lemma read_separator_groups {A} i (p : parser A) g gs rest :
  read_separator ":"%char i p (groups_from i (g :: gs) ++ rest)
  = p (fmt_hex16 g ++ groups_from 1 gs ++ rest).
Proof.
  unfold read_separator, groups_from. rewrite fmt_groups_cons. 
  destruct i; cbn [app]; [by rewrite <-app_assoc|]. cbn. by rewrite <-app_assoc.
Qed.

Lemma read_groups_fmt gs : ∀ n i rest,
  Forall (fits 16) gs → (length gs ≤ n)%nat → group_end rest →
  read_groups n i (groups_from i gs ++ rest) = (gs, false, rest).
Proof.
  induction gs as [|g gs IH]; intros n i rest Hgs Hn Hrest; [by apply read_groups_end|].
  inversion Hgs as [|? ? Hg Hgs']; subst. destruct n as [|n]; [cbn in Hn; lia|].
  pose proof (groups_from_stop 0 gs rest Hrest) as Hstop.
  cbn [read_groups]. rewrite !read_separator_groups.
  rewrite read_u16_fmt; [|done|by destruct (groups_from 1 gs ++ rest); [|destruct Hstop]].
  replace (groups_from 1 gs) with (groups_from (S i) gs) by by destruct gs.
  rewrite IH by (done || cbn in Hn; lia).
  destruct (2 <=? S n)%nat; [|done]. unfold fmt_hex16, fmt_radix.
  rewrite read_ipv4_not_dotted; [done|apply numeral_digits; unfold fits in Hg; lia|].
  replace (groups_from (S i) gs) with (groups_from 1 gs) by by destruct gs.
  by destruct (groups_from 1 gs ++ rest); [|destruct Hstop].
Qed.

(** ** The zero run that [::] stands for *)

Definition zeros_at (l : list Z) (run : nat * nat) : Prop :=
  take run.2 (drop run.1 l) = replicate run.2 0.

Lemma zero_run_zeros full l : ∀ i current longest,
  drop i full = l → zeros_at full longest → zeros_at full current →
  ((0 < current.2)%nat → (current.1 + current.2 = i)%nat) →
  zeros_at full (zero_run l i current longest).
Proof.
  induction l as [|g l IH]; intros i [s n] longest Hl Hlong Hcur Hend; cbn -[Nat.ltb]; [done|].
  assert (full !! i = Some g) as Hi.
  { rewrite <-(Nat.add_0_r i), <-lookup_drop, Hl. done. }
  assert (drop (S i) full = l) as Hl'.
  { replace (S i) with (i + 1)%nat by lia. by rewrite <-drop_drop, Hl. }
  destruct (g =? 0) eqn:Hg; bool_prop; [subst g|apply IH; cbn; done || lia].
  set (cur := (if (n =? 0)%nat then i else s, S n)).
  assert (zeros_at full cur ∧ (cur.1 + cur.2 = S i)%nat) as [Hz Hc].
  { unfold zeros_at, cur in *; cbn [fst snd] in *. destruct (Nat.eqb_spec n 0) as [->|Hn].
    - split; [|lia]. by rewrite (take_S_r _ 0 0) by by rewrite lookup_drop, Nat.add_0_r.
    - split; [|lia].
      rewrite (take_S_r _ _ 0) by (rewrite lookup_drop; by replace (s + n)%nat with i by lia).
      by rewrite Hcur, <-replicate_S_end. }
  apply IH; [done|by case_if|done|done].
Qed.

Lemma zero_run_split l s n :
  zero_run l 0 (0, 0)%nat (0, 0)%nat = (s, n) →
  l = take s l ++ replicate n 0 ++ drop (s + n) l.
Proof.
  intros Hrun. assert (zeros_at l (s, n)) as Hz.
  { rewrite <-Hrun. by apply zero_run_zeros; cbn; lia || done. }
  unfold zeros_at in Hz; cbn in Hz. rewrite <-Hz, <-drop_drop, take_drop. by rewrite take_drop.
Qed.

Lemma segs_fits n ip : Forall (fits 16) (segs n ip).
Proof.
  revert ip. induction n as [|n IH]; intros ip; cbn; [done|].
  apply Forall_app; split; [done|]. apply Forall_singleton. by apply wrap_fits.
Qed.

Lemma segs_val n ip : 0 ≤ ip < 2 ^ (16 * Z.of_nat n) → of_segments (segs n ip) = ip.
Proof.
  unfold of_segments. revert ip. induction n as [|n IH]; intros ip Hip; cbn [segs].
  { cbn in *. lia. }
  rewrite fold_left_app, IH; cbn [fold_left].
  - pose proof (Z.div_mod ip (2 ^ 16)). lia.
  - replace (16 * Z.of_nat (S n)) with (16 + 16 * Z.of_nat n) in Hip by lia.
    rewrite Z.pow_add_r in Hip by lia.
    split; [apply Z.div_pos; lia|]. apply Z.div_lt_upper_bound; lia.
Qed.

Lemma length_segs n ip : length (segs n ip) = n.
Proof. revert ip. induction n as [|n IH]; intros ip; cbn; [done|]. rewrite length_app, IH. cbn. lia. Qed.

Lemma read_ipv4_groups gs rest : Forall (fits 16) gs → group_end rest →
  (gs = [] → rest ≠ []) → read_ipv4_addr (fmt_groups gs ++ rest) = None.
Proof.
  intros Hgs Hrest Hne. destruct gs as [|g gs].
  - destruct Hrest as [-> | [k ->]]; [by destruct (Hne eq_refl)|done].
  - rewrite fmt_groups_cons, <-app_assoc. inversion Hgs as [|? ? Hg _]; subst.
    pose proof (groups_from_stop 0 gs rest Hrest) as Hstop. apply read_ipv4_not_dotted.
    + apply numeral_digits; unfold fits in Hg; lia.
    + by destruct (groups_from 1 gs ++ rest); [|destruct Hstop].
Qed.

Lemma groups_from_0 gs : groups_from 0 gs = fmt_groups gs.
Proof. by destruct gs. Qed.

Lemma read_given_char_same c l : read_given_char c (c :: l) = Some (tt, l).
Proof. unfold read_given_char. by rewrite Ascii.eqb_refl. Qed.

(** A compressed address reads back as its two halves around the zeros. *)
Lemma read_ipv6_compressed head tail :
  Forall (fits 16) head → Forall (fits 16) tail → (length head + length tail < 8)%nat →
  read_ipv6_addr (fmt_groups head ++ ":"%char :: ":"%char :: fmt_groups tail)
  = Some (of_segments (head ++ replicate (8 - length head - length tail) 0 ++ tail), []).
Proof.
  intros Hh Ht Hlen. unfold read_ipv6_addr. rewrite <-groups_from_0.
  rewrite read_groups_fmt by (done || lia || right; eauto).
  rewrite (proj2 (Nat.eqb_neq _ _)) by lia.
  do 2 (rewrite read_given_char_same; cbn [mbind option_bind]).
  rewrite <-(app_nil_r (fmt_groups tail)), <-groups_from_0.
  by rewrite read_groups_fmt by (done || lia || by left).
Qed.

(** An IPv4-mapped address reads back through its dotted tail. *)
Lemma read_ipv6_mapped v4 : fits 32 v4 →
  read_ipv6_addr (chars "::ffff:" ++ fmt_v4 v4)
  = Some (of_segments [0; 0; 0; 0; 0; 65535; v4 / 2 ^ 16; v4 mod 2 ^ 16], []).
Proof.
  intros Hv4. unfold read_ipv6_addr. cbn [chars app].
  rewrite read_groups_end by (right; eauto). cbn [length Nat.eqb Nat.sub Nat.add].
  do 2 (rewrite read_given_char_same; cbn [mbind option_bind]).
  change ("f" :: "f" :: "f" :: "f" :: ":" :: fmt_v4 v4)%char with (fmt_hex16 65535 ++ ":"%char :: fmt_v4 v4).
  set (k := ":"%char :: fmt_v4 v4).
  assert (read_groups 7 0 (fmt_hex16 65535 ++ k) = ([65535; v4 / 2 ^ 16; v4 mod 2 ^ 16], true, [])) as ->;
    [|reflexivity].
  assert (read_groups 6 1 k = ([v4 / 2 ^ 16; v4 mod 2 ^ 16], true, [])) as Hk.
  { cbn [read_groups Nat.leb]. unfold k, read_separator. rewrite read_given_char_same.
    rewrite <-(app_nil_r (fmt_v4 v4)). by rewrite read_ipv4_fmt. }
  change 7%nat with (S 6). generalize dependent 6%nat. intros n Hk. cbn [read_groups].
  unfold read_separator at 2. rewrite read_u16_fmt by done. rewrite Hk.
  destruct (2 <=? S n)%nat; [|done]. unfold read_separator, fmt_hex16, fmt_radix.
  by rewrite read_ipv4_not_dotted by (done || apply numeral_digits; lia).
Qed.

Lemma ipv4_mapped_inv l v4 : ipv4_mapped l = Some v4 → Forall (fits 16) l →
  fits 32 v4 ∧ l = [0; 0; 0; 0; 0; 65535; v4 / 2 ^ 16; v4 mod 2 ^ 16].
Proof.
  unfold ipv4_mapped. intros H Hl.
  destruct l as [|a [|b [|c [|d [|e [|f [|g [|h [|]]]]]]]]]; try done.
  revert H. case_if; [|done]. intros [= <-]. cbn in Heqb0. bool_prop. subst.
  do 6 (apply Forall_cons_1 in Hl as [_ Hl]). apply Forall_cons_1 in Hl as [Hg Hl].
  apply Forall_cons_1 in Hl as [Hh _]. unfold fits in *. split; [lia|].
  repeat f_equal; Z.to_euclidean_division_equations; lia.
Qed.

Lemma read_ipv6_fmt ip : fits 128 ip → read_ipv6_addr (fmt_v6 ip) = Some (ip, []).
Proof.
  intros Hip. unfold fmt_v6.
  assert (of_segments (segments ip) = ip) as Hval by by apply segs_val.
  pose proof (segs_fits 8 ip : Forall (fits 16) (segments ip)) as Hfits.
  pose proof (length_segs 8 ip : length (segments ip) = 8%nat) as Hlen.
  revert Hval Hfits Hlen. generalize (segments ip). intros l <- Hfits Hlen.
  destruct (ipv4_mapped l) as [v4|] eqn:Hm.
  { apply ipv4_mapped_inv in Hm as [Hv4 Hl]; [|done]. rewrite read_ipv6_mapped, <-Hl by done. done. }
  destruct (zero_run l _ _ _) as [s n] eqn:Hrun. apply zero_run_split in Hrun.
  destruct (1 <? n)%nat eqn:Hn; [apply Nat.ltb_lt in Hn|clear Hrun].
  - assert (length (take s l) + n + length (drop (s + n) l) = 8)%nat as Hl8.
    { rewrite <-Hlen. rewrite Hrun at 3. rewrite !length_app, length_replicate. lia. }
    rewrite read_ipv6_compressed; [|by apply Forall_take|by apply Forall_drop|lia].
    replace (8 - _ - _)%nat with n by lia. by rewrite <-Hrun.
  - unfold read_ipv6_addr. rewrite <-(app_nil_r (fmt_groups l)), <-groups_from_0.
    rewrite read_groups_fmt by (done || lia || by left). by rewrite Hlen.
Qed.

Lemma read_ipv4_v6 ip : read_ipv4_addr (fmt_v6 ip) = None.
Proof.
  unfold fmt_v6. pose proof (segs_fits 8 ip : Forall (fits 16) (segments ip)) as Hfits.
  pose proof (length_segs 8 ip : length (segments ip) = 8%nat) as Hlen.
  destruct (ipv4_mapped _); [done|]. destruct (zero_run _ _ _ _) as [s n].
  destruct (1 <? n)%nat.
  - apply read_ipv4_groups; [by apply Forall_take|right; eauto|done].
  - rewrite <-(app_nil_r (fmt_groups _)). apply read_ipv4_groups; [done|by left|].
    by intros E; rewrite E in Hlen.
Qed.

(** Every address is read back from its text. *)
Lemma parse_ip_fmt a : ip_ok a → parse_ip (fmt_ip a) = Some a.
Proof.
  destruct a as [ip|ip]; cbn [ip_ok fmt_ip]; intros Hip; unfold parse_ip, parse_with.
  - rewrite <-(app_nil_r (fmt_v4 ip)). by rewrite read_ipv4_fmt.
  - by rewrite read_ipv4_v6, read_ipv6_fmt.
Qed.

(** ** What the parsers accept is an address *)

Lemma to_digit_range radix c d : to_digit radix c = Some d → 0 ≤ d < radix.
Proof.
  unfold to_digit. destruct (_ <? radix) eqn:Hd; [|done]. intros [= <-]. bool_prop.
  repeat case_if; bool_prop; lia.
Qed.

Lemma span_digits_range radix l : Forall (fun d => 0 ≤ d < radix) (span_digits radix l).1.
Proof.
  induction l as [|c l IH]; cbn; [done|]. destruct (to_digit radix c) eqn:E; [|done].
  destruct (span_digits radix l). apply to_digit_range in E. by constructor.
Qed.

Lemma digits_val_nonneg radix ds :
  0 ≤ radix → Forall (fun d => 0 ≤ d < radix) ds → 0 ≤ digits_val radix ds.
Proof.
  intros Hr. induction ds as [|d ds IH] using rev_ind; intros Hds; [done|].
  apply Forall_app in Hds as [Hds [Hd _]%Forall_cons_1].
  rewrite digits_val_app. specialize (IH Hds). nia.
Qed.

Lemma read_number_range radix max allow bound l v k :
  0 ≤ radix → read_number radix max allow bound l = Some (v, k) → 0 ≤ v ≤ bound.
Proof.
  intros Hr. unfold read_number. pose proof (span_digits_range radix l) as Hds.
  destruct (span_digits radix l) as [ds rest]. apply digits_val_nonneg in Hds; [|done].
  destruct ds as [|d ds]; repeat case_if; intros [=]; subst; bool_prop; cbn [fst] in *; lia.
Qed.

Lemma parse_u8_range l n : parse_u8 l = Some n → fits 8 n.
Proof.
  unfold parse_u8. set (k := match l with [] => l | _ => _ end). clearbody k.
  pose proof (digits_val_nonneg 10 _ ltac:(lia) (span_digits_range 10 k)) as Hv.
  destruct k as [|c k]; [done|]. destruct (span_digits 10 _) as [ds []]; [|done].
  case_if; [|done]. intros [= <-]. bool_prop. unfold fits. cbn [fst] in Hv. lia.
Qed.

Lemma read_separator_inv {A} sep i (p : parser A) l a k :
  read_separator sep i p l = Some (a, k) → ∃ l', p l' = Some (a, k).
Proof.
  unfold read_separator. destruct i; [eauto|]. destruct (read_given_char sep l) as [[]|]; naive_solver.
Qed.

Lemma read_ipv4_range l ip k : read_ipv4_addr l = Some (ip, k) → fits 32 ip.
Proof.
  unfold read_ipv4_addr. intros H.
  repeat match goal with
  | H : (_ ≫= _) = Some _ |- _ => let Hn := fresh "Hn" in apply bind_Some in H as ([? ?] & Hn & H);
      apply read_separator_inv in Hn as [? Hn]; apply read_number_range in Hn; [|lia]
  end.
  injection H as <- <-. unfold fits, ipv4_new. lia.
Qed.

Lemma read_groups_range n : ∀ i l gs dotted k,
  read_groups n i l = (gs, dotted, k) → Forall (fits 16) gs ∧ (length gs ≤ n)%nat.
Proof.
  induction n as [|n IH]; intros i l gs dotted k; cbn [read_groups]; [by intros [= <- <- <-]|].
  destruct (if (2 <=? S n)%nat then read_separator ":"%char i read_ipv4_addr l else None)
    as [[v4 rest]|] eqn:Hv4.
  { destruct (2 <=? S n)%nat eqn:Hn; [|done]. apply Nat.leb_le in Hn.
    apply read_separator_inv in Hv4 as [? Hv4%read_ipv4_range]. intros [= <- <- <-].
    split; [|cbn; lia]. unfold fits in *.
    repeat constructor; Z.to_euclidean_division_equations; lia. }
  destruct (read_separator ":"%char i (read_number 16 4 true 65535) l) as [[g rest]|] eqn:Hg;
    [|intros [= <- <- <-]; split; [done|cbn; lia]].
  apply read_separator_inv in Hg as [? Hg%read_number_range]; [|lia].
  destruct (read_groups n (S i) rest) as [[gs' b] k'] eqn:E. apply IH in E as [? ?].
  intros [= <- <- <-]. split; [|cbn; lia]. constructor; [unfold fits; lia|done].
Qed.

Lemma of_segments_fits l : Forall (fits 16) l → 0 ≤ of_segments l < 2 ^ (16 * len l).
Proof.
  unfold of_segments. induction l as [|g l IH] using rev_ind; intros Hl; [by split|].
  apply Forall_app in Hl as [Hl [Hg _]%Forall_cons_1]. rewrite fold_left_app; cbn [fold_left].
  specialize (IH Hl). pose proof (len_nonneg l).
  rewrite len_app. change (len [g]) with 1. rewrite Z.mul_add_distr_l, Z.pow_add_r by lia.
  unfold fits in Hg. nia.
Qed.

Lemma read_ipv6_range l ip k : read_ipv6_addr l = Some (ip, k) → fits 128 ip.
Proof.
  unfold read_ipv6_addr. destruct (read_groups 8 0 l) as [[gs dotted] r] eqn:Hh.
  apply read_groups_range in Hh as [Hh Hlen].
  destruct (Nat.eqb_spec (length gs) 8) as [E|E].
  { intros [= <- <-]. apply of_segments_fits in Hh. unfold len in Hh. rewrite E in Hh.
    by replace (16 * Z.of_nat 8) with 128 in Hh by lia. }
  destruct dotted; [done|]. intros H.
  apply bind_Some in H as ([[] r1] & _ & H). apply bind_Some in H as ([[] r2] & _ & H).
  destruct (read_groups _ 0 r2) as [[ts ?] r3] eqn:Ht. apply read_groups_range in Ht as [Ht Htl].
  injection H as <- <-.
  assert (Forall (fits 16) (gs ++ replicate (8 - length gs - length ts) 0 ++ ts)) as Hall.
  { rewrite !Forall_app. split_and!; [done|by apply Forall_replicate|done]. }
  apply of_segments_fits in Hall. unfold len in Hall.
  rewrite !length_app, length_replicate in Hall.
  by replace (16 * _) with 128 in Hall by lia.
Qed.

Lemma parse_ip_ok l a : parse_ip l = Some a → ip_ok a.
Proof.
  unfold parse_ip, parse_with. destruct (read_ipv4_addr l) as [[ip []]|] eqn:E4.
  - intros [= <-]. by apply read_ipv4_range in E4.
  - done.
  - destruct (read_ipv6_addr l) as [[ip []]|] eqn:E6; [|done..].
    intros [= <-]. by apply read_ipv6_range in E6.
Qed.

(** ** Printed addresses are free of separators *)

Lemma fmt_radix_not c fuel radix z :
  2 ≤ radix ≤ 16 → 0 ≤ z → to_digit 16 c = None → Forall (.≠ c) (fmt_radix fuel radix z).
Proof.
  intros Hr Hz Hc. apply Forall_map. eapply Forall_impl; [|apply (numeral_digits fuel radix z); lia].
  intros d Hd <-. cbn in Hd. rewrite to_digit_char in Hc by lia. done.
Qed.

Lemma fmt_v4_not c ip : fits 32 ip → to_digit 16 c = None → c ≠ "."%char → Forall (.≠ c) (fmt_v4 ip).
Proof.
  intros Hip Hc Hdot. unfold fmt_v4.
  destruct (octets_new ip Hip) as (a & b & x & d & -> & _ & Ha & Hb & Hx & Hd). unfold fits in *.
  repeat (apply Forall_app; split; [apply fmt_radix_not; done || lia|]; constructor; [done|]).
  apply fmt_radix_not; done || lia.
Qed.

Lemma fmt_groups_not c gs :
  Forall (fits 16) gs → to_digit 16 c = None → c ≠ ":"%char → Forall (.≠ c) (fmt_groups gs).
Proof.
  intros Hgs Hc Hcol. induction Hgs as [|g gs Hg _ IH]; [done|]. rewrite fmt_groups_cons.
  unfold fits in Hg. apply Forall_app; split; [apply fmt_radix_not; done || lia|].
  destruct gs; [done|]. by constructor.
Qed.

Lemma fmt_ip_not c a :
  ip_ok a → to_digit 16 c = None → c ≠ "."%char → c ≠ ":"%char → Forall (.≠ c) (fmt_ip a).
Proof.
  destruct a as [ip|ip]; cbn [ip_ok fmt_ip]; intros Hip Hc Hdot Hcol; [by apply fmt_v4_not|].
  pose proof (segs_fits 8 ip : Forall (fits 16) (segments ip)) as Hs. unfold fmt_v6.
  destruct (ipv4_mapped _) as [v4|] eqn:Hm.
  - apply ipv4_mapped_inv in Hm as [Hv4 _]; [|done].
    apply Forall_app; split; [|by apply fmt_v4_not].
    repeat constructor; try done; by intros <-.
  - destruct (zero_run _ _ _ _) as [s n]. case_if; [|by apply fmt_groups_not].
    apply Forall_app; split; [apply fmt_groups_not; [by apply Forall_take|done..]|].
    do 2 (constructor; [done|]). apply fmt_groups_not; [by apply Forall_drop|done..].
Qed.

Lemma split_once_app c l k : Forall (.≠ c) l → split_once c (l ++ c :: k) = Some (l, k).
Proof.
  induction 1 as [|x l Hx _ IH]; cbn; [by rewrite Ascii.eqb_refl|].
  destruct (Ascii.eqb_spec x c); [done|]. by rewrite IH.
Qed.

(** ** Texts determine what they print *)

Lemma chars_append (a b : string) : chars (a ++ b)%string = chars a ++ chars b.
Proof. induction a as [|c a IH]; [done|]. change (c :: chars (a ++ b)%string = c :: (chars a ++ chars b)). by rewrite IH. Qed.

Lemma text_inj a b : text a = text b → a = b.
Proof. intros H. by rewrite <-(list_ascii_of_string_of_list_ascii a), H, list_ascii_of_string_of_list_ascii. Qed.

Lemma map_digit_char_inj ds ds' :
  Forall (fun d => 0 ≤ d < 10) ds → Forall (fun d => 0 ≤ d < 10) ds' →
  map digit_char ds = map digit_char ds' → ds = ds'.
Proof.
  intros H H' E.
  pose proof (span_digits_app 10 ds [] ltac:(lia) H I) as H1.
  pose proof (span_digits_app 10 ds' [] ltac:(lia) H' I) as H2.
  rewrite app_nil_r in *. congruence.
Qed.

Lemma fmt_dec_inj a b : fits 64 a → fits 64 b → fmt_dec a = fmt_dec b → a = b.
Proof.
  unfold fits, fmt_dec, fmt_radix. intros Ha Hb E.
  apply map_digit_char_inj in E; [|apply numeral_digits; lia..].
  rewrite <-(numeral_val 20 10 a), <-(numeral_val 20 10 b), E by lia. done.
Qed.
