(* ===== verification/Prefix.v ===== *)
(** * IP prefixes and allowed-ip entries

    [IpPrefix] of the SDK (sdk/rust/src/prefix.rs): a CIDR whose host bits are
    cleared on parsing; the control plane's [normalize_prefix] and
    [is_default_prefix] (control-server/src/domain.rs), and [AllowedIP] of the node
    (engine/core/fp-node-core/src/allowed_ip.rs). *)

From Stdlib Require Import Strings.Ascii Strings.String.
From S2P Require Import Prelude.
From S2P Require Import Words.
From S2P Require Import NetAddr.
From S2P Require Import NetText.

Record IpPrefix := mkPrefix { network : IpAddr; length_ : Z }.

#[global] Instance IpPrefix_eq_dec : EqDecision IpPrefix.
Proof. solve_decision. Defined.

Inductive PrefixError := InvalidLength | InvalidAddress | LengthOutOfRange.

(** [if length == 0 { 0 } else { MAX << (width - length) }]. *)
Definition prefix_mask (width length : Z) : Z :=
  if length =? 0 then 0 else wrap width (Z.shiftl (2 ^ width - 1) (width - length)).

(** [IpPrefix::from_str]. *)
Definition from_str (value : list ascii) : res PrefixError IpPrefix :=
  '(address, length) ←
    match split_once "/"%char value with
    | Some (address, length) =>
        n ← ok_or (parse_u8 length) InvalidLength;
        Ok (address, Some n)
    | None => Ok (value, None)
    end;
  address ← ok_or (parse_ip address) InvalidAddress;
  let length :=
    match length with
    | Some n => n
    | None => match address with V4 _ => 32 | V6 _ => 128 end
    end in
  match address with
  | V4 ip =>
      if length <=? 32
      then Ok (mkPrefix (V4 (Z.land ip (prefix_mask 32 length))) length) else Err LengthOutOfRange
  | V6 ip =>
      if length <=? 128
      then Ok (mkPrefix (V6 (Z.land ip (prefix_mask 128 length))) length) else Err LengthOutOfRange
  end.

(** [IpPrefix::contains]. *)
Definition contains (p : IpPrefix) (address : IpAddr) : bool :=
  match network p, address with
  | V4 net, V4 a => Z.land a (prefix_mask 32 (length_ p)) =? net
  | V6 net, V6 a => Z.land a (prefix_mask 128 (length_ p)) =? net
  | _, _ => false
  end.

(** [impl Display for IpPrefix]. *)
Definition fmt_prefix (p : IpPrefix) : list ascii :=
  fmt_ip (network p) ++ "/"%char :: fmt_dec (length_ p).

(** [domain::is_default_prefix]. *)
Definition is_default_prefix (prefix : string) : bool :=
  match from_str (chars prefix) with Ok p => length_ p =? 0 | _ => false end.

(** [domain::normalize_prefix]. *)
Definition normalize_prefix (value : string) : option string :=
  if existsb (Ascii.eqb "/"%char) (chars value)
  then match from_str (chars value) with Ok p => Some (text (fmt_prefix p)) | _ => None end
  else None.

(** [AllowedIP]. *)
Record AllowedIP := mkAllowedIP { addr : IpAddr; cidr : Z }.

(** [str::split(c)], collected. *)
Fixpoint split (c : ascii) (l : list ascii) : list (list ascii) :=
  match l with
  | [] => [[]]
  | x :: l =>
      if Ascii.eqb x c then [] :: split c l
      else match split c l with part :: parts => (x :: part) :: parts | [] => [[x]] end
  end.

(** [AllowedIP::from_str]; its error is the one message Invalid IP format. *)
Definition allowed_ip_from_str (s : list ascii) : res unit AllowedIP :=
  match split "/"%char s with
  | [a; c] =>
      match parse_ip a, parse_u8 c with
      | Some (V4 ip), Some cidr => if cidr <=? 32 then Ok (mkAllowedIP (V4 ip) cidr) else Err tt
      | Some (V6 ip), Some cidr => if cidr <=? 128 then Ok (mkAllowedIP (V6 ip) cidr) else Err tt
      | _, _ => Err tt
      end
  | _ => Err tt
  end.

(** ** Masks *)

Definition width (a : IpAddr) : Z := match a with V4 _ => 32 | V6 _ => 128 end.
Definition value (a : IpAddr) : Z := match a with V4 ip | V6 ip => ip end.

(** The two addresses are of one family. *)
Definition same_family (a b : IpAddr) : Prop :=
  match a, b with V4 _, V4 _ | V6 _, V6 _ => True | _, _ => False end.

(** A prefix whose length fits its family and whose host bits are clear. *)
Definition prefix_ok (p : IpPrefix) : Prop :=
  ip_ok (network p) ∧ 0 ≤ length_ p ≤ width (network p)
  ∧ value (network p) mod 2 ^ (width (network p) - length_ p) = 0.

(** The address lies in the range of [2 ^ (width - length)] addresses from the network. *)
Definition in_range (p : IpPrefix) (a : IpAddr) : Prop :=
  same_family (network p) a
  ∧ value (network p) ≤ value a < value (network p) + 2 ^ (width (network p) - length_ p).

Lemma land_prefix_mask w n x :
  0 ≤ n ≤ w → fits w x → Z.land x (prefix_mask w n) = x - x mod 2 ^ (w - n).
Proof.
  intros Hn Hx. unfold prefix_mask. case_if; bool_prop.
  { subst n. rewrite Z.land_0_r, Z.sub_0_r, Z.mod_small by done. lia. }
  rewrite <-(land_clear_low w) by (done || lia). f_equal. unfold wrap.
  rewrite Z.shiftl_mul_pow2 by lia. rewrite <-(Z.mod_add (Z.lnot _) (2 ^ (w - n)) (2 ^ w)) by lia.
  f_equal. unfold Z.ones. rewrite Z.shiftl_mul_pow2, Z.mul_1_l by lia. unfold Z.lnot. lia.
Qed.

Lemma mask_clears w n x :
  0 ≤ n ≤ w → fits w x →
  fits w (Z.land x (prefix_mask w n)) ∧ Z.land x (prefix_mask w n) mod 2 ^ (w - n) = 0.
Proof.
  intros Hn Hx. rewrite land_prefix_mask by done.
  pose proof (Z.pow_pos_nonneg 2 (w - n) ltac:(lia) ltac:(lia)) as Hk.
  pose proof (Z.mod_pos_bound x _ Hk). pose proof (Z.mod_le x _ ltac:(unfold fits in Hx; lia) Hk).
  split; [unfold fits in *; lia|].
  by rewrite Zminus_mod_idemp_r, Z.sub_diag.
Qed.

(** The mask test is the range test. *)
Lemma land_mask_range w n x net :
  0 ≤ n ≤ w → fits w x → net mod 2 ^ (w - n) = 0 →
  Z.land x (prefix_mask w n) = net ↔ net ≤ x < net + 2 ^ (w - n).
Proof.
  intros Hn Hx Hnet. rewrite land_prefix_mask by done.
  pose proof (Z.pow_pos_nonneg 2 (w - n) ltac:(lia) ltac:(lia)) as Hk.
  pose proof (Z.mod_pos_bound x _ Hk) as Hm. split; [lia|]. intros Hr.
  assert (x mod 2 ^ (w - n) = x - net); [|lia].
  rewrite <-(Z.mod_small (x - net) (2 ^ (w - n))) by lia.
  by rewrite Zminus_mod, Hnet, Z.sub_0_r, Zmod_mod.
Qed.

Lemma from_str_ok l p : from_str l = Ok p → prefix_ok p.
Proof.
  unfold from_str. intros H. apply bind_Ok_inv in H as ([address len_] & Hlen & H).
  assert (∀ n, len_ = Some n → 0 ≤ n) as Hpos.
  { destruct (split_once "/"%char l) as [[a b]|]; res_inv; [|done].
    destruct (parse_u8 b) eqn:E; cbn in *; res_inv. apply parse_u8_range in E. intros n [= <-]. apply E. }
  destruct (parse_ip address) as [a|] eqn:Ha; [|done]. apply parse_ip_ok in Ha. cbn -[prefix_mask] in H.
  set (n := match len_ with Some n => n | None => _ end) in *.
  assert (0 ≤ n) as Hn by (destruct len_; [by apply Hpos|by destruct a]). clearbody n.
  destruct a as [ip|ip]; destruct (n <=? _) eqn:Hle; try done; apply Ok_inj in H as <-; bool_prop.
  all: destruct (mask_clears _ n ip (conj Hn Hle) Ha); unfold prefix_ok; cbn [network length_ width value ip_ok].
  all: split_and!; done || lia.
Qed.

Lemma from_str_fmt p : prefix_ok p → from_str (fmt_prefix p) = Ok p.
Proof.
  intros (Hip & Hlen & Hmod). unfold from_str, fmt_prefix.
  rewrite split_once_app by by apply fmt_ip_not. 
  assert (fits 8 (length_ p)) by (unfold fits; destruct (network p); cbn in *; lia).
  rewrite parse_u8_fmt by done. cbn -[prefix_mask parse_ip]. rewrite parse_ip_fmt by done. cbn -[prefix_mask].
  destruct p as [[ip|ip] n]; cbn [network length_ width value ip_ok] in *;
    rewrite (proj2 (Z.leb_le _ _)) by lia; rewrite land_prefix_mask, Hmod, Z.sub_0_r by done; done.
Qed.

(** Membership in a prefix is membership in its address range: for a
    well-formed prefix, [contains] holds exactly of the addresses of the same family
    among the [2^(width - length)] that start at the network address.  A zero
    length contains the whole family (the shift by the full width is avoided). *)
Lemma prefix_contains_range p a :
  prefix_ok p → ip_ok a → contains p a = true ↔ in_range p a.
Proof.
  intros (Hip & Hlen & Hmod) Ha. unfold contains, in_range.
  destruct p as [[net|net] n], a as [x|x]; cbn [network length_ width value ip_ok same_family] in *;
    try (split; [done|by intros []]).
  all: rewrite Z.eqb_eq, land_mask_range by done; tauto.
Qed.

(** Normalised route prefixes are canonical: what [normalize_prefix] accepts is
    rewritten to a text that parses to the same prefix (host bits cleared) and that
    normalisation leaves alone, and two texts of one prefix get one text. *)
Lemma normalize_prefix_canonical s t :
  normalize_prefix s = Some t →
  ∃ p, prefix_ok p ∧ from_str (chars s) = Ok p ∧ from_str (chars t) = Ok p
    ∧ normalize_prefix t = Some t
    ∧ ∀ s', normalize_prefix s' ≠ None → from_str (chars s') = Ok p → normalize_prefix s' = Some t.
Proof.
  unfold normalize_prefix. destruct (existsb _ _); [|done].
  destruct (from_str (chars s)) as [p|e|] eqn:Hp; [|done..]. intros [= <-].
  pose proof (from_str_ok _ _ Hp) as Hok.
  assert (from_str (chars (text (fmt_prefix p))) = Ok p) as Ht.
  { rewrite list_ascii_of_string_of_list_ascii. by apply from_str_fmt. }
  exists p. split_and!; [done..| |].
  - rewrite Ht. destruct (existsb _ _) eqn:E; [done|]. exfalso. revert E.
    rewrite list_ascii_of_string_of_list_ascii. unfold fmt_prefix.
    by rewrite existsb_app, orb_true_r.
  - intros s' Hs' Hp'. destruct (existsb _ (chars s')); [|done]. by rewrite Hp'.
Qed.

Lemma split_split_once c l :
  split c l = match split_once c l with Some (a, b) => a :: split c b | None => [l] end.
Proof.
  induction l as [|x l IH]; cbn; [done|]. destruct (Ascii.eqb x c); [done|].
  rewrite IH. by destruct (split_once c l) as [[a b]|].
Qed.

Lemma split_nonempty c l : split c l ≠ [].
Proof. rewrite split_split_once. by destruct (split_once c l) as [[]|]. Qed.

Lemma split_once_None c l : Forall (.≠ c) l → split_once c l = None.
Proof.
  induction 1 as [|x l Hx _ IH]; cbn; [done|]. destruct (Ascii.eqb_spec x c); [done|]. by rewrite IH.
Qed.

Lemma split_once_existsb c l : is_Some (split_once c l) ↔ existsb (Ascii.eqb c) l = true.
Proof.
  induction l as [|x l IH]; cbn; [by split; [intros []|]|].
  rewrite (Ascii.eqb_sym c x). destruct (Ascii.eqb x c); [by split|]. cbn. rewrite <-IH.
  destruct (split_once c l) as [[]|]; split; intros [? ?]; done || by eexists.
Qed.

Lemma span_digits_all radix c l : to_digit radix c = None → (span_digits radix l).2 = [] → Forall (.≠ c) l.
Proof.
  intros Hc. induction l as [|x l IH]; cbn; [done|]. destruct (to_digit radix x) eqn:E; [|done].
  destruct (span_digits radix l) as [ds r]. cbn in *. intros ->.
  constructor; [congruence|by apply IH].
Qed.

Lemma parse_u8_no_slash l n : parse_u8 l = Some n → Forall (.≠ "/"%char) l.
Proof.
  unfold parse_u8. destruct l as [|x l]; [done|]. destruct (Ascii.eqb_spec x "+"%char) as [->|_].
  - destruct l as [|y l]; [done|]. destruct (span_digits 10 (y :: l)) as [ds []] eqn:E; [|done].
    intros _. constructor; [done|]. by apply (span_digits_all 10); [|rewrite E].
  - destruct (span_digits 10 (x :: l)) as [ds []] eqn:E; [|done].
    intros _. by apply (span_digits_all 10); [|rewrite E].
Qed.

(** The node's [AllowedIP] parser and the control plane's prefix parser agree: a
    text is an allowed ip exactly when [normalize_prefix] accepts it, and the
    parsed prefix is the parsed address with its host bits cleared. *)
Lemma allowed_ip_agrees s :
  match allowed_ip_from_str (chars s) with
  | Ok a => ∃ p, from_str (chars s) = Ok p ∧ is_Some (normalize_prefix s) ∧ length_ p = cidr a
      ∧ in_range p (addr a)
  | _ => normalize_prefix s = None
  end.
Proof.
  unfold allowed_ip_from_str, normalize_prefix. rewrite split_split_once.
  pose proof (split_once_existsb "/"%char (chars s)) as Hex.
  unfold from_str. destruct (split_once "/"%char (chars s)) as [[a b]|].
  2: { destruct (existsb _ _); [|done]. by destruct (proj2 Hex eq_refl). }
  rewrite (proj1 Hex) by eauto. destruct (parse_u8 b) as [n|] eqn:Hb.
  2: { destruct (split _ b) as [|b' [|? ?]] eqn:E; try done.
       rewrite split_split_once in E. destruct (split_once _ b) as [[? k]|].
       { injection E as _ E. by apply split_nonempty in E. }
       injection E as <-. rewrite Hb. destruct (parse_ip a) as [[]|]; done. }
  rewrite (split_split_once _ b), split_once_None, Hb by by eapply parse_u8_no_slash.
  pose proof (parse_u8_range _ _ Hb) as [Hn _].
  cbn -[prefix_mask fmt_prefix parse_ip].
  destruct (parse_ip a) as [ip|] eqn:Hip; [|done]. apply parse_ip_ok in Hip.
  destruct ip as [ip|ip]; cbn -[prefix_mask fmt_prefix]; destruct (n <=? _) eqn:Hle; try done; bool_prop.
  all: eexists; split_and!; [done|by eexists|done|].
  all: destruct (mask_clears _ n ip (conj Hn Hle) Hip) as [_ Hm]; split; [done|].
  all: cbn [network length_ width value]; by apply land_mask_range.
Qed.

