(* ===== verification/RouteTable.v ===== *)
(** * Cryptokey routing (node/src/worker.rs, engine/crypto/fp-crypto/src/lib.rs)

    The node's routing snapshot: which peer (and which worker owning it) an IP
    packet from the TUN goes to, and whether a decrypted packet's source belongs to
    the peer that sent it.  A snapshot is rebuilt by [with_peer] for one peer at a
    time and kept sorted, longest prefix first and smaller public key first among
    equal lengths, so that a lookup is the first entry that matches. *)

From stdpp Require Import sorting.
From Stdlib Require Import Strings.Ascii Strings.String.
From S2P Require Import Prelude.
From S2P Require Import Words.
From S2P Require Import NetAddr.
From S2P Require Import NetText.
From S2P Require Import Prefix.

(** ** Addresses of an IP packet *)

Definition IPV4_MIN_HEADER_SIZE : Z := 20.
Definition IPV4_SRC_IP_OFF : nat := 12.
Definition IPV4_DST_IP_OFF : nat := 16.
Definition IPV4_IP_SZ : nat := 4.
Definition IPV6_MIN_HEADER_SIZE : Z := 40.
Definition IPV6_SRC_IP_OFF : nat := 8.
Definition IPV6_DST_IP_OFF : nat := 24.
Definition IPV6_IP_SZ : nat := 16.

(** [packet\[off..off + n\].try_into().ok()?]: the header length is checked before. *)
Definition addr_bytes (packet : list byte) (off n : nat) : option (list byte) :=
  let l := take n (drop off packet) in if (length l =? n)%nat then Some l else None.

Definition dst_address (packet : list byte) : option IpAddr :=
  match packet with
  | [] => None
  | b :: _ =>
      let version := Z.shiftr (b2z b) 4 in
      if (version =? 4) && (IPV4_MIN_HEADER_SIZE <=? len packet)
      then l ← addr_bytes packet IPV4_DST_IP_OFF IPV4_IP_SZ; Some (V4 (be_val l))
      else if (version =? 6) && (IPV6_MIN_HEADER_SIZE <=? len packet)
      then l ← addr_bytes packet IPV6_DST_IP_OFF IPV6_IP_SZ; Some (V6 (be_val l))
      else None
  end.

Definition src_address (packet : list byte) : option IpAddr :=
  match packet with
  | [] => None
  | b :: _ =>
      let version := Z.shiftr (b2z b) 4 in
      if (version =? 4) && (IPV4_MIN_HEADER_SIZE <=? len packet)
      then l ← addr_bytes packet IPV4_SRC_IP_OFF IPV4_IP_SZ; Some (V4 (be_val l))
      else if (version =? 6) && (IPV6_MIN_HEADER_SIZE <=? len packet)
      then l ← addr_bytes packet IPV6_SRC_IP_OFF IPV6_IP_SZ; Some (V6 (be_val l))
      else None
  end.

(** ** The table *)

#[global] Instance IpAddr_countable : Countable IpAddr.
Proof.
  refine (inj_countable' (fun a => match a with V4 ip => inl ip | V6 ip => inr ip end)
    (fun x => match x with inl ip => V4 ip | inr ip => V6 ip end) _); by intros [].
Defined.
#[global] Instance IpPrefix_countable : Countable IpPrefix.
Proof.
  refine (inj_countable' (fun p => (network p, length_ p)) (fun x => mkPrefix x.1 x.2) _); by intros [].
Defined.

Record RouteEntry := mkRoute { prefix : IpPrefix; peer : list byte; worker : Z }.

Record RouteTable := mkTable { routes : list RouteEntry; conflicts : gset IpPrefix }.

(** [RouteTable::default()]. *)
Definition table_default : RouteTable := mkTable [] ∅.

(** [Ord] of byte arrays is lexicographic. *)
Fixpoint bytes_cmp (a b : list byte) : comparison :=
  match a, b with
  | [], [] => Eq
  | [], _ => Lt
  | _, [] => Gt
  | x :: a, y :: b => match b2z x ?= b2z y with Eq => bytes_cmp a b | c => c end
  end.

(** [b.prefix.length().cmp(&a.prefix.length()).then(a.peer.cmp(&b.peer))]. *)
Definition route_cmp (a b : RouteEntry) : comparison :=
  match length_ (prefix b) ?= length_ (prefix a) with
  | Eq => bytes_cmp (peer a) (peer b)
  | c => c
  end.

(** [sort_by]: a stable sort. *)
Fixpoint insert_sorted {A} (cmp : A → A → comparison) (x : A) (l : list A) : list A :=
  match l with
  | [] => [x]
  | y :: k => match cmp x y with Gt => y :: insert_sorted cmp x k | _ => x :: l end
  end.
Definition sort_by {A} (cmp : A → A → comparison) (l : list A) : list A :=
  foldr (insert_sorted cmp) [] l.

(** [s.parse().ok()] of each allowed ip, in order. *)
Definition parse_prefixes (prefixes : list string) : list IpPrefix :=
  omap (fun s => match from_str (chars s) with Ok p => Some p | _ => None end) prefixes.

(** One turn of the loop that finds the prefixes two peers claim; the last component
    collects the calls of [warn]. *)
Definition conflict_step (old : gset IpPrefix)
    (acc : gmap IpPrefix (list byte) * gset IpPrefix * list IpPrefix) (entry : RouteEntry)
    : gmap IpPrefix (list byte) * gset IpPrefix * list IpPrefix :=
  let '(owners, conflicts, warned) := acc in
  match owners !! prefix entry with
  | None => (<[prefix entry := peer entry]> owners, conflicts, warned)
  | Some owner =>
      if bool_decide (owner ≠ peer entry) && bool_decide (prefix entry ∉ conflicts)
      then (owners, {[prefix entry]} ∪ conflicts,
            if bool_decide (prefix entry ∉ old) then warned ++ [prefix entry] else warned)
      else acc
  end.

Definition with_peer_report (t : RouteTable) (p : list byte) (w : Z) (prefixes : list string)
    : RouteTable * list IpPrefix :=
  let kept := filter (fun r => peer r ≠ p) (routes t) in
  let added := map (fun x => mkRoute x p w) (parse_prefixes prefixes) in
  let routes := sort_by route_cmp (kept ++ added) in
  let '(_, conflicts, warned) := foldl (conflict_step (conflicts t)) (∅, ∅, []) routes in
  (mkTable routes conflicts, warned).

Definition with_peer (t : RouteTable) (p : list byte) (w : Z) (prefixes : list string) : RouteTable :=
  (with_peer_report t p w prefixes).1.

(** The first route whose prefix contains the address. *)
Definition find_route (t : RouteTable) (a : IpAddr) : option RouteEntry :=
  list_find (fun r => contains (prefix r) a = true) (routes t) ≫= fun x => Some x.2.

Definition route_tun (pkt : list byte) (allowed : RouteTable) : option (list byte * Z) :=
  dst ← dst_address pkt;
  r ← find_route allowed dst;
  Some (peer r, worker r).

Definition accepts_source (t : RouteTable) (p : list byte) (packet : list byte) : bool :=
  match src_address packet with
  | Some source =>
      match find_route t source with Some r => bool_decide (peer r = p) | None => false end
  | None => false
  end.

(** ** Specification

    A configuration gives each peer its worker and its allowed ips; the last report
    of a peer counts. *)

Abbreviation Config := (gmap (list byte) (Z * list string)).

Definition report : Type := list byte * Z * list string.

Definition config_of (reports : list report) : Config :=
  foldl (fun cfg '(p, w, l) => <[p := (w, l)]> cfg) ∅ reports.

Definition table_of (reports : list report) : RouteTable :=
  foldl (fun t '(p, w, l) => with_peer t p w l) table_default reports.

(** [p] claims a prefix of length [n] that contains [a]. *)
Definition claims (cfg : Config) (a : IpAddr) (p : list byte) (w n : Z) : Prop :=
  ∃ l x, cfg !! p = Some (w, l) ∧ x ∈ parse_prefixes l ∧ contains x a = true ∧ length_ x = n.

(** The owner of an address: the peer of the longest prefix that contains it, the
    smallest public key among several. *)
Definition owns (cfg : Config) (a : IpAddr) (p : list byte) (w : Z) : Prop :=
  ∃ n, claims cfg a p w n ∧
    ∀ p' w' n', claims cfg a p' w' n' → n' < n ∨ n' = n ∧ bytes_cmp p p' ≠ Gt.

(** ** The order *)

Lemma bytes_cmp_refl a : bytes_cmp a a = Eq.
Proof. induction a as [|x a IH]; cbn; [done|]. by rewrite Z.compare_refl. Qed.

Lemma bytes_cmp_eq a b : bytes_cmp a b = Eq → a = b.
Proof.
  revert b. induction a as [|x a IH]; intros [|y b]; cbn; try done.
  destruct (Z.compare_spec (b2z x) (b2z y)) as [E| |]; try done.
  intros ->%IH. by apply b2z_inj in E as ->.
Qed.

Lemma bytes_cmp_opp a b : bytes_cmp b a = CompOpp (bytes_cmp a b).
Proof.
  revert b. induction a as [|x a IH]; intros [|y b]; cbn; try done.
  rewrite Z.compare_antisym. destruct (b2z x ?= b2z y); cbn; [apply IH|done..].
Qed.

Lemma bytes_cmp_trans a b c : bytes_cmp a b ≠ Gt → bytes_cmp b c ≠ Gt → bytes_cmp a c ≠ Gt.
Proof.
  revert b c. induction a as [|x a IH]; intros [|y b] [|z c]; cbn; try done.
  destruct (Z.compare_spec (b2z x) (b2z y)), (Z.compare_spec (b2z y) (b2z z)),
    (Z.compare_spec (b2z x) (b2z z)); try done; try lia. apply IH.
Qed.

(** What [sort_by] needs of a comparison. *)
Class TotalCmp {A} (cmp : A → A → comparison) : Prop := {
  cmp_total : ∀ a b, cmp a b = Gt → cmp b a ≠ Gt;
  cmp_trans : ∀ a b c, cmp a b ≠ Gt → cmp b c ≠ Gt → cmp a c ≠ Gt
}.

#[export] Instance route_cmp_total : TotalCmp route_cmp.
Proof.
  split; unfold route_cmp.
  - intros a b. destruct (Z.compare_spec (length_ (prefix b)) (length_ (prefix a))) as [E|E|E],
      (Z.compare_spec (length_ (prefix a)) (length_ (prefix b))); try done; try lia.
    rewrite (bytes_cmp_opp (peer a)). by destruct (bytes_cmp _ _).
  - intros a b c.
    destruct (Z.compare_spec (length_ (prefix b)) (length_ (prefix a))),
      (Z.compare_spec (length_ (prefix c)) (length_ (prefix b))),
      (Z.compare_spec (length_ (prefix c)) (length_ (prefix a))); try done; try lia.
    apply bytes_cmp_trans.
Qed.

Section Sort.
Context {A : Type} (cmp : A → A → comparison) `{!TotalCmp cmp}.

Lemma insert_sorted_perm x l : insert_sorted cmp x l ≡ₚ x :: l.
Proof.
  induction l as [|y l IH]; cbn; [done|]. destruct (cmp x y); try done.
  rewrite IH. apply Permutation_swap.
Qed.

Lemma sort_by_perm l : sort_by cmp l ≡ₚ l.
Proof. induction l as [|x l IH]; cbn; [done|]. by rewrite insert_sorted_perm, IH. Qed.

Lemma insert_sorted_sorted x l :
  StronglySorted (fun a b => cmp a b ≠ Gt) l →
  StronglySorted (fun a b => cmp a b ≠ Gt) (insert_sorted cmp x l).
Proof.
  induction 1 as [|y l Hl IH Hy]; cbn; [by repeat constructor|].
  assert (cmp x y ≠ Gt → StronglySorted (fun a b => cmp a b ≠ Gt) (x :: y :: l)) as Hle.
  { intros Hxy. repeat (constructor; try done).
    eapply Forall_impl; [|exact Hy]. intros z Hz. by eapply cmp_trans. }
  destruct (cmp x y) eqn:E; [by apply Hle..|]. constructor; [done|].
  rewrite insert_sorted_perm. constructor; [by apply cmp_total|done].
Qed.

Lemma sort_by_sorted l : StronglySorted (fun a b => cmp a b ≠ Gt) (sort_by cmp l).
Proof. induction l as [|x l IH]; cbn; [constructor|]. by apply insert_sorted_sorted. Qed.

(** The first match of a sorted list is a least match. *)
Lemma list_find_least (P : A → Prop) `{!∀ x, Decision (P x)} l i x :
  StronglySorted (fun a b => cmp a b ≠ Gt) l → list_find P l = Some (i, x) →
  x ∈ l ∧ P x ∧ ∀ y, y ∈ l → P y → y = x ∨ cmp x y ≠ Gt.
Proof.
  intros Hs. revert i. induction Hs as [|a l Hs IH Ha]; intros i; cbn; [done|].
  destruct (decide (P a)) as [HP|HP].
  - intros [= <- <-]. split_and!; [by left|done|].
    intros y [-> | Hy]%elem_of_cons _; [by left|right]. by eapply list.Forall_forall in Ha.
  - destruct (list_find P l) as [[j z]|] eqn:E; [|done]. cbn. intros [= <- <-].
    destruct (IH j eq_refl) as (Hz & HPz & Hmin). split_and!; [by right|done|].
    intros y [-> | Hy]%elem_of_cons HPy; [done|by apply Hmin].
Qed.
End Sort.

(** ** Lookups *)

Lemma find_route_Some t a r :
  StronglySorted (fun a b => route_cmp a b ≠ Gt) (routes t) → find_route t a = Some r →
  r ∈ routes t ∧ contains (prefix r) a = true ∧
  ∀ r', r' ∈ routes t → contains (prefix r') a = true → r' = r ∨ route_cmp r r' ≠ Gt.
Proof.
  unfold find_route. intros Hs. destruct (list_find _ _) as [[i x]|] eqn:E; [|done].
  intros [= <-]. eapply list_find_least in E; eauto.
Qed.

Lemma find_route_None t a :
  find_route t a = None → ∀ r, r ∈ routes t → contains (prefix r) a = false.
Proof.
  unfold find_route. destruct (list_find _ _) as [[i x]|] eqn:E; [done|].
  intros _ r Hr. apply list_find_None in E. eapply list.Forall_forall in E; [|done].
  by destruct (contains _ a).
Qed.

(** ** A built table holds exactly the claims of its configuration *)

Lemma routes_with_peer t p w l :
  routes (with_peer t p w l)
  = sort_by route_cmp (filter (fun r => peer r ≠ p) (routes t)
                       ++ map (fun x => mkRoute x p w) (parse_prefixes l)).
Proof. unfold with_peer, with_peer_report. by destruct (foldl _ _ _) as [[? ?] ?]. Qed.

Lemma table_of_sorted reports : StronglySorted (fun a b => route_cmp a b ≠ Gt) (routes (table_of reports)).
Proof.
  destruct reports as [|[[p w] l] reports _] using rev_ind; [constructor|].
  unfold table_of. rewrite foldl_app. cbn. rewrite routes_with_peer. apply sort_by_sorted, _.
Qed.

Lemma elem_of_table_of reports r :
  r ∈ routes (table_of reports) ↔
  ∃ l, config_of reports !! peer r = Some (worker r, l) ∧ prefix r ∈ parse_prefixes l.
Proof.
  unfold table_of, config_of. induction reports as [|[[p w] l] reports IH] using rev_ind.
  { cbn. split; [by intros ?%elem_of_nil|]. intros (l & H & _). by rewrite lookup_empty in H. }
  rewrite !foldl_app. cbn. rewrite routes_with_peer, sort_by_perm, elem_of_app, list_elem_of_filter, IH.
  rewrite list_elem_of_fmap. destruct (decide (peer r = p)) as [<-|Hne].
  - rewrite lookup_insert_eq. split.
    + intros [[]|(x & -> & Hx)]; [done|]. eauto.
    + intros (l' & [= -> <-] & Hx). right. exists (prefix r). by destruct r.
  - rewrite lookup_insert_ne by done. split.
    + intros [[_ H]|(x & -> & _)]; done.
    + intros H. by left.
Qed.

Lemma claims_routes reports a p w n :
  claims (config_of reports) a p w n ↔
  ∃ r, r ∈ routes (table_of reports) ∧ contains (prefix r) a = true
    ∧ peer r = p ∧ worker r = w ∧ length_ (prefix r) = n.
Proof.
  split.
  - intros (l & x & Hl & Hx & Hc & <-). exists (mkRoute x p w). rewrite elem_of_table_of. cbn. eauto 10.
  - intros (r & (l & Hl & Hx)%elem_of_table_of & Hc & <- & <- & <-). exists l, (prefix r). done.
Qed.

Lemma owns_unique cfg a p w p' w' : owns cfg a p w → owns cfg a p' w' → p = p' ∧ w = w'.
Proof.
  intros (n & Hc & Hmin) (n' & Hc' & Hmin').
  destruct (Hmin _ _ _ Hc') as [?|[? H1]], (Hmin' _ _ _ Hc) as [?|[? H2]]; try lia.
  assert (p = p') as <-.
  { apply bytes_cmp_eq. rewrite bytes_cmp_opp in H2. by destruct (bytes_cmp p p'). }
  split; [done|]. destruct Hc as (? & ? & H3 & _), Hc' as (? & ? & H4 & _). congruence.
Qed.

(** A lookup in a built table finds the owner, or there is none. *)
Lemma find_route_owner reports a :
  match find_route (table_of reports) a with
  | Some r => owns (config_of reports) a (peer r) (worker r)
  | None => ∀ p w, ¬ owns (config_of reports) a p w
  end.
Proof.
  destruct (find_route _ a) as [r|] eqn:E.
  - apply find_route_Some in E as (Hr & Hc & Hmin); [|apply table_of_sorted].
    exists (length_ (prefix r)). split; [apply claims_routes; eauto 10|].
    intros p' w' n' (r' & Hr' & Hc' & <- & <- & <-)%claims_routes.
    destruct (Hmin r' Hr' Hc') as [->|Hle]; [right; by rewrite bytes_cmp_refl|].
    unfold route_cmp in Hle. destruct (Z.compare_spec (length_ (prefix r')) (length_ (prefix r)));
      [right|left|]; done || lia.
  - intros p w (n & (r & Hr & Hc & _)%claims_routes & _).
    by rewrite (find_route_None _ _ E r Hr) in Hc.
Qed.

(** A peer may send from an address exactly when it owns it. *)
Lemma accepts_source_owns reports p pkt :
  accepts_source (table_of reports) p pkt = true ↔
  ∃ src w, src_address pkt = Some src ∧ owns (config_of reports) src p w.
Proof.
  unfold accepts_source. destruct (src_address pkt) as [src|]; [|by split; [|intros (? & ? & ? & _)]].
  pose proof (find_route_owner reports src) as Ho.
  destruct (find_route _ src) as [r|]; rewrite ?bool_decide_eq_true; split.
  - intros <-. eauto.
  - intros (d & w' & [= <-] & Hd). by destruct (owns_unique _ _ _ _ _ _ Ho Hd).
  - done.
  - intros (d & w' & [= <-] & Hd). by destruct (Ho p w').
Qed.

(** A packet is sent to the owner of its destination. *)
Lemma route_tun_owns reports pkt p w :
  route_tun pkt (table_of reports) = Some (p, w) ↔
  ∃ dst, dst_address pkt = Some dst ∧ owns (config_of reports) dst p w.
Proof.
  unfold route_tun. destruct (dst_address pkt) as [dst|]; cbn; [|by split; [|intros (? & ? & _)]].
  pose proof (find_route_owner reports dst) as Ho.
  destruct (find_route _ dst) as [r|]; cbn; split.
  - intros [= <- <-]. eauto.
  - intros (d & [= <-] & Hd). by destruct (owns_unique _ _ _ _ _ _ Ho Hd) as [-> ->].
  - done.
  - intros (d & [= <-] & Hd). by destruct (Ho p w).
Qed.

(** C5.  Cryptokey routing refines longest-prefix ownership.  Whatever the order in
    which peers are reported and re-reported, a packet from the TUN goes to the peer
    that owns its destination (the longest prefix of the current configuration that
    contains it, the smallest key among several) and nowhere when nobody owns it; and
    a decrypted packet is accepted from a peer exactly when that peer owns its source
    address, so no peer can send from an address routed to another. *)
Theorem routing_refines_ownership reports pkt p w :
  (route_tun pkt (table_of reports) = Some (p, w) ↔
     ∃ dst, dst_address pkt = Some dst ∧ owns (config_of reports) dst p w)
  ∧ (accepts_source (table_of reports) p pkt = true ↔
     ∃ src w', src_address pkt = Some src ∧ owns (config_of reports) src p w').
Proof.
  split; [apply route_tun_owns|apply accepts_source_owns].
Qed.

(** ** Conflicts *)

(** Two peers claim the prefix. *)
Definition contested (rs : list RouteEntry) (x : IpPrefix) : Prop :=
  ∃ r r', r ∈ rs ∧ r' ∈ rs ∧ prefix r = x ∧ prefix r' = x ∧ peer r ≠ peer r'.

(** What the loop over the sorted routes has established after [rs]. *)
Definition conflicts_ok (old : gset IpPrefix) (rs : list RouteEntry)
    (acc : gmap IpPrefix (list byte) * gset IpPrefix * list IpPrefix) : Prop :=
  let '(owners, found, warned) := acc in
  (∀ x q, owners !! x = Some q → ∃ r, r ∈ rs ∧ prefix r = x ∧ peer r = q)
  ∧ (∀ r, r ∈ rs → is_Some (owners !! prefix r))
  ∧ (∀ x, x ∈ found ↔ contested rs x)
  ∧ NoDup warned ∧ ∀ x, x ∈ warned ↔ x ∈ found ∧ x ∉ old.

Lemma contested_snoc rs r x :
  contested (rs ++ [r]) x ↔
  contested rs x ∨ prefix r = x ∧ ∃ r', r' ∈ rs ∧ prefix r' = x ∧ peer r' ≠ peer r.
Proof.
  unfold contested. setoid_rewrite elem_of_app. setoid_rewrite list_elem_of_singleton. split.
  - intros (a & b & [Ha| ->] & [Hb| ->] & Ea & Eb & Hne); [| | |done].
    + left. by exists a, b.
    + right. eauto.
    + right. split; [done|]. exists b. split_and!; [done..|congruence].
  - intros [(a & b & ? & ? & ? & ? & ?)|(<- & a & ? & ? & ?)]; [exists a, b|exists a, r].
    all: split_and!; done || (by left) || by right.
Qed.

(** When the prefix has an owner already, the new route contests it or adds nothing. *)
Lemma contested_occupied old rs owners found warned r q :
  conflicts_ok old rs (owners, found, warned) → owners !! prefix r = Some q →
  ∀ x, x ∈ found ∨ x = prefix r ∧ q ≠ peer r ↔ contested (rs ++ [r]) x.
Proof.
  intros (Hown & _ & Hfound & _) Hq x. destruct (Hown _ _ Hq) as (s & Hs & Hsx & Hsp).
  rewrite contested_snoc, Hfound. split.
  - intros [?|[-> Hne]]; [by left|]. right. split; [done|]. exists s. by rewrite Hsp.
  - intros [?|(<- & r' & Hr' & Hx & Hne)]; [by left|].
    destruct (decide (q = peer r)) as [->|]; [|by right]. left.
    exists s, r'. split_and!; [done..|congruence].
Qed.

Lemma conflicts_ok_occupied old rs owners found warned r q f w :
  conflicts_ok old rs (owners, found, warned) → owners !! prefix r = Some q →
  (∀ x, x ∈ f ↔ contested (rs ++ [r]) x) → NoDup w → (∀ x, x ∈ w ↔ x ∈ f ∧ x ∉ old) →
  conflicts_ok old (rs ++ [r]) (owners, f, w).
Proof.
  intros (Hown & Hall & _) Hq Hf Hn Hx. split_and!; [| |done..].
  - intros x p (r' & ? & ?)%Hown. exists r'. rewrite elem_of_app. eauto.
  - intros r' [?| ->%list_elem_of_singleton]%elem_of_app; eauto.
Qed.

Lemma conflict_step_ok old rs acc r :
  conflicts_ok old rs acc → conflicts_ok old (rs ++ [r]) (conflict_step old acc r).
Proof.
  destruct acc as [[owners found] warned]. intros Hok. unfold conflict_step.
  destruct (owners !! prefix r) as [q|] eqn:Hq.
  - pose proof (contested_occupied _ _ _ _ _ _ _ Hok Hq) as Hf'.
    pose proof (fun f w => conflicts_ok_occupied _ _ _ _ _ _ _ f w Hok Hq) as Hmk.
    destruct Hok as (_ & _ & _ & Hnd & Hw).
    destruct (bool_decide (q ≠ peer r)) eqn:E1; cbn [andb]; bool_prop;
      [|apply Hmk; [intros x; rewrite <-Hf'; tauto|done..]].
    destruct (bool_decide (prefix r ∉ found)) eqn:E2; bool_prop.
    + apply Hmk; [intros x; rewrite <-Hf', elem_of_union, elem_of_singleton; tauto| |];
        destruct (bool_decide (prefix r ∉ old)) eqn:E3; bool_prop; try done.
      * apply list.NoDup_app. split_and!; [done| |by apply list.NoDup_singleton].
        intros x Hx ->%list_elem_of_singleton. by apply Hw in Hx as [? _].
      * intros x. rewrite elem_of_app, list_elem_of_singleton, Hw, elem_of_union, elem_of_singleton.
        destruct (decide (x = prefix r)) as [->|]; tauto.
      * intros x. rewrite Hw, elem_of_union, elem_of_singleton.
        destruct (decide (x = prefix r)) as [->|]; tauto.
    + apply dec_stable in E2. apply Hmk; [|done..]. intros x. rewrite <-Hf'.
      split; [by left|]. by intros [?|[-> _]].
  - destruct Hok as (Hown & Hall & Hfound & Hnd & Hw). split_and!; [| | |done..].
    + intros x p. rewrite lookup_insert. case_decide as Hx; [|by intros (r' & ? & ?)%Hown; exists r'; rewrite elem_of_app; eauto].
      intros [= <-]. exists r. rewrite elem_of_app, list_elem_of_singleton. eauto.
    + intros r' [?| ->%list_elem_of_singleton]%elem_of_app; rewrite lookup_insert; case_decide; done || eauto.
    + intros x. rewrite contested_snoc, Hfound. split; [by left|].
      intros [?|(<- & r' & Hr' & Hx & _)]; [done|]. destruct (Hall r' Hr') as [? H]. by rewrite Hx, Hq in H.
Qed.

(** Conflict reporting is exact: after a report, the table's conflicts are the
    prefixes two different peers claim, and the warnings emitted are, each once, those
    of them that the previous table did not already hold. *)
Lemma route_conflicts_exact t p w l t' warned :
  with_peer_report t p w l = (t', warned) →
  (∀ x, x ∈ conflicts t' ↔ contested (routes t') x)
  ∧ NoDup warned ∧ ∀ x, x ∈ warned ↔ contested (routes t') x ∧ x ∉ conflicts t.
Proof.
  unfold with_peer_report. set (rs := sort_by _ _).
  assert (conflicts_ok (conflicts t) rs (foldl (conflict_step (conflicts t)) (∅, ∅, []) rs)) as Hok.
  { induction rs as [|r rs IH] using rev_ind; [|rewrite foldl_app; by apply conflict_step_ok].
    split_and!.
    - by intros x q; rewrite lookup_empty.
    - by intros r ?%elem_of_nil.
    - intros x. split; [by intros ?%elem_of_empty|]. by intros (? & ? & ?%elem_of_nil & _).
    - constructor.
    - intros x. split; [by intros ?%elem_of_nil|]. by intros [?%elem_of_empty _]. }
  destruct (foldl _ _ _) as [[owners found] wn]. intros [= <- <-].
  destruct Hok as (_ & _ & Hf & Hn & Hw). split_and!; [done..|].
  intros x. by rewrite Hw, Hf.
Qed.

