(* ===== verification/Ipam.v ===== *)
(** * Overlay address allocation (control-server/src/ipam.rs)

    One [Ipam] per network hands out host numbers of a /24; a device's IPv4 and IPv6
    addresses share the host number.  [by_key] is the [HashMap] from public key to host,
    [used] the array of 256 flags, indexed by the host (a [u8], so never out of range). *)

From S2P Require Import Prelude.
From S2P Require Import Words.
From S2P Require Import NetAddr.
From S2P Require Import NetText.

Definition GATEWAY_HOST : Z := 1.
Definition DNS_HOST : Z := 2.
Definition DEVICE_HOST_MIN : Z := 100.
Definition DEVICE_HOST_MAX : Z := 249.
Definition V6_DEVICE_SUBNET : Z := 1.

Inductive IpamError := PoolExhausted.

Record Ipam := mkIpam {
  v4_net : list Z;             (* the four octets *)
  v6_prefix : Z * Z * Z;       (* the first three groups of the /48 *)
  by_key : gmap string Z;
  used : list bool
}.

Definition ipam_new (v4 : Z) (v6 : Z * Z * Z) : Ipam :=
  mkIpam (octets v4) v6 ∅ (replicate 256 false).

Definition v4_for (s : Ipam) (host : Z) : Z :=
  match v4_net s with [a; b; c; _] => ipv4_new a b c host | _ => 0 end.

(** [Ipv6Addr::new(a, b, c, V6_DEVICE_SUBNET, 0, 0, 0, host as u16)]. *)
Definition v6_for (s : Ipam) (host : Z) : Z :=
  let '(a, b, c) := v6_prefix s in of_segments [a; b; c; V6_DEVICE_SUBNET; 0; 0; 0; host].

Definition is_used (s : Ipam) (host : Z) : bool := default false (used s !! Z.to_nat host).

(** [used\[host\] = b] *)
Definition set_used (s : Ipam) (host : Z) (b : bool) : Ipam :=
  mkIpam (v4_net s) (v6_prefix s) (by_key s) (<[Z.to_nat host := b]> (used s)).

Definition set_by_key (s : Ipam) (m : gmap string Z) : Ipam :=
  mkIpam (v4_net s) (v6_prefix s) m (used s).

(** [DEVICE_HOST_MIN..=DEVICE_HOST_MAX]. *)
Definition device_hosts : list Z := seqZ DEVICE_HOST_MIN (DEVICE_HOST_MAX - DEVICE_HOST_MIN + 1).

(** [.find(|&h| !self.used\[h as usize\])]. *)
Definition free_host (s : Ipam) : option Z :=
  list_find (fun h => is_used s h = false) device_hosts ≫= fun x => Some x.2.

Definition allocate (pubkey : string) : st Ipam IpamError (Z * Z) := fun s =>
  match by_key s !! pubkey with
  | Some host => (Ok (v4_for s host, v6_for s host), s)
  | None =>
      match free_host s with
      | None => (Err PoolExhausted, s)
      | Some host =>
          let s := set_used s host true in
          let s := set_by_key s (<[pubkey := host]> (by_key s)) in
          (Ok (v4_for s host, v6_for s host), s)
      end
  end.

Definition reserve (pubkey : string) (host : Z) : st Ipam IpamError unit := fun s =>
  if bool_decide (by_key s !! pubkey = Some host) then (Ok tt, s)
  else if is_used s host then (Err PoolExhausted, s)
  else
    let s := set_used s host true in
    (Ok tt, set_by_key s (<[pubkey := host]> (by_key s))).

Definition recycle (pubkey : string) (s : Ipam) : bool * Ipam :=
  match by_key s !! pubkey with
  | Some host =>
      let s := set_by_key s (delete pubkey (by_key s)) in
      (true, set_used s host false)
  | None => (false, s)
  end.

Definition allocated_count (s : Ipam) : Z := Z.of_nat (size (by_key s)).

(** ** Invariant

    Every key has its own host, and the host is flagged. *)

Record ipam_ok (s : Ipam) : Prop := {
  used_length : length (used s) = 256%nat;
  hosts_fit : ∀ k h, by_key s !! k = Some h → fits 8 h;
  hosts_used : ∀ k h, by_key s !! k = Some h → is_used s h = true;
  hosts_inj : ∀ k k' h, by_key s !! k = Some h → by_key s !! k' = Some h → k = k';
  net_ok : ∃ a b c d, v4_net s = [a; b; c; d] ∧ fits 8 a ∧ fits 8 b ∧ fits 8 c;
  prefix6_ok : let '(a, b, c) := v6_prefix s in fits 16 a ∧ fits 16 b ∧ fits 16 c
}.

(** Flags are set only for hosts that a key holds; [reserve] breaks this when it moves
    a key to another host. *)
Definition no_leak (s : Ipam) : Prop :=
  ∀ h, fits 8 h → is_used s h = true → ∃ k, by_key s !! k = Some h.

Lemma is_used_set s h b h' :
  length (used s) = 256%nat → fits 8 h → fits 8 h' →
  is_used (set_used s h b) h' = if decide (h = h') then b else is_used s h'.
Proof.
  unfold is_used, set_used, fits. intros Hl Hh Hh'. cbn. case_decide as Hd; [subst h'|].
  - by rewrite list_lookup_insert_eq by lia.
  - by rewrite list_lookup_insert_ne by lia.
Qed.

Lemma is_used_by_key s m h : is_used (set_by_key s m) h = is_used s h.
Proof. done. Qed.

Lemma elem_of_device_hosts h : h ∈ device_hosts ↔ 100 ≤ h ≤ 249.
Proof. unfold device_hosts, DEVICE_HOST_MIN, DEVICE_HOST_MAX. rewrite elem_of_seqZ. lia. Qed.

Lemma free_host_Some s h :
  free_host s = Some h →
  100 ≤ h ≤ 249 ∧ is_used s h = false ∧ ∀ h', 100 ≤ h' < h → is_used s h' = true.
Proof.
  unfold free_host. destruct (list_find _ _) as [[i x]|] eqn:E; [|done]. intros [= <-]. cbn.
  apply list_find_Some in E as (Hi & Hx & Hmin). 
  assert (x = 100 + Z.of_nat i ∧ (i < 150)%nat) as [-> Hlt].
  { unfold device_hosts in Hi. apply lookup_seqZ in Hi. unfold DEVICE_HOST_MIN, DEVICE_HOST_MAX in Hi. lia. }
  split_and!; [lia|lia|done|]. intros h' Hh'.
  destruct (is_used s h') eqn:E; [done|]. exfalso.
  apply (Hmin (Z.to_nat (h' - 100)) h'); [|lia|done].
  unfold device_hosts. apply lookup_seqZ. unfold DEVICE_HOST_MIN, DEVICE_HOST_MAX. lia.
Qed.

Lemma free_host_None s : free_host s = None ↔ ∀ h, 100 ≤ h ≤ 249 → is_used s h = true.
Proof.
  unfold free_host. destruct (list_find _ _) as [[i x]|] eqn:E; cbn.
  - split; [done|]. apply list_find_Some in E as (Hi & Hx & _). intros H.
    apply list_elem_of_lookup_2, elem_of_device_hosts, H in Hi. congruence.
  - apply list_find_None in E. split; [|done]. intros _ h Hh.
    eapply list.Forall_forall in E; [|by apply elem_of_device_hosts]. by destruct (is_used s h).
Qed.

(** Giving a free host to a key keeps the invariant. *)
Lemma ipam_ok_claim s k h :
  ipam_ok s → fits 8 h → is_used s h = false →
  ipam_ok (set_by_key (set_used s h true) (<[k := h]> (by_key s))).
Proof.
  intros [Hl Hf Hu Hi Hn H6] Hh Hfree. split; cbn [by_key set_by_key used set_used v4_net v6_prefix]; try done.
  - by rewrite length_insert.
  - intros k' h'. rewrite lookup_insert. case_decide; [by intros [= <-]|by apply Hf].
  - intros k' h'. rewrite is_used_by_key, lookup_insert. case_decide.
    + intros [= <-]. by rewrite is_used_set, decide_True.
    + intros Hk. rewrite is_used_set by eauto. case_decide; [done|eauto].
  - intros k1 k2 h'. rewrite !lookup_insert. repeat case_decide; subst; try done.
    + intros [= <-] H2%Hu. congruence.
    + intros H1%Hu [= <-]. congruence.
    + apply Hi.
Qed.

Lemma ipam_ok_new v4 v6 :
  (let '(a, b, c) := v6 in fits 16 a ∧ fits 16 b ∧ fits 16 c) → ipam_ok (ipam_new v4 v6).
Proof.
  intros H6. split; cbn; [done|by intros k h; rewrite lookup_empty..| |done].
  unfold octets. do 4 eexists. split; [done|]. by split_and!; apply (wrap_fits 8).
Qed.

Lemma allocate_ok k s r s' : ipam_ok s → allocate k s = (r, s') → ipam_ok s'.
Proof.
  unfold allocate. intros Hok. destruct (by_key s !! k); [by intros [= _ <-]|].
  destruct (free_host s) as [h|] eqn:E; [|by intros [= _ <-]]. intros [= _ <-].
  apply free_host_Some in E as (? & ? & _). by apply ipam_ok_claim; [|unfold fits; lia|].
Qed.

Lemma reserve_ok k h s r s' : ipam_ok s → fits 8 h → reserve k h s = (r, s') → ipam_ok s'.
Proof.
  unfold reserve. intros Hok Hh. case_if; [by intros [= _ <-]|].
  destruct (is_used s h) eqn:E; [by intros [= _ <-]|]. intros [= _ <-]. by apply ipam_ok_claim.
Qed.

Lemma recycle_ok k s : ipam_ok s → ipam_ok (recycle k s).2.
Proof.
  unfold recycle. intros [Hl Hf Hu Hi Hn H6]. destruct (by_key s !! k) as [h|] eqn:Hk; [|done].
  split; cbn [by_key set_by_key used set_used v4_net v6_prefix snd]; try done.
  - by rewrite length_insert.
  - intros k' h' [_ ?]%lookup_delete_Some. eauto.
  - intros k' h' [Hne Hk']%lookup_delete_Some. rewrite is_used_set by eauto.
    case_decide; [subst; by destruct Hne; eapply Hi|]. apply (Hu k'). done.
  - intros k1 k2 h' [_ ?]%lookup_delete_Some [_ ?]%lookup_delete_Some. eauto.
Qed.

(** ** Leaks *)

Lemma no_leak_new v4 v6 : no_leak (ipam_new v4 v6).
Proof.
  intros h Hh. unfold is_used, ipam_new. cbn [used]. unfold fits in Hh.
  rewrite lookup_replicate_2 by lia. done.
Qed.

Lemma no_leak_claim s k h :
  ipam_ok s → no_leak s → by_key s !! k = None → fits 8 h →
  no_leak (set_by_key (set_used s h true) (<[k := h]> (by_key s))).
Proof.
  intros [Hl _ _ _ _ _] Hleak Hk Hh h' Hh'. cbn [by_key set_by_key]. rewrite is_used_by_key, is_used_set by done.
  case_decide as Hd; [subst; exists k; by rewrite lookup_insert_eq|].
  intros [k' Hk']%Hleak; [|done]. exists k'. rewrite lookup_insert_ne; [done|congruence].
Qed.

Lemma allocate_no_leak k s r s' : ipam_ok s → no_leak s → allocate k s = (r, s') → no_leak s'.
Proof.
  unfold allocate. intros Hok Hleak. destruct (by_key s !! k) eqn:Hk; [by intros [= _ <-]|].
  destruct (free_host s) as [h|] eqn:E; [|by intros [= _ <-]]. intros [= _ <-].
  apply free_host_Some in E as (? & ? & _). by apply no_leak_claim; [..|unfold fits; lia].
Qed.

Lemma reserve_no_leak k h s r s' :
  ipam_ok s → no_leak s → by_key s !! k = None → fits 8 h → reserve k h s = (r, s') → no_leak s'.
Proof.
  unfold reserve. intros Hok Hleak Hk Hh. case_if; [by intros [= _ <-]|].
  destruct (is_used s h); [by intros [= _ <-]|]. intros [= _ <-]. by apply no_leak_claim.
Qed.

Lemma recycle_no_leak k s : ipam_ok s → no_leak s → no_leak (recycle k s).2.
Proof.
  unfold recycle. intros [Hl Hf _ _ _ _] Hleak. destruct (by_key s !! k) as [h|] eqn:Hk; [|done].
  intros h' Hh'. cbn [snd set_used by_key set_by_key]. 
  change (is_used (set_used (set_by_key s (delete k (by_key s))) h false) h')
    with (is_used (set_used s h false) h').
  rewrite is_used_set by eauto. case_decide; [done|]. intros [k' Hk']%Hleak; [|done].
  exists k'. rewrite lookup_delete_ne; [done|congruence].
Qed.

(** Distinct hosts have distinct addresses. *)
Lemma v4_for_inj s h h' : ipam_ok s → v4_for s h = v4_for s h' → h = h'.
Proof.
  intros [_ _ _ _ (a & b & c & d & Hn & _) _]. unfold v4_for. rewrite Hn. unfold ipv4_new. lia.
Qed.

Lemma v6_for_inj s h h' : v6_for s h = v6_for s h' → h = h'.
Proof. unfold v6_for. destruct (v6_prefix s) as [[a b] c]. unfold of_segments. cbn. lia. Qed.

Lemma v4_for_fits s h : ipam_ok s → fits 8 h → fits 32 (v4_for s h).
Proof.
  intros [_ _ _ _ (a & b & c & d & Hn & Ha & Hb & Hc) _] Hh. unfold v4_for. rewrite Hn.
  unfold ipv4_new, fits in *. lia.
Qed.

Lemma v6_for_fits s h : ipam_ok s → fits 8 h → fits 128 (v6_for s h).
Proof.
  intros [_ _ _ _ _ H6] Hh. unfold v6_for. destruct (v6_prefix s) as [[a b] c].
  destruct H6 as (Ha & Hb & Hc).
  assert (Forall (fits 16) [a; b; c; V6_DEVICE_SUBNET; 0; 0; 0; h]) as Hall.
  { unfold fits, V6_DEVICE_SUBNET in *. do 8 (constructor; [lia|]). constructor. }
  apply of_segments_fits in Hall. exact Hall.
Qed.

(** Address allocation is stable, unique and complete.  From a well-formed pool,
    [allocate] keeps the pool well formed and does not disturb other keys; a key that
    holds a host gets the same addresses again and again; a new key gets the lowest free
    device host (never the gateway or the DNS host), with IPv4 and IPv6 addresses no
    other key has; and it fails only when all 150 device hosts are held. *)
Lemma ipam_allocate_spec s k r s' :
  ipam_ok s → no_leak s → allocate k s = (r, s') →
  ipam_ok s' ∧ no_leak s' ∧ (∀ k', k' ≠ k → by_key s' !! k' = by_key s !! k') ∧
  match r with
  | Ok (v4, v6) =>
      ∃ h, by_key s' !! k = Some h ∧ v4 = v4_for s' h ∧ v6 = v6_for s' h
        ∧ (by_key s !! k = Some h
           ∨ by_key s !! k = None ∧ DEVICE_HOST_MIN ≤ h ≤ DEVICE_HOST_MAX ∧ is_used s h = false
             ∧ ∀ h', DEVICE_HOST_MIN ≤ h' < h → is_used s h' = true)
        ∧ (∀ k' h', k' ≠ k → by_key s' !! k' = Some h' → v4_for s' h' ≠ v4 ∧ v6_for s' h' ≠ v6)
        ∧ allocate k s' = (Ok (v4, v6), s')
  | Err PoolExhausted =>
      s' = s ∧ by_key s !! k = None ∧
      ∀ h, DEVICE_HOST_MIN ≤ h ≤ DEVICE_HOST_MAX → ∃ k', by_key s !! k' = Some h
  | Panic => False
  end.
Proof.
  intros Hok Hleak Ha.
  pose proof (allocate_ok _ _ _ _ Hok Ha) as Hok'.
  pose proof (allocate_no_leak _ _ _ _ Hok Hleak Ha) as Hleak'.
  split; [done|]. split; [done|]. 
  assert (∀ h, by_key s' !! k = Some h → ∀ k' h', k' ≠ k → by_key s' !! k' = Some h' →
    v4_for s' h' ≠ v4_for s' h ∧ v6_for s' h' ≠ v6_for s' h) as Huniq.
  { intros h Hk k' h' Hne Hk'. split; [intros ->%v4_for_inj|intros ->%v6_for_inj]; try done;
      by destruct Hne; eapply hosts_inj. }
  unfold allocate in Ha. destruct (by_key s !! k) as [h|] eqn:Hk.
  - injection Ha as <- <-. split; [done|]. exists h. split_and!; try done; [by left|by apply Huniq|].
    unfold allocate. by rewrite Hk.
  - destruct (free_host s) as [h|] eqn:Hf.
    + apply free_host_Some in Hf as (? & ? & ?). injection Ha as <- <-.
      set (s' := set_by_key _ _) in *.
      assert (by_key s' !! k = Some h) as Hk' by apply lookup_insert_eq.
      split; [intros k' ?; by apply lookup_insert_ne|]. exists h.
      split_and!; try done; [by right|by apply Huniq|]. unfold allocate. by rewrite Hk'.
    + injection Ha as <- <-. split; [done|]. split_and!; try done. intros h Hh. apply Hleak.
      * unfold fits, DEVICE_HOST_MIN, DEVICE_HOST_MAX in *. lia.
      * by apply free_host_None.
Qed.

