(* ===== verification/Domain.v ===== *)
(** * Entities of the control plane (control-server/src/domain.rs) and canonical keys
      (sdk/rust/src/key.rs)

    The records the coordination store keeps and hands out.  Field names carry a letter
    for their record.  Times are [i64] seconds, [max_uses] and [uses] [u32], epochs
    [u64], all as [Z]. *)

From Stdlib Require Import Strings.Ascii Strings.String.
From S2P Require Import Prelude.
From S2P Require Import Words.
From S2P Require Import NetText.

Record Network := mkNetwork {
  n_id : string; n_name : string; n_ipv4_pool : string; n_ipv6_ula : string; n_config_epoch : Z }.

Inductive DeviceStatus := Active | Revoked.

#[global] Instance DeviceStatus_eq_dec : EqDecision DeviceStatus.
Proof. solve_decision. Defined.

Record Device := mkDevice {
  d_id : string; d_network_id : string; d_name : string; d_wg_public_key : string;
  d_address_v4 : option string; d_address_v6 : option string; d_status : DeviceStatus }.

Record Invite := mkInvite {
  i_code : string; i_network_id : string; i_expires_at : option Z; i_max_uses : option Z; i_uses : Z }.

Record RelayNode := mkRelay {
  l_id : string; l_region : string; l_url : string; l_network_id : option string; l_anytls : bool;
  l_stun_url : option string; l_node_id : option string; l_public_key : option string }.

Record Route := mkRoute {
  r_id : string; r_network_id : string; r_device_id : string; r_prefix : string; r_approved : bool }.

Record PeerConfig := mkPeerConfig {
  p_wg_public_key : string; p_allowed_ips : list string; p_endpoints : list string; p_exit : bool }.

Record DeviceConfig := mkDeviceConfig {
  c_overlay_cidrs : list string; c_network_id : string; c_config_epoch : Z;
  c_address_v4 : option string; c_address_v6 : option string; c_peers : list PeerConfig;
  c_relays : list RelayNode; c_mtu : option Z; c_dns : list string; c_self_exit : bool }.

Record ImportDevice := mkImport {
  m_name : string; m_wg_public_key : string; m_address_v4 : option string;
  m_address_v6 : option string; m_endpoints : list string }.

Record ImportResult := mkImportResult { created : list Device; skipped : list string }.

(** Two configurations that differ only in the order of their lists. *)
Definition peer_equiv (p p' : PeerConfig) : Prop :=
  p_wg_public_key p = p_wg_public_key p' ∧ p_allowed_ips p ≡ₚ p_allowed_ips p'
  ∧ p_endpoints p = p_endpoints p' ∧ p_exit p = p_exit p'.

Definition config_equiv (c c' : DeviceConfig) : Prop :=
  c_overlay_cidrs c = c_overlay_cidrs c' ∧ c_network_id c = c_network_id c'
  ∧ c_config_epoch c = c_config_epoch c'
  ∧ c_address_v4 c = c_address_v4 c' ∧ c_address_v6 c = c_address_v6 c'
  ∧ (∃ l, c_peers c ≡ₚ l ∧ Forall2 peer_equiv l (c_peers c'))
  ∧ c_relays c ≡ₚ c_relays c' ∧ c_mtu c = c_mtu c' ∧ c_dns c = c_dns c'
  ∧ c_self_exit c = c_self_exit c'.

#[global] Instance Device_eq_dec : EqDecision Device.
Proof. solve_decision. Defined.

(** [Invite::is_redeemable]. *)
Definition is_redeemable (i : Invite) (now : Z) : bool :=
  let not_expired := match i_expires_at i with Some e => now <? e | None => true end in
  let has_uses := match i_max_uses i with Some m => i_uses i <? m | None => true end in
  not_expired && has_uses.

(** ** Canonical public keys

    The [hex] and [base64] crates. *)

Class KeyCodec := {
  hex_decode : string → option (list byte);
  base64_decode : string → option (list byte);
  hex_encode : list byte → string
}.

(** Hexadecimal text has two characters per byte and decodes to its bytes. *)
Class KeyCodecLaws `{KeyCodec} : Prop := {
  hex_length : ∀ b, String.length (hex_encode b) = (2 * length b)%nat;
  hex_roundtrip : ∀ b, hex_decode (hex_encode b) = Some b
}.

Section Key.
Context `{KeyCodec}.

(** [key::decode]. *)
Definition key_decode (value : string) : option (list byte) :=
  bytes ← (if (String.length value =? 64)%nat then hex_decode value else base64_decode value);
  if (length bytes =? 32)%nat then Some bytes else None.

(** [key::normalize]. *)
Definition normalize (value : string) : option string := hex_encode <$> key_decode value.

Lemma normalize_canonical `{!KeyCodecLaws} value key :
  normalize value = Some key → normalize key = Some key ∧ key_decode key = key_decode value.
Proof.
  unfold normalize, key_decode. 
  destruct (if (String.length value =? 64)%nat then _ else _) as [b|]; cbn; [|done]. destruct (Nat.eqb_spec (length b) 32) as [Hb|]; [|done].
  intros [= <-]. rewrite hex_length, Hb. cbn. rewrite hex_roundtrip. cbn. by rewrite Hb.
Qed.
End Key.

(** ** A codec: lower-case hexadecimal, no base64 *)

Definition hex_byte (b : byte) : list ascii := [digit_char (b2z b / 16); digit_char (b2z b mod 16)].

Fixpoint unhex (l : list ascii) : option (list byte) :=
  match l with
  | [] => Some []
  | h :: k :: l =>
      h ← to_digit 16 h; k ← to_digit 16 k; l ← unhex l; Some (z2b (h * 16 + k) :: l)
  | _ => None
  end.

Definition hex_codec : KeyCodec := {|
  hex_decode s := unhex (chars s);
  base64_decode _ := None;
  hex_encode b := text (concat (map hex_byte b))
|}.

Lemma length_text l : String.length (text l) = length l.
Proof. induction l as [|c l IH]; cbn; congruence. Qed.

Lemma hex_codec_laws : @KeyCodecLaws hex_codec.
Proof.
  split.
  - intros b. cbn. rewrite length_text. induction b as [|x b IH]; [done|]. cbn in *. rewrite IH. lia.
  - intros b. cbn. rewrite list_ascii_of_string_of_list_ascii.
    induction b as [|x b IH]; [done|]. cbn [map concat hex_byte app unhex]. pose proof (b2z_range x).
    rewrite !to_digit_char by (Z.to_euclidean_division_equations; lia). cbn. rewrite IH. cbn.
    f_equal. f_equal. transitivity (z2b (b2z x)); [f_equal|apply z2b_b2z].
    Z.to_euclidean_division_equations; lia.
Qed.
