(* ===== verification/ControlStore.v ===== *)
(** * The coordination store (control-server/src/state.rs)

    [Store] is the state behind the mutex together with the two counters; every
    operation is one critical section, in the state-and-error monad of the prelude.
    What the code takes from elsewhere is an argument: the random numbers, the current
    time, the order in which a [HashMap] is iterated ([HashOrder], any order), the
    [hex]/[base64] crates ([KeyCodec]) and tokio's [watch] channel ([Watch]). *)

From Stdlib Require Import Strings.Ascii Strings.String.
From S2P Require Import Prelude.
From S2P Require Import Words.
From S2P Require Import NetAddr.
From S2P Require Import NetText.
From S2P Require Import Prefix.
From S2P Require Import Ipam.
From S2P Require Import Domain.

(** The order in which a [HashMap] yields its entries is unspecified. *)
Class HashOrder := {
  hm_items : ∀ {A : Type}, gmap string A → list (string * A);
  hm_perm : ∀ {A : Type} (m : gmap string A), hm_items m ≡ₚ map_to_list m
}.

Definition hm_values `{HashOrder} {A} (m : gmap string A) : list A := (hm_items m).*2.
Definition hm_keys `{HashOrder} {A} (m : gmap string A) : list string := (hm_items m).*1.

(** tokio's [watch::Sender<u64>]: [send] ignoring its result, [subscribe]; whether a
    receiver is alive and the value a receiver sees. *)
Class Watch (W : Type) := {
  watch_channel : Z → W;
  watch_send : W → Z → W;
  watch_subscribe : W → W;
  watch_live : W → bool;
  watch_value : W → Z
}.

(** [send] stores the value when there is a receiver and fails without storing it
    when there is none; a subscription is a receiver. *)
Class WatchLaws (W : Type) `{Watch W} : Prop := {
  send_value : ∀ w v, watch_value (watch_send w v) = if watch_live w then v else watch_value w;
  send_live : ∀ w v, watch_live (watch_send w v) = watch_live w;
  subscribe_value : ∀ w, watch_value (watch_subscribe w) = watch_value w;
  subscribe_live : ∀ w, watch_live (watch_subscribe w) = true
}.

Inductive StoreError :=
| NetworkNotFound | DeviceNotFound | RouteNotFound | RelayNotFound
| InvalidPrefix | InvalidKey | InvalidInvite | StorePoolExhausted.

(** [Inner] and the counters of [Store]. *)
Record Store {W : Type} := mkStore {
  networks : gmap string Network;
  devices : gmap string Device;
  invites : gmap string Invite;
  ipams : gmap string Ipam;
  routes : gmap string Route;
  relays : gmap string RelayNode;
  endpoints : gmap string (list string);
  epoch_tx : gmap string W;
  seq : Z;
  net_index : Z
}.
Arguments Store : clear implicits.

Section Store.
Context {W : Type} `{!Watch W}.
Implicit Types s : Store W.

Definition set_networks m s := mkStore W m (devices s) (invites s) (ipams s) (routes s) (relays s) (endpoints s) (epoch_tx s) (seq s) (net_index s).
Definition set_devices m s := mkStore W (networks s) m (invites s) (ipams s) (routes s) (relays s) (endpoints s) (epoch_tx s) (seq s) (net_index s).
Definition set_invites m s := mkStore W (networks s) (devices s) m (ipams s) (routes s) (relays s) (endpoints s) (epoch_tx s) (seq s) (net_index s).
Definition set_ipams m s := mkStore W (networks s) (devices s) (invites s) m (routes s) (relays s) (endpoints s) (epoch_tx s) (seq s) (net_index s).
Definition set_routes m s := mkStore W (networks s) (devices s) (invites s) (ipams s) m (relays s) (endpoints s) (epoch_tx s) (seq s) (net_index s).
Definition set_relays m s := mkStore W (networks s) (devices s) (invites s) (ipams s) (routes s) m (endpoints s) (epoch_tx s) (seq s) (net_index s).
Definition set_endpoint_map m s := mkStore W (networks s) (devices s) (invites s) (ipams s) (routes s) (relays s) m (epoch_tx s) (seq s) (net_index s).
Definition set_epoch_tx m s := mkStore W (networks s) (devices s) (invites s) (ipams s) (routes s) (relays s) (endpoints s) m (seq s) (net_index s).
Definition set_seq z s := mkStore W (networks s) (devices s) (invites s) (ipams s) (routes s) (relays s) (endpoints s) (epoch_tx s) z (net_index s).
Definition set_net_index z s := mkStore W (networks s) (devices s) (invites s) (ipams s) (routes s) (relays s) (endpoints s) (epoch_tx s) (seq s) z.

Abbreviation op A := (st (Store W) StoreError A).

Definition store_new : Store W := mkStore W ∅ ∅ ∅ ∅ ∅ ∅ ∅ ∅ 1 0.

(** [net.config_epoch += 1], then [tx.send(epoch)] with its result ignored. *)
Definition bump_epoch (network_id : string) s : Store W :=
  match networks s !! network_id with
  | None => s
  | Some net =>
      let epoch := wrap 64 (n_config_epoch net + 1) in
      let net := mkNetwork (n_id net) (n_name net) (n_ipv4_pool net) (n_ipv6_ula net) epoch in
      let s := set_networks (<[network_id := net]> (networks s)) s in
      match epoch_tx s !! network_id with
      | Some tx => set_epoch_tx (<[network_id := watch_send tx epoch]> (epoch_tx s)) s
      | None => s
      end
  end.

(** [self.seq.fetch_add(1)]. *)
Definition next_seq : op Z := fun s => (Ok (seq s), set_seq (wrap 64 (seq s + 1)) s).

(** [format!("{prefix}{n}")]. *)
Definition format_id (prefix : string) (n : Z) : string := (prefix ++ text (fmt_dec n))%string.

(** The ULA /48 from a random [u64]: fd and the low 40 bits. *)
Definition ula_groups (random : Z) : Z * Z * Z :=
  let global_id := Z.land random 0xffffffffff in
  (Z.lor 0xfd00 (Z.land (wrap 16 (Z.shiftr global_id 32)) 0xff),
   wrap 16 (Z.shiftr global_id 16), wrap 16 global_id).

Definition create_network (name : string) (random : Z) : op Network :=
  s ← get;
  let idx := net_index s in
  _ ← modify (set_net_index (wrap 64 (idx + 1)));
  let octet := wrap 8 (wrap 8 (idx mod 200) + 16) in
  let '(a, b, c) := ula_groups random in
  n ← next_seq;
  let hex z := text (fmt_hex16_padded z) in
  let net := mkNetwork (format_id "net-" n) name
    ("100.72." ++ text (fmt_dec octet) ++ ".0/24")%string
    (hex a ++ ":" ++ hex b ++ ":" ++ hex c ++ "::/48")%string 0 in
  let ipam := ipam_new (ipv4_new 100 72 octet 0) (a, b, c) in
  s ← get;
  _ ← modify (set_ipams (<[n_id net := ipam]> (ipams s)));
  _ ← modify (set_epoch_tx (<[n_id net := watch_channel 0]> (epoch_tx s)));
  _ ← modify (set_networks (<[n_id net := net]> (networks s)));
  mret net.

Definition create_invite (network_id : string) (expires_at max_uses : option Z) (code : string)
    : op Invite :=
  s ← get;
  match networks s !! network_id with
  | None => lift (Err NetworkNotFound)
  | Some _ =>
      let invite := mkInvite code network_id expires_at max_uses 0 in
      _ ← modify (set_invites (<[code := invite]> (invites s)));
      mret invite
  end.

Context `{!HashOrder, !KeyCodec}.

(** The device is of this network, active, and has this key. *)
Definition active_with_key (network_id key : string) (d : Device) : bool :=
  bool_decide (d_network_id d = network_id) && bool_decide (d_status d = Active)
  && bool_decide (d_wg_public_key d = key).

(** [iter.find(|x| p(x))]. *)
Definition find_by {A} (p : A → bool) (l : list A) : option A :=
  list_find (fun x => p x = true) l ≫= fun x => Some x.2.

Definition list_networks s : list Network := hm_values (networks s).

Definition enroll (invite_code name wg_public_key : string) (now : Z) : op Device :=
  key ← lift (ok_or (normalize wg_public_key) InvalidKey);
  s ← get;
  invite ← lift (ok_or (invites s !! invite_code) InvalidInvite);
  if match i_expires_at invite with Some expiry => expiry <=? now | None => false end
  then lift (Err InvalidInvite)
  else match find_by (active_with_key (i_network_id invite) key) (hm_values (devices s)) with
  | Some device => mret device
  | None =>
      if negb (is_redeemable invite now) then lift (Err InvalidInvite)
      else
        let network_id := i_network_id invite in
        ipam ← lift (ok_or (ipams s !! network_id) NetworkNotFound);
        let '(r, ipam) := allocate key ipam in
        _ ← modify (set_ipams (<[network_id := ipam]> (ipams s)));
        '(v4, v6) ← lift (map_err (fun 'PoolExhausted => StorePoolExhausted) r);
        n ← next_seq;
        let device := mkDevice (format_id "dev-" n) network_id name key
          (Some (text (fmt_v4 v4))) (Some (text (fmt_v6 v6))) Active in
        _ ← modify (fun s => set_invites (alter (fun inv =>
              mkInvite (i_code inv) (i_network_id inv) (i_expires_at inv) (i_max_uses inv)
                (wrap 32 (i_uses inv + 1))) invite_code (invites s)) s);
        _ ← modify (fun s => set_devices (<[d_id device := device]> (devices s)) s);
        _ ← modify (bump_epoch network_id);
        mret device
  end.

(** One turn of the loop of [import_devices]; [acc] is [seen], [created] and [skipped]. *)
Definition import_one (network_id : string) (dk : ImportDevice * string)
    (acc : gset string * list Device * list string)
    : op (gset string * list Device * list string) :=
  let '(d, key) := dk in
  let '(seen, created, skipped) := acc in
  if bool_decide (key ∈ seen) then mret (seen, created, skipped ++ [key])
  else
    let seen := {[key]} ∪ seen in
    s ← get;
    _ ← (match m_address_v4 d ≫= fun a => parse_v4 (chars a), ipams s !! network_id with
         | Some ip, Some ipam =>
             let host := ip mod 2 ^ 8 in
             modify (set_ipams (<[network_id := (reserve key host ipam).2]> (ipams s)))
         | _, _ => mret tt
         end);
    n ← next_seq;
    let device := mkDevice (format_id "dev-" n) network_id (m_name d) key
      (m_address_v4 d) (m_address_v6 d) Active in
    _ ← (match m_endpoints d with
         | [] => mret tt
         | l => modify (fun s => set_endpoint_map (<[d_id device := l]> (endpoints s)) s)
         end);
    _ ← modify (fun s => set_devices (<[d_id device := device]> (devices s)) s);
    mret (seen, created ++ [device], skipped).

Fixpoint import_loop (network_id : string) (l : list (ImportDevice * string))
    (acc : gset string * list Device * list string)
    : op (gset string * list Device * list string) :=
  match l with
  | [] => mret acc
  | dk :: l => acc ← import_one network_id dk acc; import_loop network_id l acc
  end.

Definition import_devices (network_id : string) (ds : list ImportDevice) : op ImportResult :=
  keys ← lift (ok_or (mapM (fun d => normalize (m_wg_public_key d)) ds) InvalidKey);
  s ← get;
  match networks s !! network_id with
  | None => lift (Err NetworkNotFound)
  | Some _ =>
      let seen : gset string := list_to_set (omap (fun d =>
        if bool_decide (d_network_id d = network_id) && bool_decide (d_status d = Active)
        then Some (d_wg_public_key d) else None) (hm_values (devices s))) in
      '(_, created, skipped) ← import_loop network_id (zip ds keys) (seen, [], []);
      _ ← (match created with [] => mret tt | _ => modify (bump_epoch network_id) end);
      mret (mkImportResult created skipped)
  end.

Definition list_devices (network_id : string) s : res StoreError (list Device) :=
  match networks s !! network_id with
  | None => Err NetworkNotFound
  | Some _ => Ok (List.filter (fun d => bool_decide (d_network_id d = network_id)) (hm_values (devices s)))
  end.

Definition revoke_device (device_id : string) : op unit :=
  s ← get;
  device ← lift (ok_or (devices s !! device_id) DeviceNotFound);
  _ ← modify (fun s => set_ipams (alter (fun ipam => (recycle (d_wg_public_key device) ipam).2)
        (d_network_id device) (ipams s)) s);
  _ ← modify (fun s => set_devices (alter (fun d =>
        mkDevice (d_id d) (d_network_id d) (d_name d) (d_wg_public_key d) (d_address_v4 d)
          (d_address_v6 d) Revoked) device_id (devices s)) s);
  modify (bump_epoch (d_network_id device)).

Definition set_endpoints (device_id : string) (l : list string) : op unit :=
  s ← get;
  device ← lift (ok_or (devices s !! device_id) DeviceNotFound);
  _ ← modify (fun s => set_endpoint_map (<[device_id := l]> (endpoints s)) s);
  modify (bump_epoch (d_network_id device)).

Definition advertise_route (device_id prefix : string) : op Route :=
  s ← get;
  dev ← lift (ok_or (devices s !! device_id) DeviceNotFound);
  n ← next_seq;
  prefix ← lift (ok_or (normalize_prefix prefix) InvalidPrefix);
  let route := mkRoute (format_id "route-" n) (d_network_id dev) device_id prefix false in
  _ ← modify (fun s => set_routes (<[r_id route := route]> (routes s)) s);
  mret route.

Definition approve_route (route_id : string) : op unit :=
  s ← get;
  r ← lift (ok_or (routes s !! route_id) RouteNotFound);
  _ ← modify (fun s => set_routes (<[route_id :=
        mkRoute (r_id r) (r_network_id r) (r_device_id r) (r_prefix r) true]> (routes s)) s);
  modify (bump_epoch (r_network_id r)).

Definition delete_route (route_id : string) : op unit :=
  s ← get;
  r ← lift (ok_or (routes s !! route_id) RouteNotFound);
  _ ← modify (fun s => set_routes (delete route_id (routes s)) s);
  if r_approved r then modify (bump_epoch (r_network_id r)) else mret tt.

(** Whether a relay of this scope serves the network: no scope serves all. *)
Definition in_scope (scope : option string) (network_id : string) : bool :=
  match scope with None => true | Some x => bool_decide (x = network_id) end.

(** [for id in networks { bump_epoch(&mut inner, &id) }]. *)
Definition bump_all (ids : list string) s : Store W := foldl (fun s id => bump_epoch id s) s ids.

Definition register_relay_authenticated (region url : string) (network_id : option string)
    (anytls : bool) (stun_url : option string) (identity : option string * option string)
    : op RelayNode :=
  let '(node_id, public_key) := identity in
  n ← next_seq;
  let relay := mkRelay (format_id "relay-" n) region url network_id anytls
    (match stun_url with Some x => Some x | None => Some url end) node_id public_key in
  _ ← modify (fun s => set_relays (<[l_id relay := relay]> (relays s)) s);
  s ← get;
  let ids := List.filter (in_scope (l_network_id relay)) (hm_keys (networks s)) in
  _ ← modify (bump_all ids);
  mret relay.

Definition register_relay (region url : string) (network_id : option string) (anytls : bool)
    (stun_url node_id : option string) : op RelayNode :=
  register_relay_authenticated region url network_id anytls stun_url (node_id, None).

Definition update_relay (relay : RelayNode) : op RelayNode :=
  s ← get;
  if match l_network_id relay with
     | Some scope => bool_decide (networks s !! scope = None)
     | None => false
     end
  then lift (Err NetworkNotFound)
  else
    old ← lift (ok_or (relays s !! l_id relay) RelayNotFound);
    let ids := List.filter (fun id => in_scope (l_network_id old) id || in_scope (l_network_id relay) id)
      (hm_keys (networks s)) in
    _ ← modify (fun s => set_relays (<[l_id relay := relay]> (relays s)) s);
    _ ← modify (bump_all ids);
    mret relay.

(** [r.network_id == Some(network_id) || r.network_id.is_none()]. *)
Definition serves (network_id : string) (r : RelayNode) : bool := in_scope (l_network_id r) network_id.

Definition list_relays (network_id : string) s : list RelayNode :=
  List.filter (serves network_id) (hm_values (relays s)).

Definition to_ascii_lowercase (c : ascii) : ascii :=
  let n := N_of_ascii c in if ((65 <=? n) && (n <=? 90))%N then ascii_of_N (n + 32) else c.
Definition eq_ignore_ascii_case (a b : string) : bool :=
  bool_decide (map to_ascii_lowercase (chars a) = map to_ascii_lowercase (chars b)).

Definition resolve (network_id name : string) s : option string :=
  d ← find_by (fun d => bool_decide (d_network_id d = network_id) && bool_decide (d_status d = Active)
        && eq_ignore_ascii_case (d_name d) name) (hm_values (devices s));
  d_address_v4 d.

(** The receiver itself lives in the connection; the sender knows that there is one. *)
Definition subscribe (network_id : string) s : Store W :=
  set_epoch_tx (alter watch_subscribe network_id (epoch_tx s)) s.

Definition network_id_of_device (device_id : string) s : option string :=
  d_network_id <$> devices s !! device_id.

Definition network_epoch (network_id : string) s : option Z :=
  n_config_epoch <$> networks s !! network_id.

(** The approved routes of the network, as (advertising device, prefix). *)
Definition approved_routes (network_id : string) s : list (string * string) :=
  (fun r => (r_device_id r, r_prefix r)) <$>
    List.filter (fun r => bool_decide (r_network_id r = network_id) && r_approved r) (hm_values (routes s)).

Definition is_exit (approved : list (string * string)) (device_id : string) : bool :=
  existsb (fun '(did, prefix) => bool_decide (did = device_id) && is_default_prefix prefix) approved.

(** The body of the closure that makes a peer entry of a device. *)
Definition peer_config (approved : list (string * string)) s (d : Device) : PeerConfig :=
  let own := match d_address_v4 d with Some v4 => [(v4 ++ "/32")%string] | None => [] end
    ++ match d_address_v6 d with Some v6 => [(v6 ++ "/128")%string] | None => [] end in
  let allowed_ips := own ++
    omap (fun '(did, prefix) => if bool_decide (did = d_id d) then Some prefix else None) approved in
  mkPeerConfig (d_wg_public_key d) allowed_ips (default [] (endpoints s !! d_id d))
    (is_exit approved (d_id d)).

Definition device_config (device_id : string) s : res StoreError DeviceConfig :=
  me ← ok_or (devices s !! device_id) DeviceNotFound;
  if negb (bool_decide (d_status me = Active)) then Err DeviceNotFound
  else
    let net := networks s !! d_network_id me in
    let approved := approved_routes (d_network_id me) s in
    let peers := peer_config approved s <$>
      List.filter (fun d => bool_decide (d_network_id d = d_network_id me)
        && bool_decide (d_id d ≠ d_id me) && bool_decide (d_status d = Active)) (hm_values (devices s)) in
    Ok (mkDeviceConfig
      (match net with Some n => [n_ipv4_pool n; n_ipv6_ula n] | None => [] end)
      (d_network_id me) (match net with Some n => n_config_epoch n | None => 0 end)
      (d_address_v4 me) (d_address_v6 me) peers
      (List.filter (serves (d_network_id me)) (hm_values (relays s)))
      None [] (is_exit approved (d_id me))).

(** ** Runs of the store *)

Inductive request :=
| CreateNetwork (name : string) (random : Z)
| CreateInvite (network_id : string) (expires_at max_uses : option Z) (code : string)
| Enroll (code name key : string) (now : Z)
| Import (network_id : string) (ds : list ImportDevice)
| RevokeDevice (device_id : string)
| SetEndpoints (device_id : string) (l : list string)
| AdvertiseRoute (device_id prefix : string)
| ApproveRoute (route_id : string)
| DeleteRoute (route_id : string)
| RegisterRelay (region url : string) (network_id : option string) (anytls : bool)
    (stun_url : option string) (identity : option string * option string)
| UpdateRelay (relay : RelayNode)
| Subscribe (network_id : string).

(** The store after a request, whatever its answer. *)
Definition exec (q : request) s : Store W :=
  match q with
  | CreateNetwork name random => (create_network name random s).2
  | CreateInvite n e m code => (create_invite n e m code s).2
  | Enroll code name key now => (enroll code name key now s).2
  | Import n ds => (import_devices n ds s).2
  | RevokeDevice id => (revoke_device id s).2
  | SetEndpoints id l => (set_endpoints id l s).2
  | AdvertiseRoute id prefix => (advertise_route id prefix s).2
  | ApproveRoute id => (approve_route id s).2
  | DeleteRoute id => (delete_route id s).2
  | RegisterRelay region url n anytls stun identity =>
      (register_relay_authenticated region url n anytls stun identity s).2
  | UpdateRelay relay => (update_relay relay s).2
  | Subscribe n => subscribe n s
  end.

(** An upper bound on the identifiers a request takes. *)
Definition request_ids (q : request) : Z := match q with Import _ ds => len ds | _ => 1 end.

(** What a client can send: [u64], [u32] and [i64] arguments in range. *)
Definition request_ok (q : request) : Prop :=
  match q with
  | CreateNetwork _ random => fits 64 random
  | CreateInvite _ _ (Some m) _ => fits 32 m
  | _ => True
  end.
End Store.
