(* ===== verification/ControlInv.v ===== *)
(** * The invariant of the coordination store

    Reachability by requests, what each request does to the store as one equation, and
    the invariant every reachable store satisfies as long as fewer than 2^64 - 2
    identifiers have been handed out: identifiers are fresh, references resolve, a
    network has at most one active device per key, no invite exceeds its budget, and
    every address pool is well formed. *)

From Stdlib Require Import Strings.Ascii Strings.String.
From S2P Require Import Prelude.
From S2P Require Import Words.
From S2P Require Import NetAddr.
From S2P Require Import NetText.
From S2P Require Import Prefix.
From S2P Require Import Ipam.
From S2P Require Import Domain.
From S2P Require Import ControlStore.

(** Run the state monad of a request on a store, one operation at a time. *)
Ltac st_run :=
  unfold mbind, st_bind, mret, st_ret, lift, get, modify, next_seq, ok_or, map_err;
  cbv beta iota zeta;
  try (let H := fresh in intros H; apply pair_equal_spec in H as [<- <-]).

#[local] Arguments fmt_v4 : simpl never.
#[local] Arguments fmt_v6 : simpl never.
#[local] Arguments format_id : simpl never.
#[local] Arguments normalize_prefix : simpl never.
#[local] Arguments allocate : simpl never.
#[local] Arguments wrap : simpl never.
#[local] Arguments bump_epoch : simpl never.

(** ** Identifiers *)

Lemma format_id_inj p a b : fits 64 a → fits 64 b → format_id p a = format_id p b → a = b.
Proof.
  unfold format_id. intros Ha Hb E. apply (inj (String.append p)), text_inj in E. by apply fmt_dec_inj.
Qed.

Section Inv.
Context {W : Type} `{!Watch W} `{!KeyCodec}.
Implicit Types s : Store W.

(** [id] is an identifier of this kind that was handed out. *)
Definition issued (prefix : string) (id : string) s : Prop :=
  ∃ k, id = format_id prefix k ∧ 0 ≤ k < seq s.

(** The networks after the epoch of one is bumped. *)
Definition bumped (net : Network) : Network :=
  mkNetwork (n_id net) (n_name net) (n_ipv4_pool net) (n_ipv6_ula net)
    (wrap 64 (n_config_epoch net + 1)).

Lemma networks_bump id s : networks (bump_epoch id s) = alter bumped id (networks s).
Proof.
  unfold bump_epoch. destruct (networks s !! id) as [net|] eqn:E.
  - transitivity (<[id := bumped net]> (networks s)).
    + cbn. by destruct (epoch_tx s !! id).
    + apply map_eq. intros i. rewrite lookup_insert, lookup_alter. case_decide; [subst; by rewrite E|done].
  - apply map_eq. intros i. rewrite lookup_alter. case_decide; [subst; by rewrite E|done].
Qed.

(** A bump touches the network and its channel only. *)
Lemma bump_same id s :
  devices (bump_epoch id s) = devices s ∧ invites (bump_epoch id s) = invites s
  ∧ ipams (bump_epoch id s) = ipams s ∧ routes (bump_epoch id s) = routes s
  ∧ relays (bump_epoch id s) = relays s ∧ endpoints (bump_epoch id s) = endpoints s
  ∧ seq (bump_epoch id s) = seq s.
Proof.
  unfold bump_epoch. destruct (networks s !! id); [|done]. cbn. by destruct (epoch_tx s !! id).
Qed.

Lemma devices_bump id s : devices (bump_epoch id s) = devices s.
Proof. apply bump_same. Qed.
Lemma invites_bump id s : invites (bump_epoch id s) = invites s.
Proof. apply bump_same. Qed.
Lemma ipams_bump id s : ipams (bump_epoch id s) = ipams s.
Proof. apply bump_same. Qed.
Lemma routes_bump id s : routes (bump_epoch id s) = routes s.
Proof. apply bump_same. Qed.
Lemma relays_bump id s : relays (bump_epoch id s) = relays s.
Proof. apply bump_same. Qed.
Lemma endpoints_bump id s : endpoints (bump_epoch id s) = endpoints s.
Proof. apply bump_same. Qed.
Lemma seq_bump id s : seq (bump_epoch id s) = seq s.
Proof. apply bump_same. Qed.

Lemma bump_all_same ids s :
  devices (bump_all ids s) = devices s ∧ invites (bump_all ids s) = invites s
  ∧ ipams (bump_all ids s) = ipams s ∧ routes (bump_all ids s) = routes s
  ∧ relays (bump_all ids s) = relays s ∧ endpoints (bump_all ids s) = endpoints s
  ∧ seq (bump_all ids s) = seq s.
Proof.
  unfold bump_all. induction ids as [|id ids IH] using rev_ind; [done|]. rewrite foldl_app. cbn.
  destruct IH as (? & ? & ? & ? & ? & ? & ?).
  rewrite devices_bump, invites_bump, ipams_bump, routes_bump, relays_bump, endpoints_bump, seq_bump.
  done.
Qed.

(** Bumping distinct networks bumps each of them once. *)
Lemma networks_bump_all ids s id :
  NoDup ids →
  networks (bump_all ids s) !! id
  = (if decide (id ∈ ids) then bumped <$> networks s !! id else networks s !! id).
Proof.
  unfold bump_all. induction ids as [|x ids IH] using rev_ind; intros Hnd; [done|].
  apply list.NoDup_app in Hnd as (Hnd & Hx & _). rewrite foldl_app. cbn.
  assert (x ∉ ids) by (intros ?; by apply (Hx x); [|by left]).
  rewrite networks_bump, lookup_alter. destruct (decide (x = id)) as [->|]; rewrite IH by done.
  all: repeat case_decide; try done; exfalso.
  all: repeat match goal with
    | H : context [_ ∈ _ ++ [_]] |- _ => rewrite elem_of_app, list_elem_of_singleton in H end.
  all: try tauto. destruct H2; congruence.
Qed.

(** ** What the requests do

    Each request as one equation on the store (a refused one leaves it alone, up to the
    identifier it took). *)

Section Exec.
Context `{!HashOrder}.

Definition new_device_v (n : Z) (network_id name key : string) (v4 v6 : Z) : Device :=
  mkDevice (format_id "dev-" n) network_id name key
    (Some (text (fmt_v4 v4))) (Some (text (fmt_v6 v6))) Active.

Definition used_once (inv : Invite) : Invite :=
  mkInvite (i_code inv) (i_network_id inv) (i_expires_at inv) (i_max_uses inv)
    (wrap 32 (i_uses inv + 1)).

Definition revoked (d : Device) : Device :=
  mkDevice (d_id d) (d_network_id d) (d_name d) (d_wg_public_key d) (d_address_v4 d)
    (d_address_v6 d) Revoked.

(** A device is added under the next identifier. *)
Definition add_device (d : Device) s : Store W :=
  set_devices (<[d_id d := d]> (devices s)) (set_seq (wrap 64 (seq s + 1)) s).

(** Enrolment succeeds with a new device, returns the active one, or changes nothing. *)
Inductive enroll_outcome (code name wg_public_key : string) (now : Z) s
    : res StoreError Device → Store W → Prop :=
| enroll_refused e : enroll_outcome code name wg_public_key now s (Err e) s
| enroll_known key inv d :
    normalize wg_public_key = Some key → invites s !! code = Some inv →
    find_by (active_with_key (i_network_id inv) key) (hm_values (devices s)) = Some d →
    enroll_outcome code name wg_public_key now s (Ok d) s
| enroll_new key inv ipam v4 v6 ipam' :
    normalize wg_public_key = Some key → invites s !! code = Some inv →
    find_by (active_with_key (i_network_id inv) key) (hm_values (devices s)) = None →
    is_redeemable inv now = true → ipams s !! i_network_id inv = Some ipam →
    allocate key ipam = (Ok (v4, v6), ipam') →
    let d := new_device_v (seq s) (i_network_id inv) name key v4 v6 in
    enroll_outcome code name wg_public_key now s (Ok d)
      (bump_epoch (i_network_id inv)
        (add_device d (set_invites (alter used_once code (invites s))
          (set_ipams (<[i_network_id inv := ipam']> (ipams s)) s)))).

Lemma set_ipams_id s m : m = ipams s → set_ipams m s = s.
Proof. intros ->. by destruct s. Qed.

Lemma enroll_cases code name wg_public_key now s r s' :
  enroll code name wg_public_key now s = (r, s') → enroll_outcome code name wg_public_key now s r s'.
Proof.
  unfold enroll. st_run. destruct (normalize wg_public_key) as [key|] eqn:Hk; st_run; [|by constructor].
  destruct (invites s !! code) as [inv|] eqn:Hi; st_run; [|by constructor].
  destruct (match i_expires_at inv with Some _ => _ | None => _ end); [st_run; by constructor|].
  destruct (find_by _ _) as [d|] eqn:Hf; st_run; [by econstructor|].
  destruct (is_redeemable inv now) eqn:Hr; cbn [negb]; st_run; [|by constructor].
  destruct (ipams s !! i_network_id inv) as [ipam|] eqn:Hp; st_run; [|by constructor].
  destruct (allocate key ipam) as [[[v4 v6]|[]|] ipam'] eqn:Ha; st_run.
  - exact (enroll_new code name wg_public_key now s key inv ipam v4 v6 ipam' Hk Hi Hf Hr Hp Ha).
  - unfold allocate in Ha. destruct (by_key ipam !! key); [done|]. destruct (free_host ipam); [done|].
    injection Ha as <-. rewrite set_ipams_id by by apply insert_id. constructor.
  - unfold allocate in Ha. destruct (by_key ipam !! key); [done|]. by destruct (free_host ipam).
Qed.

Lemma exec_revoke id s :
  exec (RevokeDevice id) s =
  match devices s !! id with
  | None => s
  | Some d =>
      bump_epoch (d_network_id d)
        (set_devices (alter revoked id (devices s))
          (set_ipams (alter (fun ipam => (recycle (d_wg_public_key d) ipam).2) (d_network_id d) (ipams s)) s))
  end.
Proof. unfold exec, revoke_device. st_run. by destruct (devices s !! id). Qed.

Lemma exec_set_endpoints id l s :
  exec (SetEndpoints id l) s =
  match devices s !! id with
  | None => s
  | Some d => bump_epoch (d_network_id d) (set_endpoint_map (<[id := l]> (endpoints s)) s)
  end.
Proof. unfold exec, set_endpoints. st_run. by destruct (devices s !! id). Qed.

Lemma exec_advertise id prefix s :
  exec (AdvertiseRoute id prefix) s =
  match devices s !! id with
  | None => s
  | Some d =>
      let s' := set_seq (wrap 64 (seq s + 1)) s in
      match normalize_prefix prefix with
      | None => s'
      | Some p =>
          let r := mkRoute (format_id "route-" (seq s)) (d_network_id d) id p false in
          set_routes (<[r_id r := r]> (routes s)) s'
      end
  end.
Proof.
  unfold exec, advertise_route. st_run. destruct (devices s !! id); [|done].
  by destruct (normalize_prefix prefix).
Qed.

Lemma exec_approve id s :
  exec (ApproveRoute id) s =
  match routes s !! id with
  | None => s
  | Some r =>
      bump_epoch (r_network_id r)
        (set_routes (<[id := mkRoute (r_id r) (r_network_id r) (r_device_id r) (r_prefix r) true]> (routes s)) s)
  end.
Proof. unfold exec, approve_route. st_run. by destruct (routes s !! id). Qed.

Lemma exec_delete id s :
  exec (DeleteRoute id) s =
  match routes s !! id with
  | None => s
  | Some r =>
      let s' := set_routes (delete id (routes s)) s in
      if r_approved r then bump_epoch (r_network_id r) s' else s'
  end.
Proof. unfold exec, delete_route. st_run. destruct (routes s !! id) as [r|]; [|done]. by destruct (r_approved r). Qed.

(** The network [create_network] makes. *)
Definition made_network (name : string) (random : Z) s : Network :=
  let octet := wrap 8 (wrap 8 (net_index s mod 200) + 16) in
  let '(a, b, c) := ula_groups random in
  let hex z := text (fmt_hex16_padded z) in
  mkNetwork (format_id "net-" (seq s)) name
    ("100.72." ++ text (fmt_dec octet) ++ ".0/24")%string
    (hex a ++ ":" ++ hex b ++ ":" ++ hex c ++ "::/48")%string 0.

Definition made_ipam (random : Z) s : Ipam :=
  ipam_new (ipv4_new 100 72 (wrap 8 (wrap 8 (net_index s mod 200) + 16)) 0) (ula_groups random).

Lemma exec_create_network name random s :
  exec (CreateNetwork name random) s =
  let net := made_network name random s in
  mkStore W (<[n_id net := net]> (networks s)) (devices s) (invites s)
    (<[n_id net := made_ipam random s]> (ipams s)) (routes s) (relays s) (endpoints s)
    (<[n_id net := watch_channel 0]> (epoch_tx s))
    (wrap 64 (seq s + 1)) (wrap 64 (net_index s + 1)).
Proof.
  unfold exec, create_network, made_network, made_ipam. st_run.
  destruct (ula_groups random) as [[a b] c]. reflexivity.
Qed.

Lemma exec_create_invite n e m code s :
  exec (CreateInvite n e m code) s =
  match networks s !! n with
  | None => s
  | Some _ => set_invites (<[code := mkInvite code n e m 0]> (invites s)) s
  end.
Proof. unfold exec, create_invite. st_run. by destruct (networks s !! n). Qed.

Definition made_relay (region url : string) (network_id : option string) (anytls : bool)
    (stun_url : option string) (identity : option string * option string) s : RelayNode :=
  mkRelay (format_id "relay-" (seq s)) region url network_id anytls
    (match stun_url with Some x => Some x | None => Some url end) identity.1 identity.2.

Lemma exec_register_relay region url n anytls stun identity s :
  exec (RegisterRelay region url n anytls stun identity) s =
  let r := made_relay region url n anytls stun identity s in
  bump_all (List.filter (in_scope n) (hm_keys (networks s)))
    (set_relays (<[l_id r := r]> (relays s)) (set_seq (wrap 64 (seq s + 1)) s)).
Proof.
  unfold exec, register_relay_authenticated, made_relay. destruct identity as [node_id public_key].
  st_run. reflexivity.
Qed.

Lemma exec_update_relay r s :
  exec (UpdateRelay r) s = s ∨
  ∃ old, relays s !! l_id r = Some old ∧
    exec (UpdateRelay r) s =
    bump_all (List.filter (fun id => in_scope (l_network_id old) id || in_scope (l_network_id r) id)
                (hm_keys (networks s)))
      (set_relays (<[l_id r := r]> (relays s)) s).
Proof.
  unfold exec, update_relay. st_run.
  destruct (match l_network_id r with Some _ => _ | None => _ end); [by left|].
  destruct (relays s !! l_id r) as [old|]; [right; by exists old|by left].
Qed.

(** ** The import loop *)

(** The pool after the host of an imported address is reserved. *)
Definition import_reserve (network_id : string) (d : ImportDevice) (key : string) s : Store W :=
  match m_address_v4 d ≫= fun a => parse_v4 (chars a), ipams s !! network_id with
  | Some ip, Some ipam => set_ipams (<[network_id := (reserve key (ip mod 2 ^ 8) ipam).2]> (ipams s)) s
  | _, _ => s
  end.

Definition import_device (network_id : string) (d : ImportDevice) (key : string) s : Device :=
  mkDevice (format_id "dev-" (seq s)) network_id (m_name d) key (m_address_v4 d) (m_address_v6 d) Active.

Definition import_endpoints (id : string) (l : list string) s : Store W :=
  match l with [] => s | _ => set_endpoint_map (<[id := l]> (endpoints s)) s end.

Lemma import_reserve_same n d key s :
  networks (import_reserve n d key s) = networks s ∧ devices (import_reserve n d key s) = devices s
  ∧ invites (import_reserve n d key s) = invites s ∧ routes (import_reserve n d key s) = routes s
  ∧ relays (import_reserve n d key s) = relays s ∧ endpoints (import_reserve n d key s) = endpoints s
  ∧ seq (import_reserve n d key s) = seq s ∧ epoch_tx (import_reserve n d key s) = epoch_tx s.
Proof. unfold import_reserve. by destruct (_ ≫= _), (ipams s !! n). Qed.

(** One device: skipped when its key was seen, added otherwise. *)
Lemma import_one_eq n d key seen cr sk s :
  import_one n (d, key) (seen, cr, sk) s =
  if decide (key ∈ seen) then (Ok (seen, cr, sk ++ [key]), s)
  else
    let dev := import_device n d key s in
    (Ok ({[key]} ∪ seen, cr ++ [dev], sk),
     add_device dev (import_endpoints (d_id dev) (m_endpoints d) (import_reserve n d key s))).
Proof.
  unfold import_one. rewrite decide_bool_decide. destruct (bool_decide (key ∈ seen)); [done|].
  unfold import_device, import_endpoints, add_device, import_reserve.
  destruct (m_address_v4 d ≫= _) as [ip|]; st_run; [destruct (ipams s !! n)|]; by destruct (m_endpoints d).
Qed.

End Exec.

(** ** Reachable stores

    [n] bounds the identifiers handed out (and the epochs reached); [guard] restricts
    the requests considered. *)

Inductive reachable (guard : Store W → request → Prop) : Z → Store W → Prop :=
| reach_new : reachable guard 0 store_new
| reach_step n s (ho : HashOrder) q :
    reachable guard n s → request_ok q → guard s q → reachable guard (n + request_ids q) (exec q s).

Definition any_request (_ : Store W) (_ : request) : Prop := True.

(** One active device per network and key. *)
Definition keys_unique (m : gmap string Device) : Prop :=
  ∀ id id' d d', m !! id = Some d → m !! id' = Some d' →
    d_status d = Active → d_status d' = Active → d_network_id d = d_network_id d' →
    d_wg_public_key d = d_wg_public_key d' → id = id'.

Record store_ok (n : Z) s : Prop := {
  ok_seq : 1 ≤ seq s ≤ 1 + n;
  ok_device : ∀ id d, devices s !! id = Some d →
    d_id d = id ∧ issued "dev-" id s ∧ is_Some (networks s !! d_network_id d);
  ok_network : ∀ id net, networks s !! id = Some net →
    n_id net = id ∧ issued "net-" id s ∧ 0 ≤ n_config_epoch net ≤ n;
  ok_route : ∀ id r, routes s !! id = Some r → r_id r = id ∧ issued "route-" id s;
  ok_relay : ∀ id r, relays s !! id = Some r → l_id r = id ∧ issued "relay-" id s;
  ok_invite : ∀ code inv, invites s !! code = Some inv →
    0 ≤ i_uses inv ∧ ∀ m, i_max_uses inv = Some m → fits 32 m ∧ i_uses inv ≤ m;
  ok_ipam : ∀ id i, ipams s !! id = Some i → ipam_ok i ∧ is_Some (networks s !! id);
  ok_keys : keys_unique (devices s)
}.

(** No counter has come near its end. *)
Definition in_bounds (n : Z) : Prop := n < 2 ^ 64 - 2.

Lemma request_ids_nonneg q : 0 ≤ request_ids q.
Proof. destruct q; cbn; try lia. apply len_nonneg. Qed.

Lemma issued_mono p id s s' : seq s ≤ seq s' → issued p id s → issued p id s'.
Proof. intros Hle (k & -> & Hk). exists k. split; [done|lia]. Qed.

(** The next identifier is new. *)
Lemma not_issued p n s : store_ok n s → in_bounds n → ¬ issued p (format_id p (seq s)) s.
Proof.
  intros [Hs _ _ _ _ _ _ _] Hn (k & Hk & Hlt). unfold in_bounds in Hn.
  apply format_id_inj in Hk; unfold fits; lia.
Qed.

Lemma next_issued p n s s' :
  store_ok n s → in_bounds n → seq s' = wrap 64 (seq s + 1) →
  seq s' = seq s + 1 ∧ issued p (format_id p (seq s)) s'.
Proof.
  intros [Hs _ _ _ _ _ _ _] Hn. unfold in_bounds in Hn. rewrite wrap_id by (unfold fits; lia).
  intros E. split; [done|]. exists (seq s). split; [done|lia].
Qed.

(** What a request leaves alone keeps its part of the invariant. *)
Lemma store_ok_frame n n' s s' :
  store_ok n s → n ≤ n' → seq s ≤ seq s' ≤ 1 + n' →
  (∀ id d, devices s' !! id = Some d → devices s !! id = Some d ∨
     d_id d = id ∧ issued "dev-" id s' ∧ is_Some (networks s !! d_network_id d)) →
  (∀ id net, networks s' !! id = Some net →
     networks s !! id = Some net ∨ (∃ net0, networks s !! id = Some net0 ∧ net = bumped net0 ∧ n < n')
     ∨ n_id net = id ∧ issued "net-" id s' ∧ n_config_epoch net = 0) →
  (∀ id, is_Some (networks s !! id) → is_Some (networks s' !! id)) →
  (∀ id r, routes s' !! id = Some r → is_Some (routes s !! id) ∨ issued "route-" id s') →
  (∀ id r, routes s' !! id = Some r → r_id r = id) →
  (∀ id r, relays s' !! id = Some r → is_Some (relays s !! id) ∨ issued "relay-" id s') →
  (∀ id r, relays s' !! id = Some r → l_id r = id) →
  (∀ code inv, invites s' !! code = Some inv → invites s !! code = Some inv ∨
     0 ≤ i_uses inv ∧ ∀ m, i_max_uses inv = Some m → fits 32 m ∧ i_uses inv ≤ m) →
  (∀ id i, ipams s' !! id = Some i → ipams s !! id = Some i ∨ ipam_ok i ∧ is_Some (networks s' !! id)) →
  keys_unique (devices s') → in_bounds n' → store_ok n' s'.
Proof.
  intros [Hs Hd Hnet Hr Hl Hi Hp Hk] Hn Hseq Hd' Hnet' Hdom Hr' Hrid Hl' Hlid Hi' Hp' Hk' Hb.
  split; [lia| | | | | | |done].
  - intros id d Hx. destruct (Hd' id d Hx) as [(? & ? & ?)%Hd|(? & ? & ?)]; eauto using issued_mono.
    split_and!; [done|by eapply issued_mono; [apply Hseq|]|by apply Hdom].
  - intros id net Hx. destruct (Hnet' id net Hx) as [(? & ? & ?)%Hnet|[(net0 & (? & ? & ?)%Hnet & -> & ?)|(? & ? & ->)]].
    + split_and!; [done|by eapply issued_mono; [apply Hseq|]|lia..].
    + split_and!; [done|by eapply issued_mono; [apply Hseq|]|..]; cbn;
        unfold in_bounds in Hb; rewrite wrap_id by (unfold fits; lia); lia.
    + split_and!; [done|done|lia..].
  - intros id r Hx. split; [eauto|]. destruct (Hr' id r Hx) as [[? (_ & ?)%Hr]|?]; [|done].
    by eapply issued_mono; [apply Hseq|].
  - intros id r Hx. split; [eauto|]. destruct (Hl' id r Hx) as [[? (_ & ?)%Hl]|?]; [|done].
    by eapply issued_mono; [apply Hseq|].
  - intros code inv Hx. destruct (Hi' code inv Hx); eauto.
  - intros id i Hx. destruct (Hp' id i Hx) as [[? ?]%Hp|?]; eauto.
Qed.


(** ** Lookups through an unordered map *)

Section Order.
Context `{!HashOrder}.

Lemma elem_of_hm_values {A} (m : gmap string A) x : x ∈ hm_values m ↔ ∃ id, m !! id = Some x.
Proof.
  unfold hm_values. rewrite hm_perm, list_elem_of_fmap. split.
  - intros ([id y] & -> & Hy%elem_of_map_to_list). eauto.
  - intros [id Hid]. exists (id, x). by rewrite elem_of_map_to_list.
Qed.

Lemma NoDup_hm_keys {A} (m : gmap string A) : NoDup (hm_keys m).
Proof. unfold hm_keys. rewrite hm_perm. apply NoDup_fst_map_to_list. Qed.

Lemma elem_of_hm_keys {A} (m : gmap string A) id : id ∈ hm_keys m ↔ is_Some (m !! id).
Proof.
  unfold hm_keys. rewrite hm_perm, list_elem_of_fmap. split.
  - intros ([i y] & -> & Hy%elem_of_map_to_list). eauto.
  - intros [x Hx]. exists (id, x). by rewrite elem_of_map_to_list.
Qed.

Lemma elem_of_Filter {A} (p : A → bool) l x : x ∈ List.filter p l ↔ x ∈ l ∧ p x = true.
Proof. rewrite !list_elem_of_In. apply filter_In. Qed.

Lemma NoDup_Filter {A} (p : A → bool) (l : list A) : NoDup l → NoDup (List.filter p l).
Proof. rewrite !NoDup_ListNoDup. apply NoDup_filter. Qed.

Lemma find_by_Some {A} (p : A → bool) (m : gmap string A) x :
  find_by p (hm_values m) = Some x → ∃ id, m !! id = Some x ∧ p x = true.
Proof.
  unfold find_by. destruct (list_find _ _) as [[i y]|] eqn:E; [|done]. intros [= <-].
  apply list_find_Some in E as (Hi & Hp & _). apply list_elem_of_lookup_2, elem_of_hm_values in Hi as [id ?].
  eauto.
Qed.

Lemma find_by_None {A} (p : A → bool) (m : gmap string A) id x :
  find_by p (hm_values m) = None → m !! id = Some x → p x = false.
Proof.
  unfold find_by. destruct (list_find _ _) as [[i y]|] eqn:E; [done|]. intros _ Hx.
  apply list_find_None in E. eapply list.Forall_forall in E; [|apply elem_of_hm_values; eauto].
  by destruct (p x).
Qed.

Lemma active_with_key_spec n key d :
  active_with_key n key d = true ↔ d_network_id d = n ∧ d_status d = Active ∧ d_wg_public_key d = key.
Proof. unfold active_with_key. rewrite !andb_true_iff, !bool_decide_eq_true. tauto. Qed.
End Order.

(** ** Keeping the invariant *)

Lemma lookup_bumped id (m : gmap string Network) i net :
  alter bumped id m !! i = Some net →
  m !! i = Some net ∨ ∃ net0, m !! i = Some net0 ∧ net = bumped net0.
Proof.
  rewrite lookup_alter. case_decide as Hi; [|by left]. subst i.
  destruct (m !! id) as [net0|]; [|done]. intros [= <-]. right. eauto.
Qed.

Lemma keys_unique_insert m d :
  keys_unique m → m !! d_id d = None →
  (∀ id d', m !! id = Some d' → d_status d' = Active → d_network_id d' = d_network_id d →
     d_wg_public_key d' ≠ d_wg_public_key d) →
  keys_unique (<[d_id d := d]> m).
Proof.
  intros Hu Hnew Hno id id' d1 d2. rewrite !lookup_insert. repeat case_decide; subst; try done.
  - intros [= <-] H2 _ Ha2 Hn Hk. by destruct (Hno id' d2 H2 Ha2).
  - intros H1 [= <-] Ha1 _ Hn Hk. by destruct (Hno id d1 H1 Ha1).
  - eauto.
Qed.

Lemma keys_unique_revoked m id : keys_unique m → keys_unique (alter revoked id m).
Proof.
  intros Hu i i' d d' H1 H2 Ha Ha'.
  assert (∀ j e, alter revoked id m !! j = Some e → d_status e = Active → m !! j = Some e) as Hsame.
  { intros j e. rewrite lookup_alter. case_decide; [|done].
    destruct (m !! id); [|done]. by intros [= <-]. }
  apply Hu; eauto.
Qed.


End Inv.

(** The projections of a store built by setters and bumps. *)
Ltac store_simp :=
  rewrite ?devices_bump, ?networks_bump, ?routes_bump, ?relays_bump, ?invites_bump, ?ipams_bump,
    ?endpoints_bump, ?seq_bump;
  cbn [devices networks invites ipams routes relays endpoints epoch_tx seq net_index
       set_networks set_devices set_invites set_ipams set_routes set_relays set_endpoint_map
       set_epoch_tx set_seq set_net_index add_device].

(** Close the parts of [store_ok_frame] that a request does not touch. *)
Ltac frame_rest Hok :=
  try (intros ? ? ?; by left);
  try (intros ? ? ?; left; eexists; eassumption);
  try (by intros ? ? [? _]%(ok_route _ _ Hok));
  try (by intros ? ? [? _]%(ok_relay _ _ Hok));
  try (apply (ok_keys _ _ Hok));
  try done.

Section Steps.
Context {W : Type} `{!Watch W} `{!KeyCodec}.
Implicit Types s : Store W.

Lemma networks_bumped_frame n n' id (m : gmap string Network) net i (P : Prop) :
  n < n' → alter bumped id m !! i = Some net →
  m !! i = Some net ∨ (∃ net0, m !! i = Some net0 ∧ net = bumped net0 ∧ n < n') ∨ P.
Proof. intros Hn [?|(net0 & ? & ?)]%lookup_bumped; [by left|right; left; eauto]. Qed.

Lemma is_Some_bumped id (m : gmap string Network) i : is_Some (m !! i) → is_Some (alter bumped id m !! i).
Proof. by rewrite lookup_alter_is_Some. Qed.


Lemma store_ok_mono n n' s : store_ok n s → n ≤ n' → in_bounds n' → store_ok n' s.
Proof.
  intros Hok Hn Hb. pose proof (ok_seq _ _ Hok).
  eapply (store_ok_frame n); [exact Hok|lia|..]; frame_rest Hok; lia.
Qed.

Lemma devices_fresh n s : store_ok n s → in_bounds n → devices s !! format_id "dev-" (seq s) = None.
Proof.
  intros Hok Hn. destruct (devices s !! _) as [d|] eqn:E; [|done]. exfalso.
  apply (ok_device _ _ Hok) in E as (_ & Hi & _). by eapply not_issued.
Qed.

Lemma in_bounds_le n n' : n ≤ n' → in_bounds n' → in_bounds n.
Proof. unfold in_bounds. lia. Qed.

Lemma store_ok_revoke `{!HashOrder} n s id :
  store_ok n s → in_bounds (n + 1) → store_ok (n + 1) (exec (RevokeDevice id) s).
Proof.
  intros Hok Hb. pose proof (ok_seq _ _ Hok). rewrite exec_revoke.
  destruct (devices s !! id) as [d|] eqn:Hd; (eapply (store_ok_frame n); [exact Hok|lia|..]; store_simp;
    frame_rest Hok; try lia).
  - intros i e. rewrite lookup_alter. case_decide as Hi; [|by left]. subst i. rewrite Hd. intros [= <-].
    apply (ok_device _ _ Hok) in Hd as (? & ? & ?). right. split_and!; [done| |done].
    eapply issued_mono; [|eassumption]. store_simp. lia.
  - intros i net. apply networks_bumped_frame. lia.
  - intros i. apply is_Some_bumped.
  - intros i p. rewrite lookup_alter. case_decide; [|by left]. subst i.
    destruct (ipams s !! d_network_id d) as [p0|] eqn:Hp; [|done]. intros [= <-]. right.
    apply (ok_ipam _ _ Hok) in Hp as [? ?]. split; [by apply recycle_ok|]. store_simp. by apply is_Some_bumped.
  - apply keys_unique_revoked, Hok.
Qed.

Lemma store_ok_set_endpoints `{!HashOrder} n s id l :
  store_ok n s → in_bounds (n + 1) → store_ok (n + 1) (exec (SetEndpoints id l) s).
Proof.
  intros Hok Hb. pose proof (ok_seq _ _ Hok). rewrite exec_set_endpoints.
  destruct (devices s !! id) as [d|] eqn:Hd; (eapply (store_ok_frame n); [exact Hok|lia|..]; store_simp;
    frame_rest Hok; try lia).
  - intros i net. apply networks_bumped_frame. lia.
  - intros i. apply is_Some_bumped.
Qed.

Lemma store_ok_advertise `{!HashOrder} n s id prefix :
  store_ok n s → in_bounds (n + 1) → store_ok (n + 1) (exec (AdvertiseRoute id prefix) s).
Proof.
  intros Hok Hb. pose proof (ok_seq _ _ Hok). rewrite exec_advertise. cbv zeta.
  assert (wrap 64 (seq s + 1) = seq s + 1) as Hw by (apply wrap_id; unfold in_bounds, fits in *; lia).
  destruct (devices s !! id) as [d|]; [destruct (normalize_prefix prefix)|];
    (eapply (store_ok_frame n); [exact Hok|lia|..]; store_simp; frame_rest Hok; rewrite ?Hw; try lia).
  - intros i r'. rewrite lookup_insert. cbn [r_id]. case_decide as Hi; [|left; eauto]. subst i. right.
    apply (next_issued "route-" n s); [done|by eapply in_bounds_le; [|exact Hb]; lia|]. by store_simp.
  - intros i r'. rewrite lookup_insert. cbn [r_id]. case_decide; [by intros [= <-]|].
    by intros [? _]%(ok_route _ _ Hok).
Qed.

Lemma store_ok_approve `{!HashOrder} n s id :
  store_ok n s → in_bounds (n + 1) → store_ok (n + 1) (exec (ApproveRoute id) s).
Proof.
  intros Hok Hb. pose proof (ok_seq _ _ Hok). rewrite exec_approve.
  destruct (routes s !! id) as [r|] eqn:Hr; (eapply (store_ok_frame n); [exact Hok|lia|..]; store_simp;
    frame_rest Hok; try lia).
  - intros i net. apply networks_bumped_frame. lia.
  - intros i. apply is_Some_bumped.
  - intros i r'. rewrite lookup_insert. case_decide; [subst; left; eauto|left; eauto].
  - intros i r'. rewrite lookup_insert. case_decide; [|by intros [? _]%(ok_route _ _ Hok)].
    subst i. intros [= <-]. by apply (ok_route _ _ Hok) in Hr as [? _].
Qed.

Lemma store_ok_delete `{!HashOrder} n s id :
  store_ok n s → in_bounds (n + 1) → store_ok (n + 1) (exec (DeleteRoute id) s).
Proof.
  intros Hok Hb. pose proof (ok_seq _ _ Hok). rewrite exec_delete. cbv zeta.
  destruct (routes s !! id) as [r|] eqn:Hr; [destruct (r_approved r)|];
    (eapply (store_ok_frame n); [exact Hok|lia|..]; store_simp; frame_rest Hok; try lia).
  1: intros i net; apply networks_bumped_frame; lia.
  1: intros i; apply is_Some_bumped.
  all: intros i r' [_ Hr']%lookup_delete_Some; try (left; by eexists); by apply (ok_route _ _ Hok) in Hr' as [? _].
Qed.


Lemma ula_groups_fits random : let '(a, b, c) := ula_groups random in fits 16 a ∧ fits 16 b ∧ fits 16 c.
Proof.
  unfold ula_groups. split_and!; [|by apply wrap_fits..].
  set (x := Z.land _ 0xff). assert (0 ≤ x < 256) as Hx.
  { unfold x. change 0xff with (Z.ones 8). rewrite Z.land_ones by lia. apply Z.mod_pos_bound. lia. }
  rewrite (lor_disjoint 8) by (done || lia). unfold fits. lia.
Qed.

Lemma store_ok_create_network `{!HashOrder} n s name random :
  store_ok n s → in_bounds (n + 1) → store_ok (n + 1) (exec (CreateNetwork name random) s).
Proof.
  intros Hok Hb. pose proof (ok_seq _ _ Hok). rewrite exec_create_network. cbv zeta.
  assert (wrap 64 (seq s + 1) = seq s + 1) as Hw by (apply wrap_id; unfold in_bounds, fits in *; lia).
  set (net := made_network name random s).
  assert (n_id net = format_id "net-" (seq s) ∧ n_config_epoch net = 0) as [Hid Hep].
  { unfold net, made_network. by destruct (ula_groups random) as [[a b] c]. }
  eapply (store_ok_frame n); [exact Hok|lia|..]; store_simp; frame_rest Hok; rewrite ?Hw; try lia.
  - intros i net'. rewrite lookup_insert. case_decide as Hi; [|by left]. subst i. intros [= <-]. right. right.
    split_and!; [done| |done]. rewrite Hid. exists (seq s). split; [done|]. cbn [seq]. lia.
  - intros i Hi. rewrite lookup_insert. case_decide; [by eexists|done].
  - intros i p. rewrite lookup_insert. case_decide; [|by left]. intros [= <-]. right.
    split; [apply ipam_ok_new, ula_groups_fits|]. store_simp. subst. rewrite lookup_insert_eq. by eexists.
Qed.

Lemma store_ok_create_invite `{!HashOrder} n s net e m code :
  store_ok n s → request_ok (CreateInvite net e m code) → in_bounds (n + 1) →
  store_ok (n + 1) (exec (CreateInvite net e m code) s).
Proof.
  intros Hok Hq Hb. pose proof (ok_seq _ _ Hok). rewrite exec_create_invite.
  destruct (networks s !! net); (eapply (store_ok_frame n); [exact Hok|lia|..]; store_simp;
    frame_rest Hok; try lia).
  intros c inv. rewrite lookup_insert. case_decide; [|by left]. intros [= <-]. right. cbn. split; [lia|].
  intros m' ->. cbn in Hq. unfold fits in *. lia.
Qed.

(** The networks in the scope of a relay are bumped once each. *)
Lemma networks_bump_scoped `{!HashOrder} (p : string → bool) s i :
  networks (bump_all (List.filter p (hm_keys (networks s))) s) !! i
  = if p i then bumped <$> networks s !! i else networks s !! i.
Proof.
  rewrite networks_bump_all by apply NoDup_Filter, NoDup_hm_keys.
  case_decide as Hi; rewrite elem_of_Filter, elem_of_hm_keys in Hi.
  - destruct Hi as [_ ->]. done.
  - destruct (p i); [|done]. destruct (networks s !! i); [|done]. naive_solver.
Qed.

Lemma bump_all_frame `{!HashOrder} n s (p : string → bool) m z :
  store_ok n s → in_bounds (n + 1) → seq s ≤ z ≤ 2 + n →
  (∀ id r, m !! id = Some r → l_id r = id ∧
     (is_Some (relays s !! id) ∨ ∃ k, id = format_id "relay-" k ∧ 0 ≤ k < z)) →
  store_ok (n + 1) (bump_all (List.filter p (hm_keys (networks s))) (set_relays m (set_seq z s))).
Proof.
  intros Hok Hb Hz Hm. pose proof (ok_seq _ _ Hok).
  pose proof (networks_bump_scoped p (set_relays m (set_seq z s))) as Hnet. cbn [networks set_relays set_seq] in Hnet.
  destruct (bump_all_same (List.filter p (hm_keys (networks s))) (set_relays m (set_seq z s)))
    as (Hd & Hi & Hp & Hr & Hl & He & Hs).
  eapply (store_ok_frame n); [exact Hok|lia|..]; rewrite ?Hd, ?Hi, ?Hp, ?Hr, ?Hl, ?Hs; store_simp;
    frame_rest Hok; try lia.
  - intros i net. rewrite Hnet. destruct (p i); [|by left].
    destruct (networks s !! i); [|done]. intros [= <-]. right. left. eexists. split_and!; [done..|lia].
  - intros i ?. rewrite Hnet. destruct (p i); [by apply fmap_is_Some|done].
  - intros i r Hx. destruct (Hm i r Hx) as (_ & [?|(k & -> & ?)]); [by left|right].
    exists k. split; [done|]. rewrite Hs. by store_simp.
  - intros i r Hx. by apply Hm.
Qed.

Lemma store_ok_register `{!HashOrder} n s region url net anytls stun identity :
  store_ok n s → in_bounds (n + 1) →
  store_ok (n + 1) (exec (RegisterRelay region url net anytls stun identity) s).
Proof.
  intros Hok Hb. pose proof (ok_seq _ _ Hok). rewrite exec_register_relay. cbv zeta.
  assert (wrap 64 (seq s + 1) = seq s + 1) as Hw by (apply wrap_id; unfold in_bounds, fits in *; lia).
  apply bump_all_frame; [done..|rewrite Hw; lia|].
  intros i r. rewrite lookup_insert. case_decide as Hi.
  - subst i. intros [= <-]. split; [done|right]. exists (seq s). rewrite Hw. split; [done|lia].
  - intros Hr. split; [by apply (ok_relay _ _ Hok) in Hr as [? _]|left; eauto].
Qed.

Lemma store_ok_update `{!HashOrder} n s r :
  store_ok n s → in_bounds (n + 1) → store_ok (n + 1) (exec (UpdateRelay r) s).
Proof.
  intros Hok Hb. pose proof (ok_seq _ _ Hok). destruct (exec_update_relay r s) as [->|(old & Hold & ->)].
  - eapply store_ok_mono; [exact Hok|lia|done].
  - change (set_relays ?m s) with (set_relays m (set_seq (seq s) s)). apply bump_all_frame; [done..|lia|].
    intros i r'. rewrite lookup_insert. case_decide as Hi.
    + subst i. intros [= <-]. split; [done|left; eauto].
    + intros Hr. split; [by apply (ok_relay _ _ Hok) in Hr as [? _]|left; eauto].
Qed.


(** A redeemable invite stays within its budget when it is used once more. *)
Lemma used_once_ok n s code inv now :
  store_ok n s → invites s !! code = Some inv → is_redeemable inv now = true →
  0 ≤ i_uses (used_once inv) ∧
  ∀ m, i_max_uses (used_once inv) = Some m → fits 32 m ∧ i_uses (used_once inv) ≤ m.
Proof.
  intros Hok Hi Hr. apply (ok_invite _ _ Hok) in Hi as [Hu Hm]. unfold used_once; cbn.
  split; [apply wrap_fits; lia|]. intros m Hmax. destruct (Hm m Hmax) as [Hf _]. split; [done|].
  unfold is_redeemable in Hr. rewrite Hmax in Hr. bool_prop. rewrite wrap_id; unfold fits in *; lia.
Qed.

Lemma store_ok_enroll `{!HashOrder} n s code name key now :
  store_ok n s → in_bounds (n + 1) → store_ok (n + 1) (exec (Enroll code name key now) s).
Proof.
  intros Hok Hb. pose proof (ok_seq _ _ Hok). cbn [exec].
  assert (in_bounds n) as Hb0 by (eapply in_bounds_le; [|exact Hb]; lia).
  assert (wrap 64 (seq s + 1) = seq s + 1) as Hw by (apply wrap_id; unfold in_bounds, fits in *; lia).
  destruct (enroll code name key now s) as [r s'] eqn:E. apply enroll_cases in E. cbn [snd].
  destruct E as [e|k inv d Hk Hi Hf|k inv ipam v4 v6 ipam' Hk Hi Hf Hr Hp Ha d].
  1,2: eapply store_ok_mono; [exact Hok|lia|done].
  eapply (store_ok_frame n); [exact Hok|lia|..]; store_simp; frame_rest Hok; rewrite ?Hw; try lia.
  - intros i d'. rewrite lookup_insert. case_decide as Hid; [|by left]. subst i. intros [= <-]. right.
    split_and!; [done|exists (seq s); split; [done|store_simp; lia]|by apply (ok_ipam _ _ Hok) in Hp as [_ ?]].
  - intros i net. apply networks_bumped_frame. lia.
  - intros i. apply is_Some_bumped.
  - intros c inv'. rewrite lookup_alter. case_decide as Hc; [|by left]. subst c. rewrite Hi. intros [= <-].
    right. by eapply used_once_ok.
  - intros i p. rewrite lookup_insert. case_decide; [|by left]. subst i. intros [= <-]. right.
    apply (ok_ipam _ _ Hok) in Hp as [? ?]. split; [by eapply allocate_ok|]. store_simp. by apply is_Some_bumped.
  - apply keys_unique_insert; [apply Hok|by eapply devices_fresh|].
    intros i d' Hd' Hact Hn Hkey. eapply find_by_None in Hf; [|exact Hd'].
    rewrite (proj2 (active_with_key_spec _ _ d')) in Hf; done.
Qed.


(** What importing into network [n] may change: new active devices of [n], with their
    endpoints, and the pool. *)
Record imported (n : string) s s' : Prop := {
  im_same : networks s' = networks s ∧ invites s' = invites s ∧ routes s' = routes s
    ∧ relays s' = relays s ∧ epoch_tx s' = epoch_tx s;
  im_old : ∀ id d, devices s !! id = Some d → devices s' !! id = Some d;
  im_new : ∀ id d, devices s' !! id = Some d →
    devices s !! id = Some d ∨ devices s !! id = None ∧ d_network_id d = n ∧ d_status d = Active;
  im_endpoints : ∀ id, is_Some (devices s !! id) → endpoints s' !! id = endpoints s !! id
}.

#[export] Instance imported_refl n : Reflexive (imported n).
Proof. intros s. split; eauto. Qed.

#[export] Instance imported_trans n : Transitive (imported n).
Proof.
  intros s1 s2 s3 [(? & ? & ? & ? & ?) Ho1 Hn1 He1] [(? & ? & ? & ? & ?) Ho2 Hn2 He2]. split.
  - split_and!; congruence.
  - eauto.
  - intros id d [?|(Hnone & ? & ?)]%Hn2; [eauto|]. right. split; [|done].
    destruct (devices s1 !! id) eqn:E; [|done]. apply Ho1 in E. congruence.
  - intros id [d Hd]. rewrite He2 by eauto. apply He1. eauto.
Qed.

(** The keys of the active devices of the network have been seen. *)
Definition covers (n : string) (seen : gset string) s : Prop :=
  ∀ id d, devices s !! id = Some d → d_network_id d = n → d_status d = Active → d_wg_public_key d ∈ seen.

Lemma import_endpoints_same id l s :
  networks (import_endpoints id l s) = networks s ∧ devices (import_endpoints id l s) = devices s
  ∧ invites (import_endpoints id l s) = invites s ∧ routes (import_endpoints id l s) = routes s
  ∧ relays (import_endpoints id l s) = relays s ∧ ipams (import_endpoints id l s) = ipams s
  ∧ seq (import_endpoints id l s) = seq s ∧ epoch_tx (import_endpoints id l s) = epoch_tx s
  ∧ ∀ i, i ≠ id → endpoints (import_endpoints id l s) !! i = endpoints s !! i.
Proof.
  unfold import_endpoints. destruct l as [|x l]; [done|]. cbn. split_and!; try done.
  intros i Hi. by rewrite lookup_insert_ne.
Qed.

(** The store after one device is imported. *)
Definition import_result (n : string) (d : ImportDevice) (key : string) s : Store W :=
  let dev := import_device n d key s in
  add_device dev (import_endpoints (d_id dev) (m_endpoints d) (import_reserve n d key s)).

Lemma import_result_parts n d key s :
  devices (import_result n d key s) = <[format_id "dev-" (seq s) := import_device n d key s]> (devices s)
  ∧ networks (import_result n d key s) = networks s ∧ invites (import_result n d key s) = invites s
  ∧ routes (import_result n d key s) = routes s ∧ relays (import_result n d key s) = relays s
  ∧ epoch_tx (import_result n d key s) = epoch_tx s
  ∧ ipams (import_result n d key s) = ipams (import_reserve n d key s)
  ∧ seq (import_result n d key s) = wrap 64 (seq s + 1)
  ∧ ∀ i, i ≠ format_id "dev-" (seq s) → endpoints (import_result n d key s) !! i = endpoints s !! i.
Proof.
  unfold import_result. cbv zeta. store_simp.
  destruct (import_endpoints_same (d_id (import_device n d key s)) (m_endpoints d) (import_reserve n d key s))
    as (-> & -> & -> & -> & -> & -> & -> & -> & He).
  destruct (import_reserve_same n d key s) as (-> & -> & -> & -> & -> & <- & -> & ->).
  split_and!; try done. 
Qed.

Lemma import_reserve_ok m n d key s :
  store_ok m s → ∀ id i, ipams (import_reserve n d key s) !! id = Some i →
  ipam_ok i ∧ is_Some (networks s !! id).
Proof.
  intros Hok id i. unfold import_reserve.
  destruct (_ ≫= _) as [ip|]; [|apply Hok]. destruct (ipams s !! n) as [p|] eqn:Hp; [|apply Hok].
  cbn [ipams set_ipams]. rewrite lookup_insert. case_decide; [|apply Hok]. subst id. intros [= <-].
  apply (ok_ipam _ _ Hok) in Hp as [Hp ?]. split; [|done].
  eapply reserve_ok; [exact Hp| |apply surjective_pairing]. by apply (wrap_fits 8).
Qed.

Lemma import_result_ok m n d key s seen :
  store_ok m s → in_bounds (m + 1) → is_Some (networks s !! n) → covers n seen s → key ∉ seen →
  store_ok (m + 1) (import_result n d key s) ∧ imported n s (import_result n d key s)
  ∧ covers n ({[key]} ∪ seen) (import_result n d key s).
Proof.
  intros Hok Hb Hnet Hcov Hkey. pose proof (ok_seq _ _ Hok).
  assert (in_bounds m) as Hb0 by (eapply in_bounds_le; [|exact Hb]; lia).
  assert (wrap 64 (seq s + 1) = seq s + 1) as Hw by (apply wrap_id; unfold in_bounds, fits in *; lia).
  pose proof (devices_fresh _ _ Hok Hb0) as Hfresh.
  pose proof (import_reserve_ok m n d key s Hok) as Hpool.
  destruct (import_result_parts n d key s) as (Hd & Hn & Hi & Hr & Hl & He & Hp & Hs & Hend).
  split_and!.
  - eapply (store_ok_frame m); [exact Hok|lia|..]; rewrite ?Hd, ?Hn, ?Hi, ?Hr, ?Hl, ?Hp, ?Hs;
      frame_rest Hok; rewrite ?Hw; try lia.
    + intros i d'. rewrite lookup_insert. case_decide; [|by left]. subst i. intros [= <-]. right.
      split_and!; [done|exists (seq s); split; [done|rewrite Hs; lia]|done].
    + intros i p Hx. right. eauto.
    + apply (keys_unique_insert _ (import_device n d key s)); [apply Hok|done|].
      intros i d' Hx Ha Hnd Hk. apply Hkey. cbn in Hk. rewrite <-Hk. by eapply Hcov.
  - split; [done| | |].
    + intros i d' Hx. rewrite Hd, lookup_insert_ne; [done|]. intros <-. congruence.
    + intros i d'. rewrite Hd, lookup_insert. case_decide; [|by left]. subst i. intros [= <-]. by right.
    + intros i [d' Hx]. apply Hend. intros ->. congruence.
  - intros i d'. rewrite Hd, lookup_insert. case_decide;
      [intros [= <-] _ _; by apply elem_of_union_l, elem_of_singleton|].
    intros Hx Hn' Ha. apply elem_of_union_r. by eapply Hcov.
Qed.


Lemma import_loop_ok n l : ∀ m s seen cr sk,
  store_ok m s → in_bounds (m + len l) → is_Some (networks s !! n) → covers n seen s →
  ∃ seen' cr' sk' s', import_loop n l (seen, cr, sk) s = (Ok (seen', cr', sk'), s')
    ∧ store_ok (m + len l) s' ∧ imported n s s' ∧ covers n seen' s'
    ∧ (cr' = cr ∧ s' = s ∨ (length cr < length cr')%nat ∧ l ≠ []).
Proof.
  induction l as [|[d key] l IH]; intros m s seen cr sk Hok Hb Hnet Hcov.
  { exists seen, cr, sk, s. rewrite Z.add_0_r. split_and!; try done. by left. }
  rewrite len_cons in *. pose proof (len_nonneg l). cbn [import_loop].
  unfold mbind, st_bind. rewrite import_one_eq. case_decide as Hk.
  - destruct (IH m s seen cr (sk ++ [key])) as (seen' & cr' & sk' & s' & E & Hok' & Him & Hcov' & Hcr);
      [done|by eapply in_bounds_le; [|exact Hb]; lia|done..|].
    exists seen', cr', sk', s'. split_and!; try done.
    + eapply store_ok_mono; [exact Hok'|lia|done].
    + destruct Hcr as [?|[? _]]; [by left|by right].
  - destruct (import_result_ok m n d key s seen) as (Hok1 & Him1 & Hcov1);
      [done|by eapply in_bounds_le; [|exact Hb]; lia|done..|].
    destruct (IH (m + 1) (import_result n d key s) ({[key]} ∪ seen) (cr ++ [import_device n d key s]) sk)
      as (seen' & cr' & sk' & s' & E & Hok' & Him & Hcov' & Hcr); [done|by rewrite <-Z.add_assoc| |done|].
    { destruct (import_result_parts n d key s) as (_ & -> & _). done. }
    exists seen', cr', sk', s'. split_and!; [exact E|by rewrite Z.add_assoc|by etrans|done|].
    right. split; [|done]. destruct Hcr as [[-> _]|[Hlt _]]; rewrite ?length_app in *; cbn in *; lia.
Qed.


Lemma seen_covers `{!HashOrder} n s :
  covers n (list_to_set (omap (fun d =>
    if bool_decide (d_network_id d = n) && bool_decide (d_status d = Active)
    then Some (d_wg_public_key d) else None) (hm_values (devices s)))) s.
Proof.
  intros id d Hd Hn Ha. apply elem_of_list_to_set, list_elem_of_omap. exists d.
  split; [apply elem_of_hm_values; eauto|]. by rewrite !bool_decide_true.
Qed.

(** An import is refused, imports nothing, or imports and bumps the network once. *)
Lemma exec_import_cases `{!HashOrder} m n ds s :
  store_ok m s → in_bounds (m + len ds) →
  exec (Import n ds) s = s ∨
  ∃ s1, exec (Import n ds) s = bump_epoch n s1 ∧ store_ok (m + len ds) s1 ∧ imported n s s1 ∧ 0 < len ds.
Proof.
  intros Hok Hb. remember (exec (Import n ds) s) as x eqn:Hx.
  unfold exec, import_devices, ok_or, lift, get, mbind, st_bind in Hx. cbv beta iota in Hx.
  destruct (mapM _ ds) as [keys|] eqn:Hk; [|by left].
  destruct (networks s !! n) as [net|] eqn:Hn; [|by left].
  apply mapM_Some, Forall2_length in Hk.
  assert (len (zip ds keys) = len ds) as Hz by (unfold len; rewrite length_zip; lia).
  destruct (import_loop_ok n (zip ds keys) m s _ [] [] Hok ltac:(by rewrite Hz) ltac:(eauto) (seen_covers n s))
    as (seen' & cr & sk & s' & E & Hok' & Him & _ & Hcr).
  rewrite E in Hx. rewrite Hz in Hok'. destruct Hcr as [[-> ->]|[Hlt Hne]]; [by left|right].
  exists s'. destruct cr as [|c cr]; [cbn in Hlt; lia|]. split_and!; try done.
  rewrite <-Hz. destruct (zip ds keys); [done|]. rewrite len_cons. pose proof (len_nonneg l). lia.
Qed.

(** A bump keeps the invariant when the bound leaves room for it. *)
Lemma store_ok_bump n s id :
  store_ok n s → in_bounds n →
  (∀ net, networks s !! id = Some net → n_config_epoch net < n) → store_ok n (bump_epoch id s).
Proof.
  intros Hok Hb Hlt. destruct Hok as [Hs Hd Hnet Hr Hl Hi Hp Hk].
  split; unfold issued in *; store_simp; try done.
  - intros i d (? & ? & ?)%Hd. split_and!; [done..|by apply is_Some_bumped].
  - intros i net. rewrite lookup_alter. case_decide; [subst i|by apply Hnet].
    destruct (networks s !! id) as [net0|] eqn:E; [|done]. intros [= <-].
    specialize (Hlt net0 eq_refl). apply Hnet in E as (? & ? & ?). cbn.
    unfold in_bounds in Hb. rewrite wrap_id by (unfold fits; lia). split_and!; done || lia.
  - intros i p [? ?]%Hp. split; [done|]. by apply is_Some_bumped.
Qed.

Lemma store_ok_import `{!HashOrder} m n ds s :
  store_ok m s → in_bounds (m + len ds) → store_ok (m + len ds) (exec (Import n ds) s).
Proof.
  intros Hok Hb. pose proof (len_nonneg ds).
  destruct (exec_import_cases m n ds s Hok Hb) as [->|(s1 & -> & Hok1 & Him & Hpos)].
  - eapply store_ok_mono; [exact Hok|lia|done].
  - apply store_ok_bump; [done..|]. destruct (im_same _ _ _ Him) as (-> & _).
    intros net (_ & _ & ?)%(ok_network _ _ Hok). lia.
Qed.

Lemma store_ok_new : store_ok 0 (store_new (W := W)).
Proof.
  split; cbn; [lia|try (intros ? ?; by rewrite lookup_empty)..|].
  intros ? ? ? ?. by rewrite lookup_empty.
Qed.

Lemma step_ok `{!HashOrder} n s q :
  store_ok n s → request_ok q → in_bounds (n + request_ids q) → store_ok (n + request_ids q) (exec q s).
Proof.
  intros Hok Hq Hb. destruct q; cbn [request_ids] in *.
  - by apply store_ok_create_network.
  - by apply store_ok_create_invite.
  - by apply store_ok_enroll.
  - by apply store_ok_import.
  - by apply store_ok_revoke.
  - by apply store_ok_set_endpoints.
  - by apply store_ok_advertise.
  - by apply store_ok_approve.
  - by apply store_ok_delete.
  - by apply store_ok_register.
  - by apply store_ok_update.
  - cbn [exec]. unfold subscribe. pose proof (ok_seq _ _ Hok).
    eapply (store_ok_frame n); [exact Hok|lia|..]; store_simp; frame_rest Hok; lia.
Qed.

Lemma reachable_ok guard n s : reachable guard n s → in_bounds n → store_ok n s.
Proof.
  induction 1 as [|n s ho q _ IH Hq Hg]; intros Hb; [apply store_ok_new|].
  apply step_ok; [|done..]. apply IH. eapply in_bounds_le; [|exact Hb].
  pose proof (request_ids_nonneg q). lia.
Qed.

End Steps.
