(* ===== verification/ControlProps.v ===== *)
(** * Properties of the coordination store

    Invites, idempotent enrolment, revocation, the configuration a device pulls, the
    config epoch, and the uniqueness of overlay addresses (with the run that breaks
    it).  The concrete instances at the end of the definitions are used by the
    witnesses. *)

From Stdlib Require Import Strings.Ascii Strings.String.
From S2P Require Import Prelude.
From S2P Require Import Words.
From S2P Require Import NetAddr.
From S2P Require Import NetText.
From S2P Require Import Prefix.
From S2P Require Import Ipam.
From S2P Require Import Domain.
From S2P Require Import ControlStore.
From S2P Require Import ControlInv.

#[local] Arguments fmt_v4 : simpl never.
#[local] Arguments fmt_v6 : simpl never.
#[local] Arguments format_id : simpl never.
#[local] Arguments normalize_prefix : simpl never.
#[local] Arguments allocate : simpl never.
#[local] Arguments wrap : simpl never.
#[local] Arguments bump_epoch : simpl never.

Section Spec.
Context {W : Type} `{!Watch W} `{!KeyCodec}.
Implicit Types s : Store W.

(** The requests served between two stores. *)
Inductive steps : Z → Store W → Z → Store W → Prop :=
| steps_refl n s : steps n s n s
| steps_step n s n' s' (ho : HashOrder) q :
    steps n s n' s' → request_ok q → steps n s (n' + request_ids q) (exec q s').

(** The address prefixes a device owns in its peers' configurations. *)
Definition own_prefix (d : Device) (x : string) : Prop :=
  (∃ v4, d_address_v4 d = Some v4 ∧ x = (v4 ++ "/32")%string)
  ∨ ∃ v6, d_address_v6 d = Some v6 ∧ x = (v6 ++ "/128")%string.

(** An approved route of the device. *)
Definition approved_for (network_id device_id x : string) s : Prop :=
  ∃ id r, routes s !! id = Some r ∧ r_network_id r = network_id ∧ r_device_id r = device_id
    ∧ r_approved r = true ∧ r_prefix r = x.

(** What the configuration of a device of this network says of the device [d]. *)
Definition describes s (d : Device) (pc : PeerConfig) : Prop :=
  p_wg_public_key pc = d_wg_public_key d
  ∧ p_endpoints pc = default [] (endpoints s !! d_id d)
  ∧ (∀ x, x ∈ p_allowed_ips pc ↔ own_prefix d x ∨ approved_for (d_network_id d) (d_id d) x s)
  ∧ (p_exit pc = true ↔ ∃ x, approved_for (d_network_id d) (d_id d) x s ∧ is_default_prefix x = true).

Definition answer_equiv (r r' : res StoreError DeviceConfig) : Prop :=
  match r, r' with
  | Ok c, Ok c' => config_equiv c c'
  | Err e, Err e' => e = e'
  | Panic, Panic => True
  | _, _ => False
  end.

(** Requests under which allocated addresses stay unique: no import, and only active
    devices are revoked. *)
Definition careful s (q : request) : Prop :=
  match q with
  | Import _ _ => False
  | RevokeDevice id => ∀ d, devices s !! id = Some d → d_status d = Active
  | _ => True
  end.
End Spec.

(** ** Concrete instances *)

#[export] Instance map_order : HashOrder := {
  hm_items _ m := map_to_list m;
  hm_perm _ m := reflexivity (map_to_list m)
}.

(** A channel as its value and whether it has a receiver. *)
#[export] Instance cell_watch : Watch (Z * bool) := {
  watch_channel v := (v, false);
  watch_send w v := if w.2 then (v, true) else w;
  watch_subscribe w := (w.1, true);
  watch_live w := w.2;
  watch_value w := w.1
}.

#[export] Instance cell_watch_laws : WatchLaws (Z * bool).
Proof. split; cbn; intros [v []]; done. Qed.

#[export] Existing Instances hex_codec hex_codec_laws.

Section Props.
Context {W : Type} `{!Watch W} `{!KeyCodec}.
Implicit Types s : Store W.

Lemma bumped_epoch n s id net :
  store_ok n s → in_bounds n → networks s !! id = Some net →
  n_config_epoch (bumped net) = n_config_epoch net + 1.
Proof.
  intros Hok Hb (_ & _ & ?)%(ok_network _ _ Hok). cbn. unfold in_bounds in Hb.
  apply wrap_id. unfold fits. lia.
Qed.

(** ** Enrolment *)

(** Invites are a budget.  In every reachable store no invite has been used more
    often than its limit; and an enrolment that adds a device needs an invite that is
    known, not expired and not used up, adds exactly one new device, in the network of
    the invite, counts the use, and moves that network's epoch by one. *)
Lemma invite_budget `{!HashOrder} n s code name key now r s' :
  reachable any_request n s → in_bounds (n + 1) →
  enroll code name key now s = (r, s') →
  (∀ c inv m, invites s' !! c = Some inv → i_max_uses inv = Some m → i_uses inv ≤ m)
  ∧ (devices s' ≠ devices s →
     ∃ inv d, r = Ok d ∧ invites s !! code = Some inv ∧ d_network_id d = i_network_id inv
       ∧ (∀ e, i_expires_at inv = Some e → now < e) ∧ (∀ m, i_max_uses inv = Some m → i_uses inv < m)
       ∧ devices s !! d_id d = None ∧ devices s' = <[d_id d := d]> (devices s)
       ∧ i_uses <$> invites s' !! code = Some (wrap 32 (i_uses inv + 1))
       ∧ network_epoch (d_network_id d) s' = Z.add 1 <$> network_epoch (d_network_id d) s).
Proof.
  intros Hre Hb E. assert (in_bounds n) as Hb0 by (eapply in_bounds_le; [|exact Hb]; lia).
  pose proof (reachable_ok _ _ _ Hre Hb0) as Hok.
  split.
  { pose proof (store_ok_enroll n s code name key now Hok Hb) as Hok'. cbn in Hok'. rewrite E in Hok'.
    intros c inv m Hinv Hm. apply (ok_invite _ _ Hok') in Hinv as [_ Hu]. by apply Hu. }
  apply enroll_cases in E. destruct E as [e|k inv d Hk Hi Hf|k inv ipam v4 v6 ipam' Hk Hi Hf Hr Hp Ha d]; [done..|].
  intros _. exists inv, d. unfold is_redeemable in Hr. bool_prop. rewrite devices_bump, invites_bump.
  split_and!; try done.
  - intros e He. rewrite He in *. by bool_prop.
  - intros m Hm. rewrite Hm in *. by bool_prop.
  - by eapply devices_fresh.
  - cbn. by rewrite lookup_alter_eq, Hi.
  - unfold network_epoch. rewrite networks_bump. cbn [networks add_device set_devices set_seq set_invites set_ipams].
    destruct (ok_ipam _ _ Hok _ _ Hp) as [_ [net Hnet]]. cbn [d d_network_id new_device_v].
    rewrite lookup_alter_eq, Hnet. cbn [fmap option_fmap option_map].
    rewrite (bumped_epoch _ _ _ _ Hok Hb0 Hnet). f_equal. lia.
Qed.

(** The device an enrolment returns is active afterwards. *)
Lemma enroll_returns `{!HashOrder} n s code name wg_key now d s' :
  store_ok n s → in_bounds (n + 1) → enroll code name wg_key now s = (Ok d, s') →
  ∃ key, normalize wg_key = Some key ∧ devices s' !! d_id d = Some d
    ∧ d_status d = Active ∧ d_wg_public_key d = key.
Proof.
  intros Hok Hb E%enroll_cases. inversion E as [|key inv d0 Hk Hi Hf|key inv ipam v4 v6 ipam' Hk Hi Hf Hr Hp Ha d0];
    subst.
  - apply find_by_Some in Hf as (id & Hid & (Hn & Ha & Hkey)%active_with_key_spec).
    exists key. destruct (ok_device _ _ Hok _ _ Hid) as (-> & _). done.
  - exists key. rewrite devices_bump. split_and!; try done. cbn. by rewrite lookup_insert_eq.
Qed.

(** Enrolment is idempotent.  Once an enrolment has returned a device, any later
    enrolment of the same key in any accepted encoding, under any unexpired invite of
    the network (used up or not), whatever the order the maps are iterated in, returns
    the same device and leaves the store as it is. *)
Lemma enroll_idempotent `{ho : !HashOrder} n s code name wg_key now d s' :
  reachable any_request n s → in_bounds (n + 1) → enroll code name wg_key now s = (Ok d, s') →
  ∀ (ho' : HashOrder) code' name' wg_key' now' inv,
    normalize wg_key' = normalize wg_key → invites s' !! code' = Some inv →
    i_network_id inv = d_network_id d → (∀ e, i_expires_at inv = Some e → now' < e) →
    @enroll W _ ho' _ code' name' wg_key' now' s' = (Ok d, s').
Proof.
  intros Hre Hb E. assert (in_bounds n) as Hb0 by (eapply in_bounds_le; [|exact Hb]; lia).
  pose proof (reachable_ok _ _ _ Hre Hb0) as Hok.
  pose proof (store_ok_enroll n s code name wg_key now Hok Hb) as Hok'. cbn [exec] in Hok'. rewrite E in Hok'.
  apply (enroll_returns n) in E as (key & Hkey & Hd & Ha & Hdk); [|done..]. cbn [snd] in Hok'.
  intros ho' code' name' wg_key' now' inv Hk Hi Hn Hexp.
  unfold enroll, lift, get, mbind, st_bind, ok_or. rewrite Hk, Hkey. cbv beta iota. rewrite Hi.
  destruct (match i_expires_at inv with Some _ => _ | None => _ end) eqn:Hx.
  { destruct (i_expires_at inv) as [e|]; [|done]. specialize (Hexp e eq_refl). bool_prop. lia. }
  destruct (find_by _ _) as [d'|] eqn:Hf.
  - apply find_by_Some in Hf as (id & Hid & (Hn' & Ha' & Hk')%active_with_key_spec).
    assert (id = d_id d) as -> by (eapply (ok_keys _ _ Hok'); eauto; congruence).
    rewrite Hd in Hid. by injection Hid as <-.
  - eapply find_by_None in Hf; [|exact Hd]. rewrite (proj2 (active_with_key_spec _ _ d)) in Hf; done.
Qed.

(** ** The configuration a device pulls *)

Lemma elem_of_approved `{!HashOrder} net s did x :
  (did, x) ∈ approved_routes net s ↔ approved_for net did x s.
Proof.
  unfold approved_routes, approved_for. rewrite list_elem_of_fmap. split.
  - intros (r & [= -> ->] & [(id & Hr)%elem_of_hm_values Hf]%elem_of_Filter). bool_prop. by exists id, r.
  - intros (id & r & Hr & Hn & <- & Ha & <-). exists r. split; [done|]. apply elem_of_Filter.
    split; [apply elem_of_hm_values; eauto|]. by rewrite bool_decide_true, Ha.
Qed.

Lemma is_exit_spec `{!HashOrder} net s did :
  is_exit (approved_routes net s) did = true ↔ ∃ x, approved_for net did x s ∧ is_default_prefix x = true.
Proof.
  unfold is_exit. rewrite existsb_exists. split.
  - intros ([did' x] & Hin%list_elem_of_In & Hx). bool_prop. subst. exists x. by rewrite <-elem_of_approved.
  - intros (x & Hx & Hd). exists (did, x). rewrite <-list_elem_of_In, elem_of_approved. split; [done|].
    by rewrite bool_decide_true, Hd.
Qed.

Lemma or_iff_split (A B C D : Prop) : (A ↔ C) → (B ↔ D) → (A ∨ B) ↔ (C ∨ D).
Proof. tauto. Qed.

Lemma elem_of_suffixed (o : option string) suffix x :
  x ∈ match o with Some v => [(v ++ suffix)%string] | None => [] end
  ↔ ∃ v, o = Some v ∧ x = (v ++ suffix)%string.
Proof.
  destruct o as [v|]; [rewrite list_elem_of_singleton|].
  - split; [eauto|]. by intros (? & [= <-] & ?).
  - split; [by intros ?%elem_of_nil|]. by intros (? & ? & _).
Qed.

Lemma peer_config_describes `{!HashOrder} s d : describes s d (peer_config (approved_routes (d_network_id d) s) s d).
Proof.
  unfold describes, peer_config. cbn [p_wg_public_key p_endpoints p_allowed_ips p_exit].
  split_and!; [done..| |apply is_exit_spec].
  intros x. rewrite !elem_of_app, list_elem_of_omap, or_iff_split; [reflexivity| |].
  - unfold own_prefix. by apply or_iff_split; apply elem_of_suffixed.
  - split.
    + intros ([did y] & Hy%elem_of_approved & Hif). case_bool_decide; [|done]. by injection Hif as <-; subst.
    + intros Hx. exists (d_id d, x). rewrite elem_of_approved. by rewrite bool_decide_true.
Qed.


(** Every entry comes from another active device of the network. *)
Lemma peers_sound `{!HashOrder} n s id d pc :
  store_ok n s → devices s !! id = Some d →
  pc ∈ peer_config (approved_routes (d_network_id d) s) s <$>
    List.filter (fun d' => bool_decide (d_network_id d' = d_network_id d)
      && bool_decide (d_id d' ≠ d_id d) && bool_decide (d_status d' = Active)) (hm_values (devices s)) →
  ∃ id' d', id' ≠ id ∧ devices s !! id' = Some d' ∧ d_status d' = Active
    ∧ d_network_id d' = d_network_id d ∧ describes s d' pc.
Proof.
  intros Hok Hd (d' & -> & [(id' & Hd')%elem_of_hm_values Hp]%elem_of_Filter)%list_elem_of_fmap. bool_prop.
  destruct (ok_device _ _ Hok _ _ Hd) as (Hid & _).
  destruct (ok_device _ _ Hok _ _ Hd') as (Hid' & _). exists id', d'. split_and!; try congruence.
  match goal with Hn : d_network_id d' = _ |- _ => rewrite <-Hn end. apply peer_config_describes.
Qed.

(** A pulled configuration is exact.  An active device gets its own addresses, the
    epoch of its network, one entry for every other active device of its network and
    no entry for any other device; an entry carries the device's key, endpoints, own
    addresses and approved routes, nothing else, and is an exit exactly when a default
    route of it is approved; the relays are the ones scoped to the network and the
    shared ones.  A device that is unknown or revoked gets an error. *)
Lemma device_config_exact `{!HashOrder} n s id :
  reachable any_request n s → in_bounds n →
  match device_config id s with
  | Ok c =>
      ∃ d, devices s !! id = Some d ∧ d_status d = Active
        ∧ c_address_v4 c = d_address_v4 d ∧ c_address_v6 c = d_address_v6 d
        ∧ network_epoch (d_network_id d) s = Some (c_config_epoch c)
        ∧ (∀ pc, pc ∈ c_peers c →
             ∃ id' d', id' ≠ id ∧ devices s !! id' = Some d' ∧ d_status d' = Active
               ∧ d_network_id d' = d_network_id d ∧ describes s d' pc)
        ∧ (∀ id' d', id' ≠ id → devices s !! id' = Some d' → d_status d' = Active →
             d_network_id d' = d_network_id d → ∃ pc, pc ∈ c_peers c ∧ describes s d' pc)
        ∧ (∀ r, r ∈ c_relays c ↔ ∃ l, relays s !! l = Some r ∧
             (l_network_id r = None ∨ l_network_id r = Some (d_network_id d)))
        ∧ (c_self_exit c = true ↔
             ∃ x, approved_for (d_network_id d) id x s ∧ is_default_prefix x = true)
  | Err e => e = DeviceNotFound ∧ ∀ d, devices s !! id = Some d → d_status d = Revoked
  | Panic => False
  end.
Proof.
  intros Hre Hb. pose proof (reachable_ok _ _ _ Hre Hb) as Hok. unfold device_config.
  destruct (devices s !! id) as [d|] eqn:Hd; cbn [ok_or mbind res_bind]; [|done].
  destruct (ok_device _ _ Hok _ _ Hd) as (Hid & _ & [net Hnet]).
  case_bool_decide as Ha; cbn [negb]; [|split; [done|]; intros ? [= <-]; by destruct (d_status d)].
  rewrite Hnet. exists d. cbn [c_address_v4 c_address_v6 c_config_epoch c_peers c_relays c_self_exit].
  split_and!; try done.
  - unfold network_epoch. by rewrite Hnet.
  - intros pc. by apply (peers_sound n).
  - intros id' d' Hne Hd' Ha' Hn. exists (peer_config (approved_routes (d_network_id d') s) s d').
    split; [|apply peer_config_describes]. rewrite Hn. apply list_elem_of_fmap. exists d'. split; [done|].
    destruct (ok_device _ _ Hok _ _ Hd') as (Hid' & _).
    apply elem_of_Filter. split; [apply elem_of_hm_values; eauto|].
    rewrite !bool_decide_true; [done..|congruence|done].
  - intros r. rewrite elem_of_Filter, elem_of_hm_values. unfold serves, in_scope.
    destruct (l_network_id r) as [x|]; split.
    + intros [[l Hl] Hx]. bool_prop. subst. eauto.
    + intros (l & Hl & [?|[= ->]]); [done|]. rewrite bool_decide_true; eauto.
    + intros [[l Hl] _]. eauto.
    + intros (l & Hl & _). eauto.
  - rewrite is_exit_spec, Hid. done.
Qed.


(** ** Revocation *)

Lemma add_device_kept n s d0 id d :
  store_ok n s → in_bounds n → d_id d0 = format_id "dev-" (seq s) →
  devices s !! id = Some d → <[d_id d0 := d0]> (devices s) !! id = Some d.
Proof.
  intros Hok Hb Hid Hd. rewrite lookup_insert_ne; [done|]. rewrite Hid. intros <-.
  by rewrite (devices_fresh n) in Hd.
Qed.

(** A request keeps every device, or revokes it. *)
Lemma devices_step `{!HashOrder} n s q id d :
  store_ok n s → in_bounds (n + request_ids q) → devices s !! id = Some d →
  devices (exec q s) !! id = Some d ∨ q = RevokeDevice id ∧ devices (exec q s) !! id = Some (revoked d).
Proof.
  intros Hok Hb Hd. pose proof (request_ids_nonneg q).
  assert (in_bounds n) as Hb0 by (eapply in_bounds_le; [|exact Hb]; lia).
  destruct q as [name random|net e m code|code name key now|net ds|id'|id' l|id' p|id'|id'|region url net anytls stun identity|r|net];
    cbn [request_ids] in *.
  - left. by rewrite exec_create_network.
  - left. rewrite exec_create_invite. by destruct (networks s !! net).
  - left. cbn [exec]. destruct (enroll code name key now s) as [r s'] eqn:E. apply enroll_cases in E.
    destruct E as [| |]; [done..|]. cbn [snd]. store_simp. by apply (add_device_kept n).
  - left. destruct (exec_import_cases n net ds s Hok Hb) as [->|(s1 & -> & _ & Him & _)]; [done|].
    rewrite devices_bump. by eapply im_old.
  - rewrite exec_revoke. destruct (devices s !! id') as [d'|] eqn:Hd'; [|by left].
    rewrite devices_bump. cbn. rewrite lookup_alter. case_decide; [|by left]. subst id'. rewrite Hd. by right.
  - left. rewrite exec_set_endpoints. destruct (devices s !! id'); [|done]. by rewrite devices_bump.
  - left. rewrite exec_advertise. destruct (devices s !! id'); [|done]. by destruct (normalize_prefix p).
  - left. rewrite exec_approve. destruct (routes s !! id'); [|done]. by rewrite devices_bump.
  - left. rewrite exec_delete. destruct (routes s !! id') as [r|]; [|done]. cbv zeta.
    destruct (r_approved r); [|done]. by rewrite devices_bump.
  - left. rewrite exec_register_relay. cbv zeta. by rewrite (proj1 (bump_all_same _ _)).
  - left. destruct (exec_update_relay r s) as [->|(old & _ & ->)]; [done|].
    by rewrite (proj1 (bump_all_same _ _)).
  - by left.
Qed.

Lemma reachable_steps n s n' s' : reachable any_request n s → steps n s n' s' → reachable any_request n' s'.
Proof. intros Hre Hst. induction Hst; [done|]. by apply reach_step; [apply IHHst| |]. Qed.

Lemma steps_le n s n' s' : steps n s n' s' → n ≤ n'.
Proof. induction 1 as [|n s n' s' ho q _ IH _]; [lia|]. pose proof (request_ids_nonneg q). lia. Qed.

Lemma steps_revoked n s n' s' id d :
  reachable any_request n s → steps n s n' s' → in_bounds n' →
  devices s !! id = Some d → d_status d = Revoked → devices s' !! id = Some d.
Proof.
  intros Hre Hst. induction Hst as [n s|n s n' s' ho q Hst IH Hq]; intros Hb Hd Hrev; [done|].
  pose proof (request_ids_nonneg q).
  assert (in_bounds n') as Hb' by (eapply in_bounds_le; [|exact Hb]; lia).
  specialize (IH Hre Hb' Hd Hrev).
  pose proof (reachable_ok _ _ _ (reachable_steps _ _ _ _ Hre Hst) Hb') as Hok.
  destruct (devices_step n' s' q id d Hok Hb IH) as [?|[_ ->]]; [done|].
  f_equal. unfold revoked. destruct d; cbn in *; congruence.
Qed.

(** Revocation is permanent.  After a device is revoked, whatever requests follow,
    the device never gets a configuration again, and no other device's configuration
    has an entry made from it: every entry comes from another, active device. *)
Lemma revocation_permanent `{!HashOrder} n s id s1 n' s' :
  reachable any_request n s → revoke_device id s = (Ok tt, s1) → steps (n + 1) s1 n' s' → in_bounds n' →
  device_config id s' = Err DeviceNotFound
  ∧ ∀ id' c pc, device_config id' s' = Ok c → pc ∈ c_peers c →
      ∃ id2 d2, id2 ≠ id ∧ devices s' !! id2 = Some d2 ∧ d_status d2 = Active ∧ describes s' d2 pc.
Proof.
  intros Hre Hrv Hst Hb.
  assert (reachable any_request (n + 1) s1) as Hre1.
  { replace s1 with (exec (RevokeDevice id) s) by (cbn [exec]; by rewrite Hrv).
    by apply (reach_step any_request n s _ (RevokeDevice id)). }
  pose proof (reachable_steps _ _ _ _ Hre1 Hst) as Hre'.
  assert (∃ d, devices s1 !! id = Some d ∧ d_status d = Revoked) as (d & Hd & Hs).
  { unfold revoke_device in Hrv. revert Hrv. st_run. destruct (devices s !! id) as [d|] eqn:Hd; [|done].
    intros [= <-]. rewrite devices_bump. cbn. rewrite lookup_alter_eq, Hd. by eexists. }
  pose proof (steps_revoked _ _ _ _ _ _ Hre1 Hst Hb Hd Hs) as Hd'. split.
  - unfold device_config. rewrite Hd'. cbn. by rewrite Hs.
  - intros id' c pc Hc Hpc. unfold device_config in Hc.
    destruct (devices s' !! id') as [d'|] eqn:Hd2; [|done]. cbn [ok_or mbind res_bind] in Hc.
    destruct (negb _); [done|]. injection Hc as <-. cbn [c_peers] in Hpc.
    eapply peers_sound in Hpc as (id2 & d2 & _ & ? & ? & _ & ?); [|by eapply reachable_ok|done].
    exists id2, d2. split_and!; try done. intros ->. congruence.
Qed.


(** ** Epochs

    What a network's configurations depend on is unchanged between two stores. *)

Definition same_on {A} (P : A → Prop) (m m' : gmap string A) : Prop :=
  ∀ id x, P x → m !! id = Some x ↔ m' !! id = Some x.

Record same_view (net : string) s s' : Prop := {
  v_network : networks s' !! net = networks s !! net;
  v_devices : same_on (fun d => d_network_id d = net) (devices s) (devices s');
  v_routes : same_on (fun r => r_network_id r = net ∧ r_approved r = true) (routes s) (routes s');
  v_relays : same_on (fun r => serves net r = true) (relays s) (relays s');
  v_endpoints : ∀ id d, devices s !! id = Some d → d_network_id d = net →
    endpoints s' !! id = endpoints s !! id
}.

(** The epoch of the network moved by one, and its live channel shows the new value. *)
Definition moved (net : string) s s' : Prop :=
  ∃ e, network_epoch net s = Some e ∧ network_epoch net s' = Some (e + 1)
    ∧ ∀ w, epoch_tx s !! net = Some w → watch_live w = true →
        ∃ w', epoch_tx s' !! net = Some w' ∧ watch_value w' = e + 1.

Lemma same_on_refl {A} (P : A → Prop) m : same_on P m m.
Proof. done. Qed.

Lemma same_on_insert {A} (P : A → Prop) (m : gmap string A) k x :
  ¬ P x → (∀ y, m !! k = Some y → ¬ P y) → same_on P m (<[k := x]> m).
Proof.
  intros Hx Hm id y Hy. rewrite lookup_insert. case_decide; [subst id|done]. split.
  - intros Hk. by destruct (Hm y Hk).
  - by intros [= <-].
Qed.

Lemma same_on_delete {A} (P : A → Prop) (m : gmap string A) k :
  (∀ y, m !! k = Some y → ¬ P y) → same_on P m (delete k m).
Proof.
  intros Hm id y Hy. rewrite lookup_delete. case_decide; [subst id|done].
  split; [|done]. intros Hk. by destruct (Hm y Hk).
Qed.

Lemma same_on_filter `{ho1 : !HashOrder} (ho2 : HashOrder) {A} (p : A → bool) (m m' : gmap string A) :
  same_on (fun x => p x = true) m m' →
  List.filter p (@hm_values ho1 A m) ≡ₚ List.filter p (@hm_values ho2 A m').
Proof.
  intros Hs. unfold hm_values.
  assert (∀ l : list (string * A), List.filter p l.*2 = (List.filter (fun x => p x.2) l).*2) as Hf.
  { induction l as [|[k x] l IH]; cbn; [done|]. rewrite IH. by destruct (p x). }
  rewrite !Hf. apply fmap_Permutation, NoDup_Permutation.
  - apply NoDup_Filter. rewrite hm_perm. apply NoDup_map_to_list.
  - apply NoDup_Filter. rewrite hm_perm. apply NoDup_map_to_list.
  - intros [k x]. rewrite !elem_of_Filter, !hm_perm, !elem_of_map_to_list. cbn.
    split; intros [Hk Hp]; (split; [|done]); by apply (Hs k x Hp).
Qed.

Lemma is_exit_perm l l' did : l ≡ₚ l' → is_exit l did = is_exit l' did.
Proof.
  intros Hl. apply eq_true_iff_eq. unfold is_exit. rewrite !existsb_exists.
  setoid_rewrite <-list_elem_of_In. split; intros (x & Hx & ?); exists x; by rewrite Hl in * || rewrite <-Hl in *.
Qed.


Lemma approved_routes_perm `{ho1 : !HashOrder} (ho2 : HashOrder) net s s' :
  same_view net s s' → @approved_routes W ho1 net s ≡ₚ @approved_routes W ho2 net s'.
Proof.
  intros Hv. unfold approved_routes. apply fmap_Permutation, same_on_filter.
  intros id r Hr. bool_prop. by apply (v_routes _ _ _ Hv).
Qed.

Lemma peer_config_equiv l l' s s' d :
  l ≡ₚ l' → endpoints s' !! d_id d = endpoints s !! d_id d →
  peer_equiv (peer_config l s d) (peer_config l' s' d).
Proof.
  intros Hl He. unfold peer_equiv, peer_config. cbn [p_wg_public_key p_allowed_ips p_endpoints p_exit].
  split_and!; [done| |by rewrite He|by apply is_exit_perm].
  apply Permutation_app_head. induction Hl as [|[did x] l l' _ IH|[a x] [b y] l|l1 l2 l3 _ IH1 _ IH2]; cbn;
    [done| | |by etrans].
  - case_bool_decide; [by apply Permutation_skip|done].
  - repeat case_bool_decide; try done. apply Permutation_swap.
Qed.

Lemma same_view_config `{ho1 : !HashOrder} (ho2 : HashOrder) n n' s s' id net :
  store_ok n s → store_ok n' s' → same_view net s s' →
  (∀ d, devices s' !! id = Some d → d_network_id d = net) →
  (∀ d, devices s !! id = Some d → d_network_id d = net) →
  answer_equiv (@device_config W ho1 id s) (@device_config W ho2 id s').
Proof.
  intros Hok Hok' Hv Hn' Hn. unfold device_config.
  assert (devices s' !! id = devices s !! id) as ->.
  { destruct (devices s !! id) as [d|] eqn:Hd, (devices s' !! id) as [d'|] eqn:Hd'; try done.
    - apply (v_devices _ _ _ Hv) in Hd; [congruence|by apply Hn].
    - apply (v_devices _ _ _ Hv) in Hd; [congruence|by apply Hn].
    - apply (v_devices _ _ _ Hv) in Hd'; [congruence|by apply Hn']. }
  destruct (devices s !! id) as [d|] eqn:Hd; cbn [ok_or mbind res_bind]; [|done].
  rewrite (Hn d eq_refl) in *. destruct (negb _); [done|]. rewrite (v_network _ _ _ Hv).
  pose proof (approved_routes_perm (ho1 := ho1) ho2 net s s' Hv) as Happ.
  set (p := fun d' => _ && _ && _).
  split_and!; cbn [c_overlay_cidrs c_network_id c_config_epoch c_address_v4 c_address_v6 c_peers c_relays c_mtu c_dns c_self_exit];
    try done.
  - exists (peer_config (@approved_routes W ho1 net s) s <$> List.filter p (@hm_values ho2 _ (devices s'))). split.
    + apply fmap_Permutation, same_on_filter. intros i d' Hp. unfold p in Hp. bool_prop.
      by apply (v_devices _ _ _ Hv).
    + apply Forall2_fmap, Forall_Forall2_diag, list.Forall_forall.
      intros d' [(i & Hd')%elem_of_hm_values Hp]%elem_of_Filter. unfold p in Hp. bool_prop.
      apply peer_config_equiv; [done|]. apply (v_devices _ _ _ Hv) in Hd'; [|done].
      destruct (ok_device _ _ Hok _ _ Hd') as (Hi & _). rewrite Hi. by eapply (v_endpoints _ _ _ Hv).
  - apply same_on_filter. by apply (v_relays _ _ _ Hv).
  - by apply is_exit_perm.
Qed.


Lemma bump_other id s i :
  i ≠ id → networks (bump_epoch id s) !! i = networks s !! i ∧ epoch_tx (bump_epoch id s) !! i = epoch_tx s !! i.
Proof.
  intros Hi. unfold bump_epoch. destruct (networks s !! id); [|done]. cbn.
  destruct (epoch_tx s !! id); cbn; by rewrite !lookup_insert_ne.
Qed.

Lemma bump_all_other ids s i :
  i ∉ ids → networks (bump_all ids s) !! i = networks s !! i ∧ epoch_tx (bump_all ids s) !! i = epoch_tx s !! i.
Proof.
  unfold bump_all. revert s. induction ids as [|id ids IH]; intros s Hi; [done|]. cbn.
  apply not_elem_of_cons in Hi as [Hne Hi]. destruct (IH (bump_epoch id s) Hi) as [-> ->].
  by apply bump_other.
Qed.

Context `{!WatchLaws W}.

(** A bump of a network whose entry and channel are those of [s] moves its epoch. *)
Lemma moved_bump n s s0 net :
  store_ok n s → in_bounds n → is_Some (networks s !! net) →
  networks s0 !! net = networks s !! net → epoch_tx s0 !! net = epoch_tx s !! net →
  moved net s (bump_epoch net s0).
Proof.
  intros Hok Hb [x Hx] Hn Ht. exists (n_config_epoch x). unfold network_epoch. rewrite networks_bump, Hx.
  rewrite lookup_alter_eq, Hn, Hx. cbn [fmap option_fmap option_map].
  rewrite (bumped_epoch _ _ _ _ Hok Hb Hx). split_and!; [done..|].
  intros w Hw Hlive. unfold bump_epoch. rewrite Hn, Hx. cbn [epoch_tx set_networks]. rewrite Ht, Hw.
  cbn [epoch_tx set_epoch_tx]. rewrite lookup_insert_eq. eexists. split; [done|].
  rewrite send_value, Hlive. by apply (bumped_epoch n s net).
Qed.

Lemma moved_bump_all `{!HashOrder} n s (p : string → bool) net s0 :
  store_ok n s → in_bounds n → is_Some (networks s !! net) → p net = true →
  networks s0 = networks s → epoch_tx s0 = epoch_tx s →
  moved net s (bump_all (List.filter p (hm_keys (networks s))) s0).
Proof.
  intros Hok Hb Hnet Hp Hn Ht.
  assert (net ∈ List.filter p (hm_keys (networks s))) as Hin.
  { apply elem_of_Filter. by rewrite elem_of_hm_keys. }
  pose proof (NoDup_Filter p _ (NoDup_hm_keys (networks s))) as Hnd.
  apply list_elem_of_split in Hin as (l1 & l2 & E). rewrite E in *.
  apply list.NoDup_app in Hnd as (_ & H1 & Hnd2). inversion_clear Hnd2 as [|? ? H2 _].
  unfold bump_all. rewrite foldl_app. cbn.
  fold (bump_all l1 s0). fold (bump_all l2 (bump_epoch net (bump_all l1 s0))).
  destruct (bump_all_other l1 s0 net) as [Hn1 Ht1]; [intros ?; by apply (H1 net); [|left]|].
  assert (moved net s (bump_epoch net (bump_all l1 s0))) as (e & He & He' & Hw).
  { apply (moved_bump n); [done..| |]; congruence. }
  destruct (bump_all_other l2 (bump_epoch net (bump_all l1 s0)) net H2) as [Hn2 Ht2].
  exists e. unfold network_epoch in *. by rewrite Hn2, Ht2.
Qed.

(** A store that differs in what the view does not show. *)
Lemma same_view_frame net s s' :
  networks s' !! net = networks s !! net → devices s' = devices s → routes s' = routes s →
  relays s' = relays s → endpoints s' = endpoints s → same_view net s s'.
Proof. intros H1 H2 H3 H4 H5. split; rewrite ?H2, ?H3, ?H4, ?H5; done. Qed.

(** The view of another network does not see a bump. *)
Lemma same_view_bump net id s s' :
  net ≠ id → same_view net s s' → same_view net s (bump_epoch id s').
Proof.
  intros Hne [Hn Hd Hr Hl He]. split; store_simp; try done. rewrite lookup_alter_ne; done.
Qed.

Lemma same_view_bump_all net ids s s' :
  net ∉ ids → same_view net s s' → same_view net s (bump_all ids s').
Proof.
  intros Hni [Hn Hd Hr Hl He]. destruct (bump_all_other ids s' net Hni) as [Hn' _].
  destruct (bump_all_same ids s') as (Ed & _ & _ & Er & El & Ee & _).
  split; rewrite ?Hn', ?Ed, ?Er, ?El, ?Ee; done.
Qed.


Section ViewStep.
Context `{!HashOrder} (n : Z) (s : Store W) (net : string).
Hypothesis Hok : store_ok n s.
Hypothesis Hb : in_bounds n.
Hypothesis Hnet : is_Some (networks s !! net).

Lemma view_create_network name random : same_view net s (exec (CreateNetwork name random) s).
Proof.
  rewrite exec_create_network. cbv zeta. apply same_view_frame; try done. cbn [networks].
  rewrite lookup_insert_ne; [done|]. intros E. destruct Hnet as [x Hx].
  apply (ok_network _ _ Hok) in Hx as (_ & Hi & _). apply (not_issued "net-" n s Hok Hb).
  by replace (format_id "net-" (seq s)) with net by
    (rewrite <-E; unfold made_network; by destruct (ula_groups random) as [[a b] c]).
Qed.

Lemma view_enroll code name key now :
  same_view net s (exec (Enroll code name key now) s) ∨ moved net s (exec (Enroll code name key now) s).
Proof.
  cbn [exec]. destruct (enroll code name key now s) as [r s'] eqn:E. apply enroll_cases in E. cbn [snd].
  destruct E as [e|k inv d Hk Hi Hf|k inv ipam v4 v6 ipam' Hk Hi Hf Hr Hp Ha d]; [left; by apply same_view_frame..|].
  destruct (decide (net = i_network_id inv)) as [->|Hne]; [right; by apply (moved_bump n)|left].
  apply same_view_bump; [done|]. split; store_simp; try done.
  apply same_on_insert; [cbn; congruence|].
  intros y Hy. change (devices s !! format_id "dev-" (seq s) = Some y) in Hy.
  by rewrite (devices_fresh n) in Hy.
Qed.

Lemma view_import ds m :
  in_bounds (n + len ds) →
  same_view net s (exec (Import m ds) s) ∨ moved net s (exec (Import m ds) s).
Proof.
  intros Hb'. destruct (exec_import_cases n m ds s Hok Hb') as [->|(s1 & -> & _ & Him & _)];
    [left; by apply same_view_frame|].
  destruct (im_same _ _ _ Him) as (Hn & _ & Hr & Hl & Ht).
  destruct (decide (net = m)) as [->|Hne]; [right; apply (moved_bump n); by rewrite ?Hn, ?Ht|left].
  apply same_view_bump; [done|]. split; rewrite ?Hn, ?Hr, ?Hl; try done.
  - intros id d Hd. split; [apply (im_old _ _ _ Him)|].
    intros [?|(_ & ? & _)]%(im_new _ _ _ Him); [done|congruence].
  - intros id d Hd _. apply (im_endpoints _ _ _ Him). eauto.
Qed.

Lemma view_revoke id :
  same_view net s (exec (RevokeDevice id) s) ∨ moved net s (exec (RevokeDevice id) s).
Proof.
  rewrite exec_revoke. destruct (devices s !! id) as [d|] eqn:Hd; [|left; by apply same_view_frame].
  destruct (decide (net = d_network_id d)) as [->|Hne]; [right; by apply (moved_bump n)|left].
  apply same_view_bump; [done|]. split; store_simp; try done.
  intros i e He. rewrite lookup_alter. case_decide; [subst i|done]. rewrite Hd. cbn.
  split; intros [= <-]; by destruct Hne.
Qed.

Lemma view_set_endpoints id l :
  same_view net s (exec (SetEndpoints id l) s) ∨ moved net s (exec (SetEndpoints id l) s).
Proof.
  rewrite exec_set_endpoints. destruct (devices s !! id) as [d|] eqn:Hd; [|left; by apply same_view_frame].
  destruct (decide (net = d_network_id d)) as [->|Hne]; [right; by apply (moved_bump n)|left].
  apply same_view_bump; [done|]. split; store_simp; try done.
  intros i e He Hn. rewrite lookup_insert_ne; [done|]. intros <-. congruence.
Qed.

Lemma view_advertise id prefix : same_view net s (exec (AdvertiseRoute id prefix) s).
Proof.
  rewrite exec_advertise. destruct (devices s !! id) as [d|] eqn:Hd; [|by apply same_view_frame].
  cbv zeta. destruct (normalize_prefix prefix); [|by apply same_view_frame].
  split; store_simp; try done. apply same_on_insert; [by intros [_ ?]|].
  intros r [_ Hi]%(ok_route _ _ Hok). by destruct (not_issued "route-" n s Hok Hb).
Qed.

Lemma view_approve id :
  same_view net s (exec (ApproveRoute id) s) ∨ moved net s (exec (ApproveRoute id) s).
Proof.
  rewrite exec_approve. destruct (routes s !! id) as [r|] eqn:Hr; [|left; by apply same_view_frame].
  destruct (decide (net = r_network_id r)) as [->|Hne]; [right; by apply (moved_bump n)|left].
  apply same_view_bump; [done|]. split; store_simp; try done.
  apply same_on_insert; [cbn; intros [? _]; congruence|]. intros y Hy [? _]. congruence.
Qed.

Lemma view_delete id :
  same_view net s (exec (DeleteRoute id) s) ∨ moved net s (exec (DeleteRoute id) s).
Proof.
  rewrite exec_delete. destruct (routes s !! id) as [r|] eqn:Hr; [|left; by apply same_view_frame].
  cbv zeta. destruct (r_approved r) eqn:Ha.
  - destruct (decide (net = r_network_id r)) as [->|Hne]; [right; by apply (moved_bump n)|left].
    apply same_view_bump; [done|]. split; store_simp; try done.
    apply same_on_delete. intros y Hy [? _]. congruence.
  - left. split; store_simp; try done. apply same_on_delete. intros y Hy [_ ?]. congruence.
Qed.

(** A changed relay moves the networks of its old and new scope. *)
Lemma view_relay (p : string → bool) r z :
  (∀ old, relays s !! l_id r = Some old → serves net old = true → p net = true) →
  (serves net r = true → p net = true) →
  let s' := bump_all (List.filter p (hm_keys (networks s)))
              (set_relays (<[l_id r := r]> (relays s)) (set_seq z s)) in
  same_view net s s' ∨ moved net s s'.
Proof.
  intros Hold Hnew s'. destruct (p net) eqn:Hp; [right; by apply (moved_bump_all n)|left].
  apply same_view_bump_all; [rewrite elem_of_Filter; intros [_ ?]; congruence|].
  split; store_simp; try done. apply same_on_insert; [intros ?; by discriminate Hnew|].
  intros y Hy Hs. by discriminate (Hold y Hy Hs).
Qed.

Lemma view_step q :
  in_bounds (n + request_ids q) → same_view net s (exec q s) ∨ moved net s (exec q s).
Proof.
  intros Hb'. destruct q as [name random|m e u code|code name key now|m ds|id|id l|id p|id|id|region url m anytls stun identity|r|m].
  - left. apply view_create_network.
  - left. rewrite exec_create_invite. by destruct (networks s !! m); apply same_view_frame.
  - apply view_enroll.
  - by apply view_import.
  - apply view_revoke.
  - apply view_set_endpoints.
  - left. apply view_advertise.
  - apply view_approve.
  - apply view_delete.
  - rewrite exec_register_relay. apply view_relay; [|done]. intros old [_ Hi]%(ok_relay _ _ Hok).
    by destruct (not_issued "relay-" n s Hok Hb).
  - destruct (exec_update_relay r s) as [->|(old & Hold & ->)]; [left; by apply same_view_frame|].
    change (set_relays ?m s) with (set_relays m (set_seq (seq s) s)). apply view_relay.
    + rewrite Hold. unfold serves. by intros ? [= <-] ->.
    + unfold serves. intros ->. apply orb_true_r.
  - left. by apply same_view_frame.
Qed.
End ViewStep.


Lemma bump_all_is_Some ids s i : is_Some (networks (bump_all ids s) !! i) → is_Some (networks s !! i).
Proof.
  unfold bump_all. revert s. induction ids as [|id ids IH]; intros s; [done|]. cbn.
  intros Hi%IH. rewrite networks_bump in Hi. by apply lookup_alter_is_Some in Hi.
Qed.

(** Every device is in a network that existed before the request that made it. *)
Lemma device_network_old `{!HashOrder} n s q id d :
  store_ok n s → request_ok q → in_bounds (n + request_ids q) → devices (exec q s) !! id = Some d →
  is_Some (networks s !! d_network_id d).
Proof.
  intros Hok Hq Hb Hd. pose proof (step_ok n s q Hok Hq Hb) as Hok'.
  destruct (ok_device _ _ Hok' _ _ Hd) as (_ & _ & Hn). revert Hd Hn.
  destruct q as [name random|m e u code|code name key now|m ds|id'|id' l|id' p|id'|id'|region url m anytls stun identity|r|m];
    intros Hd Hn; cbn [request_ids] in Hb.
  - rewrite exec_create_network in Hd. by apply (ok_device _ _ Hok) in Hd as (_ & _ & ?).
  - rewrite exec_create_invite in Hn. by destruct (networks s !! m).
  - cbn [exec] in Hn. destruct (enroll code name key now s) as [r s'] eqn:E. apply enroll_cases in E.
    destruct E; [done..|]. cbn [snd] in Hn. rewrite networks_bump in Hn. by apply lookup_alter_is_Some in Hn.
  - destruct (exec_import_cases n m ds s Hok Hb) as [E|(s1 & E & _ & Him & _)]; rewrite E in Hn; [done|].
    rewrite networks_bump in Hn. apply lookup_alter_is_Some in Hn. by destruct (im_same _ _ _ Him) as (<- & _).
  - rewrite exec_revoke in Hn. destruct (devices s !! id'); [|done].
    rewrite networks_bump in Hn. by apply lookup_alter_is_Some in Hn.
  - rewrite exec_set_endpoints in Hn. destruct (devices s !! id'); [|done].
    rewrite networks_bump in Hn. by apply lookup_alter_is_Some in Hn.
  - rewrite exec_advertise in Hn. destruct (devices s !! id'); [|done]. by destruct (normalize_prefix p).
  - rewrite exec_approve in Hn. destruct (routes s !! id'); [|done].
    rewrite networks_bump in Hn. by apply lookup_alter_is_Some in Hn.
  - rewrite exec_delete in Hn. destruct (routes s !! id') as [r|]; [|done]. cbv zeta in Hn.
    destruct (r_approved r); [|done]. rewrite networks_bump in Hn. by apply lookup_alter_is_Some in Hn.
  - rewrite exec_register_relay in Hn. by apply bump_all_is_Some in Hn.
  - destruct (exec_update_relay r s) as [E|(old & _ & E)]; rewrite E in Hn; [done|]. by apply bump_all_is_Some in Hn.
  - done.
Qed.

(** The config epoch tracks the configuration.  For every request and every device
    after it: either the epoch of the device's network moves by exactly one (and a live
    subscriber of the network sees the new value), or the epoch stays and the device
    gets the same answer as before, up to the order of lists.  So a node that polls the
    epoch, or waits for the channel, never misses a change of its configuration. *)
Lemma epoch_tracks_config `{ho : !HashOrder} n s q id d (ho1 ho2 : HashOrder) :
  reachable any_request n s → request_ok q → in_bounds (n + request_ids q) →
  devices (@exec W _ ho _ q s) !! id = Some d →
  moved (d_network_id d) s (@exec W _ ho _ q s)
  ∨ network_epoch (d_network_id d) (@exec W _ ho _ q s) = network_epoch (d_network_id d) s
    ∧ answer_equiv (@device_config W ho1 id s) (@device_config W ho2 id (@exec W _ ho _ q s)).
Proof.
  intros Hre Hq Hb Hd. pose proof (request_ids_nonneg q).
  assert (in_bounds n) as Hb0 by (eapply in_bounds_le; [|exact Hb]; lia).
  pose proof (reachable_ok _ _ _ Hre Hb0) as Hok.
  pose proof (@step_ok _ _ _ ho n s q Hok Hq Hb) as Hok'.
  pose proof (@device_network_old ho n s q id d Hok Hq Hb Hd) as Hnet.
  destruct (@view_step ho n s (d_network_id d) Hok Hb0 Hnet q Hb) as [Hv|Hm]; [right|by left].
  split; [unfold network_epoch; by rewrite (v_network _ _ _ Hv)|].
  eapply (same_view_config (ho1 := ho1)); [exact Hok|exact Hok'|exact Hv|congruence|].
  intros d0 Hd0. destruct (@devices_step ho n s q id d0 Hok Hb Hd0) as [?|[_ ?]]; [congruence|].
  assert (d = revoked d0) as -> by congruence. done.
Qed.


(** ** Overlay addresses *)

(** The pool of a device's network holds its key, and its addresses are the pool's. *)
Definition pooled (m : gmap string Ipam) (d : Device) : Prop :=
  ∃ ipam h, m !! d_network_id d = Some ipam ∧ by_key ipam !! d_wg_public_key d = Some h
    ∧ d_address_v4 d = Some (text (fmt_v4 (v4_for ipam h)))
    ∧ d_address_v6 d = Some (text (fmt_v6 (v6_for ipam h))).

Definition all_pooled s : Prop :=
  ∀ id d, devices s !! id = Some d → d_status d = Active → pooled (ipams s) d.

(** The pool keeps its networks, and the hosts of the keys in [P]. *)
Lemma pooled_update (m m' : gmap string Ipam) d :
  (∀ ipam, m !! d_network_id d = Some ipam → ∃ ipam', m' !! d_network_id d = Some ipam'
     ∧ v4_net ipam' = v4_net ipam ∧ v6_prefix ipam' = v6_prefix ipam
     ∧ by_key ipam' !! d_wg_public_key d = by_key ipam !! d_wg_public_key d) →
  pooled m d → pooled m' d.
Proof.
  intros Hm (ipam & h & Hi & Hk & H4 & H6). destruct (Hm ipam Hi) as (ipam' & Hi' & E4 & E6 & Ek).
  exists ipam', h. unfold v4_for, v6_for in *. rewrite E4, E6, Ek. done.
Qed.

Lemma pooled_same (m m' : gmap string Ipam) d :
  m' !! d_network_id d = m !! d_network_id d → pooled m d → pooled m' d.
Proof. intros E. apply pooled_update. rewrite E. eauto. Qed.

Lemma allocate_keeps k p r p' k' :
  allocate k p = (r, p') →
  v4_net p' = v4_net p ∧ v6_prefix p' = v6_prefix p ∧ (k' ≠ k → by_key p' !! k' = by_key p !! k').
Proof.
  unfold allocate. destruct (by_key p !! k); [by intros [= _ <-]|].
  destruct (free_host p); [|by intros [= _ <-]]. intros [= _ <-]. cbn. split_and!; [done..|].
  intros ?. by rewrite lookup_insert_ne.
Qed.

Lemma allocate_holds k p v4 v6 p' :
  allocate k p = (Ok (v4, v6), p') → ∃ h, by_key p' !! k = Some h ∧ v4 = v4_for p' h ∧ v6 = v6_for p' h.
Proof.
  unfold allocate. destruct (by_key p !! k) as [h|] eqn:E; [intros [= <- <- <-]; eauto|].
  destruct (free_host p) as [h|]; [|done]. intros [= <- <- <-]. exists h. cbn. by rewrite lookup_insert_eq.
Qed.

Lemma recycle_keeps k p k' :
  v4_net (recycle k p).2 = v4_net p ∧ v6_prefix (recycle k p).2 = v6_prefix p
  ∧ (k' ≠ k → by_key (recycle k p).2 !! k' = by_key p !! k').
Proof.
  unfold recycle. destruct (by_key p !! k); [|done]. cbn. split_and!; [done..|].
  intros ?. by rewrite lookup_delete_ne.
Qed.

Lemma pooled_enroll `{!HashOrder} n s code name key now :
  store_ok n s → all_pooled s → all_pooled (exec (Enroll code name key now) s).
Proof.
  intros Hok Hall. cbn [exec]. destruct (enroll code name key now s) as [r s'] eqn:E. apply enroll_cases in E.
  cbn [snd]. destruct E as [e|k inv d Hk Hi Hf|k inv ipam v4 v6 ipam' Hk Hi Hf Hr Hp Ha d]; [done..|].
  intros id d'. store_simp. rewrite lookup_insert. case_decide as Hid.
  - intros [= <-] _. destruct (allocate_holds _ _ _ _ _ Ha) as (h & Hh & -> & ->).
    exists ipam', h. cbn. by rewrite lookup_insert_eq.
  - intros Hd' Ha'. eapply pooled_update; [|by eapply Hall]. intros p Hp'.
    destruct (decide (i_network_id inv = d_network_id d')) as [En|En];
      [|rewrite lookup_insert_ne by done; eauto].
    rewrite <-En, lookup_insert_eq in *. exists ipam'. rewrite Hp in Hp'. injection Hp' as <-.
    destruct (allocate_keeps _ _ _ _ (d_wg_public_key d') Ha) as (? & ? & Hkeep). split_and!; [done..|].
    apply Hkeep. intros Hkey. eapply find_by_None in Hf; [|exact Hd'].
    rewrite (proj2 (active_with_key_spec _ _ d')) in Hf; done.
Qed.

Lemma pooled_revoke `{!HashOrder} n s id :
  store_ok n s → careful s (RevokeDevice id) → all_pooled s → all_pooled (exec (RevokeDevice id) s).
Proof.
  intros Hok Hc Hall. rewrite exec_revoke. destruct (devices s !! id) as [d|] eqn:Hd; [|done].
  intros id' d'. store_simp. rewrite lookup_alter. case_decide as Hid.
  { subst id'. rewrite Hd. by intros [= <-]. }
  intros Hd' Ha'. eapply pooled_update; [|by eapply Hall]. intros p Hp.
  destruct (decide (d_network_id d = d_network_id d')) as [En|En];
    [|rewrite lookup_alter_ne by done; eauto].
  rewrite En, lookup_alter_eq, Hp. eexists. split; [done|].
  destruct (recycle_keeps (d_wg_public_key d) p (d_wg_public_key d')) as (? & ? & Hkeep). split_and!; [done..|].
  apply Hkeep. intros Hk. apply Hid. symmetry. eapply (ok_keys _ _ Hok id' id); eauto.
Qed.


Lemma pooled_step `{!HashOrder} n s q :
  store_ok n s → in_bounds n → careful s q → all_pooled s → all_pooled (exec q s).
Proof.
  intros Hok Hb Hc Hall.
  assert (∀ s', devices s' = devices s → ipams s' = ipams s → all_pooled s') as Hsame.
  { intros s' Hd Hp id d. rewrite Hd, Hp. apply Hall. }
  destruct q as [name random|m e u code|code name key now|m ds|id|id l|id p|id|id|region url m anytls stun identity|r|m].
  - rewrite exec_create_network. intros id d Hd Ha. cbn [devices ipams] in *.
    eapply pooled_same; [|by eapply Hall]. apply lookup_insert_ne. intros E.
    apply (ok_device _ _ Hok) in Hd as (_ & _ & [x Hx]). apply (ok_network _ _ Hok) in Hx as (_ & Hi & _).
    apply (not_issued "net-" n s Hok Hb). by replace (format_id "net-" (seq s)) with (d_network_id d) by
      (rewrite <-E; unfold made_network; by destruct (ula_groups random) as [[a b] c]).
  - rewrite exec_create_invite. by destruct (networks s !! m); apply Hsame.
  - by apply (pooled_enroll n).
  - done.
  - by apply (pooled_revoke n).
  - rewrite exec_set_endpoints. destruct (devices s !! id); [|done]. by apply Hsame; store_simp.
  - rewrite exec_advertise. destruct (devices s !! id); [|done]. cbv zeta.
    by destruct (normalize_prefix p); apply Hsame.
  - rewrite exec_approve. destruct (routes s !! id); [|done]. by apply Hsame; store_simp.
  - rewrite exec_delete. destruct (routes s !! id) as [r|]; [|done]. cbv zeta.
    by destruct (r_approved r); apply Hsame; store_simp.
  - rewrite exec_register_relay. cbv zeta. apply Hsame; by rewrite ?(proj1 (bump_all_same _ _)), ?(proj1 (proj2 (proj2 (bump_all_same _ _)))).
  - destruct (exec_update_relay r s) as [->|(old & _ & ->)]; [done|].
    apply Hsame; by rewrite ?(proj1 (bump_all_same _ _)), ?(proj1 (proj2 (proj2 (bump_all_same _ _)))).
  - by apply Hsame.
Qed.

Lemma reachable_pooled n s : reachable careful n s → in_bounds n → all_pooled s.
Proof.
  induction 1 as [|n s ho q Hre IH Hq Hg]; intros Hb; [intros id d; unfold store_new; cbn [devices]; by rewrite lookup_empty|].
  pose proof (request_ids_nonneg q).
  assert (in_bounds n) as Hb0 by (eapply in_bounds_le; [|exact Hb]; lia).
  apply (pooled_step n); [by eapply reachable_ok|done..|by apply IH].
Qed.

Lemma fmt_v4_inj a b : fits 32 a → fits 32 b → fmt_v4 a = fmt_v4 b → a = b.
Proof. intros Ha Hb' E. apply parse_v4_fmt in Ha, Hb'. congruence. Qed.

Lemma fmt_v6_inj a b : fits 128 a → fits 128 b → fmt_v6 a = fmt_v6 b → a = b.
Proof. intros Ha Hb' E. apply read_ipv6_fmt in Ha, Hb'. congruence. Qed.

(** Overlay addresses are unique.  In every store reached without imports and
    without revoking a device twice, each active device has an IPv4 and an IPv6 address,
    and two active devices of one network never share either. *)
Lemma overlay_addresses_unique n s id id' d d' :
  reachable careful n s → in_bounds n →
  devices s !! id = Some d → devices s !! id' = Some d' → id ≠ id' →
  d_status d = Active → d_status d' = Active → d_network_id d = d_network_id d' →
  is_Some (d_address_v4 d) ∧ is_Some (d_address_v6 d)
  ∧ d_address_v4 d ≠ d_address_v4 d' ∧ d_address_v6 d ≠ d_address_v6 d'.
Proof.
  intros Hre Hb Hd Hd' Hne Ha Ha' Hn. pose proof (reachable_ok _ _ _ Hre Hb) as Hok.
  destruct (reachable_pooled _ _ Hre Hb id d Hd Ha) as (p & h & Hp & Hk & H4 & H6).
  destruct (reachable_pooled _ _ Hre Hb id' d' Hd' Ha') as (p' & h' & Hp' & Hk' & H4' & H6').
  rewrite <-Hn, Hp in Hp'. injection Hp' as <-. destruct (ok_ipam _ _ Hok _ _ Hp) as [Hpok _].
  pose proof (hosts_fit _ Hpok _ _ Hk). pose proof (hosts_fit _ Hpok _ _ Hk').
  assert (h ≠ h') as Hh.
  { intros <-. apply Hne. eapply (ok_keys _ _ Hok); eauto. by eapply (hosts_inj _ Hpok). }
  rewrite H4, H6, H4', H6'. split_and!; [eauto..| |].
  - intros [= E%text_inj%fmt_v4_inj]; [|by apply v4_for_fits..]. by apply Hh, (v4_for_inj p).
  - intros [= E%text_inj%fmt_v6_inj]; [|by apply v6_for_fits..]. by apply Hh, (v6_for_inj p).
Qed.

End Props.

(** ** A run that gives one address to two devices *)

(** Run requests in order, iterating maps by [map_to_list]. *)
Definition run (l : list request) : Store (Z * bool) := foldl (fun s q => exec q s) store_new l.

Definition key_a : string := "aaaaaaaaaaaaaaaaaaaaaaaaaaaaaaaaaaaaaaaaaaaaaaaaaaaaaaaaaaaaaaaa".
Definition key_b : string := "bbbbbbbbbbbbbbbbbbbbbbbbbbbbbbbbbbbbbbbbbbbbbbbbbbbbbbbbbbbbbbbb".

Definition setup : list request :=
  [CreateNetwork "n" 0; CreateInvite "net-1" None None "c"; Enroll "c" "first" key_a 0].

(** Revoke a device, enrol its key again, revoke the old device once more, enrol another. *)
Definition double_revoke : list request :=
  setup ++ [RevokeDevice "dev-2"; Enroll "c" "again" key_a 0; RevokeDevice "dev-2"; Enroll "c" "other" key_b 0].

(** The requests are well formed and pass the guard, each in the store it is served in. *)
Fixpoint served (guard : Store (Z * bool) → request → Prop) (s : Store (Z * bool)) (l : list request) : Prop :=
  match l with [] => True | q :: l => (request_ok q ∧ guard s q) ∧ served guard (exec q s) l end.

Definition total_ids (l : list request) : Z := foldr (fun q n => request_ids q + n) 0 l.

Lemma served_reachable guard l : ∀ n s,
  reachable guard n s → served guard s l → reachable guard (n + total_ids l) (foldl (fun s q => exec q s) s l).
Proof.
  induction l as [|q l IH]; intros n s Hre Hs; [by rewrite Z.add_0_r|]. destruct Hs as [[Hq Hg] Hs].
  cbn [total_ids foldr foldl]. fold (total_ids l). rewrite Z.add_assoc. apply IH; [|done]. by apply reach_step.
Qed.

Lemma run_reachable guard l : served guard store_new l → reachable guard (total_ids l) (run l).
Proof. intros Hs. apply (served_reachable guard l 0 store_new); [constructor|done]. Qed.

Lemma run_any l : Forall request_ok l → reachable any_request (total_ids l) (run l).
Proof.
  intros Hl. apply run_reachable. generalize (store_new (W := Z * bool)).
  induction Hl; intros s; cbn; [done|]. split; [done|auto].
Qed.

(** Revoking a device twice can hand its address to another.  The run enrols a key,
    revokes the device, enrols the key again (the new device gets the address back),
    revokes the old device once more, which recycles the address by key although the
    new device holds it, and enrols a second key: two active devices of one network
    end up with the same overlay addresses. *)
Lemma double_revoke_shares_address :
  ∃ n s d d', reachable any_request n s ∧ in_bounds n ∧ s = run double_revoke
    ∧ devices s !! "dev-3"%string = Some d ∧ devices s !! "dev-4"%string = Some d'
    ∧ d_status d = Active ∧ d_status d' = Active ∧ d_network_id d = d_network_id d'
    ∧ d_wg_public_key d ≠ d_wg_public_key d'
    ∧ d_address_v4 d = d_address_v4 d' ∧ d_address_v6 d = d_address_v6 d'.
Proof.
  exists (total_ids double_revoke), (run double_revoke).
  destruct (devices (run double_revoke) !! "dev-3"%string) as [d|] eqn:Hd; [|by vm_compute in Hd].
  destruct (devices (run double_revoke) !! "dev-4"%string) as [d'|] eqn:Hd'; [|by vm_compute in Hd'].
  vm_compute in Hd, Hd'. injection Hd as <-. injection Hd' as <-. eexists _, _.
  split; [apply run_any; repeat constructor; by vm_compute|]. split; [by vm_compute|]. split_and!; done.
Qed.

(** ** Witnesses *)

Definition two_devices : list request := setup ++ [Enroll "c" "other" key_b 0].

Lemma setup_reachable : reachable any_request 3 (run setup).
Proof. apply (run_any setup). repeat constructor; by vm_compute. Qed.

Lemma setup_bounds : in_bounds (3 + 1).
Proof. by vm_compute. Qed.

Lemma two_devices_reachable : reachable careful 4 (run two_devices).
Proof. apply (run_reachable careful two_devices). by repeat split; vm_compute. Qed.

(** The device of an identifier in a concrete store. *)
Definition device_at (s : Store (Z * bool)) (id : string) : Device :=
  default (mkDevice "" "" "" "" None None Revoked) (devices s !! id).

Lemma device_at_lookup s id : bool_decide (is_Some (devices s !! id)) = true → devices s !! id = Some (device_at s id).
Proof. rewrite bool_decide_eq_true. intros [d Hd]. unfold device_at. by rewrite Hd. Qed.

Lemma pair_fst {A B} (p : A * B) a : p.1 = a → p = (a, p.2).
Proof. by destruct p; intros [= <-]. Qed.

Definition second_store : Store (Z * bool) := (enroll "c" "second" key_b 5 (run setup)).2.
Definition second_device : Device := device_at second_store "dev-3".
Definition second_invite : Invite := default (mkInvite "" "" None None 0) (invites second_store !! "c"%string).
Definition revoked_store : Store (Z * bool) := (revoke_device "dev-2" (run setup)).2.

Lemma second_enrolled : enroll "c" "second" key_b 5 (run setup) = (Ok second_device, second_store).
Proof. vm_compute. reflexivity. Qed.

Lemma second_invited : invites second_store !! "c"%string = Some second_invite.
Proof. vm_compute. reflexivity. Qed.

Lemma second_network : i_network_id second_invite = d_network_id second_device ∧ i_expires_at second_invite = None.
Proof. by vm_compute. Qed.

Lemma setup_revoked : revoke_device "dev-2" (run setup) = (Ok tt, revoked_store).
Proof.
  assert ((revoke_device "dev-2" (run setup)).1 = Ok tt) as H by (vm_compute; reflexivity).
  exact (pair_fst (revoke_device "dev-2" (run setup)) (Ok tt) H).
Qed.

Lemma revoked_lookup :
  devices (exec (RevokeDevice "dev-2") (run setup)) !! "dev-2"%string
  = Some (device_at (exec (RevokeDevice "dev-2") (run setup)) "dev-2").
Proof. apply device_at_lookup. vm_compute. reflexivity. Qed.

Lemma two_devices_facts :
  devices (run two_devices) !! "dev-2"%string = Some (device_at (run two_devices) "dev-2")
  ∧ devices (run two_devices) !! "dev-3"%string = Some (device_at (run two_devices) "dev-3")
  ∧ d_status (device_at (run two_devices) "dev-2") = Active
  ∧ d_status (device_at (run two_devices) "dev-3") = Active
  ∧ d_network_id (device_at (run two_devices) "dev-2") = d_network_id (device_at (run two_devices) "dev-3").
Proof. split_and!; [apply device_at_lookup; vm_compute; reflexivity..|by vm_compute|by vm_compute|by vm_compute]. Qed.

