(* ===== verification/CryptorSafe.v ===== *)
(** * Cryptors that never panic

    What the data plane relies on of a cryptor: a well-formedness invariant that every
    call keeps, and no panic whatever the bytes.  The Noise implementation has it for
    all messages but transport data whose counter is within 2048 of 2^64. *)

From S2P Require Import Prelude.
From S2P Require Import Words.
From S2P Require Import CryptoError.
From S2P Require Import Crypto.
From S2P Require Import NoisePacket.
From S2P Require Import ReplayWindow.
From S2P Require Import Session.
From S2P Require Import Handshake.
From S2P Require Import Noise.
From S2P Require Import Cryptor.

Class CryptorSafe (C : Type) `{Cryptor C} := {
  cr_ok : C → Prop;
  cr_packet : list byte → Prop;
  init_safe env own_prikey node_pubkey :
    outcome (fun '(c, _) => cr_ok c) (init_handshake env own_prikey node_pubkey);
  handle_safe env own_prikey own_pubkey packet :
    outcome (fun '(c, _) => cr_ok c) (handle_handshake env own_prikey own_pubkey packet);
  response_safe env packet : triple cr_ok (handle_response env packet) (fun _ => True);
  send_safe env packet dst : triple cr_ok (on_send env packet dst) (fun _ => True);
  recv_safe env packet dst : cr_packet packet → triple cr_ok (on_recv env packet dst) (fun _ => True);
  rekey_init_safe env dst : triple cr_ok (rekey_init env dst) (fun _ => True);
  rekey_respond_safe env packet dst :
    cr_packet packet → triple cr_ok (rekey_respond env packet dst) (fun _ => True);
  peer_public_safe (c : C) : no_panic (get_peer_public c)
}.

(** ** The wrapper *)

Section Raw.
Context {C : Type} `{CryptorSafe C}.

Definition raw_ok (raw : RawCryptor C) : Prop := match raw with Some c => cr_ok c | None => True end.

Lemma raw_with_data {A} (m : st C CryptoError A) Q : triple cr_ok m Q → triple raw_ok (with_data m) Q.
Proof.
  intros Hm [c|] r raw' Hr; unfold with_data; [|by intros [= <- <-]].
  destruct (m c) as [x c'] eqn:Em. intros [= <- <-]. by apply (Hm c x c').
Qed.

Lemma raw_init_safe env k pk : triple raw_ok (raw_init_handshake env k pk) (fun _ => True).
Proof.
  intros [c|] r raw' Hr; unfold raw_init_handshake; [by intros [= <- <-]|].
  pose proof (init_safe env k pk) as Hi. destruct (init_handshake env k pk) as [[c hs]|e|]; by intros [= <- <-].
Qed.

Lemma raw_handle_safe env k pub packet : triple raw_ok (raw_handle_handshake env k pub packet) (fun _ => True).
Proof.
  intros [c|] r raw' Hr; unfold raw_handle_handshake; [by intros [= <- <-]|].
  pose proof (handle_safe env k pub packet) as Hi.
  destruct (handle_handshake env k pub packet) as [[c hs]|e|]; by intros [= <- <-].
Qed.

Lemma raw_peer_public_safe (raw : RawCryptor C) : no_panic (raw_get_peer_public raw).1.
Proof.
  unfold raw_get_peer_public, with_data. destruct raw as [c|]; [|done]. cbn. apply peer_public_safe.
Qed.
End Raw.

(** ** Noise *)

Section NoiseSafe.
Context `{CryptoLaws}.

(** The counter of a data message is in the range the replay window handles. *)
Definition noise_packet (bytes : list byte) : Prop :=
  ∀ d, parse_incoming_packet bytes = Ok (PData d) → counter_ok (pd_counter d).

Lemma verify_packet_parse key src p : verify_packet key src = Ok p → parse_incoming_packet src = Ok p.
Proof.
  intros Hv. apply bind_Ok_inv in Hv as (p' & Hp & Hv).
  destruct p'; [apply bind_Ok_inv in Hv as (? & _ & Hv)..|]; by apply Ok_inj in Hv as <-.
Qed.

Lemma triple_noise_verify packet :
  triple noise_ok (noise_verify packet) (fun p => parse_incoming_packet packet = Ok p).
Proof.
  unfold noise_verify. apply (triple_bind _ _ _ (fun _ => True)); [by apply triple_get|intros n _].
  apply triple_lift. destruct (verify_packet _ _) as [p|e|] eqn:Hv; [|done|by apply no_panic_verify in Hv].
  cbn. by apply verify_packet_parse in Hv.
Qed.

Lemma triple_verified packet dst rng clock p :
  noise_packet packet → parse_incoming_packet packet = Ok p →
  triple noise_ok (handle_verified_packet p dst rng clock) (fun _ => True).
Proof.
  intros Hp Hparse. apply triple_handle_verified; [by eapply parse_packet_ok|]. intros d ->. by apply Hp.
Qed.

Lemma noise_init_safe env k pk : outcome (fun '(c, _) => noise_ok c) (noise_init_handshake env k pk).
Proof.
  unfold noise_init_handshake. set (n := noise_new _ _ _ _ _ _).
  destruct (on_handshake _ n) as [r n'] eqn:Hr.
  assert (noise_ok n) as Hn by apply noise_ok_new.
  destruct (triple_on_handshake _ _ (triple_initiation _ _ _) n r n' Hn Hr) as [Hn' Ho]. by destruct r.
Qed.

Lemma noise_handle_safe env k pub packet :
  outcome (fun '(c, _) => noise_ok c) (noise_handle_handshake env k pub packet).
Proof.
  unfold noise_handle_handshake.
  destruct (verify_packet _ _) as [p|e|] eqn:Hv; [|done|by apply no_panic_verify in Hv].
  apply verify_packet_parse, parse_packet_ok in Hv. cbn [map_err mbind res_bind].
  destruct p as [i|q|d]; [|done..].
  destruct (parse_handshake_anon k pub i) as [pkey|e|] eqn:Ha; [|done|].
  2: { unfold parse_handshake_anon in Ha. destruct (kdf2 _ _). by apply no_panic_open in Ha. }
  cbn [mbind res_bind]. set (n := noise_new _ _ _ _ _ _).
  destruct (handle_verified_packet _ _ _ _ n) as [r n'] eqn:Hr.
  assert (noise_ok n) as Hn by apply noise_ok_new.
  destruct (triple_handle_verified (PInit i) _ _ _ Hv ltac:(done) n r n' Hn Hr) as [Hn' Ho]. by destruct r.
Qed.

#[export] Program Instance noise_safe : CryptorSafe Noise := {
  cr_ok := noise_ok;
  cr_packet := noise_packet;
  init_safe := noise_init_safe;
  handle_safe := noise_handle_safe
}.
Next Obligation.
  intros env packet. cbn. unfold noise_handle_response.
  apply (triple_bind _ _ _ (fun p => parse_incoming_packet packet = Ok p)).
  { apply triple_lift. pose proof (no_panic_parse packet). by destruct (parse_incoming_packet packet). }
  intros p Hp. destruct p as [i|q|d]; [by apply triple_lift| |by apply triple_lift].
  apply (triple_bind _ _ _ (fun _ => True)); [|intros _ _; by apply triple_ret].
  by apply (triple_handle_verified (PResp q) [] (fun _ _ => None)); [apply parse_packet_ok in Hp|].
Qed.
Next Obligation.
  intros env packet dst. cbn. unfold noise_on_send.
  apply (triple_bind _ _ _ (fun _ => True)); [|intros [] _; by first [apply triple_ret|apply triple_lift]].
  intros n r n' Hn Hr. by apply triple_encapsulate in Hr.
Qed.
Next Obligation.
  intros env packet dst Hp. cbn. unfold noise_on_recv. eapply triple_bind; [apply triple_noise_verify|].
  intros p Hparse. eapply triple_bind; [by eapply triple_verified|].
  intros [] _; by first [apply triple_ret|apply triple_lift].
Qed.
Next Obligation. intros env dst. apply triple_on_handshake, triple_initiation. Qed.
Next Obligation.
  intros env packet dst Hp. cbn. unfold noise_rekey_respond. eapply triple_bind; [apply triple_noise_verify|].
  intros p Hparse. eapply triple_bind; [by eapply triple_verified|]. intros r _. by apply triple_ret.
Qed.
Next Obligation. done. Qed.
End NoiseSafe.
