(* ===== verification/IndexTable.v ===== *)
(** * Session indices (node/src/worker.rs, [IndexTable])

    Every worker keeps a local map from the WireGuard receiver indices it assigned to
    the peer behind each, and publishes [index -> worker] in an owner map shared by all
    workers, from which the UDP reader routes.  The operations are functions on a
    worker's table and the shared map; a [System] is all the tables beside the one map,
    and a [step] is one operation of any worker. *)

From S2P Require Import Prelude.
From S2P Require Import Words.

(** [IndexOwner]: the shared map from an index to a worker id. *)
Abbreviation IndexOwner := (gmap Z Z).

(** A map filled by inserting the entries of a list in order. *)
Definition fill {A K V} `{Countable K} (k : A → K) (v : A → V) (l : list A) : gmap K V :=
  foldl (fun m x => <[k x := v x]> m) ∅ l.

Record IndexSlots := mkSlots {
  slot_current : option Z;
  slot_previous : option Z;
  slot_pending : option Z
}.

Definition slots_default : IndexSlots := mkSlots None None None.

Record IndexTable := mkIndexTable {
  local : gmap Z (list byte);
  wid : Z;
  slots : gmap (list byte) IndexSlots
}.

(** [\[slots.current, slots.previous, slots.pending\].contains(&Some(idx))]. *)
Definition slots_keep (s : IndexSlots) (idx : Z) : bool :=
  bool_decide (Some idx ∈ [slot_current s; slot_previous s; slot_pending s]).

(** [IndexTable::new]; [order] is the iteration order of [local], in which the last
    index of a peer is the one its slots keep. *)
Definition index_new (lm : gmap Z (list byte)) (order : list (Z * list byte)) (w : Z) : IndexTable :=
  mkIndexTable lm w (fill snd (fun x => mkSlots None None (Some x.1)) order).

(** An entry [retain] of [prune] drops. *)
Definition pruned (pk : list byte) (keep : IndexSlots) (idx : Z) (peer : list byte) : bool :=
  bool_decide (peer = pk) && negb (slots_keep keep idx).

Definition index_prune (pk : list byte) (x : IndexTable * IndexOwner) : IndexTable * IndexOwner :=
  let '(t, owner) := x in
  match slots t !! pk with
  | None => (t, owner)
  | Some keep =>
      let gone idx := match local t !! idx with Some peer => pruned pk keep idx peer | None => false end in
      (mkIndexTable (filter (fun '(idx, peer) => pruned pk keep idx peer = false) (local t)) (wid t) (slots t),
       filter (fun '(idx, w) => (gone idx && (w =? wid t)) = false) owner)
  end.

Definition index_insert (idx : Z) (pk : list byte) (x : IndexTable * IndexOwner)
    : IndexTable * IndexOwner :=
  let '(t, owner) := x in
  let s := default slots_default (slots t !! pk) in
  let s := mkSlots (slot_current s) (slot_previous s) (Some idx) in
  let '(t, owner) := index_prune pk (mkIndexTable (local t) (wid t) (<[pk := s]> (slots t)), owner) in
  (mkIndexTable (<[idx := pk]> (local t)) (wid t) (slots t), <[idx := wid t]> owner).

Definition index_confirm (idx : Z) (pk : list byte) (x : IndexTable * IndexOwner)
    : IndexTable * IndexOwner :=
  let '(t, owner) := x in
  match slots t !! pk with
  | Some s =>
      if bool_decide (slot_pending s = Some idx) then
        let s := mkSlots (slot_pending s) (slot_current s) None in
        index_prune pk (mkIndexTable (local t) (wid t) (<[pk := s]> (slots t)), owner)
      else (t, owner)
  | None => (t, owner)
  end.

Definition index_get (t : IndexTable) (idx : Z) : option (list byte) := local t !! idx.

(** [remove_peer] collects the peer's indices and removes each from both maps. *)
Definition index_remove_peer (pk : list byte) (x : IndexTable * IndexOwner)
    : IndexTable * IndexOwner :=
  let '(t, owner) := x in
  let mine idx := bool_decide (local t !! idx = Some pk) in
  (mkIndexTable (filter (fun '(_, v) => v ≠ pk) (local t)) (wid t) (delete pk (slots t)),
   filter (fun '(idx, _) => mine idx = false) owner).

(** ** All workers at work *)

Record System := mkSystem { tables : gmap Z IndexTable; owners : IndexOwner }.

(** The setup loop of lib.rs: peer [pk] of shard [w] sent its first initiation with
    index [idx], recorded in the map of the shard and in the shared one. *)
Record Boot := mkBoot { bt_idx : Z; bt_pk : list byte; bt_wid : Z }.

Definition shard_map (l : list Boot) (w : Z) : gmap Z (list byte) :=
  fill bt_idx bt_pk (filter (fun b => bt_wid b = w) l).

Definition system_start (n : Z) (l : list Boot) (order : Z → list (Z * list byte)) : System :=
  mkSystem (fill id (fun w => index_new (shard_map l w) (order w) w) (seqZ 0 n)) (fill bt_idx bt_wid l).

Record boot_ok (n : Z) (l : list Boot) (order : Z → list (Z * list byte)) : Prop := {
  bo_idx : NoDup (bt_idx <$> l);
  bo_pk : NoDup (bt_pk <$> l);
  bo_wid b : b ∈ l → 0 ≤ bt_wid b < n;
  bo_order w : order w ≡ₚ map_to_list (shard_map l w)
}.

Inductive IndexOp :=
| IInsert (idx : Z) (pk : list byte)
| IConfirm (idx : Z) (pk : list byte)
| IRemove (pk : list byte).

Definition index_op (o : IndexOp) : IndexTable * IndexOwner → IndexTable * IndexOwner :=
  match o with
  | IInsert idx pk => index_insert idx pk
  | IConfirm idx pk => index_confirm idx pk
  | IRemove pk => index_remove_peer pk
  end.

(** The index of a new session is not the index of a live one. *)
Definition op_fresh (owner : IndexOwner) (o : IndexOp) : Prop :=
  match o with IInsert idx _ => owner !! idx = None | _ => True end.

(** One operation of one worker; workers interleave in any order. *)
Definition system_step (w : Z) (o : IndexOp) (s : System) : System :=
  match tables s !! w with
  | Some t => let '(t, owner) := index_op o (t, owners s) in mkSystem (<[w := t]> (tables s)) owner
  | None => s
  end.

Inductive indexed_by (n : Z) : System → Prop :=
| indexed_start l order : boot_ok n l order → indexed_by n (system_start n l order)
| indexed_step s w o :
    indexed_by n s → op_fresh (owners s) o → indexed_by n (system_step w o s).

(** The index belongs to a session slot of the peer. *)
Definition in_slots (t : IndexTable) (pk : list byte) (idx : Z) : Prop :=
  ∃ s, slots t !! pk = Some s ∧ slots_keep s idx = true.

(** The tables say exactly what the slots say, and the shared map says which table. *)
Definition table_ok (t : IndexTable) : Prop :=
  ∀ idx pk, local t !! idx = Some pk ↔ in_slots t pk idx.

Definition owner_ok (w : Z) (t : IndexTable) (owner : IndexOwner) : Prop :=
  ∀ idx, owner !! idx = Some w ↔ is_Some (local t !! idx).

Record system_ok (s : System) : Prop := {
  so_table w t : tables s !! w = Some t → wid t = w ∧ table_ok t ∧ owner_ok w t (owners s);
  so_owner idx w : owners s !! idx = Some w → is_Some (tables s !! w)
}.

(** ** Proofs *)

Lemma fill_Some {A K V} `{Countable K} (k : A → K) (v : A → V) l i y :
  NoDup (k <$> l) → fill k v l !! i = Some y ↔ ∃ x, x ∈ l ∧ k x = i ∧ v x = y.
Proof.
  unfold fill. induction l as [|x l IH] using rev_ind; intros Hnd.
  - cbn. rewrite lookup_empty. split; [done|]. by intros (x & ?%not_elem_of_nil & _).
  - rewrite foldl_snoc. rewrite fmap_app in Hnd.
    apply list.NoDup_app in Hnd as (Hnd & Hx & _). specialize (IH Hnd).
    assert (∀ x', x' ∈ l → k x' ≠ k x) as Hne.
    { intros x' Hx' Hk. apply (Hx (k x')); [by apply list_elem_of_fmap_2|]. rewrite Hk. by apply list_elem_of_singleton. }
    destruct (decide (i = k x)) as [->|Hi].
    + rewrite lookup_insert_eq. split.
      * intros [= <-]. exists x. split_and!; [|done..]. apply elem_of_app. right. by apply list_elem_of_singleton.
      * intros (x' & Hx' & Hk & <-). apply elem_of_app in Hx' as [Hx'|Hx'%list_elem_of_singleton];
          [by destruct (Hne x')|by subst].
    + rewrite lookup_insert_ne by done. rewrite IH. split; intros (x' & Hx' & Hk & Hv); exists x'.
      * split_and!; [|done..]. apply elem_of_app. by left.
      * apply elem_of_app in Hx' as [Hx'|Hx'%list_elem_of_singleton]; [done|by subst].
Qed.

Lemma slots_keep_spec s idx :
  slots_keep s idx = true ↔
  slot_current s = Some idx ∨ slot_previous s = Some idx ∨ slot_pending s = Some idx.
Proof.
  unfold slots_keep. rewrite bool_decide_eq_true, !elem_of_cons, elem_of_nil. intuition congruence.
Qed.

Lemma prune_local pk t owner s idx p :
  slots t !! pk = Some s →
  local (index_prune pk (t, owner)).1 !! idx = Some p ↔
  local t !! idx = Some p ∧ (p = pk → slots_keep s idx = true).
Proof.
  intros Hs. cbn [index_prune]. rewrite Hs. cbn. rewrite map_lookup_filter_Some. unfold pruned.
  destruct (decide (p = pk)) as [->|Hp].
  - rewrite bool_decide_true by done. destruct (slots_keep s idx); cbn; intuition congruence.
  - rewrite bool_decide_false by done. cbn. intuition congruence.
Qed.

Lemma prune_owner pk t owner s idx w :
  slots t !! pk = Some s →
  (index_prune pk (t, owner)).2 !! idx = Some w ↔
  owner !! idx = Some w ∧ ¬ (local t !! idx = Some pk ∧ slots_keep s idx = false ∧ w = wid t).
Proof.
  intros Hs. cbn [index_prune]. rewrite Hs. cbn. rewrite map_lookup_filter_Some. unfold pruned.
  destruct (local t !! idx) as [p|] eqn:Hl; [|cbn; intuition congruence].
  destruct (decide (p = pk)) as [->|Hp].
  - rewrite bool_decide_true by done.
    destruct (slots_keep s idx), (Z.eqb_spec w (wid t)); cbn; intuition congruence.
  - rewrite bool_decide_false by done. cbn. intuition congruence.
Qed.

Lemma prune_rest pk x :
  wid (index_prune pk x).1 = wid x.1 ∧ slots (index_prune pk x).1 = slots x.1.
Proof. destruct x as [t owner]. cbn. by destruct (slots t !! pk). Qed.

(** One worker's table beside the shared map. *)
Definition pair_ok (w : Z) (x : IndexTable * IndexOwner) : Prop :=
  wid x.1 = w ∧ table_ok x.1 ∧ owner_ok w x.1 x.2.

(** What an operation of worker [w] does to the routes of the others: nothing. *)
Definition others_kept (w : Z) (owner owner' : IndexOwner) : Prop :=
  ∀ idx w', w' ≠ w → owner' !! idx = Some w' ↔ owner !! idx = Some w'.

Lemma prune_others pk t owner : others_kept (wid t) owner (index_prune pk (t, owner)).2.
Proof.
  intros idx w' Hw. destruct (slots t !! pk) as [s|] eqn:Hs; [|cbn; by rewrite Hs].
  rewrite (prune_owner _ _ _ s) by done. intuition.
Qed.

(** Pruning after the slots of [pk] shrank to [s]: the entries outside [s] go from
    both maps, the others stay. *)
Lemma prune_ok w pk t owner s :
  wid t = w → slots t !! pk = Some s → owner_ok w t owner →
  (∀ idx p, p ≠ pk → local t !! idx = Some p ↔ in_slots t p idx) →
  (∀ idx, slots_keep s idx = true → local t !! idx = Some pk) →
  pair_ok w (index_prune pk (t, owner)).
Proof.
  intros Hw Hs Ho Hother Hkeep. destruct (prune_rest pk (t, owner)) as [Hwid Hslots].
  cbn [fst] in Hwid, Hslots. split_and!; [congruence|..].
  - intros idx p. rewrite (prune_local _ _ _ s) by done. unfold in_slots. rewrite Hslots.
    destruct (decide (p = pk)) as [->|Hp].
    + rewrite Hs. split; [intros [_ Hk]; eauto|]. intros (s' & [= <-] & Hk). auto.
    + rewrite Hother by done. unfold in_slots. intuition.
  - intros idx. rewrite (prune_owner _ _ _ s) by done. rewrite (Ho idx). split.
    + intros [[p Hp] Hn]. exists p. apply (prune_local _ _ _ s); [done|]. split; [done|]. intros ->.
      destruct (slots_keep s idx) eqn:Hk; [done|]. by destruct Hn.
    + intros [p (Hl & Hk)%(prune_local _ _ _ s)]; [|done]. split; [eauto|].
      intros (Hl' & Hk' & _). rewrite Hl in Hl'. injection Hl' as ->. rewrite Hk in Hk'; done.
Qed.

Lemma index_confirm_ok w idx pk t owner :
  pair_ok w (t, owner) →
  pair_ok w (index_confirm idx pk (t, owner)) ∧ others_kept w owner (index_confirm idx pk (t, owner)).2.
Proof.
  intros (Hw & Ht & Ho). cbn [fst snd] in *. unfold index_confirm.
  destruct (slots t !! pk) as [s|] eqn:Hs; [|done]. case_bool_decide as Hp; [|done]. split.
  - eapply prune_ok; cbn; [done|by rewrite lookup_insert_eq|done|..].
    + intros i p Hne. rewrite (Ht i p). unfold in_slots. cbn. by rewrite lookup_insert_ne.
    + intros i Hk. apply Ht. exists s. split; [done|]. apply slots_keep_spec. apply slots_keep_spec in Hk.
      cbn in Hk. intuition congruence.
  - rewrite <-Hw. apply (prune_others _ (mkIndexTable _ _ _)).
Qed.

Lemma index_insert_ok w idx pk t owner :
  owner !! idx = None → pair_ok w (t, owner) →
  pair_ok w (index_insert idx pk (t, owner)) ∧ others_kept w owner (index_insert idx pk (t, owner)).2.
Proof.
  intros Hf (Hw & Ht & Ho). cbn [fst snd] in *. unfold index_insert.
  set (s := mkSlots _ _ _). set (t1 := mkIndexTable (local t) (wid t) (<[pk:=s]> (slots t))).
  assert (slots t1 !! pk = Some s) as Hs by (cbn; by rewrite lookup_insert_eq).
  destruct (prune_rest pk (t1, owner)) as [Hwid Hslots].
  pose proof (prune_others pk t1 owner) as Hoth.
  pose proof (fun i p => prune_local pk t1 owner s i p Hs) as Hpl.
  pose proof (fun i w => prune_owner pk t1 owner s i w Hs) as Hpo.
  destruct (index_prune pk (t1, owner)) as [t' owner']. cbn [fst snd] in *.
  assert (local t !! idx = None) as Hl.
  { destruct (local t !! idx) as [p|] eqn:E; [|done]. pose proof (proj2 (Ho idx) ltac:(eauto)). congruence. }
  assert (∀ i, slots_keep s i = true → i = idx ∨ local t !! i = Some pk) as Hkeep.
  { intros i [Hk|[Hk|Hk]]%slots_keep_spec; cbn in Hk; [right|right|left; congruence];
      destruct (slots t !! pk) as [s0|] eqn:Hs0; cbn in Hk; try done; apply Ht; exists s0;
      (split; [done|]); apply slots_keep_spec; tauto. }
  assert (slots_keep s idx = true) as Hki by (apply slots_keep_spec; cbn; tauto).
  split; [split_and!|]; cbn [fst snd wid local slots].
  - rewrite Hwid. exact Hw.
  - intros i p. cbn. unfold in_slots. cbn. rewrite Hslots. destruct (decide (i = idx)) as [->|Hi].
    + rewrite lookup_insert_eq. split; [intros [= <-]; eauto|]. intros (s' & Hs' & Hk).
      destruct (decide (pk = p)) as [->|Hp]; [done|]. cbn in Hs'. rewrite lookup_insert_ne in Hs' by done.
      assert (local t !! idx = Some p) by (apply Ht; by exists s'). congruence.
    + rewrite lookup_insert_ne by done. rewrite Hpl. cbn. destruct (decide (pk = p)) as [->|Hp].
      * rewrite lookup_insert_eq. split; [intros [_ Hk]; eauto|]. intros (s' & [= <-] & Hk).
        destruct (Hkeep i Hk); auto; done.
      * rewrite lookup_insert_ne by done. rewrite (Ht i p). unfold in_slots. intuition.
  - intros i. cbn. destruct (decide (i = idx)) as [->|Hi].
    + rewrite !lookup_insert_eq. rewrite Hwid. cbn. split; [eauto|]. by intros _; f_equal.
    + rewrite !lookup_insert_ne by done. rewrite Hpo, (Ho i). cbn. split.
      * intros [[p Hp] Hn]. exists p. apply Hpl. split; [done|]. intros ->.
        destruct (slots_keep s i) eqn:Hk; [done|]. by destruct Hn.
      * intros [p [Hp Hk]%Hpl]. cbn in Hp. split; [eauto|]. intros (Hl' & Hk' & _).
        assert (p = pk) as -> by congruence. rewrite Hk in Hk'; done.
  - intros i w' Hw'. cbn. destruct (decide (i = idx)) as [->|Hi].
    + rewrite lookup_insert_eq, Hf, Hwid. cbn. split; intros [=]; congruence.
    + rewrite lookup_insert_ne by done. apply Hoth. cbn. congruence.
Qed.

Lemma index_remove_ok w pk t owner :
  pair_ok w (t, owner) →
  pair_ok w (index_remove_peer pk (t, owner)) ∧ others_kept w owner (index_remove_peer pk (t, owner)).2.
Proof.
  intros (Hw & Ht & Ho). cbn [fst snd] in *. unfold index_remove_peer.
  split; [split_and!|]; cbn [fst snd wid local slots]; [done|..].
  - intros i p. cbn. rewrite map_lookup_filter_Some. unfold in_slots. cbn.
    destruct (decide (pk = p)) as [->|Hp]; [rewrite lookup_delete_eq|rewrite lookup_delete_ne by done].
    + split; [by intros [_ ?]|]. by intros (s & ? & _).
    + rewrite (Ht i p). unfold in_slots. split; [by intros [? _]|]. intros ?. by split; [|intros ->].
  - intros i. cbn. rewrite map_lookup_filter_Some, bool_decide_eq_false, (Ho i). split.
    + intros [[p Hp] Hn]. exists p. apply map_lookup_filter_Some. split; [done|]. intros ->. done.
    + intros [p [Hp Hn]%map_lookup_filter_Some]. split; [eauto|]. rewrite Hp. congruence.
  - intros i w' Hw'. cbn. rewrite map_lookup_filter_Some, bool_decide_eq_false. split; [by intros [? _]|].
    intros Hi. split; [done|]. intros Hl. pose proof (proj2 (Ho i) ltac:(eauto)). congruence.
Qed.

Lemma index_op_ok w o t owner :
  op_fresh owner o → pair_ok w (t, owner) →
  pair_ok w (index_op o (t, owner)) ∧ others_kept w owner (index_op o (t, owner)).2.
Proof.
  destruct o as [idx pk|idx pk|pk]; cbn [op_fresh index_op]; intros Hf Hp.
  - by apply index_insert_ok.
  - by apply index_confirm_ok.
  - by apply index_remove_ok.
Qed.

Lemma system_step_ok w o s : op_fresh (owners s) o → system_ok s → system_ok (system_step w o s).
Proof.
  intros Hf [Htab Hown]. unfold system_step. destruct (tables s !! w) as [t|] eqn:Hw; [|done].
  destruct (index_op_ok w o t (owners s) Hf) as [Hp Hoth]; [by apply Htab|].
  destruct (index_op o (t, owners s)) as [t' owner']. cbn [snd] in Hoth. split; cbn.
  - intros w1 t1. destruct (decide (w = w1)) as [<-|Hne].
    + rewrite lookup_insert_eq. by intros [= <-].
    + rewrite lookup_insert_ne by done. intros Ht1. destruct (Htab _ _ Ht1) as (? & ? & Ho).
      split_and!; [done..|]. intros i. rewrite (Hoth i w1) by done. apply Ho.
  - intros i w1 Hi. destruct (decide (w = w1)) as [<-|Hne]; [rewrite lookup_insert_eq; eauto|].
    rewrite lookup_insert_ne by done. apply (Hown i). by apply Hoth.
Qed.

(** A key without duplicates identifies the element. *)
Lemma key_inj {A K} `{Countable K} (k : A → K) l x y :
  NoDup (k <$> l) → x ∈ l → y ∈ l → k x = k y → x = y.
Proof.
  intros Hnd Hx Hy Hk. assert (∀ z, z ∈ l → fill k id l !! k z = Some z) as Hf.
  { intros z Hz. apply fill_Some; [done|]. by exists z. }
  pose proof (Hf x Hx) as Hfx. rewrite Hk, (Hf y Hy) in Hfx. congruence.
Qed.

Lemma shard_map_Some n l order w idx pk :
  boot_ok n l order →
  shard_map l w !! idx = Some pk ↔ ∃ b, b ∈ l ∧ bt_wid b = w ∧ bt_idx b = idx ∧ bt_pk b = pk.
Proof.
  intros [Hidx _ _ _]. unfold shard_map. rewrite fill_Some.
  - split; intros (b & Hb & Hr); exists b; rewrite list_elem_of_filter in *; tauto.
  - apply NoDup_fmap_2_strong; [|by apply list.NoDup_filter, (NoDup_fmap_1 bt_idx)].
    intros x y [_ Hx]%list_elem_of_filter [_ Hy]%list_elem_of_filter. by apply (key_inj _ l).
Qed.

Lemma system_start_ok n l order : boot_ok n l order → system_ok (system_start n l order).
Proof.
  intros Hb. pose proof Hb as [Hidx Hpk Hwid Hord].
  pose proof (fun w i p => shard_map_Some n l order w i p Hb) as Hsm.
  assert (∀ w t, tables (system_start n l order) !! w = Some t ↔
    0 ≤ w < n ∧ t = index_new (shard_map l w) (order w) w) as Htab.
  { intros w t. cbn. rewrite fill_Some by (rewrite list_fmap_id; apply NoDup_seqZ). split.
    - intros (x & Hx%elem_of_seqZ & Hxw & <-). unfold id in Hxw. subst x. split; [lia|done].
    - intros [Hw ->]. exists w. split_and!; try done. apply elem_of_seqZ. lia. }
  assert (∀ w, NoDup (order w).*2) as Hnd.
  { intros w. rewrite Hord. apply NoDup_fmap_2_strong; [|apply NoDup_map_to_list].
    intros [i p] [j q] (b & Hbl & _ & <- & <-)%elem_of_map_to_list%Hsm
      (b' & Hbl' & _ & <- & <-)%elem_of_map_to_list%Hsm Heq. by rewrite (key_inj bt_pk l b b'). }
  split.
  - intros w t [Hw ->]%Htab. split_and!; [done|..].
    + intros i p. unfold in_slots. cbn [local slots index_new]. rewrite <-elem_of_map_to_list, <-Hord. split.
      * intros Hip. eexists. split; [apply fill_Some; [done|]; by exists (i, p)|]. apply slots_keep_spec; cbn; auto.
      * intros (s & Hs & Hk). apply fill_Some in Hs as ([i' p'] & Hin & <- & <-); [|done].
        apply slots_keep_spec in Hk. cbn in *. destruct Hk as [?|[?|[= <-]]]; done.
    + intros i. cbn. rewrite fill_Some by done. split.
      * intros (b & Hbl & <- & <-). exists (bt_pk b). apply Hsm. by exists b.
      * intros [p (b & Hbl & <- & <- & <-)%Hsm]. by exists b.
  - cbn. intros i w (b & Hbl & <- & <-)%fill_Some; [|done].
    eexists. apply Htab. split; [by apply Hwid|done].
Qed.

Lemma indexed_ok n s : indexed_by n s → system_ok s.
Proof. induction 1; [by eapply system_start_ok|by apply system_step_ok]. Qed.

(** The slot of the running session outlives a new session and its confirmation. *)
Lemma current_kept w idx o t owner s pk :
  pair_ok w (t, owner) → op_fresh owner o → o ≠ IRemove pk →
  slots t !! pk = Some s → slot_current s = Some idx →
  in_slots (index_op o (t, owner)).1 pk idx.
Proof.
  intros (Hw & Ht & Ho) Hf Hr Hs Hc. assert (slots_keep s idx = true) as Hk by (apply slots_keep_spec; auto).
  destruct o as [i p|i p|p]; cbn [index_op].
  - unfold index_insert. set (s1 := mkSlots _ _ _).
    destruct (prune_rest p (mkIndexTable (local t) (wid t) (<[p:=s1]> (slots t)), owner)) as [_ Hsl].
    destruct (index_prune _ _) as [t' o']. unfold in_slots. cbn in *. rewrite Hsl.
    destruct (decide (p = pk)) as [->|Hp]; [|rewrite lookup_insert_ne by done; eauto].
    rewrite lookup_insert_eq. eexists. split; [done|]. apply slots_keep_spec. left. cbn. by rewrite Hs.
  - unfold index_confirm. destruct (slots t !! p) as [s0|] eqn:Hs0; [|by exists s].
    case_bool_decide as Hb; [|by exists s]. unfold in_slots.
    rewrite (proj2 (prune_rest _ _)). cbn.
    destruct (decide (p = pk)) as [->|Hp]; [|rewrite lookup_insert_ne by done; eauto].
    rewrite lookup_insert_eq. eexists. split; [done|]. apply slots_keep_spec. right. left. cbn. congruence.
  - exists s. cbn. by rewrite lookup_delete_ne by congruence.
Qed.

(** Receiver indices route exactly, whatever the interleaving of the workers: in
    every state the tables reach with indices not used by a live session, the shared
    owner map names worker [w] for an index if and only if the table of [w] holds it,
    a table holds an index for a peer if and only if it is in one of the three slots
    (current, previous, pending) of the peer, so that a peer has at most three, and
    until the peer is removed no operation of any worker loses the route of its current
    session: rekeying is gapless. *)
Lemma index_routes_exact n s :
  indexed_by n s →
  (∀ idx w, owners s !! idx = Some w ↔ ∃ t pk, tables s !! w = Some t ∧ index_get t idx = Some pk) ∧
  (∀ w t, tables s !! w = Some t →
    (∀ idx pk, index_get t idx = Some pk ↔ in_slots t pk idx) ∧
    (∀ pk l, NoDup l → (∀ idx, idx ∈ l → index_get t idx = Some pk) → (length l ≤ 3)%nat) ∧
    (∀ pk sl idx w' o, slots t !! pk = Some sl → slot_current sl = Some idx →
      op_fresh (owners s) o → o ≠ IRemove pk →
      owners (system_step w' o s) !! idx = Some w)).
Proof.
  intros Hi. pose proof (indexed_ok _ _ Hi) as Hok. pose proof Hok as [Htab Hown]. split.
  - intros idx w. split.
    + intros Ho. destruct (Hown _ _ Ho) as [t Ht]. destruct (Htab _ _ Ht) as (_ & _ & Hot).
      destruct (proj1 (Hot idx) Ho) as [pk Hpk]. by exists t, pk.
    + intros (t & pk & Ht & Hpk). destruct (Htab _ _ Ht) as (_ & _ & Hot). apply Hot. by exists pk.
  - intros w t Ht. destruct (Htab _ _ Ht) as (Hw & Htok & Hot). split_and!; [apply Htok|..].
    + intros pk l Hnd Hl. destruct l as [|x l']; [cbn; lia|]. set (l := x :: l') in *.
      destruct (proj1 (Htok x pk) (Hl x (list_elem_of_here _ _))) as (sl & Hsl & _).
      rewrite <-(length_fmap Some). change 3%nat with
        (length [slot_current sl; slot_previous sl; slot_pending sl]).
      apply submseteq_length, NoDup_submseteq; [by apply NoDup_fmap_2; [apply _|]|].
      intros o (idx & Ho & Hin)%list_elem_of_fmap. rewrite Ho. clear o Ho. apply Hl, Htok in Hin as (sl' & Hsl' & Hk).
      rewrite Hsl in Hsl'. injection Hsl' as <-. by apply bool_decide_eq_true in Hk.
    + intros pk sl idx w' o Hsl Hc Hf Hr.
      pose proof (system_step_ok w' o s Hf Hok) as [Htab' _]. revert Htab'. unfold system_step.
      destruct (decide (w' = w)) as [->|Hne].
      * rewrite Ht. pose proof (current_kept w idx o t (owners s) sl pk ltac:(done) Hf Hr Hsl Hc) as Hin.
        destruct (index_op o (t, owners s)) as [t' owner']. intros Htab'. cbn in *.
        destruct (Htab' w t') as (_ & Htok' & Hot'); [apply lookup_insert_eq|].
        apply Hot'. exists pk. by apply Htok'.
      * assert (owners s !! idx = Some w) as Ho.
        { apply Hot. exists pk. apply Htok. exists sl. split; [done|]. apply slots_keep_spec. by left. }
        destruct (tables s !! w') as [t'|] eqn:Ht'; [|done].
        destruct (index_op_ok w' o t' (owners s) Hf (Htab _ _ Ht')) as [_ Hoth].
        destruct (index_op o (t', owners s)) as [t1 owner']. intros _. cbn in *. by apply Hoth.
Qed.

(** Two workers; peer 1 of worker 0 sent its first initiation with index 5, and its
    session is replaced by one with index 9. *)
Definition sample_boot : list Boot := [mkBoot 5 [x01] 0; mkBoot 6 [x02] 1].
Definition sample_order (w : Z) : list (Z * list byte) := map_to_list (shard_map sample_boot w).
Definition sample_system : System :=
  system_step 0 (IConfirm 9 [x01]) (system_step 0 (IInsert 9 [x01])
    (system_step 0 (IConfirm 5 [x01]) (system_start 2 sample_boot sample_order))).

Lemma sample_indexed : indexed_by 2 sample_system.
Proof.
  repeat (apply indexed_step; [|vm_compute; done]). apply indexed_start. split.
  - apply (bool_decide_unpack _). vm_compute. done.
  - apply (bool_decide_unpack _). vm_compute. done.
  - intros b Hb. repeat (apply elem_of_cons in Hb as [->|Hb]; [cbn; lia|]). by apply not_elem_of_nil in Hb.
  - done.
Qed.

Lemma sample_current :
  (t ← tables sample_system !! 0; sl ← slots t !! [x01]; slot_current sl) = Some 9.
Proof. vm_compute. done. Qed.

