(* ===== verification/Probes.v ===== *)
(** * Authenticated path probes (node/src/disco.rs, node/src/util.rs)

    A disco datagram is [fpd1 ‖ frame ‖ MAC16] under the static secret of the two peers.
    [Probes] is the replay state of one peer: the pings it has accepted and the probes
    it has outstanding; [Routes] is shared by all peers and tells the UDP reader which
    peer an outstanding probe belongs to. *)

From S2P Require Import Prelude.
From S2P Require Import Words.
From S2P Require Import NetAddr.
From S2P Require Import Disco.
From S2P Require Import CryptoError.
From S2P Require Import Crypto.

Definition T_HANDSHAKE_INIT : byte := x01.
Definition T_HANDSHAKE_RESP : byte := x02.
Definition T_DATA : byte := x04.
Definition LIVENESS_DEAD_SECS : Z := 5.
Definition REKEY_AFTER_SECS : Z := 120.
Definition DISCO_MAGIC : list byte := [x66; x70; x64; x31].
Definition DISCO_MAC_LEN : Z := 16.
Definition DISCO_REPLAY_WINDOW_SECS : Z := 30.

Definition disco_dgram (msg : Disco) : list byte := DISCO_MAGIC ++ encode msg.

(** [b.get(a..b)]. *)
Definition get_range {A} (a b : Z) (l : list A) : option (list A) :=
  match slice (E:=unit) a b l with Ok s => Some s | _ => None end.

Definition le_u32 (b : list byte) (off : Z) : option Z := le_val <$> get_range off (off + 4) b.

(** [bytes.strip_prefix(prefix)]. *)
Fixpoint strip_prefix (prefix bytes : list byte) : option (list byte) :=
  match prefix, bytes with
  | [], _ => Some bytes
  | p :: prefix, b :: bytes => if bool_decide (p = b) then strip_prefix prefix bytes else None
  | _ :: _, [] => None
  end.

Definition ct_eq (a b : list byte) : bool :=
  if negb (len a =? len b) then false
  else foldl (fun diff '(x, y) => Z.lor diff (Z.lxor (b2z x) (b2z y))) 0 (zip a b) =? 0.

Section Auth.
Context `{Crypto}.

Definition disco_shared (own_priv peer_pub : list byte) : list byte := dh own_priv peer_pub.

Definition auth_disco_dgram (disco_key : list byte) (msg : Disco) : list byte :=
  let out := disco_dgram msg in out ++ disco_mac disco_key out.

Definition disco_authed (disco_key dgram body : list byte) (used : Z) : bool :=
  match get_range used (used + DISCO_MAC_LEN) body with
  | None => false
  | Some tag =>
      match get_prefix (len DISCO_MAGIC + used) dgram with
      | None => false
      | Some macced => ct_eq tag (disco_mac disco_key macced)
      end
  end.
End Auth.

(** Unsigned [u64] arithmetic on times. *)
Definition U64_MAX : Z := 2 ^ 64 - 1.
Definition saturating_add (a b : Z) : Z := Z.min (a + b) U64_MAX.
Definition abs_diff (a b : Z) : Z := Z.abs (a - b).

Definition disco_replay_ok (tx_id : list byte) (now : Z) : bool :=
  abs_diff now (be_val (take 8 tx_id)) <=? DISCO_REPLAY_WINDOW_SECS.

(** ** Replay and outstanding-probe state *)

Definition CAPACITY : nat := 128.

Abbreviation TxId := (list byte).
Abbreviation PeerKey := (list byte).
Abbreviation Routes := (gmap TxId (PeerKey * Z)).

Definition routes_owner (routes : Routes) (id : TxId) (now : Z) : option PeerKey :=
  match routes !! id with
  | Some (peer, expiry) => if now <=? expiry then Some peer else None
  | None => None
  end.

(** [timestamp]: the first eight bytes. *)
Definition timestamp (id : TxId) : option Z := be_val <$> get_prefix 8 id.

Record Probes := mkProbes {
  seen : gmap TxId Z;
  pending : gmap TxId (list SocketAddr * Z)
}.

Definition probes_default : Probes := mkProbes ∅ ∅.

Definition accept_ping (id : TxId) (now : Z) (p : Probes) : bool * Probes :=
  let sn := filter (fun '(_, expires) => now ≤ expires) (seen p) in
  match timestamp id with
  | None => (false, mkProbes sn (pending p))
  | Some sent =>
      if (DISCO_REPLAY_WINDOW_SECS <? abs_diff now sent) || bool_decide (is_Some (sn !! id)) ||
         bool_decide (CAPACITY ≤ size sn)%nat
      then (false, mkProbes sn (pending p))
      else (true, mkProbes (<[id := saturating_add sent DISCO_REPLAY_WINDOW_SECS]> sn) (pending p))
  end.

(** [start]; [random] is what [getrandom] fills the last four bytes with, if it can. *)
Definition start (peer : PeerKey) (targets : list SocketAddr) (now : Z) (random : option (list byte))
    (x : Probes * Routes) : option TxId * (Probes * Routes) :=
  let '(p, routes) := x in
  let pd := filter (fun '(_, (_, expires)) => now ≤ expires) (pending p) in
  let p := mkProbes (seen p) pd in
  if bool_decide (targets = []) || bool_decide (CAPACITY ≤ size pd)%nat then (None, (p, routes))
  else match random with
  | None => (None, (p, routes))
  | Some random =>
      let id := be_bytes 8 now ++ random in
      let routes := filter (fun '(_, (_, expires)) => now ≤ expires) routes in
      if bool_decide (is_Some (routes !! id)) then (None, (p, routes))
      else
        let expires := saturating_add now DISCO_REPLAY_WINDOW_SECS in
        (Some id, (mkProbes (seen p) (<[id := (targets, expires)]> pd), <[id := (peer, expires)]> routes))
  end.

Definition is_pending (id : TxId) (from : SocketAddr) (now : Z) (p : Probes) : bool :=
  match pending p !! id with
  | Some (targets, expires) => (now <=? expires) && bool_decide (from ∈ targets)
  | None => false
  end.

Definition finish (id : TxId) (from : SocketAddr) (now : Z) (x : Probes * Routes)
    : bool * (Probes * Routes) :=
  let '(p, routes) := x in
  if negb (is_pending id from now p) then (false, (p, routes))
  else (true, (mkProbes (seen p) (delete id (pending p)), delete id routes)).

(** [Drop for Peer]: the routes of the peer go with it. *)
Definition drop_routes (pubkey : PeerKey) (routes : Routes) : Routes :=
  filter (fun '(_, (peer, _)) => peer ≠ pubkey) routes.

(** ** Runs of one peer and of the node

    A ping is a transaction id and the time it arrives at; [pings] is the replay state
    at work on a sequence of them. *)

Fixpoint pings (l : list (TxId * Z)) (p : Probes) : list bool :=
  match l with
  | [] => []
  | (id, now) :: l => let '(b, p) := accept_ping id now p in b :: pings l p
  end.

(** The last second a transaction id is inside the acceptance window. *)
Definition expiry (id : TxId) : option Z :=
  (fun sent => saturating_add sent DISCO_REPLAY_WINDOW_SECS) <$> timestamp id.

Definition in_window (now : Z) (id : TxId) : bool :=
  match expiry id with Some e => now <=? e | None => false end.

(** The policy, on the whole history [h] of accepted ids: a fresh timestamp, an id that
    was never accepted, and fewer than [CAPACITY] accepted ids still in the window. *)
Definition ping_allowed (h : gset TxId) (id : TxId) (now : Z) : bool :=
  match timestamp id with
  | None => false
  | Some sent =>
      (abs_diff now sent <=? DISCO_REPLAY_WINDOW_SECS) && bool_decide (id ∉ h) &&
      bool_decide (size (filter (fun id => in_window now id = true) h) < CAPACITY)%nat
  end.

Fixpoint pings_spec (l : list (TxId * Z)) (h : gset TxId) : list bool :=
  match l with
  | [] => []
  | (id, now) :: l =>
      let b := ping_allowed h id now in b :: pings_spec l (if b then {[id]} ∪ h else h)
  end.

(** Readings of the wall clock that never go back. *)
Fixpoint clock_ok (t0 : Z) (l : list Z) : Prop :=
  match l with [] => True | t :: l => t0 ≤ t ≤ U64_MAX ∧ clock_ok t l end.

(** All the peers of a node beside the shared routes, with what happened so far (the
    latest event first). *)
Inductive ProbeEvent :=
| Started (pk : PeerKey) (id : TxId) (targets : list SocketAddr) (now : Z)
| Validated (pk : PeerKey) (id : TxId) (from : SocketAddr) (now : Z).

Record ProbeSys := mkProbeSys {
  ps_peers : gmap PeerKey Probes;
  ps_routes : Routes;
  ps_now : Z;
  ps_log : list ProbeEvent
}.

Inductive ProbeOp :=
| PAdd (pk : PeerKey)
| PRemove (pk : PeerKey)
| PPing (pk : PeerKey) (id : TxId)
| PStart (pk : PeerKey) (targets : list SocketAddr) (random : option (list byte))
| PFinish (pk : PeerKey) (id : TxId) (from : SocketAddr).

Definition probe_step (op : ProbeOp) (now : Z) (s : ProbeSys) : ProbeSys :=
  let '(mkProbeSys ps rs _ log) := s in
  match op with
  | PAdd pk =>
      match ps !! pk with
      | Some _ => mkProbeSys ps rs now log
      | None => mkProbeSys (<[pk := probes_default]> ps) rs now log
      end
  | PRemove pk => mkProbeSys (delete pk ps) (drop_routes pk rs) now log
  | PPing pk id =>
      match ps !! pk with
      | Some p => mkProbeSys (<[pk := (accept_ping id now p).2]> ps) rs now log
      | None => mkProbeSys ps rs now log
      end
  | PStart pk targets random =>
      match ps !! pk with
      | Some p =>
          let '(o, (p, rs)) := start pk targets now random (p, rs) in
          mkProbeSys (<[pk := p]> ps) rs now
            (match o with Some id => Started pk id targets now :: log | None => log end)
      | None => mkProbeSys ps rs now log
      end
  | PFinish pk id from =>
      match ps !! pk with
      | Some p =>
          let '(b, (p, rs)) := finish id from now (p, rs) in
          mkProbeSys (<[pk := p]> ps) rs now (if b then Validated pk id from now :: log else log)
      | None => mkProbeSys ps rs now log
      end
  end.

Inductive probing : ProbeSys → Prop :=
| probing_start now : 0 ≤ now → probing (mkProbeSys ∅ ∅ now [])
| probing_step op now s : probing s → ps_now s ≤ now ≤ U64_MAX → probing (probe_step op now s).

(** The outstanding probe behind an entry: it was started, to these targets, and has
    not validated a path since. *)
Definition outstanding (log : list ProbeEvent) (pk : PeerKey) (id : TxId)
    (targets : list SocketAddr) (expires : Z) : Prop :=
  ∃ l1 l2 now, log = l1 ++ Started pk id targets now :: l2 ∧
    expires = saturating_add now DISCO_REPLAY_WINDOW_SECS ∧
    ∀ from t, Validated pk id from t ∉ l1.

Record probes_ok (s : ProbeSys) : Prop := {
  po_routes id pk e : ps_now s ≤ e →
    ps_routes s !! id = Some (pk, e) ↔
    ∃ p ts, ps_peers s !! pk = Some p ∧ pending p !! id = Some (ts, e);
  po_log pk p id ts e :
    ps_peers s !! pk = Some p → pending p !! id = Some (ts, e) → outstanding (ps_log s) pk id ts e;
  po_started pk id ts now : Started pk id ts now ∈ ps_log s → now ≤ ps_now s;
  po_size pk p : ps_peers s !! pk = Some p →
    (size (seen p) ≤ CAPACITY)%nat ∧ (size (pending p) ≤ CAPACITY)%nat
}.

(** ** Proofs: authentication *)

Lemma ct_eq_spec a b : ct_eq a b = true ↔ a = b.
Proof.
  unfold ct_eq. assert (∀ l d, 0 ≤ d → foldl (fun diff '(x, y) => Z.lor diff (Z.lxor (b2z x) (b2z y))) d l = 0 ↔
    d = 0 ∧ Forall (fun '(x, y) => x = y) l) as Hf.
  { induction l as [|[x y] l IH]; intros d Hd; cbn.
    - split; [by intros ->|by intros [-> _]].
    - pose proof (b2z_range x). pose proof (b2z_range y).
      rewrite IH by (apply Z.lor_nonneg; split; [done|apply Z.lxor_nonneg; lia]).
      rewrite Z.lor_eq_0_iff, Z.lxor_eq_0_iff, list.Forall_cons. split.
      + intros [[-> ?%b2z_inj] ?]. done.
      + intros (-> & -> & ?). done. }
  destruct (Z.eqb_spec (len a) (len b)) as [Hl|Hl]; cbn [negb]; [|split; [done|by intros ->]].
  rewrite Z.eqb_eq, Hf by done. split.
  - intros [_ Hz]. apply list_eq_same_length with (length a); [unfold len in Hl; lia|done|].
    intros i x y _ Hx Hy. rewrite Forall_lookup in Hz. apply (Hz i (x, y)).
    by rewrite lookup_zip_with, Hx; cbn; rewrite Hy.
  - intros ->. split; [done|]. apply Forall_lookup. intros i [x y]. rewrite lookup_zip_with.
    destruct (b !! i); cbn; congruence.
Qed.

Lemma strip_prefix_app p l : strip_prefix p (p ++ l) = Some l.
Proof. induction p as [|x p IH]; cbn; [done|]. by rewrite bool_decide_true. Qed.

Lemma strip_prefix_Some p l body : strip_prefix p l = Some body ↔ l = p ++ body.
Proof.
  split; [|intros ->; apply strip_prefix_app].
  revert l. induction p as [|x p IH]; intros [|y l]; cbn; try congruence.
  case_bool_decide as Hx; [|done]. subst. intros ->%IH. done.
Qed.

Section AuthProofs.
Context `{CryptoLaws}.

Lemma len_disco_mac k d : len (disco_mac k d) = 16.
Proof. apply len_keyed_mac. Qed.

(** A datagram is accepted under a key exactly when the sixteen bytes after the frame
    are the MAC of everything before them. *)
Lemma disco_authed_spec key body used :
  0 ≤ used →
  disco_authed key (DISCO_MAGIC ++ body) body used = true ↔
  ∃ frame rest, len frame = used ∧ body = frame ++ disco_mac key (DISCO_MAGIC ++ frame) ++ rest.
Proof.
  intros Hu. unfold disco_authed, get_range. split.
  - destruct (slice used (used + DISCO_MAC_LEN) body) as [tag| |] eqn:Hs; [|done..].
    destruct (get_prefix _ _) as [m|] eqn:Hm; [|done]. intros ->%ct_eq_spec.
    apply slice_inv in Hs as Hs'. destruct Hs' as (_ & Hb & _). unfold DISCO_MAC_LEN in *.
    exists (take (Z.to_nat used) body), (drop (Z.to_nat (used + 16)) body).
    split; [unfold len in *; rewrite length_take; lia|]. rewrite (slice_split _ _ _ _ Hs) at 1.
    do 3 f_equal. unfold get_prefix in Hm. case_if; [|done]. injection Hm as <-.
    replace (Z.to_nat (len DISCO_MAGIC + used)) with (length DISCO_MAGIC + Z.to_nat used)%nat
      by (unfold len; lia). done.
  - intros (frame & rest & <- & ->).
    rewrite (slice_app_mid frame) by (rewrite ?len_disco_mac; done).
    rewrite app_assoc, get_prefix_app by (by rewrite len_app). by apply ct_eq_spec.
Qed.

(** What one end sends the other end accepts: the key is the same at both. *)
Lemma disco_auth_roundtrip sa sb msg :
  msg_ok msg →
  let dgram := auth_disco_dgram (disco_shared sa (dh_public sb)) msg in
  ∃ body used, strip_prefix DISCO_MAGIC dgram = Some body ∧ decode body = Ok (msg, used) ∧
    disco_authed (disco_shared sb (dh_public sa)) dgram body used = true.
Proof.
  intros Hm dgram. exists (encode msg ++ disco_mac (disco_shared sa (dh_public sb)) (disco_dgram msg)), (len (encode msg)).
  assert (strip_prefix DISCO_MAGIC dgram = Some (encode msg ++ disco_mac (disco_shared sa (dh_public sb)) (disco_dgram msg)))
    as Hs by (unfold dgram, auth_disco_dgram, disco_dgram; by rewrite <-app_assoc, strip_prefix_app).
  split_and!; [done|by apply disco_read_back|].
  unfold dgram, auth_disco_dgram, disco_dgram, disco_shared. rewrite (dh_comm sb sa), <-app_assoc.
  apply disco_authed_spec; [apply len_nonneg|]. exists (encode msg), []. by rewrite app_nil_r.
Qed.
End AuthProofs.

(** ** Proofs: pings *)

Lemma timestamp_range id sent : timestamp id = Some sent → 0 ≤ sent < 2 ^ 64.
Proof.
  unfold timestamp. intros (l & Hl & ->)%fmap_Some. apply get_prefix_inv in Hl as (_ & Hl & _).
  pose proof (be_val_range l) as Hr. by rewrite Hl in Hr.
Qed.

(** What [seen] still has to remember at [t] of the history. *)
Definition remembers (h : gset TxId) (p : Probes) (t : Z) : Prop :=
  ∀ id e, t ≤ e → seen p !! id = Some e ↔ id ∈ h ∧ expiry id = Some e.

Lemma accept_ping_spec h p t id now :
  remembers h p t → t ≤ now ≤ U64_MAX →
  let '(b, p') := accept_ping id now p in
  b = ping_allowed h id now ∧ remembers (if b then {[id]} ∪ h else h) p' now.
Proof.
  intros Hr Ht. unfold accept_ping, ping_allowed. set (sn := filter _ (seen p)).
  assert (∀ id e, sn !! id = Some e ↔ (id ∈ h ∧ expiry id = Some e) ∧ now ≤ e) as Hsn.
  { intros i e. unfold sn. rewrite map_lookup_filter_Some. split.
    - intros [Hi He]. split; [|done]. apply Hr; [lia|done].
    - intros [Hi He]. split; [|done]. apply Hr; [lia|done]. }
  assert (∀ pd, remembers h (mkProbes sn pd) now) as Hkeep.
  { intros pd i e He. cbn. rewrite Hsn. tauto. }
  assert (size sn = size (filter (fun id => in_window now id = true) h)) as Hsize.
  { rewrite <-size_dom. f_equal. apply leibniz_equiv. intros i. rewrite elem_of_dom. unfold is_Some.
    setoid_rewrite Hsn. rewrite elem_of_filter. unfold in_window. split.
    - intros (e & [Hi He] & Hn). rewrite He. split; [by apply Z.leb_le|done].
    - intros [Hn Hi]. destruct (expiry i) as [e|]; [|done]. apply Z.leb_le in Hn. eauto. }
  destruct (timestamp id) as [sent|] eqn:Hts; [|by split].
  pose proof (timestamp_range _ _ Hts) as Hrange.
  assert (expiry id = Some (saturating_add sent DISCO_REPLAY_WINDOW_SECS)) as Hexp
    by (unfold expiry; by rewrite Hts).
  rewrite Hsize, Z.ltb_antisym. unfold DISCO_REPLAY_WINDOW_SECS, saturating_add, abs_diff, U64_MAX in *.
  destruct (Z.leb_spec (Z.abs (now - sent)) 30) as [Hw|Hw]; cbn [negb orb andb]; [|by split].
  assert (is_Some (sn !! id) ↔ id ∈ h) as Hmem.
  { split; [intros [e [[Hi _] _]%Hsn]; done|]. intros Hi. eexists. apply Hsn. split; [by split|]. lia. }
  rewrite (bool_decide_ext _ _ Hmem). destruct (decide (id ∈ h)) as [Hi|Hi].
  { rewrite (bool_decide_true (id ∈ h)), (bool_decide_false (id ∉ h)) by (by try intros []). by split. }
  rewrite (bool_decide_false (id ∈ h)), (bool_decide_true (id ∉ h)) by done. cbn [orb andb].
  destruct (decide (CAPACITY ≤ size (filter (fun id => in_window now id = true) h))%nat) as [Hc|Hc].
  { rewrite bool_decide_true, bool_decide_false by (done || lia). by split. }
  rewrite bool_decide_false, bool_decide_true by (done || lia). split; [done|].
  intros i e He. cbn. destruct (decide (id = i)) as [<-|Hne].
  - rewrite lookup_insert_eq, Hexp. split; [intros [= <-]; split; [|done]|intros [_ ?]; done].
    apply elem_of_union_l. by apply elem_of_singleton.
  - rewrite lookup_insert_ne, Hsn, elem_of_union, elem_of_singleton by done. intuition congruence.
Qed.

Lemma pings_spec_eq l : ∀ h p t,
  remembers h p t → clock_ok t l.*2 → pings l p = pings_spec l h.
Proof.
  induction l as [|[id now] l IH]; intros h p t Hr Hc; [done|]. cbn in Hc |- *.
  destruct Hc as [Ht Hc]. pose proof (accept_ping_spec h p t id now Hr Ht) as Ha.
  destruct (accept_ping id now p) as [b p']. destruct Ha as [-> Hr']. f_equal. by eapply IH.
Qed.

(** An id of the history is never accepted again. *)
Lemma pings_spec_seen l : ∀ h i id now,
  id ∈ h → l !! i = Some (id, now) → pings_spec l h !! i = Some false.
Proof.
  induction l as [|[id' now'] l IH]; intros h i id now Hid Hi; [done|].
  destruct i as [|i]; cbn in *.
  - injection Hi as -> ->. unfold ping_allowed. destruct (timestamp id); [|done].
    rewrite (bool_decide_false (id ∉ h)) by (by intros []). by rewrite andb_false_r.
  - eapply IH; [|done]. case_if; [|done]. by apply elem_of_union_r.
Qed.

(** Replayed pings are rejected.  For any sequence of pings at times that never go
    back, the bounded table of [accept_ping] decides exactly as the policy on the whole
    history does: a ping passes if and only if its timestamp is within the window, its
    id was never accepted before, and fewer than [CAPACITY] accepted ids are still in
    the window.  In particular no transaction id passes twice. *)
Lemma ping_replay_exact l t :
  clock_ok t l.*2 →
  pings l probes_default = pings_spec l ∅ ∧
  ∀ i j id ti tj, (i < j)%nat → l !! i = Some (id, ti) → l !! j = Some (id, tj) →
    pings l probes_default !! i = Some true → pings l probes_default !! j = Some false.
Proof.
  intros Hc. assert (pings l probes_default = pings_spec l ∅) as He.
  { apply (pings_spec_eq l ∅ _ t); [|done]. intros id e _. cbn. rewrite lookup_empty. split; [done|].
    by intros [?%not_elem_of_empty _]. }
  split; [done|]. rewrite He. clear He Hc. generalize (∅ : gset TxId).
  induction l as [|[id' now'] l IH]; intros h i j id ti tj Hij Hi Hj Hti; [done|].
  destruct j as [|j]; [lia|]. cbn in Hj. destruct i as [|i]; cbn in *.
  - injection Hi as -> ->. injection Hti as Hti. rewrite Hti. eapply pings_spec_seen; [|done].
    by apply elem_of_union_l, elem_of_singleton.
  - apply (IH _ i j id ti tj); [lia|done..].
Qed.

Definition sample_ping : TxId := be_bytes 8 1000 ++ [x01; x02; x03; x04].

(** ** Proofs: probes *)

#[local] Arguments start : simpl never.
#[local] Arguments finish : simpl never.

Lemma outstanding_cons log pk id ts e ev :
  (∀ from t, ev ≠ Validated pk id from t) → outstanding log pk id ts e → outstanding (ev :: log) pk id ts e.
Proof.
  intros Hev (l1 & l2 & now & -> & He & Hv). exists (ev :: l1), l2, now. split_and!; [done..|].
  intros from t [Heq|Hin]%elem_of_cons; [by eapply Hev|by eapply Hv].
Qed.

(** Steps that leave the outstanding probes and the log as they are. *)
Lemma probes_ok_frame ps ps' rs now now' log :
  now ≤ now' →
  (∀ pk p', ps' !! pk = Some p' → pending p' = ∅ ∨ ∃ p, ps !! pk = Some p ∧ pending p' = pending p) →
  (∀ pk p, ps !! pk = Some p → ∃ p', ps' !! pk = Some p' ∧ pending p' = pending p) →
  (∀ pk p', ps' !! pk = Some p' → (size (seen p') ≤ CAPACITY)%nat) →
  probes_ok (mkProbeSys ps rs now log) → probes_ok (mkProbeSys ps' rs now' log).
Proof.
  intros Hn Hback Hfwd Hs [Hr Hl Hst Hsz]. cbn in *. split; cbn.
  - intros id pk e He. rewrite Hr by lia. split.
    + intros (p & ts & Hp & Hpd). destruct (Hfwd _ _ Hp) as (p' & Hp' & Heq). exists p', ts. by rewrite Heq.
    + intros (p' & ts & Hp' & Hpd). destruct (Hback _ _ Hp') as [He'|(p & Hp & Heq)].
      * by rewrite He', lookup_empty in Hpd.
      * exists p, ts. by rewrite <-Heq.
  - intros pk p' id ts e Hp' Hpd. destruct (Hback _ _ Hp') as [He'|(p & Hp & Heq)].
    + by rewrite He', lookup_empty in Hpd.
    + rewrite Heq in Hpd. by eapply Hl.
  - intros pk id ts t Hin. specialize (Hst _ _ _ _ Hin). lia.
  - intros pk p' Hp'. split; [by eapply Hs|]. destruct (Hback _ _ Hp') as [->|(p & Hp & ->)].
    + by rewrite map_size_empty; unfold CAPACITY; lia.
    + by eapply Hsz.
Qed.

Lemma accept_ping_frame id now p :
  pending (accept_ping id now p).2 = pending p ∧
  ((size (seen p) ≤ CAPACITY)%nat → (size (seen (accept_ping id now p).2) ≤ CAPACITY)%nat).
Proof.
  unfold accept_ping. set (sn := filter _ (seen p)).
  assert ((size sn ≤ size (seen p))%nat) as Hsn
    by (rewrite <-!size_dom; apply subseteq_size, dom_filter_subseteq).
  destruct (timestamp id) as [sent|]; [|cbn; split; [done|lia]].
  destruct (_ <? _); [cbn; split; [done|lia]|]. cbn [orb].
  case_bool_decide as Hi; [cbn; split; [done|lia]|]. cbn [orb].
  case_bool_decide as Hc; cbn; [split; [done|lia]|]. split; [done|]. intros _.
  rewrite map_size_insert_None by (by apply eq_None_not_Some). lia.
Qed.

(** The outcome of [start]: the expired entries go, and one probe may come. *)
Lemma start_cases pk targets now random p rs o p' rs' :
  start pk targets now random (p, rs) = (o, (p', rs')) →
  seen p' = seen p ∧
  ((size (pending p) ≤ CAPACITY)%nat → (size (pending p') ≤ CAPACITY)%nat) ∧
  (∀ id x, now ≤ x.2 → rs' !! id = Some x → rs !! id = Some x ∨ o = Some id) ∧
  match o with
  | None => (∀ id x, pending p' !! id = Some x ↔ pending p !! id = Some x ∧ now ≤ x.2) ∧
      (∀ id x, now ≤ x.2 → rs' !! id = Some x ↔ rs !! id = Some x)
  | Some id => (∀ x, now ≤ x.2 → rs !! id ≠ Some x) ∧
      (∀ i x, i ≠ id → pending p' !! i = Some x ↔ pending p !! i = Some x ∧ now ≤ x.2) ∧
      (∀ i x, i ≠ id → now ≤ x.2 → rs' !! i = Some x ↔ rs !! i = Some x) ∧
      pending p' !! id = Some (targets, saturating_add now DISCO_REPLAY_WINDOW_SECS) ∧
      rs' !! id = Some (pk, saturating_add now DISCO_REPLAY_WINDOW_SECS)
  end.
Proof.
  unfold start. set (pd := filter _ (pending p)). set (rf := filter _ rs).
  assert (∀ id x, pd !! id = Some x ↔ pending p !! id = Some x ∧ now ≤ x.2) as Hpd.
  { intros id [ts e]. unfold pd. by rewrite map_lookup_filter_Some. }
  assert (∀ id x, rf !! id = Some x ↔ rs !! id = Some x ∧ now ≤ x.2) as Hrf.
  { intros id [k e]. unfold rf. by rewrite map_lookup_filter_Some. }
  assert ((size pd ≤ size (pending p))%nat) as Hsize
    by (rewrite <-!size_dom; apply subseteq_size, dom_filter_subseteq).
  destruct (_ || _) eqn:Hg; [intros [= <- <- <-]; cbn; split_and!; auto; lia || tauto|].
  apply orb_false_iff in Hg as [_ Hc]. apply bool_decide_eq_false in Hc.
  destruct random as [random|]; [|intros [= <- <- <-]; cbn; split_and!; auto; lia || tauto].
  case_bool_decide as Hin; [intros [= <- <- <-]; cbn; split_and!; [done|lia|..|done|]|intros [= <- <- <-]].
  - intros id x _ Hx%Hrf. tauto.
  - intros id x Hx. rewrite Hrf. tauto.
  - cbn. split_and!; [done|..].
    + intros _. rewrite map_size_insert. destruct (pd !! _); unfold id; lia.
    + intros i x Hx. destruct (decide (be_bytes 8 now ++ random = i)) as [<-|Hne]; [by right|].
      rewrite lookup_insert_ne by done. intros Hi%Hrf. left. tauto.
    + intros x Hx Hr. apply Hin. exists x. by apply Hrf.
    + intros i x Hne. by rewrite lookup_insert_ne by done.
    + intros i x Hne Hx. rewrite lookup_insert_ne, Hrf by done. tauto.
    + by rewrite lookup_insert_eq.
    + by rewrite lookup_insert_eq.
Qed.

Lemma probes_ok_start ps rs t log pk targets random now p :
  t ≤ now → now ≤ U64_MAX → ps !! pk = Some p →
  probes_ok (mkProbeSys ps rs t log) →
  probes_ok (probe_step (PStart pk targets random) now (mkProbeSys ps rs t log)).
Proof.
  intros Ht Hmax Hp [Hr Hl Hst Hsz]. cbn in *. rewrite Hp.
  destruct (start pk targets now random (p, rs)) as [o [p' rs']] eqn:Hs.
  apply start_cases in Hs as (Hseen & Hsize & Hnew & Hs). destruct (Hsz _ _ Hp) as [Hsz1 Hsz2].
  assert (∀ q q', <[pk := p']> ps !! q = Some q' →
    (size (seen q') ≤ CAPACITY)%nat ∧ (size (pending q') ≤ CAPACITY)%nat) as Hsz'.
  { intros q q'. destruct (decide (pk = q)) as [<-|Hne]; [rewrite lookup_insert_eq|rewrite lookup_insert_ne by done].
    - intros [= <-]. rewrite Hseen. auto.
    - apply Hsz. }
  destruct o as [id|]; split; cbn; try done.
  - destruct Hs as (Hfresh & Hpd & Hrs & Hpid & Hrid). intros i q e He. destruct (decide (id = i)) as [<-|Hi].
    + rewrite Hrid. split.
      * intros [= <- <-]. exists p', targets. by rewrite lookup_insert_eq.
      * intros (q' & ts & Hq & Hpq). destruct (decide (pk = q)) as [<-|Hne].
        -- rewrite lookup_insert_eq in Hq. injection Hq as <-. rewrite Hpid in Hpq. congruence.
        -- rewrite lookup_insert_ne in Hq by done. destruct (Hfresh (q, e)); [done|]. apply Hr; [lia|eauto].
    + rewrite (Hrs i (q, e)), Hr by (done || lia). destruct (decide (pk = q)) as [<-|Hne].
      * rewrite lookup_insert_eq, Hp. split; intros (q' & ts & [= <-] & Hq); eexists _, ts;
          (split; [done|]); [by apply Hpd|by apply Hpd in Hq as [? _]].
      * by rewrite lookup_insert_ne.
  - destruct Hs as (_ & Hpd & _ & Hpid & _). intros q q' i ts e Hq Hpq.
    destruct (decide (pk = q)) as [<-|Hne]; [rewrite lookup_insert_eq in Hq|rewrite lookup_insert_ne in Hq by done].
    + injection Hq as <-. destruct (decide (i = id)) as [->|Hi].
      * rewrite Hpid in Hpq. injection Hpq as <- <-. exists [], log, now. split_and!; [done..|].
        intros from t' []%not_elem_of_nil.
      * apply outstanding_cons; [done|]. apply Hpd in Hpq as [Hpq _]; [|done]. by eapply Hl.
    + apply outstanding_cons; [done|]. by eapply Hl.
  - intros q i ts t' [[= -> -> -> ->]|Hin]%elem_of_cons; [lia|]. specialize (Hst _ _ _ _ Hin). lia.
  - destruct Hs as [Hpd Hrs]. intros i q e He. rewrite (Hrs i (q, e)), Hr by (done || lia).
    destruct (decide (pk = q)) as [<-|Hne]; [|by rewrite lookup_insert_ne].
    rewrite lookup_insert_eq, Hp. split; intros (q' & ts & [= <-] & Hq); eexists _, ts;
      (split; [done|]); [by apply Hpd|by apply Hpd in Hq as [? _]].
  - destruct Hs as [Hpd _]. intros q q' i ts e Hq Hpq.
    destruct (decide (pk = q)) as [<-|Hne]; [rewrite lookup_insert_eq in Hq|rewrite lookup_insert_ne in Hq by done].
    + injection Hq as <-. apply Hpd in Hpq as [Hpq _]. by eapply Hl.
    + by eapply Hl.
  - intros q i ts t' Hin. specialize (Hst _ _ _ _ Hin). lia.
Qed.

Lemma is_pending_inv id from now p :
  is_pending id from now p = true →
  ∃ ts e, pending p !! id = Some (ts, e) ∧ now ≤ e ∧ from ∈ ts.
Proof.
  unfold is_pending. destruct (pending p !! id) as [[ts e]|]; [|done]. intros. bool_prop. by exists ts, e.
Qed.

Lemma probes_ok_finish ps rs t log pk id from now p :
  t ≤ now → now ≤ U64_MAX → ps !! pk = Some p →
  probes_ok (mkProbeSys ps rs t log) →
  probes_ok (probe_step (PFinish pk id from) now (mkProbeSys ps rs t log)).
Proof.
  intros Ht Hmax Hp [Hr Hl Hst Hsz]. cbn in *. rewrite Hp.
  unfold finish. destruct (is_pending id from now p) eqn:Hpend; cbn.
  2: { rewrite insert_id by done. split; cbn; try done; [intros; by apply Hr; lia|].
       intros q i ts t' Hin. specialize (Hst _ _ _ _ Hin). lia. }
  apply is_pending_inv in Hpend as (ts & e & Hpd & He & Hfrom).
  assert (rs !! id = Some (pk, e)) as Hrid by (apply Hr; [lia|eauto]).
  split; cbn.
  - intros i q e' He'. destruct (decide (id = i)) as [<-|Hi].
    + rewrite lookup_delete_eq. split; [done|]. intros (q' & ts' & Hq & Hpq).
      destruct (decide (pk = q)) as [<-|Hne].
      * rewrite lookup_insert_eq in Hq. injection Hq as <-. cbn in Hpq. by rewrite lookup_delete_eq in Hpq.
      * rewrite lookup_insert_ne in Hq by done.
        assert (rs !! id = Some (q, e')) as Hrid' by (apply Hr; [lia|eauto]). congruence.
    + rewrite lookup_delete_ne, Hr by (done || lia). destruct (decide (pk = q)) as [<-|Hne].
      * rewrite lookup_insert_eq, Hp. split; intros (q' & ts' & [= <-] & Hq); eexists _, ts';
          (split; [done|]); cbn in *; [by rewrite lookup_delete_ne|by rewrite lookup_delete_ne in Hq].
      * by rewrite lookup_insert_ne.
  - intros q q' i ts' e' Hq Hpq. destruct (decide (pk = q)) as [<-|Hne].
    + rewrite lookup_insert_eq in Hq. injection Hq as <-. cbn in Hpq.
      apply lookup_delete_Some in Hpq as [Hi Hpq]. apply outstanding_cons; [congruence|]. by eapply Hl.
    + rewrite lookup_insert_ne in Hq by done. apply outstanding_cons; [congruence|]. by eapply Hl.
  - intros q i ts' t' [?|Hin]%elem_of_cons; [done|]. specialize (Hst _ _ _ _ Hin). lia.
  - intros q q'. destruct (decide (pk = q)) as [<-|Hne]; [rewrite lookup_insert_eq|rewrite lookup_insert_ne by done].
    + intros [= <-]. cbn. destruct (Hsz _ _ Hp). split; [done|]. etrans; [|done].
      rewrite <-!size_dom. apply subseteq_size. rewrite dom_delete_L. by intros x [? _]%elem_of_difference.
    + apply Hsz.
Qed.

Lemma probes_ok_remove ps rs t log pk now :
  t ≤ now → probes_ok (mkProbeSys ps rs t log) →
  probes_ok (probe_step (PRemove pk) now (mkProbeSys ps rs t log)).
Proof.
  intros Ht [Hr Hl Hst Hsz]. split; cbn in *.
  - intros i q e He. unfold drop_routes. rewrite map_lookup_filter_Some, Hr by lia. split.
    + intros [(p & ts & Hp & Hpd) Hne]. exists p, ts. by rewrite lookup_delete_ne.
    + intros (p & ts & [Hne Hp]%lookup_delete_Some & Hpd). split; [by exists p, ts|done].
  - intros q p i ts e [_ Hp]%lookup_delete_Some. by eapply Hl.
  - intros q i ts t' Hin. specialize (Hst _ _ _ _ Hin). lia.
  - intros q p [_ Hp]%lookup_delete_Some. by eapply Hsz.
Qed.

Lemma probes_step_ok op now s :
  ps_now s ≤ now ≤ U64_MAX → probes_ok s → probes_ok (probe_step op now s).
Proof.
  destruct s as [ps rs t log]. cbn [ps_now]. intros Ht Hok.
  destruct op as [pk|pk|pk id|pk targets random|pk id from].
  - cbn. destruct (ps !! pk) as [p|] eqn:Hp; (eapply probes_ok_frame; [apply Ht|..|exact Hok]).
    + intros q p' Hq. right. by exists p'.
    + intros q p' Hq. by exists p'.
    + intros q p' Hq. by eapply Hok.
    + intros q p'. destruct (decide (pk = q)) as [<-|Hne].
      * rewrite lookup_insert_eq. intros [= <-]. by left.
      * rewrite lookup_insert_ne by done. intros Hq. right. by exists p'.
    + intros q p' Hq. exists p'. rewrite lookup_insert_ne by congruence. done.
    + intros q p'. destruct (decide (pk = q)) as [<-|Hne].
      * rewrite lookup_insert_eq. intros [= <-]. cbn. rewrite map_size_empty. unfold CAPACITY. lia.
      * rewrite lookup_insert_ne by done. by apply Hok.
  - apply probes_ok_remove; [lia|done].
  - cbn. destruct (ps !! pk) as [p|] eqn:Hp; (eapply probes_ok_frame; [apply Ht|..|exact Hok]).
    + intros q p'. destruct (decide (pk = q)) as [<-|Hne].
      * rewrite lookup_insert_eq. intros [= <-]. right. exists p. split; [done|]. apply accept_ping_frame.
      * rewrite lookup_insert_ne by done. intros Hq. right. by exists p'.
    + intros q p' Hq. destruct (decide (pk = q)) as [<-|Hne].
      * rewrite lookup_insert_eq. eexists. split; [done|]. rewrite Hp in Hq. injection Hq as <-.
        apply accept_ping_frame.
      * rewrite lookup_insert_ne by done. by exists p'.
    + intros q p'. destruct (decide (pk = q)) as [<-|Hne].
      * rewrite lookup_insert_eq. intros [= <-]. apply accept_ping_frame. by eapply Hok.
      * rewrite lookup_insert_ne by done. by apply Hok.
    + intros q p' Hq. right. by exists p'.
    + intros q p' Hq. by exists p'.
    + intros q p' Hq. by eapply Hok.
  - destruct (ps !! pk) as [p|] eqn:Hp; [eapply probes_ok_start; [lia|lia|done|done]|].
    cbn. rewrite Hp. eapply probes_ok_frame; [apply Ht|..|exact Hok]; eauto. by intros; eapply Hok.
  - destruct (ps !! pk) as [p|] eqn:Hp; [eapply probes_ok_finish; [lia|lia|done|done]|].
    cbn. rewrite Hp. eapply probes_ok_frame; [apply Ht|..|exact Hok]; eauto. by intros; eapply Hok.
Qed.

Lemma probing_ok s : probing s → probes_ok s.
Proof.
  induction 1 as [now Hn|op now s _ IH Ht]; [|by apply probes_step_ok]. split; cbn.
  - intros id pk e _. rewrite lookup_empty. split; [done|]. intros (p & ts & Hp & _). by rewrite lookup_empty in Hp.
  - intros pk p id ts e Hp. by rewrite lookup_empty in Hp.
  - intros pk id ts t []%not_elem_of_nil.
  - intros pk p Hp. by rewrite lookup_empty in Hp.
Qed.

(** A validation in the log answers a probe of its own. *)
Definition answered (log : list ProbeEvent) : Prop :=
  ∀ l1 l2 pk id from now, log = l1 ++ Validated pk id from now :: l2 →
    ∃ targets t0, outstanding l2 pk id targets (saturating_add t0 DISCO_REPLAY_WINDOW_SECS) ∧
      from ∈ targets ∧ Started pk id targets t0 ∈ l2 ∧ t0 ≤ now ≤ t0 + DISCO_REPLAY_WINDOW_SECS.

Lemma answered_cons ev log :
  answered log →
  (∀ pk id from now, ev = Validated pk id from now →
    ∃ targets t0, outstanding log pk id targets (saturating_add t0 DISCO_REPLAY_WINDOW_SECS) ∧
      from ∈ targets ∧ Started pk id targets t0 ∈ log ∧ t0 ≤ now ≤ t0 + DISCO_REPLAY_WINDOW_SECS) →
  answered (ev :: log).
Proof.
  intros Ha Hev [|ev' l1] l2 pk id from now; cbn; intros [= -> ->]; [by apply Hev|by eapply Ha].
Qed.

Lemma probing_answered s : probing s → answered (ps_log s).
Proof.
  induction 1 as [now Hn|op now s Hs IH Ht]; [intros [|] ?; done|].
  pose proof (probing_ok s Hs) as Hok. destruct s as [ps rs t log]. cbn [ps_log ps_now] in *.
  destruct op as [pk|pk|pk id|pk targets random|pk id from]; cbn; try (destruct (ps !! pk) as [p|] eqn:Hp); try done.
  - destruct (start _ _ _ _ _) as [[id|] [p' rs']]; cbn; [|done]. by apply answered_cons.
  - unfold finish. destruct (is_pending id from now p) eqn:Hpend; cbn; [|done].
    apply is_pending_inv in Hpend as (ts & e & Hpd & He & Hfrom).
    apply answered_cons; [done|]. intros pk' id' from' now' [= <- <- <- <-].
    pose proof (po_log _ Hok pk p id ts e Hp Hpd) as (l1 & l2 & t0 & Hlog & -> & Hv). cbn in Hlog.
    assert (Started pk id ts t0 ∈ log) as Hin by (rewrite Hlog; apply elem_of_app; right; apply elem_of_cons; by left).
    pose proof (po_started _ Hok _ _ _ _ Hin) as Ht0. cbn in Ht0.
    exists ts, t0. split_and!; [by exists l1, l2, t0|done|done|lia|].
    unfold saturating_add in He. lia.
Qed.

(** Only an answer to our own probe validates a path.  In every state the probes of
    a node reach under a clock that never goes back: the shared routes send a pong to
    exactly the peer that has the probe outstanding and not expired; a path is validated
    only by a probe of that peer that was sent to that very address at most
    [DISCO_REPLAY_WINDOW_SECS] before and has validated nothing since, so a captured
    pong cannot be used twice; and the tables of a peer never exceed [CAPACITY]. *)
Lemma probe_validation s :
  probing s →
  (∀ id now pk, ps_now s ≤ now →
    routes_owner (ps_routes s) id now = Some pk ↔
    ∃ p ts e, ps_peers s !! pk = Some p ∧ pending p !! id = Some (ts, e) ∧ now ≤ e) ∧
  answered (ps_log s) ∧
  (∀ pk p, ps_peers s !! pk = Some p →
    (size (seen p) ≤ CAPACITY)%nat ∧ (size (pending p) ≤ CAPACITY)%nat).
Proof.
  intros Hs. pose proof (probing_ok s Hs) as Hok. split_and!; [|by apply probing_answered|apply Hok].
  intros id now pk Hn. unfold routes_owner. split.
  - destruct (ps_routes s !! id) as [[q e]|] eqn:Hr; [|done]. destruct (Z.leb_spec now e); [|done].
    intros [= ->]. apply (po_routes _ Hok) in Hr as (p & ts & Hp & Hpd); [|lia]. by exists p, ts, e.
  - intros (p & ts & e & Hp & Hpd & He).
    assert (ps_routes s !! id = Some (pk, e)) as -> by (apply (po_routes _ Hok); [lia|eauto]).
    by rewrite (proj2 (Z.leb_le _ _)).
Qed.

(** A probe to one address, answered from there. *)
Definition sample_target : SocketAddr := SockV4 16909060 51820.
Definition sample_probe : TxId := be_bytes 8 1000 ++ [x09; x09; x09; x09].
Definition sample_probing : ProbeSys :=
  probe_step (PFinish [x01] sample_probe sample_target) 1002
    (probe_step (PStart [x01] [sample_target] (Some [x09; x09; x09; x09])) 1000
      (probe_step (PAdd [x01]) 999 (mkProbeSys ∅ ∅ 999 []))).

Lemma sample_log :
  ps_log sample_probing =
  [Validated [x01] sample_probe sample_target 1002; Started [x01] sample_probe [sample_target] 1000].
Proof. vm_compute. reflexivity. Qed.

Lemma sample_probing_ok : probing sample_probing.
Proof. repeat (apply probing_step; [|vm_compute; split; congruence]). by apply probing_start. Qed.

