(* ===== verification/Gso.v ===== *)
(** * Send batching (node/src/gso.rs)

    [GsoBatch] gathers datagrams of one size for one destination and hands them to the
    kernel in one buffer, or one by one where the kernel refuses.  What the kernel does
    with a batch is an argument of [flush]; the datagrams put on the wire are its
    result, in order. *)

From S2P Require Import Prelude.
From S2P Require Import Words.
From S2P Require Import NetAddr.

Definition MAX_BATCH_BYTES : Z := 60 * 1024.

Abbreviation Datagram := (SocketAddr * list byte)%type.

Record GsoBatch := mkGso {
  gso_buf : list byte;
  gso_seg : Z;
  gso_dst : option SocketAddr;
  gso_count : Z;
  gso_ok : bool;
  gso_disabled : bool
}.

(** [new]; [disabled] is whether [FP_NOGSO=1] is set. *)
Definition gso_new (disabled : bool) : GsoBatch := mkGso [] 0 None 0 true disabled.

(** [slice::chunks(n)]: pieces of [n], the last one possibly shorter. *)
Fixpoint chunks_fuel {A} (fuel n : nat) (l : list A) : list (list A) :=
  match fuel, l with
  | S fuel, _ :: _ => take n l :: chunks_fuel fuel n (drop n l)
  | _, _ => []
  end.

(** Each piece takes at least one element, so the length is enough fuel. *)
Definition chunks {A} (n : nat) (l : list A) : list (list A) := chunks_fuel (length l) n l.

(** [send_segmented]: the kernel takes the buffer and a segment size and sends the
    pieces, or refuses the option, or the socket is gone (no fallback then). *)
Inductive Kernel := Segments | Refuses | SocketGone.

Definition send_segmented (k : Kernel) (buf : list byte) (seg : Z) (dst : SocketAddr)
    : bool * list Datagram :=
  match k with
  | Segments => (true, pair dst <$> chunks (Z.to_nat (wrap 16 seg)) buf)
  | Refuses => (false, [])
  | SocketGone => (true, [])
  end.

Definition send_split (buf : list byte) (seg : Z) (dst : SocketAddr) : list Datagram :=
  pair dst <$> chunks (Z.to_nat (Z.max seg 1)) buf.

Definition gso_flush (k : Kernel) (b : GsoBatch) : GsoBatch * list Datagram :=
  let '(mkGso buf seg dst count ok dis) := b in
  if count =? 0 then (b, []) else
  match dst with
  | None => (mkGso [] 0 None 0 ok dis, [])
  | Some dst =>
      if count =? 1 then (mkGso [] 0 None 0 ok dis, [(dst, buf)])
      else
        let '(sent, out) := if ok then send_segmented k buf seg dst else (false, []) in
        if sent then (mkGso [] 0 None 0 ok dis, out)
        else (mkGso [] 0 None 0 false dis, send_split buf seg dst)
  end.

(** [push]; [k1] and [k2] answer the flush before and the flush after. *)
Definition gso_push (k1 k2 : Kernel) (dst : SocketAddr) (pkt : list byte) (b : GsoBatch)
    : GsoBatch * list Datagram :=
  if gso_disabled b then (b, [(dst, pkt)]) else
  let '(b, out) :=
    if negb (bool_decide (gso_dst b = Some dst)) ||
       (0 <? gso_count b) && negb (len pkt =? gso_seg b) ||
       (MAX_BATCH_BYTES <? len (gso_buf b) + len pkt)
    then gso_flush k1 b else (b, []) in
  let '(seg, d) := if gso_count b =? 0 then (len pkt, Some dst) else (gso_seg b, gso_dst b) in
  let b := mkGso (gso_buf b ++ pkt) seg d (gso_count b + 1) (gso_ok b) (gso_disabled b) in
  if len pkt <? seg then let '(b, out') := gso_flush k2 b in (b, out ++ out') else (b, out).

(** ** Runs *)

Inductive GsoOp :=
| GPush (k1 k2 : Kernel) (dst : SocketAddr) (pkt : list byte)
| GFlush (k : Kernel).

Definition gso_op (o : GsoOp) : GsoBatch → GsoBatch * list Datagram :=
  match o with GPush k1 k2 dst pkt => gso_push k1 k2 dst pkt | GFlush k => gso_flush k end.

Fixpoint gso_run (l : list GsoOp) (b : GsoBatch) : GsoBatch * list Datagram :=
  match l with
  | [] => (b, [])
  | o :: l => let '(b, out) := gso_op o b in let '(b, out') := gso_run l b in (b, out ++ out')
  end.

(** The datagrams the caller asked for. *)
Definition requested (o : GsoOp) : list Datagram :=
  match o with GPush _ _ dst pkt => [(dst, pkt)] | GFlush _ => [] end.

(** The socket stays open and the datagrams are not empty (no WireGuard message is). *)
Definition gso_op_ok (o : GsoOp) : Prop :=
  match o with
  | GPush k1 k2 _ pkt => k1 ≠ SocketGone ∧ k2 ≠ SocketGone ∧ 0 < len pkt
  | GFlush k => k ≠ SocketGone
  end.

(** ** Proofs *)

#[local] Arguments chunks : simpl never.

(** The batch holds [segs], all of one non-zero size, for one destination; more than
    one only within the limit of a super-buffer. *)
Record holds (b : GsoBatch) (queued : list Datagram) : Prop := {
  ho_dst d pkt : (d, pkt) ∈ queued → gso_dst b = Some d ∧ len pkt = gso_seg b ∧ 0 < len pkt;
  ho_buf : gso_buf b = concat queued.*2;
  ho_count : gso_count b = len queued;
  ho_max : 1 < gso_count b → len (gso_buf b) ≤ MAX_BATCH_BYTES;
  ho_disabled : gso_disabled b = true → queued = []
}.

Lemma chunks_concat {A} n (ps : list (list A)) :
  (0 < n)%nat → (∀ p, p ∈ ps → length p = n) → chunks n (concat ps) = ps.
Proof.
  intros Hn. unfold chunks.
  assert (∀ fuel (ps : list (list A)), (length (concat ps) ≤ fuel)%nat → (∀ p, p ∈ ps → length p = n) →
    chunks_fuel fuel n (concat ps) = ps) as Hg; [|intros; apply Hg; [lia|done]].
  clear ps. induction fuel as [|fuel IH]; intros [|p ps] Hf Hp; cbn [concat] in *; try done.
  - rewrite length_app, (Hp p) in Hf by apply list_elem_of_here. lia.
  - pose proof (Hp p (list_elem_of_here _ _)) as Hl. destruct p as [|x p]; [cbn in Hl; lia|].
    cbn [app chunks_fuel]. change (x :: p ++ concat ps) with ((x :: p) ++ concat ps).
    rewrite take_app_length', drop_app_length' by done. f_equal. rewrite length_app, Hl in Hf.
    apply IH; [lia|]. intros q Hq. apply Hp. by apply elem_of_cons; right.
Qed.

Lemma holds_chunks b queued d n :
  holds b queued → gso_dst b = Some d → queued ≠ [] → n = Z.to_nat (gso_seg b) →
  pair d <$> chunks n (gso_buf b) = queued.
Proof.
  intros [Hd Hb _ _ _] Hdst Hne ->. rewrite Hb.
  assert (0 < gso_seg b) as Hpos.
  { destruct queued as [|[d' p] q]; [done|]. destruct (Hd d' p (list_elem_of_here _ _)) as (_ & <- & ?). done. }
  rewrite chunks_concat; [|lia|].
  - rewrite <-list_fmap_compose. rewrite <-(list_fmap_id queued) at 2. apply list_fmap_ext.
    intros i [d' p] Hi%list_elem_of_lookup_2. cbn. destruct (Hd _ _ Hi) as [Hd' _]. congruence.
  - intros p ([d' p'] & -> & Hin)%list_elem_of_fmap. destruct (Hd _ _ Hin) as (_ & Hl & _).
    cbn. unfold len in Hl. lia.
Qed.

Lemma holds_empty ok dis : holds (mkGso [] 0 None 0 ok dis) [].
Proof. split; cbn; try done. intros d pkt []%not_elem_of_nil. Qed.

(** Flushing sends what the batch holds, whatever the kernel answers. *)
Lemma gso_flush_sends k b queued :
  k ≠ SocketGone → holds b queued →
  let '(b', out) := gso_flush k b in
  out = queued ∧ holds b' [] ∧ gso_count b' = 0 ∧ gso_disabled b' = gso_disabled b.
Proof.
  intros Hk Hh. pose proof Hh as [Hd Hb Hc Hm _]. destruct b as [buf seg dst count ok dis]. cbn in *.
  destruct (Z.eqb_spec count 0) as [->|Hc0].
  { destruct queued; [done|]. rewrite len_cons in Hc. pose proof (len_nonneg queued). lia. }
  destruct queued as [|[d p] q]; [done|]. destruct (Hd d p (list_elem_of_here _ _)) as (-> & <- & Hp).
  destruct (Z.eqb_spec count 1) as [->|Hc1].
  { destruct q as [|y q]; [|rewrite !len_cons in Hc; pose proof (len_nonneg q); lia].
    split_and!; [|apply holds_empty|done..]. by rewrite Hb; cbn; rewrite app_nil_r. }
  assert (1 < count) as Hc2 by (pose proof (len_nonneg q); rewrite len_cons in Hc; lia).
  specialize (Hm Hc2). rewrite Hb in Hm. cbn in Hm. rewrite len_app in Hm.
  pose proof (len_nonneg (concat q.*2)). unfold MAX_BATCH_BYTES in Hm.
  pose proof (fun n => holds_chunks _ _ d n Hh eq_refl ltac:(done)) as Hch. cbn in Hch.
  assert (send_split buf (len p) d = (d, p) :: q) as Hsplit by (unfold send_split; apply Hch; lia).
  destruct ok; [destruct k; [| |done]|]; cbn; try (split_and!; [done|apply holds_empty|done..]).
  rewrite Hch by (by rewrite wrap_id by (unfold fits; lia)). split_and!; [done|apply holds_empty|done..].
Qed.

(** A packet joins the batch without leaving its size class. *)
Lemma holds_snoc b queued d pkt :
  holds b queued → gso_disabled b = false → 0 < len pkt →
  (0 < gso_count b → gso_dst b = Some d ∧ len pkt = gso_seg b ∧
    len (gso_buf b) + len pkt ≤ MAX_BATCH_BYTES) →
  let '(seg, d') := if gso_count b =? 0 then (len pkt, Some d) else (gso_seg b, gso_dst b) in
  len pkt = seg ∧
  holds (mkGso (gso_buf b ++ pkt) seg d' (gso_count b + 1) (gso_ok b) (gso_disabled b)) (queued ++ [(d, pkt)]).
Proof.
  intros [Hd Hb Hc Hm Hdis] Hnd Hpkt Hfit. pose proof (len_nonneg queued) as Hq.
  destruct (Z.eqb_spec (gso_count b) 0) as [H0|H0].
  - assert (queued = []) as -> by (destruct queued; [done|]; rewrite len_cons in Hc; pose proof (len_nonneg queued); lia).
    split; [done|]. split; cbn in *.
    + intros d' p' [= -> ->]%list_elem_of_singleton. done.
    + rewrite Hb. by rewrite app_nil_r.
    + rewrite H0. done.
    + lia.
    + congruence.
  - destruct Hfit as (Hdst & Hl & Hmax); [lia|]. split; [done|]. split; cbn in *.
    + intros d' p' [Hin|[= -> ->]%list_elem_of_singleton]%elem_of_app; [by apply Hd|done].
    + rewrite Hb, fmap_app, concat_app. cbn. by rewrite app_nil_r.
    + rewrite len_app, len_cons, len_nil. lia.
    + rewrite len_app. lia.
    + congruence.
Qed.

Lemma gso_push_sends k1 k2 dst pkt b queued :
  k1 ≠ SocketGone → holds b queued → 0 < len pkt →
  let '(b', out) := gso_push k1 k2 dst pkt b in
  ∃ queued', holds b' queued' ∧ out ++ queued' = queued ++ [(dst, pkt)].
Proof.
  intros Hk1 Hh Hpkt. unfold gso_push. destruct (gso_disabled b) eqn:Hdis.
  { pose proof (ho_disabled _ _ Hh Hdis) as ->. by exists []. }
  destruct (_ || _) eqn:Hg.
  - pose proof (gso_flush_sends k1 b queued Hk1 Hh) as Hf. destruct (gso_flush k1 b) as [b1 out].
    destruct Hf as (-> & Hh1 & Hc1 & Hd1).
    pose proof (holds_snoc b1 [] dst pkt Hh1 ltac:(congruence) Hpkt ltac:(lia)) as Hs.
    destruct (if gso_count b1 =? 0 then _ else _) as [seg d]. destruct Hs as [<- Hs].
    rewrite Z.ltb_irrefl. eexists. split; [exact Hs|done].
  - bool_prop. rewrite andb_false_iff in *. 
    assert (0 < gso_count b → gso_dst b = Some dst ∧ len pkt = gso_seg b ∧
      len (gso_buf b) + len pkt ≤ MAX_BATCH_BYTES) as Hfit.
    { intros Hc. destruct H1 as [H1|H1]; bool_prop; [lia|]. done. }
    pose proof (holds_snoc b queued dst pkt Hh Hdis Hpkt Hfit) as Hs.
    destruct (if gso_count b =? 0 then _ else _) as [seg d]. destruct Hs as [<- Hs].
    rewrite Z.ltb_irrefl. eexists. split; [exact Hs|done].
Qed.

(** C32.  Batching is invisible on the wire: whatever the kernel accepts or refuses, and
    with batching disabled or not, a run of pushes and flushes that ends in a flush puts
    on the wire exactly the datagrams that were pushed, each to its own destination,
    unchanged and in order. *)
Theorem gso_transparent dis k l :
  Forall gso_op_ok (l ++ [GFlush k]) →
  (gso_run (l ++ [GFlush k]) (gso_new dis)).2 = l ≫= requested.
Proof.
  assert (∀ l b queued, holds b queued → Forall gso_op_ok (l ++ [GFlush k]) →
    (gso_run (l ++ [GFlush k]) b).2 = queued ++ (l ≫= requested)) as Hg.
  { clear. induction l as [|o l IH]; intros b queued Hh [Ho Hl]%Forall_cons_1; cbn [gso_run app].
    - cbn. pose proof (gso_flush_sends k b queued Ho Hh) as Hf.
      destruct (gso_flush k b) as [b' out]. cbn. destruct Hf as (-> & _). by rewrite !app_nil_r.
    - rewrite bind_cons. destruct o as [k1 k2 dst pkt|k']; cbn [gso_op requested].
      + destruct Ho as (Hk1 & _ & Hpkt).
        pose proof (gso_push_sends k1 k2 dst pkt b queued Hk1 Hh Hpkt) as Hp.
        destruct (gso_push k1 k2 dst pkt b) as [b' out]. destruct Hp as (queued' & Hh' & Heq).
        specialize (IH b' queued' Hh' Hl). destruct (gso_run _ b') as [b'' out']. cbn in *.
        rewrite IH, app_assoc, Heq. by rewrite <-app_assoc.
      + pose proof (gso_flush_sends k' b queued Ho Hh) as Hf. destruct (gso_flush k' b) as [b' out].
        destruct Hf as (-> & Hh' & _). specialize (IH b' [] Hh' Hl).
        destruct (gso_run _ b') as [b'' out']. cbn in *. by rewrite IH. }
  intros Hl. apply (Hg l _ []); [|done]. unfold gso_new. split; cbn; try done. intros d pkt []%not_elem_of_nil.
Qed.

Lemma gso_transparent_witness :
  let a := SockV4 1 2 in let p := [x04; x01] in
  (gso_run ([GPush Segments Segments a p; GPush Segments Segments a p;
             GPush Refuses Segments (SockV4 1 3) p] ++ [GFlush Refuses]) (gso_new false)).2 =
  [(a, p); (a, p); (SockV4 1 3, p)].
Proof.
  intros a p. rewrite (gso_transparent false Refuses); [reflexivity|].
  repeat (apply Forall_cons; [cbn; done|]). by apply Forall_nil.
Defined.
