(* ===== verification/Peer.v ===== *)
(** * Peers of the data plane (node/src/peer.rs, node/src/status.rs)

    [Peer] is the session and path state of one peer, with the shared [PeerStat] it
    publishes.  The code runs in a worker: [Worker] is the state it changes, [Reading]
    what one look at the outside world returns (clocks, randomness, whether a relay is
    available, the current route table, what the kernel does with a batch), and
    [M] the monad of computations that read, change the worker, send and may panic.
    Every look takes the next reading of an arbitrary sequence. *)

From S2P Require Import Prelude.
From S2P Require Import Words.
From S2P Require Import NetAddr.
From S2P Require Import Disco.
From S2P Require Import CryptoError.
From S2P Require Import Crypto.
From S2P Require Import Instant.
From S2P Require Import Cryptor.
From S2P Require Import Prefix.
From S2P Require Import RouteTable.
From S2P Require Import IndexTable.
From S2P Require Import Probes.
From S2P Require Import Gso.

(** ** Status (status.rs) *)

Definition T_NONE : Z := 0.
Definition T_UDP_DIRECT : Z := 1.
Definition T_TCP_DIRECT : Z := 2.
Definition T_RELAY : Z := 3.

Record PeerStat := mkStat {
  s_rx_bytes : Z;
  s_tx_bytes : Z;
  s_rx_source_drops : Z;
  s_last_handshake_unix : Z;
  s_rtt_us : Z;
  s_transport : Z;
  s_endpoint : option SocketAddr;
  s_allowed_ips : list string
}.

Definition set_s_rx_bytes (v : Z) (s : PeerStat) : PeerStat :=
  mkStat v (s_tx_bytes s) (s_rx_source_drops s) (s_last_handshake_unix s) (s_rtt_us s) (s_transport s)
    (s_endpoint s) (s_allowed_ips s).
Definition set_s_tx_bytes (v : Z) (s : PeerStat) : PeerStat :=
  mkStat (s_rx_bytes s) v (s_rx_source_drops s) (s_last_handshake_unix s) (s_rtt_us s) (s_transport s)
    (s_endpoint s) (s_allowed_ips s).
Definition set_s_rx_source_drops (v : Z) (s : PeerStat) : PeerStat :=
  mkStat (s_rx_bytes s) (s_tx_bytes s) v (s_last_handshake_unix s) (s_rtt_us s) (s_transport s)
    (s_endpoint s) (s_allowed_ips s).
Definition set_s_last_handshake_unix (v : Z) (s : PeerStat) : PeerStat :=
  mkStat (s_rx_bytes s) (s_tx_bytes s) (s_rx_source_drops s) v (s_rtt_us s) (s_transport s) (s_endpoint
    s) (s_allowed_ips s).
Definition set_s_rtt_us (v : Z) (s : PeerStat) : PeerStat :=
  mkStat (s_rx_bytes s) (s_tx_bytes s) (s_rx_source_drops s) (s_last_handshake_unix s) v (s_transport s)
    (s_endpoint s) (s_allowed_ips s).
Definition set_s_transport (v : Z) (s : PeerStat) : PeerStat :=
  mkStat (s_rx_bytes s) (s_tx_bytes s) (s_rx_source_drops s) (s_last_handshake_unix s) (s_rtt_us s) v
    (s_endpoint s) (s_allowed_ips s).
Definition set_s_endpoint (v : option SocketAddr) (s : PeerStat) : PeerStat :=
  mkStat (s_rx_bytes s) (s_tx_bytes s) (s_rx_source_drops s) (s_last_handshake_unix s) (s_rtt_us s)
    (s_transport s) v (s_allowed_ips s).

Definition stat_new (allowed_ips : list string) : PeerStat := mkStat 0 0 0 0 0 T_NONE None allowed_ips.

Definition add_rx (n : Z) (s : PeerStat) : PeerStat := set_s_rx_bytes (wrap 64 (s_rx_bytes s + n)) s.
Definition add_tx (n : Z) (s : PeerStat) : PeerStat := set_s_tx_bytes (wrap 64 (s_tx_bytes s + n)) s.
Definition mark_handshake (now_unix : Z) (s : PeerStat) : PeerStat := set_s_last_handshake_unix now_unix s.

(** ** Peers

    [std::time::Instant] and [Duration] are nanoseconds; [tcp_out] is the connection a
    frame is queued on. *)

Definition secs_ns (n : Z) : Z := n * NANOSECOND.

(** [Instant::duration_since], which saturates. *)
Definition since (now earlier : Z) : Z := Z.max 0 (now - earlier).

Section Peer.
Context {C : Type}.

Record Peer := mkPeer {
  p_probes : Probes;
  p_pubkey : list byte;
  p_disco_key : list byte;
  p_candidates : list SocketAddr;
  p_raw : RawCryptor C;
  p_direct_addr : option SocketAddr;
  p_prefer_relay : bool;
  p_prefer_tcp : bool;
  p_disco_validated : bool;
  p_handshaked : bool;
  p_init_packet : option (list byte);
  p_last_init : option (list byte);
  p_last_resp : option (list byte);
  p_retries : Z;
  p_last_recv : option Z;
  p_relay_pinned : bool;
  p_last_recv_direct : option Z;
  p_pinned_at : option Z;
  p_last_upgrade : option Z;
  p_flaps : Z;
  p_tcp_out : option Z;
  p_tcp_gen : Z;
  p_handshake_at : option Z;
  p_rtt : option Z;
  p_init_sent_at : option Z;
  p_rekey_after : option Z;
  p_rekey_delay : Z;
  p_stat : PeerStat
}.

Definition set_p_probes (v : Probes) (p : Peer) : Peer :=
  mkPeer v (p_pubkey p) (p_disco_key p) (p_candidates p) (p_raw p) (p_direct_addr p) (p_prefer_relay p)
    (p_prefer_tcp p) (p_disco_validated p) (p_handshaked p) (p_init_packet p) (p_last_init p)
    (p_last_resp p) (p_retries p) (p_last_recv p) (p_relay_pinned p) (p_last_recv_direct p) (p_pinned_at
    p) (p_last_upgrade p) (p_flaps p) (p_tcp_out p) (p_tcp_gen p) (p_handshake_at p) (p_rtt p)
    (p_init_sent_at p) (p_rekey_after p) (p_rekey_delay p) (p_stat p).
Definition set_p_candidates (v : list SocketAddr) (p : Peer) : Peer :=
  mkPeer (p_probes p) (p_pubkey p) (p_disco_key p) v (p_raw p) (p_direct_addr p) (p_prefer_relay p)
    (p_prefer_tcp p) (p_disco_validated p) (p_handshaked p) (p_init_packet p) (p_last_init p)
    (p_last_resp p) (p_retries p) (p_last_recv p) (p_relay_pinned p) (p_last_recv_direct p) (p_pinned_at
    p) (p_last_upgrade p) (p_flaps p) (p_tcp_out p) (p_tcp_gen p) (p_handshake_at p) (p_rtt p)
    (p_init_sent_at p) (p_rekey_after p) (p_rekey_delay p) (p_stat p).
Definition set_p_raw (v : RawCryptor C) (p : Peer) : Peer :=
  mkPeer (p_probes p) (p_pubkey p) (p_disco_key p) (p_candidates p) v (p_direct_addr p) (p_prefer_relay
    p) (p_prefer_tcp p) (p_disco_validated p) (p_handshaked p) (p_init_packet p) (p_last_init p)
    (p_last_resp p) (p_retries p) (p_last_recv p) (p_relay_pinned p) (p_last_recv_direct p) (p_pinned_at
    p) (p_last_upgrade p) (p_flaps p) (p_tcp_out p) (p_tcp_gen p) (p_handshake_at p) (p_rtt p)
    (p_init_sent_at p) (p_rekey_after p) (p_rekey_delay p) (p_stat p).
Definition set_p_direct_addr (v : option SocketAddr) (p : Peer) : Peer :=
  mkPeer (p_probes p) (p_pubkey p) (p_disco_key p) (p_candidates p) (p_raw p) v (p_prefer_relay p)
    (p_prefer_tcp p) (p_disco_validated p) (p_handshaked p) (p_init_packet p) (p_last_init p)
    (p_last_resp p) (p_retries p) (p_last_recv p) (p_relay_pinned p) (p_last_recv_direct p) (p_pinned_at
    p) (p_last_upgrade p) (p_flaps p) (p_tcp_out p) (p_tcp_gen p) (p_handshake_at p) (p_rtt p)
    (p_init_sent_at p) (p_rekey_after p) (p_rekey_delay p) (p_stat p).
Definition set_p_prefer_relay (v : bool) (p : Peer) : Peer :=
  mkPeer (p_probes p) (p_pubkey p) (p_disco_key p) (p_candidates p) (p_raw p) (p_direct_addr p) v
    (p_prefer_tcp p) (p_disco_validated p) (p_handshaked p) (p_init_packet p) (p_last_init p)
    (p_last_resp p) (p_retries p) (p_last_recv p) (p_relay_pinned p) (p_last_recv_direct p) (p_pinned_at
    p) (p_last_upgrade p) (p_flaps p) (p_tcp_out p) (p_tcp_gen p) (p_handshake_at p) (p_rtt p)
    (p_init_sent_at p) (p_rekey_after p) (p_rekey_delay p) (p_stat p).
Definition set_p_prefer_tcp (v : bool) (p : Peer) : Peer :=
  mkPeer (p_probes p) (p_pubkey p) (p_disco_key p) (p_candidates p) (p_raw p) (p_direct_addr p)
    (p_prefer_relay p) v (p_disco_validated p) (p_handshaked p) (p_init_packet p) (p_last_init p)
    (p_last_resp p) (p_retries p) (p_last_recv p) (p_relay_pinned p) (p_last_recv_direct p) (p_pinned_at
    p) (p_last_upgrade p) (p_flaps p) (p_tcp_out p) (p_tcp_gen p) (p_handshake_at p) (p_rtt p)
    (p_init_sent_at p) (p_rekey_after p) (p_rekey_delay p) (p_stat p).
Definition set_p_disco_validated (v : bool) (p : Peer) : Peer :=
  mkPeer (p_probes p) (p_pubkey p) (p_disco_key p) (p_candidates p) (p_raw p) (p_direct_addr p)
    (p_prefer_relay p) (p_prefer_tcp p) v (p_handshaked p) (p_init_packet p) (p_last_init p)
    (p_last_resp p) (p_retries p) (p_last_recv p) (p_relay_pinned p) (p_last_recv_direct p) (p_pinned_at
    p) (p_last_upgrade p) (p_flaps p) (p_tcp_out p) (p_tcp_gen p) (p_handshake_at p) (p_rtt p)
    (p_init_sent_at p) (p_rekey_after p) (p_rekey_delay p) (p_stat p).
Definition set_p_handshaked (v : bool) (p : Peer) : Peer :=
  mkPeer (p_probes p) (p_pubkey p) (p_disco_key p) (p_candidates p) (p_raw p) (p_direct_addr p)
    (p_prefer_relay p) (p_prefer_tcp p) (p_disco_validated p) v (p_init_packet p) (p_last_init p)
    (p_last_resp p) (p_retries p) (p_last_recv p) (p_relay_pinned p) (p_last_recv_direct p) (p_pinned_at
    p) (p_last_upgrade p) (p_flaps p) (p_tcp_out p) (p_tcp_gen p) (p_handshake_at p) (p_rtt p)
    (p_init_sent_at p) (p_rekey_after p) (p_rekey_delay p) (p_stat p).
Definition set_p_init_packet (v : option (list byte)) (p : Peer) : Peer :=
  mkPeer (p_probes p) (p_pubkey p) (p_disco_key p) (p_candidates p) (p_raw p) (p_direct_addr p)
    (p_prefer_relay p) (p_prefer_tcp p) (p_disco_validated p) (p_handshaked p) v (p_last_init p)
    (p_last_resp p) (p_retries p) (p_last_recv p) (p_relay_pinned p) (p_last_recv_direct p) (p_pinned_at
    p) (p_last_upgrade p) (p_flaps p) (p_tcp_out p) (p_tcp_gen p) (p_handshake_at p) (p_rtt p)
    (p_init_sent_at p) (p_rekey_after p) (p_rekey_delay p) (p_stat p).
Definition set_p_last_init (v : option (list byte)) (p : Peer) : Peer :=
  mkPeer (p_probes p) (p_pubkey p) (p_disco_key p) (p_candidates p) (p_raw p) (p_direct_addr p)
    (p_prefer_relay p) (p_prefer_tcp p) (p_disco_validated p) (p_handshaked p) (p_init_packet p) v
    (p_last_resp p) (p_retries p) (p_last_recv p) (p_relay_pinned p) (p_last_recv_direct p) (p_pinned_at
    p) (p_last_upgrade p) (p_flaps p) (p_tcp_out p) (p_tcp_gen p) (p_handshake_at p) (p_rtt p)
    (p_init_sent_at p) (p_rekey_after p) (p_rekey_delay p) (p_stat p).
Definition set_p_last_resp (v : option (list byte)) (p : Peer) : Peer :=
  mkPeer (p_probes p) (p_pubkey p) (p_disco_key p) (p_candidates p) (p_raw p) (p_direct_addr p)
    (p_prefer_relay p) (p_prefer_tcp p) (p_disco_validated p) (p_handshaked p) (p_init_packet p)
    (p_last_init p) v (p_retries p) (p_last_recv p) (p_relay_pinned p) (p_last_recv_direct p)
    (p_pinned_at p) (p_last_upgrade p) (p_flaps p) (p_tcp_out p) (p_tcp_gen p) (p_handshake_at p) (p_rtt
    p) (p_init_sent_at p) (p_rekey_after p) (p_rekey_delay p) (p_stat p).
Definition set_p_retries (v : Z) (p : Peer) : Peer :=
  mkPeer (p_probes p) (p_pubkey p) (p_disco_key p) (p_candidates p) (p_raw p) (p_direct_addr p)
    (p_prefer_relay p) (p_prefer_tcp p) (p_disco_validated p) (p_handshaked p) (p_init_packet p)
    (p_last_init p) (p_last_resp p) v (p_last_recv p) (p_relay_pinned p) (p_last_recv_direct p)
    (p_pinned_at p) (p_last_upgrade p) (p_flaps p) (p_tcp_out p) (p_tcp_gen p) (p_handshake_at p) (p_rtt
    p) (p_init_sent_at p) (p_rekey_after p) (p_rekey_delay p) (p_stat p).
Definition set_p_last_recv (v : option Z) (p : Peer) : Peer :=
  mkPeer (p_probes p) (p_pubkey p) (p_disco_key p) (p_candidates p) (p_raw p) (p_direct_addr p)
    (p_prefer_relay p) (p_prefer_tcp p) (p_disco_validated p) (p_handshaked p) (p_init_packet p)
    (p_last_init p) (p_last_resp p) (p_retries p) v (p_relay_pinned p) (p_last_recv_direct p)
    (p_pinned_at p) (p_last_upgrade p) (p_flaps p) (p_tcp_out p) (p_tcp_gen p) (p_handshake_at p) (p_rtt
    p) (p_init_sent_at p) (p_rekey_after p) (p_rekey_delay p) (p_stat p).
Definition set_p_relay_pinned (v : bool) (p : Peer) : Peer :=
  mkPeer (p_probes p) (p_pubkey p) (p_disco_key p) (p_candidates p) (p_raw p) (p_direct_addr p)
    (p_prefer_relay p) (p_prefer_tcp p) (p_disco_validated p) (p_handshaked p) (p_init_packet p)
    (p_last_init p) (p_last_resp p) (p_retries p) (p_last_recv p) v (p_last_recv_direct p) (p_pinned_at
    p) (p_last_upgrade p) (p_flaps p) (p_tcp_out p) (p_tcp_gen p) (p_handshake_at p) (p_rtt p)
    (p_init_sent_at p) (p_rekey_after p) (p_rekey_delay p) (p_stat p).
Definition set_p_last_recv_direct (v : option Z) (p : Peer) : Peer :=
  mkPeer (p_probes p) (p_pubkey p) (p_disco_key p) (p_candidates p) (p_raw p) (p_direct_addr p)
    (p_prefer_relay p) (p_prefer_tcp p) (p_disco_validated p) (p_handshaked p) (p_init_packet p)
    (p_last_init p) (p_last_resp p) (p_retries p) (p_last_recv p) (p_relay_pinned p) v (p_pinned_at p)
    (p_last_upgrade p) (p_flaps p) (p_tcp_out p) (p_tcp_gen p) (p_handshake_at p) (p_rtt p)
    (p_init_sent_at p) (p_rekey_after p) (p_rekey_delay p) (p_stat p).
Definition set_p_pinned_at (v : option Z) (p : Peer) : Peer :=
  mkPeer (p_probes p) (p_pubkey p) (p_disco_key p) (p_candidates p) (p_raw p) (p_direct_addr p)
    (p_prefer_relay p) (p_prefer_tcp p) (p_disco_validated p) (p_handshaked p) (p_init_packet p)
    (p_last_init p) (p_last_resp p) (p_retries p) (p_last_recv p) (p_relay_pinned p) (p_last_recv_direct
    p) v (p_last_upgrade p) (p_flaps p) (p_tcp_out p) (p_tcp_gen p) (p_handshake_at p) (p_rtt p)
    (p_init_sent_at p) (p_rekey_after p) (p_rekey_delay p) (p_stat p).
Definition set_p_last_upgrade (v : option Z) (p : Peer) : Peer :=
  mkPeer (p_probes p) (p_pubkey p) (p_disco_key p) (p_candidates p) (p_raw p) (p_direct_addr p)
    (p_prefer_relay p) (p_prefer_tcp p) (p_disco_validated p) (p_handshaked p) (p_init_packet p)
    (p_last_init p) (p_last_resp p) (p_retries p) (p_last_recv p) (p_relay_pinned p) (p_last_recv_direct
    p) (p_pinned_at p) v (p_flaps p) (p_tcp_out p) (p_tcp_gen p) (p_handshake_at p) (p_rtt p)
    (p_init_sent_at p) (p_rekey_after p) (p_rekey_delay p) (p_stat p).
Definition set_p_flaps (v : Z) (p : Peer) : Peer :=
  mkPeer (p_probes p) (p_pubkey p) (p_disco_key p) (p_candidates p) (p_raw p) (p_direct_addr p)
    (p_prefer_relay p) (p_prefer_tcp p) (p_disco_validated p) (p_handshaked p) (p_init_packet p)
    (p_last_init p) (p_last_resp p) (p_retries p) (p_last_recv p) (p_relay_pinned p) (p_last_recv_direct
    p) (p_pinned_at p) (p_last_upgrade p) v (p_tcp_out p) (p_tcp_gen p) (p_handshake_at p) (p_rtt p)
    (p_init_sent_at p) (p_rekey_after p) (p_rekey_delay p) (p_stat p).
Definition set_p_tcp_out (v : option Z) (p : Peer) : Peer :=
  mkPeer (p_probes p) (p_pubkey p) (p_disco_key p) (p_candidates p) (p_raw p) (p_direct_addr p)
    (p_prefer_relay p) (p_prefer_tcp p) (p_disco_validated p) (p_handshaked p) (p_init_packet p)
    (p_last_init p) (p_last_resp p) (p_retries p) (p_last_recv p) (p_relay_pinned p) (p_last_recv_direct
    p) (p_pinned_at p) (p_last_upgrade p) (p_flaps p) v (p_tcp_gen p) (p_handshake_at p) (p_rtt p)
    (p_init_sent_at p) (p_rekey_after p) (p_rekey_delay p) (p_stat p).
Definition set_p_tcp_gen (v : Z) (p : Peer) : Peer :=
  mkPeer (p_probes p) (p_pubkey p) (p_disco_key p) (p_candidates p) (p_raw p) (p_direct_addr p)
    (p_prefer_relay p) (p_prefer_tcp p) (p_disco_validated p) (p_handshaked p) (p_init_packet p)
    (p_last_init p) (p_last_resp p) (p_retries p) (p_last_recv p) (p_relay_pinned p) (p_last_recv_direct
    p) (p_pinned_at p) (p_last_upgrade p) (p_flaps p) (p_tcp_out p) v (p_handshake_at p) (p_rtt p)
    (p_init_sent_at p) (p_rekey_after p) (p_rekey_delay p) (p_stat p).
Definition set_p_handshake_at (v : option Z) (p : Peer) : Peer :=
  mkPeer (p_probes p) (p_pubkey p) (p_disco_key p) (p_candidates p) (p_raw p) (p_direct_addr p)
    (p_prefer_relay p) (p_prefer_tcp p) (p_disco_validated p) (p_handshaked p) (p_init_packet p)
    (p_last_init p) (p_last_resp p) (p_retries p) (p_last_recv p) (p_relay_pinned p) (p_last_recv_direct
    p) (p_pinned_at p) (p_last_upgrade p) (p_flaps p) (p_tcp_out p) (p_tcp_gen p) v (p_rtt p)
    (p_init_sent_at p) (p_rekey_after p) (p_rekey_delay p) (p_stat p).
Definition set_p_rtt (v : option Z) (p : Peer) : Peer :=
  mkPeer (p_probes p) (p_pubkey p) (p_disco_key p) (p_candidates p) (p_raw p) (p_direct_addr p)
    (p_prefer_relay p) (p_prefer_tcp p) (p_disco_validated p) (p_handshaked p) (p_init_packet p)
    (p_last_init p) (p_last_resp p) (p_retries p) (p_last_recv p) (p_relay_pinned p) (p_last_recv_direct
    p) (p_pinned_at p) (p_last_upgrade p) (p_flaps p) (p_tcp_out p) (p_tcp_gen p) (p_handshake_at p) v
    (p_init_sent_at p) (p_rekey_after p) (p_rekey_delay p) (p_stat p).
Definition set_p_init_sent_at (v : option Z) (p : Peer) : Peer :=
  mkPeer (p_probes p) (p_pubkey p) (p_disco_key p) (p_candidates p) (p_raw p) (p_direct_addr p)
    (p_prefer_relay p) (p_prefer_tcp p) (p_disco_validated p) (p_handshaked p) (p_init_packet p)
    (p_last_init p) (p_last_resp p) (p_retries p) (p_last_recv p) (p_relay_pinned p) (p_last_recv_direct
    p) (p_pinned_at p) (p_last_upgrade p) (p_flaps p) (p_tcp_out p) (p_tcp_gen p) (p_handshake_at p)
    (p_rtt p) v (p_rekey_after p) (p_rekey_delay p) (p_stat p).
Definition set_p_rekey_after (v : option Z) (p : Peer) : Peer :=
  mkPeer (p_probes p) (p_pubkey p) (p_disco_key p) (p_candidates p) (p_raw p) (p_direct_addr p)
    (p_prefer_relay p) (p_prefer_tcp p) (p_disco_validated p) (p_handshaked p) (p_init_packet p)
    (p_last_init p) (p_last_resp p) (p_retries p) (p_last_recv p) (p_relay_pinned p) (p_last_recv_direct
    p) (p_pinned_at p) (p_last_upgrade p) (p_flaps p) (p_tcp_out p) (p_tcp_gen p) (p_handshake_at p)
    (p_rtt p) (p_init_sent_at p) v (p_rekey_delay p) (p_stat p).
Definition set_p_rekey_delay (v : Z) (p : Peer) : Peer :=
  mkPeer (p_probes p) (p_pubkey p) (p_disco_key p) (p_candidates p) (p_raw p) (p_direct_addr p)
    (p_prefer_relay p) (p_prefer_tcp p) (p_disco_validated p) (p_handshaked p) (p_init_packet p)
    (p_last_init p) (p_last_resp p) (p_retries p) (p_last_recv p) (p_relay_pinned p) (p_last_recv_direct
    p) (p_pinned_at p) (p_last_upgrade p) (p_flaps p) (p_tcp_out p) (p_tcp_gen p) (p_handshake_at p)
    (p_rtt p) (p_init_sent_at p) (p_rekey_after p) v (p_stat p).
Definition set_p_stat (v : PeerStat) (p : Peer) : Peer :=
  mkPeer (p_probes p) (p_pubkey p) (p_disco_key p) (p_candidates p) (p_raw p) (p_direct_addr p)
    (p_prefer_relay p) (p_prefer_tcp p) (p_disco_validated p) (p_handshaked p) (p_init_packet p)
    (p_last_init p) (p_last_resp p) (p_retries p) (p_last_recv p) (p_relay_pinned p) (p_last_recv_direct
    p) (p_pinned_at p) (p_last_upgrade p) (p_flaps p) (p_tcp_out p) (p_tcp_gen p) (p_handshake_at p)
    (p_rtt p) (p_init_sent_at p) (p_rekey_after p) (p_rekey_delay p) v.
End Peer.
Arguments Peer C : clear implicits.

(** The rung a packet came in on. *)
Inductive Via := ViaUdp | ViaTcp | ViaRelay.

(** ** The worker and its world *)

Record Reading := mkReading {
  rd_env : Env;                    (* randomness, clocks and counter of the crypto layer *)
  rd_now : Z;                      (* [Instant::now()] *)
  rd_unix : Z;                     (* seconds since the epoch *)
  rd_random : option (list byte);  (* four bytes of [getrandom] *)
  rd_relay : bool;                 (* [RelayOut::available()] *)
  rd_allowed : RouteTable;         (* [allowed.load()] *)
  rd_kernel : Kernel               (* what [sendmsg] does with a batch *)
}.

Inductive Output :=
| UdpOut (dst : SocketAddr) (bytes : list byte)
| TcpOut (conn : Z) (bytes : list byte)
| RelayOut (pk : list byte) (bytes : list byte)
| TunOut (pkt : list byte).

(** What a worker is given: its keys, its configuration, and the readings. *)
Class Host := {
  own_priv : list byte;
  own_pub : list byte;
  force_relay : bool;
  relay_out : bool;                (* a relay sender is configured *)
  reading_at : nat → Reading
}.

(** [WorkerState], with the maps it shares with other tasks, the send batch, what it
    sent so far (in order) and the number of readings taken. *)
Record Worker (C : Type) := mkWorker {
  w_peers : list (Peer C);
  w_index : IndexTable;
  w_owner : IndexOwner;
  w_routes : Routes;
  w_status : gset (list byte);
  w_gso : GsoBatch;
  w_out : list Output;
  w_clock : nat
}.
Arguments mkWorker {C}.
Arguments w_peers {C}.
Arguments w_index {C}.
Arguments w_owner {C}.
Arguments w_routes {C}.
Arguments w_status {C}.
Arguments w_gso {C}.
Arguments w_out {C}.
Arguments w_clock {C}.

(** Nothing in the data plane returns an error; a panic ends the worker. *)
Abbreviation M C := (st (Worker C) Empty_set).

Section Worker.
Context {C : Type}.

Definition set_peers (l : list (Peer C)) (w : Worker C) : Worker C :=
  mkWorker l (w_index w) (w_owner w) (w_routes w) (w_status w) (w_gso w) (w_out w) (w_clock w).
Definition set_index (x : IndexTable * IndexOwner) (w : Worker C) : Worker C :=
  mkWorker (w_peers w) x.1 x.2 (w_routes w) (w_status w) (w_gso w) (w_out w) (w_clock w).
Definition set_routes (r : Routes) (w : Worker C) : Worker C :=
  mkWorker (w_peers w) (w_index w) (w_owner w) r (w_status w) (w_gso w) (w_out w) (w_clock w).
Definition set_status (s : gset (list byte)) (w : Worker C) : Worker C :=
  mkWorker (w_peers w) (w_index w) (w_owner w) (w_routes w) s (w_gso w) (w_out w) (w_clock w).
Definition set_gso (b : GsoBatch) (w : Worker C) : Worker C :=
  mkWorker (w_peers w) (w_index w) (w_owner w) (w_routes w) (w_status w) b (w_out w) (w_clock w).
Definition add_out (o : list Output) (w : Worker C) : Worker C :=
  mkWorker (w_peers w) (w_index w) (w_owner w) (w_routes w) (w_status w) (w_gso w) (w_out w ++ o) (w_clock w).
Definition next_reading (w : Worker C) : Worker C :=
  mkWorker (w_peers w) (w_index w) (w_owner w) (w_routes w) (w_status w) (w_gso w) (w_out w) (S (w_clock w)).

Context `{Host}.

Definition reading : M C Reading := fun w => (Ok (reading_at (w_clock w)), next_reading w).
Definition emit (o : Output) : M C unit := modify (add_out [o]).

Definition index_do (f : IndexTable * IndexOwner → IndexTable * IndexOwner) : M C unit :=
  modify (fun w => set_index (f (w_index w, w_owner w)) w).

(** [index_map.insert] of the session index at [off], if the message is long enough. *)
Definition insert_at (bytes : list byte) (off : Z) (pk : list byte) : M C unit :=
  match le_u32 bytes off with Some idx => index_do (index_insert idx pk) | None => mret tt end.
Definition confirm_at (bytes : list byte) (off : Z) (pk : list byte) : M C unit :=
  match le_u32 bytes off with Some idx => index_do (index_confirm idx pk) | None => mret tt end.

(** A call of the peer's cryptor: the error is a value, the panic is not. *)
Definition raw_call {A} (f : Env → st (RawCryptor C) CryptoError A) (p : Peer C)
    : M C (Peer C * (CryptoError + A)) :=
  r ← reading;
  let '(x, raw) := f (rd_env r) (p_raw p) in
  match x with
  | Ok a => mret (set_p_raw raw p, inr a)
  | Err e => mret (set_p_raw raw p, inl e)
  | Panic => lift Panic
  end.

(** [relay_out.as_ref().is_some_and(RelayOut::available)]. *)
Definition relay_available : M C bool :=
  if relay_out then r ← reading; mret (rd_relay r) else mret false.

(** ** Peer operations (peer.rs) *)

Definition note_rekey (now : Z) (p : Peer C) : Peer C :=
  let p := set_p_rekey_after (Some (now + secs_ns (p_rekey_delay p))) p in
  set_p_rekey_delay (Z.min (p_rekey_delay p * 2) 120) p.

Definition authenticated_data (p : Peer C) : Peer C := set_p_rekey_delay 5 (set_p_rekey_after None p).

Definition note_rtt (now : Z) (p : Peer C) : Peer C :=
  match p_init_sent_at p with
  | Some t =>
      let sample := since now t in
      set_p_rtt (Some (match p_rtt p with Some r => (r * 4 + sample) / 5 | None => sample end))
        (set_p_init_sent_at None p)
  | None => p
  end.

Definition set_path (p : Peer C) (from : option SocketAddr) (via : Via) : M C (Peer C) :=
  match via with
  | ViaUdp =>
      let p := match from with Some f => set_p_direct_addr (Some f) p | None => p end in
      r ← reading;
      let p := set_p_prefer_tcp false (set_p_last_recv_direct (Some (rd_now r)) p) in
      mret (if p_relay_pinned p then p else set_p_prefer_relay false p)
  | ViaTcp =>
      r ← reading;
      let p := set_p_last_recv_direct (Some (rd_now r)) (set_p_prefer_tcp true p) in
      mret (if p_relay_pinned p then p else set_p_prefer_relay false p)
  | ViaRelay => mret (set_p_prefer_relay true p)
  end.

Definition send_to_peer (p : Peer C) (bytes : list byte) : M C unit :=
  let via_relay :=
    available ← relay_available;
    if available : bool then emit (RelayOut (p_pubkey p) bytes)
    else match p_direct_addr p with
         | Some addr => emit (UdpOut addr bytes)
         | None => mret tt
         end in
  let via_tcp :=
    if negb force_relay && negb (p_prefer_relay p) then
      match p_tcp_out p with Some tx => emit (TcpOut tx bytes) | None => via_relay end
    else via_relay in
  if negb force_relay && negb (p_prefer_relay p) && negb (p_prefer_tcp p) then
    match p_direct_addr p with Some addr => emit (UdpOut addr bytes) | None => via_tcp end
  else via_tcp.
End Worker.

Section PeerOps.
Context `{Crypto} {C : Type} `{Cryptor C} `{Host}.

(** [Peer::fresh]; the shared probe routes of the worker are the peer's. *)
Definition peer_fresh (pubkey : list byte) (candidates : list SocketAddr) (stat : PeerStat) : Peer C :=
  mkPeer probes_default pubkey (disco_shared own_priv pubkey) candidates raw_new
    (if force_relay then None else head candidates) force_relay false false false None None None 0
    None false None None None 0 None 0 None None None None 5 stat.

Definition disco_ping_to (targets : list SocketAddr) (p : Peer C)
    : M C (Peer C * option (list byte)) :=
  r ← reading;
  w ← get;
  let '(o, (probes, routes)) :=
    start (p_pubkey p) targets (rd_unix r) (rd_random r) (p_probes p, w_routes w) in
  _ ← modify (set_routes routes);
  mret (set_p_probes probes p,
        (fun tx_id => auth_disco_dgram (p_disco_key p) (Ping tx_id own_pub)) <$> o).

Definition disco_ping (p : Peer C) : M C (Peer C * option (list byte)) :=
  let targets := p_candidates p ++
    match p_direct_addr p with
    | Some addr => if bool_decide (addr ∈ p_candidates p) then [] else [addr]
    | None => []
    end in
  disco_ping_to targets p.

(** [for c in addrs { udp.send_to(bytes, c) }]. *)
Definition send_all (bytes : list byte) (addrs : list SocketAddr) : M C unit :=
  modify (add_out ((fun c => UdpOut c bytes) <$> addrs)).

(** [peers.iter_mut().find(|p| p.pubkey == pk)]. *)
Definition find_peer (pk : list byte) (l : list (Peer C)) : option (nat * Peer C) :=
  list_find (fun p => p_pubkey p = pk) l.

Definition update_peer (pos : nat) (p : Peer C) : M C unit :=
  modify (fun w => set_peers (<[pos := p]> (w_peers w)) w).

(** What both ends of a handshake record: the path, and when. *)
Definition handshake_done (p : Peer C) : M C (Peer C) :=
  r1 ← reading; r2 ← reading; r3 ← reading;
  mret (set_p_stat (mark_handshake (rd_unix r3) (p_stat p))
    (set_p_handshake_at (Some (rd_now r2)) (set_p_last_recv (Some (rd_now r1)) p))).

(** The response of a handshake we answered: keep it, route its index, send it. *)
Definition answer_init (pos : nat) (pk : list byte) (resp : option (list byte)) (p : Peer C) : M C unit :=
  match resp with
  | Some resp =>
      let p := set_p_last_resp (Some resp) p in
      _ ← update_peer pos p;
      _ ← insert_at resp 4 pk;
      send_to_peer p resp
  | None => update_peer pos p
  end.

(** The gapless rekey on the session of a known peer; [false] when the code falls
    through to a new handshake. *)
Definition accept_rekey (bytes : list byte) (from : option SocketAddr) (via : Via) : M C bool :=
  w ← get;
  match peek_init_pubkey own_priv own_pub bytes with
  | Some pk =>
      if bool_decide (Exists (fun p => p_pubkey p = pk ∧ p_handshaked p = true) (w_peers w)) then
        match find_peer pk (w_peers w) with
        | Some (pos, p) =>
            '(p, r) ← raw_call (fun env => raw_rekey_respond env bytes (replicate 256 x00)) p;
            match r with
            | inr resp =>
                p ← set_path (set_p_last_init (Some bytes) p) from via;
                p ← handshake_done p;
                _ ← answer_init pos pk resp p;
                mret true
            | inl _ => _ ← update_peer pos p; mret false
            end
        | None => mret false
        end
      else mret false
  | None => mret false
  end.

(** A new session from an initiation of a known peer. *)
Definition accept_fresh (bytes : list byte) (from : option SocketAddr) (via : Via) : M C unit :=
  r ← reading;
  let '(x, fresh) := raw_handle_handshake (rd_env r) own_priv own_pub bytes raw_new in
  match x with
  | Panic => lift Panic
  | Err _ => mret tt
  | Ok resp =>
      match (raw_get_peer_public fresh).1 with
      | Panic => lift Panic
      | Err _ => mret tt
      | Ok pk =>
          w ← get;
          match find_peer pk (w_peers w) with
          | None => mret tt
          | Some (pos, p) =>
              _ ← index_do (index_remove_peer pk);
              p ← set_path (set_p_last_init (Some bytes) (set_p_raw fresh p)) from via;
              p ← handshake_done (set_p_handshaked true p);
              answer_init pos pk resp p
          end
      end
  end.

Definition accept_init (bytes : list byte) (from : option SocketAddr) (via : Via) : M C unit :=
  w ← get;
  match list_find (fun p => p_last_init p = Some bytes) (w_peers w) with
  | Some (_, p) =>
      match p_last_resp p with Some resp => send_to_peer p resp | None => mret tt end
  | None =>
      done ← accept_rekey bytes from via;
      if done : bool then mret tt else accept_fresh bytes from via
  end.

(** [bytes.first().copied().unwrap_or(0)]. *)
Definition first_byte (bytes : list byte) : byte := default x00 (head bytes).

(** A handshake response for a known peer. *)
Definition handle_resp (p : Peer C) (bytes : list byte) (from : option SocketAddr) (via : Via)
    : M C (Peer C) :=
  '(p, r) ← raw_call (fun env => raw_handle_response env bytes) p;
  match r with
  | inl _ => mret p
  | inr _ =>
      _ ← confirm_at bytes 8 (p_pubkey p);
      p ← set_path p from via;
      p ← handshake_done (set_p_handshaked true p);
      r ← reading;
      let p := note_rtt (rd_now r) p in
      '(p, ka) ← raw_call (fun env => raw_on_send env [] (replicate 128 x00)) p;
      match ka with inr ka => _ ← send_to_peer p ka; mret p | inl _ => mret p end
  end.

(** Transport data for a known peer. *)
Definition handle_transport (p : Peer C) (bytes : list byte) (from : option SocketAddr) (via : Via)
    : M C (Peer C * option (list byte)) :=
  '(p, r) ← raw_call (fun env => raw_on_recv env bytes (replicate 2048 x00)) p;
  match r with
  | inl _ => mret (p, None)
  | inr pkt =>
      let packet := if bool_decide (pkt = []) then None else Some pkt in
      let p := authenticated_data p in
      _ ← confirm_at bytes 4 (p_pubkey p);
      p ← set_path p from via;
      r ← reading;
      let p := set_p_last_recv (Some (rd_now r)) p in
      mret (set_p_stat (add_rx (len bytes) (p_stat p)) p, packet)
  end.

Definition handle_wg (p : Peer C) (bytes : list byte) (from : option SocketAddr) (via : Via)
    : M C (Peer C * option (list byte)) :=
  if bool_decide (first_byte bytes = T_HANDSHAKE_RESP) then
    p ← handle_resp p bytes from via; mret (p, None)
  else if bool_decide (first_byte bytes = T_DATA) then handle_transport p bytes from via
  else mret (p, None).
End PeerOps.
