(* ===== verification/Worker.v ===== *)
(** * The data-plane worker (node/src/worker.rs)

    A worker owns a shard of the peers and handles one message at a time.  The UDP,
    relay and TCP readers choose the worker with [route_udp] and [route_framed]. *)

From S2P Require Import Prelude.
From S2P Require Import Words.
From S2P Require Import NetAddr.
From S2P Require Import Disco.
From S2P Require Import CryptoError.
From S2P Require Import Crypto.
From S2P Require Import Instant.
From S2P Require Import Cryptor.
From S2P Require Import Prefix.
From S2P Require Import RouteTable.
From S2P Require Import IndexTable.
From S2P Require Import Probes.
From S2P Require Import Gso.
From S2P Require Import Peer.

Inductive WorkerMsg :=
| MTick
| MUdpIn (from : SocketAddr) (bytes : list byte)
| MRelayIn (src bytes : list byte)
| MTcpIn (src bytes : list byte)
| MTcpConn (pk : list byte) (conn_gen : Z) (out : option Z)
| MTunEgress (pk pkt : list byte)
| MAddPeer (pubkey : list byte) (candidates : list SocketAddr) (allowed_ips : list string) (initiator : bool)
| MRemovePeer (pk : list byte)
| MUpdateCandidates (pubkey : list byte) (candidates : list SocketAddr).

(** ** Choosing the worker *)

Section Readers.
Context `{Crypto} `{Host}.

(** The index a response or a data message is addressed to. *)
Definition receiver_index (bytes : list byte) : option Z :=
  if bool_decide (head bytes = Some T_HANDSHAKE_RESP) then le_u32 bytes 8 else le_u32 bytes 4.

Definition route_udp (bytes : list byte) (now : Z) (peer_to_wid : gmap (list byte) Z)
    (disco_routes : Routes) (index_owner : IndexOwner) : option Z :=
  match strip_prefix DISCO_MAGIC bytes with
  | Some body =>
      match decode body with
      | Ok (Ping _ sender, _) => peer_to_wid !! sender
      | Ok (Pong tx_id _, _) => peer ← routes_owner disco_routes tx_id now; peer_to_wid !! peer
      | _ => None
      end
  | None =>
      if bool_decide (first_byte bytes = T_HANDSHAKE_INIT) then
        pk ← peek_init_pubkey own_priv own_pub bytes; peer_to_wid !! pk
      else i ← receiver_index bytes; index_owner !! i
  end.

Definition route_framed (bytes src : list byte) (peer_to_wid : gmap (list byte) Z) : option Z :=
  if bool_decide (first_byte bytes = T_HANDSHAKE_INIT) then
    pk ← peek_init_pubkey own_priv own_pub bytes; peer_to_wid !! pk
  else peer_to_wid !! src.
End Readers.

(** ** Handlers *)

Section Handlers.
Context `{Crypto} {C : Type} `{Cryptor C} `{Host}.

(** [own_pub < peer.pubkey]: this end drives the rekeys. *)
Definition initiator_of (p : Peer C) : bool := bool_decide (bytes_cmp own_pub (p_pubkey p) = Lt).

(** The silence after which a path is dead: five seconds or eight round trips. *)
Definition dead_after (p : Peer C) : Z :=
  match p_rtt p with
  | Some r => Z.max (r * 8) (secs_ns LIVENESS_DEAD_SECS)
  | None => secs_ns LIVENESS_DEAD_SECS
  end.

Definition rekey_due (p : Peer C) (now : Z) (relay_ready : bool) : bool :=
  if negb (initiator_of p) || negb (p_handshaked p) ||
     match p_rekey_after p with Some t => now <? t | None => false end then false
  else
    let dead := dead_after p in
    if match p_init_sent_at p with Some t => since now t <? dead | None => false end then false
    else
      let aged := match p_handshake_at p with
                  | Some t => secs_ns REKEY_AFTER_SECS <=? since now t | None => false end in
      let silent := match p_last_recv p with Some t => dead <=? since now t | None => false end in
      aged || negb relay_ready && silent.

Definition keepalive_send (p : Peer C) (ka : list byte) : M C (Peer C) :=
  _ ← send_to_peer p ka;
  if p_relay_pinned p && negb force_relay then
    '(p, ping) ← disco_ping p;
    match ping with
    | Some ping =>
        _ ← match p_direct_addr p with
            | Some addr => _ ← emit (UdpOut addr ka); emit (UdpOut addr ping)
            | None => mret tt
            end;
        _ ← send_all ping (p_candidates p);
        mret p
    | None => mret p
    end
  else mret p.

Definition emit_rekey (p : Peer C) : M C (Peer C * bool) :=
  '(p, r) ← raw_call (fun env => raw_rekey_init env (replicate 256 x00)) p;
  match r with
  | inl _ => mret (p, false)
  | inr init =>
      _ ← insert_at init 4 (p_pubkey p);
      r ← reading;
      let p := note_rekey (rd_now r) p in
      _ ← send_to_peer p init;
      mret (p, true)
  end.

(** *** The tick, one peer *)

(** The published status. *)
Definition tick_status (p : Peer C) : M C (Peer C) :=
  tp ← (if negb (p_handshaked p) then mret T_NONE
        else if negb force_relay && negb (p_prefer_relay p) && negb (p_prefer_tcp p) &&
                bool_decide (is_Some (p_direct_addr p)) then mret T_UDP_DIRECT
        else if negb force_relay && bool_decide (is_Some (p_tcp_out p)) then mret T_TCP_DIRECT
        else
          available ← relay_available;
          mret (if available : bool then T_RELAY
                else if bool_decide (is_Some (p_direct_addr p)) then T_UDP_DIRECT else T_NONE));
  mret (set_p_stat (set_s_endpoint (p_direct_addr p)
    (set_s_rtt_us (match p_rtt p with Some r => wrap 64 (r / 1000) | None => 0 end)
      (set_s_transport tp (p_stat p)))) p).

(** Probe the candidates until one is validated. *)
Definition tick_probe (p : Peer C) : M C (Peer C) :=
  if negb force_relay && negb (p_disco_validated p) then
    '(p, ping) ← disco_ping p;
    match ping with Some ping => _ ← send_all ping (p_candidates p); mret p | None => mret p end
  else mret p.

(** A peer without a session: retry the initiation, and give up the direct path. *)
Definition tick_handshaking (now : Z) (p : Peer C) : M C (Peer C) :=
  let p := set_p_retries (wrap 32 (p_retries p + 1)) p in
  p ← (if negb force_relay && negb (p_disco_validated p) && negb (p_prefer_relay p) then
         available ← relay_available;
         mret (if available && (6 <=? p_retries p) then set_p_prefer_relay true p else p)
       else mret p);
  match p_init_packet p with
  | Some init => _ ← send_to_peer p init; mret (set_p_init_sent_at (Some now) p)
  | None => mret p
  end.

Definition tick_keepalive (p : Peer C) : M C (Peer C) :=
  '(p, r) ← raw_call (fun env => raw_on_send env [] (replicate 2048 x00)) p;
  match r with
  | inl _ => mret p
  | inr out =>
      if bool_decide (head out = Some T_DATA) then
        keepalive_send (set_p_stat (add_tx (len out) (p_stat p)) p) out
      else if bool_decide (head out = Some T_HANDSHAKE_INIT) && initiator_of p then
        match le_u32 out 4 with
        | Some idx =>
            _ ← index_do (index_insert idx (p_pubkey p));
            _ ← send_to_peer p out;
            mret p
        | None => mret p
        end
      else mret p
  end.

(** Hysteresis: going silent within 20 seconds of an upgrade is a flap. *)
Definition flap_count (now : Z) (p : Peer C) : Z :=
  match p_last_upgrade p with
  | Some up => if since now up <? secs_ns 20 then Z.min (p_flaps p + 1) 5 else 0
  | None => 0
  end.

(** A silent direct path: move to the relay, counting a flap if we left it recently. *)
Definition pin_relay (now : Z) (p : Peer C) : Peer C :=
  let p := set_p_relay_pinned true (set_p_prefer_relay true p) in
  let p := set_p_flaps (flap_count now p) p in
  set_p_last_recv_direct None (set_p_last_recv (Some now) (set_p_pinned_at (Some now) p)).

Definition direct_silent (now : Z) (p : Peer C) : bool :=
  match p_last_recv_direct p with Some t => dead_after p <=? since now t | None => true end.

Definition tick_silence (now : Z) (p : Peer C) : M C (Peer C) :=
  if direct_silent now p && negb (p_prefer_relay p) && negb force_relay then
    available ← relay_available;
    if available : bool then
      let p := pin_relay now p in
      if initiator_of p then
        '(p, sent) ← emit_rekey p;
        mret (if sent : bool then set_p_init_sent_at (Some now) p else p)
      else mret p
    else mret p
  else mret p.

(** A pinned peer whose direct path delivers again leaves the relay, but not before
    [1 << flaps] seconds. *)
Definition upgrade_due (now : Z) (p : Peer C) : bool :=
  p_relay_pinned p &&
  match p_last_recv_direct p with Some t => since now t <? secs_ns LIVENESS_DEAD_SECS | None => false end &&
  match p_pinned_at p with
  | Some t => secs_ns (Z.shiftl 1 (Z.min (p_flaps p) 5)) <=? since now t
  | None => true
  end.

Definition tick_upgrade (now : Z) (p : Peer C) : Peer C :=
  if upgrade_due now p then
    set_p_last_upgrade (Some now) (set_p_prefer_relay false (set_p_relay_pinned false p))
  else p.

Definition tick_rekey (now : Z) (p : Peer C) : M C (Peer C) :=
  available ← relay_available;
  if rekey_due p now available then
    '(p, sent) ← emit_rekey p;
    mret (if sent : bool then set_p_handshake_at (Some now) (set_p_init_sent_at (Some now) p) else p)
  else mret p.

Definition tick_peer (now : Z) (p : Peer C) : M C (Peer C) :=
  p ← tick_status p;
  p ← tick_probe p;
  if negb (p_handshaked p) then tick_handshaking now p else
  p ← tick_keepalive p;
  p ← tick_silence now p;
  tick_rekey now (tick_upgrade now p).

Definition on_tick : M C unit :=
  r ← reading;
  w ← get;
  peers ← mapM (tick_peer (rd_now r)) (w_peers w);
  modify (set_peers peers).

(** *** Inbound *)

(** Decrypt for [peers\[pos\]] and forward what its peer may send. *)
Definition deliver_wg (pos : nat) (bytes : list byte) (from : option SocketAddr) (via : Via) : M C unit :=
  w ← get;
  match w_peers w !! pos with
  | None => mret tt
  | Some p =>
      '(p, pkt) ← handle_wg p bytes from via;
      match pkt with
      | None => update_peer pos p
      | Some pkt =>
          r ← reading;
          if accepts_source (rd_allowed r) (p_pubkey p) pkt then
            _ ← update_peer pos p; emit (TunOut pkt)
          else
            update_peer pos (set_p_stat
              (set_s_rx_source_drops (wrap 64 (s_rx_source_drops (p_stat p) + 1)) (p_stat p)) p)
      end
  end.

Definition on_ping (from : SocketAddr) (dgram body : list byte) (used : Z) (tx_id sender : list byte)
    : M C unit :=
  w ← get;
  match find_peer sender (w_peers w) with
  | None => mret tt
  | Some (pos, p) =>
      if negb (disco_authed (p_disco_key p) dgram body used) then mret tt else
      r ← reading;
      let '(fresh, probes) := accept_ping tx_id (rd_unix r) (p_probes p) in
      let p := set_p_probes probes p in
      _ ← update_peer pos p;
      if negb fresh then mret tt else
      _ ← emit (UdpOut from (auth_disco_dgram (p_disco_key p) (Pong tx_id from)));
      if negb (p_disco_validated p) || negb (bool_decide (p_direct_addr p = Some from)) then
        '(p, ping) ← disco_ping_to [from] p;
        _ ← update_peer pos p;
        match ping with Some ping => emit (UdpOut from ping) | None => mret tt end
      else mret tt
  end.

Definition on_pong (from : SocketAddr) (dgram body : list byte) (used : Z) (tx_id : list byte) : M C unit :=
  r ← reading;
  let now := rd_unix r in
  w ← get;
  match list_find (fun p => is_pending tx_id from now (p_probes p) = true) (w_peers w) with
  | None => mret tt
  | Some (pos, p) =>
      if negb (disco_authed (p_disco_key p) dgram body used) then mret tt else
      r ← reading;
      if negb (disco_replay_ok tx_id (rd_unix r)) then mret tt else
      let '(ok, (probes, routes)) := finish tx_id from now (p_probes p, w_routes w) in
      _ ← modify (set_routes routes);
      let p := set_p_probes probes p in
      if negb ok then update_peer pos p else
      let p := set_p_direct_addr (Some from) p in
      let p := if p_relay_pinned p then p else set_p_prefer_relay false p in
      update_peer pos (set_p_disco_validated true p)
  end.

Definition on_disco (from : SocketAddr) (dgram : list byte) : M C unit :=
  match strip_prefix DISCO_MAGIC dgram with
  | None => mret tt
  | Some body =>
      match decode body with
      | Ok (Ping tx_id sender, used) => on_ping from dgram body used tx_id sender
      | Ok (Pong tx_id _, used) => on_pong from dgram body used tx_id
      | Ok (CallMeMaybe _, _) => mret tt
      | Err _ => mret tt
      | Panic => lift Panic
      end
  end.

Definition on_udp_in (from : SocketAddr) (bytes : list byte) : M C unit :=
  if bool_decide (is_Some (strip_prefix DISCO_MAGIC bytes)) then on_disco from bytes
  else if bool_decide (first_byte bytes = T_HANDSHAKE_INIT) then accept_init bytes (Some from) ViaUdp
  else
    w ← get;
    match (i ← receiver_index bytes; pk ← index_get (w_index w) i; find_peer pk (w_peers w)) with
    | Some (pos, _) => deliver_wg pos bytes (Some from) ViaUdp
    | None => mret tt
    end.

(** [on_relay_in] and [on_tcp_in] differ in the rung only. *)
Definition on_framed_in (via : Via) (src bytes : list byte) : M C unit :=
  if bool_decide (first_byte bytes = T_HANDSHAKE_INIT) then accept_init bytes None via
  else
    w ← get;
    match find_peer src (w_peers w) with
    | Some (pos, _) => deliver_wg pos bytes None via
    | None => mret tt
    end.

Definition on_relay_in := on_framed_in ViaRelay.
Definition on_tcp_in := on_framed_in ViaTcp.

(** *** Connections and membership *)

Definition on_tcp_conn (pk : list byte) (conn_gen : Z) (out : option Z) : M C unit :=
  w ← get;
  match find_peer pk (w_peers w) with
  | None => mret tt
  | Some (pos, p) =>
      match out with
      | Some tx => update_peer pos (set_p_tcp_gen conn_gen (set_p_tcp_out (Some tx) p))
      | None => if p_tcp_gen p =? conn_gen then update_peer pos (set_p_tcp_out None p) else mret tt
      end
  end.

(** Build the session of a peer that joined: probe its candidates and, on the keyed
    initiator's side, send the first initiation. *)
Definition new_peer (pubkey : list byte) (candidates : list SocketAddr) (allowed_ips : list string)
    (initiator : bool) : M C (Peer C) :=
  _ ← modify (fun w => set_status ({[pubkey]} ∪ w_status w) w);
  let p := peer_fresh pubkey candidates (stat_new allowed_ips) in
  p ← (if force_relay then mret p else
       '(p, ping) ← disco_ping p;
       match ping with Some ping => _ ← send_all ping (p_candidates p); mret p | None => mret p end);
  if initiator then
    '(p, r) ← raw_call (fun env => raw_init_handshake env own_priv (p_pubkey p)) p;
    match r with
    | inr init =>
        _ ← insert_at init 4 (p_pubkey p);
        _ ← send_to_peer p init;
        r ← reading;
        mret (set_p_init_packet (Some init) (set_p_init_sent_at (Some (rd_now r)) p))
    | inl _ => mret p
    end
  else mret p.

Definition on_add_peer (pubkey : list byte) (candidates : list SocketAddr) (allowed_ips : list string)
    (initiator : bool) : M C unit :=
  w ← get;
  if bool_decide (Exists (fun p => p_pubkey p = pubkey) (w_peers w)) then mret tt else
  p ← new_peer pubkey candidates allowed_ips initiator;
  modify (fun w => set_peers (w_peers w ++ [p]) w).

(** Dropping the peers of [pk] drops their probe routes. *)
Definition on_remove_peer (pk : list byte) : M C unit :=
  modify (fun w =>
    let kept := filter (fun p => p_pubkey p ≠ pk) (w_peers w) in
    if bool_decide (length kept = length (w_peers w)) then w
    else
      let w := set_routes (drop_routes pk (w_routes w)) (set_peers kept w) in
      let w := set_index (index_remove_peer pk (w_index w, w_owner w)) w in
      set_status (w_status w ∖ {[pk]}) w).

Definition on_update_candidates (pubkey : list byte) (candidates : list SocketAddr) : M C unit :=
  w ← get;
  match find_peer pubkey (w_peers w) with
  | None => mret tt
  | Some (pos, p) =>
      let p := set_p_disco_validated false (set_p_candidates candidates p) in
      if force_relay then update_peer pos p else
      '(p, ping) ← disco_ping p;
      _ ← update_peer pos p;
      match ping with Some ping => send_all ping candidates | None => mret tt end
  end.

(** *** Egress *)

Definition to_wire (l : list Datagram) : list Output := (fun '(d, b) => UdpOut d b) <$> l.

Definition flush_gso : M C unit :=
  r ← reading;
  modify (fun w => let '(b, out) := gso_flush (rd_kernel r) (w_gso w) in add_out (to_wire out) (set_gso b w)).

Definition push_gso (addr : SocketAddr) (pkt : list byte) : M C unit :=
  r1 ← reading;
  r2 ← reading;
  modify (fun w =>
    let '(b, out) := gso_push (rd_kernel r1) (rd_kernel r2) addr pkt (w_gso w) in
    add_out (to_wire out) (set_gso b w)).

(** [peers.iter_mut().find(|p| p.pubkey == pk && p.handshaked)]. *)
Definition find_live (pk : list byte) (l : list (Peer C)) : option (nat * Peer C) :=
  list_find (fun p => p_pubkey p = pk ∧ p_handshaked p = true) l.

Definition on_tun_egress (pk pkt : list byte) : M C unit :=
  w ← get;
  match find_live pk (w_peers w) with
  | None => mret tt
  | Some (pos, p) =>
      '(p, r) ← raw_call (fun env => raw_on_send env pkt (replicate 2048 x00)) p;
      match r with
      | inl _ => update_peer pos p
      | inr enc =>
          if bool_decide (head enc = Some T_HANDSHAKE_INIT) then
            _ ← update_peer pos p;
            if initiator_of p then
              _ ← insert_at enc 4 pk;
              _ ← flush_gso;
              send_to_peer p enc
            else mret tt
          else
            let p := set_p_stat (add_tx (len enc) (p_stat p)) p in
            _ ← update_peer pos p;
            match p_direct_addr p with
            | Some addr =>
                if negb force_relay && negb (p_prefer_relay p) then push_gso addr enc
                else _ ← flush_gso; send_to_peer p enc
            | None => _ ← flush_gso; send_to_peer p enc
            end
      end
  end.

(** ** The mailbox *)

Definition handle (msg : WorkerMsg) : M C unit :=
  match msg with
  | MTunEgress pk pkt => on_tun_egress pk pkt
  | MTcpConn pk conn_gen out => on_tcp_conn pk conn_gen out
  | MAddPeer pubkey candidates allowed_ips initiator =>
      _ ← flush_gso; on_add_peer pubkey candidates allowed_ips initiator
  | MRemovePeer pk => on_remove_peer pk
  | MUpdateCandidates pubkey candidates => _ ← flush_gso; on_update_candidates pubkey candidates
  | MTick => _ ← flush_gso; on_tick
  | MUdpIn from bytes => _ ← flush_gso; on_udp_in from bytes
  | MRelayIn src bytes => _ ← flush_gso; on_relay_in src bytes
  | MTcpIn src bytes => _ ← flush_gso; on_tcp_in src bytes
  end.

(** The messages that are ready are handled in one burst, then the batch is flushed. *)
Definition run_burst (burst : list WorkerMsg) : M C unit :=
  _ ← mapM handle burst; flush_gso.

Definition run (bursts : list (list WorkerMsg)) : M C unit := _ ← mapM run_burst bursts; mret tt.
End Handlers.
