(* ===== verification/WorkerInv.v ===== *)
(** * Invariant of the worker

    The well-formedness of a peer, of a worker and of what it sends, and that every
    operation keeps it without panicking, whatever the readings and the bytes.  The
    proofs are against [CryptorSafe], not against Noise. *)

From S2P Require Import Prelude.
From S2P Require Import Words.
From S2P Require Import NetAddr.
From S2P Require Import Disco.
From S2P Require Import CryptoError.
From S2P Require Import Crypto.
From S2P Require Import Instant.
From S2P Require Import Cryptor.
From S2P Require Import CryptorSafe.
From S2P Require Import Prefix.
From S2P Require Import RouteTable.
From S2P Require Import IndexTable.
From S2P Require Import Probes.
From S2P Require Import Gso.
From S2P Require Import Peer.
From S2P Require Import Worker.

Section Inv.
Context `{Crypto} {C : Type} `{CryptorSafe C} `{Host}.

(** A pinned peer uses the relay, the counters of the path and rekey timers are in
    their ranges, a peer with a finished handshake has a session, and its probe tables
    are bounded. *)
Definition peer_ok (p : Peer C) : Prop :=
  raw_ok (p_raw p) ∧
  p_disco_key p = disco_shared own_priv (p_pubkey p) ∧
  (p_relay_pinned p = true → p_prefer_relay p = true ∧ force_relay = false) ∧
  0 ≤ p_flaps p ≤ 5 ∧
  5 ≤ p_rekey_delay p ≤ 120 ∧
  (p_handshaked p = true → is_Some (p_raw p)) ∧
  (size (seen (p_probes p)) ≤ CAPACITY)%nat ∧
  (size (pending (p_probes p)) ≤ CAPACITY)%nat.

(** What leaves for the relay is addressed to one of [xs]; what leaves for the TUN is a
    packet whose source belonged, in the route table then in force, to one of [xs]. *)
Definition out_ok (xs : list (list byte)) (o : Output) : Prop :=
  match o with
  | RelayOut pk _ => pk ∈ xs
  | TunOut pkt => pkt ≠ [] ∧ ∃ pk n, pk ∈ xs ∧ accepts_source (rd_allowed (reading_at n)) pk pkt = true
  | UdpOut _ _ | TcpOut _ _ => True
  end.

(** The worker serves the peers [ks], its indices belong to [xs], and what it has sent
    since [base] concerns [xs] only. *)
Record inv (ks xs : list (list byte)) (base : list Output) (w : Worker C) : Prop := {
  iv_keys : p_pubkey <$> w_peers w = ks;
  iv_nodup : NoDup ks;
  iv_peers : Forall peer_ok (w_peers w);
  iv_index idx pk : local (w_index w) !! idx = Some pk → pk ∈ xs;
  iv_out : ∃ o, w_out w = base ++ o ∧ Forall (out_ok xs) o
}.

(** A peer in hand while its handler runs. *)
Definition good (pk : list byte) (p : Peer C) : Prop := peer_ok p ∧ p_pubkey p = pk.

(** A call of the cryptor that keeps it well-formed and present, and a success of which
    means that it is there. *)
Definition raw_safe {A} (f : Env → st (RawCryptor C) CryptoError A) : Prop :=
  ∀ env raw r raw', raw_ok raw → f env raw = (r, raw') →
    raw_ok raw' ∧ no_panic r ∧ (is_Some raw → is_Some raw') ∧ (is_ok r = true → is_Some raw').

Lemma raw_safe_data {A} (f : Env → st C CryptoError A) :
  (∀ env, triple cr_ok (f env) (fun _ => True)) → raw_safe (fun env => with_data (f env)).
Proof.
  intros Hf env raw r raw' Hr Heq. destruct (raw_with_data _ _ (Hf env) raw r raw' Hr Heq) as [Hok Ho].
  pose proof (with_data_spec (f env) raw) as Hs. rewrite Heq in Hs. destruct Hs as (Hk & Hsucc & _).
  split_and!; [done|by destruct r|done|]. intros E. by apply Hsucc.
Qed.

Lemma raw_safe_init pk : raw_safe (fun env => raw_init_handshake env own_priv pk).
Proof.
  intros env raw r raw' Hr Heq. destruct (raw_init_safe env own_priv pk raw r raw' Hr Heq) as [Hok Ho].
  pose proof (raw_step_spec (OpInit env own_priv pk) raw) as Hs. cbn in Hs. rewrite Heq in Hs.
  destruct Hs as (Hk & Hsucc & _). split_and!; [done|by destruct r|done|]. intros E. by apply Hsucc.
Qed.

Context (ks xs : list (list byte)) (base : list Output).
Local Abbreviation I := (inv ks xs base).

(** ** The primitives *)

Lemma inv_frame w w' :
  w_peers w' = w_peers w → w_index w' = w_index w → w_out w' = w_out w →
  I w → I w'.
Proof. intros Hp Hi Ho []. split; rewrite ?Hp, ?Hi, ?Ho; done. Qed.

Lemma inv_out o w : Forall (out_ok xs) o → I w → I (add_out o w).
Proof.
  intros Ho [Hk Hn Hp Hi (o' & Heq & Ho')]. split; try done. exists (o' ++ o). cbn.
  split; [by rewrite Heq, app_assoc|]. by apply Forall_app.
Qed.

Lemma triple_reading : triple I reading (fun r => ∃ n, r = reading_at n).
Proof. intros w r w' Hw [= <- <-]. split; [by apply (inv_frame w)|by eexists]. Qed.

Lemma triple_emit o : out_ok xs o → triple I (emit o) (fun _ => True).
Proof. intros Ho. apply triple_modify. intros w. apply inv_out. by constructor. Qed.

Lemma triple_send_all bytes l : triple I (send_all bytes l) (fun _ => True).
Proof.
  apply triple_modify. intros w. apply inv_out. apply Forall_fmap, list.Forall_true. done.
Qed.

Lemma triple_index f :
  (∀ x idx pk, local (f x).1 !! idx = Some pk → local x.1 !! idx = Some pk ∨ pk ∈ xs) →
  triple I (index_do f) (fun _ => True).
Proof.
  intros Hf. apply triple_modify. intros w [Hk Hn Hp Hi Ho]. split; try done. cbn.
  intros idx pk [Hl|?]%Hf; [by apply Hi in Hl|done].
Qed.

Lemma prune_local_sub pk x idx p :
  local (index_prune pk x).1 !! idx = Some p → local x.1 !! idx = Some p.
Proof.
  destruct x as [t owner]. destruct (slots t !! pk) as [s|] eqn:Hs; [|cbn; by rewrite Hs].
  intros [? _]%(prune_local _ _ _ s); done.
Qed.

Lemma insert_local_sub idx pk x i p :
  local (index_insert idx pk x).1 !! i = Some p → local x.1 !! i = Some p ∨ p = pk.
Proof.
  destruct x as [t owner]. unfold index_insert. set (t1 := mkIndexTable _ _ _).
  pose proof (prune_local_sub pk (t1, owner) i p) as Hsub.
  destruct (index_prune pk (t1, owner)) as [t' owner']. cbn in *.
  destruct (decide (idx = i)) as [->|Hne]; [rewrite lookup_insert_eq; intros [= <-]; auto|].
  rewrite lookup_insert_ne by done. auto.
Qed.

Lemma confirm_local_sub idx pk x i p :
  local (index_confirm idx pk x).1 !! i = Some p → local x.1 !! i = Some p.
Proof.
  destruct x as [t owner]. unfold index_confirm. destruct (slots t !! pk); [|done].
  case_bool_decide; [|done]. by intros ?%prune_local_sub.
Qed.

Lemma triple_insert_at bytes off pk : pk ∈ xs → triple I (insert_at bytes off pk) (fun _ => True).
Proof.
  intros Hpk. unfold insert_at. destruct (le_u32 bytes off); [|by apply triple_ret].
  apply triple_index. intros x idx p [?| ->]%insert_local_sub; auto.
Qed.

Lemma triple_confirm_at bytes off pk : triple I (confirm_at bytes off pk) (fun _ => True).
Proof.
  unfold confirm_at. destruct (le_u32 bytes off); [|by apply triple_ret].
  apply triple_index. intros x idx p ?%confirm_local_sub; auto.
Qed.

Lemma triple_remove_index pk : triple I (index_do (index_remove_peer pk)) (fun _ => True).
Proof.
  apply triple_index. intros [t o] idx p. cbn. rewrite map_lookup_filter_Some. intros [? _]. auto.
Qed.

(** ** Peers in hand *)

(** A peer whose changed fields are within their ranges is still good. *)
Ltac good_solve :=
  unfold good, peer_ok in *; cbn in *; destruct_and?; split_and?; first [done | lia | congruence | solve [auto] | tauto | intuition congruence].

Lemma triple_raw_call {A} (f : Env → st (RawCryptor C) CryptoError A) p pk :
  raw_safe f → good pk p →
  triple I (raw_call f p)
    (fun '(p', x) => good pk p' ∧ match x with inr _ => is_Some (p_raw p') | inl _ => True end).
Proof.
  intros Hf Hp. unfold raw_call. eapply triple_bind; [apply triple_reading|]. intros r _.
  destruct (f (rd_env r) (p_raw p)) as [x raw] eqn:Heq.
  pose proof Hp as [(Hraw & _) _]. destruct (Hf _ _ _ _ Hraw Heq) as (Hok & Hnp & Hk & Hs).
  destruct x as [a|e|]; [|apply triple_ret|done]; [apply triple_ret; split; [|by apply Hs]|split; [|done]];
    unfold good, peer_ok in *; cbn in *; destruct_and?; split_and?; auto.
Qed.

Lemma triple_relay : triple I relay_available (fun _ => True).
Proof.
  unfold relay_available. destruct relay_out; [|by apply triple_ret].
  eapply triple_bind; [apply triple_reading|]. intros r _. by apply triple_ret.
Qed.

Lemma triple_send p bytes : p_pubkey p ∈ xs → triple I (send_to_peer p bytes) (fun _ => True).
Proof.
  intros Hp. unfold send_to_peer. set (via_relay := a ← relay_available; _).
  assert (triple I via_relay (fun _ => True)) as Hrelay.
  { eapply triple_bind; [apply triple_relay|]. intros [|] _; [by apply triple_emit|].
    destruct (p_direct_addr p); [by apply triple_emit|by apply triple_ret]. }
  clearbody via_relay. repeat case_if; repeat case_match; try done; by apply triple_emit.
Qed.

Lemma triple_set_path p from via pk :
  good pk p → triple I (set_path p from via) (fun p' => good pk p' ∧ p_raw p' = p_raw p).
Proof.
  intros Hp. destruct via; cbn; [| |apply triple_ret; split; [good_solve|done]].
  - eapply triple_bind; [apply triple_reading|]. intros r _. apply triple_ret.
    split; [|by destruct from; cbn; destruct (p_relay_pinned p)].
    destruct from; cbn; destruct (p_relay_pinned p) eqn:Hpin; good_solve.
  - eapply triple_bind; [apply triple_reading|]. intros r _. apply triple_ret.
    split; [|by cbn; destruct (p_relay_pinned p)]. cbn. destruct (p_relay_pinned p) eqn:Hpin; good_solve.
Qed.

Lemma triple_done p pk : good pk p → triple I (handshake_done p) (good pk).
Proof.
  intros Hp. unfold handshake_done. do 3 (eapply triple_bind; [apply triple_reading|intros ? _]).
  apply triple_ret. good_solve.
Qed.

Lemma triple_ping_to targets p pk :
  good pk p → triple I (disco_ping_to targets p) (fun '(p', _) => good pk p').
Proof.
  intros Hp. unfold disco_ping_to. eapply triple_bind; [apply triple_reading|intros r _].
  apply (triple_bind _ _ _ (fun _ => True)); [by apply triple_get|intros w _].
  destruct (start _ _ _ _ _) as [o [probes routes]] eqn:Hs.
  apply start_cases in Hs as (Hseen & Hsize & _).
  apply (triple_bind _ _ _ (fun _ => True)).
  { apply triple_modify. intros w'. by apply inv_frame. }
  intros _ _. apply triple_ret. unfold good, peer_ok in *. cbn in *. rewrite Hseen. destruct_and?. split_and?; auto.
Qed.

Lemma triple_ping p pk : good pk p → triple I (disco_ping p) (fun '(p', _) => good pk p').
Proof. apply triple_ping_to. Qed.

Lemma inv_lookup w pos p : I w → w_peers w !! pos = Some p → good (p_pubkey p) p ∧ p_pubkey p ∈ ks.
Proof.
  intros [Hk Hn Hp _ _] Hpos. split; [split; [|done]; by eapply Forall_lookup_1|].
  rewrite <-Hk. by eapply list_elem_of_fmap_2, list_elem_of_lookup_2.
Qed.

(** Storing a peer back where it was. *)
Lemma triple_update pos p pk :
  good pk p → ks !! pos = Some pk → triple I (update_peer pos p) (fun _ => True).
Proof.
  intros [Hok Hpk] Hpos. apply triple_modify. intros w [Hk Hn Hp Hi Ho]. split; try done; cbn.
  - rewrite list_fmap_insert, Hk, Hpk. by apply list_insert_id.
  - by apply Forall_insert.
Qed.

Lemma find_peer_Some w pk pos p :
  I w → find_peer pk (w_peers w) = Some (pos, p) → good pk p ∧ ks !! pos = Some pk.
Proof.
  intros Hw (Hpos & Hpk & _)%list_find_Some. subst pk. split; [by apply (inv_lookup w pos)|].
  rewrite <-(iv_keys _ _ _ _ Hw), list_lookup_fmap, Hpos. done.
Qed.

Lemma list_find_good w (P : Peer C → Prop) `{!∀ p, Decision (P p)} pos p :
  I w → list_find P (w_peers w) = Some (pos, p) →
  good (p_pubkey p) p ∧ ks !! pos = Some (p_pubkey p) ∧ P p.
Proof.
  intros Hw (Hpos & HP & _)%list_find_Some. split_and!; [by apply (inv_lookup w pos)| |done].
  rewrite <-(iv_keys _ _ _ _ Hw), list_lookup_fmap, Hpos. done.
Qed.

Context (Hsub : ∀ pk, pk ∈ ks → pk ∈ xs).

Lemma key_in pos pk : ks !! pos = Some pk → pk ∈ xs.
Proof. intros Hp. by eapply Hsub, list_elem_of_lookup_2. Qed.

Lemma triple_send_good p pk bytes : good pk p → pk ∈ xs → triple I (send_to_peer p bytes) (fun _ => True).
Proof. intros [_ Hpk] Hin. apply triple_send. by rewrite Hpk. Qed.

(** Sequencing where the first result is of no interest. *)
Lemma triple_then {A B} (m : M C A) (k : A → M C B) P :
  triple I m (fun _ => True) → (∀ a, triple I (k a) P) → triple I (m ≫= k) P.
Proof. intros Hm Hk. eapply triple_bind; [exact Hm|]. intros a _. apply Hk. Qed.

Lemma triple_with_state {B} (k : Worker C → M C B) P :
  (∀ w, I w → triple I (k w) P) → triple I (get ≫= k) P.
Proof. intros Hk. apply (triple_bind _ _ _ I); [by apply triple_get|done]. Qed.

(** ** Handshakes and data *)

Lemma triple_answer pos pk resp p :
  good pk p → ks !! pos = Some pk → triple I (answer_init pos pk resp p) (fun _ => True).
Proof.
  intros Hp Hpos. unfold answer_init. destruct resp as [resp|]; [|by eapply triple_update].
  assert (good pk (set_p_last_resp (Some resp) p)) as Hp' by good_solve.
  apply triple_then; [by eapply triple_update|intros _].
  apply triple_then; [by eapply triple_insert_at, key_in|intros _]. eapply triple_send_good; [done|by eapply key_in].
Qed.

Lemma triple_accept_rekey bytes from via :
  cr_packet bytes → triple I (accept_rekey bytes from via) (fun _ => True).
Proof.
  intros Hb. unfold accept_rekey. apply triple_with_state. intros w Hw.
  destruct (peek_init_pubkey _ _ _) as [pk|]; [|by apply triple_ret].
  case_bool_decide; [|by apply triple_ret].
  destruct (find_peer pk (w_peers w)) as [[pos p]|] eqn:Hf; [|by apply triple_ret].
  apply find_peer_Some in Hf as [Hp Hpos]; [|done].
  eapply triple_bind; [apply triple_raw_call; [|done]|].
  { apply raw_safe_data. intros env. by apply rekey_respond_safe. }
  intros [p1 [e|resp]] [Hp1 _].
  - apply triple_then; [by eapply triple_update|intros _]. by apply triple_ret.
  - eapply triple_bind; [by apply (triple_set_path _ _ _ pk); good_solve|]. intros p2 [Hp2 _].
    eapply triple_bind; [by apply triple_done|]. intros p3 Hp3.
    apply triple_then; [by apply triple_answer|intros _]. by apply triple_ret.
Qed.

Lemma triple_accept_fresh bytes from via : triple I (accept_fresh bytes from via) (fun _ => True).
Proof.
  unfold accept_fresh. eapply triple_bind; [apply triple_reading|intros r _].
  destruct (raw_handle_handshake _ _ _ _ _) as [x fresh] eqn:Hx.
  destruct (raw_handle_safe (rd_env r) own_priv own_pub bytes raw_new x fresh Logic.I Hx) as [Hfresh Hnp].
  pose proof (raw_step_spec (OpHandle (rd_env r) own_priv own_pub bytes) raw_new) as Hs.
  cbn [raw_step starts] in Hs. rewrite Hx in Hs. cbn in Hs. destruct Hs as (_ & Hs & _).
  destruct x as [resp|e|]; [|by apply triple_ret|done].
  pose proof (raw_peer_public_safe fresh) as Hpub.
  destruct (raw_get_peer_public fresh).1 as [pk|e|]; [|by apply triple_ret|done].
  apply triple_with_state. intros w Hw.
  destruct (find_peer pk (w_peers w)) as [[pos p]|] eqn:Hf; [|by apply triple_ret].
  apply find_peer_Some in Hf as [Hp Hpos]; [|done]. destruct (Hs eq_refl) as [Hsome _].
  apply triple_then; [apply triple_remove_index|intros _].
  eapply triple_bind; [by apply (triple_set_path _ _ _ pk); good_solve|]. intros p2 [Hp2 Hraw]. cbn in Hraw.
  eapply triple_bind; [apply (triple_done _ pk); rewrite <-Hraw in Hsome; good_solve|]. intros p3 Hp3.
  by apply triple_answer.
Qed.

Lemma triple_accept_init bytes from via :
  cr_packet bytes → triple I (accept_init bytes from via) (fun _ => True).
Proof.
  intros Hb. unfold accept_init. apply triple_with_state. intros w Hw.
  destruct (list_find _ (w_peers w)) as [[pos p]|] eqn:Hf.
  - apply (list_find_good w) in Hf as (Hp & Hpos & _); [|done].
    destruct (p_last_resp p); [|by apply triple_ret]. eapply triple_send_good; [done|by eapply key_in].
  - apply triple_then; [by apply triple_accept_rekey|intros [|]]; [by apply triple_ret|].
    apply triple_accept_fresh.
Qed.

Lemma triple_handle_resp p bytes from via pk :
  good pk p → pk ∈ xs → triple I (handle_resp p bytes from via) (good pk).
Proof.
  intros Hp Hin. unfold handle_resp. eapply triple_bind; [apply triple_raw_call; [|done]|].
  { apply raw_safe_data. intros env. apply response_safe. }
  intros [p1 [e|u]] [Hp1 Hsome]; [by apply triple_ret|].
  apply triple_then; [apply triple_confirm_at|intros _].
  eapply triple_bind; [by apply triple_set_path|]. intros p2 [Hp2 Hraw].
  eapply triple_bind; [apply (triple_done _ pk); rewrite <-Hraw in Hsome; good_solve|]. intros p3 Hp3.
  eapply triple_bind; [apply triple_reading|intros r _].
  assert (good pk (note_rtt (rd_now r) p3)) as Hp4 by (unfold note_rtt; destruct (p_init_sent_at p3); good_solve).
  eapply triple_bind; [apply triple_raw_call; [|exact Hp4]|].
  { apply raw_safe_data. intros env. apply send_safe. }
  intros [p5 [e|ka]] [Hp5 _]; [by apply triple_ret|].
  apply triple_then; [by eapply triple_send_good|intros _]. by apply triple_ret.
Qed.

Lemma triple_handle_wg p bytes from via pk :
  cr_packet bytes → good pk p → pk ∈ xs →
  triple I (handle_wg p bytes from via)
    (fun '(p', pkt) => good pk p' ∧ pkt ≠ Some []).
Proof.
  intros Hb Hp Hin. unfold handle_wg. case_bool_decide.
  { eapply triple_bind; [by apply triple_handle_resp|]. intros p' Hp'. by apply triple_ret. }
  case_bool_decide; [|by apply triple_ret]. unfold handle_transport.
  eapply triple_bind; [apply triple_raw_call; [|exact Hp]|].
  { apply raw_safe_data. intros env. by apply recv_safe. }
  intros [p1 [e|pkt]] [Hp1 _]; [by apply triple_ret|].
  apply triple_then; [apply triple_confirm_at|intros _].
  eapply triple_bind; [apply (triple_set_path _ _ _ pk); good_solve|]. intros p2 [Hp2 _].
  eapply triple_bind; [apply triple_reading|intros r _]. apply triple_ret.
  split; [good_solve|]. case_bool_decide; congruence.
Qed.

Lemma triple_deliver pos bytes from via :
  cr_packet bytes → triple I (deliver_wg pos bytes from via) (fun _ => True).
Proof.
  intros Hb. unfold deliver_wg. apply triple_with_state. intros w Hw.
  destruct (w_peers w !! pos) as [p|] eqn:Hpos; [|by apply triple_ret].
  destruct (inv_lookup w pos p Hw Hpos) as [Hp Hin].
  assert (ks !! pos = Some (p_pubkey p)) as Hks by (by rewrite <-(iv_keys _ _ _ _ Hw), list_lookup_fmap, Hpos).
  eapply triple_bind; [by apply triple_handle_wg; [..|apply Hsub]|].
  intros [p1 [pkt|]] [Hp1 Hne]; [|by eapply triple_update].
  eapply triple_bind; [apply triple_reading|intros r [n ->]].
  destruct (accepts_source _ _ _) eqn:Hacc; [|eapply triple_update; [|done]; good_solve].
  apply triple_then; [by eapply triple_update|intros _]. apply triple_emit. split; [congruence|].
  destruct Hp1 as [_ Hpk1]. rewrite Hpk1 in Hacc. exists (p_pubkey p), n. auto.
Qed.

(** ** Probes *)

Lemma triple_on_ping from dgram body used tx_id sender :
  triple I (on_ping from dgram body used tx_id sender) (fun _ => True).
Proof.
  unfold on_ping. apply triple_with_state. intros w Hw.
  destruct (find_peer sender (w_peers w)) as [[pos p]|] eqn:Hf; [|by apply triple_ret].
  apply find_peer_Some in Hf as [Hp Hpos]; [|done]. case_if; [by apply triple_ret|].
  eapply triple_bind; [apply triple_reading|intros r _].
  pose proof (accept_ping_frame tx_id (rd_unix r) (p_probes p)) as [Hpend Hsize].
  destruct (accept_ping _ _ _) as [fresh probes]. cbn [snd] in *.
  assert (good sender (set_p_probes probes p)) as Hp1.
  { unfold good, peer_ok in *. cbn. rewrite Hpend. destruct_and?. split_and?; auto. }
  apply triple_then; [by eapply triple_update|intros _]. case_if; [by apply triple_ret|].
  apply triple_then; [by apply triple_emit|intros _]. case_if; [|by apply triple_ret].
  eapply triple_bind; [by apply triple_ping_to|]. intros [p2 ping] Hp2.
  apply triple_then; [by eapply triple_update|intros _].
  destruct ping; [by apply triple_emit|by apply triple_ret].
Qed.

Lemma triple_on_pong from dgram body used tx_id :
  triple I (on_pong from dgram body used tx_id) (fun _ => True).
Proof.
  unfold on_pong. eapply triple_bind; [apply triple_reading|intros r _].
  apply triple_with_state. intros w Hw.
  destruct (list_find _ (w_peers w)) as [[pos p]|] eqn:Hf; [|by apply triple_ret].
  apply (list_find_good w) in Hf as (Hp & Hpos & _); [|done]. case_if; [by apply triple_ret|].
  eapply triple_bind; [apply triple_reading|intros r2 _]. case_if; [by apply triple_ret|].
  unfold finish. destruct (negb (is_pending _ _ _ _)); cbn [negb].
  - apply triple_then; [by apply triple_modify; intros w'; apply inv_frame|intros _].
    eapply triple_update; [|done]. good_solve.
  - apply triple_then; [by apply triple_modify; intros w'; apply inv_frame|intros _].
    eapply triple_update; [|done].
    assert ((size (delete tx_id (pending (p_probes p))) ≤ size (pending (p_probes p)))%nat) as Hd.
    { rewrite <-!size_dom. apply subseteq_size. rewrite dom_delete_L. by intros x [? _]%elem_of_difference. }
    cbn. destruct (p_relay_pinned p) eqn:Hpin; good_solve.
Qed.

Lemma triple_on_udp from bytes : cr_packet bytes → triple I (on_udp_in from bytes) (fun _ => True).
Proof.
  intros Hb. unfold on_udp_in. case_bool_decide.
  - unfold on_disco. destruct (strip_prefix _ _) as [body|]; [|by apply triple_ret].
    destruct (decode body) as [[[tx_id sender|tx_id obs|cs] used]|e|] eqn:Hd; try by apply triple_ret.
    + apply triple_on_ping.
    + apply triple_on_pong.
    + by apply decode_never_panics in Hd.
  - case_bool_decide; [by apply triple_accept_init|]. apply triple_with_state. intros w Hw.
    destruct (receiver_index bytes ≫= _) as [[pos p]|]; [by apply triple_deliver|by apply triple_ret].
Qed.

Lemma triple_framed via src bytes : cr_packet bytes → triple I (on_framed_in via src bytes) (fun _ => True).
Proof.
  intros Hb. unfold on_framed_in. case_bool_decide; [by apply triple_accept_init|].
  apply triple_with_state. intros w Hw.
  destruct (find_peer src (w_peers w)) as [[pos p]|]; [by apply triple_deliver|by apply triple_ret].
Qed.

(** ** The tick *)

Lemma triple_keepalive_send p ka pk :
  good pk p → pk ∈ xs → triple I (keepalive_send p ka) (good pk).
Proof.
  intros Hp Hin. unfold keepalive_send. apply triple_then; [by eapply triple_send_good|intros _].
  case_if; [|by apply triple_ret]. eapply triple_bind; [by apply triple_ping|].
  intros [p1 [ping|]] Hp1; [|by apply triple_ret].
  apply triple_then; [|intros _; apply triple_then; [apply triple_send_all|intros _; by apply triple_ret]].
  destruct (p_direct_addr p1); [|by apply triple_ret].
  apply triple_then; [by apply triple_emit|intros _]. by apply triple_emit.
Qed.

Lemma triple_emit_rekey p pk :
  good pk p → pk ∈ xs → triple I (emit_rekey p) (fun '(p', _) => good pk p').
Proof.
  intros Hp Hin. unfold emit_rekey. eapply triple_bind; [apply triple_raw_call; [|exact Hp]|].
  { apply raw_safe_data. intros env. apply rekey_init_safe. }
  intros [p1 [e|init]] [Hp1 _]; [by apply triple_ret|].
  apply triple_then; [apply triple_insert_at; by destruct Hp1 as [_ ->]|intros _].
  eapply triple_bind; [apply triple_reading|intros r _].
  assert (good pk (note_rekey (rd_now r) p1)) as Hp2 by (unfold note_rekey; good_solve).
  apply triple_then; [by eapply triple_send_good|intros _]. by apply triple_ret.
Qed.

Lemma triple_tick_status p pk : good pk p → triple I (tick_status p) (good pk).
Proof.
  intros Hp. unfold tick_status. apply triple_then; [|intros tp; apply triple_ret; good_solve].
  repeat case_if;
    first [by apply triple_ret|apply triple_then; [apply triple_relay|intros a; by apply triple_ret]].
Qed.

Lemma triple_tick_probe p pk : good pk p → triple I (tick_probe p) (good pk).
Proof.
  intros Hp. unfold tick_probe. case_if; [|by apply triple_ret].
  eapply triple_bind; [by apply triple_ping|]. intros [p1 [ping|]] Hp1; [|by apply triple_ret].
  apply triple_then; [apply triple_send_all|intros _]. by apply triple_ret.
Qed.

Lemma triple_tick_handshaking now p pk :
  good pk p → pk ∈ xs → triple I (tick_handshaking now p) (good pk).
Proof.
  intros Hp Hin. unfold tick_handshaking. set (p0 := set_p_retries _ p).
  assert (good pk p0) as Hp0 by (unfold p0; good_solve). clearbody p0.
  apply (triple_bind _ _ _ (good pk)).
  - case_if; [|by apply triple_ret]. bool_prop. apply triple_then; [apply triple_relay|intros a].
    apply triple_ret. case_if; [good_solve|done].
  - intros p1 Hp1. destruct (p_init_packet p1); [|by apply triple_ret].
    apply triple_then; [by eapply triple_send_good|intros _]. apply triple_ret. good_solve.
Qed.

Lemma triple_tick_keepalive p pk : good pk p → pk ∈ xs → triple I (tick_keepalive p) (good pk).
Proof.
  intros Hp Hin. unfold tick_keepalive. eapply triple_bind; [apply triple_raw_call; [|exact Hp]|].
  { apply raw_safe_data. intros env. apply send_safe. }
  intros [p1 [e|out]] [Hp1 _]; [by apply triple_ret|]. case_bool_decide.
  { apply triple_keepalive_send; [good_solve|done]. }
  case_if; [|by apply triple_ret]. destruct (le_u32 out 4); [|by apply triple_ret].
  apply triple_then; [|intros _; apply triple_then; [by eapply triple_send_good|intros _; by apply triple_ret]].
  apply triple_index. intros x idx q [?| ->]%insert_local_sub; [by left|right]. by destruct Hp1 as [_ ->].
Qed.

Lemma triple_tick_silence now p pk : good pk p → pk ∈ xs → triple I (tick_silence now p) (good pk).
Proof.
  intros Hp Hin. unfold tick_silence. case_if; [|by apply triple_ret]. bool_prop.
  apply triple_then; [apply triple_relay|intros [|]]; [|by apply triple_ret].
  assert (good pk (pin_relay now p)) as Hp1.
  { unfold pin_relay, flap_count. cbn. destruct (p_last_upgrade p); [case_if|]; good_solve. }
  case_if; [|by apply triple_ret]. eapply triple_bind; [by apply triple_emit_rekey|].
  intros [p2 [|]] Hp2; apply triple_ret; [good_solve|done].
Qed.

Lemma triple_tick_rekey now p pk : good pk p → pk ∈ xs → triple I (tick_rekey now p) (good pk).
Proof.
  intros Hp Hin. unfold tick_rekey. apply triple_then; [apply triple_relay|intros a].
  case_if; [|by apply triple_ret]. eapply triple_bind; [by apply triple_emit_rekey|].
  intros [p2 [|]] Hp2; apply triple_ret; [good_solve|done].
Qed.

Lemma good_upgrade now p pk : good pk p → good pk (tick_upgrade now p).
Proof. intros Hp. unfold tick_upgrade. case_if; [good_solve|done]. Qed.

Lemma triple_tick_peer now p pk : good pk p → pk ∈ xs → triple I (tick_peer now p) (good pk).
Proof.
  intros Hp Hin. unfold tick_peer. eapply triple_bind; [by apply triple_tick_status|]. intros p1 Hp1.
  eapply triple_bind; [by apply triple_tick_probe|]. intros p2 Hp2.
  case_if; [by apply triple_tick_handshaking|]. eapply triple_bind; [by apply triple_tick_keepalive|].
  intros p3 Hp3. eapply triple_bind; [by apply triple_tick_silence|]. intros p4 Hp4.
  by apply triple_tick_rekey; [apply good_upgrade|].
Qed.

Lemma triple_mapM {A B} (f : A → M C B) (Q : A → B → Prop) l :
  (∀ x, x ∈ l → triple I (f x) (Q x)) → triple I (mapM f l) (fun l' => Forall2 Q l l').
Proof.
  induction l as [|x l IH]; intros Hf; cbn; [apply triple_ret; constructor|].
  eapply triple_bind; [apply Hf, list_elem_of_here|]. intros y Hy.
  eapply triple_bind; [apply IH; intros z Hz; apply Hf; by apply elem_of_cons; right|].
  intros k Hk. apply triple_ret. by constructor.
Qed.

Lemma triple_on_tick : triple I on_tick (fun _ => True).
Proof.
  unfold on_tick. eapply triple_bind; [apply triple_reading|intros r _].
  apply triple_with_state. intros w Hw.
  eapply triple_bind; [apply (triple_mapM _ (fun p => good (p_pubkey p)))|].
  - intros p [pos Hpos]%list_elem_of_lookup. destruct (inv_lookup w pos p Hw Hpos) as [Hp Hin].
    apply triple_tick_peer; auto.
  - intros peers Hpeers. apply triple_modify. intros w' [Hk Hn Hp Hi Ho]. split; try done; cbn.
    + rewrite <-(iv_keys _ _ _ _ Hw). clear -Hpeers. induction Hpeers as [|p p' l l' [_ Hpk] _ IH]; cbn; congruence.
    + clear -Hpeers. induction Hpeers as [|p p' l l' [Hok _] _ IH]; by constructor.
Qed.

(** ** Connections, endpoints, egress *)

Lemma triple_on_tcp_conn pk conn_gen out : triple I (on_tcp_conn pk conn_gen out) (fun _ => True).
Proof.
  unfold on_tcp_conn. apply triple_with_state. intros w Hw.
  destruct (find_peer pk (w_peers w)) as [[pos p]|] eqn:Hf; [|by apply triple_ret].
  apply find_peer_Some in Hf as [Hp Hpos]; [|done].
  destruct out; [|case_if; [|by apply triple_ret]]; (eapply triple_update; [|done]); good_solve.
Qed.

Lemma triple_update_candidates pk candidates :
  triple I (on_update_candidates pk candidates) (fun _ => True).
Proof.
  unfold on_update_candidates. apply triple_with_state. intros w Hw.
  destruct (find_peer pk (w_peers w)) as [[pos p]|] eqn:Hf; [|by apply triple_ret].
  apply find_peer_Some in Hf as [Hp Hpos]; [|done].
  set (p1 := set_p_disco_validated _ _). assert (good pk p1) as Hp1 by (unfold p1; good_solve). clearbody p1.
  case_if; [by eapply triple_update|]. eapply triple_bind; [by apply triple_ping|].
  intros [p2 ping] Hp2. apply triple_then; [by eapply triple_update|intros _].
  destruct ping; [apply triple_send_all|by apply triple_ret].
Qed.

Lemma inv_gso b out w : I w → I (add_out (to_wire out) (set_gso b w)).
Proof.
  intros Hw. apply inv_out; [|by apply (inv_frame w)].
  apply Forall_fmap, list.Forall_true. by intros [].
Qed.

Lemma triple_flush : triple I flush_gso (fun _ => True).
Proof.
  unfold flush_gso. eapply triple_bind; [apply triple_reading|intros r _]. apply triple_modify.
  intros w Hw. destruct (gso_flush _ _). by apply inv_gso.
Qed.

Lemma triple_push addr pkt : triple I (push_gso addr pkt) (fun _ => True).
Proof.
  unfold push_gso. do 2 (eapply triple_bind; [apply triple_reading|intros ? _]). apply triple_modify.
  intros w Hw. destruct (gso_push _ _ _ _ _). by apply inv_gso.
Qed.

Lemma triple_egress pk pkt : triple I (on_tun_egress pk pkt) (fun _ => True).
Proof.
  unfold on_tun_egress. apply triple_with_state. intros w Hw.
  destruct (find_live pk (w_peers w)) as [[pos p]|] eqn:Hf; [|by apply triple_ret].
  apply (list_find_good w) in Hf as (Hp & Hpos & Hpk & _); [|done]. subst pk.
  pose proof (key_in _ _ Hpos) as Hin.
  eapply triple_bind; [apply triple_raw_call; [|exact Hp]|].
  { apply raw_safe_data. intros env. apply send_safe. }
  intros [p1 [e|enc]] [Hp1 _]; [by eapply triple_update|]. case_bool_decide.
  - apply triple_then; [by eapply triple_update|intros _]. case_if; [|by apply triple_ret].
    apply triple_then; [by apply triple_insert_at|intros _].
    apply triple_then; [apply triple_flush|intros _]. by eapply triple_send_good.
  - set (p2 := set_p_stat _ p1). assert (good (p_pubkey p) p2) as Hp2 by (unfold p2; good_solve). clearbody p2.
    assert (triple I (_ ← flush_gso; send_to_peer p2 enc) (fun _ => True)) as Hladder.
    { apply triple_then; [apply triple_flush|intros _]. by eapply triple_send_good. }
    apply triple_then; [by eapply triple_update|intros _].
    destruct (p_direct_addr p2); [|done]. case_if; [apply triple_push|done].
Qed.
End Inv.

(** ** Membership *)

Section Members.
Context `{Crypto} {C : Type} `{CryptorSafe C} `{Host}.

(** The peers a worker serves after a message. *)
Definition members (ks : list (list byte)) (msg : WorkerMsg) : list (list byte) :=
  match msg with
  | MAddPeer pk _ _ _ => if bool_decide (pk ∈ ks) then ks else ks ++ [pk]
  | MRemovePeer pk => filter (fun k => k ≠ pk) ks
  | _ => ks
  end.

(** The peers a message concerns: those before it and the one it adds. *)
Definition concerned (ks : list (list byte)) (msg : WorkerMsg) : list (list byte) :=
  match msg with MAddPeer pk _ _ _ => ks ++ [pk] | _ => ks end.

Definition msg_ok (msg : WorkerMsg) : Prop :=
  match msg with
  | MUdpIn _ bytes | MRelayIn _ bytes | MTcpIn _ bytes => cr_packet bytes
  | _ => True
  end.

Lemma inv_weaken ks xs xs' base (w : Worker C) :
  (∀ pk, pk ∈ xs → pk ∈ xs') → inv ks xs base w → inv ks xs' base w.
Proof.
  intros Hsub [Hk Hn Hp Hi (o & Ho & Hf)]. split; try done; [by eauto|]. exists o. split; [done|].
  eapply list.Forall_impl; [exact Hf|]. intros [| |pk bytes|pkt]; cbn; auto.
  intros (Hne & pk & n & Hin & Hacc). split; [done|]. exists pk, n. auto.
Qed.

Lemma triple_new_peer ks xs base pk candidates allowed_ips initiator :
  pk ∈ xs →
  triple (inv ks xs base) (new_peer (C:=C) pk candidates allowed_ips initiator)
    (fun p => good pk p).
Proof.
  intros Hin. unfold new_peer. eapply triple_then.
  { apply triple_modify. intros w. by apply inv_frame. }
  intros _. set (p0 := peer_fresh _ _ _). assert (good (C:=C) pk p0) as Hp0.
  { split; [|done]. split_and!; cbn; try done; try lia; unfold CAPACITY; rewrite map_size_empty; lia. }
  clearbody p0. apply (triple_bind _ _ _ (good pk)).
  { case_if; [by apply triple_ret|]. eapply triple_bind; [by apply triple_ping|].
    intros [p1 [ping|]] Hp1; [|by apply triple_ret].
    eapply triple_then; [apply triple_send_all|intros _]. by apply triple_ret. }
  intros p1 Hp1. case_if; [|by apply triple_ret].
  eapply triple_bind; [apply triple_raw_call; [apply raw_safe_init|exact Hp1]|].
  intros [p2 [e|init]] [Hp2 _]; [by apply triple_ret|].
  eapply triple_then; [apply triple_insert_at; by destruct Hp2 as [_ ->]|intros _].
  eapply triple_then; [apply triple_send; by destruct Hp2 as [_ ->]|intros _].
  eapply triple_bind; [apply triple_reading|intros r _]. apply triple_ret.
  unfold good, peer_ok in *. cbn. destruct_and?. by split_and?.
Qed.

Lemma exists_key ks xs base (w : Worker C) pk :
  inv ks xs base w → Exists (fun p => p_pubkey p = pk) (w_peers w) ↔ pk ∈ ks.
Proof.
  intros [<- _ _ _ _]. rewrite list_elem_of_fmap, list.Exists_exists. split; intros (p & Hp & Hk); exists p; auto.
Qed.

Lemma add_peer_ok ks base (w : Worker C) pk candidates allowed_ips initiator r w' :
  inv ks (ks ++ [pk]) base w →
  on_add_peer pk candidates allowed_ips initiator w = (r, w') →
  inv (members ks (MAddPeer pk candidates allowed_ips initiator)) (ks ++ [pk]) base w' ∧ no_panic r.
Proof.
  intros Hw. unfold on_add_peer. erewrite st_bind_Ok by done.
  pose proof (exists_key _ _ _ w pk Hw) as Hex. cbn [members].
  rewrite (bool_decide_ext _ _ Hex). case_bool_decide as Hin; [by intros [= <- <-]|].
  unfold mbind, st_bind. destruct (new_peer _ _ _ _ w) as [x w1] eqn:Hx.
  apply (triple_new_peer ks (ks ++ [pk]) base) in Hx as [Hw1 Hp]; [|apply elem_of_app; right; by apply list_elem_of_singleton|done].
  destruct x as [p|[]|]; [|done]. intros [= <- <-]. split; [|done]. destruct Hp as [Hp Hpk].
  destruct Hw1 as [Hk Hn Hps Hi Ho]. split; cbn; try done.
  - by rewrite fmap_app, Hk; cbn; rewrite Hpk.
  - apply list.NoDup_app. split_and!; [done| |apply list.NoDup_singleton].
    by intros k Hk' ->%list_elem_of_singleton.
  - apply Forall_app. split; [done|]. by constructor.
Qed.

Lemma filter_all {A} (P : A → Prop) `{!∀ x, Decision (P x)} (l : list A) : (∀ x, x ∈ l → P x) → filter P l = l.
Proof.
  induction l as [|x l IH]; intros Hl; [done|]. rewrite filter_cons, decide_True by apply Hl, list_elem_of_here.
  f_equal. apply IH. intros y Hy. apply Hl. by apply elem_of_cons; right.
Qed.

Lemma keys_filter pk (l : list (Peer C)) :
  p_pubkey <$> filter (fun p => p_pubkey p ≠ pk) l = filter (fun k => k ≠ pk) (p_pubkey <$> l).
Proof.
  induction l as [|p l IH]; [done|]. rewrite fmap_cons, !filter_cons.
  destruct (decide (p_pubkey p ≠ pk)); cbn; congruence.
Qed.

Lemma inv_rebase ks xs base (w : Worker C) : inv ks xs base w → inv ks xs (w_out w) w.
Proof. intros [Hk Hn Hp Hi Ho]. split; try done. exists []. by rewrite app_nil_r. Qed.

Lemma remove_peer_ok ks base (w : Worker C) pk r w' :
  inv ks ks base w → on_remove_peer pk w = (r, w') →
  inv (members ks (MRemovePeer pk)) (members ks (MRemovePeer pk)) (w_out w') w' ∧
  w_out w' = w_out w ∧ no_panic r.
Proof.
  intros Hw [= <- <-]. pose proof Hw as [Hk Hn Hp Hi Ho]. cbn [members].
  case_bool_decide as Hlen; split_and!; try done.
  - replace (filter (fun k => k ≠ pk) ks) with ks; [by eapply inv_rebase|].
    rewrite <-Hk, <-keys_filter. f_equal. symmetry. apply filter_all. intros p Hin.
    intros Hpk. apply (Nat.lt_irrefl (length (w_peers w))). rewrite <-Hlen at 1.
    apply length_filter_lt with p; [done|]. by intros [].
  - split; cbn.
    + by rewrite keys_filter, Hk.
    + by apply list.NoDup_filter.
    + apply list.Forall_forall. intros p [_ Hin]%list_elem_of_filter. by eapply list.Forall_forall in Hp.
    + intros idx p. rewrite map_lookup_filter_Some. intros [Hl Hne]. apply list_elem_of_filter.
      split; [done|]. by eapply Hi.
    + exists []. by rewrite app_nil_r.
Qed.

(** What a handler that changes no membership does. *)
Lemma triple_handled ks (m : M C unit) (w : Worker C) r w' :
  (∀ base, triple (inv ks ks base) m (fun _ => True)) → inv ks ks (w_out w) w → m w = (r, w') →
  r = Ok tt ∧ inv ks ks (w_out w') w' ∧ ∃ o, w_out w' = w_out w ++ o ∧ Forall (out_ok ks) o.
Proof.
  intros Hm Hw Heq. destruct (Hm _ _ _ _ Hw Heq) as [Hw' Hr]. destruct r as [[]|[]|]; [|done].
  split_and!; [done|by eapply inv_rebase|apply Hw'].
Qed.

Lemma triple_flush_then ks base (m : M C unit) :
  triple (inv ks ks base) m (fun _ => True) → triple (inv ks ks base) (_ ← flush_gso; m) (fun _ => True).
Proof. intros Hm. apply triple_then; [apply triple_flush|done]. Qed.

(** One message: no panic, the membership it asks for, and outputs that concern it. *)
Lemma handle_ok ks msg (w : Worker C) r w' :
  inv ks ks (w_out w) w → msg_ok msg → handle msg w = (r, w') →
  r = Ok tt ∧ inv (members ks msg) (members ks msg) (w_out w') w' ∧
  ∃ o, w_out w' = w_out w ++ o ∧ Forall (out_ok (concerned ks msg)) o.
Proof.
  intros Hw Hm. destruct msg as [|from bytes|src bytes|src bytes|pk g out|pk pkt|pk cs ips ini|pk|pk cs];
    cbn [handle members concerned msg_ok] in *.
  - apply triple_handled; [|done]. intros base. by apply triple_flush_then, triple_on_tick.
  - apply triple_handled; [|done]. intros base. by apply triple_flush_then, triple_on_udp.
  - apply triple_handled; [|done]. intros base. by apply triple_flush_then, triple_framed.
  - apply triple_handled; [|done]. intros base. by apply triple_flush_then, triple_framed.
  - apply triple_handled; [|done]. intros base. by apply triple_on_tcp_conn.
  - apply triple_handled; [|done]. intros base. by apply triple_egress.
  - intros Heq. assert (inv ks (ks ++ [pk]) (w_out w) w) as Hw0.
    { eapply inv_weaken; [|exact Hw]. intros k Hk. apply elem_of_app. by left. }
    revert Heq. unfold mbind, st_bind. destruct (flush_gso w) as [x w1] eqn:Hx.
    destruct (triple_flush ks (ks ++ [pk]) (w_out w) w x w1 Hw0 Hx) as [Hw1 Hr1].
    destruct x as [[]|[]|]; [|done]. intros Heq.
    destruct (add_peer_ok ks (w_out w) w1 pk cs ips ini r w' Hw1 Heq) as [Hw' Hr].
    destruct r as [[]|[]|]; [|done]. split_and!; [done| |apply Hw'].
    eapply inv_rebase, inv_weaken; [|exact Hw']. cbn. intros k Hk.
    case_bool_decide as Hin; [|done]. apply elem_of_app in Hk as [Hk| ->%list_elem_of_singleton]; done.
  - intros Heq. destruct (remove_peer_ok ks (w_out w) w pk r w' Hw Heq) as (Hw' & Ho & Hr).
    destruct r as [[]|[]|]; [|done]. split_and!; [done..|]. exists []. by rewrite Ho, app_nil_r.
  - apply triple_handled; [|done]. intros base. by apply triple_flush_then, triple_update_candidates.
Qed.

(** The peers served after a sequence of messages, and all those it concerned. *)
Definition served (ks : list (list byte)) (msgs : list WorkerMsg) : list (list byte) := foldl members ks msgs.

Fixpoint ever (ks : list (list byte)) (msgs : list WorkerMsg) : list (list byte) :=
  match msgs with [] => ks | msg :: msgs => concerned ks msg ++ ever (members ks msg) msgs end.

Lemma out_ok_weaken xs xs' o : (∀ pk, pk ∈ xs → pk ∈ xs') → out_ok xs o → out_ok xs' o.
Proof.
  intros Hsub. destruct o as [| |pk bytes|pkt]; cbn; auto.
  intros (Hne & pk & n & Hin & Hacc). split; [done|]. exists pk, n. auto.
Qed.

Lemma ever_start ks msgs pk : pk ∈ ks → pk ∈ ever ks msgs.
Proof.
  intros Hin. destruct msgs as [|msg msgs]; [done|]. cbn. apply elem_of_app. left.
  destruct msg; cbn; try done. apply elem_of_app. by left.
Qed.

Lemma handle_all_ok msgs : ∀ ks (w : Worker C) r w',
  inv ks ks (w_out w) w → Forall msg_ok msgs → mapM handle msgs w = (r, w') →
  is_ok r = true ∧ inv (served ks msgs) (served ks msgs) (w_out w') w' ∧
  ∃ o, w_out w' = w_out w ++ o ∧ Forall (out_ok (ever ks msgs)) o.
Proof.
  induction msgs as [|msg msgs IH]; intros ks w r w' Hw Hms; cbn [mapM].
  - intros [= <- <-]. split_and!; [done..|]. exists []. by rewrite app_nil_r.
  - apply Forall_cons_1 in Hms as [Hm Hms]. unfold mbind, st_bind.
    destruct (handle msg w) as [x w1] eqn:Hx. destruct (handle_ok ks msg w x w1 Hw Hm Hx) as (-> & Hw1 & o1 & Ho1 & Hf1).
    destruct (mapM handle msgs w1) as [y w2] eqn:Hy. destruct (IH _ _ _ _ Hw1 Hms Hy) as (Hok & Hw2 & o2 & Ho2 & Hf2).
    destruct y as [l|[]|]; [|done]. intros [= <- <-]. split_and!; [done..|].
    exists (o1 ++ o2). split; [by rewrite Ho2, Ho1, app_assoc|]. cbn. apply Forall_app. split.
    + eapply list.Forall_impl; [exact Hf1|]. intros o. apply out_ok_weaken. intros k Hk. apply elem_of_app. by left.
    + eapply list.Forall_impl; [exact Hf2|]. intros o. apply out_ok_weaken. intros k Hk. apply elem_of_app. by right.
Qed.
End Members.
