(* ===== verification/WorkerPath.v ===== *)
(** * Where packets and paths come from

    The provenance of the two things an outsider would like to control: the packets a
    worker writes to the TUN, and the address it sends a peer's traffic to. *)

From S2P Require Import Prelude.
From S2P Require Import Words.
From S2P Require Import NetAddr.
From S2P Require Import Disco.
From S2P Require Import CryptoError.
From S2P Require Import Crypto.
From S2P Require Import Cryptor.
From S2P Require Import RouteTable.
From S2P Require Import IndexTable.
From S2P Require Import Probes.
From S2P Require Import Gso.
From S2P Require Import Peer.
From S2P Require Import Worker.

Section Path.
Context `{Crypto} {C : Type} `{Cryptor C} `{Host}.

(** The packets written to the TUN. *)
Definition tuns (w : Worker C) : list (list byte) :=
  omap (fun o => match o with TunOut pkt => Some pkt | _ => None end) (w_out w).

(** What most of the code leaves alone: the peers and the TUN. *)
Definition view (w : Worker C) : list (Peer C) * list (list byte) := (w_peers w, tuns w).

(** The computation leaves them alone, and takes its readings one after the other. *)
Definition spares_view {A} (m : M C A) : Prop :=
  ∀ w r w', m w = (r, w') → view w' = view w ∧ (w_clock w ≤ w_clock w')%nat.

(** The readings taken between two states of the worker. *)
Definition during (w w' : Worker C) (n : nat) : Prop := (w_clock w ≤ n < w_clock w')%nat.

(** The state of the relay pin: whether, since when, after how many flaps, and when the
    peer last left the relay. *)
Definition pin (p : Peer C) : bool * option Z * Z * option Z :=
  (p_relay_pinned p, p_pinned_at p, p_flaps p, p_last_upgrade p).

(** The peer is the same, on the same path, with the same pin. *)
Definition same_path (p p' : Peer C) : Prop :=
  p_pubkey p' = p_pubkey p ∧ p_direct_addr p' = p_direct_addr p ∧ pin p' = pin p.

#[global] Instance same_path_preorder : PreOrder same_path.
Proof. split; [done|]. intros x y z (? & ? & ?) (? & ? & ?). split_and!; congruence. Qed.

(** ** The computations that leave the view alone *)

Lemma tuns_add o (w : Worker C) :
  (∀ pkt, TunOut pkt ∉ o) → tuns (add_out o w) = tuns w.
Proof.
  intros Ho. unfold tuns. cbn. rewrite omap_app. set (f := fun o => _).
  assert (omap f o = []) as ->; [|by rewrite app_nil_r].
  induction o as [|x o IH]; [done|]. cbn. rewrite IH by (intros pkt Hin; apply (Ho pkt), elem_of_cons; by right).
  destruct x; try done. destruct (Ho pkt). apply list_elem_of_here.
Qed.

Lemma spares_view_bind {A B} (m : M C A) (f : A → M C B) : spares_view m → (∀ a, spares_view (f a)) → spares_view (m ≫= f).
Proof.
  intros Hm Hf w r w'. unfold mbind, st_bind. destruct (m w) as [[a|e|] w1] eqn:Em; intros Hr.
  - apply Hf in Hr as [Hv Hc]. apply Hm in Em as [Hv1 Hc1]. split; [congruence|lia].
  - injection Hr as _ <-. by eapply Hm.
  - injection Hr as _ <-. by eapply Hm.
Qed.

Lemma spares_view_lift {A} (m : res Empty_set A) : spares_view (lift m).
Proof. by intros w r w' [= _ <-]. Qed.

Lemma spares_view_get : spares_view get.
Proof. by intros w r w' [= _ <-]. Qed.

Lemma spares_view_ret {A} (a : A) : spares_view (mret a).
Proof. by intros w r w' [= _ <-]. Qed.

Lemma spares_view_modify f : (∀ w, view (f w) = view w ∧ (w_clock w ≤ w_clock (f w))%nat) → spares_view (modify f).
Proof. intros Hf w r w' [= _ <-]. apply Hf. Qed.

Lemma view_add o : (∀ pkt, TunOut pkt ∉ o) → spares_view (modify (add_out o)).
Proof. intros Ho. apply spares_view_modify. intros w. unfold view. by rewrite tuns_add. Qed.

Lemma view_reading : spares_view reading.
Proof. intros w r w' [= <- <-]. split; [done|]. cbn. lia. Qed.

Lemma view_emit o : (∀ pkt, o ≠ TunOut pkt) → spares_view (emit (C:=C) o).
Proof. intros Ho. apply view_add. intros pkt Hin%list_elem_of_singleton. by apply (Ho pkt). Qed.

Lemma view_send_all bytes l : spares_view (send_all (C:=C) bytes l).
Proof. apply view_add. by intros pkt (c & ? & _)%list_elem_of_fmap. Qed.

Lemma view_index f : spares_view (index_do (C:=C) f).
Proof. by apply spares_view_modify. Qed.

Lemma view_raw_call {A} (f : Env → st (RawCryptor C) CryptoError A) p : spares_view (raw_call f p).
Proof.
  unfold raw_call. apply spares_view_bind; [apply view_reading|intros r].
  destruct (f _ _) as [[] raw]; apply spares_view_ret || apply spares_view_lift.
Qed.

Lemma view_available : spares_view (relay_available (C:=C)).
Proof. unfold relay_available. destruct relay_out; [|apply spares_view_ret]. apply spares_view_bind; [apply view_reading|intros; apply spares_view_ret]. Qed.
End Path.

#[export] Hint Resolve spares_view_lift spares_view_get spares_view_ret spares_view_modify : st_db.
#[export] Hint Resolve view_reading view_send_all view_index view_raw_call view_available : st_db.
#[export] Hint Extern 1 (spares_view (emit _)) => apply view_emit; done : st_db.

(** Follow the binds, tests and matches of a computation that leaves the view alone. *)
Ltac spares_view :=
  repeat first
    [ solve [eauto with st_db]
    | apply spares_view_bind; [|intros ?]
    | case_if
    | match goal with |- spares_view (match ?x with _ => _ end) => destruct x end ].

Section Path2.
Context `{Crypto} {C : Type} `{Cryptor C} `{Host}.

Lemma view_send p bytes : spares_view (send_to_peer (C:=C) p bytes).
Proof. unfold send_to_peer. spares_view. Qed.

Lemma view_insert bytes off pk : spares_view (insert_at (C:=C) bytes off pk).
Proof. unfold insert_at. spares_view. Qed.

Lemma view_confirm bytes off pk : spares_view (confirm_at (C:=C) bytes off pk).
Proof. unfold confirm_at. spares_view. Qed.

Lemma view_set_path p from via : spares_view (set_path (C:=C) p from via).
Proof. unfold set_path. spares_view. Qed.

Lemma view_done p : spares_view (handshake_done (C:=C) p).
Proof. unfold handshake_done. spares_view. Qed.

Lemma view_ping_to targets p : spares_view (disco_ping_to (C:=C) targets p).
Proof.
  unfold disco_ping_to. apply spares_view_bind; [eauto with st_db|intros r].
  apply spares_view_bind; [eauto with st_db|intros w]. destruct (start _ _ _ _ _) as [o [probes routes]].
  apply spares_view_bind; [by apply spares_view_modify|intros; eauto with st_db].
Qed.

Lemma view_ping p : spares_view (disco_ping (C:=C) p).
Proof. apply view_ping_to. Qed.

Lemma view_flush : spares_view (flush_gso (C:=C)).
Proof.
  unfold flush_gso. apply spares_view_bind; [eauto with st_db|intros r]. apply spares_view_modify. intros w.
  destruct (gso_flush _ _) as [b out]. unfold view. rewrite tuns_add; [done|].
  by intros pkt ([] & ? & _)%list_elem_of_fmap.
Qed.

Lemma view_push addr pkt : spares_view (push_gso (C:=C) addr pkt).
Proof.
  unfold push_gso. do 2 (apply spares_view_bind; [eauto with st_db|intros ?]). apply spares_view_modify. intros w.
  destruct (gso_push _ _ _ _ _) as [b out]. unfold view. rewrite tuns_add; [done|].
  by intros p' ([] & ? & _)%list_elem_of_fmap.
Qed.
End Path2.

#[export] Hint Resolve view_send view_insert view_confirm view_set_path view_done view_ping_to
  view_ping view_flush view_push : st_db.

Section Path3.
Context `{Crypto} {C : Type} `{Cryptor C} `{Host}.

Lemma view_emit_rekey p : spares_view (emit_rekey (C:=C) p).
Proof. unfold emit_rekey. spares_view. Qed.

Lemma view_keepalive p ka : spares_view (keepalive_send (C:=C) p ka).
Proof. unfold keepalive_send. spares_view. Qed.

Lemma view_handle_resp p bytes from via : spares_view (handle_resp (C:=C) p bytes from via).
Proof. unfold handle_resp. spares_view. Qed.

Lemma view_handle_transport p bytes from via : spares_view (handle_transport (C:=C) p bytes from via).
Proof. unfold handle_transport. spares_view. Qed.

End Path3.
#[export] Hint Resolve view_emit_rekey view_keepalive view_handle_resp view_handle_transport : st_db.

Section Path4.
Context `{Crypto} {C : Type} `{Cryptor C} `{Host}.

Lemma view_handle_wg p bytes from via : spares_view (handle_wg (C:=C) p bytes from via).
Proof. unfold handle_wg. spares_view. Qed.

Lemma view_tick_peer now p : spares_view (tick_peer (C:=C) now p).
Proof.
  unfold tick_peer, tick_status, tick_probe, tick_handshaking, tick_keepalive, tick_silence, tick_rekey. spares_view.
Qed.

Lemma view_new_peer pk cs ips ini : spares_view (new_peer (C:=C) pk cs ips ini).
Proof. unfold new_peer. spares_view. Qed.
End Path4.

(** ** What happens to a peer in hand *)

(** Step over the computations that do not produce the peer, split the tests, and close
    a returned peer by its fields. *)
Ltac path_step :=
  first
    [ apply returns_panic
    | apply returns_ret
    | apply returns_skip; intros ?
    | case_if
    | match goal with |- returns (match ?x with _ => _ end) _ => destruct x end ].

Section Hand.
Context `{Crypto} {C : Type} `{Cryptor C} `{Host}.

(** The call was made on the session the peer had, and the peer is otherwise unchanged. *)
Definition called {A} (f : Env → st (RawCryptor C) CryptoError A) (p : Peer C)
    (x : Peer C * (CryptoError + A)) : Prop :=
  ∃ env raw, x.1 = set_p_raw raw p ∧
    match x.2 with inr a => f env (p_raw p) = (Ok a, raw) | inl e => f env (p_raw p) = (Err e, raw) end.

(** The reading the call is made at. *)
Definition at_reading {A} (f : Env → A) (w : Worker C) : Env → A := fun _ => f (rd_env (reading_at (w_clock w))).

Lemma called_at {A} (f : Env → st (RawCryptor C) CryptoError A) p x (w w' : Worker C) :
  raw_call f p w = (Ok x, w') → called (at_reading f w) p x ∧ w_clock w' = S (w_clock w).
Proof.
  unfold raw_call. intros (r & w1 & [= <- <-] & Hr)%st_bind_Ok_inv.
  destruct (f _ (p_raw p)) as [[a|e|] raw] eqn:Hf; injection Hr as <- <- || done;
    (split; [|done]); by exists (rd_env (reading_at (w_clock w))), raw.
Qed.

Lemma after_call {A B} (f : Env → st (RawCryptor C) CryptoError A) p (k : _ → M C B) Q (w w' : Worker C) b :
  (raw_call f p ≫= k) w = (Ok b, w') → (∀ x, spares_view (k x)) →
  (∀ x, called (at_reading f w) p x → returns (k x) Q) → Q b ∧ (w_clock w < w_clock w')%nat.
Proof.
  intros (x & w1 & [Hc Hw1]%called_at & Hr)%st_bind_Ok_inv Hk HQ. split; [by eapply HQ|].
  apply Hk in Hr as [_ ?]. lia.
Qed.

Lemma ret_raw_call {A} (f : Env → st (RawCryptor C) CryptoError A) p : returns (raw_call f p) (called f p).
Proof.
  unfold raw_call. apply returns_skip. intros r. destruct (f (rd_env r) (p_raw p)) as [[a|e|] raw] eqn:Hf;
    [apply returns_ret|apply returns_ret|apply returns_panic]; by exists (rd_env r), raw.
Qed.

Lemma called_path {A} (f : Env → st (RawCryptor C) CryptoError A) p x : called f p x → same_path p x.1.
Proof. by intros (env & raw & -> & _). Qed.

(** The path of a peer after a message: only the UDP rung moves it, to the source. *)
Definition moved_to (from : option SocketAddr) (via : Via) (p p' : Peer C) : Prop :=
  p_pubkey p' = p_pubkey p ∧ pin p' = pin p ∧
  (p_direct_addr p' = p_direct_addr p ∨ via = ViaUdp ∧ ∃ f, from = Some f ∧ p_direct_addr p' = Some f).

Lemma ret_set_path p from via : returns (set_path (C:=C) p from via) (moved_to from via p).
Proof.
  unfold set_path, moved_to. destruct via; repeat path_step; cbn; destruct from; cbn; eauto 10.
Qed.

Lemma ret_done p : returns (handshake_done (C:=C) p) (same_path p).
Proof. unfold handshake_done. repeat path_step. done. Qed.

(** Beyond the path: what decides whether the path is silent is unchanged too. *)
Definition quiet (p p' : Peer C) : Prop :=
  same_path p p' ∧ p_prefer_relay p' = p_prefer_relay p ∧
  p_last_recv_direct p' = p_last_recv_direct p ∧ p_rtt p' = p_rtt p.

#[global] Instance quiet_preorder : PreOrder quiet.
Proof.
  split; [done|]. intros x y z (Hxy & ? & ? & ?) (Hyz & ? & ? & ?).
  split_and!; [by transitivity y|congruence..].
Qed.

Lemma called_quiet {A} (f : Env → st (RawCryptor C) CryptoError A) p x : called f p x → quiet p x.1.
Proof. by intros (env & raw & -> & _). Qed.

Lemma ret_ping_to targets p : returns (disco_ping_to (C:=C) targets p) (fun x => quiet p x.1).
Proof.
  unfold disco_ping_to. do 2 path_step. destruct (start _ _ _ _ _) as [o [probes routes]].
  repeat path_step. done.
Qed.

Lemma ret_ping p : returns (disco_ping (C:=C) p) (fun x => quiet p x.1).
Proof. apply ret_ping_to. Qed.

Lemma ret_keepalive p ka : returns (keepalive_send (C:=C) p ka) (quiet p).
Proof.
  unfold keepalive_send. path_step. case_if; [|by path_step].
  eapply returns_bind; [apply ret_ping|]. intros [p1 ping] Hp. cbn in Hp. repeat path_step; done.
Qed.

Lemma ret_emit_rekey p : returns (emit_rekey (C:=C) p) (fun x => quiet p x.1).
Proof.
  unfold emit_rekey. eapply returns_bind; [apply ret_raw_call|]. intros [p1 x] Hp%called_quiet. cbn in Hp.
  repeat path_step; cbn; done.
Qed.

(** What a tick can do to the path of a peer: nothing, pin it to the relay because the
    direct path is silent, or take it off the relay because it is due. *)
Definition tick_outcome (now : Z) (p p' : Peer C) : Prop :=
  p_pubkey p' = p_pubkey p ∧ p_direct_addr p' = p_direct_addr p ∧
  (pin p' = pin p ∨
   (direct_silent now p = true ∧ p_prefer_relay p = false ∧ p_prefer_relay p' = true ∧
     pin p' = (true, Some now, flap_count now p, p_last_upgrade p)) ∨
   (upgrade_due now p = true ∧ p_prefer_relay p' = false ∧
     pin p' = (false, p_pinned_at p, p_flaps p, Some now))).

Lemma quiet_silent now p p' : quiet p p' → direct_silent now p' = direct_silent now p.
Proof. intros (_ & _ & Hl & Hr). unfold direct_silent, dead_after. by rewrite Hl, Hr. Qed.

Lemma quiet_upgrade now p p' : quiet p p' → upgrade_due now p' = upgrade_due now p.
Proof.
  intros ((_ & _ & [= Hp Ha Hf Hu]) & _ & Hl & _). unfold upgrade_due. by rewrite Hp, Ha, Hf, Hl.
Qed.

Lemma outcome_quiet now p p1 p2 : tick_outcome now p p1 → quiet p1 p2 → tick_outcome now p p2.
Proof.
  intros (Hk & Hd & Ho) ((Hk' & Hd' & Hpin) & Hpr & _). unfold tick_outcome. rewrite Hk', Hd', Hpin, Hpr. done.
Qed.

Lemma ret_tick_keepalive p : returns (tick_keepalive (C:=C) p) (quiet p).
Proof.
  unfold tick_keepalive. eapply returns_bind; [apply ret_raw_call|]. intros [p1 x] Hq%called_quiet. cbn in Hq.
  destruct x as [e|out]; [by path_step|]. case_bool_decide; [|repeat path_step; done].
  eapply returns_impl; [apply ret_keepalive|]. intros p2 H2'. by transitivity p1.
Qed.

(** The silence check either leaves the peer or pins it, with no direct evidence left. *)
Lemma ret_tick_silence now p :
  returns (tick_silence (C:=C) now p) (fun p' => quiet p p' ∨
    direct_silent now p = true ∧ p_prefer_relay p = false ∧ quiet (pin_relay now p) p').
Proof.
  unfold tick_silence. case_if; [|path_step; by left]. bool_prop. path_step. case_if; [|path_step; by left].
  case_if; [|path_step; right; done]. eapply returns_bind; [apply ret_emit_rekey|]. intros [p1 sent] Hq. cbn in Hq.
  path_step. right. split_and!; [done..|]. by destruct sent.
Qed.

Lemma upgrade_outcome now p p1 : quiet p p1 → tick_outcome now p (tick_upgrade now p1).
Proof.
  intros Hq. pose proof (quiet_upgrade now p p1 Hq) as Hup. unfold tick_upgrade.
  destruct Hq as ((Hk & Hd & Hpin) & _). case_if; split_and!; try done; [right; right|by left].
  split_and!; [congruence|done|]. unfold pin in *. cbn. congruence.
Qed.

Lemma pinned_outcome now p p1 :
  direct_silent now p = true → p_prefer_relay p = false → quiet (pin_relay now p) p1 →
  tick_outcome now p (tick_upgrade now p1).
Proof.
  intros Hs Hr Hq. unfold tick_upgrade. rewrite (quiet_upgrade now _ _ Hq).
  assert (upgrade_due now (pin_relay now p) = false) as -> by done.
  destruct Hq as ((Hk & Hd & Hpin) & Hpr & _). split_and!; [done..|]. right. left. by split_and!.
Qed.

Lemma ret_tick_rekey now p : returns (tick_rekey (C:=C) now p) (quiet p).
Proof.
  unfold tick_rekey. path_step. case_if; [|by path_step].
  eapply returns_bind; [apply ret_emit_rekey|]. intros [p1 sent] Hq. cbn in Hq. path_step. by destruct sent.
Qed.

Lemma tick_outcome_eq now p p1 p' : quiet p p1 → tick_outcome now p1 p' → tick_outcome now p p'.
Proof.
  intros Hq (Hk & Hd & Ho). pose proof (quiet_silent now _ _ Hq) as Hs. pose proof (quiet_upgrade now _ _ Hq) as Hu.
  destruct Hq as ((Hk1 & Hd1 & Hpin) & Hpr & _). pose proof Hpin as [= Hp Ha Hf Hup].
  unfold tick_outcome, flap_count in *. rewrite Hs, Hu, Hpr, Hpin, Ha, Hf, Hup in Ho. split_and!; congruence.
Qed.

Lemma ret_tick_peer now p : returns (tick_peer (C:=C) now p) (tick_outcome now p).
Proof.
  unfold tick_peer. apply (returns_bind _ _ (quiet p)); [unfold tick_status; repeat path_step; done|].
  intros p1 Hq1. apply (returns_bind _ _ (quiet p)).
  { unfold tick_probe. case_if; [|by path_step]. eapply returns_bind; [apply ret_ping|].
    intros [p2 ping] Hq. cbn in Hq. repeat path_step; by transitivity p1. }
  intros p2 Hq2. case_if.
  { apply (returns_impl _ (same_path p)); [|intros p3 (? & ? & ?); by split_and!; [..|left]].
    destruct Hq2 as [Hs2 _]. unfold tick_handshaking. apply (returns_bind _ _ (same_path p)).
    - repeat path_step; done.
    - intros p3 Hs3. repeat path_step; done. }
  eapply returns_bind; [apply ret_tick_keepalive|]. intros p3 Hq3.
  assert (quiet p p3) as Hq3' by (by transitivity p2).
  eapply returns_bind; [apply ret_tick_silence|]. intros p4 Hp4.
  eapply returns_impl; [apply ret_tick_rekey|]. intros p5 Hq5. eapply outcome_quiet; [|exact Hq5].
  destruct Hp4 as [Hq4|(Hs & Hr & Hq4)].
  - apply upgrade_outcome. by transitivity p3.
  - eapply tick_outcome_eq; [exact Hq3'|]. by apply pinned_outcome.
Qed.

(** A response or transport data: the peer moves only if its session accepted them, and
    a packet comes out only if the session decrypted it, at a reading of [T]. *)
Definition decrypted (T : nat → Prop) (p : Peer C) (bytes pkt : list byte) : Prop :=
  ∃ n raw, T n ∧ raw_on_recv (rd_env (reading_at n)) bytes (replicate 2048 x00) (p_raw p) = (Ok pkt, raw).

Definition wg_authentic (T : nat → Prop) (p : Peer C) (bytes : list byte) : Prop :=
  (∃ n raw, T n ∧ raw_handle_response (rd_env (reading_at n)) bytes (p_raw p) = (Ok tt, raw)) ∨
  (∃ pkt, decrypted T p bytes pkt).

Definition wg_handled (T : nat → Prop) (p : Peer C) (bytes : list byte) (from : option SocketAddr) (via : Via)
    (x : Peer C * option (list byte)) : Prop :=
  (same_path p x.1 ∨ moved_to from via p x.1 ∧ wg_authentic T p bytes) ∧
  ∀ pkt, x.2 = Some pkt → decrypted T p bytes pkt.

Lemma moved_trans from via p p1 p2 : same_path p p1 → moved_to from via p1 p2 → moved_to from via p p2.
Proof.
  intros (Hk & Hd & Hp) (Hk' & Hp' & Hd'). unfold moved_to. rewrite Hk', Hk, Hp', Hp.
  split_and!; [done..|]. by rewrite <-Hd.
Qed.

Lemma moved_same from via p p1 p2 : moved_to from via p p1 → same_path p1 p2 → moved_to from via p p2.
Proof. intros (Hk & Hp & Hd) (Hk' & Hd' & Hp'). unfold moved_to. by rewrite Hk', Hk, Hd', Hp', Hp. Qed.

Lemma decrypted_impl (T T' : nat → Prop) p bytes pkt :
  (∀ n, T n → T' n) → decrypted T p bytes pkt → decrypted T' p bytes pkt.
Proof. intros HT (n & raw & Hn & Hr). exists n, raw. auto. Qed.

Lemma wg_authentic_impl (T T' : nat → Prop) p bytes :
  (∀ n, T n → T' n) → wg_authentic T p bytes → wg_authentic T' p bytes.
Proof.
  intros HT [(n & raw & Hn & Hr)|[pkt Hp]]; [left; exists n, raw; auto|right; exists pkt].
  by eapply decrypted_impl.
Qed.

Lemma wg_handled_impl (T T' : nat → Prop) p bytes from via x :
  (∀ n, T n → T' n) → wg_handled T p bytes from via x → wg_handled T' p bytes from via x.
Proof.
  intros HT [Hp Hk]. split; [|intros pkt Hx; by eapply decrypted_impl, Hk].
  destruct Hp as [?|[? ?]]; [by left|right]. split; [done|]. by eapply wg_authentic_impl.
Qed.

Lemma ret_handle_resp p bytes from via (w w' : Worker C) p' :
  handle_resp p bytes from via w = (Ok p', w') →
  wg_handled (eq (w_clock w)) p bytes from via (p', None) ∧ (w_clock w < w_clock w')%nat.
Proof.
  intros Hr. refine (after_call _ p _ (fun p' => wg_handled _ p bytes from via (p', None)) w w' p' Hr _ _);
    [intros [q x]; spares_view|]. intros [p1 x] Hc.
  pose proof (called_path _ _ _ Hc) as Hs. cbn in Hs. destruct Hc as (env & raw & Hp1 & Hx). cbn in Hp1, Hx.
  destruct x as [e|[]]; [path_step; split; [by left|done]|]. path_step.
  eapply returns_bind; [apply ret_set_path|]. intros p2 Hm.
  eapply returns_bind; [apply ret_done|]. intros p3 Hd. path_step.
  eapply returns_bind; [apply ret_raw_call|]. intros [p4 ka] Hk%called_path. cbn in Hk.
  assert (moved_to from via p p4) as Hm4.
  { eapply moved_trans; [exact Hs|]. eapply moved_same; [exact Hm|].
    transitivity p3; [by transitivity (set_p_handshaked true p2)|].
    transitivity (note_rtt (rd_now a0) p3); [|done]. unfold note_rtt. by destruct (p_init_sent_at p3). }
  assert (wg_handled (eq (w_clock w)) p bytes from via (p4, None)) as Hw.
  { split; [|done]. right. split; [done|]. left. by exists (w_clock w), raw. }
  repeat path_step; done.
Qed.

Lemma ret_handle_transport p bytes from via (w w' : Worker C) x :
  handle_transport p bytes from via w = (Ok x, w') →
  wg_handled (eq (w_clock w)) p bytes from via x ∧ (w_clock w < w_clock w')%nat.
Proof.
  intros Hr. refine (after_call _ p _ _ w w' x Hr _ _); [intros [q y]; spares_view|]. intros [p1 y] Hc.
  pose proof (called_path _ _ _ Hc) as Hs. cbn in Hs. destruct Hc as (env & raw & Hp1 & Hx). cbn in Hp1, Hx.
  destruct y as [e|pkt]; [path_step; split; [by left|done]|]. path_step.
  assert (decrypted (eq (w_clock w)) p bytes pkt) as Hdec by (by exists (w_clock w), raw).
  eapply returns_bind; [apply ret_set_path|]. intros p2 Hm. do 2 path_step. split; cbn.
  - right. split; [|right; by exists pkt]. eapply moved_trans; [exact Hs|].
    by eapply moved_same; [exact Hm|].
  - intros pkt'. case_bool_decide; [done|]. by intros [= <-].
Qed.

Lemma ret_handle_wg p bytes from via (w w' : Worker C) x :
  handle_wg p bytes from via w = (Ok x, w') → wg_handled (during w w') p bytes from via x.
Proof.
  assert (∀ w', (w_clock w < w_clock w')%nat → ∀ n, w_clock w = n → during w w' n) as Hd
    by (unfold during; intros; lia).
  unfold handle_wg. case_bool_decide.
  { intros (p' & w1 & [Hw Hc]%ret_handle_resp & [= <- <-])%st_bind_Ok_inv. by eapply wg_handled_impl; [apply Hd|]. }
  case_bool_decide; [|intros [= <- <-]; split; [by left|done]].
  intros [Hw Hc]%ret_handle_transport. by eapply wg_handled_impl; [apply Hd|].
Qed.

(** ** The peers and the TUN after a message *)

(** [bytes] arriving over [via] may move [p] to [from]: its session accepted them, or
    they are an initiation under its static key, or an answer to a probe that is
    outstanding for that address, under the shared key of the two. *)
Definition init_authentic (T : nat → Prop) (p : Peer C) (bytes : list byte) : Prop :=
  (peek_init_pubkey own_priv own_pub bytes = Some (p_pubkey p) ∧
   ∃ n resp raw, T n ∧
     raw_rekey_respond (rd_env (reading_at n)) bytes (replicate 256 x00) (p_raw p) = (Ok resp, raw)) ∨
  (∃ n resp fresh, T n ∧
     raw_handle_handshake (rd_env (reading_at n)) own_priv own_pub bytes raw_new = (Ok resp, fresh) ∧
     (raw_get_peer_public (C:=C) fresh).1 = Ok (p_pubkey p)).

Definition pong_authentic (T : nat → Prop) (p : Peer C) (from : SocketAddr) (bytes : list byte) : Prop :=
  ∃ body tx_id observed used n, T n ∧ bytes = DISCO_MAGIC ++ body ∧ decode body = Ok (Pong tx_id observed, used) ∧
    disco_authed (p_disco_key p) bytes body used = true ∧
    is_pending tx_id from (rd_unix (reading_at n)) (p_probes p) = true.

(** One peer may have moved for a reason [R], the others are where they were. *)
Definition one_moved (R : Peer C → Peer C → Prop) (l l' : list (Peer C)) : Prop :=
  Forall2 (fun p p' => same_path p p' ∨ p_pubkey p' = p_pubkey p ∧ R p p') l l'.

Lemma one_moved_refl R l : one_moved R l l.
Proof. apply Forall_Forall2_diag, list.Forall_true. intros p. by left. Qed.

Lemma one_moved_impl (R R' : Peer C → Peer C → Prop) l l' :
  (∀ p p', R p p' → R' p p') → one_moved R l l' → one_moved R' l l'.
Proof. intros HR Hm. eapply list.Forall2_impl; [exact Hm|]. intros p p' [?|[? ?]]; auto. Qed.

Lemma one_moved_insert R (l : list (Peer C)) pos p p' :
  l !! pos = Some p → same_path p p' ∨ p_pubkey p' = p_pubkey p ∧ R p p' → one_moved R l (<[pos := p']> l).
Proof.
  intros Hp Hr. apply Forall2_same_length_lookup_2; [by rewrite length_insert|].
  intros i x y Hx Hy. destruct (decide (pos = i)) as [->|Hne].
  - rewrite list_lookup_insert_eq in Hy by (by eapply lookup_lt_Some). congruence.
  - rewrite list_lookup_insert_ne in Hy by done. left. replace y with x by congruence. done.
Qed.

Lemma update_eq pos p (w w' : Worker C) r :
  update_peer pos p w = (r, w') → w_peers w' = <[pos := p]> (w_peers w) ∧ tuns w' = tuns w.
Proof. by intros [= <- <-]. Qed.
End Hand.

(** A computation takes its readings one after the other. *)
Section Forward.
Context `{Crypto} {C : Type} `{Cryptor C} `{Host}.

Definition forward {A} (m : M C A) : Prop := ∀ w r w', m w = (r, w') → (w_clock w ≤ w_clock w')%nat.

Lemma forward_eq {A} (m : M C A) w r w' : m w = (r, w') → forward m → (w_clock w ≤ w_clock w')%nat.
Proof. intros Hr Hm. by eapply Hm. Qed.

Lemma forward_spares {A} (m : M C A) : spares_view m → forward m.
Proof. intros Hm w r w' Hr. by apply Hm in Hr as [_ ?]. Qed.

Lemma forward_bind {A B} (m : M C A) (f : A → M C B) : forward m → (∀ a, forward (f a)) → forward (m ≫= f).
Proof.
  intros Hm Hf w r w'. unfold mbind, st_bind. destruct (m w) as [[a|e|] w1] eqn:Em; intros Hr.
  - apply Hf in Hr. apply Hm in Em. lia.
  - injection Hr as _ <-. by eapply Hm.
  - injection Hr as _ <-. by eapply Hm.
Qed.

Lemma forward_update pos p : forward (update_peer (C:=C) pos p).
Proof. by intros w r w' [= <- <-]. Qed.

Lemma forward_emit o : forward (emit (C:=C) o).
Proof. by intros w r w' [= <- <-]. Qed.
End Forward.

#[export] Hint Resolve forward_update forward_emit : st_db.
#[export] Hint Extern 5 (forward _) => apply forward_spares : st_db.

(** Follow the binds, tests and matches of a computation that goes [forward]. *)
Ltac forward :=
  repeat first
    [ solve [eauto with st_db]
    | apply forward_bind; [|intros ?]
    | case_if
    | match goal with |- forward (match ?x with _ => _ end) => destruct x end ].

Section Handled.
Context `{Crypto} {C : Type} `{Cryptor C} `{Host}.

Lemma view_eq {A} (m : M C A) w r w' :
  m w = (r, w') → spares_view m → w_peers w' = w_peers w ∧ tuns w' = tuns w.
Proof. intros Heq Hm. apply Hm in Heq as [Heq _]. by injection Heq. Qed.


Lemma get_eq (w w' a : Worker C) : get (E:=Empty_set) w = (Ok a, w') → a = w ∧ w' = w.
Proof. by intros [= -> ->]. Qed.

Definition wg_moved (T : nat → Prop) (from : option SocketAddr) (via : Via) (bytes : list byte)
    (p p' : Peer C) : Prop :=
  moved_to from via p p' ∧ (wg_authentic T p bytes ∨ init_authentic T p bytes).

Lemma during_impl (w w1 w2 w' : Worker C) n :
  (w_clock w ≤ w_clock w1)%nat → (w_clock w2 ≤ w_clock w')%nat → during w1 w2 n → during w w' n.
Proof. unfold during. lia. Qed.

(** At most one packet, decrypted by the session of a peer that owns its source, both at
    readings taken meanwhile. *)
Definition delivered (bytes : list byte) (w w' : Worker C) : Prop :=
  tuns w' = tuns w ∨
  ∃ pos p pkt n, w_peers w !! pos = Some p ∧ tuns w' = tuns w ++ [pkt] ∧
    decrypted (during w w') p bytes pkt ∧ during w w' n ∧
    accepts_source (rd_allowed (reading_at n)) (p_pubkey p) pkt = true.

Lemma reading_eq (w w' : Worker C) r : reading w = (Ok r, w') → r = reading_at (w_clock w) ∧ w' = next_reading w.
Proof. by intros [= -> ->]. Qed.

(** What [deliver_wg] does with the peer and the packet [handle_wg] gave. *)
Lemma forwarded pos p1 pkt (w1 w' : Worker C) :
  match pkt with
  | None => update_peer pos p1
  | Some pkt =>
      r ← reading;
      if accepts_source (rd_allowed r) (p_pubkey p1) pkt then
        _ ← update_peer pos p1; emit (TunOut pkt)
      else
        update_peer pos (set_p_stat
          (set_s_rx_source_drops (wrap 64 (s_rx_source_drops (p_stat p1) + 1)) (p_stat p1)) p1)
  end w1 = (Ok tt, w') →
  (w_clock w1 ≤ w_clock w')%nat ∧ (∃ p2, same_path p1 p2 ∧ w_peers w' = <[pos := p2]> (w_peers w1)) ∧
  (tuns w' = tuns w1 ∨ ∃ x, pkt = Some x ∧ tuns w' = tuns w1 ++ [x] ∧ during w1 w' (w_clock w1) ∧
    accepts_source (rd_allowed (reading_at (w_clock w1))) (p_pubkey p1) x = true).
Proof.
  destruct pkt as [pkt|]; [|intros [= <-]; split_and!; [done|by exists p1|by left]].
  intros (r & w2 & [-> ->]%reading_eq & Hr)%st_bind_Ok_inv. cbv beta in Hr.
  destruct (accepts_source _ _ _) eqn:Hacc; injection Hr as <-; cbn.
  - split_and!; [lia|by exists p1|]. right. exists pkt. split_and!; [done| |unfold during; cbn; lia|done].
    unfold tuns. cbn. by rewrite omap_app.
  - split_and!; [lia| |by left]. eexists. split; [|done]. done.
Qed.

Lemma deliver_handled pos bytes from via (w w' : Worker C) :
  deliver_wg pos bytes from via w = (Ok tt, w') →
  one_moved (wg_moved (during w w') from via bytes) (w_peers w) (w_peers w') ∧ delivered bytes w w'.
Proof.
  unfold deliver_wg. intros Hr. apply st_bind_Ok_inv in Hr as (w0 & w1 & [-> ->]%get_eq & Hr).
  destruct (w_peers w !! pos) as [p|] eqn:Hpos.
  2: { injection Hr as <-. split; [apply one_moved_refl|by left]. }
  apply st_bind_Ok_inv in Hr as ([p1 pkt] & w1 & Hm & Hr).
  apply forwarded in Hr as (Hc & (p2 & Hs2 & Hp2) & Htun).
  pose proof (ret_handle_wg p bytes from via w w1 _ Hm) as Hh.
  apply (wg_handled_impl _ (during w w')) in Hh as [Hpath Hpkt]; [|intros n; by apply during_impl]. cbn in Hpath, Hpkt.
  pose proof (forward_spares _ (view_handle_wg p bytes from via) _ _ _ Hm) as Hc1.
  apply view_eq in Hm as [Hp1 Ht1]; [|apply view_handle_wg].
  split.
  - rewrite Hp2, Hp1. apply one_moved_insert with p; [done|]. destruct Hpath as [Hs1|[Hm1 Ha]].
    + left. by transitivity p1.
    + right. assert (moved_to from via p p2) as Hm2 by (by eapply moved_same). split; [apply Hm2|].
      split; [done|by left].
  - destruct Htun as [?|(x & -> & Ht & Hd & Ha)]; [left; congruence|right].
    exists pos, p, x, (w_clock w1). split_and!; [done|congruence|by apply Hpkt|by apply (during_impl w w1 w' w')|].
    replace (p_pubkey p) with (p_pubkey p1); [done|]. by destruct Hpath as [[? _]|[[? _] _]].
Qed.

Lemma find_lookup pk (l : list (Peer C)) pos p :
  find_peer pk l = Some (pos, p) → l !! pos = Some p ∧ p_pubkey p = pk.
Proof. by intros (? & ? & _)%list_find_Some. Qed.

Lemma answer_eq pos pk resp p (w w' : Worker C) :
  answer_init pos pk resp p w = (Ok tt, w') →
  ∃ p', same_path p p' ∧ p_raw p' = p_raw p ∧ w_peers w' = <[pos := p']> (w_peers w) ∧ tuns w' = tuns w.
Proof.
  unfold answer_init. destruct resp as [resp|]; [|intros [? ?]%update_eq; by exists p].
  intros Hr. apply st_bind_Ok_inv in Hr as ([] & w1 & [Hp1 Ht1]%update_eq & Hr).
  apply st_bind_Ok_inv in Hr as ([] & w2 & Hm & Hr).
  apply view_eq in Hm as [Hp2 Ht2]; [|apply view_insert]. apply view_eq in Hr as [Hp3 Ht3]; [|apply view_send].
  exists (set_p_last_resp (Some resp) p). split; [done|]. split; [done|]. split; congruence.
Qed.


Lemma forward_answer pos pk resp p : forward (answer_init (C:=C) pos pk resp p).
Proof. unfold answer_init. forward. Qed.
Local Hint Resolve forward_answer : st_db.

Lemma rekey_handled bytes from via b (w w' : Worker C) :
  accept_rekey bytes from via w = (Ok b, w') →
  one_moved (fun p p' => b = true ∧ wg_moved (during w w') from via bytes p p') (w_peers w) (w_peers w') ∧
  tuns w' = tuns w.
Proof.
  unfold accept_rekey. intros Hr. apply st_bind_Ok_inv in Hr as (w0 & w1 & [-> ->]%get_eq & Hr).
  assert (mret (M:=M C) false w = (Ok b, w') →
    one_moved (fun p p' => b = true ∧ wg_moved (during w w') from via bytes p p') (w_peers w) (w_peers w') ∧
    tuns w' = tuns w) as Hno.
  { intros [= _ <-]. split; [apply one_moved_refl|done]. }
  destruct (peek_init_pubkey _ _ _) as [pk|] eqn:Hpeek; [|by apply Hno].
  case_bool_decide; [|by apply Hno]. destruct (find_peer pk (w_peers w)) as [[pos p]|] eqn:Hf; [|by apply Hno].
  clear Hno. apply find_lookup in Hf as [Hpos Hpk].
  apply st_bind_Ok_inv in Hr as ([p1 x] & w1 & Hm & Hr).
  pose proof (called_at _ _ _ _ _ Hm) as [Hc Hw1]. pose proof (called_path _ _ _ Hc) as Hs1.
  apply view_eq in Hm as [Hp1 Ht1]; [|apply view_raw_call]. cbn in Hs1.
  destruct Hc as (env & raw & Hraw & Hx). cbn in Hraw, Hx. destruct x as [e|resp].
  { apply st_bind_Ok_inv in Hr as ([] & w2 & [Hp2 Ht2]%update_eq & Hr). injection Hr as <- <-.
    rewrite Hp2, Hp1, Ht2. split; [|done]. apply one_moved_insert with p; [done|by left]. }
  assert (during w w' (w_clock w)) as Hd.
  { cut (w_clock w1 ≤ w_clock w')%nat; [unfold during; lia|]. by eapply forward_eq; [exact Hr|forward]. }
  apply st_bind_Ok_inv in Hr as (p2 & w2 & Hm & Hr).
  pose proof (ret_set_path _ from via w1 _ w2 Hm) as Hmv. apply view_eq in Hm as [Hp2 Ht2]; [|apply view_set_path].
  apply st_bind_Ok_inv in Hr as (p3 & w3 & Hm & Hr).
  pose proof (ret_done _ w2 _ w3 Hm) as Hs3. apply view_eq in Hm as [Hp3 Ht3]; [|apply view_done].
  apply st_bind_Ok_inv in Hr as ([] & w4 & Hans & Hr). injection Hr as <- <-.
  apply answer_eq in Hans as (p4 & Hs4 & _ & Hp4 & Ht4). rewrite Hp4, Hp3, Hp2, Hp1, Ht4. split; [|congruence].
  assert (moved_to from via p p4) as Hmv4.
  { eapply moved_trans; [exact Hs1|]. eapply moved_same; [exact Hmv|]. by transitivity p3. }
  apply one_moved_insert with p; [done|]. right. split; [apply Hmv4|]. split; [done|]. split; [done|].
  right. left. rewrite Hpk. split; [done|]. by exists (w_clock w), resp, raw.
Qed.

Lemma fresh_handled bytes from via (w w' : Worker C) :
  accept_fresh bytes from via w = (Ok tt, w') →
  one_moved (fun p p' => moved_to from via p p' ∧
    ∃ n resp fresh, during w w' n ∧
      raw_handle_handshake (rd_env (reading_at n)) own_priv own_pub bytes raw_new = (Ok resp, fresh) ∧
      (raw_get_peer_public (C:=C) fresh).1 = Ok (p_pubkey p)) (w_peers w) (w_peers w') ∧ tuns w' = tuns w.
Proof.
  unfold accept_fresh. intros Hr. apply st_bind_Ok_inv in Hr as (r & w1 & [Hrd ->]%reading_eq & Hr).
  assert (during w w' (w_clock w)) as Hd.
  { cut (w_clock (next_reading w) ≤ w_clock w')%nat; [unfold during; cbn; lia|].
    by eapply forward_eq; [exact Hr|forward]. }
  destruct (raw_handle_handshake _ _ _ _ _) as [x fresh] eqn:Hx.
  destruct x as [resp|e|]; [|injection Hr as <-; split; [apply one_moved_refl|done]|done].
  destruct (raw_get_peer_public fresh).1 as [pk|e|] eqn:Hpub;
    [|injection Hr as <-; split; [apply one_moved_refl|done]|done].
  apply st_bind_Ok_inv in Hr as (w0 & w1 & [-> ->]%get_eq & Hr). cbn [w_peers next_reading] in Hr.
  destruct (find_peer pk (w_peers w)) as [[pos p]|] eqn:Hf;
    [|injection Hr as <-; split; [apply one_moved_refl|done]].
  apply find_lookup in Hf as [Hpos Hpk].
  apply st_bind_Ok_inv in Hr as ([] & w1 & Hm & Hr). apply view_eq in Hm as [Hp1 Ht1]; [|apply view_index].
  apply st_bind_Ok_inv in Hr as (p2 & w2 & Hm & Hr).
  pose proof (ret_set_path _ from via w1 _ w2 Hm) as Hmv. apply view_eq in Hm as [Hp2 Ht2]; [|apply view_set_path].
  apply st_bind_Ok_inv in Hr as (p3 & w3 & Hm & Hr).
  pose proof (ret_done _ w2 _ w3 Hm) as Hs3. apply view_eq in Hm as [Hp3 Ht3]; [|apply view_done].
  apply answer_eq in Hr as (p4 & Hs4 & _ & Hp4 & Ht4). cbn in Hp1, Ht1.
  rewrite Hp4, Hp3, Hp2, Hp1. split; [|unfold tuns in *; cbn in *; congruence].
  assert (moved_to from via p p4) as Hmv4.
  { eapply moved_trans; [|eapply moved_same; [exact Hmv|]]; [done|]. by transitivity p3. }
  apply one_moved_insert with p; [done|]. right. split; [apply Hmv4|]. split; [done|].
  exists (w_clock w), resp, fresh. rewrite Hpk, <-Hrd. done.
Qed.

Lemma one_moved_trans (R R' : Peer C → Peer C → Prop) l l1 l' :
  one_moved (fun _ _ => False) l l1 → one_moved R l1 l' →
  (∀ p p1 p', same_path p p1 → R p1 p' → R' p p') → one_moved R' l l'.
Proof.
  intros Ha Hb HR. unfold one_moved in *. revert l' Hb.
  induction Ha as [|p p1 l l1 Hp _ IH]; intros l' Hb; inversion Hb as [|? p' ? l2 Hp' Hb']; subst; constructor; auto.
  destruct Hp as [Hs|[_ []]], Hp' as [Hs'|[Hk Hr]]; [left; by transitivity p1|right].
  split; [by destruct Hs; congruence|by eapply HR].
Qed.

Lemma forward_rekey bytes from via : forward (accept_rekey (C:=C) bytes from via).
Proof. unfold accept_rekey. forward. Qed.

Lemma init_handled bytes from via (w w' : Worker C) :
  accept_init bytes from via w = (Ok tt, w') →
  one_moved (wg_moved (during w w') from via bytes) (w_peers w) (w_peers w') ∧ tuns w' = tuns w.
Proof.
  unfold accept_init. intros Hr. apply st_bind_Ok_inv in Hr as (w0 & w1 & [-> ->]%get_eq & Hr).
  destruct (list_find _ (w_peers w)) as [[pos p]|].
  { assert (w_peers w' = w_peers w ∧ tuns w' = tuns w) as [-> ->]; [|split; [apply one_moved_refl|done]].
    destruct (p_last_resp p); [|by injection Hr as <-]. by apply view_eq in Hr; [|apply view_send]. }
  apply st_bind_Ok_inv in Hr as (b & w1 & Hm & Hr).
  pose proof (forward_eq _ _ _ _ Hm (forward_rekey bytes from via)) as Hc. apply rekey_handled in Hm as [Hm Ht].
  destruct b.
  { injection Hr as <-. split; [|done]. eapply one_moved_impl; [|exact Hm]. by intros p p' [_ ?]. }
  apply fresh_handled in Hr as [Hf Ht']. split; [|congruence]. eapply one_moved_trans; [|exact Hf|].
  - eapply one_moved_impl; [|exact Hm]. by intros p p' [? _].
  - intros p p1 p' Hs (Hmv & n & resp & fresh & Hd & Hh & Hpub). split; [by eapply moved_trans|].
    right. right. exists n, resp, fresh. split; [by apply (during_impl w w1 w' w')|]. split; [done|]. by destruct Hs as (<- & _).
Qed.

(** The peers stay on their paths, and nothing is written to the TUN. *)
Definition undisturbed (w w' : Worker C) : Prop :=
  one_moved (fun _ _ => False) (w_peers w) (w_peers w') ∧ tuns w' = tuns w.

Lemma undisturbed_view {A} (m : M C A) w r w' : spares_view m → m w = (r, w') → undisturbed w w'.
Proof. intros Hm Heq. apply view_eq in Heq as [Hp Ht]; [|done]. split; [rewrite Hp; apply one_moved_refl|done]. Qed.

Lemma undisturbed_refl w : undisturbed w w.
Proof. split; [apply one_moved_refl|done]. Qed.

Lemma undisturbed_trans w w1 w' : undisturbed w w1 → undisturbed w1 w' → undisturbed w w'.
Proof. intros [Hm Ht] [Hm' Ht']. split; [|congruence]. by eapply one_moved_trans. Qed.

(** Storing peers that differ from those in place only off the path. *)
Lemma undisturbed_insert pos p p' (w w' : Worker C) r :
  w_peers w !! pos = Some p → same_path p p' → update_peer pos p' w = (r, w') → undisturbed w w'.
Proof.
  intros Hpos Hs [Hp' Ht']%update_eq. split; [|done]. rewrite Hp'.
  apply one_moved_insert with p; [done|by left].
Qed.

Lemma ping_handled from dgram body used tx_id sender (w w' : Worker C) :
  on_ping from dgram body used tx_id sender w = (Ok tt, w') → undisturbed w w'.
Proof.
  unfold on_ping. intros Hr. apply st_bind_Ok_inv in Hr as (w0 & w1 & [-> ->]%get_eq & Hr).
  destruct (find_peer sender (w_peers w)) as [[pos p]|] eqn:Hf; [|injection Hr as <-; apply undisturbed_refl].
  apply find_lookup in Hf as [Hpos Hpk]. case_if; [injection Hr as <-; apply undisturbed_refl|].
  apply st_bind_Ok_inv in Hr as (r & w1 & [Hrd ->]%reading_eq & Hr).
  destruct (accept_ping _ _ _) as [fresh probes].
  apply st_bind_Ok_inv in Hr as ([] & w1 & Hu & Hr). apply update_eq in Hu as [Hp1 Ht1]. cbn in Hp1, Ht1.
  set (p1 := set_p_probes probes p) in *.
  assert (undisturbed w w1) as Hw1.
  { split; [|exact Ht1]. rewrite Hp1. apply one_moved_insert with p; [done|by left]. }
  assert (w_peers w1 !! pos = Some p1) as Hpos1
    by (rewrite Hp1; apply list_lookup_insert_eq; by eapply lookup_lt_Some).
  case_if; [by injection Hr as <-|].
  apply st_bind_Ok_inv in Hr as ([] & w2 & Hm & Hr). apply view_eq in Hm as [Hp2 Ht2]; [|by apply view_emit].
  assert (undisturbed w w2) as Hw2.
  { eapply undisturbed_trans; [exact Hw1|]. split; [rewrite Hp2; apply one_moved_refl|done]. }
  case_if; [|by injection Hr as <-].
  apply st_bind_Ok_inv in Hr as ([p3 ping] & w3 & Hm & Hr).
  pose proof (ret_ping_to _ _ w2 _ w3 Hm) as Hs3. apply view_eq in Hm as [Hp3 Ht3]; [|apply view_ping_to].
  apply st_bind_Ok_inv in Hr as ([] & w4 & Hu & Hr).
  eapply undisturbed_trans; [exact Hw2|]. apply (undisturbed_trans _ w3).
  { split; [rewrite Hp3; apply one_moved_refl|done]. }
  apply (undisturbed_trans _ w4).
  { eapply undisturbed_insert; [|exact (proj1 Hs3)|exact Hu]. by rewrite Hp3, Hp2. }
  destruct ping; [eapply undisturbed_view; [|exact Hr]; by apply view_emit|].
  injection Hr as <-. apply undisturbed_refl.
Qed.

Lemma pong_handled from dgram body used tx_id observed (w w' : Worker C) :
  dgram = DISCO_MAGIC ++ body → decode body = Ok (Pong tx_id observed, used) →
  on_pong from dgram body used tx_id w = (Ok tt, w') →
  one_moved (fun p p' => pin p' = pin p ∧ p_direct_addr p' = Some from ∧ pong_authentic (during w w') p from dgram)
    (w_peers w) (w_peers w') ∧ tuns w' = tuns w.
Proof.
  intros Hdg Hdec. unfold on_pong. intros Hr.
  apply st_bind_Ok_inv in Hr as (r & w1 & [Hrd ->]%reading_eq & Hr). cbv zeta in Hr.
  apply st_bind_Ok_inv in Hr as (w0 & w1 & [-> ->]%get_eq & Hr). cbn [w_peers next_reading] in Hr.
  destruct (list_find _ (w_peers w)) as [[pos p]|] eqn:Hf;
    [|injection Hr as <-; split; [apply one_moved_refl|done]].
  apply list_find_Some in Hf as (Hpos & Hpend & _).
  destruct (disco_authed _ _ _ _) eqn:Hauth; cbn [negb] in Hr;
    [|injection Hr as <-; split; [apply one_moved_refl|done]].
  apply st_bind_Ok_inv in Hr as (r2 & w1 & [Hrd2 ->]%reading_eq & Hr).
  destruct (disco_replay_ok _ _); cbn [negb] in Hr; [|injection Hr as <-; split; [apply one_moved_refl|done]].
  unfold finish in Hr. rewrite Hpend in Hr. cbn [negb] in Hr.
  apply st_bind_Ok_inv in Hr as ([] & w2 & [= <-] & Hr).
  assert (during w w' (w_clock w)) as Hd by (apply forward_update in Hr; unfold during; cbn in Hr |- *; lia).
  apply update_eq in Hr as [Hp Ht]. cbn in Hp, Ht. split; [|exact Ht]. rewrite Hp. apply one_moved_insert with p; [done|]. right. split; [by case_if|].
  split_and!; [by case_if..|]. exists body, tx_id, observed, used, (w_clock w). split_and!; congruence.
Qed.

Lemma returns_mapM {A B} (f : A → M C B) (Q : A → B → Prop) l :
  (∀ x, returns (f x) (Q x)) → returns (mapM f l) (fun l' => Forall2 Q l l').
Proof.
  intros Hf. induction l as [|x l IH]; cbn; [apply returns_ret; constructor|].
  eapply returns_bind; [apply Hf|]. intros y Hy. eapply returns_bind; [apply IH|]. intros k Hk.
  apply returns_ret. by constructor.
Qed.

Lemma view_mapM {A B} (f : A → M C B) l : (∀ x, spares_view (f x)) → spares_view (mapM f l).
Proof. intros Hf. induction l as [|x l IH]; cbn; [apply spares_view_ret|]. spares_view. Qed.

Lemma tick_handled (w w' : Worker C) :
  on_tick w = (Ok tt, w') →
  one_moved (tick_outcome (rd_now (reading_at (w_clock w)))) (w_peers w) (w_peers w') ∧ tuns w' = tuns w.
Proof.
  unfold on_tick. intros Hr. apply st_bind_Ok_inv in Hr as (r & w1 & [-> ->]%reading_eq & Hr).
  apply st_bind_Ok_inv in Hr as (w0 & w1 & [-> ->]%get_eq & Hr). cbn [w_peers next_reading] in Hr.
  apply st_bind_Ok_inv in Hr as (l & w1 & Hm & Hr). injection Hr as <-.
  set (now := rd_now _) in *.
  pose proof (returns_mapM _ (tick_outcome now) (w_peers w) (ret_tick_peer now) _ _ _ Hm) as Hl.
  apply view_eq in Hm as [_ Ht]; [|apply view_mapM; intros; apply view_tick_peer].
  split; [|exact Ht]. eapply list.Forall2_impl; [exact Hl|]. cbn. intros p p' Ho. right. split; [apply Ho|done].
Qed.

Lemma tcp_conn_handled pk g out (w w' : Worker C) : on_tcp_conn pk g out w = (Ok tt, w') → undisturbed w w'.
Proof.
  unfold on_tcp_conn. intros Hr. apply st_bind_Ok_inv in Hr as (w0 & w1 & [-> ->]%get_eq & Hr).
  destruct (find_peer pk (w_peers w)) as [[pos p]|] eqn:Hf; [|injection Hr as <-; apply undisturbed_refl].
  apply find_lookup in Hf as [Hpos _].
  destruct out; [by eapply undisturbed_insert; [exact Hpos| |exact Hr]|].
  case_if; [by eapply undisturbed_insert; [exact Hpos| |exact Hr]|].
  injection Hr as <-. apply undisturbed_refl.
Qed.

Lemma candidates_handled pk cs (w w' : Worker C) : on_update_candidates pk cs w = (Ok tt, w') → undisturbed w w'.
Proof.
  unfold on_update_candidates. intros Hr. apply st_bind_Ok_inv in Hr as (w0 & w1 & [-> ->]%get_eq & Hr).
  destruct (find_peer pk (w_peers w)) as [[pos p]|] eqn:Hf; [|injection Hr as <-; apply undisturbed_refl].
  apply find_lookup in Hf as [Hpos _]. destruct force_relay; [by eapply undisturbed_insert; [exact Hpos| |exact Hr]|].
  apply st_bind_Ok_inv in Hr as ([p1 ping] & w1 & Hm & Hr).
  pose proof (ret_ping _ w _ w1 Hm) as Hs. apply view_eq in Hm as [Hp1 Ht1]; [|apply view_ping].
  apply st_bind_Ok_inv in Hr as ([] & w2 & Hu & Hr). apply (undisturbed_trans _ w1).
  { split; [rewrite Hp1; apply one_moved_refl|done]. }
  apply (undisturbed_trans _ w2); [eapply undisturbed_insert; [rewrite Hp1; exact Hpos|exact (proj1 Hs)|exact Hu]|].
  destruct ping; [eapply undisturbed_view; [|exact Hr]; apply view_send_all|].
  injection Hr as <-. apply undisturbed_refl.
Qed.

Lemma egress_handled pk pkt (w w' : Worker C) : on_tun_egress pk pkt w = (Ok tt, w') → undisturbed w w'.
Proof.
  unfold on_tun_egress. intros Hr. apply st_bind_Ok_inv in Hr as (w0 & w1 & [-> ->]%get_eq & Hr).
  destruct (find_live pk (w_peers w)) as [[pos p]|] eqn:Hf; [|injection Hr as <-; apply undisturbed_refl].
  apply list_find_Some in Hf as (Hpos & _ & _).
  apply st_bind_Ok_inv in Hr as ([p1 x] & w1 & Hm & Hr).
  pose proof (called_path _ _ _ (ret_raw_call _ p w _ w1 Hm)) as Hs. cbn in Hs.
  apply view_eq in Hm as [Hp1 Ht1]; [|apply view_raw_call]. rewrite <-Hp1 in Hpos.
  apply (undisturbed_trans _ w1); [split; [rewrite Hp1; apply one_moved_refl|done]|].
  destruct x as [e|enc]; [by eapply undisturbed_insert; [exact Hpos| |exact Hr]|]. case_bool_decide.
  - apply st_bind_Ok_inv in Hr as ([] & w2 & Hu & Hr).
    apply (undisturbed_trans _ w2); [by eapply undisturbed_insert; [exact Hpos| |exact Hu]|].
    eapply undisturbed_view; [|exact Hr]. case_if; [|apply spares_view_ret]. spares_view.
  - apply st_bind_Ok_inv in Hr as ([] & w2 & Hu & Hr).
    apply (undisturbed_trans _ w2); [by eapply undisturbed_insert; [exact Hpos| |exact Hu]|].
    eapply undisturbed_view; [|exact Hr]. spares_view.
Qed.

(** Why a peer may be on a new path after a message. *)
Definition reason (T : nat → Prop) (msg : WorkerMsg) (p p' : Peer C) : Prop :=
  pin p' = pin p ∧ ∃ from bytes, msg = MUdpIn from bytes ∧ p_direct_addr p' = Some from ∧
    (wg_authentic T p bytes ∨ init_authentic T p bytes ∨ pong_authentic T p from bytes).

Lemma reason_impl (T T' : nat → Prop) msg p p' : (∀ n, T n → T' n) → reason T msg p p' → reason T' msg p p'.
Proof.
  intros HT (Hp & from & bytes & -> & Hd & Ha). split; [done|]. exists from, bytes. split_and!; [done..|].
  destruct Ha as [?|[Hi|(body & tx & obs & used & n & Hn & Hq)]];
    [left; by eapply wg_authentic_impl|right; left|right; right; exists body, tx, obs, used, n; auto].
  destruct Hi as [[Hk (n & resp & raw & Hn & Hq)]|(n & resp & raw & Hn & Hq)]; [left; split; [done|]|right];
    exists n, resp, raw; auto.
Qed.

Lemma wg_moved_reason T from via bytes l l' :
  one_moved (wg_moved T from via bytes) l l' →
  (∀ f, via = ViaUdp → from = Some f → one_moved (reason T (MUdpIn f bytes)) l l') ∧
  (via ≠ ViaUdp → one_moved (fun _ _ => False) l l').
Proof.
  intros Hm. split.
  - intros f -> ->. eapply list.Forall2_impl; [exact Hm|]. intros p p' [?|[Hk [(_ & Hp & Hd) Ha]]]; [by left|].
    destruct Hd as [?|(_ & f' & [= <-] & Hf)]; [by left|]. right. split; [done|]. split; [done|].
    exists f, bytes. split_and!; [done..|]. tauto.
  - intros Hv. eapply list.Forall2_impl; [exact Hm|]. intros p p' [?|[Hk [(_ & Hp & Hd) Ha]]]; [by left|].
    destruct Hd as [?|(? & _)]; [by left|done].
Qed.

Lemma udp_handled from bytes (w w' : Worker C) :
  on_udp_in from bytes w = (Ok tt, w') →
  one_moved (reason (during w w') (MUdpIn from bytes)) (w_peers w) (w_peers w') ∧ delivered bytes w w'.
Proof.
  unfold on_udp_in. intros Hr. case_bool_decide as Hdisco.
  { unfold on_disco in Hr. destruct (strip_prefix _ _) as [body|] eqn:Hb; [|by destruct Hdisco].
    apply strip_prefix_Some in Hb.
    assert (∀ w', undisturbed w w' → one_moved (reason (during w w') (MUdpIn from bytes)) (w_peers w) (w_peers w') ∧
      delivered bytes w w') as Hun.
    { intros w1 [Hm Ht]. split; [|by left]. eapply one_moved_impl; [|exact Hm]. done. }
    destruct (decode body) as [[[tx_id sender|tx_id obs|cs] used]|e|] eqn:Hd; try done;
      try (injection Hr as <-; apply Hun, undisturbed_refl).
    - apply Hun. by apply ping_handled in Hr.
    - apply (pong_handled _ _ _ _ _ obs) in Hr as [Hm Ht]; [|done..]. split; [|by left].
      eapply one_moved_impl; [|exact Hm]. intros p p' (Hp & Hf & Ha). split; [done|]. exists from, bytes. tauto. }
  case_bool_decide.
  { apply init_handled in Hr as [Hm Ht]. split; [|by left]. by apply wg_moved_reason in Hm as [Hm _]; apply Hm. }
  apply st_bind_Ok_inv in Hr as (w0 & w1 & [-> ->]%get_eq & Hr).
  destruct (receiver_index bytes ≫= _) as [[pos p]|].
  - apply deliver_handled in Hr as [Hm Ht]. split; [|done]. by apply wg_moved_reason in Hm as [Hm _]; apply Hm.
  - injection Hr as <-. split; [apply one_moved_refl|by left].
Qed.

Lemma framed_handled via src bytes (w w' : Worker C) :
  via ≠ ViaUdp → on_framed_in via src bytes w = (Ok tt, w') →
  one_moved (fun _ _ => False) (w_peers w) (w_peers w') ∧ delivered bytes w w'.
Proof.
  intros Hv. unfold on_framed_in. intros Hr. case_bool_decide.
  { apply init_handled in Hr as [Hm Ht]. split; [|by left]. by apply wg_moved_reason in Hm as [_ Hm]; apply Hm. }
  apply st_bind_Ok_inv in Hr as (w0 & w1 & [-> ->]%get_eq & Hr).
  destruct (find_peer src (w_peers w)) as [[pos p]|].
  - apply deliver_handled in Hr as [Hm Ht]. split; [|done]. by apply wg_moved_reason in Hm as [_ Hm]; apply Hm.
  - injection Hr as <-. split; [apply one_moved_refl|by left].
Qed.

Lemma ret_new_peer pk cs ips ini : returns (new_peer (C:=C) pk cs ips ini) (fun p => p_pubkey p = pk).
Proof.
  unfold new_peer. path_step. apply (returns_bind _ _ (fun p => p_pubkey p = pk)).
  { case_if; [by path_step|]. eapply returns_bind; [apply ret_ping|]. intros [p ping] [(Hk & _) _]. cbn in Hk.
    repeat path_step; done. }
  intros p Hp. case_if; [|by path_step]. eapply returns_bind; [apply ret_raw_call|].
  intros [p1 x] [Hk _]%called_path. cbn in Hk. repeat path_step; cbn; congruence.
Qed.

(** Adding a peer leaves the others, and adds none that is there. *)
Lemma add_handled pk cs ips ini (w w' : Worker C) :
  on_add_peer pk cs ips ini w = (Ok tt, w') →
  tuns w' = tuns w ∧
  (w_peers w' = w_peers w ∨
   ∃ p, w_peers w' = w_peers w ++ [p] ∧ p_pubkey p = pk ∧ ∀ q, q ∈ w_peers w → p_pubkey q ≠ pk).
Proof.
  unfold on_add_peer. intros Hr. apply st_bind_Ok_inv in Hr as (w0 & w1 & [-> ->]%get_eq & Hr).
  case_bool_decide as Hex; [injection Hr as <-; by auto|].
  apply st_bind_Ok_inv in Hr as (p & w1 & Hm & Hr). injection Hr as <-.
  pose proof (ret_new_peer _ _ _ _ _ _ _ Hm) as Hpk. apply view_eq in Hm as [Hp Ht]; [|apply view_new_peer].
  split; [exact Ht|]. right. exists p. cbn. rewrite Hp. split_and!; [done..|].
  intros q Hq Hqk. apply Hex, list.Exists_exists. by exists q.
Qed.

Lemma remove_handled pk (w w' : Worker C) :
  on_remove_peer pk w = (Ok tt, w') → tuns w' = tuns w ∧ ∀ p, p ∈ w_peers w' → p ∈ w_peers w.
Proof.
  intros [= <-]. case_bool_decide; [done|]. split; [done|]. cbn. intros p [_ ?]%list_elem_of_filter. done.
Qed.

(** The keys of the peers of a worker are distinct. *)
Lemma peer_unique (l : list (Peer C)) p p' :
  NoDup (p_pubkey <$> l) → p ∈ l → p' ∈ l → p_pubkey p' = p_pubkey p → p' = p.
Proof. intros Hnd Hp Hp' Hk. symmetry. by apply (key_inj p_pubkey l). Qed.
End Handled.

#[export] Hint Resolve forward_answer : st_db.
