(* ===== verification/WorkerProps.v ===== *)
(** * Properties of the data plane

    The theorems about workers: they survive any input, forget removed peers, deliver
    and route only what is authenticated, and move between the rungs of the path
    ladder as described; and the runs that show where the code departs from what its
    comments say. *)

From S2P Require Import Prelude.
From S2P Require Import Words.
From S2P Require Import NetAddr.
From S2P Require Import Disco.
From S2P Require Import CryptoError.
From S2P Require Import Crypto.
From S2P Require Import NoisePacket.
From S2P Require Import ReplayWindow.
From S2P Require Import Session.
From S2P Require Import Instant.
From S2P Require Import Handshake.
From S2P Require Import Noise.
From S2P Require Import Cryptor.
From S2P Require Import CryptorSafe.
From S2P Require Import Prefix.
From S2P Require Import RouteTable.
From S2P Require Import IndexTable.
From S2P Require Import Probes.
From S2P Require Import Gso.
From S2P Require Import Peer.
From S2P Require Import Worker.
From S2P Require Import WorkerInv.
From S2P Require Import WorkerPath.

Section Safety.
Context `{Crypto} {C : Type} `{CryptorSafe C} `{Host}.

Lemma ever_app ks l1 l2 pk : pk ∈ ever ks l1 ∨ pk ∈ ever (served ks l1) l2 → pk ∈ ever ks (l1 ++ l2).
Proof.
  revert ks. induction l1 as [|m l1 IH]; intros ks; cbn.
  - intros [?|?]; [by apply ever_start|done].
  - rewrite !elem_of_app. intros [[?|?]|?]; auto.
Qed.

Lemma burst_ok burst ks (w : Worker C) r w' :
  inv ks ks (w_out w) w → Forall msg_ok burst → run_burst burst w = (r, w') →
  r = Ok tt ∧ inv (served ks burst) (served ks burst) (w_out w') w' ∧
  ∃ o, w_out w' = w_out w ++ o ∧ Forall (out_ok (ever ks burst)) o.
Proof.
  intros Hw Hb. unfold run_burst, mbind, st_bind. destruct (mapM handle burst w) as [x w1] eqn:Hx.
  destruct (handle_all_ok burst ks w x w1 Hw Hb Hx) as (Hok & Hw1 & o1 & Ho1 & Hf1).
  destruct x as [l|[]|]; [|done]. intros Hr.
  destruct (triple_handled (served ks burst) flush_gso w1 r w') as (-> & Hw' & o2 & Ho2 & Hf2);
    [intros base; apply triple_flush|done|done|].
  split_and!; [done..|]. exists (o1 ++ o2). split; [by rewrite Ho2, Ho1, app_assoc|].
  apply Forall_app. split; [done|]. eapply list.Forall_impl; [exact Hf2|]. intros o. apply out_ok_weaken.
  intros k Hk. clear -Hk. revert ks Hk. induction burst as [|m l IH]; intros ks Hk; cbn in *; [done|].
  apply elem_of_app. right. by apply IH.
Qed.

Lemma run_ok bursts : ∀ ks (w : Worker C) r w',
  inv ks ks (w_out w) w → Forall msg_ok (concat bursts) → mapM run_burst bursts w = (r, w') →
  is_ok r = true ∧ inv (served ks (concat bursts)) (served ks (concat bursts)) (w_out w') w' ∧
  ∃ o, w_out w' = w_out w ++ o ∧ Forall (out_ok (ever ks (concat bursts))) o.
Proof.
  induction bursts as [|b bursts IH]; intros ks w r w' Hw Hms; cbn [mapM concat].
  - intros [= <- <-]. split_and!; [done..|]. exists []. by rewrite app_nil_r.
  - cbn in Hms. apply Forall_app in Hms as [Hb Hms]. unfold mbind, st_bind.
    destruct (run_burst b w) as [x w1] eqn:Hx. destruct (burst_ok b ks w x w1 Hw Hb Hx) as (-> & Hw1 & o1 & Ho1 & Hf1).
    destruct (mapM run_burst bursts w1) as [y w2] eqn:Hy.
    destruct (IH _ _ _ _ Hw1 Hms Hy) as (Hok & Hw2 & o2 & Ho2 & Hf2).
    destruct y as [l|[]|]; [|done]. intros [= <- <-]. unfold served in *. rewrite foldl_app.
    split_and!; [done..|]. exists (o1 ++ o2). split; [by rewrite Ho2, Ho1, app_assoc|].
    apply Forall_app. split; (eapply list.Forall_impl; [eassumption|]); intros o; apply out_ok_weaken; intros k Hk;
      apply ever_app; auto.
Qed.

(** C2.  A worker survives any input.  Whatever messages arrive, in whatever bursts, with
    whatever bytes (a data counter above [2^64 - 2049] excepted,
    where the replay window wraps), clocks, randomness and kernel answers, the worker never
    panics; it serves exactly the peers that were added and not removed; every peer stays well
    formed (a pinned peer is on the relay, a peer with a finished handshake has a
    session, flap counter, rekey delay and probe tables are within their bounds); every
    receiver index it holds belongs to a peer it serves; and all it sends to the relay
    or the TUN concerns a peer it served. *)
Theorem worker_safe ks (w : Worker C) bursts :
  inv ks ks (w_out w) w → Forall msg_ok (concat bursts) →
  ∃ w' o, run bursts w = (Ok tt, w') ∧
    p_pubkey <$> w_peers w' = served ks (concat bursts) ∧ NoDup (served ks (concat bursts)) ∧
    Forall peer_ok (w_peers w') ∧
    (∀ idx pk, index_get (w_index w') idx = Some pk → pk ∈ served ks (concat bursts)) ∧
    w_out w' = w_out w ++ o ∧ Forall (out_ok (ever ks (concat bursts))) o.
Proof.
  intros Hw Hms. unfold run. destruct (mapM run_burst bursts w) as [r w'] eqn:Hr.
  destruct (run_ok bursts ks w r w' Hw Hms Hr) as (Hok & [Hk Hn Hp Hi _] & o & Ho & Hf).
  destruct r as [l|[]|]; [|done]. exists w', o. split_and!; try done. by erewrite st_bind_Ok.
Qed.

(** The peer a message adds. *)
Definition adds (msg : WorkerMsg) : option (list byte) :=
  match msg with MAddPeer pk _ _ _ => Some pk | _ => None end.

Lemma never_added pk l : ∀ ks,
  Forall (fun msg => adds msg ≠ Some pk) l → (pk ∉ ks) → (pk ∉ ever ks l) ∧ (pk ∉ served ks l).
Proof.
  induction l as [|m l IH]; intros ks Hl Hk; [done|]. apply Forall_cons_1 in Hl as [Hm Hl]. cbn.
  assert ((pk ∉ concerned ks m) ∧ (pk ∉ members ks m)) as [Hc Hm'].
  { destruct m; cbn in *; try done.
    - assert (pk ∉ ks ++ [pubkey]) as Hna
        by (rewrite elem_of_app, list_elem_of_singleton; intros [?|?]; congruence).
      split; [done|]. by case_bool_decide.
    - split; [done|]. rewrite list_elem_of_filter. by intros [_ ?]. }
  destruct (IH _ Hl Hm') as [He Hs]. split; [|done]. rewrite elem_of_app. by intros [?|?].
Qed.

(** A removed peer is forgotten.  From the moment its removal is handled, and as
    long as it is not added again, the worker has no peer and no receiver index for
    it, sends nothing to it over the relay, and writes to the TUN only packets whose
    source belonged to another peer the worker serves. *)
Lemma removed_peer_forgotten ks (w : Worker C) pk bursts :
  inv ks ks (w_out w) w → Forall msg_ok (concat bursts) →
  Forall (fun msg => adds msg ≠ Some pk) (concat bursts) →
  ∃ w1 w' o, handle (MRemovePeer pk) w = (Ok tt, w1) ∧ run bursts w1 = (Ok tt, w') ∧
    Forall (fun p => p_pubkey p ≠ pk) (w_peers w') ∧
    (∀ idx, index_get (w_index w') idx ≠ Some pk) ∧
    w_out w' = w_out w ++ o ∧
    (∀ bytes, RelayOut pk bytes ∉ o) ∧
    (∀ pkt, TunOut pkt ∈ o →
      ∃ pk' n, pk' ≠ pk ∧ accepts_source (rd_allowed (reading_at n)) pk' pkt = true).
Proof.
  intros Hw Hms Hadd. destruct (handle (MRemovePeer pk) w) as [r1 w1] eqn:Hr1.
  destruct (remove_peer_ok ks (w_out w) w pk r1 w1 Hw Hr1) as (Hw1 & Ho1 & Hp1).
  destruct r1 as [[]|[]|]; [|done]. cbn [members] in Hw1.
  destruct (never_added pk (concat bursts) (filter (fun k => k ≠ pk) ks) Hadd) as [He Hs].
  { rewrite list_elem_of_filter. by intros [? _]. }
  unfold run. destruct (mapM run_burst bursts w1) as [r w'] eqn:Hr.
  destruct (run_ok bursts _ w1 r w' Hw1 Hms Hr) as (Hok & [Hk Hn Hp Hi _] & o & Ho & Hf).
  destruct r as [l|[]|]; [|done]. exists w1, w', o. rewrite list.Forall_forall in Hf. split_and!.
  - done.
  - by erewrite st_bind_Ok.
  - apply list.Forall_forall. intros p Hin Hpk. apply Hs. rewrite <-Hk, <-Hpk. by apply list_elem_of_fmap_2.
  - intros idx Hidx. by apply Hs, (Hi idx).
  - by rewrite Ho, Ho1.
  - intros bytes Hin. by apply He, (Hf _ Hin).
  - intros pkt Hin. destruct (Hf _ Hin) as (_ & pk' & n & Hpk' & Hacc). exists pk', n. split; [|done]. by intros ->.
Qed.
End Safety.

Section Provenance.
Context `{Crypto} {C : Type} `{Cryptor C} `{Host}.

(** The packet a message carries in from the network. *)
Definition inbound (msg : WorkerMsg) : option (list byte) :=
  match msg with MUdpIn _ bytes | MRelayIn _ bytes | MTcpIn _ bytes => Some bytes | _ => None end.

Lemma flush_then (m : M C unit) (w w' : Worker C) :
  (_ ← flush_gso; m) w = (Ok tt, w') →
  ∃ w1, w_peers w1 = w_peers w ∧ tuns w1 = tuns w ∧ (w_clock w ≤ w_clock w1)%nat ∧ m w1 = (Ok tt, w').
Proof.
  intros (? & w1 & Hf & Hm)%st_bind_Ok_inv. pose proof (forward_eq _ _ _ _ Hf (forward_spares _ view_flush)).
  apply view_eq in Hf as [Hp Ht]; [|apply view_flush]. by exists w1.
Qed.

Lemma delivered_eq bytes (w w1 w' : Worker C) :
  w_peers w1 = w_peers w → tuns w1 = tuns w → (w_clock w ≤ w_clock w1)%nat →
  delivered bytes w1 w' → delivered bytes w w'.
Proof.
  intros Hp Ht Hc [?|(pos & p & pkt & n & Hpos & Htun & Hdec & Hd & Ha)]; [left; congruence|right].
  exists pos, p, pkt, n. split_and!; [congruence..| | |done].
  - eapply decrypted_impl; [|exact Hdec]. intros k. by apply during_impl.
  - by eapply during_impl; [..|exact Hd].
Qed.

(** A message that brings in nothing writes nothing; another may deliver what it brings. *)
Lemma handle_delivered msg (w w' : Worker C) :
  handle msg w = (Ok tt, w') →
  tuns w' = tuns w ∨ ∃ bytes, inbound msg = Some bytes ∧ delivered bytes w w'.
Proof.
  destruct msg; cbn [handle]; intros Hr; try (apply flush_then in Hr as (w1 & Hp1 & Ht1 & Hc1 & Hr)).
  - left. apply tick_handled in Hr as [_ Ht]. congruence.
  - right. eexists. split; [done|]. eapply delivered_eq; [done..|]. by apply udp_handled in Hr as [_ Hr].
  - right. eexists. split; [done|]. eapply delivered_eq; [done..|]. by apply framed_handled in Hr as [_ Hr].
  - right. eexists. split; [done|]. eapply delivered_eq; [done..|]. by apply framed_handled in Hr as [_ Hr].
  - left. by apply tcp_conn_handled in Hr as [_ Hr].
  - left. by apply egress_handled in Hr as [_ Hr].
  - left. apply add_handled in Hr as [Ht _]. congruence.
  - left. by apply remove_handled in Hr as [Ht _].
  - left. apply candidates_handled in Hr as [_ Ht]. congruence.
Qed.

(** C3.  What reaches the TUN.  A message makes the worker write at most one packet to the
    TUN, and only if the message brought in bytes that the session of one of its peers
    decrypted to exactly that packet while the message was handled, and the route table
    the worker read while it handled it gives the packet's source address to that very
    peer: if that table is the one of a configuration, that peer owns the source in it. *)
Theorem tun_provenance msg (w w' : Worker C) :
  handle msg w = (Ok tt, w') →
  tuns w' = tuns w ∨
  ∃ bytes p pkt n, inbound msg = Some bytes ∧ p ∈ w_peers w ∧ tuns w' = tuns w ++ [pkt] ∧
    decrypted (during w w') p bytes pkt ∧
    (w_clock w ≤ n < w_clock w')%nat ∧
    accepts_source (rd_allowed (reading_at n)) (p_pubkey p) pkt = true ∧
    ∀ reports, rd_allowed (reading_at n) = table_of reports →
      ∃ src wid, src_address pkt = Some src ∧ owns (config_of reports) src (p_pubkey p) wid.
Proof.
  intros [Ht|(bytes & Hin & [Ht|(pos & p & pkt & n & Hpos & Ht & Hdec & Hd & Ha)])]%handle_delivered; [by left..|right].
  exists bytes, p, pkt, n. split; [done|]. split; [by eapply list_elem_of_lookup_2|].
  do 4 (split; [done|]). intros reports Hrep. apply accepts_source_owns. by rewrite <-Hrep.
Qed.

(** A peer across a message: as it was, moved for a reason, or ticked. *)
Lemma handled_peer msg (w w' : Worker C) p p' :
  NoDup (p_pubkey <$> w_peers w) → handle msg w = (Ok tt, w') →
  p ∈ w_peers w → p' ∈ w_peers w' → p_pubkey p' = p_pubkey p →
  same_path p p' ∨ reason (during w w') msg p p' ∨ ∃ n, msg = MTick ∧ tick_outcome (rd_now (reading_at n)) p p'.
Proof.
  intros Hnd Hr Hp Hp' Hk.
  assert (∀ l R, l = w_peers w → one_moved R l (w_peers w') → same_path p p' ∨ R p p') as Hmoved.
  { intros l R -> Hm. apply list_elem_of_lookup in Hp as [i Hi]. apply list_elem_of_lookup in Hp' as [j Hj].
    destruct (Forall2_lookup_r _ _ _ _ _ Hm Hj) as (q & Hq & Hqr).
    assert (i = j) as <-.
    { eapply NoDup_lookup; [exact Hnd|by rewrite list_lookup_fmap, Hi|]. rewrite list_lookup_fmap, Hq. cbn.
      f_equal. by destruct Hqr as [[? _]|[? _]]; congruence. }
    assert (q = p) as -> by congruence. destruct Hqr as [?|[_ ?]]; auto. }
  assert (∀ l, l = w_peers w → one_moved (fun _ _ => False) l (w_peers w') → same_path p p') as Hsame
    by (intros l Hl Hm; by destruct (Hmoved l _ Hl Hm)).
  destruct msg; cbn [handle] in Hr; try (apply flush_then in Hr as (w1 & Hp1 & Ht1 & Hc1 & Hr)).
  - apply tick_handled in Hr as [Hm _]. destruct (Hmoved _ _ Hp1 Hm); [by left|right; right; eauto].
  - apply udp_handled in Hr as [Hm _]. destruct (Hmoved _ _ Hp1 Hm); [by left|right; left].
    eapply reason_impl; [|done]. intros n. by apply during_impl.
  - apply framed_handled in Hr as [Hm _]; [|done]. left. by eapply Hsame.
  - apply framed_handled in Hr as [Hm _]; [|done]. left. by eapply Hsame.
  - apply tcp_conn_handled in Hr as [Hm _]. left. by eapply Hsame.
  - apply egress_handled in Hr as [Hm _]. left. by eapply Hsame.
  - apply add_handled in Hr as [_ Hadd]. rewrite Hp1 in Hadd. left.
    destruct Hadd as [He|(q & He & Hq & Hne)]; rewrite He in Hp'; [by rewrite (peer_unique (w_peers w) p p')|].
    apply elem_of_app in Hp' as [Hp'|Hp'%list_elem_of_singleton]; [by rewrite (peer_unique (w_peers w) p p')|].
    subst p'. destruct (Hne p Hp). congruence.
  - apply remove_handled in Hr as [_ Hsub]. apply Hsub in Hp'. left. by rewrite (peer_unique (w_peers w) p p').
  - apply candidates_handled in Hr as [Hm _]. left. by eapply Hsame.
Qed.

(** C4.  The UDP address of a peer moves only for authentic datagrams.  If after a message
    the UDP address the worker has for a peer is another than before, the message was a
    datagram from exactly that address which, while it was handled, the peer's session
    accepted, or which is an initiation under the peer's static key that a rekey or a
    fresh handshake accepted (a replayed initiation included), or which answered, under
    the secret the two share, a probe then outstanding for that very address.  TCP
    connections and the choice between UDP, TCP and relay are not covered. *)
Theorem path_authentic msg (w w' : Worker C) p p' :
  NoDup (p_pubkey <$> w_peers w) → handle msg w = (Ok tt, w') →
  p ∈ w_peers w → p' ∈ w_peers w' → p_pubkey p' = p_pubkey p →
  p_direct_addr p' ≠ p_direct_addr p →
  ∃ from bytes, msg = MUdpIn from bytes ∧ p_direct_addr p' = Some from ∧
    (wg_authentic (during w w') p bytes ∨ init_authentic (during w w') p bytes ∨
     pong_authentic (during w w') p from bytes).
Proof.
  intros Hnd Hr Hp Hp' Hk Hd.
  destruct (handled_peer msg w w' p p' Hnd Hr Hp Hp' Hk) as [[_ [? _]]|[[_ ?]|(n & -> & _ & ? & _)]]; done.
Qed.

(** The relay pin has hysteresis.  A peer is pinned to the relay, and a pinned peer
    leaves it, only at a tick.  It is pinned when nothing authenticated came over a
    direct path for five seconds (or eight round trips) while it was not on the relay,
    with a flap counted if it had left the relay less than 20 seconds before.  It
    leaves the relay only with direct evidence less than five seconds old and, if it
    was pinned with flap count [f], not before [2^f] seconds, so that a path that keeps
    dying holds the peer on the relay for 1, 2, 4, ... 32 seconds. *)
Lemma relay_pin_hysteresis msg (w w' : Worker C) p p' :
  NoDup (p_pubkey <$> w_peers w) → handle msg w = (Ok tt, w') →
  p ∈ w_peers w → p' ∈ w_peers w' → p_pubkey p' = p_pubkey p →
  p_relay_pinned p' ≠ p_relay_pinned p →
  msg = MTick ∧ ∃ n, let now := rd_now (reading_at n) in
  if p_relay_pinned p'
  then p_prefer_relay p = false ∧ p_prefer_relay p' = true ∧ p_pinned_at p' = Some now ∧
    (∀ t, p_last_recv_direct p = Some t →
      secs_ns 5 ≤ since now t ∧ ∀ r, p_rtt p = Some r → 8 * r ≤ since now t) ∧
    (p_flaps p' = 0 ∨ ∃ up, p_last_upgrade p = Some up ∧ since now up < secs_ns 20 ∧
       p_flaps p' = Z.min (p_flaps p + 1) 5)
  else p_prefer_relay p' = false ∧ p_last_upgrade p' = Some now ∧
    (∃ t, p_last_recv_direct p = Some t ∧ since now t < secs_ns 5) ∧
    (∀ t, p_pinned_at p = Some t → 0 ≤ p_flaps p ≤ 5 → secs_ns (2 ^ p_flaps p) ≤ since now t).
Proof.
  intros Hnd Hr Hp Hp' Hk Hd.
  destruct (handled_peer msg w w' p p' Hnd Hr Hp Hp' Hk) as [(_ & _ & [=])|[[[=] _]|(n & -> & _ & _ & Ho)]]; [done..|].
  split; [done|]. exists n. cbv zeta. set (now := rd_now (reading_at n)) in *.
  destruct Ho as [[=]|[(Hs & Hr1 & Hr2 & [= E1 E2 E3 E4])|(Hu & Hr1 & [= E1 E2 E3 E4])]];
    [done|rewrite E1, E2, E3|rewrite E1, E4].
  - split_and!; [done..| |].
    + intros t Ht. unfold direct_silent, dead_after, LIVENESS_DEAD_SECS in Hs. rewrite Ht in Hs.
      destruct (p_rtt p) as [r|]; bool_prop; (split; [lia|]); [intros r' [= <-]; lia|done].
    + unfold flap_count. destruct (p_last_upgrade p) as [up|]; [|by left].
      destruct (Z.ltb_spec (since now up) (secs_ns 20)); [right; by exists up|by left].
  - unfold upgrade_due in Hu. bool_prop. split_and!; [done..| |].
    + destruct (p_last_recv_direct p) as [t|]; [|done]. exists t. bool_prop. done.
    + intros t Ht Hf. rewrite Ht in *. bool_prop. rewrite Z.min_l, Z.shiftl_1_l in * by lia. lia.
Qed.
End Provenance.

(** ** A node at work

    Node B serves peer A.  Every reading is one second after the one before; A owns
    10.0.0.1.  A's packets come from A's own cryptor. *)

Definition clock_at (n : Z) : Clock := fun _ => mkInstant (Some (1010 + n, 5)) 0.
Definition env_at (n : Z) : Env := mkEnv toy_rng (clock_at n) toy_stamper 7.
Definition pub_a : list byte := dh_public secret_a.
Definition pub_b : list byte := dh_public secret_b.
Definition addr_a : SocketAddr := SockV4 167772161 51820.
Definition addr_x : SocketAddr := SockV4 3325256705 666.
Definition reports_a : list report := [(pub_a, 0, ["10.0.0.1/32"%string])].

Definition reading_b (n : nat) : Reading :=
  mkReading (env_at (Z.of_nat n)) (Z.of_nat n * NANOSECOND) (1000 + Z.of_nat n)
    (Some [x01; x02; x03; z2b (Z.of_nat n)]) true (table_of reports_a) Segments.

#[local] Instance host_b : Host := {
  own_priv := secret_b;
  own_pub := pub_b;
  force_relay := false;
  relay_out := true;
  reading_at := reading_b
}.

Definition node_idle : Worker Noise := mkWorker [] (index_new ∅ [] 0) ∅ ∅ ∅ (gso_new false) [] 0.
Definition after (msg : WorkerMsg) (w : Worker Noise) : Worker Noise := (handle msg w).2.

(** What A's cryptor produced. *)
Definition sent {A} (x : res CryptoError (list byte) * A) : list byte := match x.1 with Ok b => b | _ => [] end.
Definition last_udp (w : Worker Noise) : list byte :=
  match list.last (w_out w) with Some (UdpOut _ b) => b | _ => [] end.

(** B adds A; A initiates, B answers; A sends an IP packet. *)
Definition node_added : Worker Noise := after (MAddPeer pub_a [] [] false) node_idle.
Definition a_init : res CryptoError (list byte) * RawCryptor Noise :=
  raw_init_handshake (env_at 0) secret_a pub_b raw_new.
Definition node_joined : Worker Noise := after (MUdpIn addr_a (sent a_init)) node_added.
Definition a_joined : RawCryptor Noise := (raw_handle_response (env_at 0) (last_udp node_joined) a_init.2).2.
Definition a_data : res CryptoError (list byte) * RawCryptor Noise :=
  raw_on_send (env_at 5) toy_ip (replicate 256 x00) a_joined.
Definition node_heard : Worker Noise := after (MUdpIn addr_a (sent a_data)) node_joined.

Lemma handled_eq msg w : (handle msg w).1 = Ok tt → handle msg w = (Ok tt, after msg w).
Proof. unfold after. destruct (handle msg w) as [r w']. by intros [= ->]. Qed.

Lemma node_idle_inv : inv [] [] (w_out node_idle) node_idle.
Proof.
  split; cbn; [done|by apply list.NoDup_nil|by apply Forall_nil| |].
  - intros idx pk Hl. by rewrite lookup_empty in Hl.
  - by exists [].
Qed.

Lemma node_added_eq : handle (MAddPeer pub_a [] [] false) node_idle = (Ok tt, node_added).
Proof. apply handled_eq. vm_compute. reflexivity. Qed.

Lemma node_added_inv : inv [pub_a] [pub_a] (w_out node_added) node_added.
Proof. apply (handle_ok [] (MAddPeer pub_a [] [] false) _ _ _ node_idle_inv Logic.I node_added_eq). Qed.

Lemma garbage_ok : msg_ok (C:=Noise) (MUdpIn addr_x [x04; x00; x00]).
Proof. intros d Hd. by vm_compute in Hd. Qed.

Lemma worker_safe_witness :
  ∃ w', run [[MAddPeer pub_a [addr_a] [] false; MTick]; [MUdpIn addr_x [x04; x00; x00]]] node_idle = (Ok tt, w') ∧
    p_pubkey <$> w_peers w' = [pub_a].
Proof.
  destruct (worker_safe [] node_idle [[MAddPeer pub_a [addr_a] [] false; MTick]; [MUdpIn addr_x [x04; x00; x00]]]
    node_idle_inv) as (w' & o & Hr & Hk & _).
  - repeat (apply Forall_cons; [first [exact Logic.I|exact garbage_ok]|]). apply Forall_nil.
  - exists w'. split; [exact Hr|exact Hk].
Defined.

Lemma node_heard_eq : handle (MUdpIn addr_a (sent a_data)) node_joined = (Ok tt, node_heard).
Proof. apply handled_eq. vm_compute. reflexivity. Qed.

Lemma node_heard_tuns : tuns node_joined = [] ∧ tuns node_heard = [toy_ip].
Proof. split; vm_compute; reflexivity. Qed.

Lemma tun_provenance_witness :
  ∃ p n, p ∈ w_peers node_joined ∧ accepts_source (rd_allowed (reading_b n)) (p_pubkey p) toy_ip = true.
Proof.
  destruct (tun_provenance _ _ _ node_heard_eq) as [Ht|(bytes & p & pkt & n & _ & Hp & Ht & _ & _ & Ha & _)];
    destruct node_heard_tuns as [T1 T2]; rewrite T1, T2 in Ht; [discriminate Ht|].
  exists p, n. split; [exact Hp|]. apply app_inj_tail_iff with (x := []) in Ht as [_ ->]. exact Ha.
Defined.

Lemma node_joined_eq : handle (MUdpIn addr_a (sent a_init)) node_added = (Ok tt, node_joined).
Proof. apply handled_eq. vm_compute. reflexivity. Qed.

(** The one peer of a worker. *)
Definition peer_of (w : Worker Noise) : Peer Noise :=
  default (peer_fresh [] [] (stat_new [])) (head (w_peers w)).

Lemma peer_of_in w : w_peers w ≠ [] → peer_of w ∈ w_peers w.
Proof. unfold peer_of. destruct (w_peers w); [done|]. intros _. apply list_elem_of_here. Qed.

Lemma keys_one (w : Worker Noise) k : p_pubkey <$> w_peers w = [k] → NoDup (p_pubkey <$> w_peers w) ∧ w_peers w ≠ [].
Proof. intros Hk. rewrite Hk. split; [apply list.NoDup_singleton|]. by intros He; rewrite He in Hk. Qed.

Lemma path_authentic_witness :
  ∃ from bytes, MUdpIn addr_a (sent a_init) = MUdpIn from bytes ∧
    p_direct_addr (peer_of node_joined) = Some from.
Proof.
  destruct (keys_one node_added pub_a) as [Hn Hne]; [vm_compute; reflexivity|].
  destruct (keys_one node_joined pub_a) as [_ Hne']; [vm_compute; reflexivity|].
  destruct (path_authentic _ _ _ (peer_of node_added) (peer_of node_joined) Hn node_joined_eq
    (peer_of_in _ Hne) (peer_of_in _ Hne')) as (from & bytes & Hm & Hf & _).
  - vm_compute. reflexivity.
  - vm_compute. discriminate.
  - exists from, bytes. split; [exact Hm|exact Hf].
Defined.

(** Two ticks later the direct path has been silent for five seconds. *)
Definition node_tick1 : Worker Noise := after MTick node_heard.
Definition node_tick2 : Worker Noise := after MTick node_tick1.

Lemma node_tick2_eq : handle MTick node_tick1 = (Ok tt, node_tick2).
Proof. apply handled_eq. vm_compute. reflexivity. Qed.

(** A is reached over TCP, and after that over the relay. *)
Definition a_data' : res CryptoError (list byte) * RawCryptor Noise :=
  raw_on_send (env_at 6) toy_ip (replicate 256 x00) a_data.2.
Definition a_data'' : res CryptoError (list byte) * RawCryptor Noise :=
  raw_on_send (env_at 6) toy_ip (replicate 256 x00) a_data'.2.
Definition node_tcp : Worker Noise :=
  after (MTcpIn pub_a (sent a_data')) (after (MTcpConn pub_a 1 (Some 3)) node_heard).
Definition node_relay : Worker Noise := after (MRelayIn pub_a (sent a_data'')) node_tcp.

(** Where a worker last sent to. *)
Inductive Rung := RUdp | RTcp | RRelay | RNone.

Definition last_rung (w : Worker Noise) : Rung :=
  match list.last (w_out w) with
  | Some (UdpOut _ _) => RUdp
  | Some (TcpOut _ _) => RTcp
  | Some (RelayOut _ _) => RRelay
  | _ => RNone
  end.

(** Three places disagree on the path in use.  Of a peer that was heard over TCP, the
    keepalive goes over TCP and the status says so, but the packets of the TUN go to its
    UDP address.  Of a peer that was heard over the relay after that, the keepalive goes
    over the relay, but the status still says TCP. *)
Lemma path_ladders_disagree :
  last_rung (after MTick node_tcp) = RTcp ∧
  s_transport (p_stat (peer_of (after MTick node_tcp))) = T_TCP_DIRECT ∧
  last_rung (run_burst [MTunEgress pub_a toy_ip] node_tcp).2 = RUdp ∧
  last_rung (after MTick node_relay) = RRelay ∧
  s_transport (p_stat (peer_of (after MTick node_relay))) = T_TCP_DIRECT.
Proof. split_and!; vm_compute; reflexivity. Qed.
