(* ===== verification/Takeover.v ===== *)
(** * A replayed initiation

    A rekey on a live session refuses an initiation that is not newer than the last one
    it saw.  A fresh handshake has no last one.  [accept_init] tries the rekey first and
    falls back to a fresh handshake, so that an initiation that was accepted once is
    accepted for ever. *)

From S2P Require Import Prelude.
From S2P Require Import Words.
From S2P Require Import NetAddr.
From S2P Require Import Disco.
From S2P Require Import CryptoError.
From S2P Require Import Crypto.
From S2P Require Import NoisePacket.
From S2P Require Import ReplayWindow.
From S2P Require Import Session.
From S2P Require Import Instant.
From S2P Require Import Handshake.
From S2P Require Import Noise.
From S2P Require Import Cryptor.
From S2P Require Import CryptorSafe.
From S2P Require Import Prefix.
From S2P Require Import RouteTable.
From S2P Require Import IndexTable.
From S2P Require Import Probes.
From S2P Require Import Gso.
From S2P Require Import Peer.
From S2P Require Import Worker.
From S2P Require Import WorkerInv.
From S2P Require Import WorkerPath.
From S2P Require Import WorkerProps.

(** ** In the cryptor *)

Section Replay.
Context `{Crypto} `{!CryptoLaws}.

(** The timestamp of the last initiation a session has seen. *)
Definition last_seen (n : Noise) : Tai64N := last_handshake_timestamp (handshake n).

Lemma on_handshake_inv {A} (m : st Handshake CryptoError A) n a n' :
  on_handshake m n = (Ok a, n') → ∃ h', m (handshake n) = (Ok a, h') ∧ handshake n' = h'.
Proof. unfold on_handshake. destruct (m (handshake n)) as [r h']. intros [= -> <-]. by exists h'. Qed.

Lemma handle_init_inv p dst rng n r n' :
  handle_handshake_init p dst rng n = (Ok r, n') →
  ∃ x h', receive_handshake_initialization p dst rng (handshake n) = (Ok x, h') ∧ handshake n' = h'.
Proof.
  unfold handle_handshake_init. intros ([packet s] & n1 & Hr & Hm)%st_bind_Ok_inv.
  apply on_handshake_inv in Hr as (h' & Hr & Hh). exists (packet, s), h'. split; [done|]. by injection Hm as <- <-.
Qed.

(** What an accepted initiation is, and what it leaves. *)
Lemma fresh_accepted env k pub bytes n0 resp0 :
  noise_handle_handshake env k pub bytes = Ok (n0, resp0) →
  ∃ p pkey x dst stp, verify_packet (verifier_new pub) bytes = Ok (PInit p) ∧ parse_handshake_anon k pub p = Ok pkey ∧
    receive_handshake_initialization p dst (e_rng env)
      (handshake_new k (dh_public k) pkey (wrap 32 (Z.shiftl (next_session_base (e_peer_index env)) 8)) None stp) =
      (Ok x, handshake n0).
Proof.
  unfold noise_handle_handshake. intros (pk & Hv & Hr)%bind_Ok_inv.
  destruct (verify_packet _ _) as [p|e|] eqn:Hp; [|done..]. injection Hv as ->.
  apply bind_Ok_inv in Hr as (pkey & Ha & Hr). destruct pk as [p| |]; [|done..].
  destruct (handle_verified_packet _ _ _ _ _) as [r n1] eqn:Hh.
  apply bind_Ok_inv in Hr as (res & -> & Hr). injection Hr as <- <-. cbn in Hh.
  apply handle_init_inv in Hh as (x & h' & Hx & <-).
  eexists p, pkey, x, _, _. split_and!; [done..|exact Hx].
Qed.

(** The rekey refuses it on a session of the same parties that has seen one as new. *)
Lemma rekey_refuses env k pub bytes n0 resp0 env' dst n :
  noise_handle_handshake env k pub bytes = Ok (n0, resp0) →
  params (handshake n) = params (handshake n0) → Handshake.after (last_seen n0) (last_seen n) = false →
  ∃ e n', noise_rekey_respond env' bytes dst n = (Err e, n').
Proof.
  intros (p & pkey & x & dst0 & stp & Hv & _ & Hr)%fresh_accepted Hp Ha.
  apply handshake_init_no_replay in Hr as [_ Hno]. specialize (Hno dst (e_rng env') (handshake n) Hp Ha).
  unfold noise_rekey_respond, noise_verify, mbind, st_bind, get, lift. cbn.
  destruct (verify_packet (mac1_key n) bytes) as [q|e|] eqn:Hv'; cbn; [|by eauto|by apply no_panic_verify in Hv'].
  apply verify_packet_parse in Hv, Hv'. rewrite Hv in Hv'. injection Hv' as <-. cbn.
  unfold handle_handshake_init, on_handshake, mbind, st_bind. rewrite Hno. cbn. by eauto.
Qed.

(** A fresh handshake accepts it again. *)
Lemma fresh_again env k pub bytes n0 resp0 env' :
  noise_handle_handshake env k pub bytes = Ok (n0, resp0) → rng_ok (e_rng env') →
  ∃ n resp, noise_handle_handshake env' k pub bytes = Ok (n, Some resp) ∧
    params (handshake n) = params (handshake n0) ∧ last_seen n = last_seen n0.
Proof.
  intros (p & pkey & x & dst0 & stp & Hv & Hk & Hr)%fresh_accepted Hrng.
  apply receive_initialization_inv in Hr as (ts & t & Ho1 & Ho2 & Ht & Ha & Hp & Hl).
  unfold noise_handle_handshake. rewrite Hv. cbn [map_err mbind res_bind]. rewrite Hk. cbn [mbind res_bind].
  set (n := noise_new _ _ _ _ _ _).
  pose proof (receive_initialization_spec p (replicate (Z.to_nat HANDSHAKE_INIT_SZ) x00) (e_rng env') (handshake n) ts t
    Ho1 Ho2 Ht Ha) as Hrecv.
  destruct (Hrng 0%nat 32) as (eb & Heb & _); [lia|].
  match type of Hrecv with _ = format_handshake_response _ _ ?h => set (h1 := h) in Hrecv end.
  destruct (format_response_spec (replicate (Z.to_nat HANDSHAKE_INIT_SZ) x00) (e_rng env') h1 _ _ _ _ eb ltac:(done)
    Heb eq_refl) as (nn & mac2 & _ & _ & _ & Hresp). rewrite Hresp in Hrecv.
  cbn [handle_verified_packet]. unfold handle_handshake_init, on_handshake, mbind, st_bind. rewrite Hrecv.
  cbn. eexists _, _. split; [reflexivity|]. split; [by rewrite Hp|by unfold last_seen; rewrite Hl].
Qed.

Lemma parse_init_first src p : parse_incoming_packet src = Ok (PInit p) → first_byte src = T_HANDSHAKE_INIT.
Proof.
  unfold parse_incoming_packet. destruct (Z.ltb_spec (len src) 4) as [|Hl]; [done|].
  intros (ty & Hty & Hr)%bind_Ok_inv. destruct (_ && _) eqn:Hi.
  2: { unfold parse_resp, parse_data in Hr. repeat case_if; by repeat (apply bind_Ok_inv in Hr as (? & _ & Hr)). }
  bool_prop. destruct src as [|a [|b [|c [|d src]]]]; try (unfold len in Hl; cbn in Hl; lia).
  unfold le_field in Hty. rewrite slice_Ok in Hty by (unfold len in *; cbn in *; lia). cbn in Hty. injection Hty as Hty.
  apply b2z_inj. pose proof (b2z_range a). pose proof (b2z_range b). pose proof (b2z_range c). pose proof (b2z_range d).
  change (b2z d * 16777216 + (b2z c * 65536 + (b2z b * 256 + (b2z a * 1 + 0))) = ty) in Hty.
  unfold HANDSHAKE_INIT in *. change (b2z a = 1). lia.
Qed.

(** It looks like an initiation to the worker. *)
Lemma fresh_shape env k pub bytes n0 resp0 :
  noise_handle_handshake env k pub bytes = Ok (n0, resp0) →
  first_byte bytes = T_HANDSHAKE_INIT ∧ strip_prefix DISCO_MAGIC bytes = None ∧ noise_packet bytes ∧
  peek_init_pubkey k pub bytes = Some (peer_static_public (params (handshake n0))).
Proof.
  intros (p & pkey & x & dst0 & stp & Hv & Hk & Hr)%fresh_accepted.
  apply receive_initialization_inv in Hr as (ts & t & _ & _ & _ & _ & Hp & _).
  unfold peek_init_pubkey. rewrite Hv, Hk, Hp. pose proof (verify_packet_parse _ _ _ Hv) as Hparse.
  assert (first_byte bytes = T_HANDSHAKE_INIT) as Hf by (by eapply parse_init_first).
  split_and!; [done| | |done].
  - destruct bytes as [|b bytes]; [done|]. unfold first_byte in Hf. cbn in Hf. subst b. done.
  - intros d Hd. rewrite Hparse in Hd. done.
Qed.
End Replay.

(** ** In the worker *)

Section Takeover.
Context `{Crypto} `{!CryptoLaws} `{Host}.

Lemma find_there pk (l : list (Peer Noise)) p :
  NoDup (p_pubkey <$> l) → p ∈ l → p_pubkey p = pk → ∃ pos, find_peer pk l = Some (pos, p).
Proof.
  intros Hnd Hp Hk. destruct (list_find_elem_of (fun q => p_pubkey q = pk) l p Hp Hk) as [[pos q] Hf].
  exists pos. unfold find_peer. rewrite Hf. do 2 f_equal.
  apply list_find_Some in Hf as (Hq & Hqk & _). eapply peer_unique; [exact Hnd|done|by eapply list_elem_of_lookup_2|congruence].
Qed.

(** A peer on a path of its own choice, with the session it was given. *)
Lemma ret_set_udp (p : Peer Noise) from :
  returns (set_path p (Some from) ViaUdp) (fun p' =>
    p_pubkey p' = p_pubkey p ∧ p_raw p' = p_raw p ∧ p_direct_addr p' = Some from).
Proof. unfold set_path. apply returns_skip. intros r. apply returns_ret. by destruct (p_relay_pinned _). Qed.

Lemma ret_done_raw (p : Peer Noise) :
  returns (handshake_done p) (fun p' =>
    p_pubkey p' = p_pubkey p ∧ p_raw p' = p_raw p ∧ p_direct_addr p' = p_direct_addr p).
Proof. unfold handshake_done. repeat path_step. done. Qed.

(** A fresh handshake puts the peer on its session and on the path of the datagram. *)
Lemma fresh_takes from bytes p (w w' : Worker Noise) resp fresh :
  raw_handle_handshake (rd_env (reading_at (w_clock w))) own_priv own_pub bytes raw_new = (Ok resp, fresh) →
  (raw_get_peer_public fresh).1 = Ok (p_pubkey p) → NoDup (p_pubkey <$> w_peers w) → p ∈ w_peers w →
  accept_fresh bytes (Some from) ViaUdp w = (Ok tt, w') →
  ∃ p', p' ∈ w_peers w' ∧ p_pubkey p' = p_pubkey p ∧ p_raw p' = fresh ∧ p_direct_addr p' = Some from.
Proof.
  intros Hf Hpub Hnd Hp. unfold accept_fresh. intros (r & w1 & [-> ->]%reading_eq & Hr)%st_bind_Ok_inv.
  rewrite Hf, Hpub in Hr. apply st_bind_Ok_inv in Hr as (w0 & w1 & [-> ->]%get_eq & Hr). cbn [w_peers next_reading] in Hr.
  destruct (find_there (p_pubkey p) (w_peers w) p Hnd Hp eq_refl) as [pos Hfind]. rewrite Hfind in Hr.
  apply find_lookup in Hfind as [Hpos _].
  apply st_bind_Ok_inv in Hr as ([] & w1 & Hm & Hr). apply view_eq in Hm as [Hp1 _]; [|apply view_index].
  apply st_bind_Ok_inv in Hr as (p2 & w2 & Hm & Hr). pose proof (ret_set_udp _ _ _ _ _ Hm) as (Hk2 & Hr2 & Hd2).
  apply view_eq in Hm as [Hp2 _]; [|apply view_set_path].
  apply st_bind_Ok_inv in Hr as (p3 & w3 & Hm & Hr). pose proof (ret_done_raw _ _ _ _ Hm) as (Hk3 & Hr3 & Hd3).
  apply view_eq in Hm as [Hp3 _]; [|apply view_done].
  apply answer_eq in Hr as (p4 & (Hk4 & Hd4 & _) & Hr4 & Hp4 & _). exists p4. rewrite Hp4, Hp3, Hp2, Hp1. split_and!.
  - apply list_elem_of_lookup_2 with pos, list_lookup_insert_eq. by eapply lookup_lt_Some.
  - by rewrite Hk4, Hk3.
  - by rewrite Hr4, Hr3.
  - by rewrite Hd4, Hd3.
Qed.

(** A refused rekey leaves the peers as they are, but for the session, and lets go on. *)
Lemma rekey_falls_through bytes from p (w w' : Worker Noise) b :
  peek_init_pubkey own_priv own_pub bytes = Some (p_pubkey p) → NoDup (p_pubkey <$> w_peers w) → p ∈ w_peers w →
  (∀ env, ∃ e raw, raw_rekey_respond env bytes (replicate 256 x00) (p_raw p) = (Err e, raw)) →
  accept_rekey bytes from ViaUdp w = (Ok b, w') →
  b = false ∧ p_pubkey <$> w_peers w' = p_pubkey <$> w_peers w ∧
  ∃ p', p' ∈ w_peers w' ∧ p_pubkey p' = p_pubkey p.
Proof.
  intros Hpeek Hnd Hp Href. unfold accept_rekey. intros (w0 & w1 & [-> ->]%get_eq & Hr)%st_bind_Ok_inv.
  rewrite Hpeek in Hr. case_bool_decide; [|injection Hr as <- <-; eauto].
  destruct (find_there (p_pubkey p) (w_peers w) p Hnd Hp eq_refl) as [pos Hfind]. rewrite Hfind in Hr.
  apply find_lookup in Hfind as [Hpos _].
  apply st_bind_Ok_inv in Hr as ([p1 x] & w1 & Hm & Hr). pose proof (called_at _ _ _ _ _ Hm) as [Hc _].
  pose proof (called_path _ _ _ Hc) as [Hk1 _]. cbn in Hk1.
  apply view_eq in Hm as [Hp1 _]; [|apply view_raw_call]. destruct Hc as (env & raw & _ & Hx). cbn [snd] in Hx.
  destruct (Href (rd_env (reading_at (w_clock w)))) as (e & raw' & He).
  destruct x as [e'|resp]; [|unfold at_reading in Hx; cbv beta in Hx; by rewrite He in Hx].
  apply st_bind_Ok_inv in Hr as ([] & w2 & [Hp2 _]%update_eq & Hr). injection Hr as <- <-. rewrite Hp2, Hp1.
  split; [done|]. split.
  - rewrite list_fmap_insert. apply list_insert_id. rewrite list_lookup_fmap, Hpos; cbn; by rewrite Hk1.
  - exists p1. split; [|done]. apply list_elem_of_lookup_2 with pos, list_lookup_insert_eq. by eapply lookup_lt_Some.
Qed.

(** C38.  A replayed initiation takes a peer over.  Take any initiation a fresh handshake once
    accepted from a peer, and a worker whose live session with that peer, under the same
    keys, has since seen one at least as new, and which has this one cached for no peer.
    Sent again, by anybody and from any address, it is refused by the rekey but, with
    randomness at hand, accepted by the fresh handshake the worker falls back to: the live
    session is replaced by one whose last timestamp is the old one, and the worker's UDP
    address for the peer is the sender's. *)
Theorem init_replay_takes_over ks (w : Worker Noise) from bytes p n env0 n0 resp0 :
  inv ks ks (w_out w) w → p ∈ w_peers w → p_raw p = Some n →
  noise_handle_handshake env0 own_priv own_pub bytes = Ok (n0, resp0) →
  params (handshake n) = params (handshake n0) → p_pubkey p = peer_static_public (params (handshake n)) →
  Handshake.after (last_seen n0) (last_seen n) = false →
  Forall (fun q => p_last_init q ≠ Some bytes) (w_peers w) →
  (∀ i, rng_ok (e_rng (rd_env (reading_at i)))) →
  ∃ w' p' n', handle (MUdpIn from bytes) w = (Ok tt, w') ∧
    p' ∈ w_peers w' ∧ p_pubkey p' = p_pubkey p ∧ p_direct_addr p' = Some from ∧
    p_raw p' = Some n' ∧ last_seen n' = last_seen n0 ∧
    ∃ i resp, during w w' i ∧
      noise_handle_handshake (rd_env (reading_at i)) own_priv own_pub bytes = Ok (n', Some resp).
Proof.
  intros Hw Hp Hraw H0' Hpar Hkey Hold Hcache Hrng.
  destruct (fresh_shape _ _ _ _ _ _ H0') as (Hfirst & Hmagic & Hpk & Hpeek). rewrite <-Hpar, <-Hkey in Hpeek.
  destruct (handle (MUdpIn from bytes) w) as [r w'] eqn:Hr.
  destruct (handle_ok ks (MUdpIn from bytes) w r w' Hw Hpk Hr) as (-> & _).
  exists w'. cbn [handle] in Hr. apply flush_then in Hr as (w1 & Hp1 & _ & Hc1 & Hr).
  assert (NoDup (p_pubkey <$> w_peers w1)) as Hnd by (rewrite Hp1; destruct Hw as [-> ? _ _ _]; done).
  rewrite <-Hp1 in Hp, Hcache. unfold on_udp_in in Hr. rewrite Hmagic, Hfirst in Hr.
  rewrite bool_decide_eq_false_2, bool_decide_eq_true_2 in Hr by (done || by intros []).
  unfold accept_init in Hr. apply st_bind_Ok_inv in Hr as (w0 & w2 & [-> ->]%get_eq & Hr).
  rewrite (proj2 (list_find_None _ _)) in Hr by done.
  apply st_bind_Ok_inv in Hr as (b & w2 & Hm & Hr).
  pose proof (forward_eq _ _ _ _ Hm (forward_rekey bytes (Some from) ViaUdp)) as Hc2.
  apply (rekey_falls_through _ _ p) in Hm as (-> & Hks & p2 & Hp2 & Hk2); [|done..|].
  2: { intros env. rewrite Hraw. destruct (rekey_refuses _ _ _ _ _ _ env (replicate 256 x00) n H0' Hpar Hold) as (e & n' & He).
       exists e, (Some n'). unfold raw_rekey_respond, with_data. change (rekey_respond (Cryptor:=noise_cryptor)) with noise_rekey_respond. by rewrite He. }
  destruct (fresh_again _ _ _ _ _ _ (rd_env (reading_at (w_clock w2))) H0' (Hrng _)) as (n' & resp & Hn' & Hpn & Hl).
  assert (w_clock w2 < w_clock w')%nat as Hc3.
  { unfold accept_fresh in Hr. apply st_bind_Ok_inv in Hr as (rd & w3 & [-> ->]%reading_eq & Hr).
    enough (w_clock (next_reading w2) ≤ w_clock w')%nat as Hle by (cbn in Hle; lia).
    by eapply forward_eq; [exact Hr|forward]. }
  apply (fresh_takes _ _ p2 _ _ (Some resp) (Some n')) in Hr as (p' & Hp' & Hk' & Hr' & Hd'); [|..|by rewrite Hks|done].
  - exists p', n'. split_and!; [done|done|congruence|done..|]. exists (w_clock w2), resp. split; [unfold during; lia|done].
  - unfold raw_handle_handshake. cbn. by rewrite Hn'.
  - cbn. unfold noise_get_peer_public. rewrite Hpn, Hk2, Hkey. by rewrite Hpar.
Qed.
End Takeover.

(** ** At node B *)

#[local] Existing Instance host_b.

(** A starts a new session; then somebody else sends A's first initiation again. *)
Definition a_rekey : res CryptoError (list byte) * RawCryptor Noise :=
  raw_rekey_init (env_at 5) (replicate 256 x00) a_joined.
Definition node_rekeyed : Worker Noise := after (MUdpIn addr_a (sent a_rekey)) node_joined.
Definition a_rekeyed : RawCryptor Noise := (raw_handle_response (env_at 5) (last_udp node_rekeyed) a_rekey.2).2.
Definition a_data2 : res CryptoError (list byte) * RawCryptor Noise :=
  raw_on_send (env_at 5) toy_ip (replicate 256 x00) a_rekeyed.
Definition node_replayed : Worker Noise := after (MUdpIn addr_x (sent a_init)) node_rekeyed.

(** The session B had with A first. *)
Definition first_session : option Noise :=
  match noise_handle_handshake (env_at 0) secret_b pub_b (sent a_init) with Ok (n, _) => Some n | _ => None end.

Lemma node_rekeyed_inv : inv [pub_a] [pub_a] (w_out node_rekeyed) node_rekeyed.
Proof.
  assert (∀ msg w, inv [pub_a] [pub_a] (w_out w) w → members [pub_a] msg = [pub_a] → msg_ok (C:=Noise) msg →
    inv [pub_a] [pub_a] (w_out (after msg w)) (after msg w)) as Hstep.
  { intros msg w Hw Hk Hm. unfold after. destruct (handle msg w) as [r w'] eqn:Hr.
    destruct (handle_ok [pub_a] msg w r w' Hw Hm Hr) as (_ & Hi & _). by rewrite Hk in Hi. }
  do 2 (apply Hstep; [|done|intros d Hd; by vm_compute in Hd]). exact node_added_inv.
Qed.

Lemma init_replay_takes_over_witness :
  ∃ w' p', handle (MUdpIn addr_x (sent a_init)) node_rekeyed = (Ok tt, w') ∧
    p' ∈ w_peers w' ∧ p_pubkey p' = pub_a ∧ p_direct_addr p' = Some addr_x.
Proof.
  destruct (keys_one node_rekeyed pub_a) as [_ Hne]; [vm_compute; reflexivity|].
  assert (p_pubkey (peer_of node_rekeyed) = pub_a) as Hk by (vm_compute; reflexivity).
  destruct (noise_handle_handshake (env_at 0) secret_b pub_b (sent a_init)) as [[n0 resp0]| |] eqn:H0.
  2, 3: vm_compute in H0; discriminate H0.
  destruct (p_raw (peer_of node_rekeyed)) as [n|] eqn:Hn; [|vm_compute in Hn; discriminate Hn].
  assert (first_session = Some n0) as H1 by (unfold first_session; rewrite H0; reflexivity).
  destruct (init_replay_takes_over [pub_a] node_rekeyed addr_x (sent a_init) (peer_of node_rekeyed) n (env_at 0) n0 resp0
    node_rekeyed_inv (peer_of_in _ Hne) Hn H0) as (w' & p' & n' & Hr & Hp & Hkey & Hd & _).
  - clear H0. vm_compute in H1, Hn. injection H1 as <-. injection Hn as <-. vm_compute. reflexivity.
  - clear H0. vm_compute in Hn. injection Hn as <-. vm_compute. reflexivity.
  - clear H0. vm_compute in H1, Hn. injection H1 as <-. injection Hn as <-. vm_compute. reflexivity.
  - apply (bool_decide_unpack _). vm_compute. exact Logic.I.
  - intros i. apply toy_rng_ok.
  - exists w', p'. split; [exact Hr|]. split; [exact Hp|]. split; [|exact Hd]. rewrite Hkey. exact Hk.
Defined.

(** What follows at B: data of A that is delivered before the replay is not after it. *)
Lemma init_replay_run :
  p_direct_addr (peer_of node_rekeyed) = Some addr_a ∧
  tuns (after (MUdpIn addr_a (sent a_data2)) node_rekeyed) = [toy_ip] ∧
  p_direct_addr (peer_of node_replayed) = Some addr_x ∧
  tuns (after (MUdpIn addr_a (sent a_data2)) node_replayed) = [].
Proof. split_and!; vm_compute; reflexivity. Qed.
