(* ===== verification/Apply.v ===== *)
(** * Results of host effects (node/src/apply.rs)

    What the node does to its host (routes, DNS, NAT, worker dispatch) returns an
    [ApplyError] when it fails.  The effects of one reconcile are all attempted; [all]
    merges their errors.  [Status] is what the node reports of the configuration it
    applied, [Retry] the back-off of one effect. *)

From S2P Require Import Prelude.
From S2P Require Import Words.
From S2P Require Import NetAddr.
From S2P Require Import NetText.
From S2P Require Import Instant.
From S2P Require Import RouteTable.

(** The kinds of [io::Error] the node tells apart. *)
Inductive ErrorKind :=
| Other | NotFound | PermissionDenied | TimedOut | InvalidInput | Unsupported | ConnectionAborted | AlreadyExists.

#[global] Instance ErrorKind_eq_dec : EqDecision ErrorKind.
Proof. solve_decision. Defined.

Record ApplyError := mkApplyError {
  command : list string;
  exit_code : option Z;
  stderr : string;
  kind : ErrorKind
}.

#[global] Instance ApplyError_eq_dec : EqDecision ApplyError.
Proof. solve_decision. Defined.

Abbreviation ApplyResult := (res ApplyError unit).

(** [ApplyError::new]. *)
Definition error_new (command : list string) (stderr : string) : ApplyError :=
  mkApplyError command None stderr Other.

(** [{:?}] of an [Option<i32>]. *)
Definition fmt_exit_code (o : option Z) : string :=
  match o with
  | None => "None"
  | Some c => "Some(" +:+ (if c <? 0 then "-" +:+ text (fmt_dec (- c)) else text (fmt_dec c)) +:+ ")"
  end.

(** [Display]: the command line, its exit code and what it printed. *)
Definition fmt_error (e : ApplyError) : string :=
  String.concat " " (command e) +:+ " (exit " +:+ fmt_exit_code (exit_code e) +:+ "): "
  +:+ text (trim (chars (stderr e))).

(** [Ord] of [Vec<String>] and [Option<i32>]. *)
Fixpoint list_cmp {A} (cmp : A → A → comparison) (a b : list A) : comparison :=
  match a, b with
  | [], [] => Eq
  | [], _ => Lt
  | _, [] => Gt
  | x :: a, y :: b => match cmp x y with Eq => list_cmp cmp a b | c => c end
  end.
Definition option_cmp (a b : option Z) : comparison :=
  match a, b with
  | None, None => Eq
  | None, _ => Lt
  | _, None => Gt
  | Some x, Some y => x ?= y
  end.

(** The order of [sort_by] in [all]. *)
Definition error_cmp (a b : ApplyError) : comparison :=
  match list_cmp String.compare (command a) (command b) with
  | Eq => match option_cmp (exit_code a) (exit_code b) with
          | Eq => String.compare (stderr a) (stderr b)
          | c => c
          end
  | c => c
  end.

(** [Vec::dedup]. *)
Fixpoint dedup {A} `{EqDecision A} (l : list A) : list A :=
  match l with
  | x :: (y :: _) as k => if bool_decide (x = y) then dedup k else x :: dedup k
  | _ => l
  end.

Definition err_of {E A} (r : res E A) : option E := match r with Err e => Some e | _ => None end.

Definition add_effect (first e : ApplyError) : ApplyError :=
  mkApplyError (command first) (exit_code first) (stderr first +:+ "; additional effect: " +:+ fmt_error e)
    (kind first).

Definition all (results : list ApplyResult) : ApplyResult :=
  match dedup (sort_by error_cmp (omap err_of results)) with
  | [] => Ok tt
  | first :: rest => Err (foldl add_effect first rest)
  end.

(** ** What the node reports *)

Record Status := mkStatus {
  last_error : option ApplyError;
  applied_epoch : option Z;
  restart_required : bool;
  st_self_exit : bool;
  exit_active : bool
}.

Inductive ApplyEvent := Failed (e : ApplyError) | Recovered.

(** [complete_with]; the event, if any, that is logged. *)
Definition complete (epoch : Z) (result : ApplyResult) (s : Status) : Status * option ApplyEvent :=
  match result with
  | Err e =>
      (mkStatus (Some e) (applied_epoch s) (restart_required s) (st_self_exit s) (exit_active s),
       if bool_decide (last_error s = Some e) then None else Some (Failed e))
  | _ =>
      (mkStatus None (Some epoch) (restart_required s) (st_self_exit s) (exit_active s),
       match last_error s with Some _ => Some Recovered | None => None end)
  end.

(** ** Retries *)

Record Retry := mkRetry {
  r_epoch : option Z;
  r_error : option ApplyError;
  r_next : option Z;
  r_delay : Z
}.

Definition retry_default : Retry := mkRetry None None None 0.

(** What a run of the effect leaves: a success clears the budget, a failure doubles
    the delay, from two seconds to a minute. *)
Definition retry_after (result : ApplyResult) (now : Z) (r : Retry) : Retry :=
  match result with
  | Err e =>
      let delay := if r_delay r =? 0 then 2 else Z.min (r_delay r * 2) 60 in
      mkRetry (r_epoch r) (Some e) (Some (now + delay * NANOSECOND)) delay
  | _ => mkRetry (r_epoch r) None None 0
  end.

(** [Retry::run]; [effect] acts on the host. *)
Definition retry_run {S} (epoch now : Z) (effect : st S ApplyError unit) : st (Retry * S) ApplyError unit :=
  fun '(r, s) =>
  let r := if bool_decide (r_epoch r = Some epoch) then r else mkRetry (Some epoch) None None 0 in
  let waits := match r_next r with Some t => now <? t | None => false end in
  match r_error r with
  | Some e => if waits then (Err e, (r, s)) else
      let '(result, s) := effect s in (result, (retry_after result now r, s))
  | None => let '(result, s) := effect s in (result, (retry_after result now r, s))
  end.

(** ** Merging *)

Lemma dedup_nil {A} `{EqDecision A} (l : list A) : dedup l = [] → l = [].
Proof. induction l as [|x [|y l] IH]; cbn; [done..|]. case_bool_decide; [|done]. by intros ?%IH. Qed.

(** All effects succeeded exactly when each did; a failure is never lost. *)
Lemma all_ok results : all results = Ok tt ↔ Forall (fun r => err_of r = None) results.
Proof.
  unfold all. split.
  - destruct (dedup _) as [|e l] eqn:Hd; [intros _|done]. apply dedup_nil in Hd.
    pose proof (sort_by_perm error_cmp (omap err_of results)) as Hp. rewrite Hd in Hp.
    apply Permutation_nil_l in Hp. apply list.Forall_forall. intros r Hr.
    destruct (err_of r) as [e|] eqn:He; [|done].
    assert (e ∈ omap err_of results) as Hin by (apply list_elem_of_omap; eauto).
    rewrite <-Hp in Hin. by apply elem_of_nil in Hin.
  - intros Hf. assert (omap err_of results = []) as ->; [|done].
    induction Hf as [|r l Hr _ IH]; cbn; [done|]. by rewrite Hr.
Qed.
