(* ===== verification/NodeConfig.v ===== *)
(** * The configuration a node reads (node/src/control.rs)

    The control plane serves a [DeviceConfig] as JSON (the [Serialize] of
    control-server/src/domain.rs); the node reads peers, epoch and settings out of it
    and decides which peer, if any, is its exit.  A [Json] is a [serde_json::Value]; a
    number that is not an integer is kept as text. *)

From Stdlib Require Import Strings.Ascii Strings.String.
From S2P Require Import Prelude.
From S2P Require Import Words.
From S2P Require Import NetAddr.
From S2P Require Import NetText.
From S2P Require Import Prefix.
From S2P Require Import RouteTable.
From S2P Require Import Domain.

(** ** JSON *)

#[warnings="-register-all"]
Inductive Json :=
| JNull
| JBool (b : bool)
| JNumber (n : Z)
| JReal (s : string)
| JString (s : string)
| JArray (l : list Json)
| JObject (l : list (string * Json)).

(** [value\[key\]]: null where there is no such field. *)
Definition jget (key : string) (j : Json) : Json :=
  match j with
  | JObject l => match list_find (fun x => x.1 = key) l with Some (_, x) => x.2 | None => JNull end
  | _ => JNull
  end.

Definition as_str (j : Json) : option string := match j with JString s => Some s | _ => None end.
Definition as_bool (j : Json) : option bool := match j with JBool b => Some b | _ => None end.
Definition as_array (j : Json) : option (list Json) := match j with JArray l => Some l | _ => None end.
Definition as_u64 (j : Json) : option Z :=
  match j with JNumber n => if (0 <=? n) && (n <? 2 ^ 64) then Some n else None | _ => None end.
Definition as_i64 (j : Json) : option Z :=
  match j with JNumber n => if (- 2 ^ 63 <=? n) && (n <? 2 ^ 63) then Some n else None | _ => None end.

(** ** What the control plane serves *)

Definition opt_json {A} (f : A → Json) (o : option A) : Json :=
  match o with Some a => f a | None => JNull end.
Definition strings_json (l : list string) : Json := JArray (JString <$> l).

Definition peer_json (p : PeerConfig) : Json :=
  JObject [("wg_public_key"%string, JString (p_wg_public_key p));
           ("allowed_ips"%string, strings_json (p_allowed_ips p));
           ("endpoints"%string, strings_json (p_endpoints p));
           ("exit"%string, JBool (p_exit p))].

Definition relay_json (r : RelayNode) : Json :=
  JObject [("id"%string, JString (l_id r)); ("region"%string, JString (l_region r));
           ("url"%string, JString (l_url r)); ("network_id"%string, opt_json JString (l_network_id r));
           ("anytls"%string, JBool (l_anytls r)); ("stun_url"%string, opt_json JString (l_stun_url r));
           ("node_id"%string, opt_json JString (l_node_id r));
           ("public_key"%string, opt_json JString (l_public_key r))].

Definition config_json (c : DeviceConfig) : Json :=
  JObject [("overlay_cidrs"%string, strings_json (c_overlay_cidrs c));
           ("network_id"%string, JString (c_network_id c));
           ("config_epoch"%string, JNumber (c_config_epoch c));
           ("address_v4"%string, opt_json JString (c_address_v4 c));
           ("address_v6"%string, opt_json JString (c_address_v6 c));
           ("peers"%string, JArray (peer_json <$> c_peers c));
           ("relays"%string, JArray (relay_json <$> c_relays c));
           ("mtu"%string, opt_json JNumber (c_mtu c));
           ("dns"%string, strings_json (c_dns c));
           ("self_exit"%string, JBool (c_self_exit c))].

(** ** What the node makes of it *)

Record PeerInfo := mkPeerInfo {
  pi_pubkey : list byte;
  pi_candidates : list SocketAddr;
  pi_allowed_ips : list string;
  pi_overlay : option Z;
  pi_exit : bool
}.

Definition parse_self_exit (conf : Json) : bool := default false (as_bool (jget "self_exit" conf)).

(** [m as i32]. *)
Definition as_i32 (m : Z) : Z := let r := wrap 32 m in if r <? 2 ^ 31 then r else r - 2 ^ 32.

(** The strings of an array, the rest skipped; empty when it is no array. *)
Definition string_list (j : Json) : list string := omap as_str (default [] (as_array j)).

Definition parse_settings (conf : Json) : option Z * list string :=
  (as_i32 <$> as_i64 (jget "mtu" conf), string_list (jget "dns" conf)).

Definition config_epoch (conf : Json) : Z := default 0 (as_u64 (jget "config_epoch" conf)).

Section Peers.
Context `{KeyCodec}.

Definition parse_peer (p : Json) : option PeerInfo :=
  pubkey ← as_str (jget "wg_public_key" p) ≫= key_decode;
  let candidates := omap (fun s => parse_socket_addr (chars s)) (string_list (jget "endpoints" p)) in
  let allowed_ips := string_list (jget "allowed_ips" p) in
  let exit := match as_bool (jget "exit" p) with
              | Some v => v
              | None => existsb is_default_prefix allowed_ips
              end in
  Some (mkPeerInfo pubkey candidates allowed_ips
          (as_str (jget "address_v4" p) ≫= fun s => parse_v4 (chars s)) exit).

Definition parse_peers (conf : Json) : list PeerInfo :=
  omap parse_peer (default [] (as_array (jget "peers" conf))).

(** ** The exit *)

(** [min_by_key(|p| p.pubkey)]. *)
Definition min_peer (l : list PeerInfo) : option PeerInfo :=
  foldl (fun m p => match m with
                    | Some q => match bytes_cmp (pi_pubkey p) (pi_pubkey q) with Lt => Some p | _ => m end
                    | None => Some p
                    end) None l.

Definition select_exit (peers : list PeerInfo) (use_exit : option string) (relay_available : bool)
    : option (list byte) :=
  match (fun s => text (trim (chars s))) <$> use_exit with
  | None | Some ""%string | Some "off"%string => None
  | Some "auto"%string =>
      pi_pubkey <$> min_peer (filter (fun p =>
        pi_exit p && (relay_available || negb (bool_decide (pi_candidates p = []))) = true) peers)
  | Some hex_pk =>
      pk ← key_decode hex_pk;
      '(_, p) ← list_find (fun p => pi_pubkey p = pk ∧ pi_exit p = true) peers;
      Some (pi_pubkey p)
  end.

(** [c.contains(':')]. *)
Definition has_colon (c : string) : bool := existsb (fun x => Ascii.eqb x ":"%char) (chars c).

(** What of a peer's prefixes stays when [selected] is the exit. *)
Definition keep_prefix (selected : option (list byte)) (pk : list byte) (c : string) : bool :=
  negb (is_default_prefix c) || negb (has_colon c) && bool_decide (Some pk = selected).

Definition strip_peer (selected : option (list byte)) (p : PeerInfo) : PeerInfo :=
  mkPeerInfo (pi_pubkey p) (pi_candidates p)
    (filter (fun c => keep_prefix selected (pi_pubkey p) c = true) (pi_allowed_ips p))
    (pi_overlay p) (pi_exit p).

Definition apply_use_exit (peers : list PeerInfo) (use_exit : option string) (relay_available : bool)
    : option (list byte) * list PeerInfo :=
  let selected := select_exit peers use_exit relay_available in
  (selected, strip_peer selected <$> peers).
End Peers.

(** lib.rs: the peer that carries the IPv4 default route. *)
Definition is_v4_default (c : string) : bool :=
  match from_str (chars c) with
  | Ok p => (length_ p =? 0) && match network p with V4 _ => true | V6 _ => false end
  | _ => false
  end.

Definition selected_exit (peers : list PeerInfo) : option (list byte) :=
  '(_, p) ← list_find (fun p => existsb is_v4_default (pi_allowed_ips p) = true) peers;
  Some (pi_pubkey p).

(** lib.rs: the name servers to install; those of the exit only once it is applied. *)
Definition desired_dns (peers : list PeerInfo) (overrides : list string) (exit_ready manage_admin : bool)
    : option string :=
  match selected_exit peers with
  | Some pk =>
      if negb exit_ready then None
      else if bool_decide (overrides = []) then
        '(_, p) ← list_find (fun p => pi_pubkey p = pk) peers;
        a ← pi_overlay p; Some (text (fmt_v4 a))
      else Some (String.concat " " overrides)
  | None =>
      if manage_admin && negb (bool_decide (overrides = [])) then Some (String.concat " " overrides) else None
  end.

(** ** A default prefix is IPv4 exactly when it has no colon *)

Abbreviation colon := ":"%char.

Lemma has_colon_spec c : has_colon c = true ↔ colon ∈ chars c.
Proof.
  unfold has_colon. rewrite existsb_exists. setoid_rewrite list_elem_of_In. split.
  - intros (x & Hx & ->%Ascii.eqb_eq). done.
  - intros Hx. exists colon. by rewrite Ascii.eqb_refl.
Qed.

Lemma read_char_inv c l x k : read_given_char c l = Some (x, k) → l = c :: k.
Proof.
  unfold read_given_char. destruct l as [|y l]; [done|].
  destruct (Ascii.eqb_spec y c); [|done]. subst. by intros [= _ <-].
Qed.

Lemma span_digits_split radix l ds k : 
  span_digits radix l = (ds, k) → ∃ pre, l = pre ++ k ∧ Forall (fun c => to_digit radix c ≠ None) pre.
Proof.
  revert ds k. induction l as [|c l IH]; intros ds k; cbn; [intros [= _ <-]; by exists []|].
  destruct (to_digit radix c) as [d|] eqn:Hd; [|intros [= _ <-]; by exists []].
  destruct (span_digits radix l) as [ds' k'] eqn:E. intros [= _ <-].
  destruct (IH _ _ eq_refl) as (pre & -> & Hpre). exists (c :: pre). split; [done|].
  constructor; [by rewrite Hd|done].
Qed.

Lemma read_number_split radix max allow bound l v k :
  read_number radix max allow bound l = Some (v, k) →
  ∃ pre, l = pre ++ k ∧ Forall (fun c => to_digit radix c ≠ None) pre.
Proof.
  unfold read_number. destruct (span_digits radix l) as [ds rest] eqn:E. apply span_digits_split in E.
  case_if; [done|]. destruct ds as [|d ds]; [done|]. repeat (case_if; [done|]). case_if; [|done].
  by intros [= _ <-].
Qed.

Lemma not_digit radix pre c : to_digit radix c = None → Forall (fun c => to_digit radix c ≠ None) pre → c ∉ pre.
Proof. intros Hc Hf Hin. rewrite list.Forall_forall in Hf. by apply (Hf c). Qed.

(** An IPv4 address is read without meeting a colon. *)
Lemma read_ipv4_split l ip k : read_ipv4_addr l = Some (ip, k) → ∃ pre, l = pre ++ k ∧ (colon ∉ pre).
Proof.
  assert (∀ i l v k, read_separator "."%char i (read_number 10 3 false 255) l = Some (v, k) →
    ∃ pre, l = pre ++ k ∧ (colon ∉ pre)) as Hsep.
  { intros i l0 v k0. unfold read_separator. destruct i as [|i].
    - intros (pre & -> & Hpre)%read_number_split. exists pre. split; [done|]. exact (not_digit 10 pre colon eq_refl Hpre).
    - destruct (read_given_char "."%char l0) as [[[] l1]|] eqn:Hc; [|done]. apply read_char_inv in Hc as ->.
      intros (pre & -> & Hpre)%read_number_split. exists ("."%char :: pre). split; [done|].
      rewrite elem_of_cons. intros [?|?]; [done|]. by eapply (not_digit 10 pre colon). }
  unfold read_ipv4_addr. intros H.
  apply bind_Some in H as ([a l1] & (p1 & -> & H1)%Hsep & H).
  apply bind_Some in H as ([b l2] & (p2 & -> & H2)%Hsep & H).
  apply bind_Some in H as ([c l3] & (p3 & -> & H3)%Hsep & H).
  apply bind_Some in H as ([d l4] & (p4 & -> & H4)%Hsep & [= _ ->]).
  exists (p1 ++ p2 ++ p3 ++ p4). rewrite <-!(assoc_L (++)). split; [done|]. rewrite !elem_of_app. tauto.
Qed.

Lemma read_separator_split {A} (p : parser A) i l a k :
  (∀ l a k, p l = Some (a, k) → ∃ pre, l = pre ++ k) →
  read_separator colon i p l = Some (a, k) → ∃ pre, l = pre ++ k ∧ (i ≠ O → colon ∈ l).
Proof.
  intros Hp. unfold read_separator. destruct i as [|i]; [intros (pre & ->)%Hp; by exists pre|].
  destruct (read_given_char colon l) as [[[] l1]|] eqn:Hc; [|done]. apply read_char_inv in Hc as ->.
  intros (pre & ->)%Hp. exists (colon :: pre). split; [done|]. intros _. apply list_elem_of_here.
Qed.

Lemma read_groups_split n : ∀ i l gs dotted k,
  read_groups n i l = (gs, dotted, k) →
  ∃ pre, l = pre ++ k ∧ ((2 < length gs)%nat ∨ i ≠ O ∧ gs ≠ [] → colon ∈ l).
Proof.
  assert (∀ l ip k, read_ipv4_addr l = Some (ip, k) → ∃ pre, l = pre ++ k) as H4
    by (intros l ip k (pre & -> & _)%read_ipv4_split; eauto).
  assert (∀ l v k, read_number 16 4 true 65535 l = Some (v, k) → ∃ pre, l = pre ++ k) as Hnum
    by (intros l v k (pre & -> & _)%read_number_split; eauto).
  induction n as [|n IH]; intros i l gs dotted k; cbn [read_groups].
  { intros [= <- <- <-]. exists []. split; [done|]. cbn. intros [?|[_ ?]]; [lia|done]. }
  destruct (if (2 <=? S n)%nat then read_separator colon i read_ipv4_addr l else None) as [[v4 rest]|] eqn:Hv4.
  { destruct (2 <=? S n)%nat; [|done]. apply read_separator_split in Hv4 as (pre & -> & Hc); [|done].
    intros [= <- <- <-]. exists pre. split; [done|]. cbn. intros [?|[? _]]; [lia|auto]. }
  destruct (read_separator colon i (read_number 16 4 true 65535) l) as [[g rest]|] eqn:Hg.
  - apply read_separator_split in Hg as (pre & -> & Hc); [|done].
    destruct (read_groups n (S i) rest) as [[gs' b] k'] eqn:E. apply IH in E as (pre' & -> & Hc').
    intros [= <- <- <-]. exists (pre ++ pre'). rewrite (assoc_L (++)). split; [done|]. cbn.
    intros [Hlen|[Hi _]]; [|by rewrite <-(assoc_L (++)); auto].
    rewrite <-(assoc_L (++)), elem_of_app. right. apply Hc'. right. split; [done|]. by destruct gs'; [cbn in Hlen; lia|].
  - intros [= <- <- <-]. exists []. split; [done|]. cbn. intros [?|[_ ?]]; [lia|done].
Qed.

Lemma read_ipv6_colon l ip k : read_ipv6_addr l = Some (ip, k) → colon ∈ l.
Proof.
  unfold read_ipv6_addr. destruct (read_groups 8 0 l) as [[head dotted] l1] eqn:E.
  apply read_groups_split in E as (pre & -> & Hc).
  destruct (length head =? 8)%nat eqn:Hl; [intros _; apply Hc; left; apply Nat.eqb_eq in Hl; lia|].
  destruct dotted; [done|]. intros ([[] l2] & ->%read_char_inv & _)%bind_Some.
  rewrite elem_of_app. right. apply list_elem_of_here.
Qed.

Lemma parse_ip_colon l a :
  parse_ip l = Some a → if decide (colon ∈ l) then ∃ ip, a = V6 ip else ∃ ip, a = V4 ip.
Proof.
  unfold parse_ip, parse_with. destruct (read_ipv4_addr l) as [[ip k]|] eqn:H4.
  - destruct k as [|? ?]; [|done]. apply read_ipv4_split in H4 as (pre & -> & Hn). rewrite app_nil_r.
    intros [= <-]. rewrite decide_False by done. eauto.
  - destruct (read_ipv6_addr l) as [[ip k]|] eqn:H6; [|done]. destruct k as [|? ?]; [|done].
    intros [= <-]. rewrite decide_True by by eapply read_ipv6_colon. eauto.
Qed.

Lemma parse_u8_no_colon l n : parse_u8 l = Some n → colon ∉ l.
Proof.
  unfold parse_u8. set (digits := match l with c :: k => _ | [] => _ end).
  assert (colon ∈ l → colon ∈ digits) as Hd.
  { unfold digits. destruct l as [|c k]; [done|]. destruct (Ascii.eqb_spec c "+"%char); [|done].
    subst c. rewrite elem_of_cons. by intros [?|?]. }
  clearbody digits.
  destruct digits as [|x digits]; [done|]. destruct (span_digits 10 (x :: digits)) as [ds k] eqn:E.
  apply span_digits_split in E as (pre & Hpre & Hf). destruct k as [|? ?]; [|done]. intros _ Hin.
  apply Hd in Hin. rewrite Hpre, app_nil_r in Hin. by eapply (not_digit 10 pre colon).
Qed.

Lemma split_once_eq c l a b : split_once c l = Some (a, b) → l = a ++ c :: b.
Proof.
  revert a b. induction l as [|x l IH]; intros a b; cbn; [done|].
  destruct (Ascii.eqb_spec x c); [intros [= <- <-]; by subst|].
  destruct (split_once c l) as [[a' b']|] eqn:E; [|done]. intros [= <- <-]. by rewrite (IH _ _ eq_refl).
Qed.

Lemma from_str_colon l p :
  from_str l = Ok p → if decide (colon ∈ l) then ∃ ip, network p = V6 ip else ∃ ip, network p = V4 ip.
Proof.
  unfold from_str. intros ([address len_] & Hlen & H)%bind_Ok_inv.
  assert (colon ∈ l ↔ colon ∈ address) as Hiff.
  { destruct (split_once "/"%char l) as [[a b]|] eqn:Hs; [|by injection Hlen as -> _].
    apply split_once_eq in Hs as ->. destruct (parse_u8 b) as [n|] eqn:Hn; [|done]. injection Hlen as -> _.
    apply parse_u8_no_colon in Hn. rewrite elem_of_app, elem_of_cons. by intuition. }
  destruct (parse_ip address) as [a|] eqn:Ha; [|done]. apply parse_ip_colon in Ha. cbn -[prefix_mask] in H.
  rewrite (decide_ext _ _ _ _ Hiff). case_decide; destruct Ha as [ip ->]; cbn -[prefix_mask] in H; case_if; try done;
    apply Ok_inj in H as <-; cbn; eauto.
Qed.

Lemma v4_default_spec c : is_v4_default c = is_default_prefix c && negb (has_colon c).
Proof.
  unfold is_v4_default, is_default_prefix. destruct (from_str (chars c)) as [p| |] eqn:E; [|done..].
  apply from_str_colon in E. destruct (length_ p =? 0); [|done]. cbn.
  destruct (has_colon c) eqn:Hc.
  - apply has_colon_spec in Hc. rewrite decide_True in E by done. by destruct E as [ip ->].
  - rewrite decide_False in E by (rewrite <-has_colon_spec; by rewrite Hc). by destruct E as [ip ->].
Qed.

(** ** Choosing the exit *)

Section Exit.
Context `{KeyCodec}.

Lemma min_peer_snoc l p :
  min_peer (l ++ [p]) =
  match min_peer l with
  | Some q => match bytes_cmp (pi_pubkey p) (pi_pubkey q) with Lt => Some p | _ => Some q end
  | None => Some p
  end.
Proof. unfold min_peer. rewrite foldl_app. cbn. by destruct (foldl _ None l) as [q|]; [destruct (bytes_cmp _ _)|]. Qed.

Lemma min_peer_spec l :
  match min_peer l with
  | Some p => p ∈ l ∧ ∀ q, q ∈ l → bytes_cmp (pi_pubkey p) (pi_pubkey q) ≠ Gt
  | None => l = []
  end.
Proof.
  induction l as [|p l IH] using rev_ind; [done|]. rewrite min_peer_snoc.
  destruct (min_peer l) as [m|].
  - destruct IH as [Hin Hmin]. pose proof (bytes_cmp_opp (pi_pubkey m) (pi_pubkey p)) as Hopp.
    destruct (bytes_cmp (pi_pubkey p) (pi_pubkey m)) eqn:Hc; (split; [rewrite elem_of_app, ?list_elem_of_singleton; auto|]);
      intros q [Hq|Hq%list_elem_of_singleton]%elem_of_app; subst; auto.
    + by destruct (bytes_cmp (pi_pubkey m) (pi_pubkey p)).
    + apply bytes_cmp_trans with (pi_pubkey m); [by rewrite Hc|auto].
    + by rewrite bytes_cmp_refl.
    + by destruct (bytes_cmp (pi_pubkey m) (pi_pubkey p)).
  - subst l. split; [apply list_elem_of_here|]. intros q ->%list_elem_of_singleton. by rewrite bytes_cmp_refl.
Qed.

(** The setting as the code reads it. *)
Definition setting (use_exit : option string) : option string := (fun s => text (trim (chars s))) <$> use_exit.

(** A peer that can be reached: an endpoint is known or there is a relay. *)
Definition exit_reachable (relay_available : bool) (p : PeerInfo) : Prop :=
  pi_exit p = true ∧ (relay_available = true ∨ pi_candidates p ≠ []).

(** What the setting asks for. *)
Definition exit_wanted (peers : list PeerInfo) (use_exit : option string) (relay : bool) (pk : list byte) : Prop :=
  match setting use_exit with
  | None | Some ""%string | Some "off"%string => False
  | Some "auto"%string =>
      ∃ p, p ∈ peers ∧ pi_pubkey p = pk ∧ exit_reachable relay p ∧
        ∀ q, q ∈ peers → exit_reachable relay q → bytes_cmp pk (pi_pubkey q) ≠ Gt
  | Some key => key_decode key = Some pk ∧ ∃ p, p ∈ peers ∧ pi_pubkey p = pk ∧ pi_exit p = true
  end.

Lemma reachable_filter relay p :
  pi_exit p && (relay || negb (bool_decide (pi_candidates p = []))) = true ↔ exit_reachable relay p.
Proof.
  unfold exit_reachable. rewrite andb_true_iff, orb_true_iff, negb_true_iff, bool_decide_eq_false. done.
Qed.

Lemma select_auto peers relay pk :
  pi_pubkey <$> min_peer (filter (fun p =>
      pi_exit p && (relay || negb (bool_decide (pi_candidates p = []))) = true) peers) = Some pk ↔
  ∃ p, p ∈ peers ∧ pi_pubkey p = pk ∧ exit_reachable relay p ∧
    ∀ q, q ∈ peers → exit_reachable relay q → bytes_cmp pk (pi_pubkey q) ≠ Gt.
Proof.
  set (l := filter _ peers). assert (∀ q, q ∈ l ↔ q ∈ peers ∧ exit_reachable relay q) as Hl
    by (intros q; unfold l; rewrite list_elem_of_filter, reachable_filter; tauto).
  pose proof (min_peer_spec l) as Hm. destruct (min_peer l) as [m|].
  - destruct Hm as [Hin Hmin]. apply Hl in Hin as [Hin Hr]. cbn. split.
    + intros [= <-]. exists m. split_and!; try done. intros q ? ?. apply Hmin, Hl. done.
    + intros (p & Hp & <- & Hrp & Hminp). f_equal. apply bytes_cmp_eq.
      pose proof (Hmin p (proj2 (Hl p) (conj Hp Hrp))) as H1. pose proof (Hminp m Hin Hr) as H2.
      rewrite bytes_cmp_opp in H2. by destruct (bytes_cmp (pi_pubkey m) (pi_pubkey p)).
  - split; [done|]. intros (p & Hp & _ & Hrp & _). assert (p ∈ l) as Hpl by by apply Hl.
    rewrite Hm in Hpl. by apply elem_of_nil in Hpl.
Qed.

Lemma select_pinned (peers : list PeerInfo) key pk :
  (pk ← key_decode key;
   '(_, p) ← list_find (fun p => pi_pubkey p = pk ∧ pi_exit p = true) peers;
   Some (pi_pubkey p)) = Some pk ↔
  key_decode key = Some pk ∧ ∃ p, p ∈ peers ∧ pi_pubkey p = pk ∧ pi_exit p = true.
Proof.
  destruct (key_decode key) as [k|]; cbn; [|by split; [|intros [? _]]].
  destruct (list_find _ peers) as [[i p]|] eqn:Hf; cbn.
  - apply list_find_Some in Hf as (Hi & [Hk He] & _). split.
    + intros [= <-]. split; [by rewrite Hk|]. exists p. split; [by eapply list_elem_of_lookup_2|done].
    + intros [[= ->] _]. by rewrite Hk.
  - apply list_find_None in Hf. split; [done|]. intros [[= ->] (p & Hp & Hpk)].
    rewrite list.Forall_forall in Hf. by destruct (Hf p Hp).
Qed.

Lemma select_exit_spec peers use_exit relay pk :
  select_exit peers use_exit relay = Some pk ↔ exit_wanted peers use_exit relay pk.
Proof.
  unfold select_exit, exit_wanted. fold (setting use_exit).
  destruct (setting use_exit) as [s|]; [|done].
  pose proof (select_auto peers relay pk) as Hauto. pose proof (select_pinned peers s pk) as Hpin.
  repeat (first [exact Hpin|exact Hauto|destruct s as [|[[] [] [] [] [] [] [] []] s]]; try done).
Qed.

Lemma keep_prefix_spec selected pk c :
  keep_prefix selected pk c = true ↔
  (is_default_prefix c = true → is_v4_default c = true ∧ selected = Some pk).
Proof.
  unfold keep_prefix. rewrite v4_default_spec. destruct (is_default_prefix c); cbn; [|done].
  rewrite andb_true_iff, bool_decide_eq_true. intuition congruence.
Qed.

Lemma existsb_in {A} (f : A → bool) l : existsb f l = true ↔ ∃ x, x ∈ l ∧ f x = true.
Proof. rewrite existsb_exists. by setoid_rewrite list_elem_of_In. Qed.

(** One exit or none.  A node routes the internet through the peer its setting asks
    for: nobody when it is off; for [auto] the exit of the smallest key among those it
    can reach; for a key that peer, if it is an exit, and no other in its place.  Only
    this peer keeps an IPv4 default route, nobody keeps an IPv6 one, every other prefix
    of every peer stays; and the peer whose default the host routes follow is the one
    selected. *)
Lemma exit_selection peers use_exit relay :
  let '(selected, out) := apply_use_exit peers use_exit relay in
  (∀ pk, selected = Some pk ↔ exit_wanted peers use_exit relay pk) ∧
  Forall2 (fun p q => pi_pubkey q = pi_pubkey p ∧ pi_candidates q = pi_candidates p ∧
    ∀ c, c ∈ pi_allowed_ips q ↔ c ∈ pi_allowed_ips p ∧
      (is_default_prefix c = true → is_v4_default c = true ∧ selected = Some (pi_pubkey p))) peers out ∧
  (∀ pk, selected_exit out = Some pk ↔
    selected = Some pk ∧ ∃ p c, p ∈ peers ∧ pi_pubkey p = pk ∧ c ∈ pi_allowed_ips p ∧ is_v4_default c = true).
Proof.
  unfold apply_use_exit. set (selected := select_exit peers use_exit relay). split_and!.
  - intros pk. apply select_exit_spec.
  - apply Forall2_fmap_r, Forall_Forall2_diag, list.Forall_forall. intros p _. split_and!; [done..|]. cbn.
    intros c. rewrite list_elem_of_filter, keep_prefix_spec. tauto.
  - assert (∀ p c, c ∈ pi_allowed_ips (strip_peer selected p) ∧ is_v4_default c = true ↔
      (c ∈ pi_allowed_ips p ∧ is_v4_default c = true) ∧ selected = Some (pi_pubkey p)) as Hkept.
    { intros p c. cbn. rewrite list_elem_of_filter, keep_prefix_spec, v4_default_spec, andb_true_iff. tauto. }
    intros pk. unfold selected_exit. destruct (list_find _ _) as [[i q]|] eqn:Hf; cbn.
    + apply list_find_Some in Hf as (Hi & (c & Hc)%existsb_in & _).
      apply list_lookup_fmap_Some in Hi as (p & -> & Hi). apply Hkept in Hc as [[Hc Hd] Hsel]. cbn. split.
      * intros [= <-]. split; [done|]. exists p, c. split; [by eapply list_elem_of_lookup_2|done].
      * rewrite Hsel. by intros [? _].
    + apply list_find_None in Hf. split; [done|]. intros (Hsel & p & c & Hp & <- & Hc & Hd).
      rewrite list.Forall_forall in Hf. destruct (Hf (strip_peer selected p)); [by apply list_elem_of_fmap_2|].
      apply existsb_in. exists c. by apply Hkept.
Qed.
End Exit.
