(* ===== verification/NodeView.v ===== *)
(** * From the store of the control plane to the peers of a node

    [config_json] is what the control plane serves, [parse_peers] what the node makes of
    it.  The keys of the store are canonical ([reachable_canonical]), so the node drops
    no peer and sees none twice. *)

From Stdlib Require Import Strings.Ascii Strings.String.
From S2P Require Import Prelude.
From S2P Require Import Words.
From S2P Require Import NetAddr.
From S2P Require Import NetText.
From S2P Require Import Prefix.
From S2P Require Import Ipam.
From S2P Require Import Domain.
From S2P Require Import ControlStore.
From S2P Require Import ControlInv.
From S2P Require Import ControlProps.
From S2P Require Import NodeConfig.

Section Canonical.
Context {W : Type} `{!Watch W} `{!KeyCodec}.
Implicit Types s : Store W.

(** The text of a key that the node reads back as the same bytes. *)
Definition canonical_key (k : string) : Prop := ∃ pk, key_decode k = Some pk ∧ hex_encode pk = k.

Definition canonical_keys (m : gmap string Device) : Prop := map_Forall (fun _ d => canonical_key (d_wg_public_key d)) m.

Lemma normalize_key `{!KeyCodecLaws} v k : normalize v = Some k → canonical_key k.
Proof.
  intros Hn. destruct (normalize_canonical v k Hn) as [_ Hd]. unfold normalize in Hn.
  destruct (key_decode v) as [pk|] eqn:Hv; [|done]. injection Hn as <-. by exists pk.
Qed.

Lemma canonical_insert id d m : canonical_key (d_wg_public_key d) → canonical_keys m → canonical_keys (<[id := d]> m).
Proof. intros ? ?. by apply map_Forall_insert_2. Qed.

Lemma canonical_import n l : ∀ acc s r s',
  Forall (fun x => canonical_key x.2) l → canonical_keys (devices s) →
  import_loop n l acc s = (r, s') → canonical_keys (devices s').
Proof.
  induction l as [|[d key] l IH]; intros [[seen cr] sk] s r s' Hl Hs; cbn [import_loop]; [by intros [= _ <-]|].
  apply Forall_cons_1 in Hl as [Hk Hl]. unfold mbind, st_bind. rewrite import_one_eq. case_decide; [by apply IH|].
  intros E. apply (IH _ (import_result n d key s) _ _ Hl) in E; [exact E|].
  destruct (import_result_parts n d key s) as [-> _]. by apply canonical_insert.
Qed.

Lemma canonical_step `{!KeyCodecLaws} `{!HashOrder} s q : canonical_keys (devices s) → canonical_keys (devices (exec q s)).
Proof.
  intros Hs.
  destruct q as [name random|net e m code|code name key now|net ds|id|id l|id p|id|id|region url net anytls stun identity|r|net].
  - by rewrite exec_create_network.
  - rewrite exec_create_invite. by destruct (networks s !! net).
  - cbn [exec]. destruct (enroll code name key now s) as [r s'] eqn:E. apply enroll_cases in E.
    destruct E as [| |key' inv ipam v4 v6 ipam' Hk]; [done..|]. cbn [snd]. store_simp.
    apply canonical_insert; [|done]. by eapply normalize_key.
  - cbn [exec]. unfold import_devices, ok_or, lift, get, mbind, st_bind.
    destruct (mapM _ ds) as [keys|] eqn:Hk; [|done]. destruct (networks s !! net); [|done].
    destruct (import_loop net (zip ds keys) _ s) as [x s1] eqn:E.
    apply canonical_import in E; [|apply list.Forall_forall|done].
    + destruct x as [[[seen cr] sk]| |]; [|done..]. destruct cr; cbn; [done|]. by rewrite devices_bump.
    + intros [d key] Hin. apply mapM_Some in Hk. apply list_elem_of_lookup in Hin as [i Hi].
      apply lookup_zip_with_Some in Hi as (d' & k' & [= -> ->] & Hd & Hki).
      exact (normalize_key _ _ (Forall2_lookup_lr _ _ _ _ _ _ Hk Hd Hki)).
  - rewrite exec_revoke. destruct (devices s !! id) as [d|] eqn:Hd; [|done]. rewrite devices_bump. cbn.
    intros id' d'. rewrite lookup_alter. case_decide; [|by apply Hs]. subst id'. rewrite Hd. intros [= <-]. by apply Hs in Hd.
  - rewrite exec_set_endpoints. destruct (devices s !! id); [|done]. by rewrite devices_bump.
  - rewrite exec_advertise. destruct (devices s !! id); [|done]. by destruct (normalize_prefix p).
  - rewrite exec_approve. destruct (routes s !! id); [|done]. by rewrite devices_bump.
  - rewrite exec_delete. destruct (routes s !! id) as [r|]; [|done]. cbv zeta.
    destruct (r_approved r); [|done]. by rewrite devices_bump.
  - rewrite exec_register_relay. cbv zeta. by rewrite (proj1 (bump_all_same _ _)).
  - destruct (exec_update_relay r s) as [->|(old & _ & ->)]; [done|]. by rewrite (proj1 (bump_all_same _ _)).
  - done.
Qed.

Lemma reachable_canonical `{!KeyCodecLaws} guard n s : reachable guard n s → canonical_keys (devices s).
Proof. induction 1 as [|n s ho q _ IH _ _]; [apply map_Forall_empty|by apply canonical_step]. Qed.
End Canonical.

(** ** Reading the configuration *)

Section View.
Context `{!KeyCodec}.

Lemma strings_read l : string_list (strings_json l) = l.
Proof. unfold string_list, strings_json. cbn. induction l as [|x l IH]; cbn; [done|]. by rewrite IH. Qed.

#[local] Arguments string_list : simpl never.
#[local] Arguments strings_json : simpl never.
#[local] Arguments key_decode : simpl never.

(** The node's view of a served peer: no overlay address, for none is served. *)
Definition peer_info (pc : PeerConfig) : option PeerInfo :=
  pk ← key_decode (p_wg_public_key pc);
  Some (mkPeerInfo pk (omap (fun s => parse_socket_addr (chars s)) (p_endpoints pc)) (p_allowed_ips pc) None (p_exit pc)).

Lemma parse_peer_json pc : parse_peer (peer_json pc) = peer_info pc.
Proof.
  unfold parse_peer, peer_info.
  change (jget "wg_public_key" (peer_json pc)) with (JString (p_wg_public_key pc)).
  change (jget "endpoints" (peer_json pc)) with (strings_json (p_endpoints pc)).
  change (jget "allowed_ips" (peer_json pc)) with (strings_json (p_allowed_ips pc)).
  change (jget "exit" (peer_json pc)) with (JBool (p_exit pc)).
  change (jget "address_v4" (peer_json pc)) with JNull. by rewrite !strings_read.
Qed.

Lemma parse_peers_json c : parse_peers (config_json c) = omap peer_info (c_peers c).
Proof.
  unfold parse_peers. change (jget "peers" (config_json c)) with (JArray (peer_json <$> c_peers c)). cbn.
  induction (c_peers c) as [|pc l IH]; cbn; [done|].
  rewrite parse_peer_json, IH. done.
Qed.

(** The exit's name server is never used.  The node takes the overlay address of its
    exit as the name server of a full tunnel, but no configuration the control plane
    serves carries a peer's overlay address: with an exit selected and applied, and no
    name server set by hand, the node installs none. *)
Lemma exit_dns_never_set c use_exit relay manage pk :
  let peers := (apply_use_exit (parse_peers (config_json c)) use_exit relay).2 in
  selected_exit peers = Some pk → desired_dns peers [] true manage = None.
Proof.
  intros peers Hsel. unfold desired_dns. rewrite Hsel, bool_decide_true by done. cbn [negb].
  destruct (list_find (fun p => pi_pubkey p = pk) peers) as [[i p]|] eqn:Hf; cbn; [|done].
  apply list_find_Some in Hf as (Hi & _ & _). apply list_lookup_fmap_Some in Hi as (q & -> & Hq).
  apply list_elem_of_lookup_2 in Hq. rewrite parse_peers_json, list_elem_of_omap in Hq.
  destruct Hq as (pc & _ & Hq). unfold peer_info in Hq. destruct (key_decode _); [|done]. by injection Hq as <-.
Qed.
End View.

Section Network.
Context {W : Type} `{!Watch W} `{!KeyCodec} `{!KeyCodecLaws}.
Implicit Types s : Store W.
#[local] Arguments key_decode : simpl never.

(** Device [id'] is another active device of the network of [id]. *)
Definition neighbour s (id id' : string) (d' : Device) : Prop :=
  ∃ d, devices s !! id = Some d ∧ id' ≠ id ∧ devices s !! id' = Some d' ∧ d_status d' = Active ∧
    d_network_id d' = d_network_id d.

(** The devices behind the entries of a configuration. *)
Lemma config_devices `{!HashOrder} n s id c :
  store_ok n s → device_config id s = Ok c →
  ∃ l, c_peers c = (fun d => peer_config (approved_routes (d_network_id d) s) s d) <$> l ∧
    NoDup (d_wg_public_key <$> l) ∧ ∀ d', d' ∈ l ↔ neighbour s id (d_id d') d'.
Proof.
  intros Hok. unfold device_config. destruct (devices s !! id) as [d|] eqn:Hd; [|done]. cbn [ok_or mbind res_bind].
  case_if; [done|]. intros <-%Ok_inj. cbn [c_peers]. eexists (List.filter _ _).
  assert (∀ d', d' ∈ List.filter (fun d' => bool_decide (d_network_id d' = d_network_id d)
        && bool_decide (d_id d' ≠ d_id d) && bool_decide (d_status d' = Active)) (hm_values (devices s)) ↔
      neighbour s id (d_id d') d') as Hl.
  { intros d'. rewrite elem_of_Filter, elem_of_hm_values. unfold neighbour.
    destruct (ok_device _ _ Hok _ _ Hd) as (Hid & _). rewrite !andb_true_iff, !bool_decide_eq_true. split.
    - intros [(id' & Hd') [[Hn Hne] Ha]]. destruct (ok_device _ _ Hok _ _ Hd') as (<- & _). exists d.
      rewrite Hid in Hne. done.
    - intros (d0 & Hd0 & Hne & Hd' & Ha & Hn). assert (d0 = d) as -> by congruence. rewrite Hid.
      split; [eauto|done]. }
  split_and!; [|apply NoDup_fmap_2_strong|exact Hl].
  - apply list_fmap_ext. intros i d' Hi%list_elem_of_lookup_2%Hl.
    destruct Hi as (d0 & Hd0 & _ & _ & _ & Hn). by assert (d0 = d) as -> by congruence; rewrite Hn.
  - intros d1 d2 (d0 & Hd0 & _ & Hd1 & Ha1 & Hn1)%Hl (d0' & Hd0' & _ & Hd2 & Ha2 & Hn2)%Hl Hk.
    assert (d_id d1 = d_id d2) as Hid by (eapply (ok_keys _ _ Hok); eauto; congruence).
    rewrite Hid in Hd1. congruence.
  - apply NoDup_Filter. unfold hm_values. rewrite hm_perm. apply NoDup_fmap_2_strong; [|apply NoDup_map_to_list].
    intros [i1 d1] [i2 d2] Hd1%elem_of_map_to_list Hd2%elem_of_map_to_list Heq. cbn in Heq. subst d2.
    destruct (ok_device _ _ Hok _ _ Hd1) as (<- & _). destruct (ok_device _ _ Hok _ _ Hd2) as (<- & _). done.
Qed.

(** C28.  A node sees its network.  Whatever happened to the store before, the node that
    reads the configuration served for a device learns exactly the keys of the other
    active devices of its network, each once; with a key it learns the endpoints,
    prefixes and exit flag the control plane holds for that device; and it learns the
    epoch the configuration belongs to. *)
Theorem node_sees_network `{!HashOrder} n s id c :
  reachable any_request n s → in_bounds n → device_config id s = Ok c →
  let peers := parse_peers (config_json c) in
  NoDup (pi_pubkey <$> peers) ∧
  (∀ pk, pk ∈ pi_pubkey <$> peers ↔
     ∃ id' d', neighbour s id id' d' ∧ key_decode (d_wg_public_key d') = Some pk) ∧
  (∀ p, p ∈ peers → ∃ id' d' pc, neighbour s id id' d' ∧ describes s d' pc ∧
     key_decode (d_wg_public_key d') = Some (pi_pubkey p) ∧ pi_allowed_ips p = p_allowed_ips pc ∧
     pi_exit p = p_exit pc ∧ pi_candidates p = omap (fun e => parse_socket_addr (chars e)) (p_endpoints pc)) ∧
  config_epoch (config_json c) = c_config_epoch c ∧ parse_self_exit (config_json c) = c_self_exit c.
Proof.
  intros Hre Hb Hc. pose proof (reachable_ok _ _ _ Hre Hb) as Hok. pose proof (reachable_canonical _ _ _ Hre) as Hcan.
  destruct (config_devices n s id c Hok Hc) as (l & Hp & Hnd & Hl). cbv zeta.
  assert (∃ ks, ks = pi_pubkey <$> parse_peers (config_json c) ∧
    Forall2 (fun d pk => key_decode (d_wg_public_key d) = Some pk ∧ hex_encode pk = d_wg_public_key d) l ks) as (ks & Hks & Hf).
  { eexists; split; [reflexivity|]. rewrite parse_peers_json, Hp. clear Hp Hnd.
    assert (Forall (fun d => canonical_key (d_wg_public_key d)) l) as Hall.
    { apply list.Forall_forall. intros d (? & _ & _ & Hd & _)%Hl. by apply Hcan in Hd. }
    clear Hl. induction Hall as [|d l (pk & Hk & Hx) _ IH]; [constructor|]. cbn. unfold peer_info at 1. cbn.
    rewrite Hk. cbn. by constructor. }
  split_and!.
  - rewrite <-Hks. eapply NoDup_alt. intros i j pk Hi Hj.
    destruct (Forall2_lookup_r _ _ _ _ _ Hf Hi) as (d1 & Hd1 & _ & Hx1).
    destruct (Forall2_lookup_r _ _ _ _ _ Hf Hj) as (d2 & Hd2 & _ & Hx2).
    eapply NoDup_lookup; [exact Hnd|by rewrite list_lookup_fmap, Hd1|]. rewrite list_lookup_fmap, Hd2. cbn. congruence.
  - intros pk. rewrite <-Hks. split.
    + intros [i Hi]%list_elem_of_lookup. destruct (Forall2_lookup_r _ _ _ _ _ Hf Hi) as (d & Hd & Hk & _).
      exists (d_id d), d. split; [|done]. by apply Hl, (list_elem_of_lookup_2 _ i).
    + intros (id' & d' & Hn & Hk). assert (d' ∈ l) as [i Hi]%list_elem_of_lookup.
      { apply Hl. destruct Hn as (d & ? & ? & Hd' & ?). destruct (ok_device _ _ Hok _ _ Hd') as (-> & _). by exists d. }
      destruct (Forall2_lookup_l _ _ _ _ _ Hf Hi) as (pk' & Hpk & Hk' & _). assert (pk' = pk) as -> by congruence.
      by eapply list_elem_of_lookup_2.
  - intros p. rewrite parse_peers_json, Hp, list_elem_of_omap. intros (pc & (d' & -> & Hd')%list_elem_of_fmap & Hi).
    exists (d_id d'), d', (peer_config (approved_routes (d_network_id d') s) s d').
    split; [by apply Hl|]. split; [apply peer_config_describes|].
    unfold peer_info in Hi. cbn in Hi. destruct (key_decode (d_wg_public_key d')); [|done]. by injection Hi as <-.
  - unfold config_epoch. change (jget "config_epoch" (config_json c)) with (JNumber (c_config_epoch c)). cbn.
    assert (0 ≤ c_config_epoch c < 2 ^ 64) as [? ?]; [|by rewrite (proj2 (Z.leb_le _ _)), (proj2 (Z.ltb_lt _ _))].
    unfold device_config in Hc. destruct (devices s !! id) as [d|]; [|done]. cbn in Hc. case_if; [done|].
    apply Ok_inj in Hc as <-. cbn. destruct (networks s !! d_network_id d) as [net|] eqn:Hnet; [|done].
    destruct (ok_network _ _ Hok _ _ Hnet) as (_ & _ & ?). unfold in_bounds in Hb. lia.
  - done.
Qed.
End Network.

(** ** Witnesses *)

Definition exit_config : DeviceConfig :=
  mkDeviceConfig [] "net-1" 7 (Some "100.72.16.100"%string) None
    [mkPeerConfig key_b ["100.72.16.101/32"; "0.0.0.0/0"]%string ["192.0.2.7:51820"%string] true] [] None [] false.

Definition exit_peers : list PeerInfo := (apply_use_exit (parse_peers (config_json exit_config)) (Some "auto"%string) false).2.

Definition empty_config : DeviceConfig := mkDeviceConfig [] "" 0 None None [] [] None [] false.
Definition first_config : DeviceConfig := unwrap_or (device_config "dev-2" (run two_devices)) empty_config.

Lemma first_config_ok : device_config "dev-2" (run two_devices) = Ok first_config.
Proof. vm_compute. reflexivity. Qed.

Lemma two_devices_any : reachable any_request 4 (run two_devices).
Proof. apply (run_any two_devices). repeat constructor; by vm_compute. Qed.

Lemma node_sees_network_witness :
  NoDup (pi_pubkey <$> parse_peers (config_json first_config)) ∧
  config_epoch (config_json first_config) = c_config_epoch first_config.
Proof.
  destruct (node_sees_network 4 (run two_devices) "dev-2" first_config two_devices_any ltac:(vm_compute; reflexivity)
    first_config_ok) as (Hn & _ & _ & He & _).
  split; [exact Hn|exact He].
Defined.
