(* ===== verification/Reconciler.v ===== *)
(** * Live membership (node/src/lib.rs, [Reconciler])

    The reconcile loop pulls the configuration, compares it with the peers the node
    knows and brings tables and workers in line: it adds, removes and updates peers while
    the data plane runs.  A worker is reached through a bounded channel, which fails only
    once the worker is gone; the host effects that run beside (retiring an exit, carrier
    routes, kill switch) may fail in any way.  The messages dispatched so far are kept
    in [rc_sent], in order. *)

From Stdlib Require Import Strings.Ascii Strings.String.
From S2P Require Import Prelude.
From S2P Require Import Words.
From S2P Require Import NetAddr.
From S2P Require Import Domain.
From S2P Require Import RouteTable.
From S2P Require Import Worker.
From S2P Require Import Apply.
From S2P Require Import NodeConfig.

(** The order in which a [HashMap] yields its keys is unspecified. *)
Class KeyOrder := {
  map_keys : ∀ {A : Type}, gmap (list byte) A → list (list byte);
  map_keys_perm : ∀ {A : Type} (m : gmap (list byte) A), map_keys m ≡ₚ (map_to_list m).*1
}.

(** The mailbox of worker [w] at the [k]-th dispatch: a worker that is gone stays gone. *)
Class Mailboxes := {
  mailbox_open : nat → Z → bool;
  mailbox_closed : ∀ k k' w, (k ≤ k')%nat → mailbox_open k w = false → mailbox_open k' w = false
}.

Abbreviation KnownPeers := (gmap (list byte) (Z * list SocketAddr * list string)).

Record Snapshot := mkSnapshot {
  sn_platform : Json;
  sn_epoch : Z;
  sn_peers : list PeerInfo;
  sn_self_exit : bool
}.

(** [poll_peers_if_changed], on the configuration the control server returned. *)
Definition snapshot_of `{KeyCodec} (conf : Json) : Snapshot :=
  mkSnapshot conf (config_epoch conf) (parse_peers conf) (parse_self_exit conf).

(** The [Reconciler], with the tables it shares with the readers and workers;
    [rc_status_ips] holds the allowed ips of the status entries. *)
Record Reconciler := mkReconciler {
  rc_n : Z;
  rc_own_pub : list byte;
  rc_peer_to_wid : gmap (list byte) Z;
  rc_cand_to_wid : gmap SocketAddr Z;
  rc_allowed : RouteTable;
  rc_status_ips : gmap (list byte) (list string);
  rc_known : KnownPeers;
  rc_desired_epoch : Z;
  rc_ordinal : Z;
  rc_use_exit : option string;
  rc_relay_available : bool;
  rc_desired : list PeerInfo;
  rc_pending : option Snapshot;
  rc_self_exit : bool;
  rc_platform : Json;
  rc_local_dns : list string;
  rc_dns_override : list string;
  rc_tries : nat;
  rc_sent : list (Z * WorkerMsg)
}.

(** Field updates. *)
Definition set_tables (p : gmap (list byte) Z) (c : gmap SocketAddr Z) (r : Reconciler) : Reconciler :=
  mkReconciler (rc_n r) (rc_own_pub r) p c (rc_allowed r) (rc_status_ips r) (rc_known r) (rc_desired_epoch r)
    (rc_ordinal r) (rc_use_exit r) (rc_relay_available r) (rc_desired r) (rc_pending r) (rc_self_exit r)
    (rc_platform r) (rc_local_dns r) (rc_dns_override r) (rc_tries r) (rc_sent r).
Definition set_allowed (t : RouteTable) (r : Reconciler) : Reconciler :=
  mkReconciler (rc_n r) (rc_own_pub r) (rc_peer_to_wid r) (rc_cand_to_wid r) t (rc_status_ips r) (rc_known r)
    (rc_desired_epoch r) (rc_ordinal r) (rc_use_exit r) (rc_relay_available r) (rc_desired r) (rc_pending r)
    (rc_self_exit r) (rc_platform r) (rc_local_dns r) (rc_dns_override r) (rc_tries r) (rc_sent r).
Definition set_status_ips (m : gmap (list byte) (list string)) (r : Reconciler) : Reconciler :=
  mkReconciler (rc_n r) (rc_own_pub r) (rc_peer_to_wid r) (rc_cand_to_wid r) (rc_allowed r) m (rc_known r)
    (rc_desired_epoch r) (rc_ordinal r) (rc_use_exit r) (rc_relay_available r) (rc_desired r) (rc_pending r)
    (rc_self_exit r) (rc_platform r) (rc_local_dns r) (rc_dns_override r) (rc_tries r) (rc_sent r).
Definition set_known (k : KnownPeers) (r : Reconciler) : Reconciler :=
  mkReconciler (rc_n r) (rc_own_pub r) (rc_peer_to_wid r) (rc_cand_to_wid r) (rc_allowed r) (rc_status_ips r) k
    (rc_desired_epoch r) (rc_ordinal r) (rc_use_exit r) (rc_relay_available r) (rc_desired r) (rc_pending r)
    (rc_self_exit r) (rc_platform r) (rc_local_dns r) (rc_dns_override r) (rc_tries r) (rc_sent r).
Definition set_ordinal (o : Z) (r : Reconciler) : Reconciler :=
  mkReconciler (rc_n r) (rc_own_pub r) (rc_peer_to_wid r) (rc_cand_to_wid r) (rc_allowed r) (rc_status_ips r)
    (rc_known r) (rc_desired_epoch r) o (rc_use_exit r) (rc_relay_available r) (rc_desired r) (rc_pending r)
    (rc_self_exit r) (rc_platform r) (rc_local_dns r) (rc_dns_override r) (rc_tries r) (rc_sent r).
Definition set_relay_available (b : bool) (r : Reconciler) : Reconciler :=
  mkReconciler (rc_n r) (rc_own_pub r) (rc_peer_to_wid r) (rc_cand_to_wid r) (rc_allowed r) (rc_status_ips r)
    (rc_known r) (rc_desired_epoch r) (rc_ordinal r) (rc_use_exit r) b (rc_desired r) (rc_pending r)
    (rc_self_exit r) (rc_platform r) (rc_local_dns r) (rc_dns_override r) (rc_tries r) (rc_sent r).
Definition set_pending (p : option Snapshot) (r : Reconciler) : Reconciler :=
  mkReconciler (rc_n r) (rc_own_pub r) (rc_peer_to_wid r) (rc_cand_to_wid r) (rc_allowed r) (rc_status_ips r)
    (rc_known r) (rc_desired_epoch r) (rc_ordinal r) (rc_use_exit r) (rc_relay_available r) (rc_desired r) p
    (rc_self_exit r) (rc_platform r) (rc_local_dns r) (rc_dns_override r) (rc_tries r) (rc_sent r).
Definition set_desired (l : list PeerInfo) (r : Reconciler) : Reconciler :=
  mkReconciler (rc_n r) (rc_own_pub r) (rc_peer_to_wid r) (rc_cand_to_wid r) (rc_allowed r) (rc_status_ips r)
    (rc_known r) (rc_desired_epoch r) (rc_ordinal r) (rc_use_exit r) (rc_relay_available r) l (rc_pending r)
    (rc_self_exit r) (rc_platform r) (rc_local_dns r) (rc_dns_override r) (rc_tries r) (rc_sent r).
Definition dispatched (l : list (Z * WorkerMsg)) (r : Reconciler) : Reconciler :=
  mkReconciler (rc_n r) (rc_own_pub r) (rc_peer_to_wid r) (rc_cand_to_wid r) (rc_allowed r) (rc_status_ips r)
    (rc_known r) (rc_desired_epoch r) (rc_ordinal r) (rc_use_exit r) (rc_relay_available r) (rc_desired r)
    (rc_pending r) (rc_self_exit r) (rc_platform r) (rc_local_dns r) (rc_dns_override r) (S (rc_tries r))
    (rc_sent r ++ l).

(** The snapshot's own settings. *)
Definition adopt (snap : Snapshot) (r : Reconciler) : Reconciler :=
  mkReconciler (rc_n r) (rc_own_pub r) (rc_peer_to_wid r) (rc_cand_to_wid r) (rc_allowed r) (rc_status_ips r)
    (rc_known r) (sn_epoch snap) (rc_ordinal r) (rc_use_exit r) (rc_relay_available r) (rc_desired r)
    (rc_pending r) (sn_self_exit snap) (sn_platform snap) (rc_local_dns r)
    (match rc_local_dns r with [] => (parse_settings (sn_platform snap)).2 | l => l end) (rc_tries r) (rc_sent r).

(** ** The difference *)

Inductive PeerChange :=
| CRemove (pk : list byte)
| CAdd (p : PeerInfo)
| CEndpoints (p : PeerInfo)
| CRoutes (p : PeerInfo).

Definition same_endpoints (a b : list SocketAddr) : bool :=
  (length a =? length b)%nat && forallb (fun x => bool_decide (x ∈ a)) b.

(** What a peer that is wanted needs. *)
Definition peer_change (known : KnownPeers) (p : PeerInfo) : list PeerChange :=
  match known !! pi_pubkey p with
  | Some (_, candidates, prefixes) =>
      (if same_endpoints candidates (pi_candidates p) then [] else [CEndpoints p]) ++
      (if bool_decide (prefixes = pi_allowed_ips p) then [] else [CRoutes p])
  | None => [CAdd p]
  end.

Section Reconcile.
Context `{KeyOrder} `{Mailboxes} `{KeyCodec}.

Definition peer_changes (known : KnownPeers) (desired : list PeerInfo) : list PeerChange :=
  (CRemove <$> filter (fun pk => pk ∉ pi_pubkey <$> desired) (map_keys known)) ++
  concat (peer_change known <$> desired).

(** ** Changing one peer *)

Abbreviation R := (st Reconciler ApplyError).

Definition send_worker (wid : Z) (message : WorkerMsg) : R unit :=
  r ← get;
  if (0 <=? wid) && (wid <? rc_n r) then
    if mailbox_open (rc_tries r) wid then modify (dispatched [(wid, message)])
    else _ ← modify (dispatched []);
         lift (Err (error_new ["worker"; "dispatch"]%string "channel closed"))
  else lift (Err (error_new ["worker"; "dispatch"]%string "missing worker")).

Definition replace_allowed (p : list byte) (wid : Z) (prefixes : list string) : R unit :=
  modify (fun r => set_allowed (with_peer (rc_allowed r) p wid prefixes) r).

Definition remove_all (cands : list SocketAddr) (m : gmap SocketAddr Z) : gmap SocketAddr Z :=
  foldl (fun m c => delete c m) m cands.
Definition insert_all (cands : list SocketAddr) (wid : Z) (m : gmap SocketAddr Z) : gmap SocketAddr Z :=
  foldl (fun m c => <[c := wid]> m) m cands.

Definition update_routes (pi : PeerInfo) : R unit :=
  r ← get;
  match rc_known r !! pi_pubkey pi with
  | None => mret tt
  | Some (wid, cands, _) =>
      _ ← replace_allowed (pi_pubkey pi) wid (pi_allowed_ips pi);
      _ ← modify (fun r => set_status_ips (alter (fun _ => pi_allowed_ips pi) (pi_pubkey pi) (rc_status_ips r)) r);
      modify (fun r => set_known (<[pi_pubkey pi := (wid, cands, pi_allowed_ips pi)]> (rc_known r)) r)
  end.

Definition route_remove (pk : list byte) : R unit :=
  r ← get;
  match rc_known r !! pk with
  | None => mret tt
  | Some (wid, cands, _) =>
      _ ← modify (fun r => set_known (delete pk (rc_known r)) r);
      _ ← modify (fun r => set_tables (delete pk (rc_peer_to_wid r)) (remove_all cands (rc_cand_to_wid r)) r);
      replace_allowed pk wid []
  end.

(** [ordinal % n]: a node without workers panics. *)
Definition next_worker : R Z :=
  r ← get; if rc_n r =? 0 then lift Panic else mret (rc_ordinal r mod rc_n r).

Definition route_add (pi : PeerInfo) : R unit :=
  wid ← next_worker;
  _ ← modify (fun r => set_ordinal (wrap 64 (rc_ordinal r + 1)) r);
  _ ← modify (fun r => set_tables (<[pi_pubkey pi := wid]> (rc_peer_to_wid r))
                         (insert_all (pi_candidates pi) wid (rc_cand_to_wid r)) r);
  replace_allowed (pi_pubkey pi) wid (pi_allowed_ips pi).

Definition remove_peer (pk : list byte) : R unit :=
  r ← get;
  match rc_known r !! pk with
  | None => mret tt
  | Some (wid, _, _) =>
      _ ← replace_allowed pk wid [];
      _ ← send_worker wid (MRemovePeer pk);
      route_remove pk
  end.

Definition add_peer (pi : PeerInfo) : R unit :=
  wid ← next_worker;
  r ← get;
  _ ← send_worker wid (MAddPeer (pi_pubkey pi) (pi_candidates pi) (pi_allowed_ips pi)
        (bool_decide (bytes_cmp (rc_own_pub r) (pi_pubkey pi) = Lt)));
  _ ← route_add pi;
  modify (fun r => set_known (<[pi_pubkey pi := (wid, pi_candidates pi, pi_allowed_ips pi)]> (rc_known r)) r).

Definition update_candidates (pi : PeerInfo) : R unit :=
  r ← get;
  match rc_known r !! pi_pubkey pi with
  | None => mret tt
  | Some (wid, old_cands, aips) =>
      _ ← send_worker wid (MUpdateCandidates (pi_pubkey pi) (pi_candidates pi));
      _ ← modify (fun r => set_tables (rc_peer_to_wid r)
            (insert_all (pi_candidates pi) wid (remove_all old_cands (rc_cand_to_wid r))) r);
      modify (fun r => set_known (<[pi_pubkey pi := (wid, pi_candidates pi, aips)]> (rc_known r)) r)
  end.

(** ** Applying a snapshot *)

Definition apply_change (c : PeerChange) : R unit :=
  match c with
  | CRemove pk => remove_peer pk
  | CAdd p => add_peer p
  | CEndpoints p => update_candidates p
  | CRoutes p => update_routes p
  end.

(** What waits until the carriers are ready. *)
Definition held_back (c : PeerChange) : bool := match c with CAdd _ | CEndpoints _ => true | _ => false end.

(** The error of a step as a value. *)
Definition catch (m : R unit) : R ApplyResult := fun r =>
  match m r with (Panic, r) => (Panic, r) | (x, r) => (Ok x, r) end.

Fixpoint apply_changes (ready : bool) (cs : list PeerChange) : R (list ApplyResult) :=
  match cs with
  | [] => mret []
  | c :: cs =>
      if negb ready && held_back c then apply_changes ready cs
      else
        x ← catch (apply_change c);
        xs ← apply_changes ready cs;
        mret (x :: xs)
  end.

(** What the host effects of one run return. *)
Record HostEffects := mkHostEffects { he_retire : ApplyResult; he_bypass : ApplyResult; he_guard : ApplyResult }.

Definition apply_pending (host : HostEffects) : R unit :=
  r ← get;
  match rc_pending r with
  | None => mret tt
  | Some snap =>
      _ ← modify (adopt snap);
      let desired := (apply_use_exit (sn_peers snap) (rc_use_exit r) (rc_relay_available r)).2 in
      let retirement := he_retire host in
      let carriers := all [he_guard host; he_bypass host] in
      let ready := is_ok carriers in
      errors ← apply_changes ready (peer_changes (rc_known r) desired);
      _ ← modify (set_desired desired);
      _ ← (if ready && forallb is_ok errors then modify (set_pending None) else mret tt);
      lift (all (retirement :: carriers :: errors))
  end.

(** ** Start *)

(** The setup loop: peer [i] goes to worker [i % n]. *)
Definition start_peer (n : Z) (r : Reconciler) (i : Z) (pi : PeerInfo) : Reconciler :=
  let wid := i mod n in
  let r := set_tables (<[pi_pubkey pi := wid]> (rc_peer_to_wid r))
             (insert_all (pi_candidates pi) wid (rc_cand_to_wid r)) r in
  let r := set_known (<[pi_pubkey pi := (wid, pi_candidates pi, pi_allowed_ips pi)]> (rc_known r)) r in
  let r := set_status_ips (<[pi_pubkey pi := pi_allowed_ips pi]> (rc_status_ips r)) r in
  set_allowed (with_peer (rc_allowed r) (pi_pubkey pi) wid (pi_allowed_ips pi)) r.

Definition start_tables (n : Z) (r : Reconciler) (peers : list PeerInfo) : Reconciler :=
  foldl (fun r x => start_peer n r x.1 x.2) r (zip (seqZ 0 (len peers)) peers).

Definition reconciler_start (n : Z) (own_pub : list byte) (use_exit : option string) (relay_available : bool)
    (resolved : list PeerInfo) (epoch : Z) (self_exit : bool) (platform : Json) (local_dns dns : list string)
    : Reconciler :=
  let peers := (apply_use_exit resolved use_exit relay_available).2 in
  let r := mkReconciler n own_pub ∅ ∅ table_default ∅ ∅ epoch 0 use_exit relay_available peers None self_exit
             platform local_dns (match local_dns with [] => dns | l => l end) 0 [] in
  let r := start_tables n r peers in
  set_ordinal (Z.of_nat (size (rc_known r))) r.
End Reconcile.
