(* ===== verification/ReconcileInv.v ===== *)
(** * The invariant of live membership

    Between two changes the tables, the route table and what the workers were told agree
    with the peers the reconcile loop knows; every change keeps this, whatever fails. *)

From Stdlib Require Import Strings.Ascii Strings.String.
From S2P Require Import Prelude.
From S2P Require Import Words.
From S2P Require Import NetAddr.
From S2P Require Import Domain.
From S2P Require Import RouteTable.
From S2P Require Import Worker.
From S2P Require Import WorkerInv.
From S2P Require Import Apply.
From S2P Require Import NodeConfig.
From S2P Require Import Reconciler.

(** The messages dispatched to worker [w]. *)
Definition mail (w : Z) (sent : list (Z * WorkerMsg)) : list WorkerMsg := (filter (fun x => x.1 = w) sent).*2.

Lemma mail_snoc w w' m sent : mail w (sent ++ [(w', m)]) = mail w sent ++ (if decide (w' = w) then [m] else []).
Proof.
  unfold mail. rewrite list.filter_app, fmap_app. f_equal. rewrite filter_cons, filter_nil. cbn. by case_decide.
Qed.

Lemma served_snoc ks msgs m : served ks (msgs ++ [m]) = members (served ks msgs) m.
Proof. unfold served. by rewrite foldl_app. Qed.

Section Inv.
Context `{Mailboxes}.

(** What the route table holds for a peer: what is known of it, or nothing once its
    worker is gone; nothing for a peer that is not known. *)
Definition entry_ok (k : nat) (e : option (Z * list SocketAddr * list string)) (c : option (Z * list string)) : Prop :=
  match e with
  | Some (w, _, l) => c = Some (w, l) ∨ c = Some (w, []) ∧ mailbox_open k w = false
  | None => ∀ w l, c = Some (w, l) → l = []
  end.

Definition routed (k : nat) (t : RouteTable) (known : KnownPeers) : Prop :=
  ∃ reports, t = table_of reports ∧ ∀ pk, entry_ok k (known !! pk) (config_of reports !! pk).

Lemma entry_later k k' e c : (k ≤ k')%nat → entry_ok k e c → entry_ok k' e c.
Proof.
  intros Hk. destruct e as [[[w a] l]|]; cbn; [|done]. intros [|[? Hc]]; [by left|right]. split; [done|].
  by eapply mailbox_closed.
Qed.

Lemma routed_with_peer k k' t known known' pk w l :
  routed k t known → (k ≤ k')%nat → (∀ q, q ≠ pk → known' !! q = known !! q) →
  entry_ok k' (known' !! pk) (Some (w, l)) → routed k' (with_peer t pk w l) known'.
Proof.
  intros (reports & -> & Hok) Hk Hq Hpk. exists (reports ++ [(pk, w, l)]). unfold table_of, config_of.
  rewrite !foldl_app. split; [done|]. cbn. intros q. destruct (decide (q = pk)) as [->|Hne].
  - by rewrite lookup_insert_eq.
  - rewrite lookup_insert_ne, Hq by done. by eapply entry_later.
Qed.

Lemma routed_keep k k' t known known' :
  routed k t known → (k ≤ k')%nat →
  (∀ q, (fun e => (e.1.1, e.2)) <$> known' !! q = (fun e => (e.1.1, e.2)) <$> known !! q) → routed k' t known'.
Proof.
  intros (reports & -> & Hok) Hk Hq. exists reports. split; [done|]. intros q.
  specialize (Hok q). specialize (Hq q). apply (entry_later _ _ _ _ Hk) in Hok.
  destruct (known' !! q) as [[[w a] l]|], (known !! q) as [[[w' a'] l']|]; cbn in *; naive_solver.
Qed.

(** No route leads to the peer. *)
Definition cut (pk : list byte) (t : RouteTable) : Prop := ∀ e, e ∈ routes t → peer e ≠ pk.

Lemma elem_of_with_peer t pk w l e :
  e ∈ routes (with_peer t pk w l) ↔
  (peer e ≠ pk ∧ e ∈ routes t) ∨ ∃ x, e = mkRoute x pk w ∧ x ∈ parse_prefixes l.
Proof. by rewrite routes_with_peer, sort_by_perm, elem_of_app, list_elem_of_filter, list_elem_of_fmap. Qed.

Lemma cut_with_peer t pk w l q : q ≠ pk → cut q t → cut q (with_peer t pk w l).
Proof. intros Hq Hc e [[_ He]|(x & -> & _)]%elem_of_with_peer; [by apply Hc|by cbn]. Qed.

Lemma cut_withdrawn t pk w : cut pk (with_peer t pk w []).
Proof. intros e [[He _]|(x & -> & Hx)]%elem_of_with_peer; [done|by apply elem_of_nil in Hx]. Qed.

Lemma routed_cut k t known pk : routed k t known → known !! pk = None → cut pk t.
Proof.
  intros (reports & -> & Hok) Hk e (l & Hl & Hx)%elem_of_table_of He. specialize (Hok pk). rewrite Hk in Hok.
  rewrite He in Hl. rewrite (Hok _ _ Hl) in Hx. by apply elem_of_nil in Hx.
Qed.

(** A peer no route leads to is sent nothing, and nothing it sends is let in. *)
Lemma cut_accepts pk t pkt : cut pk t → accepts_source t pk pkt = false ∧ ∀ w, route_tun pkt t ≠ Some (pk, w).
Proof.
  intros Hc. assert (∀ a e, find_route t a = Some e → peer e ≠ pk) as Hfind.
  { unfold find_route. intros a e He. apply Hc. apply bind_Some in He as ([i e'] & Hf & [= <-]).
    apply list_find_Some in Hf as [Hf _]. by eapply list_elem_of_lookup_2. }
  unfold accepts_source, route_tun. split.
  - destruct (src_address pkt) as [a|]; [|done]. destruct (find_route t a) eqn:He; [|done].
    apply bool_decide_eq_false. eauto.
  - intros w. destruct (dst_address pkt) as [a|]; cbn; [|done]. destruct (find_route t a) eqn:He; cbn; [|done].
    intros [= Hpk _]. by eapply Hfind.
Qed.

(** Each worker serves exactly the known peers that were given to it; [shards] are
    those it was started with. *)
Definition serves (shards : Z → list (list byte)) (n : Z) (sent : list (Z * WorkerMsg)) (known : KnownPeers) : Prop :=
  ∀ w pk, 0 ≤ w < n → (pk ∈ served (shards w) (mail w sent) ↔ ∃ a l, known !! pk = Some (w, a, l)).

Lemma serves_remove shards n sent known pk w a l :
  serves shards n sent known → known !! pk = Some (w, a, l) →
  serves shards n (sent ++ [(w, MRemovePeer pk)]) (delete pk known).
Proof.
  intros Hs Hpk w' q Hw'. rewrite mail_snoc. specialize (Hs w' q Hw'). case_decide as Hw.
  - subst w'. rewrite served_snoc. cbn. rewrite list_elem_of_filter, Hs. destruct (decide (q = pk)) as [->|Hne].
    + rewrite lookup_delete_eq. naive_solver.
    + rewrite lookup_delete_ne by done. naive_solver.
  - rewrite app_nil_r, Hs. destruct (decide (q = pk)) as [->|Hne].
    + rewrite lookup_delete_eq, Hpk. naive_solver.
    + by rewrite lookup_delete_ne.
Qed.

Lemma serves_add shards n sent known pk w a l cs ips ini :
  serves shards n sent known → known !! pk = None →
  serves shards n (sent ++ [(w, MAddPeer pk cs ips ini)]) (<[pk := (w, a, l)]> known).
Proof.
  intros Hs Hpk w' q Hw'. rewrite mail_snoc. specialize (Hs w' q Hw'). case_decide as Hw.
  - subst w'. rewrite served_snoc. cbn. destruct (decide (q = pk)) as [->|Hne].
    + rewrite lookup_insert_eq. case_bool_decide; [naive_solver|]. rewrite elem_of_app, list_elem_of_singleton. naive_solver.
    + rewrite lookup_insert_ne by done. case_bool_decide; [done|]. rewrite elem_of_app, list_elem_of_singleton. naive_solver.
  - rewrite app_nil_r, Hs. destruct (decide (q = pk)) as [->|Hne].
    + rewrite lookup_insert_eq, Hpk. naive_solver.
    + by rewrite lookup_insert_ne.
Qed.

Lemma serves_keep shards n sent known pk w a l a' l' :
  serves shards n sent known → known !! pk = Some (w, a, l) → serves shards n sent (<[pk := (w, a', l')]> known).
Proof.
  intros Hs Hpk w' q Hw'. rewrite (Hs w' q Hw'). destruct (decide (q = pk)) as [->|Hne].
  - rewrite lookup_insert_eq, Hpk. naive_solver.
  - by rewrite lookup_insert_ne.
Qed.

Lemma serves_endpoints shards n sent known w pk cs :
  serves shards n sent known → serves shards n (sent ++ [(w, MUpdateCandidates pk cs)]) known.
Proof.
  intros Hs w' q Hw'. rewrite mail_snoc. case_decide; [|rewrite app_nil_r; by apply Hs].
  rewrite served_snoc. cbn. by apply Hs.
Qed.

(** The candidates of the reader's table belong to known peers. *)
Definition candidates_ok (cands : gmap SocketAddr Z) (known : KnownPeers) : Prop :=
  ∀ a w, cands !! a = Some w → ∃ pk cs l, known !! pk = Some (w, cs, l) ∧ a ∈ cs.

Lemma remove_all_Some cs m a w : remove_all cs m !! a = Some w ↔ (a ∉ cs) ∧ m !! a = Some w.
Proof.
  revert m. induction cs as [|c cs IH]; intros m; [cbn; set_solver|].
  change (remove_all (c :: cs) m) with (remove_all cs (delete c m)). rewrite IH, lookup_delete_Some. set_solver.
Qed.

Lemma insert_all_Some cs v m a w : insert_all cs v m !! a = Some w → (a ∈ cs ∧ w = v) ∨ ((a ∉ cs) ∧ m !! a = Some w).
Proof.
  revert m. induction cs as [|c cs IH]; intros m; [cbn; set_solver|].
  change (insert_all (c :: cs) v m) with (insert_all cs v (<[c := v]> m)). intros [Hin|[Hin Hm]]%IH; [set_solver|].
  apply lookup_insert_Some in Hm as [[<- <-]|[Hne Hm]]; set_solver.
Qed.

Lemma candidates_remove cands known pk w cs l :
  candidates_ok cands known → known !! pk = Some (w, cs, l) → candidates_ok (remove_all cs cands) (delete pk known).
Proof.
  intros Hc Hpk a v [Hn (q & cs' & l' & Hq & Ha)%Hc]%remove_all_Some. exists q, cs', l'. split; [|done].
  rewrite lookup_delete_ne; [done|]. intros <-. naive_solver.
Qed.

Lemma candidates_insert cands known pk w cs l :
  candidates_ok cands (delete pk known) → candidates_ok (insert_all cs w cands) (<[pk := (w, cs, l)]> known).
Proof.
  intros Hc a v [[Ha ->]|[_ (q & cs' & l' & Hq & Ha)%Hc]]%insert_all_Some.
  - exists pk, cs, l. by rewrite lookup_insert_eq.
  - apply lookup_delete_Some in Hq as [Hne Hq]. exists q, cs', l'. by rewrite lookup_insert_ne.
Qed.

Lemma candidates_routes cands known pk w cs l l' :
  candidates_ok cands known → known !! pk = Some (w, cs, l) → candidates_ok cands (<[pk := (w, cs, l')]> known).
Proof.
  intros Hc Hpk a v (q & cs' & l2 & Hq & Ha)%Hc. destruct (decide (q = pk)) as [->|Hne].
  - exists pk, cs, l'. rewrite lookup_insert_eq. naive_solver.
  - exists q, cs', l2. by rewrite lookup_insert_ne.
Qed.
End Inv.

(** ** The invariant *)

Section Changes.
Context `{KeyOrder} `{Mailboxes} `{KeyCodec}.
Variable shards : Z → list (list byte).

Record rinv (r : Reconciler) : Prop := {
  ri_n : 0 < rc_n r;
  ri_wid : ∀ pk w cs l, rc_known r !! pk = Some (w, cs, l) → 0 ≤ w < rc_n r;
  ri_peer : rc_peer_to_wid r = (fun e => e.1.1) <$> rc_known r;
  ri_cand : candidates_ok (rc_cand_to_wid r) (rc_known r);
  ri_routed : routed (rc_tries r) (rc_allowed r) (rc_known r);
  ri_serves : serves shards (rc_n r) (rc_sent r) (rc_known r);
  ri_pending : ∀ snap, rc_pending r = Some snap → NoDup (pi_pubkey <$> sn_peers snap)
}.

Definition target (c : PeerChange) : list byte :=
  match c with CRemove pk => pk | CAdd p | CEndpoints p | CRoutes p => pi_pubkey p end.

(** What a change makes of the entry of its peer. *)
Definition entry_change (c : PeerChange) (e e' : option (Z * list SocketAddr * list string)) : Prop :=
  match c with
  | CRemove _ => e' = None
  | CAdd p => ∃ w, e' = Some (w, pi_candidates p, pi_allowed_ips p)
  | CEndpoints p => e' = (fun '(w, _, l) => (w, pi_candidates p, l)) <$> e
  | CRoutes p => e' = (fun '(w, cs, _) => (w, cs, pi_allowed_ips p)) <$> e
  end.

(** The fields a change leaves alone. *)
Definition fixed (r : Reconciler) :=
  (rc_n r, rc_own_pub r, rc_desired_epoch r, rc_use_exit r, rc_relay_available r, rc_desired r, rc_pending r).

(** What a change does: it ends, keeps the other peers, and fails only when a worker is
    gone. *)
Record change_done (c : PeerChange) (r : Reconciler) (x : ApplyResult) (r' : Reconciler) : Prop := {
  cd_fixed : fixed r' = fixed r;
  cd_tries : (rc_tries r ≤ rc_tries r')%nat;
  cd_others : ∀ q, q ≠ target c → rc_known r' !! q = rc_known r !! q;
  cd_result : x = Ok tt ∧ entry_change c (rc_known r !! target c) (rc_known r' !! target c) ∨
              ∃ e w, x = Err e ∧ mailbox_open (rc_tries r) w = false ∧ rc_known r' = rc_known r;
  cd_cut : ∀ q, q ≠ target c → cut q (rc_allowed r) → cut q (rc_allowed r');
  cd_removed : ∀ pk, c = CRemove pk → cut pk (rc_allowed r')
}.

Lemma send_worker_eq wid msg r :
  0 ≤ wid < rc_n r →
  send_worker wid msg r
  = if mailbox_open (rc_tries r) wid then (Ok tt, dispatched [(wid, msg)] r)
    else (Err (error_new ["worker"; "dispatch"]%string "channel closed"), dispatched [] r).
Proof.
  intros [Hlo Hhi]. unfold send_worker, mbind, st_bind, get. apply Z.leb_le in Hlo. apply Z.ltb_lt in Hhi.
  rewrite Hlo, Hhi. cbn. by destruct (mailbox_open _ _).
Qed.

Lemma next_worker_eq r : 0 < rc_n r → next_worker r = (Ok (rc_ordinal r mod rc_n r), r).
Proof. intros Hn. unfold next_worker, mbind, st_bind, get. by destruct (Z.eqb_spec (rc_n r) 0); [lia|]. Qed.

Lemma peer_removed_ok pk r x r' :
  rinv r → remove_peer pk r = (x, r') → rinv r' ∧ change_done (CRemove pk) r x r'.
Proof.
  intros [Hn Hwid Hpeer Hcand Hrt Hsv Hpd]. unfold remove_peer, mbind, st_bind, get. cbn.
  destruct (rc_known r !! pk) as [[[w cs] l]|] eqn:Hk; cbn.
  2:{ intros [= <- <-]. split; [by constructor|]. constructor; try done; [left; cbn; by rewrite Hk|].
      intros pk' [= <-]. by eapply routed_cut. }
  specialize (Hwid pk w cs l Hk) as Hw.
  assert (routed (rc_tries r) (with_peer (rc_allowed r) pk w []) (delete pk (rc_known r))) as Hcut.
  { eapply routed_with_peer; [exact Hrt|lia| |]; [intros q Hq; by rewrite lookup_delete_ne|].
    rewrite lookup_delete_eq. cbn. naive_solver. }
  rewrite send_worker_eq by done. cbn. destruct (mailbox_open (rc_tries r) w) eqn:Hopen.
  - unfold route_remove, mbind, st_bind, get. cbn. rewrite Hk. cbn. intros [= <- <-]. split; constructor; cbn; try done.
    + intros q w' cs' l' [_ Hq]%lookup_delete_Some. eauto.
    + by rewrite Hpeer, fmap_delete.
    + by eapply candidates_remove.
    + eapply routed_with_peer; [exact Hcut|lia|done|]. rewrite lookup_delete_eq. cbn. naive_solver.
    + by eapply serves_remove.
    + lia.
    + intros q Hq. by rewrite lookup_delete_ne.
    + left. by rewrite lookup_delete_eq.
    + intros q Hq Hc. by apply cut_with_peer, cut_with_peer.
    + intros pk' [= <-]. apply cut_withdrawn.
  - intros [= <- <-]. split; constructor; cbn; try done.
    + eapply routed_with_peer; [exact Hrt|lia|done|]. rewrite Hk. cbn. right. split; [done|].
      eapply mailbox_closed; [|exact Hopen]. lia.
    + by rewrite app_nil_r.
    + lia.
    + right. eauto.
    + intros q Hq Hc. by apply cut_with_peer.
    + intros pk' [= <-]. apply cut_withdrawn.
Qed.

Lemma peer_added_ok p r x r' :
  rinv r → rc_known r !! pi_pubkey p = None → add_peer p r = (x, r') →
  rinv r' ∧ change_done (CAdd p) r x r'.
Proof.
  intros [Hn Hwid Hpeer Hcand Hrt Hsv Hpd] Hk. unfold add_peer, mbind, st_bind, get. rewrite next_worker_eq by done.
  set (w := rc_ordinal r mod rc_n r). assert (0 ≤ w < rc_n r) as Hw by (by apply Z.mod_pos_bound).
  rewrite send_worker_eq by done. destruct (mailbox_open (rc_tries r) w) eqn:Hopen; cbn.
  - unfold route_add, mbind, st_bind, get. rewrite next_worker_eq by done. fold w. cbn. intros [= <- <-].
    split; constructor; cbn; try done.
    + intros q w' cs' l' [[_ [= <- _ _]]|[_ Hq]]%lookup_insert_Some; eauto.
    + by rewrite Hpeer, fmap_insert.
    + apply candidates_insert. by rewrite delete_id.
    + eapply routed_with_peer; [exact Hrt|lia| |]; [intros q Hq; by rewrite lookup_insert_ne|].
      rewrite lookup_insert_eq. by left.
    + by eapply serves_add.
    + lia.
    + intros q Hq. by rewrite lookup_insert_ne.
    + left. rewrite lookup_insert_eq. eauto.
    + intros q Hq Hc. by apply cut_with_peer.
  - intros [= <- <-]. split; constructor; cbn; try done.
    + eapply routed_keep; [exact Hrt|lia|done].
    + by rewrite app_nil_r.
    + lia.
    + right. eauto.
Qed.

Lemma update_candidates_ok p r x r' :
  rinv r → update_candidates p r = (x, r') → rinv r' ∧ change_done (CEndpoints p) r x r'.
Proof.
  intros [Hn Hwid Hpeer Hcand Hrt Hsv Hpd]. unfold update_candidates, mbind, st_bind, get. cbn.
  destruct (rc_known r !! pi_pubkey p) as [[[w cs] l]|] eqn:Hk; cbn.
  2:{ intros [= <- <-]. split; [by constructor|]. constructor; try done. left. cbn. by rewrite Hk. }
  specialize (Hwid _ w cs l Hk) as Hw.
  rewrite send_worker_eq by done. cbn. destruct (mailbox_open (rc_tries r) w) eqn:Hopen.
  - intros [= <- <-]. split; constructor; cbn; try done.
    + intros q w' cs' l' [[<- [= <- _ _]]|[_ Hq]]%lookup_insert_Some; eauto.
    + rewrite fmap_insert, Hpeer. symmetry. apply insert_id. by rewrite lookup_fmap, Hk.
    + apply candidates_insert. by eapply candidates_remove.
    + eapply routed_keep; [exact Hrt|lia|]. intros q. destruct (decide (q = pi_pubkey p)) as [->|Hne].
      * by rewrite lookup_insert_eq, Hk.
      * by rewrite lookup_insert_ne.
    + eapply serves_keep, Hk. by apply serves_endpoints.
    + lia.
    + intros q Hq. by rewrite lookup_insert_ne.
    + left. by rewrite lookup_insert_eq, Hk.
  - intros [= <- <-]. split; constructor; cbn; try done.
    + eapply routed_keep; [exact Hrt|lia|done].
    + by rewrite app_nil_r.
    + lia.
    + right. eauto.
Qed.

Lemma update_routes_ok p r x r' :
  rinv r → update_routes p r = (x, r') → rinv r' ∧ change_done (CRoutes p) r x r'.
Proof.
  intros [Hn Hwid Hpeer Hcand Hrt Hsv Hpd]. unfold update_routes, mbind, st_bind, get. cbn.
  destruct (rc_known r !! pi_pubkey p) as [[[w cs] l]|] eqn:Hk; cbn.
  2:{ intros [= <- <-]. split; [by constructor|]. constructor; try done. left. cbn. by rewrite Hk. }
  intros [= <- <-]. split; constructor; cbn; try done.
  - intros q w' cs' l' [[<- [= <- _ _]]|[_ Hq]]%lookup_insert_Some; eauto.
  - rewrite fmap_insert, Hpeer. symmetry. apply insert_id. by rewrite lookup_fmap, Hk.
  - by eapply candidates_routes.
  - eapply routed_with_peer; [exact Hrt|lia| |]; [intros q Hq; by rewrite lookup_insert_ne|].
    rewrite lookup_insert_eq. by left.
  - by eapply serves_keep.
  - intros q Hq. by rewrite lookup_insert_ne.
  - left. by rewrite lookup_insert_eq, Hk.
  - intros q Hq Hc. by apply cut_with_peer.
Qed.

(** Whatever happens, a change keeps the invariant. *)
Lemma apply_change_ok c r x r' :
  rinv r → (∀ p, c = CAdd p → rc_known r !! pi_pubkey p = None) → apply_change c r = (x, r') →
  rinv r' ∧ change_done c r x r'.
Proof.
  intros Hr Hadd. destruct c as [pk|p|p|p]; cbn.
  - by apply peer_removed_ok.
  - apply peer_added_ok; [done|]. by apply Hadd.
  - by apply update_candidates_ok.
  - by apply update_routes_ok.
Qed.
End Changes.
