(* ===== verification/ReconcileProps.v ===== *)
(** * Live membership converges, and fails closed

    Runs of the reconcile loop over changing configurations, failing host effects and dying
    workers. *)

From Stdlib Require Import Strings.Ascii Strings.String.
From S2P Require Import Prelude.
From S2P Require Import Words.
From S2P Require Import NetAddr.
From S2P Require Import Domain.
From S2P Require Import ControlProps.
From S2P Require Import RouteTable.
From S2P Require Import Worker.
From S2P Require Import WorkerInv.
From S2P Require Import Apply.
From S2P Require Import NodeConfig.
From S2P Require Import Reconciler.
From S2P Require Import ReconcileInv.

(** ** A list of changes *)

Definition add_key (c : PeerChange) : option (list byte) :=
  match c with CAdd p => Some (pi_pubkey p) | _ => None end.

(** Each peer is added once, and only when it is not known. *)
Definition fresh (known : KnownPeers) (cs : list PeerChange) : Prop :=
  NoDup (omap add_key cs) ∧ ∀ k, k ∈ omap add_key cs → known !! k = None.

(** The changes of one peer, in order. *)
Fixpoint entry_run (cs : list PeerChange) (e e' : option (Z * list SocketAddr * list string)) : Prop :=
  match cs with [] => e' = e | c :: cs => ∃ e1, entry_change c e e1 ∧ entry_run cs e1 e' end.

Section Changes.
Context `{KeyOrder} `{Mailboxes} `{KeyCodec}.
Variable shards : Z → list (list byte).

Lemma fresh_step c cs r x r' :
  fresh (rc_known r) (c :: cs) → change_done c r x r' → fresh (rc_known r') cs.
Proof.
  intros [Hnd Hk] Hc. assert (∀ k, k ∈ omap add_key cs → rc_known r !! k = None ∧ (add_key c ≠ Some k)) as Hcs.
  { intros k Hin. cbn in Hnd, Hk. destruct (add_key c) as [k'|]; [|split; [by apply Hk|done]].
    apply list.NoDup_cons in Hnd as [Hn Hnd]. split; [apply Hk; set_solver|]. by intros [= ->]. }
  split; [cbn in Hnd; destruct (add_key c); [by apply list.NoDup_cons in Hnd as [_ ?]|done]|].
  intros k [Hnone Hadd]%Hcs. destruct (decide (k = target c)) as [->|Hne]; [|by rewrite (cd_others _ _ _ _ Hc)].
  destruct (cd_result _ _ _ _ Hc) as [[_ He]|(e & w & _ & _ & ->)]; [|done].
  rewrite Hnone in He. destruct c; cbn in *; [done|by destruct Hadd|by rewrite He..].
Qed.

(** What a run of changes does. *)
Record changes_done (cs : list PeerChange) (r : Reconciler) (xs : list ApplyResult)
    (r' : Reconciler) : Prop := {
  cs_fixed : fixed r' = fixed r;
  cs_results : Forall (fun x => x ≠ Panic) xs;
  cs_open : (∀ k w, mailbox_open k w = true) → Forall (fun x => x = Ok tt) xs;
  cs_entries : Forall (fun x => x = Ok tt) xs →
    ∀ q, entry_run (filter (fun c => target c = q) cs) (rc_known r !! q) (rc_known r' !! q);
  cs_others : ∀ q, (q ∉ target <$> cs) → rc_known r' !! q = rc_known r !! q;
  cs_cut : ∀ q, (∀ c, c ∈ cs → target c = q → c = CRemove q) → cut q (rc_allowed r) ∨ CRemove q ∈ cs →
    cut q (rc_allowed r')
}.

Lemma apply_changes_ok cs : ∀ r x r',
  rinv shards r → fresh (rc_known r) cs → apply_changes true cs r = (x, r') →
  rinv shards r' ∧ ∃ xs, x = Ok xs ∧ changes_done cs r xs r'.
Proof.
  induction cs as [|c cs IH]; intros r x r' Hr Hf; cbn [apply_changes].
  { intros [= <- <-]. split; [done|]. exists []. split; [done|]. constructor; try done.
    intros q _ [|?%elem_of_nil]; done. }
  cbn [negb andb]. unfold mbind, st_bind, catch. destruct (apply_change c r) as [y r1] eqn:Hy.
  assert (∀ p, c = CAdd p → rc_known r !! pi_pubkey p = None) as Hadd.
  { intros p ->. apply Hf. cbn. by left. }
  destruct (apply_change_ok shards c r y r1 Hr Hadd Hy) as [Hr1 Hc].
  assert (y ≠ Panic) as Hyp by (destruct (cd_result _ _ _ _ Hc) as [[-> _]|(e & w & -> & _)]; done).
  destruct (apply_changes true cs r1) as [z r2] eqn:Hz.
  destruct (IH _ _ _ Hr1 (fresh_step _ _ _ _ _ Hf Hc) Hz) as (Hr2 & xs & -> & []).
  assert (∀ q, entry_run (filter (fun c' => target c' = q) cs) (rc_known r1 !! q) (rc_known r2 !! q) → y = Ok tt →
    entry_run (filter (fun c' => target c' = q) (c :: cs)) (rc_known r !! q) (rc_known r2 !! q)) as Hrun.
  { intros q Hq ->. rewrite filter_cons. case_decide as Ht; [|by rewrite <-(cd_others _ _ _ _ Hc)].
    subst q. cbn. eexists. split; [|exact Hq]. by destruct (cd_result _ _ _ _ Hc) as [[_ He]|(e & w & ? & _)]. }
  assert (∀ q, (∀ c', c' ∈ c :: cs → target c' = q → c' = CRemove q) →
    cut q (rc_allowed r) ∨ CRemove q ∈ c :: cs → cut q (rc_allowed r2)) as Hcut.
  { intros q Hq Hor. apply cs_cut0; [intros c' Hc'; apply Hq; by right|].
    destruct (decide (q = target c)) as [->|Hne].
    - left. apply (cd_removed _ _ _ _ Hc). apply Hq; [by left|done].
    - destruct Hor as [Hq'|Hin]; [left; by apply (cd_cut _ _ _ _ Hc)|].
      apply elem_of_cons in Hin as [Hin|Hin]; [|by right]. destruct Hne. by rewrite <-Hin. }
  assert (∀ q, (q ∉ target <$> c :: cs) → rc_known r2 !! q = rc_known r !! q) as Hothers.
  { intros q Hq. rewrite cs_others0 by set_solver. apply (cd_others _ _ _ _ Hc). set_solver. }
  assert (fixed r2 = fixed r) as Hfix by (rewrite cs_fixed0; apply Hc).
  assert ((∀ k w, mailbox_open k w = true) → y = Ok tt) as Hopen.
  { intros Hall. destruct (cd_result _ _ _ _ Hc) as [[-> _]|(e & w & _ & Hw & _)]; [done|].
    by rewrite Hall in Hw. }
  destruct y as [[]|e|]; [| |done]; cbn; rewrite Hz; intros [= <- <-]; (split; [done|]; eexists; split; [done|]); constructor; try done.
  - by constructor.
  - intros Hall. constructor; [done|by apply cs_open0].
  - intros [_ Hxs]%Forall_cons_1 q. by apply Hrun; [apply cs_entries0|].
  - by constructor.
  - intros Hall. by specialize (Hopen Hall).
  - by intros [? _]%Forall_cons_1.
Qed.

End Changes.

Section Differences.
Context `{KeyOrder} `{Mailboxes} `{KeyCodec}.

(** What is not held back. *)
Definition due (ready : bool) (cs : list PeerChange) : list PeerChange :=
  filter (fun c => negb ready && held_back c = false) cs.

Lemma apply_changes_due ready cs r : apply_changes ready cs r = apply_changes true (due ready cs) r.
Proof.
  revert r. induction cs as [|c cs IH]; intros r; [done|]. unfold due. cbn [apply_changes]. rewrite filter_cons.
  destruct (negb ready && held_back c); [by rewrite decide_False by done|]. rewrite decide_True by done.
  cbn [apply_changes negb andb]. unfold mbind, st_bind. destruct (catch _ _) as [[] r1]; [|done..]. by rewrite IH.
Qed.

(** ** The difference *)

Lemma elem_of_concat {A} (x : A) ls : x ∈ concat ls ↔ ∃ l, x ∈ l ∧ l ∈ ls.
Proof.
  rewrite list_elem_of_In, in_concat. f_equiv. intros l. rewrite !list_elem_of_In. tauto.
Qed.

Lemma peer_change_target known p c : c ∈ peer_change known p → target c = pi_pubkey p.
Proof.
  unfold peer_change. destruct (known !! pi_pubkey p) as [[[w cs] l]|].
  - destruct (same_endpoints _ _), (bool_decide _); cbn; set_solver.
  - by intros ->%list_elem_of_singleton.
Qed.

Lemma peer_change_add known p c :
  c ∈ peer_change known p → ∀ k, add_key c = Some k → k = pi_pubkey p ∧ known !! k = None.
Proof.
  unfold peer_change. destruct (known !! pi_pubkey p) as [[[w cs] l]|] eqn:Hk.
  - destruct (same_endpoints _ _), (bool_decide _); cbn; set_solver.
  - intros ->%list_elem_of_singleton k [= <-]. done.
Qed.

Lemma elem_of_changes known desired c :
  c ∈ peer_changes known desired ↔
  (∃ pk, c = CRemove pk ∧ is_Some (known !! pk) ∧ (pk ∉ pi_pubkey <$> desired)) ∨
  ∃ p, p ∈ desired ∧ c ∈ peer_change known p.
Proof.
  unfold peer_changes. rewrite elem_of_app. f_equiv.
  - rewrite list_elem_of_fmap. f_equiv. intros pk. rewrite list_elem_of_filter, map_keys_perm.
    split.
    + intros (-> & Hn & ([k e] & -> & Hin%elem_of_map_to_list)%list_elem_of_fmap). cbn in *. eauto.
    + intros (-> & [e He%elem_of_map_to_list] & Hn). split_and!; [done..|]. apply list_elem_of_fmap. by exists (pk, e).
  - rewrite elem_of_concat. split.
    + intros (l & Hc & (p & -> & Hp)%list_elem_of_fmap). eauto.
    + intros (p & Hp & Hc). eexists. split; [exact Hc|]. by apply list_elem_of_fmap_2.
Qed.

Lemma NoDup_adds known p : NoDup (omap add_key (peer_change known p)).
Proof.
  unfold peer_change. destruct (known !! pi_pubkey p) as [[[w cs] l]|].
  - destruct (same_endpoints _ _), (bool_decide _); cbn; apply base.NoDup_nil_2.
  - cbn. apply list.NoDup_singleton.
Qed.

Lemma omap_removes l : omap add_key (CRemove <$> l) = [].
Proof. by induction l. Qed.

Lemma fresh_changes known desired :
  NoDup (pi_pubkey <$> desired) → fresh known (peer_changes known desired).
Proof.
  intros Hnd. split.
  - unfold peer_changes. rewrite omap_app, omap_removes. cbn [app]. induction desired as [|p desired IH]; [constructor|].
    cbn in Hnd |- *. apply list.NoDup_cons in Hnd as [Hp Hnd]. rewrite omap_app. apply list.NoDup_app.
    split_and!; [apply NoDup_adds| |by apply IH].
    intros k (c & Hc & Hk)%list_elem_of_omap (c' & Hc' & Hk')%list_elem_of_omap.
    apply (peer_change_add known p c Hc) in Hk as [-> _]. apply elem_of_concat in Hc' as (l & Hc' & Hl).
    apply list_elem_of_fmap in Hl as (q & -> & Hq). apply (peer_change_add known q c' Hc') in Hk' as [Hk' _].
    destruct Hp. rewrite Hk'. by apply list_elem_of_fmap_2.
  - intros k (c & [(pk & -> & _)|(p & _ & Hc)]%elem_of_changes & Hk)%list_elem_of_omap; [done|].
    by apply (peer_change_add known p c Hc).
Qed.

Lemma fresh_filter known (P : PeerChange → Prop) `{!∀ c, Decision (P c)} cs :
  fresh known cs → fresh known (filter P cs).
Proof.
  intros [Hnd Hk]. assert (omap add_key (filter P cs) `sublist_of` omap add_key cs) as Hsub.
  { clear. induction cs as [|c cs IH]; [done|]. rewrite filter_cons. cbn. case_decide; cbn.
    - destruct (add_key c); [by constructor|done].
    - destruct (add_key c); [by constructor|done]. }
  split; [by eapply sublist_NoDup|]. intros k Hin. apply Hk. by eapply elem_of_sublist.
Qed.

(** The changes of a wanted peer, and of one that is not. *)
Lemma changes_of_other q (l : list PeerChange) :
  (∀ c, c ∈ l → target c ≠ q) → filter (fun c => target c = q) l = [].
Proof.
  intros Hl. induction l as [|c l IH]; [done|]. rewrite filter_cons, decide_False; [|apply Hl; by left].
  apply IH. intros c' Hc'. apply Hl. by right.
Qed.

Lemma changes_of_own q (l : list PeerChange) :
  (∀ c, c ∈ l → target c = q) → filter (fun c => target c = q) l = l.
Proof.
  intros Hl. induction l as [|c l IH]; [done|]. rewrite filter_cons, decide_True; [|apply Hl; by left].
  f_equal. apply IH. intros c' Hc'. apply Hl. by right.
Qed.

Lemma changes_of known desired p :
  NoDup (pi_pubkey <$> desired) → p ∈ desired →
  filter (fun c => target c = pi_pubkey p) (peer_changes known desired) = peer_change known p.
Proof.
  intros Hnd Hp. unfold peer_changes. rewrite list.filter_app, changes_of_other.
  2:{ intros c (pk & -> & Hpk)%list_elem_of_fmap. cbn. apply list_elem_of_filter in Hpk as [Hpk _]. intros ->.
      destruct Hpk. by apply list_elem_of_fmap_2. }
  cbn [app]. induction desired as [|q desired IH]; [by apply elem_of_nil in Hp|]. cbn in Hnd |- *.
  apply list.NoDup_cons in Hnd as [Hq Hnd]. rewrite list.filter_app. apply elem_of_cons in Hp as [->|Hp].
  - rewrite changes_of_own by (intros c; apply peer_change_target). rewrite changes_of_other; [by rewrite app_nil_r|].
    intros c Hc. apply elem_of_concat in Hc as (l & Hc & (p' & -> & Hp')%list_elem_of_fmap).
    rewrite (peer_change_target known p' c Hc). intros Heq. destruct Hq. rewrite <-Heq. by apply list_elem_of_fmap_2.
  - rewrite changes_of_other; [by apply IH|]. intros c Hc. rewrite (peer_change_target known q c Hc). intros Heq.
    destruct Hq. rewrite Heq. by apply list_elem_of_fmap_2.
Qed.

(** What is known of a peer is what is wanted. *)
Definition settled (e : option (Z * list SocketAddr * list string)) (p : PeerInfo) : Prop :=
  ∃ w cs, e = Some (w, cs, pi_allowed_ips p) ∧ same_endpoints cs (pi_candidates p) = true.

Lemma same_endpoints_refl l : same_endpoints l l = true.
Proof.
  unfold same_endpoints. rewrite Nat.eqb_refl. cbn. apply forallb_forall. intros x Hx.
  apply bool_decide_eq_true. by apply list_elem_of_In.
Qed.

Lemma peer_change_settles known p e' :
  entry_run (peer_change known p) (known !! pi_pubkey p) e' → settled e' p.
Proof.
  unfold peer_change. destruct (known !! pi_pubkey p) as [[[w cs] l]|] eqn:Hk.
  - destruct (same_endpoints cs (pi_candidates p)) eqn:Hs; case_bool_decide as Hl; cbn.
    + intros ->. exists w, cs. by rewrite Hl.
    + intros (e1 & -> & ->). exists w, cs. done.
    + intros (e1 & -> & ->). exists w, (pi_candidates p). rewrite Hl. by rewrite same_endpoints_refl.
    + intros (e1 & -> & e2 & -> & ->). exists w, (pi_candidates p). by rewrite same_endpoints_refl.
  - cbn. intros (e1 & (w & ->) & ->). exists w, (pi_candidates p). by rewrite same_endpoints_refl.
Qed.

Lemma settled_no_change known p : settled (known !! pi_pubkey p) p → peer_change known p = [].
Proof.
  intros (w & cs & Hk & Hs). unfold peer_change. rewrite Hk, Hs. by rewrite bool_decide_true.
Qed.
End Differences.

(** ** Start and runs *)

(** The peers the setup loop puts into the shard of worker [w]. *)
Definition start_shard (n : Z) (peers : list PeerInfo) (w : Z) : list (list byte) :=
  (fun x => pi_pubkey x.2) <$> filter (fun x => x.1 mod n = w) (zip (seqZ 0 (len peers)) peers).

Lemma zip_snoc {A} (l : list A) x : zip (seqZ 0 (len (l ++ [x]))) (l ++ [x]) = zip (seqZ 0 (len l)) l ++ [(len l, x)].
Proof.
  unfold len. rewrite length_app, Nat2Z.inj_add. cbn [length]. rewrite seqZ_app by lia.
  rewrite zip_with_app by (rewrite length_seqZ; lia). by rewrite Z.add_0_l.
Qed.

Section Runs.
Context `{KeyOrder} `{Mailboxes} `{KeyCodec}.

(** A state from which the setup loop starts. *)
Record blank (n : Z) (r : Reconciler) : Prop := {
  bl_n : rc_n r = n;
  bl_known : rc_known r = ∅;
  bl_peer : rc_peer_to_wid r = ∅;
  bl_cand : rc_cand_to_wid r = ∅;
  bl_allowed : rc_allowed r = table_default;
  bl_sent : rc_sent r = [];
  bl_pending : rc_pending r = None
}.

Lemma start_tables_ok n r peers :
  0 < n → blank n r → NoDup (pi_pubkey <$> peers) →
  rinv (start_shard n peers) (start_tables n r peers) ∧
  rc_n (start_tables n r peers) = n ∧ rc_sent (start_tables n r peers) = [] ∧
  (∀ k, is_Some (rc_known (start_tables n r peers) !! k) → k ∈ pi_pubkey <$> peers).
Proof.
  intros Hn [Hbn Hk Hp Hc Ha Hs Hpd]. induction peers as [|p peers IH] using rev_ind.
  - intros _. change (start_tables n r []) with r. split_and!; [|done..|intros k Hsome; rewrite Hk in Hsome; by destruct Hsome].
    constructor; cbn; rewrite ?Hk, ?Hp, ?Hc, ?Ha, ?Hs, ?Hpd; try done; [lia|exists []; split; [done|]; intros pk; by rewrite lookup_empty|].
    intros w pk _. cbn. split; [by intros ?%elem_of_nil|]. by intros (a & l & ?).
  - rewrite fmap_app. intros (Hnd & Hdis & _)%list.NoDup_app. destruct (IH Hnd) as ([] & Hrn & Hsent & Hdom). clear IH.
    unfold start_tables. rewrite zip_snoc, foldl_app. cbn [foldl fst snd]. fold (start_tables n r peers).
    set (r0 := start_tables n r peers) in *. clearbody r0.
    assert (rc_known r0 !! pi_pubkey p = None) as Hnone.
    { apply eq_None_not_Some. intros Hin%Hdom. apply (Hdis _ Hin). by left. }
    assert (0 ≤ len peers mod n < n) as Hw by (by apply Z.mod_pos_bound).
    split_and!; [|done..|]; cbn.
    2:{ intros k [e [[<- _]|[_ He]]%lookup_insert_Some]; apply elem_of_app; [right; by left|left; eauto]. }
    constructor; cbn; try done.
    + intros q w cs l [[_ [= <- _ _]]|[_ Hq]]%lookup_insert_Some; [lia|eauto].
    + by rewrite ri_peer, fmap_insert.
    + apply candidates_insert. by rewrite delete_id.
    + eapply routed_with_peer; [exact ri_routed|lia| |]; [intros q Hq; by rewrite lookup_insert_ne|].
      rewrite lookup_insert_eq. by left.
    + intros w q Hwr. rewrite Hsent. cbn. unfold start_shard. rewrite zip_snoc, list.filter_app, fmap_app, elem_of_app.
      fold (start_shard n peers w). pose proof (ri_serves w q Hwr) as Hsv. rewrite Hsent in Hsv. cbn in Hsv. rewrite Hsv.
      rewrite filter_cons, filter_nil. cbn [fst snd]. destruct (decide (q = pi_pubkey p)) as [->|Hne].
      * rewrite lookup_insert_eq, Hnone. case_decide; cbn; [rewrite list_elem_of_singleton|rewrite elem_of_nil]; naive_solver.
      * rewrite lookup_insert_ne by done. case_decide; cbn; [rewrite list_elem_of_singleton|rewrite elem_of_nil]; naive_solver.
Qed.

(** A node from its start: it pulls configurations (and learns whether a relay is
    reachable) and applies them, with any outcome of the host effects. *)
Inductive reaches : (Z → list (list byte)) → Reconciler → Prop :=
| reach_start n own_pub use_exit avail resolved epoch self_exit platform local_dns dns :
    0 < n → NoDup (pi_pubkey <$> resolved) →
    reaches (start_shard n (apply_use_exit resolved use_exit avail).2)
      (reconciler_start n own_pub use_exit avail resolved epoch self_exit platform local_dns dns)
| reach_pull shards r snap avail :
    reaches shards r → NoDup (pi_pubkey <$> sn_peers snap) →
    reaches shards (set_relay_available avail (set_pending (Some snap) r))
| reach_apply shards r host x r' :
    reaches shards r → apply_pending host r = (x, r') → reaches shards r'.

Lemma use_exit_keys peers use_exit avail :
  pi_pubkey <$> (apply_use_exit peers use_exit avail).2 = pi_pubkey <$> peers.
Proof. cbn. rewrite <-list_fmap_compose. by apply list_fmap_ext. Qed.

Definition wanted_peers (snap : Snapshot) (r : Reconciler) : list PeerInfo :=
  (apply_use_exit (sn_peers snap) (rc_use_exit r) (rc_relay_available r)).2.

(** What [apply_pending] does with a snapshot: it never panics, and its state is that of
    the due changes. *)
Lemma apply_pending_ok shards r snap host x r' :
  rinv shards r → rc_pending r = Some snap → apply_pending host r = (x, r') →
  let ready := is_ok (all [he_guard host; he_bypass host]) in
  rinv shards r' ∧ x ≠ Panic ∧ ∃ xs r1,
    changes_done (due ready (peer_changes (rc_known r) (wanted_peers snap r))) (adopt snap r) xs r1 ∧
    x = all (he_retire host :: all [he_guard host; he_bypass host] :: xs) ∧
    rc_pending r' = (if ready && forallb is_ok xs then None else Some snap) ∧
    (rc_known r', rc_allowed r', rc_sent r', rc_peer_to_wid r', rc_n r', rc_tries r', rc_desired r')
    = (rc_known r1, rc_allowed r1, rc_sent r1, rc_peer_to_wid r1, rc_n r1, rc_tries r1, wanted_peers snap r).
Proof.
  intros Hr Hsnap. unfold apply_pending, mbind, st_bind, get. cbn [modify]. rewrite Hsnap.
  set (ready := is_ok (all _)). fold (wanted_peers snap r). rewrite apply_changes_due.
  destruct (apply_changes true _ _) as [y r1] eqn:Hy.
  assert (rinv shards (adopt snap r)) as Hr0 by (destruct Hr; by constructor).
  assert (NoDup (pi_pubkey <$> wanted_peers snap r)) as Hnd.
  { unfold wanted_peers. rewrite use_exit_keys. by eapply ri_pending. }
  destruct (apply_changes_ok shards _ _ _ _ Hr0 (fresh_filter _ _ _ (fresh_changes _ _ Hnd)) Hy)
    as (Hr1 & xs & -> & Hd).
  assert (rc_pending r1 = Some snap) as Hp1 
    by (change (rc_pending r1) with (fixed r1).2; by rewrite (cs_fixed _ _ _ _ Hd)).
  cbn [modify lift]. destruct (ready && forallb is_ok xs) eqn:Hall; cbn; intros [= <- <-].
  all: split_and!; [destruct Hr1; by constructor| |].
  1,3: unfold all; by destruct (dedup _).
  all: exists xs, r1; split_and!; try done; by rewrite Hall.
Qed.

Lemma reaches_inv shards r : reaches shards r → rinv shards r.
Proof.
  induction 1 as [n own_pub use_exit avail resolved epoch se platform ld dns Hn Hnd|shards r snap avail _ Hr Hnd
    |shards r host x r' _ Hr Heq].
  - unfold reconciler_start. set (r0 := mkReconciler _ _ _ _ _ _ _ _ _ _ _ _ _ _ _ _ _ _ _).
    set (peers := (apply_use_exit _ _ _).2).
    destruct (start_tables_ok n r0 peers) as [[] _]; [done|by constructor|by unfold peers; rewrite use_exit_keys|].
    by constructor.
  - destruct Hr. constructor; try done. by intros ? [= <-].
  - destruct (rc_pending r) as [snap|] eqn:Hp; [by eapply apply_pending_ok|].
    revert Heq. unfold apply_pending, mbind, st_bind, get. rewrite Hp. by intros [= _ <-].
Qed.

(** ** Convergence *)

(** The configuration the node routes by. *)
Definition routing_config (r : Reconciler) : Config := (fun e => (e.1.1, e.2)) <$> rc_known r.

Lemma routed_owns r :
  routed (rc_tries r) (rc_allowed r) (rc_known r) → (∀ k w, mailbox_open k w = true) →
  ∃ reports, rc_allowed r = table_of reports ∧
    ∀ a p w, owns (config_of reports) a p w ↔ owns (routing_config r) a p w.
Proof.
  intros (reports & Ht & Hok) Hopen. exists reports. split; [done|].
  assert (∀ a p w n, claims (config_of reports) a p w n ↔ claims (routing_config r) a p w n) as Hcl.
  { intros a p w n. unfold claims, routing_config. rewrite lookup_fmap. specialize (Hok p).
    destruct (rc_known r !! p) as [[[w' cs] l']|]; cbn in Hok |- *.
    - destruct Hok as [->|[_ Hc]]; [done|by rewrite Hopen in Hc].
    - split; [|by intros (l & x & ? & _)]. intros (l & x & Hl & Hx & _). rewrite (Hok _ _ Hl) in Hx.
      by apply elem_of_nil in Hx. }
  intros a p w. unfold owns. f_equiv. intros n. rewrite Hcl. f_equiv. do 3 (apply forall_proper; intros ?). by rewrite Hcl.
Qed.

Lemma all_effects x xs : Forall (fun y => y = Ok tt) xs → all (x :: Ok tt :: xs) = all [x].
Proof.
  intros Hxs. unfold all. cbn [omap list_omap err_of]. assert (omap err_of xs = []) as ->; [|done].
  induction Hxs as [|y ys -> _ IH]; [done|]. cbn. done.
Qed.

Lemma due_all cs : due true cs = cs.
Proof. unfold due. induction cs as [|c cs IH]; [done|]. by rewrite filter_cons, decide_True, IH by done. Qed.

Lemma removal_run pk l : ∀ e e',
  entry_run l e e' → (∀ c, c ∈ l → c = CRemove pk) → (is_Some e → CRemove pk ∈ l) → e' = None.
Proof.
  induction l as [|c l IH]; intros e e' Hrun Hall Hin.
  - cbn in Hrun. subst e'. destruct e; [|done]. by destruct (elem_of_nil (A:=PeerChange) (CRemove pk)) as [[] _]; eauto.
  - destruct Hrun as (e1 & He & Hrun). rewrite (Hall c) in He by (by left). cbn in He. subst e1.
    eapply IH; [exact Hrun| |by intros []]. intros c' Hc'. apply Hall. by right.
Qed.

(** Every changed peer has its changes made. *)
Lemma changes_settle known desired (r : Reconciler) xs r1 :
  rc_known r = known → NoDup (pi_pubkey <$> desired) → Forall (fun y => y = Ok tt) xs →
  changes_done (peer_changes known desired) r xs r1 →
  (∀ p, p ∈ desired → settled (rc_known r1 !! pi_pubkey p) p) ∧
  (∀ pk, (pk ∉ pi_pubkey <$> desired) → rc_known r1 !! pk = None).
Proof.
  intros Hknown Hnd Hxs Hd. split.
  - intros p Hp. eapply peer_change_settles. rewrite <-(changes_of known desired p) by done. rewrite <-Hknown at 2.
    by apply Hd.
  - intros pk Hpk. pose proof (cs_entries _ _ _ _ Hd Hxs pk) as Hrun. rewrite Hknown in Hrun.
    eapply (removal_run pk); [exact Hrun| |].
    + intros c [<- [(pk' & -> & _)|(q & Hq & Hc)]%elem_of_changes]%list_elem_of_filter; [done|].
      destruct Hpk. rewrite (peer_change_target known q c Hc). by apply list_elem_of_fmap_2.
    + intros He. apply list_elem_of_filter. split; [done|]. apply elem_of_changes. left. eauto.
Qed.

Lemma settled_fixpoint known desired :
  (∀ p, p ∈ desired → settled (known !! pi_pubkey p) p) →
  (∀ pk, (pk ∉ pi_pubkey <$> desired) → known !! pk = None) → peer_changes known desired = [].
Proof.
  intros Hin Hout. destruct (peer_changes known desired) as [|c l] eqn:Hc; [done|].
  assert (c ∈ peer_changes known desired) as Hcin by (rewrite Hc; by left).
  apply elem_of_changes in Hcin as [(pk & -> & [e He] & Hn)|(p & Hp & Hpc)].
  - by rewrite (Hout pk Hn) in He.
  - rewrite (settled_no_change known p) in Hpc by auto. by apply elem_of_nil in Hpc.
Qed.

(** C6.  The reconcile loop converges.  In any state a node reaches, whatever failed
    before, applying a pulled configuration with the workers alive and the carriers ready
    installs it completely: nothing is left to retry, and a further comparison finds no
    change.  Each wanted peer is served by the one worker the readers hand its packets
    to, with the allowed ips of the configuration; all other peers are gone from every
    worker.  Packets are then routed, and sources accepted, by longest-prefix ownership of
    exactly that configuration.  The result is the outcome of retiring the old exit. *)
Theorem reconcile_converges shards r snap host :
  reaches shards r → rc_pending r = Some snap → (∀ k w, mailbox_open k w = true) →
  he_bypass host = Ok tt → he_guard host = Ok tt →
  let desired := wanted_peers snap r in
  ∃ r', apply_pending host r = (all [he_retire host], r') ∧
    rc_pending r' = None ∧ peer_changes (rc_known r') desired = [] ∧
    (∀ p, p ∈ desired → ∃ w, rc_peer_to_wid r' !! pi_pubkey p = Some w ∧
       pi_pubkey p ∈ served (shards w) (mail w (rc_sent r')) ∧
       routing_config r' !! pi_pubkey p = Some (w, pi_allowed_ips p)) ∧
    (∀ pk, (pk ∉ pi_pubkey <$> desired) → rc_peer_to_wid r' !! pk = None ∧
       ∀ w, 0 ≤ w < rc_n r' → pk ∉ served (shards w) (mail w (rc_sent r'))) ∧
    ∀ pkt pk w,
      (route_tun pkt (rc_allowed r') = Some (pk, w) ↔
         ∃ dst, dst_address pkt = Some dst ∧ owns (routing_config r') dst pk w) ∧
      (accepts_source (rc_allowed r') pk pkt = true ↔
         ∃ src w', src_address pkt = Some src ∧ owns (routing_config r') src pk w').
Proof.
  intros Hr%reaches_inv Hsnap Hopen Hb Hg desired. destruct (apply_pending host r) as [x r'] eqn:Heq.
  destruct (apply_pending_ok shards r snap host x r' Hr Hsnap Heq)
    as (Hr' & _ & xs & r1 & Hd & -> & Hp & [= Hk Ha Hs Hw Hn Ht Hdes]).
  rewrite Hb, Hg in *. change (all [Ok (); Ok ()]) with (Ok (E:=ApplyError) ()) in *. cbn [is_ok andb] in *.
  rewrite due_all in Hd. pose proof (cs_open _ _ _ _ Hd Hopen) as Hxs.
  assert (NoDup (pi_pubkey <$> desired)) as Hnd.
  { unfold desired, wanted_peers. rewrite use_exit_keys. by apply (ri_pending _ _ Hr). }
  destruct (changes_settle (rc_known r) desired (adopt snap r) xs r1) as [Hin Hout]; [done..|].
  rewrite <-Hk in Hin, Hout. exists r'. rewrite all_effects by done. split_and!; [done| |by apply settled_fixpoint| | |].
  - rewrite Hp. assert (forallb is_ok xs = true) as ->; [|done]. apply forallb_forall. intros y Hy.
    rewrite list.Forall_forall in Hxs. rewrite (Hxs y); [done|]. by apply list_elem_of_In.
  - intros p Hpd. destruct (Hin p Hpd) as (w & cs & He & _). exists w. split_and!.
    + by rewrite (ri_peer _ _ Hr'), lookup_fmap, He.
    + apply (ri_serves _ _ Hr'); [by eapply ri_wid|eauto].
    + unfold routing_config. by rewrite lookup_fmap, He.
  - intros pk Hpk. specialize (Hout pk Hpk). split; [by rewrite (ri_peer _ _ Hr'), lookup_fmap, Hout|].
    intros w Hwr (a & l & He)%(ri_serves _ _ Hr'); [congruence|done].
  - destruct (routed_owns r' (ri_routed _ _ Hr') Hopen) as (reports & -> & Hown). intros pkt pk w.
    rewrite route_tun_owns, accepts_source_owns. split; naive_solver.
Qed.

(** C7.  Revocation fails closed.  A peer the configuration no longer lists has, after
    [apply_pending], no route and no right to send, whatever failed: carriers,
    bypass routes, kill switch, other peers or its own worker, which may be gone.  Unless a
    worker is gone it is also forgotten by every worker. *)
Theorem revoked_peer_cut_off shards r snap host x r' pk :
  reaches shards r → rc_pending r = Some snap → (pk ∉ pi_pubkey <$> sn_peers snap) →
  apply_pending host r = (x, r') →
  x ≠ Panic ∧ (∀ pkt, accepts_source (rc_allowed r') pk pkt = false) ∧
  (∀ pkt w, route_tun pkt (rc_allowed r') ≠ Some (pk, w)) ∧
  ((∀ k w, mailbox_open k w = true) →
     ∀ w, 0 ≤ w < rc_n r' → pk ∉ served (shards w) (mail w (rc_sent r'))).
Proof.
  intros Hr%reaches_inv Hsnap Hpk Heq.
  destruct (apply_pending_ok shards r snap host x r' Hr Hsnap Heq)
    as (Hr' & Hx & xs & r1 & Hd & _ & _ & [= Hk Ha _ _ _ _ _]).
  set (ready := is_ok _) in Hd.
  assert (pk ∉ pi_pubkey <$> wanted_peers snap r) as Hpk' by (unfold wanted_peers; by rewrite use_exit_keys).
  assert (∀ c, c ∈ due ready (peer_changes (rc_known r) (wanted_peers snap r)) → target c = pk → c = CRemove pk) as Honly.
  { intros c [_ [(pk' & -> & _)|(q & Hq & Hc)]%elem_of_changes]%list_elem_of_filter <-; [done|].
    destruct Hpk'. rewrite (peer_change_target _ q c Hc). by apply list_elem_of_fmap_2. }
  assert (is_Some (rc_known r !! pk) → CRemove pk ∈ due ready (peer_changes (rc_known r) (wanted_peers snap r))) as Hrem.
  { intros He. apply list_elem_of_filter. split; [by rewrite andb_false_r|]. apply elem_of_changes. left. eauto. }
  assert (cut pk (rc_allowed r')) as Hcut.
  { rewrite Ha. apply (cs_cut _ _ _ _ Hd); [done|]. destruct (rc_known r !! pk) eqn:He; [right; eauto|left].
    eapply routed_cut; [apply Hr|done]. }
  split_and!; [done|intros pkt; by apply cut_accepts|intros pkt; by apply cut_accepts|].
  intros Hopen w Hw (a & l & He)%(ri_serves _ _ Hr'); [|done].
  pose proof (cs_entries _ _ _ _ Hd (cs_open _ _ _ _ Hd Hopen) pk) as Hrun.
  eapply (removal_run pk) in Hrun; [congruence| |].
  - intros c [Ht Hc]%list_elem_of_filter. by apply Honly.
  - intros Hs. apply list_elem_of_filter. eauto.
Qed.
End Runs.

(** ** Witnesses *)

#[export] Instance listed_keys : KeyOrder := { map_keys A m := (map_to_list m).*1; map_keys_perm A m := Permutation_refl _ }.

#[export] Instance live_workers : Mailboxes.
Proof. refine {| mailbox_open _ _ := true |}. done. Defined.

(** Worker 1 dies at the first dispatch. *)
Definition dead_worker : Mailboxes.
Proof. refine {| mailbox_open _ w := negb (w =? 1) |}. done. Defined.

Definition peer_x (ips : list string) : PeerInfo := mkPeerInfo (replicate 32 x11) [SockV4 167772161 51820] ips None false.
Definition peer_y : PeerInfo := mkPeerInfo (replicate 32 x22) [] ["10.9.0.2/32"%string] None false.
Definition peer_z : PeerInfo := mkPeerInfo (replicate 32 x33) [] ["10.9.0.3/32"%string] None false.

Definition node_started : Reconciler :=
  reconciler_start 2 (replicate 32 x77) None false [peer_x ["10.9.0.1/32"%string]; peer_y] 1 false JNull [] [].
Definition next_snapshot : Snapshot := mkSnapshot JNull 2 [peer_z; peer_x ["10.9.0.1/32"; "10.8.0.0/16"]%string] false.
Definition node_pulled : Reconciler := set_relay_available false (set_pending (Some next_snapshot) node_started).
Definition shards_started : Z → list (list byte) := start_shard 2 [peer_x ["10.9.0.1/32"%string]; peer_y].

Lemma keys_unlike (l : list (list byte)) : bool_decide (NoDup l) = true → NoDup l.
Proof. by intros ?%bool_decide_eq_true. Qed.

Lemma key_absent (k : list byte) (l : list (list byte)) : bool_decide (k ∈ l) = false → k ∉ l.
Proof. by intros ?%bool_decide_eq_false. Qed.

Lemma node_pulled_reached `{Mailboxes} : reaches shards_started node_pulled.
Proof.
  apply (reach_pull shards_started node_started next_snapshot false); [|apply keys_unlike; by vm_compute].
  apply (reach_start 2 (replicate 32 x77) None false [peer_x ["10.9.0.1/32"%string]; peer_y] 1 false JNull [] []); [lia|].
  apply keys_unlike. by vm_compute.
Qed.

Definition host_ok : HostEffects := mkHostEffects (Ok tt) (Ok tt) (Ok tt).
Definition host_down : HostEffects :=
  mkHostEffects (Err (error_new ["route"]%string "no gateway")) (Err (error_new ["bypass"]%string "DNS timeout")) (Ok tt).

Lemma reconcile_converges_witness :
  ∃ r', apply_pending host_ok node_pulled = (Ok tt, r') ∧ rc_pending r' = None ∧
    rc_peer_to_wid r' !! pi_pubkey peer_y = None.
Proof.
  destruct (@reconcile_converges _ live_workers _ shards_started node_pulled next_snapshot host_ok
    (@node_pulled_reached live_workers) eq_refl
    (fun _ _ => eq_refl) eq_refl eq_refl) as (r' & Hr & Hp & _ & _ & Hout & _).
  exists r'. split; [exact Hr|]. split; [exact Hp|]. apply Hout, key_absent. vm_compute. reflexivity.
Defined.

Lemma revoked_peer_cut_off_witness :
  let r' := (apply_pending (H0:=dead_worker) host_down node_pulled).2 in
  (∀ pkt, accepts_source (rc_allowed r') (pi_pubkey peer_y) pkt = false) ∧ rc_pending r' = Some next_snapshot.
Proof.
  split; [|vm_compute; reflexivity].
  destruct (@revoked_peer_cut_off _ dead_worker _ shards_started node_pulled next_snapshot host_down _ _ (pi_pubkey peer_y)
    (@node_pulled_reached dead_worker) eq_refl ltac:(apply key_absent; vm_compute; reflexivity)
    (surjective_pairing _)) as (_ & Hacc & _). exact Hacc.
Defined.
