(* ===== verification/SqlDb.v ===== *)
(** * The control plane's database (control-server/src/persistence.rs, integrity.rs,
      contention.rs)

    Tables are finite maps from primary keys to rows, and each SQL statement the code
    sends is a function on them.  The database itself is not part of the repository:
    [answer] says, for every statement in turn, whether it succeeds, fails, or takes effect
    while its answer is lost, in any pattern; [select] leaves the order of rows open.  What
    the statements mean (primary keys, the two unique indexes on active devices,
    transactions that are undone on error) is standard SQL. *)

From Stdlib Require Import Strings.Ascii Strings.String.
From S2P Require Import Prelude.
From S2P Require Import Words.
From S2P Require Import NetText.
From S2P Require Import Prefix.
From S2P Require Import Domain.

(** ** Tables *)

(** A row of [device]; [status] is text. *)
Record DeviceRow := mkRow {
  w_id : string; w_network_id : string; w_name : string; w_wg_public_key : string;
  w_address_v4 : option string; w_address_v6 : option string; w_status : string;
  w_endpoints : option string; w_settings : option string; w_auth_token : option string }.

Record AuditEntry := mkAudit { a_ts : Z; a_actor : string; a_action : string }.

Record Stats := mkStats { s_rx : Z; s_tx : Z; s_peers : option string; s_updated_at : Z }.

Record Db := mkDb {
  t_network : gmap string Network;
  t_invite : gmap string Invite;
  t_device : gmap string DeviceRow;
  t_relay : gmap string RelayNode;
  t_route : gmap string Route;
  t_admin : gmap string (string * Z);
  t_audit : list AuditEntry;
  t_stats : gmap string Stats;
  t_sequence : option Z
}.

Definition with_network m d := mkDb m (t_invite d) (t_device d) (t_relay d) (t_route d) (t_admin d) (t_audit d) (t_stats d) (t_sequence d).
Definition with_invite m d := mkDb (t_network d) m (t_device d) (t_relay d) (t_route d) (t_admin d) (t_audit d) (t_stats d) (t_sequence d).
Definition with_device m d := mkDb (t_network d) (t_invite d) m (t_relay d) (t_route d) (t_admin d) (t_audit d) (t_stats d) (t_sequence d).
Definition with_relay m d := mkDb (t_network d) (t_invite d) (t_device d) m (t_route d) (t_admin d) (t_audit d) (t_stats d) (t_sequence d).
Definition with_route m d := mkDb (t_network d) (t_invite d) (t_device d) (t_relay d) m (t_admin d) (t_audit d) (t_stats d) (t_sequence d).
Definition with_admin m d := mkDb (t_network d) (t_invite d) (t_device d) (t_relay d) (t_route d) m (t_audit d) (t_stats d) (t_sequence d).
Definition with_audit l d := mkDb (t_network d) (t_invite d) (t_device d) (t_relay d) (t_route d) (t_admin d) l (t_stats d) (t_sequence d).
Definition with_stats m d := mkDb (t_network d) (t_invite d) (t_device d) (t_relay d) (t_route d) (t_admin d) (t_audit d) m (t_sequence d).
Definition with_sequence z d := mkDb (t_network d) (t_invite d) (t_device d) (t_relay d) (t_route d) (t_admin d) (t_audit d) (t_stats d) z.

Definition db_empty : Db := mkDb ∅ ∅ ∅ ∅ ∅ ∅ [] ∅ None.

(** ** Answers *)

(** sqlx errors, as far as the code tells them apart. *)
Inductive DbError :=
| Busy                      (* SQLite contention: primary code 5 or 6 *)
| Serialization             (* PostgreSQL 40001, 40P01 *)
| UniqueViolation
| PoolTimedOut
| Protocol (message : string)
| OtherError.

Inductive SqlStoreError :=
| NetworkNotFound | DeviceNotFound | RelayNotFound | RouteNotFound
| DeviceUnauthorized | DeviceForbidden | RouteApproved
| InvalidPrefix | InvalidKey | InvalidAddress | InvalidInvite
| PoolExhausted | BadPool (pool : string) | DbErr (e : DbError).

Inductive Answer := Fine | Fail (e : DbError) | Lost (e : DbError).

Class Database := {
  answer : nat → Answer;
  select : ∀ {A : Type}, gmap string A → list A;
  select_perm : ∀ {A : Type} (m : gmap string A), select m ≡ₚ (map_to_list m).*2;
  random_hex : nat → Z → string
}.

(** [SqlStore]; [ticks] counts the answers and the random numbers taken so far. *)
Record SqlStore {W : Type} := mkSql { db : Db; net_index : Z; epoch_tx : gmap string W; ticks : nat }.
Arguments SqlStore : clear implicits.

Section Sql.
Context {W : Type} `{!Database}.
Implicit Types s : SqlStore W.

Definition set_db d s : SqlStore W := mkSql W d (net_index s) (epoch_tx s) (ticks s).
Definition set_index z s : SqlStore W := mkSql W (db s) z (epoch_tx s) (ticks s).
Definition set_tx m s : SqlStore W := mkSql W (db s) (net_index s) m (ticks s).
Definition tick s : SqlStore W := mkSql W (db s) (net_index s) (epoch_tx s) (S (ticks s)).

Abbreviation sql A := (st (SqlStore W) SqlStoreError A).

(** A statement that reads. *)
Definition query {A} (f : Db → A) : sql A := fun s =>
  match answer (ticks s) with
  | Fine => (Ok (f (db s)), tick s)
  | Fail e | Lost e => (Err (DbErr e), tick s)
  end.

(** A statement that writes, with its result (the number of rows it changes, or what
    [RETURNING] gives). *)
Definition execute {A} (f : Db → res DbError (Db * A)) : sql A := fun s =>
  match answer (ticks s), f (db s) with
  | Fine, Ok (d, a) => (Ok a, set_db d (tick s))
  | Fine, Err e => (Err (DbErr e), tick s)
  | Lost e, Ok (d, _) => (Err (DbErr e), set_db d (tick s))
  | Fail e, _ | Lost e, _ => (Err (DbErr e), tick s)
  | Fine, Panic => (Panic, tick s)
  end.

Definition run_ (f : Db → Db) : sql unit := execute (fun d => Ok (f d, tt)).

Definition random (bytes : Z) : sql string := fun s => (Ok (random_hex (ticks s) bytes), tick s).

(** A transaction: its changes stay when the commit is carried out. *)
Definition transaction {A} (m : sql A) : sql A := fun s =>
  match m s with
  | (Ok a, s') =>
      match answer (ticks s') with
      | Fine => (Ok a, tick s')
      | Fail e => (Err (DbErr e), set_db (db s) (tick s'))
      | Lost e => (Err (DbErr e), tick s')
      end
  | (Err e, s') => (Err e, set_db (db s) s')
  | (Panic, s') => (Panic, set_db (db s) s')
  end.

(** [pool.begin()]. *)
Definition pool_begin : sql unit := query (fun _ => tt).

(** [integrity::begin]: the write lock on the entity sequence. *)
Definition begin : sql unit :=
  _ ← pool_begin;
  locked ← execute (fun d => Ok (d, match t_sequence d with Some _ => 1 | None => 0 end));
  if locked =? 1 then mret tt else lift (Err (DbErr (Protocol "entity ID sequence missing"))).

(** [integrity::next]. *)
Definition next : sql Z :=
  row ← execute (fun d =>
    match t_sequence d with
    | Some v => if v <? 2 ^ 63 - 1 then Ok (with_sequence (Some (v + 1)) d, Some (v + 1)) else Ok (d, None)
    | None => Ok (d, None)
    end);
  lift (ok_or row (DbErr (Protocol "entity ID sequence exhausted or missing"))).

(** ** Contention *)

Definition sqlite_busy (e : DbError) : bool := match e with Busy => true | _ => false end.
Definition retryable (e : DbError) : bool := match e with Busy | Serialization => true | _ => false end.

(** [contention::retry], without the pauses; [fuel] bounds the loop. *)
Fixpoint retry_loop {A} (fuel : nat) (attempt : Z) (legacy_pg_retry : bool) (write : sql A) : sql A := fun s =>
  match fuel with
  | O => (Panic, s)
  | S fuel =>
      match write s with
      | (Err (DbErr e), s') =>
          if sqlite_busy e then
            if 2 <=? attempt then (Err (DbErr e), s')
            else retry_loop fuel (attempt + 1) legacy_pg_retry write s'
          else if legacy_pg_retry && retryable e && (attempt <? 7)
          then retry_loop fuel (attempt + 1) legacy_pg_retry write s'
          else (Err (DbErr e), s')
      | r => r
      end
  end.
Definition retry {A} (legacy_pg_retry : bool) (write : sql A) : sql A := retry_loop 8 0 legacy_pg_retry write.
End Sql.

(** ** Statements (persistence.rs) *)

Section Statements.
Context `{!KeyCodec}.

Definition status_text (s : DeviceStatus) : string := match s with Active => "active" | Revoked => "revoked" end.
Definition is_active (r : DeviceRow) : bool := bool_decide (w_status r = "active"%string).

Definition row_device (r : DeviceRow) : Device :=
  mkDevice (w_id r) (w_network_id r) (w_name r) (w_wg_public_key r) (w_address_v4 r) (w_address_v6 r)
    (if is_active r then Active else Revoked).

(** [INSERT]: the primary key is free. *)
Definition insert_row {A} (id : string) (row : A) (m : gmap string A) : res DbError (gmap string A) :=
  match m !! id with Some _ => Err UniqueViolation | None => Ok (<[id := row]> m) end.

(** The two partial unique indexes, on the keys and the IPv4 addresses of active devices. *)
Definition same_network_key (a b : DeviceRow) : bool :=
  is_active a && is_active b && bool_decide (w_network_id a = w_network_id b)
  && bool_decide (w_wg_public_key a = w_wg_public_key b).
Definition same_network_v4 (a b : DeviceRow) : bool :=
  is_active a && is_active b && bool_decide (w_network_id a = w_network_id b)
  && match w_address_v4 a, w_address_v4 b with Some x, Some y => bool_decide (x = y) | _, _ => false end.
Definition clashes (row : DeviceRow) (m : gmap string DeviceRow) : bool :=
  existsb (fun r => same_network_key row r || same_network_v4 row r) (map_to_list m).*2.

Definition insert_network (n : Network) (d : Db) : res DbError (Db * Z) :=
  m ← insert_row (n_id n) n (t_network d); Ok (with_network m d, 1).

Definition insert_invite (i : Invite) (d : Db) : res DbError (Db * Z) :=
  m ← insert_row (i_code i) i (t_invite d); Ok (with_invite m d, 1).

Definition insert_relay (r : RelayNode) (d : Db) : res DbError (Db * Z) :=
  m ← insert_row (l_id r) r (t_relay d); Ok (with_relay m d, 1).

Definition insert_route (r : Route) (d : Db) : res DbError (Db * Z) :=
  m ← insert_row (r_id r) r (t_route d); Ok (with_route m d, 1).

Definition insert_device (v : Device) (d : Db) : res DbError (Db * Z) :=
  key ← ok_or (normalize (d_wg_public_key v)) (Protocol "invalid 32-byte public key");
  let row := mkRow (d_id v) (d_network_id v) (d_name v) key (d_address_v4 v) (d_address_v6 v)
    (status_text (d_status v)) None None None in
  if clashes row (t_device d) then Err UniqueViolation else
  m ← insert_row (d_id v) row (t_device d); Ok (with_device m d, 1).
End Statements.

Definition set_endpoints_of (l : list string) (r : DeviceRow) : DeviceRow :=
  mkRow (w_id r) (w_network_id r) (w_name r) (w_wg_public_key r) (w_address_v4 r) (w_address_v6 r) (w_status r)
    (Some (String.concat "," l)) (w_settings r) (w_auth_token r).
Definition set_settings_of (json : string) (r : DeviceRow) : DeviceRow :=
  mkRow (w_id r) (w_network_id r) (w_name r) (w_wg_public_key r) (w_address_v4 r) (w_address_v6 r) (w_status r)
    (w_endpoints r) (Some json) (w_auth_token r).
Definition set_token_of (token : string) (r : DeviceRow) : DeviceRow :=
  mkRow (w_id r) (w_network_id r) (w_name r) (w_wg_public_key r) (w_address_v4 r) (w_address_v6 r) (w_status r)
    (w_endpoints r) (w_settings r) (Some token).
Definition set_name_of (name : string) (r : DeviceRow) : DeviceRow :=
  mkRow (w_id r) (w_network_id r) name (w_wg_public_key r) (w_address_v4 r) (w_address_v6 r) (w_status r)
    (w_endpoints r) (w_settings r) (w_auth_token r).

(** [SET status = 'revoked', address_v4 = NULL, address_v6 = NULL, auth_token = NULL]. *)
Definition revoked_row (r : DeviceRow) : DeviceRow :=
  mkRow (w_id r) (w_network_id r) (w_name r) (w_wg_public_key r) None None "revoked"
    (w_endpoints r) (w_settings r) None.

Definition update_device (f : DeviceRow → DeviceRow) (id : string) (d : Db) : Db :=
  with_device (alter f id (t_device d)) d.

Definition set_device_endpoints (id : string) (l : list string) (d : Db) : Db := update_device (set_endpoints_of l) id d.
Definition set_device_settings (id json : string) (d : Db) : Db := update_device (set_settings_of json) id d.
Definition set_device_token (id token : string) (d : Db) : Db := update_device (set_token_of token) id d.
Definition set_device_name (id name : string) (d : Db) : Db := update_device (set_name_of name) id d.

(** [UPDATE network SET config_epoch = config_epoch + 1 WHERE id = $1], in a [BIGINT]. *)
Definition bump_network_epoch (id : string) (d : Db) : res DbError (Db * Z) :=
  match t_network d !! id with
  | None => Ok (d, 0)
  | Some n =>
      if n_config_epoch n <? 2 ^ 63 - 1 then
        Ok (with_network (<[id := mkNetwork (n_id n) (n_name n) (n_ipv4_pool n) (n_ipv6_ula n) (n_config_epoch n + 1)]>
              (t_network d)) d, 1)
      else Err OtherError
  end.

Definition get_network (id : string) (d : Db) : option Network := t_network d !! id.
Definition get_device (id : string) (d : Db) : option Device := row_device <$> t_device d !! id.
Definition get_route (id : string) (d : Db) : option Route := t_route d !! id.

(** Counts are read back as [u32]. *)
Definition get_invite (code : string) (d : Db) : option Invite :=
  (fun i => mkInvite (i_code i) (i_network_id i) (i_expires_at i) (wrap 32 <$> i_max_uses i) (wrap 32 (i_uses i)))
  <$> t_invite d !! code.

(** [AND EXISTS (SELECT 1 FROM network WHERE network.id = device.network_id)]. *)
Definition in_live_network (d : Db) (r : DeviceRow) : bool :=
  match t_network d !! w_network_id r with Some _ => true | None => false end.

Definition get_device_token (id : string) (d : Db) : option string :=
  r ← t_device d !! id;
  if is_active r && in_live_network d r then w_auth_token r else None.

(** [s.split(',').filter(|x| !x.is_empty())]. *)
Definition csv (s : string) : list string :=
  text <$> List.filter (fun l => negb (bool_decide (l = []))) (split "," (chars s)).
Definition get_device_endpoints (id : string) (d : Db) : list string :=
  default [] (csv <$> (t_device d !! id ≫= w_endpoints)).
Definition get_device_settings (id : string) (d : Db) : string :=
  match t_device d !! id ≫= w_settings with Some s => if bool_decide (s = "")%string then "{}" else s | None => "{}" end.

Section Selects.
Context `{!Database}.

Definition list_devices (network_id : string) (d : Db) : list Device :=
  row_device <$> List.filter (fun r => bool_decide (w_network_id r = network_id)) (select (t_device d)).
Definition list_networks (d : Db) : list Network := select (t_network d).
Definition list_invites (network_id : string) (d : Db) : list Invite :=
  (fun i => mkInvite (i_code i) (i_network_id i) (i_expires_at i) (wrap 32 <$> i_max_uses i) (wrap 32 (i_uses i)))
  <$> List.filter (fun i => bool_decide (i_network_id i = network_id)) (select (t_invite d)).
Definition list_routes_for_device (device_id : string) (d : Db) : list Route :=
  List.filter (fun r => bool_decide (r_device_id r = device_id)) (select (t_route d)).
Definition approved_routes_for_network (network_id : string) (d : Db) : list (string * string) :=
  (fun r => (r_device_id r, r_prefix r)) <$>
    List.filter (fun r => bool_decide (r_network_id r = network_id) && r_approved r) (select (t_route d)).
Definition list_relays (network_id : string) (d : Db) : list RelayNode :=
  List.filter (fun r => match l_network_id r with None => true | Some x => bool_decide (x = network_id) end)
    (select (t_relay d)).
Definition list_network_stats (network_id : string) (d : Db) : list (string * Z * Z * Z) :=
  omap (fun r => s ← t_stats d !! w_id r;
          if bool_decide (w_network_id r = network_id) then Some (w_id r, s_rx s, s_tx s, s_updated_at s) else None)
    (select (t_device d)).
End Selects.

Definition set_route_approved (id : string) (approved : bool) (d : Db) : Db :=
  with_route (alter (fun r => mkRoute (r_id r) (r_network_id r) (r_device_id r) (r_prefix r) approved) id (t_route d)) d.
Definition delete_route_row (id : string) (d : Db) : Db := with_route (delete id (t_route d)) d.

Definition upsert_device_stats (id : string) (rx tx : Z) (peers : string) (at_ : Z) (d : Db) : Db :=
  with_stats (<[id := mkStats rx tx (Some peers) at_]> (t_stats d)) d.
Definition get_device_stats (id : string) (d : Db) : option (Z * Z * string * Z) :=
  (fun s => (s_rx s, s_tx s, default ""%string (s_peers s), s_updated_at s)) <$> t_stats d !! id.

Definition count_networks (d : Db) : Z := Z.of_nat (size (t_network d)).
Definition count_admins (d : Db) : Z := Z.of_nat (size (t_admin d)).
Definition admin_hash (username : string) (d : Db) : option string := fst <$> t_admin d !! username.
Definition create_admin_row (username hash : string) (now : Z) (d : Db) : res DbError (Db * Z) :=
  m ← insert_row username (hash, now) (t_admin d); Ok (with_admin m d, 1).
Definition update_admin_password (username hash : string) (d : Db) : Db :=
  with_admin (alter (fun x => (hash, x.2)) username (t_admin d)) d.
Definition delete_admin_row (username : string) (d : Db) : Db := with_admin (delete username (t_admin d)) d.
Definition insert_audit (ts : Z) (actor action : string) (d : Db) : Db := with_audit (t_audit d ++ [mkAudit ts actor action]) d.
