(* ===== verification/SqlControl.v ===== *)
(** * The persistent coordination store (control-server/src/sql_store.rs, device_routes.rs)

    Every operation of [SqlStore], as the sequence of statements it sends: some in a
    transaction under the write lock of the entity sequence, retried under contention, some
    one by one.  JSON text (serde_json) and tokio's [watch] channel are parameters. *)

From Stdlib Require Import Strings.Ascii Strings.String.
From S2P Require Import Prelude.
From S2P Require Import Words.
From S2P Require Import NetText.
From S2P Require Import Prefix.
From S2P Require Import Ipam.
From S2P Require Import RouteTable.
From S2P Require Import Domain.
From S2P Require Import NodeConfig.
From S2P Require Import SqlDb.

Class JsonText := { json_parse : string → option Json; json_print : Json → string }.

(** [watch::Sender<u64>]: [channel], [send] with its result ignored, [send_if_modified] with
    the closure of [notify] (a larger value replaces a smaller one), [send_replace],
    [subscribe]. *)
Class EpochWatch (W : Type) := {
  epoch_channel : Z → W;
  epoch_send : Z → W → W;
  epoch_advance : Z → W → W;
  epoch_replace : Z → W → W;
  epoch_subscribe : W → W
}.

(** ** Overlay addresses *)

(** [u16::from_str_radix(p, 16)]. *)
Definition parse_hex16 (l : list ascii) : option Z :=
  let l := match l with c :: (_ :: _) as k => if Ascii.eqb c "+" then k else c :: k | l => l end in
  match span_digits 16 l with
  | (ds, []) => if (bool_decide (ds ≠ [])) && (digits_val 16 ds <? 2 ^ 16) then Some (digits_val 16 ds) else None
  | _ => None
  end.

(** [s.split("::").next()]. *)
Fixpoint before_colons (l : list ascii) : list ascii :=
  match l with
  | [] => []
  | c :: k =>
      match k with
      | c' :: _ => if Ascii.eqb c ":" && Ascii.eqb c' ":" then [] else c :: before_colons k
      | [] => [c]
      end
  end.

Definition before_slash (l : list ascii) : list ascii := hd [] (split "/" l).

Definition parse_v4_base (pool : string) : res SqlStoreError (Z * Z * Z) :=
  match octets <$> parse_v4 (before_slash (chars pool)) with
  | Some [a; b; c; _] => Ok (a, b, c)
  | _ => Err (BadPool pool)
  end.

Definition parse_v6_prefix (ula : string) : res SqlStoreError (Z * Z * Z) :=
  let parts := List.filter (fun l => negb (bool_decide (l = []))) (split ":" (before_slash (before_colons (chars ula)))) in
  match parts with
  | a :: b :: c :: _ =>
      match parse_hex16 a, parse_hex16 b, parse_hex16 c with
      | Some a, Some b, Some c => Ok (a, b, c)
      | _, _, _ => Err (BadPool ula)
      end
  | _ => Err (BadPool ula)
  end.

(** The last octets of the addresses of active devices. *)
Definition used_hosts (devices : list Device) : list Z :=
  omap (fun d => if bool_decide (d_status d = Active) then
                   a ← d_address_v4 d; ip ← parse_v4 (chars a); Some (ip mod 2 ^ 8)
                 else None) devices.

Definition allocate_address (net : Network) (devices : list Device) : res SqlStoreError (Z * Z) :=
  '(a, b, c) ← parse_v4_base (n_ipv4_pool net);
  '(p, q, r) ← parse_v6_prefix (n_ipv6_ula net);
  let used := used_hosts devices in
  host ← ok_or (list_find (fun h => h ∉ used) device_hosts ≫= fun x => Some x.2) PoolExhausted;
  Ok (ipv4_new a b c host, of_segments [p; q; r; 1; 0; 0; 0; host]).

Section Store.
Context {W : Type} `{!EpochWatch W} `{!Database} `{!KeyCodec} `{!JsonText}.
Implicit Types s : SqlStore W.

Abbreviation sql A := (st (SqlStore W) SqlStoreError A).

(** ** Notification *)

Definition bump (network_id : string) : sql unit := _ ← execute (bump_network_epoch network_id); mret tt.

Definition bump_and_notify (network_id : string) : sql unit :=
  _ ← bump network_id;
  net ← query (get_network network_id);
  match net with
  | Some net => modify (fun s => set_tx (alter (epoch_send (n_config_epoch net)) network_id (epoch_tx s)) s)
  | None => mret tt
  end.

(** Its failures are only logged. *)
Definition notify (network_id : string) : sql unit := fun s =>
  match query (get_network network_id) s with
  | (Ok (Some net), s) => (Ok tt, set_tx (alter (epoch_advance (n_config_epoch net)) network_id (epoch_tx s)) s)
  | (_, s) => (Ok tt, s)
  end.

Definition subscribe (network_id : string) s : SqlStore W :=
  set_tx (<[network_id := epoch_subscribe (default (epoch_channel 0) (epoch_tx s !! network_id))]> (epoch_tx s)) s.

Definition network_of (device_id : string) : sql (option string) :=
  d ← query (get_device device_id); mret (d_network_id <$> d).

(** ** Networks and invites *)

Definition next_seq : sql Z := retry true (transaction (_ ← begin; next)).

Definition format_id (prefix : string) (n : Z) : string := (prefix ++ text (fmt_dec n))%string.

Definition create_network (name : string) : sql Network :=
  s ← get;
  let idx := net_index s in
  _ ← modify (set_index (wrap 64 (idx + 1)));
  let octet := wrap 8 (wrap 8 (idx mod 200) + 16) in
  id ← next_seq;
  let net := mkNetwork (format_id "net-" id) name
    ("100.72." ++ text (fmt_dec octet) ++ ".0/24")%string
    ("fd72:15ab:" ++ text (fmt_hex16_padded (Z.land idx 0xffff)) ++ "::/48")%string 0 in
  _ ← execute (insert_network net);
  _ ← modify (fun s => set_tx (<[n_id net := epoch_channel 0]> (epoch_tx s)) s);
  mret net.

Definition create_invite_once (network_id : string) (expires_at max_uses : option Z) : sql Invite :=
  transaction (
    _ ← begin;
    net ← query (get_network network_id);
    match net with
    | None => lift (Err NetworkNotFound)
    | Some _ =>
        code ← random 16;
        let invite := mkInvite code network_id expires_at max_uses 0 in
        _ ← execute (insert_invite invite);
        mret invite
    end).
Definition create_invite (network_id : string) (expires_at max_uses : option Z) : sql Invite :=
  retry false (create_invite_once network_id expires_at max_uses).

(** The rows of a network are revoked or deleted. *)
Definition drop_network_rows (network_id : string) (d : Db) : Db :=
  let devices := (fun r => if bool_decide (w_network_id r = network_id) then revoked_row r else r) <$> t_device d in
  with_device devices d.
Definition drop_network_stats (network_id : string) (d : Db) : Db :=
  with_stats (filter (fun x => (w_network_id <$> t_device d !! x.1) ≠ Some network_id) (t_stats d)) d.
Definition drop_invites (network_id : string) (d : Db) : Db :=
  with_invite (filter (fun x => i_network_id x.2 ≠ network_id) (t_invite d)) d.
Definition drop_routes (network_id : string) (d : Db) : Db :=
  with_route (filter (fun x => r_network_id x.2 ≠ network_id) (t_route d)) d.
Definition drop_relays (network_id : string) (d : Db) : Db :=
  with_relay (filter (fun x => l_network_id x.2 ≠ Some network_id) (t_relay d)) d.

Definition delete_network_once (network_id : string) : sql unit :=
  net ← transaction (
    _ ← begin;
    net ← query (get_network network_id);
    net ← lift (ok_or net NetworkNotFound);
    _ ← run_ (drop_network_rows network_id);
    _ ← run_ (drop_network_stats network_id);
    _ ← run_ (drop_invites network_id);
    _ ← run_ (drop_routes network_id);
    _ ← run_ (drop_relays network_id);
    _ ← bump network_id;
    _ ← run_ (fun d => with_network (delete network_id (t_network d)) d);
    mret net);
  modify (fun s => set_tx (delete network_id (alter (epoch_replace (Z.min (n_config_epoch net + 1) (2 ^ 64 - 1))) network_id (epoch_tx s))) s).
Definition delete_network (network_id : string) : sql unit := retry false (delete_network_once network_id).

Definition revoke_invite_once (network_id code : string) : sql unit :=
  transaction (
    _ ← begin;
    net ← query (get_network network_id);
    match net with
    | None => lift (Err NetworkNotFound)
    | Some _ =>
        affected ← execute (fun d =>
          match t_invite d !! code with
          | Some i => if bool_decide (i_network_id i = network_id) then Ok (with_invite (delete code (t_invite d)) d, 1)
                      else Ok (d, 0)
          | None => Ok (d, 0)
          end);
        if affected =? 0 then lift (Err InvalidInvite) else mret tt
    end).
Definition revoke_invite (network_id code : string) : sql unit := retry false (revoke_invite_once network_id code).

(** ** Enrolment *)

(** [UPDATE invite SET uses = uses + 1 WHERE code = $1 AND (expires_at IS NULL OR expires_at > $2)
    AND (max_uses IS NULL OR uses < max_uses)]. *)
Definition consume_invite (code : string) (now : Z) (d : Db) : res DbError (Db * Z) :=
  match t_invite d !! code with
  | Some i =>
      if match i_expires_at i with None => true | Some e => now <? e end
         && match i_max_uses i with None => true | Some m => i_uses i <? m end
      then Ok (with_invite (<[code := mkInvite (i_code i) (i_network_id i) (i_expires_at i) (i_max_uses i) (i_uses i + 1)]>
                 (t_invite d)) d, 1)
      else Ok (d, 0)
  | None => Ok (d, 0)
  end.

Definition active_with_key (key : string) (d : Device) : bool :=
  bool_decide (d_status d = Active) && bool_decide (d_wg_public_key d = key).

Definition enroll_body (invite_code name key : string) (now : Z) : sql (Device * string) :=
  invite ← query (get_invite invite_code);
  invite ← lift (ok_or invite InvalidInvite);
  if match i_expires_at invite with Some expiry => expiry <=? now | None => false end
  then lift (Err InvalidInvite)
  else
    net ← query (get_network (i_network_id invite));
    net ← lift (ok_or net NetworkNotFound);
    devices ← query (list_devices (n_id net));
    token ← random 32;
    match list_find (fun d => active_with_key key d = true) devices with
    | Some (_, device) =>
        _ ← run_ (set_device_token (d_id device) token);
        mret (device, token)
    | None =>
        consumed ← execute (consume_invite invite_code now);
        if negb (consumed =? 1) then lift (Err InvalidInvite)
        else
          '(v4, v6) ← lift (allocate_address net devices);
          id ← next;
          let device := mkDevice (format_id "dev-" id) (n_id net) name key
            (Some (text (fmt_v4 v4))) (Some (text (fmt_v6 v6))) Active in
          _ ← execute (insert_device device);
          _ ← run_ (set_device_token (d_id device) token);
          _ ← bump (n_id net);
          mret (device, token)
    end.

Definition enroll_once (invite_code name key : string) (now : Z) : sql (Device * string) :=
  result ← transaction (_ ← begin; enroll_body invite_code name key now);
  _ ← notify (d_network_id result.1);
  mret result.

Definition enroll (invite_code name wg_public_key : string) (now : Z) : sql (Device * string) :=
  key ← lift (ok_or (normalize wg_public_key) InvalidKey);
  retry true (enroll_once invite_code name key now).

Definition device_token (device_id : string) : sql (option string) := query (get_device_token device_id).

(** [WHERE auth_token = $1 AND status = 'active']. *)
Definition holds_token (token : string) (r : DeviceRow) : bool :=
  is_active r && bool_decide (w_auth_token r = Some token).
Definition has_device_token (token : string) : sql bool :=
  query (fun d => existsb (holds_token token) (select (t_device d))).
Definition token_network (token : string) : sql (option string) :=
  query (fun d => list_find (fun r => holds_token token r && in_live_network d r = true) (select (t_device d))
                  ≫= fun x => Some (w_network_id x.2)).

(** ** Import *)

Definition import_one (network_id : string) (dk : ImportDevice * string) (acc : gset string * list Device * list string)
    : sql (gset string * list Device * list string) :=
  let '(d, key) := dk in
  let '(seen, created, skipped) := acc in
  if bool_decide (key ∈ seen) then mret (seen, created, skipped ++ [key])
  else
    id ← next;
    let device := mkDevice (format_id "dev-" id) network_id (m_name d) key (m_address_v4 d) (m_address_v6 d) Active in
    _ ← execute (insert_device device);
    _ ← run_ (set_device_endpoints (d_id device) (m_endpoints d));
    mret ({[key]} ∪ seen, created ++ [device], skipped).

Fixpoint import_loop (network_id : string) (l : list (ImportDevice * string)) (acc : gset string * list Device * list string)
    : sql (gset string * list Device * list string) :=
  match l with
  | [] => mret acc
  | dk :: l => acc ← import_one network_id dk acc; import_loop network_id l acc
  end.

Definition import_once (network_id : string) (devices : list ImportDevice) (keys : list string) : sql ImportResult :=
  result ← transaction (
    _ ← begin;
    net ← query (get_network network_id);
    match net with
    | None => lift (Err NetworkNotFound)
    | Some _ =>
        known ← query (list_devices network_id);
        let seen : gset string := list_to_set (d_wg_public_key <$> List.filter (fun d => bool_decide (d_status d = Active)) known) in
        '(_, created, skipped) ← import_loop network_id (zip devices keys) (seen, [], []);
        _ ← (match created with [] => mret tt | _ => bump network_id end);
        mret (mkImportResult created skipped)
    end);
  _ ← notify network_id;
  mret result.

(** The fixed address in its canonical text. *)
Definition canonical_import (d : ImportDevice) : option ImportDevice :=
  match m_address_v4 d with
  | None => Some d
  | Some a => ip ← parse_v4 (chars a);
      Some (mkImport (m_name d) (m_wg_public_key d) (Some (text (fmt_v4 ip))) (m_address_v6 d) (m_endpoints d))
  end.

Definition import_devices (network_id : string) (devices : list ImportDevice) : sql ImportResult :=
  devices ← lift (ok_or (mapM canonical_import devices) InvalidAddress);
  keys ← lift (ok_or (mapM (fun d => normalize (m_wg_public_key d)) devices) InvalidKey);
  retry true (import_once network_id devices keys).

(** ** Devices *)

Definition list_network_devices (network_id : string) : sql (list Device) :=
  net ← query (get_network network_id);
  match net with
  | None => lift (Err NetworkNotFound)
  | Some _ => query (list_devices network_id)
  end.

Definition resolve (network_id name : string) : sql Device :=
  devices ← list_network_devices network_id;
  lift (ok_or (list_find (fun d => d_name d = name ∧ d_status d = Active) devices ≫= fun x => Some x.2) DeviceNotFound).

Definition revoke_device_once (device_id : string) : sql unit :=
  network_id ← transaction (
    _ ← begin;
    device ← query (get_device device_id);
    device ← lift (ok_or device DeviceNotFound);
    _ ← run_ (update_device revoked_row device_id);
    _ ← bump (d_network_id device);
    mret (d_network_id device));
  notify network_id.
Definition revoke_device (device_id : string) : sql unit := retry true (revoke_device_once device_id).

Definition rename_device (device_id name : string) : sql Device :=
  device ← query (get_device device_id);
  device ← lift (ok_or device DeviceNotFound);
  _ ← run_ (set_device_name device_id name);
  mret (mkDevice (d_id device) (d_network_id device) name (d_wg_public_key device) (d_address_v4 device)
          (d_address_v6 device) (d_status device)).

Definition device_settings (device_id : string) : sql string :=
  device ← query (get_device device_id);
  match device with None => lift (Err DeviceNotFound) | Some _ => query (get_device_settings device_id) end.

Definition store_device_settings (device_id json : string) : sql unit :=
  dev ← query (get_device device_id);
  dev ← lift (ok_or dev DeviceNotFound);
  _ ← run_ (set_device_settings device_id json);
  bump_and_notify (d_network_id dev).

(** [lock_active_device]: a write that changes nothing, of an active device in a live network. *)
Definition lock_active_device (device_id : string) : sql unit :=
  locked ← execute (fun d => Ok (d, match t_device d !! device_id with
                                     | Some r => if is_active r && in_live_network d r then 1 else 0
                                     | None => 0
                                     end));
  if locked =? 1 then mret tt else lift (Err DeviceNotFound).

Definition report_stats_once (device_id : string) (rx tx : Z) (peers : string) (at_ : Z) : sql unit :=
  transaction (
    _ ← pool_begin;
    _ ← lock_active_device device_id;
    run_ (upsert_device_stats device_id rx tx peers at_)).
Definition report_stats (device_id : string) (rx tx : Z) (peers : string) (at_ : Z) : sql unit :=
  retry false (report_stats_once device_id rx tx peers at_).

Definition set_endpoints_once (device_id : string) (l : list string) : sql unit :=
  network_id ← transaction (
    _ ← pool_begin;
    _ ← lock_active_device device_id;
    device ← query (get_device device_id);
    device ← lift (ok_or device DeviceNotFound);
    _ ← run_ (set_device_endpoints device_id l);
    _ ← bump (d_network_id device);
    mret (d_network_id device));
  notify network_id.
Definition set_endpoints (device_id : string) (l : list string) : sql unit := retry false (set_endpoints_once device_id l).

(** ** Routes *)

Definition advertise_route_once (device_id prefix : string) : sql Route :=
  transaction (
    _ ← begin;
    dev ← query (get_device device_id);
    dev ← lift (ok_or dev DeviceNotFound);
    active ← (if bool_decide (d_status dev = Active) then
                net ← query (get_network (d_network_id dev)); mret (match net with Some _ => true | None => false end)
              else mret false);
    if negb active then lift (Err DeviceNotFound)
    else
      id ← next;
      prefix ← lift (ok_or (normalize_prefix prefix) InvalidPrefix);
      let route := mkRoute (format_id "route-" id) (d_network_id dev) device_id prefix false in
      _ ← execute (insert_route route);
      mret route).
Definition advertise_route (device_id prefix : string) : sql Route := retry false (advertise_route_once device_id prefix).

Definition list_device_routes (device_id : string) : sql (list Route) := query (list_routes_for_device device_id).

Definition approve_route (route_id : string) : sql unit :=
  r ← query (get_route route_id);
  r ← lift (ok_or r RouteNotFound);
  _ ← run_ (set_route_approved route_id true);
  bump_and_notify (r_network_id r).

Definition delete_route (route_id : string) : sql unit :=
  r ← query (get_route route_id);
  r ← lift (ok_or r RouteNotFound);
  _ ← run_ (delete_route_row route_id);
  if r_approved r then bump_and_notify (r_network_id r) else mret tt.

(** [(&a.prefix, &a.id).cmp(&(&b.prefix, &b.id))]. *)
Definition route_order (a b : Route) : comparison :=
  match String.compare (r_prefix a) (r_prefix b) with Eq => String.compare (r_id a) (r_id b) | c => c end.

Definition token_known (token : string) (d : Db) : bool :=
  existsb (fun r => holds_token token r && in_live_network d r) (select (t_device d)).

Definition has_route (prefix : string) (l : list Route) : bool := existsb (fun r => bool_decide (r_prefix r = prefix)) l.

Definition device_route_change_once (device_id token prefix : string) (withdraw : bool) : sql (list Route) :=
  transaction (
    _ ← begin;
    stored ← query (get_device_token device_id);
    if bool_decide (token = ""%string) || negb (bool_decide (stored = Some token)) then
      known ← query (token_known token);
      lift (Err (if negb (bool_decide (token = ""%string)) && known then DeviceForbidden else DeviceUnauthorized))
    else
      prefix ← lift (ok_or (normalize_prefix prefix) InvalidPrefix);
      _ ← run_ (fun d => d);
      routes ← query (list_routes_for_device device_id);
      _ ← (if withdraw then
             if existsb (fun r => bool_decide (r_prefix r = prefix) && r_approved r) routes then lift (Err RouteApproved)
             else run_ (fun d => with_route (filter (fun x =>
                    ¬ (r_device_id x.2 = device_id ∧ r_prefix x.2 = prefix ∧ r_approved x.2 = false)) (t_route d)) d)
           else if has_route prefix routes then mret tt
           else
             dev ← query (get_device device_id);
             dev ← lift (ok_or dev DeviceNotFound);
             id ← next;
             _ ← execute (insert_route (mkRoute (format_id "route-" id) (d_network_id dev) device_id prefix false));
             mret tt);
      routes ← query (list_routes_for_device device_id);
      mret (sort_by route_order routes)).
Definition device_route_change (device_id token prefix : string) (withdraw : bool) : sql (list Route) :=
  retry false (device_route_change_once device_id token prefix withdraw).

(** ** Configuration *)

Definition is_exit (approved : list (string * string)) (device_id : string) : bool :=
  existsb (fun '(did, prefix) => bool_decide (did = device_id) && is_default_prefix prefix) approved.

(** [serde_json::from_str(..).unwrap_or_default()]. *)
Definition settings_json (raw : string) : Json := default JNull (json_parse raw).

(** The endpoint an administrator has set for a peer. *)
Definition endpoint_override (settings : Json) : option string :=
  ep ← as_str (jget "endpoint" settings); if bool_decide (ep = ""%string) then None else Some ep.

Definition own_ips (d : Device) : list string :=
  match d_address_v4 d with Some v4 => [(v4 ++ "/32")%string] | None => [] end
  ++ match d_address_v6 d with Some v6 => [(v6 ++ "/128")%string] | None => [] end.

Definition peer_entry (approved : list (string * string)) (d : Device) : sql PeerConfig :=
  endpoints ← query (get_device_endpoints (d_id d));
  raw ← query (get_device_settings (d_id d));
  let endpoints := match endpoint_override (settings_json raw) with Some ep => ep :: endpoints | None => endpoints end in
  mret (mkPeerConfig (d_wg_public_key d)
    (own_ips d ++ omap (fun '(did, prefix) => if bool_decide (did = d_id d) then Some prefix else None) approved)
    endpoints (is_exit approved (d_id d))).

Definition device_config (device_id : string) : sql DeviceConfig :=
  me ← query (get_device device_id);
  me ← lift (ok_or me DeviceNotFound);
  if negb (bool_decide (d_status me = Active)) then lift (Err DeviceNotFound)
  else
    net ← query (get_network (d_network_id me));
    net ← lift (ok_or net NetworkNotFound);
    approved ← query (approved_routes_for_network (d_network_id me));
    raw ← query (get_device_settings device_id);
    let '(mtu, dns) := parse_settings (settings_json raw) in
    devices ← query (list_devices (d_network_id me));
    peers ← mapM (peer_entry approved)
      (List.filter (fun d => bool_decide (d_id d ≠ d_id me) && bool_decide (d_status d = Active)) devices);
    relays ← query (list_relays (d_network_id me));
    mret (mkDeviceConfig [n_ipv4_pool net; n_ipv6_ula net] (d_network_id me) (n_config_epoch net)
      (d_address_v4 me) (d_address_v6 me) peers relays mtu dns (is_exit approved (d_id me))).

(** ** Relays *)

Definition in_scope (scope : option string) (network_id : string) : bool :=
  match scope with None => true | Some x => bool_decide (x = network_id) end.

Fixpoint bump_all (ids : list string) : sql unit :=
  match ids with [] => mret tt | id :: ids => _ ← bump id; bump_all ids end.
Fixpoint notify_all (ids : list string) : sql unit :=
  match ids with [] => mret tt | id :: ids => _ ← notify id; notify_all ids end.

(** A relay of one network needs that network. *)
Definition check_scope (scope : option string) : sql unit :=
  match scope with
  | None => mret tt
  | Some id => net ← query (get_network id); match net with None => lift (Err NetworkNotFound) | Some _ => mret tt end
  end.

Definition register_relay_once (region url : string) (network_id : option string) (anytls : bool)
    (stun_url : option string) (identity : option string * option string) : sql RelayNode :=
  let '(node_id, public_key) := identity in
  '(relay, networks) ← transaction (
    _ ← begin;
    _ ← check_scope network_id;
    id ← next;
    let relay := mkRelay (format_id "relay-" id) region url network_id anytls
      (match stun_url with Some x => Some x | None => Some url end) node_id public_key in
    _ ← execute (insert_relay relay);
    networks ← query (fun d => List.filter (in_scope (l_network_id relay)) (n_id <$> select (t_network d)));
    _ ← bump_all networks;
    mret (relay, networks));
  _ ← notify_all networks;
  mret relay.
Definition register_relay_authenticated (region url : string) (network_id : option string) (anytls : bool)
    (stun_url : option string) (identity : option string * option string) : sql RelayNode :=
  retry false (register_relay_once region url network_id anytls stun_url identity).
Definition register_relay (region url : string) (network_id : option string) (anytls : bool) (stun_url node_id : option string)
    : sql RelayNode := register_relay_authenticated region url network_id anytls stun_url (node_id, None).

Definition update_relay_once (relay : RelayNode) : sql RelayNode :=
  networks ← transaction (
    _ ← begin;
    _ ← check_scope (l_network_id relay);
    old ← query (fun d => t_relay d !! l_id relay);
    old ← lift (ok_or old RelayNotFound);
    _ ← run_ (fun d => with_relay (<[l_id relay := relay]> (t_relay d)) d);
    networks ← query (fun d => List.filter (fun id => in_scope (l_network_id old) id || in_scope (l_network_id relay) id)
                                 (n_id <$> select (t_network d)));
    _ ← bump_all networks;
    mret networks);
  _ ← notify_all networks;
  mret relay.
Definition update_relay (relay : RelayNode) : sql RelayNode := retry false (update_relay_once relay).

(** ** Requests *)

Inductive request :=
| CreateNetwork (name : string)
| DeleteNetwork (id : string)
| CreateInvite (network_id : string) (expires_at max_uses : option Z)
| RevokeInvite (network_id code : string)
| Enroll (code name key : string) (now : Z)
| Import (network_id : string) (devices : list ImportDevice)
| RevokeDevice (id : string)
| RenameDevice (id name : string)
| StoreSettings (id json : string)
| ReportStats (id : string) (rx tx : Z) (peers : string) (at_ : Z)
| SetEndpoints (id : string) (l : list string)
| AdvertiseRoute (id prefix : string)
| ApproveRoute (id : string)
| DeleteRoute (id : string)
| DeviceRoute (id token prefix : string) (withdraw : bool)
| RegisterRelay (region url : string) (network_id : option string) (anytls : bool) (stun_url : option string)
    (identity : option string * option string)
| UpdateRelay (relay : RelayNode).

(** The operation of a request, without its result. *)
Definition op_of (q : request) : sql unit :=
  match q with
  | CreateNetwork name => _ ← create_network name; mret tt
  | DeleteNetwork id => delete_network id
  | CreateInvite n e m => _ ← create_invite n e m; mret tt
  | RevokeInvite n code => revoke_invite n code
  | Enroll code name key now => _ ← enroll code name key now; mret tt
  | Import n devices => _ ← import_devices n devices; mret tt
  | RevokeDevice id => revoke_device id
  | RenameDevice id name => _ ← rename_device id name; mret tt
  | StoreSettings id json => store_device_settings id json
  | ReportStats id rx tx peers at_ => report_stats id rx tx peers at_
  | SetEndpoints id l => set_endpoints id l
  | AdvertiseRoute id prefix => _ ← advertise_route id prefix; mret tt
  | ApproveRoute id => approve_route id
  | DeleteRoute id => delete_route id
  | DeviceRoute id token prefix withdraw => _ ← device_route_change id token prefix withdraw; mret tt
  | RegisterRelay region url n anytls stun identity =>
      _ ← register_relay_authenticated region url n anytls stun identity; mret tt
  | UpdateRelay relay => _ ← update_relay relay; mret tt
  end.

Definition exec (q : request) s : SqlStore W := (op_of q s).2.
Definition run (qs : list request) s : SqlStore W := foldl (fun s q => exec q s) s qs.
End Store.
