(* ===== verification/SqlInv.v ===== *)
(** * Integrity of the control plane's database

    An invariant of the tables and that every statement the store sends keeps it, so that it
    survives any failure between two statements. *)

From Stdlib Require Import Strings.Ascii Strings.String.
From S2P Require Import Prelude.
From S2P Require Import Words.
From S2P Require Import NetText.
From S2P Require Import Prefix.
From S2P Require Import Ipam.
From S2P Require Import RouteTable.
From S2P Require Import Domain.
From S2P Require Import NodeConfig.
From S2P Require Import SqlDb.
From S2P Require Import SqlControl.

(** ** Computations that keep a relation *)

Section Keeps.
Context {W : Type} `{!Database}.
Abbreviation sql A := (st (SqlStore W) SqlStoreError A).

(** From a database with [P], [m] ends without a panic in a database related by [R]. *)
Definition keeps {A} (P : Db → Prop) (R : relation Db) (m : sql A) : Prop :=
  ∀ s r s', P (db s) → m s = (r, s') → R (db s) (db s') ∧ r ≠ Panic.

(** [R] carries [P] along. *)
Definition stable (P : Db → Prop) (R : relation Db) : Prop := ∀ d d', R d d' → P d → P d'.

Context (P : Db → Prop) (R : relation Db) `{!PreOrder R}.

Lemma keeps_ret {A} (a : A) : keeps P R (mret a).
Proof. intros s r s' Hp [= <- <-]. by split. Qed.

Lemma keeps_lift {A} (m : res SqlStoreError A) : m ≠ Panic → keeps P R (lift m).
Proof. intros Hm s r s' Hp [= <- <-]. by split. Qed.

Lemma keeps_get : keeps P R get.
Proof. intros s r s' Hp [= <- <-]. by split. Qed.

Lemma keeps_modify (f : SqlStore W → SqlStore W) : (∀ s, db (f s) = db s) → keeps P R (modify f).
Proof. intros Hf s r s' Hp [= <- <-]. by rewrite Hf. Qed.

Lemma keeps_random n : keeps P R (random n).
Proof. intros s r s' Hp [= <- <-]. by split. Qed.

Lemma keeps_bind {A B} (m : sql A) (f : A → sql B) :
  stable P R → keeps P R m → (∀ a, keeps P R (f a)) → keeps P R (m ≫= f).
Proof.
  intros Hst Hm Hf s r s' Hp. unfold mbind, st_bind. destruct (m s) as [x s1] eqn:Hx.
  destruct (Hm s x s1 Hp Hx) as [Hr1 Hn]. destruct x as [a|e|]; [|intros [= <- <-]; done..].
  intros Heq. destruct (Hf a s1 r s') as [Hr2 Hn2]; [by eapply Hst|done|]. split; [by etrans|done].
Qed.

(** What the first part establishes holds for the rest. *)
Lemma keeps_bind_post {A B} (Q : A → Db → Prop) (m : sql A) (f : A → sql B) :
  keeps P R m → (∀ s a s', P (db s) → m s = (Ok a, s') → Q a (db s')) → (∀ a, keeps (Q a) R (f a)) → keeps P R (m ≫= f).
Proof.
  intros Hm HQ Hf s r s' Hp. unfold mbind, st_bind. destruct (m s) as [x s1] eqn:Hx.
  destruct (Hm s x s1 Hp Hx) as [Hr1 Hn]. destruct x as [a|e|]; [|intros [= <- <-]; done..].
  intros Heq. destruct (Hf a s1 r s') as [Hr2 Hn2]; [by eapply HQ|done|]. split; [by etrans|done].
Qed.

(** What a statement returns can be used afterwards. *)
Lemma keeps_query {A B} (f : Db → A) (k : A → sql B) :
  (∀ a, keeps (fun d => P d ∧ f d = a) R (k a)) → keeps P R (query f ≫= k).
Proof.
  intros Hk s r s' Hp. unfold mbind, st_bind, query. destruct (answer (ticks s)); [|intros [= <- <-]; done..].
  intros Heq. by apply (Hk (f (db s)) (tick s) r s').
Qed.

Lemma keeps_query_any {A} (f : Db → A) : keeps P R (query f).
Proof. intros s r s' Hp. unfold query. destruct (answer (ticks s)); by intros [= <- <-]. Qed.

Lemma keeps_execute {A} (f : Db → res DbError (Db * A)) :
  (∀ d, P d → f d ≠ Panic) → (∀ d d' a, P d → f d = Ok (d', a) → R d d') → keeps P R (execute f).
Proof.
  intros Hn Hf s r s' Hp. unfold execute. specialize (Hn (db s) Hp).
  destruct (f (db s)) as [[d a]|e|] eqn:Hd, (answer (ticks s)); intros [= <- <-]; try done; cbn; split; try done; eauto.
Qed.

Lemma keeps_run (f : Db → Db) : (∀ d, P d → R d (f d)) → keeps P R (run_ f).
Proof. intros Hf. apply keeps_execute; [done|]. intros d d' [] Hp [= <-]. by apply Hf. Qed.

(** What holds after a statement. *)
Lemma keeps_execute_bind {A B} (f : Db → res DbError (Db * A)) (k : A → sql B) :
  (∀ d, P d → f d ≠ Panic) → (∀ d d' a, P d → f d = Ok (d', a) → R d d') →
  (∀ a, keeps (fun d' => ∃ d, P d ∧ f d = Ok (d', a)) R (k a)) → keeps P R (execute f ≫= k).
Proof.
  intros Hn Hf Hk s r s' Hp. unfold mbind, st_bind, execute. specialize (Hn (db s) Hp).
  destruct (f (db s)) as [[d a]|e|] eqn:Hd, (answer (ticks s)); try (intros [= <- <-]; cbn; eauto; done).
  specialize (Hf _ _ _ Hp Hd). intros Heq. destruct (Hk a (set_db d (tick s)) r s') as [Hr Hr2]; [cbn; eauto|done|].
  split; [|done]. etrans; [exact Hf|exact Hr].
Qed.

Lemma keeps_run_bind {B} (f : Db → Db) (k : unit → sql B) :
  (∀ d, P d → R d (f d)) → keeps (fun d' => ∃ d, P d ∧ d' = f d) R (k tt) → keeps P R (run_ f ≫= k).
Proof.
  intros Hf Hk. apply keeps_execute_bind; [done|intros d d' [] Hp [= <-]; by apply Hf|]. intros [] s r s' (d & Hd & [= Hs]).
  apply Hk. eauto.
Qed.

Lemma keeps_lift_bind {A B} (m : res SqlStoreError A) (k : A → sql B) :
  m ≠ Panic → (∀ a, m = Ok a → keeps P R (k a)) → keeps P R (lift m ≫= k).
Proof. intros Hm Hk. destruct m as [a|e|]; [by apply Hk|intros s r s' Hp [= <- <-]; by split|done]. Qed.

Lemma keeps_random_bind {B} n (k : string → sql B) : (∀ a, keeps P R (k a)) → keeps P R (random n ≫= k).
Proof. intros Hk s r s' Hp Heq. by apply (Hk (random_hex (ticks s) n) (tick s) r s'). Qed.

Lemma keeps_transaction {A} (m : sql A) : keeps P R m → keeps P R (transaction m).
Proof.
  intros Hm s r s' Hp. unfold transaction. destruct (m s) as [x s1] eqn:Hx.
  destruct (Hm s x s1 Hp Hx) as [Hr Hn]. destruct x as [a|e|]; [|by intros [= <- <-]|done].
  destruct (answer (ticks s1)); by intros [= <- <-].
Qed.

Lemma keeps_retry {A} legacy (m : sql A) : stable P R → keeps P R m → keeps P R (retry legacy m).
Proof.
  intros Hst Hm. unfold retry.
  assert (∀ fuel attempt, 8 ≤ Z.of_nat fuel + attempt → attempt ≤ 7 → keeps P R (retry_loop fuel attempt legacy m)) as Hloop;
    [|apply Hloop; lia].
  induction fuel as [|fuel IH]; intros attempt Hf Ha s r s' Hp; cbn [retry_loop]; [lia|].
  destruct (m s) as [x s1] eqn:Hx. destruct (Hm s x s1 Hp Hx) as [Hr1 Hn].
  assert (∀ r s', attempt < 7 → retry_loop fuel (attempt + 1) legacy m s1 = (r, s') → R (db s) (db s') ∧ r ≠ Panic) as Hrec.
  { intros r2 s2 Hlt Heq. destruct (IH (attempt + 1) ltac:(lia) ltac:(lia) s1 r2 s2) as [Hr2 Hn2];
      [by eapply Hst|done|]. split; [by etrans|done]. }
  destruct x as [a|[] |]; try (intros [= <- <-]; done).
  destruct (sqlite_busy e).
  - destruct (Z.leb_spec 2 attempt); [intros [= <- <-]; done|]. apply Hrec. lia.
  - destruct (legacy && retryable e && (attempt <? 7)) eqn:Hb; [|intros [= <- <-]; done].
    apply andb_true_iff in Hb as [_ Hlt%Z.ltb_lt]. by apply Hrec.
Qed.
End Keeps.

(** A stronger precondition, a weaker relation. *)
Lemma keeps_mono {W : Type} `{!Database} {A} (P P' : Db → Prop) (R : relation Db) (m : st (SqlStore W) SqlStoreError A) :
  (∀ d, P' d → P d) → keeps P R m → keeps P' R m.
Proof. intros Hp Hm s r s' Hs. apply Hm. by apply Hp. Qed.

(** ** The invariant *)

Definition revoked (r : DeviceRow) : Prop :=
  w_status r = "revoked"%string ∧ w_address_v4 r = None ∧ w_address_v6 r = None ∧ w_auth_token r = None.

(** Canonical text of an IPv4 address. *)
Definition v4_text (a : string) : Prop := ∃ ip, fits 32 ip ∧ a = text (fmt_v4 ip).

Section Ok.
Context `{!KeyCodec}.

(** A row is an active device with canonical key and address, or a tombstone without
    credential and address. *)
Definition row_ok (r : DeviceRow) : Prop :=
  (w_status r = "active"%string ∧ normalize (w_wg_public_key r) = Some (w_wg_public_key r) ∧
   ∀ a, w_address_v4 r = Some a → v4_text a) ∨ revoked r.

(** The number of an identifier is not beyond the sequence. *)
Definition id_prefixes : list string := ["net-"; "dev-"; "relay-"; "route-"]%string.
Definition id_ok (v : Z) (id : string) : Prop := ∀ p n, p ∈ id_prefixes → fits 63 n → id = format_id p n → n ≤ v.

Definition invite_ok (i : Invite) : Prop :=
  0 ≤ i_uses i ∧ ∀ m, i_max_uses i = Some m → i_uses i ≤ Z.max 0 m.

Record db_ok (d : Db) : Prop := {
  ok_sequence : ∃ v, t_sequence d = Some v ∧ fits 63 v ∧
    (∀ id, is_Some (t_network d !! id) → id_ok v id) ∧ (∀ id, is_Some (t_device d !! id) → id_ok v id) ∧
    (∀ id, is_Some (t_relay d !! id) → id_ok v id) ∧ (∀ id, is_Some (t_route d !! id) → id_ok v id);
  ok_network : ∀ id n, t_network d !! id = Some n → n_id n = id ∧ fits 63 (n_config_epoch n);
  ok_route : ∀ id r, t_route d !! id = Some r → r_id r = id;
  ok_relay : ∀ id r, t_relay d !! id = Some r → l_id r = id;
  ok_invite : ∀ code i, t_invite d !! code = Some i → i_code i = code ∧ invite_ok i;
  ok_device : ∀ id r, t_device d !! id = Some r → w_id r = id ∧ row_ok r;
  ok_key : ∀ id id' r r', t_device d !! id = Some r → t_device d !! id' = Some r' →
    same_network_key r r' = true → id = id';
  ok_v4 : ∀ id id' r r', t_device d !! id = Some r → t_device d !! id' = Some r' →
    same_network_v4 r r' = true → id = id'
}.

Definition reached (n : Z) (d : Db) : Prop := ∃ v, t_sequence d = Some v ∧ n ≤ v.

(** A change of rows that keeps their keys, addresses and status, or revokes them. *)
Definition row_kept (r r' : DeviceRow) : Prop :=
  w_id r' = w_id r ∧ w_network_id r' = w_network_id r ∧ w_wg_public_key r' = w_wg_public_key r ∧
  (w_status r' = w_status r ∧ w_address_v4 r' = w_address_v4 r ∧ w_address_v6 r' = w_address_v6 r ∧
   (is_active r = true ∨ w_auth_token r' = w_auth_token r) ∨ revoked r').

Lemma revoked_kept r r' : revoked r → row_kept r r' → revoked r'.
Proof.
  intros (Hs & H4 & H6 & Ht) (_ & _ & _ & [(Hs' & H4' & H6' & Ht')|?]); [|done]. unfold revoked. rewrite Hs', H4', H6'. split_and!; try done.
  destruct Ht' as [Ht'| ->]; [|done]. unfold is_active in Ht'. rewrite Hs in Ht'. by apply bool_decide_eq_true in Ht'.
Qed.

(** No row is lost. *)
Definition rows_kept (d d' : Db) : Prop :=
  ∀ id r, t_device d !! id = Some r → ∃ r', t_device d' !! id = Some r' ∧ row_kept r r'.

Lemma row_kept_refl r : row_kept r r.
Proof. unfold row_kept. naive_solver. Qed.

Lemma row_kept_trans a b c : row_kept a b → row_kept b c → row_kept a c.
Proof.
  unfold row_kept. intros (H1 & H2 & H3 & H4) (H5 & H6 & H7 & H8). split_and!; [congruence..|].
  destruct H8 as [(Hs & Ha4 & Ha6 & Ht)|Hr]; [|by right].
  destruct H4 as [(Hs' & Ha4' & Ha6' & Ht')|Hr].
  - left. split_and!; [congruence..|]. unfold is_active in *. rewrite Hs' in Ht.
    destruct Ht' as [Ht'|Ht']; [by left|]. destruct Ht as [Ht|Ht]; [by left|]. right. congruence.
  - right. destruct Hr as (Hr1 & Hr2 & Hr3 & Hr4). unfold revoked. rewrite Hs, Ha4, Ha6. split_and!; try done.
    destruct Ht as [Ht| ->]; [|done]. unfold is_active in Ht. rewrite Hr1 in Ht. by apply bool_decide_eq_true in Ht.
Qed.

(** What statements do: the invariant stays, the sequence does not fall, no row is lost. *)
Definition sound : relation Db := fun d d' =>
  (db_ok d → db_ok d') ∧ (∀ n, reached n d → reached n d') ∧ rows_kept d d'.

#[export] Instance sound_preorder : PreOrder sound.
Proof.
  split; [intros d; split_and!; [done|done|]; intros id r Hr; eauto using row_kept_refl|].
  intros a b c (H1 & H2 & H3) (H4 & H5 & H6). split_and!; [auto..|].
  intros id r (r1 & Hr1 & Hk1)%H3. destruct (H6 id r1 Hr1) as (r2 & Hr2 & Hk2). eauto using row_kept_trans.
Qed.

(** Statements that leave devices and sequence alone. *)
Lemma sound_intro d d' : (db_ok d → db_ok d') → t_sequence d' = t_sequence d → t_device d' = t_device d → sound d d'.
Proof.
  intros Hok Hs Hd. split_and!; [done|by unfold reached; rewrite Hs|]. unfold rows_kept. rewrite Hd. eauto using row_kept_refl.
Qed.

Lemma stable_reached n : stable (reached n) sound.
Proof. intros d d' (_ & Hr & _). apply Hr. Qed.

(** ** Statements *)

Lemma with_stats_sound m d : sound d (with_stats m d).
Proof. apply sound_intro; [|done|done]. intros []. by constructor. Qed.
Lemma with_admin_sound m d : sound d (with_admin m d).
Proof. apply sound_intro; [|done|done]. intros []. by constructor. Qed.
Lemma with_audit_sound m d : sound d (with_audit m d).
Proof. apply sound_intro; [|done|done]. intros []. by constructor. Qed.

(** Fewer rows. *)
Lemma drop_invite_sound m d : m ⊆ t_invite d → sound d (with_invite m d).
Proof. intros Hm. apply sound_intro; [|done|done]. intros []. constructor; try done. cbn. intros c i Hi. by eapply ok_invite0, lookup_weaken. Qed.

Lemma drop_route_sound m d : m ⊆ t_route d → sound d (with_route m d).
Proof.
  intros Hm. apply sound_intro; [|done|done]. intros [(v & Hv & Hf & Hn & Hd & Hl & Hr)]. constructor; try done; cbn.
  - exists v. split_and!; try done. intros id [r Hid]. apply Hr. eexists. by eapply lookup_weaken.
  - intros id r Hid. by eapply ok_route0, lookup_weaken.
Qed.

Lemma drop_relay_sound m d : m ⊆ t_relay d → sound d (with_relay m d).
Proof.
  intros Hm. apply sound_intro; [|done|done]. intros [(v & Hv & Hf & Hn & Hd & Hl & Hr)]. constructor; try done; cbn.
  - exists v. split_and!; try done. intros id [r Hid]. apply Hl. eexists. by eapply lookup_weaken.
  - intros id r Hid. by eapply ok_relay0, lookup_weaken.
Qed.

Lemma drop_network_sound m d : m ⊆ t_network d → sound d (with_network m d).
Proof.
  intros Hm. apply sound_intro; [|done|done]. intros [(v & Hv & Hf & Hn & Hd & Hl & Hr)]. constructor; try done; cbn.
  - exists v. split_and!; try done. intros id [r Hid]. apply Hn. eexists. by eapply lookup_weaken.
  - intros id r Hid. by eapply ok_network0, lookup_weaken.
Qed.

Lemma row_kept_ok r r' : row_kept r r' → row_ok r → row_ok r'.
Proof.
  intros (_ & _ & Hk & [(Hs & H4 & H6 & Ht)|Hr]) Hok; [|by right].
  destruct Hok as [(Ha & Hn & Hv)|(Hst & ? & ? & Hto)]; [left; by rewrite Hs, Hk, H4|].
  right. unfold revoked. rewrite Hs, H4, H6. split_and!; try done.
  destruct Ht as [Ht| ->]; [|done]. unfold is_active in Ht. rewrite Hst in Ht. by apply bool_decide_eq_true in Ht.
Qed.

Lemma row_kept_active r r' : row_kept r r' → is_active r' = true →
  is_active r = true ∧ w_network_id r' = w_network_id r ∧ w_wg_public_key r' = w_wg_public_key r ∧ w_address_v4 r' = w_address_v4 r.
Proof.
  intros (_ & Hn & Hk & [(Hs & H4 & _)|(Hs & _)]); unfold is_active; rewrite Hs; [intros Ha; by split_and!|].
  by intros ?%bool_decide_eq_true.
Qed.

Lemma update_rows_sound m d :
  (∀ id, option_Forall2 row_kept (t_device d !! id) (m !! id)) → sound d (with_device m d).
Proof.
  intros Hrel. assert (∀ id r', m !! id = Some r' → ∃ r, t_device d !! id = Some r ∧ row_kept r r') as Hm.
  { intros id r' Hr'. specialize (Hrel id). rewrite Hr' in Hrel. inversion Hrel; subst. eauto. }
  split_and!; [|done|intros id r Hr; specialize (Hrel id); rewrite Hr in Hrel; inversion Hrel; subst; cbn; eauto].
  intros [(v & Hv & Hf & Hn & Hd & Hl & Hr)]. constructor; try done; cbn.
  - exists v. split_and!; try done. intros id [r' (r & Hid & _)%Hm]. by apply Hd.
  - intros id r' (r & Hid & Hk)%Hm. destruct (ok_device0 id r Hid) as [<- Hok]. split; [apply Hk|]. by eapply row_kept_ok.
  - intros id id' r' q' (r & Hid & Hr')%Hm (q & Hid' & Hq')%Hm. unfold same_network_key. intros Hs.
    apply andb_true_iff in Hs as [Hs Hs4]. apply andb_true_iff in Hs as [Hs Hs3]. apply andb_true_iff in Hs as [Hs1 Hs2].
    destruct (row_kept_active r r' Hr' Hs1) as (Ha & Hb & Hc & _), (row_kept_active q q' Hq' Hs2) as (Ha' & Hb' & Hc' & _).
    apply (ok_key0 id id' r q Hid Hid'). unfold same_network_key. by rewrite Ha, Ha', <-Hb, <-Hb', <-Hc, <-Hc', Hs3, Hs4.
  - intros id id' r' q' (r & Hid & Hr')%Hm (q & Hid' & Hq')%Hm. unfold same_network_v4. intros Hs.
    apply andb_true_iff in Hs as [Hs Hs4]. apply andb_true_iff in Hs as [Hs Hs3]. apply andb_true_iff in Hs as [Hs1 Hs2].
    destruct (row_kept_active r r' Hr' Hs1) as (Ha & Hb & _ & Hc), (row_kept_active q q' Hq' Hs2) as (Ha' & Hb' & _ & Hc').
    apply (ok_v5 id id' r q Hid Hid'). unfold same_network_v4. by rewrite Ha, Ha', <-Hb, <-Hb', <-Hc, <-Hc', Hs3.
Qed.

Lemma update_device_sound f id d :
  (∀ r, t_device d !! id = Some r → row_kept r (f r)) → sound d (update_device f id d).
Proof.
  intros Hf. apply update_rows_sound. intros id'. destruct (decide (id = id')) as [<-|Hne].
  - rewrite lookup_alter_eq. destruct (t_device d !! id) as [r|] eqn:Hr; constructor. by apply Hf.
  - rewrite lookup_alter_ne by done. destruct (t_device d !! id'); constructor. apply row_kept_refl.
Qed.

(** ** Insertions *)

Lemma sql_id_inj p q a b :
  p ∈ id_prefixes → q ∈ id_prefixes → fits 63 a → fits 63 b → format_id p a = format_id q b → a = b.
Proof.
  unfold format_id. intros Hp Hq Ha Hb.
  assert (text (fmt_dec a) = text (fmt_dec b) → a = b) as Hinj.
  { intros E. apply fmt_dec_inj; [unfold fits in *; lia..|]. by apply text_inj. }
  revert Hinj. generalize (text (fmt_dec a)), (text (fmt_dec b)). intros x y Hinj.
  unfold id_prefixes in *. rewrite !elem_of_cons, elem_of_nil in Hp, Hq.
  destruct Hp as [->|[->|[->|[->|[]]]]], Hq as [->|[->|[->|[->|[]]]]]; cbn; intros E; try discriminate E;
    injection E as E; by apply Hinj.
Qed.

Lemma issued_ok p n v : p ∈ id_prefixes → fits 63 n → n ≤ v → id_ok v (format_id p n).
Proof. intros Hp Hn Hv q k Hq Hk E. by rewrite <-(sql_id_inj p q n k). Qed.

Lemma insert_row_inv {A} id (row : A) m m' : insert_row id row m = Ok m' → m !! id = None ∧ m' = <[id := row]> m.
Proof. unfold insert_row. destruct (m !! id); [done|]. by intros [= <-]. Qed.

Lemma id_ok_insert {A} v id (x : A) (m : gmap string A) :
  id_ok v id → (∀ i, is_Some (m !! i) → id_ok v i) → ∀ i, is_Some (<[id := x]> m !! i) → id_ok v i.
Proof.
  intros Hid Hm i. destruct (decide (id = i)) as [<-|Hne]; [done|]. rewrite lookup_insert_ne by done. apply Hm.
Qed.

(** An identifier handed out by the sequence. *)
Definition issued (id : string) (d : Db) : Prop :=
  ∃ p n v, id = format_id p n ∧ p ∈ id_prefixes ∧ fits 63 n ∧ t_sequence d = Some v ∧ n ≤ v.

Lemma issued_id_ok id d v : issued id d → t_sequence d = Some v → id_ok v id.
Proof. intros (p & n & v' & -> & Hp & Hn & Hv' & Hle) Hv. apply issued_ok; [done..|]. congruence. Qed.

Lemma insert_network_sound n d d' a :
  issued (n_id n) d → fits 63 (n_config_epoch n) → insert_network n d = Ok (d', a) → sound d d'.
Proof.
  unfold insert_network. intros Hid He. destruct (insert_row _ _ _) as [m| |] eqn:Hm; cbn; [|done..].
  intros [= <- _]. apply insert_row_inv in Hm as [_ ->]. apply sound_intro; [|done|done].
  intros [(v & Hv & Hf & Hn & Hd & Hl & Hr)]. constructor; try done; cbn.
  - exists v. split_and!; try done. apply id_ok_insert; [by eapply issued_id_ok|done].
  - intros id n' [[<- <-]|[_ Hin]]%lookup_insert_Some; [done|eauto].
Qed.

Lemma insert_relay_sound r d d' a : issued (l_id r) d → insert_relay r d = Ok (d', a) → sound d d'.
Proof.
  unfold insert_relay. intros Hid. destruct (insert_row _ _ _) as [m| |] eqn:Hm; cbn; [|done..].
  intros [= <- _]. apply insert_row_inv in Hm as [_ ->]. apply sound_intro; [|done|done].
  intros [(v & Hv & Hf & Hn & Hd & Hl & Hr)]. constructor; try done; cbn.
  - exists v. split_and!; try done. apply id_ok_insert; [by eapply issued_id_ok|done].
  - intros id n' [[<- <-]|[_ Hin]]%lookup_insert_Some; [done|eauto].
Qed.

Lemma insert_route_sound r d d' a : issued (r_id r) d → insert_route r d = Ok (d', a) → sound d d'.
Proof.
  unfold insert_route. intros Hid. destruct (insert_row _ _ _) as [m| |] eqn:Hm; cbn; [|done..].
  intros [= <- _]. apply insert_row_inv in Hm as [_ ->]. apply sound_intro; [|done|done].
  intros [(v & Hv & Hf & Hn & Hd & Hl & Hr)]. constructor; try done; cbn.
  - exists v. split_and!; try done. apply id_ok_insert; [by eapply issued_id_ok|done].
  - intros id n' [[<- <-]|[_ Hin]]%lookup_insert_Some; [done|eauto].
Qed.

Lemma insert_invite_sound i d d' a : i_uses i = 0 → insert_invite i d = Ok (d', a) → sound d d'.
Proof.
  unfold insert_invite. intros Hu. destruct (insert_row _ _ _) as [m| |] eqn:Hm; cbn; [|done..].
  intros [= <- _]. apply insert_row_inv in Hm as [_ ->]. apply sound_intro; [|done|done]. intros []. constructor; try done; cbn.
  intros c i' [[<- <-]|[_ Hin]]%lookup_insert_Some; [|eauto]. split; [done|]. unfold invite_ok. rewrite Hu. split; [lia|]. intros m _. lia.
Qed.

(** The indexes: a new row clashes with none. *)
Lemma clashes_false row m :
  clashes row m = false → ∀ id r, m !! id = Some r → same_network_key row r = false ∧ same_network_v4 row r = false.
Proof.
  unfold clashes. intros Hc id r Hr. apply orb_false_iff. apply not_true_iff_false. intros Ht.
  apply not_true_iff_false in Hc. destruct Hc. apply existsb_exists. exists r. split; [|done].
  apply list_elem_of_In, list_elem_of_fmap. exists (id, r). split; [done|]. by apply elem_of_map_to_list.
Qed.

Lemma same_key_sym a b : same_network_key a b = same_network_key b a.
Proof.
  unfold same_network_key. rewrite (andb_comm (is_active a)). f_equal; [f_equal|]; by apply bool_decide_ext.
Qed.
Lemma same_v4_sym a b : same_network_v4 a b = same_network_v4 b a.
Proof.
  unfold same_network_v4. rewrite (andb_comm (is_active a)). f_equal; [f_equal; by apply bool_decide_ext|].
  destruct (w_address_v4 a), (w_address_v4 b); [by apply bool_decide_ext|done..].
Qed.

(** An index stays unique when a row that clashes with none is added. *)
Lemma unique_insert (same : DeviceRow → DeviceRow → bool) (m : gmap string DeviceRow) id row :
  (∀ a b, same a b = same b a) → (∀ i r, m !! i = Some r → same row r = false) →
  (∀ i j r r', m !! i = Some r → m !! j = Some r' → same r r' = true → i = j) →
  ∀ i j r r', <[id := row]> m !! i = Some r → <[id := row]> m !! j = Some r' → same r r' = true → i = j.
Proof.
  intros Hsym Hnew Hm i j r r' [[<- <-]|[Hi Hr]]%lookup_insert_Some [[<- <-]|[Hj Hr']]%lookup_insert_Some Hs; try done.
  - by rewrite (Hnew j r') in Hs.
  - rewrite Hsym in Hs. by rewrite (Hnew i r) in Hs.
  - eauto.
Qed.

Lemma insert_device_sound `{!KeyCodecLaws} v d d' a :
  issued (d_id v) d → d_status v = Active → (∀ t, d_address_v4 v = Some t → v4_text t) →
  insert_device v d = Ok (d', a) → sound d d'.
Proof.
  unfold insert_device. intros Hid Hst H4. destruct (normalize (d_wg_public_key v)) as [key|] eqn:Hkey; cbn; [|done].
  set (row := mkRow _ _ _ _ _ _ _ _ _ _). destruct (clashes row (t_device d)) eqn:Hc; [done|].
  destruct (insert_row _ _ _) as [m| |] eqn:Hm; cbn; [|done..]. intros [= <- _]. apply insert_row_inv in Hm as [Hnone ->].
  split_and!; [|done|intros id r Hr; exists r; split; [|apply row_kept_refl]; cbn; by rewrite lookup_insert_ne by congruence].
  pose proof (clashes_false _ _ Hc) as Hnew.
  intros [(w & Hv & Hf & Hn & Hd & Hl & Hr)]. constructor; try done; cbn.
  - exists w. split_and!; try done. apply id_ok_insert; [by eapply issued_id_ok|done].
  - intros id r [[<- <-]|[_ Hin]]%lookup_insert_Some; [|eauto]. split; [done|]. left. cbn. rewrite Hst. split_and!; [done| |done].
    by apply normalize_canonical in Hkey as [? _].
  - apply unique_insert; [apply same_key_sym|intros i r Hi; by apply (Hnew i r Hi)|done].
  - apply unique_insert; [apply same_v4_sym|intros i r Hi; by apply (Hnew i r Hi)|done].
Qed.

(** ** Other changes *)

Lemma bump_sound id d d' a : bump_network_epoch id d = Ok (d', a) → sound d d'.
Proof.
  unfold bump_network_epoch. destruct (t_network d !! id) as [n|] eqn:Hn; [|by intros [= <- _]].
  destruct (Z.ltb_spec (n_config_epoch n) (2 ^ 63 - 1)); [|done]. intros [= <- _]. apply sound_intro; [|done|done].
  intros [(v & Hv & Hf & Hnn & Hd & Hl & Hr)]. constructor; try done; cbn.
  - exists v. split_and!; try done. apply id_ok_insert; [apply Hnn; eauto|done].
  - intros id' n' [[<- <-]|[_ Hin]]%lookup_insert_Some; [|eauto]. destruct (ok_network0 id n Hn) as [? He].
    split; [done|]. cbn. unfold fits in *. lia.
Qed.

Lemma consume_sound code now d d' a : consume_invite code now d = Ok (d', a) → sound d d'.
Proof.
  unfold consume_invite. destruct (t_invite d !! code) as [i|] eqn:Hi; [|by intros [= <- _]].
  case_if; [|by intros [= <- _]]. intros [= <- _]. apply sound_intro; [|done|done]. intros []. constructor; try done; cbn.
  intros c i' [[<- <-]|[_ Hin]]%lookup_insert_Some; [|eauto]. destruct (ok_invite0 code i Hi) as [? [Hu Hm]].
  split; [done|]. split; cbn; [lia|]. intros m Hmm. rewrite Hmm in *. bool_prop. lia.
Qed.

Lemma sequence_sound d : 
  sound d (match t_sequence d with Some v => if v <? 2 ^ 63 - 1 then with_sequence (Some (v + 1)) d else d | None => d end).
Proof.
  destruct (t_sequence d) as [v|] eqn:Hv; [|done]. destruct (Z.ltb_spec v (2 ^ 63 - 1)); [|done]. split_and!.
  - intros [(w & Hw & Hf & Hn & Hd & Hl & Hr)]. rewrite Hv in Hw. injection Hw as <-. constructor; try done; cbn.
    exists (v + 1). split_and!; [done|unfold fits in *; lia|..]; intros id Hid p n Hp Hfn E.
    + pose proof (Hn id Hid p n Hp Hfn E). lia.
    + pose proof (Hd id Hid p n Hp Hfn E). lia.
    + pose proof (Hl id Hid p n Hp Hfn E). lia.
    + pose proof (Hr id Hid p n Hp Hfn E). lia.
  - intros n (w & Hw & Hle). exists (v + 1). split; [done|]. rewrite Hv in Hw. injection Hw as <-. lia.
  - intros id r Hr. eauto using row_kept_refl.
Qed.

Lemma approve_sound id b d : sound d (set_route_approved id b d).
Proof.
  apply sound_intro; [|done|done]. intros [(v & Hv & Hf & Hn & Hd & Hl & Hr)]. constructor; try done; cbn.
  - exists v. split_and!; try done. intros i [r Hi]. apply Hr. apply lookup_alter_Some in Hi as [(<- & r' & Hi & _)|[_ Hi]]; eauto.
  - intros i r [(<- & r' & Hi & ->)|[_ Hi]]%lookup_alter_Some; cbn; eauto.
Qed.

Lemma replace_relay_sound r d : is_Some (t_relay d !! l_id r) → sound d (with_relay (<[l_id r := r]> (t_relay d)) d).
Proof.
  intros Hid. apply sound_intro; [|done|done]. intros [(v & Hv & Hf & Hn & Hd & Hl & Hr)]. constructor; try done; cbn.
  - exists v. split_and!; try done. apply id_ok_insert; [by apply Hl|done].
  - intros id n' [[<- <-]|[_ Hin]]%lookup_insert_Some; [done|eauto].
Qed.
End Ok.

(** ** Operations *)

Section Operations.
Context {W : Type} `{!EpochWatch W} `{!Database} `{!KeyCodec} `{!KeyCodecLaws} `{!JsonText}.
Abbreviation sql A := (st (SqlStore W) SqlStoreError A).

(** The store's operations keep the invariant [I]: from a database that has it. *)
Definition intact {A} (m : sql A) : Prop := keeps db_ok sound m.

Lemma db_ok_stable : stable db_ok sound.
Proof. intros d d' [Ho _]. apply Ho. Qed.

Lemma res_no_panic {A E} (o : option A) (e : E) : ok_or o e ≠ Panic.
Proof. by destruct o. Qed.

Lemma keeps_bump P id : keeps P sound (bump (W:=W) id).
Proof.
  unfold bump. apply keeps_execute_bind; [apply _|..].
  - intros d _. unfold bump_network_epoch. destruct (_ !! _); [by case_if|done].
  - intros d d' a _. apply bump_sound.
  - intros a. apply keeps_ret, _.
Qed.

Lemma keeps_notify P id : keeps P sound (notify (W:=W) id).
Proof.
  intros s r s' _. unfold notify, query. destruct (answer (ticks s)); [destruct (get_network id (db s))|..];
    intros [= <- <-]; by split.
Qed.

Lemma keeps_begin P {B} (k : unit → sql B) : keeps P sound (k tt) → keeps P sound (begin ≫= k).
Proof.
  intros Hk. apply (keeps_mono (fun d => P d)); [done|]. unfold begin, pool_begin.
  intros s r s' Hp. unfold mbind, st_bind, query, execute. cbn.
  destruct (answer (ticks s)); [|intros [= <- <-]; by split..]. cbn.
  destruct (t_sequence (db s)); destruct (answer (S (ticks s))); try (intros [= <- <-]; by split).
  cbn. intros Heq. by apply (Hk (set_db (db s) (tick (tick s))) r s').
Qed.

(** The next identifier, with the sequence beyond it. *)
Lemma keeps_next P {B} (k : Z → sql B) :
  (∀ d, P d → db_ok d) →
  (∀ n, keeps (fun d' => db_ok d' ∧ (∃ d v, P d ∧ t_sequence d = Some v ∧ n = v + 1 ∧ d' = with_sequence (Some (v + 1)) d) ∧
           fits 63 n ∧ reached n d') sound (k n)) →
  keeps P sound (next ≫= k).
Proof.
  intros HP Hk. unfold next. assert (∀ d, sound d _) as Hs by exact sequence_sound.
  intros s r s' Hp. unfold mbind, st_bind, execute. pose proof (Hs (db s)) as Hsd. destruct (HP _ Hp) as [(v & Hv & Hf & _)].
  rewrite Hv in *. destruct (Z.ltb_spec v (2 ^ 63 - 1)) as [Hlt|Hlt].
  - destruct (answer (ticks s)); try (intros [= <- <-]; cbn; split; [|done]; first [exact Hsd|done]). cbn.
    intros Heq. destruct (Hk (v + 1) (set_db (with_sequence (Some (v + 1)) (db s)) (tick s)) r s') as [Hr Hn]; [|done|].
    + cbn. split; [apply Hsd, HP, Hp|]. split; [eauto 10|]. split; [unfold fits in *; lia|]. by exists (v + 1).
    + split; [|done]. etrans; [exact Hsd|exact Hr].
  - destruct (answer (ticks s)); intros [= <- <-]; by split.
Qed.

Lemma issued_next p n d : p ∈ id_prefixes → fits 63 n → reached n d → issued (format_id p n) d.
Proof. intros Hp Hn (v & Hv & Hle). exists p, n, v. done. Qed.

(** Statements that cannot fail of their own, and everything that does not write. *)
Lemma keeps_retry_tx {A} legacy (m : sql A) : intact m → intact (retry legacy (transaction m)).
Proof. intros Hm. apply keeps_retry; [apply _|apply db_ok_stable|]. by apply keeps_transaction; [apply _|]. Qed.

Ltac keeps_step :=
  match goal with
  | |- intact _ => unfold intact
  | |- keeps _ _ (let _ := _ in _) => cbv zeta
  | |- keeps _ _ (begin ≫= _) => apply keeps_begin
  | |- keeps _ _ (query _ ≫= _) => apply keeps_query; [apply _|intros ?]
  | |- keeps _ _ (lift (ok_or _ _) ≫= _) => apply keeps_lift_bind; [apply _|apply res_no_panic|intros ? ?]
  | |- keeps _ _ (random _ ≫= _) => apply keeps_random_bind; intros ?
  | |- keeps _ _ (mret _) => apply keeps_ret, _
  | |- keeps _ _ (lift (Err _)) => apply keeps_lift; [apply _|done]
  | |- keeps _ _ (lift (ok_or _ _)) => apply keeps_lift; [apply _|apply res_no_panic]
  | |- keeps _ _ (query _) => apply keeps_query_any, _
  | |- keeps _ _ (match ?x with _ => _ end) => destruct x eqn:?
  | |- keeps _ _ (if ?x then _ else _) => destruct x eqn:?
  end.
Ltac keeps_steps := repeat keeps_step.

(** A pipeline step whose result is not used further. *)
Lemma keeps_seq {A B} (P : Db → Prop) (m : sql A) (k : A → sql B) :
  (∀ d, P d → db_ok d) → keeps P sound m → (∀ a, keeps db_ok sound (k a)) → keeps P sound (m ≫= k).
Proof.
  intros HP Hm Hk s r s' Hp. unfold mbind, st_bind. destruct (m s) as [x s1] eqn:Hx.
  destruct (Hm s x s1 Hp Hx) as [Hr1 Hn]. destruct x as [a|e|]; [|intros [= <- <-]; done..].
  intros Heq. destruct (Hk a s1 r s') as [Hr2 Hn2]; [by apply Hr1, HP|done|]. split; [by etrans|done].
Qed.

(** ** What a success tells *)

Lemma query_Ok {A} (f : Db → A) (s s' : SqlStore W) a :
  query f s = (Ok a, s') → a = f (db s) ∧ db s' = db s.
Proof. unfold query. destruct (answer _); by intros [= <- <-]. Qed.

Lemma execute_Ok {A} (f : Db → res DbError (Db * A)) (s s' : SqlStore W) a :
  execute f s = (Ok a, s') → f (db s) = Ok (db s', a).
Proof. unfold execute. destruct (f (db s)) as [[]| |], (answer _); intros [= <- <-]; done. Qed.

Lemma run_Ok f (s s' : SqlStore W) u : run_ f s = (Ok u, s') → db s' = f (db s).
Proof. unfold run_. intros Hs%execute_Ok. congruence. Qed.

Lemma transaction_Ok {A} (m : sql A) s a s' :
  transaction m s = (Ok a, s') → ∃ s1, m s = (Ok a, s1) ∧ db s' = db s1.
Proof.
  unfold transaction. destruct (m s) as [[b|e|] s1]; [|done..]. destruct (answer _); [|done..]. intros [= <- <-]. eauto.
Qed.

(** The last run of a retried operation. *)
Lemma retry_last {A} legacy (m : sql A) s a s' : retry legacy m s = (Ok a, s') → ∃ s1, m s1 = (Ok a, s').
Proof.
  unfold retry. generalize 8%nat, 0. intros fuel. revert s.
  induction fuel as [|fuel IH]; intros s attempt; cbn [retry_loop]; [done|]. destruct (m s) as [x s1] eqn:Hx.
  destruct x as [b|[] |]; try (by intros [= <- <-]); [intros [= <- <-]; eauto|].
  destruct (sqlite_busy e); [destruct (2 <=? attempt)|destruct (_ && _)]; [done|apply IH|apply IH|done].
Qed.

(** The store after [n] attempts that failed and are retried. *)
Inductive retried {A} (m : sql A) : nat → SqlStore W → SqlStore W → Prop :=
| retried_first s : retried m 0 s s
| retried_again n s s1 s2 e : m s = (Err (DbErr e), s1) → retryable e = true → retried m n s1 s2 → retried m (S n) s s2.

Lemma retry_trace {A} legacy (m : sql A) s a s' : retry legacy m s = (Ok a, s') →
  ∃ n s1, (n < 8)%nat ∧ retried m n s s1 ∧ m s1 = (Ok a, s').
Proof.
  unfold retry. generalize 8%nat, 0. intros fuel. revert s.
  induction fuel as [|fuel IH]; intros s attempt; cbn [retry_loop]; [done|]. destruct (m s) as [x s1] eqn:Hx.
  assert (∀ e k, x = Err (DbErr e) → retryable e = true → retry_loop fuel k legacy m s1 = (Ok a, s') →
    ∃ n s2, (n < S fuel)%nat ∧ retried m n s s2 ∧ m s2 = (Ok a, s')) as Hrec.
  { intros e k -> He (n & s2 & Hn & Hr & Hm)%IH. exists (S n), s2. split_and!; [lia|by econstructor|done]. }
  destruct x as [b|[] |]; try (by intros [= <- <-]).
  - intros [= <- <-]. exists 0%nat, s. split_and!; [lia|constructor|done].
  - destruct (sqlite_busy e) eqn:Hb; [destruct (2 <=? attempt); [done|]|].
    + apply (Hrec e); [done|by destruct e].
    + destruct (legacy && retryable e && _) eqn:Hl; [|done]. apply (Hrec e); [done|]. by destruct (retryable e); destruct legacy.
Qed.

Lemma retried_keeps {A} (P : Db → Prop) (R : relation Db) `{!PreOrder R} (m : sql A) n s s1 :
  stable P R → keeps P R m → retried m n s s1 → P (db s) → P (db s1).
Proof.
  intros Hst Hm. induction 1 as [|n s s1 s2 e Hs _ _ IH]; [done|]. intros Hp. apply IH.
  destruct (Hm s _ s1 Hp Hs) as [Hr _]. by eapply Hst.
Qed.

Lemma retry_Ok {A} (P : Db → Prop) (R : relation Db) `{!PreOrder R} legacy (m : sql A) s a s' :
  stable P R → keeps P R m → P (db s) → retry legacy m s = (Ok a, s') →
  ∃ s1, P (db s1) ∧ R (db s) (db s1) ∧ m s1 = (Ok a, s').
Proof.
  intros Hst Hm. unfold retry. generalize 8%nat, 0. intros fuel. revert s.
  induction fuel as [|fuel IH]; intros s attempt Hp; cbn [retry_loop]; [done|].
  destruct (m s) as [x s1] eqn:Hx. destruct (Hm s x s1 Hp Hx) as [Hr1 Hn].
  assert (∀ k, retry_loop fuel k legacy m s1 = (Ok a, s') → ∃ s2, P (db s2) ∧ R (db s) (db s2) ∧ m s2 = (Ok a, s')) as Hrec.
  { intros k Hk. destruct (IH s1 k) as (s2 & Hp2 & Hr2 & Hm2); [by eapply Hst|done|]. exists s2. split_and!; [done| |done]. by etrans. }
  destruct x as [b|[] |]; try (intros [= <- <-]; done).
  - intros [= <- <-]. exists s. split_and!; done.
  - destruct (sqlite_busy e); [destruct (2 <=? attempt)|destruct (_ && _)]; [done|apply Hrec|apply Hrec|done].
Qed.

Lemma intact_next : intact (_ ← begin; next (W:=W)).
Proof.
  apply keeps_begin. assert (keeps db_ok sound (n ← next (W:=W); mret n)) as Hn.
  { apply keeps_next; [done|]. intros n. apply keeps_ret, _. }
  intros s r s' Hp Heq. apply (Hn s r s' Hp). unfold mbind, st_bind. rewrite Heq. by destruct r.
Qed.

Lemma next_Ok (s s' : SqlStore W) n : next s = (Ok n, s') →
  ∃ v, t_sequence (db s) = Some v ∧ v < 2 ^ 63 - 1 ∧ n = v + 1 ∧ db s' = with_sequence (Some n) (db s).
Proof.
  unfold next. intros (row & s1 & Hx%execute_Ok & Hl)%st_bind_Ok_inv.
  destruct (t_sequence (db s)) as [v|]; [|injection Hx as _ <-; done].
  destruct (Z.ltb_spec v (2 ^ 63 - 1)); [|injection Hx as _ <-; done]. injection Hx as Hd <-.
  injection Hl as <- <-. exists v. done.
Qed.

Lemma begin_Ok (s s' : SqlStore W) u : begin s = (Ok u, s') → db s' = db s.
Proof.
  unfold begin. intros (u1 & s1 & [_ <-]%query_Ok & (n & s2 & Hx%execute_Ok & Hl)%st_bind_Ok_inv)%st_bind_Ok_inv.
  injection Hx as Hx _. destruct (n =? 1); [|done]. injection Hl as _ <-. done.
Qed.

Lemma next_seq_Ok (s s' : SqlStore W) n : db_ok (db s) → next_seq s = (Ok n, s') → fits 63 n ∧ reached n (db s').
Proof.
  intros Hok Heq. unfold next_seq in Heq.
  apply (retry_Ok db_ok sound) in Heq as (s1 & Hok1 & _ & (s2 & Hm & Hd)%transaction_Ok);
    [|apply db_ok_stable|apply keeps_transaction; [apply _|apply intact_next]|done].
  apply st_bind_Ok_inv in Hm as (u & s3 & Hb%begin_Ok & (v & Hv & Hlt & -> & Hd2)%next_Ok).
  rewrite Hb in Hv. destruct Hok1 as [(w & Hw & Hf & _)].
  split; [|exists (v + 1); split; [by rewrite Hd, Hd2|done]]. unfold fits in *.
  assert (w = v) as -> by congruence. lia.
Qed.

Lemma insert_row_no_panic {A} id (x : A) m : insert_row id x m ≠ Panic.
Proof. unfold insert_row. by destruct (m !! id). Qed.

Ltac no_panic_insert := intros ? _; pose proof @insert_row_no_panic as Hnp;
  match goal with |- mbind _ (insert_row ?i ?x ?m) ≠ _ => specialize (Hnp _ i x m); by destruct (insert_row i x m) end.

Lemma intact_create_network name : intact (create_network (W:=W) name).
Proof.
  unfold intact, create_network.
  apply (keeps_bind_post _ _ (fun _ => db_ok)); [apply keeps_get, _|by intros s a s' Hp [= <- <-]|intros s0].
  apply (keeps_bind_post _ _ (fun _ => db_ok)); [by apply keeps_modify; [apply _|]|by intros s a s' Hp [= <- <-]|intros _].
  apply (keeps_bind_post _ _ (fun n d => fits 63 n ∧ reached n d)).
  - apply keeps_retry_tx, intact_next.
  - intros s n s' Hok Heq. by apply (next_seq_Ok s).
  - intros n. apply keeps_execute_bind; [apply _|unfold insert_network; no_panic_insert| |].
    + intros d d' a [Hf Hre]. apply insert_network_sound; [|by cbn; unfold fits]. apply issued_next; [by left|done..].
    + intros a. apply (keeps_bind_post _ _ (fun _ _ => True)); [|done|intros _; apply keeps_ret, _].
      by apply keeps_modify; [apply _|].
Qed.

Lemma intact_create_invite n e m : intact (create_invite (W:=W) n e m).
Proof.
  apply keeps_retry_tx. keeps_steps.
  apply keeps_execute_bind; [apply _|unfold insert_invite; no_panic_insert| |intros; keeps_steps].
  intros d d' u _. by apply insert_invite_sound.
Qed.

Lemma revoked_row_kept r : row_kept r (revoked_row r).
Proof. unfold row_kept, revoked. cbn. naive_solver. Qed.

Lemma drop_network_rows_sound id d : sound d (drop_network_rows id d).
Proof.
  apply update_rows_sound. intros i. rewrite lookup_fmap. destruct (t_device d !! i); constructor.
  case_bool_decide; [apply revoked_row_kept|apply row_kept_refl].
Qed.

Lemma intact_delete_network id : intact (delete_network (W:=W) id).
Proof.
  apply keeps_retry; [apply _|apply db_ok_stable|].
  apply (keeps_bind_post _ _ (fun _ _ => True)); [|done|intros ?; by apply keeps_modify; [apply _|]].
  apply keeps_transaction; [apply _|]. keeps_steps.
  apply keeps_run_bind; [apply _|intros d _; apply drop_network_rows_sound|].
  apply keeps_run_bind; [apply _|intros d _; apply with_stats_sound|].
  apply keeps_run_bind; [apply _|intros d _; apply drop_invite_sound, map_filter_subseteq|].
  apply keeps_run_bind; [apply _|intros d _; apply drop_route_sound, map_filter_subseteq|].
  apply keeps_run_bind; [apply _|intros d _; apply drop_relay_sound, map_filter_subseteq|].
  apply (keeps_bind_post _ _ (fun _ _ => True)); [apply keeps_bump|done|intros _].
  apply keeps_run_bind; [apply _|intros d _; apply drop_network_sound, delete_subseteq|]. keeps_steps.
Qed.

Lemma intact_revoke_invite n c : intact (revoke_invite (W:=W) n c).
Proof.
  apply keeps_retry_tx. keeps_steps.
  apply keeps_execute_bind; [apply _| | |intros a0; keeps_steps].
  - intros d _. destruct (t_invite d !! c); [by case_if|done].
  - intros d d' u _. destruct (t_invite d !! c); [case_if|]; intros [= <- <-]; [|done..].
    apply drop_invite_sound, delete_subseteq.
Qed.

(** A step after which nothing is assumed of the database. *)
Lemma keeps_then {A B} P (m : sql A) (k : A → sql B) :
  keeps P sound m → (∀ a, keeps (fun _ => True) sound (k a)) → keeps P sound (m ≫= k).
Proof. intros Hm Hk. by apply (keeps_bind_post _ _ (fun _ _ => True)). Qed.

Lemma keeps_bump_and_notify P id : keeps P sound (bump_and_notify (W:=W) id).
Proof.
  apply keeps_then; [apply keeps_bump|intros _]. keeps_steps. by apply keeps_modify; [apply _|].
Qed.

Lemma keeps_weaken {A} P (m : sql A) : keeps (fun _ => True) sound m → keeps P sound m.
Proof. by apply keeps_mono. Qed.

(** ** Devices *)

Lemma get_device_row id d v : get_device id d = Some v → ∃ r, t_device d !! id = Some r ∧ v = row_device r.
Proof. unfold get_device. intros (r & Hr & ->)%fmap_Some. eauto. Qed.

Lemma select_In {A} (m : gmap string A) x : x ∈ select m ↔ ∃ id, m !! id = Some x.
Proof.
  rewrite (select_perm m), list_elem_of_fmap. split.
  - intros ([id y] & -> & Hy%elem_of_map_to_list). eauto.
  - intros [id Hid]. exists (id, x). split; [done|]. by apply elem_of_map_to_list.
Qed.

Lemma list_devices_In n d v :
  v ∈ list_devices n d ↔ ∃ id r, t_device d !! id = Some r ∧ w_network_id r = n ∧ v = row_device r.
Proof.
  unfold list_devices. rewrite list_elem_of_fmap. split.
  - intros (r & -> & Hr). apply list_elem_of_In, filter_In in Hr as [Hr ?%bool_decide_eq_true].
    apply list_elem_of_In, select_In in Hr as [id Hid]. eauto.
  - intros (id & r & Hid & Hn & ->). exists r. split; [done|]. apply list_elem_of_In, filter_In.
    split; [apply list_elem_of_In, select_In; eauto|]. by apply bool_decide_eq_true.
Qed.

(** A device of the list of a network, found again by its identifier. *)
Lemma listed_row d n v : db_ok d → v ∈ list_devices n d → ∃ r, t_device d !! d_id v = Some r ∧ v = row_device r.
Proof.
  intros Hok (id & r & Hid & _ & ->)%list_devices_In. exists r. cbn.
  by destruct (ok_device d Hok id r Hid) as [-> _].
Qed.

Lemma token_sound id token d :
  (∀ r, t_device d !! id = Some r → is_active r = true) → sound d (set_device_token id token d).
Proof. intros Ha. apply update_device_sound. intros r Hr. unfold row_kept. cbn. specialize (Ha r Hr). naive_solver. Qed.

Lemma endpoints_sound id l d : sound d (set_device_endpoints id l d).
Proof. apply update_device_sound. intros r _. unfold row_kept. cbn. naive_solver. Qed.
Lemma settings_sound id j d : sound d (set_device_settings id j d).
Proof. apply update_device_sound. intros r _. unfold row_kept. cbn. naive_solver. Qed.
Lemma name_sound id j d : sound d (set_device_name id j d).
Proof. apply update_device_sound. intros r _. unfold row_kept. cbn. naive_solver. Qed.

Lemma intact_revoke_device id : intact (revoke_device (W:=W) id).
Proof.
  apply keeps_retry; [apply _|apply db_ok_stable|]. apply keeps_then; [|intros; apply keeps_notify].
  apply keeps_transaction; [apply _|]. keeps_steps.
  apply keeps_run_bind; [apply _|intros d _; apply update_device_sound; intros; apply revoked_row_kept|].
  apply keeps_then; [apply keeps_bump|intros; keeps_steps].
Qed.

Lemma intact_rename_device id name : intact (rename_device (W:=W) id name).
Proof.
  unfold rename_device. keeps_steps. apply keeps_run_bind; [apply _|intros d _; apply name_sound|]. keeps_steps.
Qed.

Lemma intact_store_device_settings id json : intact (store_device_settings (W:=W) id json).
Proof.
  unfold store_device_settings. keeps_steps.
  apply keeps_run_bind; [apply _|intros d _; apply settings_sound|]. apply keeps_bump_and_notify.
Qed.

Lemma keeps_lock P {B} id (k : unit → sql B) : keeps P sound (k tt) → keeps P sound (lock_active_device id ≫= k).
Proof.
  intros Hk s r s' Hp. unfold lock_active_device, mbind, st_bind, execute. cbn.
  destruct (answer (ticks s)); [|intros [= <- <-]; by split..].
  destruct (t_device (db s) !! id) as [row|]; [destruct (_ && _)|]; cbn; try (intros [= <- <-]; by split).
  intros Heq. by apply (Hk (set_db (db s) (tick s)) r s').
Qed.

Lemma intact_report_stats id rx tx peers t : intact (report_stats (W:=W) id rx tx peers t).
Proof.
  apply keeps_retry_tx. unfold intact, pool_begin. keeps_steps. apply keeps_lock, keeps_run; [apply _|]. intros d _. apply with_stats_sound.
Qed.

Lemma intact_set_endpoints id l : intact (set_endpoints (W:=W) id l).
Proof.
  apply keeps_retry; [apply _|apply db_ok_stable|]. apply keeps_then; [|intros; apply keeps_notify].
  apply keeps_transaction; [apply _|]. unfold pool_begin. keeps_step. apply keeps_lock. keeps_steps.
  apply keeps_run_bind; [apply _|intros d _; apply endpoints_sound|].
  apply keeps_then; [apply keeps_bump|intros; keeps_steps].
Qed.

(** ** Routes *)

Lemma keeps_insert_route P {B} n net dev prefix (k : Z → sql B) :
  (∀ d, P d → fits 63 n ∧ reached n d) → (∀ a, keeps (fun _ => True) sound (k a)) →
  keeps P sound (execute (insert_route (mkRoute (format_id "route-" n) net dev prefix false)) ≫= k).
Proof.
  intros HP Hk. apply keeps_then; [|done]. apply keeps_execute; [apply _|unfold insert_route; no_panic_insert|].
  intros d d' a [Hf Hr]%HP. apply insert_route_sound, issued_next; [unfold id_prefixes; set_solver|done..].
Qed.

Lemma intact_advertise_route id prefix : intact (advertise_route (W:=W) id prefix).
Proof.
  apply keeps_retry_tx. keeps_steps.
  apply (keeps_bind_post _ _ (fun _ => db_ok)).
  - keeps_steps.
  - intros s x s' [Hok _]. case_if; [|by intros [= <- <-]].
    intros (net & s1 & [_ Hd]%query_Ok & [= <- <-])%st_bind_Ok_inv. by rewrite Hd.
  - intros active. keeps_steps. apply keeps_next; [done|intros n]. keeps_steps.
    apply keeps_insert_route; [naive_solver|]. intros; keeps_steps.
Qed.

Lemma intact_approve_route id : intact (approve_route (W:=W) id).
Proof.
  unfold approve_route. keeps_steps. apply keeps_run_bind; [apply _|intros d _; apply approve_sound|].
  apply keeps_bump_and_notify.
Qed.

Lemma intact_delete_route id : intact (delete_route (W:=W) id).
Proof.
  unfold delete_route. keeps_steps.
  apply keeps_run_bind; [apply _|intros d _; apply drop_route_sound, delete_subseteq|].
  keeps_steps. apply keeps_bump_and_notify.
Qed.

Lemma intact_device_route_change id token prefix withdraw : intact (device_route_change (W:=W) id token prefix withdraw).
Proof.
  apply keeps_retry_tx. keeps_steps.
  apply keeps_run_bind; [apply _|done|]. keeps_step. apply keeps_then; [|intros; keeps_steps].
  keeps_steps.
  - apply keeps_run; [apply _|]. intros d _. apply drop_route_sound, map_filter_subseteq.
  - apply keeps_next; [naive_solver|intros n]. apply keeps_insert_route; [naive_solver|]. intros; keeps_steps.
Qed.

(** ** Relays *)

Lemma keeps_bump_all P ids : keeps P sound (bump_all (W:=W) ids).
Proof.
  apply keeps_weaken. induction ids as [|id ids IH]; cbn [bump_all]; [keeps_steps|].
  apply keeps_then; [apply keeps_bump|done].
Qed.
Lemma keeps_notify_all P ids : keeps P sound (notify_all (W:=W) ids).
Proof.
  apply keeps_weaken. induction ids as [|id ids IH]; cbn [notify_all]; [keeps_steps|].
  apply keeps_then; [apply keeps_notify|done].
Qed.

Lemma keeps_check_scope {B} scope (k : unit → sql B) : keeps db_ok sound (k tt) → keeps db_ok sound (check_scope scope ≫= k).
Proof.
  intros Hk. unfold check_scope. apply keeps_seq; [done|keeps_steps|by intros []].
Qed.

Lemma intact_register_relay_once region url n anytls stun identity :
  intact (register_relay_once (W:=W) region url n anytls stun identity).
Proof.
  destruct identity as [node_id public_key].
  unfold register_relay_once. cbv beta iota.
  apply keeps_then; [|intros []; apply keeps_then; [apply keeps_notify_all|intros; keeps_steps]].
  apply keeps_transaction; [apply _|]. apply keeps_begin, keeps_check_scope, keeps_next; [done|intros x].
  apply keeps_then; [apply keeps_execute; [apply _|unfold insert_relay; no_panic_insert|]|].
  - intros d d' a (_ & _ & Hf & Hr). apply insert_relay_sound, issued_next; [unfold id_prefixes; set_solver|done..].
  - intros _. keeps_step. apply keeps_then; [apply keeps_bump_all|intros; keeps_steps].
Qed.

Lemma intact_register_relay region url n anytls stun identity :
  intact (register_relay_authenticated (W:=W) region url n anytls stun identity).
Proof. apply keeps_retry; [apply _|apply db_ok_stable|]. apply intact_register_relay_once. Qed.

Lemma intact_update_relay_once relay : intact (update_relay_once (W:=W) relay).
Proof.
  apply keeps_then; [|intros; apply keeps_then; [apply keeps_notify_all|intros; keeps_steps]].
  apply keeps_transaction; [apply _|]. apply keeps_begin, keeps_check_scope. keeps_steps.
  apply keeps_run_bind; [apply _| |keeps_step; apply keeps_then; [apply keeps_bump_all|intros; keeps_steps]].
  intros d [_ Hold]. apply replace_relay_sound. destruct a; [eauto|done].
Qed.

Lemma intact_update_relay relay : intact (update_relay (W:=W) relay).
Proof. apply keeps_retry; [apply _|apply db_ok_stable|]. apply intact_update_relay_once. Qed.

(** ** Enrolment and import *)

Lemma parse_v4_fits l ip : parse_v4 l = Some ip → fits 32 ip.
Proof.
  unfold parse_v4, parse_with. case_if; [done|]. destruct (read_ipv4_addr l) as [[x k]|] eqn:Hx; [|done].
  destruct k; [|done]. intros [= <-]. by eapply read_ipv4_range.
Qed.

Lemma parse_v4_base_fits pool a b c : parse_v4_base pool = Ok (a, b, c) → fits 8 a ∧ fits 8 b ∧ fits 8 c.
Proof.
  unfold parse_v4_base. destruct (parse_v4 _) as [ip|] eqn:Hip; cbn [fmap option_fmap option_map]; [|done].
  apply parse_v4_fits, octets_new in Hip as (x & y & z & w & -> & _ & Hx & Hy & Hz & _). by intros [= <- <- <-].
Qed.

(** The first free host of the pool. *)
Lemma allocate_address_Ok net devices v4 v6 :
  allocate_address net devices = Ok (v4, v6) →
  ∃ a b c host, parse_v4_base (n_ipv4_pool net) = Ok (a, b, c) ∧ v4 = ipv4_new a b c host ∧ 100 ≤ host ≤ 249 ∧
    (host ∉ used_hosts devices) ∧ ∀ h, 100 ≤ h < host → h ∈ used_hosts devices.
Proof.
  unfold allocate_address. destruct (parse_v4_base _) as [[[a b] c]| |] eqn:Hb; cbn; [|done..].
  destruct (parse_v6_prefix _) as [[[p q] r]| |]; cbn; [|done..].
  destruct (list_find _ device_hosts) as [[i h]|] eqn:Hf; cbn; [|done]. intros [= <- _].
  apply list_find_Some in Hf as (Hi & Hh & Hmin). unfold device_hosts, DEVICE_HOST_MIN, DEVICE_HOST_MAX in *.
  apply lookup_seqZ in Hi as [-> Hlt]. exists a, b, c, (100 + Z.of_nat i). split_and!; [done|done|lia|lia|done|].
  intros h' Hh'. destruct (decide (h' ∈ used_hosts devices)); [done|]. exfalso.
  apply (Hmin (Z.to_nat (h' - 100)) h'); [|lia|done]. apply lookup_seqZ. lia.
Qed.

Lemma allocate_v4_text net devices v4 v6 : allocate_address net devices = Ok (v4, v6) → v4_text (text (fmt_v4 v4)).
Proof.
  intros (a & b & c & h & (Ha & Hb & Hc)%parse_v4_base_fits & -> & Hh & _)%allocate_address_Ok.
  exists (ipv4_new a b c h). split; [|done]. unfold ipv4_new, fits in *. lia.
Qed.

Lemma parse_v4_base_no_panic pool : parse_v4_base pool ≠ Panic.
Proof. unfold parse_v4_base. by destruct (octets <$> _) as [[|? [|? [|? [|? []]]]]|]. Qed.
Lemma parse_v6_prefix_no_panic ula : parse_v6_prefix ula ≠ Panic.
Proof. unfold parse_v6_prefix. destruct (List.filter _ _) as [|a [|b [|c l]]]; [done..|]. by repeat destruct (parse_hex16 _). Qed.

Lemma allocate_no_panic net devices : allocate_address net devices ≠ Panic.
Proof.
  unfold allocate_address. pose proof (parse_v4_base_no_panic (n_ipv4_pool net)).
  destruct (parse_v4_base _) as [[[a b] c]| |]; cbn; [|done..]. pose proof (parse_v6_prefix_no_panic (n_ipv6_ula net)).
  destruct (parse_v6_prefix _) as [[[p q] r]| |]; cbn; [|done..]. by destruct (list_find _ _) as [[]|].
Qed.

Lemma insert_device_no_panic v d : insert_device v d ≠ Panic.
Proof.
  unfold insert_device. destruct (normalize _); cbn; [|done]. case_if; [done|].
  match goal with |- context[insert_row ?i ?x ?m] => pose proof (insert_row_no_panic i x m); by destruct (insert_row i x m) end.
Qed.

Lemma insert_device_row v d d' a : insert_device v d = Ok (d', a) → d_status v = Active →
  ∃ r, t_device d' !! d_id v = Some r ∧ is_active r = true.
Proof.
  unfold insert_device. destruct (normalize _) as [key|]; cbn; [|done]. case_if; [done|].
  destruct (insert_row _ _ _) as [m| |] eqn:Hm; cbn; [|done..]. intros [= <- _] Hs.
  apply insert_row_inv in Hm as [_ ->]. cbn. rewrite lookup_insert_eq. eexists. split; [done|]. cbn. by rewrite Hs.
Qed.

Lemma consume_no_panic code now d : consume_invite code now d ≠ Panic.
Proof. unfold consume_invite. destruct (_ !! _); [by case_if|done]. Qed.

Lemma intact_enroll_once code name key now : intact (enroll_once (W:=W) code name key now).
Proof.
  apply keeps_then; [|intros; apply keeps_then; [apply keeps_notify|intros; keeps_steps]].
  apply keeps_transaction; [apply _|]. apply keeps_begin. unfold enroll_body. do 2 keeps_step. keeps_step; [keeps_step|]. do 4 keeps_step.
  destruct (list_find _ a3) as [[i device]|] eqn:Hfind.
  - apply list_find_Some in Hfind as (Hdev & Hact & _).
    apply keeps_run_bind; [apply _| |keeps_steps]. intros d [[[Hok _] _] <-]. apply token_sound. intros r Hr.
    destruct (listed_row d (n_id a2) device) as (r' & Hr' & ->); [done|by eapply list_elem_of_lookup_2|].
    rewrite Hr in Hr'. injection Hr' as <-. unfold active_with_key in Hact. cbn in Hact. by destruct (is_active r).
  - apply keeps_execute_bind; [apply _|intros; apply consume_no_panic|intros d d' u _; apply consume_sound|].
    intros consumed. keeps_step; [keeps_step|].
    apply keeps_lift_bind; [apply _|apply allocate_no_panic|intros [v4 v6] Hv].
    apply keeps_next; [intros d (d0 & [[[Hok _] _] _] & Hc%consume_sound); by apply Hc|intros n].
    apply keeps_execute_bind; [apply _|intros; apply insert_device_no_panic| |].
    + intros d d' u (_ & _ & Hf & Hr). apply insert_device_sound; [|done|].
      * apply issued_next; [unfold id_prefixes; set_solver|done..].
      * intros t [= <-]. by eapply allocate_v4_text.
    + intros u. apply keeps_run_bind; [apply _| |apply keeps_then; [apply keeps_bump|intros; keeps_steps]].
      intros d' (d & _ & Hins). apply token_sound. intros r Hr.
      apply insert_device_row in Hins as (r' & Hr' & Ha); [|done]. congruence.
Qed.

Lemma intact_enroll code name key now : intact (enroll (W:=W) code name key now).
Proof.
  unfold enroll. keeps_steps. apply keeps_retry; [apply _|apply db_ok_stable|]. apply intact_enroll_once.
Qed.

Lemma canonical_import_text l l' :
  mapM canonical_import l = Some l' → Forall (fun d => ∀ t, m_address_v4 d = Some t → v4_text t) l'.
Proof.
  intros Hl%mapM_Some. induction Hl as [|d d' l l' Hd _ IH]; constructor; [|done].
  unfold canonical_import in Hd. destruct (m_address_v4 d) as [a|] eqn:Ha.
  - apply bind_Some in Hd as (ip & Hip & [= <-]). intros t Ht. injection Ht as <-. exists ip. split; [by eapply parse_v4_fits|done].
  - injection Hd as <-. congruence.
Qed.

Lemma intact_import_loop n l acc :
  Forall (fun dk => ∀ t, m_address_v4 dk.1 = Some t → v4_text t) l → intact (import_loop (W:=W) n l acc).
Proof.
  intros Hl. revert acc. induction Hl as [|[d key] l Hd _ IH]; intros [[seen created] skipped]; cbn [import_loop]; [keeps_steps|].
  apply keeps_seq; [done| |done]. unfold import_one. keeps_step; [keeps_steps|]. apply keeps_next; [done|intros x].
  apply keeps_then; [apply keeps_execute; [apply _|intros; apply insert_device_no_panic|]|].
  - intros b b' u (_ & _ & Hf & Hr). apply insert_device_sound; [|done|exact Hd].
    apply issued_next; [unfold id_prefixes; set_solver|done..].
  - intros _. apply keeps_run_bind; [apply _|intros b _; apply endpoints_sound|keeps_steps].
Qed.

Lemma intact_import n devices : intact (import_devices (W:=W) n devices).
Proof.
  unfold import_devices. keeps_steps. apply keeps_retry; [apply _|apply db_ok_stable|].
  apply keeps_then; [|intros; apply keeps_then; [apply keeps_notify|intros; keeps_steps]].
  apply keeps_transaction; [apply _|]. keeps_steps. apply keeps_then; [|intros [[seen created] skipped]].
  - apply (keeps_mono db_ok); [naive_solver|]. apply intact_import_loop.
    destruct (mapM canonical_import devices) as [l|] eqn:Hl; [|done]. injection H3 as <-.
    apply canonical_import_text in Hl. clear -Hl. revert a0.
    induction Hl as [|d l Hd _ IH]; intros [|k a0]; constructor; [done|apply IH].
  - apply keeps_then; [destruct created; [keeps_steps|apply keeps_bump]|intros; keeps_steps].
Qed.

Lemma intact_unit {A} (m : sql A) : intact m → intact (_ ← m; mret tt).
Proof. intros Hm. apply keeps_then; [done|intros; keeps_steps]. Qed.

Lemma intact_op q : intact (op_of (W:=W) q).
Proof.
  destruct q; cbn [op_of].
  - apply intact_unit, intact_create_network.
  - apply intact_delete_network.
  - apply intact_unit, intact_create_invite.
  - apply intact_revoke_invite.
  - apply intact_unit, intact_enroll.
  - apply intact_unit, intact_import.
  - apply intact_revoke_device.
  - apply intact_unit, intact_rename_device.
  - apply intact_store_device_settings.
  - apply intact_report_stats.
  - apply intact_set_endpoints.
  - apply intact_unit, intact_advertise_route.
  - apply intact_approve_route.
  - apply intact_delete_route.
  - apply intact_unit, intact_device_route_change.
  - apply intact_unit, intact_register_relay.
  - apply intact_unit, intact_update_relay.
Qed.

(** Every request ends, without a panic, in a sound database. *)
Lemma exec_sound q (s : SqlStore W) : db_ok (db s) → sound (db s) (db (exec q s)).
Proof.
  intros Hok. unfold exec. destruct (op_of q s) as [r s'] eqn:Hs. by destruct (intact_op q s r s' Hok Hs).
Qed.

Lemma run_sound qs (s : SqlStore W) : db_ok (db s) → sound (db s) (db (run qs s)).
Proof.
  revert s. induction qs as [|q qs IH]; intros s Hok; [done|]. pose proof (exec_sound q s Hok) as Hq.
  change (run (q :: qs) s) with (run qs (exec q s)). etrans; [exact Hq|]. by apply IH, Hq.
Qed.
End Operations.
