(* ===== verification/SqlMigrate.v ===== *)
(** * Migration of a database of an earlier version (control-server/src/integrity.rs, [migrate])

    Identifiers recover the sequence, keys and addresses of active devices are brought into
    canonical form, tombstones lose address and credential, and only then the unique indexes
    are created.  A success establishes the invariant of SqlInv. *)

From Stdlib Require Import Strings.Ascii Strings.String.
From S2P Require Import Prelude.
From S2P Require Import Words.
From S2P Require Import NetText.
From S2P Require Import Prefix.
From S2P Require Import Ipam.
From S2P Require Import RouteTable.
From S2P Require Import Domain.
From S2P Require Import NodeConfig.
From S2P Require Import SqlDb.
From S2P Require Import SqlControl.
From S2P Require Import SqlInv.

(** ** Identifiers *)

(** [str::rsplit_once('-')]. *)
Definition rsplit_dash (l : list ascii) : option (list ascii * list ascii) :=
  '(suffix, prefix) ← split_once "-" (rev l); Some (rev prefix, rev suffix).

Definition entity_number (id : string) : res DbError (option Z) :=
  match rsplit_dash (chars id) with
  | Some (prefix, suffix) =>
      if bool_decide (text prefix ∈ ["net"; "dev"; "relay"; "route"]%string) then
        match suffix, span_digits 10 suffix with
        | _ :: _, (ds, []) =>
            if digits_val 10 ds <? 2 ^ 63 then Ok (Some (digits_val 10 ds))
            else Err (Protocol ("invalid entity ID: " ++ id))
        | _, _ => Ok None
        end
      else Ok None
  | None => Ok None
  end.

Fixpoint max_number (ids : list string) (max_id : Z) : res DbError Z :=
  match ids with
  | [] => Ok max_id
  | id :: ids =>
      value ← entity_number id;
      max_number ids (match value with Some v => Z.max max_id v | None => max_id end)
  end.

(** ** Devices *)

(** What the loop over the rows collects: the keys and the addresses seen, the updates, the
    networks whose active devices change. *)
Record Scan := mkScan {
  keys : gmap (string * string) string;
  addresses : gmap (string * string) string;
  normalized : list (string * string * option string * option string * option string);
  changed_networks : gset string
}.

Section Migrate.
Context {W : Type} `{!Database} `{!KeyCodec}.
Abbreviation sql A := (st (SqlStore W) SqlStoreError A).

Definition where_ (what : string) (r : DeviceRow) : DbError :=
  Protocol (what ++ w_id r ++ " in network " ++ w_network_id r).

Definition row_status (r : DeviceRow) : res DbError bool :=
  if bool_decide (w_status r = "active"%string) then Ok true
  else if bool_decide (w_status r = "revoked"%string) then Ok false
  else Err (where_ "unknown status on device " r).

Definition scan_known (active : bool) (r : DeviceRow) (acc : Scan) : res DbError Scan :=
  let old := w_wg_public_key r in
  key ← (if active then ok_or (normalize old) (where_ "invalid public key on active device " r)
         else Ok (default old (normalize old)));
  keys' ← (if active then
            match keys acc !! (w_network_id r, key) with
            | Some other => Err (where_ ("duplicate public key on active devices " ++ other ++ " and ") r)
            | None => Ok (<[(w_network_id r, key) := w_id r]> (keys acc))
            end
          else Ok (keys acc));
  address ← (if negb active then Ok None else
               match w_address_v4 r with
               | None => Ok None
               | Some a => ip ← ok_or (parse_v4 (chars a)) (where_ "invalid IPv4 on active device " r);
                           Ok (Some (text (fmt_v4 ip)))
               end);
  addresses' ← (match address with
               | Some a =>
                   if active then
                     match addresses acc !! (w_network_id r, a) with
                     | Some other => Err (where_ ("duplicate IPv4 on active devices " ++ other ++ " and ") r)
                     | None => Ok (<[(w_network_id r, a) := w_id r]> (addresses acc))
                     end
                   else Ok (addresses acc)
               | None => Ok (addresses acc)
               end);
  let v6 := if active then w_address_v6 r else None in
  let token := if active then w_auth_token r else None in
  if bool_decide (key ≠ old) || bool_decide (address ≠ w_address_v4 r) || bool_decide (v6 ≠ w_address_v6 r)
     || bool_decide (token ≠ w_auth_token r)
  then Ok (mkScan keys' addresses' (normalized acc ++ [(w_id r, key, address, v6, token)])
             (if active then {[w_network_id r]} ∪ changed_networks acc else changed_networks acc))
  else Ok (mkScan keys' addresses' (normalized acc) (changed_networks acc)).

Definition scan_row (r : DeviceRow) (acc : Scan) : res DbError Scan := active ← row_status r; scan_known active r acc.

Fixpoint scan (rows : list DeviceRow) (acc : Scan) : res DbError Scan :=
  match rows with [] => Ok acc | r :: rows => next ← scan_row r acc; scan rows next end.

Definition set_identity (key : string) (address v6 token : option string) (r : DeviceRow) : DeviceRow :=
  mkRow (w_id r) (w_network_id r) (w_name r) key address v6 (w_status r) (w_endpoints r) (w_settings r) token.

Fixpoint update_rows (l : list (string * string * option string * option string * option string)) : sql unit :=
  match l with
  | [] => mret tt
  | (id, key, address, v6, token) :: l => _ ← run_ (update_device (set_identity key address v6 token) id); update_rows l
  end.

(** [CREATE UNIQUE INDEX .. WHERE status = 'active'] fails when two rows agree. *)
Definition create_index (same : DeviceRow → DeviceRow → bool) : sql unit :=
  execute (fun d =>
    if forallb (fun x => forallb (fun y => bool_decide (x.1 = y.1) || negb (same x.2 y.2)) (map_to_list (t_device d)))
         (map_to_list (t_device d))
    then Ok (d, tt) else Err UniqueViolation).

Definition db_err {A} (m : res DbError A) : res SqlStoreError A :=
  match m with Ok a => Ok a | Err e => Err (DbErr e) | Panic => Panic end.

Definition entity_ids (d : Db) : list string :=
  (n_id <$> select (t_network d)) ++ (w_id <$> select (t_device d)) ++ (l_id <$> select (t_relay d))
  ++ (r_id <$> select (t_route d)).
Definition rows_by_id (d : Db) : list DeviceRow :=
  sort_by (fun a b => String.compare (w_id a) (w_id b)) (select (t_device d)).

Definition raise_sequence (max_id : Z) (d : Db) : Db :=
  match t_sequence d with Some v => if v <? max_id then with_sequence (Some max_id) d else d | None => d end.
Definition init_sequence (d : Db) : Db :=
  match t_sequence d with Some _ => d | None => with_sequence (Some 0) d end.

Definition migrate_tx : sql unit :=
  _ ← begin;
  ids ← query entity_ids;
  max_id ← lift (db_err (max_number ids 0));
  _ ← run_ (raise_sequence max_id);
  rows ← query rows_by_id;
  found ← lift (db_err (scan rows (mkScan ∅ ∅ [] ∅)));
  _ ← run_ (fun d => d);
  _ ← run_ (fun d => d);
  _ ← update_rows (normalized found);
  _ ← create_index same_network_key;
  _ ← create_index same_network_v4;
  bump_all (elements (changed_networks found)).

Definition migrate : sql unit :=
  _ ← run_ (fun d => d);
  _ ← run_ init_sequence;
  transaction migrate_tx.
End Migrate.

(** ** Identifiers are recovered *)

Lemma fmt_dec_digits z : fits 63 z → ∃ d ds, fmt_dec z = map digit_char (d :: ds) ∧
  Forall (fun d => 0 ≤ d < 10) (d :: ds) ∧ digits_val 10 (d :: ds) = z.
Proof.
  unfold fits, fmt_dec, fmt_radix. intros Hz.
  pose proof (numeral_val 20 10 z ltac:(lia) ltac:(lia) ltac:(lia)) as Hv.
  pose proof (numeral_digits 20 10 z ltac:(lia) ltac:(lia)) as Hds.
  destruct (numeral_head 20 10 z) as (d & ds & Hd & _ & _); [lia..|]. rewrite Hd in *. eauto.
Qed.

Lemma rsplit_dash_app a l : Forall (.≠ "-"%char) l → rsplit_dash (a ++ "-"%char :: l) = Some (a, l).
Proof.
  intros Hl. unfold rsplit_dash. rewrite rev_app_distr. cbn [rev]. rewrite <-app_assoc. cbn [app].
  rewrite split_once_app; [|rewrite list.Forall_forall in *; intros x Hx; apply Hl; by apply list_elem_of_In, in_rev, list_elem_of_In].
  cbn. by rewrite !rev_involutive.
Qed.


Lemma digit_char_no_dash ds : Forall (fun d => 0 ≤ d < 10) ds → Forall (.≠ "-"%char) (map digit_char ds).
Proof.
  induction 1 as [|d ds Hd _ IH]; cbn; constructor; [|done]. intros E. apply (f_equal (to_digit 10)) in E.
  rewrite to_digit_char in E by lia. discriminate E.
Qed.

Lemma entity_number_format p n : p ∈ id_prefixes → fits 63 n → entity_number (format_id p n) = Ok (Some n).
Proof.
  intros Hp Hn. assert (∃ q, chars p = chars q ++ ["-"%char] ∧ q ∈ ["net"; "dev"; "relay"; "route"]%string) as (q & Hq & Hin).
  { unfold id_prefixes in Hp. rewrite !elem_of_cons, elem_of_nil in Hp.
    destruct Hp as [->|[->|[->|[->|[]]]]]; [exists "net"%string|exists "dev"%string|exists "relay"%string|exists "route"%string];
      (split; [done|set_solver]). }
  unfold entity_number, format_id. destruct (fmt_dec_digits n Hn) as (d & ds & -> & Hds & Hv).
  rewrite chars_append, Hq, list_ascii_of_string_of_list_ascii, <-app_assoc. cbn [app].
  rewrite rsplit_dash_app by (by apply digit_char_no_dash). rewrite string_of_list_ascii_of_string, bool_decide_true by done.
  cbn [map]. change (digit_char d :: map digit_char ds) with (map digit_char (d :: ds)).
  pose proof (span_digits_app 10 (d :: ds) [] ltac:(lia) Hds I) as Hs. rewrite app_nil_r in Hs. rewrite Hs, Hv.
  unfold fits in Hn. destruct (Z.ltb_spec n (2 ^ 63)); [done|lia].
Qed.

Lemma max_number_ge ids m v : max_number ids m = Ok v → m ≤ v.
Proof.
  revert m. induction ids as [|id ids IH]; intros m; cbn; [by intros [= <-]|].
  destruct (entity_number id) as [[x|]| |]; cbn; [intros Hm%IH; lia..|done|done].
Qed.

Lemma max_number_bound ids m v id n :
  max_number ids m = Ok v → id ∈ ids → entity_number id = Ok (Some n) → n ≤ v.
Proof.
  intros Hm Hid Hn. revert m Hm. induction Hid as [id ids|id id' ids Hid IH]; intros m; cbn.
  - rewrite Hn. cbn. intros Hm%max_number_ge. lia.
  - destruct (entity_number id') as [x| |]; cbn; [|done..]. by apply IH.
Qed.

Lemma max_number_fits ids m v : max_number ids m = Ok v → fits 63 m → fits 63 v.
Proof.
  revert m. induction ids as [|id ids IH]; intros m; cbn; [by intros [= <-]|].
  destruct (entity_number id) as [[x|]| |] eqn:Hx; cbn; [|intros Hm; by apply IH|done..].
  intros Hm Hf. apply (IH _ Hm). enough (fits 63 x) by (unfold fits in *; lia).
  unfold entity_number in Hx. destruct (rsplit_dash _) as [[pre suf]|]; [|done]. case_bool_decide; [|done].
  pose proof (span_digits_range 10 suf) as Hr. destruct suf as [|c suf]; [done|].
  destruct (span_digits 10 (c :: suf)) as [ds []]; [|done]. cbn [fst] in Hr. apply digits_val_nonneg in Hr; [|lia].
  destruct (Z.ltb_spec (digits_val 10 ds) (2 ^ 63)); [|done]. injection Hx as <-. unfold fits. lia.
Qed.

(** ** The scan *)

Section Rows.
Context `{!KeyCodec} `{!KeyCodecLaws}.

(** The canonical form of a row. *)
Definition canonical_v4 (a : string) : string := text (fmt_v4 (default 0 (parse_v4 (chars a)))).
Definition fresh_row (r : DeviceRow) : DeviceRow :=
  let key := default (w_wg_public_key r) (normalize (w_wg_public_key r)) in
  if is_active r then set_identity key (canonical_v4 <$> w_address_v4 r) (w_address_v6 r) (w_auth_token r) r
  else set_identity key None None None r.

Definition known_row (r : DeviceRow) : Prop :=
  w_status r = "active"%string ∧ is_Some (normalize (w_wg_public_key r)) ∧
    (∀ a, w_address_v4 r = Some a → is_Some (parse_v4 (chars a)))
  ∨ w_status r = "revoked"%string.

Definition key_of (r : DeviceRow) : string * string := (w_network_id r, w_wg_public_key (fresh_row r)).
Definition unseen (r : DeviceRow) (acc : Scan) : Prop :=
  is_active r = true → keys acc !! key_of r = None ∧
    ∀ a, w_address_v4 (fresh_row r) = Some a → addresses acc !! (w_network_id r, a) = None.

Definition rewritten (r : DeviceRow) : bool :=
  bool_decide (w_wg_public_key (fresh_row r) ≠ w_wg_public_key r) || bool_decide (w_address_v4 (fresh_row r) ≠ w_address_v4 r)
  || bool_decide (w_address_v6 (fresh_row r) ≠ w_address_v6 r) || bool_decide (w_auth_token (fresh_row r) ≠ w_auth_token r).
Definition row_update (r : DeviceRow) : string * string * option string * option string * option string :=
  (w_id r, w_wg_public_key (fresh_row r), w_address_v4 (fresh_row r), w_address_v6 (fresh_row r), w_auth_token (fresh_row r)).

Definition next_scan (r : DeviceRow) (acc : Scan) : Scan :=
  mkScan (if is_active r then <[key_of r := w_id r]> (keys acc) else keys acc)
    (match w_address_v4 (fresh_row r) with
     | Some a => <[(w_network_id r, a) := w_id r]> (addresses acc) | None => addresses acc end)
    (normalized acc ++ if rewritten r then [row_update r] else [])
    (if rewritten r && is_active r then {[w_network_id r]} ∪ changed_networks acc else changed_networks acc).

Lemma scan_row_spec r acc acc' :
  scan_row r acc = Ok acc' ↔ known_row r ∧ unseen r acc ∧ acc' = next_scan r acc.
Proof.
  unfold scan_row, scan_known, row_status, known_row, unseen, next_scan, rewritten, row_update, key_of, fresh_row, is_active.
  destruct (decide (w_status r = "active"%string)) as [Ha|Ha].
  - rewrite !(bool_decide_true (w_status r = _)) by done. cbn -[fmt_v4].
    destruct (normalize (w_wg_public_key r)) as [key|]; cbn -[fmt_v4].
    2: { split; [done|]. intros [[(_ & [? ?] & _)|?] _]; congruence. }
    destruct (keys acc !! _); cbn -[fmt_v4]; [split; [done|]; intros (_ & Hu & _); by destruct (Hu eq_refl)|].
    destruct (w_address_v4 r) as [a|]; cbn -[fmt_v4].
    + unfold canonical_v4. destruct (parse_v4 (chars a)) as [ip|] eqn:Hip; cbn -[fmt_v4].
      * generalize (text (fmt_v4 ip)); intros t. destruct (addresses acc !! _) eqn:Hseen; cbn -[fmt_v4].
        { split; [done|]. intros (_ & Hu & _). destruct (Hu eq_refl) as [_ Hv]. specialize (Hv _ eq_refl). congruence. }
        rewrite andb_true_r. case_if; rewrite ?app_nil_r; (split; [intros [= <-]|by intros (_ & _ & ->)]); split_and!; try done;
          try (left; split_and!; [done|done|intros a0 [= <-]; by rewrite Hip]); intros _; (split; [done|]); by intros a0 [= <-].
      * split; [done|]. intros [[(_ & _ & Hp)|?] _]; [|congruence]. specialize (Hp a eq_refl). rewrite Hip in Hp. by destruct Hp.
    + rewrite andb_true_r. case_if; rewrite ?app_nil_r; (split; [intros [= <-]|by intros (_ & _ & ->)]); split_and!; try done; by left.
  - rewrite !(bool_decide_false (w_status r = "active"%string)) by done.
    destruct (decide (w_status r = "revoked"%string)) as [Hr|Hr].
    + rewrite bool_decide_true by done. cbn. rewrite andb_false_r.
      case_if; rewrite ?app_nil_r; (split; [intros [= <-]|by intros (_ & _ & ->)]); split_and!; try done; by right.
    + rewrite bool_decide_false by done. split; [done|]. intros [[(? & _)|?] _]; congruence.
Qed.

Lemma rewritten_false r : rewritten r = false → fresh_row r = r.
Proof.
  unfold rewritten. rewrite !orb_false_iff, !bool_decide_eq_false. intros [[[H1%dec_stable H2%dec_stable] H3%dec_stable] H4%dec_stable].
  unfold fresh_row in *. revert H1 H2 H3 H4. generalize (canonical_v4 <$> w_address_v4 r). intros x.
  destruct r, (is_active _); unfold set_identity; cbn;
    intros; f_equal; done.
Qed.

(** After a scan every active row is registered with its key and address. *)
Lemma scan_Ok rows acc acc' :
  scan rows acc = Ok acc' →
  Forall known_row rows ∧ keys acc ⊆ keys acc' ∧ addresses acc ⊆ addresses acc' ∧
  normalized acc' = normalized acc ++ (row_update <$> List.filter rewritten rows) ∧
  (∀ r, r ∈ rows → is_active r = true → keys acc' !! key_of r = Some (w_id r) ∧
     ∀ a, w_address_v4 (fresh_row r) = Some a → addresses acc' !! (w_network_id r, a) = Some (w_id r)) ∧
  (∀ n, n ∈ changed_networks acc' → n ∈ changed_networks acc ∨ ∃ r, r ∈ rows ∧ is_active r = true ∧ rewritten r = true).
Proof.
  revert acc. induction rows as [|r rows IH]; intros acc; cbn [scan].
  { intros [= <-]. split_and!; [done|done|done|by rewrite app_nil_r| |by left]. by intros r ?%not_elem_of_nil. }
  destruct (scan_row r acc) as [acc1| |] eqn:Hr; [|done..]. cbn [mbind res_bind].
  apply scan_row_spec in Hr as (Hk & Hu & ->). intros Hrec%IH. destruct Hrec as (Hkn & Hks & Has & Hn & Hreg & Hch). split_and!.
  - by constructor.
  - etrans; [|exact Hks]. cbn. destruct (is_active r) eqn:Ha; [|done]. apply insert_subseteq. by apply Hu.
  - etrans; [|exact Has]. cbn. destruct (w_address_v4 (fresh_row r)) as [a|] eqn:Ha4; [|done].
    apply insert_subseteq. destruct (is_active r) eqn:Ha; [by apply Hu|]. unfold fresh_row in Ha4. by rewrite Ha in Ha4.
  - rewrite Hn. cbn. destruct (rewritten r); cbn; by rewrite <-app_assoc.
  - intros r' [->|Hin]%elem_of_cons Ha; [|by apply Hreg]. split.
    + eapply lookup_weaken; [|exact Hks]. cbn. by rewrite Ha, lookup_insert_eq.
    + intros a Ha4. eapply lookup_weaken; [|exact Has]. cbn. by rewrite Ha4, lookup_insert_eq.
  - intros n Hc%Hch. destruct Hc as [Hc|(r' & Hin & Ha & Hw)]; [|right; exists r'; split_and!; [by right|done..]].
    cbn in Hc. destruct (rewritten r) eqn:Hw, (is_active r) eqn:Ha; cbn in Hc; [|by left..].
    right. exists r. split_and!; [by left|done..].
Qed.

(** It succeeds on known rows that do not agree. *)
Lemma scan_total rows acc :
  Forall known_row rows → NoDup (w_id <$> rows) → (∀ r, r ∈ rows → unseen r acc) →
  (∀ r r', r ∈ rows → r' ∈ rows → is_active r = true → is_active r' = true → key_of r = key_of r' → w_id r = w_id r') →
  (∀ r r' a, r ∈ rows → r' ∈ rows → is_active r = true → is_active r' = true → w_network_id r = w_network_id r' →
     w_address_v4 (fresh_row r) = Some a → w_address_v4 (fresh_row r') = Some a → w_id r = w_id r') →
  ∃ acc', scan rows acc = Ok acc'.
Proof.
  intros Hk. revert acc. induction Hk as [|r rows Hr _ IH]; intros acc Hnd Hun Hkey Hv4; [by exists acc|].
  apply list.NoDup_cons in Hnd as [Hnin Hnd]. cbn [scan].
  assert (scan_row r acc = Ok (next_scan r acc)) as ->.
  { apply scan_row_spec. split_and!; [done|apply Hun; by left|done]. }
  cbn [mbind res_bind]. apply IH; [done| |intros; apply Hkey; try (by right); done|intros; eapply Hv4; try (by right); done].
  intros r' Hr' Ha'. destruct (Hun r' ltac:(by right) Ha') as [Hk' Ha4']. cbn. split.
  - destruct (is_active r) eqn:Ha; [|done]. apply lookup_insert_None. split; [done|]. intros Heq. apply Hnin, list_elem_of_fmap.
    exists r'. split; [|done]. apply Hkey; [by left|by right|done..].
  - intros a Hfa. destruct (w_address_v4 (fresh_row r)) as [b|] eqn:Hb; [|by apply Ha4'].
    apply lookup_insert_None. split; [by apply Ha4'|]. intros [= Hnet ->]. apply Hnin, list_elem_of_fmap. exists r'. split; [|done].
    assert (is_active r = true) as Ha by (unfold fresh_row in Hb; by destruct (is_active r)).
    eapply Hv4; [by left|by right|done..].
Qed.
End Rows.

(** ** Updates *)

Section Updates.
Context `{!KeyCodec} `{!KeyCodecLaws}.

Definition apply_update (d : Db) (u : string * string * option string * option string * option string) : Db :=
  let '(id, key, address, v6, token) := u in update_device (set_identity key address v6 token) id d.

Lemma update_rows_Ok {W : Type} `{!Database} l (s s' : SqlStore W) u :
  update_rows l s = (Ok u, s') → db s' = foldl apply_update (db s) l.
Proof.
  revert s. induction l as [|[[[[id key] a] v6] t] l IH]; intros s; cbn [update_rows]; [by intros [= _ <-]|].
  intros (u1 & s1 & Hu1%run_Ok & Hu2%IH)%st_bind_Ok_inv. by rewrite Hu2, Hu1.
Qed.

Lemma alter_insert_Some {A} (f : A → A) (m : gmap string A) i x : m !! i = Some x → alter f i m = <[i := f x]> m.
Proof.
  intros Hi. apply map_eq. intros j. destruct (decide (i = j)) as [<-|Hne].
  - by rewrite lookup_alter_eq, lookup_insert_eq, Hi.
  - by rewrite lookup_alter_ne, lookup_insert_ne.
Qed.

Definition refresh (rows : list DeviceRow) (m : gmap string DeviceRow) : gmap string DeviceRow :=
  foldl (fun m r => <[w_id r := fresh_row r]> m) m rows.

Lemma update_fresh r d : t_device d !! w_id r = Some r →
  foldl apply_update d (if rewritten r then [row_update r] else []) = with_device (<[w_id r := fresh_row r]> (t_device d)) d.
Proof.
  intros Hr. destruct (rewritten r) eqn:Hw; cbn [foldl].
  - unfold apply_update, row_update, update_device. rewrite (alter_insert_Some _ _ _ r) by done.
    do 2 f_equal. unfold fresh_row. by case_if.
  - rewrite rewritten_false, insert_id by done. by destruct d.
Qed.

Lemma updates_refresh rows d :
  (∀ r, r ∈ rows → t_device d !! w_id r = Some r) → NoDup (w_id <$> rows) →
  foldl apply_update d (row_update <$> List.filter rewritten rows) = with_device (refresh rows (t_device d)) d.
Proof.
  revert d. induction rows as [|r rows IH]; intros d Hin Hnd; [by destruct d|]. apply list.NoDup_cons in Hnd as [Hn Hnd].
  assert (row_update <$> List.filter rewritten (r :: rows) =
    (if rewritten r then [row_update r] else []) ++ (row_update <$> List.filter rewritten rows)) as ->
    by (cbn; by destruct (rewritten r)).
  rewrite foldl_app, update_fresh by (apply Hin; by left). rewrite IH; [done| |done].
  intros r' Hr'. cbn. rewrite lookup_insert_ne; [apply Hin; by right|]. intros E. apply Hn. rewrite E. by apply list_elem_of_fmap_2.
Qed.

Lemma refresh_lookup rows m :
  NoDup (w_id <$> rows) →
  (∀ r, r ∈ rows → refresh rows m !! w_id r = Some (fresh_row r)) ∧
  (∀ id, id ∉ w_id <$> rows → refresh rows m !! id = m !! id).
Proof.
  unfold refresh. revert m. induction rows as [|r rows IH]; intros m Hnd; [by split; [intros r ?%not_elem_of_nil|]|].
  apply list.NoDup_cons in Hnd as [Hn Hnd]. cbn [foldl]. destruct (IH (<[w_id r := fresh_row r]> m) Hnd) as [H1 H2]. split.
  - intros r' [->|Hr']%elem_of_cons; [|by apply H1]. by rewrite H2, lookup_insert_eq.
  - intros id Hid. cbn in Hid. apply not_elem_of_cons in Hid as [? ?]. by rewrite H2, lookup_insert_ne.
Qed.

Lemma refresh_all rows m :
  NoDup (w_id <$> rows) → (∀ r, r ∈ rows ↔ m !! w_id r = Some r) → (∀ id r, m !! id = Some r → w_id r = id) →
  ∀ id, refresh rows m !! id = fresh_row <$> m !! id.
Proof.
  intros Hnd Hin Hid id. destruct (refresh_lookup rows m Hnd) as [H1 H2]. destruct (m !! id) as [r|] eqn:Hm; cbn.
  - pose proof (Hid id r Hm) as <-. apply H1. by apply Hin.
  - rewrite H2; [done|]. intros (r & -> & Hr%Hin)%list_elem_of_fmap. congruence.
Qed.

(** What migration takes over unchecked from an earlier version: rows are stored under their
    primary keys, counters are in range, and no invite is overdrawn. *)
Record legacy_ok (d : Db) : Prop := {
  lg_sequence : ∀ v, t_sequence d = Some v → fits 63 v;
  lg_network : ∀ id n, t_network d !! id = Some n → n_id n = id ∧ fits 63 (n_config_epoch n);
  lg_route : ∀ id r, t_route d !! id = Some r → r_id r = id;
  lg_relay : ∀ id r, t_relay d !! id = Some r → l_id r = id;
  lg_invite : ∀ code i, t_invite d !! code = Some i → i_code i = code ∧ invite_ok i;
  lg_device : ∀ id r, t_device d !! id = Some r → w_id r = id
}.

Lemma fresh_row_ok r : known_row r → row_ok (fresh_row r).
Proof.
  unfold known_row, row_ok, revoked, fresh_row, is_active. intros [(Hs & [key Hk] & H4)|Hs].
  - left. rewrite bool_decide_true by done. cbn -[canonical_v4]. rewrite Hk. cbn -[canonical_v4]. split_and!; [done|by apply normalize_canonical in Hk as [? _]|].
    intros a (b & Hb & ->)%fmap_Some. destruct (H4 b Hb) as [ip Hip]. exists ip. unfold canonical_v4. rewrite Hip.
    split; [by eapply parse_v4_fits|done].
  - right. rewrite bool_decide_false by (by rewrite Hs). by cbn.
Qed.

Lemma fresh_row_same r : w_id (fresh_row r) = w_id r ∧ w_network_id (fresh_row r) = w_network_id r ∧ is_active (fresh_row r) = is_active r.
Proof. unfold fresh_row. by destruct (is_active r) eqn:Ha. Qed.
End Updates.

(** ** The migration establishes the invariant *)

Section Establish.
Context {W : Type} `{!Database} `{!KeyCodec} `{!KeyCodecLaws}.
Implicit Types s : SqlStore W.

Lemma rows_by_id_In d r : legacy_ok d → r ∈ rows_by_id d ↔ t_device d !! w_id r = Some r.
Proof.
  intros Hl. unfold rows_by_id. rewrite sort_by_perm, select_In. split; [|eauto].
  intros [id Hid]. by rewrite (lg_device d Hl id r Hid).
Qed.

Lemma rows_by_id_NoDup d : legacy_ok d → NoDup (w_id <$> rows_by_id d).
Proof.
  intros Hl. unfold rows_by_id. rewrite sort_by_perm, (select_perm (t_device d)), <-list_fmap_compose.
  rewrite (list_fmap_ext _ fst); [apply NoDup_fst_map_to_list|].
  intros i [id r] Hi%list_elem_of_lookup_2%elem_of_map_to_list. by apply (lg_device d Hl).
Qed.

Lemma entity_ids_In d id : legacy_ok d →
  is_Some (t_network d !! id) ∨ is_Some (t_device d !! id) ∨ is_Some (t_relay d !! id) ∨ is_Some (t_route d !! id) →
  id ∈ entity_ids d.
Proof.
  intros Hl. unfold entity_ids. rewrite !elem_of_app, !list_elem_of_fmap.
  intros [[x Hx]|[[x Hx]|[[x Hx]|[x Hx]]]].
  - left. exists x. split; [by destruct (lg_network d Hl id x Hx)|apply select_In; eauto].
  - right; left. exists x. split; [by rewrite (lg_device d Hl id x Hx)|apply select_In; eauto].
  - do 2 right; left. exists x. split; [by rewrite (lg_relay d Hl id x Hx)|apply select_In; eauto].
  - do 3 right. exists x. split; [by rewrite (lg_route d Hl id x Hx)|apply select_In; eauto].
Qed.

(** The tables before the epochs are raised. *)
Definition migrated (max_id : Z) (d : Db) : Db :=
  with_device (refresh (rows_by_id d) (t_device d)) (raise_sequence max_id d).

Lemma raise_sequence_value max_id d v : t_sequence d = Some v → 
  raise_sequence max_id d = with_sequence (Some (Z.max v max_id)) d.
Proof.
  intros Hv. unfold raise_sequence. rewrite Hv. destruct (Z.ltb_spec v max_id).
  - by rewrite Z.max_r by lia.
  - rewrite Z.max_l by lia. destruct d. cbn in *. by subst.
Qed.

Lemma migrated_ok d v max_id acc :
  legacy_ok d → t_sequence d = Some v → max_number (entity_ids d) 0 = Ok max_id →
  scan (rows_by_id d) (mkScan ∅ ∅ [] ∅) = Ok acc → db_ok (migrated max_id d).
Proof.
  intros Hl Hv Hmax (Hkn & _ & _ & _ & Hreg & _)%scan_Ok. unfold migrated. rewrite (raise_sequence_value max_id d v Hv).
  pose proof (refresh_all (rows_by_id d) (t_device d) (rows_by_id_NoDup d Hl) (fun r => rows_by_id_In d r Hl) (lg_device d Hl)) as Hlook.
  assert (∀ id, id ∈ entity_ids d → id_ok (Z.max v max_id) id) as Hids.
  { intros id Hid p n Hp Hn ->. pose proof (max_number_bound _ _ _ _ n Hmax Hid (entity_number_format p n Hp Hn)). lia. }
  assert (∀ id r, refresh (rows_by_id d) (t_device d) !! id = Some r → ∃ q, t_device d !! id = Some q ∧ r = fresh_row q ∧ q ∈ rows_by_id d ∧ w_id q = id) as Hrow.
  { intros id r. rewrite Hlook. intros (q & Hq & ->)%fmap_Some. exists q. pose proof (lg_device d Hl id q Hq) as Hid.
    split_and!; [done|done|apply rows_by_id_In; [done|by rewrite Hid]|done]. }
  constructor; cbn.
  - exists (Z.max v max_id). pose proof (lg_sequence d Hl v Hv). pose proof (max_number_fits _ _ _ Hmax ltac:(by unfold fits)).
    split_and!; [done|unfold fits in *; lia|..]; intros id Hid; apply Hids, entity_ids_In; try done; auto.
    right; left. destruct Hid as [r (q & Hq & _)%Hrow]. eauto.
  - apply (lg_network d Hl).
  - apply (lg_route d Hl).
  - apply (lg_relay d Hl).
  - apply (lg_invite d Hl).
  - intros id r (q & Hq & -> & Hin & <-)%Hrow. split; [apply fresh_row_same|]. apply fresh_row_ok. by eapply list.Forall_forall in Hkn.
  - intros id id' r r' (q & _ & -> & Hin & <-)%Hrow (q' & _ & -> & Hin' & <-)%Hrow. unfold same_network_key.
    destruct (fresh_row_same q) as (_ & -> & ->), (fresh_row_same q') as (_ & -> & ->). rewrite !andb_true_iff, !bool_decide_eq_true.
    intros [[[Ha Ha'] Hn] Hk]. destruct (Hreg q Hin Ha) as [Hs1 _], (Hreg q' Hin' Ha') as [Hs2 _].
    unfold key_of in *. rewrite Hn, Hk in Hs1. congruence.
  - intros id id' r r' (q & _ & -> & Hin & <-)%Hrow (q' & _ & -> & Hin' & <-)%Hrow. unfold same_network_v4.
    destruct (fresh_row_same q) as (_ & -> & ->), (fresh_row_same q') as (_ & -> & ->). rewrite !andb_true_iff, !bool_decide_eq_true.
    intros [[[Ha Ha'] Hn] Hk]. destruct (w_address_v4 (fresh_row q)) as [a|] eqn:Hs4, (w_address_v4 (fresh_row q')) as [a'|] eqn:Hs4'; try done.
    apply bool_decide_eq_true in Hk as <-. destruct (Hreg q Hin Ha) as [_ Hs1], (Hreg q' Hin' Ha') as [_ Hs2].
    specialize (Hs1 a Hs4). specialize (Hs2 a Hs4'). rewrite Hn in Hs1. congruence.
Qed.

Lemma raise_legacy max_id d : legacy_ok d → fits 63 max_id → legacy_ok (raise_sequence max_id d) ∧ rows_by_id (raise_sequence max_id d) = rows_by_id d
  ∧ t_device (raise_sequence max_id d) = t_device d.
Proof.
  intros Hl Hf. unfold raise_sequence. destruct (t_sequence d) as [v|] eqn:Hv; [|by split_and!].
  destruct (Z.ltb_spec v max_id); [|by split_and!]. split; [|done]. destruct Hl. constructor; try done. cbn. by intros ? [= <-].
Qed.

Lemma create_index_Ok same s s' u : create_index same s = (Ok u, s') → db s' = db s.
Proof. intros Hx%execute_Ok. destruct (forallb _ _); [|done]. congruence. Qed.

Lemma db_err_Ok {A} (m : res DbError A) s s' a : lift (db_err m) s = (Ok a, s') → m = Ok a ∧ s' = s.
Proof. destruct m; cbn; by intros [= <- <-]. Qed.

Lemma migrate_tx_ok s s' u : legacy_ok (db s) → migrate_tx s = (Ok u, s') → db_ok (db s').
Proof.
  intros Hl. unfold migrate_tx. intros (u1 & s1 & Hb & Hs1)%st_bind_Ok_inv.
  assert (∃ v, t_sequence (db s) = Some v) as [v Hv].
  { unfold begin in Hb. apply st_bind_Ok_inv in Hb as (? & s0 & [_ Hs0]%query_Ok & Hb).
    apply st_bind_Ok_inv in Hb as (n & s2 & Hx%execute_Ok & Hn). rewrite Hs0 in Hx. destruct (t_sequence (db s)) as [v|]; [by exists v|].
    injection Hx as _ <-. done. }
  apply begin_Ok in Hb. rewrite <-Hb in Hl, Hv. clear Hb.
  apply st_bind_Ok_inv in Hs1 as (ids & s2 & [-> Hs2]%query_Ok & Hs1). rewrite <-Hs2 in *.
  apply st_bind_Ok_inv in Hs1 as (mx & s3 & [Hmax ->]%db_err_Ok & Hs1).
  apply st_bind_Ok_inv in Hs1 as (u2 & s4 & Hs4%run_Ok & Hs1).
  destruct (raise_legacy mx (db s2) Hl (max_number_fits _ _ _ Hmax ltac:(by unfold fits))) as (Hl' & Hrows & Hdev). rewrite <-Hs4 in *.
  apply st_bind_Ok_inv in Hs1 as (rows & s5 & [-> Hs5]%query_Ok & Hs1). rewrite Hrows in Hs1.
  apply st_bind_Ok_inv in Hs1 as (acc & s6 & [Hscan ->]%db_err_Ok & Hs1).
  apply st_bind_Ok_inv in Hs1 as (u3 & s7 & Hs7%run_Ok & Hs1).
  apply st_bind_Ok_inv in Hs1 as (u4 & s8 & Hs8%run_Ok & Hs1).
  apply st_bind_Ok_inv in Hs1 as (u5 & s9 & Hs9%update_rows_Ok & Hs1).
  apply st_bind_Ok_inv in Hs1 as (u6 & s10 & Hs10%create_index_Ok & Hs1).
  apply st_bind_Ok_inv in Hs1 as (u7 & s11 & Hs11%create_index_Ok & Hs1).
  destruct (keeps_bump_all (fun _ => True) _ s11 _ _ I Hs1) as [[Hok _] _]. apply Hok. rewrite Hs11, Hs10, Hs9, Hs8, Hs7, Hs5.
  pose proof (scan_Ok _ _ _ Hscan) as (_ & _ & _ & -> & _). cbn [normalized app].
  rewrite updates_refresh; [|intros r Hr; by apply rows_by_id_In; [|rewrite Hrows]|rewrite <-Hrows; by apply rows_by_id_NoDup].
  rewrite Hdev. replace (with_device _ _) with (migrated mx (db s2)) by (unfold migrated; by rewrite Hs4).
  by eapply migrated_ok.
Qed.
End Establish.

(** ** It succeeds when no statement fails *)

Section Total.
Context {W : Type} `{!Database} `{!KeyCodec} `{!KeyCodecLaws} (fine : ∀ k, answer k = Fine).
Implicit Types s : SqlStore W.

Lemma query_fine {A} (f : Db → A) s : query f s = (Ok (f (db s)), tick s).
Proof. unfold query. by rewrite fine. Qed.

Lemma execute_fine {A} (f : Db → res DbError (Db * A)) s d a :
  f (db s) = Ok (d, a) → execute f s = (Ok a, set_db d (tick s)).
Proof. unfold execute. rewrite fine. by intros ->. Qed.

Lemma run_fine f s : run_ f s = (Ok tt, set_db (f (db s)) (tick s)).
Proof. by apply execute_fine. Qed.

Lemma update_rows_fine l s : ∃ s', update_rows l s = (Ok tt, s').
Proof.
  revert s. induction l as [|[[[[id key] a] v6] t] l IH]; intros s; cbn [update_rows]; [eauto|].
  rewrite (st_bind_Ok _ _ _ _ _ (run_fine _ s)). apply IH.
Qed.

Lemma create_index_fine same s :
  (∀ id id' r r', t_device (db s) !! id = Some r → t_device (db s) !! id' = Some r' → same r r' = true → id = id') →
  create_index same s = (Ok tt, set_db (db s) (tick s)).
Proof.
  intros Hu. apply execute_fine. rewrite (proj2 (forallb_forall _ _)); [done|]. intros [id r] Hr%list_elem_of_In%elem_of_map_to_list.
  apply forallb_forall. intros [id' r'] Hr'%list_elem_of_In%elem_of_map_to_list. cbn. destruct (same r r') eqn:Hs; [|by rewrite orb_true_r].
  by rewrite (Hu id id' r r'), bool_decide_true.
Qed.

Lemma bump_fine id s :
  (∀ m, t_network (db s) !! id = Some m → n_config_epoch m < 2 ^ 63 - 1) →
  ∃ s', bump id s = (Ok tt, s') ∧ ∀ n, n ≠ id → t_network (db s') !! n = t_network (db s) !! n.
Proof.
  intros Hroom. unfold bump. destruct (t_network (db s) !! id) as [m|] eqn:Hm.
  - erewrite st_bind_Ok; [|apply execute_fine; unfold bump_network_epoch; rewrite Hm, (proj2 (Z.ltb_lt _ _)) by (by apply Hroom); done].
    eexists. split; [done|]. cbn. intros n Hn. by rewrite lookup_insert_ne.
  - erewrite st_bind_Ok; [|apply execute_fine; unfold bump_network_epoch; by rewrite Hm]. eexists. by split.
Qed.

Lemma bump_all_fine ids s :
  NoDup ids → (∀ id m, id ∈ ids → t_network (db s) !! id = Some m → n_config_epoch m < 2 ^ 63 - 1) →
  ∃ s', bump_all ids s = (Ok tt, s').
Proof.
  intros Hnd. revert s. induction Hnd as [|id ids Hn _ IH]; intros s Hroom; cbn [bump_all]; [eauto|].
  destruct (bump_fine id s) as (s1 & Hs1 & Hsame); [intros m; apply Hroom; by left|].
  rewrite (st_bind_Ok _ _ _ _ _ Hs1). apply IH. intros i m Hi. rewrite Hsame by (by intros ->). apply Hroom. by right.
Qed.

(** Databases that can be migrated. *)
Record migratable (d : Db) : Prop := {
  mg_ids : ∀ id, id ∈ entity_ids d → ∃ n, entity_number id = Ok n;
  mg_rows : ∀ id r, t_device d !! id = Some r → known_row r;
  mg_keys : ∀ id id' r r', t_device d !! id = Some r → t_device d !! id' = Some r' → is_active r = true → is_active r' = true →
    key_of r = key_of r' → id = id';
  mg_v4 : ∀ id id' r r' a, t_device d !! id = Some r → t_device d !! id' = Some r' → is_active r = true → is_active r' = true →
    w_network_id r = w_network_id r' → w_address_v4 (fresh_row r) = Some a → w_address_v4 (fresh_row r') = Some a → id = id';
  mg_epoch : ∀ id n, t_network d !! id = Some n → n_config_epoch n < 2 ^ 63 - 1
}.

Lemma max_number_total ids m : (∀ id, id ∈ ids → ∃ n, entity_number id = Ok n) → ∃ v, max_number ids m = Ok v.
Proof.
  revert m. induction ids as [|id ids IH]; intros m Hids; cbn; [eauto|].
  destruct (Hids id ltac:(by left)) as [n ->]. cbn. apply IH. intros i Hi. apply Hids. by right.
Qed.

Lemma scan_migratable d : legacy_ok d → migratable d → ∃ acc, scan (rows_by_id d) (mkScan ∅ ∅ [] ∅) = Ok acc.
Proof.
  intros Hl []. apply scan_total.
  - apply list.Forall_forall. intros r Hr%rows_by_id_In; [|done]. eauto.
  - by apply rows_by_id_NoDup.
  - intros r _ _. cbn. split; [apply lookup_empty|intros; apply lookup_empty].
  - intros r r' Hr%rows_by_id_In Hr'%rows_by_id_In; [|done..]. by apply mg_keys0.
  - intros r r' a Hr%rows_by_id_In Hr'%rows_by_id_In; [|done..]. by apply mg_v5.
Qed.

Lemma begin_fine s v : t_sequence (db s) = Some v → ∃ s', begin s = (Ok tt, s') ∧ db s' = db s.
Proof.
  intros Hv. unfold begin, pool_begin. rewrite (st_bind_Ok _ _ _ _ _ (query_fine _ s)).
  erewrite st_bind_Ok; [|by apply execute_fine]. cbn. rewrite Hv. cbn. eexists. by split.
Qed.

Lemma migrate_tx_total s v : legacy_ok (db s) → t_sequence (db s) = Some v → migratable (db s) → ∃ s', migrate_tx s = (Ok tt, s').
Proof.
  intros Hl Hv Hm. unfold migrate_tx. destruct (begin_fine s v Hv) as (s1 & Hs1 & Hdb). rewrite (st_bind_Ok _ _ _ _ _ Hs1).
  rewrite (st_bind_Ok _ _ _ _ _ (query_fine _ s1)), Hdb.
  destruct (max_number_total (entity_ids (db s)) 0 (mg_ids _ Hm)) as [mx Hmx].
  pose proof (max_number_fits _ _ _ Hmx ltac:(by unfold fits)) as Hfit.
  destruct (raise_legacy mx (db s) Hl Hfit) as (Hl' & Hrows & Hdev).
  destruct (scan_migratable _ Hl Hm) as [acc Hacc].
  erewrite st_bind_Ok; [|by rewrite Hmx]. rewrite (st_bind_Ok _ _ _ _ _ (run_fine _ _)). cbn [tick db]. rewrite Hdb.
  rewrite (st_bind_Ok _ _ _ _ _ (query_fine _ _)). cbn [set_db db]. rewrite Hrows.
  erewrite st_bind_Ok; [|by rewrite Hacc]. do 2 rewrite (st_bind_Ok _ _ _ _ _ (run_fine _ _)).
  match goal with |- context[update_rows ?l _ ] => idtac | |- ∃ s', (update_rows ?l ≫= ?k) ?s0 = _ =>
    destruct (update_rows_fine l s0) as [s2 Hs2]; pose proof (update_rows_Ok _ _ _ _ Hs2) as Hu; cbn [tick set_db db] in Hu end.
  rewrite (st_bind_Ok _ _ _ _ _ Hs2). 
  assert (db s2 = migrated mx (db s)) as Hmig.
  { rewrite Hu. pose proof (scan_Ok _ _ _ Hacc) as (_ & _ & _ & -> & _). cbn [normalized app].
    rewrite updates_refresh; [|intros r Hr; by apply rows_by_id_In; [|rewrite Hrows]|rewrite <-Hrows; by apply rows_by_id_NoDup].
    unfold migrated. by rewrite Hdev. }
  pose proof (migrated_ok _ v mx acc Hl Hv Hmx Hacc) as Hok. rewrite <-Hmig in Hok.
  rewrite (st_bind_Ok _ _ _ _ _ (create_index_fine _ _ (ok_key _ Hok))).
  rewrite (st_bind_Ok _ _ _ _ _ (create_index_fine _ (set_db (db s2) (tick s2)) (ok_v4 _ Hok))).
  apply bump_all_fine; [apply NoDup_elements|]. intros id m _. cbn [set_db tick db]. rewrite Hmig. unfold migrated.
  rewrite (raise_sequence_value _ _ v Hv). apply (mg_epoch _ Hm).
Qed.
End Total.

(** ** No panic *)

Section Panic.
Context {W : Type} `{!Database} `{!KeyCodec} `{!KeyCodecLaws}.
Abbreviation sql A := (st (SqlStore W) SqlStoreError A).

Lemma db_err_no_panic {A} (m : res DbError A) : m ≠ Panic → db_err m ≠ Panic.
Proof. by destruct m. Qed.

Lemma max_number_no_panic ids m : max_number ids m ≠ Panic.
Proof.
  revert m. induction ids as [|id ids IH]; intros m; cbn [max_number]; [done|].
  assert (entity_number id ≠ Panic) as Hn.
  { unfold entity_number. destruct (rsplit_dash _) as [[p q]|]; [|done]. case_bool_decide; [|done]. destruct q; [done|].
    destruct (span_digits _ _) as [ds []]; [by case_if|done]. }
  destruct (entity_number id); [apply IH|done..].
Qed.

Lemma scan_row_no_panic r acc : scan_row r acc ≠ Panic.
Proof.
  unfold scan_row, scan_known, row_status. repeat case_bool_decide; cbn -[fmt_v4]; try done.
  - destruct (normalize _); cbn -[fmt_v4]; [|done]. destruct (keys acc !! _); cbn -[fmt_v4]; [done|].
    destruct (w_address_v4 r); cbn -[fmt_v4]; [|by case_if]. destruct (parse_v4 _); cbn -[fmt_v4]; [|done].
    destruct (addresses acc !! _); [done|]. cbn -[fmt_v4]. by case_if.
  - by case_if.
Qed.

Lemma scan_no_panic rows acc : scan rows acc ≠ Panic.
Proof.
  revert acc. induction rows as [|r rows IH]; intros acc; cbn [scan]; [done|].
  pose proof (scan_row_no_panic r acc). destruct (scan_row r acc); [apply IH|done..].
Qed.

Definition anyrel : relation Db := fun _ _ => True.
#[local] Instance anyrel_preorder : PreOrder anyrel.
Proof. done. Qed.

Lemma any_bind {A B} (m : sql A) (k : A → sql B) :
  keeps (fun _ => True) anyrel m → (∀ a, keeps (fun _ => True) anyrel (k a)) → keeps (fun _ => True) anyrel (m ≫= k).
Proof. intros Hm Hk. by apply (keeps_bind_post _ _ (fun _ _ => True)). Qed.

Lemma update_rows_no_panic l : keeps (fun _ => True) anyrel (update_rows (W:=W) l).
Proof.
  induction l as [|[[[[id key] a] v6] t] l IH]; cbn [update_rows]; [by apply keeps_ret|].
  apply any_bind; [by apply keeps_run|done].
Qed.

Lemma create_index_no_panic same : keeps (fun _ => True) anyrel (create_index (W:=W) same).
Proof. apply keeps_execute; [apply _|intros d _; by case_if|done]. Qed.

Lemma begin_no_panic : keeps (fun _ => True) anyrel (begin (W:=W)).
Proof.
  apply any_bind; [apply keeps_query_any, _|]. intros []. apply any_bind; [by apply keeps_execute|].
  intros n. destruct (n =? 1); [by apply keeps_ret|by apply keeps_lift].
Qed.

Lemma migrate_tx_no_panic : keeps (fun _ => True) anyrel (migrate_tx (W:=W)).
Proof.
  unfold migrate_tx.
  apply any_bind; [apply begin_no_panic|intros []].
  apply any_bind; [by apply keeps_query_any|intros ids].
  apply any_bind; [by apply keeps_lift, db_err_no_panic, max_number_no_panic|intros mx].
  apply any_bind; [by apply keeps_run|intros []].
  apply any_bind; [by apply keeps_query_any|intros rows].
  apply any_bind; [by apply keeps_lift, db_err_no_panic, scan_no_panic|intros found].
  apply any_bind; [by apply keeps_run|intros []].
  apply any_bind; [by apply keeps_run|intros []].
  apply any_bind; [apply update_rows_no_panic|intros []].
  apply any_bind; [apply create_index_no_panic|intros []].
  apply any_bind; [apply create_index_no_panic|intros []].
  intros s r s' _ Heq. split; [done|]. by destruct (keeps_bump_all (fun _ => True) _ s r s' I Heq).
Qed.
End Panic.
