(* ===== verification/SqlEpoch.v ===== *)
(** * The configuration epoch of the persistent store

    What a device configuration is made of ([view]), and that requests which change it for a
    network also raise the epoch of that network. *)

From Stdlib Require Import Strings.Ascii Strings.String.
From S2P Require Import Prelude.
From S2P Require Import Words.
From S2P Require Import NetText.
From S2P Require Import Prefix.
From S2P Require Import Ipam.
From S2P Require Import RouteTable.
From S2P Require Import Domain.
From S2P Require Import NodeConfig.
From S2P Require Import SqlDb.
From S2P Require Import SqlControl.
From S2P Require Import SqlInv.

(** ** Views *)

Definition device_view (n : string) (r : DeviceRow) : option (string * option string * option string * option string * option string) :=
  if is_active r && bool_decide (w_network_id r = n)
  then Some (w_wg_public_key r, w_address_v4 r, w_address_v6 r, w_endpoints r, w_settings r) else None.
Definition route_view (n : string) (r : Route) : option (string * string) :=
  if bool_decide (r_network_id r = n) && r_approved r then Some (r_device_id r, r_prefix r) else None.
Definition relay_view (n : string) (r : RelayNode) : option RelayNode :=
  if in_scope (l_network_id r) n then Some r else None.

(** The rows that the configurations of a network are computed from. *)
Record View := mkView {
  v_pools : option (string * string);
  v_devices : gmap string (string * option string * option string * option string * option string);
  v_routes : gmap string (string * string);
  v_relays : gmap string RelayNode
}.
Definition view (n : string) (d : Db) : View :=
  mkView ((fun x => (n_ipv4_pool x, n_ipv6_ula x)) <$> t_network d !! n)
    (omap (device_view n) (t_device d)) (omap (route_view n) (t_route d)) (omap (relay_view n) (t_relay d)).
Definition epoch_of (n : string) (d : Db) : option Z := n_config_epoch <$> t_network d !! n.

(** Identifiers that will not be handed out again. *)
Definition known (n : string) (d : Db) : Prop := ∃ v, t_sequence d = Some v ∧ id_ok v n.

(** A change in which only views of networks in [N] change and the epochs of networks in [U]
    rise. *)
Definition delta (N U : string → Prop) : relation Db := fun d d' =>
  (∀ n, known n d → known n d') ∧ (∀ n, epoch_of n d = None → epoch_of n d' = None) ∧
  (∀ n e e', epoch_of n d = Some e → epoch_of n d' = Some e' → e ≤ e' ∧ (U n → e < e')) ∧
  (∀ n, N n ∨ view n d' = view n d).

(** Known networks whose epoch did not rise have the same view. *)
Definition tracks : relation Db := fun d d' =>
  (∀ n, known n d → known n d') ∧
  ∀ n, known n d → (epoch_of n d = None → epoch_of n d' = None) ∧
    ∀ e e', epoch_of n d = Some e → epoch_of n d' = Some e' → e ≤ e' ∧ (e = e' → view n d' = view n d).

#[export] Instance tracks_preorder : PreOrder tracks.
Proof.
  split; [intros d; split; [done|]; intros n _; split; [done|]; intros e e' -> [= <-]; split; [lia|done]|].
  intros a b c [Hk1 H1] [Hk2 H2]. split; [auto|]. intros n Hn. destruct (H1 n Hn) as [Hn1 He1], (H2 n (Hk1 n Hn)) as [Hn2 He2].
  split; [auto|]. intros e e' He He'. destruct (epoch_of n b) as [e1|] eqn:Hb; [|by rewrite Hn2 in He'].
  destruct (He1 e e1 He eq_refl) as [Hle1 Hv1], (He2 e1 e' eq_refl He') as [Hle2 Hv2]. split; [lia|].
  intros <-. assert (e = e1) as <- by lia. by rewrite Hv2, Hv1.
Qed.

Definition never : string → Prop := fun _ => False.

Lemma delta_trans N U1 U2 a b c : delta N U1 a b → delta N U2 b c → delta N (fun n => U1 n ∨ U2 n) a c.
Proof.
  intros (Hk1 & Hn1 & He1 & Hv1) (Hk2 & Hn2 & He2 & Hv2). split_and!; [auto..| |].
  - intros n e e' He He'. destruct (epoch_of n b) as [e1|] eqn:Hb; [|by rewrite Hn2 in He'].
    destruct (He1 n e e1 He Hb) as [Hle1 Hu1], (He2 n e1 e' Hb He') as [Hle2 Hu2]. split; [lia|].
    intros [Hu|Hu]; [specialize (Hu1 Hu)|specialize (Hu2 Hu)]; lia.
  - intros n. destruct (Hv1 n) as [?|Hv1']; [by left|]. destruct (Hv2 n) as [?|Hv2']; [by left|]. right. congruence.
Qed.

Lemma delta_weaken (N U N' U' : string → Prop) d d' :
  (∀ n, N n → N' n) → (∀ n, U' n → is_Some (epoch_of n d) → U n) → delta N U d d' → delta N' U' d d'.
Proof.
  intros HN HU (Hk & Hn & He & Hv). split_and!; [done|done| |].
  - intros n e e' H1 H2. destruct (He n e e' H1 H2) as [Hle Hlt]. split; [done|]. intros Hu. apply Hlt, HU; [done|]. by rewrite H1.
  - intros n. destruct (Hv n) as [?|?]; auto.
Qed.

Lemma delta_then N U a b c : delta N never a b → delta N U b c → delta N U a c.
Proof. intros H1 H2. eapply delta_weaken, delta_trans; [done| |exact H1|exact H2]. intros n Hu _. by right. Qed.

Lemma delta_last N U a b c : delta N U a b → delta N never b c → delta N U a c.
Proof. intros H1 H2. eapply delta_weaken, delta_trans; [done| |exact H1|exact H2]. intros n Hu _. by left. Qed.

Lemma delta_tracks (N U : string → Prop) d d' : (∀ n, N n → U n) → delta N U d d' → tracks d d'.
Proof.
  intros HN (Hk & Hn & He & Hv). split; [done|]. intros n Hkn. split; [apply Hn|]. intros e e' H1 H2.
  destruct (He n e e' H1 H2) as [Hle Hlt]. split; [done|]. intros <-. destruct (Hv n) as [Hu|]; [|done].
  specialize (Hlt (HN n Hu)). lia.
Qed.

(** ** Statements *)

(** A change that leaves networks and sequence alone. *)
Lemma delta_intro N d d' :
  t_network d' = t_network d → t_sequence d' = t_sequence d → (∀ n, N n ∨ view n d' = view n d) → delta N never d d'.
Proof.
  intros Hn Hs Hv. unfold delta, known, epoch_of. rewrite Hn, Hs. split_and!; [done|done| |done].
  intros n e e' -> [= <-]. split; [lia|done].
Qed.

Lemma quiet_delta N d d' :
  t_network d' = t_network d → t_device d' = t_device d → t_route d' = t_route d → t_relay d' = t_relay d →
  t_sequence d' = t_sequence d → delta N never d d'.
Proof. intros H1 H2 H3 H4 H5. apply delta_intro; [done..|]. intros n. right. unfold view. by rewrite H1, H2, H3, H4. Qed.

Lemma sequence_delta N d v : t_sequence d = Some v → delta N never d (with_sequence (Some (v + 1)) d).
Proof.
  intros Hv. split_and!; [|done| |by right].
  - intros n (w & Hw & Hid). rewrite Hv in Hw. injection Hw as <-. exists (v + 1). split; [done|].
    intros p k Hp Hk E. specialize (Hid p k Hp Hk E). lia.
  - unfold epoch_of. cbn. intros n e e' -> [= <-]. split; [lia|done].
Qed.

Lemma omap_insert_same {A B} (f : A → option B) (m : gmap string A) i x :
  f x = m !! i ≫= f → omap f (<[i := x]> m) = omap f m.
Proof.
  intros Hf. apply map_eq. intros j. rewrite !lookup_omap. destruct (decide (i = j)) as [<-|Hne].
  - by rewrite lookup_insert_eq.
  - by rewrite lookup_insert_ne.
Qed.

Lemma omap_alter_same {A B} (f : A → option B) (g : A → A) (m : gmap string A) i :
  (∀ x, m !! i = Some x → f (g x) = f x) → omap f (alter g i m) = omap f m.
Proof.
  intros Hf. apply map_eq. intros j. rewrite !lookup_omap. destruct (decide (i = j)) as [<-|Hne].
  - rewrite lookup_alter_eq. destruct (m !! i); [by apply Hf|done].
  - by rewrite lookup_alter_ne.
Qed.

Lemma omap_filter_same {A B} (f : A → option B) (P : string * A → Prop) `{!∀ x, Decision (P x)} (m : gmap string A) :
  (∀ i x, m !! i = Some x → ¬ P (i, x) → f x = None) → omap f (filter P m) = omap f m.
Proof.
  intros Hf. apply map_eq. intros j. rewrite !lookup_omap. destruct (m !! j) as [x|] eqn:Hx.
  - destruct (decide (P (j, x))) as [Hp|Hp].
    + by rewrite (proj2 (map_lookup_filter_Some P m j x)).
    + rewrite (proj2 (map_lookup_filter_None P m j)); [|right; intros y Hy; congruence]. cbn. symmetry. by apply (Hf j).
  - by rewrite (proj2 (map_lookup_filter_None P m j)); [|left].
Qed.

(** Changed rows of one network. *)
Lemma update_device_delta N f id d :
  (∀ r n, t_device d !! id = Some r → N n ∨ device_view n (f r) = device_view n r) → delta N never d (update_device f id d).
Proof.
  intros Hf. apply delta_intro; [done..|]. intros n. unfold view. cbn.
  destruct (t_device d !! id) as [r|] eqn:Hr.
  - destruct (Hf r n eq_refl) as [?|Hv]; [by left|]. right. f_equal. apply omap_alter_same. congruence.
  - right. f_equal. apply omap_alter_same. congruence.
Qed.

Lemma token_delta N id token d : delta N never d (set_device_token id token d).
Proof. apply update_device_delta. intros r n _. by right. Qed.
Lemma name_delta N id name d : delta N never d (set_device_name id name d).
Proof. apply update_device_delta. intros r n _. by right. Qed.

(** Rows of a network with which [f] keeps them. *)
Lemma update_network_delta (N : string → Prop) f id d :
  (∀ r, w_network_id (f r) = w_network_id r) → (∀ r, t_device d !! id = Some r → N (w_network_id r)) →
  delta N never d (update_device f id d).
Proof.
  intros Hf HN. apply update_device_delta. intros r n Hr. unfold device_view. rewrite Hf.
  destruct (decide (w_network_id r = n)) as [<-|Hne]; [left; by apply HN|]. right. rewrite bool_decide_false, !andb_false_r by done. done.
Qed.

Lemma insert_device_delta `{!KeyCodec} (N : string → Prop) v d d' a :
  N (d_network_id v) → insert_device v d = Ok (d', a) → delta N never d d'.
Proof.
  unfold insert_device. intros HN. destruct (normalize _) as [key|]; cbn; [|done]. case_if; [done|].
  destruct (insert_row _ _ _) as [m| |] eqn:Hm; cbn; [|done..]. intros [= <- _]. apply insert_row_inv in Hm as [Hnone ->].
  apply delta_intro; [done..|]. intros n. destruct (decide (d_network_id v = n)) as [<-|Hne]; [by left|]. right. unfold view. cbn.
  f_equal. apply omap_insert_same. rewrite Hnone. unfold device_view. cbn. by rewrite bool_decide_false, andb_false_r.
Qed.

Lemma insert_route_delta N r d d' a : r_approved r = false → insert_route r d = Ok (d', a) → delta N never d d'.
Proof.
  unfold insert_route. intros Hr. destruct (insert_row _ _ _) as [m| |] eqn:Hm; cbn; [|done..].
  intros [= <- _]. apply insert_row_inv in Hm as [Hnone ->]. apply delta_intro; [done..|]. intros n. right. unfold view. cbn. f_equal.
  apply omap_insert_same. rewrite Hnone. unfold route_view. by rewrite Hr, andb_false_r.
Qed.

Lemma insert_invite_delta N i d d' a : insert_invite i d = Ok (d', a) → delta N never d d'.
Proof.
  unfold insert_invite. destruct (insert_row _ _ _); cbn; [|done..]. intros [= <- _]. by apply quiet_delta.
Qed.

Lemma insert_relay_delta (N : string → Prop) r d d' a :
  (∀ n, in_scope (l_network_id r) n = true → N n) → insert_relay r d = Ok (d', a) → delta N never d d'.
Proof.
  unfold insert_relay. intros HN. destruct (insert_row _ _ _) as [m| |] eqn:Hm; cbn; [|done..].
  intros [= <- _]. apply insert_row_inv in Hm as [Hnone ->]. apply delta_intro; [done..|]. intros n.
  destruct (in_scope (l_network_id r) n) eqn:Hs; [left; auto|]. right. unfold view. cbn. f_equal.
  apply omap_insert_same. rewrite Hnone. unfold relay_view. by rewrite Hs.
Qed.

Lemma replace_relay_delta (N : string → Prop) r old d :
  t_relay d !! l_id r = Some old →
  (∀ n, in_scope (l_network_id r) n = true → N n) → (∀ n, in_scope (l_network_id old) n = true → N n) →
  delta N never d (with_relay (<[l_id r := r]> (t_relay d)) d).
Proof.
  intros Hold Hr Ho. apply delta_intro; [done..|]. intros n.
  destruct (in_scope (l_network_id r) n) eqn:Hs; [left; auto|]. destruct (in_scope (l_network_id old) n) eqn:Hso; [left; auto|].
  right. unfold view. cbn. f_equal. apply omap_insert_same. rewrite Hold. cbn. unfold relay_view. by rewrite Hs, Hso.
Qed.

Lemma approve_delta (N : string → Prop) id b d :
  (∀ r, t_route d !! id = Some r → N (r_network_id r)) → delta N never d (set_route_approved id b d).
Proof.
  intros HN. apply delta_intro; [done..|]. intros n. destruct (t_route d !! id) as [r|] eqn:Hr.
  - destruct (decide (r_network_id r = n)) as [<-|Hne]; [left; auto|]. right. unfold view. cbn. f_equal.
    apply omap_alter_same. intros x Hx. rewrite Hr in Hx. injection Hx as <-. unfold route_view. cbn. by rewrite bool_decide_false.
  - right. unfold view. cbn. f_equal. apply omap_alter_same. congruence.
Qed.

(** Deleted routes: those that were approved matter. *)
Lemma drop_routes_delta (N : string → Prop) (P : string * Route → Prop) `{!∀ x, Decision (P x)} d :
  (∀ n, N n ∨ ∀ i r, t_route d !! i = Some r → ¬ P (i, r) → route_view n r = None) →
  delta N never d (with_route (filter P (t_route d)) d).
Proof.
  intros HN. apply delta_intro; [done..|]. intros n. destruct (HN n) as [?|Hv]; [by left|]. right. unfold view. cbn. f_equal.
  by apply omap_filter_same.
Qed.

Lemma delete_route_delta (N : string → Prop) id d :
  (∀ r, t_route d !! id = Some r → r_approved r = true → N (r_network_id r)) → delta N never d (delete_route_row id d).
Proof.
  intros HN. apply delta_intro; [done..|]. intros n.
  assert (∀ r, t_route d !! id = Some r → route_view n r = None → view n (delete_route_row id d) = view n d) as Hview.
  { intros r Hr Hv. unfold view. cbn. f_equal. apply map_eq. intros j. rewrite !lookup_omap.
    destruct (decide (id = j)) as [<-|Hne]; [by rewrite lookup_delete_eq, Hr; cbn|by rewrite lookup_delete_ne]. }
  destruct (t_route d !! id) as [r|] eqn:Hr; [|right; unfold view, delete_route_row; cbn; by rewrite delete_id].
  unfold route_view in *. destruct (r_approved r) eqn:Ha; [|right; apply (Hview r eq_refl); by rewrite Ha, andb_false_r].
  destruct (decide (r_network_id r = n)) as [<-|Hne]; [left; by apply HN|]. right. apply (Hview r eq_refl). by rewrite bool_decide_false.
Qed.

Lemma consume_delta N code now d d' a : consume_invite code now d = Ok (d', a) → delta N never d d'.
Proof.
  unfold consume_invite. destruct (t_invite d !! code); [case_if|]; intros [= <- _]; by apply quiet_delta.
Qed.

Lemma bump_delta N id d d' a : bump_network_epoch id d = Ok (d', a) → delta N (fun n => n = id) d d'.
Proof.
  unfold bump_network_epoch. destruct (t_network d !! id) as [x|] eqn:Hx.
  - destruct (Z.ltb_spec (n_config_epoch x) (2 ^ 63 - 1)); [|done]. intros [= <- _]. unfold delta, known, epoch_of, view. cbn. split_and!.
    + done.
    + intros n. destruct (decide (id = n)) as [<-|Hne]; [by rewrite Hx|by rewrite lookup_insert_ne].
    + intros n e e'. destruct (decide (id = n)) as [<-|Hne].
      * rewrite Hx, lookup_insert_eq. cbn. intros [= <-] [= <-]. lia.
      * rewrite lookup_insert_ne by done. intros -> [= <-]. split; [lia|by intros ->].
    + intros n. right. f_equal. destruct (decide (id = n)) as [<-|Hne]; [by rewrite lookup_insert_eq, Hx|by rewrite lookup_insert_ne].
  - intros [= <- _]. unfold delta. split_and!; [done|done| |by right]. intros n e e' He He'. split; [rewrite He in He'; injection He'; lia|].
    intros ->. unfold epoch_of in He. by rewrite Hx in He.
Qed.

(** ** Operations *)

Section Ops.
Context {W : Type} `{!EpochWatch W} `{!Database} `{!KeyCodec} `{!KeyCodecLaws} `{!JsonText}.
Abbreviation sql A := (st (SqlStore W) SqlStoreError A).

(** From a database with [P], a success of [m] is in relation [R]. *)
Definition succeeds {A} (P : Db → Prop) (R : relation Db) (m : sql A) : Prop :=
  ∀ s a s', P (db s) → m s = (Ok a, s') → R (db s) (db s').

Section Rules.
Context (P : Db → Prop) (R : relation Db).

Lemma ok_query {A B} (f : Db → A) (k : A → sql B) :
  (∀ a, succeeds (fun d => P d ∧ f d = a) R (k a)) → succeeds P R (query f ≫= k).
Proof. intros Hk s b s' Hp (a & s1 & [-> Hd]%query_Ok & Hb)%st_bind_Ok_inv. rewrite <-Hd in *. by eapply Hk. Qed.

Lemma ok_lift {A B} (m : res SqlStoreError A) (k : A → sql B) :
  (∀ a, m = Ok a → succeeds P R (k a)) → succeeds P R (lift m ≫= k).
Proof.
  intros Hk s b s' Hp (a & s1 & Hm & Hb)%st_bind_Ok_inv. unfold lift in Hm. injection Hm as Hm <-. by eapply Hk.
Qed.

Lemma ok_random {B} n (k : string → sql B) : (∀ a, succeeds P R (k a)) → succeeds P R (random n ≫= k).
Proof. intros Hk s b s' Hp (a & s1 & [= Ha <-] & Hb)%st_bind_Ok_inv. by apply (Hk a (tick s) b s'). Qed.

Lemma ok_begin {B} (k : unit → sql B) : succeeds P R (k tt) → succeeds P R (begin ≫= k).
Proof. intros Hk s b s' Hp ([] & s1 & Hd%begin_Ok & Hb)%st_bind_Ok_inv. rewrite <-Hd in *. by eapply Hk. Qed.

Lemma ok_ret {A} (a : A) `{!Reflexive R} : succeeds P R (mret a).
Proof. by intros s b s' Hp [= _ <-]. Qed.

Lemma ok_err {A} e : succeeds P R (lift (Err e) : sql A).
Proof. by intros s b s' Hp [= ]. Qed.

Lemma ok_query_any {A} (f : Db → A) `{!Reflexive R} : succeeds P R (query f).
Proof. intros s b s' Hp [_ ->]%query_Ok. done. Qed.

Lemma ok_lock {B} id (k : unit → sql B) : succeeds P R (k tt) → succeeds P R (lock_active_device id ≫= k).
Proof.
  intros Hk s b s' Hp ([] & s1 & Hl & Hb)%st_bind_Ok_inv. unfold lock_active_device in Hl.
  apply st_bind_Ok_inv in Hl as (n & s2 & Hx%execute_Ok & Hl). injection Hx as Hx _. destruct (n =? 1); [|done].
  injection Hl as <-. rewrite Hx in *. by eapply Hk.
Qed.
End Rules.

Lemma ok_weaken {A} (P P' : Db → Prop) (R : relation Db) (m : sql A) : (∀ d, P' d → P d) → succeeds P R m → succeeds P' R m.
Proof. intros Hp Hm s a s' Hs. by apply Hm, Hp. Qed.

(** Raising epochs is the last thing that matters. *)
Lemma ok_delta {A} (N : string → Prop) P (m : sql A) : succeeds P (delta N N) m → succeeds P tracks m.
Proof. intros Hm s a s' Hp Heq. eapply delta_tracks; [|by eapply Hm]. done. Qed.

Lemma ok_pre {A B} (N U : string → Prop) (P Q : Db → Prop) (m : sql A) (k : A → sql B) :
  succeeds P (delta N never) m → (∀ s a s', P (db s) → m s = (Ok a, s') → Q (db s')) →
  (∀ a, succeeds Q (delta N U) (k a)) → succeeds P (delta N U) (m ≫= k).
Proof.
  intros Hm HQ Hk s b s' Hp (a & s1 & Ha & Hb)%st_bind_Ok_inv.
  eapply delta_then; [by eapply Hm|]. eapply Hk; [by eapply HQ|done].
Qed.

(** A statement, with what it says afterwards. *)
Lemma ok_execute {A B} (N U : string → Prop) P (f : Db → res DbError (Db * A)) (k : A → sql B) :
  (∀ d d' a, P d → f d = Ok (d', a) → delta N never d d') →
  (∀ a, succeeds (fun d' => ∃ d, P d ∧ f d = Ok (d', a)) (delta N U) (k a)) → succeeds P (delta N U) (execute f ≫= k).
Proof.
  intros Hf Hk s b s' Hp (a & s1 & Ha%execute_Ok & Hb)%st_bind_Ok_inv.
  eapply delta_then; [by eapply Hf|]. eapply Hk; [|done]. eauto.
Qed.

Lemma ok_run {B} (N U : string → Prop) P (f : Db → Db) (k : unit → sql B) :
  (∀ d, P d → delta N never d (f d)) → succeeds (fun d' => ∃ d, P d ∧ d' = f d) (delta N U) (k tt) →
  succeeds P (delta N U) (run_ f ≫= k).
Proof.
  intros Hf Hk. apply ok_execute; [intros d d' [] Hp [= <-]; auto|]. intros []. eapply ok_weaken, Hk.
  intros d' (d & Hp & [= <-]). eauto.
Qed.

Lemma ok_next {B} (N U : string → Prop) P (k : Z → sql B) :
  (∀ n, succeeds (fun d' => ∃ d v, P d ∧ d' = with_sequence v d) (delta N U) (k n)) → succeeds P (delta N U) (next ≫= k).
Proof.
  intros Hk s b s' Hp (n & s1 & (v & Hv & _ & -> & Hd)%next_Ok & Hb)%st_bind_Ok_inv.
  eapply delta_then; [by apply sequence_delta|]. rewrite <-Hd. eapply Hk; [|done]. eauto.
Qed.

(** Nothing happens any more. *)
Definition idle {A} (m : sql A) : Prop := succeeds (fun _ => True) eq m.

Lemma ok_bump {B} (N U : string → Prop) P id (k : unit → sql B) :
  (∀ n, U n → n = id) → idle (k tt) → succeeds P (delta N U) (bump id ≫= k).
Proof.
  intros HU Hk s b s' Hp ([] & s1 & Hbump & <-%Hk)%st_bind_Ok_inv; [|done]. unfold bump in Hbump.
  apply st_bind_Ok_inv in Hbump as (a & s2 & Hx%execute_Ok & [= <-]).
  eapply delta_weaken, bump_delta, Hx; [done|]. intros n Hu _. by apply HU.
Qed.

Lemma bump_all_delta N ids s s' u : bump_all (W:=W) ids s = (Ok u, s') → delta N (fun n => n ∈ ids) (db s) (db s').
Proof.
  revert s. induction ids as [|id ids IH]; intros s; cbn [bump_all].
  - intros [= _ <-]. eapply delta_weaken, quiet_delta; [done|by intros n ?%not_elem_of_nil|done..].
  - intros ([] & s1 & Hbump & Hrest%IH)%st_bind_Ok_inv. unfold bump in Hbump.
    apply st_bind_Ok_inv in Hbump as (a & s2 & Hx%execute_Ok & [= <-]).
    eapply delta_weaken, delta_trans; [done| |by eapply bump_delta|exact Hrest]. intros n Hn _. by apply elem_of_cons.
Qed.

Lemma ok_bump_all {B} (N U : string → Prop) (P : Db → Prop) ids (k : unit → sql B) :
  (∀ d n, P d → U n → is_Some (epoch_of n d) → n ∈ ids) → idle (k tt) → succeeds P (delta N U) (bump_all ids ≫= k).
Proof.
  intros HU Hk s b s' Hp ([] & s1 & Hbump & <-%Hk)%st_bind_Ok_inv; [|done].
  eapply delta_weaken, bump_all_delta, Hbump; [done|]. intros n. by apply HU.
Qed.

(** Whatever happens, the epoch tracks the views. *)
Definition tracked {A} (P : Db → Prop) (m : sql A) : Prop :=
  ∀ s r s', P (db s) → m s = (r, s') → tracks (db s) (db s').
Definition anydb : Db → Prop := fun _ => True.
(** The database is not touched. *)
Definition still {A} (m : sql A) : Prop := ∀ s r s', m s = (r, s') → db s' = db s.

Lemma tracked_transaction {A} P (m : sql A) : succeeds P tracks m → tracked P (transaction m).
Proof.
  intros Hm s r s' Hp. unfold transaction. destruct (m s) as [[a|e|] s1] eqn:Hs; [|by intros [= _ <-]..].
  pose proof (Hm s a s1 Hp Hs). destruct (answer _); by intros [= _ <-].
Qed.

Lemma tracked_after {A B} P (m : sql A) (k : A → sql B) : tracked P m → (∀ a, still (k a)) → tracked P (m ≫= k).
Proof.
  intros Hm Hk s r s' Hp. unfold mbind, st_bind. destruct (m s) as [[a|e|] s1] eqn:Hs.
  - intros Heq. rewrite (Hk a s1 r s' Heq). by eapply Hm.
  - intros [= _ <-]. by eapply Hm.
  - intros [= _ <-]. by eapply Hm.
Qed.

Lemma tracked_retry {A} P legacy (m : sql A) :
  (∀ s r s', P (db s) → m s = (r, s') → P (db s')) → tracked P m → tracked P (retry legacy m).
Proof.
  intros HP Hm. unfold retry. generalize 8%nat, 0. intros fuel.
  induction fuel as [|fuel IH]; intros attempt s r s' Hp; cbn [retry_loop]; [by intros [= _ <-]|].
  destruct (m s) as [x s1] eqn:Hx. pose proof (Hm s x s1 Hp Hx) as Ht. pose proof (HP s x s1 Hp Hx) as Hp1.
  destruct x as [a|[]|]; try (by intros [= _ <-]).
  destruct (sqlite_busy e); [destruct (2 <=? attempt)|destruct (_ && _)]; try (by intros [= _ <-]);
    intros Heq; (etrans; [exact Ht|by eapply IH]).
Qed.

Lemma tracked_retry_any {A} legacy (m : sql A) : tracked anydb m → tracked anydb (retry legacy m).
Proof. by apply tracked_retry. Qed.

Lemma still_ret {A} (a : A) : still (mret a).
Proof. by intros s r s' [= _ <-]. Qed.
Lemma still_modify f : (∀ s, db (f s) = db s) → still (modify f).
Proof. intros Hf s r s' [= _ <-]. apply Hf. Qed.
Lemma still_notify id : still (notify (W:=W) id).
Proof.
  intros s r s'. unfold notify, query. destruct (answer _); [destruct (get_network _ _)|..]; by intros [= _ <-].
Qed.
Lemma still_bind {A B} (m : sql A) (k : A → sql B) : still m → (∀ a, still (k a)) → still (m ≫= k).
Proof.
  intros Hm Hk s r s'. unfold mbind, st_bind. destruct (m s) as [[a|e|] s1] eqn:Hs.
  - intros Heq. rewrite (Hk a s1 r s' Heq). by eapply Hm.
  - intros [= _ <-]. by eapply Hm.
  - intros [= _ <-]. by eapply Hm.
Qed.
Lemma still_notify_all ids : still (notify_all (W:=W) ids).
Proof. induction ids; cbn [notify_all]; [apply still_ret|]. apply still_bind; [apply still_notify|done]. Qed.

Lemma idle_ret {A} (a : A) : idle (mret a).
Proof. by intros s b s' _ [= _ <-]. Qed.

Ltac ok_step :=
  match goal with
  | |- succeeds _ _ (begin ≫= _) => apply ok_begin
  | |- succeeds _ _ (query _ ≫= _) => apply ok_query; intros ?
  | |- succeeds _ _ (lift _ ≫= _) => apply ok_lift; intros ? ?
  | |- succeeds _ _ (random _ ≫= _) => apply ok_random; intros ?
  | |- succeeds _ _ (lift (Err _)) => apply ok_err
  | |- succeeds _ tracks (mret _) => apply ok_ret, _
  | |- succeeds _ tracks (query _) => apply ok_query_any, _
  | |- succeeds _ _ (match ?x with _ => _ end) => destruct x eqn:?
  | |- succeeds _ _ (if ?x then _ else _) => destruct x eqn:?
  end.
Ltac ok_steps := repeat ok_step.

Lemma ok_end {A} N P (a : A) : succeeds P (delta N never) (mret a).
Proof. intros s b s' Hp [= _ <-]. by apply quiet_delta. Qed.

Lemma tracked_create_invite n e m : tracked anydb (create_invite (W:=W) n e m).
Proof.
  apply tracked_retry_any, tracked_transaction. ok_steps. apply (ok_delta never).
  apply ok_execute; [intros d d' u _; apply insert_invite_delta|intros u; apply ok_end].
Qed.

Lemma tracked_revoke_invite n c : tracked anydb (revoke_invite (W:=W) n c).
Proof.
  apply tracked_retry_any, tracked_transaction. ok_steps. apply (ok_delta never). apply ok_execute.
  - intros d d' u _. destruct (t_invite d !! c); [case_if|]; intros [= <- _]; by apply quiet_delta.
  - intros u. ok_step; [ok_step|apply ok_end].
Qed.

Lemma tracked_revoke_device id : tracked anydb (revoke_device (W:=W) id).
Proof.
  apply tracked_retry_any, tracked_after; [|intros; apply still_notify]. apply tracked_transaction. ok_steps.
  apply (ok_delta (fun n => n = d_network_id a0)). apply ok_run.
  - intros d [_ Hd]. apply update_network_delta; [done|]. intros r Hr. destruct a as [v|]; [|done]. injection H3 as <-.
    apply get_device_row in Hd as (r' & Hr' & ->). cbn. congruence.
  - apply ok_bump; [done|apply idle_ret].
Qed.

Lemma tracked_set_endpoints id l : tracked anydb (set_endpoints (W:=W) id l).
Proof.
  apply tracked_retry_any, tracked_after; [|intros; apply still_notify]. apply tracked_transaction. unfold pool_begin.
  ok_step. apply ok_lock. ok_steps. apply (ok_delta (fun n => n = d_network_id a1)). apply ok_run.
  - intros d [_ Hd]. apply update_network_delta; [done|]. intros r Hr. destruct a0 as [v|]; [|done]. injection H3 as <-.
    apply get_device_row in Hd as (r' & Hr' & ->). cbn. congruence.
  - apply ok_bump; [done|apply idle_ret].
Qed.

Lemma tracked_report_stats id rx tx peers t : tracked anydb (report_stats (W:=W) id rx tx peers t).
Proof.
  apply tracked_retry_any, tracked_transaction. unfold pool_begin. ok_step. apply ok_lock. apply (ok_delta never).
  intros s u s' _ Hs%run_Ok. rewrite Hs. by apply quiet_delta.
Qed.

Lemma ok_insert_route {B} (N U : string → Prop) P n net dev prefix (k : Z → sql B) :
  (∀ a, succeeds anydb (delta N U) (k a)) →
  succeeds P (delta N U) (execute (insert_route (mkRoute (format_id "route-" n) net dev prefix false)) ≫= k).
Proof.
  intros Hk. apply ok_execute; [intros d d' u _; by apply insert_route_delta|]. intros a. by eapply ok_weaken, Hk.
Qed.

Lemma tracked_advertise_route id prefix : tracked anydb (advertise_route (W:=W) id prefix).
Proof.
  apply tracked_retry_any, tracked_transaction. ok_steps. apply (ok_delta never).
  apply (ok_pre never _ _ anydb); [|done|].
  - ok_step; [ok_step; apply ok_end|apply ok_end].
  - intros active. ok_step; [ok_step|]. apply ok_next. intros x. ok_step. apply ok_insert_route. intros; apply ok_end.
Qed.

Lemma tracked_device_route_change id token prefix withdraw : tracked anydb (device_route_change (W:=W) id token prefix withdraw).
Proof.
  apply tracked_retry_any, tracked_transaction. ok_steps. apply (ok_delta never).
  apply ok_run; [intros d _; by apply quiet_delta|]. ok_step. apply (ok_pre never _ _ anydb); [|done|].
  - ok_steps.
    + intros s u s' _ Hs%run_Ok. rewrite Hs. apply drop_routes_delta. intros n. right. intros i r _ Hr%dec_stable. cbn in Hr.
      unfold route_view. destruct Hr as (_ & _ & ->). by rewrite andb_false_r.
    + apply ok_end.
    + apply ok_next. intros x. apply ok_insert_route. intros; apply ok_end.
  - intros []. ok_step. apply ok_end.
Qed.

Lemma tracked_lift {A B} P (m : res SqlStoreError A) (k : A → sql B) :
  (∀ a, m = Ok a → tracked P (k a)) → tracked P (lift m ≫= k).
Proof. intros Hk. destruct m as [a|e|]; [by apply Hk|by intros s r s' _ [= _ <-]..]. Qed.

Lemma tracked_enroll code name key now : tracked anydb (enroll (W:=W) code name key now).
Proof.
  unfold enroll. apply tracked_lift. intros key' _.
  apply tracked_retry_any, tracked_after; [|intros; apply still_bind; [apply still_notify|intros; apply still_ret]].
  apply tracked_transaction. unfold enroll_body. do 3 ok_step. ok_step; [ok_step|]. do 4 ok_step.
  destruct (list_find _ _) as [[i v]|].
  - apply (ok_delta never), ok_run; [intros d _; apply token_delta|apply ok_end].
  - apply (ok_delta (fun n => n = n_id a2)), ok_execute; [intros d d' u _; apply consume_delta|intros consumed].
    ok_step; [ok_step|]. apply ok_lift. intros [v4 v6] _. apply ok_next. intros x.
    apply ok_execute; [intros d d' u _; by apply insert_device_delta|intros u].
    apply ok_run; [intros d _; apply token_delta|]. apply ok_bump; [done|apply idle_ret].
Qed.

(** ** Import *)

(** The devices created so far. *)
Lemma import_loop_delta n l seen created skipped s acc s' :
  import_loop (W:=W) n l (seen, created, skipped) s = (Ok acc, s') →
  delta (fun x => x = n) never (db s) (db s') ∧ ∃ more, acc.1.2 = created ++ more ∧ (more = [] → db s' = db s).
Proof.
  revert seen created skipped s. induction l as [|[d key] l IH]; intros seen created skipped s; cbn [import_loop].
  { intros [= <- <-]. split; [by apply quiet_delta|]. exists []. by rewrite app_nil_r. }
  intros (acc1 & s1 & Hone & Hrest)%st_bind_Ok_inv. unfold import_one in Hone. case_bool_decide.
  { injection Hone as <- <-. by eapply IH. }
  apply st_bind_Ok_inv in Hone as (x & s2 & (v & Hv & _ & -> & Hd2)%next_Ok & Hone).
  apply st_bind_Ok_inv in Hone as (u & s3 & Hins%execute_Ok & Hone). rewrite Hd2 in Hins.
  apply st_bind_Ok_inv in Hone as (u' & s4 & Hend%run_Ok & [= <- <-]).
  apply IH in Hrest as (Hdelta & more & -> & Hmore). split.
  - eapply delta_then, delta_then, delta_then, Hdelta.
    + by apply (sequence_delta _ (db s)).
    + by eapply insert_device_delta, Hins.
    + rewrite Hend. apply update_network_delta; [done|]. intros r Hr.
      unfold insert_device in Hins. destruct (normalize _); cbn in Hins; [|done]. case_if; [done|].
      destruct (insert_row _ _ _) as [m| |] eqn:Hm in Hins; cbn in Hins; [|done..]. injection Hins as Hd3 _.
      apply insert_row_inv in Hm as [_ ->]. rewrite <-Hd3 in Hr. cbn in Hr. rewrite lookup_insert_eq in Hr. by injection Hr as <-.
  - eexists. rewrite <-app_assoc. by split.
Qed.

Lemma tracked_import n devices : tracked anydb (import_devices (W:=W) n devices).
Proof.
  unfold import_devices. apply tracked_lift. intros l _. apply tracked_lift. intros ks _.
  apply tracked_retry_any, tracked_after; [|intros; apply still_bind; [apply still_notify|intros; apply still_ret]].
  apply tracked_transaction. ok_steps.
  intros s res s' _ ([[seen created] skipped] & s1 & (Hd & more & Heq & Hnone)%import_loop_delta & Hrest)%st_bind_Ok_inv.
  cbn in Heq. subst created. apply st_bind_Ok_inv in Hrest as (u & s2 & Hbump & [= _ <-]). destruct more as [|v more].
  - injection Hbump as _ <-. by rewrite Hnone.
  - apply (delta_tracks (fun x => x = n) (fun x => x = n)); [done|]. eapply delta_then; [exact Hd|].
    apply st_bind_Ok_inv in Hbump as (a1 & s3 & Hx%execute_Ok & [= _ <-]). by eapply bump_delta.
Qed.

(** ** Networks *)

Lemma drop_rows_delta id d : delta (fun n => n = id) never d (drop_network_rows id d).
Proof.
  apply delta_intro; [done..|]. intros n. destruct (decide (n = id)) as [->|Hne]; [by left|]. right. unfold view, drop_network_rows. cbn. f_equal.
  apply map_eq. intros i. rewrite !lookup_omap, lookup_fmap. destruct (t_device d !! i) as [r|]; [|done]. cbn.
  case_bool_decide; [|done]. unfold device_view. cbn. rewrite (bool_decide_false (w_network_id r = n)) by congruence. by rewrite !andb_false_r.
Qed.

Lemma drop_relays_delta id d : delta (fun n => n = id) never d (drop_relays id d).
Proof.
  apply delta_intro; [done..|]. intros n. destruct (decide (n = id)) as [->|Hne]; [by left|]. right. unfold view, drop_relays. cbn. f_equal.
  apply omap_filter_same. intros i r _ Hr%dec_stable. cbn in Hr. unfold relay_view. rewrite Hr. cbn. by rewrite bool_decide_false.
Qed.

Lemma delete_network_delta id d : delta (fun n => n = id) never d (with_network (delete id (t_network d)) d).
Proof.
  unfold delta, known, epoch_of, view. cbn. split_and!; [done|..].
  - intros n. destruct (decide (id = n)) as [<-|Hne]; [by rewrite lookup_delete_eq|by rewrite lookup_delete_ne].
  - intros n e e'. destruct (decide (id = n)) as [<-|Hne]; [by rewrite lookup_delete_eq|].
    rewrite lookup_delete_ne by done. intros -> [= <-]. split; [lia|done].
  - intros n. destruct (decide (n = id)) as [->|Hne]; [by left|]. right. by rewrite lookup_delete_ne.
Qed.

Lemma tracked_delete_network id : tracked anydb (delete_network (W:=W) id).
Proof.
  apply tracked_retry_any, tracked_after; [|intros; by apply still_modify]. apply tracked_transaction. ok_steps.
  apply (ok_delta (fun n => n = id)).
  apply ok_run; [intros d _; apply drop_rows_delta|].
  apply ok_run; [intros d _; by apply quiet_delta|].
  apply ok_run; [intros d _; by apply quiet_delta|].
  apply ok_run; [intros d _; apply drop_routes_delta|].
  { intros n. destruct (decide (n = id)) as [->|Hne]; [by left|]. right. intros i r _ Hr%dec_stable. cbn in Hr.
    unfold route_view. by rewrite bool_decide_false by congruence. }
  apply ok_run; [intros d _; apply drop_relays_delta|].
  intros s b s' _ ([] & s1 & Hbump & Hrest)%st_bind_Ok_inv.
  apply st_bind_Ok_inv in Hbump as (a1 & s3 & Hx%execute_Ok & [= <-]).
  apply st_bind_Ok_inv in Hrest as (u & s2 & Hrun%run_Ok & [= _ <-]). rewrite Hrun.
  eapply delta_last; [by eapply bump_delta|apply delete_network_delta].
Qed.

(** ** Relays *)

Lemma networks_listed d (f : string → bool) n :
  (∀ id x, t_network d !! id = Some x → n_id x = id) → f n = true → is_Some (epoch_of n d) →
  n ∈ List.filter f (n_id <$> select (t_network d)).
Proof.
  unfold epoch_of. intros Hid Hf [e (x & Hx & _)%fmap_Some]. apply list_elem_of_In, filter_In. split; [|done].
  apply list_elem_of_In, list_elem_of_fmap. exists x. split; [by rewrite (Hid n x)|]. apply select_In. eauto.
Qed.

Lemma ok_check_scope {B} P R scope (k : unit → sql B) : succeeds P R (k tt) → succeeds P R (check_scope scope ≫= k).
Proof.
  intros Hk s b s' Hp ([] & s1 & Hc & Hb)%st_bind_Ok_inv. assert (db s1 = db s) as Hd.
  { unfold check_scope in Hc. destruct scope as [id|]; [|by injection Hc as <-].
    apply st_bind_Ok_inv in Hc as (net & s2 & [_ <-]%query_Ok & Hc). destruct net; [by injection Hc as <-|done]. }
  rewrite <-Hd in *. by eapply Hk.
Qed.

Lemma intact_db_ok {A} (m : sql A) : intact m → ∀ s r s', db_ok (db s) → m s = (r, s') → db_ok (db s').
Proof. intros Hm s r s' Hok Heq. destruct (Hm s r s' Hok Heq) as [[Hs _] _]. by apply Hs. Qed.

Lemma tracked_register_relay region url n anytls stun identity :
  tracked db_ok (register_relay_authenticated (W:=W) region url n anytls stun identity).
Proof.
  apply tracked_retry; [apply intact_db_ok, intact_register_relay_once|]. destruct identity as [node_id public_key].
  unfold register_relay_once. cbv beta iota.
  apply tracked_after; [|intros []; apply still_bind; [apply still_notify_all|intros; apply still_ret]].
  apply tracked_transaction. ok_step. apply ok_check_scope. apply (ok_delta (fun x => in_scope n x = true)).
  apply ok_next. intros id.
  apply ok_execute; [intros d d' u _; by apply insert_relay_delta|]. intros u. ok_step.
  apply ok_bump_all; [|apply idle_ret]. intros d x [(d0 & (d1 & v & Hok & ->) & Hins) <-] Hx He. cbn [l_network_id].
  apply networks_listed; [|done|done].
  unfold insert_relay in Hins. destruct (insert_row _ _ _); cbn in Hins; [|done..]. injection Hins as <- _. cbn.
  intros i y Hy. by destruct (ok_network d1 Hok i y Hy).
Qed.

Lemma tracked_update_relay relay : tracked db_ok (update_relay (W:=W) relay).
Proof.
  apply tracked_retry; [apply intact_db_ok, intact_update_relay_once|].
  apply tracked_after; [|intros; apply still_bind; [apply still_notify_all|intros; apply still_ret]].
  apply tracked_transaction. ok_step. apply ok_check_scope. ok_steps.
  apply (ok_delta (fun x => in_scope (l_network_id a0) x || in_scope (l_network_id relay) x = true)). apply ok_run.
  - intros d [_ Hold]. destruct a as [old|]; [|done]. injection H3 as <-.
    eapply replace_relay_delta; [exact Hold|intros x ->; by rewrite orb_true_r|by intros x ->].
  - ok_step. apply ok_bump_all; [|apply idle_ret]. intros d x [(d0 & [Hok _] & ->) <-] Hx He.
    apply networks_listed; [|done|done]. intros i y Hy. by destruct (ok_network d0 Hok i y Hy).
Qed.

(** ** Direct statements *)

Lemma tracked_query {A B} (f : Db → A) (k : A → sql B) :
  (∀ a, tracked (fun d => f d = a) (k a)) → tracked anydb (query f ≫= k).
Proof.
  intros Hk s r s' _. unfold mbind, st_bind, query. destruct (answer (ticks s)); [|by intros [= _ <-]..].
  intros Heq. by apply (Hk (f (db s)) (tick s) r s').
Qed.

Lemma tracked_execute {A} (P : Db → Prop) (f : Db → res DbError (Db * A)) :
  (∀ d d' a, P d → f d = Ok (d', a) → tracks d d') → tracked P (execute f).
Proof.
  intros Hf s r s' Hp. unfold execute. destruct (f (db s)) as [[d a]| |] eqn:Hd, (answer (ticks s)); intros [= _ <-]; try done; by eapply Hf.
Qed.

Lemma tracked_rename id name : tracked anydb (rename_device (W:=W) id name).
Proof.
  apply tracked_query. intros dev. apply tracked_lift. intros v _. apply tracked_after; [|intros; apply still_ret].
  apply tracked_execute. intros d d' u _ [= <- _]. by apply (delta_tracks never never), name_delta.
Qed.

(** ** New networks *)

(** Only the sequence moves, upwards. *)
Definition advances : relation Db := fun d d' =>
  d' = with_sequence (t_sequence d') d ∧ ∀ w, t_sequence d = Some w → ∃ w', t_sequence d' = Some w' ∧ w ≤ w'.

#[local] Instance advances_preorder : PreOrder advances.
Proof.
  split; [intros d; split; [by destruct d|]; intros w Hw; exists w; split; [done|lia]|].
  intros a b c [-> Hab] [-> Hbc]. split; [done|]. intros w (w1 & Hw1 & Hle1)%Hab. destruct (Hbc w1 Hw1) as (w2 & Hw2 & Hle2).
  exists w2. split; [done|lia].
Qed.

Lemma next_keeps : keeps (fun _ => True) advances (transaction (_ ← begin; next (W:=W))).
Proof.
  apply keeps_transaction; [apply _|]. intros s r s' _. unfold mbind at 1, st_bind at 1.
  destruct (begin s) as [[[]|e|] s1] eqn:Hb.
  - apply begin_Ok in Hb. unfold next, mbind, st_bind, execute. rewrite Hb.
    destruct (t_sequence (db s)) as [v|] eqn:Hv; [destruct (v <? 2 ^ 63 - 1)|]; destruct (answer (ticks s1)); intros [= <- <-]; cbn;
      (split; [|done]); rewrite ?Hb; try done; (split; [done|]); intros w Hw; rewrite Hv in Hw; injection Hw as <-; exists (v + 1); (split; [done|lia]).
  - intros [= <- <-]. split; [|done]. unfold begin, pool_begin, mbind, st_bind, query, execute in Hb.
    destruct (answer (ticks s)); [|by injection Hb as _ <-..]. cbn in Hb.
    destruct (answer (S (ticks s))), (t_sequence (db s)); cbn in Hb; try discriminate; injection Hb as _ <-; done.
  - intros [= <- <-]. unfold begin, pool_begin, mbind, st_bind, query, execute in Hb.
    destruct (answer (ticks s)); [|done..]. cbn in Hb. by destruct (answer (S (ticks s))), (t_sequence (db s)).
Qed.

Lemma next_seq_advances s r s' : db_ok (db s) → next_seq (W:=W) s = (r, s') →
  advances (db s) (db s') ∧ ∀ n, r = Ok n → ∃ w, t_sequence (db s) = Some w ∧ w < n ∧ fits 63 n.
Proof.
  assert (keeps (fun _ => True) advances (next_seq (W:=W))) as Hk by (apply keeps_retry; [apply _|by intros ?|apply next_keeps]).
  intros Hok Heq. destruct (Hk s r s' I Heq) as [Hadv0 _]. split; [done|]. unfold next_seq in Heq. intros n ->. apply (retry_Ok (fun _ => True) advances) in Heq as (s1 & _ & [_ Hadv] & (s2 & Hm & Hd)%transaction_Ok);
    [|by intros ?|apply next_keeps|done].
  apply st_bind_Ok_inv in Hm as (u & s3 & Hb%begin_Ok & (v & Hv & Hlt & -> & _)%next_Ok).
  destruct (ok_sequence _ Hok) as (w & Hw & Hf & _). destruct (Hadv w Hw) as (w' & Hw' & Hle). rewrite Hb, Hw' in Hv. injection Hv as ->.
  exists w. unfold fits in *. split_and!; [done|lia..].
Qed.

Lemma advances_tracks d d' : advances d d' → tracks d d'.
Proof.
  intros [-> Hs]. unfold tracks, known, epoch_of, view. cbn. split.
  - intros n (v & (w & Hw & Hle)%Hs & Hid). exists w. split; [done|]. intros p k Hp Hk E. specialize (Hid p k Hp Hk E). lia.
  - intros n _. split; [done|]. intros e e' -> [= <-]. split; [lia|done].
Qed.

Lemma tracked_create_network name : tracked db_ok (create_network (W:=W) name).
Proof.
  intros s r s' Hok. unfold create_network. unfold mbind at 1 2 3, st_bind at 1 2 3. cbn [get modify].
  set (s0 := set_index _ s). change (db s) with (db s0) in *. destruct (next_seq s0) as [[n|e|] s1] eqn:Hn; cbn [modify];
    destruct (next_seq_advances _ _ _ Hok Hn) as [Hadv Hnum]; [|intros [= _ <-]; by apply advances_tracks..].
  destruct (Hnum n eq_refl) as (w & Hw & Hlt & Hf). set (net := mkNetwork _ _ _ _ _).
  assert (∀ d a, insert_network net (db s1) = Ok (d, a) → tracks (db s0) d) as Hins.
  { intros d a. unfold insert_network. destruct (insert_row _ _ _) as [m| |] eqn:Hm; cbn; [|done..]. intros [= <- _].
    apply insert_row_inv in Hm as [_ ->]. destruct (advances_tracks _ _ Hadv) as [Hk Ht]. split; [done|]. intros x Hx.
    assert (x ≠ n_id net) as Hne.
    { intros ->. destruct Hx as (v & Hv & Hid). assert (Some v = Some w) as [= ->] by (etrans; [symmetry; exact Hv|exact Hw]).
      specialize (Hid "net-"%string n ltac:(unfold id_prefixes; set_solver) Hf eq_refl). lia. }
    unfold epoch_of, view. cbn. rewrite lookup_insert_ne by done. by apply Ht. }
  unfold mbind, st_bind, execute. destruct (insert_network net (db s1)) as [[d a]|e|] eqn:Hd, (answer (ticks s1)); intros [= _ <-];
    try (by apply advances_tracks); by eapply Hins.
Qed.

(** ** Changes and epochs in separate statements *)

Lemma ok_bump_and_notify (N U : string → Prop) P id : (∀ n, U n → n = id) → succeeds P (delta N U) (bump_and_notify (W:=W) id).
Proof.
  intros HU. apply ok_bump; [done|]. apply ok_query. intros [x|]; [by intros s u s' _ [= _ <-]|apply ok_ret, _].
Qed.

Lemma settings_tracks id json : succeeds anydb tracks (store_device_settings (W:=W) id json).
Proof.
  unfold store_device_settings. ok_steps. apply (ok_delta (fun n => n = d_network_id a0)), ok_run; [|by apply ok_bump_and_notify].
  intros d [_ Hd]. apply update_network_delta; [done|]. intros r Hr. destruct a as [v|]; [|done]. injection H3 as <-.
  apply get_device_row in Hd as (r' & Hr' & ->). cbn. congruence.
Qed.

Lemma approve_tracks id : succeeds anydb tracks (approve_route (W:=W) id).
Proof.
  unfold approve_route. ok_steps. apply (ok_delta (fun n => n = r_network_id a0)), ok_run; [|by apply ok_bump_and_notify].
  intros d [_ Hd]. apply approve_delta. intros r Hr. destruct a as [v|]; [|done]. injection H3 as <-. unfold get_route in Hd. congruence.
Qed.

Lemma delete_route_tracks id : succeeds anydb tracks (delete_route (W:=W) id).
Proof.
  unfold delete_route. ok_step. ok_step. destruct a as [v|]; [|done]. injection H3 as <-. destruct (r_approved v) eqn:Ha.
  - apply (ok_delta (fun n => n = r_network_id v)), ok_run; [|by apply ok_bump_and_notify].
    intros d [_ Hd]. apply delete_route_delta. unfold get_route in Hd. congruence.
  - apply (ok_delta never), ok_run; [|apply ok_end]. intros d [_ Hd]. apply delete_route_delta. unfold get_route in Hd. congruence.
Qed.

(** ** Requests *)

(** All changes of the request are in one transaction, with the epoch. *)
Definition transactional (q : request) : bool :=
  match q with StoreSettings _ _ | ApproveRoute _ | DeleteRoute _ => false | _ => true end.

Lemma tracked_weaken {A} (P P' : Db → Prop) (m : sql A) : (∀ d, P' d → P d) → tracked P m → tracked P' m.
Proof. intros HP Hm s r s' Hp. by apply Hm, HP. Qed.

Lemma tracked_unit {A} (m : sql A) : tracked db_ok m → tracked db_ok (_ ← m; mret tt).
Proof. intros Hm. apply tracked_after; [done|intros; apply still_ret]. Qed.

Lemma tracked_op q : transactional q = true → tracked db_ok (op_of (W:=W) q).
Proof.
  destruct q; intros Hq; try discriminate Hq; cbn [op_of].
  - apply tracked_unit, tracked_create_network.
  - by eapply tracked_weaken, tracked_delete_network.
  - by eapply tracked_unit, tracked_weaken, tracked_create_invite.
  - by eapply tracked_weaken, tracked_revoke_invite.
  - by eapply tracked_unit, tracked_weaken, tracked_enroll.
  - by eapply tracked_unit, tracked_weaken, tracked_import.
  - by eapply tracked_weaken, tracked_revoke_device.
  - by eapply tracked_unit, tracked_weaken, tracked_rename.
  - by eapply tracked_weaken, tracked_report_stats.
  - by eapply tracked_weaken, tracked_set_endpoints.
  - by eapply tracked_unit, tracked_weaken, tracked_advertise_route.
  - by eapply tracked_unit, tracked_weaken, tracked_device_route_change.
  - apply tracked_unit, tracked_register_relay.
  - apply tracked_unit, tracked_update_relay.
Qed.

(** The request is transactional, or reports success. *)
Definition settled (q : request) (s : SqlStore W) : Prop := transactional q = true ∨ (op_of q s).1 = Ok tt.
Fixpoint all_settled (qs : list request) (s : SqlStore W) : Prop :=
  match qs with [] => True | q :: qs => settled q s ∧ all_settled qs (exec q s) end.

Lemma exec_tracks q (s : SqlStore W) : db_ok (db s) → settled q s → tracks (db s) (db (exec q s)).
Proof.
  intros Hok Hq. unfold settled, exec in *. destruct (op_of q s) as [r s'] eqn:Hs. cbn in *.
  destruct (transactional q) eqn:Ht; [by eapply tracked_op|]. destruct Hq as [?| ->]; [done|].
  destruct q; try discriminate Ht; cbn [op_of] in Hs;
    [by eapply settings_tracks|by eapply approve_tracks|by eapply delete_route_tracks].
Qed.

Lemma run_tracks qs (s : SqlStore W) : db_ok (db s) → all_settled qs s → tracks (db s) (db (run qs s)).
Proof.
  revert s. induction qs as [|q qs IH]; intros s Hok; [done|]. intros [Hq Hqs]. change (run (q :: qs) s) with (run qs (exec q s)).
  etrans; [by apply exec_tracks|]. apply IH; [by apply exec_sound|done].
Qed.
End Ops.
