(* ===== verification/SqlConfig.v ===== *)
(** * The device configuration of the persistent store

    What [device_config] answers is determined, up to the order of its lists, by the view of
    the device's network. *)

From Stdlib Require Import Strings.Ascii Strings.String.
From S2P Require Import Prelude.
From S2P Require Import Words.
From S2P Require Import NetText.
From S2P Require Import Prefix.
From S2P Require Import Ipam.
From S2P Require Import RouteTable.
From S2P Require Import Domain.
From S2P Require Import NodeConfig.
From S2P Require Import SqlDb.
From S2P Require Import SqlControl.
From S2P Require Import SqlInv.
From S2P Require Import SqlEpoch.

(** ** Lists of the rows of a table *)

Lemma map_to_list_omap {A B} (f : A → option B) (m : gmap string A) :
  map_to_list (omap f m) ≡ₚ omap (fun x => pair x.1 <$> f x.2) (map_to_list m).
Proof.
  induction m as [|i x m Hi IH] using map_ind.
  - by rewrite omap_empty, !map_to_list_empty.
  - rewrite map_to_list_insert by done. cbn. destruct (f x) as [y|] eqn:Hy; cbn.
    + rewrite (omap_insert_Some f m i x y) by done. rewrite map_to_list_insert by (by rewrite lookup_omap, Hi). by rewrite IH.
    + rewrite omap_insert_None, delete_id by (done || by rewrite lookup_omap, Hi). done.
Qed.

Lemma omap_select {A B} `{!Database} (f : A → option B) (m : gmap string A) : omap f (select m) ≡ₚ (map_to_list (omap f m)).*2.
Proof.
  rewrite map_to_list_omap, (select_perm m). induction (map_to_list m) as [|[i x] l IH]; cbn; [done|].
  destruct (f x); cbn; by rewrite IH.
Qed.

Lemma fmap_filter_omap {A B} (f : A → B) (p : A → bool) (l : list A) :
  f <$> List.filter p l = omap (fun x => if p x then Some (f x) else None) l.
Proof. induction l as [|x l IH]; cbn; [done|]. destruct (p x); cbn; by rewrite IH. Qed.

Lemma filter_fmap {A B} (f : A → B) (p : B → bool) (l : list A) :
  List.filter p (f <$> l) = f <$> List.filter (fun x => p (f x)) l.
Proof. induction l as [|x l IH]; cbn; [done|]. destruct (p (f x)); cbn; by rewrite IH. Qed.

Lemma filter_filter {A} (p q : A → bool) (l : list A) : List.filter p (List.filter q l) = List.filter (fun x => q x && p x) l.
Proof. induction l as [|x l IH]; cbn; [done|]. destruct (q x); cbn; [destruct (p x); by rewrite IH|done]. Qed.

(** ** Configurations up to order *)

#[export] Instance peer_equiv_equivalence : Equivalence peer_equiv.
Proof.
  unfold peer_equiv. split; [done|intros p q (H1 & H2 & H3 & H4); by rewrite H1, H2, H3, H4|].
  intros p q r (H1 & H2 & H3 & H4) (H5 & H6 & H7 & H8). split_and!; [congruence|by etrans|congruence..].
Qed.

Lemma Forall2_perm_swap {A} (R : relation A) (l k k' : list A) : Forall2 R l k → k ≡ₚ k' → ∃ l', l ≡ₚ l' ∧ Forall2 R l' k'.
Proof.
  intros Hl Hk. revert l Hl. induction Hk as [|x k k' _ IH|x y k|k1 k2 k3 _ IH1 _ IH2]; intros l Hl.
  - exists l. by inversion Hl.
  - inversion Hl as [|a ? l0 ? Ha Hl0]; subst. destruct (IH l0 Hl0) as (l' & Hp & Hf). exists (a :: l'). split; [by constructor|by constructor].
  - inversion Hl as [|a ? l0 ? Ha Hl0]; subst. inversion Hl0 as [|b ? l1 ? Hb Hl1]; subst.
    exists (b :: a :: l1). split; [constructor|by repeat constructor].
  - destruct (IH1 l Hl) as (l1 & Hp1 & Hf1), (IH2 _ Hf1) as (l2 & Hp2 & Hf2). exists l2. split; [by etrans|done].
Qed.

#[export] Instance config_equiv_equivalence : Equivalence config_equiv.
Proof.
  unfold config_equiv. split.
  - intros c. split_and!; try done. exists (c_peers c). split; [done|]. apply Forall_Forall2_diag, list.Forall_forall. done.
  - intros c c' (H1 & H2 & H3 & H4 & H5 & (l & Hp & Hf) & H6 & H7 & H8 & H9). split_and!; try done.
    assert (Forall2 peer_equiv (c_peers c') l) as Hf'. { apply Forall2_flip in Hf. eapply Forall2_impl; [|exact Hf]. intros x y Hxy. by symmetry. }
    destruct (Forall2_perm_swap _ _ _ (c_peers c) Hf' ltac:(by symmetry)) as (l' & Hp' & Hf2). eauto.
  - intros a b c (H1 & H2 & H3 & H4 & H5 & (l & Hp & Hf) & H6 & H7 & H8 & H9)
      (G1 & G2 & G3 & G4 & G5 & (k & Gp & Gf) & G6 & G7 & G8 & G9). split_and!; try congruence; [|by etrans].
    destruct (Forall2_perm_swap _ _ _ k Hf Gp) as (l' & Hp' & Hf'). exists l'. split; [by etrans|].
    by etrans; [exact Hf'|exact Gf].
Qed.

(** ** The configuration as a function of the view *)

Section Config.
Context {W : Type} `{!EpochWatch W} `{!Database} `{!KeyCodec} `{!JsonText}.

Definition raw_settings (o : option string) : string :=
  match o with Some s => if bool_decide (s = "")%string then "{}" else s | None => "{}" end.
Definition ips_of (v4 v6 : option string) : list string :=
  match v4 with Some a => [(a ++ "/32")%string] | None => [] end ++ match v6 with Some a => [(a ++ "/128")%string] | None => [] end.

Definition view_peer (approved : list (string * string)) (id : string)
    (x : string * option string * option string * option string * option string) : PeerConfig :=
  let '(key, v4, v6, endpoints, settings) := x in
  let endpoints := default [] (csv <$> endpoints) in
  mkPeerConfig key
    (ips_of v4 v6 ++ omap (fun '(did, prefix) => if bool_decide (did = id) then Some prefix else None) approved)
    (match endpoint_override (settings_json (raw_settings settings)) with Some ep => ep :: endpoints | None => endpoints end)
    (is_exit approved id).

(** The configuration of device [id] of network [n] at epoch [e]. *)
Definition view_config (n id : string) (e : Z) (v : View) : option DeviceConfig :=
  '(p4, p6) ← v_pools v;
  '(key, a4, a6, eps, settings) ← v_devices v !! id;
  let approved := (map_to_list (v_routes v)).*2 in
  let '(mtu, dns) := parse_settings (settings_json (raw_settings settings)) in
  Some (mkDeviceConfig [p4; p6] n e a4 a6
    (omap (fun x => if bool_decide (x.1 ≠ id) then Some (view_peer approved x.1 x.2) else None) (map_to_list (v_devices v)))
    (map_to_list (v_relays v)).*2 mtu dns (is_exit approved id)).

Lemma approved_perm n d : approved_routes_for_network n d ≡ₚ (map_to_list (v_routes (view n d))).*2.
Proof.
  unfold approved_routes_for_network. rewrite fmap_filter_omap. cbn. rewrite <-omap_select.
  unfold route_view. done.
Qed.

Lemma relays_perm n d : list_relays n d ≡ₚ (map_to_list (v_relays (view n d))).*2.
Proof.
  cbn. rewrite <-omap_select. unfold list_relays. rewrite <-(list_fmap_id (List.filter _ _)), fmap_filter_omap. unfold relay_view, in_scope. done.
Qed.

Lemma is_exit_permutation l l' id : l ≡ₚ l' → is_exit l id = is_exit l' id.
Proof.
  intros Hl. unfold is_exit. apply eq_bool_prop_intro. rewrite !Is_true_true, !existsb_exists.
  setoid_rewrite <-list_elem_of_In. by setoid_rewrite Hl.
Qed.

Lemma view_peer_perm l l' id x : l ≡ₚ l' → peer_equiv (view_peer l id x) (view_peer l' id x).
Proof.
  intros Hl. destruct x as [[[[key v4] v6] eps] st]. unfold peer_equiv, view_peer.
  cbn [p_wg_public_key p_allowed_ips p_endpoints p_exit]. split_and!; [done| |done|by apply is_exit_permutation]. by rewrite Hl.
Qed.

Definition row_peer (approved : list (string * string)) (r : DeviceRow) : PeerConfig :=
  view_peer approved (w_id r) (w_wg_public_key r, w_address_v4 r, w_address_v6 r, w_endpoints r, w_settings r).

(** What the queries for a peer return. *)
Lemma peer_entry_Ok approved v s p s' r :
  peer_entry (W:=W) approved v s = (Ok p, s') → t_device (db s) !! d_id v = Some r → v = row_device r →
  db s' = db s ∧ p = row_peer approved r.
Proof.
  unfold peer_entry. intros (eps & s1 & [-> Hq1]%query_Ok & (raw & s2 & [-> Hq2]%query_Ok & [= <- <-])%st_bind_Ok_inv)%st_bind_Ok_inv Hr Hv.
  split; [congruence|]. unfold get_device_endpoints, get_device_settings. rewrite Hq1, Hr. by subst v.
Qed.

Lemma peers_Ok approved l s ps s' :
  mapM (peer_entry (W:=W) approved) l s = (Ok ps, s') →
  (∀ v, v ∈ l → ∃ r, t_device (db s) !! d_id v = Some r ∧ v = row_device r) →
  db s' = db s ∧ Forall2 (fun v p => ∀ r, t_device (db s) !! d_id v = Some r → p = row_peer approved r) l ps.
Proof.
  revert s ps. induction l as [|v l IH]; intros s ps; cbn [mapM]; [intros [= <- <-] _; by split|].
  intros (p & s1 & Hp & (ps' & s2 & Hps & [= <- <-])%st_bind_Ok_inv)%st_bind_Ok_inv Hrows.
  destruct (Hrows v ltac:(by left)) as (r & Hr & Hv). destruct (peer_entry_Ok _ _ _ _ _ r Hp Hr Hv) as [Hq1 ->].
  destruct (IH s1 ps' Hps) as [Hq2 Hf]; [intros w Hw; rewrite Hq1; apply Hrows; by right|]. rewrite Hq1 in Hq2, Hf.
  split; [done|]. constructor; [intros r' Hr'; congruence|done].
Qed.

Lemma omap_Forall2 {A B} (R : relation B) (f g : A → option B) (l : list A) :
  (∀ x, x ∈ l → option_Forall2 R (f x) (g x)) → Forall2 R (omap f l) (omap g l).
Proof.
  induction l as [|x l IH]; intros Hl; cbn; [constructor|]. pose proof (Hl x ltac:(by left)) as Hx.
  assert (Forall2 R (omap f l) (omap g l)) by (apply IH; intros y Hy; apply Hl; by right).
  inversion Hx; [by constructor|done].
Qed.

Lemma omap_omap {A B C} (f : B → option C) (g : A → option B) (l : list A) : omap f (omap g l) = omap (fun x => g x ≫= f) l.
Proof. induction l as [|x l IH]; cbn; [done|]. destruct (g x); cbn; by rewrite IH. Qed.

Lemma omap_snd {A B C} (f : B → option C) (l : list (A * B)) : omap f l.*2 = omap (fun x => f x.2) l.
Proof. induction l as [|x l IH]; cbn; [done|]. by rewrite IH. Qed.

Lemma Forall2_image {A B} (P : A → B → Prop) (f : A → B) l k :
  Forall2 P l k → (∀ x y, x ∈ l → P x y → y = f x) → k = f <$> l.
Proof.
  induction 1 as [|x y l k Hxy _ IH]; intros Hf; cbn; [done|]. rewrite <-(Hf x y); [|by left|done].
  f_equal. apply IH. intros a b Ha. apply Hf. by right.
Qed.

(** The peers of a configuration are those of the view. *)
Lemma peers_view n id d approved ps :
  db_ok d → approved ≡ₚ (map_to_list (v_routes (view n d))).*2 →
  Forall2 (fun v p => ∀ r, t_device d !! d_id v = Some r → p = row_peer approved r)
    (List.filter (fun v => bool_decide (d_id v ≠ id) && bool_decide (d_status v = Active)) (list_devices n d)) ps →
  ∃ l, ps ≡ₚ l ∧ Forall2 peer_equiv l
    (omap (fun x => if bool_decide (x.1 ≠ id) then Some (view_peer (map_to_list (v_routes (view n d))).*2 x.1 x.2) else None)
      (map_to_list (v_devices (view n d)))).
Proof.
  intros Hok Happ Hps. unfold list_devices in Hps. rewrite filter_fmap, filter_filter in Hps.
  apply Forall2_fmap_l in Hps. eapply (Forall2_image _ (row_peer approved)) in Hps.
  2: { intros r p [Hr _]%list_elem_of_In%filter_In. cbn. intros Hp. apply Hp.
       apply list_elem_of_In, select_In in Hr as [i Hi]. by destruct (ok_device d Hok i r Hi) as [-> _]. }
  rewrite fmap_filter_omap in Hps. set (h := fun x : string * _ => if bool_decide (x.1 ≠ id) then _ else None).
  assert (Forall2 peer_equiv
    (omap (fun x : string * DeviceRow => if bool_decide (w_network_id x.2 = n) && (bool_decide (d_id (row_device x.2) ≠ id)
        && bool_decide (d_status (row_device x.2) = Active)) then Some (row_peer approved x.2) else None) (map_to_list (t_device d)))
    (omap (fun x => (pair x.1 <$> device_view n x.2) ≫= h) (map_to_list (t_device d)))) as Hf.
  { apply omap_Forall2. intros [i r] Hi%elem_of_map_to_list. cbn. destruct (ok_device d Hok i r Hi) as [<- _].
    unfold device_view. destruct (is_active r) eqn:Ha; cbn; [|rewrite (bool_decide_false (Revoked = Active)), !andb_false_r by done; constructor].
    rewrite (bool_decide_true (Active = Active)), andb_true_r by done. destruct (decide (w_network_id r = n)) as [Hn|Hn].
    - rewrite !(bool_decide_true (w_network_id r = n)) by done. cbn. unfold h. cbn. case_bool_decide; constructor.
      exact (view_peer_perm _ _ (w_id r) (w_wg_public_key r, w_address_v4 r, w_address_v6 r, w_endpoints r, w_settings r) Happ).
    - rewrite !(bool_decide_false (w_network_id r = n)) by done. constructor. }
  rewrite <-omap_omap in Hf. destruct (Forall2_perm_swap _ _ _ (omap h (map_to_list (v_devices (view n d)))) Hf) as (l & Hl & Hfl).
  { cbn. by rewrite map_to_list_omap. }
  exists l. split; [|done]. rewrite <-Hl, Hps, (select_perm (t_device d)), omap_snd. done.
Qed.

Lemma device_config_view id s c s' :
  db_ok (db s) → device_config (W:=W) id s = (Ok c, s') →
  db s' = db s ∧ epoch_of (c_network_id c) (db s) = Some (c_config_epoch c) ∧
  (∃ r, t_device (db s) !! id = Some r ∧ is_active r = true ∧ w_network_id r = c_network_id c) ∧
  ∃ c', view_config (c_network_id c) id (c_config_epoch c) (view (c_network_id c) (db s)) = Some c' ∧ config_equiv c c'.
Proof.
  intros Hok. unfold device_config. intros (o & s1 & [-> Hq1]%query_Ok & Hc)%st_bind_Ok_inv.
  apply st_bind_Ok_inv in Hc as (me & s2 & Hme & Hc). destruct (get_device id (db s)) as [v|] eqn:Hv; [|done]. injection Hme as <- <-.
  apply get_device_row in Hv as (r & Hr & ->). 
  destruct (bool_decide (d_status (row_device r) = Active)) eqn:Hact; cbn [negb] in Hc; [|done]. apply bool_decide_eq_true in Hact.
  assert (is_active r = true) as Ha by (cbn in Hact; by destruct (is_active r)).
  apply st_bind_Ok_inv in Hc as (o & s2 & [-> Hq2]%query_Ok & Hc). apply st_bind_Ok_inv in Hc as (net & s3 & Hnet & Hc).
  unfold row_device in Hc, Hnet. cbn [d_network_id d_id d_address_v4 d_address_v6] in Hc, Hnet.
  rewrite Hq1 in Hnet, Hq2. unfold get_network in Hnet. destruct (t_network (db s) !! w_network_id r) as [net'|] eqn:Hn; [|done].
  injection Hnet as <- <-.
  apply st_bind_Ok_inv in Hc as (approved & s4 & [-> Hq4]%query_Ok & Hc). rewrite Hq2 in *.
  apply st_bind_Ok_inv in Hc as (raw & s5 & [-> Hq5]%query_Ok & Hc). rewrite Hq4 in *.
  unfold get_device_settings in Hc at 1. rewrite Hr in Hc. cbn [mbind option_bind] in Hc.
  destruct (parse_settings _) as [mtu dns] eqn:Hset.
  apply st_bind_Ok_inv in Hc as (devices & s6 & [-> Hq6]%query_Ok & Hc). rewrite Hq5 in *.
  apply st_bind_Ok_inv in Hc as (ps & s7 & Hps & Hc).
  apply st_bind_Ok_inv in Hc as (relays & s8 & [-> Hq8]%query_Ok & [= <- <-]). cbn [c_network_id c_config_epoch].
  apply peers_Ok in Hps as [Hq7 Hps].
  2: { intros v [Hv _]%list_elem_of_In%filter_In. rewrite Hq6. eapply listed_row; [done|]. by apply list_elem_of_In. }
  rewrite Hq6 in Hps, Hq7. destruct (ok_device _ Hok id r Hr) as [Hid _].
  split_and!; [congruence|unfold epoch_of; by rewrite Hn|eauto|].
  assert (v_devices (view (w_network_id r) (db s)) !! id =
    Some (w_wg_public_key r, w_address_v4 r, w_address_v6 r, w_endpoints r, w_settings r)) as Hdv.
  { cbn. rewrite lookup_omap, Hr. cbn. unfold device_view. by rewrite Ha, bool_decide_true. }
  assert (v_pools (view (w_network_id r) (db s)) = Some (n_ipv4_pool net', n_ipv6_ula net')) as Hpools by (cbn; by rewrite Hn).
  unfold view_config. rewrite Hdv, Hpools. cbn [mbind option_bind].
  change (raw_settings (w_settings r)) with (match w_settings r with
    Some s => if bool_decide (s = "")%string then "{}"%string else s | None => "{}"%string end). rewrite Hset.
  eexists. split; [done|]. unfold config_equiv. cbn -[view]. rewrite Hq7, Hid in *. split_and!; try done.
  - by apply (peers_view (w_network_id r) id (db s)) in Hps; [|done|apply approved_perm].
  - apply relays_perm.
  - apply is_exit_permutation, approved_perm.
Qed.
End Config.
