(* ===== verification/SqlProps.v ===== *)
(** * What the persistent coordination store guarantees

    Integrity across migration, requests and failures; epochs and configurations; enrolment
    and revocation; the bound on retries; and two gaps of the store. *)

From Stdlib Require Import Strings.Ascii Strings.String.
From S2P Require Import Prelude.
From S2P Require Import Words.
From S2P Require Import NetText.
From S2P Require Import Prefix.
From S2P Require Import Ipam.
From S2P Require Import RouteTable.
From S2P Require Import Domain.
From S2P Require Import NodeConfig.
From S2P Require Import SqlDb.
From S2P Require Import SqlControl.
From S2P Require Import SqlInv.
From S2P Require Import SqlMigrate.
From S2P Require Import SqlEpoch.
From S2P Require Import SqlConfig.

(** ** Concrete instances *)

#[local] Existing Instances hex_codec hex_codec_laws.

(** A database that answers [f k] to statement [k], with rows in the order of their keys. *)
Definition map_db (f : nat → Answer) : Database := {|
  answer := f;
  select _ m := (map_to_list m).*2;
  select_perm _ m := reflexivity _;
  random_hex k _ := text (fmt_dec (Z.of_nat k))
|}.

Definition z_watch : EpochWatch Z := {|
  epoch_channel v := v; epoch_send v _ := v; epoch_advance v w := Z.max v w; epoch_replace v _ := v; epoch_subscribe w := w
|}.
#[local] Existing Instance z_watch.

Definition no_json : JsonText := {| json_parse _ := None; json_print _ := ""%string |}.
#[local] Existing Instance no_json.

(** An empty store, after its first migration. *)
Definition new_store : SqlStore Z := mkSql Z (with_sequence (Some 0) db_empty) 0 ∅ 0.

Lemma new_store_ok : db_ok (db new_store).
Proof.
  constructor; cbn; try (intros *; by rewrite lookup_empty).
  exists 0. split_and!; [done|by unfold fits|intros id [x Hx]; by rewrite lookup_empty in Hx..].
Qed.

Definition key_a : string := "1111111111111111111111111111111111111111111111111111111111111111".
Definition key_b : string := "2222222222222222222222222222222222222222222222222222222222222222".
Definition key_c : string := "3333333333333333333333333333333333333333333333333333333333333333".

(** The code of the invite of [setup]: the answer number of its random code. *)
Definition setup : list request := [CreateNetwork "home"; CreateInvite "net-1" None (Some 5)].
Definition code_1 (d : Db) : string := hd ""%string (map_to_list (t_invite d)).*1.

Section Props.
Context {W : Type} `{!EpochWatch W} `{!Database} `{!KeyCodec} `{!KeyCodecLaws} `{!JsonText}.
Implicit Types s : SqlStore W.

(** ** Migration *)

Lemma init_sequence_legacy d : legacy_ok d → legacy_ok (init_sequence d) ∧ (∃ v, t_sequence (init_sequence d) = Some v) ∧
  (migratable d → migratable (init_sequence d)).
Proof.
  intros Hl. unfold init_sequence. destruct (t_sequence d) as [v|] eqn:Hv; [eauto|]. destruct Hl. split_and!.
  - constructor; try done. cbn. intros ? [= <-]. by unfold fits.
  - by exists 0.
  - intros []. by constructor.
Qed.

(** C26.  Migration establishes the invariant of the database.  From a database with rows
    under their primary keys, counters in range and no invite overdrawn (which migration
    takes over unchecked), whatever statements fail, it ends without a panic; the tables
    are either migrated, with the invariant (canonical keys and IPv4 addresses, unique among
    the active devices of a network, tombstones without credential, a sequence beyond every
    identifier; IPv6 addresses are not checked), or as they were but for a first sequence
    row; success means migrated; and rows that allow it are migrated when nothing fails. *)
Theorem migration_establishes_integrity s r s' :
  legacy_ok (db s) → migrate s = (r, s') →
  r ≠ Panic ∧ (r = Ok tt → db_ok (db s')) ∧
  (db_ok (db s') ∨ db s' = db s ∨ db s' = init_sequence (db s)) ∧
  ((∀ k, answer k = Fine) → migratable (db s) → r = Ok tt).
Proof.
  intros Hl. destruct (init_sequence_legacy _ Hl) as (Hl' & [v Hv] & Hmg). unfold migrate.
  unfold mbind at 1, st_bind at 1, run_ at 1, execute at 1. destruct (answer (ticks s)) eqn:Ha;
    [|intros [= <- <-]; split_and!; [done|done|auto|intros Hf; by rewrite Hf in Ha]..].
  unfold mbind, st_bind, run_, execute. destruct (answer (ticks (set_db _ _))) eqn:Ha2;
    [|intros [= <- <-]; split_and!; [done|done|auto|intros Hf; by rewrite Hf in Ha2]..].
  set (s1 := set_db _ _). assert (db s1 = init_sequence (db s)) as Hs1 by done. rewrite <-Hs1 in *. clearbody s1.
  unfold transaction. destruct (migrate_tx s1) as [x s2] eqn:Hx.
  pose proof (migrate_tx_no_panic s1 x s2 I Hx) as [_ Hnp]. destruct x as [u|e|]; [|intros [= <- <-]|done].
  - pose proof (migrate_tx_ok s1 s2 u Hl' Hx). destruct u, (answer (ticks s2)) eqn:Ha3; intros [= <- <-]; cbn;
      (split_and!; [done|done|auto|]); try done; intros Hf; by rewrite Hf in Ha3.
  - split_and!; [done|done|auto|]. intros Hf Hm%Hmg. destruct (migrate_tx_total Hf s1 v Hl' Hv Hm) as [s3 Hs3]. congruence.
Qed.

(** ** Integrity *)

(** C12.  Requests preserve the invariant of the database: after any sequence of requests,
    with any failures of the database, including answers lost after a commit, active
    devices of a network have different canonical keys and different canonical IPv4
    addresses, invites are not overdrawn, tombstones have neither address nor credential,
    and no identifier is beyond the sequence.  No request panics.  IPv6 addresses are
    checked nowhere and are not part of the invariant. *)
Theorem sql_integrity qs s :
  db_ok (db s) → db_ok (db (run qs s)) ∧ ∀ q, (op_of q (run qs s)).1 ≠ Panic.
Proof.
  intros Hok. assert (db_ok (db (run qs s))) as Hok' by (by apply run_sound). split; [done|]. intros q.
  destruct (op_of q (run qs s)) as [r s'] eqn:Hs. by destruct (intact_op q _ _ _ Hok' Hs).
Qed.

(** ** Configurations and epochs *)

(** C23.  A configuration is exactly what the tables say: an answer to [device_config] is,
    up to the order of its lists, the configuration computed from the active devices, the
    approved routes and the relays of the device's own network at its current epoch; it is
    given to active devices only and changes nothing. *)
Theorem sql_config_exact id s c s' :
  db_ok (db s) → device_config id s = (Ok c, s') →
  db s' = db s ∧ epoch_of (c_network_id c) (db s) = Some (c_config_epoch c) ∧
  (∃ r, t_device (db s) !! id = Some r ∧ is_active r = true ∧ w_network_id r = c_network_id c) ∧
  ∃ c', view_config (c_network_id c) id (c_config_epoch c) (view (c_network_id c) (db s)) = Some c' ∧ config_equiv c c'.
Proof. apply device_config_view. Qed.

(** C13.  The epoch tracks the configuration: over any requests that are transactional or
    report success, with any failures, the epoch of a network does not fall, and while it
    stays the same every device of the network is given the same configuration, up to
    order. *)
Theorem sql_epoch_tracks_config qs s n e e' :
  db_ok (db s) → all_settled qs s → epoch_of n (db s) = Some e → epoch_of n (db (run qs s)) = Some e' →
  e ≤ e' ∧ (e = e' → ∀ id c c' s1 s2, device_config id s = (Ok c, s1) → c_network_id c = n →
    device_config id (run qs s) = (Ok c', s2) → config_equiv c c').
Proof.
  intros Hok Hset He He'. assert (known n (db s)) as Hk.
  { destruct (ok_sequence _ Hok) as (v & Hv & _ & Hn & _). exists v. split; [done|]. apply Hn.
    unfold epoch_of in He. destruct (t_network (db s) !! n); [eauto|done]. }
  pose proof (run_sound qs s Hok) as (Hok' & _ & Hrows). specialize (Hok' Hok).
  destruct (run_tracks qs s Hok Hset) as [_ Ht]. destruct (Ht n Hk) as [_ Hee]. destruct (Hee e e' He He') as [Hle Hview].
  split; [done|]. intros Heq id c c' s1 s2 Hc Hn Hc'. specialize (Hview Heq). subst n e'.
  apply device_config_view in Hc as (_ & Hec & (r & Hr & _ & Hnr) & v & Hv & Hcv); [|done].
  apply device_config_view in Hc' as (_ & Hec' & (r' & Hr' & _ & Hnr') & v' & Hv' & Hcv'); [|done].
  destruct (Hrows id r Hr) as (q & Hq & (_ & Hnq & _)). assert (c_network_id c' = c_network_id c) as Hnn by congruence.
  rewrite Hnn in *. rewrite Hview in Hv'. assert (c_config_epoch c' = c_config_epoch c) as Hcc by congruence. rewrite Hcc in Hv'.
  assert (v' = v) as -> by congruence. etrans; [exact Hcv|by symmetry].
Qed.

(** ** Revocation *)

Lemma revoke_device_Ok id s s' u : revoke_device id s = (Ok u, s') → ∃ r, t_device (db s') !! id = Some r ∧ revoked r.
Proof.
  intros (s1 & Hm)%retry_last. unfold revoke_device_once in Hm.
  apply st_bind_Ok_inv in Hm as (n & s2 & (s3 & Hm & Hd)%transaction_Ok & Hn%still_notify). rewrite Hn, Hd.
  apply st_bind_Ok_inv in Hm as (u1 & s4 & Hb%begin_Ok & Hm). apply st_bind_Ok_inv in Hm as (o & s5 & [-> Hq]%query_Ok & Hm).
  apply st_bind_Ok_inv in Hm as (v & s6 & Hv & Hm). rewrite Hb in Hv. destruct (get_device id (db s1)) as [v'|] eqn:Hg; [|done].
  injection Hv as <- <-. apply get_device_row in Hg as (r & Hr & _).
  apply st_bind_Ok_inv in Hm as (u2 & s7 & Hu%run_Ok & Hm). apply st_bind_Ok_inv in Hm as (u3 & s8 & Hbump & [= _ <-]).
  apply st_bind_Ok_inv in Hbump as (a & s9 & Hx%execute_Ok & [= _ <-]). exists (revoked_row r). split; [|by unfold revoked].
  assert (t_device (db s9) = t_device (db s7)) as ->.
  { unfold bump_network_epoch in Hx. destruct (t_network (db s7) !! _); [destruct (_ <? _)|]; [|done|]; by injection Hx as <- _. }
  rewrite Hu, Hq, Hb. cbn. by rewrite lookup_alter_eq, Hr.
Qed.

(** C24.  Revocation is permanent: once a device has been revoked, after any further requests
    and failures its row is a tombstone without address and credential, no credential is
    accepted for it, it is given no configuration, and it is in the view of no network, so
    that no other device has it as a peer. *)
Theorem sql_revocation_permanent id s s1 qs :
  db_ok (db s) → revoke_device id s = (Ok tt, s1) →
  (∃ r, t_device (db (run qs s1)) !! id = Some r ∧ revoked r) ∧ get_device_token id (db (run qs s1)) = None ∧
  (∀ c s', device_config id (run qs s1) ≠ (Ok c, s')) ∧ ∀ n, v_devices (view n (db (run qs s1))) !! id = None.
Proof.
  intros Hok Hrev. assert (db_ok (db s1)) as Hok1 by (destruct (intact_revoke_device id s _ _ Hok Hrev) as [[Hs _] _]; auto).
  destruct (revoke_device_Ok _ _ _ _ Hrev) as (r & Hr & Hrv). destruct (run_sound qs s1 Hok1) as (Hok' & _ & Hrows).
  destruct (Hrows id r Hr) as (r' & Hr' & Hk). pose proof (revoked_kept _ _ Hrv Hk) as Hrv'. specialize (Hok' Hok1).
  assert (is_active r' = false) as Ha by (unfold is_active; destruct Hrv' as (-> & _); done). split_and!.
  - eauto.
  - unfold get_device_token. rewrite Hr'. cbn. by rewrite Ha.
  - intros c s' (_ & _ & (q & Hq & Hqa & _) & _)%device_config_view; [congruence|done].
  - intros n. cbn. rewrite lookup_omap, Hr'. cbn. unfold device_view. by rewrite Ha.
Qed.

(** ** Retries *)

(** C27.  A retried operation is run at most eight times, and at most three times when only
    contention is retried: more fuel than that changes nothing, whatever the operation
    does. *)
Theorem retry_terminates {A} (m : st (SqlStore W) SqlStoreError A) extra s :
  (∀ legacy, retry_loop (8 + extra) 0 legacy m s = retry legacy m s) ∧
  retry_loop (3 + extra) 0 false m s = retry false m s.
Proof.
  assert (∀ fuel fuel' attempt (legacy : bool) s, (if legacy then 7 else 2) < Z.of_nat fuel + attempt → (fuel ≤ fuel')%nat →
    attempt ≤ (if legacy then 7 else 2) → retry_loop fuel' attempt legacy m s = retry_loop fuel attempt legacy m s) as Hfuel.
  { intros fuel. induction fuel as [|fuel IH]; intros fuel' attempt legacy s0 Hf Hle Hb; [destruct legacy; lia|].
    destruct fuel' as [|fuel']; [lia|]. cbn [retry_loop]. destruct (m s0) as [[a|[]|] s1]; try done.
    destruct (sqlite_busy e).
    - destruct (Z.leb_spec 2 attempt); [done|]. apply IH; [lia|lia|destruct legacy; lia].
    - destruct legacy; cbn [andb]; [|done]. destruct (retryable e); cbn [andb]; [|done].
      destruct (Z.ltb_spec attempt 7); [|done]. apply IH; lia. }
  split; [intros []; apply Hfuel; lia|]. unfold retry. rewrite (Hfuel 3%nat (3 + extra)%nat), (Hfuel 3%nat 8%nat) by lia. done.
Qed.

(** ** Enrolment *)

(** The row stored for an enrolled device. *)
Definition enrolled_row (v : Device) (token : string) (d : Db) : Prop :=
  ∃ r, t_device d !! d_id v = Some r ∧ row_device r = v ∧ is_active r = true ∧ w_auth_token r = Some token.

(** The device was active before: only its credential is new. *)
Definition enrolled_again (key : string) (v : Device) (token : string) (d d' : Db) : Prop :=
  (∃ r, t_device d !! d_id v = Some r ∧ row_device r = v ∧ is_active r = true ∧ w_wg_public_key r = key) ∧
  d' = set_device_token (d_id v) token d.

(** The device is new: the invite was good and is charged, the address is the first free one
    of the pool, the epoch rises. *)
Definition enrolled_new (code name key : string) (now : Z) (v : Device) (d d' : Db) : Prop :=
  t_device d !! d_id v = None ∧ d_name v = name ∧ d_wg_public_key v = key ∧ d_status v = Active ∧
  (∃ i, t_invite d !! code = Some i ∧ (∀ e, i_expires_at i = Some e → now < e) ∧ (∀ m, i_max_uses i = Some m → i_uses i < m) ∧
     i_uses <$> t_invite d' !! code = Some (i_uses i + 1)) ∧
  (∃ net a b c host, t_network d !! d_network_id v = Some net ∧ parse_v4_base (n_ipv4_pool net) = Ok (a, b, c) ∧
     d_address_v4 v = Some (text (fmt_v4 (ipv4_new a b c host))) ∧ 100 ≤ host ≤ 249 ∧
     (host ∉ used_hosts (list_devices (d_network_id v) d)) ∧
     (∀ h, 100 ≤ h < host → h ∈ used_hosts (list_devices (d_network_id v) d)) ∧
     epoch_of (d_network_id v) d' = Some (n_config_epoch net + 1)).

Lemma consume_Ok code now d d' : consume_invite code now d = Ok (d', 1) →
  ∃ i, t_invite d !! code = Some i ∧ (∀ e, i_expires_at i = Some e → now < e) ∧ (∀ m, i_max_uses i = Some m → i_uses i < m) ∧
    i_uses <$> t_invite d' !! code = Some (i_uses i + 1) ∧ t_device d' = t_device d ∧ t_network d' = t_network d.
Proof.
  unfold consume_invite. destruct (t_invite d !! code) as [i|] eqn:Hi; [|done].
  destruct (match i_expires_at i with None => true | Some e => now <? e end) eqn:He; cbn [andb]; [|done].
  destruct (match i_max_uses i with None => true | Some m => i_uses i <? m end) eqn:Hm; [|done]. intros [= <-].
  exists i. split_and!; [done| | | |done|done].
  - intros e Hx. rewrite Hx in He. by apply Z.ltb_lt.
  - intros m Hx. rewrite Hx in Hm. by apply Z.ltb_lt.
  - cbn. by rewrite lookup_insert_eq.
Qed.

Lemma insert_device_Ok v d d' a : insert_device v d = Ok (d', a) → d_status v = Active →
  ∃ key r, normalize (d_wg_public_key v) = Some key ∧ t_device d !! d_id v = None ∧ t_device d' !! d_id v = Some r ∧
    row_device r = mkDevice (d_id v) (d_network_id v) (d_name v) key (d_address_v4 v) (d_address_v6 v) Active ∧ is_active r = true ∧
    t_network d' = t_network d ∧ t_invite d' = t_invite d.
Proof.
  unfold insert_device. destruct (normalize _) as [key|]; cbn; [|done]. case_if; [done|].
  destruct (insert_row _ _ _) as [m| |] eqn:Hm; cbn; [|done..]. intros [= <- _] Hs.
  apply insert_row_inv in Hm as [Hnone ->]. exists key. eexists. cbn. rewrite lookup_insert_eq. split_and!; try done; by rewrite Hs.
Qed.

Lemma bump_Ok n s s' u : bump n s = (Ok u, s') →
  t_device (db s') = t_device (db s) ∧ t_invite (db s') = t_invite (db s) ∧
  ∀ net, t_network (db s) !! n = Some net → epoch_of n (db s') = Some (n_config_epoch net + 1).
Proof.
  intros (a & s9 & Hx%execute_Ok & [= _ <-])%st_bind_Ok_inv. unfold bump_network_epoch in Hx.
  destruct (t_network (db s) !! n) as [net|] eqn:Hn; [|injection Hx as <- _; by split_and!].
  destruct (_ <? _); [|done]. injection Hx as <- _. split_and!; [done|done|]. intros net' [= <-].
  unfold epoch_of. cbn. by rewrite lookup_insert_eq.
Qed.

Lemma enroll_body_Ok code name key now s v token s' :
  db_ok (db s) → normalize key = Some key → enroll_body code name key now s = (Ok (v, token), s') →
  enrolled_row v token (db s') ∧ (enrolled_again key v token (db s) (db s') ∨ enrolled_new code name key now v (db s) (db s')).
Proof.
  intros Hok Hnorm. unfold enroll_body. intros (o & s1 & [-> Hq1]%query_Ok & Hm)%st_bind_Ok_inv.
  apply st_bind_Ok_inv in Hm as (i & s2 & Hi & Hm). injection Hi as Hi <-. case_if; [done|].
  apply st_bind_Ok_inv in Hm as (o & s2 & [-> Hq2]%query_Ok & Hm). apply st_bind_Ok_inv in Hm as (net & s3 & Hnet & Hm).
  injection Hnet as Hnet <-. apply st_bind_Ok_inv in Hm as (devices & s3 & [-> Hq3]%query_Ok & Hm).
  apply st_bind_Ok_inv in Hm as (tok & s4 & Htok & Hm). injection Htok as Htok <-. rewrite Hq2, Hq1 in *.
  unfold get_network in Hnet. destruct (t_network (db s) !! i_network_id i) as [net'|] eqn:Hn; [|done]. injection Hnet as <-.
  destruct (ok_network _ Hok _ _ Hn) as [Hnid _]. destruct (list_find _ _) as [[j dev]|] eqn:Hfind.
  - apply st_bind_Ok_inv in Hm as (u & s5 & Hu%run_Ok & [= <- <- <-]). cbn [db tick] in Hu. rewrite Hq3 in Hu.
    apply list_find_Some in Hfind as (Hdev%list_elem_of_lookup_2 & Hact & _). apply listed_row in Hdev as (r & Hr & Hdev); [|done].
    unfold active_with_key in Hact. apply andb_true_iff in Hact as [Ha%bool_decide_eq_true Hk%bool_decide_eq_true]. rewrite Hdev in Ha, Hk. cbn in Ha, Hk.
    assert (is_active r = true) as Hra by (by destruct (is_active r)). split.
    + exists (set_token_of tok r). rewrite Hu. cbn. rewrite lookup_alter_eq, Hr. split_and!; [done|by rewrite Hdev|done|done].
    + left. split; [|done]. exists r. by split_and!.
  - apply st_bind_Ok_inv in Hm as (n & s5 & Hc%execute_Ok & Hm). cbn [db tick] in Hc. rewrite Hq3 in Hc.
    destruct (Z.eqb_spec n 1) as [->|]; cbn [negb] in Hm; [|done]. apply consume_Ok in Hc as (iv & Hiv & Hexp & Huses & Hiuse & Hd5 & Hn5).
    apply st_bind_Ok_inv in Hm as ([v4 v6] & s6 & Hal & Hm). injection Hal as Hal <-.
    apply st_bind_Ok_inv in Hm as (x & s6 & (w & Hw & _ & -> & Hd6)%next_Ok & Hm).
    apply st_bind_Ok_inv in Hm as (u & s7 & Hins%execute_Ok & Hm). rewrite Hd6 in Hins.
    apply insert_device_Ok in Hins as (k & r & Hk & Hnone & Hr & Hrow & Hra & Hn7 & Hi7); [|done]. cbn [d_wg_public_key] in Hk. cbn [d_id d_network_id d_name d_address_v4 d_address_v6 with_sequence t_device t_network t_invite] in Hnone, Hr, Hrow, Hn7, Hi7.
    apply st_bind_Ok_inv in Hm as (u2 & s8 & Hu%run_Ok & Hm). apply st_bind_Ok_inv in Hm as (u3 & s9 & Hb & [= <- <- <-]).
    apply bump_Ok in Hb as (Hd9 & Hi9 & He9). rewrite Hu in Hd9, Hi9, He9. cbn in Hd9, Hi9, He9.
    assert (k = key) as -> by congruence. split.
    + exists (set_token_of tok r). rewrite Hd9. cbn [d_id]. rewrite lookup_alter_eq, Hr. split_and!; [done|exact Hrow|done|done].
    + right. unfold enrolled_new. cbn [d_id d_name d_wg_public_key d_status d_network_id d_address_v4]. split_and!; try done.
      * by rewrite <-Hd5.
      * exists iv. split_and!; [done..|]. by rewrite Hi9, Hi7.
      * apply allocate_address_Ok in Hal as (a & b & c & host & Hbase & -> & Hh & Hfree & Hlow). exists net', a, b, c, host.
        split_and!; [by rewrite Hnid|done|done|lia|lia|done|done|]. apply He9. by rewrite Hn7, Hn5, Hnid.
Qed.

Lemma enroll_once_Ok code name key now s v token s' :
  db_ok (db s) → normalize key = Some key → enroll_once code name key now s = (Ok (v, token), s') →
  enrolled_row v token (db s') ∧ (enrolled_again key v token (db s) (db s') ∨ enrolled_new code name key now v (db s) (db s')).
Proof.
  intros Hok Hk. unfold enroll_once. intros (x & s2 & (s3 & Hm & Hd)%transaction_Ok & Hret)%st_bind_Ok_inv.
  apply st_bind_Ok_inv in Hret as (u & s4 & Hn%still_notify & [= -> ->]). rewrite Hn, Hd.
  apply st_bind_Ok_inv in Hm as (u1 & s5 & Hb%begin_Ok & Hm). rewrite <-Hb.
  apply enroll_body_Ok in Hm; [done|by rewrite Hb|done].
Qed.

(** C25.  Enrolment.  A success returns the stored active device with its credential, after
    at most seven attempts that failed on contention.  Compared with the database the last
    attempt began with, either the key was enrolled already, and nothing changes but the
    credential; or the invite was neither expired nor used up and is charged once, the
    device is new and gets the lowest free IPv4 address of the pool, and the epoch of the
    network rises by one. *)
Theorem sql_enroll_correct code name key now s v token s' :
  db_ok (db s) → enroll code name key now s = (Ok (v, token), s') →
  ∃ k n s1, normalize key = Some k ∧ (n < 8)%nat ∧ retried (enroll_once code name k now) n s s1 ∧
    enroll_once code name k now s1 = (Ok (v, token), s') ∧ enrolled_row v token (db s') ∧
    (enrolled_again k v token (db s1) (db s') ∨ enrolled_new code name k now v (db s1) (db s')).
Proof.
  intros Hok. unfold enroll. destruct (normalize key) as [k|] eqn:Hk; [|done].
  intros (k' & s0 & [= <- <-] & (n & s1 & Hn & Hr & Hm)%retry_trace)%st_bind_Ok_inv. exists k, n, s1.
  assert (db_ok (db s1)) as Hok1 by (eapply (retried_keeps db_ok sound); [apply db_ok_stable|apply intact_enroll_once|done..]).
  apply normalize_canonical in Hk as [Hk' _]. destruct (enroll_once_Ok _ _ _ _ _ _ _ _ Hok1 Hk' Hm) as [Hrow Hcase]. by split_and!.
Qed.
(** ** The epoch gap *)

(** The number of prefixes the peers of a configuration are given. *)
Definition prefixes (c : DeviceConfig) : nat := sum_list_with (fun p => length (p_allowed_ips p)) (c_peers c).

Lemma prefixes_equiv c c' : config_equiv c c' → prefixes c = prefixes c'.
Proof.
  intros (_ & _ & _ & _ & _ & (l & Hp & Hf) & _). unfold prefixes. transitivity (sum_list_with (fun p => length (p_allowed_ips p)) l).
  - clear Hf. induction Hp; cbn; lia.
  - clear Hp. induction Hf as [|p q l k (_ & Hpq & _) _ IH]; cbn; [done|]. by rewrite IH, Hpq.
Qed.

Lemma sum_lt {A} (f g : A → nat) (l : list A) x : (∀ y, y ∈ l → (f y ≤ g y)%nat) → x ∈ l → (f x < g x)%nat →
  (sum_list_with f l < sum_list_with g l)%nat.
Proof.
  intros Hle Hx Hlt. assert (∀ k, (∀ y, y ∈ k → (f y ≤ g y)%nat) → (sum_list_with f k ≤ sum_list_with g k)%nat) as Hmono.
  { induction k as [|y k IH]; intros Hk; cbn; [lia|]. pose proof (Hk y ltac:(by left)). pose proof (IH ltac:(intros; apply Hk; by right)). lia. }
  apply list_elem_of_split in Hx as (l1 & l2 & ->). rewrite !sum_list_with_app. cbn.
  pose proof (Hmono l1 ltac:(intros; apply Hle; set_solver)). pose proof (Hmono l2 ltac:(intros; apply Hle; set_solver)). lia.
Qed.

Lemma sum_omap {A B} (f : A → option B) (g : B → nat) l :
  sum_list_with g (omap f l) = sum_list_with (fun x => match f x with Some y => g y | None => 0%nat end) l.
Proof. induction l as [|x l IH]; cbn; [done|]. destruct (f x); cbn; by rewrite IH. Qed.

(** A peer has more prefixes when a route of it is approved as well. *)
Lemma view_peer_more approved approved' dev prefix id x :
  approved' ≡ₚ (dev, prefix) :: approved →
  length (p_allowed_ips (view_peer approved' id x)) =
    (length (p_allowed_ips (view_peer approved id x)) + if bool_decide (dev = id) then 1 else 0)%nat.
Proof.
  intros Hp. destruct x as [[[[key v4] v6] eps] st]. cbn. rewrite !length_app, Hp. cbn. case_bool_decide; cbn; lia.
Qed.

(** The configuration has more prefixes when a route of a peer is approved as well. *)
Lemma view_config_more n did e v v' id dev prefix x c c' :
  v_pools v' = v_pools v → v_devices v' = v_devices v → v_routes v' = <[id := (dev, prefix)]> (v_routes v) →
  v_routes v !! id = None → v_devices v !! dev = Some x → dev ≠ did →
  view_config n did e v = Some c → view_config n did e v' = Some c' → (prefixes c < prefixes c')%nat.
Proof.
  intros Hpools Hdevs Hroutes Hnone Hx Hne. unfold view_config. rewrite Hpools, Hdevs, Hroutes.
  destruct (v_pools v) as [[p4 p6]|]; [|done]. cbn [mbind option_bind].
  destruct (v_devices v !! did) as [[[[[key a4] a6] eps] st]|]; [|done]. cbn [mbind option_bind].
  destruct (parse_settings _) as [mtu dns]. intros [= <-] [= <-]. unfold prefixes. cbn [c_peers].
  rewrite !sum_omap. apply (sum_lt _ _ _ (dev, x)).
  - intros [i y] _. cbn [fst snd]. case_bool_decide; [|done].
    rewrite (view_peer_more (map_to_list (v_routes v)).*2 (map_to_list (<[id := (dev, prefix)]> (v_routes v))).*2 dev prefix); [case_bool_decide; lia|].
    by rewrite map_to_list_insert.
  - by apply elem_of_map_to_list.
  - cbn [fst snd]. rewrite bool_decide_eq_true_2 by done.
    rewrite (view_peer_more (map_to_list (v_routes v)).*2 (map_to_list (<[id := (dev, prefix)]> (v_routes v))).*2 dev prefix).
    + rewrite bool_decide_eq_true_2 by done. lia.
    + by rewrite map_to_list_insert.
Qed.

(** Approving the route of an active device changes only the routes of its network. *)
Lemma approved_view id r d : t_route d !! id = Some r → r_approved r = false →
  let v' := view (r_network_id r) (set_route_approved id true d) in
  let v := view (r_network_id r) d in
  v_pools v' = v_pools v ∧ v_devices v' = v_devices v ∧ v_routes v !! id = None ∧
  v_routes v' = <[id := (r_device_id r, r_prefix r)]> (v_routes v).
Proof.
  intros Hr Ha. split_and!; [done|done|cbn; rewrite lookup_omap, Hr; cbn; unfold route_view; by rewrite Ha, andb_false_r|].
  apply map_eq. intros i. cbn. rewrite lookup_omap. destruct (decide (i = id)) as [->|Hi].
  - rewrite lookup_alter_eq, Hr, lookup_insert_eq. cbn. unfold route_view. cbn. by rewrite bool_decide_eq_true_2.
  - by rewrite lookup_alter_ne, lookup_insert_ne, lookup_omap.
Qed.

(** The three statements of an approval, the last of which fails. *)
Lemma approve_half id r e s : t_route (db s) !! id = Some r →
  answer (ticks s) = Fine → answer (S (ticks s)) = Fine → answer (S (S (ticks s))) = Fail e →
  (approve_route id s).1 = Err (DbErr e) ∧ db (approve_route id s).2 = set_route_approved id true (db s).
Proof.
  intros Hr Ha1 Ha2 Ha3. unfold approve_route, bump_and_notify, bump, mbind, st_bind, query, get_route.
  rewrite Ha1, Hr. cbn. unfold run_, execute. cbn. rewrite Ha2. cbn. by rewrite Ha3.
Qed.

(** C39.  The epoch can miss a change.  Approving a route and raising the epoch are separate
    statements.  Whenever a route that was not approved is approved and the statement that
    raises the epoch then fails without effect, the request fails, but the route is approved
    and every epoch is as before: if the route's device is active, every configuration that
    another device of the network is given now has the epoch of the one before, but more
    prefixes for its peers, so that a node that compares epochs keeps the old one. *)
Theorem sql_epoch_gap id r e s :
  db_ok (db s) → t_route (db s) !! id = Some r → r_approved r = false →
  answer (ticks s) = Fine → answer (S (ticks s)) = Fine → answer (S (S (ticks s))) = Fail e →
  ∃ s', approve_route id s = (Err (DbErr e), s') ∧ r_approved <$> t_route (db s') !! id = Some true ∧
    (∀ n, epoch_of n (db s') = epoch_of n (db s)) ∧
    ∀ did x x' c c' s1 s2, is_Some (v_devices (view (r_network_id r) (db s)) !! r_device_id r) → did ≠ r_device_id r →
      db x = db s → device_config did x = (Ok c, s1) → c_network_id c = r_network_id r →
      db x' = db s' → device_config did x' = (Ok c', s2) →
      c_config_epoch c' = c_config_epoch c ∧ ¬ config_equiv c c' ∧ (prefixes c < prefixes c')%nat.
Proof.
  intros Hok Hr Ha Hs1 Hs2 Hs3. destruct (approve_half id r e s Hr Hs1 Hs2 Hs3) as [Hf Hd].
  destruct (approve_route id s) as [x s'] eqn:Hs. cbn in Hf, Hd. subst x. exists s'.
  assert (db_ok (db s')) as Hok' by (by destruct (intact_approve_route id s _ s' Hok Hs) as [[? _] _]; auto).
  split_and!; [done|rewrite Hd; cbn; by rewrite lookup_alter_eq, Hr|by intros n; rewrite Hd|].
  intros did x x' c c' s1 s2 [y Hy] Hne Hdx Hc Hn Hdx' Hc'.
  apply device_config_view in Hc as (_ & He & (row & Hrow & _ & Hrn) & v & Hv & Hcv); [|by rewrite Hdx].
  apply device_config_view in Hc' as (_ & He' & (row' & Hrow' & _ & Hrn') & v' & Hv' & Hcv'); [|by rewrite Hdx'].
  rewrite Hdx in Hrow, He, Hv. rewrite Hdx', Hd in Hrow', He', Hv'. cbn in Hrow'. assert (c_network_id c' = c_network_id c) as Hnn by congruence.
  rewrite Hnn, Hn in *. change (epoch_of (r_network_id r) (set_route_approved id true (db s))) with (epoch_of (r_network_id r) (db s)) in He'.
  assert (c_config_epoch c' = c_config_epoch c) as Hee by congruence. rewrite Hee in Hv'.
  destruct (approved_view id r (db s) Hr Ha) as (Hp & Hdv & Hnone & Hrt).
  pose proof (view_config_more _ _ _ _ _ _ _ _ _ _ _ Hp Hdv Hrt Hnone Hy (not_eq_sym Hne) Hv Hv') as Hlt.
  rewrite <-(prefixes_equiv _ _ Hcv), <-(prefixes_equiv _ _ Hcv') in Hlt. split_and!; [done| |done].
  intros Heq%prefixes_equiv. lia.
Qed.
End Props.

(** ** Examples *)

Definition fine_db : Database := map_db (fun _ => Fine).

Section Examples.
#[local] Existing Instance fine_db.

(** A network with two devices. *)
Definition two_devices : SqlStore Z := run (setup ++ [Enroll "8" "a" key_a 10; Enroll "8" "b" key_b 10]) new_store.

Lemma two_devices_ok : db_ok (db two_devices).
Proof. destruct (run_sound (setup ++ [Enroll "8" "a" key_a 10; Enroll "8" "b" key_b 10]) new_store new_store_ok) as [Hok _]. apply Hok, new_store_ok. Qed.

(** A database of an earlier version: a tombstone still has its address and credential. *)
Definition old_row : DeviceRow :=
  mkRow "dev-7" "net-1" "a" key_a (Some "100.72.16.100"%string) None "revoked" None None (Some "secret"%string).
Definition old_store : SqlStore Z :=
  mkSql Z (with_device {["dev-7"%string := old_row]} db_empty) 0 ∅ 0.

Lemma old_store_legacy : legacy_ok (db old_store).
Proof. constructor; cbn; try (intros *; by rewrite lookup_empty); [done|]. by intros id r [<- <-]%lookup_singleton_Some. Qed.

Lemma migration_establishes_integrity_witness :
  db_ok (db (migrate old_store).2) ∧ t_device (db (migrate old_store).2) !! "dev-7"%string =
    Some (mkRow "dev-7" "net-1" "a" key_a None None "revoked" None None None).
Proof.
  split; [|vm_compute; reflexivity].
  apply (proj1 (proj2 (migration_establishes_integrity old_store (migrate old_store).1 (migrate old_store).2 old_store_legacy
    (surjective_pairing _)))). vm_compute. reflexivity.
Defined.

Lemma sql_integrity_witness : db_ok (db two_devices).
Proof. apply (sql_integrity _ new_store new_store_ok). Defined.

Lemma sql_config_exact_witness : ∃ c, (device_config "dev-2" two_devices).1 = Ok c ∧ c_address_v4 c = Some "100.72.16.100"%string ∧
  epoch_of (c_network_id c) (db two_devices) = Some (c_config_epoch c).
Proof.
  destruct (device_config "dev-2" two_devices) as [r s'] eqn:E.
  destruct r as [c|e|]; [|vm_compute in E; discriminate E..]. exists c. split; [reflexivity|]. split.
  - vm_compute in E. injection E as <- _. reflexivity.
  - exact (proj1 (proj2 (sql_config_exact _ _ _ _ two_devices_ok E))).
Defined.

Lemma sql_epoch_tracks_config_witness : ∃ c c',
  (device_config "dev-2" two_devices).1 = Ok c ∧ (device_config "dev-2" (run [RenameDevice "dev-3" "c"] two_devices)).1 = Ok c' ∧
  config_equiv c c'.
Proof.
  destruct (device_config "dev-2" two_devices) as [r s1] eqn:E.
  destruct (device_config "dev-2" (run [RenameDevice "dev-3" "c"] two_devices)) as [r' s2] eqn:E'.
  destruct r as [c|e|]; [|vm_compute in E; discriminate E..]. destruct r' as [c'|e|]; [|vm_compute in E'; discriminate E'..].
  exists c, c'. split; [reflexivity|]. split; [reflexivity|].
  refine (proj2 (sql_epoch_tracks_config [RenameDevice "dev-3" "c"] two_devices "net-1" 2 2 two_devices_ok _ _ _) eq_refl _ _ _ _ _ E _ E').
  - split; [by left|done].
  - vm_compute. reflexivity.
  - vm_compute. reflexivity.
  - vm_compute in E. injection E as <- _. reflexivity.
Defined.

Lemma sql_revocation_permanent_witness :
  get_device_token "dev-2" (db (run [Enroll "8" "a" key_a 20] (revoke_device "dev-2" two_devices).2)) = None.
Proof.
  apply (sql_revocation_permanent "dev-2" two_devices (revoke_device "dev-2" two_devices).2 [Enroll "8" "a" key_a 20] two_devices_ok).
  etransitivity; [apply surjective_pairing|]. f_equal.
Defined.

Lemma sql_enroll_correct_witness : ∃ v token, (enroll "8" "c" key_c 10 two_devices).1 = Ok (v, token) ∧
  d_address_v4 v = Some "100.72.16.102"%string ∧ enrolled_row v token (db (enroll "8" "c" key_c 10 two_devices).2).
Proof.
  destruct (enroll "8" "c" key_c 10 two_devices) as [r s'] eqn:E.
  destruct r as [[v token]|e|]; [|vm_compute in E; discriminate E..]. exists v, token. split; [reflexivity|]. split.
  - vm_compute in E. injection E as <- _ _. reflexivity.
  - destruct (sql_enroll_correct _ _ _ _ _ _ _ _ two_devices_ok E) as (k & n & s1 & _ & _ & _ & _ & Hrow & _). exact Hrow.
Defined.
End Examples.

(** ** Gaps *)

(** The network with an advertised route of the second device. *)
Definition with_route_3 : SqlStore Z := @exec Z z_watch fine_db hex_codec (AdvertiseRoute "dev-3" "10.1.0.0/16") two_devices.

Definition route_4 : Route := mkRoute "route-4" "net-1" "dev-3" "10.1.0.0/16" false.

(** The approval of that route fails at its third statement. *)
Definition third_fails : Database := map_db (fun k => if (k =? S (S (ticks with_route_3)))%nat then Fail OtherError else Fine).

(** The tables of a store, some statements later. *)
Definition later (x : SqlStore Z) : SqlStore Z := mkSql Z (db x) (net_index x) (epoch_tx x) (10 + ticks x).

Lemma sql_epoch_gap_witness : ∃ c c',
  (@device_config Z third_fails no_json "dev-2" (later with_route_3)).1 = Ok c ∧
  (@device_config Z third_fails no_json "dev-2" (@approve_route Z z_watch third_fails "route-4" with_route_3).2).1 = Ok c' ∧
  c_config_epoch c' = c_config_epoch c ∧ ¬ config_equiv c c'.
Proof.
  assert (db_ok (db with_route_3)) as Hok by (by apply (exec_sound _ two_devices two_devices_ok), two_devices_ok).
  destruct (@sql_epoch_gap Z z_watch third_fails hex_codec hex_codec_laws no_json "route-4" route_4 OtherError with_route_3 Hok)
    as (s' & Hs & _ & _ & Hgap); [vm_compute; reflexivity..|].
  rewrite Hs. cbn [snd].
  destruct (@device_config Z third_fails no_json "dev-2" (later with_route_3)) as [r s1] eqn:E.
  destruct (@device_config Z third_fails no_json "dev-2" s') as [r' s2] eqn:E'.
  destruct r as [c|x|]; [|vm_compute in E; discriminate E..].
  destruct r' as [c'|x|]; [|vm_compute in Hs; injection Hs as <-; vm_compute in E'; discriminate E'..].
  exists c, c'. split; [reflexivity|]. split; [reflexivity|].
  assert (c_network_id c = r_network_id route_4) as Hn by (vm_compute in E; injection E as <- _; reflexivity).
  destruct (Hgap "dev-2"%string (later with_route_3) s' c c' s1 s2) as (He & Hne & _);
    [vm_compute; eexists; reflexivity|discriminate|reflexivity|exact E|exact Hn|reflexivity|exact E'|].
  split; [exact He|exact Hne].
Defined.

(** A device whose IPv6 address an administrator has fixed. *)
Definition fixed_v6 : ImportDevice := mkImport "printer" key_a None (Some "fd72:15ab:0:1::64"%string) [].

(** IPv6 addresses are not checked: neither the unique indexes nor the search for a free
    host look at them, so that an imported address is given to the next device as well,
    and both are active in one network with it. *)
Lemma sql_v6_collision :
  let s := @run Z z_watch fine_db hex_codec (setup ++ [Import "net-1" [fixed_v6]; Enroll "8" "b" key_b 10]) new_store in
  db_ok (db s) ∧ ∃ r r', t_device (db s) !! "dev-2"%string = Some r ∧ t_device (db s) !! "dev-3"%string = Some r' ∧
    is_active r = true ∧ is_active r' = true ∧ w_network_id r = w_network_id r' ∧
    w_address_v6 r = Some "fd72:15ab:0:1::64"%string ∧ w_address_v6 r' = Some "fd72:15ab:0:1::64"%string.
Proof.
  split.
  - by apply (run_sound _ new_store new_store_ok), new_store_ok.
  - do 2 eexists. split_and!; vm_compute; reflexivity.
Qed.
