(* ===== verification/Pop.v ===== *)
(** * Proof of possession at enrolment (control-server/src/pop.rs)

    A client that wants to enrol a public key gets an ephemeral key of the server and answers
    with the Diffie-Hellman secret of the two.  Instants are nanoseconds; random bytes,
    identifiers and the clock are arguments. *)

From Stdlib Require Import Strings.Ascii Strings.String.
From S2P Require Import Prelude.
From S2P Require Import Words.
From S2P Require Import Crypto.
From S2P Require Import NetText.
From S2P Require Import Domain.
From S2P Require Import Probes.

Definition CHALLENGE_TTL : Z := 60 * 10 ^ 9.
Definition MAX_PENDING : Z := 4096.

Record Pending := mkPending { ephemeral : list byte; claimed_pub : list byte; expires : Z }.
Record Challenge := mkChallenge { challenge_id : string; server_pub : string }.

Section Pop.
Context `{!Crypto} `{!KeyCodec}.
Implicit Types m : gmap string Pending.

Definition prune (now : Z) m : gmap string Pending := filter (fun x => now < expires x.2) m.

(** [SharedSecret::was_contributory]: the secret is not the identity, all zeros. *)
Definition was_contributory (shared : list byte) : bool := negb (forallb (fun b => b2z b =? 0) shared).

Definition new_challenge (claimed_pub_hex : string) (seed : list byte) (id : string) (now : Z) m
    : option Challenge * gmap string Pending :=
  match key_decode claimed_pub_hex with
  | None => (None, m)
  | Some claimed =>
      if negb (was_contributory (dh seed claimed)) then (None, m)
      else
        let m := prune now m in
        if MAX_PENDING <=? Z.of_nat (size m) then (None, m)
        else (Some (mkChallenge id (hex_encode (dh_public seed))), <[id := mkPending seed claimed (now + CHALLENGE_TTL)]> m)
  end.

(** [decode_key]. *)
Definition decode_key (hex_str : string) : option (list byte) :=
  v ← hex_decode hex_str; if (length v =? 32)%nat then Some v else None.

Definition verify (id claimed_pub_hex proof_hex : string) (now : Z) m : bool * gmap string Pending :=
  let m := prune now m in
  let entry := m !! id in
  let m := delete id m in
  (match entry with
   | None => false
   | Some entry =>
       if expires entry <=? now then false
       else match key_decode claimed_pub_hex with
            | None => false
            | Some claimed =>
                if negb (bool_decide (claimed = claimed_pub entry)) then false
                else match decode_key proof_hex with
                     | None => false
                     | Some proof =>
                         let expected := dh (ephemeral entry) (claimed_pub entry) in
                         was_contributory expected && ct_eq expected proof
                     end
            end
   end, m).

(** ** Lemmas *)

Lemma prune_subseteq now m : prune now m ⊆ m.
Proof. apply map_filter_subseteq. Qed.

Lemma prune_Some now m id p : prune now m !! id = Some p ↔ m !! id = Some p ∧ now < expires p.
Proof. apply map_lookup_filter_Some. Qed.

Lemma pending_size m m' : m ⊆ m' → (size m ≤ size m')%nat.
Proof. intros Hm%subseteq_dom. rewrite <-!size_dom. by apply subseteq_size. Qed.

(** The table of outstanding challenges is bounded. *)
Lemma new_challenge_bounded k seed id now m :
  Z.of_nat (size m) ≤ MAX_PENDING → Z.of_nat (size (new_challenge k seed id now m).2) ≤ MAX_PENDING.
Proof.
  intros Hm. unfold new_challenge. destruct (key_decode k); [|done]. destruct (negb _); [done|].
  pose proof (pending_size _ _ (prune_subseteq now m)). destruct (Z.leb_spec MAX_PENDING (Z.of_nat (size (prune now m)))); cbn; [lia|].
  rewrite map_size_insert. destruct (_ !! _); cbn; lia.
Qed.

Lemma verify_bounded id k p now m :
  Z.of_nat (size m) ≤ MAX_PENDING → Z.of_nat (size (verify id k p now m).2) ≤ MAX_PENDING.
Proof.
  intros Hm. cbn. pose proof (pending_size _ _ (prune_subseteq now m)).
  pose proof (pending_size _ _ (delete_subseteq (prune now m) id)). lia.
Qed.

(** What a success proves. *)
Lemma verify_true id k proof now m :
  (verify id k proof now m).1 = true →
  ∃ e claimed, m !! id = Some e ∧ now < expires e ∧ key_decode k = Some claimed ∧ claimed_pub e = claimed ∧
    decode_key proof = Some (dh (ephemeral e) claimed) ∧ was_contributory (dh (ephemeral e) claimed) = true.
Proof.
  cbn. destruct (prune now m !! id) as [e|] eqn:He; [|done]. apply prune_Some in He as [He Hexp].
  destruct (Z.leb_spec (expires e) now); [done|]. destruct (key_decode k) as [claimed|]; [|done].
  case_bool_decide as Hc; cbn; [|done]. destruct (decode_key proof) as [p|]; [|done]. intros [Hw Heq%ct_eq_spec]%andb_true_iff.
  exists e, claimed. subst. by split_and!.
Qed.

(** A challenge is used up by its answer. *)
Lemma verify_size id k proof now m :
  ((if (verify id k proof now m).1 then 1 else 0) + size (verify id k proof now m).2 ≤ size m)%nat.
Proof.
  pose proof (pending_size _ _ (prune_subseteq now m)). cbn [verify fst snd]. rewrite map_size_delete.
  destruct (prune now m !! id) as [e|] eqn:He; cbn; [|lia].
  assert (size (prune now m) ≠ 0%nat) by (intros Hz%map_size_empty_inv; by rewrite Hz, lookup_empty in He). case_match; lia.
Qed.

Lemma new_challenge_size k seed id now m :
  (size (new_challenge k seed id now m).2 ≤ size m + match (new_challenge k seed id now m).1 with Some _ => 1 | None => 0 end)%nat.
Proof.
  pose proof (pending_size _ _ (prune_subseteq now m)). unfold new_challenge. destruct (key_decode k); cbn; [|lia].
  destruct (negb _); cbn; [lia|]. destruct (_ <=? _); cbn; [lia|]. rewrite map_size_insert. destruct (_ !! _); cbn; lia.
Qed.

(** A used or unknown challenge is refused. *)
Lemma verify_none id k proof now m : m !! id = None → (verify id k proof now m).1 = false.
Proof. intros Hm. cbn. destruct (prune now m !! id) as [e|] eqn:He; [|done]. apply prune_Some in He as [? _]. congruence. Qed.

Lemma verify_other id k proof now m i p : (verify id k proof now m).2 !! i = Some p → i ≠ id ∧ m !! i = Some p.
Proof. cbn. intros [? [? _]%prune_Some]%lookup_delete_Some. done. Qed.

Lemma new_challenge_lookup k seed id now m i p :
  (new_challenge k seed id now m).2 !! i = Some p →
  m !! i = Some p ∨ i = id ∧ ∃ c, (new_challenge k seed id now m).1 = Some c.
Proof.
  unfold new_challenge. destruct (key_decode k); [|by left]. destruct (negb _); [by left|].
  destruct (_ <=? _); cbn; [intros [? _]%prune_Some; by left|].
  intros [[<- _]|[_ [? _]%prune_Some]]%lookup_insert_Some; [right; eauto|by left].
Qed.

Lemma new_challenge_Some k seed id now m c m' :
  new_challenge k seed id now m = (Some c, m') →
  ∃ claimed, key_decode k = Some claimed ∧ server_pub c = hex_encode (dh_public seed) ∧ was_contributory (dh seed claimed) = true ∧
    m' !! challenge_id c = Some (mkPending seed claimed (now + CHALLENGE_TTL)).
Proof.
  unfold new_challenge. destruct (key_decode k) as [claimed|]; [|done]. destruct (was_contributory _) eqn:Hw; cbn [negb]; [|done].
  destruct (_ <=? _); [done|]. intros [= <- <-]. exists claimed. split_and!; [done..|]. apply lookup_insert_eq.
Qed.

(** An honest client's answer is accepted as long as the challenge is outstanding. *)
Lemma honest_answer `{!CryptoLaws} `{!KeyCodecLaws} secret key seed id exp t m :
  key_decode key = Some (dh_public secret) → was_contributory (dh seed (dh_public secret)) = true →
  m !! id = Some (mkPending seed (dh_public secret) exp) → t < exp →
  (verify id key (hex_encode (dh secret (dh_public seed))) t m).1 = true.
Proof.
  intros Hk Hw Hm Ht. unfold verify. assert (prune t m !! id = Some (mkPending seed (dh_public secret) exp)) as -> by (by apply prune_Some).
  cbn [expires claimed_pub ephemeral fst]. rewrite Hk, bool_decide_eq_true_2 by done. destruct (Z.leb_spec exp t); [lia|].
  unfold decode_key. rewrite hex_roundtrip. cbn [mbind option_bind]. pose proof (len_dh secret (dh_public seed)) as Hl. unfold len in Hl.
  destruct (Nat.eqb_spec (length (dh secret (dh_public seed))) 32); [|lia]. cbn [negb]. rewrite Hw, dh_comm. by apply ct_eq_spec.
Qed.
End Pop.
