(* ===== verification/AdminAuth.v ===== *)
(** * Administrator accounts and sessions (control-server/src/auth.rs)

    The state of the HTTP server beside the database: sessions, and the outstanding
    challenges of Pop.  Clocks, random bytes, password hashing (argon2) and the
    [FLUXPEER_ADMIN_PASSWORD] variable are a parameter; a reading or a random value uses up
    a number of the store's counter, so no two are the same reading. *)

From Stdlib Require Import Strings.Ascii Strings.String.
From S2P Require Import Prelude.
From S2P Require Import Words.
From S2P Require Import NetText.
From S2P Require Import RouteTable.
From S2P Require Import Domain.
From S2P Require Import NodeConfig.
From S2P Require Import Probes.
From S2P Require Import SqlDb.
From S2P Require Import SqlControl.
From S2P Require Import Pop.

Class ApiHost := {
  env_password : option string;           (* FLUXPEER_ADMIN_PASSWORD *)
  mono : nat → Z;                          (* Instant::now, in nanoseconds *)
  unix_now : nat → Z;
  unix_millis : nat → Z;
  hash_password : nat → string → string;   (* with a fresh salt *)
  verify_password : string → string → bool;
  random_32 : nat → list byte
}.

(** [Instant] does not run backwards; a password verifies against its own hash. *)
Class ApiHostLaws `{ApiHost} : Prop := {
  mono_le : ∀ i j, (i ≤ j)%nat → mono i ≤ mono j;
  verify_hash : ∀ k p, verify_password p (hash_password k p) = true
}.

Definition SESSION_TTL : Z := 12 * 3600 * 10 ^ 9.

Record Session := mkSession { se_username : string; se_expiry : Z; se_hash : string }.

Record Server {W : Type} := mkServer {
  sv_store : SqlStore W; sv_sessions : gmap string Session; sv_pending : gmap string Pending }.
Arguments Server : clear implicits.

(** [StatusCode]. *)
Inductive Status :=
| OK | CREATED | NO_CONTENT | BAD_REQUEST | UNAUTHORIZED | FORBIDDEN | NOT_FOUND | CONFLICT
| INTERNAL_SERVER_ERROR | SERVICE_UNAVAILABLE.
Definition is_success (s : Status) : bool := match s with OK | CREATED | NO_CONTENT => true | _ => false end.

#[global] Instance Status_eq_dec : EqDecision Status.
Proof. solve_decision. Defined.

(** [internal_error]. *)
Definition internal_error (e : SqlStoreError) : Status :=
  match e with DbErr e => if sqlite_busy e then SERVICE_UNAVAILABLE else INTERNAL_SERVER_ERROR | _ => INTERNAL_SERVER_ERROR end.

(** [str::strip_prefix("Bearer ")] of the [Authorization] header. *)
Definition bearer_token (authorization : option string) : option string :=
  h ← authorization;
  if String.prefix "Bearer " h then Some (String.substring 7 (String.length h - 7) h) else None.

(** [constant_eq] and [ct_eq], of the bytes of two texts. *)
Definition constant_eq (a b : string) : bool := ct_eq (list_byte_of_string a) (list_byte_of_string b).

Section Auth.
Context {W : Type} `{!Database} `{!ApiHost}.
Implicit Types s : Server W.

Abbreviation api A := (st (Server W) Status A).

Definition set_store x s : Server W := mkServer W x (sv_sessions s) (sv_pending s).
Definition set_sessions x s : Server W := mkServer W (sv_store s) x (sv_pending s).
Definition set_pending x s : Server W := mkServer W (sv_store s) (sv_sessions s) x.

(** An operation of the store, its error mapped to a status. *)
Definition with_store {A} (f : SqlStoreError → Status) (m : st (SqlStore W) SqlStoreError A) : api A := fun s =>
  match m (sv_store s) with
  | (Ok a, x) => (Ok a, set_store x s)
  | (Err e, x) => (Err (f e), set_store x s)
  | (Panic, x) => (Panic, set_store x s)
  end.

(** [.ok()]: only whether it succeeded. *)
Definition try_store {A} (m : st (SqlStore W) SqlStoreError A) : api (option A) := fun s =>
  match m (sv_store s) with
  | (Ok a, x) => (Ok (Some a), set_store x s)
  | (Err _, x) => (Ok None, set_store x s)
  | (Panic, x) => (Panic, set_store x s)
  end.

(** A reading of the host. *)
Definition reading {A} (f : nat → A) : api A := fun s =>
  (Ok (f (ticks (sv_store s))), set_store (tick (sv_store s)) s).

(** ** Accounts in the store (sql_store.rs) *)

Definition store_count_admins : st (SqlStore W) SqlStoreError Z := query count_admins.
Definition store_admin_hash (username : string) : st (SqlStore W) SqlStoreError (option string) := query (admin_hash username).
Definition store_create_admin (username hash : string) (now : Z) : st (SqlStore W) SqlStoreError unit :=
  _ ← execute (create_admin_row username hash now); mret tt.
Definition store_update_admin_password (username hash : string) : st (SqlStore W) SqlStoreError unit :=
  run_ (update_admin_password username hash).
Definition store_list_admins : st (SqlStore W) SqlStoreError (list string) :=
  query (fun d => sort_by String.compare (map_to_list (t_admin d)).*1).
Definition store_delete_admin (username : string) : st (SqlStore W) SqlStoreError unit := run_ (delete_admin_row username).

(** [ORDER BY ts DESC LIMIT $1]. *)
Definition list_audit (limit : nat) (d : Db) : list AuditEntry := take limit (sort_by (fun a b => a_ts b ?= a_ts a) (t_audit d)).

(** Its failure is only logged. *)
Definition record_audit (ts : Z) (actor action : string) : api unit :=
  _ ← try_store (run_ (insert_audit ts actor action)); mret tt.

(** ** Sessions *)

Definition master : option string := p ← env_password; if bool_decide (p = ""%string) then None else Some p.

Definition is_master_bearer (bearer : string) : bool :=
  match master with Some m => constant_eq bearer m | None => false end.

Definition login (username password : string) : api (option string) :=
  hash ← try_store (store_admin_hash username);
  match mjoin hash with
  | None => mret None
  | Some hash =>
      if negb (verify_password password hash) then mret None
      else
        token ← reading (fun k => random_hex k 24);
        now ← reading mono;
        _ ← modify (fun s => set_sessions (<[token := mkSession username (now + SESSION_TTL) hash]> (sv_sessions s)) s);
        mret (Some token)
  end.

Definition session_user (token : string) : api (option string) :=
  s ← get;
  match sv_sessions s !! token with
  | None => mret None
  | Some session =>
      current ← with_store internal_error (store_admin_hash (se_username session));
      now ← reading mono;
      if (now <? se_expiry session) && bool_decide (current = Some (se_hash session))
      then mret (Some (se_username session))
      else _ ← modify (fun s => set_sessions (delete token (sv_sessions s)) s); mret None
  end.

Definition revoke_sessions (username : string) s : Server W :=
  set_sessions (filter (fun x => se_username x.2 ≠ username) (sv_sessions s)) s.

Definition valid_bearer (bearer : string) : api bool :=
  if is_master_bearer bearer then mret true
  else user ← session_user bearer; mret (match user with Some _ => true | None => false end).

Definition acting_user (authorization : option string) : api (option string) :=
  match bearer_token authorization with
  | None => mret None
  | Some token => session_user token
  end.

(** ** Accounts *)

(** A fresh database gets an [admin] account; its failures are ignored. *)
Definition ensure_default_admin : api unit :=
  count ← try_store store_count_admins;
  if 0 <? default 0 count then mret tt
  else
    password ← (match master with Some p => mret p | None => reading (fun k => random_hex k 9) end);
    hash ← reading (fun k => hash_password k password);
    now ← reading unix_now;
    _ ← try_store (store_create_admin "admin" hash now);
    mret tt.

Definition admin_login (username password : string) : api (string * string) :=
  token ← login username password;
  match token with
  | Some token =>
      now ← reading unix_millis;
      _ ← record_audit now username "login";
      mret (token, username)
  | None => lift (Err UNAUTHORIZED)
  end.

Definition admin_me (authorization : option string) : api string :=
  user ← acting_user authorization; mret (default ""%string user).

Definition admin_change_password (authorization : option string) (old_password new_password : string) : api Status :=
  acting ← acting_user authorization;
  match acting with
  | None => mret BAD_REQUEST
  | Some user =>
      if (String.length new_password <? 4)%nat then mret BAD_REQUEST
      else
        hash ← try_store (store_admin_hash user);
        match mjoin hash with
        | None => mret BAD_REQUEST
        | Some hash =>
            if negb (verify_password old_password hash) then mret UNAUTHORIZED
            else
              fresh ← reading (fun k => hash_password k new_password);
              _ ← with_store internal_error (store_update_admin_password user fresh);
              _ ← modify (revoke_sessions user);
              mret NO_CONTENT
        end
  end.

Definition list_admins : api (list string) := with_store internal_error store_list_admins.

Definition create_admin (username password : string) : api Status :=
  if bool_decide (trim (chars username) = []) || (String.length password <? 4)%nat then mret BAD_REQUEST
  else
    known ← try_store (store_admin_hash username);
    match mjoin known with
    | Some _ => mret CONFLICT
    | None =>
        hash ← reading (fun k => hash_password k password);
        now ← reading unix_now;
        _ ← with_store internal_error (store_create_admin username hash now);
        mret CREATED
    end.

(** Up to the deletion. *)
Definition delete_admin_check (authorization : option string) (username : string) : api (option Status) :=
  acting ← acting_user authorization;
  if bool_decide (acting = Some username) then mret (Some BAD_REQUEST)
  else
    n ← with_store internal_error store_count_admins;
    if n <=? 1 then mret (Some BAD_REQUEST) else mret None.

Definition delete_admin_commit (username : string) : api Status :=
  _ ← with_store internal_error (store_delete_admin username);
  _ ← modify (revoke_sessions username);
  mret NO_CONTENT.

Definition delete_admin (authorization : option string) (username : string) : api Status :=
  refused ← delete_admin_check authorization username;
  match refused with Some status => mret status | None => delete_admin_commit username end.

Definition audit_log : api (list AuditEntry) := with_store internal_error (query (list_audit 200)).
End Auth.
