(* ===== verification/ControlApi.v ===== *)
(** * The HTTP interface of the control plane (control-server/src/lib.rs)

    Every route of [sql_router] with its handler.  Matching a path to a route, reading the
    body and writing JSON text are axum's and serde's; a request here is a matched route
    with its parameters and its [Authorization] header.  A handler runs as one step. *)

From Stdlib Require Import Strings.Ascii Strings.String.
From S2P Require Import Prelude.
From S2P Require Import Words.
From S2P Require Import Crypto.
From S2P Require Import NetText.
From S2P Require Import Prefix.
From S2P Require Import Domain.
From S2P Require Import NodeConfig.
From S2P Require Import SqlDb.
From S2P Require Import SqlControl.
From S2P Require Import Pop.
From S2P Require Import AdminAuth.

(** ** Gateways *)

Record GatewayConfig := mkGateway {
  g_node_pubkey : string; g_node_addr : string; g_node_port : Z; g_transport : string;
  g_iface_ipv4 : option string; g_iface_ipv6 : option string; g_mtu : option Z; g_dns : list string;
  g_allowed_routes : list string; g_config_epoch : Z }.

(** [str::parse::<u16>]. *)
Definition parse_u16 (l : list ascii) : option Z :=
  let l := match l with c :: (_ :: _) as k => if Ascii.eqb c "+" then k else c :: k | l => l end in
  match span_digits 10 l with
  | (ds, []) => if bool_decide (ds ≠ []) && (digits_val 10 ds <? 2 ^ 16) then Some (digits_val 10 ds) else None
  | _ => None
  end.

(** [split_once("]:")]. *)
Fixpoint split_bracket (l : list ascii) : option (list ascii * list ascii) :=
  match l with
  | [] => None
  | c :: k =>
      match k with
      | c' :: rest =>
          if Ascii.eqb c "]" && Ascii.eqb c' ":" then Some ([], rest)
          else '(a, b) ← split_bracket k; Some (c :: a, b)
      | [] => None
      end
  end.

(** [rsplit_once(':')]. *)
Definition rsplit_colon (l : list ascii) : option (list ascii * list ascii) :=
  '(b, a) ← split_once ":" (rev l); Some (rev a, rev b).

Definition parse_endpoint (ep : string) : option (string * Z) :=
  match trim (chars ep) with
  | "["%char :: rest => '(host, port) ← split_bracket rest; port ← parse_u16 port; Some (text host, port)
  | l =>
      '(host, port) ← rsplit_colon l;
      if bool_decide (host = []) then None else port ← parse_u16 port; Some (text host, port)
  end.

Definition peer_is_exit (p : PeerConfig) : bool :=
  existsb (fun c => bool_decide (c = "0.0.0.0/0")%string || bool_decide (c = "::/0")%string) (p_allowed_ips p).

(** The first usable endpoint of a peer. *)
Definition peer_gateway (cfg : DeviceConfig) (p : PeerConfig) : option GatewayConfig :=
  '(host, port) ← head (omap parse_endpoint (p_endpoints p));
  Some (mkGateway (p_wg_public_key p) host port "udp" (c_address_v4 cfg) (c_address_v6 cfg) (c_mtu cfg) (c_dns cfg)
    (p_allowed_ips p) (c_config_epoch cfg)).

Definition select_gateway (cfg : DeviceConfig) : option GatewayConfig :=
  match head (omap (peer_gateway cfg) (List.filter peer_is_exit (c_peers cfg))) with
  | Some g => Some g
  | None => head (omap (peer_gateway cfg) (c_peers cfg))
  end.

(** ** Requests *)

Record RegisterRelayReq := mkRelayReq {
  rr_region : string; rr_url : string; rr_network_id : option string; rr_anytls : bool;
  rr_stun_url : option string; rr_node_id : option string; rr_public_key : option string }.

(** [valid_relay_identity] (sdk/rust/src/lib.rs). *)
Definition is_graphic (c : ascii) : bool := (33 <=? Z.of_N (N_of_ascii c)) && (Z.of_N (N_of_ascii c) <=? 126).
Definition valid_relay_identity (value : string) : bool :=
  (1 <=? String.length value)%nat && (String.length value <=? 128)%nat && forallb is_graphic (chars value).

Definition relay_update (id : string) (r : RegisterRelayReq) : RelayNode :=
  mkRelay id (rr_region r) (rr_url r) (rr_network_id r) (rr_anytls r)
    (match rr_stun_url r with Some x => Some x | None => Some (rr_url r) end) (rr_node_id r) (rr_public_key r).

(** Routes anybody may use, of devices, and of administrators. *)
Inductive open_request :=
| Health | Version
| AdminLogin (username password : string)
| EnrollChallenge (wg_public_key : string)
| EnrollDevice (invite_code name wg_public_key : string) (challenge_id proof : option string)
| ListRelays (network_id : string)
| ResolveName (network_id name : string).

Inductive device_request :=
| GetConfig | GetGateway | PostEndpoints (l : list string) | PostStats (rx tx : Z) (peers : Json) | GetStats
| GetSettings | GetRoutes | PostAdvertisement (prefix : string) | DeleteAdvertisement (prefix : string).

Inductive admin_request :=
| PostRelay (r : RegisterRelayReq) | PutRelay (id : string) (r : RegisterRelayReq)
| PostNetwork (name : string) | GetNetworks | DeleteNetworkReq (id : string)
| DeleteInvite (network_id code : string) | PostInvite (network_id : string) (expires_at max_uses : option Z) | GetInvites (network_id : string)
| GetDevices (network_id : string) | PostImport (network_id : string) (devices : list ImportDevice) | GetNetworkStats (network_id : string)
| DeleteDevice (id : string) | PatchDevice (id name : string) | PutSettings (id : string) (body : Json) | PostRoute (id prefix : string)
| PostApprove (route_id : string) | DeleteRouteReq (route_id : string)
| GetMe | GetAudit | PostPassword (old_password new_password : string) | GetAdmins | PostAdmin (username password : string)
| DeleteAdminReq (username : string).

Inductive http :=
| Open (q : open_request)
| OfDevice (device_id : string) (q : device_request)
| Admin (q : admin_request).

Inductive body :=
| BNone | BText (s : string) | BJson (j : Json) | BNetwork (n : Network) | BNetworks (l : list Network) | BInvite (i : Invite)
| BInvites (l : list Invite) | BDevice (d : Device) | BDevices (l : list Device) | BEnrolled (d : Device) (token : string)
| BImported (r : ImportResult) | BRoute (r : Route) | BRoutes (l : list Route) | BRelay (r : RelayNode) | BRelays (l : list RelayNode)
| BConfig (c : DeviceConfig) | BGateway (g : GatewayConfig) | BChallenge (c : Challenge) | BLogin (token username : string)
| BNames (l : list string) | BAudit (l : list AuditEntry) | BStats (l : list (string * Z * Z * Z)).

Record Reply := mkReply { re_status : Status; re_body : body }.

(** [POST], [PUT], [PATCH], [DELETE]. *)
Definition mutating (q : admin_request) : bool :=
  match q with
  | GetNetworks | GetInvites _ | GetDevices _ | GetNetworkStats _ | GetMe | GetAudit | GetAdmins => false
  | _ => true
  end.

Definition sql_status (e : SqlStoreError) : Status :=
  match e with
  | NetworkNotFound | DeviceNotFound | RouteNotFound | RelayNotFound => NOT_FOUND
  | InvalidPrefix | InvalidKey | InvalidAddress => BAD_REQUEST
  | InvalidInvite => FORBIDDEN
  | DeviceUnauthorized => UNAUTHORIZED
  | DeviceForbidden => FORBIDDEN
  | PoolExhausted | RouteApproved => CONFLICT
  | DbErr UniqueViolation => CONFLICT
  | BadPool _ | DbErr _ => internal_error e
  end.

Section Api.
Context {W : Type} `{!EpochWatch W} `{!Database} `{!KeyCodec} `{!JsonText} `{!Crypto} `{!ApiHost}.
Implicit Types s : Server W.

Abbreviation api A := (st (Server W) Status A).

(** [map(|x| (status, Json(x))).map_err(sql_status)]. *)
Definition reply {A} (status : Status) (b : A → body) (m : st (SqlStore W) SqlStoreError A) : api Reply :=
  x ← with_store sql_status m; mret (mkReply status (b x)).
Definition no_content {A} (m : st (SqlStore W) SqlStoreError A) : api Reply := reply NO_CONTENT (fun _ => BNone) m.

(** ** Authorization *)

Definition require_device (authorization : option string) (device_id : string) : api unit :=
  tok ← lift (ok_or (bearer_token authorization) UNAUTHORIZED);
  if is_master_bearer tok then mret tt
  else
    stored ← with_store internal_error (device_token device_id);
    match stored with
    | Some stored => if constant_eq stored tok then mret tt else lift (Err UNAUTHORIZED)
    | None => lift (Err UNAUTHORIZED)
    end.

(** [bearer_token(..).filter(|t| !t.is_empty())]. *)
Definition some_bearer (authorization : option string) : api string :=
  lift (ok_or (t ← bearer_token authorization; if bool_decide (t = ""%string) then None else Some t) UNAUTHORIZED).

Definition require_device_read (authorization : option string) (device_id : string) : api unit :=
  token ← some_bearer authorization;
  ok ← valid_bearer token;
  if ok : bool then mret tt
  else
    stored ← with_store internal_error (device_token device_id);
    if match stored with Some stored => constant_eq stored token | None => false end then mret tt
    else
      known ← with_store internal_error (has_device_token token);
      lift (Err (if known : bool then FORBIDDEN else UNAUTHORIZED)).

(** A response, whatever the handler answers. *)
Definition respond (m : api Reply) : api Reply := fun s =>
  match m s with
  | (Err status, s') => (Ok (mkReply status BNone), s')
  | r => r
  end.

Definition require_admin (authorization : option string) (mutates : bool) (action : string) (next : api Reply) : api Reply :=
  bearer ← lift (ok_or (bearer_token authorization) UNAUTHORIZED);
  valid ← valid_bearer bearer;
  if negb valid then lift (Err UNAUTHORIZED)
  else
    user ← acting_user authorization;
    let actor := default "(master)"%string user in
    resp ← respond next;
    _ ← (if mutates && is_success (re_status resp)
         then now ← reading unix_millis; record_audit now actor action
         else mret tt);
    mret resp.

Definition validate_relay_identity (r : RegisterRelayReq) : api unit :=
  if match rr_public_key r with Some key => bool_decide (key_decode key = None) | None => false end then lift (Err BAD_REQUEST)
  else if match rr_node_id r with Some id => negb (valid_relay_identity id) | None => false end then lift (Err BAD_REQUEST)
  else mret tt.

(** ** Handlers *)

Definition VERSION : Json :=
  JObject [("server_api_version", JString "v1"); ("client_protocol_version", JNumber 1); ("server_protocol_version", JNumber 1);
    ("relay_protocol_version", JNumber 1); ("min_supported_client_protocol_version", JNumber 1);
    ("min_supported_server_protocol_version", JNumber 1)]%string.

Definition sql_enroll_challenge (wg_public_key : string) : api Reply :=
  seed ← reading random_32;
  id ← reading (fun k => random_hex k 16);
  now ← reading mono;
  s ← get;
  let '(c, m) := new_challenge wg_public_key seed id now (sv_pending s) in
  _ ← modify (set_pending m);
  match c with Some c => mret (mkReply OK (BChallenge c)) | None => lift (Err BAD_REQUEST) end.

Definition pop_verify (id key proof : string) : api bool :=
  now ← reading mono;
  s ← get;
  let '(ok, m) := verify id key proof now (sv_pending s) in
  _ ← modify (set_pending m);
  mret ok.

Definition sql_enroll (invite_code name wg_public_key : string) (challenge_id proof : option string) : api Reply :=
  if bool_decide (key_decode wg_public_key = None) then lift (Err BAD_REQUEST)
  else match challenge_id, proof with
  | Some cid, Some proof =>
      ok ← pop_verify cid wg_public_key proof;
      if negb ok then lift (Err UNAUTHORIZED)
      else
        now ← reading unix_now;
        reply CREATED (fun x => BEnrolled x.1 x.2) (enroll invite_code name wg_public_key now)
  | _, _ => lift (Err UNAUTHORIZED)
  end.

Definition opt_json (o : option string) : Json := match o with Some x => JString x | None => JNull end.

Definition sql_resolve_name (authorization : option string) (id name : string) : api Reply :=
  token ← some_bearer authorization;
  ok ← valid_bearer token;
  _ ← (if ok : bool then mret tt
       else
         network ← with_store sql_status (token_network token);
         match network with
         | Some network => if bool_decide (network = id) then mret tt else lift (Err FORBIDDEN)
         | None => lift (Err UNAUTHORIZED)
         end);
  device ← with_store sql_status (resolve id name);
  mret (mkReply OK (BJson (JObject [("name", JString name); ("address", opt_json (d_address_v4 device));
    ("address_v4", opt_json (d_address_v4 device)); ("address_v6", opt_json (d_address_v6 device))]%string))).

Definition stats_json (stats : option (Z * Z * string * Z)) : Json :=
  match stats with
  | Some (rx, tx, peers, at_) => JObject [("rx_bytes", JNumber rx); ("tx_bytes", JNumber tx); ("updated_at", JNumber at_);
      ("peers", default (JArray []) (json_parse peers))]%string
  | None => JObject [("rx_bytes", JNumber 0); ("tx_bytes", JNumber 0); ("updated_at", JNumber 0); ("peers", JArray [])]%string
  end.

Definition sql_list_relays (network_id : string) : api Reply := reply OK BRelays (query (list_relays network_id)).

(** *** Of a device *)

Definition sql_device_config (authorization : option string) (device_id : string) : api Reply :=
  _ ← require_device_read authorization device_id; reply OK BConfig (device_config device_id).

Definition sql_device_gateway (authorization : option string) (device_id : string) : api Reply :=
  _ ← require_device authorization device_id;
  cfg ← with_store sql_status (device_config device_id);
  match select_gateway cfg with Some g => mret (mkReply OK (BGateway g)) | None => lift (Err NOT_FOUND) end.

Definition sql_set_endpoints (authorization : option string) (device_id : string) (l : list string) : api Reply :=
  _ ← require_device authorization device_id; no_content (set_endpoints device_id l).

Definition sql_report_stats (authorization : option string) (device_id : string) (rx tx : Z) (peers : Json) : api Reply :=
  _ ← require_device authorization device_id;
  now ← reading unix_now;
  no_content (report_stats device_id rx tx (json_print peers) now).

Definition sql_get_device_stats (authorization : option string) (device_id : string) : api Reply :=
  _ ← require_device_read authorization device_id;
  reply OK (fun x => BJson (stats_json x)) (query (get_device_stats device_id)).

Definition sql_get_device_settings (authorization : option string) (device_id : string) : api Reply :=
  _ ← require_device_read authorization device_id;
  reply OK (fun raw => BJson (default (JObject []) (json_parse raw))) (device_settings device_id).

Definition sql_list_device_routes (authorization : option string) (device_id : string) : api Reply :=
  _ ← require_device_read authorization device_id; reply OK BRoutes (list_device_routes device_id).

Definition sql_device_advertise (authorization : option string) (device_id prefix : string) : api Reply :=
  token ← some_bearer authorization; reply OK BRoutes (device_route_change device_id token prefix false).

Definition sql_device_unadvertise (authorization : option string) (device_id prefix : string) : api Reply :=
  token ← some_bearer authorization; reply OK BRoutes (device_route_change device_id token prefix true).

(** *** Of administrators *)

Definition sql_register_relay (r : RegisterRelayReq) : api Reply :=
  _ ← validate_relay_identity r;
  reply CREATED BRelay (register_relay_authenticated (rr_region r) (rr_url r) (rr_network_id r) (rr_anytls r) (rr_stun_url r)
    (rr_node_id r, rr_public_key r)).

Definition sql_update_relay (id : string) (r : RegisterRelayReq) : api Reply :=
  _ ← validate_relay_identity r; reply OK BRelay (update_relay (relay_update id r)).

Definition sql_create_network (name : string) : api Reply := reply CREATED BNetwork (create_network name).
Definition sql_list_networks : api Reply := reply OK BNetworks (query list_networks).
Definition sql_delete_network (id : string) : api Reply := no_content (delete_network id).
Definition sql_create_invite (network_id : string) (expires_at max_uses : option Z) : api Reply :=
  reply CREATED BInvite (create_invite network_id expires_at max_uses).
Definition sql_list_invites (network_id : string) : api Reply := reply OK BInvites (query (list_invites network_id)).
Definition sql_revoke_invite (id code : string) : api Reply := no_content (revoke_invite id code).
Definition sql_list_devices (network_id : string) : api Reply := reply OK BDevices (list_network_devices network_id).
Definition sql_import_devices (network_id : string) (devices : list ImportDevice) : api Reply :=
  reply CREATED BImported (import_devices network_id devices).
Definition sql_network_stats (network_id : string) : api Reply := reply OK BStats (query (list_network_stats network_id)).
Definition sql_revoke (device_id : string) : api Reply := no_content (revoke_device device_id).

Definition sql_rename_device (id name : string) : api Reply :=
  let name := trim (chars name) in
  if bool_decide (name = []) then lift (Err BAD_REQUEST) else reply OK BDevice (rename_device id (text name)).

Definition sql_set_device_settings (device_id : string) (body : Json) : api Reply :=
  no_content (store_device_settings device_id (json_print body)).
Definition sql_advertise_route (device_id prefix : string) : api Reply := reply CREATED BRoute (advertise_route device_id prefix).
Definition sql_approve_route (route_id : string) : api Reply := no_content (approve_route route_id).
Definition sql_delete_route (route_id : string) : api Reply := no_content (delete_route route_id).

Definition plain (m : api Status) : api Reply := status ← m; mret (mkReply status BNone).

(** ** Routes *)

Definition handle_open (authorization : option string) (q : open_request) : api Reply :=
  match q with
  | Health => mret (mkReply OK (BJson (JObject [("status", JString "ok")]%string)))
  | Version => mret (mkReply OK (BJson VERSION))
  | AdminLogin username password => '(token, username) ← admin_login username password; mret (mkReply OK (BLogin token username))
  | EnrollChallenge key => sql_enroll_challenge key
  | EnrollDevice code name key cid proof => sql_enroll code name key cid proof
  | ListRelays n => sql_list_relays n
  | ResolveName n name => sql_resolve_name authorization n name
  end.

Definition handle_device (authorization : option string) (device_id : string) (q : device_request) : api Reply :=
  match q with
  | GetConfig => sql_device_config authorization device_id
  | GetGateway => sql_device_gateway authorization device_id
  | PostEndpoints l => sql_set_endpoints authorization device_id l
  | PostStats rx tx peers => sql_report_stats authorization device_id rx tx peers
  | GetStats => sql_get_device_stats authorization device_id
  | GetSettings => sql_get_device_settings authorization device_id
  | GetRoutes => sql_list_device_routes authorization device_id
  | PostAdvertisement prefix => sql_device_advertise authorization device_id prefix
  | DeleteAdvertisement prefix => sql_device_unadvertise authorization device_id prefix
  end.

Definition handle_admin (authorization : option string) (q : admin_request) : api Reply :=
  match q with
  | PostRelay r => sql_register_relay r
  | PutRelay id r => sql_update_relay id r
  | PostNetwork name => sql_create_network name
  | GetNetworks => sql_list_networks
  | DeleteNetworkReq id => sql_delete_network id
  | DeleteInvite n code => sql_revoke_invite n code
  | PostInvite n e m => sql_create_invite n e m
  | GetInvites n => sql_list_invites n
  | GetDevices n => sql_list_devices n
  | PostImport n devices => sql_import_devices n devices
  | GetNetworkStats n => sql_network_stats n
  | DeleteDevice id => sql_revoke id
  | PatchDevice id name => sql_rename_device id name
  | PutSettings id j => sql_set_device_settings id j
  | PostRoute id prefix => sql_advertise_route id prefix
  | PostApprove id => sql_approve_route id
  | DeleteRouteReq id => sql_delete_route id
  | GetMe => user ← admin_me authorization; mret (mkReply OK (BText user))
  | GetAudit => l ← audit_log; mret (mkReply OK (BAudit l))
  | PostPassword old new => plain (admin_change_password authorization old new)
  | GetAdmins => l ← list_admins; mret (mkReply OK (BNames l))
  | PostAdmin username password => plain (create_admin username password)
  | DeleteAdminReq username => plain (delete_admin authorization username)
  end.

(** [sql_router]; [action] is the method and path of the request. *)
Definition serve (authorization : option string) (action : string) (q : http) : api Reply :=
  respond (match q with
           | Open q => handle_open authorization q
           | OfDevice id q => handle_device authorization id q
           | Admin q => require_admin authorization (mutating q) action (handle_admin authorization q)
           end).
End Api.
