(* ===== verification/SqlFrame.v ===== *)
(** * What the store's operations leave alone

    Relations that every statement of an operation is in, whatever fails: [always] carries
    them through transactions and retries. *)

From Stdlib Require Import Strings.Ascii Strings.String.
From S2P Require Import Prelude.
From S2P Require Import Words.
From S2P Require Import NetText.
From S2P Require Import Prefix.
From S2P Require Import Domain.
From S2P Require Import NodeConfig.
From S2P Require Import SqlDb.
From S2P Require Import SqlControl.
From S2P Require Import SqlInv.

Section Always.
Context {W : Type} `{!Database} (R : relation Db) `{!PreOrder R}.
Abbreviation sql A := (st (SqlStore W) SqlStoreError A).

Definition always {A} (m : sql A) : Prop := ∀ s r s', m s = (r, s') → R (db s) (db s').

Lemma always_ret {A} (a : A) : always (mret a).
Proof. by intros s r s' [= _ <-]. Qed.
Lemma always_lift {A} (m : res SqlStoreError A) : always (lift m).
Proof. by intros s r s' [= _ <-]. Qed.
Lemma always_query {A} (f : Db → A) : always (query f).
Proof. intros s r s'. unfold query. destruct (answer _); by intros [= _ <-]. Qed.
Lemma always_random n : always (random n).
Proof. by intros s r s' [= _ <-]. Qed.
Lemma always_modify f : (∀ s, db (f s) = db s) → always (modify f).
Proof. intros Hf s r s' [= _ <-]. by rewrite Hf. Qed.

Lemma always_bind {A B} (m : sql A) (k : A → sql B) : always m → (∀ a, always (k a)) → always (m ≫= k).
Proof.
  intros Hm Hk s r s'. unfold mbind, st_bind. destruct (m s) as [[a|e|] s1] eqn:Hs; [|intros [= _ <-]; by eapply Hm..].
  intros Heq. etrans; [by eapply Hm|by eapply Hk].
Qed.

Lemma always_execute {A} (f : Db → res DbError (Db * A)) : (∀ d d' a, f d = Ok (d', a) → R d d') → always (execute f).
Proof.
  intros Hf s r s'. unfold execute. destruct (f (db s)) as [[d a]| |] eqn:Hd, (answer (ticks s)); intros [= _ <-]; try done; by eapply Hf.
Qed.
Lemma always_run (f : Db → Db) : (∀ d, R d (f d)) → always (run_ f).
Proof. intros Hf. apply always_execute. intros d d' [] [= <-]. apply Hf. Qed.

Lemma always_transaction {A} (m : sql A) : always m → always (transaction m).
Proof.
  intros Hm s r s'. unfold transaction. destruct (m s) as [[a|e|] s1] eqn:Hs; [|by intros [= _ <-]..].
  pose proof (Hm s _ s1 Hs). destruct (answer _); by intros [= _ <-].
Qed.

Lemma transaction_aborted {A} (m : sql A) s r s' :
  (∀ a s1, m s ≠ (Ok a, s1)) → transaction m s = (r, s') → db s' = db s ∧ ∀ a, r ≠ Ok a.
Proof. intros Hm. unfold transaction. destruct (m s) as [[a|e|] s1] eqn:Hs; [by destruct (Hm a s1)|by intros [= <- <-]..]. Qed.

Lemma always_retry {A} legacy (m : sql A) : always m → always (retry legacy m).
Proof.
  intros Hm. unfold retry. generalize 8%nat, 0. intros fuel.
  induction fuel as [|fuel IH]; intros attempt s r s'; cbn [retry_loop]; [by intros [= _ <-]|].
  destruct (m s) as [x s1] eqn:Hx. pose proof (Hm s x s1 Hx) as Ht.
  destruct x as [a|[]|]; try (by intros [= _ <-]).
  destruct (sqlite_busy e); [destruct (2 <=? attempt)|destruct (_ && _)]; try (by intros [= _ <-]);
    intros Heq; (etrans; [exact Ht|by eapply IH]).
Qed.

Lemma always_begin : always begin.
Proof.
  apply always_bind; [apply always_query|intros []]. apply always_bind; [|intros n; destruct (n =? 1); [apply always_ret|apply always_lift]].
  apply always_execute. by intros d d' a [= <- _].
Qed.

Lemma always_next : (∀ d v, R d (with_sequence v d)) → always next.
Proof.
  intros Hs. apply always_bind; [|intros o; apply always_lift]. apply always_execute.
  intros d d' a. destruct (t_sequence d) as [v|]; [case_if|]; intros [= <- _]; done.
Qed.

Lemma always_notify `{!EpochWatch W} id : always (notify id).
Proof.
  intros s r s'. unfold notify, query. destruct (answer _); [destruct (get_network _ _)|..]; by intros [= _ <-].
Qed.

Lemma always_lock id : always (lock_active_device id).
Proof.
  apply always_bind; [|intros n; destruct (n =? 1); [apply always_ret|apply always_lift]]. apply always_execute. by intros d d' a [= <- _].
Qed.
End Always.

(** Steps that are the same for every relation. *)
Ltac always_step :=
  match goal with
  | |- always _ (retry _ _) => apply always_retry
  | |- always _ (transaction _) => apply always_transaction
  | |- always _ (begin ≫= _) => apply always_bind; [apply _|apply always_begin, _|intros _]
  | |- always _ (query _ ≫= _) => apply always_bind; [apply _|apply always_query, _|intros ?]
  | |- always _ (lift _ ≫= _) => apply always_bind; [apply _|apply always_lift, _|intros ?]
  | |- always _ (lock_active_device _ ≫= _) => apply always_bind; [apply _|apply always_lock, _|intros _]
  | |- always _ (_ ≫= _) => apply always_bind; [apply _| |intros ?]
  | |- always _ (notify _) => apply always_notify, _
  | |- always _ (mret _) => apply always_ret, _
  | |- always _ (lift _) => apply always_lift, _
  | |- always _ (query _) => apply always_query, _
  | |- always _ (random _) => apply always_random, _
  | |- always _ (match ?x with _ => _ end) => destruct x
  | |- always _ (if ?x then _ else _) => destruct x
  | |- PreOrder _ => apply _
  end.
Ltac always_steps := repeat always_step.

(** ** Requests that only read *)

Section Reads.
Context {W : Type} `{!Database} `{!KeyCodec} `{!JsonText}.
Abbreviation sql A := (st (SqlStore W) SqlStoreError A).

Definition reads {A} (m : sql A) : Prop := ∀ s r s', m s = (r, s') → db s' = db s ∧ r ≠ Panic.

Lemma reads_query {A} (f : Db → A) : reads (query f).
Proof. intros s r s'. unfold query. destruct (answer _); by intros [= <- <-]. Qed.
Lemma reads_ret {A} (a : A) : reads (mret a).
Proof. by intros s r s' [= <- <-]. Qed.
Lemma reads_err {A} e : reads (A:=A) (lift (Err e)).
Proof. by intros s r s' [= <- <-]. Qed.
Lemma reads_ok_or {A} (o : option A) e : reads (lift (ok_or o e)).
Proof. intros s r s' [= <- <-]. by destruct o. Qed.
Lemma reads_bind {A B} (m : sql A) (k : A → sql B) : reads m → (∀ a, reads (k a)) → reads (m ≫= k).
Proof.
  intros Hm Hk s r s'. unfold mbind, st_bind. destruct (m s) as [x s1] eqn:Hs. destruct (Hm _ _ _ Hs) as [Hd Hp].
  destruct x as [a|e|]; [|by intros [= <- <-]..]. intros [Hd' ?]%Hk. split; [congruence|done].
Qed.
Lemma reads_mapM {A B} (f : A → sql B) l : (∀ a, reads (f a)) → reads (mapM f l).
Proof.
  intros Hf. induction l as [|x l IH]; cbn; [apply reads_ret|]. apply reads_bind; [done|intros y].
  apply reads_bind; [done|intros; apply reads_ret].
Qed.

Lemma reads_always {A} (R : relation Db) `{!PreOrder R} (m : sql A) : reads m → always R m.
Proof. intros Hm s r s' Hs. by destruct (Hm _ _ _ Hs) as [-> _]. Qed.
Lemma reads_intact {A} (m : sql A) : reads m → intact m.
Proof. intros Hm s r s' _ Hs. by destruct (Hm _ _ _ Hs) as [-> ?]. Qed.

Ltac reads_step :=
  match goal with
  | |- reads (query _) => apply reads_query
  | |- reads (mret _) => apply reads_ret
  | |- reads (lift (Err _)) => apply reads_err
  | |- reads (lift (ok_or _ _)) => apply reads_ok_or
  | |- reads (mapM _ _) => apply reads_mapM; intros ?
  | |- reads (_ ≫= _) => apply reads_bind; [|intros ?]
  | |- reads (match ?x with _ => _ end) => destruct x
  end.

Lemma reads_device_config id : reads (device_config id).
Proof. unfold device_config, peer_entry. repeat reads_step. Qed.
Lemma reads_device_settings id : reads (device_settings id).
Proof. unfold device_settings. repeat reads_step. Qed.
Lemma reads_devices n : reads (list_network_devices n).
Proof. unfold list_network_devices. repeat reads_step. Qed.
Lemma reads_resolve n name : reads (resolve n name).
Proof. unfold resolve. repeat reads_step. apply reads_devices. Qed.
End Reads.

(** ** Requests of a device *)

(** A change that belongs to device [id]: its endpoints, its statistics, its routes that are
    not approved, and the epoch of its network. *)
Record confined (id : string) (d d' : Db) : Prop := {
  cf_invite : t_invite d' = t_invite d;
  cf_relay : t_relay d' = t_relay d;
  cf_admin : t_admin d' = t_admin d;
  cf_audit : t_audit d' = t_audit d;
  cf_network : ∀ n, (fun x => (n_id x, n_name x, n_ipv4_pool x, n_ipv6_ula x)) <$> t_network d' !! n =
    (fun x => (n_id x, n_name x, n_ipv4_pool x, n_ipv6_ula x)) <$> t_network d !! n;
  cf_device : ∀ i, (if decide (i = id) then set_endpoints_of [] <$> t_device d' !! i else t_device d' !! i) =
    (if decide (i = id) then set_endpoints_of [] <$> t_device d !! i else t_device d !! i);
  cf_stats : ∀ i, i ≠ id → t_stats d' !! i = t_stats d !! i;
  cf_route : ∀ i r, (r_device_id r ≠ id ∨ r_approved r = true) → t_route d' !! i = Some r ↔ t_route d !! i = Some r
}.

#[export] Instance confined_preorder id : PreOrder (confined id).
Proof.
  split; [by intros d; constructor|]. intros a b c [] []. constructor; try congruence.
  - intros i. rewrite cf_device1. apply cf_device0.
  - intros i Hi. rewrite cf_stats1 by done. by apply cf_stats0.
  - intros i r Hr. rewrite cf_route1 by done. by apply cf_route0.
Qed.

Section Device.
Context {W : Type} `{!EpochWatch W} `{!Database} `{!KeyCodec} `{!JsonText}.

Lemma confined_bump id n d d' a : bump_network_epoch n d = Ok (d', a) → confined id d d'.
Proof.
  unfold bump_network_epoch. destruct (t_network d !! n) as [x|] eqn:Hx; [|by intros [= <- _]].
  destruct (_ <? _); [|done]. intros [= <- _]. constructor; try done. cbn. intros i.
  destruct (decide (n = i)) as [<-|Hne]; [by rewrite lookup_insert_eq, Hx|by rewrite lookup_insert_ne].
Qed.

Lemma always_bump_confined id n : always (confined id) (bump (W:=W) n).
Proof. unfold bump. always_steps. apply always_execute; [apply _|]. intros d d' a'. apply confined_bump. Qed.

Lemma confined_endpoints id l d : confined id d (set_device_endpoints id l d).
Proof.
  constructor; try done. cbn. intros i. case_decide as Hi.
  - subst. rewrite lookup_alter_eq. by destruct (t_device d !! id).
  - by rewrite lookup_alter_ne.
Qed.

Lemma set_endpoints_confined id l : always (confined id) (set_endpoints (W:=W) id l).
Proof.
  unfold set_endpoints, set_endpoints_once, pool_begin. always_steps.
  - apply always_run; [apply _|]. intros d. apply confined_endpoints.
  - apply always_bump_confined.
Qed.

Lemma report_stats_confined id rx tx peers t : always (confined id) (report_stats (W:=W) id rx tx peers t).
Proof.
  unfold report_stats, report_stats_once, pool_begin. always_steps.
  apply always_run; [apply _|]. intros d. constructor; try done. cbn. intros i Hi. by rewrite lookup_insert_ne.
Qed.

Lemma device_route_change_confined id token prefix withdraw :
  always (confined id) (device_route_change (W:=W) id token prefix withdraw).
Proof.
  unfold device_route_change, device_route_change_once. always_steps.
  - by apply always_run; [apply _|].
  - apply always_run; [apply _|]. intros d. constructor; try done. cbn. intros i r Hr. rewrite map_lookup_filter_Some. cbn. split; [by intros [? _]|].
    intros Hi. split; [done|]. intros (Hid & _ & Ha). destruct Hr; congruence.
  - by apply always_next; [apply _|].
  - apply always_execute; [apply _|]. intros d d' u. unfold insert_route. destruct (insert_row _ _ _) as [m| |] eqn:Hm; cbn; [|done..].
    intros [= <- _]. apply insert_row_inv in Hm as [Hnone ->]. constructor; try done. cbn. intros i r Hr. rewrite lookup_insert_Some.
    split; [intros [[<- <-]|[_ ?]]; [cbn in Hr; by destruct Hr|done]|]. intros Hi. right. split; [|done]. intros <-. cbn [r_id] in Hnone. congruence.
Qed.
End Device.

(** ** Administrators *)

(** Operations on the overlay leave the accounts and the log alone. *)
Definition same_accounts (d d' : Db) : Prop := t_admin d' = t_admin d ∧ t_audit d' = t_audit d.

#[export] Instance same_accounts_preorder : PreOrder same_accounts.
Proof. split; [done|]. intros a b c [] []. split; congruence. Qed.

Lemma insert_accounts {A} id (row : A) m (f : gmap string A → Db) d d' a :
  (∀ x, same_accounts d (f x)) → (x ← insert_row id row m; Ok (f x, 1)) = Ok (d', a) → same_accounts d d'.
Proof. intros Hf. destruct (insert_row id row m); cbn; [|done..]. intros [= <- _]. apply Hf. Qed.

Create HintDb accounts.

Section Accounts.
Context {W : Type} `{!EpochWatch W} `{!Database} `{!KeyCodec} `{!JsonText}.
Abbreviation accounts m := (always (W:=W) same_accounts m).

Ltac statement :=
  match goal with
  | |- accounts (run_ _) => by apply always_run; [apply _|]
  | |- accounts (execute (insert_device _)) => apply always_execute; [apply _|]; intros ? ? ?; unfold insert_device;
      destruct (normalize _); cbn; [|done]; case_if; [done|]; by apply insert_accounts
  | |- accounts (execute _) => apply always_execute; [apply _|]; intros ? ? ?;
      first [by apply insert_accounts|cbn; repeat case_match; by intros [= <- _]]
  | |- accounts next => by apply always_next; [apply _|]
  | |- accounts get => by intros ? ? ? [= _ <-]
  | |- accounts (modify _) => by apply always_modify; [apply _|]
  end.
Ltac statements := repeat first [always_step|statement].

Lemma accounts_bump n : accounts (bump n).
Proof. unfold bump, bump_network_epoch. statements. Qed.
Lemma accounts_bump_all l : accounts (bump_all l).
Proof. induction l; cbn [bump_all]; statements; [apply accounts_bump|done]. Qed.
Lemma accounts_notify_all l : accounts (notify_all l).
Proof. induction l; cbn [notify_all]; statements; done. Qed.
Lemma accounts_bump_and_notify n : accounts (bump_and_notify n).
Proof. unfold bump_and_notify. statements. apply accounts_bump. Qed.

Lemma accounts_create_network name : accounts (create_network name).
Proof. unfold create_network, next_seq. statements. Qed.
Lemma accounts_create_invite n e m : accounts (create_invite n e m).
Proof. unfold create_invite, create_invite_once. statements. Qed.
Lemma accounts_delete_network n : accounts (delete_network n).
Proof. unfold delete_network, delete_network_once. statements. apply accounts_bump. Qed.
Lemma accounts_revoke_invite n code : accounts (revoke_invite n code).
Proof. unfold revoke_invite, revoke_invite_once. statements. Qed.
Lemma accounts_enroll code name key now : accounts (enroll code name key now).
Proof. unfold enroll, enroll_once, enroll_body, consume_invite. statements. apply accounts_bump. Qed.

Lemma accounts_import_loop n l acc : accounts (import_loop n l acc).
Proof.
  revert acc. induction l as [|dk l IH]; intros acc; cbn [import_loop]; statements; [|apply IH].
  unfold import_one. destruct dk, acc as [[]]. statements.
Qed.
Lemma accounts_import n devices : accounts (import_devices n devices).
Proof. unfold import_devices, import_once. statements; [apply accounts_import_loop|apply accounts_bump]. Qed.

Lemma accounts_revoke_device id : accounts (revoke_device id).
Proof. unfold revoke_device, revoke_device_once. statements. apply accounts_bump. Qed.
Lemma accounts_rename_device id name : accounts (rename_device id name).
Proof. unfold rename_device. statements. Qed.
Lemma accounts_store_device_settings id json : accounts (store_device_settings id json).
Proof. unfold store_device_settings. statements. apply accounts_bump_and_notify. Qed.
Lemma accounts_advertise_route id prefix : accounts (advertise_route id prefix).
Proof. unfold advertise_route, advertise_route_once. statements. Qed.
Lemma accounts_approve_route id : accounts (approve_route id).
Proof. unfold approve_route. statements. apply accounts_bump_and_notify. Qed.
Lemma accounts_delete_route id : accounts (delete_route id).
Proof. unfold delete_route. statements. apply accounts_bump_and_notify. Qed.
Lemma accounts_check_scope n : accounts (check_scope n).
Proof. unfold check_scope. statements. Qed.
Lemma accounts_register_relay region url n anytls stun identity :
  accounts (register_relay_authenticated region url n anytls stun identity).
Proof.
  unfold register_relay_authenticated, register_relay_once. destruct identity. statements;
    [apply accounts_check_scope|apply accounts_bump_all|apply accounts_notify_all].
Qed.
Lemma accounts_update_relay relay : accounts (update_relay relay).
Proof.
  unfold update_relay, update_relay_once. statements; [apply accounts_check_scope|apply accounts_bump_all|apply accounts_notify_all].
Qed.

Lemma accounts_confined {A} id (m : st (SqlStore W) SqlStoreError A) : always (confined id) m → accounts m.
Proof. intros Hm s r s' Hs. destruct (Hm _ _ _ Hs). by split. Qed.
End Accounts.

#[export] Hint Resolve accounts_create_network accounts_create_invite accounts_delete_network accounts_revoke_invite accounts_enroll
  accounts_import accounts_revoke_device accounts_rename_device accounts_store_device_settings accounts_advertise_route
  accounts_approve_route accounts_delete_route accounts_register_relay accounts_update_relay : accounts.
