(* ===== verification/ApiInv.v ===== *)
(** * Guards of the control plane's HTTP interface

    What the authorization checks establish, and that they leave the database alone. *)

From Stdlib Require Import Strings.Ascii Strings.String.
From S2P Require Import Prelude.
From S2P Require Import Words.
From S2P Require Import Crypto.
From S2P Require Import NetText.
From S2P Require Import Prefix.
From S2P Require Import Domain.
From S2P Require Import NodeConfig.
From S2P Require Import Probes.
From S2P Require Import SqlDb.
From S2P Require Import SqlControl.
From S2P Require Import SqlInv.
From S2P Require Import SqlFrame.
From S2P Require Import Pop.
From S2P Require Import AdminAuth.
From S2P Require Import ControlApi.

Lemma constant_eq_spec a b : constant_eq a b = true ↔ a = b.
Proof.
  unfold constant_eq. rewrite ct_eq_spec. split; [|by intros ->]. intros E.
  by rewrite <-(string_of_list_byte_of_string a), E, string_of_list_byte_of_string.
Qed.

(** The handlers, down to the operations of the store. *)
Ltac unfold_handlers := cbn [handle_open handle_device handle_admin];
  unfold sql_list_relays, sql_device_config, sql_device_gateway, sql_set_endpoints, sql_report_stats, sql_get_device_stats,
    sql_get_device_settings, sql_list_device_routes, sql_device_advertise, sql_device_unadvertise, sql_register_relay, sql_update_relay,
    sql_create_network, sql_list_networks, sql_delete_network, sql_create_invite, sql_list_invites, sql_revoke_invite, sql_list_devices,
    sql_import_devices, sql_network_stats, sql_revoke, sql_rename_device, sql_set_device_settings, sql_advertise_route,
    sql_approve_route, sql_delete_route.

Section Guards.
Context {W : Type} `{!EpochWatch W} `{!Database} `{!KeyCodec} `{!JsonText} `{!Crypto} `{!ApiHost}.
Implicit Types s : Server W.
Abbreviation api A := (st (Server W) Status A).

Definition db_of s : Db := db (sv_store s).

(** What a check may do: forget sessions. *)
Definition calm s s' : Prop := db_of s' = db_of s ∧ sv_sessions s' ⊆ sv_sessions s ∧ sv_pending s' = sv_pending s.

#[export] Instance calm_preorder : PreOrder calm.
Proof.
  split; [by intros s|]. intros a b c (Hd & Hs & Hp) (Hd' & Hs' & Hp'). split_and!; [congruence|by etrans|congruence].
Qed.

(** The server changes as [R] says, whatever the outcome. *)
Definition within {A} (R : relation (Server W)) (m : api A) : Prop := ∀ s r s', m s = (r, s') → R s s'.

Lemma within_mono {A} (R R' : relation (Server W)) (m : api A) : (∀ s s', R s s' → R' s s') → within R m → within R' m.
Proof. intros HR Hm s r s' Hs. eapply HR, Hm, Hs. Qed.

(** An operation of the store that changes the database as [R0] says. *)
Lemma within_store {A} R0 (R : relation (Server W)) f (m : st (SqlStore W) SqlStoreError A) :
  (∀ s x, R0 (db_of s) (db x) → R s (set_store x s)) → always R0 m → within R (with_store f m).
Proof.
  intros HR Hm s r s'. unfold with_store. destruct (m (sv_store s)) as [[a|e|] x] eqn:Hx; intros [= _ <-]; by eapply HR, Hm.
Qed.
Lemma within_try {A} R0 (R : relation (Server W)) (m : st (SqlStore W) SqlStoreError A) :
  (∀ s x, R0 (db_of s) (db x) → R s (set_store x s)) → always R0 m → within R (try_store m).
Proof.
  intros HR Hm s r s'. unfold try_store. destruct (m (sv_store s)) as [[a|e|] x] eqn:Hx; intros [= _ <-]; by eapply HR, Hm.
Qed.

Section Rules.
Context (R : relation (Server W)) `{!PreOrder R}.

Lemma within_ret {A} (a : A) : within R (mret a).
Proof. by intros s r s' [= _ <-]. Qed.
Lemma within_lift {A} (m : res Status A) : within R (lift m).
Proof. by intros s r s' [= _ <-]. Qed.
Lemma within_get : within R get.
Proof. by intros s r s' [= _ <-]. Qed.
Lemma within_modify f : (∀ s, R s (f s)) → within R (modify f).
Proof. intros Hf s r s' [= _ <-]. apply Hf. Qed.

Lemma within_bind {A B} (m : api A) (k : A → api B) : within R m → (∀ a, within R (k a)) → within R (m ≫= k).
Proof.
  intros Hm Hk s r s'. unfold mbind, st_bind. destruct (m s) as [[a|e|] s1] eqn:Hs; [|intros [= _ <-]; by eapply Hm..].
  intros Heq. etrans; [by eapply Hm|by eapply Hk].
Qed.

Lemma within_reply {A} R0 st0 (b : A → body) (m : st (SqlStore W) SqlStoreError A) :
  (∀ s x, R0 (db_of s) (db x) → R s (set_store x s)) → always R0 m → within R (reply st0 b m).
Proof. intros HR Hm. apply within_bind; [by eapply within_store|intros; apply within_ret]. Qed.

Lemma within_respond m : within R m → within R (respond m).
Proof. intros Hm s r s'. unfold respond. destruct (m s) as [[a|e|] s1] eqn:Hs; intros [= _ <-]; by eapply Hm. Qed.
End Rules.

Lemma calm_store s x : db_of s = db x → calm s (set_store x s).
Proof. by intros Hd; repeat split. Qed.

Lemma calm_query {A} f (q : Db → A) : within calm (with_store f (query q)).
Proof. eapply within_store; [apply calm_store|apply always_query, _]. Qed.
Lemma calm_try_query {A} (q : Db → A) : within calm (try_store (query q)).
Proof. eapply within_try; [apply calm_store|apply always_query, _]. Qed.
Lemma calm_reading {A} (f : nat → A) : within calm (reading f).
Proof. by intros s r s' [= _ <-]. Qed.

Lemma calm_session_user token : within calm (session_user token).
Proof.
  unfold session_user. apply within_bind; [apply _|apply within_get, _|intros s0]. destruct (_ !! token); [|apply within_ret, _].
  apply within_bind; [apply _|apply calm_query|intros current]. apply within_bind; [apply _|apply calm_reading|intros now].
  case_if; [apply within_ret, _|]. apply within_bind; [apply _| |intros; apply within_ret, _].
  apply within_modify. intros s1. split_and!; [done|apply delete_subseteq|done].
Qed.

Lemma calm_valid_bearer b : within calm (valid_bearer b).
Proof.
  unfold valid_bearer. destruct (is_master_bearer b); [apply within_ret, _|].
  apply within_bind; [apply _|apply calm_session_user|intros; apply within_ret, _].
Qed.

Lemma calm_acting_user a : within calm (acting_user a).
Proof. unfold acting_user. destruct (bearer_token a); [apply calm_session_user|apply within_ret, _]. Qed.

Lemma calm_require_device a id : within calm (require_device a id).
Proof.
  unfold require_device. apply within_bind; [apply _|apply within_lift, _|intros tok].
  destruct (is_master_bearer tok); [apply within_ret, _|].
  apply within_bind; [apply _|apply calm_query|intros [x|]; [case_if; [apply within_ret, _|]|]]; apply within_lift, _.
Qed.

Lemma calm_require_device_read a id : within calm (require_device_read a id).
Proof.
  unfold require_device_read, some_bearer. apply within_bind; [apply _|apply within_lift, _|intros tok].
  apply within_bind; [apply _|apply calm_valid_bearer|intros ok]. destruct ok; [apply within_ret, _|].
  apply within_bind; [apply _|apply calm_query|intros stored]. case_match; [apply within_ret, _|].
  apply within_bind; [apply _|apply calm_query|intros; apply within_lift, _].
Qed.

(** ** Authority *)

(** A bearer of an administrator: the master key, or a session that has not expired and whose
    account still has the password it was opened with. *)
Definition live_session (b : string) s : Prop :=
  ∃ se k, sv_sessions s !! b = Some se ∧ (ticks (sv_store s) ≤ k)%nat ∧ mono k < se_expiry se ∧
    admin_hash (se_username se) (db_of s) = Some (se_hash se).
Definition admin_authority (b : string) s : Prop := is_master_bearer b = true ∨ live_session b s.

Lemma with_store_Ok {A} f (m : st (SqlStore W) SqlStoreError A) s a s' :
  with_store f m s = (Ok a, s') → m (sv_store s) = (Ok a, sv_store s') ∧ sv_sessions s' = sv_sessions s ∧ sv_pending s' = sv_pending s.
Proof. unfold with_store. destruct (m (sv_store s)) as [[x|e|] y]; by intros [= <- <-]. Qed.

Lemma with_query_Ok {A} f (q : Db → A) s a s' :
  with_store f (query q) s = (Ok a, s') → a = q (db_of s) ∧ db_of s' = db_of s ∧ sv_sessions s' = sv_sessions s ∧
    ticks (sv_store s') = S (ticks (sv_store s)).
Proof.
  intros (Hq & Hs & _)%with_store_Ok. unfold query in Hq. destruct (answer _); [|done..]. injection Hq as <- Heq.
  unfold db_of. by rewrite <-Heq.
Qed.

Lemma session_user_Some b u s s' : session_user b s = (Ok (Some u), s') → live_session b s ∧
  ∃ se, sv_sessions s !! b = Some se ∧ se_username se = u ∧ sv_sessions s' = sv_sessions s.
Proof.
  unfold session_user. intros (s0 & s1 & [= <- <-] & Hm)%st_bind_Ok_inv. destruct (sv_sessions s !! b) as [se|] eqn:Hse; [|done].
  apply st_bind_Ok_inv in Hm as (cur & s2 & (-> & Hd & Hss & Ht)%with_query_Ok & Hm).
  apply st_bind_Ok_inv in Hm as (now & s3 & [= <- <-] & Hm).
  destruct (Z.ltb_spec (mono (ticks (sv_store s2))) (se_expiry se)) as [Hlt|]; cbn [andb] in Hm.
  - case_bool_decide as Hh.
    + injection Hm as Hu <-. split; [|exists se; split_and!; [done..|exact Hss]]. exists se, (ticks (sv_store s2)). split_and!; [done|lia|done|done].
    + by apply st_bind_Ok_inv in Hm as (? & ? & _ & [=]).
  - by apply st_bind_Ok_inv in Hm as (? & ? & _ & [=]).
Qed.

Lemma valid_bearer_true b s s' : valid_bearer b s = (Ok true, s') → admin_authority b s.
Proof.
  unfold valid_bearer, admin_authority. destruct (is_master_bearer b); [by left|].
  intros ([u|] & s1 & Hs & Hr)%st_bind_Ok_inv; [|done]. right. by apply session_user_Some in Hs as [? _].
Qed.

Lemma require_device_Ok a id s s' u : require_device a id s = (Ok u, s') →
  ∃ b, bearer_token a = Some b ∧ (is_master_bearer b = true ∨ get_device_token id (db_of s) = Some b).
Proof.
  unfold require_device. intros (tok & s1 & Htok & Hm)%st_bind_Ok_inv. destruct (bearer_token a) as [b|]; [|done].
  injection Htok as <- <-. exists b. split; [done|]. destruct (is_master_bearer b); [by left|]. right.
  apply st_bind_Ok_inv in Hm as (stored & s2 & (-> & _)%with_query_Ok & Hm).
  destruct (get_device_token id (db_of s)) as [x|]; [|done]. destruct (constant_eq x b) eqn:He; [|done].
  by apply constant_eq_spec in He as ->.
Qed.

Lemma some_bearer_Ok a s b s' : some_bearer a s = (Ok b, s') → bearer_token a = Some b ∧ b ≠ ""%string ∧ s' = s.
Proof.
  unfold some_bearer. destruct (bearer_token a) as [t|]; cbn; [|done]. case_bool_decide; cbn; [done|]. by intros [= <- <-].
Qed.

Lemma require_device_read_Ok a id s s' u : require_device_read a id s = (Ok u, s') →
  ∃ b, bearer_token a = Some b ∧ (admin_authority b s ∨ get_device_token id (db_of s) = Some b).
Proof.
  unfold require_device_read. intros (b & s1 & (Hb & _ & ->)%some_bearer_Ok & Hm)%st_bind_Ok_inv. exists b. split; [done|].
  apply st_bind_Ok_inv in Hm as (ok & s2 & Hv & Hm). destruct ok; [left; by eapply valid_bearer_true|]. right.
  destruct (calm_valid_bearer _ _ _ _ Hv) as [Hd _].
  apply st_bind_Ok_inv in Hm as (stored & s3 & (-> & _)%with_query_Ok & Hm). rewrite Hd in Hm.
  destruct (get_device_token id (db_of s)) as [x|]; [destruct (constant_eq x b) eqn:He; [by apply constant_eq_spec in He as ->|]|];
    by apply st_bind_Ok_inv in Hm as (? & ? & _ & [=]).
Qed.

(** ** Refusals *)

(** Every error is an error status. *)
Definition fails {A} (m : api A) : Prop := ∀ s e s', m s = (Err e, s') → is_success e = false.

Lemma fails_ret {A} (a : A) : fails (mret a).
Proof. by intros s e s' [=]. Qed.
Lemma fails_bind {A B} (m : api A) (k : A → api B) : fails m → (∀ a, fails (k a)) → fails (m ≫= k).
Proof.
  intros Hm Hk s e s'. unfold mbind, st_bind. destruct (m s) as [[a|e'|] s1] eqn:Hs; [apply Hk|intros [= <- _]; by eapply Hm|done].
Qed.
Lemma fails_lift {A} e (m : res Status A) : m = Err e → is_success e = false → fails (lift m).
Proof. intros -> He s e' s' [= <- _]. done. Qed.
Lemma fails_ok_or {A} (o : option A) e : is_success e = false → fails (lift (ok_or o e)).
Proof. intros He s e' s'. destruct o; by intros [= <- _]. Qed.
Lemma fails_modify f : fails (modify f).
Proof. by intros s e s' [=]. Qed.
Lemma fails_reading {A} (f : nat → A) : fails (reading f).
Proof. by intros s e s' [=]. Qed.
Lemma fails_try {A} (m : st (SqlStore W) SqlStoreError A) : fails (try_store m).
Proof. intros s e s'. unfold try_store. by destruct (m (sv_store s)) as [[]]; intros [=]. Qed.
Lemma fails_store {A} f (m : st (SqlStore W) SqlStoreError A) : (∀ e, is_success (f e) = false) → fails (with_store f m).
Proof. intros Hf s e s'. unfold with_store. destruct (m (sv_store s)) as [[]]; intros [= <- _]. apply Hf. Qed.

Lemma internal_error_fails e : is_success (internal_error e) = false.
Proof. destruct e; try done. cbn. by destruct (sqlite_busy e). Qed.
Lemma sql_status_fails e : is_success (sql_status e) = false.
Proof. destruct e as [| | | | | | | | | | | | |[]]; try done. Qed.

(** In a state as [P] says the request is refused: the database is untouched, no session is
    opened, nothing is answered but an error. *)
Definition quiet s s' : Prop := db_of s' = db_of s ∧ sv_sessions s' ⊆ sv_sessions s.
Definition refuses {A} (P : Server W → Prop) (m : api A) : Prop := ∀ s r s', P s → m s = (r, s') →
  quiet s s' ∧ ∀ a, r ≠ Ok a.

Lemma calm_quiet s s' : calm s s' → quiet s s'.
Proof. by intros (? & ? & _). Qed.

Lemma refuses_guard {A B} P (m : api A) (k : A → api B) :
  within calm m → (∀ s a s', m s = (Ok a, s') → ¬ P s) → refuses P (m ≫= k).
Proof.
  intros Hw Hm s r s' Hs. unfold mbind, st_bind. destruct (m s) as [[a|e|] s1] eqn:Ha; [by destruct (Hm _ _ _ Ha Hs)|..];
    intros [= <- <-]; (split; [eapply calm_quiet, Hw, Ha|done]).
Qed.

(** ** Who may do what *)

(** The key was proved against an outstanding challenge. *)
Definition possession (key : string) (challenge proof : option string) s : Prop :=
  ∃ cid p e claimed, challenge = Some cid ∧ proof = Some p ∧ sv_pending s !! cid = Some e ∧ mono (ticks (sv_store s)) < expires e ∧
    key_decode key = Some claimed ∧ claimed_pub e = claimed ∧ decode_key p = Some (dh (ephemeral e) claimed).

(** The token of an active device of a live network. *)
Definition member (token network_id : string) (d : Db) : Prop :=
  ∃ i r, t_device d !! i = Some r ∧ holds_token token r = true ∧ in_live_network d r = true ∧ w_network_id r = network_id.

Definition authorized (authorization : option string) (q : http) s : Prop :=
  let bearer P := ∃ b, bearer_token authorization = Some b ∧ P b in
  match q with
  | Open (AdminLogin username password) => ∃ h, admin_hash username (db_of s) = Some h ∧ verify_password password h = true
  | Open (EnrollDevice _ _ key challenge proof) => possession key challenge proof s
  | Open (ResolveName n _) => bearer (fun b => admin_authority b s ∨ member b n (db_of s))
  | Open _ => True
  | OfDevice id (PostAdvertisement _ | DeleteAdvertisement _) => bearer (fun b => get_device_token id (db_of s) = Some b)
  | OfDevice id (GetGateway | PostEndpoints _ | PostStats _ _ _) =>
      bearer (fun b => is_master_bearer b = true ∨ get_device_token id (db_of s) = Some b)
  | OfDevice id _ => bearer (fun b => admin_authority b s ∨ get_device_token id (db_of s) = Some b)
  | Admin _ => bearer (fun b => admin_authority b s)
  end.

(** *** Advertisements *)

Lemma route_change_once_refused id token prefix withdraw x r x' :
  get_device_token id (db x) ≠ Some token → device_route_change_once (W:=W) id token prefix withdraw x = (r, x') →
  db x' = db x ∧ ∀ a, r ≠ Ok a.
Proof.
  intros Hid. apply transaction_aborted. intros a x1 Hm. apply st_bind_Ok_inv in Hm as (u & x2 & Hb & Hm). pose proof (always_begin eq _ _ _ Hb) as Hx2.
  apply st_bind_Ok_inv in Hm as (stored & x3 & Hq & Hm). unfold query in Hq. destruct (answer _); [|done..]. injection Hq as <- <-.
  rewrite <-Hx2 in Hm. rewrite (bool_decide_eq_false_2 _ Hid), orb_true_r in Hm.
  by apply st_bind_Ok_inv in Hm as (known & x4 & _ & [=]).
Qed.

Lemma route_change_refused id token prefix withdraw x r x' :
  get_device_token id (db x) ≠ Some token → device_route_change (W:=W) id token prefix withdraw x = (r, x') →
  db x' = db x ∧ ∀ a, r ≠ Ok a.
Proof.
  unfold device_route_change, retry. generalize 8%nat, 0. intros fuel. revert x.
  induction fuel as [|fuel IH]; intros x attempt Hid; cbn [retry_loop]; [by intros [= <- <-]|].
  destruct (device_route_change_once _ _ _ _ x) as [y x1] eqn:Hy. apply route_change_once_refused in Hy as [Hd Hn]; [|done].
  destruct y as [a|[]|]; try (by intros [= <- <-]).
  destruct (sqlite_busy e); [destruct (2 <=? attempt)|destruct (_ && _)]; try (by intros [= <- <-]);
    intros Heq; (eapply IH in Heq as [Hd' ?]; [split; [congruence|done]|by rewrite Hd]).
Qed.

Lemma advertisement_refused a id prefix withdraw :
  refuses (fun s => ¬ ∃ b, bearer_token a = Some b ∧ get_device_token id (db_of s) = Some b)
    (token ← some_bearer a; reply OK BRoutes (device_route_change id token prefix withdraw)).
Proof.
  intros s r s' Hs. unfold mbind, st_bind at 1. destruct (some_bearer a s) as [[b|e|] s1] eqn:Hb.
  - apply some_bearer_Ok in Hb as (Hb & _ & ->). unfold reply, with_store, mbind, st_bind.
    destruct (device_route_change id b prefix withdraw (sv_store s)) as [x y] eqn:Hx.
    apply route_change_refused in Hx as [Hd Hn]; [|intros He; apply Hs; eauto].
    destruct x as [l|e|]; [by destruct (Hn l)|..]; intros [= <- <-]; (split; [by repeat split|done]).
  - intros [= <- <-]. split; [|done]. unfold some_bearer, lift in Hb. by injection Hb as _ <-.
  - intros [= <- <-]. split; [|done]. unfold some_bearer, lift in Hb. by injection Hb as _ <-.
Qed.

(** *** The other requests *)

Lemma login_refused username password :
  refuses (fun s => ¬ ∃ h, admin_hash username (db_of s) = Some h ∧ verify_password password h = true) (admin_login username password).
Proof.
  intros s r s' Hs. unfold admin_login, login, try_store, store_admin_hash, query, mbind, st_bind.
  destruct (answer _); [|by intros [= <- <-]..]. cbn. unfold id. unfold db_of in Hs.
  destruct (admin_hash username (db (sv_store s))) as [h|]; [|by intros [= <- <-]].
  destruct (verify_password password h) eqn:Hv; [destruct Hs; eauto|by intros [= <- <-]].
Qed.

Lemma pop_verify_spec cid key proof s ok s' : pop_verify cid key proof s = (ok, s') →
  quiet s s' ∧ ok = Ok (verify cid key proof (mono (ticks (sv_store s))) (sv_pending s)).1 ∧
  sv_pending s' = (verify cid key proof (mono (ticks (sv_store s))) (sv_pending s)).2.
Proof. unfold pop_verify, mbind, st_bind. cbn -[verify]. destruct (verify _ _ _ _ _). by intros [= <- <-]. Qed.

Lemma enroll_refused code name key challenge proof :
  refuses (fun s => ¬ possession key challenge proof s) (sql_enroll code name key challenge proof).
Proof.
  intros s r s' Hs. unfold sql_enroll. case_bool_decide; [by intros [= <- <-]|].
  destruct challenge as [cid|], proof as [p|]; try (by intros [= <- <-]). unfold mbind, st_bind at 1.
  destruct (pop_verify cid key p s) as [x s1] eqn:Hx. apply pop_verify_spec in Hx as (Hq & -> & _).
  destruct (verify _ _ _ _ _).1 eqn:Hv; cbn; [|by intros [= <- <-]].
  apply verify_true in Hv as (e & claimed & ? & ? & ? & ? & ? & _). destruct Hs. by exists cid, p, e, claimed.
Qed.

Lemma token_network_member b x n x' : token_network (W:=W) b x = (Ok (Some n), x') → member b n (db x) ∧ db x' = db x.
Proof.
  unfold token_network, query. destruct (answer _); [|done..]. intros [= Hf <-]. split; [|done].
  apply bind_Some in Hf as ([k r] & (Hl & [Hh Hn]%andb_true_iff & _)%list_find_Some & [= <-]).
  apply list_elem_of_lookup_2, select_In in Hl as [i Hi]. by exists i, r.
Qed.

Lemma resolve_refused a n name :
  refuses (fun s => ¬ ∃ b, bearer_token a = Some b ∧ (admin_authority b s ∨ member b n (db_of s))) (sql_resolve_name a n name).
Proof.
  intros s r s' Hs. unfold sql_resolve_name, mbind, st_bind at 1. destruct (some_bearer a s) as [x s1] eqn:Hb.
  assert (s1 = s) as -> by (unfold some_bearer, lift in Hb; congruence).
  destruct x as [b|e|]; [|by intros [= <- <-]..]. apply some_bearer_Ok in Hb as (Hb & _ & _).
  unfold st_bind at 1. destruct (valid_bearer b s) as [x s1] eqn:Hv. pose proof (calm_quiet _ _ (calm_valid_bearer _ _ _ _ Hv)) as [Hd Hss].
  destruct x as [[]|e|]; [apply valid_bearer_true in Hv; destruct Hs; by eauto| |by intros [= <- <-]..].
  unfold st_bind, with_store. destruct (token_network b (sv_store s1)) as [x y] eqn:Ht.
  assert (db y = db_of s) as Hy by (rewrite <-Hd; symmetry; exact (always_query eq _ _ _ _ Ht)).
  destruct x as [[m|]|e|]; cbn; [|by intros [= <- <-]..]. apply token_network_member in Ht as [Ht _].
  case_bool_decide as Hm; [|by intros [= <- <-]]. destruct Hs. exists b. split; [done|]. right. subst. by rewrite <-Hd.
Qed.

Lemma open_refused a q : refuses (fun s => ¬ authorized a (Open q) s) (handle_open a q).
Proof.
  destruct q; try (by intros s r s' []); unfold_handlers; cbn [authorized].
  - intros s r s' Hs. unfold mbind, st_bind. destruct (admin_login _ _ s) as [x s1] eqn:Hl.
    destruct (login_refused _ _ _ _ _ Hs Hl) as [Hq Hn]. destruct x as [y|e|]; [by destruct (Hn y)|by intros [= <- <-]..].
  - apply enroll_refused.
  - apply resolve_refused.
Qed.

Lemma device_refused a id q : refuses (fun s => ¬ authorized a (OfDevice id q) s) (handle_device a id q).
Proof.
  destruct q; unfold_handlers; cbn [authorized]; try apply advertisement_refused;
    (apply refuses_guard; [apply calm_require_device || apply calm_require_device_read|]); intros s u s' Hg Hs; apply Hs;
    first [by eapply require_device_Ok|by eapply require_device_read_Ok].
Qed.

Lemma admin_refused a m action k q : refuses (fun s => ¬ authorized a (Admin q) s) (require_admin a m action k).
Proof.
  intros s r s' Hs. cbn [authorized] in Hs. unfold require_admin, mbind, st_bind at 1.
  destruct (bearer_token a) as [b|]; cbn [ok_or lift]; [|by intros [= <- <-]].
  unfold st_bind at 1. destruct (valid_bearer b s) as [x s1] eqn:Hv. pose proof (calm_quiet _ _ (calm_valid_bearer _ _ _ _ Hv)) as Hq.
  destruct x as [[]|e|]; cbn; [|by intros [= <- <-]..]. apply valid_bearer_true in Hv. destruct Hs. eauto.
Qed.

(** ** Every error answers an error status *)

Ltac fails_step :=
  match goal with
  | |- fails (mret _) => apply fails_ret
  | |- fails (lift (ok_or _ _)) => by apply fails_ok_or
  | |- fails (lift (Err ?e)) => apply (fails_lift e); [reflexivity|by repeat case_match]
  | |- fails (modify _) => apply fails_modify
  | |- fails get => by intros ? ? ? [=]
  | |- fails (reading _) => apply fails_reading
  | |- fails (try_store _) => apply fails_try
  | |- fails (with_store internal_error _) => apply fails_store, internal_error_fails
  | |- fails (with_store sql_status _) => apply fails_store, sql_status_fails
  | |- fails (reply _ _ _) => unfold reply
  | |- fails (no_content _) => unfold no_content
  | |- fails (_ ≫= _) => apply fails_bind; [|intros ?]
  | |- fails (let '(_, _) := ?x in _) => destruct x
  | |- fails (match ?x with _ => _ end) => destruct x
  | |- fails (if ?x then _ else _) => destruct x
  end.
Ltac fails_steps := repeat fails_step.

Lemma fails_session_user b : fails (session_user b).
Proof. unfold session_user. fails_steps. Qed.
Lemma fails_valid_bearer b : fails (valid_bearer b).
Proof. unfold valid_bearer. fails_steps. apply fails_session_user. Qed.
Lemma fails_acting_user a : fails (acting_user a).
Proof. unfold acting_user. fails_steps. apply fails_session_user. Qed.
Lemma fails_respond m : fails (respond m).
Proof. intros s e s'. unfold respond. by destruct (m s) as [[]]. Qed.

Lemma fails_open a q : fails (handle_open a q).
Proof.
  destruct q; unfold_handlers; unfold admin_login, login, record_audit, sql_enroll_challenge, sql_enroll, pop_verify, sql_resolve_name, some_bearer;
    fails_steps; apply fails_valid_bearer.
Qed.

Lemma fails_device a id q : fails (handle_device a id q).
Proof.
  destruct q; unfold_handlers; unfold require_device, require_device_read, some_bearer; fails_steps; apply fails_valid_bearer.
Qed.

Lemma fails_require_admin a m action k : fails (require_admin a m action k).
Proof. unfold require_admin, record_audit. fails_steps; [apply fails_valid_bearer|apply fails_acting_user|apply fails_respond]. Qed.

Lemma respond_refused P m s r s' : fails m → refuses P m → P s → respond m s = (r, s') →
  quiet s s' ∧ ∀ rep, r = Ok rep → is_success (re_status rep) = false ∧ re_body rep = BNone.
Proof.
  intros Hf Hr Hn. unfold respond. destruct (m s) as [x s1] eqn:Hm. destruct (Hr _ _ _ Hn Hm) as [Hq Hno].
  destruct x as [rep|e|]; [by destruct (Hno rep)| |by intros [= <- <-]].
  intros [= <- <-]. split; [done|]. intros rep [= <-]. cbn. split; [by eapply Hf|done].
Qed.

(** ** A device's requests change what is the device's *)

Definition confined_server id s s' : Prop := confined id (db_of s) (db_of s').

#[export] Instance confined_server_preorder id : PreOrder (confined_server id).
Proof. split; [by intros s; unfold confined_server|]. intros a b c Hab Hbc. by unfold confined_server; etrans. Qed.

Lemma within_calm_confined {A} id (m : api A) : within calm m → within (confined_server id) m.
Proof. apply within_mono. intros s s' [Hd _]. unfold confined_server. by rewrite Hd. Qed.

Lemma reply_confined {A} id st0 (b : A → body) (m : st (SqlStore W) SqlStoreError A) :
  always (confined id) m → within (confined_server id) (reply st0 b m).
Proof. apply within_reply; [apply _|done]. Qed.

Lemma reply_reads {A} id st0 (b : A → body) (m : st (SqlStore W) SqlStoreError A) :
  reads m → within (confined_server id) (reply st0 b m).
Proof. intros Hm. by apply reply_confined, reads_always; [apply _|]. Qed.

Lemma device_confined a id q : within (confined_server id) (handle_device a id q).
Proof.
  pose proof (within_calm_confined id _ (calm_require_device a id)). pose proof (within_calm_confined id _ (calm_require_device_read a id)).
  destruct q; unfold_handlers; (apply within_bind; [apply _|done || apply within_lift, _|intros u]).
  - apply reply_reads, reads_device_config.
  - apply within_bind; [apply _| |intros cfg; destruct (select_gateway cfg); [apply within_ret, _|apply within_lift, _]].
    apply within_calm_confined. eapply within_store; [apply calm_store|apply (reads_always eq), reads_device_config].
  - apply reply_confined, set_endpoints_confined.
  - apply within_bind; [apply _|apply within_calm_confined, calm_reading|intros now]. apply reply_confined, report_stats_confined.
  - apply reply_reads, reads_query.
  - apply reply_reads, reads_device_settings.
  - apply reply_reads, reads_query.
  - apply reply_confined, device_route_change_confined.
  - apply reply_confined, device_route_change_confined.
Qed.
End Guards.
