(* ===== verification/ApiState.v ===== *)
(** * What a request to the control plane does to its state

    [handles]: from an intact database a handler does not panic, keeps the database intact,
    writes no log entry, leaves the challenges alone and never removes the last
    administrator.  The requests that do more have lemmas of their own. *)

From Stdlib Require Import Strings.Ascii Strings.String.
From S2P Require Import Prelude.
From S2P Require Import Words.
From S2P Require Import Crypto.
From S2P Require Import NetText.
From S2P Require Import Prefix.
From S2P Require Import Domain.
From S2P Require Import NodeConfig.
From S2P Require Import SqlDb.
From S2P Require Import SqlControl.
From S2P Require Import SqlInv.
From S2P Require Import SqlFrame.
From S2P Require Import Pop.
From S2P Require Import AdminAuth.
From S2P Require Import ControlApi.
From S2P Require Import ApiInv.

Section State.
Context {W : Type} `{!EpochWatch W} `{!Database} `{!KeyCodec} `{!KeyCodecLaws} `{!JsonText} `{!Crypto} `{!ApiHost}.
Implicit Types s : Server W.
Abbreviation api A := (st (Server W) Status A).

Record handled s s' : Prop := {
  hd_sound : sound (db_of s) (db_of s');
  hd_audit : t_audit (db_of s') = t_audit (db_of s);
  hd_pending : sv_pending s' = sv_pending s;
  hd_admins : t_admin (db_of s) ≠ ∅ → t_admin (db_of s') ≠ ∅
}.

#[export] Instance handled_preorder : PreOrder handled.
Proof. split; [by intros s|]. intros a b c [] []. split; [by etrans|congruence|congruence|auto]. Qed.

Definition handles {A} (m : api A) : Prop := ∀ s r s', db_ok (db_of s) → m s = (r, s') → handled s s' ∧ r ≠ Panic.

Lemma calm_handled s s' : calm s s' → handled s s'.
Proof. intros (Hd & _ & Hp). split; rewrite ?Hd; done. Qed.

Lemma handles_ret {A} (a : A) : handles (mret a).
Proof. by intros s r s' _ [= <- <-]. Qed.
Lemma handles_lift {A} (m : res Status A) : m ≠ Panic → handles (lift m).
Proof. by intros Hm s r s' _ [= <- <-]. Qed.
Lemma handles_get : handles get.
Proof. by intros s r s' _ [= <- <-]. Qed.
Lemma handles_reading {A} (f : nat → A) : handles (reading f).
Proof. by intros s r s' _ [= <- <-]. Qed.
Lemma handles_sessions f : handles (modify (fun s => set_sessions (f s) s)).
Proof. by intros s r s' _ [= <- <-]. Qed.

Lemma handles_bind {A B} (m : api A) (k : A → api B) : handles m → (∀ a, handles (k a)) → handles (m ≫= k).
Proof.
  intros Hm Hk s r s' Hok. unfold mbind, st_bind. destruct (m s) as [x s1] eqn:Hs. destruct (Hm _ _ _ Hok Hs) as [Hh Hp].
  destruct x as [a|e|]; [|by intros [= <- <-]..]. intros Heq. destruct (Hk a s1 r s') as [Hh' Hp']; [by apply (hd_sound _ _ Hh)|done|].
  split; [by etrans|done].
Qed.

(** What an operation of the store may do. *)
Definition tended (d d' : Db) : Prop :=
  sound d d' ∧ t_audit d' = t_audit d ∧ (t_admin d ≠ ∅ → t_admin d' ≠ ∅).

#[local] Instance tended_preorder : PreOrder tended.
Proof. split; [by intros d|]. intros a b c (Hs & Ha & Hn) (Hs' & Ha' & Hn'). split_and!; [by etrans|congruence|auto]. Qed.

Lemma handles_tended {A} f (m : st (SqlStore W) SqlStoreError A) : keeps db_ok tended m → handles (with_store f m).
Proof.
  intros Hm s r s' Hok. unfold with_store. destruct (m (sv_store s)) as [x y] eqn:Hx.
  destruct (Hm _ _ _ Hok Hx) as [(Hs & Ha & Hn) Hp]. destruct x as [a|e|]; [| |done]; intros [= <- <-]; done.
Qed.

Lemma handles_store {A} f (m : st (SqlStore W) SqlStoreError A) : intact m → always same_accounts m → handles (with_store f m).
Proof.
  intros Hm Ha. apply handles_tended. intros s r s' Hok Hs. destruct (Hm _ _ _ Hok Hs) as [Hso Hp].
  destruct (Ha _ _ _ Hs) as [Had Hau]. split; [|done]. split_and!; [done..|by rewrite Had].
Qed.

Lemma handles_query {A} f (q : Db → A) : handles (with_store f (query q)).
Proof. apply handles_store; [apply keeps_query_any, _|apply always_query, _]. Qed.

Lemma handles_reply {A} st0 (b : A → body) (m : st (SqlStore W) SqlStoreError A) :
  intact m → always same_accounts m → handles (reply st0 b m).
Proof. intros Hm Ha. apply handles_bind; [by apply handles_store|intros; apply handles_ret]. Qed.

Lemma handles_respond m : handles m → handles (respond m).
Proof.
  intros Hm s r s' Hok. unfold respond. destruct (m s) as [x s1] eqn:Hs. destruct (Hm _ _ _ Hok Hs).
  destruct x; by intros [= <- <-].
Qed.

Lemma handles_calm {A} (m : api A) : within calm m → (∀ s s', m s ≠ (Panic, s')) → handles m.
Proof. intros Hw Hp s r s' _ Hs. split; [by eapply calm_handled, Hw|]. intros ->. by eapply Hp. Qed.

Lemma handles_try {A} (q : Db → A) : handles (try_store (query q)).
Proof.
  apply handles_calm; [apply calm_try_query|]. intros s s'. unfold try_store, query. by destruct (answer _).
Qed.

Ltac handles_step :=
  match goal with
  | |- handles (mret _) => apply handles_ret
  | |- handles (lift (ok_or _ _)) => apply handles_lift, res_no_panic
  | |- handles (lift (Err _)) => by apply handles_lift
  | |- handles get => apply handles_get
  | |- handles (reading _) => apply handles_reading
  | |- handles (modify (revoke_sessions _)) => apply handles_sessions
  | |- handles (modify (fun s => set_sessions _ s)) => apply handles_sessions
  | |- handles (with_store _ (query _)) => apply handles_query
  | |- handles (try_store (query _)) => apply handles_try
  | |- handles (_ ≫= _) => apply handles_bind; [|intros ?]
  | |- handles (match ?x with _ => _ end) => destruct x
  | |- handles (if ?x then _ else _) => destruct x
  end.
Ltac handles_steps := repeat handles_step.

Lemma handles_session_user b : handles (session_user b).
Proof. unfold session_user, store_admin_hash. handles_steps. Qed.
Lemma handles_valid_bearer b : handles (valid_bearer b).
Proof. unfold valid_bearer. handles_steps. apply handles_session_user. Qed.
Lemma handles_acting_user a : handles (acting_user a).
Proof. unfold acting_user. handles_steps. apply handles_session_user. Qed.
Lemma handles_require_device a id : handles (require_device a id).
Proof. unfold require_device, device_token. handles_steps. Qed.
Lemma handles_require_device_read a id : handles (require_device_read a id).
Proof. unfold require_device_read, some_bearer, device_token, has_device_token. handles_steps. apply handles_valid_bearer. Qed.
Lemma handles_some_bearer a : handles (some_bearer a).
Proof. unfold some_bearer. handles_steps. Qed.

(** ** Devices *)

Lemma handles_reads {A} f (m : st (SqlStore W) SqlStoreError A) : reads m → handles (with_store f m).
Proof. intros Hm. apply handles_store; [by apply reads_intact|by apply reads_always; [apply _|]]. Qed.
Lemma handles_reply_reads {A} st0 (b : A → body) (m : st (SqlStore W) SqlStoreError A) : reads m → handles (reply st0 b m).
Proof. intros Hm. apply handles_bind; [by apply handles_reads|intros; apply handles_ret]. Qed.

Lemma handles_device a id q : handles (handle_device a id q).
Proof.
  pose proof (handles_require_device a id). pose proof (handles_require_device_read a id). pose proof (handles_some_bearer a).
  destruct q; unfold_handlers; (apply handles_bind; [done|intros u]).
  - apply handles_reply_reads, reads_device_config.
  - handles_steps. apply handles_reads, reads_device_config.
  - apply handles_reply; [apply intact_set_endpoints|apply (accounts_confined id), set_endpoints_confined].
  - handles_step; [apply handles_reading|].
    apply handles_reply; [apply intact_report_stats|apply (accounts_confined id), report_stats_confined].
  - apply handles_reply_reads, reads_query.
  - apply handles_reply_reads, reads_device_settings.
  - apply handles_reply_reads, reads_query.
  - apply handles_reply; [apply intact_device_route_change|apply (accounts_confined id), device_route_change_confined].
  - apply handles_reply; [apply intact_device_route_change|apply (accounts_confined id), device_route_change_confined].
Qed.

(** ** Administrators *)

Lemma admin_sound d x : sound d (with_admin x d).
Proof. apply sound_intro; [|done..]. intros []. by split. Qed.

Lemma handles_create_admin username password : handles (create_admin username password).
Proof.
  unfold create_admin, store_admin_hash, store_create_admin. handles_steps. apply handles_tended.
  apply keeps_execute_bind; [apply _| | |intros; apply keeps_ret, _].
  - intros d _. unfold create_admin_row, insert_row. by destruct (t_admin d !! username).
  - intros d d' x _. unfold create_admin_row. destruct (insert_row _ _ _) as [m| |] eqn:Hm; cbn; [|done..]. intros [= <- _].
    apply insert_row_inv in Hm as [_ ->]. split_and!; [apply admin_sound|done|intros _; apply insert_non_empty].
Qed.

Lemma handles_change_password a old new : handles (admin_change_password a old new).
Proof.
  unfold admin_change_password, store_admin_hash, store_update_admin_password. handles_steps; [apply handles_acting_user|].
  apply handles_tended, keeps_run; [apply _|]. intros d _. split_and!; [apply admin_sound|done|].
  cbn. by rewrite <-!dom_empty_iff_L, dom_alter_L.
Qed.

Lemma handles_delete_admin_check a username : handles (delete_admin_check a username).
Proof. unfold delete_admin_check, store_count_admins. handles_steps. apply handles_acting_user. Qed.

Lemma delete_admin_check_None a username s s' : delete_admin_check a username s = (Ok None, s') →
  db_of s' = db_of s ∧ 1 < count_admins (db_of s).
Proof.
  unfold delete_admin_check. intros (u & s1 & Ha & Hm)%st_bind_Ok_inv. apply calm_acting_user in Ha as [Hd _].
  case_bool_decide; [done|]. apply st_bind_Ok_inv in Hm as (n & s2 & (-> & Hd' & _)%with_query_Ok & Hm).
  destruct (Z.leb_spec (count_admins (db_of s1)) 1) as [|Hlt]; [done|]. injection Hm as <-. rewrite Hd in Hlt. split; [congruence|done].
Qed.

Lemma delete_leaves {A} (m : gmap string A) i : (1 < size m)%nat → delete i m ≠ ∅.
Proof. intros Hm. apply map_size_non_empty_iff. rewrite map_size_delete. destruct (m !! i); cbn; lia. Qed.

Lemma handles_delete_admin a username : handles (delete_admin a username).
Proof.
  intros s r s' Hok. unfold delete_admin, mbind, st_bind. destruct (delete_admin_check a username s) as [x s1] eqn:Hx.
  destruct (handles_delete_admin_check _ _ _ _ _ Hok Hx) as [Hh Hp]. destruct x as [[st0|]|e|]; try (by intros [= <- <-]).
  apply delete_admin_check_None in Hx as [Hd Hc]. unfold delete_admin_commit, mbind, st_bind.
  destruct (with_store internal_error _ s1) as [y s2] eqn:Hy.
  assert (handled s1 s2 ∧ y ≠ Panic) as [Hh' Hp'].
  { unfold with_store, store_delete_admin, run_, execute in Hy. unfold count_admins in Hc. rewrite <-Hd in Hc.
    destruct (answer _); injection Hy as <- <-; (split; [|done]); try done;
      (split; [apply admin_sound|done..|intros _; apply delete_leaves; unfold db_of in Hc; lia]). }
  destruct y as [u|e|]; intros [= <- <-]; (split; [|done]); by repeat (etrans; [done|]).
Qed.

#[local] Hint Resolve intact_create_network intact_create_invite intact_delete_network intact_revoke_invite intact_import
  intact_revoke_device intact_rename_device intact_store_device_settings intact_advertise_route intact_approve_route
  intact_delete_route intact_register_relay intact_update_relay intact_enroll : accounts.

Lemma handles_admin a q : handles (handle_admin a q).
Proof.
  destruct q; unfold_handlers; unfold validate_relay_identity, no_content, plain, admin_me, audit_log, list_admins, store_list_admins;
    repeat first [handles_step|apply handles_reply_reads, reads_query|apply handles_acting_user|apply handles_create_admin|
           apply handles_change_password|apply handles_delete_admin|apply handles_reply_reads, reads_devices|
           by apply handles_reply; auto with accounts].
Qed.

(** ** The whole interface *)

(** A step of any request: it may append to the log, and add or use up challenges. *)
Record stepped s s' : Prop := {
  sp_sound : sound (db_of s) (db_of s');
  sp_admins : t_admin (db_of s) ≠ ∅ → t_admin (db_of s') ≠ ∅
}.

#[export] Instance stepped_preorder : PreOrder stepped.
Proof. split; [by intros s|]. intros a b c [] []. split; [by etrans|auto]. Qed.

Definition steps {A} (m : api A) : Prop := ∀ s r s', db_ok (db_of s) → m s = (r, s') → stepped s s' ∧ r ≠ Panic.

Lemma steps_handles {A} (m : api A) : handles m → steps m.
Proof. intros Hm s r s' Hok Hs. by destruct (Hm _ _ _ Hok Hs) as [[] Hp]. Qed.
Lemma steps_bind {A B} (m : api A) (k : A → api B) : steps m → (∀ a, steps (k a)) → steps (m ≫= k).
Proof.
  intros Hm Hk s r s' Hok. unfold mbind, st_bind. destruct (m s) as [x s1] eqn:Hs. destruct (Hm _ _ _ Hok Hs) as [Hh Hp].
  destruct x as [a|e|]; [|by intros [= <- <-]..]. intros Heq. destruct (Hk a s1 r s') as [Hh' Hp']; [by apply (sp_sound _ _ Hh)|done|].
  split; [by etrans|done].
Qed.
Lemma steps_audit ts actor action : steps (record_audit ts actor action).
Proof.
  intros s r s' Hok. unfold record_audit, mbind, st_bind, try_store, run_, execute. destruct (answer _); intros [= <- <-];
    (split; [|done]); try done; (split; [|done]); (apply sound_intro; [|done..]); intros []; by split.
Qed.
Lemma steps_pending f : steps (modify (set_pending f)).
Proof. by intros s r s' _ [= <- <-]. Qed.

Ltac steps_step := first [apply steps_audit|apply steps_bind; [|intros ?]|case_if|case_match|apply steps_pending|apply steps_handles; by handles_steps].

Lemma steps_require_admin a m action k : handles k → steps (require_admin a m action k).
Proof.
  intros Hk. pose proof handles_valid_bearer. pose proof handles_acting_user. pose proof (handles_respond _ Hk).
  unfold require_admin. repeat steps_step; by apply steps_handles.
Qed.

Lemma steps_open a q : steps (handle_open a q).
Proof.
  pose proof handles_valid_bearer. destruct q; unfold_handlers; unfold admin_login, login, store_admin_hash, sql_enroll_challenge, sql_enroll, pop_verify,
    sql_resolve_name, some_bearer, token_network; repeat steps_step; try (by apply steps_handles); apply steps_handles.
  - apply handles_store; auto with accounts.
  - apply handles_reads, reads_resolve.
Qed.

Lemma steps_respond m : steps m → steps (respond m).
Proof.
  intros Hm s r s' Hok. unfold respond. destruct (m s) as [x s1] eqn:Hs. destruct (Hm _ _ _ Hok Hs). destruct x; by intros [= <- <-].
Qed.

Lemma steps_serve a action q : steps (serve a action q).
Proof.
  apply steps_respond. destruct q; [apply steps_open|apply steps_handles, handles_device|apply steps_require_admin, handles_admin].
Qed.

(** ** Challenges *)

(** Only asking for a challenge and answering one touch the table. *)
Definition spares {A} (m : api A) : Prop := within (fun s s' => sv_pending s' = sv_pending s) m.

#[local] Instance same_pending_preorder : PreOrder (fun s s' => sv_pending s' = sv_pending s).
Proof. split; [done|]. intros a b c -> ->. done. Qed.

Lemma spares_bind {A B} (m : api A) (k : A → api B) : spares m → (∀ a, spares (k a)) → spares (m ≫= k).
Proof. apply within_bind, _. Qed.
Lemma spares_store {A} f (m : st (SqlStore W) SqlStoreError A) : spares (with_store f m).
Proof. by apply (within_store (fun _ _ => True)). Qed.
Lemma spares_try {A} (m : st (SqlStore W) SqlStoreError A) : spares (try_store m).
Proof. by apply (within_try (fun _ _ => True)). Qed.
Lemma spares_respond m : spares m → spares (respond m).
Proof. apply within_respond. Qed.
Lemma spares_calm {A} (m : api A) : within calm m → spares m.
Proof. apply within_mono. by intros s s' (_ & _ & ->). Qed.

Ltac spares_step :=
  match goal with
  | |- spares (mret _) => apply within_ret, _
  | |- spares (lift _) => apply within_lift, _
  | |- spares get => apply within_get, _
  | |- spares (reading _) => by intros ? ? ? [= _ <-]
  | |- spares (modify _) => by intros ? ? ? [= _ <-]
  | |- spares (with_store _ _) => apply spares_store
  | |- spares (try_store _) => apply spares_try
  | |- spares (reply _ _ _) => unfold reply
  | |- spares (acting_user _) => apply spares_calm, calm_acting_user
  | |- spares (valid_bearer _) => apply spares_calm, calm_valid_bearer
  | |- spares (_ ≫= _) => apply spares_bind; [|intros ?]
  | |- spares (match ?x with _ => _ end) => destruct x
  | |- spares (if ?x then _ else _) => destruct x
  end.

Lemma spares_admin a q : spares (handle_admin a q).
Proof.
  destruct q; unfold_handlers; unfold validate_relay_identity, no_content, plain, admin_me, audit_log, list_admins,
    admin_change_password, create_admin, delete_admin, delete_admin_check, delete_admin_commit; repeat spares_step.
Qed.

Lemma spares_require_admin a m action k : spares k → spares (require_admin a m action k).
Proof. intros Hk. unfold require_admin, record_audit. repeat spares_step. by apply spares_respond. Qed.

Lemma spares_device a id q : spares (handle_device a id q).
Proof.
  pose proof (spares_calm _ (calm_require_device a id)). pose proof (spares_calm _ (calm_require_device_read a id)).
  destruct q; unfold_handlers; unfold some_bearer, no_content; (apply spares_bind; [done || spares_step|intros ?]); repeat spares_step.
Qed.

(** The request asks for a challenge, or answers one. *)
Definition about_challenges (q : http) : bool :=
  match q with Open (EnrollChallenge _) | Open (EnrollDevice _ _ _ _ _) => true | _ => false end.

Lemma spares_serve a action q : about_challenges q = false → spares (serve a action q).
Proof.
  intros Hq. apply spares_respond. destruct q as [q|id q|q]; [|apply spares_device|apply spares_require_admin, spares_admin].
  destruct q; try discriminate Hq; unfold_handlers; unfold admin_login, login, record_audit, sql_resolve_name, some_bearer; repeat spares_step.
Qed.

(** A success of a request of one kind. *)
Definition succeeded (r : res Status Reply) : nat := match r with Ok rep => if is_success (re_status rep) then 1 else 0 | _ => 0 end.
Definition challenged (q : http) (r : res Status Reply) : nat := match q with Open (EnrollChallenge _) => succeeded r | _ => 0 end.
Definition enrolled (q : http) (r : res Status Reply) : nat := match q with Open (EnrollDevice _ _ _ _ _) => succeeded r | _ => 0 end.

Definition pending_size s : nat := size (sv_pending s).

Lemma serve_challenge_pending a action key s r s' : serve a action (Open (EnrollChallenge key)) s = (r, s') →
  (pending_size s' ≤ pending_size s + succeeded r)%nat ∧
  (Z.of_nat (pending_size s) ≤ MAX_PENDING → Z.of_nat (pending_size s') ≤ MAX_PENDING).
Proof.
  unfold serve, respond. unfold_handlers. unfold sql_enroll_challenge, mbind, st_bind. cbn -[new_challenge].
  match goal with |- context [new_challenge ?k ?seed ?id ?now ?m] => 
    pose proof (new_challenge_size k seed id now m); pose proof (new_challenge_bounded k seed id now m);
    destruct (new_challenge k seed id now m) as [[c|] m'] end; cbn in *; intros [= <- <-]; done.
Qed.

Lemma serve_enroll_pending a action code name key cid proof s r s' : serve a action (Open (EnrollDevice code name key cid proof)) s = (r, s') →
  (succeeded r + pending_size s' ≤ pending_size s)%nat.
Proof.
  unfold serve, respond. unfold_handlers. unfold sql_enroll. case_bool_decide; [by intros [= <- <-]|].
  destruct cid as [cid|], proof as [p|]; try (by intros [= <- <-]). unfold mbind, st_bind at 1.
  destruct (pop_verify cid key p s) as [x s1] eqn:Hx. apply pop_verify_spec in Hx as (_ & -> & Hp).
  pose proof (verify_size cid key p (mono (ticks (sv_store s))) (sv_pending s)) as Hv. rewrite <-Hp in Hv. unfold pending_size.
  destruct (verify _ _ _ _ _).1; cbn [negb]; [|intros [= <- <-]; exact Hv].
  assert (spares (now ← reading unix_now; reply CREATED (fun x => BEnrolled x.1 x.2) (enroll code name key now))) as Hsp by repeat spares_step.
  match goal with |- context [st_bind _ _ ?k ?m s1] => destruct (st_bind _ _ k m s1) as [y s2] eqn:Hy end. apply Hsp in Hy.
  destruct y as [rep|e|]; intros [= <- <-]; rewrite Hy; cbn; try case_match; lia.
Qed.

Lemma serve_pending a action q s r s' : serve a action q s = (r, s') →
  (enrolled q r + pending_size s' ≤ pending_size s + challenged q r)%nat ∧
  (Z.of_nat (pending_size s) ≤ MAX_PENDING → Z.of_nat (pending_size s') ≤ MAX_PENDING).
Proof.
  intros Hs. destruct (about_challenges q) eqn:Hq.
  - destruct q as [[]|?|?]; try discriminate Hq; cbn [enrolled challenged]; [by apply serve_challenge_pending in Hs|].
    apply serve_enroll_pending in Hs. split; lia.
  - unfold pending_size. rewrite (spares_serve a action q Hq _ _ _ Hs). destruct q as [[]|?|?]; try discriminate Hq; cbn; lia.
Qed.

Lemma serve_challenge_Ok a action key s c s' :
  serve a action (Open (EnrollChallenge key)) s = (Ok (mkReply OK (BChallenge c)), s') →
  ∃ seed claimed exp, key_decode key = Some claimed ∧ server_pub c = hex_encode (dh_public seed) ∧ was_contributory (dh seed claimed) = true ∧
    sv_pending s' !! challenge_id c = Some (mkPending seed claimed exp).
Proof.
  unfold serve, respond. unfold_handlers. unfold sql_enroll_challenge, mbind, st_bind. cbn -[new_challenge].
  destruct (new_challenge _ _ _ _ _) as [[c'|] m'] eqn:Hc; cbn; [|done]. intros [= <- <-].
  apply new_challenge_Some in Hc as (claimed & ? & ? & ? & ?). eauto 10.
Qed.

(** A proved enrolment is the store's. *)
Lemma sql_enroll_proved code name key cid proof s :
  (verify cid key proof (mono (ticks (sv_store s))) (sv_pending s)).1 = true →
  ∃ s1 now, db_of s1 = db_of s ∧ sql_enroll code name key (Some cid) (Some proof) s =
    reply CREATED (fun x => BEnrolled x.1 x.2) (enroll code name key now) s1.
Proof.
  intros Hv. destruct (verify_true _ _ _ _ _ Hv) as (e & claimed & _ & _ & Hk & _). unfold sql_enroll. rewrite Hk. cbn [bool_decide].
  rewrite bool_decide_eq_false_2 by done. unfold mbind, st_bind at 1. destruct (pop_verify cid key proof s) as [x s1] eqn:Hx.
  apply pop_verify_spec in Hx as ([Hd _] & -> & _). rewrite Hv. cbn [negb]. unfold st_bind at 1, reading at 1.
  eexists _, _. split; [|reflexivity]. exact Hd.
Qed.

(** ** Accounts *)

Lemma try_query_Ok {A} (q : Db → A) s a s' : try_store (query q) s = (Ok (Some a), s') →
  a = q (db_of s) ∧ calm s s'.
Proof.
  intros Hs. pose proof (calm_try_query q _ _ _ Hs) as Hc. unfold try_store, query in Hs. destruct (answer _); [|done..]. by injection Hs as <- _.
Qed.

Lemma acting_user_Some a u s s' : acting_user a s = (Ok (Some u), s') →
  ∃ b se, bearer_token a = Some b ∧ sv_sessions s !! b = Some se ∧ se_username se = u ∧ live_session b s.
Proof.
  unfold acting_user. destruct (bearer_token a) as [b|]; [|done]. intros [Hl (se & Hse & Hu & _)]%session_user_Some. eauto 10.
Qed.

Lemma change_password_Ok a old new s s' : admin_change_password a old new s = (Ok NO_CONTENT, s') →
  ∃ b se user hash k s1, bearer_token a = Some b ∧ sv_sessions s !! b = Some se ∧ se_username se = user ∧ live_session b s ∧
    admin_hash user (db_of s) = Some hash ∧ verify_password old hash = true ∧ calm s s1 ∧
    db_of s' = update_admin_password user (hash_password k new) (db_of s) ∧
    sv_sessions s' = filter (fun x => se_username x.2 ≠ user) (sv_sessions s1).
Proof.
  unfold admin_change_password. intros (u & s1 & Ha & Hm)%st_bind_Ok_inv. destruct u as [user|]; [|done].
  pose proof (calm_acting_user _ _ _ _ Ha) as Hc1. apply acting_user_Some in Ha as (b & se & Hb & Hse & Hu & Hl).
  destruct (_ <? 4)%nat; [done|]. apply st_bind_Ok_inv in Hm as (h & s2 & Hh & Hm).
  destruct h as [[hash|]|]; cbn in Hm; [|done..]. apply try_query_Ok in Hh as [Hh Hc2].
  destruct (verify_password old hash) eqn:Hv; cbn in Hm; [|done]. apply st_bind_Ok_inv in Hm as (fresh & s3 & Hf & Hm).
  pose proof (calm_reading _ _ _ _ Hf) as Hc3. injection Hf as <- _.
  apply st_bind_Ok_inv in Hm as (x & s4 & (Hx & Hss & _)%with_store_Ok & Hm). apply run_Ok in Hx.
  apply st_bind_Ok_inv in Hm as (y & s5 & [= _ <-] & [= <-]).
  assert (calm s s3) as Hc by (by repeat (etrans; [eassumption|])). pose proof Hc1 as (Hd1 & _). pose proof Hc as (Hd & _).
  exists b, se, user, hash, (ticks (sv_store s2)), s3. rewrite Hd1 in Hh. split_and!; try done.
  - unfold db_of in *. cbn. by rewrite Hx, Hd.
  - cbn. by rewrite Hss.
Qed.
End State.
