(* ===== verification/WatchFeed.v ===== *)
(** * The configuration feed of a device (control-server/src/lib.rs)

    [sql_watch_device] and the loop behind an upgraded WebSocket: what each branch of the
    loop's [select!] does.  Which branch is next, when messages arrive and whether a frame
    goes out in time are the network's and tokio's, given as events.  Other requests run
    between the events, and between the two reads of [sql_send_config_inner]. *)

From Stdlib Require Import Strings.Ascii Strings.String.
From S2P Require Import Prelude.
From S2P Require Import Words.
From S2P Require Import Crypto.
From S2P Require Import NetText.
From S2P Require Import Domain.
From S2P Require Import NodeConfig.
From S2P Require Import SqlDb.
From S2P Require Import SqlControl.
From S2P Require Import SqlInv.
From S2P Require Import SqlConfig.
From S2P Require Import SqlFrame.
From S2P Require Import AdminAuth.
From S2P Require Import ControlApi.
From S2P Require Import ApiInv.

Record WatchCredential := mkCredential { bearer : string; is_master : bool }.

Definition IDLE : Z := 90 * 10 ^ 9.

(** [last_received], and whether the loop still runs. *)
Record Feed := mkFeed { fd_device : string; fd_credential : WatchCredential; fd_last_received : Z; fd_open : bool }.

Inductive frame := Text (c : DeviceConfig) | Close | Ping.

(** One call of [sql_send_config]: the requests served between its reads, whether it comes
    to sending before its ten seconds are over, and whether the frame is out by then. *)
Record Attempt := mkAttempt { between : list request; in_time : bool; delivered : bool }.

Inductive event :=
| Others (l : list request)
| Incoming (closing : bool) (now : Z)
| Changed (sender_alive : bool) (a : Attempt)
| Heartbeat (now : Z) (a : Attempt) (ping_delivered : bool).

Section Feed.
Context {W : Type} `{!EpochWatch W} `{!Database} `{!KeyCodec} `{!JsonText} `{!ApiHost}.
Implicit Types (f : Feed) (x : SqlStore W).

(** The reply of the upgrade; the receiver is a subscription in the store. *)
Definition sql_watch_device (authorization : option string) (device_id : string) : st (Server W) Status Feed :=
  _ ← require_device authorization device_id;
  network_id ← with_store sql_status (network_of device_id);
  network_id ← lift (ok_or network_id NOT_FOUND);
  bearer ← lift (ok_or (bearer_token authorization) UNAUTHORIZED);
  _ ← modify (fun s => set_store (subscribe network_id (sv_store s)) s);
  now ← reading mono;
  mret (mkFeed device_id (mkCredential bearer (is_master_bearer bearer)) now true).

(** The credential, just before a frame is sent. *)
Definition still_authorized (device_id : string) (c : WatchCredential) x : bool * SqlStore W :=
  if is_master c then (is_master_bearer (bearer c), x)
  else match device_token device_id x with
       | (Ok (Some current), x) => (constant_eq current (bearer c), x)
       | (_, x) => (false, x)
       end.

(** Whether to go on, the frames sent, and the store. *)
Definition sql_send_config_inner (device_id : string) (c : WatchCredential) (a : Attempt) x : bool * list frame * SqlStore W :=
  match device_config device_id x with
  | (Ok cfg, x) =>
      let '(ok, x) := still_authorized device_id c (run (between a) x) in
      if ok then (delivered a, [Text cfg], x) else (false, [Close], x)
  | (_, x) => (false, [], x)
  end.

Definition sql_send_config (device_id : string) (c : WatchCredential) (a : Attempt) x : bool * list frame * SqlStore W :=
  let '(go, out, x) := sql_send_config_inner device_id c a x in
  if in_time a then (go, out, x) else (false, [], x).

Definition stop f : Feed := mkFeed (fd_device f) (fd_credential f) (fd_last_received f) false.
Definition touch now f : Feed := mkFeed (fd_device f) (fd_credential f) now (fd_open f).

Definition send f (a : Attempt) x : Feed * list frame * SqlStore W :=
  let '(go, out, x) := sql_send_config (fd_device f) (fd_credential f) a x in
  (if go then f else stop f, out, x).

(** [sql_watch_loop_with_idle], one turn. *)
Definition feed_step (e : event) (s : Feed * SqlStore W) : Feed * list frame * SqlStore W :=
  let '(f, x) := s in
  match e with
  | Others l => (f, [], run l x)
  | _ =>
      if negb (fd_open f) then (f, [], x)
      else match e with
      | Incoming closing now => (if closing then stop f else touch now f, [], x)
      | Changed alive a => if negb alive then (stop f, [], x) else send f a x
      | Heartbeat now a ping =>
          if IDLE <=? now - fd_last_received f then (stop f, [], x)
          else
            let '(f, out, x) := send f a x in
            if fd_open f then (if ping then f else stop f, out ++ [Ping], x) else (f, out, x)
      | Others _ => (f, [], x)
      end
  end.

Fixpoint feed_run (l : list event) (s : Feed * SqlStore W) : list frame * (Feed * SqlStore W) :=
  match l with
  | [] => ([], s)
  | e :: l =>
      let '(f, out, x) := feed_step e s in
      let '(out', s) := feed_run l (f, x) in
      (out ++ out', s)
  end.

(** The loop sends a configuration before its first turn. *)
Definition sql_watch_loop (a : Attempt) (l : list event) (s : Feed * SqlStore W) : list frame * (Feed * SqlStore W) :=
  let '(f, out, x) := send s.1 a s.2 in
  let '(out', s) := feed_run l (f, x) in
  (out ++ out', s).

(** ** Lemmas *)

Context `{!KeyCodecLaws}.

Definition credential_valid f (d : Db) : Prop :=
  if is_master (fd_credential f) then is_master_bearer (bearer (fd_credential f)) = true
  else get_device_token (fd_device f) d = Some (bearer (fd_credential f)).

(** The configuration the attempt [a] reads in [x] for the feed's device, with the credential
    valid in the store the requests in between leave. *)
Definition vouched f (cfg : DeviceConfig) (a : Attempt) x : Prop :=
  ∃ x', device_config (fd_device f) x = (Ok cfg, x') ∧ credential_valid f (db (run (between a) x')).

(** The attempt a turn makes. *)
Definition attempt_of (e : event) : option Attempt :=
  match e with Changed _ a | Heartbeat _ a _ => Some a | _ => None end.

(** The attempts of the turns [l] of a feed, each with the store it begins in. *)
Definition turn (l : list event) f x (a : Attempt) x1 : Prop :=
  ∃ l1 e l2 o1 f1, l = l1 ++ e :: l2 ∧ attempt_of e = Some a ∧ feed_run l1 (f, x) = (o1, (f1, x1)).

(** The device is revoked. *)
Definition gone f (d : Db) : Prop := ∃ r, t_device d !! fd_device f = Some r ∧ revoked r.

Definition same_feed f f' : Prop := fd_device f' = fd_device f ∧ fd_credential f' = fd_credential f.

Lemma still_authorized_spec f x ok x' : still_authorized (fd_device f) (fd_credential f) x = (ok, x') →
  db x' = db x ∧ (ok = true → credential_valid f (db x)).
Proof.
  unfold still_authorized, credential_valid. destruct (is_master _); [by intros [= <- <-]|].
  unfold device_token, query. destruct (answer _); [|by intros [= <- <-]..].
  destruct (get_device_token _ (db x)) as [t|]; intros [= <- <-]; [|done]. split; [done|]. by intros ->%constant_eq_spec.
Qed.

Lemma gone_config f x c x' : db_ok (db x) → gone f (db x) → device_config (fd_device f) x ≠ (Ok c, x').
Proof.
  intros Hok (r & Hr & Hs & _) (_ & _ & (q & Hq & Hqa & _) & _)%device_config_view; [|done].
  rewrite Hr in Hq. injection Hq as <-. unfold is_active in Hqa. by rewrite Hs in Hqa.
Qed.

Lemma send_spec f a x f' out x' : db_ok (db x) → send f a x = (f', out, x') →
  sound (db x) (db x') ∧ same_feed f f' ∧ (∀ cfg, Text cfg ∈ out → vouched f cfg a x) ∧
  (gone f (db x) → (∀ cfg, Text cfg ∉ out) ∧ fd_open f' = false).
Proof.
  intros Hok. unfold send, sql_send_config, sql_send_config_inner. destruct (device_config _ x) as [r x1] eqn:Hc.
  pose proof (reads_device_config _ _ _ _ Hc) as [Hd _].
  destruct r as [cfg|e|]; [|destruct (in_time a); intros [= <- <- <-]; rewrite Hd; (split; [done|split; [done|split; set_solver]])..].
  assert (sound (db x1) (db (run (between a) x1))) as Hr by (apply run_sound; by rewrite Hd).
  destruct (still_authorized _ _ _) as [ok x2] eqn:Ha. apply still_authorized_spec in Ha as [Hd2 Hok2].
  assert (sound (db x) (db x2)) as Hs by (by rewrite Hd2, <-Hd).
  assert (¬ gone f (db x)) as Hg by (intros Hg; by destruct (gone_config f x cfg x1 Hok Hg)).
  destruct ok, (in_time a); intros [= <- <- <-]; (split; [done|split; [by destruct (delivered a)|split; [|by intros []%Hg]]]); try set_solver.
  intros cfg' Hcfg. assert (cfg' = cfg) as -> by set_solver. exists x1. split; [done|auto].
Qed.

Lemma gone_sound f d d' : sound d d' → gone f d → gone f d'.
Proof. intros (_ & _ & Hrows) (r & Hr & Hrv). destruct (Hrows _ _ Hr) as (r' & Hr' & Hk). exists r'. eauto using revoked_kept. Qed.

Lemma vouched_same f f' cfg a x : same_feed f f' → vouched f' cfg a x → vouched f cfg a x.
Proof.
  destruct f, f'. unfold same_feed. cbn. intros [-> ->]. unfold vouched, credential_valid. cbn. done.
Qed.

(** A turn that has to send. *)
Definition checks (e : event) : bool := match e with Changed _ _ | Heartbeat _ _ _ => true | _ => false end.

(** A turn without frames. *)
Ltac silent := split; [done|split; [done|split; [try done|split; [set_solver|intros _; split; [set_solver|try done]]]]].

Lemma feed_step_spec e f x f' out x' : db_ok (db x) → feed_step e (f, x) = (f', out, x') →
  sound (db x) (db x') ∧ same_feed f f' ∧ (fd_open f = false → fd_open f' = false) ∧ 
  (∀ cfg, Text cfg ∈ out → ∃ a, attempt_of e = Some a ∧ vouched f cfg a x) ∧
  (gone f (db x) → (∀ cfg, Text cfg ∉ out) ∧ (checks e = true → fd_open f' = false)).
Proof.
  intros Hok. destruct e as [l|closing now|alive a|now a ping]; cbn [feed_step checks].
  { intros [= <- <- <-]. pose proof (run_sound l x Hok). silent. }
  all: destruct (fd_open f) eqn:Ho; cbn [negb]; [|intros [= <- <- <-]; silent].
  - intros [= <- <- <-]. destruct closing; silent.
  - destruct alive; cbn [negb]; [|intros [= <- <- <-]; silent].
    intros (Hs & Hf & Hv & Hg)%send_spec; [|done]. split; [done|]. split; [done|]. split; [done|].
    split; [intros cfg Hcfg; exists a; auto|]. naive_solver.
  - destruct (_ <=? _); [intros [= <- <- <-]; silent|].
    destruct (send f a x) as [[f1 out1] x1] eqn:Hsd. apply send_spec in Hsd as (Hs & Hf & Hv & Hg); [|done].
    destruct (fd_open f1) eqn:Ho1; intros [= <- <- <-]; (split; [done|]); (split; [by destruct ping|]); (split; [done|]).
    + split; [|by intros [? ?]%Hg]. intros cfg [Hcfg|?]%elem_of_app; [exists a; auto|set_solver].
    + split; [intros cfg Hcfg; exists a; auto|]. naive_solver.
Qed.

Lemma feed_run_spec l f x out f' x' : db_ok (db x) → feed_run l (f, x) = (out, (f', x')) →
  sound (db x) (db x') ∧ same_feed f f' ∧ (fd_open f = false → fd_open f' = false) ∧ 
  (∀ cfg, Text cfg ∈ out → ∃ a x1, turn l f x a x1 ∧ vouched f cfg a x1) ∧
  (gone f (db x) → (∀ cfg, Text cfg ∉ out) ∧ (existsb checks l = true → fd_open f' = false)).
Proof.
  revert f x out. induction l as [|e l IH]; intros f x out Hok; cbn [feed_run].
  { intros [= <- <- <-]. silent. }
  destruct (feed_step e (f, x)) as [[f1 o1] x1] eqn:He. destruct (feed_run l (f1, x1)) as [o2 [f2 x2]] eqn:Hl. intros [= <- <- <-].
  pose proof He as He'. apply feed_step_spec in He as (Hs & Hf & Hop & Hv & Hg); [|done].
  apply IH in Hl as (Hs' & Hf' & Hop' & Hv' & Hg'); [|by apply Hs].
  split; [by etrans|]. split; [unfold same_feed in *; naive_solver congruence|]. split; [auto|]. split.
  - intros cfg [Hc|Hc]%elem_of_app.
    + destruct (Hv cfg Hc) as (a & Ha & Hva). exists a, x. split; [|done]. by exists [], e, l, [], f.
    + destruct (Hv' cfg Hc) as (a & x3 & (l1 & e1 & l2 & o3 & f3 & -> & Ha & Hr) & Hva). exists a, x3.
      split; [|by eapply vouched_same]. exists (e :: l1), e1, l2, (o1 ++ o3), f3. cbn [feed_run]. by rewrite He', Hr.
  - intros Hgo. destruct (Hg Hgo) as [Hn Hck]. destruct Hg' as [Hn' Hck'].
    { destruct Hf as [Hdev _]. unfold gone. rewrite Hdev. by eapply gone_sound. }
    split; [intros cfg [?|?]%elem_of_app; [by eapply Hn|by eapply Hn']|]. cbn [existsb]. intros [Hc|Hc]%orb_true_iff; auto.
Qed.
End Feed.
