(* ===== verification/ApiProps.v ===== *)
(** * What the control plane's HTTP interface guarantees

    Authorization of every route, what a device may change, integrity over any sequence of
    requests, the log, proof of possession, accounts, and the configuration feed. *)

From Stdlib Require Import Strings.Ascii Strings.String.
From S2P Require Import Prelude.
From S2P Require Import Words.
From S2P Require Import Crypto.
From S2P Require Import NetText.
From S2P Require Import Prefix.
From S2P Require Import Domain.
From S2P Require Import NodeConfig.
From S2P Require Import SqlDb.
From S2P Require Import SqlControl.
From S2P Require Import SqlInv.
From S2P Require Import SqlProps.
From S2P Require Import SqlFrame.
From S2P Require Import Pop.
From S2P Require Import AdminAuth.
From S2P Require Import ControlApi.
From S2P Require Import ApiInv.
From S2P Require Import ApiState.
From S2P Require Import WatchFeed.

Section Props.
Context {W : Type} `{!EpochWatch W} `{!Database} `{!KeyCodec} `{!KeyCodecLaws} `{!JsonText} `{!Crypto} `{!ApiHost}.
Implicit Types s : Server W.

(** A request with its [Authorization] header and its method and path. *)
Definition call : Type := option string * string * http.
Definition step (c : call) s : res Status Reply * Server W := serve c.1.1 c.1.2 c.2 s.
Definition serve_all (l : list call) s : Server W := foldl (fun s c => (step c s).2) s l.

(** ** Authorization *)

(** C14.  No route does anything for a request without the credential it asks for: the database
    is untouched, no session is opened, and the answer is an error status without a body.
    The credential is the master key or a session whose account still has the password it was
    opened with, before its expiry, for the management routes; the token of the device, or
    one of those, for the routes of a device; the device's own token for its route
    advertisements; a token of the network, or one of those, for resolving a name; the
    password for a login; and the proof of possession of the key for enrolment. *)
Theorem api_authorization a action q s r s' :
  ¬ authorized a q s → serve a action q s = (r, s') →
  db_of s' = db_of s ∧ sv_sessions s' ⊆ sv_sessions s ∧
  ∀ rep, r = Ok rep → is_success (re_status rep) = false ∧ re_body rep = BNone.
Proof.
  intros Hn Hs. edestruct (respond_refused (fun s => ¬ authorized a q s)) as [[Hd Hss] Hrep]; [..|exact Hn|exact Hs|by split_and!].
  - destruct q; [apply fails_open|apply fails_device|apply fails_require_admin].
  - destruct q; [apply open_refused|apply device_refused|apply admin_refused].
Qed.

(** C17.  A request on the routes of a device, with whatever credential and whatever statements
    fail, changes nothing but that device's endpoints, its statistics, its routes that no
    administrator has approved and the epoch of a network: other devices' rows, keys,
    addresses and tokens, approved routes, invites, relays, accounts and the log stay as they
    were. *)
Theorem device_requests_confined a action id q s r s' :
  serve a action (OfDevice id q) s = (r, s') → confined id (db_of s) (db_of s').
Proof. intros Hs. eapply (within_respond (confined_server id)); [apply device_confined|exact Hs]. Qed.

(** ** Integrity *)

Lemma serve_all_stepped l s : db_ok (db_of s) → stepped s (serve_all l s).
Proof.
  revert s. induction l as [|c l IH]; intros s Hok; [done|]. change (serve_all (c :: l) s) with (serve_all l (step c s).2).
  destruct (steps_serve c.1.1 c.1.2 c.2 s _ _ Hok (surjective_pairing _)) as [Hs _]. etrans; [exact Hs|]. by apply IH, Hs.
Qed.

(** C15.  Over any sequence of requests to the interface, whoever sends them and whatever
    statements fail: the database stays intact, no device row is lost and a revoked one stays
    revoked, no handler panics, and there is always an administrator left. *)
Theorem api_integrity l c s :
  db_ok (db_of s) → t_admin (db_of s) ≠ ∅ →
  db_ok (db_of (serve_all l s)) ∧ rows_kept (db_of s) (db_of (serve_all l s)) ∧
  (step c (serve_all l s)).1 ≠ Panic ∧ t_admin (db_of (serve_all l s)) ≠ ∅.
Proof.
  intros Hok Hadm. destruct (serve_all_stepped l s Hok) as [(Hok' & _ & Hrows) Hst]. split_and!; [auto|done| |auto].
  destruct (steps_serve c.1.1 c.1.2 c.2 (serve_all l s) _ _ (Hok' Hok) (surjective_pairing _)) as [_ Hp]. exact Hp.
Qed.

(** ** Proof of possession *)

(** How often requests of a kind succeed. *)
Fixpoint tally (w : http → res Status Reply → nat) (l : list call) s : nat :=
  match l with
  | [] => 0
  | c :: l => w c.2 (step c s).1 + tally w l (step c s).2
  end.

(** C18.  A proof of possession is good for one enrolment: over any sequence of requests,
    whoever sends them, no more devices are enrolled than challenges were handed out or
    outstanding at the start, so that an answer cannot be replayed; and the table of
    outstanding challenges never holds more than its 4096. *)
Theorem challenges_used_once l s :
  (tally enrolled l s ≤ pending_size s + tally challenged l s)%nat ∧
  (Z.of_nat (pending_size s) ≤ MAX_PENDING → Z.of_nat (pending_size (serve_all l s)) ≤ MAX_PENDING).
Proof.
  revert s. induction l as [|c l IH]; intros s; [cbn; split; [lia|done]|].
  change (serve_all (c :: l) s) with (serve_all l (step c s).2). cbn [tally].
  destruct (serve_pending c.1.1 c.1.2 c.2 s _ _ (surjective_pairing _)) as [Hc Hb]. destruct (IH (step c s).2) as [Hl Hbl].
  split; [unfold step in *; lia|auto].
Qed.

(** C19.  A client that holds the private key can always enrol: with the challenge it was handed
    and the secret it computes from the server's key, its request passes the proof as long as
    the challenge is outstanding and not expired, whatever happened in between, and the answer
    is then what the store says to the invite. *)
Theorem honest_client_enrols `{!CryptoLaws} secret key a action s c s1 s2 a' action' code name :
  key_decode key = Some (dh_public secret) →
  serve a action (Open (EnrollChallenge key)) s = (Ok (mkReply OK (BChallenge c)), s1) →
  sv_pending s2 !! challenge_id c = sv_pending s1 !! challenge_id c →
  (∀ e, sv_pending s2 !! challenge_id c = Some e → mono (ticks (sv_store s2)) < expires e) →
  ∃ server s3 now, hex_decode (server_pub c) = Some server ∧ db_of s3 = db_of s2 ∧
    serve a' action' (Open (EnrollDevice code name key (Some (challenge_id c)) (Some (hex_encode (dh secret server))))) s2 =
    respond (reply CREATED (fun x => BEnrolled x.1 x.2) (enroll code name key now)) s3.
Proof.
  intros Hk Hc Hsame Hexp. apply serve_challenge_Ok in Hc as (seed & claimed & exp & Hk' & Hsp & Hw & Hp).
  rewrite Hk in Hk'. injection Hk' as <-. rewrite <-Hsame in Hp. exists (dh_public seed). rewrite Hsp.
  destruct (sql_enroll_proved code name key (challenge_id c) (hex_encode (dh secret (dh_public seed))) s2) as (s3 & now & Hd & He).
  { eapply honest_answer; [done..|]. apply (Hexp _ Hp). }
  exists s3, now. split; [apply hex_roundtrip|]. split; [done|]. unfold serve, respond. unfold_handlers. by rewrite He.
Qed.

(** ** Accounts *)

(** A changed password takes effect at once: when the request succeeds, it came with a live
    session of the account and the account's old password; the stored hash is one of the new
    password, no other account changes, and no session of the account is left, so that no
    token handed out before is an authority. *)
Lemma password_change_effective `{!ApiHostLaws} a old new s s' :
  admin_change_password a old new s = (Ok NO_CONTENT, s') →
  ∃ b user hash h, bearer_token a = Some b ∧ live_session b s ∧ se_username <$> sv_sessions s !! b = Some user ∧
    admin_hash user (db_of s) = Some hash ∧ verify_password old hash = true ∧
    admin_hash user (db_of s') = Some h ∧ verify_password new h = true ∧
    (∀ other, other ≠ user → admin_hash other (db_of s') = admin_hash other (db_of s)) ∧
    ∀ t se, sv_sessions s !! t = Some se → se_username se = user → is_master_bearer t = false → ¬ admin_authority t s'.
Proof.
  intros (b & se & user & hash & k & s1 & Hb & Hse & Hu & Hl & Hh & Hv & (_ & Hss & _) & Hd & Hs')%change_password_Ok.
  exists b, user, hash, (hash_password k new). unfold admin_hash in *. rewrite Hd, Hse. cbn -[live_session]. split_and!; try done.
  - by rewrite Hu.
  - rewrite lookup_alter_eq. by destruct (t_admin (db_of s) !! user).
  - apply verify_hash.
  - intros other Ho. by rewrite lookup_alter_ne.
  - intros t se' Ht Hn Hm [Hma|(se1 & j & Ht1 & _)]; [congruence|]. rewrite Hs' in Ht1.
    apply map_lookup_filter_Some in Ht1 as [Ht1 Hne]. pose proof (lookup_weaken _ _ _ _ Ht1 Hss). cbn in Hne. congruence.
Qed.

(** ** The log *)

Lemma record_audit_fine ts actor action s r s' : (∀ k, answer k = Fine) → record_audit ts actor action s = (r, s') →
  r = Ok tt ∧ t_audit (db_of s') = t_audit (db_of s) ++ [mkAudit ts actor action].
Proof. intros Hf. unfold record_audit, mbind, st_bind, try_store, run_, execute. rewrite Hf. by intros [= <- <-]. Qed.

(** Who a request is logged for. *)
Definition actor_of (a : option string) s (actor : string) : Prop :=
  actor = "(master)"%string ∨ ∃ b se, bearer_token a = Some b ∧ sv_sessions s !! b = Some se ∧ actor = se_username se.

Definition logged (a : option string) (action : string) s s' (entry : bool) : Prop :=
  ∃ ts actor, actor_of a s actor ∧ t_audit (db_of s') = t_audit (db_of s) ++ if entry then [mkAudit ts actor action] else [].

Lemma unlogged a action s s' : t_audit (db_of s') = t_audit (db_of s) → logged a action s s' false.
Proof. intros Ha. exists 0, "(master)"%string. split; [by left|by rewrite app_nil_r]. Qed.

Lemma acting_user_actor a s u s1 s0 : calm s0 s → acting_user a s = (Ok u, s1) → actor_of a s0 (default "(master)"%string u).
Proof.
  intros (_ & Hs & _) Ha. destruct u as [u|]; [|by left]. apply acting_user_Some in Ha as (b & se & Hb & Hse & <- & _). right.
  exists b, se. split_and!; [done|by eapply lookup_weaken|done].
Qed.

Lemma require_admin_logged a m action k s r s' : (∀ i, answer i = Fine) → handles k → db_ok (db_of s) →
  require_admin a m action k s = (r, s') →
  logged a action s s' (match r with Ok rep => m && is_success (re_status rep) | _ => false end).
Proof.
  intros Hf Hk Hok. unfold require_admin, mbind, st_bind at 1. destruct (bearer_token a) as [b|] eqn:Hb; [|intros [= <- <-]; by apply unlogged].
  cbn [lift ok_or]. unfold st_bind at 1. destruct (valid_bearer b s) as [v s1] eqn:Hv. pose proof (calm_valid_bearer _ _ _ _ Hv) as Hc1.
  pose proof Hc1 as [Hd1 _]. destruct v as [[]|e|]; cbn [negb]; [|intros [= <- <-]; apply unlogged; by rewrite Hd1..].
  unfold st_bind at 1. destruct (acting_user a s1) as [u s2] eqn:Hu. pose proof (calm_acting_user _ _ _ _ Hu) as Hc2.
  assert (db_of s2 = db_of s) as Hd2 by (destruct Hc2 as [-> _]; done).
  destruct u as [u|e|]; [|intros [= <- <-]; apply unlogged; by rewrite Hd2..]. pose proof (acting_user_actor _ _ _ _ _ Hc1 Hu) as Hact.
  unfold st_bind at 1. destruct (respond k s2) as [x s3] eqn:Hx. destruct (handles_respond k Hk s2 x s3) as [Hh _]; [by rewrite Hd2|done|].
  assert (t_audit (db_of s3) = t_audit (db_of s)) as Ha3 by (rewrite (hd_audit _ _ Hh); by rewrite Hd2).
  destruct x as [rep|e|]; [|intros [= <- <-]; by apply unlogged..]. unfold st_bind.
  destruct (m && is_success (re_status rep)) eqn:Hm; [|intros [= <- <-]; rewrite Hm; by apply unlogged].
  cbn [reading]. destruct (record_audit _ _ _ _) as [y s4] eqn:Hy. apply record_audit_fine in Hy as [-> Hy]; [|done].
  intros [= <- <-]. rewrite Hm. eexists _, _. split; [exact Hact|]. etrans; [exact Hy|]. f_equal. exact Ha3.
Qed.

(** Management is logged: while the database answers, a request to a management route that
    changes something and succeeds adds exactly one entry with its method and path, for the
    account of the session it came with or for the master key, and every other request to
    those routes adds none. *)
Lemma management_logged a action q s r s' :
  (∀ i, answer i = Fine) → db_ok (db_of s) → serve a action (Admin q) s = (r, s') →
  logged a action s s' (match r with Ok rep => mutating q && is_success (re_status rep) | _ => false end).
Proof.
  intros Hf Hok. unfold serve, respond. destruct (require_admin _ _ _ _ s) as [x s1] eqn:Hx.
  pose proof (require_admin_logged _ _ _ _ _ _ _ Hf (handles_admin a q) Hok Hx) as Hl.
  destruct x as [rep|e|]; intros [= <- <-]; [done| |done]. cbn [re_status].
  by rewrite (fails_require_admin _ _ _ _ _ _ _ Hx), andb_false_r.
Qed.

(** ** The feed *)

(** C16.  The configuration feed serves only its device.  Every configuration it sends is the one
    [device_config] gives for its device in the store in which the opening attempt or a turn
    of the feed's run begins, and the credential the feed was opened with is valid in the
    store in which that very attempt checks it, after whatever requests ran since the
    reading.  Once the device is revoked, at whatever moment between two turns, nothing is
    sent any more, and the feed closes at its next change or heartbeat. *)
Theorem watch_feed_safe a l f (x : SqlStore W) out f' x' :
  db_ok (db x) → sql_watch_loop a l (f, x) = (out, (f', x')) →
  (∀ cfg, Text cfg ∈ out →
    vouched (W:=W) f cfg a x ∨
    ∃ f1 o1 x1 a2 x2, send f a x = (f1, o1, x1) ∧ turn l f1 x1 a2 x2 ∧ vouched (W:=W) f cfg a2 x2) ∧
  (gone f (db x') → ∀ l2 out2 f2 x2, feed_run l2 (f', x') = (out2, (f2, x2)) →
    (∀ cfg, Text cfg ∉ out2) ∧ (existsb checks l2 = true → fd_open f2 = false)).
Proof.
  intros Hok. unfold sql_watch_loop. cbn [fst snd]. destruct (send f a x) as [[f1 o1] x1] eqn:Hs.
  destruct (feed_run l (f1, x1)) as [o2 [f2 x2]] eqn:Hl. intros [= <- <- <-].
  apply send_spec in Hs as (Hs & Hf & Hv & _); [|done]. apply feed_run_spec in Hl as (Hs' & Hf' & _ & Hv' & _); [|by apply Hs].
  split.
  - intros cfg [Hc|Hc]%elem_of_app; [auto|]. right. destruct (Hv' cfg Hc) as (a2 & x3 & Ht & Hva).
    exists f1, o1, x1, a2, x3. split; [done|]. split; [done|]. by eapply vouched_same.
  - intros Hgo l2 out2 f3 x3 (_ & _ & _ & _ & Hg)%feed_run_spec; [|by apply Hs', Hs]. apply Hg.
    unfold gone. destruct Hf as [Hdev _], Hf' as [Hdev' _]. by rewrite Hdev', Hdev.
Qed.

(** ** The last administrator *)

(** The request carries a session of the user, with the account's password, that has not
    expired at the first [n] readings. *)
Definition acts (n : nat) (a : option string) (u : string) s : Prop :=
  ∃ b se, bearer_token a = Some b ∧ sv_sessions s !! b = Some se ∧ se_username se = u ∧
    admin_hash u (db_of s) = Some (se_hash se) ∧ ∀ k, (k < n)%nat → mono k < se_expiry se.

Lemma check_passes n a u v s : (∀ k, answer k = Fine) → acts n a u s → (ticks (sv_store s) + 3 ≤ n)%nat → u ≠ v →
  1 < count_admins (db_of s) →
  ∃ s', delete_admin_check a v s = (Ok None, s') ∧ db_of s' = db_of s ∧ sv_sessions s' = sv_sessions s ∧
    ticks (sv_store s') = (ticks (sv_store s) + 3)%nat.
Proof.
  intros Hf (b & se & Hb & Hse & Hu & Hh & Hexp) Hk Hne Hn.
  unfold delete_admin_check, acting_user, session_user, mbind, st_bind, get. rewrite Hb, Hse.
  unfold with_store, store_admin_hash, store_count_admins, query. rewrite Hf, Hu. unfold db_of in Hh. rewrite Hh.
  unfold reading. rewrite (proj2 (Z.ltb_lt _ _)) by (apply Hexp; cbn; lia). rewrite bool_decide_eq_true_2 by done. cbn.
  rewrite bool_decide_eq_false_2 by congruence. rewrite Hf. cbn. unfold db_of in Hn.
  rewrite (proj2 (Z.leb_gt _ _)) by done. eexists. split; [reflexivity|]. cbn. split_and!; [done..|lia].
Qed.

Lemma commit_deletes v s : (∀ k, answer k = Fine) →
  ∃ s', delete_admin_commit v s = (Ok NO_CONTENT, s') ∧ t_admin (db_of s') = delete v (t_admin (db_of s)).
Proof.
  intros Hf. unfold delete_admin_commit, with_store, store_delete_admin, run_, execute, mbind, st_bind. rewrite Hf.
  eexists. split; [reflexivity|done].
Qed.

(** C40.  The last administrator can be lost.  The two steps of deleting an account, its check
    and its deletion, are separate.  In any state of a server with exactly two accounts, when
    each of the two administrators, with a valid session, deletes the other's account at the
    same time and the database answers, both checks pass, both deletions succeed, and no
    account is left. *)
Theorem last_admin_race a1 a2 u1 u2 s :
  u1 ≠ u2 → dom (t_admin (db_of s)) = {[u1; u2]} → (∀ k, answer k = Fine) →
  acts (ticks (sv_store s) + 6) a1 u1 s → acts (ticks (sv_store s) + 6) a2 u2 s →
  ∃ s1 s2 s3 s4, delete_admin_check a1 u2 s = (Ok None, s1) ∧ delete_admin_check a2 u1 s1 = (Ok None, s2) ∧
    delete_admin_commit u2 s2 = (Ok NO_CONTENT, s3) ∧ delete_admin_commit u1 s3 = (Ok NO_CONTENT, s4) ∧
    t_admin (db_of s4) = ∅.
Proof.
  intros Hne Hdom Hf Ha1 Ha2.
  assert (1 < count_admins (db_of s)) as Hn.
  { unfold count_admins. rewrite <-size_dom, Hdom, size_union, !size_singleton by set_solver. done. }
  destruct (check_passes _ a1 u1 u2 s Hf Ha1) as (s1 & Hc1 & Hd1 & Hs1 & Hk1); [lia|done..|].
  destruct (check_passes (ticks (sv_store s) + 6) a2 u2 u1 s1 Hf) as (s2 & Hc2 & Hd2 & _ & _); [|lia|done|by rewrite Hd1|].
  { unfold acts in *. by rewrite Hd1, Hs1. }
  destruct (commit_deletes u2 s2 Hf) as (s3 & Hm3 & Ht3). destruct (commit_deletes u1 s3 Hf) as (s4 & Hm4 & Ht4).
  exists s1, s2, s3, s4. split_and!; [done..|]. apply dom_empty_iff_L. rewrite Ht4, Ht3, Hd2, Hd1, !dom_delete_L, Hdom. set_solver.
Qed.
End Props.

(** ** Concrete instances *)

Section Examples.
#[local] Existing Instances hex_codec hex_codec_laws z_watch no_json fine_db.

(** A clock that counts readings, and a hash that keeps its salt and the password. *)
#[local] Instance plain_host : ApiHost := {
  env_password := Some "master-key"%string;
  mono k := Z.of_nat k;
  unix_now k := Z.of_nat k;
  unix_millis k := Z.of_nat k;
  hash_password k p := text (replicate k "x"%char ++ "$"%char :: chars p);
  verify_password p h :=
    match split_once "$" (chars h) with Some (_, q) => bool_decide (p = text q) | None => false end;
  random_32 k := replicate 32 x01
}.

#[local] Instance plain_host_laws : ApiHostLaws.
Proof.
  split; [cbn; lia|]. intros k p. unfold verify_password, hash_password, plain_host, chars, text.
  rewrite list_ascii_of_string_of_list_ascii, split_once_app by (apply Forall_replicate; done).
  by rewrite string_of_list_ascii_of_string, bool_decide_eq_true_2.
Qed.

(** Two devices, and the accounts of two administrators with a session each. *)
Definition admins : Db :=
  with_admin {["alice"%string := ("$pass"%string, 0); "bob"%string := ("x$word"%string, 0)]} (db two_devices).
Definition api_store : SqlStore Z := Eval vm_compute in mkSql Z admins (net_index two_devices) (epoch_tx two_devices) (ticks two_devices).
Definition api_start : Server Z := mkServer Z api_store
  {["s1"%string := mkSession "alice" (10 ^ 15) "$pass"; "s2"%string := mkSession "bob" (10 ^ 15) "x$word"]} ∅.

Lemma api_start_ok : db_ok (db_of api_start).
Proof. assert (db_of api_start = admins) as -> by (vm_compute; reflexivity). apply (admin_sound (db two_devices)), two_devices_ok. Qed.

Definition as_alice : option string := Some "Bearer s1"%string.
Definition as_bob : option string := Some "Bearer s2"%string.

Lemma api_authorization_witness :
  db_of (serve (Some "Bearer s3"%string) "DELETE /devices/dev-2" (Admin (DeleteDevice "dev-2")) api_start).2 = db_of api_start.
Proof.
  eapply (api_authorization (Some "Bearer s3"%string) "DELETE /devices/dev-2" (Admin (DeleteDevice "dev-2")) api_start);
    [|apply surjective_pairing].
  intros (b & [= <-] & [Hm|(se & k & Hs & _)]); [vm_compute in Hm; discriminate Hm|vm_compute in Hs; discriminate Hs].
Defined.

Lemma device_requests_confined_witness :
  let s' := (serve (Some "Bearer master-key"%string) "POST" (OfDevice "dev-2" (PostEndpoints ["192.0.2.1:1"%string])) api_start).2 in
  get_device_endpoints "dev-2" (db_of s') = ["192.0.2.1:1"%string] ∧ confined "dev-2" (db_of api_start) (db_of s').
Proof.
  split; [vm_compute; reflexivity|].
  eapply (device_requests_confined (Some "Bearer master-key"%string) "POST"); apply surjective_pairing.
Defined.

(** Alice renames a device, then a stranger tries to delete the other one. *)
Definition calls : list call :=
  [(as_alice, "PATCH"%string, Admin (PatchDevice "dev-2" "c")); (None, "DELETE"%string, Admin (DeleteDevice "dev-3"))].

Lemma api_integrity_witness :
  option_map w_name (t_device (db_of (serve_all calls api_start)) !! "dev-2"%string) = Some "c"%string ∧
  db_ok (db_of (serve_all calls api_start)) ∧ t_admin (db_of (serve_all calls api_start)) ≠ ∅.
Proof.
  split; [vm_compute; reflexivity|].
  destruct (api_integrity calls (as_bob, "DELETE"%string, Admin (DeleteAdminReq "alice")) api_start api_start_ok) as (Hok & _ & _ & Ha); [done|].
  split; [exact Hok|exact Ha].
Defined.

Definition secret_1 : list byte := replicate 32 x02.
Definition key_1 : string := hex_encode (dh_public secret_1).
Definition challenge_1 : Server Z := (serve None "POST" (Open (EnrollChallenge key_1)) api_start).2.
Definition handed : Challenge :=
  match (serve None "POST" (Open (EnrollChallenge key_1)) api_start).1 with Ok (mkReply _ (BChallenge c)) => c | _ => mkChallenge "" "" end.
Definition answer_1 : http :=
  Open (EnrollDevice "8" "n" key_1 (Some (challenge_id handed)) (Some (hex_encode (dh secret_1 (replicate 32 x01))))).

Lemma honest_client_enrols_witness : ∃ server s3 now, hex_decode (server_pub handed) = Some server ∧ db_of s3 = db_of challenge_1 ∧
  serve None "POST" (Open (EnrollDevice "8" "n" key_1 (Some (challenge_id handed)) (Some (hex_encode (dh secret_1 server))))) challenge_1 =
  respond (reply CREATED (fun x => BEnrolled x.1 x.2) (enroll "8" "n" key_1 now)) s3.
Proof.
  eapply (honest_client_enrols secret_1 key_1 None "POST" api_start handed challenge_1).
  - vm_compute. reflexivity.
  - etransitivity; [apply surjective_pairing|]. f_equal.
  - reflexivity.
  - intros e He. vm_compute in He. injection He as <-. vm_compute. reflexivity.
Defined.

(** The answer enrols once; sent again, it is refused. *)
Lemma challenges_used_once_witness :
  tally enrolled [(None, "POST"%string, Open (EnrollChallenge key_1)); (None, "POST"%string, answer_1); (None, "POST"%string, answer_1)] api_start = 1%nat ∧
  (tally enrolled [(None, "POST"%string, answer_1); (None, "POST"%string, answer_1)] challenge_1 ≤ 1)%nat.
Proof.
  split; [vm_compute; reflexivity|].
  pose proof (proj1 (challenges_used_once [(None, "POST"%string, answer_1); (None, "POST"%string, answer_1)] challenge_1)) as Ht.
  etransitivity; [exact Ht|]. vm_compute. reflexivity.
Defined.

(** A feed of the first device: one heartbeat, then the device is revoked. *)
Definition feed_1 : Feed := mkFeed "dev-2" (mkCredential (default ""%string (get_device_token "dev-2" (db api_store))) false) 0 true.
Definition now_1 : Attempt := mkAttempt [] true true.
Definition feed_events : list event := [Heartbeat 1 now_1 true; Others [RevokeDevice "dev-2"]].

Definition watched : list frame * (Feed * SqlStore Z) := sql_watch_loop now_1 feed_events (feed_1, api_store).

Lemma watch_feed_safe_witness :
  length watched.1 = 3%nat ∧ fd_open watched.2.1 = true ∧ ∀ cfg, Text cfg ∉ (feed_run [Changed true now_1] watched.2).1.
Proof.
  split; [vm_compute; reflexivity|]. split; [vm_compute; reflexivity|]. intros cfg.
  destruct watched as [out [f' x']] eqn:E. destruct (feed_run [Changed true now_1] (f', x')) as [out2 [f2 x2]] eqn:E2.
  pose proof (proj2 (watch_feed_safe now_1 feed_events feed_1 api_store out f' x' api_start_ok E)) as Hg.
  assert (gone feed_1 (db x')) as Hgone.
  { vm_compute in E. injection E as _ _ <-. eexists. split; [reflexivity|]. repeat split. }
  cbn [snd]. rewrite E2. apply (proj1 (Hg Hgone _ _ _ _ E2)).
Defined.

(** Alice and Bob, whose sessions last. *)
Lemma last_admin_race_witness :
  ∃ s1 s2 s3 s4, delete_admin_check as_alice "bob" api_start = (Ok None, s1) ∧ delete_admin_check as_bob "alice" s1 = (Ok None, s2) ∧
    delete_admin_commit "bob" s2 = (Ok NO_CONTENT, s3) ∧ delete_admin_commit "alice" s3 = (Ok NO_CONTENT, s4) ∧
    t_admin (db_of s4) = ∅.
Proof.
  apply (last_admin_race as_alice as_bob "alice" "bob" api_start).
  - discriminate.
  - vm_compute. reflexivity.
  - intros k. reflexivity.
  - exists "s1"%string, (mkSession "alice" (10 ^ 15) "$pass"). split_and!; try reflexivity.
    intros k Hk. vm_compute in Hk. cbn. lia.
  - exists "s2"%string, (mkSession "bob" (10 ^ 15) "x$word"). split_and!; try reflexivity.
    intros k Hk. vm_compute in Hk. cbn. lia.
Defined.
End Examples.
