(* ===== verification/HostRun.v ===== *)
(** * The host the node acts on (node/src/apply.rs)

    Commands go through [Runner::run] and files through the file system.  Both are a
    parameter: any command may answer anything, any write may fail, and one that fails may
    still have taken effect.  [HostLaws] says what the node relies on.  Which errors stand
    for something that is not there is decided by the text of the error, as in the code. *)

From Stdlib Require Import Strings.Ascii Strings.String.
From S2P Require Import Prelude.
From S2P Require Import Words.
From S2P Require Import NetText.
From S2P Require Import Prefix.
From S2P Require Import Apply.

(** ** Text *)

Fixpoint starts_with (p l : list ascii) : bool :=
  match p, l with
  | [], _ => true
  | x :: p, y :: l => Ascii.eqb x y && starts_with p l
  | _, [] => false
  end.

(** [str::contains]. *)
Fixpoint contains_chars (p l : list ascii) : bool :=
  starts_with p l || match l with [] => false | _ :: l => contains_chars p l end.
Definition str_contains (s p : string) : bool := contains_chars (chars p) (chars s).

(** [str::to_ascii_lowercase]. *)
Definition lower (c : ascii) : ascii :=
  let n := N_of_ascii c in if (65 <=? n)%N && (n <=? 90)%N then ascii_of_N (n + 32) else c.
Definition to_ascii_lowercase (s : string) : string := text (map lower (chars s)).

(** [str::split_whitespace]. *)
Fixpoint words_of (word l : list ascii) : list (list ascii) :=
  match l with
  | [] => match word with [] => [] | _ => [rev word] end
  | c :: l => if is_space c then match word with [] => words_of [] l | _ => rev word :: words_of [] l end else words_of (c :: word) l
  end.
Definition split_whitespace (s : string) : list string := text <$> words_of [] (chars s).

(** [str::lines]: a final empty piece is not a line, a carriage return before the end is dropped. *)
Definition newline : ascii := ascii_of_N 10.
Definition drop_cr (l : list ascii) : list ascii :=
  match rev l with c :: k => if Ascii.eqb c (ascii_of_N 13) then rev k else l | [] => l end.
Definition lines (s : string) : list string :=
  let pieces := split newline (chars s) in
  text ∘ drop_cr <$> match list.last pieces with Some [] => removelast pieces | _ => pieces end.

Definition str_starts_with (s p : string) : bool := starts_with (chars p) (chars s).
Definition strip_prefix (p s : string) : option string :=
  if str_starts_with s p then Some (text (drop (length (chars p)) (chars s))) else None.
Definition str_trim (s : string) : string := text (trim (chars s)).

(** ** Errors *)

Definition any_text (s : string) (l : list string) : bool := existsb (str_contains s) l.

(** [ApplyError::missing]. *)
Definition missing (e : ApplyError) : bool :=
  any_text (stderr e) ["No such process"; "No such file or directory"; "not in table"; "does not exist"; "Cannot find device"]%string.

Definition ipv6_unavailable (e : ApplyError) : bool :=
  let message := to_ascii_lowercase (stderr e) in
  if bool_decide (kind e = PermissionDenied) || any_text message ["permission denied"; "operation not permitted"]%string then false
  else bool_decide (kind e = NotFound) || bool_decide (kind e = Unsupported)
    || any_text (stderr e) ["Address family not supported"; "IPv6 is disabled"; "Operation not supported"; "Protocol not supported"]%string
    || missing e.

(** [permission_denied] (firewall.rs). *)
Definition permission_denied (e : ApplyError) : bool :=
  bool_decide (kind e = PermissionDenied)
  || any_text (to_ascii_lowercase (stderr e)) ["permission denied"; "operation not permitted"; "must be root"]%string.

(** ** Commands and files *)

(** [read_file] gives [None] for a file that is not there, [remove_file] does not mind. *)
Class HostOs (H : Type) := {
  exec : list string → option string → H → (string + ApplyError) * H;
  read_file : string → H → (option string + ApplyError) * H;
  read_dir : string → H → (list string + ApplyError) * H;
  save_file : string → string → H → option ApplyError * H;
  remove_file : string → H → option ApplyError * H
}.

Section Run.
Context {H : Type} `{!HostOs H}.

Definition of_sum {A} (f : H → (A + ApplyError) * H) : st H ApplyError A := fun h =>
  let '(r, h) := f h in (match r with inl a => Ok a | inr e => Err e end, h).
Definition of_option (f : H → option ApplyError * H) : st H ApplyError unit := fun h =>
  let '(r, h) := f h in (match r with None => Ok tt | Some e => Err e end, h).

(** [runner.run(command, input)]. *)
Definition run (command : list string) (input : option string) : st H ApplyError string := of_sum (exec command input).
Definition read (path : string) : st H ApplyError (option string) := of_sum (read_file path).
Definition list_dir (path : string) : st H ApplyError (list string) := of_sum (read_dir path).
Definition save (path content : string) : st H ApplyError unit := of_option (save_file path content).
Definition remove (path : string) : st H ApplyError unit := of_option (remove_file path).

(** The result instead of an early return. *)
Definition attempt {S E A} (m : st S E A) : st S E (res E A) := fun s => let '(r, s) := m s in (match r with Panic => Panic | r => Ok r end, s).
End Run.

(** [Path::join] with a plain name. *)
Definition join (dir name : string) : string := (dir ++ "/" ++ name)%string.
Definition plain_name (name : string) : Prop := Forall (.≠ "/"%char) (chars name).
Definition in_dir (dir path : string) : Prop := ∃ name, plain_name name ∧ path = join dir name.

(** What the node relies on: a view of the files that only file operations change, as they
    say, and of the rest of the host, which they leave alone. *)
Class HostLaws (H X : Type) `{!HostOs H} := {
  files : H → gmap string string;
  kernel : H → X;
  exec_files c i h : files (exec c i h).2 = files h;
  read_file_view p h : files (read_file p h).2 = files h ∧ kernel (read_file p h).2 = kernel h;
  read_file_inl p h o : (read_file p h).1 = inl o → o = files h !! p;
  read_dir_view p h : files (read_dir p h).2 = files h ∧ kernel (read_dir p h).2 = kernel h;
  read_dir_inl p h l : (read_dir p h).1 = inl l → ∀ q, q ∈ l ↔ is_Some (files h !! q) ∧ in_dir p q;
  save_kernel p c h : kernel (save_file p c h).2 = kernel h;
  save_None p c h : (save_file p c h).1 = None → files (save_file p c h).2 = <[p := c]> (files h);
  save_Some p c h e : (save_file p c h).1 = Some e → files (save_file p c h).2 = files h ∨ files (save_file p c h).2 = <[p := c]> (files h);
  remove_kernel p h : kernel (remove_file p h).2 = kernel h;
  remove_None p h : (remove_file p h).1 = None → files (remove_file p h).2 = delete p (files h);
  remove_Some p h e : (remove_file p h).1 = Some e → files (remove_file p h).2 = files h
}.

(** ** Specifications

    A triple over the view of the host: [P] before, [Q] after a success, [E] after an error. *)
Section Spec.
Context {H X : Type} `{!HostOs H} `{!HostLaws H X}.
Abbreviation host A := (st H ApplyError A).
Abbreviation view := (gmap string string → X → Prop).

Definition spec {A} (P : view) (m : host A) (Q : A → view) (E : ApplyError → view) : Prop := ∀ h r h',
  P (files h) (kernel h) → m h = (r, h') →
  match r with Ok a => Q a (files h') (kernel h') | Err e => E e (files h') (kernel h') | Panic => False end.

Lemma spec_ret {A} (P : view) (a : A) Q E : (∀ f x, P f x → Q a f x) → spec P (mret a) Q E.
Proof. intros HQ h r h' Hp [= <- <-]. by apply HQ. Qed.
Lemma spec_err {A} (P : view) e (Q : A → view) E : (∀ f x, P f x → E e f x) → spec P (lift (Err e)) Q E.
Proof. intros HE h r h' Hp [= <- <-]. by apply HE. Qed.
Lemma spec_lift {A} (P : view) (m : res ApplyError A) Q E :
  m ≠ Panic → (∀ a f x, m = Ok a → P f x → Q a f x) → (∀ e f x, m = Err e → P f x → E e f x) → spec P (lift m) Q E.
Proof. intros Hm HQ HE h r h' Hp [= <- <-]. destruct m; eauto. Qed.

Lemma spec_bind {A B} (P : view) (m : host A) (k : A → host B) Q R E :
  spec P m Q E → (∀ a, spec (Q a) (k a) R E) → spec P (m ≫= k) R E.
Proof.
  intros Hm Hk h r h' Hp. unfold mbind, st_bind. destruct (m h) as [x h1] eqn:Hx. specialize (Hm _ _ _ Hp Hx).
  destruct x as [a|e|]; [by apply Hk|by intros [= <- <-]|done].
Qed.

Lemma spec_pass {A B} (P : view) (a : A) (k : A → host B) Q E : spec P (k a) Q E → spec P (lift (Ok a) ≫= k) Q E.
Proof. done. Qed.

Lemma spec_weaken {A} (P P' : view) (m : host A) (Q Q' : A → view) (E E' : ApplyError → view) :
  spec P m Q E → (∀ f x, P' f x → P f x) → (∀ a f x, Q a f x → Q' a f x) → (∀ e f x, E e f x → E' e f x) → spec P' m Q' E'.
Proof. intros Hm HP HQ HE h r h' Hp Hs. specialize (Hm h r h' (HP _ _ Hp) Hs). destruct r; auto. Qed.

(** What never fails is good for any error. *)
Lemma spec_total {A} (P : view) (m : host A) Q E : spec P m Q (fun _ _ _ => False) → spec P m Q E.
Proof. intros Hm. by eapply spec_weaken. Qed.

Lemma spec_attempt {A} (P : view) (m : host A) Q E :
  spec P m Q E → spec P (attempt m) (fun r f x => match r with Ok a => Q a f x | Err e => E e f x | Panic => False end) (fun _ _ _ => False).
Proof.
  intros Hm h r h' Hp. unfold attempt. destruct (m h) as [y h1] eqn:Hy. specialize (Hm _ _ _ Hp Hy).
  destruct y; intros [= <- <-]; done.
Qed.

Lemma spec_tried {A} (P : view) (m : host A) (Q : res ApplyError A → view) E :
  spec P m (fun a => Q (Ok a)) (fun e => Q (Err e)) → spec P (attempt m) Q E.
Proof. intros Hm. eapply spec_weaken; [by apply spec_attempt|done| |done]. by intros []. Qed.

Lemma spec_try {A B} (P : view) (m : host A) (k : res ApplyError A → host B) Q E R E' :
  spec P m Q E → (∀ a, spec (Q a) (k (Ok a)) R E') → (∀ e, spec (E e) (k (Err e)) R E') → spec P (attempt m ≫= k) R E'.
Proof.
  intros Hm HQ HE. eapply spec_bind; [eapply spec_weaken; [apply (spec_attempt _ _ _ _ Hm)|intros f x Hr; exact Hr|intros a f x Hr; exact Hr|done]|].
  intros [a|e|]; [apply HQ|apply HE|by intros h r h' []].
Qed.

(** A fact about the view that the specification may use. *)
Lemma spec_pure {A} (P : view) (F : Prop) (m : host A) Q E : (∀ f x, P f x → F) → (F → spec P m Q E) → spec P m Q E.
Proof. intros HF Hm h r h' Hp. apply Hm; eauto. Qed.

(** The state before, for the specification to refer to. *)
Lemma spec_ghost {A} (P : view) (m : host A) Q E : (∀ y, spec (fun f x => P f x ∧ x = y) m Q E) → spec P m Q E.
Proof. intros Hm h r h' Hp. by apply (Hm (kernel h)). Qed.

Lemma spec_read (P : view) p Q (E : ApplyError → view) :
  (∀ f x, P f x → Q (f !! p) f x) → (∀ e f x, P f x → E e f x) → spec P (read p) Q E.
Proof.
  intros HQ HE h r h' Hp. unfold read, of_sum. pose proof (read_file_view p h) as [Hf Hk]. pose proof (read_file_inl p h) as Hi.
  destruct (read_file p h) as [[o|e] h1]; intros [= <- <-]; cbn in *; rewrite Hf, Hk; [|by apply HE]. rewrite (Hi o eq_refl). by apply HQ.
Qed.

Lemma spec_list_dir (P : view) p Q (E : ApplyError → view) :
  (∀ l f x, (∀ q, q ∈ l ↔ is_Some (f !! q) ∧ in_dir p q) → P f x → Q l f x) → (∀ e f x, P f x → E e f x) → spec P (list_dir p) Q E.
Proof.
  intros HQ HE h r h' Hp. unfold list_dir, of_sum. pose proof (read_dir_view p h) as [Hf Hk]. pose proof (read_dir_inl p h) as Hi.
  destruct (read_dir p h) as [[o|e] h1]; intros [= <- <-]; cbn in *; rewrite Hf, Hk; [|by apply HE]. apply HQ; [|done]. by apply Hi.
Qed.

Lemma spec_save (P : view) p c Q (E : ApplyError → view) :
  (∀ f x, P f x → Q tt (<[p := c]> f) x) → (∀ e f x, P f x → E e f x ∧ E e (<[p := c]> f) x) → spec P (save p c) Q E.
Proof.
  intros HQ HE h r h' Hp. unfold save, of_option. pose proof (save_kernel p c h) as Hk. pose proof (save_None p c h) as HN.
  pose proof (save_Some p c h) as HS. destruct (save_file p c h) as [[e|] h1]; intros [= <- <-]; cbn in *; rewrite Hk.
  - destruct (HE e _ _ Hp). destruct (HS e eq_refl) as [->| ->]; done.
  - rewrite HN by done. by apply HQ.
Qed.

Lemma spec_remove (P : view) p Q (E : ApplyError → view) :
  (∀ f x, P f x → Q tt (delete p f) x) → (∀ e f x, P f x → E e f x) → spec P (remove p) Q E.
Proof.
  intros HQ HE h r h' Hp. unfold remove, of_option. pose proof (remove_kernel p h) as Hk. pose proof (remove_None p h) as HN.
  pose proof (remove_Some p h) as HS. destruct (remove_file p h) as [[e|] h1]; intros [= <- <-]; cbn in *; rewrite Hk.
  - rewrite (HS e) by done. by apply HE.
  - rewrite HN by done. by apply HQ.
Qed.
End Spec.

(** ** Computations with a state of their own beside the host *)

Definition on_host {S H E A} (m : st H E A) : st (S * H) E A := fun '(s, h) => let '(r, h) := m h in (r, (s, h)).
Definition get_state {S H E} : st (S * H) E S := fun '(s, h) => (Ok s, (s, h)).
Definition put_state {S H E} (s : S) : st (S * H) E unit := fun '(_, h) => (Ok tt, (s, h)).

(** [for x in l { body(x)?; }]. *)
Fixpoint for_each {S E A} (l : list A) (body : A → st S E unit) : st S E unit :=
  match l with [] => mret tt | x :: l => _ ← body x; for_each l body end.

(** [l.retain(|x| match effect(x) { Ok(_) => false, Err(e) => { errors.push(Err(e)); true } })]. *)
Fixpoint retain {S A B} (l : list A) (effect : A → st S ApplyError B) : st S ApplyError (list A * list ApplyResult) :=
  match l with
  | [] => mret ([], [])
  | x :: l =>
      r ← attempt (effect x);
      '(kept, errors) ← retain l effect;
      mret (match r with Err e => (x :: kept, Err e :: errors) | _ => (kept, errors) end)
  end.

(** [for x in l { if let Err(e) = body(x) { errors.push(Err(e)); } }]. *)
Fixpoint try_each {S A} (l : list A) (body : A → st S ApplyError unit) : st S ApplyError (list ApplyResult) :=
  match l with
  | [] => mret []
  | x :: l => r ← attempt (body x); errors ← try_each l body; mret (match r with Err e => Err e :: errors | _ => errors end)
  end.

(** The pair is a host again: commands and files leave the state alone. *)
Section Pair.
Context {S H : Type} `{!HostOs H}.
Definition beside {A} (f : H → A * H) (x : S * H) : A * (S * H) := ((f x.2).1, (x.1, (f x.2).2)).
#[export] Instance pair_os : HostOs (S * H) := {|
  exec c i := beside (exec c i); read_file p := beside (read_file p); read_dir p := beside (read_dir p);
  save_file p c := beside (save_file p c); remove_file p := beside (remove_file p)
|}.
End Pair.

#[export] Program Instance pair_laws {S H X} `{!HostOs H} `{!HostLaws H X} : HostLaws (S * H) (S * X) :=
  {| files x := files x.2; kernel x := (x.1, kernel x.2) |}.
Next Obligation. intros S H X O L c i [s h]. apply exec_files. Qed.
Next Obligation. intros S H X O L p [s h]. cbn. by destruct (read_file_view p h) as [-> ->]. Qed.
Next Obligation. intros S H X O L p [s h] o. apply (read_file_inl p h). Qed.
Next Obligation. intros S H X O L p [s h]. cbn. by destruct (read_dir_view p h) as [-> ->]. Qed.
Next Obligation. intros S H X O L p [s h] l. apply (read_dir_inl p h). Qed.
Next Obligation. intros S H X O L p c [s h]. cbn. by rewrite save_kernel. Qed.
Next Obligation. intros S H X O L p c [s h]. apply (save_None p c h). Qed.
Next Obligation. intros S H X O L p c [s h] e. apply (save_Some p c h). Qed.
Next Obligation. intros S H X O L p [s h]. cbn. by rewrite remove_kernel. Qed.
Next Obligation. intros S H X O L p [s h]. apply (remove_None p h). Qed.
Next Obligation. intros S H X O L p [s h] e. apply (remove_Some p h e). Qed.

Section Stateful.
Context {H X S : Type} `{!HostOs H} `{!HostLaws H X}.
Abbreviation comp A := (st (S * H) ApplyError A).
Abbreviation sview := (gmap string string → S * X → Prop).

Lemma spec_host {A} (P : sview) (m : st H ApplyError A) (Q : A → sview) (E : ApplyError → sview) :
  (∀ s, spec (fun f x => P f (s, x)) m (fun a f x => Q a f (s, x)) (fun e f x => E e f (s, x))) → spec P (on_host m : comp A) Q E.
Proof.
  intros Hm [s h] r h' Hp. unfold on_host. destruct (m h) as [y h1] eqn:Hy. specialize (Hm s _ _ _ Hp Hy). by intros [= <- <-].
Qed.
Lemma spec_get (P : sview) (Q : S → sview) (E : ApplyError → sview) : (∀ s f x, P f (s, x) → Q s f (s, x)) → spec P (get_state : comp S) Q E.
Proof. intros HQ [s h] r h' Hp [= <- <-]. by apply HQ. Qed.
Lemma spec_put (P : sview) s0 (Q : unit → sview) (E : ApplyError → sview) :
  (∀ s f x, P f (s, x) → Q tt f (s0, x)) → spec P (put_state s0 : comp unit) Q E.
Proof. intros HQ [s h] r h' Hp [= <- <-]. exact (HQ s _ _ Hp). Qed.
End Stateful.

Lemma spec_for {H X} `{!HostOs H} `{!HostLaws H X} {A} (I : list A → gmap string string → X → Prop) (l : list A) (body : A → st H ApplyError unit) E :
  (∀ x l, spec (I (x :: l)) (body x) (fun _ => I l) E) → spec (I l) (for_each l body) (fun _ => I []) E.
Proof.
  intros Hb. induction l as [|x l IH]; cbn [for_each]; [by apply spec_ret|]. eapply spec_bind; [apply Hb|]. intros u. apply IH.
Qed.

Lemma spec_try_each {H X} `{!HostOs H} `{!HostLaws H X} {A} (I : list A → gmap string string → X → Prop) (l : list A) (body : A → st H ApplyError unit) E :
  (∀ x l, spec (I (x :: l)) (body x) (fun _ => I l) (fun _ => I l)) → spec (I l) (try_each l body) (fun _ => I []) E.
Proof.
  intros Hb. induction l as [|x l IH]; cbn [try_each]; [by apply spec_ret|].
  eapply spec_try; [apply Hb|intros u|intros e]; (eapply spec_bind; [apply IH|intros es; by apply spec_ret]).
Qed.

(** [I l]: the entries [l] are still on record.  What is kept failed. *)
Lemma spec_retain {H X} `{!HostOs H} `{!HostLaws H X} {A B} (I : list A → gmap string string → X → Prop) (l : list A) (effect : A → st H ApplyError B) E :
  (∀ kept x post, spec (I (kept ++ x :: post)) (effect x) (fun _ => I (kept ++ post)) (fun _ => I (kept ++ x :: post))) →
  spec (I l) (retain l effect) (fun r f x => I r.1 f x ∧ r.1 ⊆ l ∧ Forall2 (fun _ r => is_Some (err_of r)) r.1 r.2) E.
Proof.
  intros He. cut (∀ kept, spec (I (kept ++ l)) (retain l effect) (fun r f x => I (kept ++ r.1) f x ∧ r.1 ⊆ l ∧ Forall2 (fun _ r => is_Some (err_of r)) r.1 r.2) E);
    [intros Hc; apply (Hc [])|].
  induction l as [|x l IH]; intros kept; cbn [retain]; [by apply spec_ret; intros f y Hi|].
  eapply spec_try; [apply He|intros b|intros e].
  - eapply spec_bind; [apply IH|]. intros [k es]. apply spec_ret. intros f y (Hi & Hs & Hf). cbn in *. split; [done|]. split; [set_solver|done].
  - eapply spec_bind; [rewrite (cons_middle x kept l), app_assoc; apply IH|]. intros [k es]. apply spec_ret. intros f y (Hi & Hs & Hf). cbn in *.
    rewrite <-app_assoc in Hi. split; [done|]. split; [set_solver|]. by constructor.
Qed.

(** A type that serde writes and reads. *)
Class Serde (A : Type) := { to_text : A → string; of_text : string → option A }.
Class SerdeLaws (A : Type) `{!Serde A} : Prop := of_to_text : ∀ a : A, of_text (to_text a) = Some a.
