(* ===== verification/HostSim.v ===== *)
(** * A simulated host

    A host with files, some state [X] that commands read and change, and a plan that says
    which of the next operations fail, before or after taking effect.  It satisfies the laws
    of [HostRun], so that the theorems about the node's effects apply to it. *)

From Stdlib Require Import Strings.Ascii Strings.String.
From S2P Require Import Prelude.
From S2P Require Import Words.
From S2P Require Import NetText.
From S2P Require Import Prefix.
From S2P Require Import Apply.
From S2P Require Import HostRun.

Inductive fault := Works | Fails | FailsAfter.
Record sim (X : Type) := mkSim { sim_files : gmap string string; sim_state : X; sim_plan : list fault }.
Arguments mkSim {X}.
Arguments sim_files {X}.
Arguments sim_state {X}.
Arguments sim_plan {X}.

Class Commands (X : Type) := command_on : list string → option string → X → (string + ApplyError) * X.

Definition io_error : ApplyError := error_new ["host"%string] "Input/output error".

(** The names of a directory. *)
Definition entry (dir path : string) : bool :=
  match strip_prefix (dir ++ "/")%string path with Some name => negb (existsb (Ascii.eqb "/"%char) (chars name)) | None => false end.

Section Sim.
Context {X : Type} `{!Commands X}.
Abbreviation next h := (hd Works (sim_plan h)).

Definition sim_exec (c : list string) (i : option string) (h : sim X) : (string + ApplyError) * sim X :=
  let '(r, x) := command_on c i (sim_state h) in
  let done_ := mkSim (sim_files h) x (tl (sim_plan h)) in
  match next h with
  | Works => (r, done_)
  | Fails => (inr io_error, mkSim (sim_files h) (sim_state h) (tl (sim_plan h)))
  | FailsAfter => (match r with inl _ => inr io_error | inr e => inr e end, done_)
  end.
Definition sim_tick (h : sim X) : sim X := mkSim (sim_files h) (sim_state h) (tl (sim_plan h)).
Definition sim_put (f : gmap string string) (h : sim X) : sim X := mkSim f (sim_state h) (tl (sim_plan h)).
Definition sim_read (p : string) (h : sim X) : (option string + ApplyError) * sim X :=
  (match next h with Works => inl (sim_files h !! p) | _ => inr io_error end, sim_tick h).
Definition sim_list (p : string) (h : sim X) : (list string + ApplyError) * sim X :=
  (match next h with Works => inl (filter (fun q => entry p q = true) (map_to_list (sim_files h)).*1) | _ => inr io_error end, sim_tick h).
Definition sim_save (p c : string) (h : sim X) : option ApplyError * sim X :=
  match next h with
  | Works => (None, sim_put (<[p := c]> (sim_files h)) h)
  | Fails => (Some io_error, sim_tick h)
  | FailsAfter => (Some io_error, sim_put (<[p := c]> (sim_files h)) h)
  end.
Definition sim_remove (p : string) (h : sim X) : option ApplyError * sim X :=
  match next h with Works => (None, sim_put (delete p (sim_files h)) h) | _ => (Some io_error, sim_tick h) end.

#[export] Instance sim_os : HostOs (sim X) :=
  {| exec := sim_exec; read_file := sim_read; read_dir := sim_list; save_file := sim_save; remove_file := sim_remove |}.
End Sim.

Lemma starts_with_app p l : starts_with p (p ++ l) = true.
Proof. induction p as [|c p IH]; cbn; [by destruct l|]. by rewrite Ascii.eqb_refl. Qed.

Lemma starts_with_inv p l : starts_with p l = true → l = p ++ drop (length p) l.
Proof.
  revert l. induction p as [|c p IH]; intros [|x l] Hs; cbn in *; try done. apply andb_true_iff in Hs as [He Hs].
  apply Ascii.eqb_eq in He as ->. f_equal. by apply IH.
Qed.

Lemma strip_text_app p s : strip_prefix p (p ++ s)%string = Some s.
Proof.
  unfold strip_prefix, str_starts_with. rewrite chars_append, starts_with_app, drop_app_length. f_equal. apply string_of_list_ascii_of_string.
Qed.

Lemma strip_prefix_inv p s t : strip_prefix p s = Some t → s = (p ++ t)%string.
Proof.
  unfold strip_prefix, str_starts_with. destruct (starts_with _ _) eqn:Hs; [|done]. intros [= <-]. apply starts_with_inv in Hs.
  rewrite <-(string_of_list_ascii_of_string s), Hs at 1. set (r := drop _ _).
  rewrite <-(string_of_list_ascii_of_string (p ++ text r)). f_equal. rewrite chars_append. f_equal. unfold text. by rewrite list_ascii_of_string_of_list_ascii.
Qed.

Lemma append_assoc (a b c : string) : ((a ++ b) ++ c)%string = (a ++ (b ++ c))%string.
Proof. induction a as [|x a IH]; [done|]. change (String x ((a ++ b) ++ c) = String x (a ++ (b ++ c)))%string. by f_equal. Qed.

Lemma no_slash s : negb (existsb (Ascii.eqb "/"%char) (chars s)) = true ↔ plain_name s.
Proof.
  unfold plain_name. rewrite negb_true_iff, <-not_true_iff_false, existsb_exists, list.Forall_forall. split.
  - intros Hn c Hc ->. apply Hn. exists "/"%char. split; [by apply list_elem_of_In|apply Ascii.eqb_refl].
  - intros Hf (c & Hc & He%Ascii.eqb_eq). subst c. by apply list_elem_of_In, Hf in Hc.
Qed.

Lemma entry_in_dir dir path : entry dir path = true ↔ in_dir dir path.
Proof.
  unfold entry, in_dir, join. split.
  - destruct (strip_prefix _ _) as [name|] eqn:Hs; [|done]. intros Hn. apply strip_prefix_inv in Hs. exists name. rewrite <-no_slash. split; [done|].
    by rewrite Hs, append_assoc.
  - intros (name & Hn & ->). rewrite <-append_assoc, strip_text_app. by apply no_slash.
Qed.

#[export] Program Instance sim_laws {X} `{!Commands X} : HostLaws (sim X) X := {| files := sim_files; kernel := sim_state |}.
Next Obligation. intros X C c i h. cbn. unfold sim_exec. destruct (command_on _ _ _), (hd _ _); done. Qed.
Next Obligation. done. Qed.
Next Obligation. intros X C p h o. cbn. unfold sim_read. destruct (hd _ _); cbn; congruence. Qed.
Next Obligation. done. Qed.
Next Obligation.
  intros X C p h l. cbn. unfold sim_list. destruct (hd _ _); cbn; [|done..]. intros [= <-] q. rewrite list_elem_of_filter, entry_in_dir, list_elem_of_fmap. split.
  - intros (Hd & [k v] & -> & Hk%elem_of_map_to_list). by split; [eexists|].
  - intros [[v Hv] Hd]. split; [done|]. exists (q, v). split; [done|]. by apply elem_of_map_to_list.
Qed.
Next Obligation. intros X C p c h. cbn. unfold sim_save. by destruct (hd _ _). Qed.
Next Obligation. intros X C p c h. cbn. unfold sim_save. by destruct (hd _ _). Qed.
Next Obligation. intros X C p c h e. cbn. unfold sim_save. destruct (hd _ _); cbn; auto. Qed.
Next Obligation. intros X C p h. cbn. unfold sim_remove. by destruct (hd _ _). Qed.
Next Obligation. intros X C p h. cbn. unfold sim_remove. by destruct (hd _ _). Qed.
Next Obligation. intros X C p h e. cbn. unfold sim_remove. by destruct (hd _ _). Qed.
