(* ===== verification/Rib.v ===== *)
(** * The routing table of the host

    The node changes it with [ip route add], [replace] and [del] (iproute2).  A table maps a
    destination and a metric to a route; the kernel's state is the history of the table, the
    current one first, so that a theorem can speak of every table there was in between.  A
    command that fails changes nothing. *)

From Stdlib Require Import Strings.Ascii Strings.String.
From S2P Require Import Prelude.
From S2P Require Import Words.
From S2P Require Import NetText.
From S2P Require Import Prefix.
From S2P Require Import Apply.
From S2P Require Import Domain.
From S2P Require Import NodeConfig.
From S2P Require Import HostRun.

Record Route := mkRoute { rt_via : option string; rt_dev : option string; rt_proto : option string; rt_unreachable : bool }.
Abbreviation rib := (gmap (string * string) Route).

#[global] Instance Route_eq_dec : EqDecision Route.
Proof. solve_decision. Defined.

(** The metric of a route that names none; the lowest in use. *)
Definition METRIC : string := "default".

Inductive Verb := VAdd | VReplace | VDel.
Record Selector := mkSelector {
  s_unreachable : bool; s_dst : string; s_via : option string; s_dev : option string; s_proto : option string; s_metric : option string
}.

(** ** Commands *)

Fixpoint route_args (l : list string) (s : Selector) : option Selector :=
  match l with
  | [] => Some s
  | k :: v :: l =>
      if bool_decide (k = "via"%string) then route_args l (mkSelector (s_unreachable s) (s_dst s) (Some v) (s_dev s) (s_proto s) (s_metric s))
      else if bool_decide (k = "dev"%string) then route_args l (mkSelector (s_unreachable s) (s_dst s) (s_via s) (Some v) (s_proto s) (s_metric s))
      else if bool_decide (k = "proto"%string) then route_args l (mkSelector (s_unreachable s) (s_dst s) (s_via s) (s_dev s) (Some v) (s_metric s))
      else if bool_decide (k = "metric"%string) then route_args l (mkSelector (s_unreachable s) (s_dst s) (s_via s) (s_dev s) (s_proto s) (Some v))
      else None
  | _ => None
  end.

Definition verb_of (s : string) : option Verb :=
  if bool_decide (s = "add"%string) then Some VAdd
  else if bool_decide (s = "replace"%string) then Some VReplace
  else if bool_decide (s = "del"%string) then Some VDel else None.

Definition route_selector (l : list string) : option Selector :=
  match l with
  | u :: dst :: args =>
      if bool_decide (u = "unreachable"%string) then route_args args (mkSelector true dst None None None None)
      else route_args (dst :: args) (mkSelector false u None None None None)
  | [dst] => Some (mkSelector false dst None None None None)
  | [] => None
  end.

(** A command that changes the table. *)
Definition ip_route (c : list string) : option (Verb * Selector) :=
  match c with
  | ip :: _ :: route :: verb :: rest =>
      if bool_decide (ip = "ip"%string) && bool_decide (route = "route"%string) then
        match verb_of verb, route_selector rest with Some v, Some s => Some (v, s) | _, _ => None end
      else None
  | _ => None
  end.

Definition is_query (c : list string) : Prop := hd_error c = Some "ip"%string ∧ ("show"%string ∈ c ∨ "get"%string ∈ c).

(** ** Their meaning *)

Definition route_key (s : Selector) : string * string := (s_dst s, default METRIC (s_metric s)).
Definition route_of (s : Selector) : Route := mkRoute (s_via s) (s_dev s) (s_proto s) (s_unreachable s).

Definition admits (want have : option string) : bool := match want with Some _ => bool_decide (want = have) | None => true end.
Definition selects (s : Selector) (k : string * string) (r : Route) : bool :=
  bool_decide (k.1 = s_dst s) && admits (s_metric s) (Some k.2) && admits (s_via s) (rt_via r) && admits (s_dev s) (rt_dev r)
  && admits (s_proto s) (rt_proto r) && (negb (s_unreachable s) || rt_unreachable r).

(** A deletion takes one route that fits, the one without a metric first. *)
Definition rib_step (v : Verb) (s : Selector) (t t' : rib) : Prop :=
  match v with
  | VAdd => t !! route_key s = None ∧ t' = <[route_key s := route_of s]> t
  | VReplace => t' = <[route_key s := route_of s]> t
  | VDel => ∃ k r, t !! k = Some r ∧ selects s k r = true ∧ t' = delete k t ∧
                   (∀ r0, t !! (s_dst s, METRIC) = Some r0 → selects s (s_dst s, METRIC) r0 = true → k = (s_dst s, METRIC))
  end.

(** What [ip -j -N route show] prints of a route. *)
Definition row_of (row : Json) (r : Route) : Prop :=
  as_str (jget "gateway" row) = rt_via r ∧ as_str (jget "dev" row) = rt_dev r ∧
  (as_u64 (jget "protocol" row) = Some 242 ∨ as_str (jget "protocol" row) = Some "242"%string ↔ rt_proto r = Some "242"%string).

Definition show_exact (family prefix : string) : list string := ["ip"; "-j"; "-N"; family; "route"; "show"; "exact"; prefix]%string.
Definition cur (x : list rib) : rib := hd ∅ x.

Class RibLaws (H : Type) `{!HostOs H} `{!HostLaws H (list rib)} `{!Serde Json} : Prop := {
  change_inl c v s h o : ip_route c = Some (v, s) → (exec c None h).1 = inl o →
    ∃ t, rib_step v s (cur (kernel h)) t ∧ kernel (exec c None h).2 = t :: kernel h;
  change_inr c v s h e : ip_route c = Some (v, s) → (exec c None h).1 = inr e → kernel (exec c None h).2 = kernel h;
  del_missing c s h e : ip_route c = Some (VDel, s) → (exec c None h).1 = inr e → missing e = true →
    ∀ k r, cur (kernel h) !! k = Some r → selects s k r = false;
  query_kernel c h : ip_route c = None → is_query c → kernel (exec c None h).2 = kernel h;
  show_rows family p h o rows : (exec (show_exact family p) None h).1 = inl o → of_text o = Some (JArray rows) →
    (∀ row, row ∈ rows → ∃ m r, cur (kernel h) !! (p, m) = Some r ∧ row_of row r) ∧
    (∀ m r, cur (kernel h) !! (p, m) = Some r → ∃ row, row ∈ rows ∧ row_of row r);
  show_array family p h o : (exec (show_exact family p) None h).1 = inl o → ∃ rows, of_text o = Some (JArray rows)
}.

(** The command of a reachable destination. *)
Lemma ip_route_dst fam verb v dst a args s : dst ≠ "unreachable"%string → verb_of verb = Some v →
  route_args (a :: args) (mkSelector false dst None None None None) = Some s →
  ip_route ("ip"%string :: fam :: "route"%string :: verb :: dst :: a :: args) = Some (v, s).
Proof. intros Hd Hv Hs. unfold ip_route, route_selector. rewrite Hv, (bool_decide_eq_false_2 _ Hd), Hs. done. Qed.

Section Lemmas.
Context {H : Type} `{!HostOs H} `{!HostLaws H (list rib)} `{!Serde Json} `{!RibLaws H}.
Abbreviation view := (gmap string string → list rib → Prop).
Implicit Types (P : view) (Q : string → view) (E : ApplyError → view).

Lemma spec_change P c v s Q E : ip_route c = Some (v, s) →
  (∀ o f x t, P f x → rib_step v s (cur x) t → Q o f (t :: x)) →
  (∀ e f x, P f x → (v = VDel → missing e = true → ∀ k r, cur x !! k = Some r → selects s k r = false) → E e f x) →
  spec P (run (H:=H) c None) Q E.
Proof.
  intros Hc HQ HE h r h' Hp. unfold run, of_sum. pose proof (exec_files c None h) as Hf.
  pose proof (change_inl c v s h) as Hi. pose proof (change_inr c v s h) as He. pose proof (fun Hv : v = VDel => del_missing c s h) as Hm.
  destruct (exec c None h) as [[o|e] h1]; cbn [fst snd] in *; intros [= <- <-]; rewrite Hf.
  - destruct (Hi o Hc eq_refl) as (t & Ht & ->). by apply HQ.
  - rewrite (He e Hc eq_refl). apply HE; [done|]. intros -> Hmiss. by apply (Hm eq_refl e Hc eq_refl Hmiss).
Qed.

Lemma spec_query P c Q E : ip_route c = None → is_query c → (∀ o f x, P f x → Q o f x) → (∀ e f x, P f x → E e f x) →
  spec P (run (H:=H) c None) Q E.
Proof.
  intros Hc Hq HQ HE h r h' Hp. unfold run, of_sum. pose proof (exec_files c None h) as Hf. pose proof (query_kernel c h Hc Hq) as Hk.
  destruct (exec c None h) as [[o|e] h1]; cbn [fst snd] in *; intros [= <- <-]; rewrite Hf, Hk; auto.
Qed.

Lemma spec_show P family p Q E :
  (∀ o rows f x, P f x → of_text o = Some (JArray rows) → (∀ row, row ∈ rows → ∃ m r, cur x !! (p, m) = Some r ∧ row_of row r) →
     (∀ m r, cur x !! (p, m) = Some r → ∃ row, row ∈ rows ∧ row_of row r) → Q o f x) →
  (∀ e f x, P f x → E e f x) → spec P (run (H:=H) (show_exact family p) None) Q E.
Proof.
  intros HQ HE h r h' Hp. unfold run, of_sum. pose proof (exec_files (show_exact family p) None h) as Hf.
  assert (kernel (exec (show_exact family p) None h).2 = kernel h) as Hk.
  { apply query_kernel; [vm_compute; reflexivity|]. split; [done|]. left. unfold show_exact. set_solver. }
  pose proof (show_rows family p h) as Hr. pose proof (show_array family p h) as Ha.
  destruct (exec _ None h) as [[o|e] h1]; cbn [fst snd] in *; intros [= <- <-]; rewrite Hf, Hk; [|by apply HE].
  destruct (Ha o eq_refl) as [rows Hrows]. destruct (Hr o rows eq_refl Hrows). eauto.
Qed.
End Lemmas.
