(* ===== verification/HostRoutes.v ===== *)
(** * Routes of the host (node/src/route.rs)

    Connected routes over the TUN, bypass routes, the split default of a full tunnel with its
    guard against IPv6 leaks, and their removal.  The commands of Linux and macOS; a Windows
    build calls the IP Helper instead and is not modelled. *)

From Stdlib Require Import Strings.Ascii Strings.String.
From S2P Require Import Prelude.
From S2P Require Import Words.
From S2P Require Import NetAddr.
From S2P Require Import NetText.
From S2P Require Import Prefix.
From S2P Require Import Apply.
From S2P Require Import Domain.
From S2P Require Import NodeConfig.
From S2P Require Import HostRun.

Inductive RouteOs := Linux | Macos | Windows | OtherOs.
Inductive RouteOutcome := Installed | Skipped (e : ApplyError).

#[global] Instance RouteOs_eq_dec : EqDecision RouteOs.
Proof. solve_decision. Defined.

(** ** Texts *)

Definition has (c : ascii) (s : string) : bool := existsb (Ascii.eqb c) (chars s).

Definition cidr (s : string) : string :=
  if has "/" s then s else if has ":" s then (s ++ "/128")%string else (s ++ "/32")%string.

(** [dst.parse::<IpPrefix>().is_ok_and(|p| p.network().is_ipv6())]. *)
Definition parses_v6 (dst : string) : bool :=
  match from_str (chars dst) with Ok p => match network p with V6 _ => true | V4 _ => false end | _ => false end.

(** The word after [word]. *)
Fixpoint after (word : string) (parts : list string) : option string :=
  match parts with [] => None | v :: parts => if bool_decide (v = word) then hd_error parts else after word parts end.

(** [output.lines().find_map(|l| l.trim().strip_prefix(name).map(str::trim))]. *)
Definition field (name output : string) : option string :=
  hd_error (omap (fun l => str_trim <$> strip_prefix name (str_trim l)) (lines output)).

Definition parse_physical_v6_route (os : RouteOs) (output : string) : option (string * string) :=
  match os with
  | Macos => match field "gateway:" output, field "interface:" output with Some g, Some i => Some (g, i) | _, _ => None end
  | _ => match lines output with
         | [] => None
         | line :: _ => let parts := split_whitespace line in
                        match after "via" parts, after "dev" parts with Some g, Some i => Some (g, i) | _, _ => None end
         end
  end.

Definition default_field (os : RouteOs) (output mac_field linux_field : string) : option string :=
  match os with Macos => field mac_field output | _ => after linux_field (split_whitespace output) end.

(** ** Commands *)

Definition bypass_cmd (os : RouteOs) (dst : string) (via : option (string * string)) : option (list string) :=
  let d := cidr dst in
  let v6 := parses_v6 dst in
  match os, via with
  | Linux, Some (gateway, phys) => Some ["ip"; if v6 then "-6" else "-4"; "route"; "replace"; d; "via"; gateway; "dev"; phys]%string
  | Linux, None => Some ["ip"; if v6 then "-6" else "-4"; "route"; "del"; d]%string
  | Macos, Some (gateway, _) => Some ["route"; "-n"; "add"; if v6 then "-inet6" else "-inet"; "-net"; d; gateway]%string
  | Macos, None => Some ["route"; "-n"; "delete"; if v6 then "-inet6" else "-inet"; "-net"; d]%string
  | _, _ => None
  end.

Definition V6_HALVES : list string := ["::/1"; "8000::/1"]%string.

Definition v6_block_cmds (os : RouteOs) (dev : string) : list (list string) :=
  match os with
  | Linux => map (fun p => ["ip"; "-6"; "route"; "add"; p; "dev"; dev; "metric"; "42760"]%string) V6_HALVES
  | Macos => map (fun p => ["route"; "-n"; "add"; "-inet6"; "-net"; p; "-reject"; "-interface"; dev]%string) V6_HALVES
  | Windows => map (fun p => ["windows-route"; "add"; p; dev]%string) V6_HALVES
  | OtherOs => []
  end.

Definition v6_unblock_cmds (os : RouteOs) (dev : string) : list (list string) :=
  match os with
  | Linux => map (fun p => ["ip"; "-6"; "route"; "del"; p; "dev"; dev; "metric"; "42760"]%string) V6_HALVES
  | Macos => map (fun p => ["route"; "-n"; "delete"; "-inet6"; "-net"; p; "-reject"; "-interface"; dev]%string) V6_HALVES
  | Windows => map (fun p => ["windows-route"; "del"; p; dev]%string) V6_HALVES
  | OtherOs => []
  end.

Definition v6_legacy_cleanup_cmds (os : RouteOs) : list (list string) :=
  match os with
  | Linux => map (fun p => ["ip"; "-6"; "route"; "del"; "unreachable"; p; "metric"; "42760"]%string) V6_HALVES
  | _ => []
  end.

Definition DISABLE_IPV6 : string := "/proc/sys/net/ipv6/conf/all/disable_ipv6".

(** Progress of a full tunnel: what is installed and must be removed. *)
Record ExitProgress := mkExitProgress {
  ep_bypass : list string; ep_defaults : list string; ep_v6_blocked : bool; ep_v6_cleanup : list (list string)
}.
Definition exit_progress_default : ExitProgress := mkExitProgress [] [] false [].

Inductive ExitEffect := BypassAdd (b : string) | BypassDel (b : string) | GuardUp | GuardDown | DefaultAdd (p : string) | DefaultDel (p : string).

Definition SPLIT_DEFAULT : list string := ["0.0.0.0/1"; "128.0.0.0/1"]%string.

Section Routes.
Context {H : Type} `{!HostOs H} (os : RouteOs).
Abbreviation host A := (st H ApplyError A).

(** A failure that says the target is gone counts as a removal. *)
Definition missing_is_removed (m : host unit) : host unit :=
  r ← attempt m;
  match r with
  | Err e => if bool_decide (is_Some (exit_code e)) && missing e then mret tt else lift (Err e)
  | _ => mret tt
  end.

Definition run_unit (c : list string) : host unit := _ ← run c None; mret tt.

Definition route_change_with (cidr dev : string) (add : bool) : host unit :=
  if is_default_prefix cidr then mret tt
  else match os with
  | Windows => lift (Err (mkApplyError ["route"%string; cidr; dev] None "IP Helper requires Windows" Unsupported))
  | Macos =>
      let family := (if has ":" cidr then "-inet6" else "-inet")%string in
      _ ← missing_is_removed (run_unit ["route"; "-n"; "delete"; family; "-net"; cidr]%string);
      if add then run_unit ["route"; "-n"; "add"; family; "-net"; cidr; "-interface"; dev]%string else mret tt
  | _ =>
      let result := run_unit ["ip"; if has ":" cidr then "-6" else "-4"; "route"; if add then "replace" else "del"; cidr; "dev"; dev]%string in
      if add then result else missing_is_removed result
  end.

Definition optional_route_result (cidr : string) (m : host unit) : host RouteOutcome :=
  r ← attempt m;
  match r with
  | Err e => if has ":" cidr && ipv6_unavailable e then mret (Skipped e) else lift (Err e)
  | _ => mret Installed
  end.

Definition route_replace (cidr dev : string) : host RouteOutcome := optional_route_result cidr (route_change_with cidr dev true).
Definition route_del (cidr dev : string) : host unit := _ ← optional_route_result cidr (route_change_with cidr dev false); mret tt.

(** The error tells by its kind what happened. *)
Definition route_error (e : ApplyError) : ApplyError :=
  mkApplyError (command e) (exit_code e) (stderr e)
    (if bool_decide (exit_code e = None) then kind e
     else if missing e then NotFound
     else if str_contains (stderr e) "File exists" then AlreadyExists
     else if any_text (stderr e) ["Address family not supported"; "IPv6 is disabled"]%string then Unsupported
     else Other).
Definition run_route_command (c : list string) : host unit :=
  r ← attempt (run_unit c);
  match r with Err e => lift (Err (route_error e)) | _ => mret tt end.

(** ** What the host has *)

Definition physical_v6_route : host (option (string * string)) :=
  match os with
  | Linux | Macos =>
      r ← attempt (run (match os with Macos => ["route"; "-n"; "get"; "-inet6"; "default"] | _ => ["ip"; "-6"; "route"; "show"; "default"] end)%string None);
      match r with
      | Ok output => mret (parse_physical_v6_route os output)
      | Err e => if ipv6_unavailable e then mret None else lift (Err e)
      | Panic => mret None
      end
  | _ => mret None
  end.

Definition physical_default : host string :=
  run (match os with Macos => ["route"; "-n"; "get"; "default"] | _ => ["ip"; "route"; "show"; "default"] end)%string None.
Definition default_gateway : host (option string) := output ← physical_default; mret (default_field os output "gateway:" "via").
Definition physical_iface : host (option string) := output ← physical_default; mret (default_field os output "interface:" "dev").

Definition needs_bypass (dst : string) : host bool :=
  let ip := text (hd [] (split "/" (chars dst))) in
  match os with
  | Macos => mret true
  | _ =>
      missing6 ← (if has ":" ip then r ← physical_v6_route; mret (bool_decide (r = None)) else mret false);
      if (missing6 : bool) then mret false
      else out ← run ["ip"; if has ":" ip then "-6" else "-4"; "route"; "get"; ip]%string None; mret (str_contains out " via ")
  end.

(** ** Bypass routes *)

Definition bypass_del (dst : string) : host unit :=
  match bypass_cmd os dst None with Some c => missing_is_removed (run_route_command c) | None => mret tt end.

Definition bypass_install (dst gateway phys : string) : host bool :=
  _ ← (match os with Macos => bypass_del dst | _ => mret tt end);
  match bypass_cmd os dst (Some (gateway, phys)) with
  | Some c => _ ← run_route_command c; mret true
  | None => lift (Err (error_new ["bypass"%string; dst] "unsupported platform"))
  end.
Definition bypass_add (dst gateway phys : string) : host bool :=
  if parses_v6 dst then
    v6_route ← physical_v6_route;
    match v6_route with
    | None => mret false
    | Some (gateway, phys) => bypass_install dst gateway phys
    end
  else bypass_install dst gateway phys.

(** ** The guard against IPv6 leaks

    The state is the list of commands that undo it. *)
Abbreviation guarded A := (st (list (list string) * H) ApplyError A).

Definition undo_command (c : list string) : host unit := missing_is_removed (run_route_command c).

Definition v6_cleanup_with : guarded unit :=
  pending ← get_state;
  '(kept, errors) ← on_host (retain pending undo_command);
  _ ← put_state kept;
  lift (default (Ok tt) (hd_error errors)).

Definition v6_install (cmd : list string * list string) : guarded unit :=
  r ← attempt (on_host (run_route_command cmd.1));
  match r with
  | Err e => _ ← attempt v6_cleanup_with; lift (Err e)
  | _ => pending ← get_state; put_state (pending ++ [cmd.2])
  end.

Definition v6_legacy (c : list string) : guarded unit :=
  r ← attempt (on_host (run_route_command c));
  match r with Err e => if bool_decide (kind e = NotFound) then mret tt else lift (Err e) | _ => mret tt end.

Definition v6_block_tracked (dev : string) : guarded bool :=
  _ ← v6_cleanup_with;
  _ ← for_each (v6_legacy_cleanup_cmds os) v6_legacy;
  _ ← for_each (zip (v6_block_cmds os dev) (v6_unblock_cmds os dev)) v6_install;
  pending ← get_state;
  mret (negb (bool_decide (pending = []))).

Definition ipv6_disabled : host bool :=
  match os with
  | Linux => r ← attempt (read DISABLE_IPV6); mret (match r with Ok (Some v) => bool_decide (str_trim v = "1"%string) | _ => false end)
  | _ => mret false
  end.

Definition v6_block_up (dev : string) : guarded bool :=
  disabled ← on_host ipv6_disabled;
  if (disabled : bool) then mret false
  else
    r ← attempt (v6_block_tracked dev);
    pending ← get_state;
    match r with
    | Err e => if bool_decide (pending = []) && bool_decide (kind e = Unsupported) then mret false else lift (Err e)
    | Ok b => mret b
    | Panic => mret false
    end.

(** ** The full tunnel *)

Abbreviation exits A := (st (ExitProgress * H) ApplyError A).

(** A computation on the commands of the guard. *)
Definition on_guard {A} (m : guarded A) : exits A := fun '(p, h) =>
  let '(r, (pending, h)) := m (ep_v6_cleanup p, h) in (r, (mkExitProgress (ep_bypass p) (ep_defaults p) (ep_v6_blocked p) pending, h)).

Section With.
Context (effect : ExitEffect → guarded bool).

Definition cleanup_exit_with : exits unit :=
  p ← get_state;
  '(defaults, errors1) ← on_guard (retain (ep_defaults p) (fun d => effect (DefaultDel d)));
  p ← get_state;
  _ ← put_state (mkExitProgress (ep_bypass p) defaults (ep_v6_blocked p) (ep_v6_cleanup p));
  errors2 ← (if bool_decide (ep_v6_cleanup p = []) then mret []
             else r ← attempt (on_guard (effect GuardDown));
                  match r with
                  | Err e => mret [Err e]
                  | _ => p ← get_state; _ ← put_state (mkExitProgress (ep_bypass p) (ep_defaults p) false (ep_v6_cleanup p)); mret []
                  end);
  p ← get_state;
  errors3 ← (if bool_decide (ep_defaults p = []) && bool_decide (ep_v6_cleanup p = []) then
               '(bypass, errors) ← on_guard (retain (ep_bypass p) (fun b => effect (BypassDel b)));
               p ← get_state;
               _ ← put_state (mkExitProgress bypass (ep_defaults p) (ep_v6_blocked p) (ep_v6_cleanup p));
               mret errors
             else mret []);
  lift (all (errors1 ++ errors2 ++ errors3)).

Definition bypass_up (b : string) : exits unit :=
  installed ← on_guard (effect (BypassAdd b));
  if (installed : bool) then p ← get_state; put_state (mkExitProgress (ep_bypass p ++ [b]) (ep_defaults p) (ep_v6_blocked p) (ep_v6_cleanup p)) else mret tt.
Definition default_up (d : string) : exits unit :=
  _ ← on_guard (effect (DefaultAdd d));
  p ← get_state; put_state (mkExitProgress (ep_bypass p) (ep_defaults p ++ [d]) (ep_v6_blocked p) (ep_v6_cleanup p)).

Definition exit_install (bypass : list string) : exits unit :=
  _ ← for_each bypass bypass_up;
  blocked ← on_guard (effect GuardUp);
  p ← get_state;
  _ ← put_state (mkExitProgress (ep_bypass p) (ep_defaults p) blocked (ep_v6_cleanup p));
  for_each SPLIT_DEFAULT default_up.

Definition exit_up_with (bypass : list string) : exits bool :=
  _ ← cleanup_exit_with;
  r ← attempt (exit_install bypass);
  match r with
  | Err e =>
      c ← attempt cleanup_exit_with;
      match c with
      | Err cleanup => lift (Err (mkApplyError (command e) (exit_code e) (stderr e ++ "; rollback: " ++ fmt_error cleanup) (kind e)))
      | _ => lift (Err e)
      end
  | _ => p ← get_state; mret (ep_v6_blocked p)
  end.
End With.

Definition exit_effect (dev gateway phys : string) (e : ExitEffect) : guarded bool :=
  match e with
  | BypassAdd b => on_host (bypass_add b gateway phys)
  | BypassDel b => _ ← on_host (bypass_del b); mret false
  | GuardUp => v6_block_up dev
  | GuardDown => _ ← v6_cleanup_with; mret false
  | DefaultAdd p => _ ← on_host (route_replace p dev); mret false
  | DefaultDel p => _ ← on_host (route_del p dev); mret false
  end.

Definition cleanup_exit (dev : string) : exits unit := cleanup_exit_with (exit_effect dev "" "").
Definition exit_up (dev gateway phys : string) (bypass : list string) : exits bool := exit_up_with (exit_effect dev gateway phys) bypass.
Definition exit_down (dev : string) : exits unit := cleanup_exit dev.
End Routes.
