(* ===== verification/ExitSpec.v ===== *)
(** * What the routes of a full tunnel do to the routing table

    [Acc]: the table is the one found, plus the routes on record.  Every operation keeps this,
    in every table there is on the way, and takes bypass routes away only once no traffic is
    redirected any more. *)

From Stdlib Require Import Strings.Ascii Strings.String.
From S2P Require Import Prelude.
From S2P Require Import Words.
From S2P Require Import NetText.
From S2P Require Import Prefix.
From S2P Require Import Apply.
From S2P Require Import Domain.
From S2P Require Import NodeConfig.
From S2P Require Import HostRun.
From S2P Require Import Rib.
From S2P Require Import HostRoutes.

Abbreviation key := (string * string)%type.

Definition dkey (d : string) : key := (d, METRIC).
Definition gkey (q : string) : key := (q, "42760"%string).
Definition bkey (b : string) : key := (cidr b, METRIC).
Definition undo (dev q : string) : list string := ["ip"; "-6"; "route"; "del"; q; "dev"; dev; "metric"; "42760"]%string.
Definition undo_key (c : list string) : key := match ip_route c with Some (_, s) => route_key s | None => ("", "")%string end.
Definition dev_route (dev : string) : Route := mkRoute None (Some dev) None false.

(** The routes that redirect traffic into the tunnel. *)
Definition REDIRECTS : list key := (dkey <$> SPLIT_DEFAULT) ++ (gkey <$> V6_HALVES).

Definition record_keys (p : ExitProgress) : list key := (dkey <$> ep_defaults p) ++ (undo_key <$> ep_v6_cleanup p) ++ (bkey <$> ep_bypass p).

Definition set_defaults (l : list string) (p : ExitProgress) : ExitProgress := mkExitProgress (ep_bypass p) l (ep_v6_blocked p) (ep_v6_cleanup p).
Definition set_cleanup (l : list (list string)) (p : ExitProgress) : ExitProgress := mkExitProgress (ep_bypass p) (ep_defaults p) (ep_v6_blocked p) l.
Definition set_bypass (l : list string) (p : ExitProgress) : ExitProgress := mkExitProgress l (ep_defaults p) (ep_v6_blocked p) (ep_v6_cleanup p).
Definition set_blocked (b : bool) (p : ExitProgress) : ExitProgress := mkExitProgress (ep_bypass p) (ep_defaults p) b (ep_v6_cleanup p).

Section Queries.
Context {H : Type} `{!HostOs H} `{!HostLaws H (list rib)} `{!Serde Json} `{!RibLaws H}.

Lemma spec_physical_v6 (P : gmap string string → list rib → Prop) : spec P (physical_v6_route (H:=H) Linux) (fun _ => P) (fun _ => P).
Proof.
  unfold physical_v6_route. eapply (spec_try _ _ _ (fun _ => P) (fun _ => P)).
  - apply spec_query; [done| |done|done]. split; [done|]. left. set_solver.
  - intros o. by apply spec_ret.
  - intros e. destruct (ipv6_unavailable e); [by apply spec_ret|by apply spec_err].
Qed.

End Queries.

Section Accounts.
Context (t0 : rib).

(** The table is [t0] and the routes at [l], where [t0] has none. *)
Definition Acc (l : list key) (t : rib) : Prop := ∀ k, (k ∈ l → is_Some (t !! k) ∧ t0 !! k = None) ∧ (k ∉ l → t !! k = t0 !! k).

Lemma acc_delete k l l' t : l ≡ₚ k :: l' → NoDup l → Acc l t → Acc l' (delete k t).
Proof.
  intros Hp Hn Ha k'. rewrite Hp in Hn. apply list.NoDup_cons in Hn as [Hk Hn]. destruct (Ha k') as [Hin Hout]. rewrite Hp, elem_of_cons in Hin, Hout.
  split.
  - intros Hl. rewrite lookup_delete_ne by (intros ->; done). auto.
  - intros Hl. destruct (decide (k' = k)) as [->|Hne]; [|rewrite lookup_delete_ne by done; naive_solver].
    rewrite lookup_delete_eq. symmetry. apply Hin. auto.
Qed.

Lemma acc_insert k l l' r t : l' ≡ₚ k :: l → t0 !! k = None → Acc l t → Acc l' (<[k := r]> t).
Proof.
  intros Hp H0 Ha k'. destruct (Ha k') as [Hin Hout]. rewrite Hp, elem_of_cons. split.
  - intros [->|Hl]; [by rewrite lookup_insert_eq|]. destruct (decide (k' = k)) as [->|]; [by rewrite lookup_insert_eq|]. rewrite lookup_insert_ne by done. auto.
  - intros Hl. rewrite lookup_insert_ne by naive_solver. naive_solver.
Qed.

Lemma acc_present k l t : k ∈ l → Acc l t → is_Some (t !! k).
Proof. intros Hk Ha. by apply (Ha k). Qed.

(** A table on the way: what is on record there, and that the routes [B] are while traffic is redirected. *)
Definition Good (U B : list key) (t : rib) : Prop := ∃ l, l ⊆ U ∧ Acc l t ∧ ((∃ k, k ∈ l ∧ k ∈ REDIRECTS) → B ⊆ l).
End Accounts.

(** ** The record of a full tunnel *)

Section Exit.
Context {H : Type} `{!HostOs H} `{!HostLaws H (list rib)} `{!Serde Json} `{!RibLaws H}.
Context (dev : string) (t0 : rib) (U : list key) (x1 : list rib).
Implicit Types (p : ExitProgress) (t : rib) (x : list rib) (f : gmap string string).

Record PInv p t : Prop := mkPInv {
  pi_acc : Acc t0 (record_keys p) t;
  pi_nodup : NoDup (record_keys p);
  pi_within : record_keys p ⊆ U;
  pi_defaults : ∀ d, d ∈ ep_defaults p → d ∈ SPLIT_DEFAULT ∧ t !! dkey d = Some (dev_route dev);
  pi_guard : ∀ c, c ∈ ep_v6_cleanup p → ∃ q, q ∈ V6_HALVES ∧ c = undo dev q ∧ t !! gkey q = Some (dev_route dev);
  pi_bypass : ∀ b, b ∈ ep_bypass p → bkey b ∉ REDIRECTS
}.

(** The tables since [x1], while the bypass routes [B] are needed. *)
Definition Hist (B : list key) x : Prop := ∃ seg, x = seg ++ x1 ∧ Forall (Good t0 U B) seg.

Lemma hist_push B t x : Hist B x → Good t0 U B t → Hist B (t :: x).
Proof. intros (seg & -> & Hs) Hg. exists (t :: seg). split; [done|]. by constructor. Qed.

Lemma undo_key_undo q : q ∈ V6_HALVES → undo_key (undo dev q) = gkey q.
Proof. unfold V6_HALVES. rewrite !elem_of_cons, elem_of_nil. by intros [->|[->|[]]]. Qed.

Definition redirecting p : Prop := ep_defaults p ≠ [] ∨ ep_v6_cleanup p ≠ [].

(** A table that agrees with its record is good for routes that are recorded as long as
    anything redirects. *)
Lemma pinv_good B p t : PInv p t → (redirecting p → B ⊆ record_keys p) → Good t0 U B t.
Proof.
  intros Hi Hb. exists (record_keys p). split; [apply Hi|]. split; [apply Hi|]. intros (k & Hk & Hr). apply Hb.
  unfold record_keys in Hk. rewrite !elem_of_app, !list_elem_of_fmap in Hk. destruct Hk as [(d & -> & Hd)|[(c & -> & Hc)|(b & -> & Hbb)]].
  - left. intros He. rewrite He in Hd. by apply elem_of_nil in Hd.
  - right. intros He. rewrite He in Hc. by apply elem_of_nil in Hc.
  - by apply (pi_bypass _ _ Hi) in Hbb.
Qed.

Lemma perm_default p pre d post : ep_defaults p = pre ++ d :: post → record_keys p ≡ₚ dkey d :: record_keys (set_defaults (pre ++ post) p).
Proof.
  intros Hd. unfold record_keys, set_defaults. rewrite Hd. cbn [ep_defaults ep_v6_cleanup ep_bypass]. rewrite !fmap_app, fmap_cons, <-!app_assoc.
  symmetry. apply Permutation_middle.
Qed.
Lemma perm_guard p pre c post : ep_v6_cleanup p = pre ++ c :: post → record_keys p ≡ₚ undo_key c :: record_keys (set_cleanup (pre ++ post) p).
Proof.
  intros Hd. unfold record_keys, set_cleanup. rewrite Hd. cbn [ep_defaults ep_v6_cleanup ep_bypass]. rewrite !fmap_app, fmap_cons, <-!app_assoc.
  rewrite !(app_assoc (dkey <$> _) (undo_key <$> pre)). symmetry. apply Permutation_middle.
Qed.
Lemma perm_bypass p pre b post : ep_bypass p = pre ++ b :: post → record_keys p ≡ₚ bkey b :: record_keys (set_bypass (pre ++ post) p).
Proof.
  intros Hd. unfold record_keys, set_bypass. rewrite Hd. cbn [ep_defaults ep_v6_cleanup ep_bypass]. rewrite !fmap_app, fmap_cons.
  rewrite !app_assoc. symmetry. apply Permutation_middle.
Qed.

(** ** Changes of the record and the table *)

Lemma pinv_drop k p p' t : record_keys p ≡ₚ k :: record_keys p' →
  ep_defaults p' ⊆ ep_defaults p → ep_v6_cleanup p' ⊆ ep_v6_cleanup p → ep_bypass p' ⊆ ep_bypass p →
  PInv p t → PInv p' (delete k t).
Proof.
  intros Hp Hd Hc Hb [Ha Hn Hw Hds Hg Hbs]. assert (Hn' := Hn). rewrite Hp in Hn'. apply list.NoDup_cons in Hn' as [Hk Hn'].
  assert (∀ k', k' ∈ record_keys p' → k' ≠ k) as Hne by (intros k' Hk' ->; done). split.
  - by eapply acc_delete.
  - done.
  - intros k' Hk'. apply Hw. rewrite Hp. by right.
  - intros d Hin. destruct (Hds d) as [Hs Ht]; [auto|]. split; [done|]. rewrite lookup_delete_ne; [done|].
    apply not_eq_sym, Hne. unfold record_keys. rewrite elem_of_app. left. by apply list_elem_of_fmap_2.
  - intros c Hin. destruct (Hg c) as (q & Hq & -> & Ht); [auto|]. exists q. split; [done|]. split; [done|]. rewrite lookup_delete_ne; [done|].
    apply not_eq_sym, Hne. rewrite <-undo_key_undo by done. unfold record_keys. rewrite !elem_of_app. right. left. by apply list_elem_of_fmap_2.
  - auto.
Qed.

Lemma pinv_add k r p p' t : record_keys p' ≡ₚ k :: record_keys p → k ∉ record_keys p → k ∈ U → t0 !! k = None →
  (∀ d, d ∈ ep_defaults p' → d ∈ ep_defaults p ∨ d ∈ SPLIT_DEFAULT ∧ dkey d = k ∧ r = dev_route dev) →
  (∀ c, c ∈ ep_v6_cleanup p' → c ∈ ep_v6_cleanup p ∨ ∃ q, q ∈ V6_HALVES ∧ c = undo dev q ∧ gkey q = k ∧ r = dev_route dev) →
  (∀ b, b ∈ ep_bypass p' → b ∈ ep_bypass p ∨ bkey b ∉ REDIRECTS) →
  PInv p t → PInv p' (<[k := r]> t).
Proof.
  intros Hp Hk HkU H0 Hd Hc Hb [Ha Hn Hw Hds Hg Hbs]. split.
  - by eapply acc_insert.
  - rewrite Hp. by constructor.
  - intros k' Hk'. rewrite Hp, elem_of_cons in Hk'. destruct Hk' as [->|]; auto.
  - intros d [Hin|(Hs & <- & ->)]%Hd; [|by rewrite lookup_insert_eq]. destruct (Hds d Hin) as [Hs Ht]. split; [done|]. rewrite lookup_insert_ne; [done|].
    intros ->. apply Hk. unfold record_keys. rewrite elem_of_app. left. by apply list_elem_of_fmap_2.
  - intros c [Hin|(q & Hq & -> & <- & ->)]%Hc; [|exists q; by rewrite lookup_insert_eq]. destruct (Hg c Hin) as (q & Hq & -> & Ht). exists q.
    split; [done|]. split; [done|]. rewrite lookup_insert_ne; [done|]. intros ->. apply Hk. rewrite <-undo_key_undo by done.
    unfold record_keys. rewrite !elem_of_app. right. left. by apply list_elem_of_fmap_2.
  - intros b [Hin|Hr]%Hb; auto.
Qed.

(** A deletion that names the metric, or a route without one, takes the route it means. *)
Lemma del_step s t t' r : t !! route_key s = Some r → selects s (route_key s) r = true → rib_step VDel s t t' → t' = delete (route_key s) t.
Proof.
  intros Hr Hs ([d m] & r' & Hk & Hsel & -> & Hfirst). f_equal. unfold route_key in *. destruct (s_metric s) as [m'|] eqn:Hm; cbn in *; [|by eapply Hfirst].
  unfold selects in Hsel. rewrite Hm in Hsel. cbn in Hsel. rewrite !andb_true_iff in Hsel. destruct Hsel as [[[[[Hd%bool_decide_eq_true Hm'%bool_decide_eq_true] _] _] _] _].
  cbn in Hd. congruence.
Qed.

Abbreviation host A := (st H ApplyError A).
Abbreviation view := (gmap string string → list rib → Prop).
Definition At (B : list key) p : view := fun f x => Hist B x ∧ PInv p (cur x).

Lemma spec_unit (P Q : view) c E : spec P (run (H:=H) c None) (fun _ => Q) E → spec P (run_unit c) (fun _ => Q) E.
Proof. intros Hr. eapply spec_bind; [exact Hr|]. intros o. by apply spec_ret. Qed.

(** What every removal does. *)
Lemma spec_drop B c s p p' : ip_route c = Some (VDel, s) → record_keys p ≡ₚ route_key s :: record_keys p' →
  ep_defaults p' ⊆ ep_defaults p → ep_v6_cleanup p' ⊆ ep_v6_cleanup p → ep_bypass p' ⊆ ep_bypass p →
  (redirecting p' → B ⊆ record_keys p') → (∀ t r, PInv p t → t !! route_key s = Some r → selects s (route_key s) r = true) →
  spec (At B p) (run_unit (H:=H) c) (fun _ => At B p') (fun e f x => missing e = false ∧ At B p f x).
Proof.
  intros Hc Hp Hd Hg Hb HB Hsel. assert (∀ x, PInv p (cur x) → ∃ r, cur x !! route_key s = Some r ∧ selects s (route_key s) r = true) as Hpres.
  { intros x Hi. destruct (acc_present t0 (route_key s) (record_keys p) (cur x)) as [r Hr]; [rewrite Hp; by left|apply Hi|]. eauto. }
  apply spec_unit. eapply spec_change; [done| |].
  - intros o f x t' [Hh Hi] Ht. destruct (Hpres x Hi) as (r & Hr & Hs). apply (del_step _ _ _ _ Hr Hs) in Ht as ->.
    assert (PInv p' (delete (route_key s) (cur x))) as Hi' by (by eapply pinv_drop). split; [|done]. apply hist_push; [done|]. by eapply pinv_good.
  - intros e f x [Hh Hi] Hm. split; [|done]. destruct (missing e) eqn:He; [|done]. destruct (Hpres x Hi) as (r & Hr & Hs).
    rewrite (Hm eq_refl eq_refl _ _ Hr) in Hs. done.
Qed.

Lemma spec_removed (P Q R : view) (m : host unit) :
  spec P m (fun _ => Q) (fun e f x => missing e = false ∧ R f x) → spec P (missing_is_removed m) (fun _ => Q) (fun _ => R).
Proof.
  intros Hm. eapply spec_try; [apply Hm|intros u; by apply spec_ret|]. intros e. destruct (missing e) eqn:He.
  - apply (spec_pure _ False); [intros f x [Hx _]; congruence|done].
  - rewrite andb_false_r. apply spec_err. by intros f x [].
Qed.

Lemma spec_route_command (P Q : view) c E : (∀ e f x, E e f x → E (route_error e) f x) →
  spec P (run_unit (H:=H) c) (fun _ => Q) E → spec P (run_route_command c) (fun _ => Q) E.
Proof. intros HE Hm. eapply spec_try; [apply Hm|intros u; by apply spec_ret|]. intros e. apply spec_err. auto. Qed.

Lemma spec_undone (P Q R : view) c :
  spec P (run_unit (H:=H) c) (fun _ => Q) (fun e f x => missing e = false ∧ R f x) → spec P (undo_command c) (fun _ => Q) (fun _ => R).
Proof. intros Hm. by apply spec_removed, spec_route_command. Qed.

Lemma split_cases d : d ∈ SPLIT_DEFAULT → d = "0.0.0.0/1"%string ∨ d = "128.0.0.0/1"%string.
Proof. unfold SPLIT_DEFAULT. rewrite !elem_of_cons, elem_of_nil. naive_solver. Qed.
Lemma halves_cases q : q ∈ V6_HALVES → q = "::/1"%string ∨ q = "8000::/1"%string.
Proof. unfold V6_HALVES. rewrite !elem_of_cons, elem_of_nil. naive_solver. Qed.

Lemma selects_all s k r : k = route_key s → admits (s_via s) (rt_via r) = true → admits (s_dev s) (rt_dev r) = true → admits (s_proto s) (rt_proto r) = true →
  s_unreachable s = false → selects s k r = true.
Proof.
  intros -> Hv Hd Hpr Hu. unfold selects, route_key. cbn. rewrite bool_decide_eq_true_2, Hv, Hd, Hpr, Hu by done. cbn.
  rewrite !andb_true_r. destruct (s_metric s) eqn:Hm; cbn; [|done]. by apply bool_decide_eq_true_2.
Qed.

Lemma spec_optional_v4 (P Q : view) c (m : host unit) E : has ":" c = false → spec P m (fun _ => Q) E → spec P (optional_route_result c m) (fun _ => Q) E.
Proof. intros Hc Hm. eapply spec_try; [apply Hm|intros u; by apply spec_ret|]. intros e. rewrite Hc. by apply spec_err. Qed.

(** ** Taking a full tunnel down *)

Section Down.
Context (B : list key).

Lemma spec_default_del p kept d post : B ⊆ (bkey <$> ep_bypass p) →
  spec (At B (set_defaults (kept ++ d :: post) p)) (route_del (H:=H) Linux d dev) (fun _ => At B (set_defaults (kept ++ post) p))
    (fun _ => At B (set_defaults (kept ++ d :: post) p)).
Proof.
  intros HB. apply (spec_pure _ (d ∈ SPLIT_DEFAULT)).
  { intros f x [_ Hi]. apply (pi_defaults _ _ Hi d). cbn. set_solver. }
  intros Hd. assert (has ":" d = false ∧ is_default_prefix d = false ∧
    ip_route ["ip"; "-4"; "route"; "del"; d; "dev"; dev]%string = Some (VDel, mkSelector false d None (Some dev) None None)) as (Hc & Hn & Hip).
  { by destruct (split_cases d Hd) as [->| ->]. }
  eapply (spec_bind _ _ _ (fun _ => At B (set_defaults (kept ++ post) p))); [|intros o; by apply spec_ret].
  apply spec_optional_v4; [done|]. unfold route_change_with. rewrite Hn, Hc. apply spec_removed. eapply spec_drop; [apply Hip|..].
  - by apply (perm_default (set_defaults (kept ++ d :: post) p)).
  - cbn. set_solver.
  - done.
  - done.
  - intros _. unfold record_keys. cbn. set_solver.
  - intros t r Hi Hr. destruct (pi_defaults _ _ Hi d) as [_ Ht]; [cbn; set_solver|]. unfold route_key in Hr. cbn in Hr. unfold dkey in Ht. rewrite Ht in Hr.
    injection Hr as <-. apply selects_all; try done. cbn. by apply bool_decide_eq_true_2.
Qed.

Lemma spec_guard_del p kept c post : B ⊆ (bkey <$> ep_bypass p) →
  spec (At B (set_cleanup (kept ++ c :: post) p)) (undo_command (H:=H) c) (fun _ => At B (set_cleanup (kept ++ post) p))
    (fun _ => At B (set_cleanup (kept ++ c :: post) p)).
Proof.
  intros HB. apply (spec_pure _ (∃ q, q ∈ V6_HALVES ∧ c = undo dev q)).
  { intros f x [_ Hi]. destruct (pi_guard _ _ Hi c) as (q & Hq & Hc & _); [cbn; set_solver|eauto]. }
  intros (q & Hq & Hc). assert (ip_route c = Some (VDel, mkSelector false q None (Some dev) None (Some "42760"%string))) as Hip.
  { subst c. by destruct (halves_cases q Hq) as [->| ->]. }
  apply spec_undone. eapply spec_drop; [apply Hip|..].
  - change (route_key _) with (gkey q). rewrite <-undo_key_undo, <-Hc by done. by apply (perm_guard (set_cleanup (kept ++ c :: post) p)).
  - done.
  - cbn. set_solver.
  - done.
  - intros _. unfold record_keys. cbn. set_solver.
  - intros t r Hi Hr. change (route_key _) with (gkey q) in *. destruct (pi_guard _ _ Hi c) as (q' & Hq' & Hc' & Ht); [cbn; set_solver|].
    assert (q' = q) as -> by (subst c; by injection Hc'). rewrite Ht in Hr. injection Hr as <-. apply selects_all; try done. cbn. by apply bool_decide_eq_true_2.
Qed.

Lemma spec_bypass_del p kept b post : ¬ redirecting p →
  spec (At B (set_bypass (kept ++ b :: post) p)) (bypass_del (H:=H) Linux b) (fun _ => At B (set_bypass (kept ++ post) p))
    (fun _ => At B (set_bypass (kept ++ b :: post) p)).
Proof.
  intros Hr. apply spec_undone. eapply (spec_drop B _ (mkSelector false (cidr b) None None None None)).
  - done.
  - by apply (perm_bypass (set_bypass (kept ++ b :: post) p)).
  - done.
  - done.
  - cbn. set_solver.
  - done.
  - intros t r _ _. by apply selects_all.
Qed.

Lemma spec_v6_cleanup p : B ⊆ (bkey <$> ep_bypass p) →
  spec (fun f '(pending, x) => At B (set_cleanup pending p) f x) (v6_cleanup_with (H:=H))
    (fun _ f '(pending, x) => pending = [] ∧ At B (set_cleanup pending p) f x) (fun _ f '(pending, x) => At B (set_cleanup pending p) f x).
Proof.
  intros HB. unfold v6_cleanup_with. eapply spec_bind.
  { apply (spec_get _ (fun l f '(pending, x) => At B (set_cleanup l p) f x)). auto. }
  intros l. eapply (spec_bind _ _ _ (fun r f '(_, x) => At B (set_cleanup r.1 p) f x ∧ r.1 ⊆ l ∧ Forall2 (fun _ r => is_Some (err_of r)) r.1 r.2)).
  { apply spec_host. intros s. apply (spec_retain (fun l => At B (set_cleanup l p))). intros kept c post. by apply spec_guard_del. }
  intros [kept errors]. eapply spec_bind.
  { apply (spec_put _ kept (fun _ f '(pending, x) => (pending = kept ∧ Forall2 (fun _ r => is_Some (err_of r)) kept errors) ∧ At B (set_cleanup pending p) f x)).
    by intros s f x (Ha & _ & Hf). }
  intros u. apply (spec_pure _ (Forall (fun r => r ≠ Panic) errors)).
  { intros f [pending x] [[_ Hf] _]. induction Hf as [|c r k es Hr _ IH]; constructor; [|done]. intros ->. by destruct Hr. }
  intros Hnp. apply spec_lift.
  - destruct errors as [|r errors]; [done|]. by inversion Hnp.
  - intros [] f [pending x] He [[-> Hf] Ha]. split; [|done]. destruct Hf as [|c r kept' es Hr]; [done|]. cbn in He. subst r. by destruct Hr.
  - by intros e f [pending x] _ [_ Ha].
Qed.

Lemma spec_guard {T : Type} (P : gmap string string → ExitProgress * list rib → Prop) (m : st (list (list string) * H) ApplyError T) Q E :
  (∀ p, spec (fun f '(pending, x) => P f (set_cleanup pending p, x)) m (fun a f '(pending, x) => Q a f (set_cleanup pending p, x))
          (fun e f '(pending, x) => E e f (set_cleanup pending p, x))) → spec P (on_guard m) Q E.
Proof.
  intros Hm [p h] r h' Hp. unfold on_guard. destruct (m (ep_v6_cleanup p, h)) as [y [pending h1]] eqn:Hy.
  assert (P (files h) (set_cleanup (ep_v6_cleanup p) p, kernel h)) as Hp' by (by destruct p). specialize (Hm p (ep_v6_cleanup p, h) y (pending, h1) Hp' Hy). by intros [= <- <-].
Qed.

Abbreviation effect g ph := (exit_effect (H:=H) Linux dev g ph).
Abbreviation failed r := (is_Some (err_of r)).

Lemma spec_defaults_down g ph p : B ⊆ (bkey <$> ep_bypass p) →
  spec (fun f '(p', x) => p' = p ∧ At B p f x) (on_guard (retain (ep_defaults p) (fun d => effect g ph (DefaultDel d))))
    (fun r f '(p', x) => p' = p ∧ At B (set_defaults r.1 p) f x ∧ Forall2 (fun _ r => failed r) r.1 r.2) (fun _ _ _ => False).
Proof.
  intros HB. apply spec_guard. intros p'. apply (spec_pure _ (p' = set_cleanup (ep_v6_cleanup p') p)).
  { intros f [pending x] [<- _]. by destruct p'. }
  intros Hp'. eapply spec_weaken; [apply (spec_retain (fun l f '(pending, x) => set_cleanup pending p' = p ∧ At B (set_defaults l p) f x) _ _ (fun _ _ _ => False))|..].
  - intros kept d post. eapply (spec_bind _ _ _ (fun _ f '(pending, x) => set_cleanup pending p' = p ∧ At B (set_defaults (kept ++ post) p) f x)).
    + apply spec_host. intros s. apply (spec_pure _ (set_cleanup s p' = p)); [by intros f x []|]. intros Hs.
      eapply spec_weaken; [by apply spec_default_del|by intros f x []|done|done].
    + intros u. by apply spec_ret.
  - intros f [pending x] [Hs Ha]. split; [done|]. by destruct p.
  - by intros r f [pending x] ([Hs Ha] & _ & Hf).
  - done.
Qed.

Lemma spec_guard_down g ph p : B ⊆ (bkey <$> ep_bypass p) →
  spec (fun f '(p', x) => p' = p ∧ At B p f x) (on_guard (effect g ph GuardDown))
    (fun _ f '(p', x) => p' = set_cleanup [] p ∧ At B p' f x) (fun _ f '(p', x) => p' = set_cleanup (ep_v6_cleanup p') p ∧ At B p' f x).
Proof.
  intros HB. apply spec_guard. intros p'. eapply (spec_bind _ _ _ (fun _ f '(pending, x) => set_cleanup [] p' = set_cleanup [] p ∧ pending = [] ∧ At B (set_cleanup pending p) f x)).
  - apply (spec_pure _ (p = set_cleanup (ep_v6_cleanup p) p')); [intros f [pending x] [<- _]; by destruct p'|]. intros Hp.
    assert (∀ l, set_cleanup l p = set_cleanup l p') as He by (intros l; rewrite Hp; by destruct p').
    eapply spec_weaken; [by apply (spec_v6_cleanup p)|..].
    + intros f [pending x] [Hs Ha]. rewrite He, Hs. done.
    + intros u f [pending x] [-> Ha]. split; [by rewrite He|done].
    + intros e f [pending x] Ha. split; [cbn; by rewrite He|by rewrite <-He].
  - intros u. apply spec_ret. intros f [pending x] (Hs & -> & Ha). by rewrite Hs.
Qed.

Lemma spec_bypass_down g ph p : ¬ redirecting p →
  spec (fun f '(p', x) => p' = p ∧ At B p f x) (on_guard (retain (ep_bypass p) (fun b => effect g ph (BypassDel b))))
    (fun r f '(p', x) => p' = p ∧ At B (set_bypass r.1 p) f x ∧ r.1 ⊆ ep_bypass p ∧ Forall2 (fun _ r => failed r) r.1 r.2) (fun _ _ _ => False).
Proof.
  intros Hr. apply spec_guard. intros p'. eapply spec_weaken; [apply (spec_retain (fun l f '(pending, x) => set_cleanup pending p' = p ∧ At B (set_bypass l p) f x) _ _ (fun _ _ _ => False))|..].
  - intros kept d post. eapply (spec_bind _ _ _ (fun _ f '(pending, x) => set_cleanup pending p' = p ∧ At B (set_bypass (kept ++ post) p) f x)).
    + apply spec_host. intros s. apply (spec_pure _ (set_cleanup s p' = p)); [by intros f x []|]. intros Hs.
      eapply spec_weaken; [by apply spec_bypass_del|by intros f x []|done|done].
    + intros u. by apply spec_ret.
  - intros f [pending x] [Hs Ha]. split; [done|]. by destruct p.
  - by intros r f [pending x] ([Hs Ha] & ? & Hf).
  - done.
Qed.

Lemma at_blocked b p f x : At B p f x → At B (set_blocked b p) f x.
Proof. by intros [Hh [? ? ? ? ? ?]]. Qed.

Lemma failed_nil (l : list ApplyResult) : Forall (fun r : ApplyResult => failed r) l → Forall (fun r => err_of r = None) l → l = [].
Proof. intros Hf Hn. destruct l as [|r l]; [done|]. inversion Hf as [|? ? Hr]; inversion Hn as [|? ? Hr']; subst. rewrite Hr' in Hr. by destruct Hr. Qed.

(** The second and third stage of a cleanup. *)
Lemma spec_guard_stage g ph p0 : B ⊆ (bkey <$> ep_bypass p0) →
  spec (fun f '(p, x) => p = p0 ∧ At B p0 f x)
    (if bool_decide (ep_v6_cleanup p0 = []) then mret []
     else r ← attempt (on_guard (effect g ph GuardDown));
          match r with
          | Err e => mret [Err e]
          | _ => p ← get_state; _ ← put_state (mkExitProgress (ep_bypass p) (ep_defaults p) false (ep_v6_cleanup p)); mret []
          end)
    (fun errors f '(p, x) => At B p f x ∧ ep_bypass p = ep_bypass p0 ∧ ep_defaults p = ep_defaults p0 ∧ Forall (fun r : ApplyResult => failed r) errors ∧ (errors = [] → ep_v6_cleanup p = []))
    (fun _ _ _ => False).
Proof.
  intros HB. case_bool_decide as Hc.
  { apply spec_ret. intros f [p x] [-> Ha]. by repeat (split; [done|]). }
  eapply spec_try; [by apply spec_guard_down|intros b|intros e].
  - eapply spec_bind; [apply (spec_get _ (fun q f '(p, x) => q = p ∧ p = set_cleanup [] p0 ∧ At B p f x)); naive_solver|]. intros q.
    eapply spec_bind.
    { apply (spec_put _ _ (fun _ f '(p, x) => p = set_blocked false (set_cleanup [] p0) ∧ At B p f x)). intros s f x (-> & -> & Ha). split; [done|]. exact (at_blocked false _ _ _ Ha). }
    intros u. apply spec_ret. intros f [p x] [-> Ha]. by repeat (split; [done|]).
  - apply spec_ret. intros f [p x] [-> Ha]. repeat (split; [done|]). split; [|done]. repeat constructor. by eexists.
Qed.

Lemma spec_bypass_stage g ph p0 :
  spec (fun f '(p, x) => p = p0 ∧ At B p0 f x)
    (if bool_decide (ep_defaults p0 = []) && bool_decide (ep_v6_cleanup p0 = []) then
       '(bypass, errors) ← on_guard (retain (ep_bypass p0) (fun b => effect g ph (BypassDel b)));
       p ← get_state;
       _ ← put_state (mkExitProgress bypass (ep_defaults p) (ep_v6_blocked p) (ep_v6_cleanup p));
       mret errors
     else mret [])
    (fun errors f '(p, x) => At B p f x ∧ ep_defaults p = ep_defaults p0 ∧ ep_v6_cleanup p = ep_v6_cleanup p0 ∧ ep_bypass p ⊆ ep_bypass p0 ∧ Forall (fun r : ApplyResult => failed r) errors ∧
       (ep_defaults p0 = [] → ep_v6_cleanup p0 = [] → errors = [] → ep_bypass p = []))
    (fun _ _ _ => False).
Proof.
  destruct (decide (ep_defaults p0 = [] ∧ ep_v6_cleanup p0 = [])) as [[Hd Hc]|Hn].
  - rewrite !bool_decide_eq_true_2 by done. cbn [andb]. eapply spec_bind; [apply (spec_bypass_down g ph); unfold redirecting; naive_solver|]. intros [bypass errors]. eapply spec_bind.
    { apply (spec_get _ (fun q f '(p, x) => q = p0 ∧ At B (set_bypass bypass p0) f x ∧ bypass ⊆ ep_bypass p0 ∧ Forall2 (fun _ r => failed r) bypass errors)). naive_solver. }
    intros q. eapply spec_bind.
    { apply (spec_put _ _ (fun _ f '(p, x) => p = set_bypass bypass p0 ∧ At B p f x ∧ bypass ⊆ ep_bypass p0 ∧ Forall2 (fun _ r => failed r) bypass errors)). naive_solver. }
    intros u. apply spec_ret. intros f [p x] (-> & Ha & Hsub & Hf). split; [done|]. split; [done|]. split; [done|]. split; [done|]. split; [|by intros _ _ ->; inversion Hf].
    clear -Hf. induction Hf; by constructor.
  - assert (bool_decide (ep_defaults p0 = []) && bool_decide (ep_v6_cleanup p0 = []) = false) as ->.
    { apply andb_false_iff. rewrite !bool_decide_eq_false. destruct (decide (ep_defaults p0 = [])); naive_solver. }
    apply spec_ret. intros f [p x] [-> Ha]. repeat (split; [done|]). naive_solver.
Qed.

Lemma spec_cleanup g ph p0 : B ⊆ (bkey <$> ep_bypass p0) →
  spec (fun f '(p, x) => p = p0 ∧ At B p0 f x) (cleanup_exit_with (effect g ph))
    (fun _ f '(p, x) => record_keys p = [] ∧ At B p f x) (fun _ f '(p, x) => ep_bypass p ⊆ ep_bypass p0 ∧ At B p f x).
Proof.
  intros HB. unfold cleanup_exit_with. eapply spec_bind; [apply (spec_get _ (fun q f '(p, x) => q = p0 ∧ p = p0 ∧ At B p0 f x)); naive_solver|].
  intros q. apply (spec_pure _ (q = p0)); [by intros f [p x] []|]. intros ->. eapply spec_bind.
  { eapply spec_total, spec_weaken; [by apply (spec_defaults_down g ph p0)|by intros f [p x] []|intros a f y Hy; exact Hy|done]. }
  intros [defaults errors1]. eapply spec_bind.
  { apply (spec_get _ (fun q f '(p, x) => q = p0 ∧ At B (set_defaults defaults p0) f x ∧ Forall2 (fun _ r => failed r) defaults errors1)). naive_solver. }
  intros q. apply (spec_pure _ (q = p0 ∧ Forall2 (fun _ r => failed r) defaults errors1)); [intros f [p x] (? & _ & ?); done|]. intros [-> Hf].
  eapply spec_bind.
  { apply (spec_put _ _ (fun _ f '(p, x) => p = set_defaults defaults p0 ∧ At B (set_defaults defaults p0) f x)). naive_solver. }
  intros u. eapply spec_bind; [apply spec_total, (spec_guard_stage g ph (set_defaults defaults p0)); done|]. intros errors2.
  eapply spec_bind.
  { apply (spec_get _ (fun q f '(p, x) => p = q ∧ At B q f x ∧ ep_bypass q = ep_bypass p0 ∧ ep_defaults q = defaults ∧ Forall (fun r : ApplyResult => failed r) errors2 ∧ (errors2 = [] → ep_v6_cleanup q = []))).
    naive_solver. }
  intros q. apply (spec_pure _ (ep_bypass q = ep_bypass p0 ∧ ep_defaults q = defaults ∧ Forall (fun r : ApplyResult => failed r) errors2 ∧ (errors2 = [] → ep_v6_cleanup q = []))); [intros f [p x] (_ & _ & ?); done|].
  intros (Hbq & Hd & Hf2 & Hc). eapply spec_bind.
  { eapply spec_total, spec_weaken; [apply (spec_bypass_stage g ph q)|by intros f [p x] (-> & Ha & _)|intros a f y Hy; exact Hy|done]. }
  intros errors3. apply spec_lift.
  - unfold all. by destruct (dedup _).
  - intros [] f [p x] Ha%all_ok (Hat & Hd' & Hc' & _ & Hf3 & Hb). rewrite !Forall_app in Ha. destruct Ha as (H1 & H2 & H3). split; [|done].
    assert (errors1 = []) as He1 by (apply failed_nil; [|done]; clear -Hf; induction Hf; by constructor).
    apply failed_nil in H2; [|done]. apply failed_nil in H3; [|done]. rewrite He1 in Hf. apply Forall2_nil_inv_r in Hf. rewrite Hf in Hd.
    unfold record_keys. rewrite Hd', Hc', Hb, Hd, Hc by auto. done.
  - intros e f [p x] _ (Hat & _ & _ & Hsub & _). split; [by rewrite <-Hbq|done].
Qed.
End Down.

(** ** Bringing a full tunnel up *)

Context (HU : REDIRECTS ⊆ U) (Hfree : ∀ k, k ∈ REDIRECTS → t0 !! k = None).

(** The tables so far are good for the bypass routes on record. *)
Definition Own p : view := At (bkey <$> ep_bypass p) p.

(** Before anything redirects, they are good for any. *)
Definition Idle p : view := fun f x => ep_defaults p = [] ∧ ep_v6_cleanup p = [] ∧ ∀ B, At B p f x.

Lemma idle_own p f x : Idle p f x → Own p f x.
Proof. intros (_ & _ & Ha). apply Ha. Qed.

Lemma has_slash_cidr s : has "/" (cidr s) = true.
Proof.
  unfold cidr. destruct (has "/" s) eqn:Hs; [done|].
  destruct (has ":" s); unfold has; rewrite chars_append, existsb_app; apply orb_true_iff; by right.
Qed.
Lemma cidr_reachable s : cidr s ≠ "unreachable"%string.
Proof. intros He. pose proof (has_slash_cidr s) as Hs. by rewrite He in Hs. Qed.

Definition fresh p b : Prop := ¬ (bkey b ∈ record_keys p) ∧ bkey b ∈ U ∧ t0 !! bkey b = None ∧ ¬ (bkey b ∈ REDIRECTS).

Lemma idle_bypass p b r f x : fresh p b → Idle p f x → Idle (set_bypass (ep_bypass p ++ [b]) p) f (<[bkey b := r]> (cur x) :: x).
Proof.
  intros (Hn & HbU & H0 & Hr) (Hd & Hc & Ha). split; [done|]. split; [done|]. intros B.
  assert (PInv (set_bypass (ep_bypass p ++ [b]) p) (<[bkey b := r]> (cur x))) as Hi.
  { destruct (Ha []) as [_ Hi]. eapply (pinv_add (bkey b)); try done; [| |by left..|].
    - rewrite (perm_bypass _ (ep_bypass p) b []) by done. rewrite app_nil_r. by destruct p.
    - auto.
    - cbn. intros b'. rewrite elem_of_app, list_elem_of_singleton. intros [|<-]; auto. }
  split; [|done]. destruct (Ha B) as [Hh _]. apply hist_push; [done|]. eapply pinv_good; [done|]. by intros [?|?].
Qed.

Lemma spec_bypass_install p b gw phys : fresh p b →
  spec (Idle p) (bypass_install (H:=H) Linux b gw phys) (fun i f x => i = true ∧ Idle (set_bypass (ep_bypass p ++ [b]) p) f x) (fun _ => Idle p).
Proof.
  intros Hf. unfold bypass_install. eapply (spec_bind _ _ _ (fun _ => Idle p)); [by apply spec_ret|]. intros u.
  eapply (spec_bind _ _ _ (fun _ => Idle (set_bypass (ep_bypass p ++ [b]) p))); [|intros u'; by apply spec_ret].
  apply spec_route_command; [done|]. apply spec_unit. eapply (spec_change _ _ VReplace (mkSelector false (cidr b) (Some gw) (Some phys) None None)).
  - by apply ip_route_dst; [apply cidr_reachable|..].
  - intros o f x t' Hi ->. by apply idle_bypass.
  - done.
Qed.

Lemma spec_bypass_add p b gw phys : fresh p b →
  spec (Idle p) (bypass_add (H:=H) Linux b gw phys) (fun i => if i then Idle (set_bypass (ep_bypass p ++ [b]) p) else Idle p) (fun _ => Idle p).
Proof.
  intros Hf. assert (∀ gw phys, spec (Idle p) (bypass_install (H:=H) Linux b gw phys) (fun i => if i then Idle (set_bypass (ep_bypass p ++ [b]) p) else Idle p) (fun _ => Idle p)) as Hb.
  { intros g ph. eapply spec_weaken; [by apply spec_bypass_install|done| |done]. by intros i f x [-> Hi]. }
  unfold bypass_add. destruct (parses_v6 b); [|apply Hb]. eapply spec_bind; [apply spec_physical_v6|]. intros [[g ph]|]; [apply Hb|by apply spec_ret].
Qed.

(** A redirect goes in once the bypass routes are on record. *)
Lemma own_default p d f x : d ∈ SPLIT_DEFAULT → dkey d ∉ record_keys p → Own p f x →
  Own (set_defaults (ep_defaults p ++ [d]) p) f (<[dkey d := dev_route dev]> (cur x) :: x).
Proof.
  intros Hd Hn [Hh Hi]. assert (dkey d ∈ REDIRECTS) as Hr by (unfold REDIRECTS; rewrite elem_of_app; left; by apply list_elem_of_fmap_2).
  assert (PInv (set_defaults (ep_defaults p ++ [d]) p) (<[dkey d := dev_route dev]> (cur x))) as Hi'.
  { eapply (pinv_add (dkey d)); try done; [|by auto..| |by left|by left].
    - rewrite (perm_default _ (ep_defaults p) d []) by done. rewrite app_nil_r. by destruct p.
    - cbn. intros d'. rewrite elem_of_app, list_elem_of_singleton. intros [|<-]; auto. }
  split; [|done]. apply hist_push; [done|]. eapply pinv_good; [done|]. intros _. unfold record_keys. cbn. set_solver.
Qed.

Lemma own_guard p q f x : q ∈ V6_HALVES → gkey q ∉ record_keys p → Own p f x →
  Own (set_cleanup (ep_v6_cleanup p ++ [undo dev q]) p) f (<[gkey q := dev_route dev]> (cur x) :: x).
Proof.
  intros Hq Hn [Hh Hi]. assert (gkey q ∈ REDIRECTS) as Hr by (unfold REDIRECTS; rewrite elem_of_app; right; by apply list_elem_of_fmap_2).
  assert (PInv (set_cleanup (ep_v6_cleanup p ++ [undo dev q]) p) (<[gkey q := dev_route dev]> (cur x))) as Hi'.
  { eapply (pinv_add (gkey q)); try done; [|by auto..| | |by left].
    - rewrite (perm_guard _ (ep_v6_cleanup p) (undo dev q) []), undo_key_undo by done. rewrite app_nil_r. by destruct p.
    - by left.
    - cbn. intros c. rewrite elem_of_app, list_elem_of_singleton. intros [Hc| ->]; [by left|]. right. by exists q. }
  split; [|done]. apply hist_push; [done|]. eapply pinv_good; [done|]. intros _. unfold record_keys. cbn. set_solver.
Qed.

Lemma spec_default_up p d : d ∈ SPLIT_DEFAULT → dkey d ∉ record_keys p →
  spec (Own p) (route_replace (H:=H) Linux d dev) (fun _ => Own (set_defaults (ep_defaults p ++ [d]) p)) (fun _ => Own p).
Proof.
  intros Hd Hn. assert (has ":" d = false ∧ is_default_prefix d = false ∧ d ≠ "unreachable"%string) as (Hc & Hdef & Hu).
  { by destruct (split_cases d Hd) as [->| ->]. }
  apply spec_optional_v4; [done|]. unfold route_change_with. rewrite Hdef, Hc. apply spec_unit.
  eapply (spec_change _ _ VReplace (mkSelector false d None (Some dev) None None)).
  - by apply ip_route_dst.
  - intros o f x t' Ho ->. by apply own_default.
  - done.
Qed.

(** ** The guard *)

Definition block_cmd (q : string) : list string := ["ip"; "-6"; "route"; "add"; q; "dev"; dev; "metric"; "42760"]%string.

Lemma gkey_unrecorded p pre q post : V6_HALVES = pre ++ q :: post → gkey q ∉ record_keys (set_cleanup (undo dev <$> pre) p).
Proof.
  intros Hv Hin. assert (NoDup V6_HALVES) as Hnd by (repeat constructor; set_solver). rewrite Hv in Hnd. apply list.NoDup_app in Hnd as (_ & Hnd & _).
  unfold record_keys in Hin. cbn in Hin. rewrite !elem_of_app, !list_elem_of_fmap in Hin. destruct Hin as [(d & Hd & _)|[(c & Hc & Hcin)|(b & Hb & _)]]; [done| |done].
  apply list_elem_of_fmap in Hcin as (q' & -> & Hq'). rewrite undo_key_undo in Hc by (rewrite Hv; set_solver). injection Hc as ->. apply (Hnd q'); [done|by left].
Qed.

Lemma spec_v6_install p pre q post : V6_HALVES = pre ++ q :: post →
  spec (fun f '(pending, x) => pending = undo dev <$> pre ∧ Own (set_cleanup pending p) f x) (v6_install (H:=H) (block_cmd q, undo dev q))
    (fun _ f '(pending, x) => pending = undo dev <$> (pre ++ [q]) ∧ Own (set_cleanup pending p) f x)
    (fun _ f '(pending, x) => Own (set_cleanup pending p) f x).
Proof.
  intros Hv. assert (q ∈ V6_HALVES) as Hq by (rewrite Hv; set_solver). unfold v6_install. eapply spec_try.
  - apply (spec_host _ _ (fun _ f '(pending, x) => pending = undo dev <$> pre ∧ Own (set_cleanup (pending ++ [undo dev q]) p) f x)
      (fun _ f '(pending, x) => Own (set_cleanup pending p) f x)).
    intros pending. apply (spec_pure _ (pending = undo dev <$> pre)); [by intros f x []|]. intros Hp. apply spec_route_command; [done|]. apply spec_unit.
    eapply (spec_change _ _ VAdd (mkSelector false q None (Some dev) None (Some "42760"%string))).
    + by destruct (halves_cases q Hq) as [->| ->].
    + intros o f x t' [_ Ho] [_ ->]. split; [done|]. apply (own_guard (set_cleanup pending p)); [done| |done]. rewrite Hp. by eapply gkey_unrecorded.
    + by intros e f x [_ Ho] _.
  - intros u. eapply spec_bind.
    { apply (spec_get _ (fun l f '(pending, x) => l = undo dev <$> pre ∧ Own (set_cleanup (l ++ [undo dev q]) p) f x)). naive_solver. }
    intros l. apply spec_put. intros s f x [-> Ho]. split; [by rewrite fmap_app|done].
  - intros e. eapply (spec_bind _ _ _ (fun _ f '(pending, x) => Own (set_cleanup pending p) f x)); [|intros r; by apply spec_err].
    apply spec_tried. eapply spec_weaken; [apply (spec_v6_cleanup (bkey <$> ep_bypass p) p); done|done|by intros a f [? ?] []|done].
Qed.

Abbreviation Pend p := (fun (f : gmap string string) '(pending, x) => Own (set_cleanup pending p) f x).

Lemma spec_v6_legacy p c : c ∈ v6_legacy_cleanup_cmds Linux →
  spec (fun f '(pending, x) => pending = [] ∧ Pend p f (pending, x)) (v6_legacy (H:=H) c)
    (fun _ f '(pending, x) => pending = [] ∧ Pend p f (pending, x)) (fun _ => Pend p).
Proof.
  intros Hc. assert (∃ q, q ∈ V6_HALVES ∧ ip_route c = Some (VDel, mkSelector true q None None None (Some "42760"%string))) as (q & Hq & Hip).
  { unfold v6_legacy_cleanup_cmds, V6_HALVES in *. cbn in Hc. rewrite !elem_of_cons, elem_of_nil in Hc. destruct Hc as [->|[->|[]]]; (eexists; split; [|done]); set_solver. }
  unfold v6_legacy. eapply spec_try.
  - apply (spec_host _ _ (fun _ _ _ => False) (fun _ f '(pending, x) => pending = [] ∧ Pend p f (pending, x))). intros pending.
    apply spec_route_command; [done|]. apply spec_unit. eapply spec_change; [apply Hip| |done].
    intros o f x t' [-> [_ Hi]] ([d m] & r & Hk & Hs & _). unfold selects in Hs. rewrite !andb_true_iff in Hs.
    destruct Hs as [[[[[Hd%bool_decide_eq_true Hm%bool_decide_eq_true] _] _] _] _]. cbn in Hd, Hm. injection Hm as <-. subst d.
    destruct (pi_acc _ _ Hi (gkey q)) as [_ Hout]. change (q, "42760"%string) with (gkey q) in Hk. rewrite Hout in Hk.
    + rewrite Hfree in Hk; [done|]. unfold REDIRECTS. rewrite elem_of_app. right. by apply list_elem_of_fmap_2.
    + destruct (halves_cases q Hq) as [->| ->]; [by apply (gkey_unrecorded p [] _ ["8000::/1"%string])|].
      unfold record_keys. cbn. rewrite !elem_of_app, !list_elem_of_fmap. intros [(d & Hd & _)|(b & Hb & _)]; done.
  - intros u. by apply (spec_pure _ False).
  - intros e. case_bool_decide; [by apply spec_ret|apply spec_err]. by intros f [? ?] [].
Qed.

Lemma spec_v6_block_tracked p :
  spec (fun f '(pending, x) => pending = [] ∧ Pend p f (pending, x)) (v6_block_tracked (H:=H) Linux dev)
    (fun b f '(pending, x) => b = true ∧ pending = undo dev <$> V6_HALVES ∧ Pend p f (pending, x)) (fun _ => Pend p).
Proof.
  unfold v6_block_tracked. eapply (spec_bind _ _ _ (fun _ f '(pending, x) => pending = [] ∧ Pend p f (pending, x))).
  { eapply spec_weaken; [apply (spec_v6_cleanup (bkey <$> ep_bypass p) p); done|by intros f [? ?] []|done|done]. }
  intros u. eapply (spec_bind _ _ _ (fun _ f '(pending, x) => pending = [] ∧ Pend p f (pending, x))).
  { eapply spec_weaken; [apply (spec_for (fun l f '(pending, x) => l ⊆ v6_legacy_cleanup_cmds Linux ∧ pending = [] ∧ Pend p f (pending, x)) _ _ (fun _ => Pend p))|..].
    - intros c l. apply (spec_pure _ (c :: l ⊆ v6_legacy_cleanup_cmds Linux)); [by intros f [? ?] []|]. intros Hl.
      eapply spec_weaken; [apply (spec_v6_legacy p c); set_solver|by intros f [? ?] []| |done]. intros _ f [pending x] Hp. split; [set_solver|done].
    - by intros f [pending x] Hp.
    - by intros _ f [pending x] [_ Hp].
    - done. }
  intros u'. eapply (spec_bind _ _ _ (fun _ f '(pending, x) => pending = undo dev <$> V6_HALVES ∧ Pend p f (pending, x))).
  { eapply spec_weaken; [apply (spec_for (fun l f '(pending, x) => ∃ pre qs, V6_HALVES = pre ++ qs ∧ l = (fun q => (block_cmd q, undo dev q)) <$> qs ∧
      pending = undo dev <$> pre ∧ Pend p f (pending, x)) _ _ (fun _ => Pend p))|..].
    - intros c l h r h' Hp. destruct (kernel h) as [pending x] eqn:Hk. destruct Hp as (pre & [|q qs] & Hv & Hl & Hpre); [done|]. injection Hl as -> ->.
      intros Hr. epose proof (spec_v6_install p pre q qs Hv h r h') as Hi. rewrite Hk in Hi. specialize (Hi Hpre Hr). destruct r; [|done..].
      destruct (kernel h') as [pending' x']. exists (pre ++ [q]), qs. split; [by rewrite <-app_assoc|done].
    - intros f [pending x] Hp. exists [], V6_HALVES. done.
    - intros _ f [pending x] (pre & qs & Hv & Hl & Hp). symmetry in Hl. apply fmap_nil_inv in Hl as ->. by rewrite app_nil_r in Hv; subst pre.
    - done. }
  intros u''. eapply spec_bind; [apply (spec_get _ (fun l f '(pending, x) => pending = l ∧ l = undo dev <$> V6_HALVES ∧ Pend p f (pending, x))); naive_solver|].
  intros l. apply spec_ret. intros f [pending x] (-> & -> & Hp). done.
Qed.

Lemma spec_v6_block_up p :
  spec (fun f '(pending, x) => pending = [] ∧ Pend p f (pending, x)) (v6_block_up (H:=H) Linux dev)
    (fun b f '(pending, x) => pending = (if b then undo dev <$> V6_HALVES else []) ∧ Pend p f (pending, x)) (fun _ => Pend p).
Proof.
  unfold v6_block_up. eapply (spec_bind _ _ _ (fun _ f '(pending, x) => pending = [] ∧ Pend p f (pending, x))).
  { apply spec_host. intros pending. eapply (spec_try _ _ _ (fun _ f x => pending = [] ∧ Pend p f (pending, x)) (fun _ f x => pending = [] ∧ Pend p f (pending, x))).
    - by apply spec_read.
    - intros o. by apply spec_ret.
    - intros e. by apply spec_ret. }
  intros [|]; [by apply spec_ret|]. eapply spec_try; [apply spec_v6_block_tracked|intros b|intros e].
  - eapply spec_bind; [apply (spec_get _ (fun _ f '(pending, x) => pending = (if b then undo dev <$> V6_HALVES else []) ∧ Pend p f (pending, x)))|].
    + intros s f x (-> & -> & Hp). done.
    + intros l. by apply spec_ret.
  - eapply spec_bind; [apply (spec_get _ (fun l f '(pending, x) => pending = l ∧ Pend p f (pending, x))); done|]. intros l.
    case_bool_decide; [case_bool_decide|]; cbn [andb]; [apply spec_ret|apply spec_err..]; intros f [pending x] [-> Hp]; by subst.
Qed.

(** ** All of it *)

Abbreviation effects g ph := (exit_effect (H:=H) Linux dev g ph).

(** Destinations that can be bypassed: free, and no redirect. *)
Definition bypassable (l : list string) : Prop := NoDup (bkey <$> l) ∧ ∀ b, b ∈ l → bkey b ∈ U ∧ t0 !! bkey b = None ∧ ¬ (bkey b ∈ REDIRECTS).

Lemma spec_bypass_up g ph p b : fresh p b →
  spec (fun f '(p', x) => p' = p ∧ Idle p f x) (bypass_up (effects g ph) b)
    (fun _ f '(p', x) => (p' = p ∨ p' = set_bypass (ep_bypass p ++ [b]) p) ∧ Idle p' f x) (fun _ f '(p', x) => Idle p' f x).
Proof.
  intros Hf. unfold bypass_up. eapply (spec_bind _ _ _ (fun (i : bool) f '(p', x) => p' = p ∧ Idle (if i then set_bypass (ep_bypass p ++ [b]) p else p) f x)).
  - apply spec_guard. intros p'. apply spec_host. intros pending. apply (spec_pure _ (set_cleanup pending p' = p)); [by intros f x []|]. intros Hp.
    eapply spec_weaken; [by apply (spec_bypass_add p b g ph)|by intros f x []| |].
    + intros [] f x Hi; done.
    + intros e f x Hi. by rewrite Hp.
  - intros [|]; [|apply spec_ret; intros f [p' x] [-> Hi]; split; [by left|done]].
    eapply spec_bind; [apply (spec_get _ (fun q f '(p', x) => q = p ∧ Idle (set_bypass (ep_bypass p ++ [b]) p) f x)); naive_solver|].
    intros q. apply spec_put. intros s f x [-> Hi]. split; [by right|done].
Qed.

Lemma spec_bypasses g ph l : bypassable l →
  spec (fun f '(p, x) => ep_bypass p = [] ∧ Idle p f x) (for_each l (bypass_up (effects g ph)))
    (fun _ f '(p, x) => ep_bypass p ⊆ l ∧ Idle p f x) (fun _ f '(p, x) => Idle p f x).
Proof.
  intros [Hnd Hl]. set (I := fun l' f '(p, x) => bypassable l' ∧ (∀ b, b ∈ l' → bkey b ∉ record_keys p) ∧ ep_bypass p ⊆ l ∧ l' ⊆ l ∧ Idle p f x).
  eapply spec_weaken; [apply (spec_for I _ _ (fun _ f '(p, x) => Idle p f x))|..].
  - intros b l' h r h' Hp Hr. destruct (kernel h) as [p x] eqn:Hk. destruct Hp as ([Hn Hb] & Hrec & Hsub & Hsub' & Hi).
    apply list.NoDup_cons in Hn as [Hbn Hn]. destruct (Hb b) as (HbU & H0 & Hrd); [by left|].
    epose proof (spec_bypass_up g ph p b _ h r h') as Hs. rewrite Hk in Hs. specialize (Hs (conj eq_refl Hi) Hr).
    destruct (kernel h') as [p' x']. destruct r; [|done..]. destruct Hs as [Hp' Hi']. split; [split; [done|]|].
    + intros b' Hb'. apply Hb. by right.
    + split; [|split; [|split; [set_solver|done]]].
      * intros b' Hb' Hin. destruct Hp' as [->| ->]; [by apply (Hrec b'); [right|]|].
        rewrite (perm_bypass _ (ep_bypass p) b []) in Hin by done. apply elem_of_cons in Hin as [He|Hin].
        -- apply Hbn. rewrite <-He. by apply list_elem_of_fmap_2.
        -- rewrite app_nil_r in Hin. apply (Hrec b'); [by right|]. by destruct p.
      * destruct Hp' as [->| ->]; [done|]. cbn. set_solver.
    Unshelve. split; [by apply Hrec; left|done].
  - intros f [p x] [Hb Hi]. split; [done|]. split; [|split; [by rewrite Hb; intros ? ?%elem_of_nil|done]].
    intros b Hbl Hin. destruct Hi as (Hd & Hc & _). unfold record_keys in Hin. rewrite Hd, Hc, Hb in Hin. by apply elem_of_nil in Hin.
  - intros _ f [p x] (_ & _ & Hsub & _ & Hi). done.
  - done.
Qed.

Lemma spec_guard_up g ph (F : list string → Prop) :
  spec (fun f '(p, x) => F (ep_bypass p) ∧ Idle p f x) (on_guard (effects g ph GuardUp))
    (fun b f '(p, x) => F (ep_bypass p) ∧ ep_defaults p = [] ∧ ep_v6_cleanup p = (if b then undo dev <$> V6_HALVES else []) ∧ Own p f x) (fun _ f '(p, x) => Own p f x).
Proof.
  apply spec_guard. intros p. apply (spec_pure _ (F (ep_bypass p) ∧ ep_defaults p = [])); [by intros f [pending x] (? & ? & _)|]. intros [HF Hd].
  eapply spec_weaken; [apply (spec_v6_block_up p)|..].
  - intros f [pending x] [_ Hi]. destruct (Hi) as (_ & Hc & _). cbn in Hc. subst pending. split; [done|]. by apply idle_own in Hi.
  - intros b f [pending x] [-> Hp]. done.
  - by intros e f [pending x] Hp.
Qed.

Lemma dkey_unrecorded p pre d post t : SPLIT_DEFAULT = pre ++ d :: post → ep_defaults p = pre → PInv p t → dkey d ∉ record_keys p.
Proof.
  intros Hv Hd Hi Hin. assert (NoDup SPLIT_DEFAULT) as Hnd by (repeat constructor; set_solver). rewrite Hv in Hnd. apply list.NoDup_app in Hnd as (_ & Hnd & _).
  unfold record_keys in Hin. rewrite !elem_of_app, !list_elem_of_fmap in Hin. destruct Hin as [(d' & He & Hd')|[(c & He & Hc)|(b & He & Hb)]].
  - injection He as <-. apply (Hnd d); [by rewrite <-Hd|by left].
  - destruct (pi_guard _ _ Hi c Hc) as (q & Hq & -> & _). rewrite undo_key_undo in He by done. done.
  - apply (pi_bypass _ _ Hi b Hb). rewrite <-He. unfold REDIRECTS. rewrite elem_of_app. left. apply list_elem_of_fmap_2. rewrite Hv. set_solver.
Qed.

Lemma spec_default_step g ph p d : d ∈ SPLIT_DEFAULT → dkey d ∉ record_keys p →
  spec (fun f '(p', x) => p' = p ∧ Own p f x) (default_up (effects g ph) d)
    (fun _ f '(p', x) => p' = set_defaults (ep_defaults p ++ [d]) p ∧ Own p' f x) (fun _ f '(p', x) => Own p' f x).
Proof.
  intros Hd Hn. unfold default_up. eapply (spec_bind _ _ _ (fun _ f '(p', x) => p' = p ∧ Own (set_defaults (ep_defaults p ++ [d]) p) f x)).
  - apply spec_guard. intros p'. eapply (spec_bind _ _ _ (fun _ f '(pending, x) => set_cleanup pending p' = p ∧ Own (set_defaults (ep_defaults p ++ [d]) p) f x));
      [|intros u; by apply spec_ret]. apply spec_host. intros pending. apply (spec_pure _ (set_cleanup pending p' = p)); [by intros f x []|]. intros Hp.
    eapply spec_weaken; [by apply (spec_default_up p d)|by intros f x []|done|]. intros e f x Ho. by rewrite Hp.
  - intros u. eapply spec_bind; [apply (spec_get _ (fun q f '(p', x) => q = p ∧ Own (set_defaults (ep_defaults p ++ [d]) p) f x)); naive_solver|].
    intros q. apply spec_put. by intros s f x [-> Ho].
Qed.

Lemma spec_defaults_up g ph (F : ExitProgress → Prop) : (∀ l p, F p → F (set_defaults l p)) →
  spec (fun f '(p, x) => F p ∧ ep_defaults p = [] ∧ Own p f x) (for_each SPLIT_DEFAULT (default_up (effects g ph)))
    (fun _ f '(p, x) => F p ∧ ep_defaults p = SPLIT_DEFAULT ∧ Own p f x) (fun _ f '(p, x) => Own p f x).
Proof.
  intros HF. eapply spec_weaken; [apply (spec_for (fun l f '(p, x) => F p ∧ SPLIT_DEFAULT = ep_defaults p ++ l ∧ Own p f x) _ _ (fun _ f '(p, x) => Own p f x))|..].
  - intros d l h r h' Hp Hr. destruct (kernel h) as [p x] eqn:Hk. destruct Hp as (HFp & Hv & Ho).
    epose proof (spec_default_step g ph p d _ _ h r h') as Hs. rewrite Hk in Hs. specialize (Hs (conj eq_refl Ho) Hr).
    destruct (kernel h') as [p' x']. destruct r; [|done..]. destruct Hs as [-> Ho']. split; [by apply HF|]. split; [cbn; by rewrite <-app_assoc|done].
    Unshelve. { rewrite Hv. set_solver. } { destruct Ho as [_ Hi]. by eapply dkey_unrecorded. }
  - intros f [p x] (HFp & -> & Ho). done.
  - intros _ f [p x] (HFp & Hv & Ho). rewrite app_nil_r in Hv. done.
  - done.
Qed.

Definition complete_tunnel (bypass : list string) p : Prop :=
  ep_bypass p ⊆ bypass ∧ ep_defaults p = SPLIT_DEFAULT ∧ ep_v6_cleanup p = if ep_v6_blocked p then undo dev <$> V6_HALVES else [].

Lemma spec_exit_install g ph l : bypassable l →
  spec (fun f '(p, x) => ep_bypass p = [] ∧ Idle p f x) (exit_install (effects g ph) l)
    (fun _ f '(p, x) => complete_tunnel l p ∧ Own p f x) (fun _ f '(p, x) => Own p f x).
Proof.
  intros Hl. unfold exit_install. eapply spec_bind.
  { eapply spec_weaken; [by apply (spec_bypasses g ph l)|done|intros u f y Hy; exact Hy|]. intros e f [p x]. apply idle_own. }
  intros u. eapply spec_bind; [apply (spec_guard_up g ph (fun bs => bs ⊆ l))|]. intros b. eapply spec_bind.
  { apply (spec_get _ (fun q f '(p, x) => ep_bypass q ⊆ l ∧ ep_defaults q = [] ∧ ep_v6_cleanup q = (if b then undo dev <$> V6_HALVES else []) ∧ Own q f x)). done. }
  intros q. eapply spec_bind.
  { apply (spec_put _ _ (fun _ f '(p, x) => (ep_bypass p ⊆ l ∧ ep_v6_cleanup p = (if ep_v6_blocked p then undo dev <$> V6_HALVES else [])) ∧ ep_defaults p = [] ∧ Own p f x)).
    intros s f x (Hb & Hd & Hc & Ho). split; [done|]. split; [done|]. exact (at_blocked _ b q f x Ho). }
  intros u'. eapply spec_weaken; [apply (spec_defaults_up g ph (fun p => ep_bypass p ⊆ l ∧ ep_v6_cleanup p = (if ep_v6_blocked p then undo dev <$> V6_HALVES else [])))|..].
  - done.
  - done.
  - by intros _ f [p x] ([? ?] & ? & ?).
  - done.
Qed.
End Exit.

(** ** Runs *)

Section Runs.
Context {H : Type} `{!HostOs H} `{!HostLaws H (list rib)} `{!Serde Json} `{!RibLaws H}.
Context (dev : string) (t0 : rib) (U : list key).
Abbreviation bkeys p := (bkey <$> ep_bypass p).

(** From the record [p0] and the history [x0] to [p] and [x]: as long as traffic is redirected, first the
    bypass routes of [p0] stay, later those of [p]. *)
Definition Kept (p0 p : ExitProgress) (x0 x : list rib) : Prop := ∃ seg1 seg2 B, x = seg2 ++ seg1 ++ x0 ∧
  Forall (Good t0 U (bkeys p0)) seg1 ∧ Forall (Good t0 U B) seg2 ∧ bkeys p ⊆ B.

Lemma spec_down g ph p0 x0 :
  spec (fun f '(p, x) => p = p0 ∧ x = x0 ∧ PInv dev t0 U p0 (cur x0)) (cleanup_exit_with (exit_effect (H:=H) Linux dev g ph))
    (fun _ f '(p, x) => record_keys p = [] ∧ PInv dev t0 U p (cur x) ∧ ∃ seg, x = seg ++ x0 ∧ Forall (Good t0 U (bkeys p0)) seg)
    (fun _ f '(p, x) => ep_bypass p ⊆ ep_bypass p0 ∧ PInv dev t0 U p (cur x) ∧ ∃ seg, x = seg ++ x0 ∧ Forall (Good t0 U (bkeys p0)) seg).
Proof.
  eapply spec_weaken; [eapply (spec_cleanup dev t0 U x0) with (B := bkeys p0); done|..].
  - intros f [p x] (-> & -> & Hi). split; [done|]. split; [|done]. by exists [].
  - intros u f [p x] (Hr & (seg & -> & Hs) & Hi). split; [done|]. split; [done|]. by exists seg.
  - intros e f [p x] (Hb & (seg & -> & Hs) & Hi). split; [done|]. split; [done|]. by exists seg.
Qed.

Lemma empty_idle p x f : record_keys p = [] → PInv dev t0 U p (cur x) → ep_bypass p = [] ∧ Idle dev t0 U x p f x.
Proof.
  intros Hr Hi. assert (ep_defaults p = [] ∧ ep_v6_cleanup p = [] ∧ ep_bypass p = []) as (Hd & Hc & Hb).
  { unfold record_keys in Hr. apply app_nil in Hr as [Hd%fmap_nil_inv [Hc%fmap_nil_inv Hb%fmap_nil_inv]%app_nil]. done. }
  split; [done|]. split; [done|]. split; [done|]. intros B. split; [by exists []|done].
Qed.

Context (HU : REDIRECTS ⊆ U) (Hfree : ∀ k, k ∈ REDIRECTS → t0 !! k = None).

Lemma spec_up g ph l p0 x0 : bypassable t0 U l →
  spec (fun f '(p, x) => p = p0 ∧ x = x0 ∧ PInv dev t0 U p0 (cur x0)) (exit_up (H:=H) Linux dev g ph l)
    (fun b f '(p, x) => b = ep_v6_blocked p ∧ complete_tunnel dev l p ∧ PInv dev t0 U p (cur x) ∧ Kept p0 p x0 x)
    (fun _ f '(p, x) => PInv dev t0 U p (cur x) ∧ Kept p0 p x0 x).
Proof.
  intros Hl. unfold exit_up, exit_up_with. eapply spec_bind.
  { eapply spec_weaken; [apply (spec_down g ph p0 x0)|done|intros u f y Hy; exact Hy|].
    intros e f [p x] (_ & Hi & seg & -> & Hs). split; [done|]. exists seg, [], (bkeys p). by repeat constructor. }
  intros u. apply spec_ghost. intros [p1 xa]. apply (spec_pure _ (∃ seg, xa = seg ++ x0 ∧ Forall (Good t0 U (bkeys p0)) seg)).
  { by intros f [p x] [(_ & _ & Hs) [= -> ->]]. }
  intros (seg & Hxa & Hs). eapply spec_try.
  { eapply spec_weaken; [by apply (spec_exit_install dev t0 U xa HU Hfree g ph l)| |intros v f y Hy; exact Hy|intros e f y Hy; exact Hy].
    intros f [p x] [(Hr & Hi & _) [= -> ->]]. by apply empty_idle. }
  - intros v. eapply spec_bind; [apply (spec_get _ (fun q f '(p, x) => q = p ∧ complete_tunnel dev l p ∧ Own dev t0 U xa p f x)); done|].
    intros q. apply spec_ret. intros f [p x] (-> & Hc & (seg2 & -> & Hs2) & Hi). split; [done|]. split; [done|]. split; [done|].
    exists seg, seg2, (bkeys p). by rewrite Hxa.
  - intros e. apply spec_ghost. intros [p2 xb]. eapply (spec_bind _ _ _ (fun _ f '(p, x) => PInv dev t0 U p (cur x) ∧ Kept p0 p x0 x)).
    { apply spec_tried. eapply spec_weaken; [eapply (spec_cleanup dev t0 U xa) with (B := bkeys p2) (p0 := p2); done|..].
      - by intros f [p x] [Ho [= -> ->]].
      - intros v f [p x] (Hr & (seg2 & -> & Hs2) & Hi). split; [done|]. exists seg, seg2, (bkeys p2). rewrite Hxa. repeat (split; [done|]).
        destruct (empty_idle p (seg2 ++ xa) f Hr Hi) as [-> _]. by intros k ?%elem_of_nil.
      - intros e' f [p x] (Hsub & (seg2 & -> & Hs2) & Hi). split; [done|]. exists seg, seg2, (bkeys p2). rewrite Hxa. repeat (split; [done|]).
        intros k (b & -> & Hb)%list_elem_of_fmap. apply list_elem_of_fmap_2. auto. }
    intros [c|c|]; by apply spec_err.
Qed.
End Runs.
