(* ===== verification/Bypass.v ===== *)
(** * Carrier routes (node/src/bypass.rs)

    Routes that keep the traffic of the tunnel itself, and of the control plane, on the
    physical network.  A route is owned once an exclusive add of it succeeded; routes of
    others are borrowed and never touched. *)

From Stdlib Require Import Strings.Ascii Strings.String.
From S2P Require Import Prelude.
From S2P Require Import Words.
From S2P Require Import NetText.
From S2P Require Import Prefix.
From S2P Require Import RouteTable.
From S2P Require Import Apply.
From S2P Require Import Domain.
From S2P Require Import NodeConfig.
From S2P Require Import HostRun.
From S2P Require Import Rib.
From S2P Require Import HostRoutes.

Record Via := mkVia { gateway : string; iface : string }.
Record State := mkState { owned : gmap string Via; via_v4 : option Via; via_v6 : option Via }.

#[global] Instance Via_eq_dec : EqDecision Via.
Proof. solve_decision. Defined.

Definition state_default : State := mkState ∅ None None.

(** The keys of a [BTreeMap], and a [BTreeSet]. *)
Definition sorted_keys {T} (m : gmap string T) : list string := sort_by String.compare (map_to_list m).*1.
Definition sorted_set (l : list string) : list string := sort_by String.compare (remove_dups l).

Definition carrier_prefix (value : string) : res ApplyError string :=
  match from_str (chars value) with
  | Ok p => Ok (text (fmt_prefix p))
  | _ => Err (error_new ["bypass"%string; value] "invalid carrier prefix")
  end.

Definition route_command (os : RouteOs) (destination : string) (via : Via) (add : bool) : res ApplyError (list string) :=
  prefix ← carrier_prefix destination;
  let v6 := has ":" prefix in
  match os with
  | Linux => Ok ["ip"; if v6 then "-6" else "-4"; "route"; if add then "add" else "del"; prefix;
                 "via"; gateway via; "dev"; iface via; "proto"; "242"]%string
  | Macos => Ok ["route"; "-n"; if add then "add" else "delete"; if v6 then "-inet6" else "-inet"; "-net"; prefix; gateway via]%string
  | _ => Err (error_new ["bypass"%string] "unsupported host route platform")
  end.

Definition row_matches (via : Via) (owned : bool) (row : Json) : bool :=
  bool_decide (as_str (jget "gateway" row) = Some (gateway via)) && bool_decide (as_str (jget "dev" row) = Some (iface via))
  && (negb owned || bool_decide (as_u64 (jget "protocol" row) = Some 242) || bool_decide (as_str (jget "protocol" row) = Some "242"%string)).

Section Bypass.
Context {H : Type} `{!HostOs H} `{!Serde Json} (os : RouteOs).
Abbreviation host A := (st H ApplyError A).

Definition matches_route (destination : string) (via : Via) (owned : bool) : host bool :=
  prefix ← lift (carrier_prefix destination);
  match os with
  | Linux =>
      output ← run (show_exact (if has ":" prefix then "-6" else "-4")%string prefix) None;
      match of_text output with
      | Some routes => mret (match as_array routes with Some rows => existsb (row_matches via owned) rows | None => false end)
      | None => lift (Err (error_new ["bypass"; "inspect"]%string "invalid JSON"))
      end
  | Macos =>
      r ← attempt (run ["route"; "-n"; "get"; if has ":" prefix then "-inet6" else "-inet"; "-net"; prefix]%string None);
      match r with
      | Err e => if missing e then mret false else lift (Err e)
      | Ok output => mret (bool_decide (field "gateway:" output = Some (gateway via)) && bool_decide (field "interface:" output = Some (iface via)))
      | Panic => mret false
      end
  | _ => mret false
  end.

(** The destination is on a connected network already. *)
Definition connected (destination : string) (via : Via) : host bool :=
  match os with
  | Linux =>
      let ip := text (hd [] (split "/" (chars destination))) in
      current ← run ["ip"; if has ":" ip then "-6" else "-4"; "route"; "get"; ip]%string None;
      mret (negb (str_contains current " via ") && existsb (fun part => bool_decide (part = iface via)) (split_whitespace current))
  | _ => mret false
  end.

Definition add (destination : string) (via : Via) : host bool :=
  c ← connected destination via;
  if (c : bool) then mret false else
  command ← lift (route_command os destination via true);
  r ← attempt (run command None);
  match r with
  | Err e =>
      if str_contains (to_ascii_lowercase (stderr e)) "exist" then
        m ← matches_route destination via false;
        if (m : bool) then mret false else lift (Err e)
      else lift (Err e)
  | _ => mret true
  end.

Definition remove (destination : string) (via : Via) : host unit :=
  m ← matches_route destination via true;
  if negb m then mret tt else
  command ← lift (route_command os destination via false);
  r ← attempt (run command None);
  match r with Err e => if missing e then mret tt else lift (Err e) | _ => mret tt end.

(** ** Reconciling *)

Section Reconcile.
Context {T : Type} (add : string → host (option T)) (remove : string → T → host unit).
Abbreviation owning A := (st (gmap string T * H) ApplyError A).

(** [if let Some(via) = add(prefix)? { owned.insert(prefix, via); }]. *)
Definition take (prefix : string) : owning unit :=
  via ← on_host (add prefix);
  match via with Some via => owned ← get_state; put_state (<[prefix := via]> owned) | None => mret tt end.
Definition take_new (prefix : string) : owning unit :=
  owned ← get_state; match owned !! prefix with Some _ => mret tt | None => take prefix end.
Definition drop_old (prefix : string) : owning unit :=
  owned ← get_state;
  _ ← (match owned !! prefix with Some via => on_host (remove prefix via) | None => mret tt end);
  owned ← get_state; put_state (delete prefix owned).
Definition drop_new (prefix : string) : owning unit :=
  owned ← get_state;
  match owned !! prefix with Some via => _ ← on_host (remove prefix via); owned ← get_state; put_state (delete prefix owned) | None => mret tt end.

Definition reconcile (desired : list string) : owning unit :=
  before ← get_state;
  r ← attempt (_ ← for_each desired take_new;
               for_each (List.filter (fun p => negb (bool_decide (p ∈ desired))) (sorted_keys before)) drop_old);
  match r with
  | Err error =>
      owned ← get_state;
      errors1 ← try_each (List.filter (fun p => bool_decide (owned !! p = None)) (sorted_keys before)) take;
      owned ← get_state;
      errors2 ← try_each (List.filter (fun p => bool_decide (before !! p = None)) (sorted_keys owned)) drop_new;
      lift (all (Err error :: errors1 ++ errors2))
  | _ => mret tt
  end.
End Reconcile.

(** ** The routes of a node *)

Definition add_via (v4 v6 : option Via) (prefix : string) : host (option Via) :=
  match (if has ":" prefix then v6 else v4) with
  | None => if has ":" prefix then mret None else lift (Err (error_new ["bypass"%string; prefix] "no physical default route"))
  | Some via => installed ← add prefix via; mret (if (installed : bool) then Some via else None)
  end.

(** The physical routes, once found, stay. *)
Definition find_v4 (wanted : bool) (old : option Via) : host (option Via) :=
  match wanted, old with
  | true, None =>
      g ← default_gateway os; i ← physical_iface os;
      mret (match g, i with Some g, Some i => Some (mkVia g i) | _, _ => None end)
  | _, _ => mret old
  end.
Definition find_v6 (wanted : bool) (old : option Via) : host (option Via) :=
  match wanted, old with
  | true, None => r ← physical_v6_route os; mret ((fun r => mkVia r.1 r.2) <$> r)
  | _, _ => mret old
  end.

Definition with_owned {A} (m : st (gmap string Via * H) ApplyError A) : st (State * H) ApplyError A := fun '(s, h) =>
  let '(r, (o, h)) := m (owned s, h) in (r, (mkState o (via_v4 s) (via_v6 s), h)).

Definition sync (desired : list string) (retain : bool) : st (State * H) ApplyError unit :=
  desired ← lift (mapM carrier_prefix desired);
  s ← get_state;
  let desired := sorted_set (desired ++ if retain then sorted_keys (owned s) else []) in
  v4 ← on_host (find_v4 (negb (bool_decide (desired = []))) (via_v4 s));
  _ ← put_state (mkState (owned s) v4 (via_v6 s));
  v6 ← on_host (find_v6 (existsb (has ":") desired) (via_v6 s));
  _ ← put_state (mkState (owned s) v4 v6);
  with_owned (reconcile (add_via v4 v6) remove desired).
End Bypass.
