(* ===== verification/BypassSpec.v ===== *)
(** * What carrier routes do to the routing table

    [Owns]: the table is the one found, plus the owned routes.  Every table there is on the
    way has the routes that are owned before and still wanted. *)

From Stdlib Require Import Strings.Ascii Strings.String.
From S2P Require Import Prelude.
From S2P Require Import Words.
From S2P Require Import NetText.
From S2P Require Import Prefix.
From S2P Require Import RouteTable.
From S2P Require Import Apply.
From S2P Require Import Domain.
From S2P Require Import NodeConfig.
From S2P Require Import HostRun.
From S2P Require Import Rib.
From S2P Require Import HostRoutes.
From S2P Require Import ExitSpec.
From S2P Require Import Bypass.

Definition ckey (p : string) : key := (p, METRIC).
Definition carrier (via : Via) : Route := mkRoute (Some (gateway via)) (Some (iface via)) (Some "242"%string) false.

#[global] Instance ckey_inj : Inj (=) (=) ckey.
Proof. by intros p q [= ->]. Qed.

(** A prefix as [carrier_prefix] writes it. *)
Definition canonical (p : string) : Prop := carrier_prefix p = Ok p.

Lemma canonical_prefix v p : carrier_prefix v = Ok p → canonical p.
Proof.
  unfold canonical, carrier_prefix. destruct (from_str (chars v)) as [q| |] eqn:Hq; [|done..]. intros [= <-].
  rewrite list_ascii_of_string_of_list_ascii, from_str_fmt by (by eapply from_str_ok). done.
Qed.

Lemma canonical_reachable p : canonical p → p ≠ "unreachable"%string.
Proof. by intros Hc ->. Qed.

(** ... and that is none of the prefixes [D]. *)
Definition carriable (D : gset string) (p : string) : Prop := canonical p ∧ p ∉ D.

Section Spec.
Context {H : Type} `{!HostOs H} `{!HostLaws H (list rib)} `{!Serde Json} `{!RibLaws H}.
Context (t0 : rib) (D : gset string) (x1 : list rib) (K : gmap string Via).
Implicit Types (p : string) (o : gmap string Via) (t : rib) (x : list rib) (f : gmap string string) (via : Via).
Abbreviation view := (gmap string string → list rib → Prop).

Record Owns o t : Prop := mkOwns {
  ow_in p via : o !! p = Some via → t !! ckey p = Some (carrier via) ∧ t0 !! ckey p = None ∧ carriable D p;
  ow_out k : (∀ p, o !! p ≠ None → k ≠ ckey p) → t !! k = t0 !! k
}.

(** The tables since [x1], which all have the routes [K]. *)
Definition Carried x : Prop := ∃ seg, x = seg ++ x1 ∧ Forall (fun t => ∃ o, Owns o t ∧ K ⊆ o) seg.
Definition Has o : view := fun f x => Owns o (cur x) ∧ K ⊆ o ∧ Carried x.

Lemma carried_push o t x : Carried x → Owns o t → K ⊆ o → Carried (t :: x).
Proof. intros (seg & -> & Hs) Ho Hk. exists (t :: seg). split; [done|]. constructor; eauto. Qed.

Lemma owns_insert o t p via : Owns o t → o !! p = None → t !! ckey p = None → carriable D p → Owns (<[p := via]> o) (<[ckey p := carrier via]> t).
Proof.
  intros Ho Hp Ht Hc. assert (∀ q, o !! q ≠ None → ckey p ≠ ckey q) as Hne by (intros q Hq ->%(inj ckey); done).
  split.
  - intros q v. destruct (decide (q = p)) as [->|Hq].
    + rewrite !lookup_insert_eq. intros [= <-]. split; [done|]. split; [|done]. rewrite <-(ow_out _ _ Ho); done.
    + rewrite !lookup_insert_ne by (try intros ?%(inj ckey); congruence). apply Ho.
  - intros k Hk. assert (k ≠ ckey p) by (apply Hk; by rewrite lookup_insert_eq). rewrite lookup_insert_ne by done. apply Ho.
    intros q Hq. apply Hk. destruct (decide (p = q)) as [->|]; [by rewrite lookup_insert_eq|by rewrite lookup_insert_ne].
Qed.

Lemma owns_delete o t p via : Owns o t → o !! p = Some via → Owns (delete p o) (delete (ckey p) t).
Proof.
  intros Ho Hp. split.
  - intros q v Hq. apply lookup_delete_Some in Hq as [Hne Hq]. rewrite lookup_delete_ne by (intros ->%(inj ckey); done). by apply Ho.
  - intros k Hk. destruct (decide (k = ckey p)) as [->|Hne]; [rewrite lookup_delete_eq; symmetry; by apply (ow_in _ _ Ho p via)|].
    rewrite lookup_delete_ne by done. apply Ho. intros q Hq. destruct (decide (q = p)) as [->|]; [done|]. apply Hk. by rewrite lookup_delete_ne.
Qed.

Lemma spec_matches (P : view) p via (w : bool) (Q : bool → view) (E : ApplyError → view) : canonical p →
  (∀ (b : bool) (rows : list Json) f x, P f x → b = existsb (row_matches via w) rows → (∀ row, row ∈ rows → ∃ m r, cur x !! (p, m) = Some r ∧ row_of row r) →
     (∀ m r, cur x !! (p, m) = Some r → ∃ row, row ∈ rows ∧ row_of row r) → Q b f x) →
  (∀ e f x, P f x → E e f x) → spec P (matches_route (H:=H) Linux p via w) Q E.
Proof.
  intros Hc HQ HE. unfold matches_route. rewrite Hc. apply spec_pass. eapply spec_bind.
  - apply (spec_show _ _ _ (fun out f x => P f x ∧ ∃ rows, of_text out = Some (JArray rows) ∧
      (∀ row, row ∈ rows → ∃ m r, cur x !! (p, m) = Some r ∧ row_of row r) ∧ (∀ m r, cur x !! (p, m) = Some r → ∃ row, row ∈ rows ∧ row_of row r))).
    + intros out rows f x Hp Ht H1 H2. split; [done|]. by exists rows.
    + auto.
  - intros out. apply (spec_pure _ (∃ rows, of_text out = Some (JArray rows))); [intros f x (_ & rows & ? & _); by exists rows|]. intros [rows Hr].
    rewrite Hr. apply spec_ret. intros f x (Hp & rows' & Hr' & H1 & H2). injection Hr' as <-. by eapply HQ.
Qed.

Lemma spec_connected (P : view) p via (E : ApplyError → view) : (∀ e f x, P f x → E e f x) → spec P (connected (H:=H) Linux p via) (fun _ => P) E.
Proof.
  intros HE. unfold connected. eapply (spec_bind _ _ _ (fun _ => P)); [|intros o; by apply spec_ret]. apply spec_query; [done| |done|done].
  split; [done|]. right. set_solver.
Qed.

Lemma spec_add o p via : carriable D p → o !! p = None →
  spec (Has o) (add (H:=H) Linux p via) (fun b => if b then Has (<[p := via]> o) else Has o) (fun _ => Has o).
Proof.
  intros Hc Hp. unfold add. eapply spec_bind; [by apply (spec_connected (Has o))|]. intros [|]; [by apply spec_ret|].
  unfold route_command. rewrite (proj1 Hc). cbn [mbind res_bind]. apply spec_pass.
  eapply (spec_try _ _ _ (fun _ => Has (<[p := via]> o)) (fun _ => Has o)).
  - eapply (spec_change _ _ VAdd (mkSelector false p (Some (gateway via)) (Some (iface via)) (Some "242"%string) None)).
    + apply ip_route_dst; [apply canonical_reachable, Hc|done|done].
    + intros out f x t' (Ho & Hk & Hh) [Hn ->]. assert (Owns (<[p := via]> o) (<[ckey p := carrier via]> (cur x))) by (by apply owns_insert).
      assert (K ⊆ <[p := via]> o) by (etrans; [done|]; by apply insert_subseteq). split; [done|]. split; [done|]. by eapply carried_push.
    + done.
  - intros out. by apply spec_ret.
  - intros e. destruct (str_contains _ _); [|by apply spec_err]. eapply spec_bind; [apply (spec_matches (Has o) p via false (fun _ => Has o)); [apply Hc|done|done]|].
    intros [|]; [by apply spec_ret|by apply spec_err].
Qed.

Lemma spec_remove_carrier o p via : o !! p = Some via → K !! p = None →
  spec (Has o) (remove (H:=H) Linux p via) (fun _ => Has (delete p o)) (fun _ => Has o).
Proof.
  intros Hp HK. apply (spec_pure _ (carriable D p)); [intros f x [Ho _]; by apply (ow_in _ _ Ho p via)|]. intros Hc. unfold remove. eapply spec_bind.
  { apply (spec_matches (Has o) p via true (fun b f x => b = true ∧ Has o f x)); [apply Hc| |done]. intros b rows f x Hh -> _ Hr. split; [|done].
    destruct Hh as [Ho _]. destruct (ow_in _ _ Ho p via Hp) as (Ht & _ & _). destruct (Hr _ _ Ht) as (row & Hin & Hg & Hd & Hpr).
    apply existsb_exists. exists row. split; [by apply list_elem_of_In|]. unfold row_matches. rewrite Hg, Hd. cbn. rewrite !bool_decide_eq_true_2 by done. cbn.
    apply orb_true_iff. rewrite !bool_decide_eq_true. by apply Hpr. }
  intros b. apply (spec_pure _ (b = true)); [by intros f x []|]. intros ->. cbn [negb].
  unfold route_command. rewrite (proj1 Hc). cbn [mbind res_bind]. apply spec_pass.
  eapply (spec_try _ _ _ (fun _ => Has (delete p o)) (fun e f x => missing e = false ∧ Has o f x)).
  - set (s := mkSelector false p (Some (gateway via)) (Some (iface via)) (Some "242"%string) None).
    assert (∀ x, Owns o (cur x) → cur x !! route_key s = Some (carrier via) ∧ selects s (route_key s) (carrier via) = true) as Hsel.
    { intros x Ho. split; [by apply (ow_in _ _ Ho p via)|]. apply selects_all; cbn; try done; by apply bool_decide_eq_true_2. }
    eapply (spec_change _ _ VDel s).
    + apply ip_route_dst; [apply canonical_reachable, Hc|done|done].
    + intros out f x t' [_ (Ho & Hk & Hh)] Ht. destruct (Hsel x Ho) as [Hs1 Hs2]. apply (del_step _ _ _ _ Hs1 Hs2) in Ht as ->.
      assert (Owns (delete p o) (delete (ckey p) (cur x))) by (by eapply owns_delete).
      assert (K ⊆ delete p o) by (apply map_subseteq_spec; intros q v Hq; rewrite lookup_delete_ne by congruence; by eapply lookup_weaken).
      split; [done|]. split; [done|]. by eapply carried_push.
    + intros e f x [_ (Ho & Hh)] Hm. split; [|done]. destruct (missing e) eqn:He; [|done]. destruct (Hsel x Ho) as [Hs1 Hs2].
      rewrite (Hm eq_refl eq_refl _ _ Hs1) in Hs2. done.
  - intros out. by apply spec_ret.
  - intros e. destruct (missing e) eqn:He; [|apply spec_err; by intros f x []]. apply (spec_pure _ False); [intros f x [? _]; congruence|done].
Qed.
End Spec.

Lemma elem_of_sorted_keys {T} (m : gmap string T) p : p ∈ sorted_keys m ↔ m !! p ≠ None.
Proof.
  unfold sorted_keys. rewrite sort_by_perm, list_elem_of_fmap. split.
  - intros ([k v] & -> & Hk%elem_of_map_to_list). cbn. by rewrite Hk.
  - destruct (m !! p) as [v|] eqn:Hv; [|done]. intros _. exists (p, v). split; [done|]. by apply elem_of_map_to_list.
Qed.
Lemma NoDup_sorted_keys {T} (m : gmap string T) : NoDup (sorted_keys m).
Proof. unfold sorted_keys. rewrite sort_by_perm. apply NoDup_fst_map_to_list. Qed.

Lemma elem_of_lfilter {A} (g : A → bool) l x : x ∈ List.filter g l ↔ x ∈ l ∧ g x = true.
Proof. rewrite !list_elem_of_In. apply filter_In. Qed.
Lemma NoDup_lfilter {A} (g : A → bool) (l : list A) : NoDup l → NoDup (List.filter g l).
Proof.
  induction 1 as [|x l Hx _ IH]; cbn; [constructor|]. destruct (g x); [|done]. constructor; [|done]. by rewrite elem_of_lfilter; intros [? _].
Qed.

Section Reconcile.
Context {H : Type} `{!HostOs H} `{!HostLaws H (list rib)} `{!Serde Json} `{!RibLaws H}.
Context (t0 : rib) (D : gset string) (x1 : list rib) (v4 v6 : option Via).
Context (before : gmap string Via) (desired : list string) (Hdes : ∀ p, p ∈ desired → carriable D p).
Implicit Types (p : string) (l : list string).

(** What is owned and still wanted. *)
Definition still : gmap string Via := filter (fun x => x.1 ∈ desired) before.
Abbreviation Now := (fun f '(o, x) => Has t0 D x1 still o f x).
Abbreviation adds := (add_via (H:=H) Linux v4 v6).
Abbreviation removes := (remove (H:=H) Linux).

Lemma still_None p : p ∉ desired ∨ before !! p = None → still !! p = None.
Proof. intros Hp. apply map_lookup_filter_None. destruct Hp as [Hp|Hp]; [right; by intros v _|by left]. Qed.

Lemma spec_add_via o p : carriable D p → o !! p = None →
  spec (Has t0 D x1 still o) (adds p) (fun r f x => match r with Some via => Has t0 D x1 still (<[p := via]> o) f x | None => Has t0 D x1 still o f x end) (fun _ => Has t0 D x1 still o).
Proof.
  intros Hc Hp. unfold add_via. destruct (if has ":" p then v6 else v4) as [via|].
  - eapply spec_bind; [by apply spec_add|]. intros [|]; by apply spec_ret.
  - destruct (has ":" p); [by apply spec_ret|by apply spec_err].
Qed.

Lemma spec_take o p : carriable D p → o !! p = None →
  spec (fun f '(o', x) => o' = o ∧ Now f (o', x)) (take adds p)
    (fun _ f '(o', x) => (o' = o ∨ ∃ via, o' = <[p := via]> o) ∧ Now f (o', x)) (fun _ f '(o', x) => o' = o ∧ Now f (o', x)).
Proof.
  intros Hc Hp. unfold take. eapply (spec_bind _ _ _ (fun r f '(o', x) => o' = o ∧ Has t0 D x1 still (match r with Some via => <[p := via]> o | None => o end) f x)).
  - apply spec_host. intros o'. apply (spec_pure _ (o' = o)); [by intros f x []|]. intros ->.
    eapply spec_weaken; [by apply (spec_add_via o p)|by intros f x []| |done]. by intros [via|] f x Hh.
  - intros [via|]; [|apply spec_ret; intros f [o' x] [-> Hh]; split; [by left|done]].
    eapply spec_bind; [apply (spec_get _ (fun q f '(o', x) => q = o ∧ Has t0 D x1 still (<[p := via]> o) f x)); naive_solver|].
    intros q. apply spec_put. intros s f x [-> Hh]. split; [right; by exists via|done].
Qed.

Lemma spec_drop_carrier o p via : o !! p = Some via → still !! p = None →
  spec (fun f '(o', x) => o' = o ∧ Now f (o', x)) (on_host (removes p via)) (fun _ f '(o', x) => o' = o ∧ Has t0 D x1 still (delete p o) f x) (fun _ f '(o', x) => o' = o ∧ Now f (o', x)).
Proof.
  intros Hp Hs. apply spec_host. intros o'. apply (spec_pure _ (o' = o)); [by intros f x []|]. intros ->.
  eapply spec_weaken; [by apply (spec_remove_carrier t0 D x1 still o p via)|by intros f x []|done|done].
Qed.

Lemma spec_drop_new o p : still !! p = None →
  spec (fun f '(o', x) => o' = o ∧ Now f (o', x)) (drop_new removes p)
    (fun _ f '(o', x) => (o' = o ∨ o' = delete p o) ∧ Now f (o', x)) (fun _ f '(o', x) => o' = o ∧ Now f (o', x)).
Proof.
  intros Hs. unfold drop_new. eapply spec_bind; [apply (spec_get _ (fun q f '(o', x) => q = o ∧ o' = o ∧ Now f (o', x))); naive_solver|].
  intros q. apply (spec_pure _ (q = o)); [by intros f [? ?] []|]. intros ->. destruct (o !! p) as [via|] eqn:Hp.
  - eapply spec_bind; [eapply spec_weaken; [by apply (spec_drop_carrier o p via)|by intros f [? ?] []|intros a f y Hy; exact Hy|done]|]. intros u.
    eapply spec_bind; [apply (spec_get _ (fun q f '(o', x) => q = o ∧ Has t0 D x1 still (delete p o) f x)); naive_solver|].
    intros q. apply spec_put. intros s f x [-> Hh]. split; [by right|done].
  - apply spec_ret. intros f [o' x] (_ & -> & Hh). split; [by left|done].
Qed.

Lemma spec_drop_old o p : still !! p = None →
  spec (fun f '(o', x) => o' = o ∧ Now f (o', x)) (drop_old removes p) (fun _ f '(o', x) => o' = delete p o ∧ Now f (o', x)) (fun _ f '(o', x) => o' = o ∧ Now f (o', x)).
Proof.
  intros Hs. unfold drop_old. eapply spec_bind; [apply (spec_get _ (fun q f '(o', x) => q = o ∧ o' = o ∧ Now f (o', x))); naive_solver|].
  intros q. apply (spec_pure _ (q = o)); [by intros f [? ?] []|]. intros ->.
  eapply (spec_bind _ _ _ (fun _ f '(o', x) => o' = o ∧ Has t0 D x1 still (delete p o) f x)).
  - destruct (o !! p) as [via|] eqn:Hp.
    + eapply spec_weaken; [by apply (spec_drop_carrier o p via)|by intros f [? ?] []|done|done].
    + apply spec_ret. intros f [o' x] (_ & -> & Hh). by rewrite delete_id.
  - intros u. eapply spec_bind; [apply (spec_get _ (fun q f '(o', x) => q = o ∧ Has t0 D x1 still (delete p o) f x)); naive_solver|].
    intros q. apply spec_put. by intros s f x [-> Hh].
Qed.

(** A step of a loop over the owned routes, from its specification for each state. *)
Lemma spec_each {B : Type} (P : gmap string Via → Prop) (m : st (gmap string Via * H) ApplyError B) Q E :
  (∀ o, P o → spec (fun f '(o', x) => o' = o ∧ Now f (o', x)) m Q E) → spec (fun f '(o, x) => P o ∧ Now f (o, x)) m Q E.
Proof.
  intros Hm h r h' Hp Hr. destruct (kernel h) as [o x] eqn:Hk. destruct Hp as [Hp Hn]. specialize (Hm o Hp h r h'). rewrite Hk in Hm. by apply Hm.
Qed.

Lemma spec_take_all :
  spec (fun f '(o, x) => o = before ∧ Now f (o, x)) (for_each desired (take_new adds))
    (fun _ f '(o, x) => (∀ p, o !! p ≠ None → before !! p ≠ None ∨ p ∈ desired) ∧ Now f (o, x)) (fun _ => Now).
Proof.
  set (I := fun l f '(o, x) => (l ⊆ desired ∧ ∀ p, o !! p ≠ None → before !! p ≠ None ∨ p ∈ desired) ∧ Now f (o, x)).
  eapply spec_weaken; [apply (spec_for I _ _ (fun _ => Now))|..].
  - intros p l. apply (spec_each (fun o => p :: l ⊆ desired ∧ ∀ p, o !! p ≠ None → before !! p ≠ None ∨ p ∈ desired)). intros o [Hl Ho].
    unfold take_new. eapply spec_bind; [apply (spec_get _ (fun q f '(o', x) => q = o ∧ o' = o ∧ Now f (o', x))); naive_solver|].
    intros q. apply (spec_pure _ (q = o)); [by intros f [? ?] []|]. intros ->. destruct (o !! p) as [v|] eqn:Hp.
    + apply spec_ret. intros f [o' x] (_ & -> & Hh). split; [|done]. split; [set_solver|done].
    + eapply spec_weaken; [apply (spec_take o p); [|done]|by intros f [? ?] []| |by intros e f [o' x] []].
      * apply Hdes, Hl. by left.
      * intros _ f [o' x] [Hd Hh]. split; [|done]. split; [set_solver|]. destruct Hd as [->|[via ->]]; [done|].
        intros p'. destruct (decide (p' = p)) as [->|]; [intros _; right; apply Hl; by left|]. rewrite lookup_insert_ne by done. apply Ho.
  - intros f [o x] [-> Hh]. split; [|done]. split; [done|]. by left.
  - by intros _ f [o x] [[_ Ho] Hh].
  - done.
Qed.

Lemma spec_drop_all :
  spec (fun f '(o, x) => (∀ p, o !! p ≠ None → before !! p ≠ None ∨ p ∈ desired) ∧ Now f (o, x))
    (for_each (List.filter (fun p => negb (bool_decide (p ∈ desired))) (sorted_keys before)) (drop_old removes))
    (fun _ f '(o, x) => (∀ p, o !! p ≠ None → p ∈ desired) ∧ Now f (o, x)) (fun _ => Now).
Proof.
  set (I := fun l f '(o, x) => ((∀ p, p ∈ l → p ∉ desired) ∧ ∀ p, o !! p ≠ None → p ∈ desired ∨ p ∈ l) ∧ Now f (o, x)).
  eapply spec_weaken; [apply (spec_for I _ _ (fun _ => Now))|..].
  - intros p l. apply (spec_each (fun o => (∀ q, q ∈ p :: l → q ∉ desired) ∧ ∀ q, o !! q ≠ None → q ∈ desired ∨ q ∈ p :: l)). intros o [Hl Ho].
    eapply spec_weaken; [apply (spec_drop_old o p)|done| |by intros e f [o' x] []].
    + apply still_None. left. apply Hl. by left.
    + intros _ f [o' x] [-> Hh]. split; [|done]. split; [intros q Hq; apply Hl; by right|]. intros q Hq.
      destruct (decide (q = p)) as [->|]; [by rewrite lookup_delete_eq in Hq|]. rewrite lookup_delete_ne in Hq by done.
      destruct (Ho q Hq) as [|Hin]; [by left|]. apply elem_of_cons in Hin as [|]; [done|by right].
  - intros f [o x] [Ho Hh]. split; [|done]. split.
    + intros p [_ Hp]%elem_of_lfilter. by apply negb_true_iff, bool_decide_eq_false in Hp.
    + intros p Hp. destruct (decide (p ∈ desired)) as [|Hn]; [by left|]. right. apply elem_of_lfilter. rewrite elem_of_sorted_keys, negb_true_iff, bool_decide_eq_false.
      split; [|done]. by destruct (Ho p Hp).
  - intros _ f [o x] [[_ Ho] Hh]. split; [|done]. intros p Hp. destruct (Ho p Hp) as [|Hn]; [done|by apply elem_of_nil in Hn].
  - done.
Qed.

Lemma spec_restore_carriers o0 : (∀ p, before !! p ≠ None → carriable D p) →
  spec (fun f '(o, x) => o = o0 ∧ Now f (o, x)) (try_each (List.filter (fun p => bool_decide (o0 !! p = None)) (sorted_keys before)) (take adds)) (fun _ => Now) (fun _ => Now).
Proof.
  intros Hc. set (I := fun l f '(o, x) => (NoDup l ∧ ∀ p, p ∈ l → o !! p = None ∧ carriable D p) ∧ Now f (o, x)).
  eapply spec_weaken; [apply (spec_try_each I _ _ (fun _ => Now))|..].
  - intros p l. apply (spec_each (fun o => NoDup (p :: l) ∧ ∀ q, q ∈ p :: l → o !! q = None ∧ carriable D q)). intros o [Hn Hl].
    apply list.NoDup_cons in Hn as [Hp Hn]. destruct (Hl p) as [Hop Hcp]; [by left|]. eapply spec_weaken; [by apply (spec_take o p)|done|..].
    + intros _ f [o' x] [Ho Hh]. split; [|done]. split; [done|]. intros q Hq. destruct (Hl q) as [Hoq Hcq]; [by right|]. split; [|done].
      destruct Ho as [->|[via ->]]; [done|]. rewrite lookup_insert_ne by (intros ->; done). done.
    + intros e f [o' x] [-> Hh]. split; [|done]. split; [done|]. intros q Hq. apply Hl. by right.
  - intros f [o x] [-> Hh]. split; [|done]. split; [apply NoDup_lfilter, NoDup_sorted_keys|].
    intros p [Hp%elem_of_sorted_keys Hn%bool_decide_eq_true]%elem_of_lfilter. auto.
  - by intros _ f [o x] [_ Hh].
  - done.
Qed.

Lemma spec_release_carriers l : (∀ p, p ∈ l → before !! p = None) → spec Now (try_each l (drop_new removes)) (fun _ => Now) (fun _ => Now).
Proof.
  intros Hl. eapply spec_weaken; [apply (spec_try_each (fun l f '(o, x) => (∀ p, p ∈ l → before !! p = None) ∧ Now f (o, x)) _ _ (fun _ => Now))|..].
  - intros p l'. apply (spec_each (fun _ => ∀ q, q ∈ p :: l' → before !! q = None)). intros o Hp.
    eapply spec_weaken; [apply (spec_drop_new o p)|done|..].
    + apply still_None. right. apply Hp. by left.
    + intros _ f [o' x] [_ Hh]. split; [|done]. intros q Hq. apply Hp. by right.
    + intros e f [o' x] [_ Hh]. split; [|done]. intros q Hq. apply Hp. by right.
  - by intros f [o x] Hh.
  - by intros _ f [o x] [_ Hh].
  - done.
Qed.

Lemma spec_reconcile :
  spec (fun f '(o, x) => o = before ∧ Now f (o, x)) (reconcile adds removes desired)
    (fun _ f '(o, x) => (∀ p, o !! p ≠ None → p ∈ desired) ∧ Now f (o, x)) (fun _ => Now).
Proof.
  apply (spec_pure _ (∀ p, before !! p ≠ None → carriable D p)).
  { intros f [o x] [-> [Ho _]] p Hp. destruct (before !! p) as [v|] eqn:Hv; [|done]. by apply (ow_in _ _ _ _ Ho p v). }
  intros Hc. unfold reconcile. eapply spec_bind; [apply (spec_get _ (fun q f '(o, x) => q = before ∧ o = before ∧ Now f (o, x))); naive_solver|].
  intros q. apply (spec_pure _ (q = before)); [by intros f [? ?] []|]. intros ->. eapply spec_try.
  - eapply spec_bind; [eapply spec_weaken; [apply spec_take_all|by intros f [? ?] []|intros a f y Hy; exact Hy|intros e f y Hy; exact Hy]|].
    intros u. apply spec_drop_all.
  - intros u. by apply spec_ret.
  - intros e. eapply spec_bind; [apply (spec_get _ (fun q f '(o, x) => o = q ∧ Now f (o, x))); done|]. intros o1.
    eapply spec_bind; [by apply spec_restore_carriers|]. intros es1. eapply spec_bind; [apply (spec_get _ (fun q => Now)); done|]. intros o2.
    eapply spec_bind; [apply spec_release_carriers|].
    { intros p [_ Hp%bool_decide_eq_true]%elem_of_lfilter. done. }
    intros es2. apply spec_lift; [unfold all; by destruct (dedup _)|..]; [|done]. intros [] f [o x] Ha%all_ok. inversion Ha as [|? ? He]. done.
Qed.
End Reconcile.

(** ** The routes of a node *)

Lemma mapM_elem {A B E} (g : A → res E B) (l : list A) (k : list B) : mapM g l = Ok k → ∀ y, y ∈ k ↔ ∃ a, a ∈ l ∧ g a = Ok y.
Proof.
  revert k. induction l as [|a l IH]; cbn; intros k Hm y.
  - injection Hm as <-. split; [by intros ?%elem_of_nil|]. by intros (z & ?%elem_of_nil & _).
  - apply bind_Ok_inv in Hm as (b & Hb & Hm). apply bind_Ok_inv in Hm as (k' & Hk & [= <-]). rewrite elem_of_cons, (IH k' Hk). split.
    + intros [->|(z & Hz & Hy)]; [exists a; split; [by left|done]|exists z; split; [by right|done]].
    + intros (z & [->|Hz]%elem_of_cons & Hy); [left; congruence|right; eauto].
Qed.
Lemma mapM_no_panic {A B E} (g : A → res E B) (l : list A) : (∀ a, g a ≠ Panic) → mapM g l ≠ Panic.
Proof.
  intros Hg. induction l as [|a l IH]; cbn; [done|]. specialize (Hg a). destruct (g a); [|done..]. cbn. by destruct (mapM g l).
Qed.

Section Sync.
Context {H : Type} `{!HostOs H} `{!HostLaws H (list rib)} `{!Serde Json} `{!RibLaws H}.
Context (t0 : rib) (D : gset string).
Implicit Types (p : string) (s : State) (x : list rib).

(** Wanted by a synchronisation: named by it, or retained. *)
Definition wanted s (desired : list string) (retain : bool) p : Prop :=
  (∃ v, v ∈ desired ∧ carrier_prefix v = Ok p) ∨ retain = true ∧ owned s !! p ≠ None.

(** What was owned and is wanted stays, in every table on the way; whatever else changes is accounted for. *)
Definition Synced (desired : list string) (retain : bool) s0 s (x0 x : list rib) : Prop :=
  Owns t0 D (owned s) (cur x) ∧ ∃ seg, x = seg ++ x0 ∧ Forall (fun t => ∃ o, Owns t0 D o t) seg ∧
    ∀ p via, owned s0 !! p = Some via → wanted s0 desired retain p → owned s !! p = Some via ∧ Forall (fun t => t !! ckey p = Some (carrier via)) seg.

Lemma spec_owned {T : Type} (P : gmap string string → State * list rib → Prop) (m : st (gmap string Via * H) ApplyError T) Q E :
  (∀ s, spec (fun f '(o, x) => P f (mkState o (via_v4 s) (via_v6 s), x)) m (fun a f '(o, x) => Q a f (mkState o (via_v4 s) (via_v6 s), x))
          (fun e f '(o, x) => E e f (mkState o (via_v4 s) (via_v6 s), x))) → spec P (with_owned m) Q E.
Proof.
  intros Hm [s h] r h' Hp. unfold with_owned. destruct (m (owned s, h)) as [y [o h1]] eqn:Hy.
  assert (P (files h) (mkState (owned s) (via_v4 s) (via_v6 s), kernel h)) as Hp' by (by destruct s).
  specialize (Hm s (owned s, h) y (o, h1) Hp' Hy). by intros [= <- <-].
Qed.

Lemma spec_default_query (P : gmap string string → list rib → Prop) : spec P (physical_default (H:=H) Linux) (fun _ => P) (fun _ => P).
Proof. apply spec_query; [done| |done|done]. split; [done|]. left. set_solver. Qed.

Lemma spec_find_v4 (P : gmap string string → list rib → Prop) b old : spec P (find_v4 (H:=H) Linux b old) (fun _ => P) (fun _ => P).
Proof.
  unfold find_v4. destruct b, old; try (by apply spec_ret). unfold default_gateway, physical_iface.
  repeat (eapply (spec_bind _ _ _ (fun _ => P)); [|intros ?]); try (by apply spec_ret); apply spec_default_query.
Qed.
Lemma spec_find_v6 (P : gmap string string → list rib → Prop) b old : spec P (find_v6 (H:=H) Linux b old) (fun _ => P) (fun _ => P).
Proof.
  unfold find_v6. destruct b, old; try (by apply spec_ret). eapply (spec_bind _ _ _ (fun _ => P)); [apply spec_physical_v6|intros r; by apply spec_ret].
Qed.

Lemma elem_of_sorted_set l p : p ∈ sorted_set l ↔ p ∈ l.
Proof. unfold sorted_set. rewrite sort_by_perm. apply elem_of_remove_dups. Qed.

Lemma synced_refl desired retain s v4 v6 x : Owns t0 D (owned s) (cur x) → Synced desired retain s (mkState (owned s) v4 v6) x x.
Proof. intros Ho. split; [done|]. exists []. by repeat split. Qed.

Lemma spec_sync s0 x0 desired retain : (∀ v p, v ∈ desired → carrier_prefix v = Ok p → p ∉ D) →
  spec (fun f '(s, x) => s = s0 ∧ x = x0 ∧ Owns t0 D (owned s0) (cur x0)) (sync (H:=H) Linux desired retain)
    (fun _ f '(s, x) => (∀ p, owned s !! p ≠ None → wanted s0 desired retain p) ∧ Synced desired retain s0 s x0 x)
    (fun _ f '(s, x) => Synced desired retain s0 s x0 x).
Proof.
  intros HD. unfold sync. destruct (mapM carrier_prefix desired) as [ds|e|] eqn:Hm.
  2: { eapply (spec_bind _ _ _ (fun _ _ _ => False)); [|intros a; by apply (spec_pure _ False)]. apply spec_err.
       intros f [s x] (-> & -> & Ho). by destruct s0; apply synced_refl. }
  2: { exfalso. revert Hm. apply mapM_no_panic. intros v. unfold carrier_prefix. by destruct (from_str _). }
  apply spec_pass. eapply spec_bind; [apply (spec_get _ (fun q f '(s, x) => q = s0 ∧ s = s0 ∧ x = x0 ∧ Owns t0 D (owned s0) (cur x0))); naive_solver|].
  intros q. apply (spec_pure _ (q = s0)); [by intros f [? ?] []|]. intros ->. set (all_ds := sorted_set _).
  assert (∀ p, p ∈ all_ds ↔ wanted s0 desired retain p) as Hw.
  { intros p. unfold all_ds, wanted. rewrite elem_of_sorted_set, elem_of_app, (mapM_elem _ _ _ Hm). destruct retain; [rewrite elem_of_sorted_keys; naive_solver|].
    rewrite elem_of_nil. naive_solver. }
  set (R := fun (f : gmap string string) '(s, x) => owned s = owned s0 ∧ x = x0 ∧ Owns t0 D (owned s0) (cur x0)).
  assert (∀ f s x, R f (s, x) → Synced desired retain s0 s x0 x) as HR.
  { intros f s x (Ho & -> & Hx). destruct s as [o v4 v6]; cbn in Ho; subst o. by apply synced_refl. }
  eapply (spec_bind _ _ _ (fun _ => R)).
  { apply spec_host. intros s. eapply spec_weaken; [apply (spec_find_v4 (fun f x => R f (s, x)))|intros f x (_ & -> & Hx); done|done|intros e f x; by apply HR]. }
  intros v4. eapply (spec_bind _ _ _ (fun _ => R)); [apply spec_put; by intros s f x (_ & Hx)|]. intros u.
  eapply (spec_bind _ _ _ (fun _ => R)).
  { apply spec_host. intros s. eapply spec_weaken; [apply (spec_find_v6 (fun f x => R f (s, x)))|done|done|intros e f x; by apply HR]. }
  intros v6. eapply (spec_bind _ _ _ (fun _ => R)); [apply spec_put; by intros s f x (_ & Hx)|]. intros u'.
  apply spec_owned. intros s. apply (spec_pure _ (Owns t0 D (owned s0) (cur x0))); [by intros f [o x] (_ & _ & Hx)|]. intros Hown.
  assert (∀ o x, Has t0 D x0 (still (owned s0) all_ds) o ∅ x → Synced desired retain s0 (mkState o (via_v4 s) (via_v6 s)) x0 x) as HS.
  { intros o x (Ho & Hk & seg & -> & Hs). split; [done|]. exists seg. split; [done|]. split; [by eapply list.Forall_impl; [exact Hs|]; intros t (o' & Ho' & _); exists o'|].
    intros p via Hp Hpw. assert (still (owned s0) all_ds !! p = Some via) as Hst by (apply map_lookup_filter_Some; split; [done|]; by apply Hw).
    split; [by eapply lookup_weaken|]. eapply list.Forall_impl; [exact Hs|]. intros t (o' & Ho' & Hk'). eapply ow_in; [exact Ho'|]. by eapply lookup_weaken. }
  eapply spec_weaken; [apply (spec_reconcile t0 D x0 v4 v6 (owned s0) all_ds)|..].
  - intros p [(v & Hvin & Hv)|[_ Hp]]%Hw; [split; [by eapply canonical_prefix|by eapply HD]|]. destruct (owned s0 !! p) as [via|] eqn:Hv; [|done]. by apply (ow_in _ _ _ _ Hown p via).
  - intros f [o x] (Ho & -> & Hx). cbn in Ho. split; [done|]. rewrite Ho. split; [done|]. split; [apply map_filter_subseteq|]. by exists [].
  - intros _ f [o x] [Hp Hh]. split; [intros p Hp'; by apply Hw, Hp|by apply HS].
  - intros e f [o x] Hh. by apply HS.
Qed.
End Sync.
