(* ===== verification/HostEffects.v ===== *)
(** * The node's effects on the host (node/lib.rs [HostEffects], node/apply.rs [Routes])

    One pass retires an exit that is no longer selected, synchronises the routes of the
    carriers, then the overlay's routes, the full tunnel, the name servers and the gateway
    rules.  The runtime lock and the shutdown gate make each of [retire], [sync_bypass],
    [guard_carriers], [effects] (the rest of [tick]) and [cleanup] one step.  The backends
    of the resolver (the trait [Dns]), the firewall (the trait [Firewall]) and the kill switch
    are classes; the platform is Linux.  What is asked of a name server ([resolve]), the clock, and the order of a
    [HashSet] ([SetOrder]) are arguments. *)

From Stdlib Require Import Strings.Ascii Strings.String.
From S2P Require Import Prelude.
From S2P Require Import Words.
From S2P Require Import NetAddr.
From S2P Require Import NetText.
From S2P Require Import Instant.
From S2P Require Import Prefix.
From S2P Require Import RouteTable.
From S2P Require Import Apply.
From S2P Require Import Domain.
From S2P Require Import NodeConfig.
From S2P Require Import HostRun.
From S2P Require Import HostRoutes.
From S2P Require Import Bypass.

(** The order in which a [HashSet] is iterated is unspecified. *)
Class SetOrder := {
  set_items : gset string → list string;
  set_items_perm : ∀ s, set_items s ≡ₚ elements s
}.

(** ** Computations on a part of the state *)

Definition zoom {S T H E A} (get : T → S) (put : S → T → T) (m : st (S * H) E A) : st (T * H) E A := fun '(t, h) =>
  let '(r, (s, h)) := m (get t, h) in (r, (put s t, h)).
Definition modify_state {S H E} (g : S → S) : st (S * H) E unit := s ← get_state; put_state (g s).

(** ** Overlay routes *)

Record Routes := mkRoutes { installed : gset string; skipped : gmap string (Z * Z * ApplyError) }.

Section OverlayRoutes.
Context {H : Type} `{!SetOrder}.
Context (epoch now : Z) (add : string → st H ApplyError RouteOutcome) (remove : string → st H ApplyError unit).
Abbreviation routing A := (st (Routes * H) ApplyError A).

Definition drop_route (prefix : string) : routing unit :=
  _ ← on_host (remove prefix);
  modify_state (fun s => mkRoutes (installed s ∖ {[prefix]}) (skipped s)).

Definition waits (s : Routes) (prefix : string) : bool :=
  match skipped s !! prefix with Some (old, next, _) => bool_decide (old = epoch) && (now <? next) | None => false end.

Definition add_route (prefix : string) : routing unit :=
  s ← get_state;
  if waits s prefix then mret tt else
  r ← attempt (on_host (add prefix));
  match r with
  | Ok Installed => put_state (mkRoutes ({[prefix]} ∪ installed s) (delete prefix (skipped s)))
  | Ok (Skipped e) => put_state (mkRoutes (installed s) (<[prefix := (epoch, now + 60 * NANOSECOND, e)]> (skipped s)))
  | Err e => _ ← put_state (mkRoutes (installed s) (delete prefix (skipped s))); lift (Err e)
  | Panic => mret tt
  end.

Definition sync_routes (desired : gset string) : routing unit :=
  _ ← modify_state (fun s => mkRoutes (installed s) (filter (fun x => x.1 ∈ desired) (skipped s)));
  s ← get_state;
  errors1 ← try_each (set_items (installed s ∖ desired)) drop_route;
  s ← get_state;
  errors2 ← try_each (set_items (desired ∖ installed s)) add_route;
  lift (all (errors1 ++ errors2)).
End OverlayRoutes.

Section SyncHost.
Context {H : Type} `{!HostOs H} `{!SetOrder}.

Definition host_prefixes (peers : list PeerInfo) (own_cidr : string) : list string :=
  List.filter (fun s => negb (is_default_prefix s)) (concat (pi_allowed_ips <$> peers) ++ if bool_decide (own_cidr = ""%string) then [] else [own_cidr]).
Definition sync_host (peers : list PeerInfo) (own_cidr dev : string) (epoch now : Z) : st (Routes * H) ApplyError unit :=
  sync_routes epoch now (fun p => route_replace Linux p dev) (fun p => route_del Linux p dev) (list_to_set (host_prefixes peers own_cidr)).
End SyncHost.

(** ** Name servers *)

(** dns.rs: the trait [Dns], for the node's interface. *)
Class DnsBackend (H : Type) := {
  set_mode : string → bool → st H ApplyError unit;
  clear : st H ApplyError unit;
  owned_dns : st H ApplyError bool;
  verify_file : st H ApplyError unit
}.

Record DnsInstall := mkDnsInstall { dns_applied : option string; dns_dirty : bool }.

Section Dns.
Context {H : Type}.

Definition sync_dns_with (desired : option string) (set : string → st H ApplyError unit) (reset : st H ApplyError unit)
    : st (DnsInstall * H) ApplyError unit :=
  s ← get_state;
  match desired with
  | Some dns =>
      if negb (bool_decide (dns_applied s = Some dns)) || dns_dirty s then
        _ ← put_state (mkDnsInstall (dns_applied s) true);
        _ ← on_host (set dns);
        put_state (mkDnsInstall (Some dns) false)
      else mret tt
  | None =>
      if bool_decide (is_Some (dns_applied s)) || dns_dirty s then
        _ ← on_host reset;
        put_state (mkDnsInstall None false)
      else mret tt
  end.

(** The second component of the state: whether the resolver is installed for a full tunnel. *)
Definition sync_dns_mode_with (desired : option string) (full : bool) (set : string → bool → st H ApplyError unit)
    (reset verify : st H ApplyError unit) : st (DnsInstall * bool * H) ApplyError unit :=
  _ ← modify_state (fun '(s, installed_full) =>
    (if negb (Bool.eqb installed_full full) && bool_decide (is_Some desired) then mkDnsInstall (dns_applied s) true else s, full));
  _ ← zoom fst (fun s x => (s, x.2)) (sync_dns_with desired (fun dns => set dns full) reset);
  if full && bool_decide (is_Some desired) then on_host verify else mret tt.

Context `{!DnsBackend H}.
Definition set_dns (dns : string) (full : bool) : st H ApplyError unit :=
  let servers := split_whitespace dns in
  if bool_decide (servers = []) || existsb (fun s => bool_decide (parse_ip (chars s) = None)) servers
  then lift (Err (error_new ["DNS"; "set"]%string "DNS servers must be IP addresses"))
  else set_mode dns full.
Definition reset_dns : st H ApplyError unit := clear.
End Dns.

(** ** Gateway rules *)

(** firewall.rs: the trait [Firewall] and the functions that find a backend and recover the
    rules of an earlier run. *)
Class Firewall (H B : Type) := {
  detect : st H ApplyError B;
  has_lease : string → st H ApplyError bool;
  recover : string → st H ApplyError unit;
  fw_up : B → string → string → string → bool → st H ApplyError unit;
  fw_down : B → string → string → st H ApplyError unit
}.

Record NatInstall (B : Type) := mkNatInstall {
  recovered : bool; recovery_deferred : bool; nat_applied : option string; nat_dirty : option string; backend : option B
}.
Arguments mkNatInstall {B}.
Arguments recovered {B}.
Arguments recovery_deferred {B}.
Arguments nat_applied {B}.
Arguments nat_dirty {B}.
Arguments backend {B}.

Record ProviderPolicy := mkProviderPolicy { enabled : bool; force : option bool; veto : bool; trust_external : bool }.

Definition nat_on (override : option bool) (veto self_exit : bool) : bool :=
  if veto then false else match override with Some v => v | None => self_exit end.

Section Nat.
Context {H B : Type}.
Abbreviation natting A := (st (NatInstall B * H) ApplyError A).

Definition recover_nat (on : bool) (has_lease : st H ApplyError bool) (cleanup : st H ApplyError unit) : natting unit :=
  s ← get_state;
  if recovered s then mret tt else
  lease ← (if on then mret true else on_host has_lease);
  let can_defer := negb on && negb lease in
  if can_defer && recovery_deferred s then mret tt else
  r ← attempt (on_host cleanup);
  match r with
  | Err e => if can_defer then put_state (mkNatInstall (recovered s) true (nat_applied s) (nat_dirty s) (backend s)) else lift (Err e)
  | _ => put_state (mkNatInstall true false (nat_applied s) (nat_dirty s) (backend s))
  end.

Definition set_dirty (d : option string) (s : NatInstall B) : NatInstall B := mkNatInstall (recovered s) (recovery_deferred s) (nat_applied s) d (backend s).
Definition set_applied (a : option string) (s : NatInstall B) : NatInstall B := mkNatInstall (recovered s) (recovery_deferred s) a (nat_dirty s) (backend s).
Definition set_backend (b : option B) (s : NatInstall B) : NatInstall B := mkNatInstall (recovered s) (recovery_deferred s) (nat_applied s) (nat_dirty s) b.

Definition reconcile_nat (on : bool) (discover : st H ApplyError (option string)) (apply : bool → string → st H ApplyError unit) : natting unit :=
  s ← get_state;
  _ ← (match nat_dirty s with Some phys => _ ← on_host (apply false phys); modify_state (set_dirty None) | None => mret tt end);
  s ← get_state;
  match on, nat_applied s with
  | true, None =>
      d ← on_host discover;
      phys ← lift (match d with Some phys => Ok phys | None => Err (error_new ["discover"; "physical-interface"]%string "no physical egress interface") end);
      r ← attempt (on_host (apply true phys));
      match r with
      | Err e => _ ← modify_state (set_dirty (Some phys)); lift (Err e)
      | _ => modify_state (set_applied (Some phys))
      end
  | false, Some phys => _ ← on_host (apply false phys); modify_state (set_applied None)
  | _, _ => mret tt
  end.

Context `{!HostOs H} `{!Firewall H B}.

Definition exit_gateway_up (phys tun overlay_cidr : string) (trust_external : bool) (b : option B) : st H ApplyError unit :=
  match b with Some b => fw_up b phys tun overlay_cidr trust_external | None => lift (Err (error_new ["firewall"; "up"]%string "missing selected backend")) end.
Definition exit_gateway_down (phys tun : string) (b : option B) : st H ApplyError unit :=
  match b with Some b => fw_down b phys tun | None => lift (Err (error_new ["firewall"; "down"]%string "missing selected backend")) end.

(** [ProviderPolicy::sync] and [set_nat], the shutdown gate being open. *)
Definition policy_sync (p : ProviderPolicy) (approved : bool) (discover : st H ApplyError (option string))
    (apply : bool → string → st H ApplyError unit) : natting unit :=
  if enabled p then reconcile_nat (nat_on (force p) (veto p) approved) discover apply else mret tt.

Definition sync_nat (p : ProviderPolicy) (approved : bool) (tun own_cidr : string) : natting unit :=
  if negb (enabled p) then mret tt else
  let on := nat_on (force p) (veto p) approved in
  _ ← recover_nat on (has_lease tun) (recover tun);
  s ← get_state;
  _ ← (if bool_decide (backend s = None) && (on || bool_decide (is_Some (nat_applied s)) || bool_decide (is_Some (nat_dirty s)))
       then b ← on_host detect; modify_state (set_backend (Some b)) else mret tt);
  s ← get_state;
  policy_sync p approved (physical_iface Linux)
    (fun on phys => if (on : bool) then exit_gateway_up phys tun own_cidr (trust_external p) (backend s) else exit_gateway_down phys tun (backend s)).

Definition remove_nat (tun : string) : natting unit :=
  s ← get_state;
  reconcile_nat false (mret None) (fun _ phys => exit_gateway_down phys tun (backend s)).
End Nat.

(** ** The full tunnel *)

Record ExitTunState := mkExitTunState { teardown_started : bool; exit_dev : string; progress : ExitProgress; exit_peer : list byte }.

(** The immutable part of [HostEffects]; [kill_switch], [carrier_cache]: whether there is one. *)
Record HostConfig := mkHostConfig {
  tun_name : string; own_cidr : string; control_host : string; exclude_routes : list string; kill_switch : bool; carrier_cache : bool;
  provider : ProviderPolicy; manage_host_routes : bool; manage_dns : bool
}.

Inductive HostStage := SRoutes | SExit | SDns | SNat | SRetire.
#[global] Instance HostStage_eq_dec : EqDecision HostStage.
Proof. solve_decision. Defined.

(** The rest of [HostEffects] with its [HostRuntime]; [carrier_dns]: the pinned addresses of
    the control server, where there is such a resolver; [retries]: one budget per effect. *)
Record HostState (B : Type) := mkHostState {
  relay_ips : list string; dns_override : list string; carrier_dns : option (list string);
  exit_state : option ExitTunState; exit_progress : ExitProgress; nat_state : NatInstall B; shutdown : bool;
  hr_routes : Routes; hr_bypass : State; hr_dns : DnsInstall;
  dns_startup_checked : bool; dns_full_tunnel : bool; retries : HostStage → Retry
}.
Arguments mkHostState {B}.
Arguments relay_ips {B}.
Arguments dns_override {B}.
Arguments carrier_dns {B}.
Arguments exit_state {B}.
Arguments exit_progress {B}.
Arguments nat_state {B}.
Arguments shutdown {B}.
Arguments hr_routes {B}.
Arguments hr_bypass {B}.
Arguments hr_dns {B}.
Arguments dns_startup_checked {B}.
Arguments dns_full_tunnel {B}.
Arguments retries {B}.

Definition start_state {B} : HostState B :=
  mkHostState [] [] None None exit_progress_default (mkNatInstall false false None None None) false
    (mkRoutes ∅ ∅) state_default (mkDnsInstall None false) false false (fun _ => retry_default).

Section Setters.
Context {B : Type}.
Implicit Types w : HostState B.

Definition put_pinned (a : list string) w : HostState B :=
  mkHostState (relay_ips w) (dns_override w) (Some a) (exit_state w) (exit_progress w) (nat_state w) (shutdown w)
    (hr_routes w) (hr_bypass w) (hr_dns w) (dns_startup_checked w) (dns_full_tunnel w) (retries w).
Definition put_exits (x : option ExitTunState * ExitProgress) w : HostState B :=
  mkHostState (relay_ips w) (dns_override w) (carrier_dns w) x.1 x.2 (nat_state w) (shutdown w)
    (hr_routes w) (hr_bypass w) (hr_dns w) (dns_startup_checked w) (dns_full_tunnel w) (retries w).
Definition put_nat (n : NatInstall B) w : HostState B :=
  mkHostState (relay_ips w) (dns_override w) (carrier_dns w) (exit_state w) (exit_progress w) n (shutdown w)
    (hr_routes w) (hr_bypass w) (hr_dns w) (dns_startup_checked w) (dns_full_tunnel w) (retries w).
Definition put_shutdown  w : HostState B :=
  mkHostState (relay_ips w) (dns_override w) (carrier_dns w) (exit_state w) (exit_progress w) (nat_state w) true
    (hr_routes w) (hr_bypass w) (hr_dns w) (dns_startup_checked w) (dns_full_tunnel w) (retries w).
Definition put_routes (r : Routes) w : HostState B :=
  mkHostState (relay_ips w) (dns_override w) (carrier_dns w) (exit_state w) (exit_progress w) (nat_state w) (shutdown w)
    r (hr_bypass w) (hr_dns w) (dns_startup_checked w) (dns_full_tunnel w) (retries w).
Definition put_bypass (s : State) w : HostState B :=
  mkHostState (relay_ips w) (dns_override w) (carrier_dns w) (exit_state w) (exit_progress w) (nat_state w) (shutdown w)
    (hr_routes w) s (hr_dns w) (dns_startup_checked w) (dns_full_tunnel w) (retries w).
Definition put_dns (x : DnsInstall * bool) w : HostState B :=
  mkHostState (relay_ips w) (dns_override w) (carrier_dns w) (exit_state w) (exit_progress w) (nat_state w) (shutdown w)
    (hr_routes w) (hr_bypass w) x.1 (dns_startup_checked w) x.2 (retries w).
Definition put_checked (owned : bool) w : HostState B :=
  mkHostState (relay_ips w) (dns_override w) (carrier_dns w) (exit_state w) (exit_progress w) (nat_state w) (shutdown w)
    (hr_routes w) (hr_bypass w) (mkDnsInstall (dns_applied (hr_dns w)) (dns_dirty (hr_dns w) || owned)) true (dns_full_tunnel w) (retries w).
Definition put_retry (stage : HostStage) (r : Retry) w : HostState B :=
  mkHostState (relay_ips w) (dns_override w) (carrier_dns w) (exit_state w) (exit_progress w) (nat_state w) (shutdown w)
    (hr_routes w) (hr_bypass w) (hr_dns w) (dns_startup_checked w) (dns_full_tunnel w) (fun k => if bool_decide (k = stage) then r else retries w k).
End Setters.

(** A computation under the retry budget of its stage. *)
Definition retried {B H} (stage : HostStage) (epoch now : Z) (m : st (HostState B * H) ApplyError unit) : st (HostState B * H) ApplyError unit :=
  fun '(w, h) => let '(r, (retry, (w, h))) := retry_run epoch now m (retries w stage, (w, h)) in (r, (put_retry stage retry w, h)).

Section Exit.
Context {H : Type} `{!HostOs H}.

(** The exit that is applied, and the routes of one that failed. *)
Abbreviation exiting A := (st (option ExitTunState * ExitProgress * H) ApplyError A).

(** [remove_exit] of the exit that is applied. *)
Definition remove_exit : exiting unit :=
  '(e, _) ← get_state;
  match e with
  | None => mret tt
  | Some old =>
      zoom (fun _ => progress old) (fun p x => (Some (mkExitTunState true (exit_dev old) p (exit_peer old)), x.2)) (exit_down Linux (exit_dev old))
  end.
Definition clear_exit : exiting unit := modify_state (fun x => (None, x.2)).

Definition retire_exit_with (selected : option (list byte)) : exiting unit :=
  '(e, _) ← get_state;
  if bool_decide (exit_peer <$> e = selected) || bool_decide (e = None) then mret tt
  else _ ← remove_exit; clear_exit.
Definition retire_exit (selected : option (list byte)) : exiting unit :=
  '(e, _) ← get_state;
  retire_exit_with (if match e with Some s => teardown_started s | None => false end then None else selected).

Definition apply_exit (peers : list PeerInfo) (dev : string) (resolved : list string) : st (ExitProgress * H) ApplyError (option ExitTunState) :=
  match selected_exit peers ≫= (fun pk => list_find (fun p => pi_pubkey p = pk) peers) with
  | None => mret None
  | Some (_, ex) =>
      gw ← on_host (default_gateway Linux);
      phys ← on_host (physical_iface Linux);
      match gw, phys with
      | Some gw, Some phys =>
          needs ← on_host (mapM (fun c => b ← needs_bypass Linux c; mret (c, b)) resolved);
          _ ← exit_up Linux dev gw phys (List.filter snd needs).*1;
          p ← get_state;
          _ ← put_state exit_progress_default;
          mret (Some (mkExitTunState false dev p (pi_pubkey ex)))
      | _, _ => lift (Err (error_new ["discover"; "default-gateway"]%string "no physical gateway/interface for full-tunnel"))
      end
  end.

Definition sync_exit_with (selected : option (list byte)) (up : st (ExitProgress * H) ApplyError (option ExitTunState)) : exiting unit :=
  '(e, _) ← get_state;
  if bool_decide (exit_peer <$> e = selected) then mret tt else
  _ ← (if bool_decide (e = None) then mret tt else _ ← remove_exit; clear_exit);
  if bool_decide (selected = None) then mret tt else
  new ← zoom snd (fun p x => (x.1, p)) up;
  modify_state (fun x => (new, x.2)).

(** [HostEffects::sync_exit] behind its gates. *)
Definition sync_exit (peers : list PeerInfo) (dev : string) : exiting unit :=
  _ ← zoom snd (fun p x => (x.1, p)) (cleanup_exit Linux dev);
  sync_exit_with (selected_exit peers) (apply_exit peers dev []).
End Exit.

(** ** The addresses that must bypass a full tunnel *)

Definition sort_dedup (l : list string) : list string := dedup (sort_by String.compare l).

Definition exit_bypass_candidates (control_host : string) (relays : list string) (peers : list PeerInfo) (excludes : list string) : list string :=
  sort_dedup ((if bool_decide (control_host = ""%string) then [] else [control_host]) ++ relays
    ++ ((fun c => text (fmt_ip (sock_ip c))) <$> concat (pi_candidates <$> peers)) ++ excludes).

Section Resolve.
Context (resolve : string → res string (list IpAddr)).

Definition resolve_candidate (candidate : string) : res string (list string) :=
  match from_str (chars candidate) with
  | Ok _ => Ok [candidate]
  | _ =>
      match resolve candidate with
      | Ok [] => Err ("no bypass addresses for " ++ candidate)%string
      | Ok addresses => Ok ((fun a => text (fmt_ip a)) <$> addresses)
      | Err e => Err ("bypass resolution for " ++ candidate ++ ": " ++ e)%string
      | Panic => Panic
      end
  end.
Definition resolve_bypass_candidates (candidates : list string) : res string (list string) :=
  groups ← mapM resolve_candidate candidates; Ok (sort_dedup (concat groups)).
End Resolve.

(** ** The steps of a pass *)

(** firewall/client.rs: the kill switch, where there is one. *)
Class KillSwitch (H : Type) := {
  guard_sync : string → list string → bool → st H ApplyError unit;
  guard_check : string → st H ApplyError unit
}.

Section HostEffects.
Context {H B : Type} `{!HostOs H} `{!Serde Json} `{!SetOrder} `{!DnsBackend H} `{!Firewall H B} `{!KillSwitch H}.
Context (cfg : HostConfig).
Abbreviation node A := (st (HostState B * H) ApplyError A).
Abbreviation on_exits := (zoom (T := HostState B) (fun w => (exit_state w, exit_progress w)) put_exits).
Abbreviation on_bypass := (zoom (T := HostState B) hr_bypass put_bypass).

(** Nothing happens once the node is shutting down, or where it does not manage the host. *)
Definition gated (m : node unit) : node unit := w ← get_state; if shutdown w || negb (manage_host_routes cfg) then mret tt else m.

Definition retire (epoch now : Z) (selected : option (list byte)) : node unit :=
  w ← get_state;
  if negb (manage_host_routes cfg) || match exit_state w with None => true | Some s => bool_decide (Some (exit_peer s) = selected) && negb (teardown_started s) end
  then mret tt
  else retried SRetire epoch now (gated (on_exits (retire_exit selected))).

Definition prepare_bypass (peers : list PeerInfo) (resolve : string → res string (list IpAddr)) : node (list string) :=
  w ← get_state;
  if negb (manage_host_routes cfg) || shutdown w || (bool_decide (selected_exit peers = None) && bool_decide (exit_state w = None)) then mret []
  else
    let candidates := exit_bypass_candidates (if bool_decide (is_Some (carrier_dns w)) then "" else control_host cfg) (relay_ips w) peers (exclude_routes cfg)
                      ++ default [] (carrier_dns w) in
    lift (match resolve_bypass_candidates resolve candidates with
          | Ok l => Ok l
          | Err e => Err (error_new ["bypass"; "resolve"]%string e)
          | Panic => Panic
          end).

Definition sync_bypass (bypass : list string) (retain : bool) : node unit := gated (on_bypass (sync Linux bypass retain)).

(** The carriers the kill switch lets through; exclusions are not among them. *)
Definition guarded_ips (peers : list PeerInfo) (pinned : list string) (w : HostState B) : list string :=
  sort_dedup (exit_bypass_candidates "" (relay_ips w) peers [] ++ pinned).

(** [resolved]: the addresses of the control server. *)
Definition guard_carriers (peers : list PeerInfo) (retain : bool) (resolved : res ApplyError (list IpAddr)) : node unit :=
  if negb (kill_switch cfg) then mret tt else
  w ← get_state;
  if bool_decide (carrier_dns w = None) then lift (Err (error_new ["kill-switch"%string] "missing control carrier resolver"))
  else if negb (carrier_cache cfg) then lift (Err (error_new ["kill-switch"%string] "missing carrier cache"))
  else if shutdown w then mret tt
  else match resolved with
  | Ok control =>
      let pinned := (fun a => text (fmt_ip a)) <$> control in
      let ips := guarded_ips peers pinned w in
      _ ← on_host (guard_sync (tun_name cfg) ips true);
      _ ← (if manage_host_routes cfg then on_bypass (sync Linux ips true) else mret tt);
      _ ← modify_state (put_pinned pinned);
      on_host (guard_sync (tun_name cfg) ips retain)
  | Err e => r ← attempt (on_host (guard_check (tun_name cfg))); lift (all [r; Err e])
  | Panic => lift Panic
  end.

(** The exit that is applied is the selected one, and complete. *)
Definition exit_is_ready (peers : list PeerInfo) (w : HostState B) : bool :=
  match exit_state w with Some s => bool_decide (Some (exit_peer s) = selected_exit peers) && negb (teardown_started s) | None => false end.

Definition sync_resolver (peers : list PeerInfo) (exit_ok : bool) : node unit :=
  w ← get_state;
  _ ← (if dns_startup_checked w then mret tt else owned ← on_host owned_dns; modify_state (put_checked owned));
  w ← get_state;
  let ready := exit_ok && exit_is_ready peers w in
  zoom (fun w => (hr_dns w, dns_full_tunnel w)) put_dns
    (sync_dns_mode_with (desired_dns peers (dns_override w) ready (manage_dns cfg)) ready set_dns reset_dns verify_file).

(** What [tick] does once it has the runtime lock; [now], [now']: the clock of the retries and
    of the routes. *)
Definition effects (epoch now now' : Z) (peers : list PeerInfo) (self_exit : bool) (retirement carriers : ApplyResult) : node unit :=
  host ← attempt (retried SRoutes epoch now (gated (zoom hr_routes put_routes (sync_host peers (own_cidr cfg) (tun_name cfg) epoch now'))));
  exit ← attempt (_ ← lift (all [retirement; carriers]); retried SExit epoch now (gated (on_exits (sync_exit peers (tun_name cfg)))));
  resolver ← attempt (retried SDns epoch now (gated (sync_resolver peers (is_ok exit))));
  nat ← attempt (retried SNat epoch now (w ← get_state; if shutdown w then mret tt
                   else zoom nat_state put_nat (sync_nat (provider cfg) self_exit (tun_name cfg) (own_cidr cfg))));
  lift (all [host; exit; resolver; nat]).

Definition tick (epoch now0 now now' : Z) (peers : list PeerInfo) (self_exit : bool) (bypass : res ApplyError (list string)) (retain : bool) : node unit :=
  retirement ← attempt (retire epoch now0 (selected_exit peers));
  carriers ← attempt (bypass ← lift bypass; sync_bypass bypass (retain || negb (is_ok retirement)));
  effects epoch now now' peers self_exit retirement carriers.

(** [HostEffects::apply]. *)
Definition host_apply (epoch now0 now now' : Z) (peers : list PeerInfo) (self_exit retain : bool) (resolved : res ApplyError (list IpAddr))
    (resolve : string → res string (list IpAddr)) : node unit :=
  _ ← guard_carriers peers retain resolved;
  bypass ← attempt (prepare_bypass peers resolve);
  tick epoch now0 now now' peers self_exit bypass retain.

Definition cleanup : node unit :=
  _ ← modify_state put_shutdown;
  exit ← attempt (on_exits remove_exit);
  pending ← attempt (on_exits (zoom snd (fun p x => (x.1, p)) (cleanup_exit Linux (tun_name cfg))));
  dns ← attempt (zoom hr_dns (fun d w => put_dns (d, dns_full_tunnel w) w) (sync_dns_with None (fun _ => mret tt) reset_dns));
  nat ← attempt (zoom nat_state put_nat (remove_nat (tun_name cfg)));
  carriers ← attempt (if is_ok exit && is_ok pending then on_bypass (sync Linux [] false) else mret tt);
  lift (all [exit; pending; dns; nat; carriers]).
End HostEffects.
