(* ===== verification/HostAccount.v ===== *)
(** * One routing table, three records

    The full tunnel, the carriers and the overlay each keep a record of the routes they put
    into the table.  [Accounted]: the table is the one found plus exactly the routes of the
    three records.  Each component's own account is this one with the other two records
    counted as found. *)

From Stdlib Require Import Strings.Ascii Strings.String.
From S2P Require Import Prelude.
From S2P Require Import Words.
From S2P Require Import NetText.
From S2P Require Import Prefix.
From S2P Require Import Apply.
From S2P Require Import Domain.
From S2P Require Import NodeConfig.
From S2P Require Import HostRun.
From S2P Require Import Rib.
From S2P Require Import HostRoutes.
From S2P Require Import ExitSpec.
From S2P Require Import Bypass.
From S2P Require Import BypassSpec.
From S2P Require Import HostEffects.

(** The node's interface [dev], the table found [t0], the prefixes [D] the overlay may route. *)
Section Account.
Context (dev : string) (t0 : rib) (D : gset string).

(** No carrier has the prefix of an overlay route or of a redirection. *)
Definition TAKEN : gset string := D ∪ list_to_set SPLIT_DEFAULT.

(** The host leaves these places in its table to the node. *)
Record Setting : Prop := mkSetting {
  se_redirects k : k ∈ REDIRECTS → t0 !! k = None;
  se_proper p : p ∈ D → is_default_prefix p = false;
  se_overlay p : p ∈ D → t0 !! ckey p = None ∧ ¬ (p ∈ SPLIT_DEFAULT) ∧ (p ≠ "unreachable")%string
}.

(** [l]: the routes that redirect; [o]: the carriers; [i]: the overlay. *)
Record Accounted (l : list key) (o : gmap string Via) (i : gset string) (t : rib) : Prop := mkAccounted {
  ac_redirects k : k ∈ l → k ∈ REDIRECTS ∧ is_Some (t !! k);
  ac_carriers p via : o !! p = Some via → carriable TAKEN p ∧ t0 !! ckey p = None ∧ t !! ckey p = Some (carrier via);
  ac_overlay p : p ∈ i → p ∈ D ∧ t !! ckey p = Some (dev_route dev);
  ac_rest k : k ∉ l → (∀ p, k = ckey p → o !! p = None ∧ p ∉ i) → t !! k = t0 !! k
}.

Definition without (l : list key) (t : rib) : rib := filter (fun x => x.1 ∉ l) t.
Definition strip (o : gmap string Via) (t : rib) : rib := filter (fun x => ¬ (x.1.2 = METRIC ∧ is_Some (o !! x.1.1))) t.

Lemma lookup_without_in l t k : k ∈ l → without l t !! k = None.
Proof. intros Hk. apply map_lookup_filter_None. right. by intros r _ Hn. Qed.
Lemma lookup_without_out l t k : k ∉ l → without l t !! k = t !! k.
Proof.
  intros Hk. unfold without. destruct (t !! k) eqn:Ht; [by apply map_lookup_filter_Some|]. apply map_lookup_filter_None. by left.
Qed.
Lemma lookup_strip_in o t p : o !! p ≠ None → strip o t !! ckey p = None.
Proof. intros Hp. apply map_lookup_filter_None. right. intros r _ Hn. apply Hn. split; [done|]. cbn. by destruct (o !! p). Qed.
Lemma lookup_strip_out o t k : (∀ p, k = ckey p → o !! p = None) → strip o t !! k = t !! k.
Proof.
  intros Hk. unfold strip. destruct (t !! k) eqn:Ht; [|apply map_lookup_filter_None; by left]. apply map_lookup_filter_Some. split; [done|].
  destruct k as [p m]. cbn. intros [-> [v Hv]]. by rewrite (Hk p eq_refl) in Hv.
Qed.

Lemma ckey_redirect p : ckey p ∈ REDIRECTS ↔ p ∈ SPLIT_DEFAULT.
Proof.
  unfold REDIRECTS. rewrite elem_of_app, !list_elem_of_fmap. split.
  - intros [(d & [= ->] & Hd)|(q & [=] & _)]. done.
  - intros Hp. left. by exists p.
Qed.

Lemma carriable_free p : carriable TAKEN p → ¬ (ckey p ∈ REDIRECTS) ∧ ¬ (p ∈ D).
Proof. unfold carriable, TAKEN. rewrite ckey_redirect, not_elem_of_union, elem_of_list_to_set. naive_solver. Qed.

Context (Hset : Setting).
Implicit Types (l : list key) (o : gmap string Via) (i : gset string) (t : rib) (p : string).

Lemma overlay_free p : p ∈ D → ckey p ∉ REDIRECTS.
Proof. intros Hp. rewrite ckey_redirect. by destruct (se_overlay Hset p Hp) as (_ & ? & _). Qed.

Lemma carried_dec o k : (∃ p, k = ckey p ∧ is_Some (o !! p)) ∨ ∀ p, k = ckey p → o !! p = None.
Proof.
  destruct k as [p m]. destruct (decide (m = METRIC)) as [->|Hm]; [|right; by intros q [= _ ?]]. destruct (o !! p) eqn:Hp; [|right; by intros q [= <-]].
  left. exists p. split; [done|]. rewrite Hp. by eexists.
Qed.

(** The keys of the records are apart. *)
Lemma accounted_apart l o i t p : Accounted l o i t → o !! p ≠ None ∨ p ∈ i → ¬ (ckey p ∈ REDIRECTS) ∧ ¬ (ckey p ∈ l).
Proof.
  intros Ha Hp. assert (ckey p ∉ REDIRECTS) as Hr.
  { destruct Hp as [Hp|Hp]; [|by apply overlay_free, (ac_overlay _ _ _ _ Ha)]. destruct (o !! p) as [v|] eqn:Hv; [|done].
    apply carriable_free, (ac_carriers _ _ _ _ Ha p v Hv). }
  split; [done|]. by intros [? _]%(ac_redirects _ _ _ _ Ha).
Qed.

(** A step of the full tunnel. *)
Lemma accounted_exit l o i t l' t' : Accounted l o i t → Acc (without l t) l' t' → l' ⊆ REDIRECTS → Accounted l' o i t'.
Proof.
  intros Ha Hx Hl. assert (∀ p, o !! p ≠ None ∨ p ∈ i → t' !! ckey p = t !! ckey p) as Hsame.
  { intros p Hp. destruct (accounted_apart _ _ _ _ _ Ha Hp) as [Hr Hn]. rewrite (proj2 (Hx (ckey p))); [by apply lookup_without_out|]. by intros ?%Hl. }
  split.
  - intros k Hk. split; [by apply Hl|]. by apply (Hx k).
  - intros p via Hp. rewrite Hsame by (left; congruence). by apply (ac_carriers _ _ _ _ Ha).
  - intros p Hp. rewrite Hsame by (by right). by apply (ac_overlay _ _ _ _ Ha).
  - intros k Hk Ho. rewrite (proj2 (Hx k) Hk). destruct (decide (k ∈ l)) as [Hin|Hout].
    + rewrite lookup_without_in by done. symmetry. by apply (se_redirects Hset), (ac_redirects _ _ _ _ Ha).
    + rewrite lookup_without_out by done. by apply (ac_rest _ _ _ _ Ha).
Qed.

(** The carriers' account, and a step of theirs. *)
Lemma accounted_owns l o i t : Accounted l o i t → Owns (strip o t) TAKEN o t.
Proof.
  intros Ha. split.
  - intros p via Hp. destruct (ac_carriers _ _ _ _ Ha p via Hp) as (Hc & _ & Ht). rewrite lookup_strip_in by congruence. done.
  - intros k Hk. symmetry. apply lookup_strip_out. intros p ->. destruct (o !! p) eqn:Hp; [|done]. exfalso. apply (Hk p); congruence.
Qed.

Lemma accounted_sync l o i t o' t' : Accounted l o i t → Owns (strip o t) TAKEN o' t' → Accounted l o' i t'.
Proof.
  intros Ha Ho. assert (∀ k, (∀ p, k = ckey p → ¬ carriable TAKEN p) → t' !! k = t !! k) as Hsame.
  { intros k Hk. rewrite (ow_out _ _ _ _ Ho).
    - apply lookup_strip_out. intros p ->. destruct (o !! p) as [v|] eqn:Hv; [|done]. exfalso. apply (Hk p eq_refl), (ac_carriers _ _ _ _ Ha p v Hv).
    - intros p Hp ->. destruct (o' !! p) as [v|] eqn:Hv; [|done]. apply (Hk p eq_refl), (ow_in _ _ _ _ Ho p v Hv). }
  split.
  - intros k Hk. destruct (ac_redirects _ _ _ _ Ha k Hk) as [Hr Ht]. split; [done|]. rewrite Hsame; [done|]. by intros p -> [? _]%carriable_free.
  - intros p via Hp. destruct (ow_in _ _ _ _ Ho p via Hp) as (Ht & Hs & Hc). split; [done|]. split; [|done].
    destruct (o !! p) as [v|] eqn:Hv; [by apply (ac_carriers _ _ _ _ Ha p v)|]. destruct (carriable_free p Hc) as [Hr HD].
    rewrite lookup_strip_out in Hs by (intros q [= <-]; done). rewrite <-Hs. symmetry. apply (ac_rest _ _ _ _ Ha).
    + by intros [? _]%(ac_redirects _ _ _ _ Ha).
    + intros q [= <-]. split; [done|]. by intros [? _]%(ac_overlay _ _ _ _ Ha).
  - intros p Hp. destruct (ac_overlay _ _ _ _ Ha p Hp) as [HD Ht]. split; [done|]. rewrite Hsame; [done|]. intros q [= <-] [_ ?]%carriable_free. done.
  - intros k Hk Hn. rewrite (ow_out _ _ _ _ Ho) by (intros p Hp ->; by destruct (Hn p eq_refl)). destruct (carried_dec o k) as [(p & -> & v & Hv)|Hno].
    + rewrite lookup_strip_in by congruence. symmetry. by apply (ac_carriers _ _ _ _ Ha p v).
    + rewrite lookup_strip_out by done. apply (ac_rest _ _ _ _ Ha); [done|]. intros p Hp. split; [by apply Hno|]. by apply Hn.
Qed.
End Account.
