(* ===== verification/OverlaySpec.v ===== *)
(** * The overlay's routes

    [sync_routes] brings the routes of the overlay to the desired ones, whatever fails on the
    way; the routes of the full tunnel and of the carriers stay as they are. *)

From Stdlib Require Import Strings.Ascii Strings.String.
From S2P Require Import Prelude.
From S2P Require Import Words.
From S2P Require Import NetText.
From S2P Require Import Prefix.
From S2P Require Import RouteTable.
From S2P Require Import Apply.
From S2P Require Import Domain.
From S2P Require Import NodeConfig.
From S2P Require Import HostRun.
From S2P Require Import Rib.
From S2P Require Import HostRoutes.
From S2P Require Import ExitSpec.
From S2P Require Import Bypass.
From S2P Require Import BypassSpec.
From S2P Require Import HostEffects.
From S2P Require Import HostAccount.

(** The tables since [x0] all have the property. *)
Definition Trace (R : rib → Prop) (x0 x : list rib) : Prop := ∃ seg, x = seg ++ x0 ∧ Forall R seg.

Lemma trace_refl R x : Trace R x x.
Proof. by exists []. Qed.
Lemma trace_push R x0 x t : Trace R x0 x → R t → Trace R x0 (t :: x).
Proof. intros (seg & -> & Hs) Ht. exists (t :: seg). split; [done|]. by constructor. Qed.
Lemma trace_trans R x0 x1 x2 : Trace R x0 x1 → Trace R x1 x2 → Trace R x0 x2.
Proof. intros (s1 & -> & H1) (s2 & -> & H2). exists (s2 ++ s1). rewrite app_assoc. split; [done|]. by apply Forall_app. Qed.
Lemma trace_mono (R R' : rib → Prop) x0 x : (∀ t, R t → R' t) → Trace R x0 x → Trace R' x0 x.
Proof. intros Hr (seg & -> & Hs). exists seg. split; [done|]. by eapply list.Forall_impl. Qed.

(** What is tried on each of [l]: [done_] is what succeeded so far. *)
Lemma spec_try_done {H X} `{!HostOs H} `{!HostLaws H X} {A} (I : list A → gmap string string → X → Prop) (l : list A) (body : A → st H ApplyError unit) E done_ :
  (∀ x done_, x ∈ l → x ∉ done_ → spec (I done_) (body x) (fun _ => I (x :: done_)) (fun _ => I done_)) →
  NoDup l → (∀ x, x ∈ l → x ∉ done_) →
  spec (I done_) (try_each l body) (fun errors f x => ∃ d, I d f x ∧ Forall (fun r => is_Some (err_of r)) errors ∧ (errors = [] → l ++ done_ ⊆ d)) E.
Proof.
  revert done_. induction l as [|a l IH]; intros done_ Hb Hn Hd; cbn [try_each].
  { apply spec_ret. intros f x Hi. exists done_. by repeat split. }
  apply list.NoDup_cons in Hn as [Ha Hn]. assert (∀ y, y ∈ l → y ∈ a :: l) as Hin by (intros y Hy; by right).
  eapply spec_try; [apply Hb; [by left|apply Hd; by left]|intros u|intros e]; (eapply spec_bind; [apply IH; [by auto|done|]|intros errors; apply spec_ret]).
  - intros y Hy Hy'. apply elem_of_cons in Hy' as [->|Hy']; [done|]. by apply (Hd y); [right|].
  - intros f x (d & Hi & He & Hs). exists d. split; [done|]. split; [done|]. intros Hnil. specialize (Hs Hnil). set_solver.
  - auto.
  - intros f x (d & Hi & He & Hs). exists d. split; [done|]. split; [by constructor|done].
Qed.

Lemma delete_present {A} (m : gmap string A) p q : delete p m !! q ≠ None → m !! q ≠ None.
Proof. intros Hq Hn. apply Hq. apply lookup_delete_None. by right. Qed.

Section Overlay.
Context {H : Type} `{!HostOs H} `{!HostLaws H (list rib)} `{!Serde Json} `{!RibLaws H} `{!SetOrder}.
Context (dev : string) (t0 : rib) (D : gset string) (Hset : Setting t0 D).
Implicit Types (l : list key) (o : gmap string Via) (i : gset string) (t : rib) (p : string) (x : list rib) (f : gmap string string).
Abbreviation Accounted := (Accounted dev t0 D).

Lemma accounted_route l o i t p : p ∈ D → Accounted l o i t → Accounted l o ({[p]} ∪ i) (<[ckey p := dev_route dev]> t).
Proof.
  intros Hp Ha. assert (∀ k, k ≠ ckey p → <[ckey p := dev_route dev]> t !! k = t !! k) as Hne by (intros k Hk; by rewrite lookup_insert_ne).
  pose proof (overlay_free t0 D Hset p Hp) as Hr. split.
  - intros k Hk. destruct (ac_redirects _ _ _ _ _ _ _ Ha k Hk) as [Hk' Ht]. split; [done|]. rewrite Hne; [done|]. by intros ->.
  - intros q via Hq. destruct (ac_carriers _ _ _ _ _ _ _ Ha q via Hq) as (Hc & _ & Ht). split; [done|]; rewrite Hne; [by eapply (ac_carriers _ _ _ _ _ _ _ Ha)|]. intros ->%(inj ckey). by apply carriable_free in Hc as [_ ?].
  - intros q Hq. destruct (decide (q = p)) as [->|Hqp]; [by rewrite lookup_insert_eq|]. rewrite Hne by (by intros ?%(inj ckey)).
    apply (ac_overlay _ _ _ _ _ _ _ Ha). set_solver.
  - intros k Hk Hn. rewrite Hne by (intros ->; destruct (Hn p eq_refl); set_solver). apply (ac_rest _ _ _ _ _ _ _ Ha); [done|].
    intros q Hq. destruct (Hn q Hq). set_solver.
Qed.

Lemma accounted_unroute l o i t p : p ∈ i → Accounted l o i t → Accounted l o (i ∖ {[p]}) (delete (ckey p) t).
Proof.
  intros Hp Ha. assert (∀ k, k ≠ ckey p → delete (ckey p) t !! k = t !! k) as Hne by (intros k Hk; by rewrite lookup_delete_ne).
  destruct (ac_overlay _ _ _ _ _ _ _ Ha p Hp) as [HD _]. pose proof (overlay_free t0 D Hset p HD) as Hr. split.
  - intros k Hk. destruct (ac_redirects _ _ _ _ _ _ _ Ha k Hk) as [Hk' Ht]. split; [done|]. rewrite Hne; [done|]. by intros ->.
  - intros q via Hq. destruct (ac_carriers _ _ _ _ _ _ _ Ha q via Hq) as (Hc & _ & Ht). split; [done|]; rewrite Hne; [by eapply (ac_carriers _ _ _ _ _ _ _ Ha)|]. intros ->%(inj ckey). by apply carriable_free in Hc as [_ ?].
  - intros q [Hq Hqp]%elem_of_difference. rewrite Hne by (intros ->%(inj ckey); set_solver). by apply (ac_overlay _ _ _ _ _ _ _ Ha).
  - intros k Hk Hn. destruct (decide (k = ckey p)) as [->|Hkp]; [rewrite lookup_delete_eq; symmetry; by apply (se_overlay _ _ Hset)|]. rewrite Hne by done.
    apply (ac_rest _ _ _ _ _ _ _ Ha); [done|]. intros q Hq. destruct (Hn q Hq). split; [done|]. set_solver.
Qed.

(** ** One route *)

Section At.
Context (l : list key) (o : gmap string Via) (x0 : list rib).

(** The tables have these redirections and carriers, and some routes of the overlay. *)
Definition Routed t : Prop := ∃ i, Accounted l o i t.
Definition Over i f x : Prop := Accounted l o i (cur x) ∧ Trace Routed x0 x ∧ ∀ k, k ∈ REDIRECTS → cur x !! k = cur x0 !! k.

Lemma over_route i p f x : p ∈ D → Over i f x → Over ({[p]} ∪ i) f (<[ckey p := dev_route dev]> (cur x) :: x).
Proof.
  intros Hp (Ha & Ht & Hk). assert (Accounted l o ({[p]} ∪ i) (<[ckey p := dev_route dev]> (cur x))) as Ha' by (by apply accounted_route). split; [done|].
  split; [apply trace_push; [done|]; by eexists|]. intros k Hin. cbn. rewrite lookup_insert_ne; [by apply Hk|]. intros <-. by apply (overlay_free t0 D Hset p).
Qed.
Lemma over_unroute i p f x : p ∈ i → Over i f x → Over (i ∖ {[p]}) f (delete (ckey p) (cur x) :: x).
Proof.
  intros Hp (Ha & Ht & Hk). assert (Accounted l o (i ∖ {[p]}) (delete (ckey p) (cur x))) as Ha' by (by apply accounted_unroute). split; [done|].
  split; [apply trace_push; [done|]; by eexists|]. intros k Hin. cbn. rewrite lookup_delete_ne; [by apply Hk|]. intros <-.
  by eapply (overlay_free t0 D Hset p), Hin; eapply (ac_overlay _ _ _ _ _ _ _ Ha).
Qed.

Lemma spec_route_replace i p : p ∈ D → is_default_prefix p = false →
  spec (Over i) (route_replace (H:=H) Linux p dev) (fun r f x => match r with Installed => Over ({[p]} ∪ i) f x | Skipped _ => has ":" p = true ∧ Over i f x end) (fun _ => Over i).
Proof.
  intros Hp Hd. unfold route_replace, optional_route_result, route_change_with. rewrite Hd. eapply (spec_try _ _ _ (fun _ => Over ({[p]} ∪ i)) (fun _ => Over i)).
  - apply spec_unit. eapply (spec_change _ _ VReplace (mkSelector false p None (Some dev) None None)); [|intros out f x t Ho ->; by apply over_route|done].
    apply ip_route_dst; [by apply (se_overlay _ _ Hset)|done|done].
  - intros u. by apply spec_ret.
  - intros e. destruct (has ":" p) eqn:H6, (ipv6_unavailable e); cbn; try (by apply spec_err). by apply spec_ret.
Qed.

Lemma spec_route_del i p : p ∈ i → is_default_prefix p = false →
  spec (Over i) (route_del (H:=H) Linux p dev) (fun _ f x => Over (i ∖ {[p]}) f x ∨ has ":" p = true ∧ Over i f x) (fun _ => Over i).
Proof.
  intros Hp Hd. apply (spec_pure _ (p ∈ D)); [intros f x [Ha _]; by apply (ac_overlay _ _ _ _ _ _ _ Ha)|]. intros HD.
  unfold route_del, optional_route_result, route_change_with. rewrite Hd.
  eapply (spec_bind _ _ _ (fun _ f x => Over (i ∖ {[p]}) f x ∨ has ":" p = true ∧ Over i f x)); [|intros r; by apply spec_ret].
  eapply (spec_try _ _ _ (fun _ => Over (i ∖ {[p]})) (fun _ => Over i)).
  - unfold missing_is_removed. eapply (spec_try _ _ _ (fun _ => Over (i ∖ {[p]})) (fun e f x => missing e = false ∧ Over i f x)).
    + apply spec_unit. set (s := mkSelector false p None (Some dev) None None).
      assert (∀ x, Accounted l o i (cur x) → cur x !! route_key s = Some (dev_route dev) ∧ selects s (route_key s) (dev_route dev) = true) as Hs.
      { intros x Ha. split; [by apply (ac_overlay _ _ _ _ _ _ _ Ha)|]. apply selects_all; cbn; try done; by apply bool_decide_eq_true_2. }
      eapply (spec_change _ _ VDel s).
      * apply ip_route_dst; [by apply (se_overlay _ _ Hset)|done|done].
      * intros out f x t Ho Hstep. destruct (Hs x) as [H1 H2]; [apply Ho|]. apply (del_step _ _ _ _ H1 H2) in Hstep as ->. by apply over_unroute.
      * intros e f x Ho Hm. split; [|done]. assert (Ha := proj1 Ho). destruct (missing e) eqn:He; [|done]. destruct (Hs x Ha) as [H1 H2]. by rewrite (Hm eq_refl eq_refl _ _ H1) in H2.
    + intros u. by apply spec_ret.
    + intros e. destruct (missing e) eqn:He; [apply (spec_pure _ False); [intros f x [? _]; congruence|done]|]. rewrite andb_false_r. apply spec_err. by intros f x [].
  - intros u. apply spec_ret. by left.
  - intros e. destruct (has ":" p) eqn:H6, (ipv6_unavailable e); cbn; try (by apply spec_err). apply spec_ret. by right.
Qed.

(** ** The record *)

(** Routes of the overlay that no record names are IPv6 routes whose removal failed for want of IPv6. *)
Record Recorded (s : Routes) (i : gset string) : Prop := mkRecorded {
  rc_installed : installed s ⊆ i;
  rc_left p : p ∈ i → p ∈ installed s ∨ has ":" p = true;
  rc_skipped p : skipped s !! p ≠ None → has ":" p = true
}.
Definition Held (s : Routes) f x : Prop := ∃ i, Over i f x ∧ Recorded s i.

Lemma spec_drop_route s p : p ∈ installed s →
  spec (fun f '(s', x) => s' = s ∧ Held s f x) (drop_route (fun p => route_del (H:=H) Linux p dev) p)
    (fun _ f '(s', x) => s' = mkRoutes (installed s ∖ {[p]}) (skipped s) ∧ Held s' f x) (fun _ f '(s', x) => s' = s ∧ Held s f x).
Proof.
  intros Hp. unfold drop_route, modify_state. eapply (spec_bind _ _ _ (fun _ f '(s', x) => s' = s ∧ Held (mkRoutes (installed s ∖ {[p]}) (skipped s)) f x)).
  - apply spec_host. intros s'. apply (spec_pure _ (s' = s)); [by intros f x []|]. intros ->. apply spec_ghost. intros y.
    apply (spec_pure _ (∃ i, Over i ∅ y ∧ Recorded s i)); [by intros f x [[_ (i & Ho & Hr)] ->]; exists i|]. intros (i & Ho & Hr). assert (Ha := proj1 Ho).
    assert (p ∈ i) as Hpi by (by apply (rc_installed _ _ Hr)).
    eapply spec_weaken; [apply (spec_route_del i p Hpi)|by intros f x [_ ->]| |intros e f x Ho'; split; [done|by exists i]].
    + apply (se_proper _ _ Hset), (ac_overlay _ _ _ _ _ _ _ Ha p Hpi).
    + intros u f x [Ho'|[H6 Ho']]; (split; [done|]); (eexists; split; [exact Ho'|]); destruct Hr as [Hi Hl Hs]; split; cbn; try done; [set_solver| |set_solver|].
      * intros q [Hq Hqp]%elem_of_difference. destruct (Hl q Hq); [left|by right]. set_solver.
      * intros q Hq. destruct (decide (q = p)) as [->|Hqp]; [by right|]. destruct (Hl q Hq); [left|by right]. set_solver.
  - intros u. eapply spec_bind; [apply (spec_get _ (fun q f '(s', x) => q = s ∧ Held (mkRoutes (installed s ∖ {[p]}) (skipped s)) f x)); by intros s' f x [-> ?]|].
    intros q. apply (spec_pure _ (q = s)); [by intros f [? ?] []|]. intros ->. apply spec_put. by intros s' f x [_ Hh].
Qed.

Section Add.
Context (epoch now : Z).

Lemma spec_add_route s p : p ∈ D →
  spec (fun f '(s', x) => s' = s ∧ Held s f x) (add_route epoch now (fun p => route_replace (H:=H) Linux p dev) p)
    (fun _ f '(s', x) => installed s ⊆ installed s' ∧ installed s' ⊆ {[p]} ∪ installed s ∧ (∀ q, q ≠ p → skipped s' !! q = skipped s !! q) ∧
       (p ∈ installed s' ∨ skipped s' !! p ≠ None) ∧ Held s' f x)
    (fun _ f '(s', x) => installed s' = installed s ∧ (∀ q, q ≠ p → skipped s' !! q = skipped s !! q) ∧ Held s' f x).
Proof.
  intros Hp. unfold add_route. eapply spec_bind; [apply (spec_get _ (fun q f '(s', x) => q = s ∧ s' = s ∧ Held s f x)); by intros s' f x [-> ?]|].
  intros q. apply (spec_pure _ (q = s)); [by intros f [? ?] []|]. intros ->. destruct (waits epoch now s p) eqn:Hw.
  { apply spec_ret. intros f [s' x] (_ & -> & Hh). split; [done|]. split; [set_solver|]. split; [done|]. split; [|done]. right. unfold waits in Hw. by destruct (skipped s !! p). }
  apply spec_ghost. intros [s' y]. apply (spec_pure _ (s' = s ∧ ∃ i, Over i ∅ y ∧ Recorded s i)); [by intros f [? ?] [(_ & -> & Hh) [= -> ->]]|]. intros (-> & i & Ho & Hr).
  eapply (spec_try _ _ _ (fun r f '(s', x) => match r with Installed => Over ({[p]} ∪ i) f x | Skipped _ => has ":" p = true ∧ Over i f x end) (fun _ f '(s', x) => Over i f x)).
  - apply spec_host. intros s'. eapply spec_weaken; [by apply (spec_route_replace i p), (se_proper _ _ Hset)|by intros f x [_ [= _ ->]]|done|done].
  - destruct Hr as [Hi Hl Hs]. intros [|e]; apply spec_put; intros s' f x Hx; cbn; (split; [set_solver|]); (split; [set_solver|]).
    + split; [intros q Hq; by rewrite lookup_delete_ne|]. split; [left; set_solver|]. eexists. split; [exact Hx|]. split; cbn; [set_solver|set_solver|].
      intros q Hq%delete_present. auto.
    + split; [intros q Hq; by rewrite lookup_insert_ne|]. split; [right; by rewrite lookup_insert_eq|]. destruct Hx as [H6 Hx]. exists i. split; [done|]. split; cbn; [done|done|].
      intros q. destruct (decide (q = p)) as [->|Hq]; [done|]. rewrite lookup_insert_ne by done. auto.
  - intros e. eapply (spec_bind _ _ _ (fun _ f '(s', x) => installed s' = installed s ∧ (∀ q, q ≠ p → skipped s' !! q = skipped s !! q) ∧ Held s' f x)); [|intros u; by apply spec_err].
    apply spec_put. intros s' f x Hx. cbn. split; [done|]. split; [intros q Hq; by rewrite lookup_delete_ne|]. exists i. split; [done|]. destruct Hr as [Hi Hl Hs]. split; cbn; [done|done|].
    intros q Hq%delete_present. auto.
Qed.

Lemma elem_of_items (S : gset string) p : p ∈ set_items S ↔ p ∈ S.
Proof. by rewrite set_items_perm, elem_of_elements. Qed.
Lemma NoDup_items (S : gset string) : NoDup (set_items S).
Proof. rewrite set_items_perm. apply NoDup_elements. Qed.

(** The state, in a specification of what is done to it. *)
Lemma spec_states {S A : Type} (P : S → Prop) (V : S → gmap string string → list rib → Prop) (m : st (S * H) ApplyError A) Q E :
  (∀ s, P s → spec (fun f '(s', x) => s' = s ∧ V s f x) m Q E) → spec (fun f '(s, x) => P s ∧ V s f x) m Q E.
Proof.
  intros Hm h r h' Hp Hr. destruct (kernel h) as [s x] eqn:Hk. destruct Hp as [Hp Hv]. specialize (Hm s Hp h r h'). rewrite Hk in Hm. by apply Hm.
Qed.

Lemma spec_drop_routes s0 obsolete : obsolete ⊆ installed s0 →
  spec (fun f '(s, x) => installed s = installed s0 ∧ Held s f x) (try_each (set_items obsolete) (drop_route (fun p => route_del (H:=H) Linux p dev)))
    (fun errors f '(s, x) => (installed s ⊆ installed s0 ∧ Forall (fun r => is_Some (err_of r)) errors ∧ (errors = [] → installed s ## obsolete)) ∧ Held s f x) (fun _ _ _ => False).
Proof.
  intros Hobs. set (I := fun (d : list string) f '(s, x) => (installed s ⊆ installed s0 ∧ (∀ p, p ∈ d → p ∉ installed s) ∧ (∀ p, p ∈ installed s0 → p ∉ d → p ∈ installed s)) ∧ Held s f x).
  eapply spec_weaken; [apply (spec_try_done I _ _ (fun _ _ _ => False) []); [|apply NoDup_items|by intros p _ ?%elem_of_nil]|..|done].
  - intros p d Hp%elem_of_items Hpd. unfold I. apply (spec_states _ Held). intros s (Hsub & Hgone & Hkeep).
    eapply spec_weaken; [apply (spec_drop_route s p); by apply Hkeep; [apply Hobs|]|done| |by intros e f [s' x] [-> Hh]].
    intros u f [s' x] [-> Hh]. split; [|done]. cbn. split; [set_solver|]. split; [set_solver|]. intros q Hq Hqd. apply elem_of_difference. set_solver.
  - intros f [s x] [Hs Hh]. split; [|done]. rewrite Hs. split; [done|]. split; [by intros p ?%elem_of_nil|done].
  - intros errors f [s x] (d & [(Hsub & Hgone & _) Hh] & He & Hd). split; [|done]. split; [done|]. split; [done|]. intros Hnil p Hp1 Hp2.
    apply (Hgone p); [|done]. apply (Hd Hnil). rewrite elem_of_app, elem_of_items. by left.
Qed.

Lemma spec_add_routes s0 missing_ : missing_ ⊆ D →
  spec (fun f '(s, x) => s = s0 ∧ Held s f x) (try_each (set_items missing_) (add_route epoch now (fun p => route_replace (H:=H) Linux p dev)))
    (fun errors f '(s, x) => (installed s0 ⊆ installed s ∧ installed s ⊆ installed s0 ∪ missing_ ∧ Forall (fun r => is_Some (err_of r)) errors ∧
       (errors = [] → ∀ p, p ∈ missing_ → p ∈ installed s ∨ skipped s !! p ≠ None)) ∧ Held s f x) (fun _ _ _ => False).
Proof.
  intros HD. set (I := fun (d : list string) f '(s, x) => (installed s0 ⊆ installed s ∧ installed s ⊆ installed s0 ∪ missing_ ∧ ∀ p, p ∈ d → p ∈ installed s ∨ skipped s !! p ≠ None) ∧ Held s f x).
  eapply spec_weaken; [apply (spec_try_done I _ _ (fun _ _ _ => False) []); [|apply NoDup_items|by intros p _ ?%elem_of_nil]|..|done].
  - intros p d Hp%elem_of_items Hpd. unfold I. apply (spec_states _ Held). intros s (Hsub & Hup & Hd).
    eapply spec_weaken; [apply (spec_add_route s p), HD, Hp|done| |].
    + intros u f [s' x] (Hi & Hi' & Hsk & Hin & Hh). split; [|done]. split; [set_solver|]. split; [set_solver|]. intros q [->|Hq]%elem_of_cons; [done|].
      destruct (Hd q Hq) as [|Hq']; [left; by apply Hi|]. right. rewrite Hsk; [done|]. by intros ->.
    + intros e f [s' x] (Hi & Hsk & Hh). rewrite Hi. split; [|done]. split; [done|]. split; [done|]. intros q Hq. rewrite Hsk by (by intros ->). auto.
  - intros f [s x] [-> Hh]. split; [|done]. split; [done|]. split; [set_solver|]. by intros p ?%elem_of_nil.
  - intros errors f [s x] (d & [(H1 & H2 & H3) Hh] & He & Hd). split; [|done]. split; [done|]. split; [done|]. split; [done|]. intros Hnil p Hp.
    apply H3, (Hd Hnil). rewrite elem_of_app, elem_of_items. by left.
Qed.

(** The routes are the desired ones: each there, or an IPv6 route the host has no place for. *)
Definition overlay_done (desired : gset string) (s : Routes) : Prop :=
  installed s ⊆ desired ∧ ∀ p, p ∈ desired → p ∈ installed s ∨ has ":" p = true ∧ skipped s !! p ≠ None.

Lemma spec_sync_routes desired : desired ⊆ D →
  spec (fun f '(s, x) => Held s f x) (sync_routes epoch now (fun p => route_replace (H:=H) Linux p dev) (fun p => route_del Linux p dev) desired)
    (fun _ f '(s, x) => overlay_done desired s ∧ Held s f x) (fun _ f '(s, x) => Held s f x).
Proof.
  intros HD. unfold sync_routes, modify_state. eapply (spec_bind _ _ _ (fun _ f '(s, x) => Held s f x)).
  { eapply spec_bind; [apply (spec_get _ (fun q f '(s, x) => Held q f x)); done|]. intros q. apply spec_put. intros s f x (i & Ho & [Hi Hl Hs]). exists i. split; [done|].
    split; cbn; [done|done|]. intros p Hp. apply Hs. intros Hn. apply Hp. apply map_lookup_filter_None. by left. }
  intros u. eapply spec_bind; [apply (spec_get _ (fun q f '(s, x) => installed s = installed q ∧ Held s f x)); done|]. intros s1.
  eapply spec_bind; [apply spec_total, spec_drop_routes; set_solver|]. intros errors1.
  eapply spec_bind; [apply (spec_get _ (fun q f '(s, x) => s = q ∧ (installed q ⊆ installed s1 ∧ Forall (fun r => is_Some (err_of r)) errors1 ∧
    (errors1 = [] → installed q ## installed s1 ∖ desired)) ∧ Held s f x)); done|]. intros s2.
  apply (spec_pure _ (installed s2 ⊆ installed s1 ∧ Forall (fun r => is_Some (err_of r)) errors1 ∧ (errors1 = [] → installed s2 ## installed s1 ∖ desired)));
    [by intros f [s x] (_ & ? & _)|]. intros (H1 & Hf1 & Hd1).
  eapply spec_bind; [apply spec_total; eapply spec_weaken; [apply (spec_add_routes s2 (desired ∖ installed s2)); set_solver|by intros f [s x] (-> & _ & Hh)|intros a f y Hy; exact Hy|done]|].
  intros errors2. apply spec_lift; [unfold all; by destruct (dedup _)|..|by intros e f [s x] _ [_ Hh]].
  intros [] f [s x] Ha%all_ok [(Hs & Hs' & Hf2 & Hd2) Hh]. apply Forall_app in Ha as [Ha1 Ha2]. apply failed_nil in Ha1; [|done]. apply failed_nil in Ha2; [|done].
  split; [|done]. specialize (Hd1 Ha1). specialize (Hd2 Ha2). assert (installed s2 ⊆ desired) as Hsub.
  { intros p Hp. destruct (decide (p ∈ desired)) as [|Hn]; [done|]. exfalso. apply (Hd1 p); [done|]. set_solver. }
  split; [set_solver|]. intros p Hp. destruct (decide (p ∈ installed s2)) as [|Hn]; [left; by apply Hs|].
  destruct (Hd2 p) as [|Hk]; [set_solver|by left|]. right. split; [|done]. destruct Hh as (i & _ & [_ _ Hsk]). by apply Hsk.
Qed.
End Add.
End At.
End Overlay.
