(* ===== verification/TunnelSpec.v ===== *)
(** * The exit of a node

    [sync_exit], [retire_exit] and [remove_exit] keep one full tunnel: the one applied, or what
    is left of one that failed.  The carriers and the overlay's routes stay as they are. *)

From Stdlib Require Import Strings.Ascii Strings.String.
From S2P Require Import Prelude.
From S2P Require Import Words.
From S2P Require Import NetText.
From S2P Require Import Prefix.
From S2P Require Import RouteTable.
From S2P Require Import Apply.
From S2P Require Import Domain.
From S2P Require Import NodeConfig.
From S2P Require Import HostRun.
From S2P Require Import Rib.
From S2P Require Import HostRoutes.
From S2P Require Import ExitSpec.
From S2P Require Import Bypass.
From S2P Require Import BypassSpec.
From S2P Require Import HostEffects.
From S2P Require Import HostAccount.
From S2P Require Import OverlaySpec.

Section Zoom.
Context {H X S T : Type} `{!HostOs H} `{!HostLaws H X}.

Lemma spec_zoom {A : Type} (get : T → S) (put : S → T → T) (m : st (S * H) ApplyError A) (P : gmap string string → T * X → Prop) Q E :
  (∀ w, spec (fun f '(s, x) => s = get w ∧ P f (w, x)) m (fun a f '(s, x) => Q a f (put s w, x)) (fun e f '(s, x) => E e f (put s w, x))) →
  spec P (zoom get put m) Q E.
Proof.
  intros Hm [w h] r h' Hp. unfold zoom. destruct (m (get w, h)) as [y [s h1]] eqn:Hy. specialize (Hm w (get w, h) y (s, h1) (conj eq_refl Hp) Hy). by intros [= <- <-].
Qed.
End Zoom.

Section Tunnel.
Context {H : Type} `{!HostOs H} `{!HostLaws H (list rib)} `{!Serde Json} `{!RibLaws H}.
Context (dev : string) (t0 : rib) (D : gset string) (Hset : Setting t0 D).
Context (o : gmap string Via) (i : gset string) (x0 : list rib).
Implicit Types (l L : list key) (t : rib) (p : ExitProgress) (x : list rib) (f : gmap string string).
Abbreviation Accounted := (Accounted dev t0 D).

(** ** One record *)

(** The table agrees with the record of the full tunnel. *)
Definition Tunnel p t : Prop := PInv dev (without (record_keys p) t) REDIRECTS p t.

Lemma pinv_tunnel b U p t : PInv dev b U p t → record_keys p ⊆ REDIRECTS → Tunnel p t.
Proof.
  intros [Ha Hn Hw Hd Hg Hb] Hr. split; try done. intros k. split; intros Hk.
  - rewrite lookup_without_in by done. split; [|done]. by apply (Ha k).
  - by rewrite lookup_without_out.
Qed.

Lemma tunnel_nil p t : record_keys p = [] → Tunnel p t.
Proof.
  intros Hp. assert (Hp' := Hp). unfold record_keys in Hp'. apply app_nil in Hp' as [Hd%fmap_nil_inv [Hc%fmap_nil_inv Hb%fmap_nil_inv]%app_nil].
  split; rewrite ?Hp, ?Hd, ?Hc, ?Hb; try (by intros ? ?%elem_of_nil); [|constructor].
  intros k. split; [by intros ?%elem_of_nil|]. intros Hk. by rewrite lookup_without_out.
Qed.

(** The tables have these carriers and routes, and redirections within [L]. *)
Definition Redirected L t : Prop := ∃ l, l ⊆ L ∧ Accounted l o i t.
Definition Kept_ L p f x : Prop := Tunnel p (cur x) ∧ Accounted (record_keys p) o i (cur x) ∧ record_keys p ⊆ L ∧ Trace (Redirected L) x0 x.

Lemma accounted_free l t k : Accounted l o i t → k ∈ REDIRECTS → without l t !! k = None.
Proof.
  intros Ha Hk. destruct (decide (k ∈ l)) as [|Hn]; [by apply lookup_without_in|]. rewrite lookup_without_out by done.
  rewrite (ac_rest _ _ _ _ _ _ _ Ha); [by apply (se_redirects _ _ Hset)|done|]. intros p ->.
  destruct (o !! p) as [v|] eqn:Hv; [exfalso|split; [done|]; intros Hp]; destruct (accounted_apart dev t0 D Hset _ _ _ _ p Ha) as [? _]; try done.
  - left. congruence.
  - by right.
Qed.

Lemma pinv_kept b L p x f : Accounted (record_keys p) o i (cur x) → PInv dev b L p (cur x) → L ⊆ REDIRECTS → Trace (Redirected L) x0 x → Kept_ L p f x.
Proof. intros Ha Hi HL Ht. split; [eapply pinv_tunnel; [done|]; etrans; [apply Hi|done]|]. split; [done|]. split; [apply Hi|done]. Qed.

Lemma good_redirected l t' L B t : Accounted l o i t' → L ⊆ REDIRECTS → Good (without l t') L B t → Redirected L t.
Proof. intros Ha HL (l' & Hl & Hacc & _). exists l'. split; [done|]. eapply accounted_exit; [done|exact Ha|done|]. by etrans. Qed.

(** Taking down what is left. *)
Lemma spec_cleanup_kept L : L ⊆ REDIRECTS →
  spec (fun f '(p, x) => Kept_ L p f x) (cleanup_exit (H:=H) Linux dev) (fun _ f '(p, x) => record_keys p = [] ∧ Kept_ L p f x) (fun _ f '(p, x) => Kept_ L p f x).
Proof.
  intros HL. apply spec_ghost. intros [p1 x1]. apply (spec_pure _ (Kept_ L p1 ∅ x1)); [by intros f [p x] [Hk [= -> ->]]|]. intros (Hp1 & Ha & Hr & Ht).
  set (b := without (record_keys p1) (cur x1)). assert (PInv dev b L p1 (cur x1)) as Hi by (by destruct Hp1).
  assert (∀ p x f seg, x = seg ++ x1 → PInv dev b L p (cur x) → Forall (Good b L (bkey <$> ep_bypass p1)) seg → Kept_ L p f x) as Hout.
  { intros p x f seg -> Hp Hs. eapply pinv_kept; [|done|done|].
    - eapply (accounted_exit dev t0 D Hset _ _ _ _ _ _ Ha); [apply Hp|]. etrans; [apply Hp|done].
    - eapply trace_trans; [done|]. exists seg. split; [done|]. eapply list.Forall_impl; [exact Hs|]. intros t. by apply good_redirected. }
  eapply spec_weaken; [apply (spec_down dev b L "" "" p1 x1)|..].
  - by intros f [p x] [_ [= -> ->]].
  - intros u f [p x] (Hnil & Hp & seg & Hx & Hs). split; [done|]. by eapply Hout.
  - intros e f [p x] (_ & Hp & seg & Hx & Hs). by eapply Hout.
Qed.

(** A record of nothing: the tables stay. *)
Lemma spec_cleanup_idle x1 :
  spec (fun f '(p, x) => record_keys p = [] ∧ x = x1) (cleanup_exit (H:=H) Linux dev)
    (fun _ f '(p, x) => record_keys p = [] ∧ cur x = cur x1 ∧ Trace (eq (cur x1)) x1 x) (fun _ f '(p, x) => record_keys p = [] ∧ cur x = cur x1 ∧ Trace (eq (cur x1)) x1 x).
Proof.
  apply spec_ghost. intros [p1 x2]. apply (spec_pure _ (record_keys p1 = [] ∧ x2 = x1)); [by intros f [p x] [Hk [= -> ->]]|]. intros [Hp1 ->].
  assert (PInv dev (cur x1) [] p1 (cur x1)) as Hi.
  { destruct (tunnel_nil p1 (cur x1) Hp1) as [_ Hn _ Hd Hg Hb]. split; try done; rewrite Hp1; [|done]. intros k. split; [by intros ?%elem_of_nil|done]. }
  assert (∀ p x seg, x = seg ++ x1 → PInv dev (cur x1) [] p (cur x) → Forall (Good (cur x1) [] (bkey <$> ep_bypass p1)) seg →
    record_keys p = [] ∧ cur x = cur x1 ∧ Trace (eq (cur x1)) x1 x) as Hout.
  { intros p x seg -> Hp Hs. assert (record_keys p = []) as Hnil by (apply list_nil_subseteq; apply Hp). split; [done|]. split.
    - destruct Hp as [Ha _ _ _ _ _]. rewrite Hnil in Ha. apply map_eq. intros k. apply (Ha k). by intros ?%elem_of_nil.
    - exists seg. split; [done|]. eapply list.Forall_impl; [exact Hs|]. intros t (l & Hl & Ha & _). apply list_nil_subseteq in Hl as ->.
      symmetry. apply map_eq. intros k. apply (Ha k). by intros ?%elem_of_nil. }
  eapply spec_weaken; [apply (spec_down dev (cur x1) [] "" "" p1 x1)|..].
  - by intros f [p x] [_ [= -> ->]].
  - intros u f [p x] (_ & Hp & seg & Hx & Hs). by eapply Hout.
  - intros e f [p x] (_ & Hp & seg & Hx & Hs). by eapply Hout.
Qed.

Lemma spec_up_kept g ph :
  spec (fun f '(p, x) => Kept_ REDIRECTS p f x) (exit_up (H:=H) Linux dev g ph [])
    (fun _ f '(p, x) => complete_tunnel dev [] p ∧ Kept_ REDIRECTS p f x) (fun _ f '(p, x) => Kept_ REDIRECTS p f x).
Proof.
  apply spec_ghost. intros [p1 x1]. apply (spec_pure _ (Kept_ REDIRECTS p1 ∅ x1)); [by intros f [p x] [Hk [= -> ->]]|]. intros (Hp1 & Ha & Hr & Ht).
  set (b := without (record_keys p1) (cur x1)).
  assert (∀ p x f, PInv dev b REDIRECTS p (cur x) → Kept b REDIRECTS p1 p x1 x → Kept_ REDIRECTS p f x) as Hout.
  { intros p x f Hp (seg1 & seg2 & B & -> & Hs1 & Hs2 & _). eapply pinv_kept; [|done|done|].
    - eapply (accounted_exit dev t0 D Hset _ _ _ _ _ _ Ha); apply Hp.
    - eapply trace_trans; [done|]. exists (seg2 ++ seg1). rewrite app_assoc. split; [done|].
      apply Forall_app; split; (eapply list.Forall_impl; [eassumption|]); intros t; by apply good_redirected. }
  eapply spec_weaken; [apply (spec_up dev b REDIRECTS ltac:(done) (fun k => accounted_free _ _ k Ha) g ph [] p1 x1)|..].
  - split; [constructor|]. by intros ? ?%elem_of_nil.
  - by intros f [p x] [_ [= -> ->]].
  - intros v f [p x] (_ & Hc & Hp & Hk). split; [done|]. by eapply Hout.
  - intros e f [p x] (Hp & Hk). by eapply Hout.
Qed.

(** ** The exit applied, and what is left of one that failed *)

Abbreviation exits := (option ExitTunState * ExitProgress)%type.
Implicit Types e : exits.

Definition current e : ExitProgress := match e.1 with Some s => progress s | None => e.2 end.

(** An exit is applied with nothing left of another, and completely as long as it is not being torn down. *)
Definition settled e : Prop := match e.1 with
  | Some s => exit_dev s = dev ∧ record_keys e.2 = [] ∧ (teardown_started s = false → complete_tunnel dev [] (progress s))
  | None => True
  end.
Definition Exits L e f x : Prop := settled e ∧ Kept_ L (current e) f x.

Lemma spec_remove_exit L (e1 : option ExitTunState) : L ⊆ REDIRECTS →
  spec (fun f '(e, x) => e.1 = e1 ∧ Exits L e f x) (remove_exit (H:=H))
    (fun _ f '(e, x) => (e1 ≠ None → e.1 ≠ None) ∧ (e.1 ≠ None → record_keys (current e) = []) ∧ Exits L e f x) (fun _ f '(e, x) => Exits L e f x).
Proof.
  intros HL. unfold remove_exit. eapply spec_bind; [apply (spec_get _ (fun q f '(e, x) => e = q ∧ e.1 = e1 ∧ Exits L e f x)); done|]. intros [[old|] ep].
  - apply (spec_pure _ (settled (Some old, ep))); [by intros f [e x] (-> & _ & Hs & _)|]. intros (Hdev & Hep & _). rewrite Hdev.
    apply spec_zoom. intros w. apply (spec_pure _ (w = (Some old, ep))); [by intros f [p x] (_ & ? & _)|]. intros ->.
    eapply spec_weaken; [by apply (spec_cleanup_kept L)|by intros f [p x] (-> & _ & _ & _ & Hk)|..].
    + intros u f [p x] [Hnil Hk]. split; [done|]. split; [done|]. split; [by split|exact Hk].
    + intros e f [p x] Hk. split; [by split|exact Hk].
  - apply spec_ret. intros f [e x] (-> & <- & He). by split.
Qed.

(** Once nothing is left of it, the exit can be forgotten. *)
Lemma spec_forget_exit L : L ⊆ REDIRECTS →
  spec (fun f '(e, x) => e.1 ≠ None ∧ Exits L e f x) (_ ← remove_exit (H:=H); clear_exit)
    (fun _ f '(e, x) => e.1 = None ∧ record_keys (current e) = [] ∧ Exits L e f x) (fun _ f '(e, x) => Exits L e f x).
Proof.
  intros HL. apply spec_ghost. intros [[e1 ep1] x1]. apply (spec_pure _ (e1 ≠ None)); [by intros f [e x] [[? _] [= -> ->]]|]. intros Hsome.
  eapply spec_bind; [eapply spec_weaken; [by apply (spec_remove_exit L e1)|by intros f [e x] [[_ He] [= -> ->]]|intros a f y Hy; exact Hy|done]|].
  intros u. unfold clear_exit, modify_state.
  eapply spec_bind; [apply (spec_get _ (fun q f '(e, x) => q.1 ≠ None ∧ record_keys (current q) = [] ∧ Exits L q f x)); naive_solver|]. intros [q1 q2].
  apply spec_put. intros e f x (Hq & Hn & (Hs & Ht & Ha & Hr & Hx)). destruct q1 as [s|]; [|done]. destruct Hs as (_ & Hep & _). cbn in *. split; [done|]. split; [done|].
  rewrite Hn in Ha, Hr. split; [done|]. split; [by apply tunnel_nil|]. cbn. by rewrite Hep.
Qed.

(** The exit that stays is the selected one, and complete. *)
Definition retired (selected : option (list byte)) e : Prop := ∀ s, e.1 = Some s → Some (exit_peer s) = selected ∧ teardown_started s = false.

Lemma spec_retire_exit L selected : L ⊆ REDIRECTS →
  spec (fun f '(e, x) => Exits L e f x) (retire_exit (H:=H) selected) (fun _ f '(e, x) => retired selected e ∧ Exits L e f x) (fun _ f '(e, x) => Exits L e f x).
Proof.
  intros HL. unfold retire_exit, retire_exit_with.
  eapply spec_bind; [apply (spec_get _ (fun q f '(e, x) => e = q ∧ Exits L e f x)); done|]. intros [e1 ep1].
  eapply spec_bind; [apply (spec_get _ (fun (q : exits) f '((e, x) : exits * list rib) => q = (e1, ep1) ∧ e = q ∧ Exits L e f x)); by intros e f x [-> ?]|]. intros q.
  apply (spec_pure _ (q = (e1, ep1))); [by intros f [e x] (? & _)|]. intros ->. set (target := if match e1 with Some s => teardown_started s | None => false end then None else selected).
  destruct (bool_decide (exit_peer <$> e1 = target) || bool_decide (e1 = None)) eqn:Hb.
  - apply spec_ret. intros f [e x] (_ & -> & He). split; [|done]. intros s Hs. cbn in Hs. subst e1. cbn in Hb. unfold target in Hb.
    destruct (teardown_started s); [done|]. rewrite orb_false_r, bool_decide_eq_true in Hb. done.
  - eapply spec_weaken; [by apply (spec_forget_exit L)| | |done].
    + intros f [e x] (_ & -> & He). apply orb_false_iff in Hb as [_ Hb%bool_decide_eq_false]. done.
    + intros u f [e x] (Hn & _ & He). split; [|done]. intros s Hs. congruence.
Qed.

(** ** Applying an exit *)

Lemma selected_exit_find peers pk : selected_exit peers = Some pk → ∃ n ex, list_find (fun q => pi_pubkey q = pk) peers = Some (n, ex) ∧ pi_pubkey ex = pk.
Proof.
  unfold selected_exit. destruct (list_find _ peers) as [[n p]|] eqn:Hf; cbn; [|done]. intros [= <-]. apply list_find_Some in Hf as (Hp & _ & _).
  destruct (list_find (fun q => pi_pubkey q = pi_pubkey p) peers) as [[m ex]|] eqn:Hg.
  - exists m, ex. split; [done|]. apply list_find_Some in Hg. naive_solver.
  - apply list_find_None in Hg. eapply list.Forall_forall in Hg; [|by eapply list_elem_of_lookup_2]. done.
Qed.

Lemma spec_physical_iface (P : gmap string string → list rib → Prop) : spec P (physical_iface (H:=H) Linux) (fun _ => P) (fun _ => P).
Proof. unfold physical_iface. eapply (spec_bind _ _ _ (fun _ => P)); [apply spec_default_query|intros r; by apply spec_ret]. Qed.
Lemma spec_default_gateway (P : gmap string string → list rib → Prop) : spec P (default_gateway (H:=H) Linux) (fun _ => P) (fun _ => P).
Proof. unfold default_gateway. eapply (spec_bind _ _ _ (fun _ => P)); [apply spec_default_query|intros r; by apply spec_ret]. Qed.

Lemma spec_apply_exit peers pk : selected_exit peers = Some pk →
  spec (fun f '(p, x) => Kept_ REDIRECTS p f x) (apply_exit (H:=H) peers dev [])
    (fun r f '(p, x) => ∃ s, r = Some s ∧ exit_peer s = pk ∧ exit_dev s = dev ∧ teardown_started s = false ∧ complete_tunnel dev [] (progress s) ∧ record_keys p = [] ∧ Kept_ REDIRECTS (progress s) f x)
    (fun _ f '(p, x) => Kept_ REDIRECTS p f x).
Proof.
  intros Hs. unfold apply_exit. rewrite Hs. cbn [mbind option_bind]. destruct (selected_exit_find peers pk Hs) as (n & ex & -> & Hex).
  set (P := fun f '(p, x) => Kept_ REDIRECTS p f x). eapply (spec_bind _ _ _ (fun _ => P)); [apply spec_host; intros p; apply spec_default_gateway|]. intros gw.
  eapply (spec_bind _ _ _ (fun _ => P)); [apply spec_host; intros p; apply spec_physical_iface|]. intros ph.
  destruct gw as [gw|]; [|by apply spec_err]. destruct ph as [ph|]; [|by apply spec_err]. cbn [mapM].
  eapply (spec_bind _ _ _ (fun r f y => r = [] ∧ P f y)); [apply spec_host; intros p; by apply spec_ret|]. intros r. apply (spec_pure _ (r = [])); [by intros f y []|]. intros ->.
  eapply spec_bind; [eapply spec_weaken; [apply spec_up_kept|by intros f [p x] []|intros a f y Hy; exact Hy|done]|]. intros b.
  eapply spec_bind; [apply (spec_get _ (fun q f '(p, x) => complete_tunnel dev [] q ∧ Kept_ REDIRECTS q f x)); done|]. intros q.
  eapply spec_bind; [apply (spec_put _ _ (fun _ f '(p, x) => p = exit_progress_default ∧ complete_tunnel dev [] q ∧ Kept_ REDIRECTS q f x)); done|]. intros u.
  apply spec_ret. intros f [p x] (-> & Hc & Hk). eexists. split; [done|]. cbn. by repeat (split; [done|]).
Qed.

(** What a successful synchronisation leaves. *)
Definition exit_synced (selected : option (list byte)) e : Prop := match selected with
  | Some pk => ∃ s, e.1 = Some s ∧ exit_peer s = pk ∧ teardown_started s = false
  | None => e.1 = None ∧ record_keys (current e) = []
  end.

(** What is left of a failed exit is taken down; where an exit is applied, that is nothing. *)
Lemma spec_pending L (e1 : option ExitTunState) : L ⊆ REDIRECTS →
  spec (fun f '(e, x) => e.1 = e1 ∧ Exits L e f x) (zoom snd (fun p y => (y.1, p)) (cleanup_exit (H:=H) Linux dev))
    (fun _ f '(e, x) => e.1 = e1 ∧ record_keys e.2 = [] ∧ Exits L e f x) (fun _ f '(e, x) => e.1 = e1 ∧ Exits L e f x).
Proof.
  intros HL. apply spec_zoom. intros [e2 ep]. cbn [fst snd]. apply (spec_pure _ (e2 = e1)); [by intros f [p x] (_ & ? & _)|]. intros ->. destruct e1 as [s|].
  - apply spec_ghost. intros [p1 x1]. apply (spec_pure _ (p1 = ep ∧ Exits L (Some s, ep) ∅ x1)); [by intros f [p x] [(-> & _ & He) [= -> ->]]|].
    intros (-> & (Hdev & Hep & Hc) & Ht & Ha & Hr & Hx).
    assert (∀ p x f, record_keys p = [] ∧ cur x = cur x1 ∧ Trace (eq (cur x1)) x1 x → Exits L (Some s, p) f x) as Hout.
    { intros p x f (Hp & Hcur & Htr). split; [by split|]. unfold Kept_. rewrite Hcur. split; [done|]. split; [done|]. split; [done|].
      eapply trace_trans; [done|]. eapply trace_mono; [|done]. intros t <-. by eexists. }
    eapply spec_weaken; [apply (spec_cleanup_idle x1)|by intros f [p x] [[-> _] [= ->]]|..].
    + intros u f [p x] Hp. split; [done|]. split; [apply Hp|by apply Hout].
    + intros e f [p x] Hp. split; [done|]. by apply Hout.
  - eapply spec_weaken; [by apply (spec_cleanup_kept L)|by intros f [p x] (-> & _ & _ & Hk)|..].
    + intros u f [p x] [Hp Hk]. by repeat (split; [done|]).
    + intros e f [p x] Hk. by repeat (split; [done|]).
Qed.

Lemma spec_install_exit peers pk : selected_exit peers = Some pk →
  spec (fun f '(e, x) => e.1 = None ∧ Exits REDIRECTS e f x)
    (new ← zoom snd (fun p y => (y.1, p)) (apply_exit (H:=H) peers dev []); modify_state (fun y => (new, y.2)))
    (fun _ f '(e, x) => exit_synced (Some pk) e ∧ Exits REDIRECTS e f x) (fun _ f '(e, x) => Exits REDIRECTS e f x).
Proof.
  intros Hs. eapply (spec_bind _ _ _ (fun r f '(e, x) => ∃ s, r = Some s ∧ exit_peer s = pk ∧ exit_dev s = dev ∧ teardown_started s = false ∧
    complete_tunnel dev [] (progress s) ∧ record_keys e.2 = [] ∧ Kept_ REDIRECTS (progress s) f x)).
  - apply spec_zoom. intros [e1 ep]. cbn [fst snd]. apply (spec_pure _ (e1 = None)); [by intros f [p x] (_ & ? & _)|]. intros ->.
    eapply spec_weaken; [by apply (spec_apply_exit peers pk)|by intros f [p x] (-> & _ & _ & Hk)|done|]. intros e f [p x] Hk. by split.
  - intros r. unfold modify_state. eapply spec_bind; [apply (spec_get _ (fun q f '(e, x) => ∃ s, r = Some s ∧ exit_peer s = pk ∧ exit_dev s = dev ∧ teardown_started s = false ∧
      complete_tunnel dev [] (progress s) ∧ record_keys q.2 = [] ∧ Kept_ REDIRECTS (progress s) f x)); done|]. intros q.
    apply spec_put. intros e f x (s & -> & Hpk & Hdev & Htd & Hc & Hq & Hk). split; [by exists s|]. split; [by split|done].
Qed.

(** [G]: the exit that is applied was retired unless it is the selected one. *)
Lemma spec_sync_exit (G : Prop) peers :
  spec (fun f '(e, x) => (G → retired (selected_exit peers) e) ∧ Exits REDIRECTS e f x) (sync_exit (H:=H) peers dev)
    (fun _ f '(e, x) => (G → exit_synced (selected_exit peers) e) ∧ Exits REDIRECTS e f x) (fun _ f '(e, x) => Exits REDIRECTS e f x).
Proof.
  unfold sync_exit. set (sel := selected_exit peers). apply spec_ghost. intros [[e1 ep1] x1].
  apply (spec_pure _ (G → retired sel (e1, ep1))); [by intros f [e x] [[Hr _] [= -> ->]]|]. intros Hret.
  eapply (spec_bind _ _ _ (fun _ f '(e, x) => e.1 = e1 ∧ record_keys e.2 = [] ∧ Exits REDIRECTS e f x)).
  { eapply spec_weaken; [by apply (spec_pending REDIRECTS e1)|by intros f [e x] [[_ He] [= -> ->]]|done|by intros er f [e x] []]. }
  intros u. unfold sync_exit_with. eapply spec_bind; [apply (spec_get _ (fun q f '(e, x) => e = q ∧ e.1 = e1 ∧ record_keys e.2 = [] ∧ Exits REDIRECTS e f x)); done|].
  intros [e2 ep]. apply (spec_pure _ (e2 = e1)); [by intros f [e x] (-> & ? & _)|]. intros ->. case_bool_decide as Heq.
  { apply spec_ret. intros f [e x] (-> & _ & Hep & He). split; [|done]. intros HG. unfold exit_synced. destruct sel as [pk|].
    - destruct e1 as [s|]; [|done]. cbn in Heq. injection Heq as Heq. exists s. split; [done|]. split; [done|]. by apply (Hret HG s).
    - destruct e1; [done|]. by split. }
  eapply (spec_bind _ _ _ (fun _ f '(e, x) => (sel = None → record_keys (current e) = []) ∧ e.1 = None ∧ Exits REDIRECTS e f x)).
  { case_bool_decide as Hnone.
    - apply spec_ret. intros f [e x] (-> & _ & Hep & He). cbn in *. by rewrite Hnone in *.
    - eapply spec_weaken; [by apply (spec_forget_exit REDIRECTS)|by intros f [e x] (-> & _ & _ & He)|by intros w f [e x] (? & ? & ?)|done]. }
  intros v. case_bool_decide as Hsel.
  - apply spec_ret. intros f [e x] (Hn & He1 & He). rewrite Hsel. split; [|done]. intros _. split; [done|]. by apply Hn.
  - destruct sel as [pk|] eqn:Hpk; [|done]. eapply spec_weaken; [by apply (spec_install_exit peers pk)|by intros f [e x] (_ & ? & ?)|by intros w f [e x] [? ?]|done].
Qed.
End Tunnel.
