(* ===== verification/NodeSpec.v ===== *)
(** * What a node does to the routing table

    [NodeInv]: the table is the one found plus the routes the node's records name.  Every step
    of [HostEffects] keeps it, whatever fails on the way. *)

From Stdlib Require Import Strings.Ascii Strings.String.
From S2P Require Import Prelude.
From S2P Require Import Words.
From S2P Require Import NetAddr.
From S2P Require Import NetText.
From S2P Require Import Prefix.
From S2P Require Import RouteTable.
From S2P Require Import Apply.
From S2P Require Import Domain.
From S2P Require Import NodeConfig.
From S2P Require Import HostRun.
From S2P Require Import Rib.
From S2P Require Import HostRoutes.
From S2P Require Import ExitSpec.
From S2P Require Import Bypass.
From S2P Require Import BypassSpec.
From S2P Require Import HostEffects.
From S2P Require Import HostAccount.
From S2P Require Import OverlaySpec.
From S2P Require Import TunnelSpec.

(** ** What leaves the routing table alone *)

Section Stays.
Context {H : Type} `{!HostOs H} `{!HostLaws H (list rib)}.

Definition stays {A} (m : st H ApplyError A) : Prop := ∀ P : list rib → Prop, spec (fun _ => P) m (fun _ _ => P) (fun _ _ => P).
Definition stays_with {S A : Type} (m : st (S * H) ApplyError A) : Prop := ∀ P : list rib → Prop,
  spec (fun _ '(_, x) => P x) m (fun _ _ '(_, x) => P x) (fun _ _ '(_, x) => P x).

Context {S : Type}.
Lemma stays_host {A} (m : st H ApplyError A) : stays m → stays_with (on_host m : st (S * H) ApplyError A).
Proof. intros Hm P. apply spec_host. intros s. apply Hm. Qed.
Lemma stays_get : stays_with (get_state : st (S * H) ApplyError S).
Proof. intros P. by apply spec_get. Qed.
Lemma stays_put (s : S) : stays_with (put_state s : st (S * H) ApplyError unit).
Proof. intros P. by apply spec_put. Qed.
Lemma stays_ret {A} (a : A) : stays_with (mret a : st (S * H) ApplyError A).
Proof. intros P. by apply spec_ret. Qed.
Lemma stays_lift {A} (r : res ApplyError A) : r ≠ Panic → stays_with (lift r : st (S * H) ApplyError A).
Proof. intros Hr P. by apply spec_lift. Qed.
Lemma stays_bind {A B} (m : st (S * H) ApplyError A) (k : A → st (S * H) ApplyError B) : stays_with m → (∀ a, stays_with (k a)) → stays_with (m ≫= k).
Proof. intros Hm Hk P. eapply spec_bind; [apply (Hm P)|]. intros a. apply Hk. Qed.
Lemma stays_attempt {A} (m : st (S * H) ApplyError A) : stays_with m → stays_with (attempt m).
Proof. intros Hm P. apply spec_tried. apply Hm. Qed.
Lemma stays_modify (g : S → S) : stays_with (modify_state g : st (S * H) ApplyError unit).
Proof. apply stays_bind; [apply stays_get|]. intros s. apply stays_put. Qed.
Lemma stays_zoom {T A : Type} (get : S → T) (put : T → S → S) (m : st (T * H) ApplyError A) : stays_with m → stays_with (zoom get put m).
Proof. intros Hm P. apply spec_zoom. intros w. eapply spec_weaken; [apply (Hm P)|by intros f [s x] []|done|done]. Qed.
End Stays.

Create HintDb stays.
#[export] Hint Resolve stays_host stays_get stays_put stays_ret stays_bind stays_attempt stays_modify stays_zoom : stays.

(** The backends leave it alone. *)
Class DnsLaws (H : Type) `{!HostOs H} `{!HostLaws H (list rib)} `{!DnsBackend H} : Prop := {
  stays_set_mode dns full : stays (set_mode (H:=H) dns full);
  stays_clear : stays (clear (H:=H));
  stays_owned : stays (owned_dns (H:=H));
  stays_verify : stays (verify_file (H:=H))
}.
Class BackendLaws (H B : Type) `{!HostOs H} `{!HostLaws H (list rib)} `{!DnsBackend H} `{!Firewall H B} `{!KillSwitch H} : Prop := {
  backend_dns :: DnsLaws H;
  stays_detect : stays (detect (H:=H) (B:=B));
  stays_lease tun : stays (has_lease (H:=H) (B:=B) tun);
  stays_recover tun : stays (recover (H:=H) (B:=B) tun);
  stays_up (b : B) phys tun cidr trust : stays (fw_up (H:=H) b phys tun cidr trust);
  stays_down (b : B) phys tun : stays (fw_down (H:=H) b phys tun);
  stays_guard tun ips retain : stays (guard_sync (H:=H) tun ips retain);
  stays_check tun : stays (guard_check (H:=H) tun)
}.

Section Backends.
Context {H B : Type} `{!HostOs H} `{!HostLaws H (list rib)} `{!Serde Json} `{!RibLaws H} `{!DnsBackend H} `{!Firewall H B} `{!KillSwitch H} `{!BackendLaws H B}.

Lemma stays_sync_dns desired (set : string → st H ApplyError unit) reset : (∀ dns, stays (set dns)) → stays reset → stays_with (sync_dns_with desired set reset).
Proof.
  intros Hs Hr. unfold sync_dns_with. apply stays_bind; [auto with stays|]. intros s. destruct desired as [dns|].
  - destruct (_ || _); auto 10 with stays.
  - destruct (_ || _); auto 10 with stays.
Qed.

Lemma stays_sync_dns_mode desired full (set : string → bool → st H ApplyError unit) reset verify :
  (∀ dns b, stays (set dns b)) → stays reset → stays verify → stays_with (sync_dns_mode_with desired full set reset verify).
Proof.
  intros Hs Hr Hv. unfold sync_dns_mode_with. apply stays_bind; [auto with stays|]. intros u. apply stays_bind.
  - apply stays_zoom, stays_sync_dns; auto.
  - intros v. destruct (full && _); auto with stays.
Qed.

Lemma stays_set_dns dns full : stays (set_dns (H:=H) dns full).
Proof. unfold set_dns. destruct (_ || _); [intros P; by apply spec_lift|apply stays_set_mode]. Qed.

Lemma stays_recover_nat on lease cleanup : stays lease → stays cleanup → stays_with (recover_nat (H:=H) (B:=B) on lease cleanup).
Proof.
  intros Hl Hc. unfold recover_nat. apply stays_bind; [auto with stays|]. intros s. destruct (recovered s); [auto with stays|].
  apply stays_bind; [destruct on; auto with stays|]. intros le. destruct (_ && recovery_deferred s); [auto with stays|].
  apply stays_bind; [auto with stays|]. intros [u|e|]; [auto with stays| |auto with stays]. destruct (_ && _); [auto with stays|]. by apply stays_lift.
Qed.

Lemma stays_reconcile_nat on discover apply : stays discover → (∀ b phys, stays (apply b phys)) → stays_with (reconcile_nat (H:=H) (B:=B) on discover apply).
Proof.
  intros Hd Ha. unfold reconcile_nat. apply stays_bind; [auto with stays|]. intros s. apply stays_bind; [destruct (nat_dirty s); auto with stays|]. intros u.
  apply stays_bind; [auto with stays|]. intros s'. destruct on, (nat_applied s') as [phys|]; try (by auto with stays).
  apply stays_bind; [auto with stays|]. intros d. apply stays_bind; [by apply stays_lift; destruct d|]. intros phys.
  apply stays_bind; [auto with stays|]. intros [v|e|]; auto with stays. apply stays_bind; [auto with stays|]. intros w. by apply stays_lift.
Qed.

Lemma stays_gateway_down phys tun (b : option B) : stays (exit_gateway_down (H:=H) phys tun b).
Proof. destruct b; [apply stays_down|intros P; by apply spec_lift]. Qed.
Lemma stays_gateway_up phys tun cidr trust (b : option B) : stays (exit_gateway_up (H:=H) phys tun cidr trust b).
Proof. destruct b; [apply stays_up|intros P; by apply spec_lift]. Qed.

Lemma stays_sync_nat policy approved tun cidr : stays_with (sync_nat (H:=H) (B:=B) policy approved tun cidr).
Proof.
  unfold sync_nat, policy_sync. destruct (enabled policy); cbn [negb]; [|auto with stays].
  apply stays_bind; [apply stays_recover_nat; [apply stays_lease|apply stays_recover]|]. intros u. apply stays_bind; [auto with stays|]. intros s.
  apply stays_bind; [destruct (_ && _); [|auto with stays]; apply stays_bind; [apply stays_host, stays_detect|auto with stays]|]. intros v. apply stays_bind; [auto with stays|]. intros s'.
  apply stays_reconcile_nat; [intros P; apply spec_physical_iface|]. intros [|] phys; [apply stays_gateway_up|apply stays_gateway_down].
Qed.
Lemma stays_remove_nat tun : stays_with (remove_nat (H:=H) (B:=B) tun).
Proof.
  unfold remove_nat. apply stays_bind; [auto with stays|]. intros s. apply stays_reconcile_nat; [intros P; by apply spec_ret|]. intros b phys. apply stays_gateway_down.
Qed.
End Backends.

(** ** Steps of a node *)

Section Node.
Context {H B : Type} `{!HostOs H} `{!HostLaws H (list rib)} `{!Serde Json} `{!RibLaws H} `{!SetOrder}.
Context `{!DnsBackend H} `{!Firewall H B} `{!KillSwitch H} `{!BackendLaws H B}.
Context (cfg : HostConfig) (t0 : rib) (D : gset string) (Hset : Setting t0 D) (x0 : list rib).
Implicit Types (l L : list key) (K : gmap string Via) (t : rib) (w : HostState B) (x : list rib) (f : gmap string string).
Implicit Types (V : HostState B → list rib → Prop).
Abbreviation dev := (tun_name cfg).
Abbreviation Accounted := (Accounted dev t0 D).
Abbreviation node A := (st (HostState B * H) ApplyError A).
Abbreviation holds V := (fun (_ : gmap string string) '(w, x) => V w x).

Definition exits_of w : option ExitTunState * ExitProgress := (exit_state w, exit_progress w).
Definition carriers_of w : gmap string Via := owned (hr_bypass w).
Definition redirects_of w : list key := record_keys (current (exits_of w)).

Definition NodeInv w t : Prop := ∃ i, settled dev (exits_of w) ∧ Tunnel dev (current (exits_of w)) t ∧
  Accounted (redirects_of w) (carriers_of w) i t ∧ Recorded (hr_routes w) i.

(** Some node's table, with redirections within [L] and at least the carriers [K]. *)
Definition Between L K t : Prop := ∃ l o i, l ⊆ L ∧ K ⊆ o ∧ Accounted l o i t.
Definition Runs L K w x : Prop := NodeInv w (cur x) ∧ redirects_of w ⊆ L ∧ K ⊆ carriers_of w ∧ Trace (Between L K) x0 x.

Definition opened w : Prop := shutdown w = false ∧ manage_host_routes cfg = true.

Lemma spec_gated V (m : node unit) Q E :
  spec (fun _ '(w, x) => opened w ∧ V w x) m Q E → (∀ w f x, ¬ opened w → V w x → Q tt f (w, x)) → spec (holds V) (gated cfg m) Q E.
Proof.
  intros Hm Hc. unfold gated. eapply spec_bind; [apply (spec_get _ (fun q f '(w, x) => w = q ∧ V w x)); done|]. intros q.
  destruct (shutdown q || negb (manage_host_routes cfg)) eqn:Hg.
  - apply spec_ret. intros f [w x] [-> Hv]. apply Hc; [|done]. intros [Ho1 Ho2]. by rewrite Ho1, Ho2 in Hg.
  - eapply spec_weaken; [exact Hm| |done|done]. intros f [w x] [-> Hv]. split; [|done]. apply orb_false_iff in Hg as [? ?%negb_false_iff]. done.
Qed.

Lemma spec_retried V (stage : HostStage) (epoch now : Z) (m : node unit) (Q E : HostState B → list rib → Prop) :
  spec (holds V) m (fun _ => holds Q) (fun _ => holds E) → (∀ w x, V w x → E w x) →
  (∀ w x r, Q w x → Q (put_retry stage r w) x) → (∀ w x r, E w x → E (put_retry stage r w) x) →
  spec (holds V) (retried stage epoch now m) (fun _ => holds Q) (fun _ => holds E).
Proof.
  intros Hm HE HQp HEp [w h] r h' Hp. cbn in Hp. unfold retried, retry_run. set (rt := if bool_decide _ then _ else _).
  assert (∀ y, (let '(r, (retry, (w, h))) := (let '(result, s) := m (w, h) in (result, (retry_after result now rt, s))) in (r, (put_retry stage retry w, h))) = (r, y) →
    match r with Ok _ => Q y.1 (kernel y.2) | Err _ => E y.1 (kernel y.2) | Panic => False end) as Hrun.
  { intros y. specialize (Hm (w, h)). destruct (m (w, h)) as [r1 [w1 h1]]. specialize (Hm r1 (w1, h1) Hp eq_refl). intros [= -> <-]. destruct r; cbn in *; auto. }
  destruct h' as [w' h']. destruct (r_error rt) as [e|]; [destruct (match r_next rt with Some t => now <? t | None => false end)|]; [|apply Hrun..].
  intros [= <- <- <-]. cbn. auto.
Qed.

Lemma spec_zoom_stays {S A : Type} get put (m : st (S * H) ApplyError A) V :
  stays_with m → (∀ s w x, V w x → V (put s w) x) → spec (holds V) (zoom get put m : node A) (fun _ => holds V) (fun _ => holds V).
Proof.
  intros Hm Hv. apply spec_zoom. intros w. eapply spec_weaken; [apply (Hm (fun x => V w x))|by intros f [s x] []|..].
  - intros a f [s x]. apply Hv.
  - intros e f [s x]. apply Hv.
Qed.

Lemma between_mono L L' K K' t : L ⊆ L' → K' ⊆ K → Between L K t → Between L' K' t.
Proof. intros HL HK (l & o & i & Hl & Ho & Ha). exists l, o, i. split; [by etrans|]. split; [by etrans|done]. Qed.
Lemma runs_mono L L' K K' w x : L ⊆ L' → K' ⊆ K → Runs L K w x → Runs L' K' w x.
Proof.
  intros HL HK (Hn & Hr & Hk & Ht). split; [done|]. split; [by etrans|]. split; [by etrans|]. eapply trace_mono; [|done]. intros t. by apply between_mono.
Qed.

Implicit Types (F : HostState B → Prop).

(** The full tunnel's part of the table is that of its redirections. *)
Lemma tunnel_agree t p t' : Tunnel dev p t → (∀ k, k ∈ REDIRECTS → t' !! k = t !! k) → Tunnel dev p t'.
Proof.
  intros [Ha Hn Hw Hd Hg Hb] Hk. split; try done.
  - intros k. split; intros Hin; [|by rewrite lookup_without_out]. rewrite lookup_without_in, Hk by auto. split; [|done]. by apply (Ha k).
  - intros d Hin. destruct (Hd d Hin) as [Hs Ht]. split; [done|]. rewrite Hk; [done|]. apply elem_of_app. left. by apply list_elem_of_fmap_2.
  - intros c Hin. destruct (Hg c Hin) as (q & Hq & -> & Ht). exists q. split; [done|]. split; [done|]. rewrite Hk; [done|]. apply elem_of_app. right. by apply list_elem_of_fmap_2.
Qed.

(** ... which the carriers leave alone. *)
Lemma owns_redirects l o i t o' t' k : Accounted l o i t → Owns (strip o t) (TAKEN D) o' t' → k ∈ REDIRECTS → t' !! k = t !! k.
Proof.
  intros Ha Ho Hk. rewrite (ow_out _ _ _ _ Ho).
  - apply lookup_strip_out. intros p ->. destruct (o !! p) as [v|] eqn:Hv; [|done]. destruct (accounted_apart dev t0 D Hset _ _ _ _ p Ha) as [? _]; [left; congruence|done].
  - intros p Hp ->. destruct (o' !! p) as [v|] eqn:Hv; [|done]. destruct (ow_in _ _ _ _ Ho p v Hv) as (_ & _ & Hc). by apply carriable_free in Hc as [? _].
Qed.

Lemma spec_on_exits L K F (Pre Post : option ExitTunState * ExitProgress → Prop) (m : st (option ExitTunState * ExitProgress * H) ApplyError unit) :
  (∀ w e, F w → F (put_exits e w)) →
  (∀ o i x1, spec (fun f '(e, x) => Pre e ∧ Exits dev t0 D o i x1 L e f x) m (fun _ f '(e, x) => Post e ∧ Exits dev t0 D o i x1 L e f x)
     (fun _ f '(e, x) => Exits dev t0 D o i x1 L e f x)) →
  spec (holds (fun w x => Pre (exits_of w) ∧ F w ∧ Runs L K w x)) (zoom exits_of put_exits m : node unit)
    (fun _ => holds (fun w x => Post (exits_of w) ∧ F w ∧ Runs L K w x)) (fun _ => holds (fun w x => F w ∧ Runs L K w x)).
Proof.
  intros HF Hm. apply spec_zoom. intros w. apply spec_ghost. intros [e1 x1].
  apply (spec_pure _ (e1 = exits_of w ∧ Pre (exits_of w) ∧ F w ∧ Runs L K w x1)); [by intros f [e x] [[-> Hp] [= <- ->]]|].
  intros (-> & Hpre & Hfw & (i & Hs & Ht & Ha & Hrec) & Hr & HK & Htr).
  assert (∀ e f x, Exits dev t0 D (carriers_of w) i x1 L e f x → F (put_exits e w) ∧ Runs L K (put_exits e w) x) as Hout.
  { intros [e1 e2] f x (Hs' & Ht' & Ha' & Hr' & Htr'). split; [by apply HF|]. split; [by exists i|]. split; [done|]. split; [done|].
    eapply trace_trans; [done|]. eapply trace_mono; [|done]. intros t (l & Hl & Hacc). exists l, (carriers_of w), i. split; [done|]. by split. }
  eapply spec_weaken; [apply (Hm (carriers_of w) i x1)|..].
  - intros f [e x] [[-> _] [= ->]]. split; [done|]. split; [done|]. split; [done|]. split; [done|]. split; [done|]. apply trace_refl.
  - intros u f [[e1 e2] x] [Hp He]. split; [done|]. by eapply Hout.
  - intros e f [[e1 e2] x] He. by eapply Hout.
Qed.

Lemma carrier_inj via via' : carrier via = carrier via' → via = via'.
Proof. destruct via, via'. by intros [= -> ->]. Qed.

(** A table that the carriers' account explains and that has the carriers [K] all along. *)
Lemma owns_between l o i t o' t' L K : Accounted l o i t → l ⊆ L → K ⊆ o → Owns (strip o t) (TAKEN D) o' t' →
  (∀ p via, K !! p = Some via → t' !! ckey p = Some (carrier via)) → Between L K t'.
Proof.
  intros Ha Hl HK Ho HKt. exists l, o', i. split; [done|]. split; [|by eapply accounted_sync]. apply map_subseteq_spec. intros p via Hp.
  specialize (HKt p via Hp). destruct (o' !! p) as [v|] eqn:Hv.
  - destruct (ow_in _ _ _ _ Ho p v Hv) as [Ht _]. rewrite Ht in HKt. f_equal. apply carrier_inj. congruence.
  - rewrite (ow_out _ _ _ _ Ho), lookup_strip_in in HKt; [done| |].
    + rewrite (lookup_weaken _ _ _ _ Hp HK). done.
    + by intros q Hq [= ->].
Qed.

Definition names (l : list string) (p : string) : Prop := ∃ v, v ∈ l ∧ carrier_prefix v = Ok p.

Lemma spec_on_bypass L K F (l : list string) (retain : bool) : (∀ w s, F w → F (put_bypass s w)) → (∀ p, names l p → p ∉ TAKEN D) → (∀ p, K !! p ≠ None → retain = true ∨ names l p) →
  spec (holds (fun w x => F w ∧ Runs L K w x)) (zoom hr_bypass put_bypass (sync Linux l retain) : node unit)
    (fun _ => holds (fun w x => (retain = true ∨ ∀ p, carriers_of w !! p ≠ None → names l p) ∧ F w ∧ Runs L K w x)) (fun _ => holds (fun w x => F w ∧ Runs L K w x)).
Proof.
  intros HF HT HK. apply spec_zoom. intros w. apply spec_ghost. intros [s1 x1].
  apply (spec_pure _ (s1 = hr_bypass w ∧ F w ∧ Runs L K w x1)); [by intros f [e x] [[-> Hp] [= <- ->]]|].
  intros (-> & Hfw & (i & Hs & Ht & Ha & Hrec) & Hr & HKw & Htr). set (b := strip (carriers_of w) (cur x1)).
  assert (∀ s x, Synced b (TAKEN D) l retain (hr_bypass w) s x1 x → F (put_bypass s w) ∧ Runs L K (put_bypass s w) x) as Hout.
  { intros s x (Ho & seg & -> & Hseg & Hkeep). split; [by apply HF|].
    assert (∀ p via, K !! p = Some via → owned s !! p = Some via ∧ Forall (fun t => t !! ckey p = Some (carrier via)) seg) as HKs.
    { intros p via Hp. apply Hkeep; [by eapply lookup_weaken|]. destruct (HK p) as [->|Hn]; [congruence| |by left]. right. split; [done|].
      change (carriers_of w !! p ≠ None). rewrite (lookup_weaken _ _ _ _ Hp HKw). done. }
    split; [|split; [done|split]].
    - exists i. split; [done|]. split; [|split; [by eapply accounted_sync|done]]. apply (tunnel_agree (cur x1)); [done|]. intros k. by eapply owns_redirects.
    - apply map_subseteq_spec. intros p via Hp. by apply HKs.
    - eapply trace_trans; [done|]. exists seg. split; [done|]. apply list.Forall_forall. intros t Hin. eapply list.Forall_forall in Hseg as [o' Ho']; [|done].
      eapply owns_between; [done|done|done|done|]. intros p via Hp. destruct (HKs p via Hp) as [_ Hall]. by eapply list.Forall_forall in Hall. }
  eapply spec_weaken; [apply (spec_sync b (TAKEN D) (hr_bypass w) x1 l retain)|..].
  - intros v p Hv Hp. apply HT. by exists v.
  - intros f [s x] [[-> _] [= ->]]. split; [done|]. split; [done|]. by eapply accounted_owns.
  - intros u f [s x] [Hw Hsy]. split; [|by apply Hout]. destruct retain; [by left|]. right. intros p Hp. destruct (Hw p Hp) as [|[? _]]; done.
  - intros e f [s x] Hsy. by apply Hout.
Qed.

Definition desired_routes (peers : list PeerInfo) : gset string := list_to_set (host_prefixes peers (own_cidr cfg)).

Lemma spec_on_routes L K F peers (epoch now : Z) : (∀ w s, F w → F (put_routes s w)) → desired_routes peers ⊆ D →
  spec (holds (fun w x => F w ∧ Runs L K w x)) (zoom hr_routes put_routes (sync_host peers (own_cidr cfg) dev epoch now) : node unit)
    (fun _ => holds (fun w x => overlay_done (desired_routes peers) (hr_routes w) ∧ F w ∧ Runs L K w x)) (fun _ => holds (fun w x => F w ∧ Runs L K w x)).
Proof.
  intros HF HD. apply spec_zoom. intros w. apply spec_ghost. intros [s1 x1].
  apply (spec_pure _ (s1 = hr_routes w ∧ F w ∧ Runs L K w x1)); [by intros f [e x] [[-> Hp] [= <- ->]]|].
  intros (-> & Hfw & (i & Hs & Ht & Ha & Hrec) & Hr & HKw & Htr).
  assert (∀ s f x, Held dev t0 D (redirects_of w) (carriers_of w) x1 s f x → F (put_routes s w) ∧ Runs L K (put_routes s w) x) as Hout.
  { intros s f x (i' & (Ha' & Htr' & Hk) & Hrec'). split; [by apply HF|]. split; [|split; [done|split; [done|]]].
    - exists i'. split; [done|]. split; [|done]. by apply (tunnel_agree (cur x1)).
    - eapply trace_trans; [done|]. eapply trace_mono; [|done]. intros t [i'' Hi]. exists (redirects_of w), (carriers_of w), i''. split; [done|]. by split. }
  unfold sync_host. eapply spec_weaken; [by apply (spec_sync_routes dev t0 D Hset (redirects_of w) (carriers_of w) x1 epoch now)|..].
  - intros f [s x] [[-> _] [= ->]]. exists i. split; [|done]. split; [done|]. split; [apply trace_refl|done].
  - intros u f [s x] [Hd Hh]. split; [done|]. by eapply Hout.
  - intros e f [s x] Hh. by eapply Hout.
Qed.

(** ** The steps *)

(** A predicate on the fields that none of the steps changes. *)
Definition steady F : Prop := (∀ w e, F w → F (put_exits e w)) ∧ (∀ w s, F w → F (put_bypass s w)) ∧ (∀ w st r, F w → F (put_retry st r w)).

Lemma spec_retire L K F (epoch now : Z) selected : L ⊆ REDIRECTS → steady F →
  spec (holds (fun w x => F w ∧ Runs L K w x)) (retire cfg epoch now selected)
    (fun _ => holds (fun w x => (opened w → retired selected (exits_of w)) ∧ F w ∧ Runs L K w x)) (fun _ => holds (fun w x => F w ∧ Runs L K w x)).
Proof.
  intros HL (HF1 & _ & HF3). unfold retire. eapply spec_bind; [apply (spec_get _ (fun q f '(w, x) => w = q ∧ F w ∧ Runs L K w x)); done|]. intros q.
  destruct (negb (manage_host_routes cfg) || _) eqn:Hc.
  - apply spec_ret. intros f [w x] (-> & HF & Hr). split; [|done]. intros [_ Hm] s Hs. cbn in Hs. rewrite Hm, Hs in Hc. cbn in Hc.
    apply andb_true_iff in Hc as [Hc%bool_decide_eq_true Ht%negb_true_iff]. done.
  - eapply spec_weaken; [eapply (spec_retried (fun w x => F w ∧ Runs L K w x) SRetire epoch now _ (fun w x => (opened w → retired selected (exits_of w)) ∧ F w ∧ Runs L K w x) (fun w x => F w ∧ Runs L K w x))|..];
      [| |intros w x r (Ho & HF & Hr); split; [done|]; split; [by apply HF3|done]|intros w x r [HF Hr]; split; [by apply HF3|done]|by intros f [w x] [_ ?]|done|done]; [|done].
    apply spec_gated; [|done]. eapply spec_weaken; [apply (spec_on_exits L K F (fun _ => True) (retired selected) (retire_exit selected) HF1)|..].
    + intros o i x1. eapply spec_weaken; [by apply (spec_retire_exit dev t0 D Hset o i x1 L selected)|by intros f [e x] []|done|done].
    + by intros f [w x] (_ & ? & ?).
    + by intros u f [w x] (? & ? & ?).
    + done.
Qed.

Lemma spec_sync_bypass L K F (l : list string) (retain : bool) : (∀ w s, F w → F (put_bypass s w)) → (∀ p, names l p → p ∉ TAKEN D) → (∀ p, K !! p ≠ None → retain = true ∨ names l p) →
  spec (holds (fun w x => F w ∧ Runs L K w x)) (sync_bypass cfg l retain) (fun _ => holds (fun w x => F w ∧ Runs L K w x)) (fun _ => holds (fun w x => F w ∧ Runs L K w x)).
Proof.
  intros HF2 HT HK. apply spec_gated; [|done]. eapply spec_weaken; [by apply (spec_on_bypass L K F l retain)|by intros f [w x] (_ & ? & ?)|by intros u f [w x] (_ & ? & ?)|done].
Qed.

Lemma spec_host_stays {A} V (m : st H ApplyError A) : stays m → spec (holds V) (on_host m : node A) (fun _ => holds V) (fun _ => holds V).
Proof. intros Hm. apply spec_host. intros w. apply Hm. Qed.

Definition addresses (resolved : res ApplyError (list IpAddr)) : list string := match resolved with Ok a => (fun a => text (fmt_ip a)) <$> a | _ => [] end.

Lemma spec_guard_carriers L K F peers (retain : bool) resolved : steady F → (∀ w a, F w → F (put_pinned a w)) → resolved ≠ Panic →
  (∀ w p, F w → names (guarded_ips peers (addresses resolved) w) p → p ∉ TAKEN D) →
  spec (holds (fun w x => F w ∧ Runs L K w x)) (guard_carriers cfg peers retain resolved) (fun _ => holds (fun w x => F w ∧ Runs L K w x)) (fun _ => holds (fun w x => F w ∧ Runs L K w x)).
Proof.
  intros (_ & HF2 & _) HFp Hres HT. set (V := fun w x => F w ∧ Runs L K w x). unfold guard_carriers. destruct (kill_switch cfg); cbn [negb]; [|by apply spec_ret].
  eapply spec_bind; [apply (spec_get _ (fun q f '(w, x) => F q ∧ V w x)); by intros w f x [? ?]|]. intros q.
  apply (spec_pure _ (F q)); [by intros f [w x] [? _]|]. intros HFq. apply (spec_weaken (holds V) _ _ (fun _ => holds V) _ (fun _ => holds V)); [|by intros f [w x] [_ ?]|done|done].
  case_bool_decide; [by apply spec_err|]. destruct (carrier_cache cfg); cbn [negb]; [|by apply spec_err]. destruct (shutdown q); [by apply spec_ret|].
  destruct resolved as [control|e|]; [|eapply (spec_bind _ _ _ (fun _ => holds V)); [apply spec_tried, spec_host_stays, stays_check|]|done].
  - eapply (spec_bind _ _ _ (fun _ => holds V)); [apply spec_host_stays, stays_guard|]. intros u1.
    eapply (spec_bind _ _ _ (fun _ => holds V)).
    { destruct (manage_host_routes cfg); [|by apply spec_ret].
      eapply spec_weaken; [apply (spec_on_bypass L K F (guarded_ips peers (addresses (Ok control)) q) true HF2)|done|by intros u f [w x] (_ & ? & ?)|done].
      - intros p. by apply HT.
      - by left. }
    intros u2. eapply (spec_bind _ _ _ (fun _ => holds V)); [|intros u3; apply spec_host_stays, stays_guard]. unfold modify_state.
    eapply spec_bind; [apply (spec_get _ (fun r f '(w, x) => w = r ∧ V w x)); done|]. intros r. apply spec_put. intros w f x [-> [HF Hr]]. split; [by apply HFp|done].
  - intros r. apply spec_lift; [unfold all; by destruct (dedup _)|done|done].
Qed.

(** The resolver and the gateway rules: the routes stay. *)
Definition aside F : Prop := (∀ w y, F w → F (put_dns y w)) ∧ (∀ w n, F w → F (put_nat n w)) ∧ (∀ w b, F w → F (put_checked b w)).

Lemma spec_sync_resolver L K F peers ok : aside F →
  spec (holds (fun w x => F w ∧ Runs L K w x)) (sync_resolver cfg peers ok) (fun _ => holds (fun w x => F w ∧ Runs L K w x)) (fun _ => holds (fun w x => F w ∧ Runs L K w x)).
Proof.
  intros (HFd & _ & HFc). set (V := fun w x => F w ∧ Runs L K w x). unfold sync_resolver.
  eapply spec_bind; [apply (spec_get _ (fun _ => holds V)); done|]. intros q. eapply (spec_bind _ _ _ (fun _ => holds V)).
  { destruct (dns_startup_checked q); [by apply spec_ret|]. eapply (spec_bind _ _ _ (fun _ => holds V)); [apply spec_host_stays, stays_owned|]. intros b. unfold modify_state.
    eapply spec_bind; [apply (spec_get _ (fun r f '(w, x) => w = r ∧ V w x)); done|]. intros r. apply spec_put. intros w f x [-> [HF Hr]]. split; [by apply HFc|done]. }
  intros u. eapply spec_bind; [apply (spec_get _ (fun _ => holds V)); done|]. intros q'. apply spec_zoom_stays.
  - apply stays_sync_dns_mode; [apply stays_set_dns|apply stays_clear|apply stays_verify].
  - intros s w x [HF Hr]. split; [by apply HFd|done].
Qed.

(** ** A pass *)

Lemma spec_routes_stage L K F peers (epoch now now' : Z) : (∀ w s, F w → F (put_routes s w)) → (∀ w st r, F w → F (put_retry st r w)) → desired_routes peers ⊆ D →
  spec (holds (fun w x => F w ∧ Runs L K w x)) (attempt (retried SRoutes epoch now (gated cfg (zoom hr_routes put_routes (sync_host peers (own_cidr cfg) dev epoch now')))))
    (fun r => holds (fun w x => ((err_of r = None → opened w → overlay_done (desired_routes peers) (hr_routes w)) ∧ F w) ∧ Runs L K w x)) (fun _ _ _ => False).
Proof.
  intros HFr HFt HD. apply spec_tried. eapply spec_weaken; [apply (spec_retried (fun w x => F w ∧ Runs L K w x) SRoutes epoch now _
    (fun w x => (opened w → overlay_done (desired_routes peers) (hr_routes w)) ∧ F w ∧ Runs L K w x) (fun w x => F w ∧ Runs L K w x))|done|..].
  - apply spec_gated; [|done]. eapply spec_weaken; [by apply (spec_on_routes L K F peers epoch now')|by intros f [w x] (_ & ? & ?)|by intros u f [w x] (? & ? & ?)|done].
  - done.
  - intros w x r (Ho & HF & Hr). split; [done|]. split; [by apply HFt|done].
  - intros w x r (HF & Hr). split; [by apply HFt|done].
  - intros [] f [w x] (Ho & HF & Hr). by split.
  - intros e f [w x] (HF & Hr). by split.
Qed.

Lemma spec_exit_stage (G : Prop) L K F peers (epoch now : Z) before : steady F → before ≠ Panic → (before = Ok tt → L = REDIRECTS) →
  spec (holds (fun w x => ((before = Ok tt → G → opened w → retired (selected_exit peers) (exits_of w)) ∧ F w) ∧ Runs L K w x))
    (attempt (_ ← lift before; retried SExit epoch now (gated cfg (zoom exits_of put_exits (sync_exit peers dev)))))
    (fun r => holds (fun w x => ((err_of r = None → G → opened w → exit_synced (selected_exit peers) (exits_of w)) ∧ F w) ∧ Runs L K w x)) (fun _ _ _ => False).
Proof.
  intros (HF1 & _ & HF3) Hnp HL. apply spec_tried. destruct before as [[]|e|]; [|by apply spec_err; intros f [w x] [[_ HF] Hr]|done].
  rewrite (HL eq_refl). apply spec_pass. eapply spec_weaken; [apply (spec_retried (fun w x => ((G → opened w → retired (selected_exit peers) (exits_of w)) ∧ F w) ∧ Runs REDIRECTS K w x) SExit epoch now _
    (fun w x => (G → opened w → exit_synced (selected_exit peers) (exits_of w)) ∧ F w ∧ Runs REDIRECTS K w x) (fun w x => F w ∧ Runs REDIRECTS K w x))|..].
  - apply spec_gated; [|by intros w f x Hn [[_ HF] Hr]].
    eapply spec_weaken; [apply (spec_on_exits REDIRECTS K F (fun e => G → retired (selected_exit peers) e) (fun e => G → exit_synced (selected_exit peers) e) (sync_exit peers dev) HF1)|..].
    + intros o i x1. by apply spec_sync_exit.
    + intros f [w x] (Ho & [Hret HF] & Hr). split; [intros HG; by apply Hret|done].
    + intros u f [w x] (Hs & ? & ?). split; [intros HG _; by apply Hs|done].
    + done.
  - by intros w x [[_ HF] Hr].
  - intros w x r (Ho & HF & Hr). split; [done|]. split; [by apply HF3|done].
  - intros w x r (HF & Hr). split; [by apply HF3|done].
  - intros f [w x] [[Hret HF] Hr]. split; [|done]. split; [intros HG; by apply Hret|done].
  - intros [] f [w x] (Ho & HF & Hr). by split.
  - intros e f [w x] (HF & Hr). by split.
Qed.

(** Stages that leave the routes alone. *)
Lemma spec_aside_stage L K F stage (epoch now : Z) (m : node unit) : (∀ w st r, F w → F (put_retry st r w)) →
  spec (holds (fun w x => F w ∧ Runs L K w x)) m (fun _ => holds (fun w x => F w ∧ Runs L K w x)) (fun _ => holds (fun w x => F w ∧ Runs L K w x)) →
  spec (holds (fun w x => F w ∧ Runs L K w x)) (attempt (retried stage epoch now m)) (fun _ => holds (fun w x => F w ∧ Runs L K w x)) (fun _ _ _ => False).
Proof.
  intros HFt Hm. apply spec_tried, spec_retried; [done|done|..]; intros w x r (HF & Hr); (split; [by apply HFt|done]).
Qed.

(** What no step changes. *)
Record constant F : Prop := mkConstant {
  co_steady : steady F; co_aside : aside F; co_routes w r : F w → F (put_routes r w); co_pinned w a : F w → F (put_pinned a w)
}.

(** What a pass that succeeds has achieved. *)
Definition applied peers w : Prop := opened w → overlay_done (desired_routes peers) (hr_routes w) ∧ exit_synced (selected_exit peers) (exits_of w).

Lemma spec_effects (G : Prop) L K F (epoch now now' : Z) peers self_exit (retirement carriers : ApplyResult) : constant F → desired_routes peers ⊆ D →
  (all [retirement; carriers] = Ok tt → L = REDIRECTS) →
  spec (holds (fun w x => ((all [retirement; carriers] = Ok tt → G → opened w → retired (selected_exit peers) (exits_of w)) ∧ F w) ∧ Runs L K w x))
    (effects cfg epoch now now' peers self_exit retirement carriers)
    (fun _ => holds (fun w x => (G → applied peers w) ∧ F w ∧ Runs L K w x)) (fun _ => holds (fun w x => F w ∧ Runs L K w x)).
Proof.
  intros [HF1 HF2 HF3 _] HD HL. set (Pre := fun w => (all [retirement; carriers] = Ok tt → G → opened w → retired (selected_exit peers) (exits_of w)) ∧ F w).
  assert (∀ w st r, F w → F (put_retry st r w)) as HFt by apply HF1. unfold effects.
  eapply spec_bind; [apply spec_total, (spec_routes_stage L K Pre peers epoch now now'); [|by intros w st r [? ?]; split; [|apply HFt]|done]; by intros w s [? ?]; split; [|apply HF3]|]. intros host.
  set (F2 := fun w => (err_of host = None → opened w → overlay_done (desired_routes peers) (hr_routes w)) ∧ F w).
  assert (steady F2) as HF2s.
  { destruct HF1 as (G1 & G2 & G3). split; [|split]; [intros w e [? ?]|intros w e [? ?]|intros w st r [? ?]]; (split; [done|]); auto. }
  eapply spec_bind; [apply spec_total; eapply spec_weaken; [apply (spec_exit_stage G L K F2 peers epoch now (all [retirement; carriers]) HF2s)|..]|].
  { unfold all. by destruct (dedup _). }
  { done. }
  { by intros f [w x] [[Ho [Hret HF]] Hr]. }
  { intros r f y Hy. exact Hy. }
  { done. }
  intros exit. set (F4 := fun w => (err_of exit = None → G → opened w → exit_synced (selected_exit peers) (exits_of w)) ∧ F2 w).
  assert (∀ w st r, F4 w → F4 (put_retry st r w)) as HF4r by (intros w st r (? & ? & ?); split; [done|]; split; [done|]; auto).
  assert (aside F4) as HF4a.
  { destruct HF2 as (G1 & G2 & G3). split; [|split]; intros w e (? & ? & ?); (split; [done|]); (split; [done|]); auto. }
  eapply (spec_bind _ _ _ (fun _ => holds (fun w x => F4 w ∧ Runs L K w x))).
  { apply spec_total, spec_aside_stage; [done|]. apply spec_gated; [|done]. eapply spec_weaken; [by apply (spec_sync_resolver L K F4 peers (is_ok exit))|by intros f [w x] [_ ?]|done|done]. }
  intros resolver. eapply (spec_bind _ _ _ (fun _ => holds (fun w x => F4 w ∧ Runs L K w x))).
  { apply spec_total, spec_aside_stage; [done|]. eapply spec_bind; [apply (spec_get _ (fun _ => holds (fun w x => F4 w ∧ Runs L K w x))); done|]. intros q.
    destruct (shutdown q); [by apply spec_ret|]. apply spec_zoom_stays; [apply stays_sync_nat|]. intros n w x [HF Hr]. split; [by apply HF4a|done]. }
  intros nat. apply spec_lift; [unfold all; by destruct (dedup _)|..|by intros e f [w x] _ [(_ & _ & HF) Hr]].
  intros [] f [w x] Ha%all_ok [(Hexit & Hhost & HF) Hr]. split; [|done].
  rewrite !list.Forall_cons in Ha. destruct Ha as (Hh & He & _). intros HG Ho. split; auto.
Qed.

(** The redirections there may be in a pass: none that are new, unless the carriers were found. *)
Definition allowed {A : Type} (bypass : res ApplyError A) L : list key := match bypass with Ok _ => REDIRECTS | _ => L end.
Definition asked (bypass : res ApplyError (list string)) (retain : bool) (p : string) : Prop :=
  retain = true ∨ match bypass with Ok l => names l p | _ => True end.

Lemma spec_tick L K F (epoch now0 now now' : Z) peers self_exit (bypass : res ApplyError (list string)) (retain : bool) : constant F → desired_routes peers ⊆ D → L ⊆ REDIRECTS → bypass ≠ Panic →
  (∀ (l : list string) (p : string), bypass = Ok l → names l p → p ∉ TAKEN D) → (∀ p, K !! p ≠ None → asked bypass retain p) →
  spec (holds (fun w x => F w ∧ Runs L K w x)) (tick cfg epoch now0 now now' peers self_exit bypass retain)
    (fun _ => holds (fun w x => applied peers w ∧ F w ∧ Runs (allowed bypass L) K w x)) (fun _ => holds (fun w x => F w ∧ Runs (allowed bypass L) K w x)).
Proof.
  intros HF HD HL Hnp HT HK. assert (Hst := co_steady _ HF). unfold tick.
  eapply (spec_bind _ _ _ (fun r => holds (fun w x => ((err_of r = None → opened w → retired (selected_exit peers) (exits_of w)) ∧ F w) ∧ Runs L K w x))).
  { apply spec_tried. eapply spec_weaken; [by apply (spec_retire L K F epoch now0 (selected_exit peers))|done|by intros [] f [w x] (? & ? & ?)|by intros e f [w x] (? & ?)]. }
  intros retirement. set (F1 := fun w => (err_of retirement = None → opened w → retired (selected_exit peers) (exits_of w)) ∧ F w).
  eapply (spec_bind _ _ _ (fun r => holds (fun w x => F1 w ∧ Runs L K w x ∧ (err_of r = None → is_ok bypass = true)))).
  { apply spec_tried. destruct bypass as [l|e|]; [|by apply spec_err; intros f [w x] [? ?]|done]. apply spec_pass.
    eapply spec_weaken; [apply (spec_sync_bypass L K F1 l (retain || negb (is_ok retirement)))|done|by intros [] f [w x] [? ?]|by intros e f [w x] [? ?]].
    - intros w s [? ?]. split; [done|]. by apply Hst.
    - intros p. by apply HT.
    - intros p [->|Hp]%HK; [by left|by right]. }
  intros carriers. apply (spec_pure _ (err_of carriers = None → is_ok bypass = true)); [by intros f [w x] (_ & _ & ?)|]. intros Hb.
  eapply spec_weaken; [apply (spec_effects True (allowed bypass L) K F epoch now now' peers self_exit retirement carriers HF HD)|..|intros u f [w x] (Ha & ? & ?); split; [by apply Ha|done]|done].
  - intros Ha%all_ok. rewrite !list.Forall_cons in Ha. destruct Ha as (_ & Hc & _). specialize (Hb Hc). by destruct bypass.
  - intros f [w x] ([Hret HFw] & Hr & _). split; [split; [|done]|].
    + intros Ha%all_ok _ Ho. rewrite !list.Forall_cons in Ha. destruct Ha as (Hc & _). by apply Hret.
    + apply (runs_mono L _ K K); [by destruct bypass|done|done].
Qed.
End Node.

(** ** Shutting down *)

Section Shutdown.
Context {H B : Type} `{!HostOs H} `{!HostLaws H (list rib)} `{!Serde Json} `{!RibLaws H} `{!SetOrder}.
Context `{!DnsBackend H} `{!Firewall H B} `{!KillSwitch H} `{!BackendLaws H B}.
Context (cfg : HostConfig) (t0 : rib) (D : gset string) (Hset : Setting t0 D).
Implicit Types (K : gmap string Via) (t : rib) (w : HostState B) (x : list rib).
Abbreviation dev := (tun_name cfg).
Abbreviation Inv := (NodeInv cfg t0 D).
Abbreviation holds V := (fun (_ : gmap string string) '(w, x) => V w x).

Implicit Types F : HostState B → Prop.

(** While traffic is redirected, the carriers [K] are there. *)
Definition Carrying K t : Prop := ∃ l o i, Accounted dev t0 D l o i t ∧ (l ≠ [] → K ⊆ o).

Lemma between_carrying L K t : Between cfg t0 D L K t → Carrying K t.
Proof. intros (l & o & i & _ & Hk & Ha). by exists l, o, i. Qed.
Lemma between_idle K t : Between cfg t0 D [] ∅ t → Carrying K t.
Proof. intros (l & o & i & Hl & _ & Ha). exists l, o, i. split; [done|]. by apply list_nil_subseteq in Hl as ->. Qed.

(** The tunnel and what is left of another, taken down one after the other. *)
Lemma spec_take_down F K x1 : constant F →
  spec (holds (fun w x => F w ∧ Runs cfg t0 D x1 REDIRECTS K w x))
    (exit ← attempt (zoom exits_of put_exits remove_exit); pending ← attempt (zoom exits_of put_exits (zoom snd (fun p y => (y.1, p)) (cleanup_exit Linux dev))); mret (exit, pending))
    (fun r => holds (fun w x => (r.1 ≠ Panic ∧ r.2 ≠ Panic ∧ (err_of r.1 = None → err_of r.2 = None → redirects_of w = [])) ∧ F w ∧ Runs cfg t0 D x1 REDIRECTS K w x)) (fun _ _ _ => False).
Proof.
  intros HF. assert (HF1 := proj1 (co_steady _ HF)). set (V := fun w x => F w ∧ Runs cfg t0 D x1 REDIRECTS K w x). apply spec_ghost. intros [w0 y0].
  eapply (spec_bind _ _ _ (fun r => holds (fun w x => (r ≠ Panic ∧ (err_of r = None → exit_state w ≠ None → redirects_of w = [])) ∧ V w x))).
  { apply spec_tried. eapply spec_weaken; [apply (spec_on_exits cfg t0 D x1 REDIRECTS K F (fun e => e.1 = exit_state w0) (fun e => e.1 ≠ None → record_keys (current e) = []))|..].
    - done.
    - intros o i x2. eapply spec_weaken; [by apply (spec_remove_exit dev t0 D Hset o i x2 REDIRECTS (exit_state w0))|done|by intros u f [e x] (_ & ? & ?)|done].
    - by intros f [w x] [Hv [= -> ->]].
    - by intros u f [w x] (Hp & Hv).
    - by intros e f [w x] Hv. }
  intros exit. apply spec_ghost. intros [w1 y1]. apply (spec_pure _ (exit ≠ Panic ∧ (err_of exit = None → exit_state w1 ≠ None → redirects_of w1 = []))); [by intros f [w x] [[Hp _] [= -> ->]]|]. intros [Hnp Hone].
  eapply (spec_bind _ _ _ (fun r => holds (fun w x => (r ≠ Panic ∧ (err_of exit = None → err_of r = None → redirects_of w = [])) ∧ V w x))); [|intros r; apply spec_ret; by intros f [w x] [[? ?] ?]].
  apply spec_tried. eapply spec_weaken; [apply (spec_on_exits cfg t0 D x1 REDIRECTS K F (fun e => e.1 = exit_state w1) (fun e => e.1 = exit_state w1 ∧ record_keys e.2 = []))|..].
  - done.
  - intros o i x2. eapply spec_weaken; [by apply (spec_pending dev t0 D Hset o i x2 REDIRECTS (exit_state w1))|done|by intros u f [e x] (? & ? & ?)|by intros er f [e x] []].
  - by intros f [w x] [[_ Hv] [= -> ->]].
  - intros u f [w x] ((He & Hp) & Hv). split; [|done]. split; [done|]. intros Hex _. cbn in He, Hp. unfold redirects_of, current, exits_of in *. cbn in *. rewrite He.
    destruct (exit_state w1); [by apply Hone|done].
  - by intros e f [w x] Hv.
Qed.

Lemma spec_bind_two {A C T : Type} P (a : st (HostState B * H) ApplyError A) (b : A → st (HostState B * H) ApplyError C) (k : A → C → st (HostState B * H) ApplyError T) Q R E :
  spec P (u ← a; v ← b u; mret (u, v)) Q (fun _ _ _ => False) → (∀ u v, spec (Q (u, v)) (k u v) R E) → spec P (u ← a; v ← b u; k u v) R E.
Proof.
  intros Hm Hk h r h' Hp. specialize (Hm h). unfold mbind, st_bind in *. destruct (a h) as [[u|e|] h1]; [|by destruct (Hm _ _ Hp eq_refl)..].
  destruct (b u h1) as [[v|e|] h2]; [|by destruct (Hm _ _ Hp eq_refl)..]. apply Hk. exact (Hm _ _ Hp eq_refl).
Qed.

(** What [cleanup] leaves: everything taken down, or a record of what is not. *)
Lemma spec_cleanup_node F w0 x0 : constant F → F (put_shutdown w0) →
  spec (fun _ '(w, x) => w = w0 ∧ x = x0 ∧ Inv w0 (cur x0)) (cleanup cfg)
    (fun _ => holds (fun w x => redirects_of w = [] ∧ carriers_of w = ∅ ∧ F w ∧ Inv w (cur x) ∧ Trace (Carrying (carriers_of w0)) x0 x))
    (fun _ => holds (fun w x => F w ∧ Inv w (cur x) ∧ Trace (Carrying (carriers_of w0)) x0 x)).
Proof.
  intros HF HF0. set (K := carriers_of w0). set (V := fun w x => F w ∧ Runs cfg t0 D x0 REDIRECTS K w x). unfold cleanup, modify_state.
  eapply (spec_bind _ _ _ (fun _ => holds V)).
  { eapply spec_bind; [apply (spec_get _ (fun q f '(w, x) => q = w0 ∧ x = x0 ∧ Inv w0 (cur x0))); by intros w f x (-> & -> & ?)|]. intros q. apply spec_put.
    intros w f x (-> & -> & Hi). split; [done|]. split; [done|]. split; [|split; [done|apply trace_refl]]. destruct Hi as (i & _ & [_ _ Hw _ _ _] & _). exact Hw. }
  intros u. eapply spec_bind_two; [by apply (spec_take_down F K x0)|]. intros exit pending. cbn [fst snd].
  apply (spec_pure _ (exit ≠ Panic ∧ pending ≠ Panic)); [by intros f [w x] [(? & ? & _) _]|]. intros [Hp1 Hp2].
  set (V' := fun w x => (err_of exit = None → err_of pending = None → redirects_of w = []) ∧ V w x).
  apply (spec_weaken (holds V') _ _ (fun _ => holds (fun w x => redirects_of w = [] ∧ carriers_of w = ∅ ∧ F w ∧ Inv w (cur x) ∧ Trace (Carrying K) x0 x)) _
    (fun _ => holds (fun w x => F w ∧ Inv w (cur x) ∧ Trace (Carrying K) x0 x))); [|by intros f [w x] [(_ & _ & ?) ?]|done|done].
  eapply (spec_bind _ _ _ (fun _ => holds V')); [apply spec_tried, spec_zoom_stays; [apply stays_sync_dns; [intros dns P; by apply spec_ret|apply stays_clear]|intros s w x (? & ? & ?); split; [done|]; split; [by apply (co_aside _ HF)|done]]|]. intros dns.
  eapply (spec_bind _ _ _ (fun _ => holds V')); [apply spec_tried, spec_zoom_stays; [apply stays_remove_nat|intros s w x (? & ? & ?); split; [done|]; split; [by apply (co_aside _ HF)|done]]|]. intros nat.
  eapply (spec_bind _ _ _ (fun r => holds (fun w x => (err_of exit = None → err_of pending = None → err_of r = None → redirects_of w = [] ∧ carriers_of w = ∅) ∧ F w ∧ Inv w (cur x) ∧ Trace (Carrying K) x0 x))).
  { assert (∀ w x, V' w x → F w ∧ Inv w (cur x) ∧ Trace (Carrying K) x0 x) as Hdone.
    { intros w x (_ & HFw & Hi & _ & _ & Ht). split; [done|]. split; [done|]. eapply trace_mono; [|done]. intros t. apply between_carrying. }
    apply spec_tried. destruct exit as [[]|e|], pending as [[]|e'|]; try done; cbn [is_ok andb];
      try (apply spec_ret; intros f [w x] Hv; split; [done|by apply Hdone]).
    apply spec_ghost. intros [w1 x1]. apply (spec_pure _ (V' w1 x1)); [by intros f [w x] [Hv [= -> ->]]|]. intros Hv. destruct (Hdone w1 x1 Hv) as (HF1 & Hi & Ht).
    destruct Hv as [Hnil _]. specialize (Hnil eq_refl eq_refl).
    assert (∀ w x, Runs cfg t0 D x1 [] ∅ w x → Inv w (cur x) ∧ Trace (Carrying K) x0 x) as Hend.
    { intros w x (Hi' & _ & _ & Ht'). split; [done|]. eapply trace_trans; [done|]. eapply trace_mono; [|done]. intros t. apply between_idle. }
    eapply spec_weaken; [apply (spec_on_bypass cfg t0 D Hset x1 [] ∅ (fun w => redirects_of w = [] ∧ F w) [] false)|..].
    - intros w s [? ?]. split; [done|]. by apply (co_steady _ HF).
    - by intros p (v & ?%elem_of_nil & _).
    - intros p Hp. by rewrite lookup_empty in Hp.
    - intros f [w x] [_ [= -> ->]]. split; [done|]. split; [done|]. rewrite Hnil. split; [done|]. split; [apply map_empty_subseteq|apply trace_refl].
    - intros [] f [w x] (Hn & [Hr HFw] & Hruns). split; [|split; [done|by apply Hend]]. intros _ _ _. split; [done|]. apply map_empty. intros p. destruct Hn as [|Hn]; [done|].
      destruct (carriers_of w !! p) eqn:Hp; [|done]. destruct (Hn p) as (v' & ?%elem_of_nil & _); [congruence|done].
    - intros e f [w x] ([Hr HFw] & Hruns). split; [done|]. split; [done|by apply Hend]. }
  intros carriers. apply spec_lift; [unfold all; by destruct (dedup _)|..|by intros e f [w x] _ [_ ?]].
  intros [] f [w x] Ha%all_ok (Hd & HFw & Hi & Ht). rewrite !list.Forall_cons in Ha. destruct Ha as (H1 & H2 & _ & _ & H3 & _). destruct (Hd H1 H2 H3). done.
Qed.
End Shutdown.
