(* ===== verification/RibSim.v ===== *)
(** * A simulated host with a routing table

    The commands of [Rib] on a table, with a plan of commands that fail, on the files and
    plans of [HostSim].  Its backends for name servers and gateway rules do nothing. *)

From Stdlib Require Import Strings.Ascii Strings.String.
From S2P Require Import Prelude.
From S2P Require Import Words.
From S2P Require Import NetText.
From S2P Require Import Prefix.
From S2P Require Import Apply.
From S2P Require Import Domain.
From S2P Require Import NodeConfig.
From S2P Require Import HostRun.
From S2P Require Import HostSim.
From S2P Require Import Rib.
From S2P Require Import HostEffects.
From S2P Require Import NodeSpec.

(** ** Rows of a table as text *)

Abbreviation fields := (option string * option string * option string)%type.

Fixpoint bits (p : positive) : string :=
  match p with xH => "" | xO p => String "0" (bits p) | xI p => String "1" (bits p) end.
Fixpoint of_bits (s : string) : positive :=
  match s with EmptyString => xH | String c s => if Ascii.eqb c "1" then xI (of_bits s) else xO (of_bits s) end.
Lemma of_bits_bits p : of_bits (bits p) = p.
Proof. induction p as [p IH|p IH|]; cbn; by rewrite ?IH. Qed.

Definition row_json (r : fields) : Json :=
  let '(via, dev, proto) := r in
  JObject [("gateway"%string, opt_json JString via); ("dev"%string, opt_json JString dev); ("protocol"%string, opt_json JString proto)].
Definition rows_text (l : list fields) : string := bits (encode l).

#[export] Instance rows_serde : Serde Json :=
  {| to_text _ := ""%string; of_text s := (fun l : list fields => JArray (row_json <$> l)) <$> decode (of_bits s) |}.

Lemma of_rows_text l : of_text (rows_text l) = Some (JArray (row_json <$> l)).
Proof. cbn. unfold rows_text. by rewrite of_bits_bits, decode_encode. Qed.

Definition fields_of (r : Route) : fields := (rt_via r, rt_dev r, rt_proto r).
Lemma row_of_fields r : row_of (row_json (fields_of r)) r.
Proof. destruct r as [via dev proto u]. unfold row_of. destruct via, dev, proto; cbn; naive_solver. Qed.

(** ** Commands *)

Definition refused (message : string) : ApplyError := mkApplyError ["ip"%string] (Some 2) message Other.

(** The route a deletion takes. *)
Definition victim (s : Selector) (t : rib) : option (string * string) :=
  let plain := (s_dst s, METRIC) in
  if match t !! plain with Some r => selects s plain r | None => false end then Some plain
  else match list_find (fun x => selects s x.1 x.2 = true) (map_to_list t) with Some (_, x) => Some x.1 | None => None end.

Definition on_table (v : Verb) (s : Selector) (x : list rib) : (string + ApplyError) * list rib :=
  let t := cur x in
  match v with
  | VAdd => match t !! route_key s with Some _ => (inr (refused "RTNETLINK answers: File exists"), x) | None => (inl ""%string, <[route_key s := route_of s]> t :: x) end
  | VReplace => (inl ""%string, <[route_key s := route_of s]> t :: x)
  | VDel => match victim s t with Some k => (inl ""%string, delete k t :: x) | None => (inr (refused "RTNETLINK answers: No such process"), x) end
  end.

(** The host's own routes, as its queries show them. *)
Definition answer (c : list string) (t : rib) : string :=
  match c with
  | _ :: _ :: _ :: _ :: _ :: show :: exact :: p :: _ =>
      if bool_decide (show = "show"%string) && bool_decide (exact = "exact"%string)
      then rows_text (fields_of <$> (filter (fun x => x.1.1 = p) (map_to_list t)).*2) else ""%string
  | _ => if bool_decide ("get"%string ∈ c) then "203.0.113.7 via 192.168.1.1 dev eth0"%string
         else if bool_decide ("-6"%string ∈ c) then ""%string else "default via 192.168.1.1 dev eth0"%string
  end.

#[export] Instance rib_commands : Commands (list rib) := fun c _ x =>
  match ip_route c with Some (v, s) => on_table v s x | None => (inl (answer c (cur x)), x) end.

(** ** The host: a command that fails has no effect *)

Record rhost := mkRhost { rh : sim (list rib) }.
Definition tame (h : rhost) : sim (list rib) :=
  mkSim (sim_files (rh h)) (sim_state (rh h)) (match sim_plan (rh h) with FailsAfter :: l => Fails :: l | l => l end).
Definition on_sim {A} (f : sim (list rib) → A * sim (list rib)) (h : rhost) : A * rhost := let '(a, s) := f (tame h) in (a, mkRhost s).

#[export] Instance rhost_os : HostOs rhost :=
  {| exec c i := on_sim (exec c i); read_file p := on_sim (read_file p); read_dir p := on_sim (read_dir p);
     save_file p c := on_sim (save_file p c); remove_file p := on_sim (remove_file p) |}.

Lemma on_sim_fst {A} (f : sim (list rib) → A * sim (list rib)) h : (on_sim f h).1 = (f (tame h)).1.
Proof. unfold on_sim. by destruct (f (tame h)). Qed.
Lemma on_sim_snd {A} (f : sim (list rib) → A * sim (list rib)) h : rh (on_sim f h).2 = (f (tame h)).2.
Proof. unfold on_sim. by destruct (f (tame h)). Qed.

#[export] Program Instance rhost_laws : HostLaws rhost (list rib) := {| files h := files (rh h); kernel h := kernel (rh h) |}.
Next Obligation. intros c i h. cbn [exec rhost_os]. rewrite on_sim_snd. exact (exec_files c i (tame h)). Qed.
Next Obligation. intros p h. cbn [read_file rhost_os]. rewrite on_sim_snd. exact (read_file_view p (tame h)). Qed.
Next Obligation. intros p h o. cbn [read_file rhost_os]. rewrite on_sim_fst. exact (read_file_inl p (tame h) o). Qed.
Next Obligation. intros p h. cbn [read_dir rhost_os]. rewrite on_sim_snd. exact (read_dir_view p (tame h)). Qed.
Next Obligation. intros p h l. cbn [read_dir rhost_os]. rewrite on_sim_fst. exact (read_dir_inl p (tame h) l). Qed.
Next Obligation. intros p c h. cbn [save_file rhost_os]. rewrite on_sim_snd. exact (save_kernel p c (tame h)). Qed.
Next Obligation. intros p c h. cbn [save_file rhost_os]. rewrite on_sim_fst, on_sim_snd. exact (save_None p c (tame h)). Qed.
Next Obligation. intros p c h e. cbn [save_file rhost_os]. rewrite on_sim_fst, on_sim_snd. exact (save_Some p c (tame h) e). Qed.
Next Obligation. intros p h. cbn [remove_file rhost_os]. rewrite on_sim_snd. exact (remove_kernel p (tame h)). Qed.
Next Obligation. intros p h. cbn [remove_file rhost_os]. rewrite on_sim_fst, on_sim_snd. exact (remove_None p (tame h)). Qed.
Next Obligation. intros p h e. cbn [remove_file rhost_os]. rewrite on_sim_fst, on_sim_snd. exact (remove_Some p (tame h) e). Qed.

(** ** The laws of the table *)

Lemma victim_Some s t k : victim s t = Some k → ∃ r, t !! k = Some r ∧ selects s k r = true ∧
  ∀ r0, t !! (s_dst s, METRIC) = Some r0 → selects s (s_dst s, METRIC) r0 = true → k = (s_dst s, METRIC).
Proof.
  unfold victim. destruct (t !! (s_dst s, METRIC)) as [r|] eqn:Hr; [destruct (selects s (s_dst s, METRIC) r) eqn:Hs|].
  { intros [= <-]. by exists r. }
  all: destruct (list_find _ _) as [[n [k' r']]|] eqn:Hf; [|done]; intros [= <-]; apply list_find_Some in Hf as (Hn & Hsel & _); exists r'.
  all: apply list_elem_of_lookup_2, elem_of_map_to_list in Hn; cbn in *; split; [done|]; split; [done|]; intros r0; congruence.
Qed.
Lemma victim_None s t k r : victim s t = None → t !! k = Some r → selects s k r = false.
Proof.
  unfold victim. destruct (match t !! _ with Some r => _ | None => _ end); [done|]. destruct (list_find _ _) as [[n x]|] eqn:Hf; [done|]. intros _ Hk.
  apply list_find_None in Hf. eapply list.Forall_forall in Hf; [|by apply elem_of_map_to_list]. by apply not_true_is_false.
Qed.

(** A command does what it does to the table, or fails without effect. *)
Lemma rhost_exec c h : let r := command_on c None (kernel h) in
  ((exec c None h).1 = r.1 ∧ kernel (exec c None h).2 = r.2) ∨ ((exec c None h).1 = inr io_error ∧ kernel (exec c None h).2 = kernel h).
Proof.
  cbn [exec rhost_os kernel rhost_laws]. rewrite on_sim_fst, on_sim_snd. cbn. unfold sim_exec, tame. cbn. destruct (command_on c None (sim_state (rh h))) as [r x] eqn:Hc.
  destruct (sim_plan (rh h)) as [|[| |] plan]; cbn; auto.
Qed.

Lemma on_table_inl v s x o x' : on_table v s x = (inl o, x') → ∃ t, rib_step v s (cur x) t ∧ x' = t :: x.
Proof.
  destruct v; cbn.
  - destruct (cur x !! route_key s) eqn:Hk; [done|]. intros [= <- <-]. by eexists.
  - intros [= <- <-]. by eexists.
  - destruct (victim s (cur x)) as [k|] eqn:Hv; [|done]. intros [= <- <-]. apply victim_Some in Hv as (r & Hk & Hs & Hf). eexists. split; [|done]. exists k, r. by repeat split.
Qed.
Lemma on_table_inr v s x e x' : on_table v s x = (inr e, x') → x' = x ∧ (v = VDel → ∀ k r, cur x !! k = Some r → selects s k r = false).
Proof.
  destruct v; cbn.
  - destruct (cur x !! route_key s) eqn:Hk; [|done]. by intros [= <- <-].
  - done.
  - destruct (victim s (cur x)) as [k|] eqn:Hv; [done|]. intros [= <- <-]. split; [done|]. intros _ k r. by apply victim_None.
Qed.

Lemma command_change c v s x : ip_route c = Some (v, s) → command_on c None x = on_table v s x.
Proof. intros Hc. unfold command_on, rib_commands. by rewrite Hc. Qed.

Lemma answer_rows family p t : answer (show_exact family p) t = rows_text (fields_of <$> (filter (fun x => x.1.1 = p) (map_to_list t)).*2).
Proof. done. Qed.

Lemma rhost_show family p h o : (exec (show_exact family p) None h).1 = inl o →
  of_text o = Some (JArray (row_json <$> (fields_of <$> (filter (fun x => x.1.1 = p) (map_to_list (cur (kernel h)))).*2))).
Proof.
  destruct (rhost_exec (show_exact family p) h) as [[-> _]|[-> _]]; [|done]. cbn [command_on rib_commands show_exact ip_route fst]. intros [= <-]. rewrite <-of_rows_text. done.
Qed.

#[export] Instance rhost_rib : RibLaws rhost.
Proof.
  split.
  - intros c v s h o Hc. destruct (rhost_exec c h) as [[-> ->]|[-> _]]; [|done]. rewrite (command_change _ _ _ _ Hc).
    destruct (on_table v s (kernel h)) as [r x] eqn:Ht. cbn. intros ->. by apply on_table_inl in Ht.
  - intros c v s h e Hc. destruct (rhost_exec c h) as [[-> ->]|[_ ->]]; [|done]. rewrite (command_change _ _ _ _ Hc).
    destruct (on_table v s (kernel h)) as [r x] eqn:Ht. cbn. intros ->. by apply on_table_inr in Ht as [-> _].
  - intros c s h e Hc. destruct (rhost_exec c h) as [[-> _]|[-> _]]; [|by intros [= <-]]. rewrite (command_change _ _ _ _ Hc).
    destruct (on_table VDel s (kernel h)) as [r x] eqn:Ht. cbn. intros -> _. apply on_table_inr in Ht as [_ Hn]. by apply Hn.
  - intros c h Hc _. destruct (rhost_exec c h) as [[_ ->]|[_ ->]]; [|done]. unfold command_on, rib_commands. by rewrite Hc.
  - intros family p h o rows Ho Hr. apply rhost_show in Ho. rewrite Ho in Hr. injection Hr as <-. split.
    + intros row (fs & -> & (r & -> & ([[d m] r'] & -> & [Hp Hin]%list_elem_of_filter)%list_elem_of_fmap)%list_elem_of_fmap)%list_elem_of_fmap. cbn in *. subst d.
      apply elem_of_map_to_list in Hin. exists m, r'. split; [done|apply row_of_fields].
    + intros m r Hm. exists (row_json (fields_of r)). split; [|apply row_of_fields]. do 2 apply list_elem_of_fmap_2. apply list_elem_of_fmap. exists (p, m, r). split; [done|].
      apply list_elem_of_filter. split; [done|]. by apply elem_of_map_to_list.
  - intros family p h o Ho. eexists. by eapply rhost_show.
Qed.

(** ** Its backends *)

#[export] Instance set_order : SetOrder.
Proof. refine {| set_items s := elements s |}. done. Defined.
#[export] Instance no_dns : DnsBackend rhost := {| set_mode _ _ := mret tt; clear := mret tt; owned_dns := mret false; verify_file := mret tt |}.
#[export] Instance no_firewall : Firewall rhost unit :=
  {| detect := mret tt; has_lease _ := mret false; recover _ := mret tt; fw_up _ _ _ _ _ := mret tt; fw_down _ _ _ := mret tt |}.
#[export] Instance no_guard : KillSwitch rhost := {| guard_sync _ _ _ := mret tt; guard_check _ := mret tt |}.
#[export] Instance no_backends : BackendLaws rhost unit.
Proof. split; [split|..]; intros; intros P; by apply spec_ret. Qed.
