(* ===== verification/NodeRun.v ===== *)
(** * Runs of a node

    A run is any sequence of the node's steps, each of which may fail at any command: passes
    of the reconciler, and at some point the shutdown, which may come between any two steps of
    a pass.  Other programs leave the routing table alone during a run. *)

From Stdlib Require Import Strings.Ascii Strings.String.
From S2P Require Import Prelude.
From S2P Require Import Words.
From S2P Require Import NetAddr.
From S2P Require Import NetText.
From S2P Require Import Prefix.
From S2P Require Import RouteTable.
From S2P Require Import Apply.
From S2P Require Import Domain.
From S2P Require Import NodeConfig.
From S2P Require Import HostRun.
From S2P Require Import HostSim.
From S2P Require Import Rib.
From S2P Require Import HostRoutes.
From S2P Require Import ExitSpec.
From S2P Require Import Bypass.
From S2P Require Import BypassSpec.
From S2P Require Import HostEffects.
From S2P Require Import HostAccount.
From S2P Require Import OverlaySpec.
From S2P Require Import TunnelSpec.
From S2P Require Import NodeSpec.
From S2P Require Import RibSim.

Inductive Act :=
  | ARetire (epoch now : Z) (selected : option (list byte))
  | ABypass (bypass : list string) (retain : bool)
  | AGuard (peers : list PeerInfo) (retain : bool) (resolved : res ApplyError (list IpAddr))
  | AEffects (epoch now now' : Z) (peers : list PeerInfo) (self_exit : bool) (retirement carriers : ApplyResult)
  | ACleanup.

Section Runs.
Context {H B : Type} `{!HostOs H} `{!HostLaws H (list rib)} `{!Serde Json} `{!RibLaws H} `{!SetOrder}.
Context `{!DnsBackend H} `{!Firewall H B} `{!KillSwitch H} `{!BackendLaws H B}.
Context (cfg : HostConfig).

Definition act (a : Act) : st (HostState B * H) ApplyError unit :=
  match a with
  | ARetire epoch now selected => retire cfg epoch now selected
  | ABypass bypass retain => sync_bypass cfg bypass retain
  | AGuard peers retain resolved => guard_carriers cfg peers retain resolved
  | AEffects epoch now now' peers self_exit retirement carriers => effects cfg epoch now now' peers self_exit retirement carriers
  | ACleanup => cleanup cfg
  end.
Definition acts (l : list Act) (s : HostState B * H) : HostState B * H := foldl (fun s a => (act a s).2) s l.

Context (t0 : rib) (D : gset string) (R : list string).
Implicit Types (w : HostState B) (x : list rib) (t : rib).
Abbreviation dev := (tun_name cfg).
Abbreviation Inv := (NodeInv cfg t0 D).

(** The table found, and routes of the node. *)
Definition Explained t : Prop := ∃ l o i, Accounted dev t0 D l o i t.

(** Steps whose routes keep apart: the overlay's prefixes are in [D], no carrier has one of
    them; [R]: the relays. *)
Definition acceptable (a : Act) : Prop :=
  match a with
  | ABypass bypass _ => ∀ p, names bypass p → p ∉ TAKEN D
  | AGuard peers _ resolved => resolved ≠ Panic ∧ ∀ w p, relay_ips w = R → names (guarded_ips peers (addresses resolved) w) p → p ∉ TAKEN D
  | AEffects _ _ _ peers _ _ _ => desired_routes cfg peers ⊆ D
  | _ => True
  end.

(** A node that has not done anything yet. *)
Definition fresh_node w : Prop := exits_of w = (None, exit_progress_default) ∧ carriers_of w = ∅ ∧ hr_routes w = mkRoutes ∅ ∅ ∧ relay_ips w = R.

Lemma accounted_found l o i t : Setting t0 D → Accounted dev t0 D l o i t → t0 ⊆ t.
Proof.
  intros Hset Ha. apply map_subseteq_spec. intros k r Hk. rewrite (ac_rest _ _ _ _ _ _ _ Ha); [done|..].
  - intros [Hin _]%(ac_redirects _ _ _ _ _ _ _ Ha). by rewrite (se_redirects _ _ Hset k Hin) in Hk.
  - intros p ->. split.
    + destruct (o !! p) as [v|] eqn:Hv; [|done]. destruct (ac_carriers _ _ _ _ _ _ _ Ha p v Hv) as (_ & Hn & _). by rewrite Hn in Hk.
    + intros [HD _]%(ac_overlay _ _ _ _ _ _ _ Ha). destruct (se_overlay _ _ Hset p HD) as [Hn _]. by rewrite Hn in Hk.
Qed.

Lemma fresh_inv w : fresh_node w → Inv w t0.
Proof.
  intros (He & Hc & Hr & _). exists ∅. rewrite He. split; [done|]. split; [by apply tunnel_nil|]. unfold redirects_of. rewrite He, Hc, Hr. split.
  - split; [by intros k ?%elem_of_nil|done..].
  - split; done.
Qed.

(** What every step keeps. *)
Definition Good_run w x : Prop := relay_ips w = R ∧ Inv w (cur x) ∧ Trace Explained [t0] x.

Lemma act_run a : Setting t0 D → acceptable a →
  spec (fun _ '(w, x) => Good_run w x) (act a) (fun _ _ '(w, x) => Good_run w x) (fun _ _ '(w, x) => Good_run w x).
Proof.
  intros Hset Ha. apply spec_ghost. intros [w1 x1]. apply (spec_pure _ (Good_run w1 x1)); [by intros f [w x] [? [= -> ->]]|]. intros (Hrel & Hi & Ht).
  set (F := fun w : HostState B => relay_ips w = R). assert (constant F) as HC by (by split).
  assert (∀ m : st (HostState B * H) ApplyError unit,
    spec (fun _ '(w, x) => F w ∧ Runs cfg t0 D x1 REDIRECTS ∅ w x) m (fun _ _ '(w, x) => F w ∧ Runs cfg t0 D x1 REDIRECTS ∅ w x)
      (fun _ _ '(w, x) => F w ∧ Runs cfg t0 D x1 REDIRECTS ∅ w x) →
    spec (fun _ '(w, x) => Good_run w x ∧ (w, x) = (w1, x1)) m (fun _ _ '(w, x) => Good_run w x) (fun _ _ '(w, x) => Good_run w x)) as Hstep.
  { intros m Hm. assert (∀ w x, F w ∧ Runs cfg t0 D x1 REDIRECTS ∅ w x → Good_run w x) as Hout.
    { intros w x [Hr (Hi' & _ & _ & Ht')]. split; [done|]. split; [done|]. eapply trace_trans; [done|]. eapply trace_mono; [|done].
      intros t (l & o & i & _ & _ & Hacc). by exists l, o, i. }
    eapply spec_weaken; [exact Hm| |intros u f [w x]; apply Hout|intros e f [w x]; apply Hout]. intros f [w x] [_ [= -> ->]]. split; [done|].
    split; [done|]. split; [|split; [apply map_empty_subseteq|apply trace_refl]]. destruct Hi as (i & _ & [_ _ Hw _ _ _] & _). exact Hw. }
  destruct a as [epoch now sel|l retain|peers retain resolved|epoch now now' peers self ret car|]; cbn [act].
  - apply Hstep. eapply spec_weaken; [by apply (spec_retire cfg t0 D Hset x1 REDIRECTS ∅ F epoch now sel); [|apply HC]|done|by intros u f [w x] []|done].
  - apply Hstep. eapply spec_weaken; [apply (spec_sync_bypass cfg t0 D Hset x1 REDIRECTS ∅ F l retain); [by apply HC|done|]|done|done|done].
    intros p Hp. by rewrite lookup_empty in Hp.
  - apply Hstep. destruct Ha as [Hnp HT].
    eapply spec_weaken; [apply (spec_guard_carriers cfg t0 D Hset x1 REDIRECTS ∅ F peers retain resolved); [apply HC|apply HC|done|done]|done|done|done].
  - apply Hstep.
    eapply spec_weaken; [apply (spec_effects cfg t0 D Hset x1 False REDIRECTS ∅ F epoch now now' peers self ret car HC Ha); done|by intros f [w x] []|by intros u f [w x] []|done].
  - assert (∀ w x, F w ∧ Inv w (cur x) ∧ Trace (Carrying cfg t0 D (carriers_of w1)) x1 x → Good_run w x) as Hend.
    { intros w x (Hr & Hi' & Ht'). split; [done|]. split; [done|]. eapply trace_trans; [done|]. eapply trace_mono; [|done]. intros t (l & o & i & Hacc & _). by exists l, o, i. }
    eapply spec_weaken; [by apply (spec_cleanup_node cfg t0 D Hset F w1 x1 HC)|by intros f [w x] [_ [= -> ->]]|intros u f [w x] (_ & _ & Hr); by apply Hend|intros e f [w x]; apply Hend].
Qed.

(** ** The table at every moment *)


(** ** A pass *)

Lemma between_redirects L K t k : Setting t0 D → Between cfg t0 D L K t → k ∈ REDIRECTS → t !! k ≠ None → k ∈ L.
Proof.
  intros Hset (l & o & i & Hl & _ & Ha) Hk Ht. destruct (decide (k ∈ l)) as [|Hn]; [by apply Hl|]. exfalso. apply Ht.
  rewrite <-(lookup_without_out l) by done. by eapply accounted_free.
Qed.

Lemma tick_run K w0 h0 epoch now0 now now' peers self_exit (bypass : res ApplyError (list string)) retain r w h : Setting t0 D → Inv w0 (cur (kernel h0)) →
  desired_routes cfg peers ⊆ D → bypass ≠ Panic → (∀ l p, bypass = Ok l → names l p → p ∉ TAKEN D) → K ⊆ carriers_of w0 → (∀ p, K !! p ≠ None → asked bypass retain p) →
  tick cfg epoch now0 now now' peers self_exit bypass retain (w0, h0) = (r, (w, h)) →
  Runs cfg t0 D (kernel h0) (allowed bypass (redirects_of w0)) K w (kernel h) ∧ r ≠ Panic ∧ (r = Ok tt → applied cfg peers w).
Proof.
  intros Hset Hi HD Hnp HT HK Hask Ht. assert (redirects_of w0 ⊆ REDIRECTS) as Hw by (destruct Hi as (i & _ & [_ _ Hw _ _ _] & _); exact Hw).
  pose proof (spec_tick cfg t0 D Hset (kernel h0) (redirects_of w0) K (fun _ => True) epoch now0 now now' peers self_exit bypass retain) as Hs.
  assert (True ∧ Runs cfg t0 D (kernel h0) (redirects_of w0) K w0 (kernel h0)) as Hpre by (split; [done|]; split; [done|]; split; [done|]; split; [done|apply trace_refl]).
  specialize (Hs ltac:(by split) HD Hw Hnp HT Hask (w0, h0) r (w, h) Hpre Ht). destruct r as [[]|e|]; [|by destruct Hs|done].
  by destruct Hs as (Ha & _ & Hr).
Qed.


(** ** Shutdown *)

(** C10.  [cleanup] from true records ([NodeInv]), in the setting of a run and whichever commands
    fail: the host's routes stay, and as long as a table on the way redirects traffic into the
    tunnel, every carrier route is in place; the records stay true, so that what could not be
    removed (IPv6 overlay routes excepted) is still named.  If it succeeds, no carrier is left
    and the table is the one the host had, but for overlay routes on the node's own
    interface. *)
Theorem cleanup_restores w0 h0 : Setting t0 D → NodeInv cfg t0 D w0 (cur (kernel h0)) →
  let '(r, (w, h)) := cleanup cfg (w0, h0) in
  shutdown w = true ∧ NodeInv cfg t0 D w (cur (kernel h)) ∧
  (∃ seg, kernel h = seg ++ kernel h0 ∧ ∀ t, t ∈ seg → t0 ⊆ t ∧
    ((∃ k, k ∈ REDIRECTS ∧ t !! k ≠ None) → ∀ p via, carriers_of w0 !! p = Some via → t !! ckey p = Some (carrier via))) ∧
  (r = Ok tt → carriers_of w = ∅ ∧ ∀ k, cur (kernel h) !! k ≠ t0 !! k → cur (kernel h) !! k = Some (dev_route dev) ∧ ∃ p, p ∈ D ∧ k = ckey p).
Proof.
  intros Hset Hi. destruct (cleanup cfg (w0, h0)) as [r [w h]] eqn:Hc.
  pose proof (spec_cleanup_node cfg t0 D Hset (fun w => shutdown w = true) w0 (kernel h0)) as Hs.
  specialize (Hs ltac:(by split) eq_refl (w0, h0) r (w, h) (conj eq_refl (conj eq_refl Hi)) Hc).
  assert (shutdown w = true ∧ Inv w (cur (kernel h)) ∧ Trace (Carrying cfg t0 D (carriers_of w0)) (kernel h0) (kernel h)) as (Hsd & Hinv & seg & Hseg & Hcar)
    by (destruct r; cbn in Hs; naive_solver).
  split; [done|]. split; [done|]. split.
  - exists seg. split; [done|]. intros t Hin. eapply list.Forall_forall in Hcar as (l & o & i & Ha & Hk); [|done]. split; [by eapply accounted_found|].
    intros (k & Hkr & Hkt) p via Hp. eapply (ac_carriers _ _ _ _ _ _ _ Ha). eapply lookup_weaken; [done|]. apply Hk. intros ->. apply Hkt.
    rewrite <-(lookup_without_out []) by (by intros ?%elem_of_nil). by eapply accounted_free.
  - intros ->. destruct Hs as (Hnil & Hemp & _). cbn in Hnil, Hemp. split; [done|]. destruct Hinv as (i & _ & _ & Ha & _). rewrite Hnil, Hemp in Ha. intros k Hk.
    destruct k as [p m]. destruct (decide (m = METRIC ∧ p ∈ i)) as [[-> Hp]|Hn].
    + destruct (ac_overlay _ _ _ _ _ _ _ Ha p Hp) as [HD Ht]. split; [done|]. by exists p.
    + exfalso. apply Hk. apply (ac_rest _ _ _ _ _ _ _ Ha); [by intros ?%elem_of_nil|]. intros q [= -> ->]. split; [done|]. intros Hq. by apply Hn.
Qed.

Definition is_cleanup (a : Act) : bool := match a with ACleanup => true | _ => false end.

Lemma act_stopped a y : is_cleanup a = false →
  spec (fun _ '(w, x) => shutdown w = true ∧ x = y) (act a) (fun _ _ '(w, x) => shutdown w = true ∧ x = y) (fun _ _ '(w, x) => shutdown w = true ∧ x = y).
Proof.
  set (V := fun (w : HostState B) x => shutdown w = true ∧ x = y).
  assert (∀ m, spec (fun _ '(w, x) => V w x) (gated (H:=H) cfg m) (fun _ _ '(w, x) => V w x) (fun _ _ '(w, x) => V w x)) as Hgate.
  { intros m. apply (spec_gated cfg V); [|by intros w f x _ ?]. apply (spec_pure _ False); [intros f [w x] [[Ho _] [Hs _]]; congruence|done]. }
  assert (∀ stage epoch now m, spec (fun _ '(w, x) => V w x) m (fun _ _ '(w, x) => V w x) (fun _ _ '(w, x) => V w x) →
    spec (fun _ '(w, x) => V w x) (retried (B:=B) (H:=H) stage epoch now m) (fun _ _ '(w, x) => V w x) (fun _ _ '(w, x) => V w x)) as Hret.
  { intros stage epoch now m Hm. by apply (spec_retried V stage epoch now m V V). }
  intros Ha. destruct a as [epoch now sel|l retain|peers retain resolved|epoch now now' peers self ret car|]; cbn [act]; [| | | |done].
  - unfold retire. eapply spec_bind; [apply (spec_get _ (fun _ _ '(w, x) => V w x)); done|]. intros q. destruct (_ || _); [by apply spec_ret|]. apply Hret, Hgate.
  - apply Hgate.
  - unfold guard_carriers. destruct (kill_switch cfg); cbn [negb]; [|by apply spec_ret].
    eapply spec_bind; [apply (spec_get _ (fun q _ '(w, x) => shutdown q = true ∧ V w x)); by intros w f x [? ?]|]. intros q.
    apply (spec_pure _ (shutdown q = true)); [by intros f [w x] []|]. intros Hq.
    apply (spec_weaken (fun _ '(w, x) => V w x) _ _ (fun _ _ '(w, x) => V w x) _ (fun _ _ '(w, x) => V w x)); [|by intros f [w x] [_ Hv]|done|done].
    case_bool_decide; [by apply spec_err|]. destruct (carrier_cache cfg); cbn [negb]; [|by apply spec_err]. rewrite Hq. by apply spec_ret.
  - unfold effects. eapply (spec_bind _ _ _ (fun _ _ '(w, x) => V w x)); [by apply spec_tried, Hret, Hgate|]. intros host.
    eapply (spec_bind _ _ _ (fun _ _ '(w, x) => V w x)).
    { apply spec_tried. destruct (all _) as [[]|e|] eqn:Hall; [apply spec_pass, Hret, Hgate|by apply spec_err|]. unfold all in Hall. by destruct (dedup _). }
    intros exit. eapply (spec_bind _ _ _ (fun _ _ '(w, x) => V w x)); [by apply spec_tried, Hret, Hgate|]. intros resolver.
    eapply (spec_bind _ _ _ (fun _ _ '(w, x) => V w x)).
    { apply spec_tried, Hret. eapply spec_bind; [apply (spec_get _ (fun q _ '(w, x) => shutdown q = true ∧ V w x)); by intros w f x [? ?]|]. intros q.
      apply (spec_pure _ (shutdown q = true)); [by intros f [w x] []|]. intros ->. apply spec_ret. by intros f [w x] []. }
    intros nat. apply spec_lift; [unfold all; by destruct (dedup _)|done|done].
Qed.

(** C11.  After the shutdown began, no step of a pass that was under way or starts later changes
    the routing table any more: nothing that was taken down comes back. *)
Theorem shutdown_is_final l w0 h0 : shutdown w0 = true → Forall (fun a => is_cleanup a = false) l → kernel (acts l (w0, h0)).2 = kernel h0.
Proof.
  intros Hs Hl. revert w0 h0 Hs. induction Hl as [|a l Ha _ IH]; intros w0 h0 Hs; [done|]. cbn [acts foldl].
  destruct (act a (w0, h0)) as [r [w1 h1]] eqn:Hact. pose proof (act_stopped a (kernel h0) Ha (w0, h0) r (w1, h1) (conj Hs eq_refl) Hact) as Hr.
  assert (shutdown w1 = true ∧ kernel h1 = kernel h0) as [Hs1 Hk] by (by destruct r). cbn. rewrite <-Hk. by apply IH.
Qed.
End Runs.

(** ** An example *)

Definition cfg_x : HostConfig := mkHostConfig "flux0" "10.9.0.0/24" "" [] false false (mkProviderPolicy false None false false) true false.
Definition lan : rib := {[ ("192.168.1.0/24"%string, METRIC) := mkRoute None (Some "eth0"%string) None false ]}.
Definition exit_x : PeerInfo := mkPeerInfo [x01] [SockV4 3405803783 51820] ["10.9.0.7/32"; "0.0.0.0/0"]%string None true.
Definition plain_x : PeerInfo := mkPeerInfo [x01] [SockV4 3405803783 51820] ["10.9.0.7/32"]%string None false.
Definition host_x (plan : list fault) : rhost := mkRhost (mkSim ∅ [lan] plan).
Definition node_x : HostState unit := start_state.
Definition prefixes_x : gset string := {[ "10.9.0.0/24"%string; "10.9.0.7/32"%string ]}.

Lemma setting_x : Setting lan prefixes_x.
Proof.
  split.
  - intros k Hk. assert (Forall (fun k => lan !! k = None) REDIRECTS) as Hf by (repeat constructor). by eapply list.Forall_forall in Hf.
  - intros p Hp. apply elem_of_union in Hp as [->%elem_of_singleton| ->%elem_of_singleton]; done.
  - intros p Hp. assert (Forall (fun d => d ≠ "10.9.0.0/24"%string ∧ d ≠ "10.9.0.7/32"%string) SPLIT_DEFAULT) as Hf by (by repeat constructor).
    rewrite list.Forall_forall in Hf. apply elem_of_union in Hp as [->%elem_of_singleton| ->%elem_of_singleton]; (split; [done|]); (split; [|done]); intros Hin; by destruct (Hf _ Hin).
Qed.

Lemma fresh_x : fresh_node [] node_x.
Proof. done. Qed.

Lemma free_x p : p = "203.0.113.7/32"%string → p ∉ TAKEN prefixes_x.
Proof. intros ->. by vm_compute. Qed.

Lemma named_x l p : l = ["203.0.113.7"%string] → names l p → p ∉ TAKEN prefixes_x.
Proof. intros -> (v & ->%list_elem_of_singleton & Hv). apply free_x. vm_compute in Hv. by injection Hv as <-. Qed.

Lemma routes_x peers : desired_routes cfg_x peers = list_to_set ["10.9.0.7/32"; "10.9.0.0/24"]%string → desired_routes cfg_x peers ⊆ prefixes_x.
Proof. intros ->. unfold prefixes_x. set_solver. Qed.

Definition steps_x : list Act :=
  [ABypass ["203.0.113.7"%string] true; AEffects 1 0 0 [exit_x] false (Ok tt) (Ok tt); ARetire 2 0 None; ACleanup].
(** The second half of the default route fails, its rollback too. *)
Definition fails_x : list fault := replicate 14 Works ++ [Fails; Fails].
Abbreviation after_x := (acts (H:=rhost) (B:=unit) cfg_x steps_x (node_x, host_x fails_x)).


(** After a pass that selected the exit, with all commands working. *)
Abbreviation tunnel_x := (tick (H:=rhost) (B:=unit) cfg_x 1 0 0 0 [exit_x] false (Ok ["203.0.113.7"%string]) false (node_x, host_x [])).

Lemma tunnel_ok : tunnel_x.1 = Ok tt ∧ opened cfg_x tunnel_x.2.1 ∧ bool_decide (carriers_of tunnel_x.2.1 = ∅) = false.
Proof. split; [vm_compute; reflexivity|]. split; [split|]; vm_compute; reflexivity. Qed.

Lemma tunnel_routes : desired_routes cfg_x [exit_x] ⊆ prefixes_x.
Proof. apply routes_x. vm_compute. reflexivity. Qed.

Lemma inv_x : NodeInv cfg_x lan prefixes_x node_x (cur (kernel (host_x []))).
Proof. exact (fresh_inv cfg_x lan prefixes_x [] node_x fresh_x). Qed.
Lemma bypass_x l p : (Ok ["203.0.113.7"%string] : res ApplyError (list string)) = Ok l → names l p → p ∉ TAKEN prefixes_x.
Proof. intros [= <-]. by apply named_x. Qed.
Lemma bypass_ok : (Ok ["203.0.113.7"%string] : res ApplyError (list string)) ≠ Panic.
Proof. done. Qed.


Lemma tunnel_inv : NodeInv cfg_x lan prefixes_x tunnel_x.2.1 (cur (kernel tunnel_x.2.2)).
Proof.
  destruct (tick_run (H:=rhost) (B:=unit) cfg_x lan prefixes_x ∅ node_x (host_x []) 1 0 0 0 [exit_x] false (Ok ["203.0.113.7"%string]) false tunnel_x.1 tunnel_x.2.1 tunnel_x.2.2 setting_x
    inv_x tunnel_routes bypass_ok bypass_x) as ((Hi & _) & _); [| | |exact Hi].
  - apply map_empty_subseteq.
  - intros p Hp. by rewrite lookup_empty in Hp.
  - generalize tunnel_x. intros [r [w h]]. reflexivity.
Qed.

Abbreviation down_x := (cleanup (H:=rhost) (B:=unit) cfg_x (tunnel_x.2.1, tunnel_x.2.2)).

Lemma down_ok : down_x.1 = Ok tt ∧ shutdown down_x.2.1 = true ∧ cur (kernel down_x.2.2) !! dkey "0.0.0.0/1" = None.
Proof. split; [vm_compute; reflexivity|]. split; vm_compute; reflexivity. Qed.

Lemma cleanup_restores_witness :
  down_x.1 = Ok tt ∧ carriers_of down_x.2.1 = ∅ ∧ cur (kernel down_x.2.2) !! dkey "0.0.0.0/1" = None ∧ carriers_of tunnel_x.2.1 ≠ ∅.
Proof.
  pose proof (cleanup_restores (H:=rhost) (B:=unit) cfg_x lan prefixes_x tunnel_x.2.1 tunnel_x.2.2 setting_x tunnel_inv) as Hc.
  destruct down_ok as (Hok & _ & Hn). destruct tunnel_ok as (_ & _ & Hb%bool_decide_eq_false). revert Hc Hok Hn Hb.
  generalize down_x. intros [r [w h]] (_ & _ & _ & Hr) Hok Hn Hb. destruct (Hr Hok) as [He _]. exact (conj Hok (conj He (conj Hn Hb))).
Defined.

Lemma shutdown_is_final_witness :
  shutdown down_x.2.1 = true ∧ kernel (acts cfg_x [ARetire 2 0 None; ABypass [] false; AEffects 2 0 0 [exit_x] false (Ok tt) (Ok tt)] (down_x.2.1, down_x.2.2)).2 = kernel down_x.2.2.
Proof.
  destruct down_ok as (_ & Hs & _). split; [exact Hs|]. revert Hs. generalize down_x. intros [r [w h]] Hs. apply (shutdown_is_final cfg_x); [exact Hs|]. repeat constructor.
Defined.

(** ** A carrier lost to a full tunnel that failed *)

Abbreviation pass_x epoch peers := (host_apply (H:=rhost) (B:=unit) cfg_x epoch 0 0 0 peers false false (Ok []) (fun _ => Ok [])).
Abbreviation failed_x := (pass_x 1 [exit_x] (node_x, host_x fails_x)).
Abbreviation dropped_x := (pass_x 2 [plain_x] failed_x.2).

(** A run.  [cleanup_exit_with] keeps the bypass routes until no traffic is redirected any more,
    and so does [cleanup]; [prepare_bypass] asks only whether an exit is applied.  When an exit
    fails halfway, a redirection cannot be taken back and the exit is then deselected, the next
    pass removes the route of the peer's carrier while half of all traffic, the carrier's
    included, is still redirected into the tunnel. *)
Lemma carrier_lost_while_redirecting :
  carriers_of failed_x.2.1 !! "203.0.113.7/32"%string = Some (mkVia "192.168.1.1" "eth0") ∧ sock_ip <$> pi_candidates plain_x = [V4 3405803783] ∧
  ∃ seg, kernel dropped_x.2.2 = seg ++ kernel failed_x.2.2 ∧ ∃ t, t ∈ seg ∧ t !! dkey "0.0.0.0/1" = Some (dev_route "flux0") ∧ t !! ckey "203.0.113.7/32" = None.
Proof.
  split; [vm_compute; reflexivity|]. split; [reflexivity|]. exists (firstn 2 (kernel dropped_x.2.2)).
  split; [apply (bool_decide_eq_true_1 _); vm_compute; reflexivity|].
  assert (existsb (fun t => bool_decide (t !! dkey "0.0.0.0/1" = Some (dev_route "flux0")) && bool_decide (t !! ckey "203.0.113.7/32" = None)) (firstn 2 (kernel dropped_x.2.2)) = true) as Ht
    by (vm_compute; reflexivity).
  apply existsb_exists in Ht as (t & Hin%list_elem_of_In & Ht). apply andb_true_iff in Ht as [H1%bool_decide_eq_true H2%bool_decide_eq_true]. exists t. exact (conj Hin (conj H1 H2)).
Qed.
