(* ===== verification/Forwarding.v ===== *)
(** * Leases on packet forwarding (node/src/firewall/forwarding.rs)

    An exit node switches the kernel's forwarding on.  Several nodes on a host share it: each
    holds a lease file, the first one records the settings it found, the last one restores
    them.  The lock that serialises the processes makes an operation one step. *)

From Stdlib Require Import Strings.Ascii Strings.String.
From S2P Require Import Prelude.
From S2P Require Import Words.
From S2P Require Import NetText.
From S2P Require Import Prefix.
From S2P Require Import Apply.
From S2P Require Import HostRun.
From S2P Require Import HostSim.

Record Baseline := mkBaseline { b_v4 : bool; b_v6 : option bool }.

(** [path.extension() == Some(ext)]. *)
Definition file_name (path : string) : list ascii := default [] (list.last (split "/" (chars path))).
Definition has_extension (ext path : string) : bool :=
  match split_once "." (rev (file_name path)) with
  | Some (e, _ :: _) => bool_decide (rev e = chars ext)
  | _ => false
  end.

Section Forwarding.
Context {H : Type} `{!HostOs H} `{!Serde Baseline}.
Abbreviation host A := (st H ApplyError A).

(** ** Settings of the kernel (firewall.rs) *)

Definition sysctl_get_with (key : string) : host bool :=
  let command := ["sysctl"; "-n"; key]%string in
  out ← run command None;
  let value := str_trim out in
  if bool_decide (value = "0"%string) then mret false
  else if bool_decide (value = "1"%string) then mret true
  else lift (Err (error_new command ("invalid forwarding value: " ++ value)%string)).

Definition set_command (key : string) (on : bool) : list string :=
  ["sysctl"; "-w"; key ++ "=" ++ (if on then "1" else "0")]%string.

Definition sysctl_change (key : string) (on : bool) : host unit :=
  now ← sysctl_get_with key;
  if Bool.eqb now on then mret tt
  else
    r ← attempt (run (set_command key on) None);
    match r with
    | Err e =>
        if str_contains (stderr e) "Read-only file system" then
          now ← sysctl_get_with key;
          if Bool.eqb now on then mret tt else lift (Err e)
        else lift (Err e)
    | _ => mret tt
    end.

Definition sysctl_set_with (key : string) (on : bool) : host unit :=
  r ← attempt (sysctl_change key on);
  match r with
  | Err e => if str_starts_with key "net.ipv6." && ipv6_unavailable e then mret tt else lift (Err e)
  | _ => mret tt
  end.

Definition read_v6 (key : option string) : host (option bool) :=
  match key with
  | None => mret None
  | Some key =>
      r ← attempt (sysctl_get_with key);
      match r with
      | Ok on => mret (Some on)
      | Err e => if ipv6_unavailable e then mret None else lift (Err e)
      | Panic => mret None
      end
  end.

(** ** The state directory *)

Definition baseline_path (root : string) : string := join root "baseline.json".
Definition lease_path (root id : string) : string := join root (id ++ ".lease").

Definition baseline (root : string) : host (option Baseline) :=
  o ← read (baseline_path root);
  match o with
  | None => mret None
  | Some data =>
      match of_text data with
      | Some b => mret (Some b)
      | None => lift (Err (error_new ["read"%string; baseline_path root] "invalid forwarding baseline"))
      end
  end.

Definition leases (root : string) : host (list string) := l ← list_dir root; mret (List.filter (has_extension "lease") l).

(** ** Leases *)

(** The recorded settings, or the ones found. *)
Definition original (root v4 : string) (v6 : option string) : host Baseline :=
  found ← baseline root;
  match found with
  | Some b => match b_v6 b with Some _ => mret b | None => x ← read_v6 v6; mret (mkBaseline (b_v4 b) x) end
  | None =>
      l ← leases root;
      match l with
      | _ :: _ => lift (Err (error_new ["forwarding"; "acquire"]%string "leases exist without baseline; refusing to overwrite original state"))
      | [] => on ← sysctl_get_with v4; x ← read_v6 v6; mret (mkBaseline on x)
      end
  end.

Definition acquire_with (root id v4 : string) (v6 : option string) : host unit :=
  b ← original root v4 v6;
  _ ← save (baseline_path root) (to_text b);
  _ ← save (lease_path root id) ("forwarding" ++ String newline "")%string;
  _ ← sysctl_set_with v4 true;
  match v6, b_v6 b with Some key, Some _ => sysctl_set_with key true | _, _ => mret tt end.

Definition release_with (root id v4 : string) (v6 : option string) : host unit :=
  let lease := lease_path root id in
  l ← leases root;
  if negb (bool_decide (lease ∈ l)) then mret tt
  else if existsb (fun p => negb (bool_decide (p = lease))) l then remove lease
  else
    found ← baseline root;
    b ← lift (ok_or found (error_new ["forwarding"; "release"]%string "missing forwarding baseline"));
    r4 ← attempt (sysctl_set_with v4 (b_v4 b));
    r6 ← (match b_v6 b, v6 with Some on, Some key => attempt (sysctl_set_with key on) | _, _ => mret (Ok tt) end);
    _ ← lift (all [r4; r6]);
    _ ← remove lease;
    remove (baseline_path root).

Definition IP_FORWARD : string := "net.ipv4.ip_forward".
Definition IPV6_FORWARDING : string := "net.ipv6.conf.all.forwarding".

(** [acquire] and [release]. *)
Inductive op := Acquire (id : string) | Release (id : string).
Definition step (root : string) (o : op) : host unit :=
  match o with Acquire id => acquire_with root id IP_FORWARD (Some IPV6_FORWARDING) | Release id => release_with root id IP_FORWARD (Some IPV6_FORWARDING) end.
Definition steps (root : string) (l : list op) (h : H) : H := foldl (fun h o => (step root o h).2) h l.
End Forwarding.

(** The kernel's settings: commands of [sysctl] read and write them, a failed write may have
    taken effect, and an error that says the setting is not there is right. *)
Class SysctlLaws (H : Type) `{!HostOs H} `{!HostLaws H (gmap string bool)} : Prop := {
  sysctl_n key h : kernel (exec ["sysctl"; "-n"; key]%string None h).2 = kernel h;
  sysctl_n_inl key h o : (exec ["sysctl"; "-n"; key]%string None h).1 = inl o →
    ∃ b : bool, kernel h !! key = Some b ∧ str_trim o = (if b then "1" else "0")%string;
  sysctl_n_inr key h e : (exec ["sysctl"; "-n"; key]%string None h).1 = inr e → ipv6_unavailable e = true → kernel h !! key = None;
  sysctl_w_inl key on h o : (exec (set_command key on) None h).1 = inl o →
    kernel (exec (set_command key on) None h).2 = <[key := on]> (kernel h);
  sysctl_w_inr key on h e : (exec (set_command key on) None h).1 = inr e →
    kernel (exec (set_command key on) None h).2 = kernel h ∨ kernel (exec (set_command key on) None h).2 = <[key := on]> (kernel h);
  sysctl_w_absent key on h e : (exec (set_command key on) None h).1 = inr e → ipv6_unavailable e = true →
    kernel h !! key = None ∧ kernel (exec (set_command key on) None h).2 = kernel h
}.

Section Lemmas.
Context {H : Type} `{!HostOs H} `{!HostLaws H (gmap string bool)} `{!SysctlLaws H} `{!Serde Baseline} `{!SerdeLaws Baseline}.
Abbreviation view := (gmap string string → gmap string bool → Prop).
Implicit Types (f : gmap string string) (x : gmap string bool).

Lemma spec_sysctl_get (P : view) key Q (E : ApplyError → view) :
  (∀ b f x, x !! key = Some b → P f x → Q b f x) → (∀ e f x, (ipv6_unavailable e = true → x !! key = None) → P f x → E e f x) →
  spec P (sysctl_get_with (H:=H) key) Q E.
Proof.
  intros HQ HE h r h' Hp. unfold sysctl_get_with, run, of_sum, mbind, st_bind.
  pose proof (exec_files ["sysctl"; "-n"; key]%string None h) as Hf. pose proof (sysctl_n key h) as Hk.
  pose proof (sysctl_n_inl key h) as Hi. pose proof (sysctl_n_inr key h) as He.
  destruct (exec _ _ h) as [[o|e] h1]; cbn [fst snd] in *.
  - destruct (Hi o eq_refl) as (b & Hb & ->). destruct b; cbn; intros [= <- <-]; rewrite Hf, Hk; by apply HQ.
  - intros [= <- <-]. rewrite Hf, Hk. apply HE; eauto.
Qed.

(** A write of a setting that is there. *)
Definition written (P : view) key (on : bool) : view := fun f x' => ∃ x, P f x ∧ x' = <[key := on]> x.
Definition maybe_written (P : view) key (on : bool) (e : ApplyError) : view := fun f x' =>
  ∃ x, P f x ∧ (x' = x ∨ x' = <[key := on]> x) ∧ (ipv6_unavailable e = true → x' = x ∧ x !! key = None).

Lemma spec_sysctl_write (P : view) key on :
  spec P (run (H:=H) (set_command key on) None) (fun _ => written P key on) (maybe_written P key on).
Proof.
  intros h r h' Hp. unfold run, of_sum. pose proof (exec_files (set_command key on) None h) as Hf.
  pose proof (sysctl_w_inl key on h) as Hi. pose proof (sysctl_w_inr key on h) as He. pose proof (sysctl_w_absent key on h) as Ha.
  destruct (exec _ _ h) as [[o|e] h1]; cbn [fst snd] in *; intros [= <- <-]; rewrite Hf.
  - exists (kernel h). split; [done|by apply (Hi o)].
  - exists (kernel h). split_and!; [done|by apply (He e)|]. intros Hu. by destruct (Ha e eq_refl Hu).
Qed.

Lemma spec_sysctl_change (P : view) key on :
  spec P (sysctl_change (H:=H) key on) (fun _ => written P key on) (maybe_written P key on).
Proof.
  unfold sysctl_change. eapply spec_bind.
  { apply (spec_sysctl_get P key (fun b f x => x !! key = Some b ∧ P f x)); [done|]. intros e f x He Hp. exists x. split_and!; [done|by left|auto]. }
  intros now. destruct (Bool.eqb_spec now on) as [->|Hne].
  { apply spec_ret. intros f x [Hx Hp]. exists x. by rewrite insert_id. }
  eapply spec_try; [apply spec_sysctl_write|intros o|intros e].
  - apply spec_ret. intros f x (x0 & [_ Hp] & ->). by exists x0.
  - assert (∀ f x, maybe_written (fun f x => x !! key = Some now ∧ P f x) key on e f x → maybe_written P key on e f x) as Hm.
    { intros f x (x0 & [_ Hp] & Hx). by exists x0. }
    destruct (str_contains _ _); [|by apply spec_err].
    eapply spec_bind.
    + apply (spec_sysctl_get _ key (fun b f x => x !! key = Some b ∧ maybe_written (fun f x => x !! key = Some now ∧ P f x) key on e f x)); [done|].
      intros e' f x He' (x0 & [Hn Hp] & Hx & _). exists x0. split_and!; [done|done|]. intros Hu%He'. exfalso.
      destruct Hx as [->| ->]; [congruence|by rewrite lookup_insert_eq in Hu].
    + intros b. destruct (Bool.eqb_spec b on) as [->|].
      * apply spec_ret. intros f x (Hb & x0 & [Hn Hp] & Hx & _). exists x0. split; [done|]. destruct Hx as [->| ->]; [|done]. by rewrite insert_id.
      * apply spec_err. intros f x [_ Hx]. by apply Hm.
Qed.

(** Setting a value: done, or not there to be set. *)
Lemma spec_sysctl_set (P : view) key on Q (E : ApplyError → view) :
  (∀ f x, P f x → Q tt f (<[key := on]> x)) → (∀ f x, P f x → x !! key = None → str_starts_with key "net.ipv6." = true → Q tt f x) →
  (∀ e f x, P f x → E e f x ∧ E e f (<[key := on]> x)) → spec P (sysctl_set_with (H:=H) key on) Q E.
Proof.
  intros HQ HA HE. unfold sysctl_set_with. eapply spec_try; [apply (spec_sysctl_change P)|intros u|intros e].
  - apply spec_ret. intros f x (x0 & Hp & ->). auto.
  - destruct (str_starts_with key "net.ipv6.") eqn:Hk; cbn [andb].
    + destruct (ipv6_unavailable e) eqn:Hu.
      * apply spec_ret. intros f x (x0 & Hp & _ & Hx). destruct (Hx Hu) as [-> Hn]. auto.
      * apply spec_err. intros f x (x0 & Hp & [->| ->] & _); apply HE, Hp.
    + apply spec_err. intros f x (x0 & Hp & [->| ->] & _); apply HE, Hp.
Qed.

Lemma spec_read_v6 (P : view) key Q (E : ApplyError → view) :
  (∀ b f x, x !! key = Some b → P f x → Q (Some b) f x) → (∀ f x, x !! key = None → P f x → Q None f x) → (∀ e f x, P f x → E e f x) →
  spec P (read_v6 (H:=H) (Some key)) Q E.
Proof.
  intros HQ HN HE. unfold read_v6. eapply spec_try; [|intros b|intros e].
  - apply (spec_sysctl_get P key (fun b f x => x !! key = Some b ∧ P f x)
      (fun e f x => (ipv6_unavailable e = true → x !! key = None) ∧ P f x)); done.
  - apply spec_ret. intros f x []. auto.
  - destruct (ipv6_unavailable e) eqn:Hu; [apply spec_ret|apply spec_err]; intros f x [Hn Hp]; auto.
Qed.

(** ** Records *)

Definition is_lease (root path : string) : Prop := in_dir root path ∧ has_extension "lease" path = true.

(** What the records say of the settings [x0] found before the first lease. *)
Definition FwInv (root : string) (x0 : gmap string bool) : view := fun f x =>
  (∀ k, k ≠ IP_FORWARD → k ≠ IPV6_FORWARDING → x !! k = x0 !! k) ∧
  match f !! baseline_path root with
  | None => x = x0 ∧ ∀ q, is_lease root q → f !! q = None
  | Some data => ∃ b, of_text data = Some b ∧ x0 !! IP_FORWARD = Some (b_v4 b) ∧ x0 !! IPV6_FORWARDING = b_v6 b ∧
                      (is_Some (x !! IPV6_FORWARDING) ↔ is_Some (b_v6 b))
  end.

(** The records are as found, and hold [b]. *)
Definition recorded (root : string) (x0 : gmap string bool) (b : Baseline) : view := fun f x =>
  (∀ k, k ≠ IP_FORWARD → k ≠ IPV6_FORWARDING → x !! k = x0 !! k) ∧ x0 !! IP_FORWARD = Some (b_v4 b) ∧
  x0 !! IPV6_FORWARDING = b_v6 b ∧ (is_Some (x !! IPV6_FORWARDING) ↔ is_Some (b_v6 b)) ∧
  (f !! baseline_path root = None → x = x0 ∧ ∀ q, is_lease root q → f !! q = None) ∧
  (∀ data, f !! baseline_path root = Some data → of_text data = Some b).

Lemma recorded_inv root x0 b f x : recorded root x0 b f x → FwInv root x0 f x.
Proof.
  intros (Hk & H4 & H6 & Hs & HN & HS). split; [done|]. destruct (f !! baseline_path root) as [d|]; [|by apply HN].
  exists b. split_and!; try done. by apply HS.
Qed.

Lemma split_last c a b : Forall (.≠ c) b → list.last (split c (a ++ c :: b)) = Some b.
Proof.
  intros Hb. induction a as [|x a IH]; cbn.
  - rewrite Ascii.eqb_refl, split_split_once, split_once_None by done. done.
  - pose proof (split_nonempty c (a ++ c :: b)). destruct (Ascii.eqb x c); [|destruct (split c _) as [|p [|q l]] eqn:Hs; [done| |done]].
    + destruct (split c (a ++ c :: b)); [done|]. exact IH.
    + exfalso. rewrite split_split_once in Hs. pose proof (split_once_existsb c (a ++ c :: b)) as He.
      destruct (split_once c (a ++ c :: b)) as [[u v]|]; [injection Hs as _ Hs; by apply split_nonempty in Hs|].
      destruct He as [_ He]. destruct He as [? ?]; [|done]. apply existsb_exists. exists c. rewrite Ascii.eqb_refl. split; [|done]. apply in_or_app. right. by left.
Qed.

Lemma file_name_join root name : plain_name name → file_name (join root name) = chars name.
Proof. intros Hn. unfold file_name, join. rewrite chars_append. change (chars ("/" ++ name)%string) with ("/"%char :: chars name). by rewrite split_last. Qed.

Lemma lease_is_lease root id : plain_name id → id ≠ EmptyString → is_lease root (lease_path root id).
Proof.
  intros Hp Hi. assert (plain_name (id ++ ".lease")) as Hn.
  { unfold plain_name. rewrite chars_append. apply Forall_app. split; [done|]. repeat constructor; done. }
  split; [by exists (id ++ ".lease")%string|]. unfold has_extension, lease_path. rewrite file_name_join by done.
  rewrite chars_append, rev_app_distr. cbn. destruct (rev (chars id)) eqn:Hr; [|done].
  apply (f_equal (@rev ascii)) in Hr. rewrite rev_involutive in Hr. by destruct id.
Qed.

Lemma baseline_no_lease root : ¬ is_lease root (baseline_path root).
Proof.
  intros [_ He]. unfold has_extension, baseline_path in He. rewrite file_name_join in He; [done|]. repeat constructor; done.
Qed.

Lemma lease_path_inj root a b : lease_path root a = lease_path root b → a = b.
Proof.
  unfold lease_path, join. intros He%(f_equal chars). rewrite !chars_append in He. simplify_list_eq.
  rewrite <-(string_of_list_ascii_of_string a), <-(string_of_list_ascii_of_string b). by f_equal.
Qed.

Lemma spec_baseline (P : view) root Q (E : ApplyError → view) :
  (∀ f x, P f x → f !! baseline_path root = None → Q None f x) →
  (∀ data b f x, P f x → f !! baseline_path root = Some data → of_text data = Some b → Q (Some b) f x) →
  (∀ e f x, P f x → E e f x) → spec P (baseline (H:=H) root) Q E.
Proof.
  intros HN HS HE. unfold baseline. eapply spec_bind; [apply (spec_read P _ (fun o f x => P f x ∧ f !! baseline_path root = o)); auto|].
  intros [data|]; [destruct (of_text data) as [b|] eqn:Hb|]; [apply spec_ret|apply spec_err|apply spec_ret]; intros f x []; eauto.
Qed.

Lemma spec_leases (P : view) root Q (E : ApplyError → view) :
  (∀ l f x, (∀ q, q ∈ l ↔ is_Some (f !! q) ∧ is_lease root q) → P f x → Q l f x) → (∀ e f x, P f x → E e f x) →
  spec P (leases (H:=H) root) Q E.
Proof.
  intros HQ HE. unfold leases. eapply spec_bind; [apply (spec_list_dir P _ (fun l f x => P f x ∧ ∀ q, q ∈ l ↔ is_Some (f !! q) ∧ in_dir root q)); auto|].
  intros l. apply spec_ret. intros f x [Hp Hl]. apply HQ; [|done]. intros q. rewrite list_elem_of_In, filter_In, <-list_elem_of_In, Hl.
  unfold is_lease. tauto.
Qed.

(** ** Changes under a record *)

Section Logged.
Context (root : string) (x0 : gmap string bool).

Definition logged (b : Baseline) : view := fun f x => recorded root x0 b f x ∧ is_Some (f !! baseline_path root).

Lemma logged_inv b f x : logged b f x → FwInv root x0 f x.
Proof. intros [Hr _]. by eapply recorded_inv. Qed.

Lemma logged_save b f x : recorded root x0 b f x → logged b (<[baseline_path root := to_text b]> f) x.
Proof.
  intros (Hk & H4 & H6 & Hs & HN & HS). unfold logged, recorded. rewrite lookup_insert_eq.
  split_and!; try done. intros d [= <-]. apply of_to_text.
Qed.

Lemma logged_file b f x p c : p ≠ baseline_path root → logged b f x → logged b (<[p := c]> f) x.
Proof.
  intros Hp [(Hk & H4 & H6 & Hs & HN & HS) Hb]. unfold logged, recorded. rewrite lookup_insert_ne by done.
  split_and!; try done. intros Hn. rewrite Hn in Hb. by destruct Hb.
Qed.

Lemma logged_drop b f x p : p ≠ baseline_path root → logged b f x → logged b (delete p f) x.
Proof.
  intros Hp [(Hk & H4 & H6 & Hs & HN & HS) Hb]. unfold logged, recorded. rewrite lookup_delete_ne by done.
  split_and!; try done. intros Hn. rewrite Hn in Hb. by destruct Hb.
Qed.

Lemma logged_set b f x key on : key = IP_FORWARD ∨ key = IPV6_FORWARDING ∧ is_Some (b_v6 b) → logged b f x → logged b f (<[key := on]> x).
Proof.
  intros Hkey [(Hk & H4 & H6 & Hs & HN & HS) Hb]. unfold logged, recorded. split_and!; try done.
  - intros k Hk4 Hk6. rewrite lookup_insert_ne by naive_solver. auto.
  - destruct Hkey as [->|[-> Hv]]; [by rewrite lookup_insert_ne|]. rewrite lookup_insert_eq. split; [done|by eexists].
  - intros Hn. rewrite Hn in Hb. by destruct Hb.
Qed.

(** Found without leases, the settings are the original ones. *)
Lemma recorded_fresh f x on o : FwInv root x0 f x → f !! baseline_path root = None → x !! IP_FORWARD = Some on → x !! IPV6_FORWARDING = o →
  recorded root x0 (mkBaseline on o) f x.
Proof. intros [Hk Hm] Hn H4 H6. rewrite Hn in Hm. destruct Hm as [-> Hl]. unfold recorded. rewrite Hn, H4, H6. by split_and!. Qed.

Lemma logged_found f x data b : FwInv root x0 f x → f !! baseline_path root = Some data → of_text data = Some b → logged b f x.
Proof.
  intros [Hk Hm] Hn Hb. rewrite Hn in Hm. destruct Hm as (b' & Hb' & H4 & H6 & Hs). simplify_eq. split; [|by rewrite Hn].
  unfold recorded. rewrite Hn. split_and!; try done. by intros d [= <-].
Qed.
End Logged.

(** Forwarding as the holders of leases want it. *)
Definition forwarding_on (x0 x : gmap string bool) : Prop :=
  x !! IP_FORWARD = Some true ∧ (is_Some (x0 !! IPV6_FORWARDING) → x !! IPV6_FORWARDING = Some true).

Definition stable (R : view) : Prop :=
  (∀ f x p c, R f x → R (<[p := c]> f) x) ∧ (∀ f x key, R f x → key = IP_FORWARD ∨ key = IPV6_FORWARDING → R f (<[key := true]> x)).

Section Acquire.
Context (root id : string) (x0 : gmap string bool) (R : view) (HR : stable R) (Hid : is_lease root (lease_path root id)).

Abbreviation I := (fun f x => FwInv root x0 f x ∧ R f x).

Lemma spec_original :
  spec I (original (H:=H) root IP_FORWARD (Some IPV6_FORWARDING)) (fun b f x => recorded root x0 b f x ∧ R f x) (fun _ => I).
Proof.
  unfold original. eapply spec_bind.
  { apply (spec_baseline _ root (fun o f x => match o with None => I f x ∧ f !! baseline_path root = None
      | Some b => logged root x0 b f x ∧ R f x end)); [done| |done]. intros d b f x [Hi Hr] Hf Hb. split; [by eapply logged_found|done]. }
  intros [b|].
  - destruct (b_v6 b) as [o|] eqn:Hb; [apply spec_ret; intros f x [[Hl _] Hr]; by split|]. eapply spec_bind.
    + apply (spec_read_v6 _ _ (fun o f x => (recorded root x0 (mkBaseline (b_v4 b) o) f x ∧ R f x))).
      * intros o f x Ho [[Hl _] _]. destruct Hl as (_ & _ & _ & Hs & _). rewrite Hb, Ho in Hs. destruct Hs as [Hs _]. by destruct Hs.
      * intros f x _ [[Hl _] Hr]. destruct b; cbn in *; by subst.
      * intros e f x [Hl Hr]. split; [by eapply logged_inv|done].
    + intros o. by apply spec_ret.
  - eapply spec_bind; [apply (spec_leases _ root (fun _ f x => I f x ∧ f !! baseline_path root = None)); [done|by intros e f x []]|].
    intros [|q l]; [|apply spec_err; by intros f x []]. eapply spec_bind.
    { apply (spec_sysctl_get _ _ (fun on f x => (I f x ∧ f !! baseline_path root = None) ∧ x !! IP_FORWARD = Some on)); [done|by intros e f x _ []]. }
    intros on. eapply spec_bind.
    + apply (spec_read_v6 _ _ (fun o f x => recorded root x0 (mkBaseline on o) f x ∧ R f x)).
      * intros o f x Ho [[[Hi Hr] Hn] H4]. split; [by apply recorded_fresh|done].
      * intros f x Ho [[[Hi Hr] Hn] H4]. split; [by apply recorded_fresh|done].
      * by intros e f x [[] _].
    + intros o. by apply spec_ret.
Qed.

Lemma spec_acquire :
  spec I (acquire_with (H:=H) root id IP_FORWARD (Some IPV6_FORWARDING))
    (fun _ f x => I f x ∧ is_Some (f !! lease_path root id) ∧ forwarding_on x0 x) (fun _ => I).
Proof.
  destruct HR as [HRf HRx]. assert (lease_path root id ≠ baseline_path root) as Hne by (intros He; rewrite He in Hid; by apply baseline_no_lease in Hid).
  unfold acquire_with. eapply spec_bind; [apply spec_original|]. intros b. eapply spec_bind.
  { apply (spec_save _ _ _ (fun _ f x => logged root x0 b f x ∧ R f x)).
    - intros f x [Hl Hr]. split; [by apply logged_save|auto].
    - intros e f x [Hl Hr]. split; (split; [|auto]); [by eapply recorded_inv|by eapply logged_inv, logged_save]. }
  intros []. eapply spec_bind.
  { apply (spec_save _ _ _ (fun _ f x => (logged root x0 b f x ∧ R f x) ∧ is_Some (f !! lease_path root id))).
    - intros f x [Hl Hr]. rewrite lookup_insert_eq. split_and!; [by apply logged_file|auto|by eexists].
    - intros e f x [Hl Hr]. split; (split; [|auto]); [by eapply logged_inv|by eapply logged_inv, logged_file]. }
  intros []. eapply spec_bind.
  { apply (spec_sysctl_set _ _ _ (fun _ f x => ((logged root x0 b f x ∧ R f x) ∧ is_Some (f !! lease_path root id)) ∧ x !! IP_FORWARD = Some true)).
    - intros f x [[Hl Hr] Hf]. rewrite lookup_insert_eq. split_and!; [apply logged_set; auto|auto|done|done].
    - done.
    - intros e f x [[Hl Hr] Hf]. split; (split; [|auto]); eapply logged_inv; [done|]. eapply logged_set; eauto. }
  intros []. destruct (b_v6 b) as [o|] eqn:Hb.
  - apply spec_sysctl_set.
    + intros f x [[[Hl Hr] Hf] H4]. split; [split|split; [done|split]]; [eapply logged_inv, logged_set; eauto|auto|by rewrite lookup_insert_ne|intros _; by rewrite lookup_insert_eq].
    + intros f x [[[[(_ & _ & _ & Hs & _) _] _] _] _] Hx _. rewrite Hx, Hb in Hs. destruct Hs as [_ Hs]. by destruct Hs.
    + intros e f x [[[Hl Hr] Hf] H4]. split; (split; [|auto]); eapply logged_inv; [done|]. eapply logged_set; eauto.
  - apply spec_ret. intros f x [[[Hl Hr] Hf] H4]. split; [split; [by eapply logged_inv|done]|split; [done|split; [done|]]].
    destruct Hl as [(_ & _ & -> & _) _]. rewrite Hb. by intros [].
Qed.
End Acquire.

Section Release.
Context (root id : string) (x0 : gmap string bool) (f0 : gmap string string) (x1 : gmap string bool).
Context (Hid : is_lease root (lease_path root id)).
Abbreviation lease := (lease_path root id).
Abbreviation b_path := (baseline_path root).

(** The states before and after a release. *)
Definition others : Prop := ∃ q, is_lease root q ∧ is_Some (f0 !! q) ∧ q ≠ lease.
Definition released : view := fun f x =>
  (f0 !! lease = None → f = f0 ∧ x = x1) ∧ (is_Some (f0 !! lease) → others → f = delete lease f0 ∧ x = x1) ∧
  (is_Some (f0 !! lease) → ¬ others → f = delete b_path (delete lease f0) ∧ x = x0).
Abbreviation Before := (fun f x => FwInv root x0 f x ∧ f = f0 ∧ x = x1).
Abbreviation Failed := (fun f x => FwInv root x0 f x ∧ (others → f = f0 ∧ x = x1)).

(** The restored settings. *)
Lemma logged_restored b f x : logged root x0 b f x → x !! IP_FORWARD = Some (b_v4 b) → x !! IPV6_FORWARDING = b_v6 b → x = x0.
Proof.
  intros [(Hk & H4 & H6 & _) _] Hx4 Hx6. apply map_eq. intros k.
  destruct (decide (k = IP_FORWARD)) as [->|]; [congruence|]. destruct (decide (k = IPV6_FORWARDING)) as [->|]; [congruence|auto].
Qed.

Lemma all_dropped : ¬ others → FwInv root x0 (delete b_path (delete lease f0)) x0.
Proof.
  intros Ho. split; [done|]. rewrite lookup_delete_eq. split; [done|]. intros q Hq.
  destruct (decide (q = b_path)) as [->|]; [by rewrite lookup_delete_eq|]. rewrite lookup_delete_ne by done.
  destruct (decide (q = lease)) as [->|]; [by rewrite lookup_delete_eq|]. rewrite lookup_delete_ne by done.
  destruct (f0 !! q) eqn:Hf; [|done]. destruct Ho. exists q. by rewrite Hf.
Qed.

(** The last owner's restore. *)
Lemma spec_restore (Hl0 : is_Some (f0 !! lease)) (Ho : ¬ others) b :
  spec (fun f x => logged root x0 b f x ∧ f = f0)
    (r4 ← attempt (sysctl_set_with (H:=H) IP_FORWARD (b_v4 b));
     r6 ← (match b_v6 b, Some IPV6_FORWARDING with Some on, Some key => attempt (sysctl_set_with key on) | _, _ => mret (Ok tt) end);
     _ ← lift (all [r4; r6]);
     _ ← remove lease;
     remove b_path)
    (fun _ f x => FwInv root x0 f x ∧ released f x) (fun _ => Failed).
Proof.
  assert (lease ≠ b_path) as Hne by (intros He; rewrite He in Hid; by apply baseline_no_lease in Hid).
  assert (∀ f x, logged root x0 b f x → Failed f x) as HF by (intros f x Hl; split; [by eapply logged_inv|done]).
  eapply spec_bind.
  { apply (spec_tried _ _ (fun r f x => (logged root x0 b f x ∧ f = f0) ∧ (err_of r = None → x !! IP_FORWARD = Some (b_v4 b)))).
    apply spec_sysctl_set; [|done|].
    - intros f x [Hl Hf]. rewrite lookup_insert_eq. split; [split; [apply logged_set; auto|done]|done].
    - intros e f x [Hl Hf]. split; (split; [split; [|done]|done]); [done|]. apply logged_set; auto. }
  intros r4. eapply spec_bind.
  { instantiate (1 := fun (r6 : res ApplyError unit) f x => (logged root x0 b f x ∧ f = f0) ∧ (err_of r4 = None → x !! IP_FORWARD = Some (b_v4 b)) ∧
      (err_of r6 = None → x !! IPV6_FORWARDING = b_v6 b)). destruct (b_v6 b) as [o|] eqn:Hb.
    - apply spec_tried. assert (is_Some (b_v6 b)) by (by rewrite Hb). apply spec_sysctl_set.
      + intros f x [[Hl Hf] H4]. split; [split; [apply logged_set; auto|done]|]. by rewrite lookup_insert_eq, lookup_insert_ne.
      + intros f x [[[(_ & _ & _ & Hs & _) _] _] _] Hx _. rewrite Hx in Hs. destruct Hs as [_ Hs]. by destruct Hs.
      + intros e f x [[Hl Hf] H4]. split; (split; [split; [|done]|split; [|done]]); try done; [apply logged_set; auto|]. by rewrite lookup_insert_ne.
    - apply spec_ret. intros f x [[Hl Hf] H4]. split; [done|]. split; [done|]. intros _.
      destruct Hl as [(_ & _ & _ & Hs & _) _]. rewrite Hb in *. destruct (x !! IPV6_FORWARDING); [|done]. destruct Hs as [Hs _]. by destruct Hs. }
  intros r6. eapply spec_bind.
  { apply (spec_lift _ _ (fun _ f x => logged root x0 b f x ∧ f = f0 ∧ x = x0)).
    - unfold all. by destruct (dedup _).
    - intros [] f x Ha [[Hl Hf] [H4 H6]]. apply all_ok in Ha. decompose_Forall_hyps. split; [done|]. split; [done|]. eapply logged_restored; eauto.
    - intros e f x _ [[Hl _] _]. by apply HF. }
  intros u1. eapply spec_bind.
  { apply (spec_remove _ _ (fun _ f x => logged root x0 b f x ∧ f = delete lease f0 ∧ x = x0)).
    - intros f x (Hl & -> & Hx). split; [by apply logged_drop|done].
    - intros e f x (Hl & _). by apply HF. }
  intros u2. apply spec_remove.
  - intros f x (Hl & -> & Hx). rewrite Hx. split; [by apply all_dropped|]. split_and!; [|done|done]. intros Hn. rewrite Hn in Hl0. by destruct Hl0.
  - intros e f x (Hl & _). by apply HF.
Qed.

Lemma spec_release :
  spec Before (release_with (H:=H) root id IP_FORWARD (Some IPV6_FORWARDING)) (fun _ f x => FwInv root x0 f x ∧ released f x) (fun _ => Failed).
Proof.
  unfold release_with. eapply spec_bind.
  { apply (spec_leases _ root (fun l f x => Before f x ∧ ∀ q, q ∈ l ↔ is_Some (f0 !! q) ∧ is_lease root q)); [|naive_solver].
    intros l f x Hl (Hi & -> & ->). split; [by split|done]. }
  intros l. apply (spec_pure _ (∀ q, q ∈ l ↔ is_Some (f0 !! q) ∧ is_lease root q)); [by intros f x []|]. intros Hl.
  case_bool_decide as Hin; cbn [negb].
  2: { apply spec_ret. intros f x [(Hi & -> & ->) _]. split; [done|]. assert (f0 !! lease = None) as Hn.
       { destruct (f0 !! lease) eqn:Hf; [|done]. destruct Hin. apply Hl. by rewrite Hf. }
       unfold released. rewrite Hn. split; [done|]. by split; intros []. }
  apply Hl in Hin as [Hf0 _]. destruct (existsb _ l) eqn:He.
  - assert others as Ho.
    { apply existsb_exists in He as (q & Hq & Hne). apply list_elem_of_In, Hl in Hq as [Hq Hql]. exists q. split; [done|]. split; [done|].
      apply negb_true_iff, bool_decide_eq_false in Hne. done. }
    apply spec_remove; [|naive_solver]. intros f x [(Hi & -> & ->) _]. split.
    2: { split_and!; [|done|done]. intros Hn. rewrite Hn in Hf0. by destruct Hf0. }
    assert (lease ≠ b_path) as Hne by (intros Hb; rewrite Hb in Hid; by apply baseline_no_lease in Hid).
    destruct Hi as [Hk Hm]. split; [done|]. rewrite lookup_delete_ne by done. destruct (f0 !! b_path); [done|].
    destruct Hm as [-> Hm]. split; [done|]. intros q Hq. apply lookup_delete_None. right. auto.
  - assert (¬ others) as Ho.
    { intros (q & Hq & Hf & Hne). apply not_true_iff_false in He. apply He, existsb_exists. exists q.
      split; [apply list_elem_of_In, Hl; auto|]. by apply negb_true_iff, bool_decide_eq_false. }
    eapply spec_bind.
    { apply (spec_baseline _ root (fun o f x => match o with Some b => logged root x0 b f x ∧ f = f0 | None => Failed f x end)); [naive_solver| |naive_solver].
      intros d b f x [(Hi & -> & ->) _] Hd Hb. split; [by eapply logged_found|done]. }
    intros [b|]; [|by apply spec_err]. apply spec_restore; done.
Qed.
End Release.

(** ** Sequences of operations *)

Definition valid_id (id : string) : Prop := plain_name id ∧ id ≠ EmptyString.
Definition op_id (o : op) : string := match o with Acquire id | Release id => id end.

Section Steps.
Context (root : string) (x0 : gmap string bool).
Abbreviation inv h := (FwInv root x0 (files h) (kernel h)).

Lemma acquire_step id R h r h' : valid_id id → stable R → inv h → R (files h) (kernel h) → step root (Acquire id) h = (r, h') →
  inv h' ∧ R (files h') (kernel h') ∧ (r = Ok tt → is_Some (files h' !! lease_path root id) ∧ forwarding_on x0 (kernel h')).
Proof.
  intros [Hp Hn] HR Hi Hr Hs. pose proof (spec_acquire root id x0 R HR (lease_is_lease root id Hp Hn) h r h' (conj Hi Hr) Hs) as Ha.
  destruct r as [u|e|]; [|by destruct Ha|done]. destruct Ha as [[? ?] ?]. done.
Qed.

Lemma release_step id h r h' : valid_id id → inv h → step root (Release id) h = (r, h') →
  inv h' ∧ (r = Ok tt → released root id x0 (files h) (kernel h) (files h') (kernel h')) ∧
  (r = Ok tt ∨ (others root id (files h) → files h' = files h ∧ kernel h' = kernel h)).
Proof.
  intros [Hp Hn] Hi Hs. pose proof (spec_release root id x0 (files h) (kernel h) (lease_is_lease root id Hp Hn) h r h' (conj Hi (conj eq_refl eq_refl)) Hs) as Ha.
  destruct r as [[]|e|]; [| |done]; destruct Ha; split; [done| |done|]; split; auto. done.
Qed.

Lemma steps_inv ops h : Forall (fun o => valid_id (op_id o)) ops → inv h → inv (steps root ops h).
Proof.
  revert h. induction ops as [|o ops IH]; intros h Hv Hi; [done|]. decompose_Forall_hyps. apply IH; [done|].
  destruct (step root o h) as [r h'] eqn:Hs. destruct o as [id|id].
  - by eapply (acquire_step id (fun _ _ => True)).
  - by eapply release_step.
Qed.

(** A lease that is not released keeps forwarding on. *)
Lemma steps_held id ops h : valid_id id → Forall (fun o => valid_id (op_id o)) ops → Release id ∉ ops → inv h →
  is_Some (files h !! lease_path root id) ∧ forwarding_on x0 (kernel h) →
  is_Some (files (steps root ops h) !! lease_path root id) ∧ forwarding_on x0 (kernel (steps root ops h)).
Proof.
  intros Hid. revert h. induction ops as [|o ops IH]; intros h Hv Hn Hi Hh; [done|]. decompose_Forall_hyps. apply not_elem_of_cons in Hn as [Hne Hn].
  change (steps root (o :: ops) h) with (steps root ops (step root o h).2). destruct (step root o h) as [r h'] eqn:Hs. cbn [snd]. destruct o as [j|j].
  - destruct (acquire_step j (fun f x => is_Some (f !! lease_path root id) ∧ forwarding_on x0 x) h r h') as (Hi' & Hh' & _); try done; [|by apply IH].
    split.
    + intros f x p c [Hf Hx]. split; [|done]. destruct (decide (p = lease_path root id)) as [->|]; [by rewrite lookup_insert_eq|by rewrite lookup_insert_ne].
    + intros f x key [Hf [H4 H6]] [->| ->]; (split; [done|]); unfold forwarding_on; (split; [|intros Hx6; specialize (H6 Hx6)]);
        rewrite ?lookup_insert_eq; try done; by rewrite lookup_insert_ne.
  - assert (lease_path root j ≠ lease_path root id) as Hj by (intros He%lease_path_inj; congruence).
    assert (others root j (files h)) as Ho by (destruct Hid; exists (lease_path root id); split; [by apply lease_is_lease|naive_solver]).
    destruct (release_step j h r h') as (Hi' & Hr & Hf); try done. apply IH; try done.
    destruct Hf as [->|Hf]; [|by destruct (Hf Ho) as [-> ->]]. destruct (Hr eq_refl) as (HN & HS & _).
    destruct (files h !! lease_path root j) eqn:Hl; [destruct HS as [-> ->]|destruct HN as [-> ->]]; try done. by rewrite lookup_delete_ne.
Qed.
End Steps.

(** C37.  Leases on packet forwarding.  Nodes of a host acquire and release leases in any
    order, any command, write or read failing at any point, even after it took effect.  (1)
    While no settings are recorded the kernel is as it was found.  (2) A node whose acquire
    succeeded keeps its lease file and finds forwarding on (IPv6 where the host has it),
    whatever the others do and however it fails, until it releases.  (3) A release that
    succeeds removes the lease, and the last one restores every setting found before the
    first lease and drops the record. *)
Theorem forwarding_leases root ops (h : H) :
  (∀ q, is_lease root q → files h !! q = None) → files h !! baseline_path root = None → Forall (fun o => valid_id (op_id o)) ops →
  let h1 := steps root ops h in
  (files h1 !! baseline_path root = None → kernel h1 = kernel h) ∧
  (∀ id h2 ops', valid_id id → step root (Acquire id) h1 = (Ok tt, h2) → Forall (fun o => valid_id (op_id o)) ops' → Release id ∉ ops' →
     let h3 := steps root ops' h2 in is_Some (files h3 !! lease_path root id) ∧ forwarding_on (kernel h) (kernel h3)) ∧
  (∀ id h2, valid_id id → step root (Release id) h1 = (Ok tt, h2) →
     files h2 !! lease_path root id = None ∧
     (is_Some (files h1 !! lease_path root id) → (∀ q, is_lease root q → files h2 !! q = None) →
      kernel h2 = kernel h ∧ files h2 !! baseline_path root = None)).
Proof.
  intros Hl Hb Hv. assert (FwInv root (kernel h) (files h) (kernel h)) as Hi by (split; [done|by rewrite Hb]).
  apply (steps_inv root (kernel h) ops) in Hi; [|done]. set (h1 := steps root ops h) in *. intros h1'; subst h1'. split; [|split].
  - intros Hn. destruct Hi as [_ Hm]. rewrite Hn in Hm. apply Hm.
  - intros id h2 ops' Hid Hs Hv' Hn. destruct (acquire_step root (kernel h) id (fun _ _ => True) h1 (Ok tt) h2 Hid) as (Hi2 & _ & Hok); try done.
    apply steps_held; auto.
  - intros id h2 Hid Hs. destruct (release_step root (kernel h) id h1 (Ok tt) h2 Hid) as (Hi2 & Hr & _); try done. destruct (Hr eq_refl) as (HN & HO & HL).
    destruct (files h1 !! lease_path root id) as [c|] eqn:Hf; [|by destruct HN as [-> _]].
    split; [|intros _ Hq; assert (¬ others root id (files h1)) as Ho].
    + destruct (files h2 !! lease_path root id) eqn:Hf2; [exfalso|done]. assert (¬ others root id (files h1)) as Ho.
      { intros Ho. destruct HO as [He _]; [done..|]. by rewrite He, lookup_delete_eq in Hf2. }
      destruct HL as [He _]; [done..|]. rewrite He, lookup_delete_ne, lookup_delete_eq in Hf2; [done|].
      intros Hp. destruct Hid. by apply (baseline_no_lease root); rewrite Hp; apply lease_is_lease.
    + intros Ho. destruct HO as [He _]; [done..|]. destruct Ho as (q & Hql & Hqf & Hne). specialize (Hq q Hql). rewrite He, lookup_delete_ne in Hq by done.
      rewrite Hq in Hqf. by destruct Hqf.
    + destruct HL as [-> ->]; [done..|]. by rewrite lookup_delete_eq.
Qed.
End Lemmas.

(** ** A host with these settings *)

Definition no_setting (c : list string) : ApplyError := mkApplyError c (Some 255) "No such file or directory" Other.
Definition flag_text (b : bool) : string := if b then "1" else "0".

(** The setting and value of an assignment. *)
Definition assignment (s : string) : option (string * bool) :=
  match rev (chars s) with
  | v :: eq :: key => Some (text (rev key), Ascii.eqb v "1")
  | _ => None
  end.

#[export] Instance sysctl_commands : Commands (gmap string bool) := fun c _ x =>
  match c with
  | [_; flag; arg] =>
      if bool_decide (flag = "-n"%string) then match x !! arg with Some b => (inl (flag_text b ++ String newline "")%string, x) | None => (inr (no_setting c), x) end
      else match assignment arg with
           | Some (key, on) => match x !! key with Some _ => (inl arg, <[key := on]> x) | None => (inr (no_setting c), x) end
           | None => (inr (no_setting c), x)
           end
  | _ => (inr (no_setting c), x)
  end.

Lemma assignment_set key (on : bool) : assignment (key ++ "=" ++ (if on then "1" else "0"))%string = Some (key, on).
Proof.
  unfold assignment. rewrite !chars_append, !rev_app_distr. destruct on; cbn; rewrite rev_involutive; unfold text; by rewrite string_of_list_ascii_of_string.
Qed.

#[export] Instance sysctl_sim_laws : SysctlLaws (sim (gmap string bool)).
Proof.
  split; intros; cbn in *; unfold sim_exec, command_on, sysctl_commands, set_command in *; rewrite ?bool_decide_eq_true_2, ?assignment_set in * by done;
    repeat case_match; simplify_eq/=; eauto.
  all: try (eexists; split; [done|]; by destruct b).
  all: done.
Qed.

(** The text of a record. *)
#[export] Instance baseline_serde : Serde Baseline := {|
  to_text b := (flag_text (b_v4 b) ++ match b_v6 b with Some v => flag_text v | None => "" end)%string;
  of_text s := match chars s with
               | [a] => Some (mkBaseline (Ascii.eqb a "1") None)
               | [a; b] => Some (mkBaseline (Ascii.eqb a "1") (Some (Ascii.eqb b "1")))
               | _ => None
               end
|}.
#[export] Instance baseline_serde_laws : SerdeLaws Baseline.
Proof. by intros [[] [[]|]]. Qed.

Definition demo_sysctl : gmap string bool := {[ IP_FORWARD := false; IPV6_FORWARDING := true; "net.ipv4.tcp_ecn"%string := true ]}.
Definition demo_host (plan : list fault) : sim (gmap string bool) := mkSim {[ "/run/fw/lock"%string := ""%string ]} demo_sysctl plan.

Definition demo_ops : list op := [Acquire "a"; Acquire "b"; Release "a"; Release "b"]%string.
Definition demo_end : res ApplyError unit * sim (gmap string bool) :=
  Eval vm_compute in step "/run/fw" (Release "b") (steps "/run/fw" demo_ops (demo_host (replicate 19 Works ++ [FailsAfter]))).

Lemma forwarding_leases_witness :
  let h1 := steps "/run/fw" demo_ops (demo_host (replicate 19 Works ++ [FailsAfter])) in
  is_Some (files h1 !! "/run/fw/b.lease"%string) ∧ step "/run/fw" (Release "b") h1 = (Ok tt, demo_end.2) ∧ kernel demo_end.2 = demo_sysctl.
Proof.
  intros h1. assert (step "/run/fw" (Release "b") h1 = (Ok tt, demo_end.2)) as Hs by (vm_compute; reflexivity).
  assert (is_Some (files h1 !! lease_path "/run/fw" "b")) as Hf by (vm_compute; eauto).
  split; [done|]. split; [done|].
  assert (∀ q, is_lease "/run/fw" q → ({[ "/run/fw/lock"%string := ""%string ]} : gmap string string) !! q = None) as Hl.
  { intros q [_ He]. apply lookup_singleton_ne. intros <-. vm_compute in He. done. }
  destruct (forwarding_leases "/run/fw" demo_ops (demo_host (replicate 19 Works ++ [FailsAfter]))) as (_ & _ & Hr).
  - exact Hl.
  - vm_compute. reflexivity.
  - repeat constructor; done.
  - destruct (Hr "b"%string demo_end.2) as [_ Hk]; [by repeat constructor|done|].
    destruct Hk as [Hk _]; [done| |done]. intros q Hq. rewrite <-(Hl q Hq). vm_compute. reflexivity.
Defined.
