(* ===== verification/DnsFile.v ===== *)
(** * The resolver of the host (node/src/dns/managed.rs)

    [Managed] sets the DNS servers of an interface, through [resolvectl] or, where that is
    not available, by writing the resolver file.  Several nodes share the file: a journal in
    a state directory, taken under a lock, holds the content found first, the owners in the
    order in which they applied, and the last two contents written.  Files and commands are
    those of [HostRun]; links, locks and the clock of the wait are parameters here. *)

From Stdlib Require Import Strings.Ascii Strings.String.
From S2P Require Import Prelude.
From S2P Require Import Words.
From S2P Require Import NetText.
From S2P Require Import Prefix.
From S2P Require Import Apply.
From S2P Require Import HostRun.
From S2P Require Import Bypass.
From S2P Require Import HostEffects.

(** ** Paths

    A [Path] is compared by its components: separators do not repeat, and [.] counts only
    as the first one. *)

Record Path := mkPath { rooted : bool; comps : list string }.
#[export] Instance Path_eq_dec : EqDecision Path.
Proof. solve_decision. Defined.

Definition path_of (s : string) : Path :=
  let rooted := str_starts_with s "/" in
  let parts := List.filter (fun c => negb (bool_decide (c = ""%string))) (text <$> split "/" (chars s)) in
  let plain := List.filter (fun c => negb (bool_decide (c = "."%string))) in
  mkPath rooted match parts with c :: l => if rooted then plain parts else c :: plain l | [] => [] end.
Definition path_text (p : Path) : string := ((if rooted p then "/" else "") ++ String.concat "/" (comps p))%string.

Definition join_path (p q : Path) : Path :=
  if rooted q then q
  else mkPath (rooted p) (comps p ++ match comps q with
                                     | c :: l => if bool_decide (c = "."%string) && (rooted p || bool_decide (comps p ≠ [])) then l else c :: l
                                     | [] => []
                                     end).
Definition parent (p : Path) : option Path :=
  match comps p with [] => None | _ => Some (mkPath (rooted p) (removelast (comps p))) end.
Definition file_name (p : Path) : option string :=
  c ← list.last (comps p); if bool_decide (c = ".."%string) || bool_decide (c = "."%string) then None else Some c.
Fixpoint components_start (p l : list string) : bool :=
  match p, l with
  | [], _ => true
  | x :: p, y :: l => bool_decide (x = y) && components_start p l
  | _, [] => false
  end.
Definition path_starts_with (p base : Path) : bool := Bool.eqb (rooted p) (rooted base) && components_start (comps base) (comps p).

(** ** The journal *)

Record Process := mkProcess { pid : Z; start_time : string; boot_id : string }.
Record Resolved := mkResolved { r_dns : list string; r_domains : list string; r_process : Process }.
Record OriginalFile := mkOriginal {
  o_target : Path; o_bytes : option string; o_link : option Path; o_boot : string;
  last_written : option string; previous_written : option string; drift_delay : Z; drift_after_ms : Z
}.
Record Owner := mkOwner { ow_iface : string; ow_dns : list string; ow_process : Process }.
Record Journal := mkJournal {
  resolved : gmap string Resolved; file : option OriginalFile; owners : list Owner; restore_pending : bool
}.
Definition default_journal : Journal := mkJournal ∅ None [] false.

Definition with_resolved (r : gmap string Resolved) (j : Journal) : Journal := mkJournal r (file j) (owners j) (restore_pending j).
Definition with_file (f : option OriginalFile) (j : Journal) : Journal := mkJournal (resolved j) f (owners j) (restore_pending j).
Definition with_owners (l : list Owner) (j : Journal) : Journal := mkJournal (resolved j) (file j) l (restore_pending j).
Definition with_pending (b : bool) (j : Journal) : Journal := mkJournal (resolved j) (file j) (owners j) b.
Definition with_written (w : option string) (o : OriginalFile) : OriginalFile :=
  mkOriginal (o_target o) (o_bytes o) (o_link o) (o_boot o) w (previous_written o) (drift_delay o) (drift_after_ms o).
Definition with_drift (delay after : Z) (o : OriginalFile) : OriginalFile :=
  mkOriginal (o_target o) (o_bytes o) (o_link o) (o_boot o) (last_written o) (previous_written o) delay after.

(** [stage_write]: what is about to be written is on record first. *)
Definition stage_write (bytes : string) (o : OriginalFile) : OriginalFile :=
  if bool_decide (last_written o = Some bytes) then o
  else mkOriginal (o_target o) (o_bytes o) (o_link o) (o_boot o) (Some bytes)
         (match last_written o with Some w => Some w | None => o_bytes o end) (drift_delay o) (drift_after_ms o).

Definition nm_generated (bytes : option string) : bool :=
  match bytes with Some b => str_starts_with b "# Generated by NetworkManager" | None => false end.

Definition managed_dirs : list string :=
  ["/run/NetworkManager"; "/run/resolvconf"; "/run/netconfig"; "/run/connman"; "/run/dhcpcd"; "/var/lib/NetworkManager";
   "/var/run/NetworkManager"; "/var/run/resolvconf"; "/var/run/netconfig"]%string.
Definition managed_target (p : Path) : bool := existsb (fun dir => path_starts_with p (path_of dir)) managed_dirs.

Definition eol : string := String newline "".
Definition file_body (dns : list string) : string :=
  ("# fluxpeer exit-node" ++ eol ++ String.concat "" (map (fun s => "nameserver " ++ s ++ eol) dns))%string.

(** [resolved_unavailable] (dns.rs). *)
Definition resolved_unavailable (e : ApplyError) : bool :=
  bool_decide (kind e = NotFound)
  || any_text (to_ascii_lowercase (stderr e))
       ["failed to connect to bus"; "failed to connect to system bus"; "connection refused"; "serviceunknown";
        "not provided by any .service"; "resolve1.service not found"; "systemd-resolved is not running"; "dbus is not running"]%string.

(** ** Links, the lock and the wait for it *)

Inductive FileType := Symlink | NoLink.
#[export] Instance FileType_eq_dec : EqDecision FileType.
Proof. solve_decision. Defined.
Inductive TryLock := Locked | WouldBlock | LockError (e : ApplyError).

(** [symlink_metadata] gives [None] for what is not there. *)
Class LinkOs (H : Type) := {
  symlink_metadata : string → H → (option FileType + ApplyError) * H;
  read_link : string → H → (string + ApplyError) * H;
  canonicalize : string → H → (string + ApplyError) * H;
  create_dir_all : string → H → option ApplyError * H;
  open_lock : string → H → option ApplyError * H;
  try_lock : H → TryLock * H;
  instant_now : H → Z * H;
  sleep : Z → H → H
}.

Definition not_found (command : list string) : ApplyError := mkApplyError command None "No such file or directory (os error 2)" NotFound.

Section Managed.
Context {H : Type} `{!HostOs H} `{!LinkOs H} `{!Serde Journal}.
Abbreviation host A := (st H ApplyError A).
Abbreviation locked A := (st (Journal * H) ApplyError A).

(** ** Processes *)

(** Field 22 of the line follows the last parenthesis. *)
Definition stat_start (stat : string) : option string :=
  '(fields, _) ← split_once ")" (rev (chars stat)); split_whitespace (text (rev fields)) !! 19%nat.
Definition proc_stat (pid : Z) : string := ("/proc/" ++ text (fmt_dec pid) ++ "/stat")%string.

(** [fs::read_to_string]. *)
Definition read_to_string (path : string) : host string :=
  o ← read path; lift (ok_or o (not_found ["read"%string; path])).

Definition process_start (pid : Z) : host string :=
  stat ← read_to_string (proc_stat pid);
  lift (ok_or (stat_start stat) (error_new ["read process start"; "/proc"]%string "invalid process stat")).

Definition boot_path : string := "/proc/sys/kernel/random/boot_id".

(** [Process::current] of the process [id]. *)
Definition current_process (id : Z) : host Process :=
  boot ← read_to_string boot_path;
  start ← process_start id;
  mret (mkProcess id start (str_trim boot)).

Definition alive (p current : Process) : host bool :=
  if negb (bool_decide (boot_id p = boot_id current)) || (pid p =? 0) then mret false
  else
    r ← attempt (process_start (pid p));
    mret (match r with Ok start => bool_decide (start = start_time p) | _ => false end).

(** Each entry with whether its process lives. *)
Fixpoint check_alive {A} (process : A → Process) (current : Process) (l : list A) : host (list (A * bool)) :=
  match l with
  | [] => mret []
  | x :: l => b ← alive (process x) current; r ← check_alive process current l; mret ((x, b) :: r)
  end.
Definition keep {A} (want : bool) (l : list (A * bool)) : list A := fst <$> List.filter (fun x => Bool.eqb (snd x) want) l.

(** ** The journal under its lock *)

Definition state_path (root : Path) : string := path_text (join_path root (path_of "state.json")).
Definition lock_path (root : Path) : string := path_text (join_path root (path_of "lock")).

(** Ten seconds in steps of ten milliseconds. *)
Fixpoint lock_loop (fuel : nat) (path : string) (deadline : Z) : host unit := fun h =>
  match fuel with
  | O => (Panic, h)
  | S fuel =>
      let '(r, h) := try_lock h in
      match r with
      | Locked => (Ok tt, h)
      | WouldBlock =>
          let '(now, h) := instant_now h in
          if now <? deadline then lock_loop fuel path deadline (sleep 10 h)
          else (Err (mkApplyError ["lock"%string; path] None "DNS state lock timeout" TimedOut), h)
      | LockError e => (Err e, h)
      end
  end.
Definition wait_lock (path : string) : host unit := fun h => let '(now, h) := instant_now h in lock_loop 1001 path (now + 10000) h.

(** [serde_json::from_slice] of the state. *)
Definition parse_journal (path : string) (o : option string) : res ApplyError Journal :=
  match o with
  | None => Ok default_journal
  | Some data => ok_or (of_text data) (error_new ["parse"%string; path] "invalid journal")
  end.

(** [Locked::open]. *)
Definition open_journal (root : Path) : host Journal :=
  _ ← of_option (create_dir_all (path_text root));
  _ ← of_option (open_lock (lock_path root));
  _ ← wait_lock (lock_path root);
  o ← read (state_path root);
  lift (parse_journal (state_path root) o).

(** [Locked::save]. *)
Definition save_journal (root : Path) : locked unit := j ← get_state; save (state_path root) (to_text j).

(** The rest of a method holds the lock; what it changed in memory ends with it. *)
Definition with_lock {A} (root : Path) (m : locked A) : host A :=
  j ← open_journal root; ((fun h => let '(r, (_, h)) := m (j, h) in (r, h)) : host A).

(** ** The resolver file *)

Fixpoint resolve (fuel : nat) (path : Path) : host Path :=
  match fuel with
  | O => lift (Err (error_new ["resolve"; "resolver file"]%string "too many symbolic links"))
  | S fuel =>
      o ← of_sum (symlink_metadata (path_text path));
      match o with
      | Some Symlink =>
          l ← of_sum (read_link (path_text path));
          resolve fuel (join_path (default (path_of "/") (parent path)) (path_of l))
      | Some NoLink => t ← of_sum (canonicalize (path_text path)); mret (path_of t)
      | None =>
          up ← lift (ok_or (parent path) (error_new ["resolve"; "resolver file"]%string "missing parent directory"));
          name ← lift (ok_or (file_name path) (error_new ["resolve"; "resolver file"]%string "missing file name"));
          dir ← resolve fuel up;
          mret (join_path dir (mkPath false [name]))
      end
  end.
Definition target (path : Path) : host Path := resolve 41 path.

Definition link (path : Path) : host (option Path) :=
  o ← of_sum (symlink_metadata (path_text path));
  match o with Some Symlink => l ← of_sum (read_link (path_text path)); mret (Some (path_of l)) | _ => mret None end.

Definition read_bytes (path : Path) : host (option string) := read (path_text path).

Definition fallback_error (message : string) : ApplyError := error_new ["DNS"; "file fallback"]%string message.

Definition read_original (path : Path) (process : Process) : host OriginalFile :=
  t ← target path;
  if managed_target t then
    lift (Err (fallback_error "resolver target is managed externally; enable systemd-resolved or configure DNS manually"))
  else
    bytes ← read_bytes t;
    if nm_generated bytes then
      lift (Err (fallback_error "NetworkManager-generated resolver file; enable systemd-resolved or configure DNS manually"))
    else l ← link path; mret (mkOriginal t bytes l (boot_id process) None None 0 0).

Definition same_target (path : Path) (o : OriginalFile) : host bool :=
  l ← link path;
  if negb (bool_decide (l = o_link o)) then mret false
  else t ← target path; mret (bool_decide (t = o_target o)).

Definition replace_file (o : OriginalFile) (bytes : option string) : host unit :=
  match bytes with
  | Some b => save (path_text (o_target o)) b
  | None => HostRun.remove (path_text (o_target o))
  end.

(** ** The settings of a link *)

Definition resolved_values (output : string) : res ApplyError (list string) :=
  match split_once ":" (chars output) with
  | Some (_, values) => Ok (split_whitespace (text values))
  | None => Err (error_new ["parse"; "resolvectl"]%string "missing link settings header")
  end.
Definition resolved_set (command iface : string) (values : list string) : host unit :=
  _ ← run (["resolvectl"%string; command; iface] ++ match values with [] => [""%string] | _ => values end) None; mret tt.

(** [gone]: an expired owner's link may be gone, with its settings. *)
Definition gone (r : ApplyResult) : ApplyResult :=
  match r with
  | Err e => if resolved_unavailable e || bool_decide (is_Some (exit_code e)) && str_contains (stderr e) "No such device" then Ok tt else r
  | _ => r
  end.

(** ** Methods of [Managed] *)

Record Managed := mkManaged { iface : string; root : Path; resolv : Path; prefer_resolved : bool }.
Definition managed_new (iface : option string) (prefer_resolved : bool) : Managed :=
  mkManaged (default "fluxpeer"%string iface) (path_of "/var/lib/fluxpeer/dns") (path_of "/etc/resolv.conf") prefer_resolved.

Context (self : Managed).

Definition release_file : locked unit :=
  _ ← modify_state (fun j => with_pending false (with_file None (with_owners [] j))); save_journal (root self).

Definition top_body (j : Journal) : option string := (fun o => file_body (ow_dns o)) <$> list.last (owners j).

Definition restore_file : locked unit :=
  j ← get_state;
  match file j with
  | None => mret tt
  | Some original =>
      actual ← on_host (read_bytes (o_target original));
      same ← on_host (same_target (resolv self) original);
      if negb same || negb (bool_decide (actual = last_written original)) && negb (bool_decide (actual = previous_written original))
      then release_file
      else
        let body := top_body j in
        _ ← on_host (replace_file original (match body with Some b => Some b | None => o_bytes original end));
        _ ← modify_state (fun j => with_file (with_written body <$> file j) j);
        _ ← modify_state (fun j => match owners j with [] => with_file None j | _ => j end);
        _ ← modify_state (with_pending false);
        save_journal (root self)
  end.

Definition under_run (p : Path) : bool := path_starts_with p (path_of "/run") || path_starts_with p (path_of "/var/run").
Definition top_iface (j : Journal) : option string := ow_iface <$> list.last (owners j).

(** A stale entry of the journal's [resolved]. *)
Definition discard (current : Process) (name : string) : locked unit :=
  j ← get_state;
  _ ← (match resolved j !! name with
       | Some saved =>
           if bool_decide (boot_id (r_process saved) = boot_id current) then
             r1 ← attempt (on_host (resolved_set "dns" name (r_dns saved)));
             r2 ← attempt (on_host (resolved_set "domain" name (r_domains saved)));
             lift (all [gone r1; gone r2])
           else mret tt
       | None => mret tt
       end);
  _ ← modify_state (fun j => with_resolved (delete name (resolved j)) j);
  save_journal (root self).

(** The owners of the file whose process is gone leave; another top is to be restored. *)
Definition expire (current : Process) : locked unit :=
  j ← get_state;
  checked ← on_host (check_alive ow_process current (owners j));
  let kept := keep true checked in
  _ ← put_state (with_owners kept j);
  if negb (length kept =? length (owners j))%nat then
    _ ← modify_state (fun k => with_pending (restore_pending k || negb (bool_decide (top_iface j = top_iface k))) k);
    save_journal (root self)
  else mret tt.

Definition prune (current : Process) : locked unit :=
  j ← get_state;
  _ ← (if match file j with Some o => negb (bool_decide (o_boot o = boot_id current)) && under_run (o_target o) | None => false end
       then release_file else mret tt);
  _ ← expire current;
  j ← get_state;
  _ ← (if restore_pending j || bool_decide (owners j = []) && bool_decide (is_Some (file j)) then restore_file else mret tt);
  j ← get_state;
  stale ← on_host (check_alive (fun '(_, saved) => r_process saved) current
                     (omap (fun name => pair name <$> resolved j !! name) (sorted_keys (resolved j))));
  for_each (fst <$> keep false stale) (discard current).

(** [Managed::owned]. *)
Definition owned : host bool :=
  o ← read (state_path (root self));
  match o with
  | None => mret false
  | Some data =>
      j ← lift (ok_or (of_text data) (error_new ["parse"; "DNS journal"]%string "invalid journal"));
      mret (bool_decide (is_Some (resolved j !! iface self)) || existsb (fun o => bool_decide (ow_iface o = iface self)) (owners j))
  end.

(** The repair of a file that something else has changed, after a wait that doubles. *)
Definition next_drift (now : Z) (active : string) (o : OriginalFile) : OriginalFile :=
  let delay := if drift_delay o =? 0 then 2 else Z.min (Z.min (drift_delay o * 2) (2 ^ 64 - 1)) 60 in
  stage_write active (with_drift delay (Z.min (now + delay * 1000) (2 ^ 64 - 1)) o).

Definition repair_file (now : Z) (top : Owner) (original : OriginalFile) (actual : option string) : locked unit :=
  let active := file_body (ow_dns top) in
  if bool_decide (actual = Some active) then mret tt
  else if now <? drift_after_ms original then lift (Err (error_new ["DNS"; "verify file"]%string "DNS drift repair is in backoff"))
  else
    _ ← modify_state (fun j => with_file (next_drift now active <$> file j) j);
    _ ← save_journal (root self);
    j ← get_state;
    match file j with Some saved => on_host (replace_file saved (Some active)) | None => mret tt end.

Definition take_file (dns : list string) (process : Process) : locked unit :=
  let body := file_body dns in
  _ ← modify_state (fun j => with_owners (List.filter (fun o => negb (bool_decide (ow_iface o = iface self))) (owners j) ++ [mkOwner (iface self) dns process]) j);
  _ ← modify_state (fun j => with_file ((fun o => with_drift 0 0 (stage_write body o)) <$> file j) j);
  _ ← save_journal (root self);
  j ← get_state;
  match file j with Some original => on_host (replace_file original (Some body)) | None => mret tt end.

(** [set_file_at]. *)
Definition set_file (dns : list string) (process : Process) (now : Z) : locked unit :=
  j ← get_state;
  _ ← (match file j with
       | Some saved => same ← on_host (same_target (resolv self) saved); if same : bool then mret tt else release_file
       | None => mret tt
       end);
  j ← get_state;
  _ ← (match file j with
       | None => o ← on_host (read_original (resolv self) process); put_state (with_file (Some o) j)
       | Some _ => mret tt
       end);
  j ← get_state;
  match file j with
  | Some original =>
      if managed_target (o_target original) then lift (Err (fallback_error "enable systemd-resolved or configure DNS manually"))
      else
        actual ← on_host (read_bytes (o_target original));
        if nm_generated actual then
          lift (Err (fallback_error "NetworkManager-generated resolver file; enable systemd-resolved or configure DNS manually"))
        else if existsb (fun o => bool_decide (ow_iface o = iface self) && bool_decide (ow_dns o = dns)) (owners j) then
          match list.last (owners j) with Some top => repair_file now top original actual | None => take_file dns process end
        else take_file dns process
  | None => take_file dns process
  end.

Definition valid_servers (servers : list string) : bool :=
  match servers with [] => false | _ => forallb (fun s => bool_decide (is_Some (parse_ip (chars s)))) servers end.

Definition query : host (string * string) :=
  dns ← run ["resolvectl"; "dns"; iface self]%string None;
  domains ← run ["resolvectl"; "domain"; iface self]%string None;
  mret (dns, domains).

Definition set_link (servers : list string) (full_tunnel : bool) : locked unit :=
  j ← get_state;
  let domains := if full_tunnel then ["~."%string]
    else match resolved j !! iface self with
         | Some s => List.filter (fun d => negb (bool_decide (d = "~."%string))) (r_domains s)
         | None => []
         end in
  _ ← on_host (resolved_set "dns" (iface self) servers);
  on_host (resolved_set "domain" (iface self) domains).

(** What the link has before its first change, [false] where resolved is not available. *)
Definition save_link (process : Process) : locked bool :=
  j ← get_state;
  match resolved j !! iface self with
  | Some _ => mret true
  | None =>
      queries ← attempt (on_host query);
      match queries with
      | Err e => if resolved_unavailable e then mret false else lift (Err e)
      | Panic => mret false
      | Ok (dns, domains) =>
          dns ← lift (resolved_values dns);
          domains ← lift (resolved_values domains);
          _ ← modify_state (fun j => with_resolved (<[iface self := mkResolved dns domains process]> (resolved j)) j);
          _ ← save_journal (root self);
          mret true
      end
  end.

Definition set_mode_with (id now : Z) (dns : string) (full_tunnel : bool) : host unit :=
  let servers := split_whitespace dns in
  if negb (valid_servers servers) then lift (Err (error_new ["DNS"; "set"]%string "DNS servers must be IP addresses"))
  else
    process ← current_process id;
    with_lock (root self) (
      _ ← prune process;
      j ← get_state;
      if negb (prefer_resolved self) || existsb (fun o => bool_decide (ow_iface o = iface self)) (owners j) then set_file servers process now
      else
        available ← save_link process;
        if negb available then set_file servers process now
        else
          r ← attempt (set_link servers full_tunnel);
          match r with
          | Err e => if resolved_unavailable e then set_file servers process now else lift (Err e)
          | r => lift r
          end).

Definition verify_file_with (id now : Z) : host unit :=
  o ← read (state_path (root self));
  match o with
  | None => mret tt
  | Some data =>
      j ← lift (ok_or (of_text data) (error_new ["parse"; "DNS journal"]%string "invalid journal"));
      if negb (existsb (fun o => bool_decide (ow_iface o = iface self)) (owners j)) then mret tt
      else with_lock (root self) (
        current ← on_host (current_process id);
        _ ← prune current;
        j ← get_state;
        match List.find (fun o => bool_decide (ow_iface o = iface self)) (owners j) with
        | None => mret tt
        | Some owner => set_file (ow_dns owner) current now
        end)
  end.

(** The settings of the interface's own link. *)
Definition clear_link : locked unit :=
  j ← get_state;
  match resolved j !! iface self with
  | None => mret tt
  | Some saved =>
      r1 ← attempt (on_host (resolved_set "dns" (iface self) (r_dns saved)));
      r2 ← attempt (on_host (resolved_set "domain" (iface self) (r_domains saved)));
      _ ← lift (all [r1; r2]);
      _ ← modify_state (fun j => with_resolved (delete (iface self) (resolved j)) j);
      save_journal (root self)
  end.

(** The interface's own entry among the owners of the file. *)
Definition clear_file : locked unit :=
  j ← get_state;
  match list_find (fun o => ow_iface o = iface self) (owners j) with
  | None => mret tt
  | Some (index, removed) =>
      let top := (index + 1 =? length (owners j))%nat in
      _ ← modify_state (fun j => with_owners (delete index (owners j)) j);
      _ ← (if top : bool then
             r ← attempt restore_file;
             match r with
             | Err e => _ ← modify_state (fun j => with_owners (owners j ++ [removed]) j); lift (Err e)
             | _ => mret tt
             end
           else mret tt);
      save_journal (root self)
  end.

Definition clear_with (id : Z) : host unit :=
  o ← read (state_path (root self));
  match o with
  | None => mret tt
  | Some _ =>
      with_lock (root self) (
        current ← on_host (current_process id);
        _ ← prune current;
        r1 ← attempt clear_link;
        r2 ← attempt clear_file;
        lift (all [r1; r2]))
  end.
End Managed.
