(* ===== verification/DnsSpec.v ===== *)
(** * Who owns the resolver file, and what it comes back to

    What the node relies on for links, the lock and the clock; a form of the triples of
    [HostRun] for methods that hold the journal; and the invariant that ties the journal on
    disk to the content of the resolver file. *)

From Stdlib Require Import Strings.Ascii Strings.String.
From S2P Require Import Prelude.
From S2P Require Import Words.
From S2P Require Import NetText.
From S2P Require Import Prefix.
From S2P Require Import Apply.
From S2P Require Import HostRun.
From S2P Require Import Bypass.
From S2P Require Import HostEffects.
From S2P Require Import DnsFile.

(** ** Links *)

Definition plain_path (p : Path) : Prop := Forall (fun c => plain_name c ∧ c ≠ ""%string) (comps p).

(** The text of each symbolic link, and the place a path leads to. *)
Record LinkView := mkLinkView { lv_link : string → option string; lv_real : Path → Path }.

Record Leads (v : LinkView) : Prop := mkLeads {
  real_link p l : lv_link v (path_text p) = Some l → lv_real v p = lv_real v (join_path (default (path_of "/") (parent p)) (path_of l));
  real_name p u n : plain_path p → lv_link v (path_text p) = None → parent p = Some u → file_name p = Some n →
    lv_real v p = join_path (lv_real v u) (mkPath false [n])
}.

(** Links only change by hand; [resolvectl] leaves them alone.  Taking the lock writes at
    most the lock's own file.  The clock does not go back, and a sleep takes its time. *)
Class LinkLaws (H X : Type) `{!HostOs H} `{!HostLaws H X} `{!LinkOs H} := {
  places : X → LinkView;
  clock : H → Z;
  places_lead x : Leads (places x);
  resolvectl_places c i h : places (kernel (exec ("resolvectl"%string :: c) i h).2) = places (kernel h);
  metadata_view p h : files (symlink_metadata p h).2 = files h ∧ kernel (symlink_metadata p h).2 = kernel h;
  metadata_inl p h o : (symlink_metadata p h).1 = inl o → o = Some Symlink ↔ is_Some (lv_link (places (kernel h)) p);
  read_link_view p h : files (read_link p h).2 = files h ∧ kernel (read_link p h).2 = kernel h;
  read_link_inl p h l : (read_link p h).1 = inl l → lv_link (places (kernel h)) p = Some l;
  canonicalize_view p h : files (canonicalize p h).2 = files h ∧ kernel (canonicalize p h).2 = kernel h;
  canonicalize_inl p h t : (canonicalize (path_text p) h).1 = inl t → path_of t = lv_real (places (kernel h)) p;
  create_dir_view p h : files (create_dir_all p h).2 = files h ∧ kernel (create_dir_all p h).2 = kernel h;
  open_lock_kernel p h : kernel (open_lock p h).2 = kernel h;
  open_lock_files p h q : q ≠ p → files (open_lock p h).2 !! q = files h !! q;
  try_lock_view h : files (try_lock h).2 = files h ∧ kernel (try_lock h).2 = kernel h ∧ clock h ≤ clock (try_lock h).2;
  instant_view h : files (instant_now h).2 = files h ∧ kernel (instant_now h).2 = kernel h ∧ clock h ≤ (instant_now h).1 ≤ clock (instant_now h).2;
  sleep_view d h : files (sleep d h) = files h ∧ kernel (sleep d h) = kernel h ∧ clock h + d ≤ clock (sleep d h)
}.

(** ** Plain paths *)

Lemma split_plain c l : Forall (Forall (.≠ c)) (split c l).
Proof.
  induction l as [|x l IH]; cbn; [by repeat constructor|]. destruct (Ascii.eqb x c) eqn:He; [by constructor|].
  apply Ascii.eqb_neq in He. destruct (split c l) as [|w ws]; inversion IH; subst; repeat constructor; done.
Qed.

Lemma Forall_lfilter {A} (P : A → Prop) f (l : list A) : Forall P l → Forall P (List.filter f l).
Proof. induction 1; cbn; [done|]. destruct (f x); [by constructor|done]. Qed.

Lemma path_of_plain s : plain_path (path_of s).
Proof.
  unfold plain_path, path_of. set (parts := List.filter _ _).
  assert (Forall (fun c => plain_name c ∧ c ≠ ""%string) parts) as Hp.
  { apply list.Forall_forall. intros c [Hc Hn]%list_elem_of_In%filter_In. apply negb_true_iff, bool_decide_eq_false in Hn.
    split; [|done]. apply list_elem_of_In, list_elem_of_fmap in Hc as (w & -> & Hw). unfold plain_name, text. rewrite list_ascii_of_string_of_list_ascii.
    pose proof (split_plain "/"%char (chars s)) as Hs. rewrite list.Forall_forall in Hs. by apply Hs. }
  clearbody parts. cbn [comps]. destruct parts as [|c l]; [done|]. destruct (str_starts_with s "/"); [by apply Forall_lfilter|].
  inversion Hp; subst. constructor; [done|]. by apply Forall_lfilter.
Qed.

Lemma parent_plain p u : plain_path p → parent p = Some u → plain_path u.
Proof.
  unfold parent, plain_path. destruct p as [r cs]. cbn. intros Hp. destruct cs as [|c l]; [done|]. intros [= <-]. cbn [comps].
  rewrite (app_removelast_last ""%string) in Hp by done. by apply Forall_app in Hp as [? _].
Qed.

Lemma join_plain p q : plain_path p → plain_path q → plain_path (join_path p q).
Proof.
  unfold join_path, plain_path. destruct p as [rp ps], q as [rq qs]. cbn. intros Hp Hq. destruct rq; [done|]. cbn. apply Forall_app. split; [done|].
  destruct qs as [|c l]; [done|]. inversion Hq; subst. by destruct (_ && _).
Qed.

(** ** Reading the links *)

Section Reads.
Context {H X : Type} `{!HostOs H} `{!HostLaws H X} `{!LinkOs H} `{!LinkLaws H X}.
Abbreviation view := (gmap string string → X → Prop).

Lemma spec_observe {A} (P : view) (op : H → (A + ApplyError) * H) (Q : A → view) (E : ApplyError → view) :
  (∀ h, files (op h).2 = files h ∧ kernel (op h).2 = kernel h) →
  (∀ h a, (op h).1 = inl a → P (files h) (kernel h) → Q a (files h) (kernel h)) → (∀ e f x, P f x → E e f x) → spec P (of_sum op) Q E.
Proof.
  intros Hv HQ HE h r h' Hp. unfold of_sum. specialize (Hv h). specialize (HQ h). destruct (op h) as [[a|e] h1]; intros [= <- <-]; cbn in *;
    destruct Hv as [-> ->]; auto.
Qed.

Lemma spec_metadata (P : view) p : spec P (of_sum (symlink_metadata p))
  (fun o f x => P f x ∧ (o = Some Symlink ↔ is_Some (lv_link (places x) p))) (fun _ => P).
Proof. apply spec_observe; [apply metadata_view| |done]. intros h o Ho Hp. split; [done|]. by apply metadata_inl. Qed.
Lemma spec_read_link (P : view) p : spec P (of_sum (read_link p)) (fun l f x => P f x ∧ lv_link (places x) p = Some l) (fun _ => P).
Proof. apply spec_observe; [apply read_link_view| |done]. intros h o Ho Hp. split; [done|]. by apply read_link_inl. Qed.
Lemma spec_canonicalize (P : view) p : spec P (of_sum (canonicalize (path_text p))) (fun t f x => P f x ∧ path_of t = lv_real (places x) p) (fun _ => P).
Proof. apply spec_observe; [apply canonicalize_view| |done]. intros h o Ho Hp. split; [done|]. by apply canonicalize_inl. Qed.

Lemma spec_resolve fuel (P : view) p : plain_path p → spec P (resolve fuel p) (fun t f x => P f x ∧ t = lv_real (places x) p) (fun _ => P).
Proof.
  revert P p. induction fuel as [|fuel IH]; intros P p Hp; cbn [resolve]; [by apply spec_err|].
  eapply spec_bind; [apply spec_metadata|]. intros [[]|].
  - eapply spec_bind; [eapply spec_weaken; [apply (spec_read_link P)|by intros f x []|done|done]|]. intros l.
    eapply spec_weaken; [apply (IH (fun f x => P f x ∧ lv_link (places x) (path_text p) = Some l))|done| |by intros e f x []].
    + apply join_plain; [|apply path_of_plain]. destruct (parent p) as [u|] eqn:Hu; [by eapply parent_plain|apply path_of_plain].
    + intros t f x [[Hq Hl] ->]. split; [done|]. symmetry. by apply real_link; [apply places_lead|].
  - eapply spec_bind; [eapply spec_weaken; [apply (spec_canonicalize P p)|by intros f x []|done|done]|]. intros t. by apply spec_ret.
  - destruct (parent p) as [u|] eqn:Hu; [|by apply spec_err; intros f x []]. apply spec_pass.
    destruct (file_name p) as [n|] eqn:Hn; [|by apply spec_err; intros f x []]. apply spec_pass.
    eapply spec_bind; [eapply spec_weaken; [apply (IH (fun f x => P f x ∧ lv_link (places x) (path_text p) = None) u)| | |]|].
    + by eapply parent_plain.
    + intros f x [Hq Hs]. split; [done|]. destruct (lv_link _ _) as [l|]; [|done]. by discriminate (proj2 Hs (mk_is_Some _ l eq_refl)).
    + done.
    + by intros e f x [].
    + intros d. apply spec_ret. intros f x [[Hq Hl] ->]. split; [done|]. symmetry. by apply real_name; [apply places_lead|..].
Qed.

Lemma spec_target (P : view) p : plain_path p → spec P (target p) (fun t f x => P f x ∧ t = lv_real (places x) p) (fun _ => P).
Proof. apply spec_resolve. Qed.

Lemma spec_link (P : view) p : spec P (link p) (fun o f x => P f x ∧ o = path_of <$> lv_link (places x) (path_text p)) (fun _ => P).
Proof.
  unfold link. eapply spec_bind; [apply spec_metadata|]. intros o. destruct (decide (o = Some Symlink)) as [->|Ho].
  - eapply spec_bind; [eapply spec_weaken; [apply (spec_read_link P)|by intros f x []|done|done]|]. intros l. apply spec_ret. by intros f x [Hp ->].
  - assert (∀ m : st H ApplyError (option Path), match o with Some Symlink => m | _ => mret None end = mret None) as -> by (by destruct o as [[]|]).
    apply spec_ret. intros f x [Hp Hs]. split; [done|]. destruct (lv_link _ _) as [l|]; [|done]. by destruct (Ho (proj2 Hs (mk_is_Some _ l eq_refl))).
Qed.

(** ** The wait for the lock ends *)

Lemma lock_loop_ends fuel path deadline h : (0 < fuel)%nat → deadline ≤ clock h + 10 * (Z.of_nat fuel - 1) →
  (lock_loop fuel path deadline h).1 ≠ Panic ∧ files (lock_loop fuel path deadline h).2 = files h ∧ kernel (lock_loop fuel path deadline h).2 = kernel h.
Proof.
  revert h. induction fuel as [|fuel IH]; intros h Hf Hd; [lia|]. cbn [lock_loop]. pose proof (try_lock_view h) as (Hf1 & Hk1 & Hc1).
  destruct (try_lock h) as [[| |e] h1]; cbn in *; [done| |done]. pose proof (instant_view h1) as (Hf2 & Hk2 & Hc2).
  destruct (instant_now h1) as [now h2]; cbn in *. destruct (Z.ltb_spec now deadline); cbn; [|by rewrite Hf2, Hk2].
  pose proof (sleep_view 10 h2) as (Hf3 & Hk3 & Hc3). destruct (IH (sleep 10 h2)) as (Hp & -> & ->); [lia|lia|]. by rewrite Hf3, Hk3, Hf2, Hk2.
Qed.

Lemma spec_wait_lock (P : view) path : spec P (wait_lock path) (fun _ => P) (fun _ => P).
Proof.
  intros h r h' Hp. unfold wait_lock. pose proof (instant_view h) as (Hf & Hk & Hc). destruct (instant_now h) as [now h1] eqn:Hi. cbn [fst snd] in *.
  destruct (lock_loop_ends 1001 path (now + 10000) h1) as (Hn & Hf' & Hk'); [lia|lia|]. generalize dependent (lock_loop 1001 path (now + 10000) h1).
  intros [r1 h2] Hn Hf' Hk' [= <- <-]. cbn [fst snd] in *. rewrite Hf', Hk', Hf, Hk. by destruct r1.
Qed.
End Reads.

(** ** Triples over the files and the journal in memory, while the links stay as they are *)

Section Held.
Context {H X : Type} `{!HostOs H} `{!HostLaws H X} `{!LinkOs H} `{!LinkLaws H X} `{!Serde Journal}.
Context (v : LinkView).
Abbreviation Files := (gmap string string).
Implicit Types f : Files.

Definition hspec {A} (P : Files → Prop) (m : st H ApplyError A) (Q : A → Files → Prop) (E : Files → Prop) : Prop :=
  spec (fun f x => places x = v ∧ P f) m (fun a f x => places x = v ∧ Q a f) (fun _ f x => places x = v ∧ E f).
Definition dspec {A} (P : Journal → Files → Prop) (m : st (Journal * H) ApplyError A) (Q : A → Journal → Files → Prop) (E : Journal → Files → Prop) : Prop :=
  spec (fun f y => places y.2 = v ∧ P y.1 f) m (fun a f y => places y.2 = v ∧ Q a y.1 f) (fun _ f y => places y.2 = v ∧ E y.1 f).

Lemma hspec_ret {A} P (a : A) (Q : A → Files → Prop) E : (∀ f, P f → Q a f) → hspec P (mret a) Q E.
Proof. intros HQ. apply spec_ret. intros f x []. auto. Qed.
Lemma hspec_lift {A} P (m : res ApplyError A) (Q : A → Files → Prop) (E : Files → Prop) :
  m ≠ Panic → (∀ a f, m = Ok a → P f → Q a f) → (∀ f, P f → E f) → hspec P (lift m) Q E.
Proof. intros Hm HQ HE. apply spec_lift; [done|..]; intros ? f x ? []; auto. Qed.
Lemma hspec_bind {A C} P (m : st H ApplyError A) (k : A → st H ApplyError C) Q R E :
  hspec P m Q E → (∀ a, hspec (Q a) (k a) R E) → hspec P (m ≫= k) R E.
Proof. apply spec_bind. Qed.
Lemma hspec_weaken {A} (P P' : Files → Prop) (m : st H ApplyError A) (Q Q' : A → Files → Prop) (E E' : Files → Prop) :
  hspec P m Q E → (∀ f, P' f → P f) → (∀ a f, Q a f → Q' a f) → (∀ f, E f → E' f) → hspec P' m Q' E'.
Proof. intros Hm HP HQ HE. eapply spec_weaken; [exact Hm|..]; intros; cbn in *; naive_solver. Qed.
Lemma hspec_read P p (Q : option string → Files → Prop) (E : Files → Prop) :
  (∀ f, P f → Q (f !! p) f) → (∀ f, P f → E f) → hspec P (read p) Q E.
Proof. intros HQ HE. apply spec_read; intros; naive_solver. Qed.
Lemma hspec_save P p c (Q : unit → Files → Prop) (E : Files → Prop) :
  (∀ f, P f → Q tt (<[p := c]> f)) → (∀ f, P f → E f ∧ E (<[p := c]> f)) → hspec P (save p c) Q E.
Proof. intros HQ HE. apply spec_save; intros; naive_solver. Qed.
Lemma hspec_remove P p (Q : unit → Files → Prop) (E : Files → Prop) :
  (∀ f, P f → Q tt (delete p f)) → (∀ f, P f → E f) → hspec P (HostRun.remove p) Q E.
Proof. intros HQ HE. apply spec_remove; intros; naive_solver. Qed.
Lemma hspec_resolvectl P c : hspec P (run ("resolvectl"%string :: c) None) (fun _ => P) P.
Proof.
  intros h r h' [Hv Hp]. unfold run, of_sum. pose proof (resolvectl_places c None h) as Hl. pose proof (exec_files ("resolvectl"%string :: c) None h) as Hf.
  destruct (exec _ _ h) as [[o|e] h1]; intros [= <- <-]; cbn in *; by rewrite Hf, Hl.
Qed.
Lemma hspec_target P p : plain_path p → hspec P (target p) (fun t f => P f ∧ t = lv_real v p) P.
Proof. intros Hp. eapply spec_weaken; [exact (spec_target (fun f x => places x = v ∧ P f) p Hp)|done| |done]. intros t f x [[Hv ?] ->]. by rewrite Hv. Qed.
Lemma hspec_link P p : hspec P (link p) (fun o f => P f ∧ o = path_of <$> lv_link v (path_text p)) P.
Proof. eapply spec_weaken; [apply (spec_link (fun f x => places x = v ∧ P f))|done| |done]. intros t f x [[Hv ?] ->]. by rewrite Hv. Qed.
Lemma hspec_try {A C} P (m : st H ApplyError A) (k : res ApplyError A → st H ApplyError C) Q E R E' :
  hspec P m Q E → (∀ a, hspec (Q a) (k (Ok a)) R E') → (∀ e, hspec E (k (Err e)) R E') → hspec P (attempt m ≫= k) R E'.
Proof. apply spec_try. Qed.

Lemma dspec_ret {A} P (a : A) (Q : A → Journal → Files → Prop) E : (∀ j f, P j f → Q a j f) → dspec P (mret a) Q E.
Proof. intros HQ. apply spec_ret. intros f y []. auto. Qed.
Lemma dspec_lift {A} P (m : res ApplyError A) (Q : A → Journal → Files → Prop) (E : Journal → Files → Prop) :
  m ≠ Panic → (∀ a j f, m = Ok a → P j f → Q a j f) → (∀ j f, P j f → E j f) → dspec P (lift m) Q E.
Proof. intros Hm HQ HE. apply spec_lift; [done|..]; intros ? f x ? []; auto. Qed.
Lemma dspec_err {A} P e (Q : A → Journal → Files → Prop) (E : Journal → Files → Prop) : (∀ j f, P j f → E j f) → dspec P (lift (Err e)) Q E.
Proof. intros HE. by apply dspec_lift. Qed.
Lemma dspec_bind {A C} P (m : st (Journal * H) ApplyError A) (k : A → st (Journal * H) ApplyError C) Q R E :
  dspec P m Q E → (∀ a, dspec (Q a) (k a) R E) → dspec P (m ≫= k) R E.
Proof. apply spec_bind. Qed.
Lemma dspec_try {A C} P (m : st (Journal * H) ApplyError A) (k : res ApplyError A → st (Journal * H) ApplyError C) Q E R E' :
  dspec P m Q E → (∀ a, dspec (Q a) (k (Ok a)) R E') → (∀ e, dspec E (k (Err e)) R E') → dspec P (attempt m ≫= k) R E'.
Proof. apply spec_try. Qed.
Lemma dspec_weaken {A} (P P' : Journal → Files → Prop) (m : st (Journal * H) ApplyError A) (Q Q' : A → Journal → Files → Prop) (E E' : Journal → Files → Prop) :
  dspec P m Q E → (∀ j f, P' j f → P j f) → (∀ a j f, Q a j f → Q' a j f) → (∀ j f, E j f → E' j f) → dspec P' m Q' E'.
Proof. intros Hm HP HQ HE. eapply spec_weaken; [exact Hm|..]; intros; cbn in *; naive_solver. Qed.
Lemma dspec_pure {A} P (F : Prop) (m : st (Journal * H) ApplyError A) Q E : (∀ j f, P j f → F) → (F → dspec P m Q E) → dspec P m Q E.
Proof. intros HF. apply spec_pure. intros f y []. eauto. Qed.

(** The journal, as a value from here on. *)
Lemma dspec_get {A} P (k : Journal → st (Journal * H) ApplyError A) Q E :
  (∀ j, dspec (fun j' f => j' = j ∧ P j' f) (k j) Q E) → dspec P (get_state ≫= k) Q E.
Proof.
  intros Hk. eapply (spec_bind _ _ _ (fun j f y => places y.2 = v ∧ y.1 = j ∧ P y.1 f)); [by apply spec_get; intros s f x []|]. apply Hk.
Qed.
Lemma dspec_put P j0 (Q : unit → Journal → Files → Prop) E : (∀ j f, P j f → Q tt j0 f) → dspec P (put_state j0) Q E.
Proof. intros HQ. apply spec_put. intros s f x []. cbn in *. eauto. Qed.
Lemma dspec_modify P g (Q : unit → Journal → Files → Prop) E : (∀ j f, P j f → Q tt (g j) f) → dspec P (modify_state g) Q E.
Proof. intros HQ. apply dspec_get. intros j. apply dspec_put. intros j' f [-> Hp]. auto. Qed.
Lemma dspec_host {A} P (m : st H ApplyError A) (Q : A → Journal → Files → Prop) E :
  (∀ j, hspec (P j) m (fun a => Q a j) (E j)) → dspec P (on_host m) Q E.
Proof. intros Hm. apply spec_host. intros s. exact (Hm s). Qed.
Lemma dspec_save P rt (Q : unit → Journal → Files → Prop) (E : Journal → Files → Prop) :
  (∀ j f, P j f → Q tt j (<[state_path rt := to_text j]> f)) → (∀ j f, P j f → E j f ∧ E j (<[state_path rt := to_text j]> f)) →
  dspec P (save_journal rt) Q E.
Proof.
  intros HQ HE. apply dspec_get. intros j. eapply (spec_save (H:=Journal * H) (X:=Journal * X)).
  - intros f [j' x] (Hv & Hj & Hp). cbn in *. subst j'. auto.
  - intros e f [j' x] (Hv & Hj & Hp). cbn in *. subst j'. destruct (HE _ _ Hp). auto.
Qed.
Lemma dspec_for {A} (P : Journal → Files → Prop) (l : list A) (body : A → st (Journal * H) ApplyError unit) E :
  (∀ x, dspec P (body x) (fun _ => P) E) → dspec P (for_each l body) (fun _ => P) E.
Proof. intros Hb. apply (spec_for (fun _ f y => places y.2 = v ∧ P y.1 f)). intros x l'. apply Hb. Qed.
End Held.
