(* ===== verification/DnsInv.v ===== *)
(** * The resolver file comes back

    The journal on disk always knows the content found first and recognises what is in the
    file now.  Each method of [Managed] keeps that, and the last owner to leave puts the
    first content back.  With one node the journal stays right through a failure at any
    point of a method that began with the file as recorded. *)

From Stdlib Require Import Strings.Ascii Strings.String.
From S2P Require Import Prelude.
From S2P Require Import Words.
From S2P Require Import NetText.
From S2P Require Import Prefix.
From S2P Require Import Apply.
From S2P Require Import HostRun.
From S2P Require Import Bypass.
From S2P Require Import HostEffects.
From S2P Require Import DnsFile.
From S2P Require Import DnsSpec.

(** [rt] and [rs]: the state directory and the resolver file; [orig]: what the file holds
    before the first owner; [boot]: the boot, where the file does not outlive it; [nodes]: the
    interfaces that take part. *)
Section Inv.
Context `{!Serde Journal} `{!SerdeLaws Journal}.
Context (v : LinkView) (rt rs : Path) (orig : option string) (boot : string) (nodes : string → Prop).
Implicit Types (j : Journal) (c : option string) (f : gmap string string) (o : OriginalFile) (s : bool).

Definition TARGET : Path := lv_real v rs.
Definition FILE : string := path_text TARGET.

(** The files are different ones. *)
Record Layout : Prop := mkLayout {
  la_plain : plain_path rs;
  la_state : state_path rt ≠ FILE;
  la_lock : lock_path rt ≠ FILE ∧ lock_path rt ≠ state_path rt;
  la_boot : boot_path ≠ FILE ∧ boot_path ≠ state_path rt ∧ boot_path ≠ lock_path rt
}.

Definition Booted f : Prop := under_run TARGET = true → str_trim <$> f !! boot_path = Some boot.

(** The journal on disk, but for the entries of links. *)
Definition Recorded j f : Prop := ∃ r, parse_journal (state_path rt) (f !! state_path rt) = Ok (with_resolved r j).

Record Baseline o : Prop := mkBaseline {
  ba_target : o_target o = TARGET;
  ba_link : o_link o = path_of <$> lv_link v (path_text rs);
  ba_bytes : o_bytes o = orig;
  ba_boot : under_run TARGET = true → o_boot o = boot
}.

(** The content is the first one, or one on record. *)
Definition Known o c : Prop := c = orig ∨ ∃ w, c = Some w ∧ (last_written o = Some w ∨ previous_written o = Some w).

(** Each interface owns the file once. *)
Definition Names (l : list Owner) : Prop := NoDup (ow_iface <$> l) ∧ Forall (fun w => nodes (ow_iface w)) l.

Lemma names_nil : Names [].
Proof. split; constructor. Qed.

Definition Kept j c : Prop :=
  Names (owners j) ∧
  match file j with
  | None => owners j = [] ∧ restore_pending j = false ∧ c = orig
  | Some o => Baseline o ∧ Known o c
  end.
Definition Sound j c : Prop := Kept j c ∧ ∀ o, file j = Some o → last_written o = top_body j ∨ restore_pending j = true.

(** One node, and the file is as recorded. *)
Definition Alone (i : string) j c : Prop :=
  Forall (fun w => ow_iface w = i) (owners j) ∧ (restore_pending j = true → owners j = []) ∧
  ∀ o, file j = Some o → c = orig ∨ is_Some c ∧ c = last_written o.

(** What holds while the journal in memory is the one on disk; [s]: of one node. *)
Definition Inv s i j f : Prop := Recorded j f ∧ Booted f ∧ Sound j (f !! FILE) ∧ (s = true → Alone i j (f !! FILE)).
(** What an error leaves on disk. *)
Definition Left s f : Prop := s = true → ∃ j, Recorded j f ∧ Booted f ∧ Sound j (f !! FILE).

(** Nothing is left to restore. *)
Definition Tidy j : Prop := restore_pending j = false ∧ (owners j = [] → file j = None) ∧ ∀ o, file j = Some o → last_written o = top_body j.

Context (HL : Layout).

Lemma recorded_save j f : Recorded j (<[state_path rt := to_text j]> f).
Proof. exists (resolved j). rewrite lookup_insert_eq. cbn. rewrite of_to_text. by destruct j. Qed.
Lemma booted_save j f : Booted f → Booted (<[state_path rt := to_text j]> f).
Proof. intros Hb Hu. destruct (la_boot HL) as (_ & Hn & _). rewrite lookup_insert_ne; auto. Qed.
Lemma file_save j f : <[state_path rt := to_text j]> f !! FILE = f !! FILE.
Proof. apply lookup_insert_ne, (la_state HL). Qed.

Lemma recorded_file g j f : g !! state_path rt = f !! state_path rt → Recorded j f → Recorded j g.
Proof. intros Hg [r Hr]. exists r. by rewrite Hg. Qed.
Lemma booted_file g f : g !! boot_path = f !! boot_path → Booted f → Booted g.
Proof. intros Hg Hb Hu. rewrite Hg. auto. Qed.

Lemma inv_left s i j f : Inv s i j f → Left s f.
Proof. intros (Hr & Hb & Hs & _) _. by exists j. Qed.
Lemma inv_save s i j f : Booted f → Sound j (f !! FILE) → (s = true → Alone i j (f !! FILE)) → Inv s i j (<[state_path rt := to_text j]> f).
Proof. intros Hb Hs Ha. unfold Inv. rewrite file_save. split; [apply recorded_save|]. split; [by apply booted_save|done]. Qed.
Lemma left_save s j f : Booted f → Sound j (f !! FILE) → Left s (<[state_path rt := to_text j]> f).
Proof. intros Hb Hs _. exists j. rewrite file_save. split; [apply recorded_save|]. split; [by apply booted_save|done]. Qed.

(** The entries of links do not matter. *)
Lemma sound_resolved r j c : Sound (with_resolved r j) c ↔ Sound j c.
Proof. done. Qed.
Lemma recorded_resolved r j f : Recorded j f → Recorded (with_resolved r j) f.
Proof. done. Qed.
Lemma inv_resolved s i r j f : Inv s i j f → Inv s i (with_resolved r j) f.
Proof. done. Qed.

(** Writing the file. *)
Definition put_file (c : option string) f : gmap string string := match c with Some w => <[FILE := w]> f | None => delete FILE f end.
Lemma put_file_eq c f : put_file c f !! FILE = c.
Proof. destruct c; cbn; [apply lookup_insert_eq|apply lookup_delete_eq]. Qed.
Lemma put_file_ne c f p : p ≠ FILE → put_file c f !! p = f !! p.
Proof. intros Hp. destruct c; cbn; [by apply lookup_insert_ne|by apply lookup_delete_ne]. Qed.
Lemma recorded_put c j f : Recorded j f → Recorded j (put_file c f).
Proof. apply recorded_file, put_file_ne, (la_state HL). Qed.
Lemma booted_put c f : Booted f → Booted (put_file c f).
Proof. apply booted_file, put_file_ne. by destruct (la_boot HL). Qed.
End Inv.

Lemma all_safe l : all l ≠ Panic.
Proof. unfold all. by destruct (dedup _). Qed.

Section Methods.
Context {H X : Type} `{!HostOs H} `{!HostLaws H X} `{!LinkOs H} `{!LinkLaws H X} `{!Serde Journal} `{!SerdeLaws Journal}.
Context (v : LinkView) (rt rs : Path) (orig : option string) (boot : string) (nodes : string → Prop) (HL : Layout v rt rs).
Context (i : string) (Hnode : nodes i) (pref : bool) (s : bool).
Implicit Types (j : Journal) (c : option string) (f : gmap string string) (o : OriginalFile).

Abbreviation self := (mkManaged i rt rs pref).
Abbreviation FILE := (FILE v rs).
Abbreviation Baseline := (Baseline v rs orig boot).
Abbreviation Known := (Known orig).
Abbreviation Kept := (Kept v rs orig boot nodes).
Abbreviation Sound := (Sound v rs orig boot nodes).
Abbreviation Alone := (Alone orig i).
Abbreviation Recorded := (Recorded rt).
Abbreviation Booted := (Booted v rs boot).
Abbreviation Names := (Names nodes).
Abbreviation Inv := (Inv v rt rs orig boot nodes s i).
Abbreviation Left := (Left v rt rs orig boot nodes s).
Abbreviation put_file := (put_file v rs).
Abbreviation hs P m Q E := (hspec v (H:=H) P m Q E).
Abbreviation ds P m Q E := (dspec v (H:=H) P m Q E).

Lemma hs_same_target P o : Baseline o → hs P (same_target rs o) (fun b f => P f ∧ b = true) P.
Proof.
  intros [Ht Hl _ _]. unfold same_target. eapply hspec_bind; [apply (hspec_link v P)|]. intros l. cbn beta.
  destruct (decide (l = o_link o)) as [->|Hn].
  - rewrite bool_decide_eq_true_2 by done. cbn [negb]. eapply hspec_bind; [eapply hspec_weaken; [apply (hspec_target v P rs (la_plain _ _ _ HL))|by intros f []|done|done]|].
    intros t. apply hspec_ret. intros f [Hp ->]. split; [done|]. by rewrite bool_decide_eq_true_2.
  - rewrite bool_decide_eq_false_2 by done. apply hspec_ret. intros f [_ ->]. by rewrite Hl in Hn.
Qed.

Lemma hs_replace (P : gmap string string → Prop) o c (Q : gmap string string → Prop) (E : gmap string string → Prop) : Baseline o →
  (∀ f, P f → Q (put_file c f)) → (∀ f, P f → E f ∧ E (put_file c f)) → hs P (replace_file o c) (fun _ => Q) E.
Proof.
  intros [Ht _ _ _] HQ HE. unfold replace_file. rewrite Ht. destruct c as [w|].
  - by apply hspec_save.
  - apply hspec_remove; [done|]. intros f Hp. by destruct (HE f Hp).
Qed.

(** The journal in memory may have lost its top owner already. *)
Definition Restorable (l : list Owner) j f : Prop :=
  owners j = l ∧ Booted f ∧ Kept j (f !! FILE) ∧ (file j = None → Recorded j f) ∧
  (s = true → owners j = [] ∧ ∃ d, Recorded d f ∧ file d = file j ∧ Sound d (f !! FILE)).

Lemma restorable_left l j f : Restorable l j f → Left f.
Proof. intros (_ & Hb & _ & _ & Hd) Hs. destruct (Hd Hs) as (_ & d & Hr & _ & Hk). by exists d. Qed.

Lemma known_orig o : Known o orig.
Proof. by left. Qed.

Lemma ds_release (P : Journal → gmap string string → Prop) : (∀ j f, P j f → Booted f ∧ f !! FILE = orig ∧ Left f) →
  ds P (release_file self) (fun _ j f => Inv j f ∧ Tidy j ∧ owners j = []) (fun _ => Left).
Proof.
  intros HP. unfold release_file. set (g := fun j => with_pending false (with_file None (with_owners [] j))).
  eapply dspec_bind; [apply (dspec_modify _ _ _ (fun _ j f => Booted f ∧ f !! FILE = orig ∧ Left f ∧ owners j = [] ∧ file j = None ∧ restore_pending j = false))|].
  { intros j f Hp. by destruct (HP _ _ Hp) as (? & ? & ?). }
  intros u. assert (∀ j f, f !! FILE = orig → owners j = [] → file j = None → restore_pending j = false → Sound j (f !! FILE) ∧ Alone j (f !! FILE) ∧ Tidy j) as Hfin.
  { intros j f Hc Ho Hf Hr. unfold DnsInv.Sound, DnsInv.Kept, DnsInv.Alone, Tidy. rewrite Ho, Hf. split_and!; try done; apply names_nil. }
  apply dspec_save; intros j f (Hb & Hc & Hl & Ho & Hf & Hr); destruct (Hfin j f Hc Ho Hf Hr) as (Hs & Ha & Ht).
  - split; [by apply inv_save|done].
  - split; [done|]. by apply left_save.
Qed.

Lemma sound_file d o c c' : file d = Some o → Sound d c → Known o c' → Sound d c'.
Proof. intros Ho [[Hn Hk] Hl] Hc. split; [|done]. split; [done|]. rewrite Ho in *. by destruct Hk. Qed.

(** What restoring writes down. *)
Lemma restored_sound j o c : Kept j c → file j = Some o →
  let k := with_pending false ((fun j => match owners j with [] => with_file None j | _ => j end) (with_file (with_written (top_body j) <$> file j) j)) in
  Sound k (match top_body j with Some b => Some b | None => o_bytes o end) ∧ Tidy k ∧ owners k = owners j ∧ (owners j = [] → Alone k (o_bytes o)).
Proof.
  intros [Hn Hk] Ho. destruct j as [r fl ow p]. cbn in Ho, Hk. subst fl. destruct Hk as [[Ht Hl Hb Hboot] _].
  unfold DnsInv.Sound, DnsInv.Kept, DnsInv.Alone, Tidy, top_body. cbn. destruct ow as [|w l]; cbn [with_pending with_file restore_pending file owners].
  - cbn. rewrite Hb. split_and!; done.
  - assert (is_Some (list.last (w :: l))) as [u Hu] by (by apply last_is_Some). rewrite Hu. cbn [fmap option_fmap option_map].
    split_and!; try done; [right; eexists; split; [done|by left]|intros ? [= <-]; by left|by intros ? [= <-]].
Qed.

(** The file with the restored content, before the journal says so. *)
Lemma written_left l j o f : Restorable l j f → file j = Some o → Baseline o →
  let body := match top_body j with Some b => Some b | None => o_bytes o end in
  Booted (put_file body f) ∧ put_file body f !! FILE = body ∧ (s = true → owners j = []) ∧ Left (put_file body f).
Proof.
  intros (_ & Hb & _ & _ & Hd) Ho Hba body. split; [by eapply booted_put|]. split; [apply put_file_eq|]. split; [intros Hs; by destruct (Hd Hs)|].
  intros Hs. destruct (Hd Hs) as (Hn & d & Hr & Hf & Hk). exists d. split; [by apply recorded_put|]. split; [by eapply booted_put|]. rewrite put_file_eq.
  eapply sound_file; [by rewrite Hf|done|]. left. unfold body, top_body. rewrite Hn. by apply Hba.
Qed.

Lemma ds_restore l : ds (Restorable l) (restore_file self) (fun _ j f => Inv j f ∧ Tidy j ∧ owners j ⊆ l) (fun _ => Left).
Proof.
  unfold restore_file. apply dspec_get. intros j. destruct (file j) as [o|] eqn:Ho.
  2:{ apply dspec_ret. intros j' f (-> & Hl & Hb & Hk & Hr & Hd). pose proof (proj2 Hk) as Hk2. rewrite Ho in Hk2. destruct Hk2 as (Hn & Hp & Hc).
      assert (Sound j (f !! FILE)) as Hs by (split; [done|]; by rewrite Ho). split; [|split].
      - split; [auto|]. split; [done|]. split; [done|]. intros _. rewrite Hc. unfold DnsInv.Alone. rewrite Hn, Ho. done.
      - unfold Tidy. by rewrite Ho.
      - rewrite Hn. apply list_subseteq_nil. }
  apply (dspec_pure _ _ (Baseline o)). { intros j' f (-> & _ & _ & [_ Hk] & _). rewrite Ho in Hk. by destruct Hk. }
  intros Hba. eapply dspec_bind.
  { apply (dspec_host _ _ _ (fun a j' f => a = f !! FILE ∧ j' = j ∧ Restorable l j' f)). intros j'. unfold read_bytes. rewrite (ba_target _ _ _ _ _ Hba).
    apply hspec_read; [done|]. intros f [_ Hr]. by eapply restorable_left. }
  intros actual. eapply dspec_bind.
  { apply dspec_host. intros j'. cbn [resolv]. eapply hspec_weaken; [apply (hs_same_target (fun f => actual = f !! FILE ∧ j' = j ∧ Restorable l j' f) o Hba)|done|intros a f Hq; exact Hq|].
    intros f (_ & _ & Hr). by eapply restorable_left. }
  intros same. apply (dspec_pure _ _ (same = true)); [by intros j' f [_ ->]|]. intros ->. cbn [negb orb].
  destruct (_ && _) eqn:Hx.
  - eapply dspec_weaken; [apply (ds_release (fun j' f => (actual = f !! FILE ∧ j' = j ∧ Restorable l j' f) ∧ true = true))|done| |done]. 2:{ intros _ j' f (? & ? & ->). split_and!; [done|done|]. apply list_subseteq_nil. }
    intros j' f [(-> & -> & Hr) _]. pose proof (restorable_left _ _ _ Hr) as Hl. destruct Hr as (_ & Hb & [_ Hk] & _). rewrite Ho in Hk. destruct Hk as [_ Hk].
    split; [done|]. split; [|done]. destruct Hk as [|(w & Hw & Hx')]; [done|]. exfalso. rewrite Hw in Hx. apply andb_true_iff in Hx as [H1 H2].
    apply negb_true_iff, bool_decide_eq_false in H1, H2. destruct Hx'; congruence.
  - apply (dspec_pure _ _ (owners j = l ∧ ∃ c, Kept j c)). { intros j' f [(_ & -> & Hr) _]. destruct Hr as (? & _ & ? & _). eauto. }
    intros [Hl [c0 Hk0]]. destruct (restored_sound j o c0 Hk0 Ho) as (Hso & Hti & How & Hal). cbn zeta in *.
    set (body := match top_body j with Some b => Some b | None => o_bytes o end) in *.
    set (W := fun j' f => Booted f ∧ f !! FILE = body ∧ (s = true → owners j = []) ∧ Left f).
    eapply dspec_bind; [|intros u]. 
    { apply (dspec_host _ _ _ (fun _ j' f => j' = j ∧ W j' f)). intros j'. eapply (hs_replace _ o body (fun f => j' = j ∧ W j' f)); [done|..].
      - intros f [(_ & -> & Hr) _]. split; [done|]. by eapply written_left.
      - intros f [(_ & -> & Hr) _]. split; [by eapply restorable_left|]. by eapply written_left. }
    eapply dspec_bind; [apply (dspec_modify _ _ _ (fun _ j' f => j' = with_file (with_written (top_body j) <$> file j) j ∧ W j' f)); by intros j' f [-> ?]|intros u1].
    eapply dspec_bind; [apply (dspec_modify _ _ _ (fun _ j' f => j' = (fun j => match owners j with [] => with_file None j | _ => j end) (with_file (with_written (top_body j) <$> file j) j) ∧ W j' f)); by intros j' f [-> ?]|intros u2].
    eapply dspec_bind; [apply (dspec_modify _ _ _ (fun _ j' f => j' = with_pending false ((fun j => match owners j with [] => with_file None j | _ => j end) (with_file (with_written (top_body j) <$> file j) j)) ∧ W j' f)); by intros j' f [-> ?]|intros u3].
    apply dspec_save; intros j' f (-> & Hb & Hc & Hs & Hle).
    + split; [apply inv_save; [done|done|by rewrite Hc|]|split; [done|by rewrite How, Hl]]. intros Hst.
      assert (body = o_bytes o) as Hbo by (unfold body, top_body; by rewrite (Hs Hst)). rewrite Hc, Hbo. by apply Hal, Hs.
    + split; [done|]. apply left_save; [done|done|by rewrite Hc].
Qed.

(** ** Expired owners *)

Lemma hs_process_start (P : gmap string string → Prop) id : hs P (process_start id) (fun _ => P) P.
Proof.
  unfold process_start, read_to_string. eapply hspec_bind; [eapply hspec_bind; [apply (hspec_read v P _ (fun _ => P)); done|intros w]|intros t].
  - apply (hspec_lift v P _ (fun _ => P)); [by destruct w|done|done].
  - apply hspec_lift; [by destruct (stat_start t)|done|done].
Qed.

Lemma hs_alive (P : gmap string string → Prop) p current : hs P (alive p current) (fun _ => P) P.
Proof.
  unfold alive. case_if; [by apply hspec_ret|]. eapply hspec_try; [apply hs_process_start|intros t; by apply hspec_ret|intros e; by apply hspec_ret].
Qed.

Lemma hs_check_alive {A} (P : gmap string string → Prop) (pr : A → Process) current l :
  hs P (check_alive pr current l) (fun r f => P f ∧ r.*1 = l) P.
Proof.
  induction l as [|x l IH]; cbn [check_alive]; [by apply hspec_ret|]. eapply hspec_bind; [apply hs_alive|]. intros b.
  eapply hspec_bind; [exact IH|]. intros r. apply hspec_ret. intros f [Hp Hr]. split; [done|]. cbn. by f_equal.
Qed.

Lemma hs_current (P : gmap string string → Prop) id : (∀ f, P f → Booted f) →
  hs P (current_process id) (fun p f => P f ∧ (under_run (TARGET v rs) = true → boot_id p = boot)) P.
Proof.
  intros HP. unfold current_process, read_to_string. eapply (hspec_bind v _ _ _ (fun t f => P f ∧ f !! boot_path = Some t)).
  - eapply hspec_bind; [apply (hspec_read v P _ (fun w f => P f ∧ f !! boot_path = w)); done|]. intros w.
    apply hspec_lift; [by destruct w| |by intros f []]. intros t f Ht [Hp Ho]. split; [done|]. destruct w; [|done]. cbn in Ht. by simplify_eq.
  - intros t. eapply hspec_bind; [eapply hspec_weaken; [apply (hs_process_start (fun f => P f ∧ f !! boot_path = Some t))|done|done|by intros f []]|].
    intros st. apply hspec_ret. intros f [Hp Ht]. split; [done|]. intros Hu. cbn. specialize (HP f Hp Hu). rewrite Ht in HP. by injection HP.
Qed.

Lemma keep_sublist {A} b (l : list (A * bool)) : keep b l `sublist_of` l.*1.
Proof. induction l as [|[x c] l IH]; cbn; [done|]. unfold keep. cbn. destruct (Bool.eqb c b); [by apply sublist_skip|by apply sublist_cons]. Qed.

Lemma sublist_full {A} (l k : list A) : l `sublist_of` k → length l = length k → l = k.
Proof.
  induction 1 as [|x l k Hs IH|x l k Hs IH]; cbn; intros He; [done|f_equal; auto|]. apply sublist_length in Hs. lia.
Qed.

Lemma NoDup_iface l a b : NoDup (ow_iface <$> l) → a ∈ l → b ∈ l → ow_iface a = ow_iface b → a = b.
Proof.
  induction l as [|x l IH]; cbn; [set_solver|]. intros [Hn Hd]%list.NoDup_cons Ha Hb He.
  assert (∀ y, y ∈ l → ow_iface x ≠ ow_iface y) as Hx by (intros y Hy Hxy; apply Hn; rewrite Hxy; by apply list_elem_of_fmap_2).
  apply elem_of_cons in Ha as [->|Ha], Hb as [->|Hb]; [done|by destruct (Hx b)|by destruct (Hx a)|by apply IH].
Qed.

Lemma names_sublist l k : Names k → l `sublist_of` k → Names l.
Proof. intros [Hn Hf] Hs. split; [by eapply sublist_NoDup, fmap_sublist|]. rewrite list.Forall_forall in *. intros w Hw. apply Hf. by eapply elem_of_sublist. Qed.

(** An owner fewer: the top is another one, which is noted, or the same. *)
Lemma pruned_sound j c kept : Sound j c → kept `sublist_of` owners j →
  Sound (with_pending (restore_pending j || negb (bool_decide (top_iface j = top_iface (with_owners kept j)))) (with_owners kept j)) c.
Proof.
  intros [[Hn Hk] Hl] Hs. destruct j as [r fl ow p]. unfold DnsInv.Sound, DnsInv.Kept in *. cbn in *. split; [split|].
  - by eapply names_sublist.
  - destruct fl as [o|]; [done|]. destruct Hk as (-> & -> & ->). apply sublist_nil_r in Hs as ->. done.
  - intros o ->. destruct (Hl o eq_refl) as [Ho| ->]; [|by right]. unfold top_iface, top_body in *. cbn in *.
    destruct (bool_decide_reflect (ow_iface <$> list.last ow = ow_iface <$> list.last kept)) as [He|He]; [left|right; by destruct p].
    rewrite Ho. destruct (list.last ow) as [a|] eqn:Ha, (list.last kept) as [b|] eqn:Hb; cbn in *; try done. do 3 f_equal. simplify_eq.
    eapply NoDup_iface; [apply Hn|by eapply last_Some_elem_of| |done]. apply last_Some_elem_of in Hb. by eapply elem_of_sublist.
Qed.

Lemma alone_short j c : Sound j c → Alone j c → (length (owners j) ≤ 1)%nat.
Proof.
  intros [[[Hn _] _] _] [Ha _]. destruct (owners j) as [|a [|b l]]; cbn in *; [lia|lia|]. exfalso.
  rewrite !list.Forall_cons in Ha. destruct Ha as (Ha1 & Ha2 & _). apply list.NoDup_cons in Hn as [Hn _]. apply Hn. rewrite Ha1, Ha2. by left.
Qed.

Lemma pruned_alone j c kept b : Sound j c → Alone j c → kept `sublist_of` owners j → length kept ≠ length (owners j) →
  Alone (with_pending b (with_owners kept j)) c.
Proof.
  intros Hs Ha Hk Hn. pose proof (alone_short _ _ Hs Ha). pose proof (sublist_length _ _ Hk). destruct kept; cbn in *; [|lia].
  destruct Ha as (_ & _ & Ha). by split; [constructor|].
Qed.

(** An owner expires. *)
Lemma ds_expire current :
  ds Inv (expire self current) (fun _ => Inv) (fun _ => Left).
Proof.
  unfold expire. apply dspec_get. intros j. eapply dspec_bind.
  { apply (dspec_host _ _ _ (fun r j' f => (j' = j ∧ Inv j' f) ∧ r.*1 = owners j)). intros j'.
    eapply hspec_weaken; [apply (hs_check_alive (fun f => j' = j ∧ Inv j' f))|done|done|]. intros f [_ Hi]. by eapply inv_left. }
  intros r. apply (dspec_pure _ _ (keep true r `sublist_of` owners j)); [intros j' f [_ <-]; apply keep_sublist|]. intros Hk. cbn zeta.
  eapply dspec_bind; [apply (dspec_put _ _ _ (fun _ j' f => j' = with_owners (keep true r) j ∧ Inv j f)); by intros j' f [[-> ?] _]|]. intros u.
  destruct (Nat.eqb_spec (length (keep true r)) (length (owners j))) as [He|He]; cbn [negb].
  - apply dspec_ret. intros j' f [-> Hi]. rewrite (sublist_full _ _ Hk He). by destruct j.
  - eapply dspec_bind; [apply (dspec_modify _ _ _ (fun _ j' f => j' = with_pending (restore_pending j || negb (bool_decide (top_iface j = top_iface (with_owners (keep true r) j)))) (with_owners (keep true r) j) ∧ Inv j f)); by intros j' f [-> ?]|intros u1].
    apply dspec_save; intros j' f [-> Hi]; pose proof (inv_left _ _ _ _ _ _ _ _ _ _ Hi) as Hl; destruct Hi as (Hr & Hb & Hs & Ha).
    + apply inv_save; [done|done|by apply pruned_sound|]. intros Hst. apply pruned_alone; auto.
    + split; [done|]. apply left_save; [done|done|by apply pruned_sound].
Qed.

(** Links of expired owners. *)
Lemma hs_resolved_set (P : gmap string string → Prop) command name values : hs P (resolved_set command name values) (fun _ => P) P.
Proof. unfold resolved_set. eapply hspec_bind; [apply hspec_resolvectl|]. intros t. by apply hspec_ret. Qed.

(** Both settings of a link, each attempted. *)
Lemma ds_both {A} (P : Journal → gmap string string → Prop) cmd1 cmd2 name l1 l2 (k : ApplyResult → ApplyResult → st (Journal * H) ApplyError A) Q E :
  (∀ r1 r2, ds P (k r1 r2) Q E) →
  ds P ((attempt (on_host (resolved_set cmd1 name l1)) : st (Journal * H) ApplyError ApplyResult) ≫= fun r1 =>
        (attempt (on_host (resolved_set cmd2 name l2)) : st (Journal * H) ApplyError ApplyResult) ≫= fun r2 => k r1 r2) Q E.
Proof.
  intros Hk. assert (∀ cmd l B (k' : ApplyResult → st (Journal * H) ApplyError B) Q', (∀ r, ds P (k' r) Q' E) → ds P ((attempt (on_host (resolved_set cmd name l)) : st (Journal * H) ApplyError ApplyResult) ≫= k') Q' E) as Ho.
  { intros cmd l B k' Q' Hk'. eapply (dspec_try v P _ _ (fun _ => P) P); [apply dspec_host; intros j; apply hs_resolved_set|intros u; apply Hk'|intros e; apply Hk']. }
  apply Ho. intros r1. apply Ho. intros r2. apply Hk.
Qed.

Lemma ds_save_links (P : Journal → gmap string string → Prop) g : (∀ j f, P j f → Inv j f ∧ Tidy j) →
  ds P (_ ← modify_state (fun j => with_resolved (g j) j); save_journal rt) (fun _ j f => Inv j f ∧ Tidy j) (fun j f => Inv j f ∧ Tidy j).
Proof.
  intros HP. eapply dspec_bind; [apply (dspec_modify _ _ _ (fun _ j f => Inv j f ∧ Tidy j)); intros j f Hp; destruct (HP _ _ Hp); by split|]. intros u.
  assert (∀ j f, Inv j f → Inv j (<[state_path rt := to_text j]> f)) as Hs by (intros j f (? & ? & ? & ?); by apply inv_save).
  apply dspec_save; intros j f [Hi Ht]; [|split]; split; auto.
Qed.

Lemma ds_discard current name :
  ds (fun j f => Inv j f ∧ Tidy j) (discard self current name) (fun _ j f => Inv j f ∧ Tidy j) (fun _ => Left).
Proof.
  unfold discard. apply dspec_get. intros j. eapply (dspec_bind v _ _ _ (fun _ j f => Inv j f ∧ Tidy j)).
  - assert (∀ j' f, j' = j ∧ Inv j' f ∧ Tidy j' → Left f) as Hl by (intros j' f (_ & Hi & _); by eapply inv_left).
    destruct (resolved j !! name) as [saved|]; [|by apply dspec_ret; intros j' f [_ ?]]. case_if; [|by apply dspec_ret; intros j' f [_ ?]].
    apply ds_both. intros r1 r2. apply dspec_lift; [apply all_safe|by intros a j' f _ [_ ?]|done].
  - intros u. eapply dspec_weaken; [by apply (ds_save_links (fun j f => Inv j f ∧ Tidy j))|done|done|]. intros j' f [Hi _]. by eapply inv_left.
Qed.

Lemma ds_prune current : (under_run (TARGET v rs) = true → boot_id current = boot) →
  ds Inv (prune self current) (fun _ j f => Inv j f ∧ Tidy j) (fun _ => Left).
Proof.
  intros Hcur. unfold prune. apply dspec_get. intros j0. eapply (dspec_bind v _ _ _ (fun _ => Inv)).
  { apply (dspec_pure _ _ (∀ o, file j0 = Some o → Baseline o)).
    { intros j f (-> & _ & _ & [[_ Hk] _] & _) o Ho. rewrite Ho in Hk. by destruct Hk. }
    intros Hba. destruct (match file j0 with Some _ => _ | None => _ end) eqn:Hx; [|by apply dspec_ret; intros j f [_ ?]].
    exfalso. destruct (file j0) as [o|]; [|done]. destruct (Hba o eq_refl) as [Ht _ _ Hb]. apply andb_true_iff in Hx as [Hn Hu].
    rewrite Ht in Hu. rewrite (Hb Hu), (Hcur Hu), bool_decide_eq_true_2 in Hn by done. done. }
  intros u. eapply dspec_bind; [apply ds_expire|]. intros u1. apply dspec_get. intros j. eapply (dspec_bind v _ _ _ (fun _ j f => Inv j f ∧ Tidy j)).
  { destruct (restore_pending j || _) eqn:Hx.
    - eapply dspec_weaken; [apply (ds_restore (owners j))| |by intros u2 j' f (? & ? & _)|done].
      intros j' f (-> & Hr & Hb & Hs & Ha). split_and!; [done|done|by destruct Hs|done|]. intros Hst. destruct (Ha Hst) as (_ & Hp & _). split; [|by exists j].
      apply orb_true_iff in Hx as [Hx|Hx]; [by apply Hp|]. apply andb_true_iff in Hx as [Hx _]. by apply bool_decide_eq_true in Hx.
    - apply orb_false_iff in Hx as [Hp Hx]. apply dspec_ret. intros j' f [-> Hi]. split; [done|]. destruct Hi as (_ & _ & [Hk Hl] & _). split_and!; [done| |].
      + intros Ho. destruct (file j); [|done]. by rewrite Ho in Hx.
      + intros o Ho. destruct (Hl o Ho); congruence. }
  intros u2. apply dspec_get. intros j2. eapply (dspec_bind v _ _ _ (fun _ j f => Inv j f ∧ Tidy j)); [|intros stale; apply dspec_for, ds_discard].
  apply dspec_host. intros j'. eapply hspec_weaken; [apply (hs_check_alive (fun f => j' = j2 ∧ Inv j' f ∧ Tidy j'))|done|by intros a f [[_ ?] _]|].
  intros f (_ & Hi & _). by eapply inv_left.
Qed.

(** ** Setting the file *)

(** The file holds the servers of the top owner, and the interface is an owner with [dns]. *)
Definition Served (dns : list string) j f : Prop :=
  is_Some (f !! FILE) ∧ f !! FILE = top_body j ∧ ∃ w, w ∈ owners j ∧ ow_iface w = i ∧ ow_dns w = dns.

Definition Takeable j f : Prop :=
  Booted f ∧ Left f ∧ Names (owners j) ∧ restore_pending j = false ∧
  ∃ o, file j = Some o ∧ Baseline o ∧
    (s = true → Forall (fun w => ow_iface w = i) (owners j) ∧ (f !! FILE = orig ∨ is_Some (f !! FILE) ∧ f !! FILE = last_written o)).

Definition taken (dns : list string) (process : Process) j : Journal :=
  with_file ((fun o => with_drift 0 0 (stage_write (file_body dns) o)) <$> file j)
    (with_owners (List.filter (fun w => negb (bool_decide (ow_iface w = i))) (owners j) ++ [mkOwner i dns process]) j).

Lemma stage_last b o : last_written (stage_write b o) = Some b.
Proof. unfold stage_write. by case_bool_decide. Qed.
Lemma stage_known b o c : is_Some c → c = last_written o → Known (stage_write b o) c.
Proof.
  intros [w ->] Hw. right. exists w. split; [done|]. unfold stage_write. case_bool_decide as Hb; [left; congruence|]. right. cbn. by rewrite <-Hw.
Qed.

Lemma taken_top dns process j : top_body (taken dns process j) = Some (file_body dns).
Proof. unfold top_body, taken. cbn. by rewrite last_snoc. Qed.

Lemma taken_file dns process j o : file j = Some o → file (taken dns process j) = Some (with_drift 0 0 (stage_write (file_body dns) o)).
Proof. unfold taken. by intros ->. Qed.

Lemma names_taken dns process l : Names l → Names (List.filter (fun w => negb (bool_decide (ow_iface w = i))) l ++ [mkOwner i dns process]).
Proof.
  intros Hn. assert (Names (List.filter (fun w => negb (bool_decide (ow_iface w = i))) l)) as [Hd Hf].
  { eapply names_sublist; [exact Hn|]. clear. induction l as [|w l IH]; cbn; [done|]. case_bool_decide; cbn; [by apply sublist_cons|by apply sublist_skip]. }
  split; [|apply Forall_app; split; [done|by repeat constructor]]. rewrite fmap_app. apply list.NoDup_app. split_and!; [done| |apply NoDup_singleton].
  cbn. intros x (w & -> & Hw)%list_elem_of_fmap. apply list_elem_of_In, filter_In in Hw as [_ Hw]. apply negb_true_iff, bool_decide_eq_false in Hw.
  by rewrite list_elem_of_singleton.
Qed.

Lemma taken_sound dns process j f c : Takeable j f →
  (c = Some (file_body dns) ∨ s = true ∧ c = f !! FILE) → Sound (taken dns process j) c.
Proof.
  intros (_ & _ & Hn & Hp & o & Ho & Hba & Hs) Hc. split; [split|].
  - by apply names_taken.
  - rewrite (taken_file _ _ _ o Ho). split; [destruct Hba; unfold stage_write; by case_bool_decide|].
    destruct Hc as [->|[Hst ->]]; [right; eexists; split; [done|left; apply (stage_last _ o)]|]. destruct (Hs Hst) as [_ [Hc|[Hi Hc]]]; [by left|].
    by apply stage_known.
  - rewrite (taken_file _ _ _ o Ho). intros ? [= <-]. left. rewrite taken_top. apply (stage_last _ o).
Qed.

Lemma taken_alone dns process j f : Takeable j f → s = true → Alone (taken dns process j) (Some (file_body dns)).
Proof.
  intros (_ & _ & _ & Hp & o & Ho & _ & Hs) Hst. destruct (Hs Hst) as [Ha _]. unfold taken. split_and!; cbn.
  - apply Forall_app. split; [by apply Forall_lfilter|by repeat constructor].
  - by rewrite Hp.
  - rewrite Ho. intros ? [= <-]. right. split; [done|]. symmetry. apply (stage_last _ o).
Qed.

Lemma ds_take dns process : ds Takeable (take_file self dns process) (fun _ j f => Inv j f ∧ Served dns j f) (fun _ => Left).
Proof.
  unfold take_file. eapply dspec_bind; [apply (dspec_modify _ _ _ (fun _ k f => ∃ j, Takeable j f ∧ k = with_owners (List.filter (fun w => negb (bool_decide (ow_iface w = i))) (owners j) ++ [mkOwner i dns process]) j)); eauto|intros u].
  eapply dspec_bind; [apply (dspec_modify _ _ _ (fun _ k f => ∃ j, Takeable j f ∧ k = taken dns process j)); intros k f (j & Hj & ->); by exists j|intros u1].
  eapply dspec_bind.
  { apply (dspec_save _ _ _ (fun _ k f => ∃ j g, Takeable j g ∧ k = taken dns process j ∧ f = <[state_path rt := to_text k]> g)); intros k f (j & Hj & ->); [by exists j, f|].
    pose proof Hj as (Hb & Hl & _). split; [done|]. intros Hst. apply (left_save v rt rs orig boot nodes HL s); [done|by eapply taken_sound; [|right]|done]. }
  intros u2. apply dspec_get. intros k. apply (dspec_pure _ _ (∃ j o g, Takeable j g ∧ k = taken dns process j ∧ file k = Some o ∧ Baseline o)).
  { intros k' f (-> & j & g & Hj & -> & _). pose proof (taken_sound dns process j g (Some (file_body dns)) Hj (or_introl eq_refl)) as [[_ Hk] _].
    pose proof Hj as (_ & _ & _ & _ & o & Ho & _). rewrite (taken_file _ _ _ o Ho) in *. destruct Hk as [Hk _]. by eexists j, _, g. }
  intros (j0 & o & g0 & Hj0 & Hkj & Ho & Hba). rewrite Ho. apply dspec_host. intros k'.
  apply (hs_replace _ o (Some (file_body dns)) (fun f => Inv k' f ∧ Served dns k' f)); [done|..].
  - intros f (-> & j & g & Hj & -> & ->). pose proof Hj as (Hb & _). unfold Served. rewrite put_file_eq, taken_top. split_and!; [|done|done|].
    + split_and!; [apply recorded_put; [done|apply recorded_save]|eapply booted_put; [exact HL|by eapply booted_save]| |]; rewrite put_file_eq;
        [by eapply taken_sound; [|left]|by eapply taken_alone].
    + eexists. split; [apply elem_of_app; right; by apply list_elem_of_singleton|done].
  - intros f (-> & j & g & Hj & -> & ->). pose proof Hj as (Hb & _). split; intros Hst; exists (taken dns process j).
    + split_and!; [apply recorded_save|by eapply booted_save|]. rewrite file_save by done. eapply taken_sound; [done|by right].
    + split_and!; [apply recorded_put; [done|apply recorded_save]|eapply booted_put; [exact HL|by eapply booted_save]|]. rewrite put_file_eq. by eapply taken_sound; [|left].
Qed.

(** A repair notes its wait, and writes what the record says is there. *)
Lemma drifted_sound j o c c' active delay after : file j = Some o → top_body j = Some active → last_written o = Some active →
  Sound j c → (c' = c ∨ c' = Some active) → Sound (with_file (Some (with_drift delay after o)) j) c'.
Proof.
  intros Ho Ht Hw [[Hn Hb] Hl] Hc. rewrite Ho in Hb. destruct Hb as [[] Hk]. split; [split|]; [done| |].
  - split; [done|]. destruct Hc as [->| ->]; [done|]. right. exists active. split; [done|]. by left.
  - intros ? [= <-]. left. by rewrite <-Ht in Hw.
Qed.

Lemma next_drift_staged now active o : last_written o = Some active → ∃ delay after, next_drift now active o = with_drift delay after o.
Proof. intros Hw. unfold next_drift, stage_write. cbn. rewrite bool_decide_eq_true_2 by done. eauto. Qed.

Lemma ds_repair now top o j actual : file j = Some o → list.last (owners j) = Some top →
  ds (fun j' f => actual = f !! FILE ∧ j' = j ∧ Inv j' f ∧ Tidy j') (repair_file self now top o actual)
    (fun _ j' f => Inv j' f ∧ owners j' = owners j ∧ is_Some (f !! FILE) ∧ f !! FILE = top_body j') (fun _ => Left).
Proof.
  intros Ho Htop. unfold repair_file. set (active := file_body (ow_dns top)).
  assert (top_body j = Some active) as Htb by (unfold top_body; by rewrite Htop).
  case_bool_decide as Ha; [apply dspec_ret; intros j' f (Hf & -> & Hi & _); by rewrite Htb, <-Hf, Ha|].
  destruct (now <? drift_after_ms o); [apply dspec_err; intros j' f (_ & _ & Hi & _); by eapply inv_left|].
  apply (dspec_pure _ _ (last_written o = Some active)); [intros j' f (_ & -> & _ & _ & _ & Ht); by rewrite (Ht o Ho)|]. intros Hw.
  destruct (next_drift_staged now active o Hw) as (delay & after & Hd). set (k := with_file (Some (with_drift delay after o)) j).
  assert (∀ c c', Sound j c → (c' = c ∨ c' = Some active) → Sound k c') as Hk by (intros c c'; by apply drifted_sound).
  eapply dspec_bind; [apply (dspec_modify _ _ _ (fun _ k' f => k' = k ∧ Inv j f)); intros j' f (_ & -> & Hi & _); rewrite Ho; cbn; by rewrite Hd|intros u].
  eapply dspec_bind.
  { apply (dspec_save _ _ _ (fun _ k' f => k' = k ∧ ∃ g, Inv j g ∧ f = <[state_path rt := to_text k]> g)); intros k' f (-> & Hi); [eauto|].
    split; [by eapply inv_left|]. destruct Hi as (_ & Hb & Hs & _). apply left_save; eauto. }
  intros u1. apply dspec_get. intros k'. apply (dspec_pure _ _ (k' = k ∧ Baseline (with_drift delay after o))).
  { intros j' f (-> & -> & g & (_ & _ & [[_ Hb] _] & _) & _). rewrite Ho in Hb. by destruct Hb as [[] _]. }
  intros [-> Hba]. change (file k) with (Some (with_drift delay after o)). apply dspec_host. intros k'.
  apply (hs_replace _ _ (Some active) (fun f => Inv k' f ∧ owners k' = owners j ∧ is_Some (f !! FILE) ∧ f !! FILE = top_body k')); [done|..];
    intros f (-> & _ & g & (_ & Hb & Hs & Hal) & ->); [|split; intros Hst; exists k].
  - rewrite put_file_eq. change (top_body k) with (top_body j). rewrite Htb. split; [|done].
    split_and!; [apply recorded_put; [done|apply recorded_save]|eapply booted_put; [exact HL|by eapply booted_save]| |]; rewrite put_file_eq; [eauto|].
    intros Hst. destruct (Hal Hst) as (Hf & Hp & _). split_and!; [done|done|]. intros ? [= <-]. by right.
  - split_and!; [apply recorded_save|by eapply booted_save|]. rewrite file_save by done. eauto.
  - split_and!; [apply recorded_put; [done|apply recorded_save]|eapply booted_put; [exact HL|by eapply booted_save]|]. rewrite put_file_eq. eauto.
Qed.

Lemma hs_read_original (P : gmap string string → Prop) process : (under_run (TARGET v rs) = true → boot_id process = boot) → (∀ f, P f → f !! FILE = orig) →
  hs P (read_original rs process) (fun o f => P f ∧ Baseline o ∧ last_written o = None) P.
Proof.
  intros Hp HP. unfold read_original. eapply hspec_bind; [apply hspec_target, HL|]. intros t. destruct (managed_target t); [apply hspec_lift; [done|done|by intros f []]|].
  eapply hspec_bind; [apply (hspec_read v _ _ (fun c f => P f ∧ t = TARGET v rs ∧ c = f !! path_text t)); [by intros f [? ->]|by intros f []]|]. intros c.
  destruct (nm_generated c); [apply hspec_lift; [done|done|by intros f []]|].
  eapply hspec_bind; [eapply hspec_weaken; [apply (hspec_link v (fun f => P f ∧ t = TARGET v rs ∧ c = f !! path_text t))|done|done|by intros f []]|].
  intros l. apply hspec_ret. intros f ((Hq & -> & ->) & ->). split; [done|]. split; [|done]. split; cbn; [done|done|by apply HP|done].
Qed.

Lemma tidy_takeable j o f : Inv j f → Tidy j → file j = Some o → Takeable j f.
Proof.
  intros Hi (Hp & _ & _) Ho. split_and!; [apply Hi|by eapply inv_left|by destruct Hi as (_ & _ & [[? _] _] & _)|done|].
  exists o. destruct Hi as (_ & _ & [[_ Hk] _] & Ha). rewrite Ho in Hk. split_and!; [done|by destruct Hk|]. intros Hst. destruct (Ha Hst) as (Hf & _ & Hc). auto.
Qed.
Lemma fresh_takeable j o f : Inv j f → Tidy j → file j = None → Baseline o → last_written o = None → Takeable (with_file (Some o) j) f.
Proof.
  intros Hi (Hp & _ & _) Ho Hba Hw. split_and!; [apply Hi|by eapply inv_left|by destruct Hi as (_ & _ & [[? _] _] & _)|done|].
  exists o. split_and!; [done|done|]. destruct Hi as (_ & _ & [[_ Hk] _] & _). rewrite Ho in Hk. destruct Hk as (Hn & _ & Hc). cbn. rewrite Hn. auto.
Qed.

(** With the file on record: set, or left to its top owner. *)
Lemma ds_set_recorded dns process now j o (P : Journal → gmap string string → Prop) : file j = Some o → Baseline o →
  (∀ j' f, P j' f → j' = j ∧ Takeable j f ∧ (owners j ≠ [] → Inv j f ∧ Tidy j)) →
  ds P (if managed_target (o_target o) then lift (Err (fallback_error "enable systemd-resolved or configure DNS manually"))
        else
          on_host (read_bytes (o_target o)) ≫= fun actual =>
          if nm_generated actual then lift (Err (fallback_error "NetworkManager-generated resolver file; enable systemd-resolved or configure DNS manually"))
          else if existsb (fun w => bool_decide (ow_iface w = i) && bool_decide (ow_dns w = dns)) (owners j) then
            match list.last (owners j) with Some top => repair_file self now top o actual | None => take_file self dns process end
          else take_file self dns process)
    (fun _ j f => Inv j f ∧ Served dns j f) (fun _ => Left).
Proof.
  intros Ho Hba HP. assert (∀ j' f, P j' f → Left f) as Hl by (intros j' f Hp; by destruct (HP _ _ Hp) as (_ & (_ & ? & _) & _)).
  destruct (managed_target _); [by apply dspec_err|]. eapply dspec_bind.
  { apply (dspec_host _ _ _ (fun a j' f => a = f !! FILE ∧ P j' f)). intros j'. unfold read_bytes. rewrite (ba_target _ _ _ _ _ Hba). apply hspec_read; [done|eauto]. }
  intros actual. destruct (nm_generated actual); [apply dspec_err; intros j' f [_ ?]; eauto|].
  assert (ds (fun j' f => actual = f !! FILE ∧ P j' f) (take_file self dns process) (fun _ j f => Inv j f ∧ Served dns j f) (fun _ => Left)) as Htake.
  { eapply dspec_weaken; [apply ds_take| |done|done]. intros j' f [_ Hp]. by destruct (HP _ _ Hp) as (-> & ? & _). }
  destruct (existsb _ _) eqn:He; [|done]. destruct (list.last (owners j)) as [top|] eqn:Htop; [|done].
  apply existsb_exists in He as (w & Hw%list_elem_of_In & [Hi Hd]%andb_true_iff). apply bool_decide_eq_true in Hi, Hd.
  eapply dspec_weaken; [apply (ds_repair now top o j actual Ho Htop)| | |done].
  - intros j' f [-> Hp]. destruct (HP _ _ Hp) as (-> & _ & Hi'). destruct Hi'; [|done]. intros Hn. by rewrite Hn in Htop.
  - intros _ j' f (Hi' & How & Hs & Hb). split; [done|]. split_and!; [done|done|]. exists w. by rewrite How.
Qed.

Lemma ds_set_file dns process now : (under_run (TARGET v rs) = true → boot_id process = boot) →
  ds (fun j f => Inv j f ∧ Tidy j) (set_file self dns process now) (fun _ j f => Inv j f ∧ Served dns j f) (fun _ => Left).
Proof.
  intros Hp. unfold set_file. apply dspec_get. intros j. cbn [resolv].
  assert (∀ j' f, j' = j ∧ Inv j' f ∧ Tidy j' → Left f) as Hl by (intros j' f (_ & Hi & _); by eapply inv_left).
  destruct (file j) as [o|] eqn:Ho.
  - apply (dspec_pure _ _ (Baseline o)). { intros j' f (-> & (_ & _ & [[_ Hk] _] & _) & _). rewrite Ho in Hk. by destruct Hk. } intros Hba.
    eapply (dspec_bind v _ _ _ (fun _ j' f => j' = j ∧ Inv j' f ∧ Tidy j')).
    { eapply dspec_bind; [apply dspec_host; intros j'; eapply hspec_weaken; [apply (hs_same_target (fun f => j' = j ∧ Inv j' f ∧ Tidy j') o Hba)|done|intros a f Hq; exact Hq|apply Hl]|].
      intros b. apply (dspec_pure _ _ (b = true)); [by intros j' f [_ ->]|]. intros ->. by apply dspec_ret; intros j' f [? _]. }
    intros u. apply dspec_get. intros j1. apply (dspec_pure _ _ (j1 = j)); [by intros j' f (-> & -> & _)|]. intros ->. rewrite Ho.
    eapply dspec_bind; [apply (dspec_ret v _ tt (fun _ j' f => j' = j ∧ Inv j' f ∧ Tidy j')); by intros j' f [_ ?]|intros u1].
    apply dspec_get. intros j1. apply (dspec_pure _ _ (j1 = j)); [by intros j' f (-> & -> & _)|]. intros ->. rewrite Ho.
    apply (ds_set_recorded dns process now j o); [done|done|]. intros j' f (-> & _ & Hi & Ht). split_and!; [done|by eapply tidy_takeable|done].
  - eapply dspec_bind; [by apply (dspec_ret v _ tt (fun _ j' f => j' = j ∧ Inv j' f ∧ Tidy j'))|intros u].
    apply dspec_get. intros j1. apply (dspec_pure _ _ (j1 = j)); [by intros j' f (-> & -> & _)|]. intros ->. rewrite Ho.
    eapply (dspec_bind v _ _ _ (fun _ j' f => ∃ o, j' = with_file (Some o) j ∧ Baseline o ∧ last_written o = None ∧ Inv j f ∧ Tidy j)).
    { eapply dspec_bind; [apply dspec_host; intros j'; eapply hspec_weaken; [apply (hs_read_original (fun f => j' = j ∧ Inv j' f ∧ Tidy j') process Hp)| |intros a f Hq; exact Hq|apply Hl]|].
      - intros f (-> & (_ & _ & [[_ Hk] _] & _) & _). rewrite Ho in Hk. by destruct Hk as (_ & _ & ?).
      - by intros f [_ ?].
      - intros o. apply dspec_put. intros j' f ((-> & Hi & Ht) & Hba & Hw). by exists o. }
    intros u1. apply dspec_get. intros j1. apply (dspec_pure _ _ (owners j = [] ∧ ∃ o, j1 = with_file (Some o) j ∧ Baseline o ∧ last_written o = None)).
    { intros j' f (-> & o & -> & Hba & Hw & (_ & _ & [[_ Hk] _] & _) & _). rewrite Ho in Hk. destruct Hk as [? _]. eauto 6. }
    intros (Hn & o & -> & Hba & Hw). change (file (with_file (Some o) j)) with (Some o).
    apply (ds_set_recorded dns process now (with_file (Some o) j) o); [done|done|]. intros j' f (-> & o' & Heq & _ & _ & Hi & Ht).
    split_and!; [done|by apply fresh_takeable|]. intros Hne. by destruct Hne.
Qed.

(** ** The link of the interface *)

Lemma ds_set_link (P : Journal → gmap string string → Prop) servers full : ds P (set_link self servers full) (fun _ => P) P.
Proof.
  unfold set_link. apply dspec_get. intros j. eapply dspec_bind; [apply dspec_host; intros j'; eapply hspec_weaken; [apply (hs_resolved_set (P j'))|by intros f [_ ?]|intros a f Hq; exact Hq|done]|].
  intros u. apply dspec_host. intros j'. apply hs_resolved_set.
Qed.

Lemma ds_save_link process : ds (fun j f => Inv j f ∧ Tidy j) (save_link self process) (fun _ j f => Inv j f ∧ Tidy j) (fun _ => Left).
Proof.
  unfold save_link. apply dspec_get. intros j. cbn [iface]. destruct (resolved j !! i); [by apply dspec_ret; intros j' f [_ ?]|].
  assert (∀ j' f, Inv j' f ∧ Tidy j' → Left f) as Hl by (intros j' f [Hi _]; by eapply inv_left).
  eapply (dspec_try v _ _ _ (fun _ j f => Inv j f ∧ Tidy j) (fun j f => Inv j f ∧ Tidy j)).
  - apply dspec_host. intros j'. unfold query. eapply hspec_bind; [eapply hspec_weaken; [apply (hspec_resolvectl v (fun f => Inv j' f ∧ Tidy j'))|by intros f [_ ?]|intros a f Hq; exact Hq|done]|].
    intros t. eapply hspec_bind; [apply hspec_resolvectl|]. intros t1. by apply hspec_ret.
  - intros [dns domains]. assert (∀ t, resolved_values t ≠ Panic) as Hv by (intros t; unfold resolved_values; by destruct (split_once _ _) as [[]|]).
    eapply dspec_bind; [apply (dspec_lift v _ _ (fun _ j f => Inv j f ∧ Tidy j)); [apply Hv|done|apply Hl]|]. intros l1.
    eapply dspec_bind; [apply (dspec_lift v _ _ (fun _ j f => Inv j f ∧ Tidy j)); [apply Hv|done|apply Hl]|]. intros l2.
    eapply dspec_bind; [apply (dspec_modify _ _ _ (fun _ j f => Inv j f ∧ Tidy j)); by intros j' f []|intros u].
    eapply (dspec_bind v _ _ _ (fun _ j f => Inv j f ∧ Tidy j)); [|intros u1; by apply dspec_ret]. apply dspec_save; intros j' f [Hi Ht].
    + destruct Hi as (_ & Hb & Hs & Ha). split; [by apply inv_save|done].
    + split; [by eapply inv_left|]. destruct Hi as (_ & Hb & Hs & _). by apply left_save.
  - intros e. case_if; [by apply dspec_ret|]. by apply dspec_err.
Qed.

Lemma ds_clear_link : ds (fun j f => Inv j f ∧ Tidy j) (clear_link self) (fun _ j f => Inv j f ∧ Tidy j) (fun j f => Inv j f ∧ Tidy j).
Proof.
  unfold clear_link. apply dspec_get. intros j. cbn [iface]. destruct (resolved j !! i) as [saved|]; [|by apply dspec_ret; intros j' f [_ ?]].
  apply ds_both. intros r1 r2. eapply dspec_bind; [apply (dspec_lift v _ _ (fun _ j f => Inv j f ∧ Tidy j)); [apply all_safe|by intros a j' f _ [_ ?]|by intros j' f [_ ?]]|].
  intros u. by apply ds_save_links.
Qed.

(** ** Leaving the file *)

Definition Gone j : Prop := ¬ (i ∈ ow_iface <$> owners j) ∧ (owners j = [] → file j = None).

Lemma list_find_iface l k w : list_find (fun w => ow_iface w = i) l = Some (k, w) → NoDup (ow_iface <$> l) → ¬ (i ∈ ow_iface <$> delete k l).
Proof.
  intros (Hk & Hw & _)%list_find_Some Hn Hin. rewrite list_fmap_delete in Hin. apply list_elem_of_lookup in Hin as [m Hm].
  pose proof (list_lookup_fmap ow_iface l k) as Hf. rewrite Hk in Hf. cbn in Hf. rewrite Hw in Hf.
  destruct (decide (m < k)%nat) as [Hlt|Hge].
  - rewrite list_lookup_delete_lt in Hm by done. pose proof (NoDup_lookup _ _ _ _ Hn Hm Hf). lia.
  - rewrite list_lookup_delete_ge in Hm by lia. pose proof (NoDup_lookup _ _ _ _ Hn Hm Hf). lia.
Qed.

Lemma last_delete {A} (l : list A) k : (k + 1 < length l)%nat → list.last (delete k l) = list.last l.
Proof.
  intros Hk. assert (is_Some (l !! k)) as [x Hx] by (apply lookup_lt_is_Some; lia).
  rewrite !last_lookup, length_delete by eauto. rewrite list_lookup_delete_ge by lia. f_equal. lia.
Qed.

(** One that is not the top leaves the file alone. *)
Lemma left_sound j c k w : Sound j c → Tidy j → owners j !! k = Some w → (k + 1 ≠ length (owners j))%nat →
  Sound (with_owners (delete k (owners j)) j) c ∧ (Alone j c → Alone (with_owners (delete k (owners j)) j) c).
Proof.
  intros [[Hn Hk] Hl] (Hp & _ & Ht) Hw Hne. pose proof (lookup_lt_Some _ _ _ Hw) as Hlt.
  assert (top_body (with_owners (delete k (owners j)) j) = top_body j) as Htop by (unfold top_body; cbn; rewrite last_delete; [done|lia]).
  split; [split; [split|]|].
  - cbn. eapply names_sublist; [exact Hn|]. apply sublist_delete.
  - cbn. destruct (file j); [done|]. destruct Hk as [Hk _]. by rewrite Hk in Hw.
  - intros o Ho. rewrite Htop. auto.
  - intros (Hf & _ & Hc). split_and!; [|by cbn; rewrite Hp|done]. by apply Forall_delete.
Qed.

Lemma ds_clear_file : ds (fun j f => Inv j f ∧ Tidy j) (clear_file self) (fun _ j f => Inv j f ∧ Gone j) (fun _ => Left).
Proof.
  unfold clear_file. apply dspec_get. intros j. cbn [iface].
  destruct (list_find _ (owners j)) as [[k w]|] eqn:Hfind.
  2:{ apply dspec_ret. intros j' f (-> & Hi & Ht). split; [done|]. split; [|by destruct Ht as (_ & ? & _)].
      apply list_find_None in Hfind. intros (w & Hw & Hin)%list_elem_of_fmap. rewrite list.Forall_forall in Hfind. by apply (Hfind w Hin). }
  pose proof Hfind as (Hw & Hiw & _)%list_find_Some. set (j1 := with_owners (delete k (owners j)) j).
  apply (dspec_pure _ _ (¬ (i ∈ ow_iface <$> owners j1) ∧ ∃ o, file j = Some o)).
  { intros j' f (-> & (_ & _ & [[Hn Hk] _] & _) & _). split; [by eapply list_find_iface; [|apply Hn]|]. destruct (file j) as [o|]; [eauto|]. destruct Hk as [Hk _]. by rewrite Hk in Hw. }
  intros [Hgone [o Ho]].
  eapply dspec_bind; [apply (dspec_modify _ _ _ (fun _ j' f => j' = j1 ∧ Inv j f ∧ Tidy j)); by intros j' f [-> ?]|intros u].
  eapply (dspec_bind v _ _ _ (fun _ j' f => Booted f ∧ Left f ∧ Sound j' (f !! FILE) ∧ (s = true → Alone j' (f !! FILE)) ∧ Gone j')).
  - destruct (Nat.eqb_spec (k + 1) (length (owners j))) as [He|He].
    + eapply dspec_try; [eapply dspec_weaken; [apply (ds_restore (delete k (owners j)))| |intros a j' f Hq; exact Hq|intros j' f Hq; exact Hq]| |].
      * intros j' f (-> & Hi & Ht). pose proof Hi as (Hr & Hb & Hs & Ha). split_and!; [done|done| |by intros Hf; cbn in Hf; rewrite Ho in Hf|].
        -- destruct Hs as [[Hn Hk] _]. split; [cbn; eapply names_sublist; [exact Hn|]; apply sublist_delete|]. cbn. rewrite Ho in *. done.
        -- intros Hst. pose proof (alone_short _ _ Hs (Ha Hst)). split; [|by exists j]. apply nil_length_inv. cbn. rewrite length_delete by eauto. lia.
      * intros a. apply dspec_ret. intros j' f (Hi & Ht & Hsub). pose proof (inv_left _ _ _ _ _ _ _ _ _ _ Hi) as Hl. destruct Hi as (_ & Hb & Hs & Ha).
        split_and!; try done. split; [|by destruct Ht as (_ & ? & _)]. intros (x & Hx & Hin)%list_elem_of_fmap. apply Hgone. rewrite Hx. by apply list_elem_of_fmap_2, Hsub.
      * intros e. eapply dspec_bind; [apply (dspec_modify _ _ _ (fun _ _ => Left)); done|intros u1]. by apply dspec_err.
    + apply dspec_ret. intros j' f (-> & Hi & Ht). pose proof (inv_left _ _ _ _ _ _ _ _ _ _ Hi) as Hl. destruct Hi as (_ & Hb & Hs & Ha).
      destruct (left_sound j _ k w Hs Ht Hw He) as [Hs1 Ha1]. split_and!; try done; [auto|]. split; [done|]. cbn. intros Hnil%(f_equal length). rewrite length_delete in Hnil by eauto.
      pose proof (lookup_lt_Some _ _ _ Hw). cbn in Hnil. lia.
  - intros u1. apply dspec_save; intros j' f (Hb & Hl & Hs & Ha & Hg); [split; [by apply inv_save|done]|]. split; [done|]. by apply left_save.
Qed.

(** ** Whole methods *)

Abbreviation Disk f := (∃ j, Inv j f).

Lemma disk_frame j f g : (∀ q, q ≠ lock_path rt → g !! q = f !! q) → Inv j f → Inv j g.
Proof.
  intros Hg (Hr & Hb & Hs & Ha). destruct (la_lock _ _ _ HL) as [H1 H2], (la_boot _ _ _ HL) as (_ & _ & H3). split_and!.
  - eapply recorded_file; [|exact Hr]. by apply Hg.
  - eapply booted_file; [|exact Hb]. by apply Hg.
  - by rewrite Hg.
  - by rewrite Hg.
Qed.

Lemma hs_open_lock (P : gmap string string → Prop) : (∀ f g, (∀ q, q ≠ lock_path rt → g !! q = f !! q) → P f → P g) →
  hs P (of_option (open_lock (lock_path rt))) (fun _ => P) P.
Proof.
  intros HP h r h' [Hv Hp]. unfold of_option. pose proof (open_lock_kernel (lock_path rt) h) as Hk. pose proof (open_lock_files (lock_path rt) h) as Hf.
  destruct (open_lock _ h) as [[e|] h1]; intros [= <- <-]; cbn in *; rewrite Hk; split; [done| |done|]; by eapply HP.
Qed.

Lemma hs_create_dir (P : gmap string string → Prop) p : hs P (of_option (create_dir_all p)) (fun _ => P) P.
Proof.
  intros h r h' [Hv Hp]. unfold of_option. pose proof (create_dir_view p h) as [Hf Hk].
  destruct (create_dir_all _ h) as [[e|] h1]; intros [= <- <-]; cbn in *; by rewrite Hk, Hf.
Qed.

Lemma hs_open : hs (fun f => Disk f) (open_journal rt) (fun j f => Inv j f) Left.
Proof.
  assert (∀ f, Disk f → Left f) as Hl by (intros f [j Hi]; by eapply inv_left).
  unfold open_journal. eapply hspec_bind; [eapply hspec_weaken; [apply (hs_create_dir (fun f => Disk f))|done|intros a f Hq; exact Hq|done]|intros u].
  eapply hspec_bind; [eapply hspec_weaken; [apply (hs_open_lock (fun f => Disk f))|done|intros a f Hq; exact Hq|done]|intros u1].
  { intros f g Hg [j Hi]. exists j. by eapply disk_frame. }
  eapply hspec_bind; [eapply hspec_weaken; [exact (spec_wait_lock (fun f x => places x = v ∧ Disk f) _)|done|intros a f Hq; exact Hq|done]|intros u2].
  eapply hspec_bind; [apply (hspec_read v _ _ (fun w f => w = f !! state_path rt ∧ Disk f)); [done|done]|intros w].
  apply hspec_lift; [destruct w as [d|]; [|done]; cbn; by destruct (of_text d)| |by intros f [_ ?]; auto].
  intros j f Hj (-> & j0 & Hi). pose proof Hi as ([r Hr] & _). rewrite Hr in Hj. injection Hj as <-. done.
Qed.

Lemma hs_locked {A} (m : st (Journal * H) ApplyError A) (Q : A → gmap string string → Prop) :
  ds Inv m (fun a _ => Q a) (fun _ => Left) → hs (fun f => Disk f) (with_lock rt m) Q Left.
Proof.
  intros Hm. unfold with_lock. eapply hspec_bind; [apply hs_open|]. intros j h r h' [Hv Hi].
  destruct (m (j, h)) as [y [j1 h1]] eqn:Hy. specialize (Hm (j, h) y (j1, h1) (conj Hv Hi) Hy). by intros [= <- <-].
Qed.

Lemma hs_set_mode id now dns full :
  hs (fun f => Disk f) (set_mode_with self id now dns full) (fun _ f => ∃ j, Inv j f ∧ (pref = false → Served (split_whitespace dns) j f)) Left.
Proof.
  assert (∀ f, Disk f → Left f) as Hl by (intros f [j Hi]; by eapply inv_left).
  unfold set_mode_with. destruct (valid_servers _); cbn [negb]; [|by apply hspec_lift].
  eapply hspec_bind; [eapply hspec_weaken; [apply (hs_current (fun f => Disk f))|done|intros a f Hq; exact Hq|done]|]. { intros f [j Hi]. apply Hi. }
  intros process. apply (spec_pure _ (under_run (TARGET v rs) = true → boot_id process = boot)); [by intros f x (_ & _ & ?)|]. intros Hp.
  eapply hspec_weaken; [apply hs_locked|by intros f [? _]|intros a f Hq; exact Hq|done].
  eapply dspec_bind; [by apply ds_prune|intros u]. apply dspec_get. intros j. cbn [prefer_resolved].
  assert (∀ P, (∀ j' f, P j' f → Inv j' f ∧ Tidy j') →
    ds P (set_file self (split_whitespace dns) process now) (fun _ _ f => ∃ j, Inv j f ∧ (pref = false → Served (split_whitespace dns) j f)) (fun _ => Left)) as Hset.
  { intros P HP. eapply dspec_weaken; [by apply ds_set_file|done|by intros a j' f []; eauto|done]. }
  destruct (negb pref || _) eqn:Hx; [by apply Hset; intros j' f [_ ?]|]. apply orb_false_iff in Hx as [Hpref%negb_false_iff _].
  eapply dspec_bind; [eapply dspec_weaken; [apply ds_save_link|by intros j' f [_ ?]|intros a j' f Hq; exact Hq|done]|]. intros [|]; cbn [negb]; [|by apply Hset].
  eapply dspec_try; [apply (ds_set_link (fun j f => Inv j f ∧ Tidy j))|intros u1; apply dspec_ret; intros j' f [Hi _]; exists j'; split; [done|congruence]|].
  intros e. case_if; [by apply Hset|]. apply dspec_err. intros j' f [Hi _]. by eapply inv_left.
Qed.

(** With the lock, the process and the expired owners gone. *)
Lemma hs_tidied {A} id (m : Process → st (Journal * H) ApplyError A) (Q : A → gmap string string → Prop) :
  (∀ p, (under_run (TARGET v rs) = true → boot_id p = boot) → ds (fun j f => Inv j f ∧ Tidy j) (m p) (fun a _ => Q a) (fun _ => Left)) →
  hs (fun f => Disk f) (with_lock rt (on_host (current_process id) ≫= fun p => prune self p ≫= fun _ => m p)) Q Left.
Proof.
  intros Hm. apply hs_locked. eapply dspec_bind.
  { apply (dspec_host _ _ _ (fun p j f => Inv j f ∧ (under_run (TARGET v rs) = true → boot_id p = boot))). intros j.
    eapply hspec_weaken; [apply (hs_current (Inv j))|done|done|intros f; by apply inv_left]. intros f Hi. apply Hi. }
  intros p. apply (dspec_pure _ _ (under_run (TARGET v rs) = true → boot_id p = boot)); [by intros j f [_ ?]|]. intros Hp.
  eapply dspec_bind; [eapply dspec_weaken; [by apply ds_prune|by intros j f [? _]|intros a j f Hq; exact Hq|done]|]. intros u. by apply Hm.
Qed.

Lemma hs_verify id now : hs (fun f => Disk f) (verify_file_with self id now) (fun _ f => Disk f) Left.
Proof.
  assert (∀ f, Disk f → Left f) as Hl by (intros f [j Hi]; by eapply inv_left).
  unfold verify_file_with. eapply hspec_bind; [apply (hspec_read v _ _ (fun _ f => Disk f)); [done|done]|]. intros [d|]; [|by apply hspec_ret].
  eapply hspec_bind; [apply (hspec_lift v _ _ (fun _ f => Disk f)); [by destruct (of_text d)|done|done]|]. intros j0.
  case_if; [by apply hspec_ret|]. apply hs_tidied. intros p Hp. apply dspec_get. intros j.
  destruct (List.find _ _) as [w|]; [|apply dspec_ret; intros j' f (_ & ? & _); eauto].
  eapply dspec_weaken; [by apply ds_set_file|by intros j' f [_ ?]|intros a j' f [? _]; eauto|done].
Qed.

Lemma hs_clear id : hs (fun f => Disk f) (clear_with self id) (fun _ f => ∃ j, Inv j f ∧ Gone j) Left.
Proof.
  assert (∀ f, Disk f → Left f) as Hl by (intros f [j Hi]; by eapply inv_left).
  unfold clear_with. eapply hspec_bind; [apply (hspec_read v _ _ (fun w f => w = f !! state_path rt ∧ Disk f)); [done|done]|].
  intros [d|]; [|apply hspec_ret; intros f (Hn & j & Hi)].
  2:{ exists j. split; [done|]. destruct Hi as ([r Hr] & _). cbn [root] in Hr. rewrite <-Hn in Hr. injection Hr as Hr. unfold Gone. destruct j; cbn in *. simplify_eq. split; [set_solver|done]. }
  eapply hspec_weaken; [apply hs_tidied|by intros f [_ ?]|intros a f Hq; exact Hq|done]. intros p Hp.
  assert (∀ r1, ds (fun j f => Inv j f ∧ Tidy j) ((attempt (clear_file self) : st (Journal * H) ApplyError ApplyResult) ≫= fun r2 => lift (all [r1; r2]))
    (fun _ _ f => ∃ j, Inv j f ∧ Gone j) (fun _ => Left)) as Hfile.
  { intros r1. eapply dspec_try; [apply ds_clear_file|intros u|intros e]; (apply dspec_lift; [apply all_safe|..]).
    - intros a j f _ Hi. by exists j.
    - intros j f [Hi _]. by eapply inv_left.
    - intros [] j f Hall _. apply all_ok in Hall. rewrite !list.Forall_cons in Hall. by destruct Hall as (_ & ? & _).
    - done. }
  eapply (dspec_try v _ _ _ (fun _ j f => Inv j f ∧ Tidy j) (fun j f => Inv j f ∧ Tidy j)); [apply ds_clear_link|intros u|intros e]; apply Hfile.
Qed.
End Methods.
