(* ===== verification/DnsSim.v ===== *)
(** * A simulated host with a resolver file

    The host of [HostSim] with a clock, directories and no links, where [resolvectl] is not
    installed; and a text of the journal.  It satisfies the laws of [DnsSpec]. *)

From Stdlib Require Import Strings.Ascii Strings.String.
From stdpp Require Import countable.
From S2P Require Import Prelude.
From S2P Require Import Words.
From S2P Require Import NetText.
From S2P Require Import Prefix.
From S2P Require Import Apply.
From S2P Require Import HostRun.
From S2P Require Import HostSim.
From S2P Require Import DnsFile.
From S2P Require Import DnsSpec.

(** ** A text of the journal *)

Abbreviation tree := (gen_tree (string + Z)).
Class Tree (A : Type) := { to_tree : A → tree; of_tree : tree → option A }.
Class TreeLaws (A : Type) `{!Tree A} : Prop := of_to_tree : ∀ a : A, of_tree (to_tree a) = Some a.

#[export] Instance string_tree : Tree string := {| to_tree s := GenLeaf (inl s); of_tree t := match t with GenLeaf (inl s) => Some s | _ => None end |}.
#[export] Instance string_tree_laws : TreeLaws string.
Proof. done. Qed.
#[export] Instance Z_tree : Tree Z := {| to_tree z := GenLeaf (inr z); of_tree t := match t with GenLeaf (inr z) => Some z | _ => None end |}.
#[export] Instance Z_tree_laws : TreeLaws Z.
Proof. done. Qed.
#[export] Instance bool_tree : Tree bool :=
  {| to_tree b := GenNode (match b with true => 1%nat | false => 0%nat end) []; of_tree t := match t with GenNode 1 [] => Some true | GenNode 0 [] => Some false | _ => None end |}.
#[export] Instance bool_tree_laws : TreeLaws bool.
Proof. by intros []. Qed.
#[export] Instance option_tree {A} `{!Tree A} : Tree (option A) :=
  {| to_tree o := GenNode 0 (match o with Some a => [to_tree a] | None => [] end);
     of_tree t := match t with GenNode 0 [] => Some None | GenNode 0 [t] => Some <$> of_tree t | _ => None end |}.
#[export] Instance option_tree_laws {A} `{!Tree A} `{!TreeLaws A} : TreeLaws (option A).
Proof. intros [a|]; cbn; [by rewrite of_to_tree|done]. Qed.
#[export] Instance list_tree {A} `{!Tree A} : Tree (list A) :=
  {| to_tree l := GenNode 0 (to_tree <$> l); of_tree t := match t with GenNode 0 l => mapM of_tree l | _ => None end |}.
#[export] Instance list_tree_laws {A} `{!Tree A} `{!TreeLaws A} : TreeLaws (list A).
Proof. intros l. induction l as [|a l IH]; cbn in *; [done|]. by rewrite of_to_tree, IH. Qed.
#[export] Instance prod_tree {A C} `{!Tree A} `{!Tree C} : Tree (A * C) :=
  {| to_tree x := GenNode 0 [to_tree x.1; to_tree x.2];
     of_tree t := match t with GenNode 0 [t; u] => a ← of_tree t; c ← of_tree u; Some (a, c) | _ => None end |}.
#[export] Instance prod_tree_laws {A C} `{!Tree A} `{!Tree C} `{!TreeLaws A} `{!TreeLaws C} : TreeLaws (A * C).
Proof. intros [a c]. cbn. by rewrite of_to_tree; cbn; rewrite of_to_tree. Qed.
#[export] Instance gmap_tree {A} `{!Tree A} : Tree (gmap string A) :=
  {| to_tree m := to_tree (A:=list (string * A)) (map_to_list m); of_tree t := list_to_map <$> of_tree (A:=list (string * A)) t |}.
#[export] Instance gmap_tree_laws {A} `{!Tree A} `{!TreeLaws A} : TreeLaws (gmap string A).
Proof. intros m. cbn [of_tree to_tree gmap_tree]. rewrite of_to_tree. cbn. by rewrite list_to_map_to_list. Qed.

(** By way of a tuple. *)
Definition tree_by {A C} `{!Tree A} (f : C → A) (g : A → C) : Tree C := {| to_tree c := to_tree (f c); of_tree t := g <$> of_tree t |}.
Lemma tree_by_laws {A C} `{!Tree A} `{!TreeLaws A} (f : C → A) (g : A → C) : (∀ c, g (f c) = c) → @TreeLaws C (tree_by f g).
Proof. intros Hg c. change (g <$> of_tree (A:=A) (to_tree (f c)) = Some c). rewrite of_to_tree. cbn. by rewrite Hg. Qed.

#[export] Instance Process_tree : Tree Process :=
  tree_by (fun p => (pid p, start_time p, boot_id p)) (fun '(a, b, c) => mkProcess a b c).
#[export] Instance Process_tree_laws : TreeLaws Process.
Proof. apply tree_by_laws. by intros []. Qed.
#[export] Instance Resolved_tree : Tree Resolved :=
  tree_by (fun p => (r_dns p, r_domains p, r_process p)) (fun '(a, b, c) => mkResolved a b c).
#[export] Instance Resolved_tree_laws : TreeLaws Resolved.
Proof. apply tree_by_laws. by intros []. Qed.
#[export] Instance Path_tree : Tree Path :=
  tree_by (fun p => (rooted p, comps p)) (fun '(a, b) => mkPath a b).
#[export] Instance Path_tree_laws : TreeLaws Path.
Proof. apply tree_by_laws. by intros []. Qed.
#[export] Instance Owner_tree : Tree Owner :=
  tree_by (fun p => (ow_iface p, ow_dns p, ow_process p)) (fun '(a, b, c) => mkOwner a b c).
#[export] Instance Owner_tree_laws : TreeLaws Owner.
Proof. apply tree_by_laws. by intros []. Qed.
#[export] Instance OriginalFile_tree : Tree OriginalFile :=
  tree_by (fun o => (o_target o, o_bytes o, o_link o, o_boot o, last_written o, previous_written o, drift_delay o, drift_after_ms o)) (fun '(a, b, c, d, e, f, g, h) => mkOriginal a b c d e f g h).
#[export] Instance OriginalFile_tree_laws : TreeLaws OriginalFile.
Proof. apply tree_by_laws. by intros []. Qed.
#[export] Instance Journal_tree : Tree Journal :=
  tree_by (fun j => (resolved j, file j, owners j, restore_pending j)) (fun '(a, b, c, d) => mkJournal a b c d).
#[export] Instance Journal_tree_laws : TreeLaws Journal.
Proof. apply tree_by_laws. by intros []. Qed.

Fixpoint bits (p : positive) : string := match p with xH => "" | xO p => String "0" (bits p) | xI p => String "1" (bits p) end.
Fixpoint of_bits (s : string) : positive :=
  match s with EmptyString => 1 | String c s => if Ascii.eqb c "1" then (of_bits s)~1 else (of_bits s)~0 end%positive.
Lemma of_bits_inv p : of_bits (bits p) = p.
Proof. induction p as [p IH|p IH|]; cbn; rewrite ?IH; done. Qed.

#[export] Instance journal_serde : Serde Journal :=
  {| to_text j := bits (encode (to_tree j)); of_text s := t ← decode (of_bits s); of_tree t |}.
#[export] Instance journal_serde_laws : SerdeLaws Journal.
Proof.
  intros j. change ((decode (of_bits (bits (encode (to_tree j)))) ≫= of_tree) = Some j). rewrite of_bits_inv, decode_encode. exact (of_to_tree j).
Qed.

(** ** The host *)

(** The directories; the commands fail as where [resolvectl] is not installed. *)
#[export] Instance dir_commands : Commands (list string) := fun c _ x => (inr (not_found c), x).

Record dhost := mkDhost { dh_sim : sim (list string); dh_clock : Z }.
Definition on_sim {A} (f : sim (list string) → A * sim (list string)) (h : dhost) : A * dhost :=
  ((f (dh_sim h)).1, mkDhost (f (dh_sim h)).2 (dh_clock h)).
#[export] Instance dhost_os : HostOs dhost :=
  {| exec c i := on_sim (exec c i); read_file p := on_sim (read_file p); read_dir p := on_sim (read_dir p);
     save_file p c := on_sim (save_file p c); remove_file p := on_sim (remove_file p) |}.
#[export] Program Instance dhost_laws : HostLaws dhost (list string) := {| files h := files (dh_sim h); kernel h := kernel (dh_sim h) |}.
Next Obligation. intros. apply exec_files. Qed.
Next Obligation. intros. apply (read_file_view p (dh_sim h)). Qed.
Next Obligation. intros p h. apply (read_file_inl p (dh_sim h)). Qed.
Next Obligation. intros. apply (read_dir_view p (dh_sim h)). Qed.
Next Obligation. intros p h. apply (read_dir_inl p (dh_sim h)). Qed.
Next Obligation. intros. apply (save_kernel p c (dh_sim h)). Qed.
Next Obligation. intros p c h. apply (save_None p c (dh_sim h)). Qed.
Next Obligation. intros p c h. apply (save_Some p c (dh_sim h)). Qed.
Next Obligation. intros. apply (remove_kernel p (dh_sim h)). Qed.
Next Obligation. intros p h. apply (remove_None p (dh_sim h)). Qed.
Next Obligation. intros p h. apply (remove_Some p (dh_sim h)). Qed.

(** Reading the links takes a step of the plan, and so does trying the lock. *)
Definition observe {A} (a : sim (list string) → A + ApplyError) : dhost → (A + ApplyError) * dhost :=
  on_sim (fun x => (match hd Works (sim_plan x) with Works => a x | _ => inr HostSim.io_error end, sim_tick x)).
Definition attempt_lock (x : sim (list string)) : TryLock * sim (list string) :=
  (match hd Works (sim_plan x) with Works => Locked | _ => WouldBlock end, sim_tick x).

#[export] Instance dhost_links : LinkOs dhost := {|
  symlink_metadata p := observe (fun x => inl (if bool_decide (p ∈ sim_state x) || bool_decide (is_Some (sim_files x !! p)) then Some NoLink else None));
  read_link p := observe (fun _ => inr (error_new ["readlink"%string; p] "Invalid argument"));
  canonicalize p := observe (fun _ => inl p);
  create_dir_all p := fun h => (None, h);
  open_lock p := on_sim (fun x => (None, mkSim (<[p := default ""%string (sim_files x !! p)]> (sim_files x)) (sim_state x) (sim_plan x)));
  try_lock := on_sim attempt_lock;
  instant_now h := (dh_clock h, h);
  sleep d h := mkDhost (dh_sim h) (dh_clock h + d)
|}.

Definition no_links : LinkView := mkLinkView (fun _ => None) (fun p => path_of (path_text p)).

(** A plain path is its components. *)
Lemma split_concat (l : list string) : Forall plain_name l → l ≠ [] → split "/" (chars (String.concat "/" l)) = chars <$> l.
Proof.
  induction l as [|c l IH]; [done|]. intros [Hc Hl]%list.Forall_cons _. destruct l as [|d l].
  - cbn [String.concat]. rewrite split_split_once, split_once_None by done. done.
  - change (String.concat "/" (c :: d :: l)) with (c ++ ("/" ++ String.concat "/" (d :: l)))%string. rewrite chars_append.
    change (chars ("/" ++ String.concat "/" (d :: l))) with ("/"%char :: chars (String.concat "/" (d :: l))).
    rewrite split_split_once, split_once_app by done. rewrite IH by done. done.
Qed.

Definition normal (r : bool) (l : list string) : list string :=
  let plain := List.filter (fun c => negb (bool_decide (c = "."%string))) in
  match l with c :: k => if r then plain l else c :: plain k | [] => [] end.

Lemma path_of_text p : plain_path p → path_of (path_text p) = mkPath (rooted p) (normal (rooted p) (comps p)).
Proof.
  destruct p as [r cs]. unfold plain_path. cbn [comps rooted]. intros Hp.
  assert (Forall plain_name cs) as Hpl by (eapply list.Forall_impl; [exact Hp|by intros c []]).
  assert (List.filter (fun c => negb (bool_decide (c = ""%string))) cs = cs) as Hf.
  { clear -Hp. induction Hp as [|c l [_ Hc] _ IH]; cbn; [done|]. rewrite bool_decide_eq_false_2 by done. cbn. by f_equal. }
  assert (text <$> split "/" (chars (String.concat "/" cs)) = match cs with [] => [""%string] | _ => cs end) as Hsplit.
  { destruct cs as [|c l]; [done|]. rewrite split_concat by done. rewrite <-list_fmap_compose. etransitivity; [|apply list_fmap_id].
    apply list_fmap_ext. intros k x _. apply string_of_list_ascii_of_string. }
  assert (str_starts_with (path_text (mkPath r cs)) "/" = r) as Hr.
  { unfold path_text, str_starts_with. destruct r; [done|]. cbn [rooted comps]. destruct cs as [|c l]; [done|]. inversion Hp as [|? ? [Hc Hne]]; subst.
    destruct c as [|a c]; [done|]. apply list.Forall_cons in Hc as [Ha _].
    assert (Ascii.eqb "/" a = false) as He by (by apply Ascii.eqb_neq). destruct l; change (Ascii.eqb "/" a && true = false); by rewrite He. }
  unfold path_of. rewrite Hr. f_equal.
  assert (List.filter (fun c => negb (bool_decide (c = ""%string))) (text <$> split "/" (chars (path_text (mkPath r cs)))) = cs) as ->; [|done].
  unfold path_text. cbn [rooted comps]. destruct r; [change (chars ("/" ++ String.concat "/" cs)) with ("/"%char :: chars (String.concat "/" cs)); cbn [split]; rewrite Ascii.eqb_refl; cbn [fmap list_fmap]|
    change ("" ++ String.concat "/" cs)%string with (String.concat "/" cs)].
  - change (List.filter (fun c => negb (bool_decide (c = ""%string))) (text <$> split "/" (chars (String.concat "/" cs))) = cs). rewrite Hsplit. by destruct cs.
  - rewrite Hsplit. by destruct cs.
Qed.

Lemma no_links_lead : Leads no_links.
Proof.
  split; [done|]. intros [r cs] u n Hp _ Hu Hn. cbn [lv_real no_links]. unfold parent, file_name in *. cbn [rooted comps] in *.
  destruct (list.last cs) as [c|] eqn:Hl; [|done]. apply last_Some in Hl as [k ->]. cbn in Hn. destruct (_ || _) eqn:Hx; [done|]. injection Hn as <-.
  apply orb_false_iff in Hx as [_ Hd]. assert (u = mkPath r k) as ->. { rewrite removelast_last in Hu. destruct (k ++ [c]) eqn:Hkc; [by apply app_eq_nil in Hkc as [_ ?]|]. congruence. }
  assert (plain_path (mkPath r k)) as Hk by (unfold plain_path in *; cbn in *; by apply Forall_app in Hp as [? _]).
  rewrite !path_of_text by done. cbn [rooted comps]. unfold join_path. cbn [rooted comps]. rewrite Hd. cbn [andb]. f_equal. unfold normal. apply bool_decide_eq_false in Hd.
  destruct k as [|a k]; cbn [app].
  - destruct r; [|done]. cbn. by rewrite bool_decide_eq_false_2.
  - assert (∀ l, List.filter (fun x => negb (bool_decide (x = "."%string))) (l ++ [c]) = List.filter (fun x => negb (bool_decide (x = "."%string))) l ++ [c]) as Hf
      by (intros l; rewrite List.filter_app; cbn; by rewrite bool_decide_eq_false_2).
    destruct r; [apply (Hf (a :: k))|]. by rewrite Hf.
Qed.

#[export] Program Instance dhost_link_laws : LinkLaws dhost (list string) := {| places _ := no_links; clock := dh_clock |}.
Next Obligation. intros. apply no_links_lead. Qed.
Next Obligation. done. Qed.
Next Obligation. done. Qed.
Next Obligation. intros p h o. cbn. destruct (hd _ _); [|done..]. intros [= <-]. split; [by case_match|by intros []]. Qed.
Next Obligation. done. Qed.
Next Obligation. intros p h l. cbn. by destruct (hd _ _). Qed.
Next Obligation. done. Qed.
Next Obligation. intros p h t. cbn. destruct (hd _ _); [|done..]. by intros [= <-]. Qed.
Next Obligation. done. Qed.
Next Obligation. done. Qed.
Next Obligation. intros p h q Hq. cbn. by apply lookup_insert_ne. Qed.
Next Obligation. intros h. cbn. split_and!; [done|done|lia]. Qed.
Next Obligation. intros h. cbn. split_and!; [done|done|lia|lia]. Qed.
Next Obligation. intros d h. cbn. split_and!; [done|done|lia]. Qed.
