(* ===== verification/DnsRun.v ===== *)
(** * Nodes that share a resolver file

    Runs of the methods of [Managed] by any nodes, with anything else happening on the host
    in between but for the resolver file and the journal: owners die, settings of links
    change, locks are held.  Then what a simulated host shows of failures in a row. *)

From Stdlib Require Import Strings.Ascii Strings.String.
From S2P Require Import Prelude.
From S2P Require Import Words.
From S2P Require Import NetText.
From S2P Require Import Prefix.
From S2P Require Import Apply.
From S2P Require Import HostRun.
From S2P Require Import HostSim.
From S2P Require Import Bypass.
From S2P Require Import HostEffects.
From S2P Require Import DnsFile.
From S2P Require Import DnsSpec.
From S2P Require Import DnsInv.
From S2P Require Import DnsSim.

Inductive DnsOp := SetMode (dns : string) (full_tunnel : bool) | VerifyFile | Clear.
(** A method, called at [cl_now] by the process [cl_pid] of the node of an interface. *)
Record Call := mkCall { cl_iface : string; cl_prefer : bool; cl_pid : Z; cl_now : Z; cl_op : DnsOp }.

Section Runs.
Context {H X : Type} `{!HostOs H} `{!HostLaws H X} `{!LinkOs H} `{!LinkLaws H X} `{!Serde Journal} `{!SerdeLaws Journal}.
Context (rt rs : Path).
Implicit Types (h : H) (c : Call) (l : list Call).

Definition call c : st H ApplyError unit :=
  let self := mkManaged (cl_iface c) rt rs (cl_prefer c) in
  match cl_op c with
  | SetMode dns full => set_mode_with self (cl_pid c) (cl_now c) dns full
  | VerifyFile => verify_file_with self (cl_pid c) (cl_now c)
  | Clear => clear_with self (cl_pid c)
  end.

(** The path of the resolver file, behind its links. *)
Definition resolver h : string := path_text (lv_real (places (kernel h)) rs).
Definition content h : option string := files h !! resolver h.

(** What may happen outside the nodes. *)
Definition Outside h h' : Prop :=
  places (kernel h') = places (kernel h) ∧ content h' = content h ∧ files h' !! state_path rt = files h !! state_path rt ∧
  (under_run (lv_real (places (kernel h)) rs) = true → files h' !! boot_path = files h !! boot_path).

(** Calls that succeed. *)
Inductive Calls : H → list Call → H → Prop :=
| calls_nil h : Calls h [] h
| calls_outside h h1 h2 l : Outside h h1 → Calls h1 l h2 → Calls h l h2
| calls_call h h1 h2 c l : call c h = (Ok tt, h1) → Calls h1 l h2 → Calls h (c :: l) h2.

(** No node has touched the file yet. *)
Definition Fresh h : Prop :=
  files h !! state_path rt = None ∧ Layout (places (kernel h)) rt rs ∧ is_Some (files h !! boot_path).

(** The journal on disk. *)
Definition journal h : res ApplyError Journal := parse_journal (state_path rt) (files h !! state_path rt).

(** ** Invariants of a run from [h0] *)

Context (h0 : H) (Hfresh : Fresh h0).
Let v := places (kernel h0).
Let orig := content h0.
Let boot := default ""%string (str_trim <$> files h0 !! boot_path).
Definition At (nodes : string → Prop) (s : bool) (i : string) h : Prop :=
  places (kernel h) = v ∧ ∃ j, Inv v rt rs orig boot nodes s i j (files h).

Lemma fresh_at nodes s i : At nodes s i h0.
Proof.
  destruct Hfresh as (Hs & HL & [b Hb]). split; [done|]. exists default_journal. split_and!.
  - exists ∅. by rewrite Hs.
  - intros _. unfold boot. by rewrite Hb.
  - split; [|done]. split; [apply names_nil|done].
  - intros _. by split_and!; [constructor|..].
Qed.

Lemma outside_at nodes s i h h' : Outside h h' → At nodes s i h → At nodes s i h'.
Proof.
  intros (Hp & Hc & Hs & Hb) [Hv (j & Hr & Hbo & Hso & Ha)]. unfold content, resolver in Hc. rewrite Hp, Hv in Hc. rewrite Hv in Hb.
  split; [congruence|]. exists j. split_and!.
  - by eapply recorded_file.
  - intros Hu. rewrite Hb by done. by apply Hbo.
  - unfold FILE, TARGET. by rewrite Hc.
  - unfold FILE, TARGET. by rewrite Hc.
Qed.

Lemma call_at nodes s i c h h' : nodes (cl_iface c) → (s = true → cl_iface c = i) → call c h = (Ok tt, h') → At nodes s i h → At nodes s i h'.
Proof.
  intros Hn Hi Hc [Hv Hd]. assert (∀ j f, Inv v rt rs orig boot nodes s i j f ↔ Inv v rt rs orig boot nodes s (cl_iface c) j f) as Heq.
  { intros j f. unfold Inv. destruct s; [by rewrite Hi|naive_solver]. }
  assert (∃ j, Inv v rt rs orig boot nodes s (cl_iface c) j (files h)) as Hd' by (destruct Hd as [j Hj]; exists j; by apply Heq).
  destruct Hfresh as (_ & HL & _). unfold call in Hc.
  assert (places (kernel h') = v ∧ ∃ j, Inv v rt rs orig boot nodes s (cl_iface c) j (files h')) as [Hv' [j Hj]].
  { destruct (cl_op c).
    - destruct (hs_set_mode v rt rs orig boot nodes HL (cl_iface c) Hn (cl_prefer c) s _ _ _ _ h _ h' (conj Hv Hd') Hc) as (? & j & ? & _). eauto.
    - destruct (hs_verify v rt rs orig boot nodes HL (cl_iface c) Hn (cl_prefer c) s _ _ h _ h' (conj Hv Hd') Hc). eauto.
    - destruct (hs_clear v rt rs orig boot nodes HL (cl_iface c) Hn (cl_prefer c) s _ h _ h' (conj Hv Hd') Hc) as (? & j & ? & _). eauto. }
  split; [done|]. exists j. by apply Heq.
Qed.

Lemma calls_at nodes s i h l h' : Calls h l h' → Forall (fun c => nodes (cl_iface c) ∧ (s = true → cl_iface c = i)) l → At nodes s i h → At nodes s i h'.
Proof.
  induction 1 as [h|h h1 h2 l Ho Hc IH|h h1 h2 c l Hc Hr IH]; intros Hl Ha; [done|by apply IH; [|eapply outside_at]|].
  inversion Hl as [|? ? [Hn Hi] Hl']; subst. apply IH; [done|]. by eapply call_at.
Qed.

Lemma clear_gone nodes i c h h' : nodes (cl_iface c) → cl_op c = Clear → call c h = (Ok tt, h') → At nodes false i h →
  places (kernel h') = v ∧ ∃ j, Inv v rt rs orig boot nodes false i j (files h') ∧ Gone (cl_iface c) j.
Proof.
  intros Hn Ho Hc [Hv (j & Hi)]. destruct Hfresh as (_ & HL & _). unfold call in Hc. rewrite Ho in Hc.
  assert (∃ j, Inv v rt rs orig boot nodes false (cl_iface c) j (files h)) as Hd by (exists j; destruct Hi as (? & ? & ? & _); by split_and!).
  destruct (hs_clear v rt rs orig boot nodes HL (cl_iface c) Hn (cl_prefer c) false _ h _ h' (conj Hv Hd) Hc) as (Hv' & j' & (Hr & Hb & Hs & _) & Hg).
  split; [done|]. exists j'. by split_and!.
Qed.

(** What the journal says of the content. *)
Lemma inv_content nodes i j h : places (kernel h) = v → Inv v rt rs orig boot nodes false i j (files h) →
  (file j = None → content h = orig) ∧ (∀ o, file j = Some o → o_bytes o = orig) ∧ ∃ r, journal h = Ok (with_resolved r j).
Proof.
  intros Hv (Hr & _ & [[_ Hk] _] & _). unfold content, resolver. rewrite Hv. split_and!; [intros Hf|intros o Ho|done].
  - rewrite Hf in Hk. by destruct Hk as (_ & _ & ?).
  - rewrite Ho in Hk. by destruct Hk as [[] _].
Qed.

(** A failed call of a node that was alone. *)
Lemma call_left nodes i c r h h' : nodes (cl_iface c) → cl_iface c = i → call c h = (r, h') → At nodes true i h →
  r ≠ Panic ∧ At nodes false i h'.
Proof.
  intros Hn <- Hc [Hv Hd]. destruct Hfresh as (_ & HL & _). unfold call in Hc.
  assert (∀ f, Left v rt rs orig boot nodes true f → ∃ j, Inv v rt rs orig boot nodes false (cl_iface c) j f) as Hl.
  { intros f Hl. destruct (Hl eq_refl) as (j & ? & ? & ?). by exists j. }
  assert (∀ j f, Inv v rt rs orig boot nodes true (cl_iface c) j f → Inv v rt rs orig boot nodes false (cl_iface c) j f) as Hw by (intros j f (? & ? & ? & _); by split_and!).
  destruct (cl_op c).
  - pose proof (hs_set_mode v rt rs orig boot nodes HL (cl_iface c) Hn (cl_prefer c) true _ _ _ _ h _ h' (conj Hv Hd) Hc) as Hp.
    destruct r as [u|e|]; [destruct Hp as (? & j & ? & _)|destruct Hp|done]; (split; [done|]; split; [done|]; eauto).
  - pose proof (hs_verify v rt rs orig boot nodes HL (cl_iface c) Hn (cl_prefer c) true _ _ h _ h' (conj Hv Hd) Hc) as Hp.
    destruct r as [u|e|]; [destruct Hp as (? & j & ?)|destruct Hp|done]; (split; [done|]; split; [done|]; eauto).
  - pose proof (hs_clear v rt rs orig boot nodes HL (cl_iface c) Hn (cl_prefer c) true _ h _ h' (conj Hv Hd) Hc) as Hp.
    destruct r as [u|e|]; [destruct Hp as (? & j & ? & _)|destruct Hp|done]; (split; [done|]; split; [done|]; eauto).
Qed.
End Runs.

Section Properties.
Context {H X : Type} `{!HostOs H} `{!HostLaws H X} `{!LinkOs H} `{!LinkLaws H X} `{!Serde Journal} `{!SerdeLaws Journal}.

(** C33.  Nodes that share a resolver file set, verify and clear it in any order, owners die
    without clearing, and links are reached through symbolic links or not: as long as their
    calls succeed and nothing else writes the file, the journal keeps the content found
    first, and once a clear leaves no owner the file holds exactly that content again. *)
Theorem resolver_comes_back rt rs (h0 h h' : H) l c :
  Fresh rt rs h0 → Calls rt rs h0 l h → cl_op c = Clear → call rt rs c h = (Ok tt, h') →
  ∃ j, journal rt h' = Ok j ∧ ¬ (cl_iface c ∈ ow_iface <$> owners j) ∧
    (owners j = [] → content rs h' = content rs h0) ∧ (∀ o, file j = Some o → o_bytes o = content rs h0).
Proof.
  intros Hf Hl Ho Hc. pose proof (fresh_at rt rs h0 Hf (fun _ => True) false (cl_iface c)) as Ha.
  apply (calls_at rt rs h0 Hf _ _ _ _ _ _ Hl) in Ha; [|by apply list.Forall_forall].
  destruct (clear_gone rt rs h0 Hf _ _ c _ _ I Ho Hc Ha) as (Hv & j & Hi & Hg & Hn).
  destruct (inv_content rt rs h0 _ _ _ _ Hv Hi) as (HN & HS & r & Hj). exists (with_resolved r j). split_and!; [done|done|auto|done].
Qed.

(** C34.  Setting name servers through the shared file takes effect.  After any successful calls
    of any nodes, with nothing else writing the resolver file or the journal, a successful
    set of a node that does not prefer the link settings leaves the file with the name
    servers of the top owner of the journal, and the journal with its interface as an owner
    of just the servers it asked for. *)
Theorem resolver_serves_top rt rs (h0 h h' : H) l c dns full :
  Fresh rt rs h0 → Calls rt rs h0 l h → cl_op c = SetMode dns full → cl_prefer c = false → call rt rs c h = (Ok tt, h') →
  ∃ j top w, journal rt h' = Ok j ∧ list.last (owners j) = Some top ∧ content rs h' = Some (file_body (ow_dns top)) ∧
    w ∈ owners j ∧ ow_iface w = cl_iface c ∧ ow_dns w = split_whitespace dns.
Proof.
  intros Hf Hl Ho Hp Hc. pose proof (fresh_at rt rs h0 Hf (fun _ => True) false (cl_iface c)) as Ha.
  apply (calls_at rt rs h0 Hf _ _ _ _ _ _ Hl) in Ha; [|by apply list.Forall_forall]. destruct Ha as [Hv Hd], Hf as (_ & HL & _).
  unfold call in Hc. rewrite Ho in Hc.
  destruct (hs_set_mode _ rt rs _ _ _ HL (cl_iface c) I (cl_prefer c) false _ _ _ _ h _ h' (conj Hv Hd) Hc) as (Hv' & j & ([r Hr] & _) & Hs).
  destruct (Hs Hp) as (_ & Hb & w & Hw & Hi & Hdns). unfold top_body in Hb. destruct (list.last (owners j)) as [top|] eqn:Htop; [|by apply last_None in Htop; rewrite Htop in Hw; apply elem_of_nil in Hw].
  exists (with_resolved r j), top, w. split_and!; try done. unfold content, resolver. rewrite Hv'. exact Hb.
Qed.

(** C35.  A single node survives one failed call.  Of the calls of one node, with nothing else
    writing the resolver file or the journal, one may fail at any point, each write it makes
    done or not.  If all its other calls, before and after, succeed, a clear that ends the
    sequence puts the content found first back into the resolver file and leaves a journal
    without owners. *)
Theorem resolver_survives_failure rt rs (h0 h1 h2 h3 h4 : H) i l c r l2 d :
  Fresh rt rs h0 → Calls rt rs h0 l h1 → Forall (fun c => cl_iface c = i) l →
  cl_iface c = i → call rt rs c h1 = (r, h2) →
  Calls rt rs h2 l2 h3 → Forall (fun c => cl_iface c = i) l2 →
  cl_iface d = i → cl_op d = Clear → call rt rs d h3 = (Ok tt, h4) →
  r ≠ Panic ∧ content rs h4 = content rs h0 ∧ ∃ j, journal rt h4 = Ok j ∧ owners j = [] ∧ file j = None.
Proof.
  intros Hf Hl Hi Hci Hc Hl2 Hi2 Hdi Hd Hclear. pose proof (fresh_at rt rs h0 Hf (.= i) true i) as Ha.
  apply (calls_at rt rs h0 Hf _ _ _ _ _ _ Hl) in Ha; [|by eapply list.Forall_impl].
  destruct (call_left rt rs h0 Hf (.= i) i c r h1 h2 Hci Hci Hc Ha) as [Hr Ha2]. split; [done|].
  apply (calls_at rt rs h0 Hf _ _ _ _ _ _ Hl2) in Ha2; [|by eapply list.Forall_impl].
  destruct (clear_gone rt rs h0 Hf _ _ d _ _ Hdi Hd Hclear Ha2) as (Hv & j & Hin & Hg & Hno).
  destruct (inv_content rt rs h0 _ _ _ _ Hv Hin) as (HN & _ & r' & Hj).
  assert (owners j = []) as Hnil.
  { destruct Hin as (_ & _ & [[[_ Hall] _] _] & _). destruct (owners j) as [|w k]; [done|]. exfalso. apply list.Forall_cons in Hall as [Hw _]. apply Hg. rewrite Hdi, <-Hw. by left. }
  split; [auto|]. exists (with_resolved r' j). auto.
Qed.
End Properties.

(** ** A host with two nodes *)

Definition demo_stat (start : string) : string := ("1 (fluxpeer (a)) S 1 2 3 4 5 6 7 8 9 10 11 12 13 14 15 16 17 18 " ++ start)%string.
Definition demo_rt : Path := path_of "/var/lib/fluxpeer/dns".
Definition demo_rs : Path := path_of "/etc/resolv.conf".
Definition demo_text : string := ("nameserver 192.0.2.53" ++ eol)%string.
Definition demo_files : gmap string string :=
  {[ boot_path := ("b1" ++ eol)%string; proc_stat 100 := demo_stat "777"; proc_stat 200 := demo_stat "888"; "/etc/resolv.conf"%string := demo_text ]}.
Definition demo_host (plan : list fault) : dhost := mkDhost (mkSim demo_files ["/etc"; "/"]%string plan) 0.

Definition set_a (dns : string) : Call := mkCall "a" false 100 5 (SetMode dns true).
Definition set_b (dns : string) : Call := mkCall "b" true 200 5 (SetMode dns true).
Definition clear_a : Call := mkCall "a" false 100 9 Clear.
Definition clear_b : Call := mkCall "b" true 200 9 Clear.

(** Calls one after the other, whether each succeeds, and the host after them. *)
Fixpoint play (l : list Call) (h : dhost) : list bool * dhost :=
  match l with [] => ([], h) | c :: l => let '(r, h) := call demo_rt demo_rs c h in let '(rs, h) := play l h in (is_ok r :: rs, h) end.
Definition dies (id : Z) (h : dhost) : dhost :=
  mkDhost (mkSim (delete (proc_stat id) (sim_files (dh_sim h))) (sim_state (dh_sim h)) (sim_plan (dh_sim h))) (dh_clock h).

Lemma demo_fresh plan : Fresh demo_rt demo_rs (demo_host plan).
Proof.
  split; [vm_compute; reflexivity|]. split; [|eexists; vm_compute; reflexivity].
  split; [apply path_of_plain|..]; vm_compute; split_and?; discriminate.
Qed.

Lemma play_calls l h h' : play l h = (replicate (length l) true, h') → Calls demo_rt demo_rs h l h'.
Proof.
  revert h h'. induction l as [|c l IH]; cbn [play length replicate]; intros h h'; [intros [= <-]; constructor|].
  destruct (call demo_rt demo_rs c h) as [r h1] eqn:Hc. destruct (play l h1) as [rs h2] eqn:Hp. intros [= Hr -> ->].
  destruct r as [[]|e|]; [|done..]. eapply calls_call; [done|]. by apply IH.
Qed.

Lemma calls_app l k (h h1 h2 : dhost) : Calls demo_rt demo_rs h l h1 → Calls demo_rt demo_rs h1 k h2 → Calls demo_rt demo_rs h (l ++ k) h2.
Proof. induction 1; [done|intros; by eapply calls_outside; eauto|intros; cbn; by eapply calls_call; eauto]. Qed.

Lemma pair_snd {A C} (x : A * C) a : x.1 = a → x = (a, x.2).
Proof. destruct x. by intros <-. Qed.

(** The node of the second interface dies without a clear. *)
Definition demo_died : dhost := dies 200 (play [set_a "10.0.0.1"; set_b "10.0.0.2"] (demo_host [])).2.
Lemma demo_died_calls : Calls demo_rt demo_rs (demo_host []) [set_a "10.0.0.1"; set_b "10.0.0.2"] demo_died.
Proof.
  apply (calls_app [set_a "10.0.0.1"; set_b "10.0.0.2"] [] _ (play [set_a "10.0.0.1"; set_b "10.0.0.2"] (demo_host [])).2).
  - apply play_calls. apply pair_snd. vm_compute. reflexivity.
  - eapply calls_outside; [|constructor]. split; [change (no_links = no_links); reflexivity|]. split; [vm_compute; reflexivity|]. split; [vm_compute; reflexivity|]. vm_compute. discriminate.
Qed.
Lemma demo_died_clear : call demo_rt demo_rs clear_a demo_died = (Ok tt, (call demo_rt demo_rs clear_a demo_died).2).
Proof. apply pair_snd. vm_compute. reflexivity. Qed.
Lemma demo_died_owners : owners <$> journal demo_rt (call demo_rt demo_rs clear_a demo_died).2 = Ok [].
Proof. vm_compute. reflexivity. Qed.
Lemma demo_content plan : content demo_rs (demo_host plan) = Some demo_text.
Proof. vm_compute. reflexivity. Qed.

Lemma resolver_comes_back_witness : content demo_rs (call demo_rt demo_rs clear_a demo_died).2 = Some demo_text.
Proof.
  destruct (resolver_comes_back demo_rt demo_rs _ _ _ _ clear_a (demo_fresh []) demo_died_calls eq_refl demo_died_clear) as (j & Hj & _ & Hc & _).
  rewrite <-(demo_content []). apply Hc. pose proof demo_died_owners as Ho. rewrite Hj in Ho. by injection Ho.
Defined.

(** The second node's [resolvectl] is not installed, so that both share the file. *)
Lemma demo_set_ok : call demo_rt demo_rs (set_a "10.0.0.9 10.0.0.8") demo_died = (Ok tt, (call demo_rt demo_rs (set_a "10.0.0.9 10.0.0.8") demo_died).2).
Proof. apply pair_snd. vm_compute. reflexivity. Qed.

Lemma resolver_serves_top_witness :
  ∃ j top w, journal demo_rt (call demo_rt demo_rs (set_a "10.0.0.9 10.0.0.8") demo_died).2 = Ok j ∧ list.last (owners j) = Some top ∧
    content demo_rs (call demo_rt demo_rs (set_a "10.0.0.9 10.0.0.8") demo_died).2 = Some (file_body (ow_dns top)) ∧
    w ∈ owners j ∧ ow_iface w = "a"%string ∧ ow_dns w = ["10.0.0.9"; "10.0.0.8"]%string.
Proof.
  exact (resolver_serves_top demo_rt demo_rs _ _ _ _ (set_a "10.0.0.9 10.0.0.8") "10.0.0.9 10.0.0.8" true (demo_fresh []) demo_died_calls eq_refl eq_refl demo_set_ok).
Defined.

(** An update that fails as it writes the file. *)
Definition demo_fail : dhost := demo_host (replicate 21 Works ++ [FailsAfter]).
Definition demo_set : dhost := (play [set_a "10.0.0.1"] demo_fail).2.
Definition demo_failed : dhost := (call demo_rt demo_rs (set_a "10.0.0.2") demo_set).2.
Lemma demo_set_calls : Calls demo_rt demo_rs demo_fail [set_a "10.0.0.1"] demo_set.
Proof. unfold demo_set. apply play_calls, pair_snd. vm_compute. reflexivity. Qed.
Lemma demo_failed_call : call demo_rt demo_rs (set_a "10.0.0.2") demo_set = (Err HostSim.io_error, demo_failed).
Proof. unfold demo_failed. apply pair_snd. vm_compute. reflexivity. Qed.
Definition demo_again : dhost := (play [set_a "10.0.0.3"] demo_failed).2.
Lemma demo_again_calls : Calls demo_rt demo_rs demo_failed [set_a "10.0.0.3"] demo_again.
Proof. unfold demo_again. apply play_calls, pair_snd. vm_compute. reflexivity. Qed.
Lemma demo_again_clear : call demo_rt demo_rs clear_a demo_again = (Ok tt, (call demo_rt demo_rs clear_a demo_again).2).
Proof. apply pair_snd. vm_compute. reflexivity. Qed.

Lemma resolver_survives_failure_witness : content demo_rs (call demo_rt demo_rs clear_a demo_again).2 = Some demo_text.
Proof.
  destruct (resolver_survives_failure demo_rt demo_rs demo_fail demo_set demo_failed demo_again (call demo_rt demo_rs clear_a demo_again).2 "a" [set_a "10.0.0.1"] (set_a "10.0.0.2") (Err HostSim.io_error) [set_a "10.0.0.3"] clear_a)
    as (_ & Hc & _); [apply demo_fresh|apply demo_set_calls|by repeat constructor|done|apply demo_failed_call|apply demo_again_calls|by repeat constructor|done|done|apply demo_again_clear|].
  rewrite Hc. apply demo_content.
Defined.

(** ** Failures in a row *)

(** The journal remembers two contents.  A node sets its servers, two updates in a row
    cannot write the file, and the clear that follows, with the host working again, takes
    the first servers for somebody else's: it reports success, forgets the content found
    first and leaves the servers of the exit in the file. *)
Lemma failed_updates_strand :
  let '(results, h) := play [set_a "10.0.0.1"; set_a "10.0.0.2"; set_a "10.0.0.3"; clear_a]
    (demo_host (replicate 21 Works ++ [Fails] ++ replicate 10 Works ++ [Fails])) in
  results = [true; false; false; true] ∧ content demo_rs h = Some (file_body ["10.0.0.1"%string]) ∧
  (fun j => (owners j, file j)) <$> journal demo_rt h = Ok ([], None).
Proof. vm_compute. split_and!; reflexivity. Qed.

(** Restoring writes the file before the journal says what it wrote.  Two nodes own the
    file, the second has changed its servers, and its clear fails between the two writes:
    the next clear takes the first node's servers for somebody else's and releases the file
    for both, and after both have cleared the file still has servers of an exit. *)
Lemma interrupted_restore_strands :
  let '(results, h) := play [set_a "10.0.0.1"; set_b "10.0.0.2"; set_b "10.0.0.3"; clear_b; clear_b; clear_a]
    (demo_host (replicate 47 Works ++ [Fails])) in
  results = [true; true; true; false; true; true] ∧ content demo_rs h = Some (file_body ["10.0.0.1"%string]) ∧
  (fun j => (owners j, file j)) <$> journal demo_rt h = Ok ([], None).
Proof. vm_compute. split_and!; reflexivity. Qed.
