(* ===== verification/DnsUci.v ===== *)
(** * The resolver of an OpenWrt host (node/src/dns.rs)

    [OpenWrtDnsmasq] points dnsmasq at the exit's name server through [uci], and notes what
    it found in a state file.  [uci] is a parameter: [UciLaws] says what its commands do to
    the one section the node touches, each of which may fail, done or not. *)

From Stdlib Require Import Strings.Ascii Strings.String.
From S2P Require Import Prelude.
From S2P Require Import Words.
From S2P Require Import NetText.
From S2P Require Import Prefix.
From S2P Require Import RouteTable.
From S2P Require Import Apply.
From S2P Require Import HostRun.
From S2P Require Import Bypass.
From S2P Require Import HostSim.
From S2P Require Import DnsFile.

Definition STATE_PATH : string := "/run/fluxpeer-dns.state".
Abbreviation State := (gmap string string).

(** ** The state file *)

Definition parse_line (line : string) : option (string * string) :=
  '(key, value) ← split_once "=" (chars line); Some (text key, text value).
Definition parse_state (raw : string) : State := foldl (fun m line => match parse_line line with Some (k, x) => <[k := x]> m | None => m end) ∅ (lines raw).
Definition state_body (state : State) : string :=
  String.concat "" (map (fun k => k ++ "=" ++ default "" (state !! k) ++ eol)%string (sorted_keys state)).

Section OpenWrt.
Context {H : Type} `{!HostOs H}.
Abbreviation host A := (st H ApplyError A).

Definition read_state : host State :=
  o ← read STATE_PATH; mret (match o with Some raw => parse_state raw | None => ∅ end).
Definition write_state (state : State) : host unit := save STATE_PATH (state_body state).
Definition remove_state : host unit := HostRun.remove STATE_PATH.

Definition entry_not_found (e : ApplyError) : bool := bool_decide (exit_code e = Some 1) && str_contains (stderr e) "Entry not found".

Definition uci_get_with (key : string) : host (option string) :=
  r ← attempt (run ["uci"; "get"; key]%string None);
  match r with
  | Ok value => let s := str_trim value in mret (if bool_decide (s = ""%string) then None else Some s)
  | Err e => if entry_not_found e then mret None else lift (Err e)
  | Panic => mret None
  end.

Definition NORESOLV : string := "dhcp.@dnsmasq[0].noresolv".
Definition SERVER : string := "dhcp.@dnsmasq[0].server".
Definition uci_set (key value : string) : list string := ["uci"; "set"; key ++ "=" ++ value]%string.
Definition uci_list (op key value : string) : list string := ["uci"; op; key ++ "=" ++ value]%string.
Definition uci_commit : list string := ["uci"; "commit"; "dhcp"]%string.
Definition dnsmasq_restart : list string := ["/etc/init.d/dnsmasq"; "restart"]%string.

Definition openwrt_unchanged (state : State) (dns : string) : bool :=
  bool_decide (state !! "applied"%string = Some "1"%string) && bool_decide (state !! "dns"%string = Some dns).

(** What was there before the first change. *)
Definition note_found (state : State) : host State :=
  match state !! "had_noresolv"%string with
  | Some _ => mret state
  | None =>
      found ← uci_get_with NORESOLV;
      mret (match found with
            | Some value => <["noresolv"%string := value]> (<["had_noresolv"%string := "1"%string]> state)
            | None => <["had_noresolv"%string := "0"%string]> state
            end)
  end.

Definition set_openwrt_with (state : State) (dns : string) (save : State → host unit) : host unit :=
  if openwrt_unchanged state dns then mret tt
  else
    state ← note_found (delete "applied"%string state);
    let state := <["dns"%string := dns]> state in
    _ ← save state;
    _ ← run (uci_set NORESOLV "1") None;
    found ← uci_get_with SERVER;
    _ ← (if existsb (fun s => bool_decide (s = dns)) (split_whitespace (default ""%string found)) then mret tt
         else _ ← run (uci_list "add_list" SERVER dns) None; mret tt);
    _ ← run uci_commit None;
    _ ← run dnsmasq_restart None;
    save (<["applied"%string := "1"%string]> state).

Definition restore_noresolv (state : State) : host unit :=
  match state !! "had_noresolv"%string with
  | Some had =>
      if bool_decide (had = "1"%string) then _ ← run (uci_set NORESOLV (default "0"%string (state !! "noresolv"%string))) None; mret tt
      else if bool_decide (had = "0"%string) then _ ← run ["uci"; "delete"; NORESOLV]%string None; mret tt
      else mret tt
  | None => mret tt
  end.

Definition clear_openwrt_with (state : State) : host unit :=
  if bool_decide (state = ∅) then mret tt
  else
    _ ← (match state !! "dns"%string with Some dns => _ ← run (uci_list "del_list" SERVER dns) None; mret tt | None => mret tt end);
    _ ← restore_noresolv state;
    _ ← run uci_commit None;
    _ ← run dnsmasq_restart None;
    mret tt.

(** The methods of [OpenWrtDnsmasq]. *)
Definition openwrt_set (dns : string) : host unit := state ← read_state; set_openwrt_with state dns write_state.
Definition openwrt_clear : host unit :=
  state ← read_state;
  _ ← clear_openwrt_with state;
  if bool_decide (state = ∅) then mret tt else remove_state.
Definition openwrt_owned : host bool := state ← read_state; mret (negb (bool_decide (state = ∅))).
End OpenWrt.

(** ** The state file reads as it was written *)

Definition clean (s : string) : Prop := Forall (.≠ newline) (chars s) ∧ drop_cr (chars s) = chars s.
Definition Clean (m : State) : Prop := ∀ k x, m !! k = Some x → Forall (.≠ "="%char) (chars k) ∧ clean (k ++ "=" ++ x)%string.

Lemma text_chars s : text (chars s) = s.
Proof. apply string_of_list_ascii_of_string. Qed.

Lemma split_lines (l : list string) : Forall clean l →
  split newline (chars (String.concat "" (map (fun s => s ++ eol)%string l))) = (chars <$> l) ++ [[]].
Proof.
  induction 1 as [|s l [Hs _] Hl IH]; [done|]. cbn [map].
  assert (String.concat "" ((s ++ eol)%string :: map (fun s => s ++ eol)%string l) = (s ++ (eol ++ String.concat "" (map (fun s => s ++ eol)%string l)))%string) as ->.
  { rewrite <-append_assoc. destruct l; cbn [map String.concat]; [|done]. symmetry. rewrite <-(text_chars ((s ++ eol) ++ "")), chars_append, app_nil_r. apply text_chars. }
  set (rest := String.concat "" (map _ l)) in *. rewrite chars_append. change (chars (eol ++ rest)%string) with (newline :: chars rest).
  rewrite split_split_once, split_once_app by done. by rewrite IH.
Qed.

Lemma lines_concat (l : list string) : Forall clean l → lines (String.concat "" (map (fun s => s ++ eol)%string l)) = l.
Proof.
  intros Hl. unfold lines. rewrite split_lines by done. rewrite last_snoc, removelast_last, <-list_fmap_compose.
  etransitivity; [|apply list_fmap_id]. apply list_fmap_ext. intros i x Hx. cbn. apply list_elem_of_lookup_2 in Hx.
  rewrite list.Forall_forall in Hl. destruct (Hl x Hx) as [_ ->]. apply text_chars.
Qed.

Lemma foldl_insert (l : list (string * string)) : foldl (fun (m : State) x => <[x.1 := x.2]> m) ∅ l = list_to_map (rev l).
Proof. induction l as [|[k x] l IH] using rev_ind; [done|]. rewrite foldl_snoc, rev_app_distr. cbn. by rewrite IH. Qed.

Lemma sorted_entries (m : State) : (fun k => (k, default ""%string (m !! k))) <$> sorted_keys m ≡ₚ map_to_list m.
Proof.
  unfold sorted_keys. rewrite sort_by_perm, <-list_fmap_compose. apply Permutation_refl'. etransitivity; [|apply list_fmap_id].
  apply list_fmap_ext. intros i [k x] Hi. apply list_elem_of_lookup_2, elem_of_map_to_list in Hi. cbn. by rewrite Hi.
Qed.

Lemma parse_state_body m : Clean m → parse_state (state_body m) = m.
Proof.
  intros Hm. assert (∀ k, k ∈ sorted_keys m → ∃ x, m !! k = Some x) as Hk.
  { intros k Hk. unfold sorted_keys in Hk. rewrite sort_by_perm in Hk. apply list_elem_of_fmap in Hk as ([q x] & -> & Hq%elem_of_map_to_list). eauto. }
  set (line := fun k => (k ++ "=" ++ default "" (m !! k))%string).
  assert (state_body m = String.concat "" (map (fun s => s ++ eol)%string (line <$> sorted_keys m))) as ->.
  { unfold state_body. f_equal. rewrite <-list_fmap_compose. apply list_fmap_ext. intros i k _. unfold line. cbn. by rewrite !append_assoc. }
  unfold parse_state. rewrite lines_concat.
  2:{ apply Forall_fmap, list.Forall_forall. intros k (x & Hx)%Hk. cbn. unfold line. rewrite Hx. by destruct (Hm k x Hx). }
  trans (foldl (fun (a : State) x => <[x.1 := x.2]> a) ∅ ((fun k => (k, default ""%string (m !! k))) <$> sorted_keys m)).
  - generalize (∅ : State) as acc. induction (sorted_keys m) as [|k l IH]; intros acc; [done|]. cbn [fmap list_fmap foldl].
    assert (parse_line (line k) = Some (k, default ""%string (m !! k))) as ->; [|apply IH; set_solver].
    destruct (Hk k) as [x Hx]; [set_solver|]. destruct (Hm k x Hx) as [Hq _]. unfold parse_line, line. rewrite chars_append.
    change (chars ("=" ++ default "" (m !! k))) with ("="%char :: chars (default "" (m !! k))). rewrite split_once_app by done. cbn. by rewrite !text_chars.
  - rewrite foldl_insert. etransitivity; [|apply list_to_map_to_list]. apply list_to_map_proper.
    + rewrite <-Permutation_rev, sorted_entries. apply NoDup_fst_map_to_list.
    + rewrite <-Permutation_rev. apply sorted_entries.
Qed.

(** ** What [uci] does *)

(** The options of the section of dnsmasq. *)
Record Uci := mkUci { noresolv : option string; servers : list string }.
Definition with_noresolv (o : option string) (u : Uci) : Uci := mkUci o (servers u).
Definition with_servers (l : list string) (u : Uci) : Uci := mkUci (noresolv u) l.

(** An option has a text that is not empty, or is not found; the entries of a list are its
    words.  A change that fails may have been made.  Deleting an entry removes it wherever
    it is; deleting an option that is not there is an error. *)
Class UciLaws (H : Type) `{!HostOs H} `{!HostLaws H Uci} : Prop := {
  get_noresolv h : let r := exec ["uci"; "get"; NORESOLV]%string None h in kernel r.2 = kernel h ∧
    match r.1 with inl t => noresolv (kernel h) = Some (str_trim t) ∧ str_trim t ≠ ""%string | inr e => entry_not_found e = true → noresolv (kernel h) = None end;
  get_server h : let r := exec ["uci"; "get"; SERVER]%string None h in kernel r.2 = kernel h ∧
    match r.1 with inl t => split_whitespace (str_trim t) = servers (kernel h) | inr e => entry_not_found e = true → servers (kernel h) = [] end;
  set_noresolv x h : let r := exec (uci_set NORESOLV x) None h in let u := with_noresolv (Some x) (kernel h) in
    match r.1 with inl _ => kernel r.2 = u | inr _ => kernel r.2 = kernel h ∨ kernel r.2 = u end;
  add_server x h : let r := exec (uci_list "add_list" SERVER x) None h in let u := with_servers (servers (kernel h) ++ [x]) (kernel h) in
    match r.1 with inl _ => kernel r.2 = u | inr _ => kernel r.2 = kernel h ∨ kernel r.2 = u end;
  del_server x h : let r := exec (uci_list "del_list" SERVER x) None h in let u := with_servers (filter (.≠ x) (servers (kernel h))) (kernel h) in
    match r.1 with inl _ => kernel r.2 = u | inr _ => kernel r.2 = kernel h ∨ kernel r.2 = u end;
  delete_noresolv h : let r := exec ["uci"; "delete"; NORESOLV]%string None h in let u := with_noresolv None (kernel h) in
    match r.1 with inl _ => kernel r.2 = u | inr _ => kernel r.2 = kernel h ∨ kernel r.2 = u end;
  commit_kernel h : kernel (exec uci_commit None h).2 = kernel h;
  restart_kernel h : kernel (exec dnsmasq_restart None h).2 = kernel h
}.

Section Inv.
Context {H : Type} `{!HostOs H} `{!HostLaws H Uci} `{!UciLaws H}.
Context (d : string) (u0 : Uci).
Implicit Types (m : State) (u : Uci) (f : gmap string string).

Definition one_line (s : string) : Prop := Forall (fun c => c ≠ newline ∧ c ≠ ascii_of_N 13) (chars s).
(** The server is not there yet, and the texts fit a line of the state file. *)
Record Site : Prop := mkSite {
  si_new : ¬ (d ∈ servers u0);
  si_server : one_line d;
  si_option x : noresolv u0 = Some x → one_line x ∧ x ≠ ""%string
}.
Context (HS : Site).

Definition Found m : Prop :=
  match noresolv u0 with
  | Some x => m !! "had_noresolv"%string = Some "1"%string ∧ m !! "noresolv"%string = Some x
  | None => m !! "had_noresolv"%string = Some "0"%string
  end.
Definition Noted m : Prop := Clean m ∧ m !! "dns"%string = Some d ∧ Found m.
Definition Near u : Prop :=
  (servers u = servers u0 ∨ servers u = servers u0 ++ [d]) ∧ (noresolv u = noresolv u0 ∨ noresolv u = Some "1"%string).
Definition state_of f : State := match f !! STATE_PATH with Some raw => parse_state raw | None => ∅ end.
Definition Holds f u : Prop := f !! STATE_PATH = None ∧ u = u0 ∨ Noted (state_of f) ∧ Near u.

Lemma state_none f : f !! STATE_PATH = None → state_of f = ∅.
Proof. unfold state_of. by intros ->. Qed.
Lemma near_u0 : Near u0.
Proof. split; by left. Qed.
Lemma noted_nonempty m : Noted m → m ≠ ∅.
Proof. intros (_ & Hd & _) ->. by rewrite lookup_empty in Hd. Qed.
Lemma state_save m f : Clean m → state_of (<[STATE_PATH := state_body m]> f) = m.
Proof. intros Hm. unfold state_of. rewrite lookup_insert_eq. by apply parse_state_body. Qed.

Lemma clean_line s : one_line s → clean s.
Proof.
  intros Hs. split; [eapply list.Forall_impl; [exact Hs|by intros c []]|]. unfold drop_cr. destruct (rev (chars s)) as [|c k] eqn:Hr; [done|].
  assert (c ∈ chars s) as Hc by (apply list_elem_of_In, in_rev; rewrite Hr; by left). unfold one_line in Hs. rewrite list.Forall_forall in Hs.
  destruct (Hs c Hc) as [_ Hn]. destruct (Ascii.eqb_spec c (ascii_of_N 13)); done.
Qed.
Lemma clean_insert m k x : Clean m → Forall (.≠ "="%char) (chars k) → one_line k → one_line x → Clean (<[k := x]> m).
Proof.
  intros Hm Hk Hl Hx q y [[<- <-]|[_ Hq]]%lookup_insert_Some; [|by apply Hm]. split; [done|]. apply clean_line. unfold one_line in *. rewrite !chars_append.
  rewrite !Forall_app. split_and!; [done|by repeat constructor|done].
Qed.
Lemma clean_empty : Clean ∅.
Proof. intros k x Hk. by rewrite lookup_empty in Hk. Qed.
Lemma clean_delete m k : Clean m → Clean (delete k m).
Proof. intros Hm q y [_ Hq]%lookup_delete_Some. by apply Hm. Qed.

Abbreviation view := (gmap string string → Uci → Prop).
Lemma spec_run (P : view) c (Q : string → view) (E : ApplyError → view) :
  (∀ h, P (files h) (kernel h) → match (exec c None h).1 with
    | inl t => Q t (files h) (kernel (exec c None h).2) | inr e => E e (files h) (kernel (exec c None h).2) end) → spec P (run (H:=H) c None) Q E.
Proof.
  intros Hc h r h' Hp. unfold run, of_sum. specialize (Hc h Hp). pose proof (exec_files c None h) as Hf.
  destruct (exec c None h) as [[t|e] h1]; intros [= <- <-]; cbn in *; by rewrite Hf.
Qed.

(** A command that makes one change, made or not where it fails. *)
Lemma spec_uci_change (P Q : view) (E : ApplyError → view) c (g : Uci → Uci) :
  (∀ h : H, match (exec c None h).1 with inl _ => kernel (exec c None h).2 = g (kernel h) | inr _ => kernel (exec c None h).2 = kernel h ∨ kernel (exec c None h).2 = g (kernel h) end) →
  (∀ f u, P f u → Q f (g u)) → (∀ e f u, P f u → E e f u ∧ E e f (g u)) → spec P (run (H:=H) c None) (fun _ => Q) E.
Proof.
  intros Hc HQ HE. apply spec_run. intros h Hp. specialize (Hc h). destruct (exec c None h) as [[t|e] h1]; cbn in *; [rewrite Hc; auto|].
  destruct (HE e _ _ Hp). by destruct Hc as [->| ->].
Qed.
Lemma spec_idle (P : view) c (E : ApplyError → view) : (∀ h : H, kernel (exec c None h).2 = kernel h) → (∀ e f u, P f u → E e f u) → spec P (run (H:=H) c None) (fun _ => P) E.
Proof. intros Hc HE. apply spec_run. intros h Hp. rewrite Hc. destruct (exec c None h).1; auto. Qed.

Lemma spec_get_noresolv (P : view) (E : ApplyError → view) : (∀ e f u, P f u → E e f u) →
  spec P (uci_get_with (H:=H) NORESOLV) (fun o f u => P f u ∧ o = noresolv u) E.
Proof.
  intros HE. unfold uci_get_with. eapply (spec_try _ _ _ (fun t f u => P f u ∧ noresolv u = Some (str_trim t) ∧ str_trim t ≠ ""%string)
    (fun e f u => P f u ∧ (entry_not_found e = true → noresolv u = None))).
  - apply spec_run. intros h Hp. destruct (get_noresolv h) as [-> Hr]. destruct (exec _ _ h).1; (split; [exact Hp|exact Hr]).
  - intros t. apply spec_ret. intros f u (Hp & -> & Ht). by rewrite bool_decide_eq_false_2.
  - intros e. destruct (entry_not_found e); [apply spec_ret|apply spec_err]; intros f u [Hp Hn]; [|auto]. by rewrite Hn.
Qed.
Lemma spec_get_server (P : view) (E : ApplyError → view) : (∀ e f u, P f u → E e f u) →
  spec P (uci_get_with (H:=H) SERVER) (fun o f u => P f u ∧ split_whitespace (default ""%string o) = servers u) E.
Proof.
  intros HE. unfold uci_get_with. eapply (spec_try _ _ _ (fun t f u => P f u ∧ split_whitespace (str_trim t) = servers u)
    (fun e f u => P f u ∧ (entry_not_found e = true → servers u = []))).
  - apply spec_run. intros h Hp. destruct (get_server h) as [-> Hr]. by destruct (exec _ _ h).1.
  - intros t. apply spec_ret. intros f u [Hp Ht]. case_bool_decide as He; [|done]. by rewrite <-Ht, He.
  - intros e. destruct (entry_not_found e); [apply spec_ret|apply spec_err]; intros f u [Hp Hn]; [|auto]. by rewrite Hn.
Qed.

Lemma spec_read_state (P : view) (E : ApplyError → view) : (∀ e f u, P f u → E e f u) → spec P (read_state (H:=H)) (fun m f u => P f u ∧ m = state_of f) E.
Proof.
  intros HE. unfold read_state. eapply spec_bind; [apply (spec_read P _ (fun o f u => P f u ∧ o = f !! STATE_PATH)); auto|]. intros o. apply spec_ret. intros f u [Hp ->]. done.
Qed.
Lemma spec_write_state (P Q : view) (E : ApplyError → view) m : (∀ f u, P f u → Q (<[STATE_PATH := state_body m]> f) u) →
  (∀ e f u, P f u → E e f u ∧ E e (<[STATE_PATH := state_body m]> f) u) → spec P (write_state (H:=H) m) (fun _ => Q) E.
Proof. intros HQ HE. by apply spec_save. Qed.

(** ** Setting *)

Ltac one_line_key := by repeat constructor.

Lemma near_set u : Near u → Near (with_noresolv (Some "1"%string) u).
Proof. intros [Hs _]. split; [done|by right]. Qed.
Lemma near_add u : Near u → ¬ (d ∈ servers u) → Near (with_servers (servers u ++ [d]) u).
Proof. intros [[Hs|Hs] Hn] Hd; (split; [|done]); [right; cbn; by rewrite Hs|]. rewrite Hs in Hd. set_solver. Qed.

Lemma found_insert k x m : k ≠ "had_noresolv"%string → k ≠ "noresolv"%string → Found m → Found (<[k := x]> m).
Proof. intros H1 H2. unfold Found. destruct (noresolv u0); rewrite !lookup_insert_ne; done. Qed.
Lemma found_delete k m : k ≠ "had_noresolv"%string → k ≠ "noresolv"%string → Found m → Found (delete k m).
Proof. intros H1 H2. unfold Found. destruct (noresolv u0); rewrite !lookup_delete_ne; done. Qed.

Lemma spec_note_found m (P : view) (E : ApplyError → view) : (∀ f u, P f u → Holds f u ∧ m = state_of f) → (∀ e f u, P f u → E e f u) →
  spec P (note_found (H:=H) (delete "applied"%string m)) (fun k f u => P f u ∧ Clean k ∧ Found k) E.
Proof.
  intros HP HE. unfold note_found. rewrite lookup_delete_ne by done. apply (spec_pure _ (m = ∅ ∨ Noted m)).
  { intros f u Hp. destruct (HP _ _ Hp) as [[[?%state_none _]|[? _]] ->]; auto. }
  intros [->|(Hc & _ & Hf)].
  - rewrite lookup_empty. eapply spec_bind; [apply spec_get_noresolv; done|]. intros o. apply spec_ret. intros f u [Hp Ho]. split; [done|].
    destruct (HP _ _ Hp) as [[[_ ->]|[Hn _]] Hm]; [|by apply noted_nonempty in Hn; rewrite <-Hm in Hn]. unfold Found. pose proof (si_option HS) as Hx.
    rewrite delete_empty. subst o. destruct (noresolv u0) as [x|]; (split; [|by simplify_map_eq]).
    + destruct (Hx x eq_refl). apply clean_insert; [apply clean_insert; [apply clean_empty|..]|..]; done || one_line_key.
    + apply clean_insert; [apply clean_empty|..]; one_line_key.
  - assert (∀ n : st H ApplyError State, match m !! "had_noresolv"%string with Some _ => mret (delete "applied"%string m) | None => n end = mret (delete "applied"%string m)) as ->.
    { intros n. unfold Found in Hf. destruct (noresolv u0); [destruct Hf as [-> _]|rewrite Hf]; done. }
    apply spec_ret. intros f u Hp. split_and!; [done|by apply clean_delete|by apply found_delete].
Qed.

Lemma noted_dns m : Clean m → Found m → Noted (<["dns"%string := d]> m).
Proof.
  intros Hc Hf. split_and!; [apply clean_insert; [done|one_line_key|one_line_key|apply (si_server HS)]|by rewrite lookup_insert_eq|by apply found_insert].
Qed.
Lemma noted_applied m : Noted m → Noted (<["applied"%string := "1"%string]> m).
Proof.
  intros (Hc & Hd & Hf). split_and!; [apply clean_insert; [done|one_line_key..]|by rewrite lookup_insert_ne|by apply found_insert].
Qed.
Lemma holds_near f u : Holds f u → Near u.
Proof. intros [[_ ->]|[_ ?]]; [apply near_u0|done]. Qed.
Lemma holds_save m f u : Noted m → Near u → Holds (<[STATE_PATH := state_body m]> f) u.
Proof. intros Hm Hu. right. rewrite state_save by apply Hm. done. Qed.

Lemma spec_openwrt_set : spec Holds (openwrt_set (H:=H) d) (fun _ => Holds) (fun _ => Holds).
Proof.
  unfold openwrt_set. eapply spec_bind; [by apply spec_read_state|]. intros m. unfold set_openwrt_with. case_if; [by apply spec_ret; intros f u []|].
  eapply spec_bind; [apply (spec_note_found m _ (fun _ => Holds)); [done|by intros e f u []]|]. intros k.
  apply (spec_pure _ (Clean k ∧ Found k)); [by intros f u [_ ?]|]. intros [Hc Hf]. pose proof (noted_dns k Hc Hf) as Hk. set (k' := <["dns"%string := d]> k) in *.
  set (At := fun f u => Noted (state_of f) ∧ Near u). assert (∀ f u, At f u → Holds f u) as Hat by (intros f u ?; by right).
  eapply (spec_bind _ _ _ (fun _ => At)).
  { apply spec_write_state.
    - intros f u [[Hh _] _]. split; [by rewrite state_save by apply Hk|by eapply holds_near].
    - intros e f u [[Hh _] _]. split; [done|]. apply holds_save; [done|by eapply holds_near]. }
  intros u0'. eapply (spec_bind _ _ _ (fun _ => At)).
  { apply (spec_uci_change _ _ _ _ (with_noresolv (Some "1"%string))); [intros h; apply (set_noresolv "1" h)| |].
    - intros f u [Hn Hu]. split; [done|by apply near_set].
    - intros e f u [Hn Hu]. split; apply Hat; (split; [done|]); [done|by apply near_set]. }
  intros t. eapply spec_bind; [apply spec_get_server; intros e; exact Hat|]. intros found. eapply (spec_bind _ _ _ (fun _ => At)).
  { destruct (existsb _ _) eqn:He; [by apply spec_ret; intros f u []|]. eapply (spec_bind _ _ _ (fun _ => At)); [|intros t1; by apply spec_ret].
    assert (∀ f u, At f u ∧ split_whitespace (default ""%string found) = servers u → At f (with_servers (servers u ++ [d]) u)) as Hadd.
    { intros f u [[Hn Hu] Hs]. split; [done|]. apply near_add; [done|]. rewrite <-Hs. intros Hin. apply not_true_iff_false in He. apply He, existsb_exists.
      exists d. split; [by apply list_elem_of_In|by apply bool_decide_eq_true]. }
    apply (spec_uci_change _ _ _ _ (fun u => with_servers (servers u ++ [d]) u)); [intros h; apply (add_server d h)|exact Hadd|].
    intros e f u Hp. split; apply Hat; [by destruct Hp|by apply Hadd]. }
  intros t1. eapply spec_bind; [apply (spec_idle At _ _ commit_kernel); intros e; exact Hat|intros t2].
  eapply spec_bind; [apply (spec_idle At _ _ restart_kernel); intros e; exact Hat|intros t3].
  pose proof (noted_applied k' Hk) as Hka. apply spec_write_state.
  - intros f u [_ Hu]. by apply holds_save.
  - intros e f u Hp. split; [by apply Hat|]. apply holds_save; [done|by destruct Hp].
Qed.

(** ** Clearing *)

Lemma near_del u : Near u → servers (with_servers (filter (.≠ d) (servers u)) u) = servers u0.
Proof.
  assert (filter (.≠ d) (servers u0) = servers u0) as Hf.
  { pose proof (si_new HS) as Hn. induction (servers u0) as [|x l IH]; [done|]. rewrite filter_cons_True by set_solver. f_equal. apply IH. set_solver. }
  intros [[Hs|Hs] _]; cbn; rewrite Hs; [done|]. rewrite list.filter_app, Hf, filter_cons_False by auto. by rewrite app_nil_r.
Qed.

Lemma spec_restore_noresolv m (P : view) : Found m → (∀ f u, P f u → Near u ∧ Noted (state_of f) ∧ servers u = servers u0) →
  spec P (restore_noresolv (H:=H) m) (fun _ f u => Noted (state_of f) ∧ u = u0) (fun _ => Holds).
Proof.
  intros Hf HP. unfold restore_noresolv.
  assert (∀ c, (∀ h : H, match (exec c None h).1 with inl _ => kernel (exec c None h).2 = with_noresolv (noresolv u0) (kernel h)
      | inr _ => kernel (exec c None h).2 = kernel h ∨ kernel (exec c None h).2 = with_noresolv (noresolv u0) (kernel h) end) →
    spec P (_ ← run (H:=H) c None; mret tt) (fun _ f u => Noted (state_of f) ∧ u = u0) (fun _ => Holds)) as Hrun.
  { intros c Hc. eapply (spec_bind _ _ _ (fun _ f u => Noted (state_of f) ∧ u = u0)); [|intros t; by apply spec_ret]. apply (spec_uci_change _ (fun f u => Noted (state_of f) ∧ u = u0) _ _ (with_noresolv (noresolv u0))); [done|..].
    - intros f u Hp. destruct (HP _ _ Hp) as (_ & Hn & Hs). split; [done|]. destruct u, u0. cbn in *. by subst.
    - intros e f u Hp. destruct (HP _ _ Hp) as (Hu & Hn & Hs). split; right; (split; [done|]); [done|]. split; cbn; auto. }
  unfold Found in Hf. destruct (noresolv u0) as [x|].
  - destruct Hf as [-> ->]. rewrite bool_decide_eq_true_2 by done. apply Hrun. intros h. apply (set_noresolv x h).
  - rewrite Hf. rewrite bool_decide_eq_false_2, bool_decide_eq_true_2 by done. apply Hrun. intros h. apply (delete_noresolv h).
Qed.

Lemma spec_openwrt_clear : spec Holds (openwrt_clear (H:=H)) (fun _ f u => f !! STATE_PATH = None ∧ u = u0) (fun _ => Holds).
Proof.
  unfold openwrt_clear. eapply spec_bind; [by apply spec_read_state|]. intros m. unfold clear_openwrt_with.
  destruct (decide (m = ∅)) as [->|Hm].
  - rewrite bool_decide_eq_true_2 by done. apply spec_ret. intros f u [[?|[Hn _]] He]; [done|]. by apply noted_nonempty in Hn; rewrite <-He in Hn.
  - rewrite bool_decide_eq_false_2 by done. apply (spec_pure _ (Noted m)); [by intros f u [[[He%state_none _]|[? _]] ->]|]. intros (_ & Hd & Hf). rewrite Hd.
    eapply (spec_bind _ _ _ (fun _ f u => Noted (state_of f) ∧ u = u0)).
    + eapply (spec_bind _ _ _ (fun _ f u => Near u ∧ Noted (state_of f) ∧ servers u = servers u0)).
      { eapply (spec_bind _ _ _ (fun _ f u => Near u ∧ Noted (state_of f) ∧ servers u = servers u0)); [|intros t; by apply spec_ret]. set (g := fun u => with_servers (filter (.≠ d) (servers u)) u).
        assert (∀ f u, Holds f u ∧ m = state_of f → Near (g u) ∧ Noted (state_of f) ∧ servers (g u) = servers u0) as Hg.
        { intros f u [Hh ->]. pose proof (near_del u (holds_near _ _ Hh)) as Hs. split_and!; [split; [by left|by destruct (holds_near _ _ Hh)]|by destruct Hh as [[?%state_none _]|[? _]]|done]. }
        apply (spec_uci_change _ (fun f u => Near u ∧ Noted (state_of f) ∧ servers u = servers u0) _ _ g); [intros h; apply (del_server d h)|exact Hg|].
        intros e f u Hp. split; [by destruct Hp|]. destruct (Hg _ _ Hp) as (? & ? & _). by right. }
      intros t. eapply spec_bind; [by apply (spec_restore_noresolv m)|]. intros t1.
      assert (∀ (e : ApplyError) f u, Noted (state_of f) ∧ u = u0 → Holds f u) as Hh by (intros e f u [? ->]; right; split; [done|apply near_u0]).
      eapply spec_bind; [apply (spec_idle _ _ _ commit_kernel Hh)|intros t2]. eapply spec_bind; [apply (spec_idle _ _ _ restart_kernel Hh)|intros t3]. by apply spec_ret.
    + intros t. apply spec_remove.
      * intros f u [_ ->]. split; [|done]. by rewrite lookup_delete_eq.
      * intros e f u [? ->]. right. split; [done|apply near_u0].
Qed.
End Inv.

(** ** A simulated [uci] *)

Definition uci_missing (c : list string) : ApplyError := mkApplyError c (Some 1) "uci: Entry not found" Other.
Definition uci_failed (c : list string) : ApplyError := mkApplyError c (Some 2) "uci: Invalid argument" Other.

#[export] Instance uci_commands : Commands Uci := fun c _ u =>
  match c with
  | ["uci"; op; arg]%string =>
      if bool_decide (op = "get"%string) then
        if bool_decide (arg = NORESOLV) then
          match noresolv u with
          | Some x => (if bool_decide (str_trim (x ++ eol) = x ∧ x ≠ ""%string) then inl (x ++ eol)%string else inr (uci_failed c), u)
          | None => (inr (uci_missing c), u)
          end
        else match servers u with
             | [] => (inr (uci_missing c), u)
             | l => let t := String.concat " " l in (if bool_decide (split_whitespace (str_trim t) = l) then inl t else inr (uci_failed c), u)
             end
      else if bool_decide (op = "delete"%string) then
        match noresolv u with Some _ => (inl ""%string, with_noresolv None u) | None => (inr (uci_missing c), u) end
      else match strip_prefix (NORESOLV ++ "=") arg, strip_prefix (SERVER ++ "=") arg with
           | Some x, _ => (inl ""%string, with_noresolv (Some x) u)
           | _, Some x => (inl ""%string, with_servers (if bool_decide (op = "add_list"%string) then servers u ++ [x] else filter (.≠ x) (servers u)) u)
           | _, _ => (inl ""%string, u)
           end
  | _ => (inl ""%string, u)
  end.

Lemma strip_noresolv x : strip_prefix (NORESOLV ++ "=") (NORESOLV ++ "=" ++ x) = Some x.
Proof. rewrite <-append_assoc. apply strip_text_app. Qed.
Lemma strip_server x : strip_prefix (NORESOLV ++ "=") (SERVER ++ "=" ++ x) = None ∧ strip_prefix (SERVER ++ "=") (SERVER ++ "=" ++ x) = Some x.
Proof. split; [done|]. rewrite <-append_assoc. apply strip_text_app. Qed.

Lemma uci_change c (g : Uci → Uci) (h : sim Uci) : (∀ u, command_on c None u = (inl ""%string, g u)) →
  match (exec c None h).1 with inl _ => kernel (exec c None h).2 = g (kernel h)
  | inr _ => kernel (exec c None h).2 = kernel h ∨ kernel (exec c None h).2 = g (kernel h) end.
Proof. intros Hc. cbn. unfold sim_exec. rewrite Hc. destruct (hd _ _); cbn; auto. Qed.

Ltac decide_text := repeat first [rewrite bool_decide_eq_true_2 by reflexivity|rewrite bool_decide_eq_false_2 by discriminate].
Ltac uci_run := unfold command_on, uci_commands, uci_set, uci_list; decide_text.

#[export] Instance uci_sim_laws : UciLaws (sim Uci).
Proof.
  split.
  - intros h. cbn [exec sim_os kernel sim_laws]. unfold sim_exec. uci_run. destruct (noresolv (sim_state h)) as [x|]; [|by destruct (hd _ _)].
    case_bool_decide as Ht; destruct (hd _ _); cbn -[str_trim]; try done. by destruct Ht as [-> Hn].
  - intros h. cbn [exec sim_os kernel sim_laws]. unfold sim_exec. uci_run. destruct (servers (sim_state h)) as [|x l]; [by destruct (hd _ _)|].
    cbn zeta. case_bool_decide as Ht; destruct (hd _ _); cbn -[str_trim String.concat split_whitespace]; done.
  - intros x h. apply (uci_change _ (with_noresolv (Some x))). intros u. uci_run. by rewrite strip_noresolv.
  - intros x h. apply (uci_change _ (fun u => with_servers (servers u ++ [x]) u)). intros u. uci_run. by destruct (strip_server x) as [-> ->].
  - intros x h. apply (uci_change _ (fun u => with_servers (filter (.≠ x) (servers u)) u)). intros u. uci_run. by destruct (strip_server x) as [-> ->].
  - intros h. cbn [exec sim_os kernel sim_laws]. unfold sim_exec. uci_run. destruct (sim_state h) as [[x|] l]; destruct (hd _ _); cbn; auto.
  - intros h. cbn [exec sim_os kernel sim_laws]. unfold sim_exec. uci_run. change (strip_prefix (NORESOLV ++ "=") "dhcp") with (@None string).
    change (strip_prefix (SERVER ++ "=") "dhcp") with (@None string). by destruct (hd _ _).
  - intros h. cbn [exec sim_os kernel sim_laws]. unfold sim_exec. by destruct (hd _ _).
Qed.

(** ** Properties *)

(** [true]: set the server [d]; [false]: clear.  Each may fail. *)
Definition openwrt_calls {H} `{!HostOs H} (d : string) (l : list bool) (h : H) : H :=
  foldl (fun h (set : bool) => ((if set then openwrt_set d else openwrt_clear) h).2) h l.

Lemma openwrt_calls_hold {H} `{!HostOs H} `{!HostLaws H Uci} `{!UciLaws H} d u0 l (h : H) :
  Site d u0 → Holds d u0 (files h) (kernel h) → Holds d u0 (files (openwrt_calls d l h)) (kernel (openwrt_calls d l h)).
Proof.
  intros HS. unfold openwrt_calls. revert h. induction l as [|b l IH]; intros h Hh; [done|]. cbn [foldl]. apply IH. destruct b.
  - pose proof (spec_openwrt_set d u0 HS h _ _ Hh (surjective_pairing _)) as Hp. by destruct (openwrt_set d h).1.
  - pose proof (spec_openwrt_clear d u0 HS h _ _ Hh (surjective_pairing _)) as Hp. destruct (openwrt_clear h).1; [|done..]. destruct Hp. by left.
Qed.

(** C36.  On OpenWrt a node sets one name server, always the same, and clears it, any number of
    times and with any command or write failing, done or not.  If the server was not among
    dnsmasq's servers before, no state file was there, and the server and the option
    [noresolv] are texts of one line, then when a clear succeeds, the options of dnsmasq are
    what they were before the first set, and the state file does not exist.  (A server that is
    replaced by another stays; one that was there already is removed.) *)
Theorem openwrt_restores {H} `{!HostOs H} `{!HostLaws H Uci} `{!UciLaws H} d l (h h' : H) :
  Site d (kernel h) → files h !! STATE_PATH = None → openwrt_clear (openwrt_calls d l h) = (Ok tt, h') →
  kernel h' = kernel h ∧ files h' !! STATE_PATH = None.
Proof.
  intros HS Hf Hc. assert (Holds d (kernel h) (files h) (kernel h)) as Hh by (by left).
  pose proof (spec_openwrt_clear d (kernel h) HS _ _ _ (openwrt_calls_hold d (kernel h) l h HS Hh) Hc) as [? ?]. done.
Qed.

Definition demo_uci : sim Uci := mkSim ∅ (mkUci None ["192.0.2.53"%string]) [].
(** The third command of the set fails, done; the second set succeeds. *)
Definition demo_uci_fault : sim Uci := mkSim ∅ (mkUci (Some "0"%string) ["192.0.2.53"%string]) (replicate 3 Works ++ [FailsAfter]).
Definition demo_uci_cleared : sim Uci := (openwrt_clear (openwrt_calls "10.0.0.1" [true; true] demo_uci_fault)).2.
Lemma demo_uci_clear : openwrt_clear (openwrt_calls "10.0.0.1" [true; true] demo_uci_fault) = (Ok tt, demo_uci_cleared).
Proof. unfold demo_uci_cleared. vm_compute. reflexivity. Qed.
Lemma demo_uci_site : Site "10.0.0.1" (mkUci (Some "0"%string) ["192.0.2.53"%string]).
Proof.
  split; [cbn; intros Hin; apply list_elem_of_singleton in Hin; discriminate|repeat constructor; discriminate|].
  intros x [= <-]. split; [repeat constructor; discriminate|discriminate].
Qed.
Lemma openwrt_restores_witness : kernel demo_uci_cleared = mkUci (Some "0"%string) ["192.0.2.53"%string].
Proof. exact (proj1 (openwrt_restores "10.0.0.1" [true; true] demo_uci_fault demo_uci_cleared demo_uci_site eq_refl demo_uci_clear)). Defined.

(** Another server takes the place of the first in the state file but not in the options:
    the clear removes only the last, and dnsmasq keeps asking the first. *)
Lemma openwrt_change_leaks :
  let '(r1, h) := openwrt_set "10.0.0.1" demo_uci in
  let '(r2, h) := openwrt_set "10.0.0.2" h in
  let '(r3, h) := openwrt_clear h in
  (r1, r2, r3) = (Ok tt, Ok tt, Ok tt) ∧ sim_state h = mkUci None ["192.0.2.53"; "10.0.0.1"]%string ∧ sim_files h !! STATE_PATH = None.
Proof. vm_compute. split_and!; reflexivity. Qed.

(** The option was not set before, and a clear fails as it restarts dnsmasq: every later
    clear fails on the option it already deleted, and changes nothing. *)
Lemma openwrt_clear_stuck :
  let h := (openwrt_clear (openwrt_set "10.0.0.1" (mkSim ∅ (mkUci None ["192.0.2.53"%string]) (replicate 13 Works ++ [Fails]))).2).2 in
  openwrt_clear h = (Err (uci_missing ["uci"; "delete"; NORESOLV]%string), h) ∧ is_Some (sim_files h !! STATE_PATH).
Proof. vm_compute. split; [reflexivity|eauto]. Qed.
