(* ===== verification/DnsBackends.v ===== *)
(** * The DNS backends behind the interface of the node

    [HostEffects] calls its resolver through [DnsBackend], and the theorems about the routes
    of the host rely on [DnsLaws]: no call of the backend touches the routing table.  Both
    backends of node/src/dns.rs are instances, over a host whose commands for the resolver
    leave the table alone. *)

From Stdlib Require Import Strings.Ascii Strings.String.
From S2P Require Import Prelude.
From S2P Require Import Words.
From S2P Require Import NetText.
From S2P Require Import Prefix.
From S2P Require Import Apply.
From S2P Require Import HostRun.
From S2P Require Import Rib.
From S2P Require Import Bypass.
From S2P Require Import HostEffects.
From S2P Require Import NodeSpec.
From S2P Require Import DnsFile.
From S2P Require Import DnsSpec.
From S2P Require Import DnsInv.
From S2P Require Import DnsUci.

(** [impl Dns for Managed] and [impl Dns for OpenWrtDnsmasq]. *)
Definition managed_dns {H} `{!HostOs H} `{!LinkOs H} `{!Serde Journal} (self : Managed) (id now : Z) : DnsBackend H :=
  {| set_mode := set_mode_with self id now; clear := clear_with self id; owned_dns := owned self; verify_file := verify_file_with self id now |}.
Definition openwrt_dns {H} `{!HostOs H} : DnsBackend H :=
  {| set_mode dns _ := openwrt_set dns; clear := openwrt_clear; owned_dns := openwrt_owned; verify_file := mret tt |}.

(** Which of them a host gets: by the environment, else by the commands it has. *)
Inductive Backend := OpenWrtDnsmasq | ManagedDns (self : Managed).

Definition command_exists {H} `{!HostOs H} (bin : string) : st H ApplyError bool :=
  r ← attempt (run ["sh"; "-c"; "command -v " ++ bin]%string None); mret (is_ok r).
Definition path_exists {H} `{!HostOs H} (path : string) : st H ApplyError bool :=
  r ← attempt (read path); mret (match r with Ok (Some _) => true | _ => false end).

Definition detect_for_iface {H} `{!HostOs H} (env : option string) (iface : option string) : st H ApplyError Backend :=
  let among l := match env with Some e => existsb (fun x => bool_decide (x = e)) l | None => false end in
  if among ["openwrt"; "dnsmasq"; "uci"]%string then mret OpenWrtDnsmasq
  else if among ["resolvectl"]%string then mret (ManagedDns (managed_new iface true))
  else if among ["resolv"; "resolvconf"]%string then mret (ManagedDns (managed_new iface false))
  else
    uci ← command_exists "uci";
    dhcp ← (if uci : bool then path_exists "/etc/config/dhcp" else mret false);
    if dhcp : bool then mret OpenWrtDnsmasq
    else resolvectl ← command_exists "resolvectl"; mret (ManagedDns (managed_new iface resolvectl)).

Definition backend_dns_of {H} `{!HostOs H} `{!LinkOs H} `{!Serde Journal} (b : Backend) (id now : Z) : DnsBackend H :=
  match b with OpenWrtDnsmasq => openwrt_dns | ManagedDns self => managed_dns self id now end.

Definition resolver_command (c : list string) : Prop :=
  match c with p :: _ => p = "resolvectl"%string ∨ p = "uci"%string ∨ p = "/etc/init.d/dnsmasq"%string | [] => False end.

Section Stays.
Context {H : Type} `{!HostOs H} `{!HostLaws H (list rib)} `{!LinkOs H} `{!LinkLaws H (list rib)} `{!Serde Journal}.
Context (Hcmd : ∀ c i (h : H), resolver_command c → kernel (exec c i h).2 = kernel h).

Lemma host_ret {A} (a : A) : stays (mret a : st H ApplyError A).
Proof. intros P. by apply spec_ret. Qed.
Lemma host_lift {A} (r : res ApplyError A) : r ≠ Panic → stays (lift r : st H ApplyError A).
Proof. intros Hr P. by apply spec_lift. Qed.
Lemma host_ok_or {A} (o : option A) e : stays (lift (ok_or o e) : st H ApplyError A).
Proof. apply host_lift. by destruct o. Qed.
Lemma host_err {A} e : stays (lift (Err e) : st H ApplyError A).
Proof. by apply host_lift. Qed.
Lemma host_bind {A C} (m : st H ApplyError A) (k : A → st H ApplyError C) : stays m → (∀ a, stays (k a)) → stays (m ≫= k).
Proof. intros Hm Hk P. eapply spec_bind; [apply (Hm P)|]. intros a. apply Hk. Qed.
Lemma host_attempt {A} (m : st H ApplyError A) : stays m → stays (attempt m).
Proof. intros Hm P. apply spec_tried. apply Hm. Qed.
Lemma host_read p : stays (read p : st H ApplyError (option string)).
Proof. intros P. by apply spec_read. Qed.
Lemma host_save p c : stays (save p c : st H ApplyError unit).
Proof. intros P. by apply spec_save. Qed.
Lemma host_remove p : stays (HostRun.remove p : st H ApplyError unit).
Proof. intros P. by apply spec_remove. Qed.
Lemma host_run c : resolver_command c → stays (run c None : st H ApplyError string).
Proof.
  intros Hc P h r h' Hp. unfold run, of_sum. pose proof (Hcmd c None h Hc) as Hk. destruct (exec c None h) as [[t|e] h1]; intros [= <- <-]; cbn in *; by rewrite Hk.
Qed.
Lemma host_metadata p : stays (of_sum (symlink_metadata p) : st H ApplyError _).
Proof. intros P. eapply spec_weaken; [apply (spec_metadata (fun _ => P))|done|by intros a f x []|done]. Qed.
Lemma host_read_link p : stays (of_sum (read_link p) : st H ApplyError _).
Proof. intros P. eapply spec_weaken; [apply (spec_read_link (fun _ => P))|done|by intros a f x []|done]. Qed.
Lemma host_canonicalize p : stays (of_sum (canonicalize (path_text p)) : st H ApplyError _).
Proof. intros P. eapply spec_weaken; [apply (spec_canonicalize (fun _ => P))|done|by intros a f x []|done]. Qed.
Lemma host_wait_lock p : stays (wait_lock p : st H ApplyError unit).
Proof. intros P. apply (spec_wait_lock (fun _ => P)). Qed.
Lemma host_create_dir p : stays (of_option (create_dir_all p) : st H ApplyError unit).
Proof.
  intros P h r h' Hp. unfold of_option. pose proof (create_dir_view p h) as [_ Hk]. destruct (create_dir_all p h) as [[e|] h1]; intros [= <- <-]; cbn in *; by rewrite Hk.
Qed.
Lemma host_open_lock p : stays (of_option (open_lock p) : st H ApplyError unit).
Proof.
  intros P h r h' Hp. unfold of_option. pose proof (open_lock_kernel p h) as Hk. destruct (open_lock p h) as [[e|] h1]; intros [= <- <-]; cbn in *; by rewrite Hk.
Qed.
Lemma held_save rt : stays_with (save_journal rt : st (Journal * H) ApplyError unit).
Proof. apply stays_bind; [apply stays_get|]. intros j P. eapply (spec_save (H:=Journal * H) (X:=Journal * list rib)); [by intros f []|by intros e f []]. Qed.
Lemma held_for {A} (l : list A) (body : A → st (Journal * H) ApplyError unit) : (∀ x, stays_with (body x)) → stays_with (for_each l body).
Proof. intros Hb. induction l as [|x l IH]; cbn [for_each]; [apply stays_ret|]. apply stays_bind; [apply Hb|]. intros u. apply IH. Qed.
Lemma held_all l : stays_with (lift (all l) : st (Journal * H) ApplyError unit).
Proof. apply stays_lift, all_safe. Qed.
Lemma held_err {A} e : stays_with (lift (Err e) : st (Journal * H) ApplyError A).
Proof. by apply stays_lift. Qed.
Lemma held_lock {A} rt (m : st (Journal * H) ApplyError A) : stays (open_journal rt) → stays_with m → stays (with_lock rt m).
Proof.
  intros Ho Hm. unfold with_lock. apply host_bind; [done|]. intros j P h r h' Hp. destruct (m (j, h)) as [y [j1 h1]] eqn:Hy.
  specialize (Hm P (j, h) y (j1, h1) Hp Hy). intros [= <- <-]. by destruct y.
Qed.

Lemma held_try {A C} (m : st (Journal * H) ApplyError A) (k : res ApplyError A → st (Journal * H) ApplyError C) :
  stays_with m → (∀ a, stays_with (k (Ok a))) → (∀ e, stays_with (k (Err e))) → stays_with (attempt m ≫= k).
Proof. intros Hm Ha He P. eapply spec_try; [apply (Hm P)|intros a; apply (Ha a P)|intros e; apply (He e P)]. Qed.

(** One step of a method. *)
Ltac stay :=
  first
    [ assumption | solve [auto 2 with stays nocore] | apply host_ret | apply host_ok_or | apply host_err | apply host_read | apply host_save | apply host_remove | apply host_metadata | apply host_read_link
    | apply host_canonicalize | apply host_wait_lock | apply host_create_dir | apply host_open_lock
    | apply host_run; cbn; by auto
    | apply host_attempt | apply host_bind; [|intros ?]
    | apply stays_get | apply stays_put | apply stays_modify | apply stays_ret | apply held_all | apply held_err | apply held_save
    | apply stays_host | apply held_try; [|intros ?|intros ?] | apply stays_attempt | apply held_for; intros ? | apply stays_bind; [|intros ?]
    | apply host_lift; by repeat case_match | apply stays_lift; by repeat case_match
    | case_match ].
Ltac stay_all := repeat stay.

Lemma host_resolve fuel p : stays (resolve fuel p : st H ApplyError Path).
Proof. revert p. induction fuel as [|fuel IH]; intros p; cbn [resolve]; stay_all; apply IH. Qed.
Lemma host_target p : stays (target p : st H ApplyError Path).
Proof. apply host_resolve. Qed.
#[local] Hint Resolve host_target : stays.
Lemma host_open rt : stays (open_journal rt : st H ApplyError Journal).
Proof. unfold open_journal. stay_all. apply host_lift. unfold parse_journal, ok_or. by repeat case_match. Qed.
Lemma host_check_alive {A} (pr : A → Process) current l : stays (check_alive pr current l : st H ApplyError _).
Proof. induction l as [|x l IH]; cbn [check_alive]; [stay|]. unfold alive, process_start, read_to_string. stay_all. Qed.
Lemma host_same_target p o : stays (same_target p o : st H ApplyError bool).
Proof. unfold same_target, link. stay_all. Qed.
Lemma host_resolved_set c i l : stays (resolved_set c i l : st H ApplyError unit).
Proof. unfold resolved_set. stay_all. Qed.
Lemma host_current id : stays (current_process id : st H ApplyError Process).
Proof. unfold current_process, process_start, read_to_string. stay_all. Qed.
#[local] Hint Resolve host_open host_check_alive host_same_target host_resolved_set host_current : stays.

Lemma host_read_original p process : stays (read_original p process : st H ApplyError OriginalFile).
Proof. unfold read_original, read_bytes, link. stay_all. Qed.
Lemma host_replace o c : stays (replace_file o c : st H ApplyError unit).
Proof. unfold replace_file. stay_all. Qed.
#[local] Hint Resolve host_read_original host_replace : stays.

Context (self : Managed).
Lemma held_release : stays_with (release_file self : st (Journal * H) ApplyError unit).
Proof. unfold release_file. stay_all. Qed.
#[local] Hint Resolve held_release : stays.
Lemma held_restore : stays_with (restore_file self : st (Journal * H) ApplyError unit).
Proof. unfold restore_file, read_bytes. stay_all. Qed.
#[local] Hint Resolve held_restore : stays.
Lemma held_prune current : stays_with (prune self current : st (Journal * H) ApplyError unit).
Proof. unfold prune, expire, discard. stay_all. Qed.
Lemma held_take dns process : stays_with (take_file self dns process : st (Journal * H) ApplyError unit).
Proof. unfold take_file. stay_all. Qed.
Lemma held_repair now top o actual : stays_with (repair_file self now top o actual : st (Journal * H) ApplyError unit).
Proof. unfold repair_file. stay_all. Qed.
#[local] Hint Resolve held_prune held_take held_repair : stays.
Lemma held_set_file dns process now : stays_with (set_file self dns process now : st (Journal * H) ApplyError unit).
Proof. unfold set_file, read_bytes. stay_all. Qed.
Lemma held_save_link process : stays_with (save_link self process : st (Journal * H) ApplyError bool).
Proof. unfold save_link, query, resolved_values. stay_all. Qed.
Lemma held_set_link servers full : stays_with (set_link self servers full : st (Journal * H) ApplyError unit).
Proof. unfold set_link. stay_all. Qed.
Lemma held_clear_link : stays_with (clear_link self : st (Journal * H) ApplyError unit).
Proof. unfold clear_link. stay_all. Qed.
Lemma held_clear_file : stays_with (clear_file self : st (Journal * H) ApplyError unit).
Proof. unfold clear_file. stay_all. Qed.
#[local] Hint Resolve held_set_file held_save_link held_set_link held_clear_link held_clear_file : stays.

Ltac stay_locked := repeat first [apply held_lock; [apply host_open|]|stay].

(** The file backend, and the one of OpenWrt. *)
Lemma managed_laws id now : @DnsLaws H _ _ (managed_dns self id now).
Proof.
  split; intros; cbn [set_mode clear owned_dns verify_file managed_dns].
  - unfold set_mode_with. stay_locked.
  - unfold clear_with. stay_locked.
  - unfold owned. stay_all.
  - unfold verify_file_with. stay_locked.
Qed.
Lemma openwrt_laws : @DnsLaws H _ _ openwrt_dns.
Proof.
  assert (∀ key, stays (uci_get_with key : st H ApplyError (option string))) as Hget by (intros key; unfold uci_get_with; stay_all).
  split; intros; cbn [set_mode clear owned_dns verify_file openwrt_dns].
  - unfold openwrt_set, read_state, set_openwrt_with, note_found, write_state. stay_all; apply Hget.
  - unfold openwrt_clear, read_state, clear_openwrt_with, restore_noresolv, remove_state. stay_all.
  - unfold openwrt_owned, read_state. stay_all.
  - apply host_ret.
Qed.
End Stays.

(** Whichever is chosen, the theorems about the routes of the host apply. *)
Lemma backend_laws {H} `{!HostOs H} `{!HostLaws H (list rib)} `{!LinkOs H} `{!LinkLaws H (list rib)} `{!Serde Journal} (b : Backend) (id now : Z) :
  (∀ c i (h : H), resolver_command c → kernel (exec c i h).2 = kernel h) → @DnsLaws H _ _ (backend_dns_of b id now).
Proof. intros Hc. destruct b; [by apply openwrt_laws|by apply managed_laws]. Qed.
